(* ===== verification/_CoqProject ===== *)
-Q . S2P
Prelude.v
Double.v
Exact.v
Precision.v
ObjectiveValue.v
AccessOrderedSet.v
Queues.v
ObjectStore.v
ChangeSet.v
IndexedAssignment.v
Assignment.v
EntityAttributes.v
Objective.v
Problem.v
Moves.v
LocalSearch.v
AssociativeMap.v
AssociativeFixedMap.v
EquivalenceSets.v
Bits.v
CompressedIdMap.v
ObjectValues.v
Affected.v
Lookup.v
Orchestrator.v
OrchestratorInit.v
OrchestratorIndex.v
OrchestratorLeaves.v
OrchestratorApply.v
OrchestratorEvaluate.v
Expressions.v
ExpressionFacts.v
ExpressionValues.v
ExpressionGraphs.v
Parallel.v
SingleMove.v
Iterators.v
IncrementalQueue.v
GroupQueue.v
Traversal.v
TraversalFacts.v
Potentials.v
PotentialsMerge.v
ParallelExecution.v
ExecutionSelector.v
MoveHelper.v
MoveTypes.v
MoveChains.v
Sampling.v
Bundles.v
SwapMoves.v
FixedMoves.v
GroupMoves.v
MoveFactory.v
Example.v
MoveExample.v
GraphExample.v
Entities.v
Scopes.v
Partitions.v
Goals.v
Routing.v
IdStore.v
Dimensions.v
DynamicDimension.v
ObjectDimensions.v
Universe.v
EntityGraph.v
Builders.v
AssignmentBuilder.v
ConcurrentBuilders.v
AsyncUniverseBuilder.v
SearchTheorems.v
DataTheorems.v
GraphTheorems.v
MoveTheorems.v
TraversalTheorems.v
EntityTheorems.v
BuilderTheorems.v
