(* ===== verification/Prelude.v ===== *)
(** * A verification development for facebook/rebalancer

    Rebalancer assigns objects to containers so that hard constraints hold and a
    tuple of objectives, compared lexicographically, is minimized.  The input is
    materialized into a graph of expressions over the assignment; a local search
    repeatedly picks a hot container, lets move types propose candidates,
    evaluates them against the graph and applies the best one.  This library
    models the core of that search as executable Rocq definitions and proves the
    properties that make it correct.  All paths below are relative to
    src/algopt/rebalancer/.

    ** The parts and the files that model them

    - [Prelude]: exceptions as values ([result]), vector accesses, loops that may
      throw ([foldM]), 64-bit arithmetic, list lemmas, the tactics [result_inv] and
      [bool_to_prop] and the hint database [rebalancer].
    - [Double]: IEEE 754 binary64 as Stdlib's [spec_float] at precision 53, with the
      exact value of a finite double as an integer multiple of the smallest
      subnormal ([val]); the facts on comparison and on the sign and symmetry of
      subtraction that the comparisons rely on.
    - [Precision]: algopt_common/Precision.cpp.
    - [ObjectiveValue]: solver/utils/GlobalObjectiveValue.cpp and the values of
      solver/utils/LocalSearchObjective.cpp.
    - [AccessOrderedSet]: algopt_common/AccessOrderedSetBase.h, -FastSet.h and
      -SortedSet.h; a linked list or [std::set] with a cursor, and the iterator whose
      destructor writes the cursor back.
    - [ObjectStore]: solver/utils/ObjectStore.cpp; the class [ObjectContainer] states
      what a store needs of a container, its four instances are the alternatives of
      the C++ variant; a hash set is visited in any order ([SetOrder]).
    - [ChangeSet]: solver/utils/Change.cpp, ChangeSet.cpp, solver/moves/Move.cpp and
      MoveSet.cpp.
    - [IndexedAssignment]: solver/utils/IndexedAssignment.h; the class [IndexLevel]
      stands for the one- and two-level overloads.
    - [Assignment]: solver/utils/Assignment.cpp and Assignment.h, and the abstract
      assignment they refine: a map from objects to containers with the indexes that were
      built ([Assignment.abstract], [Assignment.refines]).
    - [EntityAttributes]: solver/utils/EntityAttributesStore.cpp and
      OneObjectPerGroup.cpp; the class [EntityAttributes] is the C++ interface.
    - [Objective]: solver/utils/GlobalObjective.cpp and the objective of
      LocalSearchObjective.cpp, over the class [ExpressionGraph] that stands for the
      expressions and the orchestrator.  [LawfulGraph] and [EvaluableGraph] state what
      the search relies on: values are determined by the assignment, an evaluation
      predicts the value after the changes, applying legal moves succeeds.
    - [Problem]: solver/utils/Problem.cpp, apply and tryApply.
    - [Moves]: solver/moves/MoveResult.cpp and MovesEvaluator.cpp.
    - [LocalSearch]: solver/solvers/CoreLocalSearchSolve.cpp and
      HotContainerSelector.cpp; the solve loop is the step function [LocalSearch.step]
      on program points [LocalSearch.pc]; it starts with the custom equivalence sets, if
      configured, and its counters of moves have the widths of the code.  The class [SearchEnv] holds what the loop
      reads from outside: the clock, the traversal of the containers, the random seed,
      lower bounds and search hints.
    - [Parallel]: common/CoroUtils.h, parallelMapReduceAllPairs; the order in which
      batches finish is a parameter, so a theorem holds for every schedule.
    - [SingleMove]: solver/moves/SingleMoveType.cpp and
      AsyncSingleMovesMoveType.cpp.
    - [AssociativeMap], [EquivalenceSets] (solver/utils/equivalence_sets and
      ObjectDeduper-inl.h), [Bits] (algopt_common/DynamicBitSet.h and
      solver/moves/InvalidMoveFilter.cpp): data structures the search uses.
    - [Queues] (algopt_common/BucketedPriorityQueue.h, ValueSortedMap.h and
      solver/utils/PriorityInfo.h), [AssociativeFixedMap] (AssociativeFixedMap.h and
      AssociativeHybridMap.h), [CompressedIdMap], [ObjectValues]
      (entities/Partition.cpp and ObjectValueTypes.h): data structures the expressions
      use.  [Exact] holds the facts on sums of doubles without rounding.
    - [Affected]: solver/utils/AffectedByChangeInfo.cpp, what a leaf of the graph tells
      about the changes that affect it, and the net effect of changes.
    - [Lookup]: solver/expressions/ObjectVector.cpp and ObjectLookup.cpp.
    - [Orchestrator]: solver/expressions/Orchestrator.cpp, BottomToTopEvaluator.cpp and
      the caches of solver/utils/Context.h, over the class [ExpressionOps];
      [ExpressionLaws] states what the orchestrator relies on.  Its proofs are
      [OrchestratorInit] (order of the nodes), [OrchestratorIndex] (the index from
      changes to leaves), [OrchestratorLeaves] (the leaves a change set affects),
      [OrchestratorApply] and [OrchestratorEvaluate].
    - [Expressions]: the classes of solver/expressions with state, Variable,
      ObjectVector, ObjectLookup, LinearSum, Max, AnyPositive, Transform with its
      subclasses, ProductOperation, QuotientOperation and NthLargest, as one instance of
      [ExpressionOps].  [ExpressionFacts] and [ExpressionValues] give the value of each
      as a function of the placement and of the values of its children, and discharge
      [ExpressionLaws]; [ExpressionGraphs] builds graphs with the constructors and
      discharges [LawfulGraph] and [EvaluableGraph] for them.
    - [Iterators]: solver/iterators, Filter.h, Deduper.h, Transform.h, Range.h,
      CartesianProduct.h, MultiCollectionCartesianProduct.h, MapUnion.h and Timeout.h; the
      class [Iterator] is what a loop over one of them needs.
    - [ParallelExecution]: solver/utils/ParallelExecution.h; the window of pending tasks and
      the pool of consumers on a bounded queue as step relations of their threads, and as
      runs under a scheduler; the thread pool may refuse a task with an exception.
      [ExecutionSelector]: ParallelExecutionSelector.cpp.
    - [MoveHelper]: solver/moves/MoveHelper.cpp and MoveHelper-inl.h, the best of many
      candidates in parallel.
    - [MoveTypes], [MoveChains], [SwapMoves]: the findBestMove of the move types of
      solver/moves: SingleGreedy, SingleFast, SingleRandomStratified,
      SingleColdestStratified, SingleRandomBatches, SingleRandomObjectStratified and
      ReplicaDrop; SingleChain, SingleChainFast, SingleEndChain, TripleLoop,
      SwapFullContainers, SwapFullWithEmptyContainers and KLSearch; Swap.
    - [FixedMoves]: FixedSourceMoveType.cpp and FixedDestMoveType.cpp, single objects or
      bundles from or to fixed containers.  [GroupMoves]: GreedyGroupToScopeItemMoveType.cpp,
      GroupRoutingMoveType.cpp and ColocateGroupsMoveType.cpp; scopes, partitions, routing
      rings and latencies are fields of their configurations.
    - [MoveFactory]: MoveTypeFactory.cpp, every case of a specification: the classes above,
      by specification or by name, five classes that are not modelled and so may be any move
      type or throw, and the empty specification.
    - [Sampling], [Bundles]: solver/moves/MoveTypeUtils.h and .cpp,
      ObjectsToExploreGenerator.cpp; the class [Rng] stands for the random number
      generator, the laws being the ranges of its draws.
    - [IncrementalQueue]: algopt_common/IncrementalPriorityQueue.h and
      IncrementalPriorityQueueV2.h over the class [PriorityQueue]; [QueueLaws] states what a
      queue promises in terms of a [ranking], the updates each item was in, and [GroupQueue]
      shows that the second queue, whose list nodes live in a heap and are recycled, keeps it.
    - [Traversal]: solver/iterators/ExpressionIterator.cpp and ExpressionContainersIterator.cpp,
      the order in which the search visits the hot containers, over either queue; its proofs
      are [TraversalFacts].
    - [Potentials]: the parts of solver/expressions/Expression.cpp the traversal reads, the
      cached potentials of the children and the containers of a subgraph, with
      solver/utils/ContainerSetWithHash.cpp.  [PotentialsMerge]:
      solver/iterators/ObjectPotentialsMerge.cpp.
    - [Entities]: entities/Identifiers.h and Containers.cpp; the class [RoundTrip] states
      what a class with a serialized form promises, and is lifted to maps.  [Scopes]
      (ScopeDimension.cpp, Scope.cpp, Scopes.cpp), [Partitions] (Partition.cpp,
      Partitions.cpp), [Goals] (Goals.cpp, Constraints.cpp), [Routing] (RoutingRing.cpp,
      RoutingConfig.cpp) and [IdStore] (Identifiers.cpp) discharge it.
    - [Dimensions] (ObjectDimensionValueStats.h, ObjectValueTypes.cpp,
      ObjectStaticDimension.cpp), [DynamicDimension] (ObjectDynamicDimension.cpp) and
      [ObjectDimensions] (ObjectPartitionRoutingDimension.cpp, ObjectScalarDimension.h,
      ObjectDimension.cpp, Objects.cpp): the values of objects.
    - [Universe] (entities/Universe.cpp): the entities of a problem, with their
      serialization; [EntityGraph] the graph built from them.
    - [Builders] (entities/builders: IdBuilder.h, AsyncValueMap.h, the builders of goals,
      constraints, routing configurations and dimensions), [AssignmentBuilder]
      (AssignmentBuilder.h) and [ConcurrentBuilders] (ScopesBuilder.h, PartitionsBuilder.h,
      as tasks that are interleaved): the numbering of the entities.
      [AsyncUniverseBuilder] (AsyncUniverseBuilder.h and .cpp): the builders together and
      the universe assembled from their results.
    - [Example], [MoveExample] and [GraphExample]: concrete instances on which the
      definitions run.
    - [SearchTheorems], [DataTheorems], [GraphTheorems], [MoveTheorems],
      [TraversalTheorems], [EntityTheorems] and [BuilderTheorems]: the properties, each with a run of it on
      concrete data.

    ** What the theorems show

    The search ([SearchTheorems]): for every sound configuration it throws nothing and
    keeps the assignment, its indexes and the values of the expressions consistent; if
    applied moves are validated it terminates, never breaks a hard constraint that held
    and ends with the same or a strictly better objective ([search_terminates]); with single
    moves on several threads nothing is assumed of the move type
    ([single_move_search_terminates]).  Applying a candidate is a transaction
    ([tryApply_transaction]); an evaluation predicts what applying would do
    ([evaluate_verdict]); the move returned is a best one among the candidates, which
    have one object of every equivalence set, for every schedule ([single_move_is_best]);
    the selector follows the traversal and passes over exactly the containers to skip
    ([hot_container_selection]); the assignment with all its indexes refines a map
    ([assignment_refines_map]).

    The data structures ([DataTheorems]): refinement of finite maps and sets by the
    object stores, the aggregating tree, the bit sets and the move
    filter; exactness of the equivalence sets, the deduplicating iterator and the
    attributes of groups; round trips of moves and change sets; soundness of the
    tolerant comparison and absence of endless improvement; agreement of the early
    exit and of the parallel reduction with their plain versions.  Four theorems
    record behaviour that the comments of the code do not lead one to expect.

    The expression graph ([GraphTheorems]): a graph built by the constructors of the
    expressions stores, after any sequence of applied moves, exactly the values of an
    evaluation from scratch ([graph_follows_placement]); the value of a candidate does
    not depend on the state of the context it is evaluated with
    ([evaluation_is_independent]); the initialization orders the graph and indexes its
    leaves exactly; incremental and full application of a lookup agree, and its sums are
    exact below 2^53 units; the queue of buckets refines a stable sorted list; and the
    search on such a graph ends with the values of its final placement
    ([expression_search_ends]).  These theorems ask that the values are numbers other
    than -0 for every placement, as those of [ExpressionGraphs.tame] graphs are, and that
    the values a lookup reads are added without rounding ([ExpressionGraphs.vector_fits]):
    the code adds them in the order of a tree that depends on the history, so that
    incremental and full sums may differ otherwise.  Quotients may throw and are left out
    of the graphs; [partial_apply_keeps_state] says when they do.

    The move types ([MoveTheorems]): the search with any list of move types whose
    specifications fit the problem ([MoveTypeFactory.fits]) throws nothing and, with applied
    moves validated, ends ([mixed_search_terminates]), so each of them returns and proposes
    only legal moves; parallel execution merges a prefix of its inputs, each exactly once,
    under every scheduler, unless work, merging or the thread pool throws
    ([parallel_execution_outcome]), and what it returns is a best candidate
    ([parallel_best_is_best]); the automatic choice of a strategy settles on the
    faster one; samples without an excluded element are even, bundles have their size, uneven swaps have the ratio of
    the dimension; the routing of a group serves every source from the nearest destination
    that may serve it ([routing_serves_sources]).  Two examples record where the code departs
    from its intent.

    The traversal of the hot containers ([TraversalTheorems]): it gives every container that
    an expression it reaches affects exactly once, in the order of all updates although the
    queue is fed lazily ([hot_containers_in_order]); the two queues cannot be told apart
    ([queues_agree]); the incremental refresh of the potentials is the sort from scratch; the
    memoized containers of a subgraph are exact up to collisions of their hashes; merged object potentials give every object
    once with its best potential.

    The entities ([EntityTheorems]): a universe survives its serialization, every query of
    a dimension answering the same ([universe_survives_serialization]); values given by
    groups stand for the values of their objects ([group_values_stand_for_objects]); the
    graph of a universe with scalar dimensions has exactly the edges of its memberships
    ([universe_graph_is_exact]); a scope accepts exactly disjoint items.

    The builders ([BuilderTheorems]): an assignment is accepted exactly when it is proper and
    is numbered without gaps ([assignment_is_numbered]); scopes and partitions that are
    added concurrently get names and identifiers that correspond, whatever the interleaving,
    if no input lists an item twice ([concurrent_items_are_numbered]); what is assembled from them is a well-formed universe,
    so the theorems on universes apply to it ([builder_assembles_universe],
    [universe_of_an_assignment]); three examples show where identifiers are lost.

    ** Modelling choices

    Identifiers are [Z].  [PackerMap], [F14FastMap] and [PackerSet] are [gmap] and
    [gset]; where the code iterates over one, the order is that of the class
    [HashOrder], any permutation of the entries.  A C++ exception is [Throw]; an
    access out of a vector's bounds, undefined in C++, is reported as such and the
    theorems show it does not happen.  Destructors and assignments with effects are
    operations of the model.  Threads are either explicit interleavings of atomic
    steps ([DynamicBitSet.atomic_step]) or an arbitrary completion order.  Identifiers are
    32-bit unsigned and are serialized as signed ([EntityId]); maps keyed by strings are
    iterated in the order of [NameOrder].

    The counters of moves are converted to [int] as in the code ([to_int]); the number of
    cycles, whose overflow would be undefined and which is only logged, is unbounded.
    Reading an access-ordered store visits a whole tour and leaves its cursor alone, so a
    loop of a move type that stops early does not change where the next one starts; only
    the order of candidates depends on it, and the theorems fix no order of a store.
    [OneObjectPerGroup.recordObjectMove] has no counterpart of an assertion that never fires
    under legal moves.  Where a pool refuses a consumer, the call ends with its exception;
    the consumers that run on are not followed further.  Inputs that list an item of a scope
    twice are accepted by the builders and excluded by [NestedBuilder.legal]; what becomes of
    them is shown by the examples of [BuilderTheorems].

    Recursion that is not structural has fuel.  [LocalSearch.run] is shown to finish
    for some fuel, so for every larger one; [LocalSearch.advance] gets one more than
    the size of the traversal, which every step decreases; [ObjectDeduper.iterate]
    gets the length of the range; [DynamicBitSet.visit_block] gets 64, the number of
    bits of a block; [firstChangedPosition] gets the number of positions.
    [Orchestrator.traversePostOrder] gets a bound on the depth of the graph, for a graph
    that was built the number of its expressions; the loops of [Orchestrator.apply] and
    [Orchestrator.evaluate] get the length of the queue plus the number of nodes, since
    a node is pushed at most once for its children; [Orchestrator.push_roots] gets the
    number of roots.  The recursions of [AssociativeFixedMap] get the number of nodes.
    [Sampling.samplesLoop] gets the number of sets times the number of elements, since every
    round takes an element of a set that has one; [Chains.kl_loop] the number of objects of
    the two containers, of which every round tries one more; [ParallelExecution.window_run] and
    [ParallelExecution.pool_run] a measure of the work that is left, which every step
    decreases; [SingleObject.containerBatches] the number of containers, enough for batches
    that are not empty.  [ExpressionContainersIterator.feed_queue] gets the number of nodes and
    ranges that are left, [DescendingExpressionContainersTraversal.visit] the number of
    containers, [AffectedContainers.computeUniqueAffectedContainersInSubgraph] more than the
    height of the node, the loops of [ObjectPotentialsMergeIterator] the number of elements
    that are left.  All are shown to be enough.

    ** What is not modelled

    The expressions over partitions, routing and piecewise functions, the parts of the
    expressions that only the LP, the equivalence sets or logging use; the library functions
    [pow] and [log] and the hashes of folly are parameters.  The move types that
    make many moves between fixed containers, those that swap sets or follow hints, and swaps
    with bundle options (covered by the contract of a move type in
    [LocalSearch.sound_move_type]), the generator of destinations, the materializer,
    the LP and MIP solvers, logging, profiling, statistics, bindings and tools. *)

From stdpp Require Export base tactics numbers list gmap fin_maps sets strings.
From Stdlib Require Export ZArith Lia.

Open Scope Z_scope.

(** ** Exceptions

    The C++ code reports errors by throwing: [std::runtime_error] with a
    message, [std::invalid_argument], [std::logic_error], [std::out_of_range] from [at()], and
    [FOLLY_SAFE_CHECK], which aborts the process.  An access outside a vector
    with [operator\[\]] has undefined behaviour and is reported as such.  A
    fallible operation returns a [result]. *)
Inductive exn : Type :=
  | runtime_error (what : string)
  | out_of_range
  | invalid_argument (what : string)
  | logic_error (what : string)
  | safe_check_failed (what : string)
  | undefined_behaviour (what : string).

Inductive result (A : Type) : Type :=
  | Ok (a : A)
  | Throw (e : exn).
Arguments Ok {A} a.
Arguments Throw {A} e.

#[export] Instance result_ret : MRet result := @Ok.
#[export] Instance result_bind : MBind result :=
  λ A B f m, match m with Ok a => f a | Throw e => Throw e end.

#[export] Instance exn_eq_dec : EqDecision exn.
Proof. solve_decision. Defined.

#[export] Instance result_eq_dec {A} `{EqDecision A} : EqDecision (result A).
Proof. solve_decision. Defined.

Definition is_Ok {A} (r : result A) : bool :=
  match r with Ok _ => true | Throw _ => false end.

(** [m.at(k)] of a C++ map or vector: the value, or [std::out_of_range]. *)
Definition at_ {A} (o : option A) : result A :=
  match o with Some a => Ok a | None => Throw out_of_range end.

(** [v[i]] of a C++ vector, read and written. *)
Definition vec_get {A} (v : list A) (i : Z) : result A :=
  match (if i <? 0 then None else v !! Z.to_nat i) with
  | Some a => Ok a
  | None => Throw (undefined_behaviour "vector access out of bounds")
  end.

Definition vec_set {A} (v : list A) (i : Z) (a : A) : result (list A) :=
  if (i <? 0) || (Z.of_nat (length v) <=? i)
  then Throw (undefined_behaviour "vector access out of bounds")
  else Ok (<[Z.to_nat i := a]> v).

(** A loop whose body may throw. *)
Fixpoint foldM {A S} (f : S → A → result S) (s : S) (l : list A) : result S :=
  match l with
  | [] => Ok s
  | a :: l => s' ← f s a; foldM f s' l
  end.

Lemma bind_Ok {A B} (m : result A) (f : A → result B) (b : B) :
  (m ≫= f) = Ok b ↔ ∃ a, m = Ok a ∧ f a = Ok b.
Proof.
  destruct m as [a|e]; simpl; split; [eauto| |done|];
    intros (x & Hx & Hf); congruence.
Qed.

Lemma at_Ok {A} (o : option A) (a : A) : at_ o = Ok a ↔ o = Some a.
Proof. destruct o; simpl; naive_solver. Qed.

Lemma vec_get_Ok {A} (v : list A) i a :
  vec_get v i = Ok a ↔ 0 ≤ i ∧ v !! Z.to_nat i = Some a.
Proof.
  unfold vec_get. destruct (Z.ltb_spec i 0); [split; [done|lia]|].
  destruct (v !! Z.to_nat i); split; [intros [= <-]; done|naive_solver|done|naive_solver].
Qed.

Lemma vec_set_Ok {A} (v : list A) i a :
  0 ≤ i < Z.of_nat (length v) → vec_set v i a = Ok (<[Z.to_nat i := a]> v).
Proof.
  intros [H1 H2]. unfold vec_set.
  by rewrite (proj2 (Z.ltb_ge _ _)), (proj2 (Z.leb_gt _ _)) by lia.
Qed.

Section foldM_lemmas.
Context {A B : Type}.

Lemma foldM_app (f : B → A → result B) s l1 l2 :
  foldM f s (l1 ++ l2) = (foldM f s l1 ≫= λ s', foldM f s' l2).
Proof.
  revert s; induction l1 as [|a l1 IH]; intros s; simpl; [done|].
  destruct (f s a); simpl; auto.
Qed.

(** An invariant of the body is an invariant of the loop. *)
Lemma foldM_ind (P : B → Prop) (f : B → A → result B) s l s' :
  P s → (∀ s a s', a ∈ l → P s → f s a = Ok s' → P s') →
  foldM f s l = Ok s' → P s'.
Proof.
  revert s; induction l as [|a l IH]; intros s Hs Hf Hl; simpl in Hl.
  - by simplify_eq.
  - apply bind_Ok in Hl as (s1 & H1 & H2).
    eapply (IH s1); eauto; [|set_solver].
    eapply Hf; eauto; set_solver.
Qed.

(** If every step succeeds, so does the loop. *)
Lemma foldM_total (P : B → Prop) (f : B → A → result B) s l :
  P s → (∀ s a, a ∈ l → P s → ∃ s', f s a = Ok s' ∧ P s') →
  ∃ s', foldM f s l = Ok s' ∧ P s'.
Proof.
  revert s; induction l as [|a l IH]; intros s Hs Hf; simpl; [eauto|].
  destruct (Hf s a) as (s1 & -> & H1); [set_solver|done|]. simpl.
  apply IH; [done|]. intros; apply Hf; [set_solver|done].
Qed.
End foldM_lemmas.

(** Nested loops are one loop over the concatenation. *)
Lemma foldM_bind {A B S} (g : S → B → result S) (h : A → list B) (l : list A) s :
  foldM (λ s a, foldM g s (h a)) s l = foldM g s (l ≫= h).
Proof.
  revert s. induction l as [|a l IH]; intros s; [done|]. simpl. rewrite foldM_app.
  destruct (foldM g s (h a)); simpl; [apply IH|done].
Qed.

(** The keys of a filtered association list stay distinct. *)
Lemma NoDup_fmap_fst_filter {K V} (P : K * V → Prop) `{∀ p, Decision (P p)} (l : list (K * V)) :
  NoDup l.*1 → NoDup (filter P l).*1.
Proof.
  induction l as [|[k v] l IH]; simpl; [done|]. intros [Hk Hl]%NoDup_cons.
  rewrite filter_cons. case_decide; [|auto]. simpl. apply NoDup_cons. split; [|auto].
  intros (p & -> & [_ Hp]%list_elem_of_filter)%list_elem_of_fmap. apply Hk.
  by apply list_elem_of_fmap_2.
Qed.

Lemma filter_none {X} (P : X → Prop) `{∀ x, Decision (P x)} (l : list X) :
  (∀ x, x ∈ l → ¬ P x) → filter P l = [].
Proof.
  induction l as [|x l IH]; intros Hl; [done|].
  rewrite filter_cons, decide_False by (apply Hl; set_solver). apply IH. set_solver.
Qed.

Lemma filter_ext_in {X} (P Q : X → Prop) `{∀ x, Decision (P x), ∀ x, Decision (Q x)} (l : list X) :
  (∀ x, x ∈ l → P x ↔ Q x) → filter P l = filter Q l.
Proof.
  induction l as [|x l IH]; intros Hl; [done|].
  rewrite !filter_cons, IH by set_solver. pose proof (Hl x ltac:(set_solver)).
  repeat case_decide; tauto.
Qed.

Lemma filter_of_fmap {X Y} (f : X → Y) (P : Y → Prop) `{∀ y, Decision (P y)} (l : list X) :
  filter P (f <$> l) = f <$> filter (λ x, P (f x)) l.
Proof.
  induction l as [|x l IH]; [done|]. rewrite fmap_cons, !filter_cons, IH.
  by case_decide.
Qed.

(** ** Tactics and hints *)
Create HintDb rebalancer.

(** Inverts equations [... = Ok _] between monadic computations. *)
Ltac result_inv :=
  repeat match goal with
  | H : (_ ≫= _) = Ok _ |- _ => apply bind_Ok in H as (? & ? & ?)
  | H : at_ _ = Ok _ |- _ => apply at_Ok in H
  | H : Ok _ = Ok _ |- _ => injection H as H
  | H : mret _ = Ok _ |- _ => injection H as H
  | H : Throw _ = Ok _ |- _ => discriminate H
  | H : context [match ?x with _ => _ end] |- _ => destruct x eqn:?; simplify_eq/=
  end; simplify_eq/=.

Ltac bool_to_prop :=
  repeat match goal with
  | H : (_ && _)%bool = true |- _ => apply andb_true_iff in H as [? ?]
  | H : (_ && _)%bool = false |- _ => apply andb_false_iff in H
  | H : (_ || _)%bool = false |- _ => apply orb_false_iff in H as [? ?]
  | H : (_ || _)%bool = true |- _ => apply orb_true_iff in H
  | H : negb _ = true |- _ => apply negb_true_iff in H
  | H : negb _ = false |- _ => apply negb_false_iff in H
  | H : (_ <? _)%Z = true |- _ => apply Z.ltb_lt in H
  | H : (_ <? _)%Z = false |- _ => apply Z.ltb_ge in H
  | H : (_ <=? _)%Z = true |- _ => apply Z.leb_le in H
  | H : (_ <=? _)%Z = false |- _ => apply Z.leb_gt in H
  | H : (_ =? _)%Z = true |- _ => apply Z.eqb_eq in H
  | H : (_ =? _)%Z = false |- _ => apply Z.eqb_neq in H
  | H : bool_decide _ = true |- _ => apply bool_decide_eq_true in H
  | H : bool_decide _ = false |- _ => apply bool_decide_eq_false in H
  end.

(** ** 64-bit unsigned arithmetic *)
Definition u64_mod : Z := 2 ^ 64.
Definition u64 (x : Z) : Z := x mod u64_mod.
Definition is_u64 (x : Z) : Prop := 0 ≤ x < u64_mod.

Lemma u64_range x : is_u64 (u64 x).
Proof. apply Z.mod_pos_bound. reflexivity. Qed.

Lemma u64_small x : is_u64 x → u64 x = x.
Proof. apply Z.mod_small. Qed.

#[export] Hint Resolve u64_range u64_small : rebalancer.

(** The conversion of an unsigned result to [int]: modulo [2 ^ 32]. *)
Definition to_int (x : Z) : Z := (x + 2 ^ 31) mod 2 ^ 32 - 2 ^ 31.
