(* ===== verification/Double.v ===== *)
(** * IEEE-754 doubles

    The C++ code computes with [double].  The model is binary64 of the
    Standard Library's [SpecFloat]: signed zeros, infinities, one NaN,
    gradual underflow and round-to-nearest-even, all executable.

    For finite doubles the file relates the floating-point comparison and the
    sign of a floating-point difference to integers: [val x] is the value of
    [x] in units of the smallest subnormal, so order facts about doubles become
    facts about [Z]. *)

From Stdlib Require Import SpecFloat.
From S2P Require Import Prelude.

Declare Scope double_scope.
Delimit Scope double_scope with D.

Definition double : Type := spec_float.
Bind Scope double_scope with double.

Abbreviation prec := 53%Z.
Abbreviation emax := 1024%Z.
Abbreviation minexp := (-1074)%Z.

Definition dadd : double → double → double := SFadd prec emax.
Definition dsub : double → double → double := SFsub prec emax.
Definition dmul : double → double → double := SFmul prec emax.
Definition ddiv : double → double → double := SFdiv prec emax.
Definition dopp : double → double := SFopp.
Definition fabs : double → double := SFabs.
Definition dlt : double → double → bool := SFltb.
Definition dle : double → double → bool := SFleb.
Definition deq : double → double → bool := SFeqb.

Infix "+" := dadd : double_scope.
Infix "-" := dsub : double_scope.
Infix "*" := dmul : double_scope.
Infix "/" := ddiv : double_scope.
Notation "- x" := (dopp x) : double_scope.
Infix "<?" := dlt : double_scope.
Infix "<=?" := dle : double_scope.
Infix "=?" := deq : double_scope.

(** Conversion of an integer, rounded to nearest even. *)
Definition dofZ (z : Z) : double := binary_normalize prec emax z 0 false.
Definition d0 : double := S754_zero false.
Definition d1 : double := Eval vm_compute in dofZ 1.
Definition d2 : double := Eval vm_compute in dofZ 2.
Definition dinf : double := S754_infinity false.
Definition dneginf : double := S754_infinity true.
Definition dnan : double := S754_nan.
(** The correctly rounded quotient is the double nearest to 1e-10. *)
Definition d1e_10 : double := Eval vm_compute in ddiv d1 (dofZ (10 ^ 10)).
Definition d100 : double := Eval vm_compute in dofZ 100.

(** [std::min] and [std::max]: the first argument on a tie or a NaN. *)
Definition dmin (x y : double) : double := if (y <? x)%D then y else x.
Definition dmax (x y : double) : double := if (x <? y)%D then y else x.

(** [std::round]: to the nearest integer, halves away from zero. *)
Definition dround (x : double) : double :=
  match x with
  | S754_finite s m e =>
      if 0 <=? e then x
      else
        let k := - e in
        binary_normalize prec emax
          (cond_Zopp s ((2 * Z.pos m + 2 ^ k) / 2 ^ (k + 1))) 0 s
  | _ => x
  end.

(** ** Finite doubles *)

Definition isfinite (x : double) : bool :=
  match x with
  | S754_zero _ => true
  | S754_finite _ m e => bounded prec emax m e
  | _ => false
  end.
Definition fin (x : double) : Prop := isfinite x = true.

(** The value of a finite double, in units of 2^-1074. *)
Definition val (x : double) : Z :=
  match x with
  | S754_finite s m e => cond_Zopp s (Z.pos m * 2 ^ (e - minexp))
  | _ => 0
  end.

(** *** Mantissa sizes *)

Lemma digits2_pos_bounds (m : positive) :
  2 ^ (Z.pos (digits2_pos m) - 1) ≤ Z.pos m < 2 ^ Z.pos (digits2_pos m).
Proof.
  assert (Hs : ∀ p, Z.pos (Pos.succ p) = Z.pos p + 1) by lia.
  induction m as [m IH|m IH|]; simpl digits2_pos; [| |done];
    rewrite Hs; replace (Z.pos (digits2_pos m) + 1 - 1) with
      (Z.pos (digits2_pos m) - 1 + 1) at 1 by lia;
    rewrite !Z.pow_add_r by lia; lia.
Qed.

(** A bounded float has at most 53 digits, and exactly 53 above the smallest
    exponent. *)
Lemma bounded_spec m e :
  bounded prec emax m e = true →
  minexp ≤ e ∧ Z.pos m < 2 ^ prec ∧ (minexp < e → 2 ^ (prec - 1) ≤ Z.pos m).
Proof.
  unfold bounded, canonical_mantissa, fexp, emin. intros H. bool_to_prop.
  pose proof (digits2_pos_bounds m) as [Hl Hu].
  assert (Z.pos (digits2_pos m) ≤ prec) by lia.
  split_and!; [lia| |].
  - eapply Z.lt_le_trans; [done|]. apply Z.pow_le_mono_r; lia.
  - intros He. assert (Z.pos (digits2_pos m) = prec) as Hd by lia.
    by rewrite Hd in Hl.
Qed.

Lemma pow2_pos e : 0 ≤ e → 0 < 2 ^ e.
Proof. intros; apply Z.pow_pos_nonneg; lia. Qed.

(** A larger exponent is a larger magnitude. *)
Lemma bounded_exp_lt m1 e1 m2 e2 :
  bounded prec emax m1 e1 = true → bounded prec emax m2 e2 = true → e1 < e2 →
  Z.pos m1 * 2 ^ (e1 - minexp) < Z.pos m2 * 2 ^ (e2 - minexp).
Proof.
  intros (Hm1 & Hu1 & _)%bounded_spec (Hm2 & _ & Hl2)%bounded_spec He.
  specialize (Hl2 ltac:(lia)).
  replace (e2 - minexp) with ((e2 - e1 - 1) + 1 + (e1 - minexp)) by lia.
  rewrite !(Z.pow_add_r 2 _ (e1 - minexp)), (Z.pow_add_r 2 _ 1) by lia.
  pose proof (pow2_pos (e1 - minexp) ltac:(lia)).
  pose proof (pow2_pos (e2 - e1 - 1) ltac:(lia)).
  change (2 ^ prec) with (2 ^ (prec - 1) * 2) in Hu1.
  assert (Z.pos m1 < Z.pos m2 * (2 ^ (e2 - e1 - 1) * 2 ^ 1)) by nia.
  rewrite (Z.mul_assoc (Z.pos m2)). apply Z.mul_lt_mono_pos_r; lia.
Qed.

(** *** Comparison of finite doubles is comparison of their values *)

Lemma finite_compare s1 m1 e1 s2 m2 e2 :
  bounded prec emax m1 e1 = true → bounded prec emax m2 e2 = true →
  SFcompare (S754_finite s1 m1 e1) (S754_finite s2 m2 e2) =
  Some (val (S754_finite s1 m1 e1) ?= val (S754_finite s2 m2 e2)).
Proof.
  intros H1 H2. pose proof (bounded_spec _ _ H1) as [? _].
  pose proof (bounded_spec _ _ H2) as [? _].
  pose proof (pow2_pos (e1 - minexp) ltac:(lia)).
  pose proof (pow2_pos (e2 - minexp) ltac:(lia)).
  simpl. f_equal.
  destruct s1, s2; simpl; symmetry.
  - destruct (Z.compare_spec e1 e2) as [->|He|He].
    + change (Pos.compare_cont Eq m1 m2) with (Pos.compare m1 m2).
      destruct (Pos.compare_spec m1 m2) as [->|Hm|Hm]; simpl.
      * apply Z.compare_refl.
      * apply Z.compare_gt_iff. nia.
      * apply Z.compare_lt_iff. nia.
    + pose proof (bounded_exp_lt _ _ _ _ H1 H2 He). apply Z.compare_gt_iff. lia.
    + pose proof (bounded_exp_lt _ _ _ _ H2 H1 He). apply Z.compare_lt_iff. lia.
  - apply Z.compare_lt_iff. nia.
  - apply Z.compare_gt_iff. nia.
  - destruct (Z.compare_spec e1 e2) as [->|He|He].
    + change (Pos.compare_cont Eq m1 m2) with (Pos.compare m1 m2).
      destruct (Pos.compare_spec m1 m2) as [->|Hm|Hm]; simpl.
      * apply Z.compare_refl.
      * apply Z.compare_lt_iff. nia.
      * apply Z.compare_gt_iff. nia.
    + pose proof (bounded_exp_lt _ _ _ _ H1 H2 He). apply Z.compare_lt_iff. lia.
    + pose proof (bounded_exp_lt _ _ _ _ H2 H1 He). apply Z.compare_gt_iff. lia.
Qed.

Lemma val_compare x y : fin x → fin y → SFcompare x y = Some (val x ?= val y).
Proof.
  unfold fin. destruct x as [s1|s1| |s1 m1 e1], y as [s2|s2| |s2 m2 e2];
    simpl isfinite; intros Hx Hy; try done.
  - pose proof (bounded_spec _ _ Hy) as [? _].
    pose proof (pow2_pos (e2 - minexp) ltac:(lia)).
    destruct s2; cbn [SFcompare]; f_equal; symmetry;
      [apply Z.compare_gt_iff|apply Z.compare_lt_iff]; simpl; nia.
  - pose proof (bounded_spec _ _ Hx) as [? _].
    pose proof (pow2_pos (e1 - minexp) ltac:(lia)).
    destruct s1; cbn [SFcompare]; f_equal; symmetry;
      [apply Z.compare_lt_iff|apply Z.compare_gt_iff]; simpl; nia.
  - by apply finite_compare.
Qed.

(** A finite double other than zero is determined by its value. *)
Lemma val_inj x y : fin x → fin y → val x = val y →
  x = y ∨ ∃ s1 s2, x = S754_zero s1 ∧ y = S754_zero s2.
Proof.
  intros Hx Hy E. pose proof (val_compare x y Hx Hy) as Hc. rewrite E, Z.compare_refl in Hc.
  destruct x as [s1|s1| |s1 m1 e1], y as [s2|s2| |s2 m2 e2]; try done; [by right; eauto|..].
  - by destruct s2.
  - by destruct s1.
  - left. simpl in Hc. destruct s1, s2; try done; injection Hc as Hc;
      destruct (Z.compare_spec e1 e2) as [->|?|?]; try done;
      change (Pos.compare_cont Eq m1 m2) with (Pos.compare m1 m2) in Hc;
      destruct (Pos.compare_spec m1 m2); try done; by subst.
Qed.

Lemma dlt_val x y : fin x → fin y → (x <? y)%D = (val x <? val y).
Proof.
  intros. unfold dlt, SFltb. rewrite val_compare by done.
  unfold Z.ltb. by destruct (val x ?= val y).
Qed.

Lemma dle_val x y : fin x → fin y → (x <=? y)%D = (val x <=? val y).
Proof.
  intros. unfold dle, SFleb. rewrite val_compare by done.
  unfold Z.leb. by destruct (val x ?= val y).
Qed.

Lemma deq_sym x y : (x =? y)%D = (y =? x)%D.
Proof.
  unfold deq, SFeqb. destruct x as [s1|s1| |s1 m1 e1], y as [s2|s2| |s2 m2 e2];
    try done; try (by destruct s1); try (by destruct s2); try (by destruct s1, s2).
  simpl. destruct s1, s2; try done; rewrite (Z.compare_antisym e1 e2); destruct (e1 ?= e2)%Z; try done; simpl;
    change (Pos.compare_cont Eq m2 m1) with (Pos.compare m2 m1);
    change (Pos.compare_cont Eq m1 m2) with (Pos.compare m1 m2);
    rewrite (Pos.compare_antisym m1 m2); by destruct (m1 ?= m2)%positive.
Qed.

Lemma dlt_asym x y : (x <? y)%D = true → (y <? x)%D = false.
Proof.
  unfold dlt, SFltb. destruct x as [s1|s1| |s1 m1 e1], y as [s2|s2| |s2 m2 e2];
    try done; try (by destruct s1); try (by destruct s2); try (by destruct s1, s2).
  simpl. destruct s1, s2; try done; rewrite (Z.compare_antisym e1 e2); destruct (e1 ?= e2)%Z; try done; simpl;
    change (Pos.compare_cont Eq m2 m1) with (Pos.compare m2 m1);
    change (Pos.compare_cont Eq m1 m2) with (Pos.compare m1 m2);
    rewrite (Pos.compare_antisym m1 m2); by destruct (m1 ?= m2)%positive.
Qed.

Lemma deq_val x y : fin x → fin y → (x =? y)%D = (val x =? val y).
Proof.
  intros. unfold deq, SFeqb. rewrite val_compare by done.
  rewrite Z.eqb_compare. by destruct (val x ?= val y).
Qed.

(** *** The sign of a rounded difference

    Rounding never changes the sign of a nonzero value, it may only turn it
    into a zero of the same sign or an infinity. *)

Definition sign_of (s : bool) (x : double) : Prop :=
  match x with
  | S754_zero s' | S754_infinity s' | S754_finite s' _ _ => s' = s
  | S754_nan => False
  end.

Lemma shr_1_nonneg r : 0 ≤ shr_m r → 0 ≤ shr_m (shr_1 r).
Proof. destruct r as [[|[]|[]] ? ?]; simpl; lia. Qed.

Lemma iter_pos_ind {A} (P : A → Prop) f n (x : A) :
  (∀ y, P y → P (f y)) → P x → P (SpecFloat.iter_pos f n x).
Proof.
  intros Hf. revert x.
  induction n as [n IH|n IH|]; intros x Hx; simpl; auto.
Qed.

Lemma shr_fexp_nonneg m e l : 0 ≤ m → 0 ≤ shr_m (shr_fexp prec emax m e l).1.
Proof.
  intros Hm. unfold shr_fexp, shr.
  assert (0 ≤ shr_m (shr_record_of_loc m l)) by (by destruct l as [|[]]).
  destruct (fexp _ _ _ - e); simpl; [done| |done].
  by apply (iter_pos_ind (λ r, 0 ≤ shr_m r)); [apply shr_1_nonneg|].
Qed.

Lemma binary_round_aux_sign s m e l :
  0 ≤ m → sign_of s (binary_round_aux prec emax s m e l).
Proof.
  intros Hm. unfold binary_round_aux.
  pose proof (shr_fexp_nonneg m e l Hm) as H1.
  destruct (shr_fexp prec emax m e l) as [r1 e1]; simpl in H1.
  set (n := round_nearest_even _ _).
  assert (0 ≤ n) as Hn.
  { unfold n, round_nearest_even.
    destruct (loc_of_shr_record r1) as [|[]]; [| destruct (Z.even _)|..]; lia. }
  pose proof (shr_fexp_nonneg n e1 loc_Exact Hn) as H2.
  destruct (shr_fexp prec emax n e1 loc_Exact) as [r2 e2]; simpl in H2.
  destruct (shr_m r2); [done| |lia]. by destruct (e2 <=? _).
Qed.

Lemma binary_round_sign s m e : sign_of s (binary_round prec emax s m e).
Proof.
  unfold binary_round. destruct (shl_align _ _ _). by apply binary_round_aux_sign.
Qed.

(** Rounding treats the two signs alike. *)
Lemma binary_round_abs s m e :
  fabs (binary_round prec emax s m e) = fabs (binary_round prec emax false m e).
Proof.
  unfold binary_round, binary_round_aux.
  destruct (shl_align _ _ _) as [mz ez], (shr_fexp _ _ _ _ _) as [r1 e1],
    (shr_fexp _ _ _ _ _) as [r2 e2].
  destruct (shr_m r2); [done| |done]. by destruct (e2 <=? _).
Qed.

Lemma shl_align_val m e e' :
  e' ≤ e → Z.pos (shl_align m e e').1 = Z.pos m * 2 ^ (e - e').
Proof.
  intros He. unfold shl_align. destruct (e' - e) as [|p|p] eqn:Hd; [|lia|]; simpl.
  - replace (e - e') with 0 by lia. lia.
  - replace (e - e') with (Z.pos p) by lia. clear.
    induction p as [|p IH] using Pos.peano_ind; [simpl; lia|].
    rewrite Pos.iter_succ, Pos2Z.inj_succ, Z.pow_succ_r by lia. lia.
Qed.

(** The aligned integer difference of two finite doubles, a positive multiple
    of which is the difference of their values. *)
Lemma sub_finite s1 m1 e1 s2 m2 e2 :
  minexp ≤ e1 → minexp ≤ e2 →
  ∃ d e, dsub (S754_finite s1 m1 e1) (S754_finite s2 m2 e2) = binary_normalize prec emax d e false ∧
    val (S754_finite s1 m1 e1) - val (S754_finite s2 m2 e2) = d * 2 ^ (e - minexp) ∧ minexp ≤ e.
Proof.
  intros H1 H2. set (ez := Z.min e1 e2).
  exists (cond_Zopp s1 (Z.pos (shl_align m1 e1 ez).1)
          - cond_Zopp s2 (Z.pos (shl_align m2 e2 ez).1)), ez.
  split; [done|]. split; [|lia]. rewrite !shl_align_val by lia. simpl val.
  replace (e1 - minexp) with (e1 - ez + (ez - minexp)) by lia.
  replace (e2 - minexp) with (e2 - ez + (ez - minexp)) by lia.
  rewrite !Z.pow_add_r by lia. destruct s1, s2; simpl; ring.
Qed.

Lemma sub_spec x y :
  fin x → fin y →
  (val x - val y = 0 ∧ ∃ s, dsub x y = S754_zero s) ∨
  (val x - val y ≠ 0 ∧
   (∃ s m e, (x = S754_finite s m e ∨ y = S754_finite (negb s) m e) ∧
      dsub x y = S754_finite s m e ∧ s = (val x - val y <? 0)) ) ∨
  (∃ m e, val x - val y = m * 2 ^ (e - minexp) ∧ minexp ≤ e ∧ m ≠ 0 ∧
     dsub x y = binary_round prec emax (m <? 0) (Z.to_pos (Z.abs m)) e).
Proof.
  unfold fin. destruct x as [s1|s1| |s1 m1 e1], y as [s2|s2| |s2 m2 e2];
    simpl isfinite; intros Hx Hy; try done.
  - left. split; [done|]. destruct s1, s2; simpl; eauto.
  - right; left. apply bounded_spec in Hy as (? & _).
    pose proof (pow2_pos (e2 - minexp) ltac:(lia)).
    split; [destruct s2; simpl; nia|].
    exists (negb s2), m2, e2. rewrite negb_involutive. split_and!; [auto|done|].
    destruct s2; simpl; symmetry; [apply Z.ltb_ge|apply Z.ltb_lt]; nia.
  - right; left. apply bounded_spec in Hx as (? & _).
    pose proof (pow2_pos (e1 - minexp) ltac:(lia)).
    split; [destruct s1; simpl; nia|].
    exists s1, m1, e1. split_and!; [auto|done|].
    destruct s1; simpl; symmetry; [apply Z.ltb_lt|apply Z.ltb_ge]; nia.
  - apply bounded_spec in Hx as (? & _), Hy as (? & _).
    destruct (sub_finite s1 m1 e1 s2 m2 e2) as (d & ez & -> & -> & Hez); [lia..|].
    destruct d as [|p|p]; [left; simpl; eauto|right; right|right; right].
    + exists (Z.pos p), ez. split_and!; [done|lia|done|done].
    + exists (Z.neg p), ez. split_and!; [done|lia|done|done].
Qed.

Lemma sub_sign x y :
  fin x → fin y →
  (val x < val y → sign_of true (x - y)%D) ∧
  (val y < val x → sign_of false (x - y)%D) ∧
  (val x = val y → ∃ s, (x - y)%D = S754_zero s).
Proof.
  intros Hx Hy.
  destruct (sub_spec x y Hx Hy) as
    [(Hv & s & ->)|[(Hv & s & m & e & _ & -> & Hs)|(m & e & Hv & He & Hm & ->)]].
  - split_and!; [lia|lia|eauto].
  - subst s. simpl. split_and!; intros; [apply Z.ltb_lt|apply Z.ltb_ge|]; lia.
  - pose proof (pow2_pos (e - minexp) ltac:(lia)).
    pose proof (binary_round_sign (m <? 0) (Z.to_pos (Z.abs m)) e) as Hsg.
    split_and!; intros Hlt; [| |nia];
      destruct (Z.ltb_spec m 0); try done; nia.
Qed.

Lemma sub_abs_sym x y : fin x → fin y → fabs (x - y)%D = fabs (y - x)%D.
Proof.
  unfold fin. destruct x as [s1|s1| |s1 m1 e1], y as [s2|s2| |s2 m2 e2];
    simpl isfinite; intros Hx Hy; try done.
  - by destruct s1, s2.
  - unfold dsub, SFsub. rewrite (Z.min_comm e2 e1).
    set (a := cond_Zopp s1 _). set (b := cond_Zopp s2 _).
    replace (b - a) with (- (a - b)) by lia.
    destruct (a - b) as [|p|p]; simpl; [done|..]; by rewrite (binary_round_abs true).
Qed.

Lemma add_comm x y : (x + y)%D = (y + x)%D.
Proof.
  unfold dadd, SFadd.
  destruct x as [[]|[]| |s1 m1 e1], y as [[]|[]| |s2 m2 e2]; try done.
  by rewrite (Z.min_comm e2 e1), Z.add_comm.
Qed.

(** Comparisons of a signed double with zero. *)
Lemma sign_of_gt0 s x : sign_of s x → (d0 <? x)%D = true → s = false.
Proof. destruct x as [[]|[]| |[]], s; done. Qed.

Lemma abs_zero s : fabs (S754_zero s) = d0.
Proof. done. Qed.

Lemma sign_of_pos x : sign_of false x → (∀ s, x ≠ S754_zero s) → (d0 <? x)%D = true.
Proof.
  destruct x as [s|[]| |[]]; try done. intros _ H. by destruct (H s).
Qed.

(** The values of finite doubles are bounded. *)
Definition val_bound : Z := 2 ^ (prec + emax - minexp).

Lemma val_bounded x : fin x → - val_bound ≤ val x ≤ val_bound.
Proof.
  assert (0 < val_bound) as H0 by reflexivity.
  destruct x as [s|s| |s m e]; unfold fin; simpl; try (intros; lia).
  intros Hb. pose proof (bounded_spec m e Hb) as (He & Hm & _).
  assert (e ≤ emax) as He'.
  { unfold bounded in Hb. bool_to_prop. lia. }
  assert (Z.pos m * 2 ^ (e - minexp) ≤ val_bound) as Hv.
  { unfold val_bound. transitivity (2 ^ prec * 2 ^ (emax - minexp)); [|done].
    apply Z.mul_le_mono_nonneg; [lia|lia|apply Z.pow_nonneg; lia|].
    apply Z.pow_le_mono_r; lia. }
  pose proof (Z.pow_nonneg 2 (e - minexp)). destruct s; simpl cond_Zopp; lia.
Qed.
