(* ===== verification/Exact.v ===== *)
(** * Exact floating-point sums

    A rounded operation is exact when the result is representable.  Doubles that are
    multiples of a common power of two, small enough that no partial sum needs more
    than 53 bits, are added without rounding, in any order and association; metrics
    that are integers below 2^53 are the common case. *)

From Stdlib Require Import SpecFloat.
From S2P Require Import Prelude Double.

Open Scope Z_scope.

(** Finite, and not the negative zero: such doubles are equal as soon as they compare
    equal. *)
Definition canon (x : double) : Prop := fin x ∧ x ≠ S754_zero true.

#[export] Instance canon_dec x : Decision (canon x).
Proof.
  unfold canon, fin.
  destruct (decide (isfinite x = true)); [|right; naive_solver].
  destruct x as [[]| | |]; [right; naive_solver|left; done..].
Defined.

Lemma canon_inj x y : canon x → canon y → val x = val y → x = y.
Proof.
  intros [Fx Nx] [Fy Ny] E. destruct (val_inj x y Fx Fy E) as [?|(s & s' & -> & ->)]; [done|].
  by destruct s, s'.
Qed.

#[export] Instance double_eq_dec : EqDecision double.
Proof. unfold EqDecision, double. intros x y. unfold Decision. decide equality; try apply _; apply (decide_rel eq). Defined.

Lemma canon_eq x y : canon x → canon y → (x =? y)%D = bool_decide (x = y).
Proof.
  intros Cx Cy. rewrite deq_val by apply Cx || apply Cy. case_bool_decide as E.
  - subst. apply Z.eqb_refl.
  - apply Z.eqb_neq. intros Ev. apply E. by apply canon_inj.
Qed.

(** ** Rounding what is representable *)

Lemma digits_unique m d :
  2 ^ (d - 1) ≤ Z.pos m < 2 ^ d → Z.pos (digits2_pos m) = d.
Proof.
  intros [H1 H2]. pose proof (digits2_pos_bounds m) as [H3 H4].
  assert (0 < d) as Hd.
  { destruct (Z_lt_le_dec 0 d) as [?|Hd]; [done|]. destruct (Z.eq_dec d 0) as [->|]; [simpl in *; lia|].
    rewrite (Z.pow_neg_r 2 d) in H2 by lia. lia. }
  assert (d - 1 < Z.pos (digits2_pos m)) by (apply (Z.pow_lt_mono_r_iff 2); lia).
  assert (Z.pos (digits2_pos m) - 1 < d) by (apply (Z.pow_lt_mono_r_iff 2); lia). lia.
Qed.

Lemma digits_shift m m' n :
  0 ≤ n → Z.pos m = Z.pos m' * 2 ^ n →
  Z.pos (digits2_pos m) = Z.pos (digits2_pos m') + n.
Proof.
  intros Hn E. apply digits_unique. rewrite E. pose proof (digits2_pos_bounds m') as [H1 H2].
  pose proof (pow2_pos n Hn).
  replace (Z.pos (digits2_pos m') + n - 1) with (Z.pos (digits2_pos m') - 1 + n) by lia.
  rewrite !Z.pow_add_r by lia. nia.
Qed.

(** Shifting out zeros loses nothing. *)
Lemma shr_exact p m m' :
  Z.pos m = Z.pos m' * 2 ^ Z.pos p →
  SpecFloat.iter_pos shr_1 p (Build_shr_record (Z.pos m) false false) =
  Build_shr_record (Z.pos m') false false.
Proof.
  revert m m'. induction p as [p IH|p IH|]; intros m m' E.
  - cbn [SpecFloat.iter_pos].
    assert (Z.pos m = 2 * (Z.pos m' * 2 ^ Z.pos p * 2 ^ Z.pos p)) as E2.
    { rewrite E. replace (Z.pos p~1) with (1 + Z.pos p + Z.pos p) by lia.
      rewrite !Z.pow_add_r by lia. ring. }
    pose proof (pow2_pos (Z.pos p) ltac:(lia)).
    destruct m as [m|m|]; [lia| |lia]. cbn [shr_1 orb].
    rewrite (IH m (Z.to_pos (Z.pos m' * 2 ^ Z.pos p))) by (rewrite Z2Pos.id by nia; lia).
    rewrite (IH _ m'); [done|]. rewrite Z2Pos.id by nia. done.
  - cbn [SpecFloat.iter_pos].
    assert (Z.pos m = Z.pos m' * 2 ^ Z.pos p * 2 ^ Z.pos p) as E2.
    { rewrite E. replace (Z.pos p~0) with (Z.pos p + Z.pos p) by lia.
      rewrite !Z.pow_add_r by lia. ring. }
    pose proof (pow2_pos (Z.pos p) ltac:(lia)).
    rewrite (IH m (Z.to_pos (Z.pos m' * 2 ^ Z.pos p))) by (rewrite Z2Pos.id by nia; lia).
    rewrite (IH _ m'); [done|]. rewrite Z2Pos.id by nia. done.
  - cbn. change (2 ^ 1) with 2 in E. destruct m as [m|m|]; [lia| |lia]. simpl. do 2 f_equal. lia.
Qed.

Lemma round_aux_exact s m m' e :
  let e' := fexp prec emax (Z.pos (digits2_pos m) + e) in
  e ≤ e' → e' ≤ emax - prec → Z.pos m = Z.pos m' * 2 ^ (e' - e) →
  binary_round_aux prec emax s (Z.pos m) e loc_Exact = S754_finite s m' e' ∧
  bounded prec emax m' e' = true.
Proof.
  intros e' He Hmax E.
  assert (Z.pos (digits2_pos m') + e' = Z.pos (digits2_pos m) + e) as ED.
  { rewrite (digits_shift m m' (e' - e)) by (done || lia). lia. }
  assert (fexp prec emax (Z.pos (digits2_pos m') + e') = e') as Ef by (by rewrite ED).
  split.
  - unfold binary_round_aux. unfold shr_fexp at 1. cbn [Zdigits2 shr_record_of_loc]. fold e'.
    assert (shr {| shr_m := Z.pos m; shr_r := false; shr_s := false |} e (e' - e) =
            ({| shr_m := Z.pos m'; shr_r := false; shr_s := false |}, e')) as ->.
    { unfold shr. destruct (e' - e) as [|p|p] eqn:Ed; [|rewrite (shr_exact p m m') by done; f_equal; lia|lia].
      change (2 ^ 0) with 1 in E. replace e' with e by lia. repeat f_equal. lia. }
    cbn [shr_m loc_of_shr_record round_nearest_even].
    unfold shr_fexp. cbn [Zdigits2 shr_record_of_loc]. rewrite Ef, Z.sub_diag. cbn [shr shr_m].
    by rewrite (proj2 (Z.leb_le _ _)).
  - unfold bounded, canonical_mantissa. rewrite Ef, Z.eqb_refl. by apply Z.leb_le.
Qed.

(** The unit of a representable magnitude. *)
Definition unit_ok (u : Z) : Prop := 0 ≤ u ≤ emax - prec - minexp.

Lemma round_exact s m e u q :
  minexp ≤ e → unit_ok u → 0 < q < 2 ^ prec → Z.pos m * 2 ^ (e - minexp) = q * 2 ^ u →
  canon (binary_round prec emax s m e) ∧
  val (binary_round prec emax s m e) = cond_Zopp s (Z.pos m * 2 ^ (e - minexp)).
Proof.
  intros He [Hu1 Hu2] Hq E. unfold binary_round.
  set (d := Z.pos (digits2_pos m) + e). set (f := fexp prec emax d).
  (* the exponent of the result is at most that of the unit *)
  pose proof (digits2_pos_bounds m) as [Hd1 Hd2].
  assert (f ≤ u + minexp) as Hf.
  { unfold f, fexp, emin. assert (d - prec ≤ u + minexp); [|lia].
    assert (2 ^ (d - 1 - minexp) < 2 ^ (prec + u)) as Hp.
    { unfold d. replace (Z.pos (digits2_pos m) + e - 1 - minexp) with
        (Z.pos (digits2_pos m) - 1 + (e - minexp)) by lia.
      rewrite !Z.pow_add_r by lia. pose proof (pow2_pos (e - minexp) ltac:(lia)).
      pose proof (pow2_pos u Hu1). nia. }
    apply Z.pow_lt_mono_r_iff in Hp; lia. }
  assert (minexp ≤ f) as Hfm by (unfold f, fexp, emin; lia).
  (* after the alignment the exponent is at most the one of the result *)
  destruct (shl_align m e f) as [mz ez] eqn:Es.
  assert (ez ≤ f ∧ minexp ≤ ez ∧ Z.pos mz * 2 ^ (ez - minexp) = Z.pos m * 2 ^ (e - minexp) ∧
          Z.pos (digits2_pos mz) + ez = d) as (Hz1 & Hz2 & Hz3 & Hz4).
  { destruct (Z_lt_le_dec f e) as [Hlt|Hge].
    - pose proof (shl_align_val m e f ltac:(lia)) as Hv. rewrite Es in Hv. simpl in Hv.
      unfold shl_align in Es. destruct (f - e) eqn:Efe; try lia. injection Es as _ <-.
      split; [lia|]. split; [lia|]. split.
      + rewrite Hv, <- Z.mul_assoc, <- Z.pow_add_r by lia. do 2 f_equal. lia.
      + rewrite (digits_shift mz m (e - f)) by (done || lia). unfold d. lia.
    - unfold shl_align in Es. assert (mz = m ∧ ez = e) as [-> ->]; [|done].
      destruct (f - e) eqn:Efe; try lia; injection Es as <- <-; done. }
  (* what is shifted out again is zero *)
  assert (∃ m', Z.pos mz = Z.pos m' * 2 ^ (f - ez)) as [m' Hm'].
  { assert (Z.pos mz = q * 2 ^ (u + minexp - f) * 2 ^ (f - ez)) as Eq.
    { apply (Z.mul_cancel_r _ _ (2 ^ (ez - minexp))); [pose proof (pow2_pos (ez - minexp)); lia|].
      rewrite Hz3, E, <- !Z.mul_assoc, <- !Z.pow_add_r by lia. do 2 f_equal. lia. }
    pose proof (pow2_pos (u + minexp - f) ltac:(lia)).
    exists (Z.to_pos (q * 2 ^ (u + minexp - f))). by rewrite Z2Pos.id by nia. }
  destruct (round_aux_exact s mz m' ez) as [-> Hb].
  { rewrite Hz4. fold f. lia. } { rewrite Hz4. fold f. lia. } { rewrite Hz4. by fold f. }
  split; [split; [exact Hb|done]|]. cbn [val]. rewrite Hz4. fold f.
  rewrite <- Hz3, Hm', <- Z.mul_assoc, <- Z.pow_add_r by lia. do 3 f_equal. lia.
Qed.

(** ** Sums *)

Lemma add_sub_opp x y : (x + y)%D = (x - (- y))%D.
Proof.
  unfold dadd, dsub, dopp. destruct x as [s1|s1| |s1 m1 e1], y as [s2|s2| |s2 m2 e2]; simpl;
    try done; try (by destruct s1, s2); try by rewrite negb_involutive.
Qed.

Lemma fin_opp x : fin x → fin (- x)%D.
Proof. by destruct x. Qed.

Lemma val_opp x : val (- x)%D = - val x.
Proof. destruct x as [| | |s m e]; try done. by destruct s; simpl; lia. Qed.

(** A double on the grid of the multiples of 2^[u] units. *)
Definition grid (u : Z) (x : double) : Prop := canon x ∧ (2 ^ u | val x).

Lemma grid_zero u : grid u d0.
Proof. split; [done|]. apply Z.divide_0_r. Qed.

Lemma sum_magnitude u z : unit_ok u → (2 ^ u | z) → z ≠ 0 → Z.abs z < 2 ^ (u + prec) →
  ∃ q, 0 < q < 2 ^ prec ∧ Z.abs z = q * 2 ^ u.
Proof.
  intros [Hu _] [q Hq] Hz Hb. exists (Z.abs q). pose proof (pow2_pos u Hu).
  rewrite Hq, Z.abs_mul, (Z.abs_eq (2 ^ u)) in * by lia.
  rewrite Z.pow_add_r in Hb by lia. nia.
Qed.

Lemma sub_exact u x y :
  unit_ok u → fin x → fin y → x ≠ S754_zero true ∨ y ≠ S754_zero false →
  (2 ^ u | val x) → (2 ^ u | val y) → Z.abs (val x - val y) < 2 ^ (u + prec) →
  grid u (x - y)%D ∧ val (x - y)%D = val x - val y.
Proof.
  intros Hu Fx Fy Hz Dx Dy Hb. assert (2 ^ u | val x - val y) as Dd by (by apply Z.divide_sub_r).
  assert (∀ z, canon z ∧ val z = val x - val y → grid u z ∧ val z = val x - val y) as Hg.
  { intros z [Cz Ez]. split; [|done]. split; [done|]. by rewrite Ez. }
  apply Hg. revert Fx Fy Hz Dd Hb. clear -Hu. unfold fin.
  destruct x as [s1|s1| |s1 m1 e1], y as [s2|s2| |s2 m2 e2]; cbn [isfinite]; intros Fx Fy Hz Dd Hb; try done.
  - split; [|by destruct s1, s2]. split; [by destruct s1, s2|]. destruct s1, s2; naive_solver.
  - split; [by split; [exact Fy|]|]. simpl. destruct s2; simpl; lia.
  - split; [by split; [exact Fx|]|]. simpl. lia.
  - apply bounded_spec in Fx as [Fx _], Fy as [Fy _].
    destruct (sub_finite s1 m1 e1 s2 m2 e2 Fx Fy) as (d & e & -> & Ev & He).
    rewrite Ev in *. destruct (Z.eq_dec d 0) as [->|Hd]; [done|].
    pose proof (pow2_pos (e - minexp) ltac:(lia)) as Hp.
    destruct (sum_magnitude u (d * 2 ^ (e - minexp)) Hu Dd) as (q & Hq & Eq); [nia|done|].
    rewrite Z.abs_mul, (Z.abs_eq (2 ^ (e - minexp))) in Eq by lia.
    destruct d as [|d|d]; [done|..]; cbn [binary_normalize].
    + destruct (round_exact false d e u q He Hu Hq Eq) as [C V]. by rewrite V.
    + destruct (round_exact true d e u q He Hu Hq Eq) as [C V]. split; [done|]. rewrite V. simpl. lia.
Qed.

Lemma add_exact u x y :
  unit_ok u → grid u x → grid u y → Z.abs (val x + val y) < 2 ^ (u + prec) →
  grid u (x + y)%D ∧ val (x + y)%D = val x + val y.
Proof.
  intros Hu [[Fx Nx] Dx] [[Fy Ny] Dy] Hb. rewrite add_sub_opp.
  destruct (sub_exact u x (- y)%D Hu Fx (fin_opp y Fy)) as [G V].
  - by left.
  - done.
  - rewrite val_opp. by apply Z.divide_opp_r.
  - rewrite val_opp. by replace (val x - - val y) with (val x + val y) by lia.
  - split; [done|]. rewrite V, val_opp. lia.
Qed.

(** [sum_of l x]: [x] is a sum of the values [l], taken in some order and association. *)
Inductive sum_of {V} (operation : V → V → V) (neutral : V) : list V → V → Prop :=
  | sum_nil : sum_of operation neutral [] neutral
  | sum_one v : sum_of operation neutral [v] v
  | sum_add l1 l2 x y :
      sum_of operation neutral l1 x → sum_of operation neutral l2 y →
      sum_of operation neutral (l1 ++ l2) (operation x y)
  | sum_perm l1 l2 x : l1 ≡ₚ l2 → sum_of operation neutral l1 x → sum_of operation neutral l2 x.

(** In a commutative monoid there is only one. *)
Lemma sum_of_monoid {V} (op : V → V → V) e `{!Comm (=) op, !Assoc (=) op, !LeftId (=) e op} l x :
  sum_of op e l x → x = foldr op e l.
Proof.
  induction 1 as [|v|l1 l2 x y _ -> _ ->|l1 l2 x Hp _ ->]; simpl.
  - done.
  - by rewrite (comm op), (left_id e op).
  - rewrite foldr_app. induction l1 as [|a l1 IH]; simpl; [apply (left_id e op)|].
    by rewrite <- (assoc op), IH.
  - apply (foldr_permutation (=) op e); [|done]. intros i a j b c _ _ _.
    by rewrite !(assoc op), (comm op a b).
Qed.

Definition total (l : list double) : Z := foldr (λ x z, val x + z) 0 l.
Definition magnitude (l : list double) : Z := foldr (λ x z, Z.abs (val x) + z) 0 l.

Lemma total_perm l1 l2 : l1 ≡ₚ l2 → total l1 = total l2.
Proof. induction 1; simpl; lia. Qed.

Lemma magnitude_perm l1 l2 : l1 ≡ₚ l2 → magnitude l1 = magnitude l2.
Proof. induction 1; simpl; lia. Qed.

Lemma exact_total_app l1 l2 : total (l1 ++ l2) = total l1 + total l2.
Proof. induction l1; simpl; lia. Qed.

Lemma magnitude_app l1 l2 : magnitude (l1 ++ l2) = magnitude l1 + magnitude l2.
Proof. induction l1; simpl; lia. Qed.

Lemma total_magnitude l : Z.abs (total l) ≤ magnitude l.
Proof. induction l; simpl; lia. Qed.

Lemma magnitude_nonneg l : 0 ≤ magnitude l.
Proof. induction l; simpl; lia. Qed.

(** Doubles on a grid whose magnitudes add up to less than 2^53 grid steps. *)
Definition exact_list (u : Z) (l : list double) : Prop :=
  Forall (grid u) l ∧ magnitude l < 2 ^ (u + prec).

(** They are summed without rounding. *)
Lemma sum_of_exact u l x :
  unit_ok u → exact_list u l → sum_of dadd d0 l x → grid u x ∧ val x = total l.
Proof.
  intros Hu [Hg Hm] Hs. revert Hg Hm.
  induction Hs as [|v|l1 l2 x y _ IH1 _ IH2|l1 l2 x Hp _ IH]; intros Hg Hm.
  - split; [apply grid_zero|done].
  - apply Forall_cons in Hg as [Hg _]. split; [done|]. simpl. lia.
  - apply Forall_app in Hg as [Hg1 Hg2]. rewrite magnitude_app in Hm.
    pose proof (magnitude_nonneg l1). pose proof (magnitude_nonneg l2).
    destruct (IH1 Hg1 ltac:(lia)) as [G1 E1], (IH2 Hg2 ltac:(lia)) as [G2 E2].
    rewrite exact_total_app, <- E1, <- E2. apply add_exact; [done..|].
    rewrite E1, E2. pose proof (total_magnitude l1). pose proof (total_magnitude l2). lia.
  - rewrite <- (total_perm _ _ Hp). rewrite <- Hp in Hg. rewrite <- (magnitude_perm _ _ Hp) in Hm. auto.
Qed.

(** So any two sums of the same values are the same double. *)
Lemma sum_of_unique u l x y :
  unit_ok u → exact_list u l → sum_of dadd d0 l x → sum_of dadd d0 l y → x = y.
Proof.
  intros Hu Hl Hx Hy. destruct (sum_of_exact u l x Hu Hl Hx) as [[Cx _] Ex].
  destruct (sum_of_exact u l y Hu Hl Hy) as [[Cy _] Ey]. apply canon_inj; congruence.
Qed.
