(* ===== verification/Precision.v ===== *)
(** * Comparison with tolerances

    [PrecisionImpl] of algopt_common/Precision.cpp: comparisons of doubles that
    treat two values as equal when they are within an absolute or a relative
    tolerance. *)

From Stdlib Require Import SpecFloat.
From S2P Require Import Prelude Double.

Record PrecisionTolerances := { absolute : double; relative : double }.

(** The defaults of the thrift struct. *)
Definition defaultTolerances : PrecisionTolerances :=
  {| absolute := d1e_10; relative := d1e_10 |}.

Module Precision.

Definition compare (t : PrecisionTolerances) (value1 value2 : double) : Z :=
  let diff := (value1 - value2)%D in
  if (fabs diff <? absolute t)%D then 0
  else if (fabs diff * d2 / (fabs value1 + fabs value2) <? relative t)%D then 0
  else if (d0 <? diff)%D then 1 else -1.

Definition isZero (t : PrecisionTolerances) (value : double) : bool :=
  (fabs value <? absolute t)%D.

Definition trim (t : PrecisionTolerances) (value : double) : double :=
  if isZero t (fabs value) then d0 else value.

Definition snap (value tolerance : double) : double :=
  if (fabs (dround value - value) <? tolerance)%D then dround value else value.

Definition isInteger (t : PrecisionTolerances) (value : double) : bool :=
  compare t (dround value) value =? 0.

Definition isZeroOrOne (t : PrecisionTolerances) (value : double) : bool :=
  (compare t value d0 =? 0) || (compare t value d1 =? 0).

Definition isStrictlyGtZero (t : PrecisionTolerances) (v : double) : bool :=
  compare t v d0 =? 1.

Definition isstrictlyGreater (t : PrecisionTolerances) (v1 v2 : double) : bool :=
  compare t v1 v2 =? 1.

Definition isEqual (t : PrecisionTolerances) (v1 v2 : double) : bool :=
  compare t v1 v2 =? 0.

Definition isStrictlyLesser (t : PrecisionTolerances) (v1 v2 : double) : bool :=
  compare t v1 v2 =? -1.

Definition isLesserOrEqual (t : PrecisionTolerances) (v1 v2 : double) : bool :=
  compare t v1 v2 <=? 0.

Definition isGreaterOrEqual (t : PrecisionTolerances) (v1 v2 : double) : bool :=
  0 <=? compare t v1 v2.

(** A usable tolerance: a positive absolute epsilon. *)
Definition positive_tol (t : PrecisionTolerances) : Prop :=
  (d0 <? absolute t)%D = true.

Lemma default_positive_tol : positive_tol defaultTolerances.
Proof. reflexivity. Qed.

Lemma compare_cases t v1 v2 :
  compare t v1 v2 = 0 ∨ compare t v1 v2 = 1 ∨ compare t v1 v2 = -1.
Proof. unfold compare. repeat case_match; auto. Qed.

(** The outcome of [compare] on finite doubles, by cases on the exact order:
    it either agrees with the exact order or is 0. *)
Lemma compare_sign t v1 v2 :
  fin v1 → fin v2 → positive_tol t →
  (compare t v1 v2 = 1 → val v2 < val v1) ∧
  (compare t v1 v2 = -1 → val v1 < val v2) ∧
  (val v1 = val v2 → compare t v1 v2 = 0).
Proof.
  intros H1 H2 Ht. destruct (sub_sign v1 v2 H1 H2) as (Hlt & Hgt & Heq).
  unfold compare, positive_tol in *.
  destruct (fabs (v1 - v2) <? absolute t)%D eqn:Ha; [done|].
  assert (val v1 ≠ val v2) as Hne.
  { intros Hv. destruct (Heq Hv) as [s Hs]. rewrite Hs, abs_zero in Ha. congruence. }
  destruct (_ / _ <? _)%D; [done|].
  destruct (d0 <? v1 - v2)%D eqn:Hd.
  - split_and!; [intros _|done|done].
    destruct (Z.lt_total (val v1) (val v2)) as [Hv|[?|?]]; [|done|done].
    by pose proof (sign_of_gt0 _ _ (Hlt Hv) Hd).
  - split_and!; [done|intros _|done].
    destruct (Z.lt_total (val v1) (val v2)) as [?|[?|Hv]]; [done|done|].
    exfalso. rewrite sign_of_pos in Hd; [done|auto|].
    intros s Hs. rewrite Hs, abs_zero in Ha. congruence.
Qed.

Lemma compare_eq0 t v1 v2 :
  fin v1 → fin v2 → positive_tol t → val v1 = val v2 → compare t v1 v2 = 0.
Proof. intros. by apply compare_sign. Qed.

(** Swapping the arguments negates the result. *)
Lemma compare_antisym t v1 v2 :
  fin v1 → fin v2 → positive_tol t → compare t v2 v1 = - compare t v1 v2.
Proof.
  intros H1 H2 Ht.
  pose proof (compare_sign t v1 v2 H1 H2 Ht) as (Ha & Hb & _).
  pose proof (compare_sign t v2 v1 H2 H1 Ht) as (Hc & Hd & _).
  assert (compare t v1 v2 = 0 ↔ compare t v2 v1 = 0) as H0.
  { unfold compare. rewrite (sub_abs_sym v2 v1), (add_comm (fabs v2)) by done.
    repeat case_match; done. }
  destruct (compare_cases t v1 v2) as [E|[E|E]], (compare_cases t v2 v1) as [F|[F|F]];
    rewrite ?E, ?F in *; try lia.
Qed.

(** The result depends on the values only. *)
Lemma compare_val t x1 x2 y : fin x1 → fin x2 → val x1 = val x2 → compare t x1 y = compare t x2 y.
Proof.
  intros H1 H2 E. destruct (val_inj x1 x2 H1 H2 E) as [-> |(s1 & s2 & -> & ->)]; [done|].
  unfold compare. destruct y as [[]|[]| |[] m e], s1, s2; reflexivity.
Qed.
End Precision.
