(* ===== verification/ObjectiveValue.v ===== *)
(** * Objective tuples and their comparison

    [GlobalObjectiveValue] and [LocalSearchObjectiveValue] of solver/utils: the
    tuple of objective values, most important first, with the three ways local
    search compares two tuples. *)

From S2P Require Import Prelude Double Precision.

Module GlobalObjectiveValue.

(** [values_] and the announced size [tupleSize_], if any. *)
Record t := mk { values : list double; tupleSize : option nat }.

Definition empty : t := mk [] None.

Definition makeWithFixedSize (size : nat) : t := mk [] (Some size).

Definition size (v : t) : nat := length (values v).

Definition get (v : t) (idx : nat) : result double := at_ (values v !! idx).

Definition append (v : t) (x : double) : result t :=
  match tupleSize v with
  | None => Ok (mk (values v ++ [x]) None)
  | Some n =>
      if (n <=? size v)%nat
      then Throw (runtime_error "tupleSize cannot be <= number of values in the tuple")
      else Ok (mk (values v ++ [x]) (Some n))
  end.

Definition isPartial (v : t) : bool :=
  match tupleSize v with None => false | Some n => negb (n =? size v)%nat end.

(** The loops run over [irange(min(size1, size2))]. *)
Fixpoint unsafeCompare_loop (l1 l2 : list double) : Z :=
  match l1, l2 with
  | x :: l1, y :: l2 =>
      if negb (x =? y)%D then (if (x <? y)%D then -1 else 1)
      else unsafeCompare_loop l1 l2
  | _, _ => 0
  end.

Definition unsafeCompare (value1 value2 : t) : result Z :=
  let size1 := size value1 in
  let size2 := size value2 in
  if (size1 =? 0)%nat then Ok (if (size2 =? 0)%nat then 0 else 1)
  else if (size2 =? 0)%nat then Ok (-1)
  else if negb (isPartial value1 || isPartial value2 || (size1 =? size2)%nat)
  then Throw (runtime_error "size1 != size2")
  else Ok (unsafeCompare_loop (values value1) (values value2)).

Fixpoint precisionCompare_loop (p : PrecisionTolerances) (l1 l2 : list double) : Z :=
  match l1, l2 with
  | x :: l1, y :: l2 =>
      let compare := Precision.compare p x y in
      if negb (compare =? 0) then compare else precisionCompare_loop p l1 l2
  | _, _ => 0
  end.

Definition precisionCompare (value1 value2 : t) (p : PrecisionTolerances) : result Z :=
  let size1 := size value1 in
  let size2 := size value2 in
  if (size1 =? 0)%nat then Ok (if (size2 =? 0)%nat then 0 else 1)
  else if (size2 =? 0)%nat then Ok (-1)
  else if negb (isPartial value1 || isPartial value2 || (size1 =? size2)%nat)
  then Throw (runtime_error "size1 != size2")
  else Ok (precisionCompare_loop p (values value1) (values value2)).

Fixpoint isStrictlyBetter_loop (p : PrecisionTolerances)
    (candidate current : list double) : bool :=
  match candidate, current with
  | x :: candidate, y :: current =>
      let compare := Precision.compare p x y in
      if compare <? 0 then true
      else if 0 <? compare then false
      else if (y <? x)%D then false
      else isStrictlyBetter_loop p candidate current
  | _, _ => false
  end.

Definition isStrictlyBetter (candidate current : t) (p : PrecisionTolerances)
    : result bool :=
  let candidateSize := size candidate in
  let currentSize := size current in
  if (candidateSize =? 0)%nat then Ok false
  else if (currentSize =? 0)%nat then Ok true
  else
    let bothComplete := negb (isPartial candidate) && negb (isPartial current) in
    if bothComplete && negb (candidateSize =? currentSize)%nat
    then Throw (runtime_error "size1 != size2")
    else Ok (isStrictlyBetter_loop p (values candidate) (values current)).

(** [append] to a tuple without an announced size never throws, so the sums are
    built position by position. *)
Definition zip_values (f : double → double → double) (lhs rhs : t) : t :=
  mk (zip_with f (values lhs) (values rhs)) None.

Definition add (lhs rhs : t) (p : PrecisionTolerances) : result t :=
  if negb (size lhs =? size rhs)%nat
  then Throw (runtime_error
    "addition of GlobalObjective values can only be done if both have the same length")
  else Ok (zip_values (λ l r,
    if Precision.compare p l (- r)%D =? 0 then d0 else (l + r)%D) lhs rhs).

Definition subtract (lhs rhs : t) (p : PrecisionTolerances) : result t :=
  if negb (size lhs =? size rhs)%nat
  then Throw (runtime_error
    "subtraction of GlobalObjective values can only be done if both have the same length")
  else Ok (zip_values (λ l r,
    if Precision.compare p l r =? 0 then d0 else (l - r)%D) lhs rhs).

Definition toVector (v : t) : list double := values v.

(** ** The exact lexicographic order on tuples of finite doubles *)

Definition finite_values (v : t) : Prop := Forall fin (values v).

(** [l1] is no larger at every position before one where it is smaller. *)
Fixpoint dominates (l1 l2 : list double) : Prop :=
  match l1, l2 with
  | x :: l1, y :: l2 => val x < val y ∨ (val x ≤ val y ∧ dominates l1 l2)
  | _, _ => False
  end.

(** Strict lexicographic order of the exact values; a tuple that is a prefix
    of the other is not smaller. *)
Fixpoint lex_lt (l1 l2 : list double) : Prop :=
  match l1, l2 with
  | x :: l1, y :: l2 => val x < val y ∨ (val x = val y ∧ lex_lt l1 l2)
  | _, _ => False
  end.

(** An empty tuple stands for +infinity, above every other. *)
Definition value_lt (v1 v2 : t) : Prop :=
  (values v1 ≠ [] ∧ values v2 = []) ∨ lex_lt (values v1) (values v2).

Lemma dominates_lex l1 l2 : dominates l1 l2 → lex_lt l1 l2.
Proof.
  revert l2; induction l1 as [|x l1 IH]; intros [|y l2]; simpl; try done.
  intros [?|[? ?]]; [by left|].
  destruct (Z.lt_total (val x) (val y)) as [?|[?|?]]; [by left| |lia].
  right; auto.
Qed.

Lemma lex_lt_irrefl l : ¬ lex_lt l l.
Proof. induction l; simpl; [tauto|]. intros [?|[? ?]]; [lia|tauto]. Qed.

Lemma lex_lt_trans l1 l2 l3 : lex_lt l1 l2 → lex_lt l2 l3 → lex_lt l1 l3.
Proof.
  revert l2 l3; induction l1 as [|x l1 IH]; intros [|y l2] [|z l3]; simpl; try done.
  intros [?|[? ?]] [?|[? ?]]; [left; lia|left; lia|left; lia|].
  right; split; [lia|eauto].
Qed.

Lemma value_lt_irrefl v : ¬ value_lt v v.
Proof. intros [[? ?]|?]; [done|by eapply lex_lt_irrefl]. Qed.

Lemma value_lt_trans v1 v2 v3 : value_lt v1 v2 → value_lt v2 v3 → value_lt v1 v3.
Proof.
  intros [[H1 H2]|H1] [[H3 H4]|H3].
  - by left.
  - rewrite H2 in H3. by destruct (values v3).
  - left. split; [|done]. intros E. by rewrite E in H1.
  - right. by eapply lex_lt_trans.
Qed.

#[global] Instance value_lt_strict : StrictOrder value_lt.
Proof.
  split; [intros v; apply value_lt_irrefl|intros ???; apply value_lt_trans].
Qed.

(** ** The loops against the exact order *)
Section loops.
Context (p : PrecisionTolerances) (Hp : Precision.positive_tol p).

Lemma isStrictlyBetter_loop_dominates l1 l2 :
  Forall fin l1 → Forall fin l2 →
  isStrictlyBetter_loop p l1 l2 = true → dominates l1 l2.
Proof.
  intros H1; revert l2; induction H1 as [|x l1 Hx H1 IH]; intros [|y l2] H2; try done.
  inversion_clear H2 as [|? ? Hy H2']. cbn [isStrictlyBetter_loop dominates].
  destruct (Precision.compare_sign p x y Hx Hy Hp) as (_ & Hlt & _).
  rewrite (dlt_val y x) by done.
  destruct (Precision.compare_cases p x y) as [E|[E|E]]; rewrite E; simpl; try done.
  - destruct (Z.ltb_spec (val y) (val x)); [done|]. intros ?. right. auto.
  - intros _. left. auto.
Qed.

Lemma isStrictlyBetter_loop_precision l1 l2 :
  isStrictlyBetter_loop p l1 l2 = true → precisionCompare_loop p l1 l2 = -1.
Proof.
  revert l2; induction l1 as [|x l1 IH]; intros [|y l2]; simpl; try done.
  destruct (Precision.compare_cases p x y) as [E|[E|E]]; rewrite E; simpl; try done.
  destruct (y <? x)%D; [done|auto].
Qed.

Lemma unsafeCompare_loop_spec l1 l2 :
  Forall fin l1 → Forall fin l2 →
  (unsafeCompare_loop l1 l2 = -1 ↔ lex_lt l1 l2) ∧
  (unsafeCompare_loop l1 l2 = 1 ↔ lex_lt l2 l1).
Proof.
  intros H1; revert l2; induction H1 as [|x l1 Hx H1 IH]; intros [|y l2] H2; try done.
  inversion_clear H2 as [|? ? Hy H2']. cbn [unsafeCompare_loop lex_lt].
  rewrite deq_val, dlt_val by done.
  destruct (IH l2 H2') as [IHa IHb].
  destruct (Z.eqb_spec (val x) (val y)); simpl.
  - rewrite IHa, IHb. intuition lia.
  - destruct (Z.ltb_spec (val x) (val y)); intuition lia.
Qed.

Lemma precisionCompare_loop_antisym l1 l2 :
  Forall fin l1 → Forall fin l2 →
  precisionCompare_loop p l2 l1 = - precisionCompare_loop p l1 l2.
Proof.
  intros H1; revert l2; induction H1 as [|x l1 Hx H1 IH]; intros [|y l2] H2; try done.
  inversion_clear H2 as [|? ? Hy H2']. simpl.
  rewrite (Precision.compare_antisym p x y) by done.
  destruct (Precision.compare_cases p x y) as [E|[E|E]]; rewrite E; simpl; auto.
Qed.
End loops.

(** ** Properties *)

(** A strictly better tuple is strictly smaller in the exact lexicographic
    order, so the tolerance never lets a candidate drift upwards. *)
Lemma isStrictlyBetter_value_lt p v1 v2 :
  Precision.positive_tol p → finite_values v1 → finite_values v2 →
  isStrictlyBetter v1 v2 p = Ok true → value_lt v1 v2.
Proof.
  unfold isStrictlyBetter, value_lt, finite_values, size. intros Hp H1 H2.
  destruct (values v1) as [|x l1] eqn:E1, (values v2) as [|y l2] eqn:E2;
    simpl length; try (simpl; naive_solver).
  destruct (_ && _); [done|]. intros [= Hb]. right.
  by eapply dominates_lex, isStrictlyBetter_loop_dominates.
Qed.

Lemma isStrictlyBetter_precisionCompare p v1 v2 :
  isStrictlyBetter v1 v2 p = Ok true → precisionCompare v1 v2 p = Ok (-1).
Proof.
  unfold isStrictlyBetter, precisionCompare, size.
  pose proof (isStrictlyBetter_loop_precision p (values v1) (values v2)) as Hl.
  destruct (values v1) as [|x l1], (values v2) as [|y l2]; try done.
  cbn [length Nat.eqb].
  destruct (isPartial v1), (isPartial v2), (_ =? _)%nat; try done;
    cbn [negb andb orb]; intros [= Hb]; f_equal; auto.
Qed.

(** One accepted step: the new tuple was found strictly better. *)
Definition improves (p : PrecisionTolerances) (v_old v_new : t) : Prop :=
  finite_values v_old ∧ finite_values v_new ∧
  isStrictlyBetter v_new v_old p = Ok true.

Lemma improves_tc_value_lt p v1 v2 :
  Precision.positive_tol p → tc (improves p) v1 v2 → value_lt v2 v1.
Proof.
  intros Hp. induction 1 as [v1 v2 (? & ? & ?)|v1 v2 v3 (? & ? & ?) _ IH].
  - by eapply isStrictlyBetter_value_lt.
  - etransitivity; [apply IH|]. by eapply isStrictlyBetter_value_lt.
Qed.

(** ** No infinite improvement

    Finite doubles are bounded, so the tuples of one length are well founded
    under the exact lexicographic order. *)
Definition finite_lt (n : nat) (l1 l2 : list double) : Prop :=
  lex_lt l1 l2 ∧ Forall fin l1 ∧ length l1 = n.

Lemma finite_lt_acc_cons n :
  (∀ l, Forall fin l → length l = n → Acc (finite_lt n) l) →
  ∀ k, - val_bound ≤ k → ∀ l, Acc (finite_lt n) l → ∀ x, val x = k →
  Acc (finite_lt (S n)) (x :: l).
Proof.
  intros IHn k Hk. induction (Z.lt_wf (- val_bound) k) as [k _ IHk].
  intros l Hl. induction Hl as [l _ IHl]. intros x Hx. constructor.
  intros [|y m] (Hlex & Hf & Hlen); [done|]. injection Hlen as Hlen.
  inversion_clear Hf as [|? ? Hy Hm]. pose proof (val_bounded y Hy).
  simpl in Hlex. destruct Hlex as [Hlt|[Heq Hlex]].
  - eapply (IHk (val y)); [lia|lia|by apply IHn|done].
  - apply IHl; [by split_and!|lia].
Qed.

Lemma finite_lt_acc n l : Forall fin l → length l = n → Acc (finite_lt n) l.
Proof.
  revert l. induction n as [|n IH]; intros l Hl Hn.
  - constructor. intros m (Hlex & _ & Hm). by destruct l, m.
  - destruct l as [|x l]; [done|]. injection Hn as Hn. inversion_clear Hl as [|? ? Hx Hl'].
    eapply finite_lt_acc_cons; [done|by apply val_bounded|by apply IH|done].
Qed.

(** The tuples agree as far as both go. *)
Fixpoint agree (l1 l2 : list double) : Prop :=
  match l1, l2 with
  | x :: l1, y :: l2 => val x = val y ∧ agree l1 l2
  | _, _ => True
  end.

Lemma lex_lt_cotrans l1 : ∀ l2 l3,
  (agree l1 l2 → length l1 = length l2) → lex_lt l1 l3 →
  lex_lt l1 l2 ∨ lex_lt l2 l3.
Proof.
  induction l1 as [|x l1 IH]; intros [|y l2] [|z l3] Ha; simpl in *; try done.
  { by specialize (Ha I). }
  intros H. destruct (Z.lt_total (val x) (val y)) as [?|[Hxy|?]]; [by left; left| |right; left; lia].
  destruct H as [?|[Hxz H]]; [right; left; lia|].
  destruct (IH l2 l3) as [?|?]; [|done|left|right]; [|right; split; (done || lia)..].
  intros Hag. specialize (Ha (conj Hxy Hag)). lia.
Qed.

End GlobalObjectiveValue.

(** * LocalSearchObjectiveValue

    Each objective value is followed by its penalty, (G0, P0, G1, P1, ...), when
    the problem has penalties. *)
Module LocalSearchObjectiveValue.

Record t := mk { combinedValue : GlobalObjectiveValue.t; hasPenalty : bool }.

Definition empty : t := mk GlobalObjectiveValue.empty false.

(** [ObjectiveAndPenalty] *)
Record ObjectiveAndPenalty := { objective : double; penalty : option double }.

Definition validateCompatible (lhs rhs : t) : result () :=
  if negb (GlobalObjectiveValue.size (combinedValue lhs) =? 0)%nat
     && negb (GlobalObjectiveValue.size (combinedValue rhs) =? 0)%nat
     && negb (eqb (hasPenalty lhs) (hasPenalty rhs))
  then Throw (runtime_error "Penalty objective presence differs")
  else Ok ().

Definition size (v : t) : nat :=
  let n := GlobalObjectiveValue.size (combinedValue v) in
  if hasPenalty v then ((n + 1) / 2)%nat else n.

Definition get (v : t) (pos : nat) : result ObjectiveAndPenalty :=
  if negb (hasPenalty v) then
    o ← GlobalObjectiveValue.get (combinedValue v) pos;
    Ok {| objective := o; penalty := None |}
  else
    o ← GlobalObjectiveValue.get (combinedValue v) (2 * pos);
    let penaltyIndex := (2 * pos + 1)%nat in
    if (penaltyIndex <? GlobalObjectiveValue.size (combinedValue v))%nat then
      x ← GlobalObjectiveValue.get (combinedValue v) penaltyIndex;
      Ok {| objective := o; penalty := Some x |}
    else Ok {| objective := o; penalty := None |}.

Definition isStrictlyBetter (candidate current : t) (p : PrecisionTolerances)
    : result bool :=
  _ ← validateCompatible candidate current;
  GlobalObjectiveValue.isStrictlyBetter
    (combinedValue candidate) (combinedValue current) p.

Definition unsafeCompare (lhs rhs : t) : result Z :=
  _ ← validateCompatible lhs rhs;
  GlobalObjectiveValue.unsafeCompare (combinedValue lhs) (combinedValue rhs).

Definition precisionCompare (lhs rhs : t) (p : PrecisionTolerances) : result Z :=
  _ ← validateCompatible lhs rhs;
  GlobalObjectiveValue.precisionCompare (combinedValue lhs) (combinedValue rhs) p.

Definition add (lhs rhs : t) (p : PrecisionTolerances) : result t :=
  _ ← validateCompatible lhs rhs;
  v ← GlobalObjectiveValue.add (combinedValue lhs) (combinedValue rhs) p;
  Ok (mk v (hasPenalty lhs)).

Definition subtract (lhs rhs : t) (p : PrecisionTolerances) : result t :=
  _ ← validateCompatible lhs rhs;
  v ← GlobalObjectiveValue.subtract (combinedValue lhs) (combinedValue rhs) p;
  Ok (mk v (hasPenalty lhs)).

(** The loop of [firstChangedPosition] from position [pos] on. *)
Fixpoint firstChangedPosition_loop (p : PrecisionTolerances) (lhs rhs : t)
    (pos fuel : nat) : result (option nat) :=
  match fuel with
  | O => Ok None
  | S fuel =>
      l ← get lhs pos;
      r ← get rhs pos;
      if negb (Precision.compare p (objective l) (objective r) =? 0)
         || negb (Precision.compare p (default d0 (penalty l)) (default d0 (penalty r)) =? 0)
      then Ok (Some pos)
      else firstChangedPosition_loop p lhs rhs (S pos) fuel
  end.

Definition firstChangedPosition (lhs rhs : t) (p : PrecisionTolerances)
    : result (option nat) :=
  _ ← validateCompatible lhs rhs;
  firstChangedPosition_loop p lhs rhs 0 (size lhs `min` size rhs).

(** Every position below [size] can be read. *)
Lemma get_ok v pos : (pos < size v)%nat → is_Ok (get v pos) = true.
Proof.
  unfold get, size, GlobalObjectiveValue.get, GlobalObjectiveValue.size.
  destruct (hasPenalty v); simpl negb; cbn match; intros Hpos.
  - destruct (lookup_lt_is_Some_2 (GlobalObjectiveValue.values (combinedValue v))
                (2 * pos)) as [x ->].
    { pose proof (Nat.Div0.mul_div_le
        (length (GlobalObjectiveValue.values (combinedValue v)) + 1) 2). lia. }
    simpl. destruct (_ <? _)%nat eqn:E; [|done]. apply Nat.ltb_lt in E.
    destruct (lookup_lt_is_Some_2 _ _ E) as [y Hy]. simpl in Hy. by rewrite Hy.
  - by destruct (lookup_lt_is_Some_2 _ _ Hpos) as [x ->].
Qed.
End LocalSearchObjectiveValue.
