(* ===== verification/AccessOrderedSet.v ===== *)
(** * Access-ordered sets

    [AccessOrderedSetBase], [AccessOrderedFastSet] and [AccessOrderedSortedSet]
    of algopt_common: sets with a "where-i-was" cursor.  An iteration starts at
    the cursor and goes round the container once; when it is abandoned part way,
    the cursor moves to the first element it did not increment past.

    The containers hold pairwise different elements and their iterators stay
    valid until the element is erased, so an iterator is modelled by the element
    it points to, and [end()] by [None]. *)

From Stdlib Require Import Sorted.
From S2P Require Import Prelude.

Module AccessOrderedSetBase.
Section base.
Context {T : Type} `{EqDecision T}.

(** [elementContainer_] in iteration order, and [currIter_]. *)
Record t := mk { elementContainer : list T; currIter : option T }.

(** [Container::begin()] *)
Definition container_begin (l : list T) : option T := head l.

(** [std::next(it)] for an iterator at [x]: the element after [x], or
    [end()]. *)
Fixpoint next_after (x : T) (l : list T) : option T :=
  match l with
  | [] => None
  | y :: l => if decide (x = y) then head l else next_after x l
  end.

Definition setCurrIterToBegin (s : t) : t :=
  mk (elementContainer s) (container_begin (elementContainer s)).

Definition setCurrIter (s : t) (inner : option T) : t :=
  mk (elementContainer s) inner.

Definition size (s : t) : nat := length (elementContainer s).

Definition empty (s : t) : bool := bool_decide (elementContainer s = []).

Definition updateCurrIterBeforeErase (s : t) (toErase : T) : t :=
  if decide (Some toErase = currIter s) then
    let nextIter := next_after toErase (elementContainer s) in
    if bool_decide (nextIter = None) && (2 <=? size s)%nat
    then setCurrIter s (container_begin (elementContainer s))
    else setCurrIter s nextIter
  else s.

(** [Container::erase(it)] *)
Definition container_erase (x : T) (l : list T) : list T := filter (λ y, y ≠ x) l.

(** ** Iterator *)
Record Iterator := mkIterator {
  innerIter : option T;
  nElementsToIterateOver : nat;
  wasIncremented : bool
}.

Definition begin (s : t) : Iterator := mkIterator (currIter s) (size s) false.

Definition end_ : Iterator := mkIterator None 0 false.

(** [operator==]: only the remaining count matters. *)
Definition iter_eq (i j : Iterator) : bool :=
  (nElementsToIterateOver i =? nElementsToIterateOver j)%nat.

(** [operator++]: advance, and circle back to the first element. *)
Definition increment (s : t) (i : Iterator) : Iterator :=
  let inner := match innerIter i with
               | Some x => next_after x (elementContainer s)
               | None => None
               end in
  mkIterator
    (match inner with None => container_begin (elementContainer s) | Some _ => inner end)
    (nElementsToIterateOver i - 1) true.

(** [~Iterator] *)
Definition destroy (s : t) (i : Iterator) : t :=
  if wasIncremented i && (0 <? nElementsToIterateOver i)%nat
  then setCurrIter s (innerIter i) else s.

(** The range-for loop [for (x : s) { if (n == 0) break; visit(x); --n; }]:
    the elements visited, and the set after the iterator is destroyed. *)
Fixpoint iterate_from (s : t) (i : Iterator) (n : nat) : list T * Iterator :=
  match n with
  | O => ([], i)
  | S n =>
      if iter_eq i end_ then ([], i)
      else match innerIter i with
           | None => ([], i)
           | Some x =>
               let '(l, i') := iterate_from s (increment s i) n in (x :: l, i')
           end
  end.

Definition iterate (s : t) (n : nat) : list T * t :=
  let '(l, i) := iterate_from s (begin s) n in (l, destroy s i).

(** ** Invariant: the cursor points into the container. *)
Record inv (s : t) : Prop := {
  inv_nodup : NoDup (elementContainer s);
  inv_curr : match currIter s with
             | Some x => x ∈ elementContainer s
             | None => elementContainer s = []
             end
}.

Lemma next_after_app x l1 l2 :
  x ∉ l1 → next_after x (l1 ++ (x :: l2)) = head l2.
Proof.
  induction l1 as [|y l1 IH]; simpl; intros Hx.
  - by destruct (decide (x = x)).
  - destruct (decide (x = y)); set_solver.
Qed.

Lemma next_after_elem x y l : next_after x l = Some y → y ∈ l.
Proof.
  induction l as [|z l IH]; simpl; [done|].
  destruct (decide (x = z)); [destruct l; simpl; set_solver|set_solver].
Qed.

Lemma next_after_ne x y l : NoDup l → next_after x l = Some y → y ≠ x.
Proof.
  induction l as [|z l IH]; simpl; [done|].
  intros [Hz Hl]%NoDup_cons. destruct (decide (x = z)) as [->|]; [|auto].
  destruct l; simpl; [done|]. intros [= ->] ->. set_solver.
Qed.

Lemma updateCurrIterBeforeErase_elements s x :
  elementContainer (updateCurrIterBeforeErase s x) = elementContainer s.
Proof. unfold updateCurrIterBeforeErase. by repeat case_match. Qed.

Lemma inv_setCurrIterToBegin l c :
  NoDup l → inv (setCurrIterToBegin (mk l c)).
Proof. intros Hl. split; [done|]. simpl. destruct l; simpl; set_solver. Qed.

(** After the cursor is moved off the element, erasing it leaves a valid set. *)
Lemma inv_erase s x :
  inv s → x ∈ elementContainer s →
  inv (mk (container_erase x (elementContainer s))
          (currIter (updateCurrIterBeforeErase s x))).
Proof.
  intros [Hnd Hc] Hx. unfold updateCurrIterBeforeErase, container_erase.
  split; [by apply NoDup_filter|]. simpl.
  destruct (decide (Some x = currIter s)) as [E|E].
  - destruct (next_after x (elementContainer s)) as [y|] eqn:En; simpl.
    + apply list_elem_of_filter. split; [by eapply next_after_ne|by eapply next_after_elem].
    + destruct (elementContainer s) as [|z l] eqn:El; [set_solver|].
      unfold size; rewrite El; simpl.
      destruct l as [|z' l]; simpl.
      * assert (x = z) as -> by set_solver. rewrite filter_cons_False, filter_nil; [done|tauto].
      * apply list_elem_of_filter. split; [|set_solver]. intros ->.
        simpl in En. by destruct (decide (x = x)).
  - destruct (currIter s) as [y|] eqn:Ey; simpl.
    + apply list_elem_of_filter. split; [congruence|done].
    + rewrite Hc in Hx. set_solver.
Qed.

(** ** Iteration order *)

(** The order of a full iteration: from the cursor round to it. *)
Definition rotation (s : t) : list T :=
  match currIter s with
  | None => []
  | Some c =>
      match list_find (λ y, y = c) (elementContainer s) with
      | Some (k, _) => (drop k (elementContainer s) ++ take k (elementContainer s))%list
      | None => []
      end
  end.

Lemma list_find_split (c : T) l :
  NoDup l → c ∈ l →
  ∃ l1 l2, l = l1 ++ (c :: l2) ∧ c ∉ l1 ∧ c ∉ l2 ∧
    list_find (λ y, y = c) l = Some (length l1, c).
Proof.
  intros Hnd (l1 & l2 & ->)%list_elem_of_split. exists l1, l2.
  apply NoDup_app in Hnd as (Hn1 & Hd & [Hc Hn2]%NoDup_cons).
  assert (c ∉ l1) by (intros ?; eapply Hd; [done|set_solver]).
  split_and!; [done|done|done|].
  rewrite list_find_app_r.
  - simpl. rewrite decide_True by done. done.
  - apply list_find_None, Forall_forall. intros y Hy ->. done.
Qed.

Lemma rotation_split s c l1 l2 :
  inv s → elementContainer s = l1 ++ (c :: l2) → currIter s = Some c →
  rotation s = c :: l2 ++ l1.
Proof.
  intros [Hnd _] El Ec. unfold rotation. rewrite Ec, El. rewrite El in Hnd.
  destruct (list_find_split c (l1 ++ (c :: l2))) as (k1 & k2 & E & ? & ? & ->);
    [done|set_solver|].
  assert (k1 = l1 ∧ k2 = l2) as [-> ->].
  { apply NoDup_app in Hnd as (_ & Hd & [Hc _]%NoDup_cons).
    assert (c ∉ l1) by (intros ?; eapply Hd; [done|set_solver]).
    clear -E H H0 H1 Hc. revert k1 E H. induction l1 as [|a l1 IH]; intros [|b k1] E H;
      simplify_eq/=; try set_solver. }
  rewrite drop_app_length, take_app_length. done.
Qed.

Lemma rotation_perm s : inv s → rotation s ≡ₚ elementContainer s.
Proof.
  intros Hi. pose proof (inv_curr _ Hi) as Hc. pose proof (inv_nodup _ Hi) as Hnd.
  destruct (currIter s) as [c|] eqn:Ec.
  - destruct (list_find_split c _ Hnd Hc) as (l1 & l2 & El & _).
    rewrite (rotation_split s c l1 l2) by done. rewrite El, Permutation_app_comm.
    by rewrite Permutation_middle.
  - unfold rotation. by rewrite Ec, Hc.
Qed.

(** One increment moves the head of the rotation to its end. *)
Lemma rotation_step (l : list T) x m w :
  inv (mk l (Some x)) →
  ∃ r y, rotation (mk l (Some x)) = x :: r ∧
    increment (mk l (Some x)) (mkIterator (Some x) m w) = mkIterator (Some y) (m - 1) true ∧
    inv (mk l (Some y)) ∧ rotation (mk l (Some y)) = r ++ [x].
Proof.
  intros Hi. pose proof (inv_nodup _ Hi) as Hnd; simpl in Hnd.
  destruct (list_find_split x l Hnd (inv_curr _ Hi)) as (l1 & l2 & -> & Hx1 & Hx2 & _).
  exists (l2 ++ l1). unfold increment; cbn [innerIter elementContainer].
  rewrite (rotation_split _ x l1 l2) by done. rewrite next_after_app by done.
  destruct l2 as [|z l2]; simpl.
  - destruct l1 as [|a l1]; simpl.
    + exists x. split_and!; [done|done|done|].
      by rewrite (rotation_split (mk [x] (Some x)) x [] []).
    + exists a. assert (inv (mk (a :: l1 ++ [x]) (Some a))) by (split; [done|set_solver]).
      split_and!; [done|done|done|].
      rewrite (rotation_split _ a [] (l1 ++ [x])) by done. by rewrite app_nil_r.
  - exists z. assert (inv (mk (l1 ++ x :: z :: l2) (Some z))) by (split; [done|set_solver]).
    split_and!; [done|done|done|].
    rewrite (rotation_split _ z (l1 ++ [x]) l2); [|done|by rewrite <- (assoc_L (++))|done].
    by rewrite (assoc_L (++)).
Qed.

Lemma rotation_length (s : t) : inv s → length (rotation s) = size s.
Proof. intros. unfold size. by rewrite rotation_perm. Qed.

Lemma iterate_from_spec (l : list T) n x m w :
  inv (mk l (Some x)) → (n ≤ m)%nat → (n ≤ length l)%nat →
  let R := rotation (mk l (Some x)) in
  ∃ y, iterate_from (mk l (Some x)) (mkIterator (Some x) m w) n =
         (take n R, mkIterator (Some y) (m - n) (w || (0 <? n)%nat)) ∧
    inv (mk l (Some y)) ∧ rotation (mk l (Some y)) = drop n R ++ take n R.
Proof.
  assert (∀ i c c', increment (mk l c) i = increment (mk l c') i) as Hinc by done.
  assert (∀ k i c c', iterate_from (mk l c) i k = iterate_from (mk l c') i k) as Hit.
  { induction k as [|k IH]; intros i c c'; simpl; [done|].
    destruct (iter_eq _ _); [done|]. destruct (innerIter i); [|done].
    by rewrite (IH _ c c'). }
  revert x m w. induction n as [|n IH]; intros x m w Hi Hm Hl R.
  - exists x. split_and!; [|done|by rewrite app_nil_r].
    simpl. by rewrite Nat.sub_0_r, orb_false_r.
  - destruct (rotation_step l x m w Hi) as (r & y & HR & Hinc' & Hy & HRy).
    pose proof (rotation_length _ Hi) as Hlen. rewrite HR in Hlen.
    unfold size in Hlen; simpl in Hlen.
    destruct (IH y (m - 1)%nat true Hy) as (z & Hz & Hiz & HRz); [lia|lia|].
    exists z. subst R. rewrite HR. rewrite HRy in Hz, HRz.
    rewrite take_app_le in Hz, HRz by lia. rewrite drop_app_le in HRz by lia.
    split_and!; [|done|rewrite HRz; simpl; by rewrite <- (assoc_L (++))].
    cbn [iterate_from iter_eq end_ nElementsToIterateOver innerIter].
    unfold iter_eq; cbn [nElementsToIterateOver].
    rewrite Hinc', (Hit n _ _ (Some y)), Hz. simpl.
    destruct (Nat.eqb_spec m 0); [lia|].
    replace (m - S n)%nat with (m - 1 - n)%nat by lia. by destruct w.
Qed.

(** What one range-for loop that breaks after [n] elements does. *)
Lemma iterate_spec (s : t) n :
  inv s → (n ≤ size s)%nat →
  let '(visited, s') := iterate s n in
  visited = take n (rotation s) ∧ inv s' ∧
  elementContainer s' = elementContainer s ∧
  rotation s' = drop n (rotation s) ++ take n (rotation s).
Proof.
  intros Hi Hn. destruct s as [l [c|]] eqn:Es.
  - unfold iterate, begin; cbn [currIter].
    destruct (iterate_from_spec l n c (size (mk l (Some c))) false Hi Hn Hn)
      as (y & -> & Hy & HR). unfold destroy, setCurrIter.
    cbn [wasIncremented nElementsToIterateOver innerIter orb elementContainer].
    destruct (Nat.ltb_spec 0 n); cbn [andb].
    + destruct (Nat.ltb_spec 0 (size (mk l (Some c)) - n)); [by split_and!|].
      assert (n = size (mk l (Some c))) as -> by lia.
      rewrite take_ge, drop_ge by (by rewrite rotation_length). by split_and!.
    + assert (n = 0%nat) as -> by lia.
      rewrite take_0, drop_0, app_nil_r. by split_and!.
  - pose proof (inv_curr _ Hi) as Hc; simpl in Hc. subst l.
    assert (n = 0%nat) as -> by (unfold size in Hn; simpl in Hn; lia). by split_and!.
Qed.
End base.
Arguments t T : clear implicits.
Arguments Iterator T : clear implicits.
End AccessOrderedSetBase.

(** * AccessOrderedFastSet: a [std::list] and a hash map into it *)
Module AccessOrderedFastSet.
Section fast.
Context {T : Type} `{Countable T}.

(** [elementToIterator_] maps an element to the list iterator at it, so it is
    given by the set of its keys. *)
Record t := mk {
  base : AccessOrderedSetBase.t T;
  elementToIterator : gset T
}.

Definition elements (s : t) : list T := AccessOrderedSetBase.elementContainer (base s).

(** The default constructor. *)
Definition make : t := mk (AccessOrderedSetBase.mk [] None) ∅.

Definition contains (s : t) (x : T) : bool := bool_decide (x ∈ elementToIterator s).

(** [insertImpl] *)
Definition insert (s : t) (x : T) : t :=
  if contains s x then s
  else
    let b := AccessOrderedSetBase.mk (elements s ++ [x])
               (AccessOrderedSetBase.currIter (base s)) in
    let b' := if (AccessOrderedSetBase.size b =? 1)%nat
              then AccessOrderedSetBase.setCurrIterToBegin b else b in
    mk b' ({[x]} ∪ elementToIterator s).

(** [erase], with [find] and [eraseImpl]. *)
Definition erase (s : t) (x : T) : t :=
  if contains s x then
    let b := AccessOrderedSetBase.updateCurrIterBeforeErase (base s) x in
    mk (AccessOrderedSetBase.mk
          (AccessOrderedSetBase.container_erase x (AccessOrderedSetBase.elementContainer b))
          (AccessOrderedSetBase.currIter b))
       (elementToIterator s ∖ {[x]})
  else s.

(** [populateElementToIterator]: [emplace] for each element of the list; the
    entries already in the map are kept. *)
Definition populateElementToIterator (b : AccessOrderedSetBase.t T) (m : gset T) : t :=
  mk b (m ∪ list_to_set (AccessOrderedSetBase.elementContainer b)).

(** The copy constructor starts from an empty map. *)
Definition copy (other : t) : t :=
  populateElementToIterator (AccessOrderedSetBase.setCurrIterToBegin (base other)) ∅.

(** The copy assignment [s = other]. *)
Definition assign (s other : t) : t :=
  populateElementToIterator (AccessOrderedSetBase.setCurrIterToBegin (base other))
    (elementToIterator s).

Record inv (s : t) : Prop := {
  inv_base : AccessOrderedSetBase.inv (base s);
  inv_map : elementToIterator s = list_to_set (elements s)
}.

Definition to_set (s : t) : gset T := list_to_set (elements s).

Lemma fast_make_inv : inv make.
Proof. split; [split|]; simpl; [constructor|done|done]. Qed.

Lemma fast_contains_spec s x : inv s → contains s x = bool_decide (x ∈ to_set s).
Proof. intros [_ Hm]. unfold contains, to_set. by rewrite Hm. Qed.

Lemma fast_insert_inv s x : inv s → inv (insert s x).
Proof.
  intros Hi. unfold insert. destruct (contains s x) eqn:Hx; [done|].
  rewrite fast_contains_spec in Hx by done. apply bool_decide_eq_false in Hx.
  destruct Hi as [[Hnd Hc] Hm]. unfold to_set, elements in *.
  assert (NoDup (AccessOrderedSetBase.elementContainer (base s) ++ [x])) as Hnd'.
  { apply NoDup_app. split_and!; [done| |apply NoDup_singleton]. set_solver. }
  split; [|unfold elements; simpl; destruct (_ =? 1)%nat; simpl;
           rewrite Hm, list_to_set_app_L; set_solver].
  simpl. unfold AccessOrderedSetBase.size; simpl.
  destruct (Nat.eqb_spec
    (length (AccessOrderedSetBase.elementContainer (base s) ++ [x])) 1) as [E|E].
  - by apply AccessOrderedSetBase.inv_setCurrIterToBegin.
  - split; [done|]. simpl.
    destruct (AccessOrderedSetBase.currIter (base s)); [set_solver|].
    rewrite Hc in E. done.
Qed.

Lemma fast_insert_to_set s x : inv s → to_set (insert s x) = {[x]} ∪ to_set s.
Proof.
  intros Hi. unfold insert. destruct (contains s x) eqn:Hx.
  - rewrite fast_contains_spec in Hx by done. apply bool_decide_eq_true in Hx. set_solver.
  - unfold to_set, elements; simpl. destruct (_ =? 1)%nat; simpl;
      rewrite list_to_set_app_L; set_solver.
Qed.

Lemma erase_to_set s x : inv s → to_set (erase s x) = to_set s ∖ {[x]}.
Proof.
  intros Hi. unfold erase. destruct (contains s x) eqn:Hx;
    rewrite fast_contains_spec in Hx by done.
  - unfold to_set, elements; simpl. unfold AccessOrderedSetBase.container_erase.
    rewrite AccessOrderedSetBase.updateCurrIterBeforeErase_elements.
    apply set_eq. intros y.
    rewrite elem_of_list_to_set, list_elem_of_filter, elem_of_difference,
      elem_of_list_to_set, elem_of_singleton. tauto.
  - apply bool_decide_eq_false in Hx. set_solver.
Qed.

Lemma erase_inv s x : inv s → inv (erase s x).
Proof.
  intros Hi. pose proof (erase_to_set s x Hi) as Hs. revert Hs. unfold erase.
  destruct (contains s x) eqn:Hx; [|done]. intros Hs.
  rewrite fast_contains_spec in Hx by done. apply bool_decide_eq_true in Hx.
  destruct Hi as [Hb Hm]. split; simpl.
  - rewrite AccessOrderedSetBase.updateCurrIterBeforeErase_elements.
    apply AccessOrderedSetBase.inv_erase; [done|].
    unfold to_set, elements in Hx. set_solver.
  - unfold to_set in Hs. rewrite Hs, Hm. done.
Qed.

Lemma copy_inv s : inv s → inv (copy s) ∧ elements (copy s) = elements s.
Proof.
  intros [[Hnd _] _]. split; [split|done]; simpl; [|set_solver].
  by apply (AccessOrderedSetBase.inv_setCurrIterToBegin _ None).
Qed.
End fast.
Arguments t T {_ _}.
End AccessOrderedFastSet.

(** * std::set with a comparator

    The elements in comparator order.  Two elements are equivalent when neither
    is less than the other; insertion ignores an element equivalent to one in
    the set. *)
Module StdSet.
Section stdset.
Context {T : Type} (lt : T → T → bool).

(** The new elements and whether the element was inserted. *)
Fixpoint insert (x : T) (l : list T) : list T * bool :=
  match l with
  | [] => ([x], true)
  | y :: l' =>
      if lt x y then (x :: l, true)
      else if lt y x then let '(l'', b) := insert x l' in (y :: l'', b)
      else (l, false)
  end.

(** The element equivalent to [x], if any. *)
Fixpoint find (x : T) (l : list T) : option T :=
  match l with
  | [] => None
  | y :: l => if lt x y then None else if lt y x then find x l else Some y
  end.

Fixpoint erase (x : T) (l : list T) : list T :=
  match l with
  | [] => []
  | y :: l' => if lt x y then l else if lt y x then y :: erase x l' else l'
  end.

Definition sorted (l : list T) : Prop := StronglySorted (λ x y, lt x y = true) l.
End stdset.

(** A comparator that is a strict total order on the elements of [D]. *)
Class StrictTotal {T : Type} (D : T → Prop) (lt : T → T → bool) : Prop := {
  st_irrefl : ∀ x, D x → lt x x = false;
  st_trans : ∀ x y z, D x → D y → D z → lt x y = true → lt y z = true → lt x z = true;
  st_total : ∀ x y, D x → D y → lt x y = false → lt y x = false → x = y
}.

Section stdset_lemmas.
Context {T : Type} {D : T → Prop} {lt : T → T → bool} `{!StrictTotal D lt}.

Lemma lt_asym x y : D x → D y → lt x y = true → lt y x = false.
Proof.
  intros Hx Hy Hxy. destruct (lt y x) eqn:E; [|done].
  assert (lt x x = true) as Hxx by (by apply (st_trans x y x)).
  by rewrite st_irrefl in Hxx.
Qed.

Lemma sorted_NoDup l : Forall D l → sorted lt l → NoDup l.
Proof.
  intros HD. induction 1 as [|x l _ IH Hx]; constructor.
  - intros Hin. rewrite Forall_forall in Hx. specialize (Hx x Hin).
    rewrite st_irrefl in Hx; [done|]. by inversion HD.
  - apply IH. by inversion HD.
Qed.

Lemma sorted_below x y l :
  D x → Forall D (y :: l) → lt x y = true → sorted lt (y :: l) → x ∉ y :: l.
Proof.
  intros Dx [Dy Dl]%Forall_cons Hxy Hs. inversion_clear Hs as [|? ? _ Hall].
  rewrite Forall_forall in Hall, Dl.
  rewrite not_elem_of_cons. split.
  - intros ->. by rewrite st_irrefl in Hxy.
  - intros Hin. specialize (Hall x Hin). apply lt_asym in Hxy; auto. congruence.
Qed.

Lemma find_spec x l :
  D x → Forall D l → sorted lt l →
  (x ∈ l → find lt x l = Some x) ∧ (x ∉ l → find lt x l = None).
Proof.
  intros Dx Dl. induction Dl as [|y l Dy Dl IH]; simpl; intros Hs; [set_solver|].
  destruct (lt x y) eqn:E1.
  { split; [intros Hin|done]. exfalso. revert Hin. apply sorted_below; auto. }
  inversion_clear Hs as [|? ? Hl _]. destruct (IH Hl) as [IH1 IH2].
  destruct (lt y x) eqn:E2.
  - assert (x ≠ y) by (intros ->; by rewrite st_irrefl in E2).
    rewrite elem_of_cons. split; intros; [apply IH1|apply IH2]; tauto.
  - pose proof (st_total _ _ Dx Dy E1 E2) as ->. set_solver.
Qed.

Lemma insert_elem_of x l y :
  D x → Forall D l → y ∈ (insert lt x l).1 ↔ y = x ∨ y ∈ l.
Proof.
  intros Dx Dl. induction Dl as [|z l Dz Dl IH]; simpl; [set_solver|].
  destruct (lt x z) eqn:E1; [set_solver|].
  destruct (lt z x) eqn:E2; [destruct (insert lt x l); simpl in *; set_solver|].
  pose proof (st_total _ _ Dx Dz E1 E2) as ->. set_solver.
Qed.

Lemma insert_dom x l : D x → Forall D l → Forall D (insert lt x l).1.
Proof.
  intros Dx Dl. apply Forall_forall. intros y. rewrite insert_elem_of by done.
  rewrite Forall_forall in Dl. intros [->|?]; auto.
Qed.

Lemma insert_sorted x l : D x → Forall D l → sorted lt l → sorted lt (insert lt x l).1.
Proof.
  intros Dx Dl. induction Dl as [|z l Dz Dl IH]; simpl; intros Hs; [repeat constructor|].
  destruct (lt x z) eqn:E1.
  - constructor; [done|]. inversion_clear Hs as [|? ? _ Hall].
    constructor; [done|]. rewrite Forall_forall in *. intros y Hy.
    apply (st_trans x z y); auto.
  - pose proof Hs as Hs'. inversion_clear Hs as [|? ? Hl Hall].
    destruct (lt z x) eqn:E2; [|done].
    pose proof (λ y, insert_elem_of x l y Dx Dl) as Hin. specialize (IH Hl).
    destruct (insert lt x l) as [l' b]; simpl in *. constructor; [done|].
    rewrite Forall_forall in *. intros y Hy. apply Hin in Hy as [->|Hy]; auto.
Qed.

(** The flag says whether the set changed. *)
Lemma insert_flag x l :
  D x → Forall D l → sorted lt l →
  if (insert lt x l).2 then x ∉ l else (insert lt x l).1 = l ∧ x ∈ l.
Proof.
  intros Dx Dl. induction Dl as [|z l Dz Dl IH]; simpl; intros Hs; [set_solver|].
  destruct (lt x z) eqn:E1; [apply sorted_below; auto|].
  inversion_clear Hs as [|? ? Hl _]. specialize (IH Hl).
  destruct (lt z x) eqn:E2.
  - assert (x ≠ z) by (intros ->; by rewrite st_irrefl in E2).
    destruct (insert lt x l) as [l' []]; simpl in *; [set_solver|].
    destruct IH as [-> ?]. set_solver.
  - pose proof (st_total _ _ Dx Dz E1 E2) as ->. set_solver.
Qed.

Lemma erase_filter `{EqDecision T} x l :
  D x → Forall D l → sorted lt l → erase lt x l = filter (λ y, y ≠ x) l.
Proof.
  assert (∀ k : list T, x ∉ k → filter (λ y, y ≠ x) k = k) as Hf.
  { induction k as [|a k IH]; [done|]. intros [? ?]%not_elem_of_cons.
    rewrite filter_cons_True by done. f_equal. auto. }
  intros Dx Dl. induction Dl as [|z l Dz Dl IH]; intros Hs; [done|]. cbn [erase].
  destruct (lt x z) eqn:E1; [by rewrite Hf by (apply sorted_below; auto)|].
  pose proof (sorted_NoDup (z :: l) ltac:(auto) Hs) as [Hz _]%NoDup_cons.
  inversion_clear Hs as [|? ? Hl _]. destruct (lt z x) eqn:E2.
  - rewrite filter_cons_True by (intros ->; by rewrite st_irrefl in E2).
    f_equal. auto.
  - pose proof (st_total _ _ Dx Dz E1 E2) as ->.
    by rewrite filter_cons_False, Hf by tauto.
Qed.

Lemma filter_sorted (P : T → Prop) `{∀ x, Decision (P x)} l :
  sorted lt l → sorted lt (filter P l).
Proof.
  induction 1 as [|x l _ IH Hx]; [constructor|].
  destruct (decide (P x)); [rewrite filter_cons_True by done|by rewrite filter_cons_False].
  constructor; [done|]. rewrite Forall_forall in *.
  intros y [_ Hy]%list_elem_of_filter. auto.
Qed.

Lemma filter_dom (P : T → Prop) `{∀ x, Decision (P x)} l :
  Forall D l → Forall D (filter P l).
Proof. rewrite !Forall_forall. intros HD y [_ Hy]%list_elem_of_filter. auto. Qed.
End stdset_lemmas.
End StdSet.

(** * AccessOrderedSortedSet: a [std::set] with the cursor *)
Module AccessOrderedSortedSet.
Section sorted.
Context {T : Type} `{Countable T} (lt : T → T → bool).

Abbreviation t := (AccessOrderedSetBase.t T).

Definition make : t := AccessOrderedSetBase.mk [] None.

(** [insertImpl]: an insertion resets the cursor. *)
Definition insert (s : t) (x : T) : t :=
  let '(l, inserted) := StdSet.insert lt x (AccessOrderedSetBase.elementContainer s) in
  let s' := AccessOrderedSetBase.mk l (AccessOrderedSetBase.currIter s) in
  if inserted then AccessOrderedSetBase.setCurrIterToBegin s' else s'.

(** [erase], with [find] and [eraseImpl]. *)
Definition erase (s : t) (x : T) : t :=
  match StdSet.find lt x (AccessOrderedSetBase.elementContainer s) with
  | None => s
  | Some y =>
      let s' := AccessOrderedSetBase.updateCurrIterBeforeErase s y in
      AccessOrderedSetBase.mk
        (AccessOrderedSetBase.container_erase y (AccessOrderedSetBase.elementContainer s'))
        (AccessOrderedSetBase.currIter s')
  end.

Definition contains (s : t) (x : T) : bool :=
  match StdSet.find lt x (AccessOrderedSetBase.elementContainer s) with
  | Some _ => true | None => false end.

Definition to_set (s : t) : gset T :=
  list_to_set (AccessOrderedSetBase.elementContainer s).

Context {D : T → Prop} `{!StdSet.StrictTotal D lt}.

Record inv (s : t) : Prop := {
  inv_base : AccessOrderedSetBase.inv s;
  inv_dom : Forall D (AccessOrderedSetBase.elementContainer s);
  inv_sorted : StdSet.sorted lt (AccessOrderedSetBase.elementContainer s)
}.

Lemma sorted_make_inv : inv make.
Proof. split; [split|..]; constructor. Qed.

Lemma sorted_insert_inv s x : D x → inv s → inv (insert s x).
Proof.
  intros Dx [Hb Hd Hs]. unfold insert.
  pose proof (StdSet.insert_sorted x _ Dx Hd Hs) as Hs'.
  pose proof (StdSet.insert_dom x _ Dx Hd) as Hd'.
  pose proof (StdSet.insert_flag x _ Dx Hd Hs) as Hf.
  destruct (StdSet.insert lt x _) as [l []]; simpl in *.
  - split; [|done|done]. apply (AccessOrderedSetBase.inv_setCurrIterToBegin l None).
    by eapply StdSet.sorted_NoDup.
  - destruct Hf as [-> _]. split; [|done|done]. by destruct s.
Qed.

Lemma sorted_insert_to_set s x : D x → inv s → to_set (insert s x) = {[x]} ∪ to_set s.
Proof.
  intros Dx [_ Hd Hs]. apply set_eq. intros y. unfold insert, to_set.
  pose proof (StdSet.insert_elem_of x _ y Dx Hd) as Hy.
  destruct (StdSet.insert lt x _) as [l []]; simpl in *; set_solver.
Qed.

Lemma sorted_contains_spec s x : D x → inv s → contains s x = bool_decide (x ∈ to_set s).
Proof.
  intros Dx [_ Hd Hs]. destruct (StdSet.find_spec x _ Dx Hd Hs) as [H1 H2].
  unfold contains, to_set. case_bool_decide as Hx; rewrite elem_of_list_to_set in Hx.
  - by rewrite H1.
  - by rewrite H2.
Qed.

Lemma erase_inv_to_set s x :
  D x → inv s → inv (erase s x) ∧ to_set (erase s x) = to_set s ∖ {[x]}.
Proof.
  intros Dx [Hb Hd Hs]. destruct (StdSet.find_spec x _ Dx Hd Hs) as [H1 H2].
  unfold erase, to_set.
  destruct (decide (x ∈ AccessOrderedSetBase.elementContainer s)) as [Hx|Hx].
  - rewrite H1 by done. rewrite AccessOrderedSetBase.updateCurrIterBeforeErase_elements.
    split; [split|]; simpl.
    + by apply AccessOrderedSetBase.inv_erase.
    + by apply StdSet.filter_dom.
    + by apply StdSet.filter_sorted.
    + unfold AccessOrderedSetBase.container_erase. apply set_eq. intros y.
      rewrite elem_of_list_to_set, list_elem_of_filter. set_solver.
  - rewrite H2 by done. split; [done|set_solver].
Qed.
End sorted.
End AccessOrderedSortedSet.

(** * Properties *)

(** Abandoning a loop after [n1] elements and starting another visits the next
    elements of the same cyclic order. *)
Lemma access_order_resumes {T} `{EqDecision T} (s : AccessOrderedSetBase.t T) n1 n2 :
  AccessOrderedSetBase.inv s →
  (n1 + n2 ≤ AccessOrderedSetBase.size s)%nat →
  let '(visited1, s1) := AccessOrderedSetBase.iterate s n1 in
  let '(visited2, s2) := AccessOrderedSetBase.iterate s1 n2 in
  visited1 ++ visited2 = take (n1 + n2) (AccessOrderedSetBase.rotation s) ∧
  AccessOrderedSetBase.rotation s ≡ₚ AccessOrderedSetBase.elementContainer s ∧
  AccessOrderedSetBase.inv s2.
Proof.
  intros Hi Hn. pose proof (AccessOrderedSetBase.rotation_length s Hi) as HL.
  pose proof (AccessOrderedSetBase.iterate_spec s n1 Hi ltac:(lia)) as H1.
  destruct (AccessOrderedSetBase.iterate s n1) as [v1 s1].
  destruct H1 as (-> & Hi1 & He1 & HR1).
  assert (AccessOrderedSetBase.size s1 = AccessOrderedSetBase.size s) as Hs1
    by (unfold AccessOrderedSetBase.size; by rewrite He1).
  pose proof (AccessOrderedSetBase.iterate_spec s1 n2 Hi1 ltac:(lia)) as H2.
  destruct (AccessOrderedSetBase.iterate s1 n2) as [v2 s2].
  destruct H2 as (-> & Hi2 & _ & _). split_and!; [|by apply AccessOrderedSetBase.rotation_perm|done].
  rewrite HR1, take_app_le by (rewrite length_drop; lia).
  by rewrite take_take_drop.
Qed.
