(* ===== verification/Queues.v ===== *)
(** * Priority queues and value-sorted maps

    [BucketedPriorityQueue] and [ValueSortedMap] of algopt_common, and the
    [PriorityInfo] of solver/utils by which the orchestrator orders the nodes of
    the expression graph. *)

From stdpp Require Import sorting.
From S2P Require Import Prelude AccessOrderedSet.

Open Scope Z_scope.

(** ** PriorityInfo *)
Record PriorityInfo := mkPriority { rootIdx : Z; height : Z }.

#[export] Instance PriorityInfo_eq_dec : EqDecision PriorityInfo.
Proof. solve_decision. Defined.

Module Priority.

(** [operator>]: an earlier root first, then the lower node. *)
Definition gt (p q : PriorityInfo) : bool :=
  if rootIdx p =? rootIdx q then height p <? height q else rootIdx p <? rootIdx q.

(** [operator<] *)
Definition lt (p q : PriorityInfo) : bool := gt q p.

#[export] Instance gt_strict_total : StdSet.StrictTotal (λ _ : PriorityInfo, True) gt.
Proof.
  unfold gt. split.
  - intros p _. rewrite Z.eqb_refl. apply Z.ltb_irrefl.
  - intros p q r _ _ _. repeat case_match; bool_to_prop; intros; bool_to_prop;
      first [apply Z.ltb_lt; lia | lia].
  - intros [r1 h1] [r2 h2] _ _. simpl.
    repeat case_match; bool_to_prop; intros; bool_to_prop; f_equal; lia.
Qed.

Lemma gt_trans p q r : gt p q = true → gt q r = true → gt p r = true.
Proof. by apply (StdSet.st_trans (D := λ _, True)). Qed.

(** Not being of lower priority is transitive as well. *)
Lemma ge_trans p q r : gt q p = false → gt r q = false → gt r p = false.
Proof.
  intros H1 H2. destruct (gt r p) eqn:E; [|done].
  destruct (gt p q) eqn:E2; [by rewrite (gt_trans r p q) in H2|].
  assert (p = q) as -> by (by apply (StdSet.st_total (D := λ _, True))). congruence.
Qed.

Lemma gt_ge p q r : gt p q = true → gt r q = false → gt p r = true.
Proof.
  intros H1 H2. destruct (gt p r) eqn:E; [done|].
  assert (gt p q = false) by (by apply (ge_trans q r p)). congruence.
Qed.

End Priority.

(** ** BucketedPriorityQueue

    [std::map<PriorityType, std::deque<ElementType>, std::greater>]: the buckets from
    the highest priority to the lowest. *)
Module BucketedPriorityQueue.
Section queue.
Context {P E : Type} (greater : P → P → bool).

Abbreviation t := (list (P * list E)).

(** [priorityBucketToElements_\[priorityBucket\].emplace_back(...)] *)
Fixpoint emplace (q : t) (p : P) (x : E) : t :=
  match q with
  | [] => [(p, [x])]
  | (p', l) :: q' =>
      if greater p p' then (p, [x]) :: q
      else if greater p' p then (p', l) :: emplace q' p x
      else (p', l ++ [x]) :: q'
  end.

Definition empty (q : t) : bool := match q with [] => true | _ => false end.

Definition clear : t := [].

(** [front()] of an empty deque is undefined; no bucket is ever empty. *)
Definition top (q : t) : result E :=
  match q with
  | [] => Throw (runtime_error "cannot call top()/pop() when queue is empty")
  | (_, x :: _) :: _ => Ok x
  | (_, []) :: _ => Throw (undefined_behaviour "front of an empty deque")
  end.

Definition pop (q : t) : result t :=
  match q with
  | [] => Throw (runtime_error "cannot call top()/pop() when queue is empty")
  | (p, l) :: q' =>
      match l with
      | [] => Throw (undefined_behaviour "pop_front of an empty deque")
      | [_] => Ok q'
      | _ :: l' => Ok ((p, l') :: q')
      end
  end.

(** The specification: one list, in the order in which elements leave the queue. *)
Definition flatten (q : t) : list (P * E) := q ≫= λ '(p, l), (p,.) <$> l.

(** A new element goes behind those of higher or equal priority. *)
Fixpoint enqueue (l : list (P * E)) (p : P) (x : E) : list (P * E) :=
  match l with
  | [] => [(p, x)]
  | (p', y) :: l' => if greater p p' then (p, x) :: l else (p', y) :: enqueue l' p x
  end.

Record inv (q : t) : Prop := {
  inv_sorted : StdSet.sorted greater q.*1;
  inv_buckets : Forall (λ b, b.2 ≠ []) q
}.

Context `{!StdSet.StrictTotal (λ _ : P, True) greater}.

Lemma emplace_keys q p x p' : p' ∈ (emplace q p x).*1 → p' = p ∨ p' ∈ q.*1.
Proof.
  induction q as [|[p1 l] q IH]; simpl; [set_solver|].
  repeat case_match; simpl; set_solver.
Qed.

Lemma emplace_inv q p x : inv q → inv (emplace q p x).
Proof.
  intros [Hs Hb]. induction q as [|[p1 l] q IH]; simpl in *.
  { split; repeat constructor; done. }
  apply Forall_cons in Hb as [Hl Hb]. inversion_clear Hs as [|? ? Hs' Hall].
  destruct (IH Hs' Hb) as [Hs2 Hb2].
  destruct (greater p p1) eqn:E1; [|destruct (greater p1 p) eqn:E2].
  - split; simpl; [|by repeat constructor].
    constructor; [by constructor|]. constructor; [done|].
    eapply Forall_impl; [exact Hall|]. intros p2 H2. by apply (StdSet.st_trans p p1 p2).
  - split; simpl; [|by constructor]. constructor; [done|].
    rewrite Forall_forall in *. intros p2 [->|H2]%emplace_keys; auto.
  - split; simpl; [by constructor|]. constructor; [simpl; by destruct l|done].
Qed.

Lemma pop_inv q : inv q → empty q = false →
  ∃ p x q', top q = Ok x ∧ pop q = Ok q' ∧ inv q' ∧ flatten q = (p, x) :: flatten q'.
Proof.
  intros [Hs Hb] Hne. destruct q as [|[p [|x l]] q]; [done|..].
  { apply Forall_cons in Hb as [? _]. done. }
  apply Forall_cons in Hb as [_ Hb]. inversion_clear Hs as [|? ? Hs' Hall].
  destruct l as [|y l]; simpl.
  - by exists p, x, q.
  - exists p, x, ((p, y :: l) :: q). split; [done|]. split; [done|]. split; [|done].
    split; simpl; constructor; auto.
Qed.

Lemma enqueue_bucket p1 l rest p x :
  greater p p1 = false →
  enqueue (((p1,.) <$> l) ++ rest) p x = ((p1,.) <$> l) ++ enqueue rest p x.
Proof. intros Hg. induction l as [|y l IH]; [done|]. rewrite fmap_cons. cbn [app enqueue]. by rewrite Hg, IH. Qed.

Lemma enqueue_low (l : list (P * E)) p x :
  Forall (λ b, greater p b.1 = true) l → enqueue l p x = (p, x) :: l.
Proof. destruct 1 as [|[p1 y] l H1 _]; simpl in *; [done|]. by rewrite H1. Qed.

Lemma flatten_cons p l (q : t) : flatten ((p, l) :: q) = ((p,.) <$> l) ++ flatten q.
Proof. done. Qed.

Lemma flatten_keys q (Q : P → Prop) : Forall Q q.*1 → Forall (λ b, Q b.1) (flatten q).
Proof.
  induction q as [|[p l] q IH]; [constructor|]. intros [Hp Hq]%Forall_cons.
  rewrite flatten_cons. apply Forall_app. split; [|by apply IH]. apply Forall_fmap, Forall_true. by intros.
Qed.

(** Every operation does to the list what the specification says. *)
Lemma flatten_emplace q p x : inv q → flatten (emplace q p x) = enqueue (flatten q) p x.
Proof.
  intros [Hs Hb]. induction q as [|[p1 l] q IH]; [done|]. cbn [emplace].
  simpl in Hs. apply Forall_cons in Hb as [Hl Hb]. inversion_clear Hs as [|? ? Hs' Hall].
  destruct (greater p p1) eqn:E1; [|destruct (greater p1 p) eqn:E2].
  - symmetry. apply enqueue_low. apply (flatten_keys _ (λ p', greater p p' = true)).
    rewrite fmap_cons. constructor; [done|].
    eapply Forall_impl; [exact Hall|]. intros p2 H2. by apply (StdSet.st_trans p p1 p2).
  - rewrite !flatten_cons, enqueue_bucket by done. by rewrite <- IH.
  - assert (p = p1) as -> by (by apply (StdSet.st_total (D := λ _, True))).
    rewrite !flatten_cons, enqueue_bucket by done. rewrite fmap_app, <- (assoc_L (++)).
    f_equal. symmetry. apply (enqueue_low (flatten q)).
    by apply (flatten_keys _ (λ p', greater p1 p' = true)).
Qed.

Lemma enqueue_perm (l : list (P * E)) p x : enqueue l p x ≡ₚ (p, x) :: l.
Proof.
  induction l as [|[p1 y] l IH]; simpl; [done|]. case_match; [done|].
  rewrite IH. constructor.
Qed.

Lemma empty_flatten q : inv q → empty q = true ↔ flatten q = [].
Proof.
  intros [_ Hb]. destruct q as [|[p [|x l]] q]; simpl; [done| |done].
  by apply Forall_cons in Hb as [? _].
Qed.

(** The element at the top has a highest priority. *)
Lemma flatten_sorted q : inv q →
  ∀ p x l, flatten q = (p, x) :: l → ∀ p' x', (p', x') ∈ l → greater p' p = false.
Proof.
  intros [Hs Hb] p x l Hq p' x' Hin. destruct q as [|[p1 l1] q]; [done|].
  apply Forall_cons in Hb as [Hl _]. destruct l1 as [|y l1]; [done|].
  cbn in Hq. injection Hq as <- <- <-. inversion_clear Hs as [|? ? _ Hall].
  apply elem_of_app in Hin as [(z & [= -> ->] & _)%list_elem_of_fmap|Hin].
  { by apply (StdSet.st_irrefl (D := λ _, True)). }
  pose proof (flatten_keys q (λ p', greater p1 p' = true) Hall) as Hk. rewrite Forall_forall in Hk.
  specialize (Hk _ Hin). simpl in Hk. by apply (StdSet.lt_asym (D := λ _, True)).
Qed.

End queue.
End BucketedPriorityQueue.

(** ** ValueSortedMap

    A hash map together with a [std::set] of its entries ordered by a comparator. *)
Module ValueSortedMap.
Section vsm.
Context `{Countable K} {V : Type} (compare : K * V → K * V → bool).

Record t := mk { map : gmap K V; set : list (K * V) }.

Definition empty : t := mk ∅ [].

Definition contains (s : t) (key : K) : bool := bool_decide (is_Some (map s !! key)).

Definition at_key (s : t) (key : K) : result V := at_ (map s !! key).

Definition begin (s : t) : option (K * V) := head (set s).

Definition size (s : t) : nat := base.size (map s).

Definition clear (s : t) : t := empty.

Definition erase (s : t) (key : K) : t :=
  match map s !! key with
  | Some v => mk (delete key (map s)) (StdSet.erase compare (key, v) (set s))
  | None => s
  end.

(** [set.extract] of the entry: the node handle is empty when there is no such entry. *)
Definition assign (s : t) (key : K) (value : V) : result t :=
  match map s !! key with
  | Some old =>
      match StdSet.find compare (key, old) (set s) with
      | Some _ =>
          Ok (mk (<[key := value]> (map s))
                 (StdSet.insert compare (key, value) (StdSet.erase compare (key, old) (set s))).1)
      | None => Throw (undefined_behaviour "value of an empty node handle")
      end
  | None => Ok (mk (<[key := value]> (map s)) (StdSet.insert compare (key, value) (set s)).1)
  end.

Context {D : K * V → Prop} `{!StdSet.StrictTotal D compare} `{!EqDecision V}.

Record inv (s : t) : Prop := {
  inv_dom : Forall D (set s);
  inv_set_sorted : StdSet.sorted compare (set s);
  inv_entries : ∀ k v, (k, v) ∈ set s ↔ map s !! k = Some v
}.

Lemma empty_inv : inv empty.
Proof. split; simpl; [constructor|constructor|]. intros k v. rewrite lookup_empty. set_solver. Qed.

Lemma erase_entries s key v :
  inv s → map s !! key = Some v →
  Forall D (StdSet.erase compare (key, v) (set s)) ∧
  StdSet.sorted compare (StdSet.erase compare (key, v) (set s)) ∧
  ∀ k w, (k, w) ∈ StdSet.erase compare (key, v) (set s) ↔ k ≠ key ∧ map s !! k = Some w.
Proof.
  intros [Hd Hs He] Hv. assert (D (key, v)) as Hkv.
  { rewrite Forall_forall in Hd. by apply Hd, He. }
  rewrite StdSet.erase_filter by done. split; [by apply StdSet.filter_dom|].
  split; [by apply StdSet.filter_sorted|]. intros k w.
  rewrite list_elem_of_filter, He. split; [|naive_solver].
  intros [Hne Hw]. split; [|done]. intros ->. congruence.
Qed.

Lemma vsm_erase_inv s key : inv s → inv (erase s key) ∧ map (erase s key) = delete key (map s).
Proof.
  intros Hi. unfold erase. destruct (map s !! key) as [v|] eqn:Hv.
  - destruct (erase_entries s key v Hi Hv) as (H1 & H2 & H3). split; [|done].
    split; simpl; [done..|]. intros k w. rewrite H3, lookup_delete_Some. naive_solver.
  - split; [done|]. by rewrite delete_id.
Qed.

Lemma assign_inv s key value :
  D (key, value) → inv s →
  ∃ s', assign s key value = Ok s' ∧ inv s' ∧ map s' = <[key := value]> (map s).
Proof.
  intros Hd Hi. unfold assign. destruct (map s !! key) as [old|] eqn:Hv.
  - destruct (erase_entries s key old Hi Hv) as (H1 & H2 & H3).
    assert (StdSet.find compare (key, old) (set s) = Some (key, old)) as ->.
    { destruct Hi as [Hi1 Hi2 Hi3]. apply Hi3 in Hv. apply StdSet.find_spec; [|done..].
      rewrite Forall_forall in Hi1. by apply Hi1. }
    eexists. split; [done|]. split; [|done]. split; simpl.
    + by apply StdSet.insert_dom.
    + by apply StdSet.insert_sorted.
    + intros k w. rewrite StdSet.insert_elem_of, H3, lookup_insert_Some by done. naive_solver.
  - eexists. split; [done|]. split; [|done]. destruct Hi as [Hi1 Hi2 Hi3]. split; simpl.
    + by apply StdSet.insert_dom.
    + by apply StdSet.insert_sorted.
    + intros k w. rewrite StdSet.insert_elem_of, Hi3, lookup_insert_Some by done.
      split; [intros [[= -> ->]|Hw]|]; [naive_solver| |naive_solver].
      right. split; [|done]. intros ->. congruence.
Qed.

(** Two sorted lists with the same elements are equal. *)
Lemma sorted_unique (l1 l2 : list (K * V)) :
  Forall D l1 → Forall D l2 → StdSet.sorted compare l1 → StdSet.sorted compare l2 →
  (∀ x, x ∈ l1 ↔ x ∈ l2) → l1 = l2.
Proof.
  intros D1 D2 S1 S2 H12.
  apply (StronglySorted_unique_strong (λ x y, compare x y = true)); [|done..|].
  - intros x y Hx Hy Hxy Hyx. exfalso. rewrite Forall_forall in D1.
    assert (D y) by (apply D1; by apply H12).
    apply (StdSet.lt_asym (D := D)) in Hxy; auto. congruence.
  - apply NoDup_Permutation; [by apply (StdSet.sorted_NoDup (D := D) (lt := compare))..|done].
Qed.

(** The representation is determined by the map. *)
Lemma representation_unique s1 s2 : inv s1 → inv s2 → map s1 = map s2 → s1 = s2.
Proof.
  intros [D1 S1 E1] [D2 S2 E2] Hm. destruct s1 as [m1 l1], s2 as [m2 l2]. simpl in *.
  subst m2. f_equal. apply sorted_unique; [done..|]. intros [k v]. by rewrite E1, E2.
Qed.

(** The first entry precedes every other one. *)
Lemma begin_spec s : inv s →
  match begin s with
  | Some (k, v) => map s !! k = Some v ∧
      ∀ k' v', map s !! k' = Some v' → (k', v') = (k, v) ∨ compare (k, v) (k', v') = true
  | None => map s = ∅
  end.
Proof.
  intros [Hd Hs He]. unfold begin. destruct (set s) as [|[k v] l] eqn:E; simpl.
  - apply map_eq. intros k. rewrite lookup_empty. destruct (map s !! k) as [v|] eqn:Hk; [|done].
    apply He in Hk. set_solver.
  - split; [apply He; set_solver|]. intros k' v' Hk'. apply He in Hk'.
    apply elem_of_cons in Hk' as [?|Hin]; [by left|]. right.
    inversion_clear Hs as [|? ? _ Hall]. rewrite Forall_forall in Hall. by apply Hall.
Qed.

End vsm.
Arguments t K {_ _} V.
Arguments inv {K _ _ V} compare D s.
End ValueSortedMap.
