(* ===== verification/ObjectStore.v ===== *)
(** * Object stores

    [ObjectScores] and [ObjectStore] of solver/utils/ObjectStore.cpp: the
    objects of one container, kept in one of four containers, and the MurmurHash
    finalizer that breaks ties between objects of equal score. *)

From Stdlib Require Import Sorted.
From S2P Require Import Prelude Double AccessOrderedSet.

(** Identifiers are integers. *)
Abbreviation ObjectId := Z (only parsing).
Abbreviation ContainerId := Z (only parsing).

(** ** MurmurRehash64A: all arithmetic is modulo 2^64 *)
Module Murmur.

Definition kMurmur2Seed : Z := 4193360111.
Definition m : Z := 0xc6a4a7935bd1e995.
Definition r : Z := 47.

(** [key ^= key >> r] *)
Definition xorshift (x : Z) : Z := Z.lxor x (Z.shiftr x r).

(** [key *= m] *)
Definition mulm (x : Z) : Z := u64 (x * m).

Definition MurmurRehash64A (key : Z) : Z :=
  let h := Z.lxor kMurmur2Seed (u64 (8 * m)) in
  let key := mulm key in
  let key := xorshift key in
  let key := mulm key in
  let h := Z.lxor h key in
  let h := mulm h in
  let h := xorshift h in
  let h := mulm h in
  let h := xorshift h in
  h.

(** The inverse of [m] modulo 2^64. *)
Definition m_inv : Z := 0x5f7a0ea7e59b19bd.

Lemma m_inv_correct : u64 (m * m_inv) = 1.
Proof. reflexivity. Qed.

Lemma mulm_range x : is_u64 (mulm x).
Proof. apply u64_range. Qed.

Lemma mulm_inj x y : is_u64 x → is_u64 y → mulm x = mulm y → x = y.
Proof.
  intros Hx Hy H. rewrite <- (u64_small x), <- (u64_small y) by done.
  assert (∀ z, u64 z = u64 (mulm z * m_inv)) as E.
  { intros z. unfold mulm, u64.
    rewrite Z.mul_mod_idemp_l by done. rewrite <- Z.mul_assoc.
    rewrite <- Z.mul_mod_idemp_r by done.
    change (m * m_inv mod u64_mod) with 1. by rewrite Z.mul_1_r. }
  by rewrite (E x), (E y), H.
Qed.

Lemma is_u64_bits x : is_u64 x ↔ 0 ≤ x ∧ ∀ i, 64 ≤ i → Z.testbit x i = false.
Proof.
  unfold is_u64, u64_mod. split.
  - intros [? ?]. split; [done|]. intros i Hi.
    destruct (Z.eq_dec x 0) as [->|]; [apply Z.bits_0|].
    apply Z.bits_above_log2; [done|]. assert (Z.log2 x < 64); [|lia].
    by apply Z.log2_lt_pow2; [lia|].
  - intros [? Hb]. split; [done|]. destruct (Z.eq_dec x 0) as [->|]; [done|].
    apply Z.log2_lt_pow2; [lia|]. destruct (Z.lt_ge_cases (Z.log2 x) 64); [done|].
    specialize (Hb (Z.log2 x) ltac:(done)). rewrite Z.bit_log2 in Hb by lia. done.
Qed.

Lemma lxor_range x y : is_u64 x → is_u64 y → is_u64 (Z.lxor x y).
Proof.
  rewrite !is_u64_bits. intros [Hx Hbx] [Hy Hby]. split.
  - apply Z.lxor_nonneg; lia.
  - intros i Hi. by rewrite Z.lxor_spec, Hbx, Hby.
Qed.

Lemma shiftr_range x : is_u64 x → is_u64 (Z.shiftr x r).
Proof.
  rewrite !is_u64_bits. intros [Hx Hbx]. split; [by apply Z.shiftr_nonneg|].
  intros i Hi. rewrite Z.shiftr_spec by lia. apply Hbx. unfold r; lia.
Qed.

Lemma xorshift_range x : is_u64 x → is_u64 (xorshift x).
Proof. intros. apply lxor_range; [done|by apply shiftr_range]. Qed.

(** Two shifts by 47 leave nothing of 64 bits, so the step undoes itself. *)
Lemma xorshift_involutive x : is_u64 x → xorshift (xorshift x) = x.
Proof.
  intros [Hx Hb]%is_u64_bits. unfold xorshift.
  apply Z.bits_inj'. intros i Hi.
  rewrite !Z.lxor_spec, !Z.shiftr_spec, Z.lxor_spec, Z.shiftr_spec by (unfold r; lia).
  rewrite (Hb (i + r + r)) by (unfold r; lia).
  destruct (Z.testbit x i), (Z.testbit x (i + r)); done.
Qed.

Lemma xorshift_inj x y : is_u64 x → is_u64 y → xorshift x = xorshift y → x = y.
Proof.
  intros Hx Hy E. by rewrite <- (xorshift_involutive x), <- (xorshift_involutive y), E.
Qed.

Lemma lxor_inj a x y : Z.lxor a x = Z.lxor a y → x = y.
Proof.
  intros E. rewrite <- (Z.lxor_0_l x), <- (Z.lxor_0_l y), <- (Z.lxor_nilpotent a).
  by rewrite !Z.lxor_assoc, E.
Qed.

Lemma seed_range : is_u64 (Z.lxor kMurmur2Seed (u64 (8 * m))).
Proof. split; vm_compute; congruence. Qed.

#[export] Hint Resolve mulm_range lxor_range xorshift_range seed_range : rebalancer.

Lemma Rehash_range x : is_u64 (MurmurRehash64A x).
Proof. unfold MurmurRehash64A. eauto 10 with rebalancer. Qed.

Lemma Rehash_inj x y :
  is_u64 x → is_u64 y → MurmurRehash64A x = MurmurRehash64A y → x = y.
Proof.
  intros Hx Hy E. unfold MurmurRehash64A in E.
  apply xorshift_inj, mulm_inj, xorshift_inj, mulm_inj, lxor_inj, mulm_inj,
    xorshift_inj, mulm_inj in E; eauto 10 with rebalancer.
Qed.
End Murmur.

(** ** ObjectScores

    The comparator orders objects by decreasing score and breaks ties with the
    rehashed identifier.  [entities::ObjectValues] is the function from objects
    to their values. *)
Record ObjectScores := mkScores { getObjectValue : Z → double }.

Definition ObjectScores_lt (s : ObjectScores) (lhs rhs : Z) : bool :=
  let lhsValue := getObjectValue s lhs in
  let rhsValue := getObjectValue s rhs in
  if (lhsValue =? rhsValue)%D
  then Murmur.MurmurRehash64A lhs <? Murmur.MurmurRehash64A rhs
  else (rhsValue <? lhsValue)%D.

(** An [EntityId] is a [uint32_t]. *)
Definition is_u32 (x : Z) : Prop := 0 ≤ x < 2 ^ 32.

(** The objects of a problem: 32-bit identifiers with a finite score. *)
Definition scored (s : ObjectScores) (x : Z) : Prop :=
  is_u32 x ∧ fin (getObjectValue s x).

Lemma u32_u64 x : is_u32 x → is_u64 x.
Proof. unfold is_u32, is_u64, u64_mod. lia. Qed.

Lemma ObjectScores_lt_val s x y :
  scored s x → scored s y →
  ObjectScores_lt s x y = true ↔
  val (getObjectValue s y) < val (getObjectValue s x) ∨
  val (getObjectValue s x) = val (getObjectValue s y) ∧
  Murmur.MurmurRehash64A x < Murmur.MurmurRehash64A y.
Proof.
  intros [_ Hx] [_ Hy]. unfold ObjectScores_lt. rewrite deq_val, dlt_val by done.
  destruct (Z.eqb_spec (val (getObjectValue s x)) (val (getObjectValue s y)));
    rewrite Z.ltb_lt; lia.
Qed.

#[export] Instance ObjectScores_strict_total s :
  StdSet.StrictTotal (scored s) (ObjectScores_lt s).
Proof.
  split.
  - intros x Hx. apply not_true_is_false. rewrite ObjectScores_lt_val by done. lia.
  - intros x y z Hx Hy Hz. rewrite !ObjectScores_lt_val by done. lia.
  - intros x y Hx Hy. rewrite <- !not_true_iff_false, !ObjectScores_lt_val by done.
    intros. apply Murmur.Rehash_inj; [apply u32_u64, Hx|apply u32_u64, Hy|lia].
Qed.

(** ** What [std::visit] needs of each alternative of the variant *)
Class ObjectContainer (S : Type) := {
  oc_insert : S → Z → S;
  oc_erase : S → Z → S;
  oc_contains : S → Z → bool;
  oc_iter : S → list Z;
  oc_inv : S → Prop;
  oc_dom : S → Z → Prop;
  oc_insert_inv s x : oc_inv s → oc_dom s x → oc_inv (oc_insert s x);
  oc_insert_dom s x : oc_dom (oc_insert s x) = oc_dom s;
  oc_insert_iter s x y : oc_inv s → oc_dom s x → y ∈ oc_iter (oc_insert s x) ↔ y = x ∨ y ∈ oc_iter s;
  oc_erase_inv s x : oc_inv s → oc_dom s x → oc_inv (oc_erase s x);
  oc_erase_dom s x : oc_dom (oc_erase s x) = oc_dom s;
  oc_erase_iter s x y : oc_inv s → oc_dom s x → y ∈ oc_iter (oc_erase s x) ↔ y ≠ x ∧ y ∈ oc_iter s;
  oc_contains_iter s x : oc_inv s → oc_dom s x → oc_contains s x = bool_decide (x ∈ oc_iter s);
  oc_iter_nodup s : oc_inv s → NoDup (oc_iter s)
}.

(** [std::set<ObjectId, ObjectScores>] *)
Record SortedObjects := mkSorted { so_scores : ObjectScores; so_elements : list Z }.

#[export] Program Instance SortedObjects_container : ObjectContainer SortedObjects := {
  oc_insert s x := mkSorted (so_scores s)
    (StdSet.insert (ObjectScores_lt (so_scores s)) x (so_elements s)).1;
  oc_erase s x := mkSorted (so_scores s)
    (StdSet.erase (ObjectScores_lt (so_scores s)) x (so_elements s));
  oc_contains s x :=
    match StdSet.find (ObjectScores_lt (so_scores s)) x (so_elements s) with
    | Some _ => true | None => false end;
  oc_iter := so_elements;
  oc_inv s := Forall (scored (so_scores s)) (so_elements s) ∧
              StdSet.sorted (ObjectScores_lt (so_scores s)) (so_elements s);
  oc_dom s := scored (so_scores s)
}.
Next Obligation.
  intros s x [Hd Hs] Hx; split; [by apply StdSet.insert_dom|by apply (StdSet.insert_sorted (D:=scored (so_scores s)))].
Qed.
Next Obligation. done. Qed.
Next Obligation. intros s x y [Hd Hs] Hx. by apply StdSet.insert_elem_of. Qed.
Next Obligation.
  intros s x [Hd Hs] Hx. simpl.
  rewrite (StdSet.erase_filter (D:=scored (so_scores s))) by done.
  split; [by apply StdSet.filter_dom|by apply StdSet.filter_sorted].
Qed.
Next Obligation. done. Qed.
Next Obligation.
  intros s x y [Hd Hs] Hx. simpl.
  rewrite (StdSet.erase_filter (D:=scored (so_scores s))) by done.
  by rewrite list_elem_of_filter.
Qed.
Next Obligation.
  intros s x [Hd Hs] Hx. simpl.
  destruct (StdSet.find_spec (D:=scored (so_scores s)) x _ Hx Hd Hs) as [H1 H2].
  case_bool_decide; [by rewrite H1|by rewrite H2].
Qed.
Next Obligation. intros s [Hd Hs]. by apply (StdSet.sorted_NoDup (D:=scored (so_scores s)) _ Hd Hs). Qed.

(** [PackerSet<ObjectId>], a hash set: the order in which it visits the objects it holds
    is left open, each of them being visited once. *)
Record SetOrder := mkSetOrder {
  visit : gset Z → list Z;
  visit_perm X : visit X ≡ₚ elements X
}.

Record UnorderedObjects := mkUnordered { uo_order : SetOrder; uo_elements : gset Z }.

Lemma visit_elem (w : SetOrder) (X : gset Z) x : x ∈ visit w X ↔ x ∈ X.
Proof. by rewrite visit_perm, elem_of_elements. Qed.

#[export] Program Instance UnorderedObjects_container : ObjectContainer UnorderedObjects := {
  oc_insert s x := mkUnordered (uo_order s) ({[x]} ∪ uo_elements s);
  oc_erase s x := mkUnordered (uo_order s) (uo_elements s ∖ {[x]});
  oc_contains s x := bool_decide (x ∈ uo_elements s);
  oc_iter s := visit (uo_order s) (uo_elements s);
  oc_inv _ := True;
  oc_dom _ _ := True
}.
Next Obligation. done. Qed.
Next Obligation. done. Qed.
Next Obligation. intros. simpl. rewrite !visit_elem. set_solver. Qed.
Next Obligation. done. Qed.
Next Obligation. done. Qed.
Next Obligation. intros. simpl. rewrite !visit_elem. set_solver. Qed.
Next Obligation. intros. apply bool_decide_ext. by rewrite visit_elem. Qed.
Next Obligation. intros. rewrite visit_perm. apply NoDup_elements. Qed.

Lemma rotation_elem_of {T} `{EqDecision T} (s : AccessOrderedSetBase.t T) x :
  AccessOrderedSetBase.inv s →
  x ∈ AccessOrderedSetBase.rotation s ↔ x ∈ AccessOrderedSetBase.elementContainer s.
Proof. intros Hs. by rewrite (AccessOrderedSetBase.rotation_perm s Hs). Qed.

Lemma rotation_NoDup {T} `{EqDecision T} (s : AccessOrderedSetBase.t T) :
  AccessOrderedSetBase.inv s → NoDup (AccessOrderedSetBase.rotation s).
Proof.
  intros Hs. rewrite (AccessOrderedSetBase.rotation_perm s Hs).
  by apply AccessOrderedSetBase.inv_nodup.
Qed.

(** [AccessOrderedFastSet<ObjectId>] *)
#[export] Program Instance DynamicUnorderedObjects_container :
    ObjectContainer (AccessOrderedFastSet.t Z) := {
  oc_insert := AccessOrderedFastSet.insert;
  oc_erase := AccessOrderedFastSet.erase;
  oc_contains := AccessOrderedFastSet.contains;
  oc_iter s := AccessOrderedSetBase.rotation (AccessOrderedFastSet.base s);
  oc_inv := AccessOrderedFastSet.inv;
  oc_dom _ _ := True
}.
Next Obligation. intros. by apply AccessOrderedFastSet.fast_insert_inv. Qed.
Next Obligation. done. Qed.
Next Obligation.
  intros s x y Hs _. pose proof (AccessOrderedFastSet.fast_insert_to_set s x Hs) as E.
  rewrite !rotation_elem_of by (by eapply AccessOrderedFastSet.inv_base, AccessOrderedFastSet.fast_insert_inv || apply Hs).
  unfold AccessOrderedFastSet.to_set, AccessOrderedFastSet.elements in E. set_solver.
Qed.
Next Obligation. intros. by apply AccessOrderedFastSet.erase_inv. Qed.
Next Obligation. done. Qed.
Next Obligation.
  intros s x y Hs _. pose proof (AccessOrderedFastSet.erase_to_set s x Hs) as E.
  rewrite !rotation_elem_of by (by eapply AccessOrderedFastSet.inv_base, AccessOrderedFastSet.erase_inv || apply Hs).
  unfold AccessOrderedFastSet.to_set, AccessOrderedFastSet.elements in E. set_solver.
Qed.
Next Obligation.
  intros s x Hs _. rewrite AccessOrderedFastSet.fast_contains_spec by done.
  apply bool_decide_ext. rewrite rotation_elem_of by apply Hs.
  unfold AccessOrderedFastSet.to_set. by rewrite elem_of_list_to_set.
Qed.
Next Obligation. intros s Hs. apply rotation_NoDup, Hs. Qed.

(** [AccessOrderedSortedSet<ObjectId, ObjectScores>] *)
Record DynamicSortedObjects := mkDynamicSorted {
  ds_scores : ObjectScores;
  ds_set : AccessOrderedSetBase.t Z
}.

#[export] Program Instance DynamicSortedObjects_container :
    ObjectContainer DynamicSortedObjects := {
  oc_insert s x := mkDynamicSorted (ds_scores s)
    (AccessOrderedSortedSet.insert (ObjectScores_lt (ds_scores s)) (ds_set s) x);
  oc_erase s x := mkDynamicSorted (ds_scores s)
    (AccessOrderedSortedSet.erase (ObjectScores_lt (ds_scores s)) (ds_set s) x);
  oc_contains s x :=
    AccessOrderedSortedSet.contains (ObjectScores_lt (ds_scores s)) (ds_set s) x;
  oc_iter s := AccessOrderedSetBase.rotation (ds_set s);
  oc_inv s := AccessOrderedSortedSet.inv (D:=scored (ds_scores s))
                (ObjectScores_lt (ds_scores s)) (ds_set s);
  oc_dom s := scored (ds_scores s)
}.
Next Obligation.
  intros s x Hs Hx. apply (AccessOrderedSortedSet.sorted_insert_inv _ _ _ Hx Hs).
Qed.
Next Obligation. done. Qed.
Next Obligation.
  intros s x y Hs Hx. simpl.
  pose proof (AccessOrderedSortedSet.sorted_insert_to_set _ _ _ Hx Hs) as E.
  pose proof (AccessOrderedSortedSet.sorted_insert_inv _ _ _ Hx Hs) as Hs'.
  rewrite !rotation_elem_of by (apply Hs' || apply Hs).
  unfold AccessOrderedSortedSet.to_set in E. set_solver.
Qed.
Next Obligation.
  intros s x Hs Hx. simpl.
  by destruct (AccessOrderedSortedSet.erase_inv_to_set _ _ _ Hx Hs).
Qed.
Next Obligation. done. Qed.
Next Obligation.
  intros s x y Hs Hx. simpl.
  destruct (AccessOrderedSortedSet.erase_inv_to_set _ _ _ Hx Hs) as [Hs' E].
  rewrite !rotation_elem_of by (apply Hs' || apply Hs).
  unfold AccessOrderedSortedSet.to_set in E. set_solver.
Qed.
Next Obligation.
  intros s x Hs Hx. simpl.
  rewrite (AccessOrderedSortedSet.sorted_contains_spec _ _ _ Hx Hs).
  apply bool_decide_ext. rewrite rotation_elem_of by apply Hs.
  unfold AccessOrderedSortedSet.to_set. by rewrite elem_of_list_to_set.
Qed.
Next Obligation. intros s Hs. apply rotation_NoDup, Hs. Qed.

(** ** ObjectStore: the variant *)
Module ObjectStore.

Inductive t :=
  | Sorted (s : SortedObjects)
  | Unordered (s : UnorderedObjects)
  | DynamicUnordered (s : AccessOrderedFastSet.t Z)
  | DynamicSorted (s : DynamicSortedObjects).

Definition insert (o : t) (x : Z) : t :=
  match o with
  | Sorted s => Sorted (oc_insert s x)
  | Unordered s => Unordered (oc_insert s x)
  | DynamicUnordered s => DynamicUnordered (oc_insert s x)
  | DynamicSorted s => DynamicSorted (oc_insert s x)
  end.

Definition erase (o : t) (x : Z) : t :=
  match o with
  | Sorted s => Sorted (oc_erase s x)
  | Unordered s => Unordered (oc_erase s x)
  | DynamicUnordered s => DynamicUnordered (oc_erase s x)
  | DynamicSorted s => DynamicSorted (oc_erase s x)
  end.

(** The elements in the order [begin()] to [end()] visits them. *)
Definition iter (o : t) : list Z :=
  match o with
  | Sorted s => oc_iter s
  | Unordered s => oc_iter s
  | DynamicUnordered s => oc_iter s
  | DynamicSorted s => oc_iter s
  end.

Definition contains (o : t) (x : Z) : bool :=
  match o with
  | Sorted s => oc_contains s x
  | Unordered s => oc_contains s x
  | DynamicUnordered s => oc_contains s x
  | DynamicSorted s => oc_contains s x
  end.

Definition size (o : t) : nat := length (iter o).

Definition empty (o : t) : bool := (size o =? 0)%nat.

(** [ObjectStore::Factory] *)
Record Factory := mkFactory {
  scores : option ObjectScores;
  useDynamicObjectOrdering : bool;
  setOrder : SetOrder
}.

Definition get (f : Factory) : t :=
  match scores f with
  | None =>
      if useDynamicObjectOrdering f
      then DynamicUnordered AccessOrderedFastSet.make else Unordered (mkUnordered (setOrder f) ∅)
  | Some sc =>
      if useDynamicObjectOrdering f
      then DynamicSorted (mkDynamicSorted sc AccessOrderedSortedSet.make)
      else Sorted (mkSorted sc [])
  end.

(** ** The store implements a finite set of objects *)

Definition to_set (o : t) : gset Z := list_to_set (iter o).

Definition inv (o : t) : Prop :=
  match o with
  | Sorted s => oc_inv s
  | Unordered s => oc_inv s
  | DynamicUnordered s => oc_inv s
  | DynamicSorted s => oc_inv s
  end.

(** The objects the store may hold. *)
Definition dom_of (o : t) (x : Z) : Prop :=
  match o with
  | Sorted s => oc_dom s x
  | Unordered s => oc_dom s x
  | DynamicUnordered s => oc_dom s x
  | DynamicSorted s => oc_dom s x
  end.

Definition factory_dom (f : Factory) (x : Z) : Prop :=
  match scores f with None => True | Some sc => scored sc x end.

Lemma get_spec f :
  inv (get f) ∧ iter (get f) = [] ∧ ∀ x, dom_of (get f) x ↔ factory_dom f x.
Proof.
  unfold get, factory_dom. destruct (scores f) as [sc|], (useDynamicObjectOrdering f); simpl.
  - split_and!; [apply AccessOrderedSortedSet.sorted_make_inv|done|done].
  - split_and!; [|constructor|done|done]; constructor.
  - split_and!; [apply AccessOrderedFastSet.fast_make_inv|done|done].
  - split_and!; [done| |done]. apply Permutation_nil. by rewrite visit_perm, elements_empty.
Qed.

Lemma insert_spec o x :
  inv o → dom_of o x →
  inv (insert o x) ∧ (∀ y, dom_of (insert o x) y ↔ dom_of o y) ∧
  to_set (insert o x) = {[x]} ∪ to_set o.
Proof.
  unfold to_set, inv, dom_of, insert, iter.
  destruct o; intros Hi Hd;
    (split_and!;
     [by apply oc_insert_inv|by rewrite oc_insert_dom|
      apply set_eq; intros y; rewrite elem_of_list_to_set, oc_insert_iter by done; set_solver]).
Qed.

Lemma erase_spec o x :
  inv o → dom_of o x →
  inv (erase o x) ∧ (∀ y, dom_of (erase o x) y ↔ dom_of o y) ∧
  to_set (erase o x) = to_set o ∖ {[x]}.
Proof.
  unfold to_set, inv, dom_of, erase, iter.
  destruct o; intros Hi Hd;
    (split_and!;
     [by apply oc_erase_inv|by rewrite oc_erase_dom|
      apply set_eq; intros y; rewrite elem_of_list_to_set, oc_erase_iter by done; set_solver]).
Qed.

Lemma store_contains_spec o x :
  inv o → dom_of o x → contains o x = bool_decide (x ∈ to_set o).
Proof.
  unfold to_set, inv, dom_of, contains, iter.
  destruct o; intros; rewrite oc_contains_iter by done;
    apply bool_decide_ext; by rewrite elem_of_list_to_set.
Qed.

Lemma iter_NoDup o : inv o → NoDup (iter o).
Proof. destruct o; apply oc_iter_nodup. Qed.

Lemma size_spec o : inv o → size o = base.size (to_set o).
Proof.
  intros Hi. unfold size, to_set. rewrite size_list_to_set; [done|].
  by apply iter_NoDup.
Qed.
End ObjectStore.
