(* ===== verification/ChangeSet.v ===== *)
(** * Changes and moves

    [Change] and [ChangeSet] of solver/utils, [Move] and [MoveSet] of
    solver/moves: the vocabulary in which move types propose modifications of
    the assignment and in which the solver applies and undoes them. *)

From S2P Require Import Prelude.

(** The order in which a hash map is iterated is unspecified; each entry is
    visited once. *)
Class HashOrder := {
  hash_iter : ∀ {V : Type}, gmap Z V → list (Z * V);
  hash_iter_perm : ∀ V (m : gmap Z V), hash_iter m ≡ₚ map_to_list m
}.

Definition canonical_order : HashOrder :=
  {| hash_iter V m := map_to_list m; hash_iter_perm V m := reflexivity _ |}.

(** The order in which a hash set is iterated. *)
Definition set_iter `{HashOrder} (s : gset Z) : list Z := (hash_iter (gset_to_gmap () s)).*1.

Lemma set_iter_perm `{HashOrder} s : set_iter s ≡ₚ elements s.
Proof.
  unfold set_iter. rewrite hash_iter_perm. apply NoDup_Permutation.
  - apply NoDup_fst_map_to_list.
  - apply NoDup_elements.
  - intros x. rewrite elem_of_elements, list_elem_of_fmap. split.
    + intros ([k []] & -> & Hk%elem_of_map_to_list). apply lookup_gset_to_gmap_Some in Hk as [? _]. done.
    + intros Hx. exists (x, ()). rewrite elem_of_map_to_list, lookup_gset_to_gmap_Some. done.
Qed.

Lemma set_iter_elem `{HashOrder} (s : gset Z) x : x ∈ set_iter s ↔ x ∈ s.
Proof. by rewrite set_iter_perm, elem_of_elements. Qed.

Lemma set_iter_NoDup `{HashOrder} (s : gset Z) : NoDup (set_iter s).
Proof. unfold set_iter. rewrite hash_iter_perm. apply NoDup_fst_map_to_list. Qed.

Lemma set_iter_length `{HashOrder} (s : gset Z) : length (set_iter s) = size s.
Proof.
  rewrite <- (size_list_to_set (C := gset Z) (set_iter s)) by apply set_iter_NoDup.
  f_equal. apply set_eq. intros x. by rewrite elem_of_list_to_set, set_iter_elem.
Qed.

(** ** Change *)
Record Change := mkChange { object : Z; container : Z; value : Z }.

#[export] Instance Change_eq_dec : EqDecision Change.
Proof. solve_decision. Defined.

(** The constructor: the value must be 1 or -1. *)
Definition makeChange (object container value : Z) : result Change :=
  if negb (value =? 1) && negb (value =? -1)
  then Throw (runtime_error "invalid change value")
  else Ok (mkChange object container value).

Definition valid_change (c : Change) : Prop := value c = 1 ∨ value c = -1.

Lemma makeChange_spec o c v : makeChange o c v =
  if decide (v = 1 ∨ v = -1) then Ok (mkChange o c v)
  else Throw (runtime_error "invalid change value").
Proof.
  unfold makeChange. destruct (Z.eqb_spec v 1), (Z.eqb_spec v (-1)), (decide _);
    simpl; try done; lia.
Qed.

(** ** ChangeSet: the changes in order and two indexes of them *)
Module ChangeSet.

Record t := mk {
  changes : list Change;
  containerToChanges : gmap Z (list Change);
  objectToChanges : gmap Z (list Change)
}.

Definition empty : t := mk [] ∅ ∅.

(** [map[key].push_back(change)] *)
Definition push (m : gmap Z (list Change)) (k : Z) (c : Change) : gmap Z (list Change) :=
  <[k := default [] (m !! k) ++ [c]]> m.

Definition insert (s : t) (c : Change) : t :=
  mk (changes s ++ [c])
     (push (containerToChanges s) (container c) c)
     (push (objectToChanges s) (object c) c).

(** [ChangeSet(std::vector<Change>)] *)
Definition fromVector (cs : list Change) : t :=
  mk cs
     (foldl (λ m c, push m (container c) c) ∅ cs)
     (foldl (λ m c, push m (object c) c) ∅ cs).

Definition size (s : t) : nat := length (changes s).

Definition at_index (s : t) (i : nat) : result Change := at_ (changes s !! i).

Definition is_empty (s : t) : bool := (size s =? 0)%nat.

Definition getChangesByContainer (s : t) (c : Z) : list Change :=
  default [] (containerToChanges s !! c).

Definition getChangesByObject (s : t) (o : Z) : list Change :=
  default [] (objectToChanges s !! o).

Definition getChangeSizeForContainers (s : t) (containerIds : list Z) : nat :=
  foldl (λ size c, size + length (getChangesByContainer s c))%nat 0%nat containerIds.

(** The changes undone in reverse order; each is built by the constructor. *)
Definition getInverse (s : t) : result t :=
  inverse ← foldM (λ acc c,
              c' ← makeChange (object c) (container c) (- value c);
              Ok (acc ++ [c'])) [] (reverse (changes s));
  Ok (fromVector inverse).

Definition representsSingleMove (s : t) : bool :=
  (size s =? 2)%nat && (base.size (objectToChanges s) =? 1)%nat &&
  (base.size (containerToChanges s) =? 2)%nat &&
  match changes s with
  | c0 :: c1 :: _ => value c0 + value c1 =? 0
  | _ => false
  end.

(** ** The indexes agree with the changes *)

Definition indexed (key : Change → Z) (m : gmap Z (list Change)) (cs : list Change) : Prop :=
  ∀ k, m !! k = (let l := filter (λ c, key c = k) cs in
                 if decide (l = []) then None else Some l).

Record wf (s : t) : Prop := {
  wf_container : indexed container (containerToChanges s) (changes s);
  wf_object : indexed object (objectToChanges s) (changes s);
  wf_valid : Forall valid_change (changes s)
}.

Lemma indexed_nil key : indexed key ∅ [].
Proof. intros k. by rewrite lookup_empty. Qed.

Lemma indexed_push key m cs c :
  indexed key m cs → indexed key (push m (key c) c) (cs ++ [c]).
Proof.
  intros H k. unfold push. rewrite filter_app. cbn zeta.
  destruct (decide (key c = k)) as [<-|Hk].
  - rewrite lookup_insert_eq, filter_cons_True, filter_nil, H by done. cbn zeta.
    destruct (decide (filter _ cs = [])) as [E|E]; simpl.
    + by rewrite E.
    + rewrite decide_False; [done|]. by intros [? ?]%app_nil.
  - rewrite lookup_insert_ne, filter_cons_False, filter_nil, app_nil_r by done. apply H.
Qed.

Lemma indexed_foldl key cs : indexed key (foldl (λ m c, push m (key c) c) ∅ cs) cs.
Proof.
  induction cs as [|c cs IH] using rev_ind; [apply indexed_nil|].
  rewrite foldl_snoc. by apply indexed_push.
Qed.

Lemma indexed_unique key m1 m2 cs : indexed key m1 cs → indexed key m2 cs → m1 = m2.
Proof. intros H1 H2. apply map_eq. intros k. by rewrite H1, H2. Qed.

Lemma empty_wf : wf empty.
Proof. split; [apply indexed_nil|apply indexed_nil|constructor]. Qed.

Lemma insert_wf s c : wf s → valid_change c → wf (insert s c).
Proof.
  intros [H1 H2 H3] Hc. split; simpl; [by apply indexed_push|by apply indexed_push|].
  apply Forall_app. split; [done|]. constructor; [done|constructor].
Qed.

Lemma fromVector_wf cs : Forall valid_change cs → wf (fromVector cs).
Proof. split; simpl; [apply indexed_foldl|apply indexed_foldl|done]. Qed.

(** A well-formed change set is determined by its changes. *)
Lemma wf_fromVector s : wf s → s = fromVector (changes s).
Proof.
  intros [H1 H2 _]. destruct s as [cs m1 m2]. unfold fromVector; simpl in *. f_equal.
  - eapply indexed_unique; [done|apply indexed_foldl].
  - eapply indexed_unique; [done|apply indexed_foldl].
Qed.

Definition invert (c : Change) : Change := mkChange (object c) (container c) (- value c).

Lemma invert_valid c : valid_change c → valid_change (invert c).
Proof. unfold valid_change; simpl; lia. Qed.

(** Inverting never throws on changes built by the constructor. *)
Lemma getInverse_spec s :
  Forall valid_change (changes s) →
  getInverse s = Ok (fromVector (invert <$> reverse (changes s))).
Proof.
  intros Hv. unfold getInverse.
  assert (∀ l acc, Forall valid_change l →
    foldM (λ acc c, c' ← makeChange (object c) (container c) (- value c); Ok (acc ++ [c']))
      acc l = Ok (acc ++ (invert <$> l))) as E.
  { induction l as [|c l IH]; intros acc Hl; simpl; [by rewrite app_nil_r|].
    inversion_clear Hl as [|? ? Hc Hl']. rewrite makeChange_spec, decide_True
      by (unfold valid_change in Hc; lia). simpl.
    rewrite IH by done. by rewrite <- (assoc_L (++)). }
  rewrite E; [done|]. by rewrite Forall_reverse.
Qed.

Lemma invert_involutive c : invert (invert c) = c.
Proof. destruct c. unfold invert; simpl. f_equal. lia. Qed.
End ChangeSet.

(** ** Move *)
Record Move := mkMove {
  move_object : Z;
  srcContainer : Z;
  dstContainer : Z;
  hashValue : Z
}.

Section moves.
(** [folly::hash::hash_combine] of the object and the two containers. *)
Context (hash_combine : Z → Z → Z → Z).

Definition makeMove (o src dst : Z) : Move := mkMove o src dst (hash_combine o src dst).

Definition Move_eq (lhs rhs : Move) : bool :=
  (move_object lhs =? move_object rhs) && (srcContainer lhs =? srcContainer rhs) &&
  (dstContainer lhs =? dstContainer rhs).

Definition Move_compare (lhs rhs : Move) : Z :=
  if Move_eq lhs rhs then 0
  else if hashValue lhs <? hashValue rhs then 1 else -1.

(** The two constructor calls use the values -1 and 1 and do not throw. *)
Definition removal (o src : Z) : Change := mkChange o src (-1).
Definition addition (o dst : Z) : Change := mkChange o dst 1.

Definition Move_getChangeSet (m : Move) : ChangeSet.t :=
  ChangeSet.insert
    (ChangeSet.insert ChangeSet.empty (removal (move_object m) (srcContainer m)))
    (addition (move_object m) (dstContainer m)).

(** ** MoveSet: a vector of moves *)
Abbreviation MoveSet := (list Move).

Definition MoveSet_insert (ms : MoveSet) (m : Move) : MoveSet := ms ++ [m].

Definition MoveSet_getChangeSet (ms : MoveSet) : ChangeSet.t :=
  foldl (λ cs m,
    ChangeSet.insert
      (ChangeSet.insert cs (removal (move_object m) (srcContainer m)))
      (addition (move_object m) (dstContainer m))) ChangeSet.empty ms.

Fixpoint MoveSet_compare_loop (lhs rhs : MoveSet) : Z :=
  match lhs, rhs with
  | l :: lhs, r :: rhs =>
      let moveCompare := Move_compare l r in
      if negb (moveCompare =? 0) then moveCompare else MoveSet_compare_loop lhs rhs
  | _, _ => 0
  end.

Definition MoveSet_compare (lhs rhs : MoveSet) : Z :=
  if (length lhs <? length rhs)%nat then 1
  else if (length rhs <? length lhs)%nat then -1
  else MoveSet_compare_loop lhs rhs.

(** [from.insert(pair).second]: fails when the object is already there. *)
Definition insert_new (m : gmap Z Z) (o c : Z) (msg : string) : result (gmap Z Z) :=
  match m !! o with
  | Some _ => Throw (runtime_error msg)
  | None => Ok (<[o := c]> m)
  end.

Definition split_changes (cs : list Change) : result (gmap Z Z * gmap Z Z) :=
  foldM (λ '(from, to) c,
    if value c =? -1
    then from' ← insert_new from (object c) (container c) "object removed twice";
         Ok (from', to)
    else to' ← insert_new to (object c) (container c) "object added twice";
         Ok (from, to')) (∅, ∅) cs.

Definition MoveSet_fromChangeSet `{HashOrder} (cs : ChangeSet.t) : result MoveSet :=
  '(from, to) ← split_changes (ChangeSet.changes cs);
  if negb (size from =? size to)%nat
  then Throw (runtime_error "mismatch between number of objects added and removed")
  else
    foldM (λ moves '(o, fromContainer),
      match to !! o with
      | None => Throw (runtime_error "object removed but not added")
      | Some toContainer => Ok (MoveSet_insert moves (makeMove o fromContainer toContainer))
      end) [] (hash_iter from).
End moves.

(** ** Lemmas on move sets *)

Definition move_changes (m : Move) : list Change :=
  [removal (move_object m) (srcContainer m); addition (move_object m) (dstContainer m)].

Definition sources (ms : list Move) : list (Z * Z) :=
  (λ m, (move_object m, srcContainer m)) <$> ms.
Definition destinations (ms : list Move) : list (Z * Z) :=
  (λ m, (move_object m, dstContainer m)) <$> ms.

Lemma sources_fst ms : (sources ms).*1 = move_object <$> ms.
Proof. unfold sources. by rewrite <- list_fmap_compose. Qed.

Lemma destinations_fst ms : (destinations ms).*1 = move_object <$> ms.
Proof. unfold destinations. by rewrite <- list_fmap_compose. Qed.

Lemma MoveSet_changes ms :
  ChangeSet.changes (MoveSet_getChangeSet ms) = ms ≫= move_changes.
Proof.
  induction ms as [|m ms IH] using rev_ind; [done|].
  unfold MoveSet_getChangeSet in *. rewrite foldl_snoc. simpl.
  rewrite IH, bind_app. simpl. by rewrite <- !(assoc_L (++)).
Qed.

Lemma MoveSet_getChangeSet_wf ms : ChangeSet.wf (MoveSet_getChangeSet ms).
Proof.
  induction ms as [|m ms IH] using rev_ind; [apply ChangeSet.empty_wf|].
  unfold MoveSet_getChangeSet in *. rewrite foldl_snoc.
  apply ChangeSet.insert_wf; [apply ChangeSet.insert_wf; [done|]|];
    unfold valid_change; simpl; auto.
Qed.

Lemma split_changes_moves ms :
  NoDup (move_object <$> ms) →
  split_changes (ms ≫= move_changes) =
  Ok (list_to_map (sources ms), list_to_map (destinations ms)).
Proof.
  induction ms as [|m ms IH] using rev_ind; [done|].
  rewrite fmap_app. intros (Hnd & Hm & _)%NoDup_app.
  assert (move_object m ∉ move_object <$> ms) as Hn.
  { intros Hin. apply (Hm _ Hin). set_solver. }
  assert (list_to_map (sources ms) !! move_object m = (None : option Z)) as E1
    by (apply not_elem_of_list_to_map; by rewrite sources_fst).
  assert (list_to_map (destinations ms) !! move_object m = (None : option Z)) as E2
    by (apply not_elem_of_list_to_map; by rewrite destinations_fst).
  unfold split_changes in *. rewrite bind_app, foldM_app, IH by done. simpl.
  unfold insert_new. rewrite E1. simpl. rewrite E2. simpl.
  unfold sources, destinations. rewrite !fmap_app. simpl.
  rewrite !list_to_map_snoc;
    [done|by rewrite destinations_fst|by rewrite sources_fst].
Qed.

Lemma size_list_to_map {V} (l : list (Z * V)) :
  NoDup l.*1 → size (list_to_map l : gmap Z V) = length l.
Proof.
  induction l as [|[k v] l IH]; simpl; [done|].
  intros [Hk Hl]%NoDup_cons. rewrite map_size_insert_None, IH; [done|done|].
  by apply not_elem_of_list_to_map.
Qed.

(** Rebuilding the moves from their changes gives the same moves, in the
    iteration order of the hash map. *)
Lemma fromChangeSet_getChangeSet hash `{HashOrder} ms :
  NoDup (move_object <$> ms) →
  (∀ m, m ∈ ms → m = makeMove hash (move_object m) (srcContainer m) (dstContainer m)) →
  ∃ ms', MoveSet_fromChangeSet hash (MoveSet_getChangeSet ms) = Ok ms' ∧ ms' ≡ₚ ms.
Proof.
  intros Hnd Hmk. unfold MoveSet_fromChangeSet.
  rewrite MoveSet_changes, split_changes_moves by done. simpl.
  rewrite !size_list_to_map by (by rewrite ?sources_fst, ?destinations_fst).
  unfold sources at 1, destinations at 1. rewrite !length_fmap, Nat.eqb_refl. simpl.
  set (to := list_to_map (destinations ms) : gmap Z Z).
  assert (∀ m, m ∈ ms → to !! move_object m = Some (dstContainer m)) as Hto.
  { intros m Hm. apply elem_of_list_to_map; [by rewrite destinations_fst|].
    apply list_elem_of_fmap. by exists m. }
  assert (hash_iter (list_to_map (sources ms) : gmap Z Z) ≡ₚ sources ms) as Hp.
  { rewrite hash_iter_perm. apply map_to_list_to_map. by rewrite sources_fst. }
  destruct (Permutation_map_inv _ _ Hp) as (ms' & E & Hperm).
  exists ms'. split; [|by symmetry]. rewrite E. clear E Hp.
  assert (∀ m, m ∈ ms' → m ∈ ms) as Hin by (intros m; by rewrite Hperm).
  clear Hperm Hnd. revert Hin.
  enough (∀ acc, (∀ m, m ∈ ms' → m ∈ ms) →
    foldM (λ moves '(o, fromContainer),
      match to !! o with
      | None => Throw (runtime_error "object removed but not added")
      | Some toContainer => Ok (MoveSet_insert moves (makeMove hash o fromContainer toContainer))
      end) acc (List.map (λ m, (move_object m, srcContainer m)) ms') = Ok (acc ++ ms')) as Hgen
    by (intros Hin; by rewrite (Hgen [] Hin)).
  induction ms' as [|m ms' IH]; intros acc Hin; simpl; [by rewrite app_nil_r|].
  rewrite Hto by set_solver. simpl. unfold MoveSet_insert. rewrite IH by set_solver.
  rewrite <- (assoc_L (++)). simpl. do 2 f_equal. f_equal. symmetry. apply Hmk. set_solver.
Qed.

(** The destinations of a move set written into the object map. *)
Definition place (ms : list Move) (otc : gmap Z Z) : gmap Z Z :=
  foldl (λ otc m, <[move_object m := dstContainer m]> otc) otc ms.

Lemma place_ne ms otc o : o ∉ move_object <$> ms → place ms otc !! o = otc !! o.
Proof.
  revert otc. induction ms as [|m ms IH]; intros otc; simpl; [done|].
  intros [Hne Hn]%not_elem_of_cons. rewrite IH by done. by apply lookup_insert_ne.
Qed.

Lemma place_in ms otc m :
  NoDup (move_object <$> ms) → m ∈ ms → place ms otc !! move_object m = Some (dstContainer m).
Proof.
  revert otc. induction ms as [|m' ms IH]; intros otc; simpl; [set_solver|].
  intros [Hn Hnd]%NoDup_cons [->|Hm]%elem_of_cons; [|by apply IH].
  rewrite place_ne by done. apply lookup_insert_eq.
Qed.

(** Placing moves of assigned objects keeps the set of objects. *)
Lemma place_dom ms otc :
  (∀ m, m ∈ ms → is_Some (otc !! move_object m)) → dom (place ms otc) = dom otc.
Proof.
  revert otc. induction ms as [|m ms IH]; intros otc H; simpl; [done|].
  assert (move_object m ∈ dom otc) as Hm by (apply elem_of_dom, H; set_solver).
  rewrite IH.
  - rewrite dom_insert_L. set_solver.
  - intros m' Hm'. apply lookup_insert_is_Some'. right. apply H. set_solver.
Qed.
