(* ===== verification/IndexedAssignment.v ===== *)
(** * Per-container indexes of objects

    [IndexedAssignment] of solver/utils/IndexedAssignment.h: for every container,
    the objects on it grouped by an index (equivalence set, group, or the pair of
    both).  The C++ template selects with [std::conditional_t] between a storage
    of objects and a map from a secondary index to storages; the class
    [IndexLevel] states what the template needs of either. *)

From S2P Require Import Prelude AccessOrderedSet ObjectStore ChangeSet.

Class IndexLevel (ObjIdx Store : Type) := {
  (** [getPrimaryIndex] *)
  primary : ObjIdx → Z;
  (** the overloads of [add] and [remove] *)
  il_add : Store → Z → ObjIdx → Store;
  il_remove : Store → Z → ObjIdx → result Store;
  il_empty : Store → bool;

  (** the specification *)
  il_inv : Store → Prop;
  il_dom : Store → Z → Prop;
  il_mem : Store → ObjIdx → Z → Prop;
  il_add_spec s o i : il_inv s → il_dom s o →
    il_inv (il_add s o i) ∧ (∀ x, il_dom (il_add s o i) x ↔ il_dom s x) ∧
    il_empty (il_add s o i) = false ∧
    ∀ i' o', primary i' = primary i →
      il_mem (il_add s o i) i' o' ↔ (o' = o ∧ i' = i) ∨ il_mem s i' o';
  il_remove_spec s o i : il_inv s → il_dom s o → il_mem s i o →
    ∃ s', il_remove s o i = Ok s' ∧ il_inv s' ∧ (∀ x, il_dom s' x ↔ il_dom s x) ∧
    ∀ i' o', primary i' = primary i →
      il_mem s' i' o' ↔ il_mem s i' o' ∧ ¬ (o' = o ∧ i' = i);
  il_empty_spec s : il_inv s → il_empty s = true → ∀ i o, ¬ il_mem s i o
}.

(** ** One level: an [ObjectStore] *)
#[export] Program Instance level_ObjectStore : IndexLevel Z ObjectStore.t := {
  primary i := i;
  il_add s o _ := ObjectStore.insert s o;
  il_remove s o _ := Ok (ObjectStore.erase s o);
  il_empty := ObjectStore.empty;
  il_inv := ObjectStore.inv;
  il_dom := ObjectStore.dom_of;
  il_mem s _ o := o ∈ ObjectStore.to_set s
}.
Next Obligation.
  intros s o i Hi Hd. simpl.
  destruct (ObjectStore.insert_spec s o Hi Hd) as (Hi' & Hd' & E).
  split_and!; [done|done| |intros; rewrite E; set_solver].
  unfold ObjectStore.empty. rewrite ObjectStore.size_spec by done.
  apply Nat.eqb_neq. rewrite E, size_union_alt, size_singleton. lia.
Qed.
Next Obligation.
  intros s o i Hi Hd Hm. simpl.
  destruct (ObjectStore.erase_spec s o Hi Hd) as (Hi' & Hd' & E).
  eexists. split_and!; [done|done|done|]. intros i' o' ->. rewrite E. set_solver.
Qed.
Next Obligation.
  intros s Hi He i o Hm. simpl in *.
  unfold ObjectStore.empty in He. rewrite ObjectStore.size_spec in He by done.
  apply Nat.eqb_eq, size_empty_inv in He. set_solver.
Qed.

(** ** One level: a hash set *)
#[export] Program Instance level_PackerSet : IndexLevel Z (gset Z) := {
  primary i := i;
  il_add s o _ := {[o]} ∪ s;
  il_remove s o _ := Ok (s ∖ {[o]});
  il_empty s := bool_decide (s = ∅);
  il_inv _ := True;
  il_dom _ _ := True;
  il_mem s _ o := o ∈ s
}.
Next Obligation.
  intros s o i _ _. simpl. split_and!; [done|done| |set_solver].
  apply bool_decide_eq_false. set_solver.
Qed.
Next Obligation.
  intros s o i _ _ Hm. simpl. eexists. split_and!; [done|done|done|]. set_solver.
Qed.
Next Obligation. intros s _ He%bool_decide_eq_true i o. set_solver. Qed.

(** ** Two levels: a hash map from the secondary index to hash sets *)
Definition two_add (m : gmap Z (gset Z)) (o : Z) (i : Z * Z) : gmap Z (gset Z) :=
  <[i.2 := {[o]} ∪ default ∅ (m !! i.2)]> m.

Definition two_remove (m : gmap Z (gset Z)) (o : Z) (i : Z * Z)
    : result (gmap Z (gset Z)) :=
  match m !! i.2 with
  | Some s =>
      let s' := s ∖ {[o]} in
      Ok (if decide (s' = ∅) then delete i.2 m else <[i.2 := s']> m)
  | None => Throw (runtime_error "Cannot remove a non-existent object from secondary index")
  end.

#[export] Program Instance level_two : IndexLevel (Z * Z) (gmap Z (gset Z)) := {
  primary i := i.1;
  il_add := two_add;
  il_remove := two_remove;
  il_empty m := bool_decide (m = ∅);
  il_inv m := ∀ k s, m !! k = Some s → s ≠ ∅;
  il_dom _ _ := True;
  il_mem m i o := ∃ s, m !! i.2 = Some s ∧ o ∈ s
}.
Next Obligation.
  intros m o [p k] Hi _. simpl. unfold two_add; simpl. split_and!; [|done| |].
  - intros k' s. rewrite lookup_insert. case_decide; [intros [= <-]; set_solver|apply Hi].
  - apply bool_decide_eq_false, insert_non_empty.
  - intros [p' k'] o' Hp. simpl in *. subst p'. rewrite lookup_insert.
    case_decide as Hk; [subst k'|].
    + destruct (m !! k) as [s|]; simpl; split.
      * intros (s' & [= <-] & Hs). set_solver.
      * intros [[-> _]|(s' & [= <-] & Hs)]; eexists; (split; [done|set_solver]).
      * intros (s' & [= <-] & Hs). left. set_solver.
      * intros [[-> _]|(s' & ? & ?)]; [|done]. eexists; split; [done|set_solver].
    + split; [auto|]. intros [[_ [=]]|?]; [congruence|done].
Qed.
Next Obligation.
  intros m o [p k] Hi _ (s & Hs & Ho). simpl in *. unfold two_remove; simpl.
  rewrite Hs. eexists. split_and!; [done| |done|].
  - case_decide as He; intros k' s'.
    + rewrite lookup_delete. case_decide; [done|apply Hi].
    + rewrite lookup_insert. case_decide; [intros [= <-]; done|apply Hi].
  - intros [p' k'] o' Hp. simpl in *. subst p'. destruct (decide (k = k')) as [<-|Hk].
    + rewrite Hs. case_decide as He.
      * rewrite lookup_delete_eq. split; [intros (? & [=] & _)|].
        intros [(s' & [= <-] & Hs') Hn]. exfalso. set_solver.
      * rewrite lookup_insert_eq. split.
        -- intros (s' & [= <-] & Hs'). split; [eexists; split; [done|]; set_solver|set_solver].
        -- intros [(s' & [= <-] & Hs') Hn]. eexists; split; [done|]. set_solver.
    + assert ((if decide (s ∖ {[o]} = ∅) then delete k m else <[k:=s ∖ {[o]}]> m) !! k' = m !! k')
        as ->.
      { case_decide; [by rewrite lookup_delete_ne|by rewrite lookup_insert_ne]. }
      split; [intros ?; split; [done|naive_solver]|tauto].
Qed.
Next Obligation.
  intros m _ He%bool_decide_eq_true i o (s & Hs & _). subst m. by rewrite lookup_empty in Hs.
Qed.

(** * IndexedAssignment *)
Module IndexedAssignment.
Section indexed.
Context {ObjIdx Store : Type} `{L : IndexLevel ObjIdx Store}.

(** [emptyStorage_], [containerToIndexedObjects_] and [objectToIndex_]. *)
Record t := mk {
  emptyStorage : Store;
  containerToIndexedObjects : gmap Z (gmap Z Store);
  objectToIndex : gmap Z ObjIdx
}.

(** [findOrAdd] followed by [add] on the entry found. *)
Definition add_at (ix : t) (m : gmap Z Store) (o : Z) (i : ObjIdx) : gmap Z Store :=
  <[primary i := il_add (default (emptyStorage ix) (m !! primary i)) o i]> m.

Definition setOn (ix : t) (o c : Z) : result t :=
  objIdx ← at_ (objectToIndex ix !! o);
  let containerObjects := default ∅ (containerToIndexedObjects ix !! c) in
  Ok (mk (emptyStorage ix)
         (<[c := add_at ix containerObjects o objIdx]> (containerToIndexedObjects ix))
         (objectToIndex ix)).

Definition removeFrom (ix : t) (o c : Z) : result t :=
  objIdx ← at_ (objectToIndex ix !! o);
  containerObjects ← at_ (containerToIndexedObjects ix !! c);
  match containerObjects !! primary objIdx with
  | None => Throw (runtime_error "Cannot remove a non-existent object from container")
  | Some store =>
      store' ← il_remove store o objIdx;
      let containerObjects' :=
        if il_empty store' then delete (primary objIdx) containerObjects
        else <[primary objIdx := store']> containerObjects in
      Ok (mk (emptyStorage ix)
             (<[c := containerObjects']> (containerToIndexedObjects ix))
             (objectToIndex ix))
  end.

Definition getContainerObjects (ix : t) (c : Z) : result (gmap Z Store) :=
  match containerToIndexedObjects ix !! c with
  | Some m => Ok m
  | None => Throw (runtime_error "Container not found in the assignment")
  end.

(** The body of the constructor's inner loop: [objectToIndex_.emplace] keeps
    an entry that is already there, [add] uses the index just computed. *)
Definition build_object (getObjectIndex : Z → result ObjIdx) (c : Z)
    (ix : t) (o : Z) : result t :=
  objectIdx ← getObjectIndex o;
  let idx := match objectToIndex ix !! o with
             | Some _ => objectToIndex ix
             | None => <[o := objectIdx]> (objectToIndex ix)
             end in
  Ok (mk (emptyStorage ix)
         (<[c := add_at ix (default ∅ (containerToIndexedObjects ix !! c)) o objectIdx]>
            (containerToIndexedObjects ix))
         idx).

Definition build_container (getObjectIndex : Z → result ObjIdx) (ix : t)
    (entry : Z * list Z) : result t :=
  let '(c, objects) := entry in
  let ix0 := mk (emptyStorage ix)
    (<[c := default ∅ (containerToIndexedObjects ix !! c)]> (containerToIndexedObjects ix))
    (objectToIndex ix) in
  foldM (build_object getObjectIndex c) ix0 objects.

(** The constructor, over the containers in the iteration order of the map. *)
Definition build (containerToObjectsDynamic : list (Z * list Z))
    (getObjectIndex : Z → result ObjIdx) (emptyStorage : Store) : result t :=
  foldM (build_container getObjectIndex) (mk emptyStorage ∅ ∅) containerToObjectsDynamic.

(** ** The index represents which objects each container holds *)

(** The store of container [c] at the primary index [p], if there is one. *)
Definition store_at (ix : t) (c p : Z) : option Store :=
  containerToIndexedObjects ix !! c ≫= (.!! p).

(** [o] is filed on container [c] under the index [i]. *)
Definition filed (ix : t) (c : Z) (i : ObjIdx) (o : Z) : Prop :=
  ∃ st, store_at ix c (primary i) = Some st ∧ il_mem st i o.

(** Every store kept is nonempty and well formed. *)
Definition stores_ok (D : Z → Prop) (ix : t) : Prop :=
  (il_inv (emptyStorage ix) ∧ (∀ i o, ¬ il_mem (emptyStorage ix) i o) ∧
   ∀ o, D o → il_dom (emptyStorage ix) o) ∧
  ∀ c p st, store_at ix c p = Some st →
    il_inv st ∧ il_empty st = false ∧ ∀ o, D o → il_dom st o.

(** The index files exactly the objects of [objs c] under their indexes. *)
Record represents (D : Z → Prop) (ix : t) (objs : Z → gset Z) : Prop := {
  rep_stores : stores_ok D ix;
  rep_filed c i o : filed ix c i o ↔ o ∈ objs c ∧ objectToIndex ix !! o = Some i;
  rep_indexed c o : o ∈ objs c → is_Some (objectToIndex ix !! o)
}.

(** The index after [o] is added on [c] under [i]. *)
Definition insert_object (ix : t) (c o : Z) (i : ObjIdx) (idx : gmap Z ObjIdx) : t :=
  mk (emptyStorage ix)
     (<[c := add_at ix (default ∅ (containerToIndexedObjects ix !! c)) o i]>
        (containerToIndexedObjects ix)) idx.

Lemma store_at_insert ix c o i idx c' p :
  store_at (insert_object ix c o i idx) c' p =
  if decide (c' = c ∧ p = primary i)
  then Some (il_add (default (emptyStorage ix) (store_at ix c p)) o i)
  else store_at ix c' p.
Proof.
  unfold store_at, insert_object, add_at; simpl. rewrite lookup_insert.
  destruct (decide (c = c')) as [<-|Hc]; simpl;
    [|by rewrite decide_False by (intros [-> _]; done)].
  rewrite lookup_insert. destruct (decide (primary i = p)) as [<-|Hp].
  - rewrite decide_True by done. do 3 f_equal.
    by destruct (containerToIndexedObjects ix !! c).
  - rewrite decide_False by (intros [_ ->]; done).
    by destruct (containerToIndexedObjects ix !! c).
Qed.

(** What a stored or fresh store looks like before an insertion. *)
Lemma stores_ok_default D ix c p :
  stores_ok D ix →
  let st := default (emptyStorage ix) (store_at ix c p) in
  il_inv st ∧ ∀ o, D o → il_dom st o.
Proof.
  intros [(He & _ & Hd) Hs]. destruct (store_at ix c p) as [st|] eqn:Hst; simpl; [|done].
  by destruct (Hs c p st Hst) as (? & _ & ?).
Qed.

Lemma insert_object_stores D ix c o i idx :
  D o → stores_ok D ix → stores_ok D (insert_object ix c o i idx).
Proof.
  intros Ho Hok. destruct (stores_ok_default D ix c (primary i) Hok) as [Hinv Hdom].
  destruct (il_add_spec _ o i Hinv (Hdom o Ho)) as (Hi' & Hd' & He' & _).
  destruct Hok as [He Hs]. split; [done|]. intros c' p st.
  rewrite store_at_insert. case_decide as Hc; [|apply Hs]. destruct Hc as [-> ->].
  intros [= <-]. split_and!; [done|done|]. intros x Hx. apply Hd'. auto.
Qed.

Lemma insert_object_filed D ix c o i idx c' i' o' :
  D o → stores_ok D ix →
  filed (insert_object ix c o i idx) c' i' o' ↔
  (c' = c ∧ o' = o ∧ i' = i) ∨ filed ix c' i' o'.
Proof.
  intros Ho Hok. destruct (stores_ok_default D ix c (primary i) Hok) as [Hinv Hdom].
  destruct (il_add_spec _ o i Hinv (Hdom o Ho)) as (_ & _ & _ & Hmem).
  destruct Hok as [(_ & Hempty & _) _].
  unfold filed. rewrite store_at_insert. case_decide as Hc.
  - destruct Hc as [-> Hp]. rewrite Hp. specialize (Hmem i' o' Hp). split.
    + intros (st & [= <-] & Hm). apply Hmem in Hm as [[-> ->]|Hm]; [by left|right].
      destruct (store_at ix c (primary i)) as [st|]; simpl in Hm; [eauto|].
      by destruct (Hempty i' o').
    + intros Hor. eexists. split; [done|]. apply Hmem.
      destruct Hor as [(_ & -> & ->)|(st & -> & Hm)]; [by left|by right].
  - split; [by right|]. intros [(-> & _ & ->)|?]; [by destruct Hc|done].
Qed.

(** ** setOn and removeFrom *)

Definition upd (objs : Z → gset Z) (c : Z) (s : gset Z) : Z → gset Z :=
  λ c', if decide (c' = c) then s else objs c'.

Lemma setOn_represents D ix objs o c :
  represents D ix objs → D o → is_Some (objectToIndex ix !! o) →
  ∃ ix', setOn ix o c = Ok ix' ∧ objectToIndex ix' = objectToIndex ix ∧
    represents D ix' (upd objs c ({[o]} ∪ objs c)).
Proof.
  intros [Hs Hf Hx] Ho [i Hi]. unfold setOn. rewrite Hi. simpl.
  eexists. split_and!; [done|done|]. change (represents D
    (insert_object ix c o i (objectToIndex ix)) (upd objs c ({[o]} ∪ objs c))).
  split; simpl.
  - by apply insert_object_stores.
  - intros c' i' o'. rewrite (insert_object_filed D) by done. rewrite Hf. unfold upd.
    destruct (decide (c' = c)) as [->|]; [|naive_solver].
    rewrite elem_of_union, elem_of_singleton. split.
    + intros [(_ & -> & ->)|[? ?]]; auto.
    + intros [[->|?] ?]; [left; split_and!; congruence|auto].
  - intros c' o'. unfold upd. destruct (decide (c' = c)) as [->|]; [|apply Hx].
    rewrite elem_of_union, elem_of_singleton. intros [->|?]; [by eexists|by eapply Hx].
Qed.

Lemma removeFrom_represents D ix objs o c :
  represents D ix objs → D o → o ∈ objs c →
  ∃ ix', removeFrom ix o c = Ok ix' ∧ objectToIndex ix' = objectToIndex ix ∧
    represents D ix' (upd objs c (objs c ∖ {[o]})).
Proof.
  intros [Hs Hf Hx] Ho Hoc. destruct (Hx c o Hoc) as [i Hi].
  pose proof (proj2 (Hf c i o) (conj Hoc Hi)) as (st & Hst & Hm).
  pose proof Hst as Hst'. unfold store_at in Hst'.
  destruct (containerToIndexedObjects ix !! c) as [m|] eqn:Hcm; [|done]. simpl in Hst'.
  destruct (proj2 Hs c (primary i) st Hst) as (Hinv & _ & Hdom).
  destruct (il_remove_spec st o i Hinv (Hdom o Ho) Hm) as (st' & Hr & Hi' & Hd' & Hm').
  unfold removeFrom. rewrite Hi; simpl. rewrite Hcm; simpl. rewrite Hst', Hr; simpl.
  eexists. split_and!; [done|done|].
  set (ix' := mk _ _ _).
  assert (∀ c' p, store_at ix' c' p =
    if decide (c' = c ∧ p = primary i)
    then (if il_empty st' then None else Some st') else store_at ix c' p) as Hat.
  { intros c' p. unfold store_at, ix'; simpl. rewrite lookup_insert.
    destruct (decide (c = c')) as [<-|Hc]; simpl;
      [|by rewrite decide_False by (intros [-> _]; done)].
    rewrite Hcm; simpl. destruct (decide (p = primary i)) as [->|Hp].
    - rewrite decide_True by done.
      destruct (il_empty st'); [apply lookup_delete_eq|apply lookup_insert_eq].
    - rewrite decide_False by (intros [_ ?]; done).
      destruct (il_empty st'); [by rewrite lookup_delete_ne|by rewrite lookup_insert_ne]. }
  split; simpl.
  - destruct Hs as [He Hs]. split; [done|]. intros c' p st1. rewrite Hat.
    case_decide as Hc; [|apply Hs]. destruct (il_empty st') eqn:E; [done|].
    intros [= <-]. split_and!; [done|done|]. intros x Hxd. apply Hd'. auto.
  - intros c' i' o'.
    assert (filed ix' c' i' o' ↔ filed ix c' i' o' ∧ ¬ (c' = c ∧ o' = o ∧ i' = i)) as ->.
    { unfold filed. rewrite Hat. case_decide as Hc.
      - destruct Hc as [-> Hp]. rewrite Hp. specialize (Hm' i' o' Hp). split.
        + destruct (il_empty st'); [naive_solver|]. intros (? & [= <-] & Hmm).
          apply Hm' in Hmm as [? ?]. split; [eauto|tauto].
        + intros [(st1 & Hst1 & Hm1) Hn]. rewrite Hst in Hst1. injection Hst1 as <-.
          assert (il_mem st' i' o') as Hmm by (apply Hm'; tauto).
          destruct (il_empty st') eqn:E; [|eauto].
          by destruct (il_empty_spec st' Hi' E i' o').
      - split; [|tauto]. intros ?. split; [done|]. intros (-> & _ & ->). by apply Hc. }
    rewrite Hf. unfold upd. destruct (decide (c' = c)) as [->|]; [|naive_solver].
    rewrite elem_of_difference, elem_of_singleton. split; [|tauto].
    intros [[? ?] Hn]. split_and!; [done| |done]. intros ->. apply Hn.
    split_and!; [done|done|congruence].
  - intros c' o'. unfold upd. destruct (decide (c' = c)); [|apply Hx].
    rewrite elem_of_difference. intros [? _]. by eapply Hx.
Qed.

(** ** The constructor *)

Lemma represents_ext D ix objs objs' :
  (∀ c, objs c = objs' c) → represents D ix objs → represents D ix objs'.
Proof.
  intros E [Hs Hf Hx]. split; [done| |]; intros c; rewrite <- E; [apply Hf|apply Hx].
Qed.

Section build.
Context (D P : Z → Prop) (getObjectIndex : Z → result ObjIdx) (f : Z → ObjIdx).
Context (HD : ∀ o, P o → D o) (Hget : ∀ o, P o → getObjectIndex o = Ok (f o)).

(** The loop invariant: the index represents the objects seen so far, with
    the indexes the function returned. *)
Definition built (ix : t) (objs : Z → gset Z) : Prop :=
  represents D ix objs ∧ ∀ o i, objectToIndex ix !! o = Some i → i = f o.

Lemma build_object_spec ix objs c o :
  built ix objs → P o →
  ∃ ix', build_object getObjectIndex c ix o = Ok ix' ∧
    built ix' (upd objs c ({[o]} ∪ objs c)).
Proof.
  intros [[Hs Hf Hx] Hidx] HP. pose proof (HD o HP) as Ho. unfold build_object. rewrite Hget by done. simpl.
  eexists. split; [done|]. set (idx := match _ with Some _ => _ | None => _ end).
  assert (∀ x, idx !! x = if decide (x = o) then Some (f o) else objectToIndex ix !! x)
    as Hi.
  { intros x. unfold idx. destruct (objectToIndex ix !! o) as [i|] eqn:E.
    - destruct (decide (x = o)) as [->|]; [|done]. rewrite E. f_equal. auto.
    - rewrite lookup_insert. by repeat case_decide. }
  change (built (insert_object ix c o (f o) idx) (upd objs c ({[o]} ∪ objs c))).
  split; [split; simpl|]; simpl.
  - by apply insert_object_stores.
  - intros c' i' o'. rewrite (insert_object_filed D), Hf, Hi by done. unfold upd.
    assert (o' ∈ objs c' → o' = o → objectToIndex ix !! o' = Some (f o)) as Hsame.
    { intros Hin ->. destruct (Hx _ _ Hin) as [j Hj]. rewrite Hj. f_equal. auto. }
    destruct (decide (c' = c)) as [->|], (decide (o' = o)) as [->|]; set_solver.
  - intros c' o'. rewrite Hi. unfold upd. specialize (Hx c' o').
    destruct (decide (c' = c)) as [->|], (decide (o' = o)); set_solver.
  - intros x i. rewrite Hi. case_decide; [naive_solver|]. auto.
Qed.

Lemma build_container_spec ix objs c os :
  built ix objs → Forall P os →
  ∃ ix', build_container getObjectIndex ix (c, os) = Ok ix' ∧
    built ix' (upd objs c (list_to_set os ∪ objs c)).
Proof.
  intros Hb Hos. unfold build_container. set (ix0 := mk _ _ _).
  assert (built ix0 objs) as Hb0.
  { assert (∀ c' p, store_at ix0 c' p = store_at ix c' p) as E.
    { intros c' p. unfold store_at, ix0; simpl. rewrite lookup_insert.
      destruct (decide (c = c')) as [<-|]; [|done]. simpl.
      by destruct (containerToIndexedObjects ix !! c). }
    destruct Hb as [[[He Hs] Hf Hx] Hi].
    split; [split; [split|..]|]; simpl; [done| | |done|done].
    - intros c' p st. rewrite E. apply Hs.
    - intros c' i o. rewrite <- Hf. unfold filed. by rewrite E. }
  clearbody ix0. clear Hb ix. revert ix0 objs Hb0.
  induction Hos as [|o os Ho Hos IH]; intros ix objs Hb; simpl.
  - eexists. split; [done|]. destruct Hb as [Hr Hi]. split; [|done].
    eapply represents_ext, Hr. intros c'. unfold upd. case_decide; set_solver.
  - destruct (build_object_spec ix objs c o Hb Ho) as (ix1 & -> & H1). simpl.
    destruct (IH _ _ H1) as (ix2 & -> & H2). eexists. split; [done|].
    destruct H2 as [Hr Hi]. split; [|done]. eapply represents_ext, Hr.
    intros c'. unfold upd. repeat case_decide; set_solver.
Qed.

(** The objects listed for a container. *)
Definition objects_on (l : list (Z * list Z)) (c : Z) : gset Z :=
  list_to_set (l ≫= λ '(c', os), if decide (c' = c) then os else []).

Lemma build_represents l e :
  Forall (λ entry, Forall P entry.2) l →
  il_inv e → (∀ i o, ¬ il_mem e i o) → (∀ o, D o → il_dom e o) →
  ∃ ix, build l getObjectIndex e = Ok ix ∧ represents D ix (objects_on l) ∧
    ∀ o i, objectToIndex ix !! o = Some i → i = f o.
Proof.
  intros Hl He1 He2 He3. unfold build.
  assert (built (mk e ∅ ∅) (λ _, ∅)) as Hb.
  { split; [split; [split|..]|]; simpl; [done| | |set_solver|].
    - intros c p st. unfold store_at; simpl. by rewrite lookup_empty.
    - intros c i o. unfold filed, store_at; simpl. rewrite lookup_empty. split; [|set_solver].
      intros (st & [=] & _).
    - intros o i. by rewrite lookup_empty. }
  enough (∀ ix objs, built ix objs → ∃ ix', foldM (build_container getObjectIndex) ix l = Ok ix' ∧
    built ix' (λ c, objects_on l c ∪ objs c)) as Hgen.
  { destruct (Hgen _ _ Hb) as (ix & -> & Hr & Hi). eexists. split_and!; [done| |done].
    eapply represents_ext, Hr. set_solver. }
  clear Hb. induction Hl as [|[c os] l Hos Hl IH]; intros ix objs Hb; simpl.
  - eexists. split; [done|]. destruct Hb as [Hr Hi]. split; [|done].
    eapply represents_ext, Hr. intros c. unfold objects_on. set_solver.
  - destruct (build_container_spec ix objs c os Hb Hos) as (ix1 & E1 & H1).
    unfold build_container in E1. rewrite E1. simpl.
    destruct (IH _ _ H1) as (ix2 & -> & Hr & Hi). eexists. split; [done|].
    split; [|done]. eapply represents_ext, Hr. intros c'. unfold objects_on, upd. simpl.
    destruct (decide (c = c')) as [<-|]; [rewrite decide_True by done|rewrite decide_False by done];
      rewrite ?list_to_set_app_L; set_solver.
Qed.
End build.
End indexed.
Arguments t ObjIdx Store : clear implicits.
End IndexedAssignment.
