(* ===== verification/Assignment.v ===== *)
(** * The assignment of objects to containers

    [Assignment] of solver/utils/Assignment.cpp: the map from objects to
    containers, its inverse (all objects and dynamic objects only), and up to
    three kinds of indexes over the dynamic objects, all kept in step by
    [moveTo]. *)

From S2P Require Import Prelude AccessOrderedSet ObjectStore ChangeSet IndexedAssignment.

(** What the assignment reads of [EquivalenceSets] and of a [Partition]. *)
Record EquivalenceSetsView := {
  es_getKey : string;
  es_at : Z → result Z
}.
Record PartitionView := { getObjectIdToGroupIds : gmap Z (list Z) }.

(** A range-for loop that updates every value of a hash map. *)
Definition map_mapM {V} (f : V → result V) (m : gmap Z V) : result (gmap Z V) :=
  foldM (λ acc '(k, v), v' ← f v; Ok (<[k := v']> acc)) ∅ (map_to_list m).

Lemma map_mapM_spec {V} (f : V → result V) (Q : V → V → Prop) (m : gmap Z V) :
  (∀ k v, m !! k = Some v → ∃ v', f v = Ok v' ∧ Q v v') →
  ∃ m', map_mapM f m = Ok m' ∧
    (∀ k, m !! k = None → m' !! k = None) ∧
    ∀ k v, m !! k = Some v → ∃ v', m' !! k = Some v' ∧ Q v v'.
Proof.
  intros Hf. unfold map_mapM.
  assert (∀ (l : list (Z * V)) (acc : gmap Z V), NoDup l.*1 → (∀ k v, (k, v) ∈ l → m !! k = Some v) →
    ∃ m' : gmap Z V, foldM (λ acc '(k, v), v' ← f v; Ok (<[k := v']> acc)) acc l = Ok m' ∧
      (∀ k, k ∉ l.*1 → m' !! k = acc !! k) ∧
      ∀ k v, (k, v) ∈ l → ∃ v', m' !! k = Some v' ∧ Q v v') as Hl.
  { induction l as [|[k v] l IH]; intros acc Hnd Hin; simpl.
    - exists acc. split_and!; [done|done|set_solver].
    - apply NoDup_cons in Hnd as [Hk Hnd]. simpl in Hk.
      destruct (Hf k v) as (v' & -> & HQ); [apply Hin; set_solver|]. simpl.
      destruct (IH (<[k := v']> acc)) as (m' & E & Hn & Hs); [done|set_solver|].
      exists m'. split_and!; [done| |].
      + intros k' Hk'. rewrite Hn by set_solver. apply lookup_insert_ne. set_solver.
      + intros k1 v1 [[= -> ->]|Hin1]%elem_of_cons; [|by apply Hs].
        exists v'. split; [|done]. rewrite Hn by done. apply lookup_insert_eq. }
  destruct (Hl (map_to_list m) ∅) as (m' & E & Hn & Hs).
  - apply NoDup_fst_map_to_list.
  - intros k v. apply elem_of_map_to_list.
  - exists m'. split_and!; [done| |].
    + intros k Hk. rewrite Hn; [apply lookup_empty|].
      intros ([k' v] & -> & Hin)%list_elem_of_fmap. apply elem_of_map_to_list in Hin.
      simpl in Hk. congruence.
    + intros k v Hv. apply Hs. by apply elem_of_map_to_list.
Qed.

(** The order of the hash sets of objects. *)
Definition hash_set_order `{HashOrder} : SetOrder := mkSetOrder set_iter set_iter_perm.

Module Assignment.

Abbreviation EquivIndex := (IndexedAssignment.t Z ObjectStore.t).
Abbreviation GroupIndex := (IndexedAssignment.t Z (gset Z)).
Abbreviation EquivGroupIndex := (IndexedAssignment.t (Z * Z) (gmap Z (gset Z))).

Record t := mk {
  objectToContainer : gmap Z Z;
  containerToObjects : gmap Z ObjectStore.t;
  containerToObjectsDynamic : gmap Z ObjectStore.t;
  fixedObjects : gset Z;
  containerToEquivSetsToObjects : option EquivIndex;
  indexedEquivalenceSetsKey : string;
  partitionToPerContainerIndexByEquivSetAndGroups : gmap Z EquivGroupIndex;
  partitionToPerContainerObjectIndexByGroups : gmap Z GroupIndex;
  objectScores : option ObjectScores;
  objectStoreFactory : ObjectStore.Factory
}.

(** [getObjects(map, containerId)]: the store, created when there is none. *)
Definition store_of (f : ObjectStore.Factory) (m : gmap Z ObjectStore.t) (c : Z)
    : ObjectStore.t := default (ObjectStore.get f) (m !! c).

Definition optionM {V} (f : V → result V) (o : option V) : result (option V) :=
  match o with None => Ok None | Some v => v' ← f v; Ok (Some v') end.

(** [add] *)
Definition add (a : t) (o c : Z) : result t :=
  let f := objectStoreFactory a in
  let cto := <[c := ObjectStore.insert (store_of f (containerToObjects a) c) o]>
               (containerToObjects a) in
  if decide (o ∈ fixedObjects a) then
    Ok (mk (objectToContainer a) cto (containerToObjectsDynamic a) (fixedObjects a)
           (containerToEquivSetsToObjects a) (indexedEquivalenceSetsKey a)
           (partitionToPerContainerIndexByEquivSetAndGroups a)
           (partitionToPerContainerObjectIndexByGroups a) (objectScores a) f)
  else
    let ctod := <[c := ObjectStore.insert (store_of f (containerToObjectsDynamic a) c) o]>
                  (containerToObjectsDynamic a) in
    ei ← optionM (λ ix, IndexedAssignment.setOn ix o c) (containerToEquivSetsToObjects a);
    gi ← map_mapM (λ ix, IndexedAssignment.setOn ix o c)
           (partitionToPerContainerObjectIndexByGroups a);
    egi ← map_mapM (λ ix, IndexedAssignment.setOn ix o c)
           (partitionToPerContainerIndexByEquivSetAndGroups a);
    Ok (mk (objectToContainer a) cto ctod (fixedObjects a) ei (indexedEquivalenceSetsKey a)
           egi gi (objectScores a) f).

(** [remove] *)
Definition remove (a : t) (o c : Z) : result t :=
  let f := objectStoreFactory a in
  let cto := <[c := ObjectStore.erase (store_of f (containerToObjects a) c) o]>
               (containerToObjects a) in
  if decide (o ∈ fixedObjects a) then
    Ok (mk (objectToContainer a) cto (containerToObjectsDynamic a) (fixedObjects a)
           (containerToEquivSetsToObjects a) (indexedEquivalenceSetsKey a)
           (partitionToPerContainerIndexByEquivSetAndGroups a)
           (partitionToPerContainerObjectIndexByGroups a) (objectScores a) f)
  else
    let ctod := <[c := ObjectStore.erase (store_of f (containerToObjectsDynamic a) c) o]>
                  (containerToObjectsDynamic a) in
    ei ← optionM (λ ix, IndexedAssignment.removeFrom ix o c) (containerToEquivSetsToObjects a);
    gi ← map_mapM (λ ix, IndexedAssignment.removeFrom ix o c)
           (partitionToPerContainerObjectIndexByGroups a);
    egi ← map_mapM (λ ix, IndexedAssignment.removeFrom ix o c)
           (partitionToPerContainerIndexByEquivSetAndGroups a);
    Ok (mk (objectToContainer a) cto ctod (fixedObjects a) ei (indexedEquivalenceSetsKey a)
           egi gi (objectScores a) f).

Definition set_objectToContainer (a : t) (m : gmap Z Z) : t :=
  mk m (containerToObjects a) (containerToObjectsDynamic a) (fixedObjects a)
     (containerToEquivSetsToObjects a) (indexedEquivalenceSetsKey a)
     (partitionToPerContainerIndexByEquivSetAndGroups a)
     (partitionToPerContainerObjectIndexByGroups a) (objectScores a) (objectStoreFactory a).

(** [moveTo] *)
Definition moveTo (a : t) (o c : Z) : result t :=
  currContainerId ← at_ (objectToContainer a !! o);
  a1 ← remove a o currContainerId;
  a2 ← add a1 o c;
  Ok (set_objectToContainer a2 (<[o := c]> (objectToContainer a2))).

#[global] Arguments moveTo : simpl never.

Definition getObjects (a : t) (c : Z) : list Z :=
  default [] (ObjectStore.iter <$> containerToObjects a !! c).

Definition getDynamicObjects (a : t) (c : Z) : list Z :=
  default [] (ObjectStore.iter <$> containerToObjectsDynamic a !! c).

Definition hasContainer (a : t) (c : Z) : bool :=
  bool_decide (is_Some (containerToObjects a !! c)).

Definition hasObject (a : t) (o : Z) : bool :=
  bool_decide (is_Some (objectToContainer a !! o)).

Definition isDynamic (a : t) (o : Z) : bool :=
  hasObject a o && negb (bool_decide (o ∈ fixedObjects a)).

Definition getContainer (a : t) (o : Z) : result Z := at_ (objectToContainer a !! o).

(** [getChanges]: every object added to its container. *)
Definition getChanges `{HashOrder} (a : t) : ChangeSet.t :=
  foldl (λ cs '(o, c), ChangeSet.insert cs (addition o c)) ChangeSet.empty
    (hash_iter (objectToContainer a)).

Definition delta `{HashOrder} (a other : t) : result Z :=
  foldM (λ sum '(o, c),
    c' ← getContainer other o;
    Ok (if negb (c' =? c) then sum + 1 else sum)) 0 (hash_iter (objectToContainer a)).

(** [setContainerToObjectsMap]: the loop over the objects of one container. *)
Definition set_objects (fixed : gset Z) (c : Z)
    (st : gmap Z Z * ObjectStore.t * ObjectStore.t) (objectIds : list Z)
    : gmap Z Z * ObjectStore.t * ObjectStore.t :=
  foldl (λ '(otc, store, storeDynamic) o,
    (match otc !! o with Some _ => otc | None => <[o := c]> otc end,
     ObjectStore.insert store o,
     if decide (o ∈ fixed) then storeDynamic else ObjectStore.insert storeDynamic o))
    st objectIds.

Definition set_container (a : t) (entry : Z * list Z) : t :=
  let '(c, objectIds) := entry in
  let f := objectStoreFactory a in
  let '(otc, store, storeDynamic) :=
    set_objects (fixedObjects a) c
      (objectToContainer a, ObjectStore.get f, ObjectStore.get f) objectIds in
  let emplace m st := match m !! c with Some _ => m | None => <[c := st]> m end in
  mk otc (emplace (containerToObjects a) store)
     (emplace (containerToObjectsDynamic a) storeDynamic)
     (fixedObjects a) (containerToEquivSetsToObjects a) (indexedEquivalenceSetsKey a)
     (partitionToPerContainerIndexByEquivSetAndGroups a)
     (partitionToPerContainerObjectIndexByGroups a) (objectScores a) (objectStoreFactory a).

Definition setContainerToObjectsMap (a : t) (containerToObjects : list (Z * list Z)) : t :=
  foldl set_container
    (mk ∅ ∅ ∅ (fixedObjects a) (containerToEquivSetsToObjects a)
        (indexedEquivalenceSetsKey a) (partitionToPerContainerIndexByEquivSetAndGroups a)
        (partitionToPerContainerObjectIndexByGroups a) (objectScores a) (objectStoreFactory a))
    containerToObjects.

(** The constructor. *)
Definition make `{HashOrder} (containerToObjects : list (Z * list Z)) (scores : option ObjectScores)
    (fixedObjects : gset Z) (useDynamicObjectOrdering : bool) : t :=
  setContainerToObjectsMap
    (mk ∅ ∅ ∅ fixedObjects None "" ∅ ∅ scores
        (ObjectStore.mkFactory scores useDynamicObjectOrdering hash_set_order))
    containerToObjects.

(** ** Building and reading the indexes *)

(** [containerToObjectsDynamic_] as the constructor of an index walks it. *)
Definition dynamic_entries `{HashOrder} (a : t) : list (Z * list Z) :=
  (λ '(c, st), (c, ObjectStore.iter st)) <$> hash_iter (containerToObjectsDynamic a).

Definition set_equiv_index (a : t) (ix : EquivIndex) (key : string) : t :=
  mk (objectToContainer a) (containerToObjects a) (containerToObjectsDynamic a)
     (fixedObjects a) (Some ix) key
     (partitionToPerContainerIndexByEquivSetAndGroups a)
     (partitionToPerContainerObjectIndexByGroups a) (objectScores a) (objectStoreFactory a).

Definition set_group_index (a : t) (p : Z) (ix : GroupIndex) : t :=
  mk (objectToContainer a) (containerToObjects a) (containerToObjectsDynamic a)
     (fixedObjects a) (containerToEquivSetsToObjects a) (indexedEquivalenceSetsKey a)
     (partitionToPerContainerIndexByEquivSetAndGroups a)
     (<[p := ix]> (partitionToPerContainerObjectIndexByGroups a))
     (objectScores a) (objectStoreFactory a).

Definition set_equiv_group_index (a : t) (p : Z) (ix : EquivGroupIndex) : t :=
  mk (objectToContainer a) (containerToObjects a) (containerToObjectsDynamic a)
     (fixedObjects a) (containerToEquivSetsToObjects a) (indexedEquivalenceSetsKey a)
     (<[p := ix]> (partitionToPerContainerIndexByEquivSetAndGroups a))
     (partitionToPerContainerObjectIndexByGroups a) (objectScores a) (objectStoreFactory a).

Definition buildIndexByEquivalentSets `{HashOrder} (a : t) (es : EquivalenceSetsView)
    : result t :=
  ix ← IndexedAssignment.build (dynamic_entries a) (es_at es)
         (ObjectStore.get (ObjectStore.mkFactory (objectScores a) false hash_set_order));
  Ok (set_equiv_index a ix (es_getKey es)).

Definition isIndexedByEquivalentSets (a : t) (es : EquivalenceSetsView) : bool :=
  match containerToEquivSetsToObjects a with
  | Some _ => bool_decide (indexedEquivalenceSetsKey a = es_getKey es)
  | None => false
  end.

Definition maybeBuildAndGetObjectsIndexedByEquivSets `{HashOrder} (a : t)
    (es : EquivalenceSetsView) : result (t * EquivIndex) :=
  a' ← (if isIndexedByEquivalentSets a es then Ok a else buildIndexByEquivalentSets a es);
  ix ← at_ (containerToEquivSetsToObjects a');
  Ok (a', ix).

Definition getObjectsIndexedByEquivSets (a : t) (es : EquivalenceSetsView)
    : result EquivIndex :=
  match containerToEquivSetsToObjects a with
  | None => Throw (runtime_error "Assignment index by equivalence sets is not built yet")
  | Some ix =>
      if negb (isIndexedByEquivalentSets a es)
      then Throw (runtime_error
        "Assignment index by equivalence sets was built from sets with another key")
      else Ok ix
  end.

(** The first object of every equivalence set present on the container. *)
Definition getDistinctObjectsFromEquivSetIdx `{HashOrder} (a : t) (c : Z)
    (es : EquivalenceSetsView) : result (list Z) :=
  if decide (getDynamicObjects a c = []) then Ok []
  else
    ix ← getObjectsIndexedByEquivSets a es;
    equivSetsToObjects ← IndexedAssignment.getContainerObjects ix c;
    foldM (λ acc '(_, st),
      o ← at_ (head (ObjectStore.iter st));
      Ok (acc ++ [o])) [] (hash_iter equivSetsToObjects).

(** The only group of an object. *)
Definition only_group (p : PartitionView) (msg : string) (o : Z) : result Z :=
  groups ← at_ (getObjectIdToGroupIds p !! o);
  match groups with
  | [g] => Ok g
  | _ => Throw (runtime_error msg)
  end.

Definition buildIndexByPartition `{HashOrder} (a : t) (partition : PartitionView)
    (partitionId : Z) : result t :=
  match partitionToPerContainerObjectIndexByGroups a !! partitionId with
  | Some _ => Ok a
  | None =>
      ix ← IndexedAssignment.build (dynamic_entries a)
        (only_group partition
          "Building assignment index by partition failed: object belongs to multiple groups")
        (∅ : gset Z);
      Ok (set_group_index a partitionId ix)
  end.

Definition getObjectsIndexedByPartition (a : t) (partitionId : Z) : result GroupIndex :=
  match partitionToPerContainerObjectIndexByGroups a !! partitionId with
  | Some ix => Ok ix
  | None => Throw (runtime_error "Assignment index by partition is not built yet")
  end.

(** An index already built is erased and rebuilt. *)
Definition buildIndexByEquivalentSetsAndPartition `{HashOrder} (a : t)
    (partition : PartitionView) (es : EquivalenceSetsView) (partitionId : Z) : result t :=
  ix ← IndexedAssignment.build (dynamic_entries a)
    (λ o, g ← only_group partition
            "Building assignment index by partition + equivSets failed: object belongs to multiple groups" o;
          e ← es_at es o;
          Ok (e, g))
    (∅ : gmap Z (gset Z));
  Ok (set_equiv_group_index a partitionId ix).

Definition getObjectsIndexedByEquivSetsAndPartition (a : t) (partitionId : Z)
    : result EquivGroupIndex :=
  match partitionToPerContainerIndexByEquivSetAndGroups a !! partitionId with
  | Some ix => Ok ix
  | None => Throw (runtime_error
      "Assignment index by equivalence sets and partition is not built yet")
  end.

(** ** Invariant *)

(** The objects a map of stores holds on a container. *)
Definition objs_on (m : gmap Z ObjectStore.t) (c : Z) : gset Z :=
  default ∅ (ObjectStore.to_set <$> m !! c).

(** The objects of the problem, by what the store factory can hold. *)
Definition good (a : t) : Z → Prop := ObjectStore.factory_dom (objectStoreFactory a).

Definition stores_ok (D : Z → Prop) (m : gmap Z ObjectStore.t) : Prop :=
  ∀ c st, m !! c = Some st → ObjectStore.inv st ∧ ∀ o, D o → ObjectStore.dom_of st o.

Record inv (a : t) : Prop := {
  inv_scores : objectScores a = ObjectStore.scores (objectStoreFactory a);
  inv_good o : is_Some (objectToContainer a !! o) → good a o;
  inv_stores : stores_ok (good a) (containerToObjects a);
  inv_stores_dyn : stores_ok (good a) (containerToObjectsDynamic a);
  (** the two maps are inverse to each other *)
  inv_objects o c : objectToContainer a !! o = Some c ↔ o ∈ objs_on (containerToObjects a) c;
  (** the dynamic map leaves out exactly the fixed objects *)
  inv_dynamic c : objs_on (containerToObjectsDynamic a) c =
                  objs_on (containerToObjects a) c ∖ fixedObjects a;
  (** every index built represents the dynamic objects *)
  inv_equiv ix : containerToEquivSetsToObjects a = Some ix →
    IndexedAssignment.represents (good a) ix (objs_on (containerToObjectsDynamic a));
  inv_groups p ix : partitionToPerContainerObjectIndexByGroups a !! p = Some ix →
    IndexedAssignment.represents (good a) ix (objs_on (containerToObjectsDynamic a));
  inv_equiv_groups p ix : partitionToPerContainerIndexByEquivSetAndGroups a !! p = Some ix →
    IndexedAssignment.represents (good a) ix (objs_on (containerToObjectsDynamic a))
}.

(** *** Stores *)

Lemma store_of_spec f D m c :
  stores_ok D m → (∀ o, D o → ObjectStore.factory_dom f o) →
  ObjectStore.inv (store_of f m c) ∧ (∀ o, D o → ObjectStore.dom_of (store_of f m c) o) ∧
  ObjectStore.to_set (store_of f m c) = objs_on m c.
Proof.
  intros Hm Hf. unfold store_of, objs_on. destruct (m !! c) as [st|] eqn:E; simpl.
  - by destruct (Hm c st E).
  - destruct (ObjectStore.get_spec f) as (Hi & Hl & Hd).
    split_and!; [done|intros o ?; apply Hd; auto|].
    unfold ObjectStore.to_set. by rewrite Hl.
Qed.

Lemma objs_on_insert m c st c' :
  objs_on (<[c := st]> m) c' = IndexedAssignment.upd (objs_on m) c (ObjectStore.to_set st) c'.
Proof.
  unfold objs_on, IndexedAssignment.upd. rewrite lookup_insert.
  destruct (decide (c = c')) as [<-|]; [by rewrite decide_True by done|].
  by rewrite decide_False by done.
Qed.

Lemma stores_ok_insert D m c st :
  stores_ok D m → ObjectStore.inv st → (∀ o, D o → ObjectStore.dom_of st o) →
  stores_ok D (<[c := st]> m).
Proof.
  intros Hm Hi Hd c' st'. rewrite lookup_insert.
  case_decide; [intros [= <-]; auto|apply Hm].
Qed.

(** Inserting into or erasing from the store of one container. *)
Lemma store_insert_spec f D m c o :
  stores_ok D m → (∀ o, D o → ObjectStore.factory_dom f o) → D o →
  let m' := <[c := ObjectStore.insert (store_of f m c) o]> m in
  stores_ok D m' ∧
  ∀ c', objs_on m' c' = IndexedAssignment.upd (objs_on m) c ({[o]} ∪ objs_on m c) c'.
Proof.
  intros Hm Hf Ho. destruct (store_of_spec f D m c Hm Hf) as (Hi & Hd & Hs).
  destruct (ObjectStore.insert_spec _ o Hi (Hd o Ho)) as (Hi' & Hd' & Hs').
  split.
  - apply stores_ok_insert; [done|done|]. intros x Hx. apply Hd'. auto.
  - intros c'. by rewrite objs_on_insert, Hs', Hs.
Qed.

Lemma store_erase_spec f D m c o :
  stores_ok D m → (∀ o, D o → ObjectStore.factory_dom f o) → D o →
  let m' := <[c := ObjectStore.erase (store_of f m c) o]> m in
  stores_ok D m' ∧
  ∀ c', objs_on m' c' = IndexedAssignment.upd (objs_on m) c (objs_on m c ∖ {[o]}) c'.
Proof.
  intros Hm Hf Ho. destruct (store_of_spec f D m c Hm Hf) as (Hi & Hd & Hs).
  destruct (ObjectStore.erase_spec _ o Hi (Hd o Ho)) as (Hi' & Hd' & Hs').
  split.
  - apply stores_ok_insert; [done|done|]. intros x Hx. apply Hd'. auto.
  - intros c'. by rewrite objs_on_insert, Hs', Hs.
Qed.

(** *** Indexes *)

(** Every index knows the object. *)
Record indexed (a : t) (o : Z) : Prop := {
  indexed_equiv ix : containerToEquivSetsToObjects a = Some ix →
    is_Some (IndexedAssignment.objectToIndex ix !! o);
  indexed_groups p ix : partitionToPerContainerObjectIndexByGroups a !! p = Some ix →
    is_Some (IndexedAssignment.objectToIndex ix !! o);
  indexed_equiv_groups p ix :
    partitionToPerContainerIndexByEquivSetAndGroups a !! p = Some ix →
    is_Some (IndexedAssignment.objectToIndex ix !! o)
}.

(** Updating all the indexes of one kind: they represent the new objects and
    know the same objects as before. *)
Section index_loops.
Context {ObjIdx Store : Type} `{L : IndexLevel ObjIdx Store}.
Context (D : Z → Prop) (objs objs' : Z → gset Z) (o : Z).
Abbreviation Ix := (IndexedAssignment.t ObjIdx Store).
Context (upd : Ix → result Ix).
Context (Hupd : ∀ ix, IndexedAssignment.represents D ix objs →
  is_Some (IndexedAssignment.objectToIndex ix !! o) →
  ∃ ix', upd ix = Ok ix' ∧
    IndexedAssignment.objectToIndex ix' = IndexedAssignment.objectToIndex ix ∧
    IndexedAssignment.represents D ix' objs').

Lemma option_index_loop (oix : option Ix) :
  (∀ ix, oix = Some ix → IndexedAssignment.represents D ix objs ∧
    is_Some (IndexedAssignment.objectToIndex ix !! o)) →
  ∃ oix', optionM upd oix = Ok oix' ∧
    ∀ ix', oix' = Some ix' → IndexedAssignment.represents D ix' objs' ∧
      is_Some (IndexedAssignment.objectToIndex ix' !! o).
Proof.
  intros H. destruct oix as [ix|]; simpl; [|by exists None].
  destruct (H ix eq_refl) as [Hr Hi].
  destruct (Hupd ix Hr Hi) as (ix' & -> & E & Hr'). simpl.
  eexists. split; [done|]. intros ? [= <-]. by rewrite E.
Qed.

Lemma map_index_loop (m : gmap Z Ix) :
  (∀ p ix, m !! p = Some ix → IndexedAssignment.represents D ix objs ∧
    is_Some (IndexedAssignment.objectToIndex ix !! o)) →
  ∃ m', map_mapM upd m = Ok m' ∧
    ∀ p ix', m' !! p = Some ix' → IndexedAssignment.represents D ix' objs' ∧
      is_Some (IndexedAssignment.objectToIndex ix' !! o).
Proof.
  intros H.
  destruct (map_mapM_spec upd (λ _ ix', IndexedAssignment.represents D ix' objs' ∧
      is_Some (IndexedAssignment.objectToIndex ix' !! o)) m) as (m' & E & Hn & Hs).
  { intros p ix Hp. destruct (H p ix Hp) as [Hr Hi].
    destruct (Hupd ix Hr Hi) as (ix' & -> & E & Hr'). eexists. split; [done|]. by rewrite E. }
  exists m'. split; [done|]. intros p ix' Hp.
  destruct (m !! p) as [ix|] eqn:Hm; [|by rewrite Hn in Hp].
  destruct (Hs p ix Hm) as (ix1 & E1 & HQ). rewrite E1 in Hp. by injection Hp as <-.
Qed.
End index_loops.

(** The three kinds of index, updated one after the other. *)
Section all_indexes.
Context (D : Z → Prop) (objs objs' : Z → gset Z) (o : Z).
Abbreviation updates upd :=
  (∀ ix, IndexedAssignment.represents D ix objs →
    is_Some (IndexedAssignment.objectToIndex ix !! o) →
    ∃ ix', upd ix = Ok ix' ∧
      IndexedAssignment.objectToIndex ix' = IndexedAssignment.objectToIndex ix ∧
      IndexedAssignment.represents D ix' objs').
Context (u1 : EquivIndex → result EquivIndex) (u2 : GroupIndex → result GroupIndex)
  (u3 : EquivGroupIndex → result EquivGroupIndex).
Context (H1 : updates u1) (H2 : updates u2) (H3 : updates u3).

Lemma update_indexes (ei : option EquivIndex) (gi : gmap Z GroupIndex)
    (egi : gmap Z EquivGroupIndex) :
  (∀ ix, ei = Some ix → IndexedAssignment.represents D ix objs ∧
     is_Some (IndexedAssignment.objectToIndex ix !! o)) →
  (∀ p ix, gi !! p = Some ix → IndexedAssignment.represents D ix objs ∧
     is_Some (IndexedAssignment.objectToIndex ix !! o)) →
  (∀ p ix, egi !! p = Some ix → IndexedAssignment.represents D ix objs ∧
     is_Some (IndexedAssignment.objectToIndex ix !! o)) →
  ∃ ei' gi' egi',
    optionM u1 ei = Ok ei' ∧ map_mapM u2 gi = Ok gi' ∧ map_mapM u3 egi = Ok egi' ∧
    (∀ ix, ei' = Some ix → IndexedAssignment.represents D ix objs' ∧
       is_Some (IndexedAssignment.objectToIndex ix !! o)) ∧
    (∀ p ix, gi' !! p = Some ix → IndexedAssignment.represents D ix objs' ∧
       is_Some (IndexedAssignment.objectToIndex ix !! o)) ∧
    (∀ p ix, egi' !! p = Some ix → IndexedAssignment.represents D ix objs' ∧
       is_Some (IndexedAssignment.objectToIndex ix !! o)).
Proof.
  intros K1 K2 K3.
  destruct (option_index_loop D objs objs' o u1 H1 ei K1) as (ei' & ? & ?).
  destruct (map_index_loop D objs objs' o u2 H2 gi K2) as (gi' & ? & ?).
  destruct (map_index_loop D objs objs' o u3 H3 egi K3) as (egi' & ? & ?).
  exists ei', gi', egi'. by split_and!.
Qed.
End all_indexes.

(** *** The two halves of [moveTo]

    Between them the object is on no container: the invariant holds of the
    assignment with the object taken out of [objectToContainer]. *)

Definition without (a : t) (o : Z) : t :=
  set_objectToContainer a (delete o (objectToContainer a)).

(** The indexes of an assignment that satisfies the invariant. *)
Lemma inv_indexed a o c :
  inv a → o ∈ objs_on (containerToObjectsDynamic a) c → indexed a o.
Proof.
  intros Ha Ho. split; intros.
  - by eapply IndexedAssignment.rep_indexed, Ho; eapply inv_equiv.
  - by eapply IndexedAssignment.rep_indexed, Ho; eapply inv_groups.
  - by eapply IndexedAssignment.rep_indexed, Ho; eapply inv_equiv_groups.
Qed.

(** The dynamic objects stay the objects without the fixed ones. *)
Lemma upd_dynamic (X Y : Z → gset Z) (F : gset Z) (g : gset Z → gset Z) c c' :
  (∀ c, Y c = X c ∖ F) → (∀ s, g (s ∖ F) = g s ∖ F) →
  IndexedAssignment.upd Y c (g (Y c)) c' = IndexedAssignment.upd X c (g (X c)) c' ∖ F.
Proof. intros HY Hg. unfold IndexedAssignment.upd. case_decide; rewrite HY; auto. Qed.

Lemma upd_fixed (X Y : Z → gset Z) (F : gset Z) (g : gset Z → gset Z) c c' :
  (∀ c, Y c = X c ∖ F) → (∀ s, g s ∖ F = s ∖ F) →
  Y c' = IndexedAssignment.upd X c (g (X c)) c' ∖ F.
Proof.
  intros HY Hg. unfold IndexedAssignment.upd. rewrite HY. case_decide; subst; by rewrite ?Hg.
Qed.

(** The map from objects to containers while [o] is taken off [c]. *)
Lemma remove_objects a o c :
  inv a → objectToContainer a !! o = Some c → ∀ o' c',
  delete o (objectToContainer a) !! o' = Some c' ↔
  o' ∈ IndexedAssignment.upd (objs_on (containerToObjects a)) c
         (objs_on (containerToObjects a) c ∖ {[o]}) c'.
Proof.
  intros Ha Ho o' c'. rewrite lookup_delete. unfold IndexedAssignment.upd.
  destruct (decide (o = o')) as [<-|Hne].
  - split; [done|]. case_decide as Ec; [set_solver|].
    rewrite <- (inv_objects a Ha), Ho. congruence.
  - rewrite (inv_objects a Ha). case_decide as Ec; [subst c'|]; set_solver.
Qed.

Lemma remove_spec a o c :
  inv a → objectToContainer a !! o = Some c →
  ∃ a1, remove a o c = Ok a1 ∧
    objectToContainer a1 = objectToContainer a ∧ fixedObjects a1 = fixedObjects a ∧
    objectStoreFactory a1 = objectStoreFactory a ∧
    inv (without a1 o) ∧ (o ∉ fixedObjects a → indexed a1 o).
Proof.
  intros Ha Ho. assert (good a o) as Hg by (apply (inv_good a Ha); eauto).
  pose proof (store_erase_spec (objectStoreFactory a) (good a) _ c o (inv_stores a Ha)
    ltac:(auto) Hg) as [Hs1 Hs2].
  pose proof (proj1 (inv_objects a Ha o c) Ho) as Hoc.
  pose proof (remove_objects a o c Ha Ho) as Hobj.
  assert (∀ o', is_Some (delete o (objectToContainer a) !! o') → good a o') as Hgood.
  { intros o' [c' [_ ?]%lookup_delete_Some]. apply (inv_good a Ha); eauto. }
  unfold remove. destruct (decide (o ∈ fixedObjects a)) as [Hf|Hf].
  - eexists. split_and!; [done|done|done|done| |done].
    split; simpl; [apply Ha|done|done|apply Ha| | |apply Ha|apply Ha|apply Ha].
    + intros o' c'. by rewrite Hs2, Hobj.
    + intros c'. rewrite Hs2. apply (upd_fixed _ _ _ (.∖ {[o]})); [apply Ha|clear -Hf; set_solver].
  - pose proof (store_erase_spec (objectStoreFactory a) (good a) _ c o (inv_stores_dyn a Ha)
      ltac:(auto) Hg) as [Hd1 Hd2].
    assert (o ∈ objs_on (containerToObjectsDynamic a) c) as Hdyn
      by (rewrite (inv_dynamic a Ha); set_solver).
    pose proof (inv_indexed a o c Ha Hdyn) as [Hx1 Hx2 Hx3].
    edestruct (update_indexes (good a) (objs_on (containerToObjectsDynamic a))
      (IndexedAssignment.upd (objs_on (containerToObjectsDynamic a)) c
         (objs_on (containerToObjectsDynamic a) c ∖ {[o]})) o
      (λ ix, IndexedAssignment.removeFrom ix o c) (λ ix, IndexedAssignment.removeFrom ix o c)
      (λ ix, IndexedAssignment.removeFrom ix o c))
      as (ei & gi & egi & -> & E2 & E3 & Hei & Hgi & Hegi);
      [intros ix Hr _; by apply IndexedAssignment.removeFrom_represents..| | | |].
    { intros ix Hix. split; [by apply (inv_equiv a Ha)|eauto]. }
    { intros p ix Hix. split; [by eapply (inv_groups a Ha)|eauto]. }
    { intros p ix Hix. split; [by eapply (inv_equiv_groups a Ha)|eauto]. }
    simpl. rewrite E2; simpl. rewrite E3; simpl.
    eexists. split_and!; [done|done|done|done| |].
    + split; simpl; [apply Ha|done|done|done| | |intros ix Hix|intros p ix Hix|intros p ix Hix].
      * intros o' c'. by rewrite Hs2, Hobj.
      * intros c'. rewrite Hd2, Hs2. apply (upd_dynamic _ _ _ (.∖ {[o]})); [apply Ha|set_solver].
      * exact (IndexedAssignment.represents_ext _ _ _ _ (λ c, eq_sym (Hd2 c)) (proj1 (Hei ix Hix))).
      * exact (IndexedAssignment.represents_ext _ _ _ _ (λ c, eq_sym (Hd2 c)) (proj1 (Hgi p ix Hix))).
      * exact (IndexedAssignment.represents_ext _ _ _ _ (λ c, eq_sym (Hd2 c)) (proj1 (Hegi p ix Hix))).
    + intros _. split; simpl; [apply Hei|apply Hgi|apply Hegi].
Qed.

(** The map from objects to containers once [o] is put on [c]. *)
Lemma add_objects (otc : gmap Z Z) (X : Z → gset Z) o c :
  (∀ o' c', delete o otc !! o' = Some c' ↔ o' ∈ X c') → ∀ o' c',
  <[o := c]> otc !! o' = Some c' ↔ o' ∈ IndexedAssignment.upd X c ({[o]} ∪ X c) c'.
Proof.
  intros H o' c'. unfold IndexedAssignment.upd. rewrite lookup_insert.
  pose proof (H o' c') as Hx. rewrite lookup_delete in Hx.
  case_decide as Ho; case_decide as Hc; subst; rewrite ?elem_of_union, ?elem_of_singleton;
    split; intros; try tauto; try congruence; intuition congruence.
Qed.

Lemma add_spec a o c :
  inv (without a o) → good a o → (o ∉ fixedObjects a → indexed a o) →
  ∃ a1, add a o c = Ok a1 ∧
    objectToContainer a1 = objectToContainer a ∧ fixedObjects a1 = fixedObjects a ∧
    objectStoreFactory a1 = objectStoreFactory a ∧
    inv (set_objectToContainer a1 (<[o := c]> (objectToContainer a1))).
Proof.
  intros Ha Hg Hix.
  pose proof (store_insert_spec (objectStoreFactory a) (good a) _ c o (inv_stores _ Ha)
    ltac:(auto) Hg) as [Hs1 Hs2].
  pose proof (add_objects _ _ o c (inv_objects _ Ha)) as Hobj.
  assert (∀ o', is_Some (<[o := c]> (objectToContainer a) !! o') → good a o') as Hgood.
  { intros o' Ho'. destruct (decide (o = o')) as [<-|]; [done|].
    rewrite lookup_insert_ne in Ho' by done. apply (inv_good _ Ha). simpl.
    by rewrite lookup_delete_ne. }
  unfold add. destruct (decide (o ∈ fixedObjects a)) as [Hf|Hf].
  - eexists. split_and!; [done|done|done|done|].
    split; simpl; [apply Ha|done|done|apply Ha| | |apply Ha|apply Ha|apply Ha].
    + intros o' c'. by rewrite Hs2, Hobj.
    + intros c'. rewrite Hs2.
      apply (upd_fixed _ _ _ ({[o]} ∪.)); [apply Ha|clear -Hf; set_solver].
  - pose proof (store_insert_spec (objectStoreFactory a) (good a) _ c o (inv_stores_dyn _ Ha)
      ltac:(auto) Hg) as [Hd1 Hd2].
    destruct (Hix Hf) as [Hx1 Hx2 Hx3].
    edestruct (update_indexes (good a) (objs_on (containerToObjectsDynamic a))
      (IndexedAssignment.upd (objs_on (containerToObjectsDynamic a)) c
         ({[o]} ∪ objs_on (containerToObjectsDynamic a) c)) o
      (λ ix, IndexedAssignment.setOn ix o c) (λ ix, IndexedAssignment.setOn ix o c)
      (λ ix, IndexedAssignment.setOn ix o c))
      as (ei & gi & egi & E1 & E2 & E3 & Hei & Hgi & Hegi);
      [intros ix Hr Hi; by apply IndexedAssignment.setOn_represents..| | | |].
    { intros ix Hi. split; [by apply (inv_equiv _ Ha)|eauto]. }
    { intros p ix Hi. split; [by eapply (inv_groups _ Ha)|eauto]. }
    { intros p ix Hi. split; [by eapply (inv_equiv_groups _ Ha)|eauto]. }
    simpl in E1, E2, E3. rewrite E1; simpl. rewrite E2; simpl. rewrite E3; simpl.
    eexists. split_and!; [done|done|done|done|].
    split; simpl; [apply Ha|done|done|done| | |intros ix Hi|intros p ix Hi|intros p ix Hi].
    + intros o' c'. by rewrite Hs2, Hobj.
    + intros c'. rewrite Hd2, Hs2.
      apply (upd_dynamic _ _ _ ({[o]} ∪.)); [apply Ha|clear -Hf; set_solver].
    + exact (IndexedAssignment.represents_ext _ _ _ _ (λ c, eq_sym (Hd2 c)) (proj1 (Hei ix Hi))).
    + exact (IndexedAssignment.represents_ext _ _ _ _ (λ c, eq_sym (Hd2 c)) (proj1 (Hgi p ix Hi))).
    + exact (IndexedAssignment.represents_ext _ _ _ _ (λ c, eq_sym (Hd2 c)) (proj1 (Hegi p ix Hi))).
Qed.

(** What [moveTo] leaves alone. *)
Definition same_problem (a a' : t) : Prop :=
  fixedObjects a' = fixedObjects a ∧ objectStoreFactory a' = objectStoreFactory a.

Lemma moveTo_spec a o c :
  inv a → is_Some (objectToContainer a !! o) →
  ∃ a', moveTo a o c = Ok a' ∧ inv a' ∧ same_problem a a' ∧
    objectToContainer a' = <[o := c]> (objectToContainer a).
Proof.
  intros Ha [c0 Ho]. unfold moveTo. rewrite Ho; simpl.
  destruct (remove_spec a o c0 Ha Ho) as (a1 & -> & E1 & E2 & E3 & H1 & Hix); simpl.
  assert (good a1 o) as Hg.
  { unfold good. rewrite E3. apply (inv_good a Ha). eauto. }
  destruct (add_spec a1 o c H1 Hg) as (a2 & -> & F1 & F2 & F3 & H2); simpl.
  { by rewrite E2. }
  eexists. split_and!; [done|done| |simpl; congruence].
  split; simpl; congruence.
Qed.

(** An object that is somewhere is on a container that exists. *)
Lemma inv_container a o c :
  inv a → objectToContainer a !! o = Some c → c ∈ dom (containerToObjects a).
Proof.
  intros Ha Ho. apply (inv_objects a Ha) in Ho. unfold objs_on in Ho. apply elem_of_dom.
  destruct (containerToObjects a !! c); [eauto|set_solver].
Qed.

(** [moveTo] creates at most the entry of the destination. *)
Lemma moveTo_containers a o c a' :
  inv a → moveTo a o c = Ok a' →
  dom (containerToObjects a') ⊆ {[c]} ∪ dom (containerToObjects a).
Proof.
  intros Ha. unfold moveTo. intros E. result_inv.
  match goal with H : objectToContainer a !! o = Some ?c0 |- _ => rename H into Ho, c0 into cur end.
  pose proof (inv_container a o cur Ha Ho) as Hcur.
  repeat match goal with
  | H : remove _ _ _ = Ok _ |- _ => unfold remove in H
  | H : add _ _ _ = Ok _ |- _ => unfold add in H
  end.
  repeat case_decide; result_inv; rewrite ?dom_insert_L; set_solver.
Qed.

Lemma moveTo_unknown a o c :
  objectToContainer a !! o = None → moveTo a o c = Throw out_of_range.
Proof. intros H. unfold moveTo. by rewrite H. Qed.

(** The containers' contents are determined by the object map. *)
Lemma inv_same_objects a b c :
  inv a → inv b → objectToContainer a = objectToContainer b →
  objs_on (containerToObjects a) c = objs_on (containerToObjects b) c.
Proof.
  intros Ha Hb E. apply set_eq. intros o.
  by rewrite <- (inv_objects a Ha), <- (inv_objects b Hb), E.
Qed.

(** [getObjects] lists the objects of the container, each once. *)
Lemma elem_of_getObjects a o c :
  inv a → o ∈ getObjects a c ↔ objectToContainer a !! o = Some c.
Proof.
  intros Ha. rewrite (inv_objects a Ha). unfold getObjects, objs_on, ObjectStore.to_set.
  destruct (containerToObjects a !! c); simpl; [by rewrite elem_of_list_to_set|set_solver].
Qed.

Lemma elem_of_getDynamicObjects a o c :
  inv a → o ∈ getDynamicObjects a c ↔
          objectToContainer a !! o = Some c ∧ o ∉ fixedObjects a.
Proof.
  intros Ha. rewrite (inv_objects a Ha), <- elem_of_difference, <- (inv_dynamic a Ha).
  unfold getDynamicObjects, objs_on, ObjectStore.to_set.
  destruct (containerToObjectsDynamic a !! c); simpl; [by rewrite elem_of_list_to_set|set_solver].
Qed.

(** ** The constructor *)

Lemma set_objects_spec F D c os : ∀ otc st sd,
  NoDup os → (∀ o, o ∈ os → otc !! o = None ∧ D o) →
  ObjectStore.inv st → (∀ o, D o → ObjectStore.dom_of st o) →
  ObjectStore.inv sd → (∀ o, D o → ObjectStore.dom_of sd o) →
  ∃ otc' st' sd', set_objects F c (otc, st, sd) os = (otc', st', sd') ∧
    (∀ o, otc' !! o = if decide (o ∈ os) then Some c else otc !! o) ∧
    ObjectStore.inv st' ∧ (∀ o, D o → ObjectStore.dom_of st' o) ∧
    ObjectStore.inv sd' ∧ (∀ o, D o → ObjectStore.dom_of sd' o) ∧
    ObjectStore.to_set st' = list_to_set os ∪ ObjectStore.to_set st ∧
    ObjectStore.to_set sd' = (list_to_set os ∖ F) ∪ ObjectStore.to_set sd.
Proof.
  induction os as [|o os IH]; intros otc st sd Hnd Hos Hi Hd Hi' Hd'; simpl.
  - exists otc, st, sd. split_and!; try done; set_solver.
  - apply NoDup_cons in Hnd as [Hni Hnd]. destruct (Hos o) as [Ho HD]; [set_solver|].
    unfold set_objects; simpl; rewrite Ho.
    destruct (ObjectStore.insert_spec st o Hi (Hd o HD)) as (J1 & J2 & J3).
    set (sd1 := if decide (o ∈ F) then sd else ObjectStore.insert sd o).
    assert (ObjectStore.inv sd1 ∧ (∀ x, D x → ObjectStore.dom_of sd1 x) ∧
      ObjectStore.to_set sd1 = ({[o]} ∖ F) ∪ ObjectStore.to_set sd) as (K1 & K2 & K3).
    { unfold sd1. case_decide; [split_and!; [done|done|set_solver]|].
      destruct (ObjectStore.insert_spec sd o Hi' (Hd' o HD)) as (K1 & K2 & K3).
      split_and!; [done|intros x Hx; apply K2; auto|rewrite K3; set_solver]. }
    destruct (IH (<[o := c]> otc) (ObjectStore.insert st o) sd1)
      as (otc' & st' & sd' & E & M & Q1 & Q2 & Q3 & Q4 & Q5 & Q6);
      [done| |done|intros x Hx; apply J2; auto|done|done|].
    { intros x Hx. rewrite lookup_insert_ne by (intros ->; done). apply Hos. set_solver. }
    exists otc', st', sd'. split_and!; [exact E| |done|done|done|done| |].
    + intros x. rewrite M, lookup_insert.
      destruct (decide (o = x)) as [<-|Hx]; [rewrite (decide_True (P := o ∈ o :: os)) by set_solver;
        by case_decide|]. apply decide_ext. rewrite elem_of_cons. naive_solver.
    + rewrite Q5, J3. set_solver.
    + rewrite Q6, K3. set_solver.
Qed.

(** The constructor runs before any index is built. *)
Definition no_index (a : t) : Prop :=
  containerToEquivSetsToObjects a = None ∧
  partitionToPerContainerIndexByEquivSetAndGroups a = ∅ ∧
  partitionToPerContainerObjectIndexByGroups a = ∅.

Lemma set_container_spec a c os :
  inv a → no_index a → containerToObjects a !! c = None →
  containerToObjectsDynamic a !! c = None →
  NoDup os → (∀ o, o ∈ os → objectToContainer a !! o = None ∧ good a o) →
  let a' := set_container a (c, os) in
  inv a' ∧ no_index a' ∧ same_problem a a' ∧
  (∀ o, objectToContainer a' !! o =
        if decide (o ∈ os) then Some c else objectToContainer a !! o) ∧
  ∀ c', c' ≠ c → containerToObjects a' !! c' = containerToObjects a !! c' ∧
                 containerToObjectsDynamic a' !! c' = containerToObjectsDynamic a !! c'.
Proof.
  intros Ha (N1 & N2 & N3) Hc Hc' Hnd Hos a'.
  destruct (ObjectStore.get_spec (objectStoreFactory a)) as (G1 & G2 & G3).
  destruct (set_objects_spec (fixedObjects a) (good a) c os (objectToContainer a)
    (ObjectStore.get (objectStoreFactory a)) (ObjectStore.get (objectStoreFactory a)))
    as (otc & st & sd & E & M & Q1 & Q2 & Q3 & Q4 & Q5 & Q6);
    [done|done|done|intros; by apply G3|done|intros; by apply G3|].
  assert (ObjectStore.to_set (ObjectStore.get (objectStoreFactory a)) = ∅) as Hem
    by (unfold ObjectStore.to_set; by rewrite G2).
  rewrite Hem, union_empty_r_L in Q5, Q6.
  assert (objs_on (containerToObjects a) c = ∅) as He by (unfold objs_on; by rewrite Hc).
  assert (a' = mk otc (<[c := st]> (containerToObjects a))
    (<[c := sd]> (containerToObjectsDynamic a)) (fixedObjects a) None
    (indexedEquivalenceSetsKey a) ∅ ∅ (objectScores a) (objectStoreFactory a)) as ->.
  { unfold a', set_container. by rewrite E, Hc, Hc', N1, N2, N3. }
  clear E. split_and!; [|done|done|done|].
  - split; simpl; [apply Ha| | | | | |done| |].
    + intros o. rewrite M. case_decide; [intros _; by apply Hos|apply Ha].
    + by apply stores_ok_insert; [apply Ha|..].
    + by apply stores_ok_insert; [apply Ha|..].
    + intros o c'. rewrite M, objs_on_insert. unfold IndexedAssignment.upd.
      case_decide as Ho; case_decide as Hcc; subst; rewrite ?Q5, ?elem_of_list_to_set.
      * done.
      * split; [congruence|]. rewrite <- (inv_objects a Ha), (proj1 (Hos o Ho)). done.
      * rewrite (inv_objects a Ha), He. set_solver.
      * apply Ha.
    + intros c'. rewrite !objs_on_insert. unfold IndexedAssignment.upd.
      case_decide; [by rewrite Q5, Q6|apply Ha].
    + intros p ix. by rewrite lookup_empty.
    + intros p ix. by rewrite lookup_empty.
  - intros c' Hne. simpl. by rewrite !lookup_insert_ne by done.
Qed.

(** The pairs of container and object a listing holds. *)
Definition listed (l : list (Z * list Z)) : list Z := l ≫= snd.

Lemma set_containers_spec l : ∀ a,
  inv a → no_index a → NoDup l.*1 → NoDup (listed l) →
  (∀ c, c ∈ l.*1 → containerToObjects a !! c = None ∧ containerToObjectsDynamic a !! c = None) →
  (∀ o, o ∈ listed l → objectToContainer a !! o = None ∧ good a o) →
  let a' := foldl set_container a l in
  inv a' ∧ no_index a' ∧ same_problem a a' ∧
  ∀ o c, objectToContainer a' !! o = Some c ↔
    objectToContainer a !! o = Some c ∨ ∃ os, (c, os) ∈ l ∧ o ∈ os.
Proof.
  induction l as [|[c os] l IH]; intros a Ha Hn Hnd Hnl Hc Ho; simpl.
  - split_and!; [done|done|done|]. intros o c. set_solver.
  - unfold listed in Hnl, Ho; simpl in Hnl, Ho, Hnd, Hc. apply NoDup_cons in Hnd as [Hci Hnd].
    apply NoDup_app in Hnl as (Hno & Hdis & Hnl).
    assert (∀ o, o ∈ os → objectToContainer a !! o = None ∧ good a o) as Hos
      by (intros; apply Ho, elem_of_app; auto).
    destruct (set_container_spec a c os) as (A1 & A2 & [A3 A4] & A5 & A6);
      [done|done|apply Hc, elem_of_cons; auto|apply Hc, elem_of_cons; auto|done|done|].
    destruct (IH (set_container a (c, os))) as (B1 & B2 & [B3 B4] & B5);
      [done|done|done|done| | |].
    + intros c' Hc'. destruct (A6 c') as [-> ->]; [by intros ->|]. apply Hc, elem_of_cons; auto.
    + intros o Hol. rewrite A5, decide_False by (intros ?; by eapply Hdis).
      unfold good. rewrite A4. apply Ho, elem_of_app; auto.
    + split_and!; [done|done|by split; (etrans; [eassumption|])|]. intros o c'.
      rewrite B5, A5. clear -Hos. setoid_rewrite elem_of_cons. case_decide as H.
      * rewrite (proj1 (Hos o H)). naive_solver.
      * naive_solver.
Qed.

(** A problem lists every container and every object once. *)
Lemma make_inv `{HashOrder} l scores F dyn :
  NoDup l.*1 → NoDup (listed l) →
  (∀ o sc, o ∈ listed l → scores = Some sc → scored sc o) →
  let a := make l scores F dyn in
  inv a ∧ fixedObjects a = F ∧
  ∀ o c, objectToContainer a !! o = Some c ↔ ∃ os, (c, os) ∈ l ∧ o ∈ os.
Proof.
  intros Hnd Hnl Hsc a. unfold a, make, setContainerToObjectsMap. simpl.
  set (a0 := mk _ _ _ _ _ _ _ _ _ _).
  assert (inv a0) as H0.
  { split; simpl; try done; intros *; unfold objs_on; rewrite ?lookup_empty; simpl;
      try set_solver; try (by intros [? [=]]); done. }
  destruct (set_containers_spec l a0) as (H1 & _ & [H2 _] & H3); try done.
  - intros o Ho. split; [done|].
    unfold good, ObjectStore.factory_dom; simpl. destruct scores; [by apply Hsc|done].
  - split_and!; [done|done|]. intros o c. rewrite H3. simpl. naive_solver.
Qed.

(** ** Building the indexes *)

Definition is_dynamic (a : t) (o : Z) : Prop :=
  is_Some (objectToContainer a !! o) ∧ o ∉ fixedObjects a.

Lemma dynamic_entries_spec `{HashOrder} a c :
  IndexedAssignment.objects_on (dynamic_entries a) c = objs_on (containerToObjectsDynamic a) c.
Proof.
  apply set_eq. intros o. unfold IndexedAssignment.objects_on, dynamic_entries, objs_on.
  rewrite elem_of_list_to_set, list_elem_of_bind. split.
  - intros ([c' os] & Hos & Hin). apply list_elem_of_fmap in Hin as ([c1 st] & [= -> ->] & Hin).
    case_decide; [subst c1|set_solver]. rewrite hash_iter_perm in Hin.
    apply elem_of_map_to_list in Hin. rewrite Hin. by apply elem_of_list_to_set.
  - destruct (containerToObjectsDynamic a !! c) as [st|] eqn:E; [simpl|set_solver].
    intros Ho%elem_of_list_to_set. exists (c, ObjectStore.iter st).
    rewrite decide_True by done. split; [done|]. apply list_elem_of_fmap.
    exists (c, st). split; [done|]. rewrite hash_iter_perm. by apply elem_of_map_to_list.
Qed.

Section build_index.
Context {ObjIdx Store : Type} `{L : IndexLevel ObjIdx Store} `{HashOrder}.
Context (a : t) (getObjectIndex : Z → result ObjIdx) (f : Z → ObjIdx) (e : Store).
Context (Ha : inv a).
Context (Hget : ∀ o, is_dynamic a o → getObjectIndex o = Ok (f o)).
Context (He1 : il_inv e) (He2 : ∀ i o, ¬ il_mem e i o) (He3 : ∀ o, good a o → il_dom e o).

Lemma build_dynamic :
  ∃ ix, IndexedAssignment.build (dynamic_entries a) getObjectIndex e = Ok ix ∧
    IndexedAssignment.represents (good a) ix (objs_on (containerToObjectsDynamic a)) ∧
    ∀ o i, IndexedAssignment.objectToIndex ix !! o = Some i → i = f o.
Proof.
  destruct (IndexedAssignment.build_represents (good a) (is_dynamic a) getObjectIndex f)
    with (l := dynamic_entries a) (e := e) as (ix & E & Hr & Hi); try done.
  - intros o [Ho _]. by apply (inv_good a Ha).
  - apply Forall_forall. intros [c os] Hin. apply Forall_forall. intros o Ho. simpl in Ho.
    assert (o ∈ objs_on (containerToObjectsDynamic a) c) as Hc.
    { rewrite <- dynamic_entries_spec. unfold IndexedAssignment.objects_on.
      rewrite elem_of_list_to_set, list_elem_of_bind. exists (c, os).
      by rewrite decide_True. }
    rewrite (inv_dynamic a Ha), elem_of_difference, <- (inv_objects a Ha) in Hc.
    destruct Hc. split; [by eexists|done].
  - exists ix. split_and!; [done| |done].
    eapply IndexedAssignment.represents_ext, Hr. apply dynamic_entries_spec.
Qed.
End build_index.

Lemma buildIndexByEquivalentSets_spec `{HashOrder} a es f :
  inv a → (∀ o, is_dynamic a o → es_at es o = Ok (f o)) →
  ∃ ix, buildIndexByEquivalentSets a es = Ok (set_equiv_index a ix (es_getKey es)) ∧
    inv (set_equiv_index a ix (es_getKey es)) ∧
    ∀ o i, IndexedAssignment.objectToIndex ix !! o = Some i → i = f o.
Proof.
  intros Ha Hget. unfold buildIndexByEquivalentSets.
  set (fac := ObjectStore.mkFactory (objectScores a) false hash_set_order).
  destruct (ObjectStore.get_spec fac) as (G1 & G2 & G3).
  destruct (build_dynamic a (es_at es) f (ObjectStore.get fac) Ha Hget)
    as (ix & E & Hr & Hi); [done| | |].
  - intros i o. change (o ∉ ObjectStore.to_set (ObjectStore.get fac)).
    unfold ObjectStore.to_set. rewrite G2. set_solver.
  - intros o Ho. apply G3. unfold good, ObjectStore.factory_dom in *. simpl.
    by rewrite (inv_scores a Ha).
  - rewrite E. simpl. exists ix. split_and!; [done| |done].
    split; simpl; try apply Ha. intros ? [= <-]. done.
Qed.

(** Moving objects keeps the index by equivalence sets. *)
Lemma optionM_Some {V} (f : V → result V) o o' : optionM f o = Ok o' → is_Some o' ↔ is_Some o.
Proof.
  destruct o as [v|]; simpl; [|by intros [= <-]]. destruct (f v) as [v'|]; [|done]. simpl.
  intros [= <-]. by split; eexists.
Qed.

Lemma indexed_same a a' es : (is_Some (containerToEquivSetsToObjects a') ↔ is_Some (containerToEquivSetsToObjects a)) →
  indexedEquivalenceSetsKey a' = indexedEquivalenceSetsKey a →
  isIndexedByEquivalentSets a' es = isIndexedByEquivalentSets a es.
Proof.
  unfold isIndexedByEquivalentSets. intros Hs ->.
  destruct (containerToEquivSetsToObjects a) as [x|], (containerToEquivSetsToObjects a') as [y|]; try done.
  - destruct (proj2 Hs) as [? [=]]. by eexists.
  - destruct (proj1 Hs) as [? [=]]. by eexists.
Qed.

Lemma add_indexed a o c a' es : add a o c = Ok a' →
  isIndexedByEquivalentSets a' es = isIndexedByEquivalentSets a es.
Proof.
  unfold add. case_decide; [by intros [= <-]|]. intros (ei & Ei & H')%bind_Ok.
  apply bind_Ok in H' as (gi & _ & H'). apply bind_Ok in H' as (egi & _ & [= <-]).
  apply indexed_same; [|done]. by apply optionM_Some in Ei.
Qed.

Lemma remove_indexed a o c a' es : remove a o c = Ok a' →
  isIndexedByEquivalentSets a' es = isIndexedByEquivalentSets a es.
Proof.
  unfold remove. case_decide; [by intros [= <-]|]. intros (ei & Ei & H')%bind_Ok.
  apply bind_Ok in H' as (gi & _ & H'). apply bind_Ok in H' as (egi & _ & [= <-]).
  apply indexed_same; [|done]. by apply optionM_Some in Ei.
Qed.

Lemma moveTo_indexed a o c a' es : moveTo a o c = Ok a' →
  isIndexedByEquivalentSets a' es = isIndexedByEquivalentSets a es.
Proof.
  unfold moveTo. intros (c0 & _ & H')%bind_Ok. apply bind_Ok in H' as (a1 & E1 & H').
  apply bind_Ok in H' as (a2 & E2 & [= <-]).
  rewrite <-(remove_indexed a o c0 a1 es E1), <-(add_indexed a1 o c a2 es E2). done.
Qed.

Lemma maybeBuild_spec `{HashOrder} a es f :
  inv a → (∀ o, is_dynamic a o → es_at es o = Ok (f o)) →
  ∃ a' ix, maybeBuildAndGetObjectsIndexedByEquivSets a es = Ok (a', ix) ∧ inv a' ∧
    objectToContainer a' = objectToContainer a ∧ containerToObjects a' = containerToObjects a ∧
    containerToEquivSetsToObjects a' = Some ix ∧ isIndexedByEquivalentSets a' es = true.
Proof.
  intros Ha Hf. unfold maybeBuildAndGetObjectsIndexedByEquivSets.
  destruct (isIndexedByEquivalentSets a es) eqn:E.
  - simpl. destruct (containerToEquivSetsToObjects a) as [ix|] eqn:Eix; simpl.
    + by exists a, ix.
    + unfold isIndexedByEquivalentSets in E. by rewrite Eix in E.
  - destruct (buildIndexByEquivalentSets_spec a es f Ha Hf) as (ix & -> & Hi & _). simpl.
    eexists _, ix. split_and!; [done|done|done|done|done|].
    unfold isIndexedByEquivalentSets; simpl. by apply bool_decide_eq_true_2.
Qed.

Lemma buildIndexByPartition_spec `{HashOrder} a partition p f :
  inv a → partitionToPerContainerObjectIndexByGroups a !! p = None →
  (∀ o, is_dynamic a o → getObjectIdToGroupIds partition !! o = Some [f o]) →
  ∃ ix, buildIndexByPartition a partition p = Ok (set_group_index a p ix) ∧
    inv (set_group_index a p ix) ∧
    ∀ o i, IndexedAssignment.objectToIndex ix !! o = Some i → i = f o.
Proof.
  intros Ha Hp Hget. unfold buildIndexByPartition. rewrite Hp.
  match goal with |- context [IndexedAssignment.build _ ?g ?e] =>
    destruct (build_dynamic a g f e Ha) as (ix & E & Hr & Hi); simpl; try done end.
  - intros o Ho. unfold only_group. by rewrite (Hget o Ho).
  - rewrite E. simpl. exists ix. split_and!; [done| |done].
    split; simpl; try apply Ha. intros p' ix'. rewrite lookup_insert.
    case_decide; [intros [= <-]; done|apply Ha].
Qed.

Lemma buildIndexByEquivalentSetsAndPartition_spec `{HashOrder} a partition es p f g :
  inv a → (∀ o, is_dynamic a o → es_at es o = Ok (f o)) →
  (∀ o, is_dynamic a o → getObjectIdToGroupIds partition !! o = Some [g o]) →
  ∃ ix, buildIndexByEquivalentSetsAndPartition a partition es p =
          Ok (set_equiv_group_index a p ix) ∧
    inv (set_equiv_group_index a p ix) ∧
    ∀ o i, IndexedAssignment.objectToIndex ix !! o = Some i → i = (f o, g o).
Proof.
  intros Ha Hf Hg. unfold buildIndexByEquivalentSetsAndPartition.
  match goal with |- context [IndexedAssignment.build _ ?h ?e] =>
    destruct (build_dynamic a h (λ o, (f o, g o)) e Ha) as (ix & E & Hr & Hi); simpl end.
  - intros o Ho. unfold only_group. rewrite (Hg o Ho). simpl. by rewrite (Hf o Ho).
  - intros k s. by rewrite lookup_empty.
  - intros i o (s & Hs & _). by rewrite lookup_empty in Hs.
  - done.
  - rewrite E. simpl. exists ix. split_and!; [done| |done].
    split; simpl; try apply Ha. intros p' ix'. rewrite lookup_insert.
    case_decide; [intros [= <-]; done|apply Ha].
Qed.

(** ** One object per equivalence set *)

Lemma distinct_loop (l : list (Z * ObjectStore.t)) (acc : list Z) :
  Forall (λ '(_, st), ∃ o, head (ObjectStore.iter st) = Some o) l →
  ∃ os, foldM (λ acc '(_, st), o ← at_ (head (ObjectStore.iter st)); Ok (acc ++ [o])) acc l
          = Ok (acc ++ os) ∧
    Forall2 (λ '(_, st) o, head (ObjectStore.iter st) = Some o) l os.
Proof.
  intros Hl. revert acc. induction Hl as [|[p st] l [o Ho] Hl IH]; intros acc; simpl.
  - exists []. by rewrite app_nil_r.
  - rewrite Ho; simpl. destruct (IH (acc ++ [o])) as (os & -> & H2).
    exists (o :: os). split; [by rewrite <- app_assoc|by constructor].
Qed.

(** The heads of the stores of one container: one object per key. *)
Lemma distinct_of_stores `{HashOrder} (m : gmap Z ObjectStore.t) (os : list Z)
    (idx : Z → option Z) :
  (∀ p st o, m !! p = Some st → o ∈ ObjectStore.iter st → idx o = Some p) →
  Forall2 (λ '(_, st) o, head (ObjectStore.iter st) = Some o) (hash_iter m) os →
  idx <$> os = Some <$> (hash_iter m).*1 ∧
  (∀ o, o ∈ os → ∃ p st, m !! p = Some st ∧ o ∈ ObjectStore.iter st) ∧
  ∀ p st, m !! p = Some st → ∃ o, o ∈ os ∧ o ∈ ObjectStore.iter st.
Proof.
  intros Hidx H2.
  assert (∀ p st, (p, st) ∈ hash_iter m ↔ m !! p = Some st) as Hin.
  { intros p st. by rewrite hash_iter_perm, elem_of_map_to_list. }
  assert (∀ st o, head (ObjectStore.iter st) = Some o → o ∈ ObjectStore.iter st) as Hhd.
  { intros st o. destruct (ObjectStore.iter st); [done|]. intros [= ->]. set_solver. }
  split_and!.
  - assert (∀ p st, (p, st) ∈ hash_iter m → m !! p = Some st) as Hin1 by naive_solver.
    clear Hin. revert Hin1. induction H2 as [|[p st] o l os Ho H2 IH]; intros Hin; simpl; [done|].
    f_equal; [|apply IH; intros; apply Hin; set_solver].
    apply (Hidx p st); [apply Hin, elem_of_cons; auto|by apply Hhd].
  - intros o Ho. apply list_elem_of_lookup in Ho as [k Hk].
    destruct (Forall2_lookup_r _ _ _ _ _ H2 Hk) as ([p st] & Hk' & Ho).
    exists p, st. split; [|by apply Hhd]. by apply Hin, list_elem_of_lookup_2 with k.
  - intros p st Hp. apply Hin, list_elem_of_lookup in Hp as [k Hk].
    destruct (Forall2_lookup_l _ _ _ _ _ H2 Hk) as (o & Hk' & Ho).
    exists o. split; [by eapply list_elem_of_lookup_2|by apply Hhd].
Qed.

(** The stores an index keeps for a container with dynamic objects. *)
Lemma index_stores a c ix :
  inv a → containerToEquivSetsToObjects a = Some ix → getDynamicObjects a c ≠ [] →
  ∃ m, IndexedAssignment.containerToIndexedObjects ix !! c = Some m ∧
    (∀ p st, m !! p = Some st → ∃ o, head (ObjectStore.iter st) = Some o) ∧
    ∀ p o, (∃ st, m !! p = Some st ∧ o ∈ ObjectStore.iter st) ↔
      o ∈ getDynamicObjects a c ∧ IndexedAssignment.objectToIndex ix !! o = Some p.
Proof.
  intros Ha Hix Hne.
  assert (∀ o, o ∈ getDynamicObjects a c ↔ o ∈ objs_on (containerToObjectsDynamic a) c) as Hdyn.
  { intros o. by rewrite elem_of_getDynamicObjects, (inv_dynamic a Ha), elem_of_difference,
      <- (inv_objects a Ha). }
  destruct (inv_equiv a Ha ix Hix) as [[_ Hs] Hf Hi].
  assert (∃ m, IndexedAssignment.containerToIndexedObjects ix !! c = Some m) as [m Hm].
  { destruct (getDynamicObjects a c) as [|o l] eqn:E; [done|].
    assert (o ∈ objs_on (containerToObjectsDynamic a) c) as Ho by (apply Hdyn; set_solver).
    destruct (Hi c o Ho) as [i Hoi]. destruct (proj2 (Hf c i o)) as (st & Hst & _); [done|].
    unfold IndexedAssignment.store_at in Hst.
    destruct (IndexedAssignment.containerToIndexedObjects ix !! c); [eauto|done]. }
  exists m. split_and!; [done| |].
  - intros p st Hp. destruct (Hs c p st) as (Hinv & He & _).
    { unfold IndexedAssignment.store_at. by rewrite Hm. }
    destruct (ObjectStore.iter st) as [|o l] eqn:E; [|by exists o].
    simpl in He. unfold ObjectStore.empty in He. rewrite ObjectStore.size_spec in He by done.
    unfold ObjectStore.to_set in He. by rewrite E in He.
  - intros p o. rewrite Hdyn, <- Hf. unfold IndexedAssignment.filed, IndexedAssignment.store_at.
    rewrite Hm. simpl. unfold ObjectStore.to_set. by setoid_rewrite elem_of_list_to_set.
Qed.

Lemma getDistinctObjects_spec `{HashOrder} a c es ix :
  inv a → containerToEquivSetsToObjects a = Some ix →
  indexedEquivalenceSetsKey a = es_getKey es →
  ∃ os, getDistinctObjectsFromEquivSetIdx a c es = Ok os ∧
    (∀ o, o ∈ os → o ∈ getDynamicObjects a c) ∧
    (∀ o, o ∈ getDynamicObjects a c → ∃ o', o' ∈ os ∧
       IndexedAssignment.objectToIndex ix !! o' = IndexedAssignment.objectToIndex ix !! o) ∧
    NoDup ((λ o, IndexedAssignment.objectToIndex ix !! o) <$> os).
Proof.
  intros Ha Hix Hkey. unfold getDistinctObjectsFromEquivSetIdx.
  case_decide as Hempty; [exists []; rewrite Hempty; split_and!;
    [done|set_solver|set_solver|constructor]|].
  unfold getObjectsIndexedByEquivSets, isIndexedByEquivalentSets.
  rewrite Hix, bool_decide_eq_true_2 by done. simpl.
  destruct (index_stores a c ix Ha Hix Hempty) as (m & Hm & Hhead & Hfiled).
  unfold IndexedAssignment.getContainerObjects. rewrite Hm. simpl.
  destruct (distinct_loop (hash_iter m) []) as (os & -> & H2).
  { apply Forall_forall. intros [p st] Hin. rewrite hash_iter_perm in Hin.
    by eapply Hhead, elem_of_map_to_list. }
  destruct (distinct_of_stores m os (λ o, IndexedAssignment.objectToIndex ix !! o))
    as (E & Hin & Hall); [|done|].
  { intros p st o Hp Ho. by destruct (proj1 (Hfiled p o)); [eauto|]. }
  exists os. split_and!; [done| | |].
  - intros o Ho. destruct (Hin o Ho) as (p & st & Hp & Hst).
    by destruct (proj1 (Hfiled p o)); [eauto|].
  - intros o Ho.
    assert (is_Some (IndexedAssignment.objectToIndex ix !! o)) as [p Hp].
    { eapply (IndexedAssignment.rep_indexed _ _ _ (inv_equiv a Ha ix Hix) c).
      rewrite (inv_dynamic a Ha), elem_of_difference, <- (inv_objects a Ha).
      by apply elem_of_getDynamicObjects. }
    destruct (proj2 (Hfiled p o)) as (st & Hst & _); [done|].
    destruct (Hall p st Hst) as (o' & Ho' & Hst'). exists o'. split; [done|].
    rewrite Hp. by destruct (proj1 (Hfiled p o')); [eauto|].
  - rewrite E. apply NoDup_fmap_2; [intros ?? [=]; done|].
    rewrite hash_iter_perm. apply NoDup_fst_map_to_list.
Qed.
(** ** Refinement of a map

    The operations that change an assignment, moves and the three ways to build an
    index, against what they mean: a map from objects to containers, and which
    indexes there are. *)

(** What the functions of the indexes are is kept by moves. *)
Record same_indexes (a a' : t) : Prop := {
  si_key : indexedEquivalenceSetsKey a' = indexedEquivalenceSetsKey a;
  si_equiv : IndexedAssignment.objectToIndex <$> containerToEquivSetsToObjects a' =
             IndexedAssignment.objectToIndex <$> containerToEquivSetsToObjects a;
  si_groups : IndexedAssignment.objectToIndex <$> partitionToPerContainerObjectIndexByGroups a' =
              IndexedAssignment.objectToIndex <$> partitionToPerContainerObjectIndexByGroups a;
  si_equiv_groups :
    IndexedAssignment.objectToIndex <$> partitionToPerContainerIndexByEquivSetAndGroups a' =
    IndexedAssignment.objectToIndex <$> partitionToPerContainerIndexByEquivSetAndGroups a
}.

Lemma map_mapM_keeps {V W} (f : V → result V) (g : V → W) (m m' : gmap Z V) :
  (∀ v v', f v = Ok v' → g v' = g v) → map_mapM f m = Ok m' → g <$> m' = g <$> m.
Proof.
  intros Hg E. assert (∀ k v, m !! k = Some v → ∃ v', f v = Ok v') as Hall.
  { unfold map_mapM in E. intros k v Hk%elem_of_map_to_list. revert E Hk. generalize (∅ : gmap Z V).
    induction (map_to_list m) as [|[k0 v0] l IH]; intros acc E Hk; [by apply not_elem_of_nil in Hk|].
    simpl in E. apply bind_Ok in E as (m1 & E0 & E). apply bind_Ok in E0 as (v1 & E0 & _).
    apply elem_of_cons in Hk as [[= -> ->]|Hk]; [by exists v1|by eapply IH]. }
  destruct (map_mapM_spec f (λ v v', f v = Ok v') m) as (m2 & E2 & Hn & Hs).
  { intros k v Hk. destruct (Hall k v Hk) as [v' Hv]. eauto. }
  rewrite E in E2. injection E2 as ->. apply map_eq. intros k. rewrite !lookup_fmap.
  destruct (m !! k) as [v|] eqn:Ek; [|by rewrite Hn].
  destruct (Hs k v Ek) as (v' & -> & Hv). simpl. f_equal. by apply Hg.
Qed.

Lemma optionM_keeps {V W} (f : V → result V) (g : V → W) (o o' : option V) :
  (∀ v v', f v = Ok v' → g v' = g v) → optionM f o = Ok o' → g <$> o' = g <$> o.
Proof.
  intros Hg. destruct o as [v|]; simpl; [|by intros [= <-]].
  intros (v' & Hv & [= <-])%bind_Ok. simpl. f_equal. by apply Hg.
Qed.

Lemma setOn_keeps `{L : IndexLevel ObjIdx Store} (ix ix' : IndexedAssignment.t ObjIdx Store) o c :
  IndexedAssignment.setOn ix o c = Ok ix' →
  IndexedAssignment.objectToIndex ix' = IndexedAssignment.objectToIndex ix.
Proof. unfold IndexedAssignment.setOn. by intros (i & _ & [= <-])%bind_Ok. Qed.

Lemma removeFrom_keeps `{L : IndexLevel ObjIdx Store} (ix ix' : IndexedAssignment.t ObjIdx Store) o c :
  IndexedAssignment.removeFrom ix o c = Ok ix' →
  IndexedAssignment.objectToIndex ix' = IndexedAssignment.objectToIndex ix.
Proof.
  unfold IndexedAssignment.removeFrom. intros (i & _ & E)%bind_Ok. apply bind_Ok in E as (m & _ & E).
  destruct (m !! primary i); [|done]. by apply bind_Ok in E as (st & _ & [= <-]).
Qed.

Lemma moveTo_same_indexes a o c a' : moveTo a o c = Ok a' → same_indexes a a'.
Proof.
  unfold moveTo. intros (c0 & _ & E)%bind_Ok. apply bind_Ok in E as (a1 & E1 & E).
  apply bind_Ok in E as (a2 & E2 & [= <-]).
  assert (same_indexes a a1) as [K1 Q1 G1 P1].
  { unfold remove in E1. case_decide; [by injection E1 as <-|].
    apply bind_Ok in E1 as (ei & Ei & E1). apply bind_Ok in E1 as (gi & Eg & E1).
    apply bind_Ok in E1 as (egi & Ep & [= <-]). split; simpl; [done|..].
    - eapply optionM_keeps, Ei. intros ??. apply removeFrom_keeps.
    - eapply map_mapM_keeps, Eg. intros ??. apply removeFrom_keeps.
    - eapply map_mapM_keeps, Ep. intros ??. apply removeFrom_keeps. }
  assert (same_indexes a1 a2) as [K2 Q2 G2 P2].
  { unfold add in E2. case_decide; [by injection E2 as <-|].
    apply bind_Ok in E2 as (ei & Ei & E2). apply bind_Ok in E2 as (gi & Eg & E2).
    apply bind_Ok in E2 as (egi & Ep & [= <-]). split; simpl; [done|..].
    - eapply optionM_keeps, Ei. intros ??. apply setOn_keeps.
    - eapply map_mapM_keeps, Eg. intros ??. apply setOn_keeps.
    - eapply map_mapM_keeps, Ep. intros ??. apply setOn_keeps. }
  split; simpl; congruence.
Qed.

Inductive op :=
  | Move (o c : Z)
  | IndexByEquivalentSets (es : EquivalenceSetsView)
  | IndexByPartition (partition : PartitionView) (partitionId : Z)
  | IndexByEquivalentSetsAndPartition (partition : PartitionView) (es : EquivalenceSetsView)
      (partitionId : Z).

Definition exec `{HashOrder} (a : t) (x : op) : result t :=
  match x with
  | Move o c => moveTo a o c
  | IndexByEquivalentSets es => '(a', _) ← maybeBuildAndGetObjectsIndexedByEquivSets a es; Ok a'
  | IndexByPartition partition p => buildIndexByPartition a partition p
  | IndexByEquivalentSetsAndPartition partition es p =>
      buildIndexByEquivalentSetsAndPartition a partition es p
  end.

(** The placement, the key of the sets indexed, the partitions indexed, and the
    partitions indexed together with equivalence sets, with the key of these. *)
Record abstract := mkAbstract {
  abs_place : gmap Z Z;
  abs_key : option string;
  abs_partitions : gset Z;
  abs_both : gmap Z string
}.

Definition abs_step (s : abstract) (x : op) : abstract :=
  match x with
  | Move o c => mkAbstract (<[o := c]> (abs_place s)) (abs_key s) (abs_partitions s) (abs_both s)
  | IndexByEquivalentSets es =>
      mkAbstract (abs_place s) (Some (es_getKey es)) (abs_partitions s) (abs_both s)
  | IndexByPartition _ p =>
      mkAbstract (abs_place s) (abs_key s) ({[p]} ∪ abs_partitions s) (abs_both s)
  | IndexByEquivalentSetsAndPartition _ es p =>
      mkAbstract (abs_place s) (abs_key s) (abs_partitions s) (<[p := es_getKey es]> (abs_both s))
  end.

Lemma make_indexes `{HO : HashOrder} l scores F dyn :
  containerToEquivSetsToObjects (make l scores F dyn) = None ∧
  partitionToPerContainerObjectIndexByGroups (make l scores F dyn) = ∅ ∧
  partitionToPerContainerIndexByEquivSetAndGroups (make l scores F dyn) = ∅.
Proof.
  unfold make, setContainerToObjectsMap. set (a0 := mk _ _ _ _ _ _ _ _ _ _).
  assert (containerToEquivSetsToObjects a0 = None ∧ partitionToPerContainerObjectIndexByGroups a0 = ∅ ∧
    partitionToPerContainerIndexByEquivSetAndGroups a0 = ∅) as H0 by done. clearbody a0.
  match goal with |- context [foldl set_container ?x l] => set (a1 := x) end.
  assert (containerToEquivSetsToObjects a1 = None ∧ partitionToPerContainerObjectIndexByGroups a1 = ∅ ∧
    partitionToPerContainerIndexByEquivSetAndGroups a1 = ∅) as H by exact H0. clearbody a1.
  revert a1 H. induction l as [|[c os] l IH]; intros a1 H; [done|]. simpl. apply IH.
  unfold set_container. by destruct (set_objects _ _ _ _) as [[? ?] ?].
Qed.

Section refinement.
Context `{HashOrder}.
(** The equivalence set of an object, by the key of the sets, and its group, by the
    partition. *)
Context (set_of : string → Z → Z) (group_of : Z → Z → Z).

(** Known objects are moved; the sets and the partitions are those of the problem. *)
Definition op_ok (known : Z → Prop) (x : op) : Prop :=
  let sets es := ∀ o, known o → es_at es o = Ok (set_of (es_getKey es) o) in
  let groups partition p := ∀ o, known o → getObjectIdToGroupIds partition !! o = Some [group_of p o] in
  match x with
  | Move o _ => known o
  | IndexByEquivalentSets es => sets es
  | IndexByPartition partition p => groups partition p
  | IndexByEquivalentSetsAndPartition partition es p => sets es ∧ groups partition p
  end.

(** An index sorts by [f]. *)
Definition sorts {ObjIdx} (f : Z → ObjIdx) (idx : gmap Z ObjIdx) : Prop :=
  ∀ o i, idx !! o = Some i → i = f o.

Record refines (F : gset Z) (known : Z → Prop) (a : t) (s : abstract) : Prop := {
  ref_inv : inv a;
  ref_place : objectToContainer a = abs_place s;
  ref_known o : is_Some (abs_place s !! o) ↔ known o;
  ref_fixed : fixedObjects a = F;
  ref_equiv : match abs_key s, IndexedAssignment.objectToIndex <$> containerToEquivSetsToObjects a with
              | Some k, Some idx => indexedEquivalenceSetsKey a = k ∧ sorts (set_of k) idx
              | None, None => True
              | _, _ => False
              end;
  ref_groups p : match (IndexedAssignment.objectToIndex <$> partitionToPerContainerObjectIndexByGroups a) !! p with
                 | Some idx => p ∈ abs_partitions s ∧ sorts (group_of p) idx
                 | None => p ∉ abs_partitions s
                 end;
  ref_both p : match abs_both s !! p,
                 (IndexedAssignment.objectToIndex <$> partitionToPerContainerIndexByEquivSetAndGroups a) !! p with
               | Some k, Some idx => sorts (λ o, (set_of k o, group_of p o)) idx
               | None, None => True
               | _, _ => False
               end
}.

Lemma exec_refines F known a s x : refines F known a s → op_ok known x →
  ∃ a', exec a x = Ok a' ∧ refines F known a' (abs_step s x).
Proof.
  intros [Hi Hp Hk Hf He Hg Hb] Hx.
  assert (∀ o, is_dynamic a o → known o) as Hd by (intros o [Ho _]; apply Hk; by rewrite <- Hp).
  destruct x as [o c|es|partition p|partition es p]; simpl in Hx |- *.
  - destruct (moveTo_spec a o c Hi) as (a' & E & Hi' & [Hs _] & Ho); [rewrite Hp; by apply Hk|].
    destruct (moveTo_same_indexes a o c a' E) as [K1 Q1 G1 P1].
    exists a'. split; [done|]. split; simpl; [done|by rewrite Ho, Hp| |by rewrite Hs| | |].
    + intros x. rewrite lookup_insert_is_Some', Hk. split; [intros [<- |?]; done|by right].
    + by rewrite Q1, K1.
    + intros p. rewrite G1. apply Hg.
    + intros p. rewrite P1. apply Hb.
  - unfold maybeBuildAndGetObjectsIndexedByEquivSets.
    destruct (isIndexedByEquivalentSets a es) eqn:Ei.
    + unfold isIndexedByEquivalentSets in Ei.
      destruct (containerToEquivSetsToObjects a) as [ix|] eqn:Eix; [|done].
      apply bool_decide_eq_true in Ei. simpl. rewrite Eix. simpl. exists a. split; [done|].
      split; simpl; try done. rewrite Eix. simpl in He |- *. destruct (abs_key s) as [k|]; [|done].
      destruct He as [<- He]. rewrite <- Ei. done.
    + destruct (buildIndexByEquivalentSets_spec a es (set_of (es_getKey es)) Hi) as (ix & -> & Hi' & Hs);
        [intros o Ho; by apply Hx, Hd|].
      simpl. eexists. split; [done|]. by split.
  - specialize (Hg p) as Hgp. rewrite lookup_fmap in Hgp.
    destruct (partitionToPerContainerObjectIndexByGroups a !! p) as [ix|] eqn:Ep.
    + unfold buildIndexByPartition. rewrite Ep. exists a. split; [done|]. split; simpl; try done.
      intros q. specialize (Hg q). destruct (_ !! q); set_solver.
    + destruct (buildIndexByPartition_spec a partition p (group_of p) Hi Ep) as (ix & -> & Hi' & Hs);
        [intros o Ho; by apply Hx, Hd|].
      eexists. split; [done|]. split; simpl; try done. intros q. rewrite fmap_insert, lookup_insert.
      case_decide as Hq; [subst q; split; [set_solver|done]|].
      specialize (Hg q). destruct (_ !! q); set_solver.
  - destruct Hx as [Hx1 Hx2].
    destruct (buildIndexByEquivalentSetsAndPartition_spec a partition es p (set_of (es_getKey es))
      (group_of p) Hi) as (ix & -> & Hi' & Hs);
      [intros o Ho; by apply Hx1, Hd|intros o Ho; by apply Hx2, Hd|].
    eexists. split; [done|]. split; simpl; try done. intros q. rewrite fmap_insert, !lookup_insert.
    case_decide as Hq; [subst q; done|apply Hb].
Qed.

Lemma execs_refine F known xs : ∀ a s, refines F known a s → Forall (op_ok known) xs →
  ∃ a', foldM exec a xs = Ok a' ∧ refines F known a' (foldl abs_step s xs).
Proof.
  induction xs as [|x xs IH]; intros a s Hr Hxs; [by exists a|]. inversion_clear Hxs as [|? ? Hx Hxs'].
  destruct (exec_refines F known a s x Hr Hx) as (a' & E & Hr'). simpl. rewrite E.
  cbn [mbind result_bind]. by apply IH.
Qed.

(** What an index that sorts by [f] files. *)
Lemma index_files `{L : IndexLevel ObjIdx Store} a (ix : IndexedAssignment.t ObjIdx Store) (f : Z → ObjIdx) c i o :
  inv a → IndexedAssignment.represents (good a) ix (objs_on (containerToObjectsDynamic a)) →
  sorts f (IndexedAssignment.objectToIndex ix) →
  IndexedAssignment.filed ix c i o ↔
    objectToContainer a !! o = Some c ∧ o ∉ fixedObjects a ∧ i = f o.
Proof.
  intros Hi [_ Hf Hx] Hs. rewrite Hf, (inv_dynamic a Hi), elem_of_difference, <- (inv_objects a Hi).
  split; [intros ([? ?] & E); split; [done|]; split; [done|by apply Hs]|].
  intros (E & Hn & ->). split; [done|]. destruct (Hx c o) as [i Ei].
  { by rewrite (inv_dynamic a Hi), elem_of_difference, <- (inv_objects a Hi). }
  rewrite Ei. f_equal. by apply Hs.
Qed.
(** What the getters of the indexes return. *)
Section getters.
Context (F : gset Z) (known : Z → Prop) (a : t) (s : abstract) (Hr : refines F known a s).

Lemma refines_equiv es :
  if decide (abs_key s = Some (es_getKey es))
  then ∃ ix, getObjectsIndexedByEquivSets a es = Ok ix ∧
    ∀ c i o, IndexedAssignment.filed ix c i o ↔
      objectToContainer a !! o = Some c ∧ o ∉ fixedObjects a ∧ i = set_of (es_getKey es) o
  else ∃ e, getObjectsIndexedByEquivSets a es = Throw e.
Proof.
  destruct Hr as [Hi _ _ _ He _ _]. unfold getObjectsIndexedByEquivSets, isIndexedByEquivalentSets.
  destruct (containerToEquivSetsToObjects a) as [ix|] eqn:Eix; simpl in He;
    destruct (abs_key s) as [k|]; try done; case_decide as Hd; try done; try by eexists.
  - injection Hd as ->. destruct He as [-> Hs]. rewrite bool_decide_true by done. exists ix.
    split; [done|]. intros c i o. apply index_files; [done|by apply (inv_equiv a Hi)|done].
  - destruct He as [Hk _]. rewrite bool_decide_false by congruence. by eexists.
Qed.

Lemma refines_groups p :
  if decide (p ∈ abs_partitions s)
  then ∃ ix, getObjectsIndexedByPartition a p = Ok ix ∧
    ∀ c i o, IndexedAssignment.filed ix c i o ↔
      objectToContainer a !! o = Some c ∧ o ∉ fixedObjects a ∧ i = group_of p o
  else ∃ e, getObjectsIndexedByPartition a p = Throw e.
Proof.
  destruct Hr as [Hi _ _ _ _ Hg _]. specialize (Hg p). rewrite lookup_fmap in Hg.
  unfold getObjectsIndexedByPartition.
  destruct (partitionToPerContainerObjectIndexByGroups a !! p) as [ix|] eqn:E; simpl in Hg.
  - destruct Hg as [Hp Hs]. rewrite decide_True by done. exists ix. split; [done|].
    intros c i o. apply index_files; [done|by eapply (inv_groups a Hi)|done].
  - rewrite decide_False by done. by eexists.
Qed.

Lemma refines_both p :
  match abs_both s !! p with
  | Some k => ∃ ix, getObjectsIndexedByEquivSetsAndPartition a p = Ok ix ∧
      ∀ c i o, IndexedAssignment.filed ix c i o ↔
        objectToContainer a !! o = Some c ∧ o ∉ fixedObjects a ∧ i = (set_of k o, group_of p o)
  | None => ∃ e, getObjectsIndexedByEquivSetsAndPartition a p = Throw e
  end.
Proof.
  destruct Hr as [Hi _ _ _ _ _ Hb]. specialize (Hb p). rewrite lookup_fmap in Hb.
  unfold getObjectsIndexedByEquivSetsAndPartition.
  destruct (abs_both s !! p) as [k|];
    destruct (partitionToPerContainerIndexByEquivSetAndGroups a !! p) as [ix|] eqn:E; simpl in Hb; try done.
  - exists ix. split; [done|]. intros c i o.
    apply (index_files a ix (λ o, (set_of k o, group_of p o))); [done|by eapply (inv_equiv_groups a Hi)|done].
  - by eexists.
Qed.
End getters.

(** A new assignment has no index. *)
Lemma make_refines `{HashOrder} l scores F dyn :
  NoDup l.*1 → NoDup (listed l) → (∀ o sc, o ∈ listed l → scores = Some sc → scored sc o) →
  refines F (λ o, o ∈ listed l) (make l scores F dyn)
    (mkAbstract (objectToContainer (make l scores F dyn)) None ∅ ∅).
Proof.
  intros H1 H2 H3. destruct (make_inv l scores F dyn H1 H2 H3) as (I0 & F0 & O0).
  destruct (make_indexes l scores F dyn) as (E1 & E2 & E3).
  split; simpl; [done|done| |done|by rewrite E1| |].
  - intros o. unfold listed. rewrite list_elem_of_bind. split.
    + intros [c (os & ? & ?)%O0]. by exists (c, os).
    + intros ([c os] & Ho & Hin). exists c. apply O0. eauto.
  - intros p. rewrite E2, fmap_empty, lookup_empty. set_solver.
  - intros p. by rewrite E3, fmap_empty, !lookup_empty.
Qed.
End refinement.
End Assignment.
