(* ===== verification/EntityAttributes.v ===== *)
(** * Entity attributes

    [EntityAttributes] of solver/utils: data derived from the assignment that
    [Problem] keeps up to date by sending every applied change set to the
    attributes registered in the [EntityAttributesStore]. *)

From S2P Require Import Prelude ChangeSet.

(** The interface: [updateOnApply] is the virtual method. *)
Class EntityAttributes (A : Type) := updateOnApply : A → ChangeSet.t → A.

Module EntityAttributesStore.
Section store.
Context {A : Type} `{EntityAttributes A}.

Definition t : Type := gmap string A.

Definition registerAttributes (s : t) (key : string) (attributes : A) : result t :=
  match s !! key with
  | Some _ => Throw (runtime_error "EntityAttributes with this key already exists")
  | None => Ok (<[key := attributes]> s)
  end.

Definition getAttributes (s : t) (key : string) : result A :=
  match s !! key with
  | Some a => Ok a
  | None => Throw (runtime_error "Attribute was not found")
  end.

(** Each attribute is updated independently, so the order does not matter. *)
Definition updateOnApply (s : t) (changes : ChangeSet.t) : t :=
  (λ a, EntityAttributes.updateOnApply a changes) <$> s.
End store.
Arguments t A : clear implicits.
End EntityAttributesStore.

(** ** OneObjectPerGroup

    How many objects of each group have left the source container. *)
Module OneObjectPerGroup.

Inductive MoveDirection := ToSource | FromSource.

Record t := mk {
  objectIdToGroupIds : gmap Z (list Z);   (* of the overlap partition *)
  sourceContainer : Z;
  assignedCounts : gmap Z Z
}.

Definition getAssignedCount (a : t) (g : Z) : Z := default 0 (assignedCounts a !! g).

(** [assignedCounts_[groupId] += delta] *)
Definition bump (delta : Z) (counts : gmap Z Z) (g : Z) : gmap Z Z :=
  <[g := default 0 (counts !! g) + delta]> counts.

Definition canPick (a : t) (candidateObject : Z) : bool :=
  match objectIdToGroupIds a !! candidateObject with
  | None => true
  | Some groupIds => forallb (λ g, getAssignedCount a g =? 0) groupIds
  end.

Definition recordObjectMove (a : t) (o : Z) (direction : MoveDirection) : t :=
  match objectIdToGroupIds a !! o with
  | None => a
  | Some groupIds =>
      let delta := match direction with FromSource => 1 | ToSource => -1 end in
      mk (objectIdToGroupIds a) (sourceContainer a)
         (foldl (bump delta) (assignedCounts a) groupIds)
  end.

Definition update (a : t) (changes : ChangeSet.t) : t :=
  foldl (λ a c,
    if container c =? sourceContainer a
    then recordObjectMove a (object c) (if value c =? 1 then ToSource else FromSource)
    else a) a (ChangeSet.changes changes).

#[global] Instance OneObjectPerGroup_attributes : EntityAttributes t := update.

(** The constructor; [getContainer] is [initialAssignment.getContainer]. *)
Definition make (partition : gmap Z (list Z)) (source : Z) (getContainer : Z → result Z)
    : result t :=
  counts ← foldM (λ counts '(o, groupIds),
      c ← getContainer o;
      Ok (if c =? source then counts else foldl (bump 1) counts groupIds))
    ∅ (map_to_list partition);
  Ok (mk partition source counts).

(** ** The counts are the objects outside the source container *)

Definition occurrences (g : Z) (gs : list Z) : Z :=
  Z.of_nat (length (filter (λ g', g' = g) gs)).

(** What one object adds to the count of a group. *)
Definition outside (source : Z) (otc : gmap Z Z) (g : Z) (entry : Z * list Z) : Z :=
  if decide (otc !! entry.1 = Some source) then 0 else occurrences g entry.2.

Definition sum (l : list Z) : Z := foldr Z.add 0 l.

Definition count (partition : gmap Z (list Z)) (source : Z) (otc : gmap Z Z) (g : Z) : Z :=
  sum (outside source otc g <$> map_to_list partition).

Definition tracks (a : t) (otc : gmap Z Z) : Prop :=
  ∀ g, getAssignedCount a g = count (objectIdToGroupIds a) (sourceContainer a) otc g.

Lemma bump_lookup delta counts g g' :
  default 0 (bump delta counts g !! g') =
  default 0 (counts !! g') + (if decide (g' = g) then delta else 0).
Proof.
  unfold bump. rewrite lookup_insert.
  case_decide; case_decide; subst; simpl; try done; lia.
Qed.

Lemma foldl_bump delta gs counts g :
  default 0 (foldl (bump delta) counts gs !! g) =
  default 0 (counts !! g) + delta * occurrences g gs.
Proof.
  revert counts. induction gs as [|g' gs IH]; intros counts; unfold occurrences in *; simpl.
  - lia.
  - rewrite IH, bump_lookup.
    destruct (decide (g = g')) as [->|Hne];
      [rewrite filter_cons_True by done|rewrite filter_cons_False by done]; simpl; lia.
Qed.

Lemma sum_app l1 l2 : sum (l1 ++ l2) = sum l1 + sum l2.
Proof. induction l1; simpl; lia. Qed.

#[global] Instance sum_proper : Proper ((≡ₚ) ==> eq) sum.
Proof. intros l1 l2 Hp. induction Hp; simpl; lia. Qed.

Lemma sum_nonneg l : Forall (λ x, 0 ≤ x) l → 0 ≤ sum l.
Proof. induction 1; simpl; lia. Qed.

Lemma sum_zero l : Forall (λ x, 0 ≤ x) l → sum l = 0 → Forall (λ x, x = 0) l.
Proof.
  induction 1 as [|x l Hx Hl IH]; simpl; [done|]. pose proof (sum_nonneg l Hl).
  intros. constructor; [lia|apply IH; lia].
Qed.

(** Moving one object changes only its own contribution. *)
Lemma count_move partition source otc g o c :
  count partition source (<[o := c]> otc) g =
  count partition source otc g +
  match partition !! o with
  | None => 0
  | Some gs => outside source (<[o := c]> otc) g (o, gs) - outside source otc g (o, gs)
  end.
Proof.
  unfold count.
  assert (∀ l : list (Z * list Z), o ∉ l.*1 →
    outside source (<[o := c]> otc) g <$> l = outside source otc g <$> l) as Hsame.
  { induction l as [|[o' gs'] l IH]; [done|]. rewrite !fmap_cons.
    intros [Hne Hl]%not_elem_of_cons. rewrite IH by done. f_equal.
    unfold outside; simpl in *. by rewrite lookup_insert_ne. }
  destruct (partition !! o) as [gs|] eqn:E.
  - pose proof (map_to_list_delete _ _ _ E) as Hp. rewrite <- Hp, !fmap_cons. cbn [sum foldr].
    rewrite Hsame; [lia|]. intros ([o' gs'] & -> & Hin)%list_elem_of_fmap.
    apply elem_of_map_to_list in Hin. simpl in Hin. by rewrite lookup_delete_eq in Hin.
  - rewrite Hsame; [lia|]. intros ([o' gs'] & -> & Hin)%list_elem_of_fmap.
    apply elem_of_map_to_list in Hin. simpl in *. congruence.
Qed.

Lemma recordObjectMove_count a o d g :
  getAssignedCount (recordObjectMove a o d) g =
  getAssignedCount a g +
  match objectIdToGroupIds a !! o with
  | None => 0
  | Some gs => match d with FromSource => 1 | ToSource => -1 end * occurrences g gs
  end.
Proof.
  unfold recordObjectMove, getAssignedCount. destruct (objectIdToGroupIds a !! o); simpl; [|lia].
  apply foldl_bump.
Qed.

Lemma recordObjectMove_config a o d :
  objectIdToGroupIds (recordObjectMove a o d) = objectIdToGroupIds a ∧
  sourceContainer (recordObjectMove a o d) = sourceContainer a.
Proof. unfold recordObjectMove. by destruct (_ !! o). Qed.

(** The update of one change. *)
Definition update1 (a : t) (c : Change) : t :=
  if container c =? sourceContainer a
  then recordObjectMove a (object c) (if value c =? 1 then ToSource else FromSource)
  else a.

Lemma update1_config a c :
  objectIdToGroupIds (update1 a c) = objectIdToGroupIds a ∧
  sourceContainer (update1 a c) = sourceContainer a.
Proof. unfold update1. destruct (_ =? _); [apply recordObjectMove_config|done]. Qed.

Lemma update_config a cs :
  objectIdToGroupIds (update a cs) = objectIdToGroupIds a ∧
  sourceContainer (update a cs) = sourceContainer a.
Proof.
  change (update a cs) with (foldl update1 a (ChangeSet.changes cs)).
  induction (ChangeSet.changes cs) as [|c l IH] using rev_ind; [done|].
  rewrite foldl_app. cbn [foldl]. destruct (update1_config (foldl update1 a l) c), IH.
  split; congruence.
Qed.

(** One move, from the container the object is in. *)
Lemma update_move a otc m :
  tracks a otc → otc !! move_object m = Some (srcContainer m) →
  tracks (foldl update1 a (move_changes m)) (<[move_object m := dstContainer m]> otc).
Proof.
  intros Ht Hsrc g. simpl.
  destruct (update1_config a (removal (move_object m) (srcContainer m))) as [E1 E2].
  destruct (update1_config (update1 a (removal (move_object m) (srcContainer m)))
    (addition (move_object m) (dstContainer m))) as [E3 E4].
  rewrite E3, E4, E1, E2, count_move, <- Ht.
  unfold update1 at 1. rewrite E2. simpl. unfold update1; simpl.
  unfold outside; simpl. rewrite lookup_insert_eq, Hsrc.
  destruct (Z.eqb_spec (srcContainer m) (sourceContainer a)) as [Es|Es],
    (Z.eqb_spec (dstContainer m) (sourceContainer a)) as [Ed|Ed];
    rewrite ?recordObjectMove_count, ?(proj1 (recordObjectMove_config _ _ _));
    simpl; destruct (objectIdToGroupIds a !! move_object m) as [gs|];
    try rewrite (decide_True (P := Some (dstContainer m) = _)) by congruence;
    try rewrite (decide_False (P := Some (dstContainer m) = _)) by congruence;
    try rewrite (decide_True (P := Some (srcContainer m) = _)) by congruence;
    try rewrite (decide_False (P := Some (srcContainer m) = _)) by congruence; lia.
Qed.

Lemma update_tracks ms : ∀ a otc,
  tracks a otc → NoDup (move_object <$> ms) →
  (∀ m, m ∈ ms → otc !! move_object m = Some (srcContainer m)) →
  tracks (update a (MoveSet_getChangeSet ms)) (place ms otc).
Proof.
  unfold update. intros a otc. rewrite MoveSet_changes. change (λ a c, _) with update1.
  revert a otc. induction ms as [|m ms IH]; intros a otc Ht Hnd Hs; simpl; [done|].
  apply NoDup_cons in Hnd as [Hn Hnd]. apply IH.
  - apply update_move; [done|]. apply Hs. set_solver.
  - done.
  - intros m' Hm'. rewrite lookup_insert_ne; [apply Hs; set_solver|].
    intros E. apply Hn. rewrite E. apply list_elem_of_fmap. eauto.
Qed.

(** The counts are never negative, and zero when the group is untouched. *)
Lemma outside_nonneg source otc g e : 0 ≤ outside source otc g e.
Proof. unfold outside, occurrences. case_decide; lia. Qed.

Lemma count_nonneg partition source otc g : 0 ≤ count partition source otc g.
Proof.
  apply sum_nonneg, Forall_fmap, Forall_forall. intros e _. apply outside_nonneg.
Qed.

Lemma occurrences_zero g gs : occurrences g gs = 0 ↔ g ∉ gs.
Proof.
  unfold occurrences. induction gs as [|g' gs IH]; [set_solver|].
  rewrite not_elem_of_cons, <- IH.
  destruct (decide (g' = g)) as [->|Hne];
    [rewrite filter_cons_True by done|rewrite filter_cons_False by done]; simpl length;
    [split; [lia|tauto]|]. naive_solver.
Qed.

Lemma count_zero partition source otc g :
  count partition source otc g = 0 ↔
  ∀ o gs, partition !! o = Some gs → g ∈ gs → otc !! o = Some source.
Proof.
  unfold count. split.
  - intros H0 o gs Ho Hg.
    apply sum_zero in H0;
      [|apply Forall_fmap, Forall_forall; intros e _; apply outside_nonneg].
    rewrite Forall_fmap, Forall_forall in H0. specialize (H0 (o, gs)).
    unfold outside in H0; simpl in H0. destruct (decide (otc !! o = Some source)); [done|].
    destruct (proj1 (occurrences_zero g gs)); [|done]. apply H0.
    by apply elem_of_map_to_list.
  - intros H. assert (Forall (λ e, outside source otc g e = 0) (map_to_list partition)) as Hz.
    { apply Forall_forall. intros [o gs] Hin. apply elem_of_map_to_list in Hin.
      unfold outside; simpl. case_decide as Hd; [done|]. apply occurrences_zero.
      intros Hg. apply Hd. eauto. }
    induction Hz as [|e l He Hl IH]; [done|]. rewrite fmap_cons. cbn [sum foldr].
    rewrite He. apply IH.
Qed.

Lemma canPick_spec a otc o :
  tracks a otc →
  canPick a o = true ↔
  ∀ gs g o' gs', objectIdToGroupIds a !! o = Some gs → g ∈ gs →
    objectIdToGroupIds a !! o' = Some gs' → g ∈ gs' →
    otc !! o' = Some (sourceContainer a).
Proof.
  intros Ht. unfold canPick. destruct (objectIdToGroupIds a !! o) as [gs|]; [|naive_solver].
  rewrite forallb_forall. split.
  - intros H gs' g o' gs'' [= <-] Hg Ho' Hg'.
    apply list_elem_of_In, H, Z.eqb_eq in Hg. rewrite Ht in Hg.
    by eapply count_zero.
  - intros H g Hg%list_elem_of_In. apply Z.eqb_eq. rewrite Ht. apply count_zero.
    intros o' gs' Ho' Hg'. by eapply H.
Qed.

(** The constructor counts every object. *)
Lemma make_tracks partition source otc :
  (∀ o gs, partition !! o = Some gs → is_Some (otc !! o)) →
  ∃ a, make partition source (λ o, at_ (otc !! o)) = Ok a ∧ tracks a otc ∧
    objectIdToGroupIds a = partition ∧ sourceContainer a = source.
Proof.
  intros Hall. unfold make.
  enough (∀ (l : list (Z * list Z)) counts,
    (∀ e, e ∈ l → is_Some (otc !! e.1)) →
    ∃ counts', foldM (λ counts '(o, groupIds),
        c ← at_ (otc !! o);
        Ok (if c =? source then counts else foldl (bump 1) counts groupIds)) counts l
      = Ok counts' ∧
      ∀ g, default 0 (counts' !! g) =
           default 0 (counts !! g) + sum (outside source otc g <$> l)) as Hgen.
  { destruct (Hgen (map_to_list partition) ∅) as (counts' & E & Hc).
    { intros [o gs] Hin. apply elem_of_map_to_list in Hin. by eapply Hall. }
    rewrite E. simpl. eexists. split_and!; [done| |done|done].
    intros g. unfold getAssignedCount, count; simpl. rewrite Hc, lookup_empty. done. }
  induction l as [|[o gs] l IH]; intros counts Hl.
  - exists counts. split; [done|]. intros g. cbn. lia.
  - destruct (Hl (o, gs)) as [c Hc]; [set_solver|]. simpl in Hc. cbn [foldM].
    rewrite Hc. cbn [at_ mbind result_bind].
    destruct (IH (if c =? source then counts else foldl (bump 1) counts gs))
      as (counts' & E & H'); [set_solver|].
    exists counts'. split; [done|]. intros g. rewrite H', fmap_cons. cbn [sum foldr].
    unfold sum. set (rest := foldr _ _ _). unfold outside; simpl. rewrite Hc.
    destruct (Z.eqb_spec c source) as [->|Hne].
    + rewrite decide_True by done. lia.
    + rewrite decide_False by congruence. rewrite foldl_bump. lia.
Qed.
End OneObjectPerGroup.
