(* ===== verification/Objective.v ===== *)
(** * Objectives over the expression graph

    [GlobalObjective] and [LocalSearchObjective] of solver/utils: tuples of
    expressions, their current values and their values under a set of changes
    that has not been applied. *)

From S2P Require Import Prelude Double Precision ObjectiveValue ChangeSet Assignment.

(** What the solver uses of the expression graph ([Orchestrator]): the value an
    expression has for the current assignment, the value it would have after
    some changes, and the update of all the values once the assignment has
    changed. *)
Class ExpressionGraph := {
  Graph : Type;
  expr_value : Graph → Z → double;
  expr_evaluate : Graph → ChangeSet.t → Z → result double;
  graph_apply : Graph → ChangeSet.t → Assignment.t → result Graph
}.

(** The promise of the graph to the search: it stays in step with the
    assignment.  [denote e m] is the value of expression [e] when the objects
    are placed as in [m]; applying the changes of a move set whose moves start
    from where the objects are leads to the values of the new placement.  The
    values predicted by [expr_evaluate] may differ from these by rounding and
    are not part of the promise. *)
Class LawfulGraph (G : ExpressionGraph) := {
  denote : Z → gmap Z Z → double;
  graph_inv : Graph → gmap Z Z → Prop;
  graph_inv_value g m e : graph_inv g m → expr_value g e = denote e m;
  graph_apply_moves g m ms a :
    graph_inv g m → NoDup (move_object <$> ms) →
    (∀ mv, mv ∈ ms → m !! move_object mv = Some (srcContainer mv)) →
    Assignment.inv a → Assignment.objectToContainer a = place ms m →
    ∃ g', graph_apply g (MoveSet_getChangeSet ms) a = Ok g' ∧ graph_inv g' (place ms m)
}.

(** A second promise: the values after some moves can be computed before the moves
    are made. *)
Class EvaluableGraph (G : ExpressionGraph) `{!LawfulGraph G} := {
  graph_evaluate g m ms e :
    graph_inv g m → NoDup (move_object <$> ms) →
    (∀ mv, mv ∈ ms → m !! move_object mv = Some (srcContainer mv)) →
    ∃ v, expr_evaluate g (MoveSet_getChangeSet ms) e = Ok v
}.

(** ** GlobalObjective *)
Module GlobalObjective.

Abbreviation ExprId := Z (only parsing).

(** [Builder]: a vector of possibly null expressions. *)
Definition setObjective (objectives : list (option ExprId)) (pos : nat) (e : ExprId)
    : list (option ExprId) :=
  let resized := if (length objectives <=? pos)%nat
                 then objectives ++ replicate (S pos - length objectives) None
                 else objectives in
  <[pos := Some e]> resized.

(** [zero] is the expression [const_expr(0, universe)] creates. *)
Definition build (zero : ExprId) (objectives : list (option ExprId)) : list ExprId :=
  match objectives with
  | [] => [zero]
  | _ => default zero <$> objectives
  end.

Abbreviation t := (list ExprId).

Definition getObjectiveAt (obj : t) (pos : nat) : option ExprId := obj !! pos.

Definition getRange (zero : ExprId) (obj : t) (start end_ : Z) : t :=
  let s := Z.to_nat (Z.max 0 start) in
  let e := Z.to_nat (Z.min end_ (Z.of_nat (length obj))) in
  build zero
    (foldl (λ builder pos,
       match obj !! pos with
       | Some x => setObjective builder (pos - s) x
       | None => builder
       end) [] (seq s (e - s))).

Lemma setObjective_snoc (l : list (option ExprId)) e :
  setObjective l (length l) e = l ++ [Some e].
Proof.
  unfold setObjective. rewrite Nat.leb_refl.
  replace (S (length l) - length l)%nat with 1%nat by lia. simpl.
  by rewrite insert_app_r_alt, Nat.sub_diag by lia.
Qed.

Lemma build_Some zero (l : list ExprId) : l ≠ [] → build zero (Some <$> l) = l.
Proof.
  intros Hl. unfold build. destruct l as [|e l]; [done|]. rewrite fmap_cons.
  rewrite <- fmap_cons, <- list_fmap_compose. apply list_fmap_id.
Qed.

(** A nonempty range is the slice of the tuple. *)
Lemma getRange_spec zero obj start end_ :
  0 ≤ start → start < end_ → end_ ≤ Z.of_nat (length obj) →
  getRange zero obj start end_ =
  take (Z.to_nat (end_ - start)) (drop (Z.to_nat start) obj).
Proof.
  intros H0 H1 H2. unfold getRange.
  rewrite Z.max_r, Z.min_l by lia. rewrite <- Z2Nat.inj_sub by lia.
  set (s := Z.to_nat start). set (n := Z.to_nat (end_ - start)).
  assert (s + n ≤ length obj)%nat as Hn by lia.
  match goal with |- build _ ?b = _ => assert (b = Some <$> take n (drop s obj)) as -> end.
  { clear H1 H2. clearbody n. induction n as [|n IH]; [done|].
    rewrite seq_S, foldl_snoc, IH by lia.
    destruct (lookup_lt_is_Some_2 obj (s + n)) as [x Hx]; [lia|]. rewrite Hx.
    rewrite (take_S_r _ _ x) by (by rewrite lookup_drop).
    rewrite fmap_app. simpl. rewrite <- setObjective_snoc. f_equal.
    rewrite length_fmap, length_take, length_drop. lia. }
  apply build_Some. intros E. apply (f_equal length) in E.
  rewrite length_take, length_drop in E. simpl in E. lia.
Qed.

Section values.
Context `{G : ExpressionGraph}.

Definition getValue (g : Graph) (obj : t) : GlobalObjectiveValue.t :=
  GlobalObjectiveValue.mk (expr_value g <$> obj) None.

Definition getValueAt (g : Graph) (obj : t) (pos : nat) : result double :=
  e ← at_ (obj !! pos); Ok (expr_value g e).

Definition evaluateObjectiveAt (g : Graph) (changes : ChangeSet.t) (obj : t) (i : nat)
    : result double :=
  e ← at_ (obj !! i); expr_evaluate g changes e.

Fixpoint evaluate_loop (g : Graph) (changes : ChangeSet.t) (evaluateAllTuples : bool)
    (priorObjectiveImproved : bool) (v : GlobalObjectiveValue.t) (objectives : list ExprId)
    : result GlobalObjectiveValue.t :=
  match objectives with
  | [] => Ok v
  | objective :: rest =>
      val ← expr_evaluate g changes objective;
      v' ← GlobalObjectiveValue.append v val;
      if evaluateAllTuples
      then evaluate_loop g changes evaluateAllTuples priorObjectiveImproved v' rest
      else if (val <? expr_value g objective)%D
      then evaluate_loop g changes evaluateAllTuples true v' rest
      else if negb priorObjectiveImproved
              && (0 <? Precision.compare defaultTolerances val (expr_value g objective))
      then Ok v'
      else evaluate_loop g changes evaluateAllTuples priorObjectiveImproved v' rest
  end.

Definition evaluate (g : Graph) (changes : ChangeSet.t) (obj : t) (evaluateAllTuples : bool)
    : result GlobalObjectiveValue.t :=
  evaluate_loop g changes evaluateAllTuples false
    (GlobalObjectiveValue.makeWithFixedSize (length obj)) obj.

(** ** Stopping early *)

(** The prefix of the new values that the loop evaluates. *)
Fixpoint cut (priorObjectiveImproved : bool) (olds news : list double) : list double :=
  match olds, news with
  | old :: olds, new :: news =>
      new :: (if (new <? old)%D then cut true olds news
              else if negb priorObjectiveImproved
                      && (0 <? Precision.compare defaultTolerances new old)
              then []
              else cut priorObjectiveImproved olds news)
  | _, _ => []
  end.

Lemma cut_take olds : ∀ b news, length news = length olds →
  ∃ k, (k ≤ length olds)%nat ∧ cut b olds news = take k news.
Proof.
  induction olds as [|y olds IH]; intros b [|x news] L; try done; [by exists 0%nat|].
  injection L as L. cbn [cut].
  assert (∃ k, (k ≤ length olds)%nat ∧ (if (x <? y)%D then cut true olds news
    else if negb b && (0 <? Precision.compare defaultTolerances x y) then []
    else cut b olds news) = take k news) as (k & Hk & ->).
  { destruct (_ <? _)%D; [by apply IH|]. destruct (_ && _); [|by apply IH].
    exists 0%nat. split; [lia|done]. }
  exists (S k). split; [simpl; lia|done].
Qed.

(** Where the loop stops depends on the values read so far, so that no outcome
    continues another one. *)
Lemma cut_prefix_free olds : ∀ b n1 n2,
  Forall fin olds → Forall fin n1 → Forall fin n2 →
  length n1 = length olds → length n2 = length olds →
  GlobalObjectiveValue.agree (cut b olds n1) (cut b olds n2) →
  length (cut b olds n1) = length (cut b olds n2).
Proof.
  induction olds as [|y olds IH]; intros b [|x1 n1] [|x2 n2] Ho H1 H2 L1 L2; try done.
  inversion_clear Ho as [|? ? Hy Ho']. inversion_clear H1 as [|? ? Hx1 H1'].
  inversion_clear H2 as [|? ? Hx2 H2']. injection L1 as L1. injection L2 as L2.
  cbn [cut GlobalObjectiveValue.agree length]. intros [E Ha].
  rewrite !dlt_val, E in * by done.
  rewrite (Precision.compare_val defaultTolerances x1 x2 y Hx1 Hx2 E) in *.
  destruct (_ <? _); [f_equal; by apply IH|]. destruct (_ && _); [done|]. f_equal. by apply IH.
Qed.

(** If no position improves before one that is strictly worse, neither
    comparison finds the tuple better. *)
Lemma dominated_isStrictlyBetter p l olds :
  Precision.positive_tol p → Forall fin l → Forall fin olds →
  GlobalObjectiveValue.dominates olds l →
  GlobalObjectiveValue.isStrictlyBetter_loop p l olds = false.
Proof.
  intros Hp Hl. revert olds. induction Hl as [|x l Hx Hl IH]; intros [|y olds] Ho; try done.
  inversion_clear Ho as [|? ? Hy Ho']. cbn. intros Hw.
  destruct (Precision.compare_sign p x y Hx Hy Hp) as (_ & Hlt & _).
  rewrite dlt_val by done.
  destruct (Precision.compare_cases p x y) as [E|[E|E]]; rewrite E in *; simpl; try done.
  - destruct (Z.ltb_spec (val y) (val x)); [done|]. apply IH; [done|]. intuition lia.
  - specialize (Hlt eq_refl). lia.
Qed.

Lemma dominates_app l olds rest :
  GlobalObjectiveValue.dominates olds l → GlobalObjectiveValue.dominates olds (l ++ rest).
Proof.
  revert l. induction olds as [|y olds IH]; intros [|x l]; simpl; try done.
  intros [?|[? ?]]; auto.
Qed.

Section early_exit.
Context (g : Graph) (changes : ChangeSet.t) (nv : Z → double).
Context (obj : t).
Context (Hnv : ∀ e, e ∈ obj → expr_evaluate g changes e = Ok (nv e)).
Context (Hnew : ∀ e, e ∈ obj → fin (nv e)) (Hold : ∀ e, e ∈ obj → fin (expr_value g e)).

Abbreviation news := (λ l, nv <$> (l : list Z)).
Abbreviation olds := (λ l, expr_value g <$> (l : list Z)).

Lemma append_ok pre e (l : list Z) n :
  n = (length pre + S (length l))%nat →
  GlobalObjectiveValue.append (GlobalObjectiveValue.mk pre (Some n)) e =
  Ok (GlobalObjectiveValue.mk (pre ++ [e]) (Some n)).
Proof.
  intros ->. unfold GlobalObjectiveValue.append, GlobalObjectiveValue.size. simpl.
  by rewrite (proj2 (Nat.leb_gt _ _)) by lia.
Qed.

Lemma evaluate_all_spec :
  evaluate g changes obj true =
  Ok (GlobalObjectiveValue.mk (news obj) (Some (length obj))).
Proof.
  clear Hnew Hold.
  unfold evaluate, GlobalObjectiveValue.makeWithFixedSize.
  enough (∀ l pre b, l ⊆ obj →
    evaluate_loop g changes true b
      (GlobalObjectiveValue.mk pre (Some (length pre + length l)%nat)) l =
    Ok (GlobalObjectiveValue.mk (pre ++ news l) (Some (length pre + length l)%nat))) as Hgen
    by (by apply (Hgen obj [])).
  induction l as [|e l IH]; intros pre b Hin; simpl; [by rewrite app_nil_r|].
  rewrite Hnv by (apply Hin; set_solver). simpl. rewrite (append_ok _ _ l) by done. simpl.
  replace (length pre + S (length l))%nat with (length (pre ++ [nv e]) + length l)%nat
    by (rewrite length_app; simpl; lia).
  rewrite IH by set_solver. by rewrite <- app_assoc.
Qed.

Lemma evaluate_cut :
  evaluate g changes obj false =
  Ok (GlobalObjectiveValue.mk (cut false (olds obj) (news obj)) (Some (length obj))).
Proof.
  clear Hnew Hold.
  unfold evaluate, GlobalObjectiveValue.makeWithFixedSize.
  enough (∀ l pre b, l ⊆ obj →
    evaluate_loop g changes false b
      (GlobalObjectiveValue.mk pre (Some (length pre + length l)%nat)) l =
    Ok (GlobalObjectiveValue.mk (pre ++ cut b (olds l) (news l))
          (Some (length pre + length l)%nat))) as Hgen by (by apply (Hgen obj [])).
  induction l as [|e l IH]; intros pre b Hin; simpl; [by rewrite app_nil_r|].
  rewrite Hnv by (apply Hin; set_solver). simpl. rewrite (append_ok _ _ l) by done. simpl.
  assert (∀ b', evaluate_loop g changes false b'
      (GlobalObjectiveValue.mk (pre ++ [nv e]) (Some (length pre + S (length l))%nat)) l =
    Ok (GlobalObjectiveValue.mk (pre ++ nv e :: cut b' (olds l) (news l))
          (Some (length pre + S (length l))%nat))) as Hrec.
  { intros b'. replace (length pre + S (length l))%nat with (length (pre ++ [nv e]) + length l)%nat
      by (rewrite length_app; simpl; lia).
    rewrite IH by set_solver. by rewrite <- app_assoc. }
  destruct (_ <? _)%D; [by rewrite Hrec|]. destruct (_ && _); [done|by rewrite Hrec].
Qed.

(** The tuple is complete, or it is a prefix that already shows that the
    changes make the objective worse. *)
Lemma evaluate_some_spec :
  ∃ k, evaluate g changes obj false =
    Ok (GlobalObjectiveValue.mk (news (take k obj)) (Some (length obj))) ∧
    (k = length obj ∨
     ((k ≤ length obj)%nat ∧
      GlobalObjectiveValue.dominates (olds obj) (news (take k obj)))).
Proof.
  unfold evaluate, GlobalObjectiveValue.makeWithFixedSize.
  enough (∀ l pre b, l ⊆ obj →
    ∃ k, evaluate_loop g changes false b
      (GlobalObjectiveValue.mk pre (Some (length pre + length l)%nat)) l =
    Ok (GlobalObjectiveValue.mk (pre ++ news (take k l)) (Some (length pre + length l)%nat)) ∧
    (k = length l ∨ (b = false ∧ (k ≤ length l)%nat ∧
      GlobalObjectiveValue.dominates (olds l) (news (take k l))))) as Hgen.
  { destruct (Hgen obj [] false) as (k & E & Hk); [done|]. exists k. split; [exact E|].
    destruct Hk as [?|(_ & ? & ?)]; auto. }
  induction l as [|e l IH]; intros pre b Hin; simpl.
  { exists 0%nat. rewrite app_nil_r. auto. }
  assert (e ∈ obj) as He by (apply Hin; set_solver).
  rewrite Hnv by done. simpl. rewrite (append_ok _ _ l) by done. simpl.
  rewrite dlt_val by auto.
  assert (∀ b', ∃ k, evaluate_loop g changes false b'
      (GlobalObjectiveValue.mk (pre ++ [nv e]) (Some (length pre + S (length l))%nat)) l =
    Ok (GlobalObjectiveValue.mk (pre ++ news (take (S k) (e :: l)))
      (Some (length pre + S (length l))%nat)) ∧
    (k = length l ∨ (b' = false ∧ (k ≤ length l)%nat ∧
      GlobalObjectiveValue.dominates (olds l) (news (take k l))))) as Hrec.
  { intros b'. destruct (IH (pre ++ [nv e]) b') as (k & E & Hk); [set_solver|].
    exists k. split; [|done]. rewrite length_app in E. simpl in E.
    replace (length pre + 1 + length l)%nat with (length pre + S (length l))%nat in E by lia.
    rewrite E. simpl. by rewrite <- app_assoc. }
  destruct (Z.ltb_spec (val (nv e)) (val (expr_value g e))) as [Hlt|Hge].
  - destruct (Hrec true) as (k & -> & [Hk|[? _]]); [|done].
    exists (S k). split; [done|]. left. simpl. lia.
  - destruct (negb b && _) eqn:Hstop.
    + bool_to_prop. destruct (Precision.compare_sign defaultTolerances (nv e)
        (expr_value g e)) as (Hgt & _); [auto|auto|apply Precision.default_positive_tol|].
      exists 1%nat. split; [done|]. right. split_and!; [by destruct b|simpl; lia|].
      simpl. left. apply Hgt.
      destruct (Precision.compare_cases defaultTolerances (nv e) (expr_value g e))
        as [E|[E|E]]; rewrite ?E in *; done.
    + destruct (Hrec b) as (k & -> & Hk). exists (S k). split; [done|].
      destruct Hk as [->|(-> & ? & ?)]; [left; done|right].
      split_and!; [done|simpl; lia|]. simpl. right. split; [lia|done].
Qed.

(** Both comparisons of the partial tuple with the current one give what they
    would give for the complete tuple. *)
Lemma early_exit_agrees (p : PrecisionTolerances) :
  Precision.positive_tol p →
  ∃ v_all v_some, evaluate g changes obj true = Ok v_all ∧
    evaluate g changes obj false = Ok v_some ∧
    GlobalObjectiveValue.unsafeCompare v_some (getValue g obj) =
      GlobalObjectiveValue.unsafeCompare v_all (getValue g obj) ∧
    GlobalObjectiveValue.isStrictlyBetter v_some (getValue g obj) p =
      GlobalObjectiveValue.isStrictlyBetter v_all (getValue g obj) p ∧
    (GlobalObjectiveValue.isStrictlyBetter v_some (getValue g obj) p = Ok true →
     v_some = v_all).
Proof.
  intros Hp. destruct evaluate_some_spec as (k & -> & Hk). rewrite evaluate_all_spec.
  eexists _, _. split; [done|]. split; [done|].
  destruct Hk as [->|[Hk Hd]]; [by rewrite take_ge by lia|].
  assert (Forall fin (news obj)) as Hfn by (apply Forall_fmap, Forall_forall; auto).
  assert (Forall fin (olds obj)) as Hfo by (apply Forall_fmap, Forall_forall; auto).
  assert (Forall fin (news (take k obj))) as Hft by (rewrite fmap_take; by apply Forall_take).
  assert (GlobalObjectiveValue.dominates (olds obj) (news obj)) as Hd'.
  { rewrite <- (take_drop k obj) at 2. rewrite fmap_app. by apply dominates_app. }
  pose proof (proj2 (GlobalObjectiveValue.unsafeCompare_loop_spec _ _ Hft Hfo))
    as [_ Hc]. specialize (Hc (GlobalObjectiveValue.dominates_lex _ _ Hd)).
  pose proof (proj2 (GlobalObjectiveValue.unsafeCompare_loop_spec _ _ Hfn Hfo))
    as [_ Hc']. specialize (Hc' (GlobalObjectiveValue.dominates_lex _ _ Hd')).
  pose proof (dominated_isStrictlyBetter p _ _ Hp Hft Hfo Hd) as Hb.
  pose proof (dominated_isStrictlyBetter p _ _ Hp Hfn Hfo Hd') as Hb'.
  unfold GlobalObjectiveValue.unsafeCompare, GlobalObjectiveValue.isStrictlyBetter,
    GlobalObjectiveValue.isPartial, GlobalObjectiveValue.size. cbn [GlobalObjectiveValue.values
    GlobalObjectiveValue.tupleSize getValue]. rewrite Hc, Hc', Hb, Hb'.
  rewrite !length_fmap, length_take, !Nat.eqb_refl.
  destruct obj as [|e l]; [done|]. destruct k; [done|]. simpl in Hk |- *.
  rewrite (Nat.min_l k (length l)) by lia.
  destruct (length l =? k)%nat eqn:E; simpl; [|done].
  apply Nat.eqb_eq in E. subst k. rewrite Nat.eqb_refl. done.
Qed.
End early_exit.
End values.
End GlobalObjective.

(** ** LocalSearchObjective: objectives and penalties interleaved *)
Module LocalSearchObjective.

Record t := mk { combinedObjective : GlobalObjective.t; hasPenalty : bool }.

Definition buildCombinedObjective (zero : Z) (globalObjective penaltyObjective : GlobalObjective.t)
    (begin end_ : Z) : result GlobalObjective.t :=
  let b := Z.to_nat (Z.max 0 begin) in
  let e := Z.to_nat (Z.min end_ (Z.of_nat (length globalObjective))) in
  if (length penaltyObjective =? 0)%nat
  then Ok (GlobalObjective.getRange zero globalObjective (Z.of_nat b) (Z.of_nat e))
  else if negb (length globalObjective =? length penaltyObjective)%nat
  then Throw (runtime_error "Global and Penalty objectives have different sizes")
  else
    builder ← foldM (λ builder pos,
      let searchPos := (2 * (pos - b))%nat in
      g ← at_ (GlobalObjective.getObjectiveAt globalObjective pos);
      p ← at_ (GlobalObjective.getObjectiveAt penaltyObjective pos);
      Ok (GlobalObjective.setObjective
            (GlobalObjective.setObjective builder searchPos g) (searchPos + 1) p))
      [] (seq b (e - b));
    Ok (GlobalObjective.build zero builder).

Definition make (zero : Z) (globalObjective penaltyObjective : GlobalObjective.t)
    (begin end_ : Z) : result t :=
  c ← buildCombinedObjective zero globalObjective penaltyObjective begin end_;
  Ok (mk c (negb (length penaltyObjective =? 0)%nat)).

(** Every objective followed by its penalty. *)
Definition interleave (l1 l2 : list Z) : list Z := zip l1 l2 ≫= λ '(g, p), [g; p].

Lemma interleave_snoc l1 l2 x y :
  length l1 = length l2 → interleave (l1 ++ [x]) (l2 ++ [y]) = interleave l1 l2 ++ [x; y].
Proof. intros E. unfold interleave. by rewrite zip_with_app, bind_app by done. Qed.

Lemma length_interleave l1 l2 :
  length l1 = length l2 → length (interleave l1 l2) = (2 * length l1)%nat.
Proof.
  revert l2. induction l1 as [|x l1 IH]; intros [|y l2] E; try done.
  injection E as E. specialize (IH l2 E). change (interleave (x :: l1) (y :: l2)) with (x :: y :: interleave l1 l2).
  simpl in *. lia.
Qed.

Lemma buildCombinedObjective_spec zero obj pen :
  obj ≠ [] → length obj = length pen →
  buildCombinedObjective zero obj pen 0 (Z.of_nat (length obj)) = Ok (interleave obj pen).
Proof.
  intros Hne E. unfold buildCombinedObjective.
  rewrite Z.min_id, Nat2Z.id. change (Z.to_nat (Z.max 0 0)) with 0%nat.
  rewrite <- E, Nat.eqb_refl, Nat.sub_0_r.
  destruct (Nat.eqb_spec (length obj) 0) as [|Hlen]; [by destruct obj|]. simpl negb. cbn match.
  match goal with |- (?m ≫= _) = _ => enough (m = Ok (Some <$> interleave obj pen)) as -> end.
  { simpl. rewrite GlobalObjective.build_Some; [done|]. intros Hi.
    apply (f_equal length) in Hi. rewrite length_interleave in Hi by done. simpl in Hi. lia. }
  enough (∀ n, (n ≤ length obj)%nat →
    foldM (λ builder pos,
      let searchPos := (2 * (pos - 0))%nat in
      g ← at_ (GlobalObjective.getObjectiveAt obj pos);
      p ← at_ (GlobalObjective.getObjectiveAt pen pos);
      Ok (GlobalObjective.setObjective
            (GlobalObjective.setObjective builder searchPos g) (searchPos + 1) p))
      [] (seq 0 n) = Ok (Some <$> interleave (take n obj) (take n pen))) as Hgen.
  { rewrite Hgen by done. rewrite firstn_all, E, firstn_all. done. }
  induction n as [|n IH]; intros Hn; [done|].
  rewrite seq_S, foldM_app, IH by lia. simpl mbind. cbn [foldM Nat.add]. unfold GlobalObjective.getObjectiveAt.
  destruct (lookup_lt_is_Some_2 obj n) as [x Hx]; [lia|].
  destruct (lookup_lt_is_Some_2 pen n) as [y Hy]; [lia|].
  rewrite Hx, Hy. simpl. rewrite (take_S_r _ _ x Hx), (take_S_r _ _ y Hy).
  rewrite interleave_snoc by (rewrite !length_take; lia). rewrite fmap_app. simpl.
  assert (length (interleave (take n obj) (take n pen)) = (2 * n)%nat) as Hl
    by (rewrite length_interleave; rewrite !length_take; lia).
  f_equal. set (b := Some <$> interleave (take n obj) (take n pen)).
  assert (length b = (2 * n)%nat) as Hb by (unfold b; by rewrite length_fmap).
  replace (n - 0 + (n - 0 + 0))%nat with (length b) by lia.
  rewrite GlobalObjective.setObjective_snoc.
  replace (length b + 1)%nat with (length (b ++ [Some x])) by (rewrite length_app; simpl; lia).
  by rewrite GlobalObjective.setObjective_snoc, <- app_assoc.
Qed.

Section values.
Context `{G : ExpressionGraph}.

Definition getValue (g : Graph) (o : t) : LocalSearchObjectiveValue.t :=
  LocalSearchObjectiveValue.mk (GlobalObjective.getValue g (combinedObjective o)) (hasPenalty o).

Definition evaluate (g : Graph) (changes : ChangeSet.t) (o : t) (evaluateAllTuples : bool)
    : result LocalSearchObjectiveValue.t :=
  v ← GlobalObjective.evaluate g changes (combinedObjective o) evaluateAllTuples;
  Ok (LocalSearchObjectiveValue.mk v (hasPenalty o)).
End values.
End LocalSearchObjective.
