(* ===== verification/Problem.v ===== *)
(** * Problem: applying changes and taking them back

    The part of solver/utils/Problem.cpp that changes the state of the search:
    [apply], [tryApply] with its rollback, and what they call. *)

From S2P Require Import Prelude Double Precision ObjectiveValue ChangeSet Assignment.
From S2P Require Import EntityAttributes Objective.

Inductive ApplyStatus :=
  | APPLIED
  | VIOLATES_CONSTRAINT
  | WORSENS_HIGHER_PRIORITY_OBJECTIVE
  | DOES_NOT_IMPROVE_OBJECTIVE.

#[export] Instance ApplyStatus_eq_dec : EqDecision ApplyStatus.
Proof. solve_decision. Defined.

(** The flags of [MoveStatsAggregatorConfig] the solver reads. *)
Record MoveStatsConfig := {
  trackContainers : bool;
  trackObjects : bool;
  showAllChangedObjectivesInMovesSummary : bool
}.

Record ApplyResult := mkApplyResult {
  objectiveBefore : GlobalObjectiveValue.t;
  objectiveAfter : GlobalObjectiveValue.t
}.

(** ** Taking a move set back *)
Section undo.
Context (hash : Z → Z → Z → Z).

(** The moves were built by the constructor of [Move]. *)
Definition made (m : Move) : Prop :=
  m = makeMove hash (move_object m) (srcContainer m) (dstContainer m).

Definition flip_move (m : Move) : Move :=
  makeMove hash (move_object m) (dstContainer m) (srcContainer m).

(** The moves in reverse order, each from its destination to its source. *)
Definition undo (ms : list Move) : list Move := flip_move <$> reverse ms.

Lemma undo_made ms : Forall made (undo ms).
Proof. apply Forall_fmap, Forall_forall. by intros m _. Qed.

Lemma undo_objects ms : move_object <$> undo ms = reverse (move_object <$> ms).
Proof. unfold undo. by rewrite <- list_fmap_compose, <- fmap_reverse. Qed.

Lemma invert_changes ms :
  ChangeSet.invert <$> reverse (ms ≫= move_changes) = undo ms ≫= move_changes.
Proof.
  induction ms as [|m ms IH]; [done|]. unfold undo in *.
  rewrite bind_cons, reverse_app, fmap_app, IH, reverse_cons, fmap_app, bind_app. done.
Qed.

(** The inverse of the changes of a move set is the changes of the moves
    taken back. *)
Lemma getInverse_moves ms :
  ChangeSet.getInverse (MoveSet_getChangeSet ms) = Ok (MoveSet_getChangeSet (undo ms)).
Proof.
  rewrite ChangeSet.getInverse_spec by apply MoveSet_getChangeSet_wf. f_equal.
  rewrite (ChangeSet.wf_fromVector (MoveSet_getChangeSet (undo ms)))
    by apply MoveSet_getChangeSet_wf.
  by rewrite !MoveSet_changes, invert_changes.
Qed.

Lemma place_undo ms otc :
  NoDup (move_object <$> ms) →
  (∀ m, m ∈ ms → otc !! move_object m = Some (srcContainer m)) →
  place (undo ms) (place ms otc) = otc.
Proof.
  revert otc. induction ms as [|m ms IH] using rev_ind; intros otc Hnd Hs; [done|].
  rewrite fmap_app in Hnd. apply NoDup_app in Hnd as (Hnd & Hdis & _).
  assert (move_object m ∉ move_object <$> ms) as Hm by (intros Hin; apply (Hdis _ Hin); set_solver).
  unfold undo. rewrite reverse_app, fmap_app. simpl.
  unfold place in *. rewrite foldl_snoc. simpl.
  rewrite insert_insert_eq, insert_id.
  - apply IH; [done|]. intros m' Hm'. apply Hs. set_solver.
  - fold (place ms otc).
    rewrite place_ne by done. apply Hs. set_solver.
Qed.
End undo.

Module Problem.
Section problem.
Context `{G : ExpressionGraph} `{HO : HashOrder} {A : Type} `{EA : EntityAttributes A}.
Context (hash : Z → Z → Z → Z).

Record t := mk {
  objective : GlobalObjective.t;
  penaltyObjective : GlobalObjective.t;
  labeledHardConstraints : list Z;
  labeledObjectives : list (list Z);
  labeledPenalties : list (list Z);
  assignment : Assignment.t;
  fixed_objects : gset Z;
  graph : Graph;                                   (* orchestrator_ *)
  entityAttributesStore : EntityAttributesStore.t A;
  moveObjectsOnce : bool;                          (* universe_->getMoveObjectsOnce() *)
  validateAppliedMoves : bool;                     (* configs *)
  moveStats : MoveStatsConfig;                     (* moveStatsAggregatorConfig *)
  precision : PrecisionTolerances                  (* universe_->getPrecision() *)
}.

Definition set_state (p : t) (a : Assignment.t) (g : Graph) (s : EntityAttributesStore.t A) : t :=
  mk (objective p) (penaltyObjective p) (labeledHardConstraints p) (labeledObjectives p)
     (labeledPenalties p) a (fixed_objects p) g s
     (moveObjectsOnce p) (validateAppliedMoves p) (moveStats p) (precision p).

Definition set_fixed_objects (p : t) (s : gset Z) : t :=
  mk (objective p) (penaltyObjective p) (labeledHardConstraints p) (labeledObjectives p)
     (labeledPenalties p) (assignment p) s (graph p)
     (entityAttributesStore p) (moveObjectsOnce p) (validateAppliedMoves p) (moveStats p) (precision p).

(** The loop of [applyChanges]: only the additions move objects. *)
Definition moveAll (a : Assignment.t) (changes : list Change) : result Assignment.t :=
  foldM (λ a c, if value c =? 1 then Assignment.moveTo a (object c) (container c) else Ok a)
    a changes.

(** [partialApply] runs the orchestrator on a cleared context. *)
Definition applyChanges (p : t) (changes : ChangeSet.t) : result (t * ApplyResult) :=
  _ ← MoveSet_fromChangeSet hash changes;
  let before := GlobalObjective.getValue (graph p) (objective p) in
  a ← moveAll (assignment p) (ChangeSet.changes changes);
  g ← graph_apply (graph p) changes a;
  let p' := set_state p a g (EntityAttributesStore.updateOnApply (entityAttributesStore p) changes) in
  Ok (p', mkApplyResult before (GlobalObjective.getValue g (objective p))).

Definition maybeFixMovedObjects (p : t) (changes : ChangeSet.t) : t :=
  if negb (moveObjectsOnce p) then p
  else set_fixed_objects p
    (foldl (λ s c, if value c =? 1 then {[object c]} ∪ s else s)
       (fixed_objects p) (ChangeSet.changes changes)).

Definition apply (p : t) (changes : ChangeSet.t) : result (t * ApplyResult) :=
  '(p', r) ← applyChanges p changes;
  Ok (maybeFixMovedObjects p' changes, r).

Definition tryApply (p : t) (changes : ChangeSet.t) (validate : t → result ApplyStatus)
    : result (t * ApplyStatus) :=
  '(p1, _) ← applyChanges p changes;
  status ← validate p1;
  if decide (status ≠ APPLIED) then
    inverse ← ChangeSet.getInverse changes;
    '(p2, _) ← applyChanges p1 inverse;
    Ok (p2, status)
  else Ok (maybeFixMovedObjects p1 changes, status).

(** ** What [applyChanges] does on a move set *)

Record same_config (p p' : t) : Prop := {
  cfg_objective : objective p' = objective p;
  cfg_penalty : penaltyObjective p' = penaltyObjective p;
  cfg_constraints : labeledHardConstraints p' = labeledHardConstraints p;
  cfg_labels : labeledObjectives p' = labeledObjectives p;
  cfg_penalty_labels : labeledPenalties p' = labeledPenalties p;
  cfg_once : moveObjectsOnce p' = moveObjectsOnce p;
  cfg_validate : validateAppliedMoves p' = validateAppliedMoves p;
  cfg_stats : moveStats p' = moveStats p;
  cfg_precision : precision p' = precision p
}.

#[global] Instance same_config_preorder : PreOrder same_config.
Proof.
  split; [by intros p; split|]. intros p q r [] []. split; congruence.
Qed.

Lemma moveAll_spec ms a :
  Assignment.inv a →
  (∀ m, m ∈ ms → is_Some (Assignment.objectToContainer a !! move_object m)) →
  ∃ a', moveAll a (ms ≫= move_changes) = Ok a' ∧ Assignment.inv a' ∧
    Assignment.same_problem a a' ∧
    Assignment.objectToContainer a' =
      place ms (Assignment.objectToContainer a).
Proof.
  unfold moveAll. revert a. induction ms as [|m ms IH]; intros a Ha Hs.
  - exists a. by split_and!.
  - rewrite bind_cons, foldM_app. cbn [move_changes foldM value removal addition object
      container Z.eqb Pos.eqb]. cbn [mbind result_bind].
    destruct (Assignment.moveTo_spec a (move_object m) (dstContainer m)) as
      (a1 & -> & H1 & [S1 S2] & E1); [done|apply Hs; set_solver|].
    cbn [mbind result_bind]. destruct (IH a1) as (a2 & -> & H2 & [S3 S4] & E2); [done| |].
    + intros m' Hm'. rewrite E1. destruct (decide (move_object m = move_object m')) as [->|Hne];
        [rewrite lookup_insert_eq; by eexists|].
      rewrite lookup_insert_ne by done. apply Hs. set_solver.
    + exists a2. split_and!; [done|done|split; congruence|]. by rewrite E2, E1.
Qed.

(** The index by equivalence sets is kept. *)
Abbreviation indexed p es := (Assignment.isIndexedByEquivalentSets (assignment p) es).

Lemma moveAll_indexed changes es : ∀ a a', moveAll a changes = Ok a' →
  Assignment.isIndexedByEquivalentSets a' es = Assignment.isIndexedByEquivalentSets a es.
Proof.
  unfold moveAll. induction changes as [|c changes IH]; intros a a'; simpl; [by intros [= <-]|].
  destruct (value c =? 1); [|apply IH]. intros (a1 & E1 & H)%bind_Ok.
  rewrite (IH a1 a' H). by eapply Assignment.moveTo_indexed.
Qed.

Lemma applyChanges_indexed p changes p' r es : applyChanges p changes = Ok (p', r) → indexed p' es = indexed p es.
Proof.
  unfold applyChanges. intros (ms & _ & H)%bind_Ok. apply bind_Ok in H as (a & Ea & H).
  apply bind_Ok in H as (g & _ & [= <- <-]). simpl. by eapply moveAll_indexed.
Qed.

Lemma maybeFix_indexed p changes es : indexed (maybeFixMovedObjects p changes) es = indexed p es.
Proof. unfold maybeFixMovedObjects. by destruct (negb _). Qed.

Lemma tryApply_indexed p changes validate p' status es :
  tryApply p changes validate = Ok (p', status) → indexed p' es = indexed p es.
Proof.
  unfold tryApply. intros ([p1 r] & E1 & H)%bind_Ok. apply applyChanges_indexed with (es := es) in E1.
  apply bind_Ok in H as (st & _ & H). rewrite <-E1. case_decide.
  - apply bind_Ok in H as (inverse & _ & H). apply bind_Ok in H as ([p2 r2] & E2 & [= <- _]).
    by eapply applyChanges_indexed.
  - injection H as <- _. apply maybeFix_indexed.
Qed.

(** The moves start from where the objects are. *)
Definition current (p : t) (ms : list Move) : Prop :=
  ∀ m, m ∈ ms →
    Assignment.objectToContainer (assignment p) !! move_object m = Some (srcContainer m).

(** Moves of distinct objects, each from the container the object is in. *)
Record legal (p : t) (ms : list Move) : Prop := {
  legal_distinct : NoDup (move_object <$> ms);
  legal_made : Forall (made hash) ms;
  legal_current : current p ms
}.

Lemma maybeFix_config p cs :
  same_config p (maybeFixMovedObjects p cs) ∧
  assignment (maybeFixMovedObjects p cs) = assignment p ∧
  graph (maybeFixMovedObjects p cs) = graph p ∧
  entityAttributesStore (maybeFixMovedObjects p cs) = entityAttributesStore p.
Proof. unfold maybeFixMovedObjects. destruct (negb _); (split; [by split|done]). Qed.

Section lawful.
Context `{LG : !LawfulGraph G}.

(** The object map, the containers, the indexes and the expression values all
    describe the same placement. *)
Record wf (p : t) : Prop := {
  wf_assignment : Assignment.inv (assignment p);
  wf_graph : graph_inv (graph p) (Assignment.objectToContainer (assignment p))
}.

Lemma applyChanges_spec p ms :
  wf p → legal p ms →
  ∃ p' r, applyChanges p (MoveSet_getChangeSet ms) = Ok (p', r) ∧
    wf p' ∧ same_config p p' ∧ fixed_objects p' = fixed_objects p ∧
    Assignment.same_problem (assignment p) (assignment p') ∧
    Assignment.objectToContainer (assignment p') =
      place ms (Assignment.objectToContainer (assignment p)) ∧
    entityAttributesStore p' =
      EntityAttributesStore.updateOnApply (entityAttributesStore p) (MoveSet_getChangeSet ms) ∧
    objectiveBefore r = GlobalObjective.getValue (graph p) (objective p) ∧
    objectiveAfter r = GlobalObjective.getValue (graph p') (objective p').
Proof.
  intros [Ha Hg] [Hnd Hmk Hs]. unfold applyChanges.
  destruct (fromChangeSet_getChangeSet hash ms Hnd) as (ms' & -> & _).
  { intros m Hm. by apply (proj1 (Forall_forall _ _) Hmk). }
  simpl. rewrite MoveSet_changes.
  destruct (moveAll_spec ms (assignment p) Ha) as (a' & -> & H1 & H2 & H3).
  { intros m Hm. rewrite (Hs m Hm). by eexists. }
  simpl. destruct (graph_apply_moves (graph p) _ ms a' Hg Hnd Hs H1 H3) as (g' & -> & Hg').
  simpl. eexists _, _. split; [done|]. split_and!; try done. split; [done|]. simpl.
  by rewrite H3.
Qed.

(** Taking back moves that have just been applied. *)
Lemma legal_undo p p1 ms :
  legal p ms →
  Assignment.objectToContainer (assignment p1) =
    place ms (Assignment.objectToContainer (assignment p)) →
  legal p1 (undo hash ms).
Proof.
  intros [Hnd Hmk Hs] E. split.
  - by rewrite undo_objects, reverse_Permutation.
  - apply undo_made.
  - intros m Hm. unfold undo in Hm. apply list_elem_of_fmap in Hm as (m0 & -> & Hm0).
    rewrite elem_of_reverse in Hm0. rewrite E. simpl. by apply place_in.
Qed.

Lemma rollback_spec p p1 ms :
  wf p1 → legal p ms →
  Assignment.objectToContainer (assignment p1) =
    place ms (Assignment.objectToContainer (assignment p)) →
  ∃ p2 r, applyChanges p1 (MoveSet_getChangeSet (undo hash ms)) = Ok (p2, r) ∧
    wf p2 ∧ same_config p1 p2 ∧ fixed_objects p2 = fixed_objects p1 ∧
    Assignment.same_problem (assignment p1) (assignment p2) ∧
    Assignment.objectToContainer (assignment p2) =
      Assignment.objectToContainer (assignment p).
Proof.
  intros Hw Hl E.
  destruct (applyChanges_spec p1 (undo hash ms) Hw (legal_undo p p1 ms Hl E))
    as (p2 & r & E2 & W2 & C2 & F2 & S2 & O2 & _).
  exists p2, r. split_and!; try done. rewrite O2, E. apply place_undo; apply Hl.
Qed.

(** ** The containers stay within a set *)

Definition within (C : gset Z) (p : t) : Prop :=
  dom (Assignment.containerToObjects (assignment p)) ⊆ C.

Lemma moveAll_within C ms a a' :
  Assignment.inv a → dom (Assignment.containerToObjects a) ⊆ C →
  (∀ m, m ∈ ms → is_Some (Assignment.objectToContainer a !! move_object m)) →
  (∀ m, m ∈ ms → dstContainer m ∈ C) →
  moveAll a (ms ≫= move_changes) = Ok a' → dom (Assignment.containerToObjects a') ⊆ C.
Proof.
  unfold moveAll. revert a. induction ms as [|m ms IH]; intros a Ha Hd Hs Hdst.
  - intros [= <-]. done.
  - rewrite bind_cons, foldM_app. cbn [move_changes foldM value removal addition object
      container Z.eqb Pos.eqb]. cbn [mbind result_bind].
    destruct (Assignment.moveTo_spec a (move_object m) (dstContainer m))
      as (a1 & E1 & H1 & _ & O1); [done|apply Hs; set_solver|].
    rewrite E1. cbn [mbind result_bind]. apply IH; [done| | |set_solver].
    + pose proof (Assignment.moveTo_containers _ _ _ _ Ha E1).
      specialize (Hdst m). set_solver.
    + intros m' Hm'. rewrite O1. apply lookup_insert_is_Some'. right. apply Hs. set_solver.
Qed.

Lemma applyChanges_within C p ms p' r :
  wf p → legal p ms → within C p → (∀ m, m ∈ ms → dstContainer m ∈ C) →
  applyChanges p (MoveSet_getChangeSet ms) = Ok (p', r) → within C p'.
Proof.
  intros [Ha _] [_ _ Hs] Hw Hd. unfold applyChanges. intros E.
  apply bind_Ok in E as (ms' & _ & E). apply bind_Ok in E as (a' & Em & E).
  apply bind_Ok in E as (g' & _ & [= <- <-]). rewrite MoveSet_changes in Em.
  unfold within. simpl. eapply moveAll_within, Em; [done|done| |done].
  intros m Hm. rewrite (Hs m Hm). by eexists.
Qed.

Lemma within_undo C p ms m :
  wf p → legal p ms → within C p → m ∈ undo hash ms → dstContainer m ∈ C.
Proof.
  intros [Ha _] [_ _ Hs] Hw Hm. unfold undo in Hm.
  apply list_elem_of_fmap in Hm as (m0 & -> & Hm0). rewrite elem_of_reverse in Hm0.
  simpl. apply Hw. by eapply Assignment.inv_container, Hs.
Qed.

(** [apply] *)
Lemma apply_spec C p ms :
  wf p → legal p ms → within C p → (∀ m, m ∈ ms → dstContainer m ∈ C) →
  ∃ p' r, apply p (MoveSet_getChangeSet ms) = Ok (p', r) ∧
    wf p' ∧ within C p' ∧ same_config p p' ∧
    Assignment.objectToContainer (assignment p') =
      place ms (Assignment.objectToContainer (assignment p)).
Proof.
  intros Hw Hl Hc Hd. unfold apply.
  destruct (applyChanges_spec p ms Hw Hl) as (p1 & r & E1 & [W1 W2] & C1 & _ & _ & O1 & _).
  pose proof (applyChanges_within C p ms p1 r Hw Hl Hc Hd E1) as Hc1. rewrite E1.
  simpl. destruct (maybeFix_config p1 (MoveSet_getChangeSet ms)) as (C2 & EA2 & EG & _).
  eexists _, r. split_and!;
    [done|split; by rewrite ?EA2, ?EG|unfold within; by rewrite EA2| |by rewrite EA2].
  by transitivity p1.
Qed.

(** [tryApply]: it succeeds if the validation does; the moves stay in place
    exactly when the status is APPLIED, and otherwise every object is back in
    its container. *)
Lemma tryApply_spec C p ms (validate : t → result ApplyStatus) :
  wf p → legal p ms → within C p → (∀ m, m ∈ ms → dstContainer m ∈ C) →
  (∀ p1, is_Ok (validate p1) = true) →
  ∃ p' status,
    tryApply p (MoveSet_getChangeSet ms) validate = Ok (p', status) ∧
    wf p' ∧ within C p' ∧ same_config p p' ∧
    Assignment.same_problem (assignment p) (assignment p') ∧
    Assignment.objectToContainer (assignment p') =
      (if decide (status = APPLIED)
       then place ms (Assignment.objectToContainer (assignment p))
       else Assignment.objectToContainer (assignment p)) ∧
    (status ≠ APPLIED → fixed_objects p' = fixed_objects p).
Proof.
  intros Hw Hl Hc Hd Hv. unfold tryApply.
  destruct (applyChanges_spec p ms Hw Hl)
    as (p1 & r & E1 & W1 & C1 & F1 & S1 & O1 & _).
  pose proof (applyChanges_within C p ms p1 r Hw Hl Hc Hd E1) as Hc1. rewrite E1. simpl.
  pose proof (Hv p1) as Hok. destruct (validate p1) as [status|]; [|done]. simpl.
  destruct (decide (status ≠ APPLIED)) as [Hst|Hst].
  - rewrite (getInverse_moves hash). simpl.
    destruct (rollback_spec p p1 ms W1 Hl O1) as (p2 & r2 & E2 & W3 & C3 & F3 & S3 & O3).
    assert (within C p2) as Hc2.
    { eapply applyChanges_within, E2; [done|by apply (legal_undo p)|done|].
      intros m. by apply (within_undo C p). }
    rewrite E2. simpl. unfold Assignment.same_problem in *. destruct_and!.
    exists p2, status. rewrite decide_False by done.
    split_and!; try done; try congruence. by transitivity p1.
  - destruct (maybeFix_config p1 (MoveSet_getChangeSet ms)) as (C2 & EA2 & EG & _).
    unfold Assignment.same_problem in *. destruct_and!.
    assert (status = APPLIED) as -> by (by destruct (decide (status = APPLIED))).
    eexists _, APPLIED. rewrite decide_True by done. rewrite EA2.
    split_and!; try done; try congruence.
    + destruct W1. split; by rewrite ?EA2, ?EG.
    + unfold within. by rewrite EA2.
    + by transitivity p1.
Qed.
End lawful.
End problem.
Arguments t {G} A.
End Problem.
