(* ===== verification/Moves.v ===== *)
(** * Evaluating and applying moves

    [MoveResult] and [MovesEvaluator] of solver/moves: what a candidate move set
    would do to the constraints and the objectives, the best of many candidates,
    and the final check when the best one is applied. *)

From S2P Require Import Prelude Double Precision ObjectiveValue ChangeSet Assignment.
From S2P Require Import EntityAttributes Objective Problem.

(** ** MoveResult *)
Module MoveResult.

Record ObjectiveDelta := mkDelta {
  delta_objective : Z;
  delta_oldValue : double;
  delta_newValue : double;
  isPenalty : bool
}.

(** The labels of an invalid result: a hard constraint, or the position of a
    higher-priority objective that must not become worse. *)
Inductive Label := constraintLabel (e : Z) | doNotWorsenLabel (pos : nat).

Record t := mk {
  empty_ : bool;
  valid_ : bool;
  evalsCount_ : Z;
  moveSet_ : list Move;
  oldValue_ : LocalSearchObjectiveValue.t;
  newValue_ : LocalSearchObjectiveValue.t;
  arbiterValue_ : option GlobalObjectiveValue.t;
  objectiveDeltas_ : option (list (list ObjectiveDelta));
  objectiveDeltaIndexOffset_ : Z;
  invalidConstraints_ : option (list Label)
}.

Definition makeEmpty : t :=
  mk true false 0 [] LocalSearchObjectiveValue.empty LocalSearchObjectiveValue.empty
     None None 0 None.

Definition makeValid (moveSet : list Move) (oldValue newValue : LocalSearchObjectiveValue.t)
    (arbiterValue : option GlobalObjectiveValue.t)
    (objectiveDeltas : option (list (list ObjectiveDelta))) (offset : Z) : t :=
  mk false true 1 moveSet oldValue newValue arbiterValue objectiveDeltas offset None.

Definition makeInvalid (moveSet : list Move) (invalidConstraints : option (list Label)) : t :=
  mk false false 1 moveSet LocalSearchObjectiveValue.empty LocalSearchObjectiveValue.empty
     None None 0 invalidConstraints.

Definition isBetter (r : t) (p : PrecisionTolerances) : result bool :=
  if valid_ r
  then LocalSearchObjectiveValue.isStrictlyBetter (newValue_ r) (oldValue_ r) p
  else Ok false.

Definition isWorse (r : t) (p : PrecisionTolerances) : result bool :=
  if valid_ r
  then LocalSearchObjectiveValue.isStrictlyBetter (oldValue_ r) (newValue_ r) p
  else Ok false.

Definition isNeutral (r : t) (p : PrecisionTolerances) : result bool :=
  if valid_ r
  then b ← isBetter r p;
       if (b : bool) then Ok false else w ← isWorse r p; Ok (negb w)
  else Ok false.

Definition getFirstChangedObjectiveDelta (r : t) (p : PrecisionTolerances)
    : result (list ObjectiveDelta) :=
  deltas ← at_ (objectiveDeltas_ r);
  pos ← LocalSearchObjectiveValue.firstChangedPosition (newValue_ r) (oldValue_ r) p;
  let idx := objectiveDeltaIndexOffset_ r + match pos with Some n => Z.of_nat n | None => 0 end in
  at_ (if idx <? 0 then None else deltas !! Z.to_nat idx).

(** The loop of [getSmallestDeltaObjective]. *)
Definition smallestDelta (ds : list ObjectiveDelta) : option Z :=
  (foldl (λ '(best, obj) d,
     let delta := (delta_newValue d - delta_oldValue d)%D in
     if (delta <? best)%D then (delta, Some (delta_objective d)) else (best, obj))
     (dinf, None) ds).2.

Definition getSmallestDeltaObjective (r : t) (p : PrecisionTolerances) : result (option Z) :=
  match objectiveDeltas_ r with
  | None => Ok None
  | Some _ => ds ← getFirstChangedObjectiveDelta r p; Ok (smallestDelta ds)
  end.

Definition largestDelta (ds : list ObjectiveDelta) : option Z :=
  (foldl (λ '(best, obj) d,
     let delta := (delta_newValue d - delta_oldValue d)%D in
     if (best <? delta)%D then (delta, Some (delta_objective d)) else (best, obj))
     (dneginf, None) ds).2.

Definition getLargestDeltaObjective (r : t) (p : PrecisionTolerances) : result (option Z) :=
  match objectiveDeltas_ r with
  | None => Ok None
  | Some _ => ds ← getFirstChangedObjectiveDelta r p; Ok (largestDelta ds)
  end.

Definition getFirstInvalidConstraint (r : t) : option Label :=
  match invalidConstraints_ r with Some (l :: _) => Some l | _ => None end.

(** Everything but the count of evaluations. *)
Definition take_best (r other : t) (count : Z) : t :=
  mk (empty_ other) (valid_ other) count (moveSet_ other) (oldValue_ other) (newValue_ other)
     (arbiterValue_ other) (objectiveDeltas_ other) (objectiveDeltaIndexOffset_ other)
     (invalidConstraints_ other).

Definition aggregate (r other : t) : result t :=
  let count := evalsCount_ r + evalsCount_ other in
  compare ← LocalSearchObjectiveValue.unsafeCompare (newValue_ other) (newValue_ r);
  arbiter ← (match arbiterValue_ r, arbiterValue_ other with
             | Some mine, Some theirs =>
                 c ← GlobalObjectiveValue.unsafeCompare theirs mine; Ok (Some c)
             | _, _ => Ok None
             end);
  let arbitersImproved := match arbiter with Some c => c <? 0 | None => false end in
  let needsTieBreak :=
    (compare =? 0) && match arbiter with Some c => c =? 0 | None => true end in
  Ok (if (compare <? 0) || ((compare =? 0) && arbitersImproved)
         || ((compare =? 0) && needsTieBreak && (MoveSet_compare (moveSet_ r) (moveSet_ other) <? 0))
      then take_best r other count
      else take_best r r count).

(** The results of a batch are merged one after the other. *)
Definition aggregateAll (init : t) (rs : list t) : result t := foldM aggregate init rs.

(** ** The best of many results *)

Abbreviation values r :=
  (GlobalObjectiveValue.values (LocalSearchObjectiveValue.combinedValue (newValue_ r))).

(** The exact order on the values of results; an empty tuple is the largest. *)
Definition lt (v1 v2 : list double) : Prop :=
  GlobalObjectiveValue.value_lt (GlobalObjectiveValue.mk v1 None)
    (GlobalObjectiveValue.mk v2 None).

Lemma lt_irrefl v : ¬ lt v v.
Proof. apply GlobalObjectiveValue.value_lt_irrefl. Qed.

Lemma arbiter_compare_ok k (a b : GlobalObjectiveValue.t) :
  length (GlobalObjectiveValue.values a) = k → length (GlobalObjectiveValue.values b) = k →
  ∃ c, GlobalObjectiveValue.unsafeCompare a b = Ok c.
Proof.
  intros Ha Hb. unfold GlobalObjectiveValue.unsafeCompare, GlobalObjectiveValue.size.
  rewrite Ha, Hb, Nat.eqb_refl, orb_true_r.
  destruct (k =? 0)%nat; eexists; reflexivity.
Qed.

Lemma unsafeCompare_loop_cases l1 : ∀ l2,
  GlobalObjectiveValue.unsafeCompare_loop l1 l2 = -1 ∨
  GlobalObjectiveValue.unsafeCompare_loop l1 l2 = 0 ∨
  GlobalObjectiveValue.unsafeCompare_loop l1 l2 = 1.
Proof.
  induction l1 as [|x l1 IH]; intros [|y l2]; simpl; auto.
  destruct (negb _); [|auto]. destruct (_ <? _)%D; auto.
Qed.

(** The results that are merged have tuples of a family [F] in which no tuple
    continues another one; a tuple shorter than [n] is marked as partial.  The
    arbiter tuples all have length [k]. *)
Section best.
Context (F : list double → Prop) (n : nat) (pen : bool) (k : nat).
Context (HF : ∀ l1 l2, F l1 → F l2 → GlobalObjectiveValue.agree l1 l2 → length l1 = length l2).

Definition comparable (r : t) : Prop :=
  let v := LocalSearchObjectiveValue.combinedValue (newValue_ r) in
  Forall fin (GlobalObjectiveValue.values v) ∧
  (GlobalObjectiveValue.values v = [] ∨
   (F (GlobalObjectiveValue.values v) ∧
    LocalSearchObjectiveValue.hasPenalty (newValue_ r) = pen ∧
    (length (GlobalObjectiveValue.values v) = n ∨ GlobalObjectiveValue.isPartial v = true))).

Definition arbiter_comparable (r : t) : Prop :=
  ∀ a, arbiterValue_ r = Some a → length (GlobalObjectiveValue.values a) = k.

Definition in_family (v : list double) : Prop := v = [] ∨ F v.

Lemma comparable_family r : comparable r → in_family (values r).
Proof. intros [_ [?|(? & _)]]; [by left|by right]. Qed.

Lemma lt_cotrans v1 v2 v3 :
  in_family v1 → in_family v2 → lt v1 v3 → lt v1 v2 ∨ lt v2 v3.
Proof.
  unfold lt, GlobalObjectiveValue.value_lt; simpl. intros H1 H2 [[Hne ->]|Hlex].
  - destruct v2; [by left; left|right; by left].
  - destruct v2 as [|y v2]; [left; left; split; [by intros ->|done]|].
    destruct H1 as [->|H1]; [done|]. destruct H2 as [?|H2]; [done|].
    destruct (GlobalObjectiveValue.lex_lt_cotrans v1 (y :: v2) v3) as [?|?]; [by apply HF|done| |];
      [left|right]; by right.
Qed.

Lemma unsafeCompare_comparable r1 r2 :
  comparable r1 → comparable r2 →
  ∃ c, LocalSearchObjectiveValue.unsafeCompare (newValue_ r1) (newValue_ r2) = Ok c ∧
    (c < 0 ↔ lt (values r1) (values r2)) ∧ (0 < c ↔ lt (values r2) (values r1)).
Proof.
  intros [Hf1 H1] [Hf2 H2].
  unfold LocalSearchObjectiveValue.unsafeCompare, LocalSearchObjectiveValue.validateCompatible,
    GlobalObjectiveValue.unsafeCompare, GlobalObjectiveValue.size,
    lt, GlobalObjectiveValue.value_lt.
  pose proof (GlobalObjectiveValue.unsafeCompare_loop_spec _ _ Hf1 Hf2) as [Ha Hb].
  pose proof (unsafeCompare_loop_cases (values r1) (values r2)) as Hc.
  destruct (values r1) as [|x l1] eqn:E1, (values r2) as [|y l2] eqn:E2.
  1-3: eexists; split; [done|]; cbn; split; split; intros; try lia; naive_solver.
  destruct H1 as [?|(_ & P1 & L1)]; [done|]. destruct H2 as [?|(_ & P2 & L2)]; [done|].
  rewrite P1, P2, eqb_reflx, andb_false_r. cbn [mbind result_bind].
  replace (negb _) with false.
  2: { symmetry. apply negb_false_iff. destruct L1 as [L1| ->]; [|done].
       destruct L2 as [L2| ->]; [|by rewrite orb_true_r]. by rewrite L1, L2, Nat.eqb_refl, orb_true_r. }
  cbn [length Nat.eqb]. eexists. split; [reflexivity|].
  split; (split; [intros ?; right|intros [[? ?]|?]]); try done; intuition lia.
Qed.

(** [aggregate] keeps one of the two results, no worse than the other. *)
Lemma aggregate_spec r o :
  comparable r → comparable o → arbiter_comparable r → arbiter_comparable o →
  ∃ r', aggregate r o = Ok r' ∧
    (∃ x, (x = r ∨ x = o) ∧ r' = take_best r x (evalsCount_ r + evalsCount_ o)) ∧
    comparable r' ∧ arbiter_comparable r' ∧
    ¬ lt (values r) (values r') ∧ ¬ lt (values o) (values r').
Proof.
  intros Hr Ho Ar Ao. unfold aggregate.
  destruct (unsafeCompare_comparable o r Ho Hr) as (c & -> & Hlt & Hgt).
  cbn [mbind result_bind].
  assert (∃ ac, (match arbiterValue_ r, arbiterValue_ o with
      | Some mine, Some theirs =>
          c ← GlobalObjectiveValue.unsafeCompare theirs mine; Ok (Some c)
      | _, _ => Ok None
      end) = Ok ac) as (ac & ->).
  { destruct (arbiterValue_ r) as [mine|] eqn:E1, (arbiterValue_ o) as [theirs|] eqn:E2; eauto.
    destruct (arbiter_compare_ok k theirs mine) as (x & ->); eauto. }
  cbn [mbind result_bind]. eexists. split; [reflexivity|].
  destruct (_ || _) eqn:Ec.
  - split_and!; [exists o; auto|done|done| |apply lt_irrefl].
    change (¬ lt (values r) (values o)). rewrite <- Hgt.
    apply orb_true_iff in Ec as [[?|?]%orb_true_iff|?]; bool_to_prop; lia.
  - split_and!; [exists r; auto|done|done|apply lt_irrefl|].
    change (¬ lt (values o) (values r)). rewrite <- Hlt. bool_to_prop. lia.
Qed.

(** Over a whole batch: the final result is one of the candidates and none of
    them is strictly better; the evaluations add up. *)
Lemma aggregateAll_spec rs : ∀ init,
  comparable init → arbiter_comparable init →
  Forall comparable rs → Forall arbiter_comparable rs →
  ∃ best, aggregateAll init rs = Ok best ∧
    (∃ x, (x = init ∨ x ∈ rs) ∧ best = take_best x x (evalsCount_ best)) ∧
    comparable best ∧ arbiter_comparable best ∧
    evalsCount_ best = foldl (λ s r, s + evalsCount_ r) (evalsCount_ init) rs ∧
    ¬ lt (values init) (values best) ∧
    ∀ r, r ∈ rs → ¬ lt (values r) (values best).
Proof.
  induction rs as [|r rs IH]; intros init Hi Ai Hrs Ars.
  - exists init. split; [done|]. split; [exists init; split; [auto|by destruct init]|].
    split; [done|]. split; [done|]. split; [done|]. split; [apply lt_irrefl|set_solver].
  - inversion_clear Hrs as [|? ? Hr Hrs']. inversion_clear Ars as [|? ? Ar Ars'].
    destruct (aggregate_spec init r Hi Hr Ai Ar)
      as (r1 & E1 & (x & Hx & ->) & H1 & A1 & L1 & L2).
    unfold aggregateAll in *. cbn [foldM]. rewrite E1. cbn [mbind result_bind].
    destruct (IH _ H1 A1 Hrs' Ars') as (best & -> & (y & Hy & Hy') & Hb & Hab & Hc & L3 & L4).
    exists best. split; [done|]. split; [|split; [done|split; [done|split; [done|split]]]].
    + destruct Hy as [->|Hy].
      * exists x. split; [destruct Hx as [-> | ->]; [by left|right; set_solver]|exact Hy'].
      * exists y. split; [right; set_solver|done].
    + intros Hl. apply (lt_cotrans _ (values (take_best init x
        (evalsCount_ init + evalsCount_ r)))) in Hl as [Hl|Hl]; by eauto using comparable_family.
    + intros r' [->|Hr']%elem_of_cons; [|by apply L4].
      intros Hl. apply (lt_cotrans _ (values (take_best init x
        (evalsCount_ init + evalsCount_ r)))) in Hl as [Hl|Hl]; by eauto using comparable_family.
Qed.
End best.
End MoveResult.

(** ** MovesEvaluator *)
Inductive Intent := MAX.

Record AllowedWorsening := {
  percent : double;
  absolute_worsening : double;
  intent : Intent
}.

(** [thriftUtils::getAllowedWorsenUntilValue] *)
Definition getAllowedWorsenUntilValue (currValue : double) (a : AllowedWorsening) : double :=
  let allowWorsenUntilRelValue := (currValue * (d1 + percent a / d100))%D in
  let allowWorsenUntilAbsValue := (currValue + absolute_worsening a)%D in
  match intent a with
  | MAX => dmax allowWorsenUntilRelValue allowWorsenUntilAbsValue
  end.

Module MovesEvaluator.

(** [DoNotWorsenGoalConfig] *)
Record DoNotWorsenGoalConfig := mkDoNotWorsen {
  goal : GlobalObjective.t;
  tuplePosToAllowedWorsenUntilValue : gmap Z double
}.

Record t := mk {
  objTupleBegin : Z;
  objTupleEnd : Z;
  doNotWorsenGoalConfig : DoNotWorsenGoalConfig;
  minimizingGoal : LocalSearchObjective.t;
  arbiterGoal : option GlobalObjective.t
}.

Section evaluator.
Context `{G : ExpressionGraph} `{HO : HashOrder} {A : Type} `{EA : EntityAttributes A}.
Context (hash : Z → Z → Z → Z).

(** [at(pos)] with an [int] position. *)
Definition at_pos {T} (l : list T) (pos : Z) : result T :=
  at_ (if pos <? 0 then None else l !! Z.to_nat pos).

Definition makeDoNotWorsen (zero : Z) (p : Problem.t A) (objTupleEnd : Z)
    (config : option (list (Z * AllowedWorsening))) : result DoNotWorsenGoalConfig :=
  if objTupleEnd =? 0 then Ok (mkDoNotWorsen [] ∅)
  else
    let goal := GlobalObjective.getRange zero (Problem.objective p) 0 objTupleEnd in
    allowed ← foldM (λ m '(tuplePos, allowedWorsening),
        e ← at_pos goal tuplePos;
        Ok (<[tuplePos := getAllowedWorsenUntilValue (expr_value (Problem.graph p) e)
                            allowedWorsening]> m))
      ∅ (default [] config);
    Ok (mkDoNotWorsen goal allowed).

(** The constructor. *)
Definition make (zero : Z) (p : Problem.t A) (objTupleBegin objTupleEnd : Z)
    (config : option (list (Z * AllowedWorsening))) : result t :=
  dnw ← makeDoNotWorsen zero p objTupleBegin config;
  mg ← LocalSearchObjective.make zero (Problem.objective p) (Problem.penaltyObjective p)
         objTupleBegin objTupleEnd;
  let size := Z.of_nat (length (Problem.objective p)) in
  if (objTupleBegin <? 0) || (size <? objTupleEnd)
  then Throw (runtime_error "Expected 0 <= objTupleBegin and objTupleEnd <= size of goal")
  else Ok (mk objTupleBegin objTupleEnd dnw mg
    (if objTupleEnd <? size
     then Some (GlobalObjective.getRange zero (Problem.objective p) objTupleEnd size)
     else None)).

Definition exceedsAllowedWorsening (prec : PrecisionTolerances) (d : DoNotWorsenGoalConfig)
    (pos : nat) (oldValue newValue : double) : bool :=
  if negb (Precision.isstrictlyGreater prec newValue oldValue) then false
  else match tuplePosToAllowedWorsenUntilValue d !! Z.of_nat pos with
       | None => true
       | Some allowedWorsenUntilValue =>
           Precision.isstrictlyGreater prec newValue allowedWorsenUntilValue
       end.

(** The loop of [hasWorsened] from position [pos] on. *)
Fixpoint hasWorsened_loop (prec : PrecisionTolerances) (d : DoNotWorsenGoalConfig)
    (newValue : GlobalObjectiveValue.t) (pos : nat) (olds : list double) : result bool :=
  match olds with
  | [] => Ok false
  | old :: olds =>
      new ← GlobalObjectiveValue.get newValue pos;
      if exceedsAllowedWorsening prec d pos old new then Ok true
      else hasWorsened_loop prec d newValue (S pos) olds
  end.

Definition hasWorsened (prec : PrecisionTolerances) (d : DoNotWorsenGoalConfig)
    (oldValue newValue : GlobalObjectiveValue.t) : result bool :=
  hasWorsened_loop prec d newValue 0 (GlobalObjectiveValue.values oldValue).

(** The loop of [getFirstWorseTuplePos] over the expressions of the goal. *)
Fixpoint firstWorse_loop (p : Problem.t A) (changes : ChangeSet.t) (d : DoNotWorsenGoalConfig)
    (pos : nat) (exprs : list Z) : result (option nat) :=
  match exprs with
  | [] => Ok None
  | e :: exprs =>
      new ← expr_evaluate (Problem.graph p) changes e;
      if exceedsAllowedWorsening (Problem.precision p) d pos (expr_value (Problem.graph p) e) new
      then Ok (Some pos)
      else firstWorse_loop p changes d (S pos) exprs
  end.

Definition getFirstWorseTuplePos (p : Problem.t A) (changes : ChangeSet.t)
    (d : DoNotWorsenGoalConfig) : result (option nat) :=
  firstWorse_loop p changes d 0 (goal d).

Definition isPositiveExpr (p : Problem.t A) (changes : ChangeSet.t) (e : Z) : result bool :=
  v ← expr_evaluate (Problem.graph p) changes e;
  Ok (Precision.isStrictlyGtZero (Problem.precision p) v).

(** [std::any_of] *)
Fixpoint anyPositive (p : Problem.t A) (changes : ChangeSet.t) (exprs : list Z) : result bool :=
  match exprs with
  | [] => Ok false
  | e :: exprs =>
      b ← isPositiveExpr p changes e;
      if (b : bool) then Ok true else anyPositive p changes exprs
  end.

Definition violatesConstraints (p : Problem.t A) : bool :=
  existsb (λ e, Precision.isStrictlyGtZero (Problem.precision p) (expr_value (Problem.graph p) e))
    (Problem.labeledHardConstraints p).

Definition checkMoves (p : Problem.t A) (moves : list Move) : result () :=
  foldM (λ _ m,
    c ← Assignment.getContainer (Problem.assignment p) (move_object m);
    if negb (c =? srcContainer m)
    then Throw (runtime_error "Attempting to move an object out of a container it is not in")
    else Ok ()) () moves.

Definition satisfiesConstraints (p : Problem.t A) (moves : list Move) : result bool :=
  _ ← checkMoves p moves;
  b ← anyPositive p (MoveSet_getChangeSet moves) (Problem.labeledHardConstraints p);
  Ok (negb b).

Definition violatesAny (p : Problem.t A) (constraints : list Z) (move : Move) : result bool :=
  match constraints with
  | [] => Ok false
  | _ => anyPositive p (Move_getChangeSet move) constraints
  end.

Definition shouldCollectMoveStats (p : Problem.t A) : bool :=
  trackContainers (Problem.moveStats p) || trackObjects (Problem.moveStats p).

Definition deltasOf (p : Problem.t A) (changes : ChangeSet.t) (pen : bool) (exprs : list Z)
    : result (list MoveResult.ObjectiveDelta) :=
  foldM (λ acc e,
    v ← expr_evaluate (Problem.graph p) changes e;
    Ok (acc ++ [MoveResult.mkDelta e (expr_value (Problem.graph p) e) v pen])) [] exprs.

(** The deltas and the tuple position of the first of them. *)
Definition getObjectiveDeltas (ev : t) (p : Problem.t A) (changes : ChangeSet.t)
    (objIdxEvaluatedUpto : Z) : result (option (list (list MoveResult.ObjectiveDelta)) * Z) :=
  if negb (shouldCollectMoveStats p) then Ok (None, objTupleBegin ev)
  else
    let all := showAllChangedObjectivesInMovesSummary (Problem.moveStats p) in
    let b := if all then 0 else objTupleBegin ev in
    let e := if all then Z.of_nat (length (Problem.objective p)) else objIdxEvaluatedUpto in
    deltas ← foldM (λ acc idx,
        let idx := b + Z.of_nat idx in
        objs ← at_pos (Problem.labeledObjectives p) idx;
        d1 ← deltasOf p changes false objs;
        d2 ← (if idx <? Z.of_nat (length (Problem.labeledPenalties p))
              then pens ← at_pos (Problem.labeledPenalties p) idx; deltasOf p changes true pens
              else Ok []);
        Ok (acc ++ [d1 ++ d2])) [] (seq 0 (Z.to_nat (e - b)));
    Ok (Some deltas, b).

Fixpoint firstPositive (p : Problem.t A) (changes : ChangeSet.t) (exprs : list Z)
    : result (option Z) :=
  match exprs with
  | [] => Ok None
  | e :: exprs =>
      b ← isPositiveExpr p changes e;
      if (b : bool) then Ok (Some e) else firstPositive p changes exprs
  end.

(** [getInvalidConstraints] with [getOnlyFirstInvalidConstraint] set. *)
Definition getFirstInvalidConstraints (p : Problem.t A) (changes : ChangeSet.t)
    : result (option (list MoveResult.Label)) :=
  if negb (shouldCollectMoveStats p) then Ok None
  else
    o ← firstPositive p changes (Problem.labeledHardConstraints p);
    Ok (Some (match o with Some e => [MoveResult.constraintLabel e] | None => [] end)).

Definition evaluate (ev : t) (p : Problem.t A) (moves : list Move) : result MoveResult.t :=
  _ ← checkMoves p moves;
  let changes := MoveSet_getChangeSet moves in
  violated ← anyPositive p changes (Problem.labeledHardConstraints p);
  if (violated : bool) then
    ls ← getFirstInvalidConstraints p changes;
    Ok (MoveResult.makeInvalid moves ls)
  else
    worse ← getFirstWorseTuplePos p changes (doNotWorsenGoalConfig ev);
    match worse with
    | Some pos => Ok (MoveResult.makeInvalid moves (Some [MoveResult.doNotWorsenLabel pos]))
    | None =>
        let currentValue := LocalSearchObjective.getValue (Problem.graph p) (minimizingGoal ev) in
        newValue ← LocalSearchObjective.evaluate (Problem.graph p) changes
                     (minimizingGoal ev) false;
        let upto := objTupleBegin ev + Z.of_nat (LocalSearchObjectiveValue.size newValue) in
        c ← LocalSearchObjectiveValue.unsafeCompare newValue currentValue;
        arbiterValue ← (if c <? 0 then
            match arbiterGoal ev with
            | Some ag => v ← GlobalObjective.evaluate (Problem.graph p) changes ag true; Ok (Some v)
            | None => Ok None
            end
          else Ok None);
        '(deltas, tupleBegin) ← getObjectiveDeltas ev p changes upto;
        Ok (MoveResult.makeValid moves currentValue newValue arbiterValue deltas
              (objTupleBegin ev - tupleBegin))
    end.

(** The validation [tryApply] passes to the problem. *)
Definition validate (ev : t) (oldGoal : GlobalObjectiveValue.t)
    (oldValue : LocalSearchObjectiveValue.t) (p : Problem.t A) : result ApplyStatus :=
  if violatesConstraints p then Ok VIOLATES_CONSTRAINT
  else
    w ← hasWorsened (Problem.precision p) (doNotWorsenGoalConfig ev) oldGoal
          (GlobalObjective.getValue (Problem.graph p) (goal (doNotWorsenGoalConfig ev)));
    if (w : bool) then Ok WORSENS_HIGHER_PRIORITY_OBJECTIVE
    else
      b ← LocalSearchObjectiveValue.isStrictlyBetter
            (LocalSearchObjective.getValue (Problem.graph p) (minimizingGoal ev))
            oldValue (Problem.precision p);
      Ok (if (b : bool) then APPLIED else DOES_NOT_IMPROVE_OBJECTIVE).

Definition tryApply (ev : t) (p : Problem.t A) (r : MoveResult.t)
    : result (Problem.t A * ApplyStatus) :=
  let changes := MoveSet_getChangeSet (MoveResult.moveSet_ r) in
  if negb (Problem.validateAppliedMoves p) then
    '(p', _) ← Problem.apply hash p changes;
    Ok (p', APPLIED)
  else
    let oldGoal := GlobalObjective.getValue (Problem.graph p) (goal (doNotWorsenGoalConfig ev)) in
    Problem.tryApply hash p changes (validate ev oldGoal (MoveResult.oldValue_ r)).

Lemma evaluator_tryApply_indexed ev p r p' status es : tryApply ev p r = Ok (p', status) →
  Assignment.isIndexedByEquivalentSets (Problem.assignment p') es =
    Assignment.isIndexedByEquivalentSets (Problem.assignment p) es.
Proof.
  unfold tryApply. destruct (negb _); [|by eapply Problem.tryApply_indexed].
  intros ([p1 x] & E & [= <- _])%bind_Ok. unfold Problem.apply in E. apply bind_Ok in E as ([p2 y] & E & [= <- _]).
  rewrite Problem.maybeFix_indexed. by eapply Problem.applyChanges_indexed.
Qed.

(** ** Evaluation *)

Lemma checkMoves_spec p ms : checkMoves p ms = Ok () ↔ Problem.current p ms.
Proof.
  unfold checkMoves, Problem.current. induction ms as [|m ms IH]; simpl; [set_solver|].
  unfold Assignment.getContainer.
  destruct (Assignment.objectToContainer _ !! move_object m) as [c|] eqn:E; simpl.
  - destruct (Z.eqb_spec c (srcContainer m)) as [->|Hne]; simpl.
    + rewrite IH. set_solver.
    + split; [done|]. intros H. specialize (H m). rewrite E in H.
      assert (Some c = Some (srcContainer m)) as [=] by (apply H; set_solver). done.
  - split; [done|]. intros H. specialize (H m). rewrite E in H.
    assert (None = Some (srcContainer m)) as [=] by (apply H; set_solver).
Qed.

(** [e] would have a value satisfying [P] after the changes. *)
Definition would (p : Problem.t A) (changes : ChangeSet.t) (e : Z) (P : double → Prop) : Prop :=
  ∃ v, expr_evaluate (Problem.graph p) changes e = Ok v ∧ P v.

Abbreviation positive p v := (Precision.isStrictlyGtZero (Problem.precision p) v = true).
Abbreviation not_positive p v := (Precision.isStrictlyGtZero (Problem.precision p) v = false).

Lemma anyPositive_spec p cs l b :
  anyPositive p cs l = Ok b →
  if b then ∃ e, e ∈ l ∧ would p cs e (λ v, positive p v)
  else ∀ e, e ∈ l → would p cs e (λ v, not_positive p v).
Proof.
  induction l as [|e l IH]; simpl; [intros [= <-]; set_solver|].
  unfold isPositiveExpr. destruct (expr_evaluate _ _ e) as [v|] eqn:E; simpl; [|done].
  destruct (Precision.isStrictlyGtZero _ v) eqn:Ev.
  - intros [= <-]. exists e. split; [set_solver|]. by exists v.
  - intros Hl. specialize (IH Hl). destruct b.
    + destruct IH as (e' & ? & ?). exists e'. split; [set_solver|done].
    + intros e' [->|He']%elem_of_cons; [by exists v|auto].
Qed.

Lemma firstWorse_loop_spec p cs d exprs : ∀ pos o,
  firstWorse_loop p cs d pos exprs = Ok o →
  match o with
  | Some i => ∃ k e, i = (pos + k)%nat ∧ exprs !! k = Some e ∧
      would p cs e (λ v, exceedsAllowedWorsening (Problem.precision p) d i
                           (expr_value (Problem.graph p) e) v = true)
  | None => ∀ k e, exprs !! k = Some e →
      would p cs e (λ v, exceedsAllowedWorsening (Problem.precision p) d (pos + k)
                           (expr_value (Problem.graph p) e) v = false)
  end.
Proof.
  induction exprs as [|e exprs IH]; intros pos o; simpl; [intros [= <-]; done|].
  destruct (expr_evaluate _ _ e) as [v|] eqn:E; simpl; [|done].
  destruct (exceedsAllowedWorsening _ _ _ _ v) eqn:Ev.
  - intros [= <-]. exists 0%nat, e. split_and!; [lia|done|]. by exists v.
  - intros Hl. specialize (IH _ _ Hl). destruct o as [i|].
    + destruct IH as (k & e' & -> & ? & ?). exists (S k), e'. split_and!; [lia|done|done].
    + intros [|k] e' He'; simpl in He'.
      * injection He' as <-. exists v. by rewrite Nat.add_0_r.
      * rewrite Nat.add_succ_r. by apply (IH k).
Qed.

(** A valid result: the moves start from where the objects are, no hard
    constraint would be violated, no higher-priority objective would become
    worse than allowed, and the values are those of the objective. *)
Record sound_result (ev : t) (p : Problem.t A) (ms : list Move) (r : MoveResult.t) : Prop := {
  sound_current : Problem.current p ms;
  sound_constraints e : e ∈ Problem.labeledHardConstraints p →
    would p (MoveSet_getChangeSet ms) e (λ v, not_positive p v);
  sound_goal k e : goal (doNotWorsenGoalConfig ev) !! k = Some e →
    would p (MoveSet_getChangeSet ms) e (λ v,
      exceedsAllowedWorsening (Problem.precision p) (doNotWorsenGoalConfig ev) k
        (expr_value (Problem.graph p) e) v = false);
  sound_moves : MoveResult.moveSet_ r = ms;
  sound_old : MoveResult.oldValue_ r =
    LocalSearchObjective.getValue (Problem.graph p) (minimizingGoal ev);
  sound_new : LocalSearchObjective.evaluate (Problem.graph p) (MoveSet_getChangeSet ms)
    (minimizingGoal ev) false = Ok (MoveResult.newValue_ r)
}.

Lemma evaluate_spec ev p ms r :
  evaluate ev p ms = Ok r →
  if MoveResult.valid_ r then sound_result ev p ms r
  else (∃ e, e ∈ Problem.labeledHardConstraints p ∧
          would p (MoveSet_getChangeSet ms) e (λ v, positive p v)) ∨
       (∃ k e, goal (doNotWorsenGoalConfig ev) !! k = Some e ∧
          would p (MoveSet_getChangeSet ms) e (λ v,
            exceedsAllowedWorsening (Problem.precision p) (doNotWorsenGoalConfig ev) k
              (expr_value (Problem.graph p) e) v = true)).
Proof.
  unfold evaluate. intros E. apply bind_Ok in E as ([] & Hm%checkMoves_spec & E).
  apply bind_Ok in E as (violated & Hv%anyPositive_spec & E). destruct violated.
  { apply bind_Ok in E as (ls & _ & [= <-]). by left. }
  apply bind_Ok in E as (worse & Hw & E). apply firstWorse_loop_spec in Hw.
  destruct worse as [pos|].
  { injection E as <-. destruct Hw as (k & e & -> & ? & ?). right. eauto. }
  apply bind_Ok in E as (nv & Hn & E). apply bind_Ok in E as (c & Hc & E).
  apply bind_Ok in E as (av & _ & E). apply bind_Ok in E as ([ds tb] & _ & [= <-]).
  by split.
Qed.

(** ** Application *)

Lemma hasWorsened_loop_spec prec d new olds : ∀ pos,
  hasWorsened_loop prec d new pos olds = Ok false →
  ∀ k old, olds !! k = Some old → ∃ v,
    GlobalObjectiveValue.values new !! (pos + k)%nat = Some v ∧
    exceedsAllowedWorsening prec d (pos + k) old v = false.
Proof.
  induction olds as [|old olds IH]; intros pos; simpl; [done|]. unfold GlobalObjectiveValue.get.
  destruct (GlobalObjectiveValue.values new !! pos) as [v|] eqn:E; simpl; [|done].
  destruct (exceedsAllowedWorsening _ _ _ _ _) eqn:Ee; [done|].
  intros Hl [|k] old'; simpl.
  - intros [= <-]. exists v. by rewrite Nat.add_0_r.
  - rewrite Nat.add_succ_r. by apply (IH (S pos) Hl).
Qed.

Lemma hasWorsened_ok prec d old new :
  length (GlobalObjectiveValue.values old) = length (GlobalObjectiveValue.values new) →
  is_Ok (hasWorsened prec d old new) = true.
Proof.
  intros E. unfold hasWorsened.
  enough (∀ olds pos, (pos + length olds ≤ length (GlobalObjectiveValue.values new))%nat →
    is_Ok (hasWorsened_loop prec d new pos olds) = true) as H by (apply H; simpl; lia).
  induction olds as [|o olds IH]; intros pos Hp; simpl; [done|]. simpl in Hp.
  unfold GlobalObjectiveValue.get.
  destruct (lookup_lt_is_Some_2 (GlobalObjectiveValue.values new) pos) as [v ->]; [lia|].
  simpl. destruct (exceedsAllowedWorsening _ _ _ _ _); [done|]. apply IH. lia.
Qed.

(** What the final check guarantees of the state it accepts. *)
Record accepted (ev : t) (p p' : Problem.t A) (oldValue : LocalSearchObjectiveValue.t) : Prop := {
  accepted_constraints e : e ∈ Problem.labeledHardConstraints p →
    Precision.isStrictlyGtZero (Problem.precision p) (expr_value (Problem.graph p') e) = false;
  accepted_goal k e : goal (doNotWorsenGoalConfig ev) !! k = Some e →
    exceedsAllowedWorsening (Problem.precision p) (doNotWorsenGoalConfig ev) k
      (expr_value (Problem.graph p) e) (expr_value (Problem.graph p') e) = false;
  accepted_better : LocalSearchObjectiveValue.isStrictlyBetter
    (LocalSearchObjective.getValue (Problem.graph p') (minimizingGoal ev))
    oldValue (Problem.precision p) = Ok true
}.

Lemma validate_applied ev p p' oldValue :
  Problem.labeledHardConstraints p' = Problem.labeledHardConstraints p →
  Problem.precision p' = Problem.precision p →
  validate ev (GlobalObjective.getValue (Problem.graph p) (goal (doNotWorsenGoalConfig ev)))
    oldValue p' = Ok APPLIED →
  accepted ev p p' oldValue.
Proof.
  unfold validate. intros Ec Ep. rewrite Ep. destruct (violatesConstraints p') eqn:Hv; [done|].
  destruct (hasWorsened _ _ _ _) as [w|] eqn:Hw; simpl; [|done]. destruct w; [done|].
  destruct (LocalSearchObjectiveValue.isStrictlyBetter _ _ _) as [b|] eqn:Hb; simpl; [|done].
  destruct b; [|done]. intros _. split; [| |done].
  - intros e He. rewrite <- Ec in He. unfold violatesConstraints in Hv. rewrite Ep in Hv.
    destruct (Precision.isStrictlyGtZero _ _) eqn:Hz; [|done].
    assert (existsb (λ e, Precision.isStrictlyGtZero (Problem.precision p)
      (expr_value (Problem.graph p') e)) (Problem.labeledHardConstraints p') = true) as Ht.
    { apply existsb_exists. exists e. split; [by apply list_elem_of_In|done]. }
    congruence.
  - intros k e He. unfold hasWorsened in Hw. simpl in Hw.
    destruct (hasWorsened_loop_spec _ _ _ _ _ Hw k (expr_value (Problem.graph p) e))
      as (v & Hl & Hx); [by rewrite list_lookup_fmap, He|].
    simpl in Hl, Hx. rewrite list_lookup_fmap, He in Hl. simpl in Hl. by injection Hl as <-.
Qed.

(** An accepted change: constraints hold, the higher-priority objectives are
    within their allowance and the objective is strictly better. *)
Lemma tryApply_accepted ev p r p' :
  Problem.validateAppliedMoves p = true →
  tryApply ev p r = Ok (p', APPLIED) →
  accepted ev p p' (MoveResult.oldValue_ r).
Proof.
  unfold tryApply, Problem.tryApply. intros ->. cbn [negb].
  intros E. apply bind_Ok in E as ([p1 ar] & E1 & E).
  assert (Problem.labeledHardConstraints p1 = Problem.labeledHardConstraints p ∧
    Problem.precision p1 = Problem.precision p) as [C1 C2].
  { unfold Problem.applyChanges in E1. result_inv. done. }
  apply bind_Ok in E as (status & Hs & E). destruct (decide (status ≠ APPLIED)) as [Hn|Hn].
  - apply bind_Ok in E as (inv & _ & E). apply bind_Ok in E as ([p2 ?] & _ & E).
    by injection E as _ ->.
  - injection E as <- ->. apply validate_applied in Hs; [|done|done].
    destruct (Problem.maybeFix_config p1 (MoveSet_getChangeSet (MoveResult.moveSet_ r)))
      as (_ & _ & EG & _).
    destruct Hs as [H1 H2 H3]. split; rewrite EG; done.
Qed.

(** The final check never throws for a result computed for this evaluator. *)
Section lawful.
Context `{LG : !LawfulGraph G}.

Lemma validate_ok ev (p p' : Problem.t A) oldValue :
  oldValue = LocalSearchObjective.getValue (Problem.graph p) (minimizingGoal ev) →
  is_Ok (validate ev (GlobalObjective.getValue (Problem.graph p) (goal (doNotWorsenGoalConfig ev)))
           oldValue p') = true.
Proof.
  intros ->. unfold validate. destruct (violatesConstraints p'); [done|].
  pose proof (hasWorsened_ok (Problem.precision p') (doNotWorsenGoalConfig ev)
    (GlobalObjective.getValue (Problem.graph p) (goal (doNotWorsenGoalConfig ev)))
    (GlobalObjective.getValue (Problem.graph p') (goal (doNotWorsenGoalConfig ev)))) as Hw.
  destruct (hasWorsened _ _ _ _) as [w|]; [|simpl in Hw; rewrite !length_fmap in Hw; by specialize (Hw eq_refl)].
  simpl. destruct w; [done|].
  unfold LocalSearchObjectiveValue.isStrictlyBetter, LocalSearchObjectiveValue.validateCompatible,
    GlobalObjectiveValue.isStrictlyBetter, GlobalObjectiveValue.size; simpl.
  rewrite eqb_reflx, andb_false_r, !length_fmap, Nat.eqb_refl. simpl.
  destruct (_ =? 0)%nat; [done|]. by destruct (GlobalObjectiveValue.isStrictlyBetter_loop _ _ _).
Qed.

(** [tryApply] on a result computed for the current state: it does not throw,
    the problem stays well formed, the objects are where the moves put them if
    the status is APPLIED and where they were otherwise. *)
Lemma tryApply_result_spec C ev p r :
  Problem.wf p → Problem.legal hash p (MoveResult.moveSet_ r) → Problem.within C p →
  (∀ m, m ∈ MoveResult.moveSet_ r → dstContainer m ∈ C) →
  MoveResult.oldValue_ r = LocalSearchObjective.getValue (Problem.graph p) (minimizingGoal ev) →
  ∃ p' status, tryApply ev p r = Ok (p', status) ∧
    Problem.wf p' ∧ Problem.within C p' ∧ Problem.same_config p p' ∧
    Assignment.objectToContainer (Problem.assignment p') =
      if decide (status = APPLIED)
      then place (MoveResult.moveSet_ r) (Assignment.objectToContainer (Problem.assignment p))
      else Assignment.objectToContainer (Problem.assignment p).
Proof.
  intros Hw Hl Hc Hd Hold. unfold tryApply. destruct (Problem.validateAppliedMoves p); simpl negb; cbn match.
  - edestruct (Problem.tryApply_spec hash C p (MoveResult.moveSet_ r)
      (validate ev (GlobalObjective.getValue (Problem.graph p) (goal (doNotWorsenGoalConfig ev)))
         (MoveResult.oldValue_ r))) as (p' & status & E & H1 & H1' & H2 & _ & H3 & _);
      [done|done|done|done|intros p1; by apply validate_ok|].
    exists p', status. by split_and!.
  - destruct (Problem.apply_spec hash C p _ Hw Hl Hc Hd) as (p' & ar & -> & H1 & H1' & H2 & H3). simpl.
    exists p', APPLIED. rewrite decide_True by done. by split_and!.
Qed.
End lawful.
End evaluator.
End MovesEvaluator.
