(* ===== verification/LocalSearch.v ===== *)
(** * The local search loop

    [CoreLocalSearchSolve] with its [SolveState] and [HotContainerSelector]
    (solver/solvers): repeatedly take the hottest container not yet skipped, try
    the allowed move types on it in order, apply the first improving move, and
    stop at a bound, a limit or when a whole cycle brings nothing.

    The loop is a state machine: [step] runs one iteration of the source's
    loops, [run] iterates it. *)

From S2P Require Import Prelude Double Precision ObjectiveValue ChangeSet ObjectStore.
From S2P Require Import Assignment EntityAttributes Objective Problem Moves.

Inductive EndReason :=
  | UNABLE_TO_FIND_MORE_MOVES
  | UNABLE_TO_FIND_IMPROVING_MOVES
  | HIT_TIME_LIMIT
  | HIT_MOVE_LIMIT
  | HIT_PLATEAU_TIME
  | HIT_MIN_CYCLE_OBJECTIVE_IMPROVEMENT
  | OPTIMAL.

(** [algopt.common.thrift.Threshold] *)
Record Threshold := { th_percent : option double; th_absolute : option double }.

(** [thriftUtils::isSignificantDecrease] *)
Definition isSignificantDecrease (threshold : Threshold) (before after : double) : result bool :=
  if (before <=? after)%D then Ok false
  else match th_percent threshold, th_absolute threshold with
  | None, None => Throw (runtime_error
      "Threshold must have at least one of percent or absolute set")
  | pct, abs =>
      let decrease := (before - after)%D in
      if bool_decide (is_Some pct) && (before =? d0)%D then Ok true
      else
        let decreasePercent := (decrease / fabs before * d100)%D in
        if match pct with Some x => (x <? decreasePercent)%D | None => false end then Ok true
        else if match abs with Some x => (x <? decrease)%D | None => false end then Ok true
        else Ok false
  end.

(** What the loop takes from its surroundings: the readings of the two timers,
    the traversal of the containers by decreasing hotness, the bounds of the
    expressions and the hints kept for the move types. *)
Class SearchEnv `{G : ExpressionGraph} (A : Type) := {
  clock : nat → double;
  boundsClock : nat → double;
  Traversal : Type;
  traversal_start : Problem.t A → Z → Traversal;
  traversal_get : Traversal → Problem.t A → option Z;
  traversal_next : Traversal → Problem.t A → Traversal;
  traversal_size : Traversal → nat;
  traversal_next_size t p c : traversal_get t p = Some c →
    (traversal_size (traversal_next t p) < traversal_size t)%nat;
  next_seed : Z → Z;
  lowerBound : Problem.t A → option (gset Z) → Z → double;
  Hints : Type;
  hints_update : Problem.t A → MovesEvaluator.t → MoveResult.t → Hints → Hints;
  hints_reset : Problem.t A → MovesEvaluator.t → Hints → Hints
}.

Module LocalSearch.
Section search.
Context `{G : ExpressionGraph} `{HO : HashOrder} {A : Type} `{EA : EntityAttributes A}.
Context `{SE : !SearchEnv A}.
Context (hash : Z → Z → Z → Z).

(** [MoveType]: the best move found for a hot container.  The number of the
    call stands for the random generator and the time limit is passed on. *)
Record MoveType := {
  name : string;
  findBestMove : MovesEvaluator.t → Problem.t A → Hints → nat → Z → double →
    result MoveResult.t
}.

(** The fields of [LocalSearchSolverSpec] and [SolveParams] the loop reads, and
    what the constructor of [SolveState] computes once. *)
Record Params := {
  allowedMoves : list MoveType;
  evaluator : MovesEvaluator.t;
  userObjective : GlobalObjective.t;
  containers : gset Z;                                 (* problem.containers *)
  fixedContainers : gset Z;                            (* problem.getFixedContainers() *)
  storedEquivalenceSets : EquivalenceSetsView;         (* problem.getEquivalenceSets() *)
  customEquivalenceSets : option (result EquivalenceSetsView);
                                                       (* initialize(customEquivalenceSetConfig) *)
  solveTime : double;
  timePerMove : option double;
  stopAfterMoves : option Z;
  allowedPlateauTime : option Z;
  minCycleObjectiveImprovement : option Threshold;
  enableConstrainedBoundsOptimization : bool;
  constrainedBoundsCheckMs : Z;
  enableObjectPotentialSorting : bool;
  recomputeContainerOrderingAfterEveryMove : bool;
  exploreMovesFromContainersNotInObjective : bool
}.

(** The equivalence sets of a search: the custom ones, if the specification asks for
    them; the store throws if it cannot make them. *)
Definition initializeEquivalenceSets (ps : Params) : result EquivalenceSetsView :=
  default (Ok (storedEquivalenceSets ps)) (customEquivalenceSets ps).

Definition equivalenceSets (ps : Params) : EquivalenceSetsView :=
  match customEquivalenceSets ps with Some (Ok es) => es | _ => storedEquivalenceSets ps end.

(** [SolveState], with the two members of the selector. *)
Record SolveState := mkSolveState {
  cyclesStarted : Z;
  movesInCycle : Z;
  objectiveAtCycleStart : GlobalObjectiveValue.t;
  hints : Hints;
  moveCounts : gmap nat (Z * Z);                       (* applyCount, moveCount *)
  skipContainers : gset Z;
  unfixableContainers : gset Z;
  containersIterator : option Traversal;
  randomSeed : Z
}.

(** The progress trackers of [CoreLocalSearchSolve]; [ticks] and [boundsTicks]
    count the readings of the two timers. *)
Record Progress := mkProgress {
  totalMoves : Z;
  localSearchIterations : nat;
  endReason : EndReason;
  lastApplyRejectionReason : option string;
  lastImprovedTime : double;
  moveTimes : list (double * Z);
  ticks : nat;
  boundsTicks : nat
}.

Record t := mk { problem : Problem.t A; state : SolveState; progress : Progress }.

(** ** Updates of single fields *)
Definition on_problem (s : t) (p : Problem.t A) : t := mk p (state s) (progress s).
Definition on_state (s : t) (f : SolveState → SolveState) : t :=
  mk (problem s) (f (state s)) (progress s).
Definition on_progress (s : t) (f : Progress → Progress) : t :=
  mk (problem s) (state s) (f (progress s)).

Definition set_endReason (r : EndReason) (s : t) : t :=
  on_progress s (λ g, mkProgress (totalMoves g) (localSearchIterations g) r
    (lastApplyRejectionReason g) (lastImprovedTime g) (moveTimes g) (ticks g) (boundsTicks g)).
Definition set_rejection (r : option string) (s : t) : t :=
  on_progress s (λ g, mkProgress (totalMoves g) (localSearchIterations g) (endReason g)
    r (lastImprovedTime g) (moveTimes g) (ticks g) (boundsTicks g)).
Definition set_lastImprovedTime (x : double) (s : t) : t :=
  on_progress s (λ g, mkProgress (totalMoves g) (localSearchIterations g) (endReason g)
    (lastApplyRejectionReason g) x (moveTimes g) (ticks g) (boundsTicks g)).
Definition add_moveTime (x : double) (n : Z) (s : t) : t :=
  on_progress s (λ g, mkProgress (totalMoves g) (localSearchIterations g) (endReason g)
    (lastApplyRejectionReason g) (lastImprovedTime g) (moveTimes g ++ [(x, to_int n)])
    (ticks g) (boundsTicks g)).
Definition add_totalMoves (n : Z) (s : t) : t :=
  on_progress s (λ g, mkProgress (to_int (u64 (totalMoves g + n))) (localSearchIterations g) (endReason g)
    (lastApplyRejectionReason g) (lastImprovedTime g) (moveTimes g) (ticks g) (boundsTicks g)).
Definition count_iteration (s : t) : t :=
  on_progress s (λ g, mkProgress (totalMoves g) (S (localSearchIterations g)) (endReason g)
    (lastApplyRejectionReason g) (lastImprovedTime g) (moveTimes g) (ticks g) (boundsTicks g)).

(** [timer_.getSeconds()] and [boundsCheckTimer_.getMilliseconds()] *)
Definition getSeconds (s : t) : double * t :=
  (clock (ticks (progress s)),
   on_progress s (λ g, mkProgress (totalMoves g) (localSearchIterations g) (endReason g)
     (lastApplyRejectionReason g) (lastImprovedTime g) (moveTimes g) (S (ticks g)) (boundsTicks g))).
Definition getBoundsMilliseconds (s : t) : double * t :=
  (boundsClock (boundsTicks (progress s)),
   on_progress s (λ g, mkProgress (totalMoves g) (localSearchIterations g) (endReason g)
     (lastApplyRejectionReason g) (lastImprovedTime g) (moveTimes g) (ticks g) (S (boundsTicks g)))).

Definition set_iterator (it : option Traversal) (seed : Z) (s : t) : t :=
  on_state s (λ v, mkSolveState (cyclesStarted v) (movesInCycle v) (objectiveAtCycleStart v)
    (hints v) (moveCounts v) (skipContainers v) (unfixableContainers v) it seed).
Definition set_skip (skip unfixable : gset Z) (s : t) : t :=
  on_state s (λ v, mkSolveState (cyclesStarted v) (movesInCycle v) (objectiveAtCycleStart v)
    (hints v) (moveCounts v) skip unfixable (containersIterator v) (randomSeed v)).

(** ** HotContainerSelector *)

(** [reset] *)
Definition selector_reset (s : t) : t :=
  set_iterator (Some (traversal_start (problem s) (randomSeed (state s))))
    (next_seed (randomSeed (state s))) s.

(** The while loop of [findNextHotContainer]: the iterator stays on the
    container returned. *)
Fixpoint advance (fuel : nat) (it : Traversal) (p : Problem.t A) (skip : gset Z)
    : option Z * Traversal :=
  match fuel with
  | O => (None, it)
  | S fuel =>
      match traversal_get it p with
      | None => (None, it)
      | Some c =>
          if decide (c ∈ skip) then advance fuel (traversal_next it p) p skip
          else (Some c, it)
      end
  end.

Definition findNextHotContainer (explore : bool) (it : Traversal) (p : Problem.t A)
    (skip : gset Z) : option Z * Traversal :=
  match advance (S (traversal_size it)) it p skip with
  | (Some c, it') => (Some c, it')
  | (None, it') =>
      if explore
      then (head (filter (.∉ skip)
              (hash_iter (Assignment.containerToObjects (Problem.assignment p))).*1), it')
      else (None, it')
  end.

(** [next] *)
Definition selector_next (ps : Params) (s : t) : result (option Z * t) :=
  let st := state s in
  let noMore :=
    if exploreMovesFromContainersNotInObjective ps
    then (size (skipContainers st) =? size (containers ps))%nat
    else match containersIterator st with
         | Some it => bool_decide (traversal_get it (problem s) = None)
         | None => true
         end in
  if noMore then Ok (None, s)
  else
    it ← at_ (containersIterator st);
    let '(c, it') := findNextHotContainer (exploreMovesFromContainersNotInObjective ps)
                       it (problem s) (skipContainers st) in
    Ok (c, set_iterator (Some it') (randomSeed st) s).

(** ** SolveState::startNewCycle *)
Definition startNewCycle (ps : Params) (s : t) : t :=
  let s1 := on_state s (λ v, mkSolveState (cyclesStarted v + 1) 0
    (GlobalObjective.getValue (Problem.graph (problem s)) (Problem.objective (problem s)))
    (hints v) (moveCounts v) (fixedContainers ps ∪ unfixableContainers v)
    (unfixableContainers v) (containersIterator v) (randomSeed v)) in
  let s2 := selector_reset s1 in
  on_state s2 (λ v, mkSolveState (cyclesStarted v) (movesInCycle v) (objectiveAtCycleStart v)
    (hints_reset (problem s2) (evaluator ps) (hints v)) (moveCounts v) (skipContainers v)
    (unfixableContainers v) (containersIterator v) (randomSeed v)).

(** ** Termination checks *)

Definition shouldTerminate (ps : Params) (curTime : double) (s : t) : bool * t :=
  if (solveTime ps <=? curTime)%D then (true, set_endReason HIT_TIME_LIMIT s)
  else if match stopAfterMoves ps with
          | Some n => n <=? totalMoves (progress s)
          | None => false
          end
  then (true, set_endReason HIT_MOVE_LIMIT s)
  else if match allowedPlateauTime ps with
          | Some plateauTime =>
              (dofZ plateauTime <? curTime - lastImprovedTime (progress s))%D
          | None => false
          end
  then (true, set_endReason HIT_PLATEAU_TIME s)
  else (false, s).

(** The loop over the positions of both tuples. *)
Fixpoint anySignificantDecrease (th : Threshold) (before after : list double) : result bool :=
  match before, after with
  | b :: before, a :: after =>
      d ← isSignificantDecrease th b a;
      if (d : bool) then Ok true else anySignificantDecrease th before after
  | _, _ => Ok false
  end.

Definition hasSufficientObjectiveImprovement (ps : Params) (s : t) : result (bool * t) :=
  match minCycleObjectiveImprovement ps with
  | None => Ok (true, s)
  | Some threshold =>
      b ← anySignificantDecrease threshold
            (GlobalObjectiveValue.values (objectiveAtCycleStart (state s)))
            (expr_value (Problem.graph (problem s)) <$> Problem.objective (problem s));
      Ok (if (b : bool) then (true, s)
          else (false, set_endReason HIT_MIN_CYCLE_OBJECTIVE_IMPROVEMENT s))
  end.

Definition shouldStartNextCycle (ps : Params) (s : t) : result (bool * t) :=
  if 0 <? movesInCycle (state s) then hasSufficientObjectiveImprovement ps s
  else Ok (false, s).

Definition isObjectiveWithinBounds (objectiveValue computedBound : GlobalObjectiveValue.t)
    (prec : PrecisionTolerances) : result bool :=
  compare ← GlobalObjectiveValue.precisionCompare objectiveValue computedBound prec;
  Ok (if compare <? 0 then true else compare =? 0).

Definition lowerBoundOf (p : Problem.t A) (notGiving : option (gset Z)) (o : GlobalObjective.t)
    : GlobalObjectiveValue.t :=
  GlobalObjectiveValue.mk (lowerBound p notGiving <$> o) None.

(** [userObjective] is the range of the objective [reachedGlobalOptimum] takes. *)
Definition reachedGlobalOptimum (ps : Params) (s : t) : result (bool * t) :=
  let p := problem s in
  b ← isObjectiveWithinBounds (GlobalObjective.getValue (Problem.graph p) (userObjective ps))
        (lowerBoundOf p None (userObjective ps)) (Problem.precision p);
  Ok (if (b : bool) then (true, set_endReason OPTIMAL s) else (false, s)).

Definition reachedLocalOptimum (ps : Params) (s : t) : result (bool * t) :=
  if negb (enableConstrainedBoundsOptimization ps) then Ok (false, s)
  else
    let '(ms, s1) := getBoundsMilliseconds s in
    if (ms <? dofZ (constrainedBoundsCheckMs ps))%D then Ok (false, s1)
    else
      let p := problem s1 in
      b ← isObjectiveWithinBounds (GlobalObjective.getValue (Problem.graph p) (userObjective ps))
            (lowerBoundOf p (Some (skipContainers (state s1))) (userObjective ps))
            (Problem.precision p);
      Ok (b, s1).

(** ** Trying moves *)

Definition getTimePerMove (ps : Params) (s : t) : double * t :=
  let '(now, s1) := getSeconds s in
  (dmin (default dinf (timePerMove ps)) (solveTime ps - now)%D, s1).

Definition findBest (ps : Params) (s : t) (hotContainer : Z) (mv : MoveType)
    : result (MoveResult.t * t) :=
  let s1 := count_iteration s in
  let '(timeLimit, s2) := getTimePerMove ps s1 in
  r ← findBestMove mv (evaluator ps) (problem s2) (hints (state s2))
        (localSearchIterations (progress s2)) hotContainer timeLimit;
  Ok (r, s2).

(** [recordApply] on the counter of the move type. *)
Definition recordApply (m : gmap nat (Z * Z)) (moveIndex : nat) (numMoves : Z) : gmap nat (Z * Z) :=
  let '(applyCount, moveCount) := default (0, 0) (m !! moveIndex) in
  <[moveIndex := (u64 (applyCount + 1), u64 (moveCount + numMoves))]> m.

Definition rejection (status : ApplyStatus) : option string :=
  match status with
  | APPLIED => None
  | VIOLATES_CONSTRAINT => Some "candidate move violates a constraint"
  | WORSENS_HIGHER_PRIORITY_OBJECTIVE =>
      Some "candidate move worsens a higher-priority objective"
  | DOES_NOT_IMPROVE_OBJECTIVE => Some "candidate move does not improve the objective"
  end.

Definition tryApplyMove (ps : Params) (s : t) (moveIndex : nat) (r : MoveResult.t)
    : result (bool * t) :=
  '(p', status) ← MovesEvaluator.tryApply hash (evaluator ps) (problem s) r;
  let s1 := set_rejection (rejection status) (on_problem s p') in
  match status with
  | APPLIED =>
      let numMoves := Z.of_nat (length (MoveResult.moveSet_ r)) in
      Ok (true, on_state s1 (λ v, mkSolveState (cyclesStarted v) (to_int (u64 (movesInCycle v + numMoves)))
        (objectiveAtCycleStart v) (hints_update p' (evaluator ps) r (hints v))
        (recordApply (moveCounts v) moveIndex numMoves) (skipContainers v)
        (unfixableContainers v) (containersIterator v) (randomSeed v)))
  | _ => Ok (false, s1)
  end.

Definition shouldRecomputeHottestOrderingAfterMove (ps : Params) (nContainersToOrder : Z) : bool :=
  if enableObjectPotentialSorting ps then true
  else recomputeContainerOrderingAfterEveryMove ps && (2 <=? nContainersToOrder).

(** What follows a successful apply. *)
Definition afterApply (ps : Params) (numMoves : Z) (s : t) : t :=
  let '(now, s1) := getSeconds s in
  let s2 := add_moveTime now numMoves s1 in
  let '(now', s3) := getSeconds s2 in
  let s4 := set_lastImprovedTime now' s3 in
  let nContainersToOrder :=
    to_int (u64 (Z.of_nat (size (containers ps)) - Z.of_nat (size (skipContainers (state s4))))) in
  let s5 := if shouldRecomputeHottestOrderingAfterMove ps nContainersToOrder
            then selector_reset s4 else s4 in
  add_totalMoves numMoves s5.

(** The loop of [improveHotContainer] over the move types from [moveIndex] on. *)
Fixpoint improve_loop (ps : Params) (hotContainer : Z) (moves : list MoveType) (moveIndex : nat)
    (s : t) : result (bool * t) :=
  match moves with
  | [] => Ok (false, s)
  | mv :: moves =>
      '(r, s1) ← findBest ps s hotContainer mv;
      better ← MoveResult.isBetter r (Problem.precision (problem s1));
      if negb better then improve_loop ps hotContainer moves (S moveIndex) s1
      else
        '(applied, s2) ← tryApplyMove ps s1 moveIndex r;
        if negb (applied : bool) then improve_loop ps hotContainer moves (S moveIndex) s2
        else Ok (true, afterApply ps (Z.of_nat (length (MoveResult.moveSet_ r))) s2)
  end.

Definition improveHotContainer (ps : Params) (hotContainer : Z) (s : t) : result (bool * t) :=
  improve_loop ps hotContainer (allowedMoves ps) 0 s.

(** ** solve, as a state machine *)
Inductive pc :=
  | Start
  | CycleStart
  | Loop
  | CycleEnd
  | Finished (solved : bool).

Definition step_start (ps : Params) (s : t) : result (pc * t) :=
  '(optimal, s1) ← reachedGlobalOptimum ps s;
  if (optimal : bool) then Ok (Finished true, s1)
  else
    let '(now, s2) := getSeconds s1 in
    let s3 := set_lastImprovedTime now s2 in
    let '(now', s4) := getSeconds s3 in
    match shouldTerminate ps now' s4 with
    | (true, s5) => Ok (Finished false, s5)
    | (false, s5) =>
        es ← initializeEquivalenceSets ps;
        '(a, _) ← Assignment.maybeBuildAndGetObjectsIndexedByEquivSets
                    (Problem.assignment (problem s5)) es;
        let p := problem s5 in
        Ok (CycleStart, on_problem s5
              (Problem.set_state p a (Problem.graph p) (Problem.entityAttributesStore p)))
    end.

Definition step_loop (ps : Params) (s : t) : result (pc * t) :=
  '(hot, s1) ← selector_next ps s;
  match hot with
  | None => Ok (CycleEnd, s1)
  | Some hotContainer =>
      '(improved, s2) ← improveHotContainer ps hotContainer s1;
      let st := state s2 in
      let s3 := if (improved : bool)
                then set_skip (skipContainers st) ∅ s2
                else set_skip ({[hotContainer]} ∪ skipContainers st)
                       ({[hotContainer]} ∪ unfixableContainers st) s2 in
      '(optimal, s4) ← reachedGlobalOptimum ps s3;
      if (optimal : bool) then Ok (Finished true, s4)
      else
        let '(now, s5) := getSeconds s4 in
        match shouldTerminate ps now s5 with
        | (true, s6) => Ok (Finished false, s6)
        | (false, s6) =>
            '(localOptimum, s7) ← reachedLocalOptimum ps s6;
            Ok (if (localOptimum : bool) then CycleEnd else Loop, s7)
        end
  end.

Definition step_end (ps : Params) (s : t) : result (pc * t) :=
  '(again, s1) ← shouldStartNextCycle ps s;
  if (again : bool) then Ok (CycleStart, s1)
  else
    let g := progress s1 in
    Ok (Finished true,
        match lastApplyRejectionReason g, endReason g with
        | Some _, UNABLE_TO_FIND_MORE_MOVES => set_endReason UNABLE_TO_FIND_IMPROVING_MOVES s1
        | _, _ => s1
        end).

Definition step (ps : Params) (c : pc) (s : t) : result (pc * t) :=
  match c with
  | Start => step_start ps s
  | CycleStart => Ok (Loop, startNewCycle ps s)
  | Loop => step_loop ps s
  | CycleEnd => step_end ps s
  | Finished b => Ok (Finished b, s)
  end.

(** [None]: the fuel ran out before the search finished. *)
Fixpoint run (fuel : nat) (ps : Params) (c : pc) (s : t) : result (option (bool * t)) :=
  match c with
  | Finished b => Ok (Some (b, s))
  | _ =>
      match fuel with
      | O => Ok None
      | S fuel => '(c', s') ← step ps c s; run fuel ps c' s'
      end
  end.

(** ** Correctness *)

Section correct.
Context `{LG : !LawfulGraph G}.

(** The configuration and the set of objects never change. *)
Definition same_run (p p' : Problem.t A) : Prop :=
  Problem.same_config p p' ∧
  dom (Assignment.objectToContainer (Problem.assignment p')) =
  dom (Assignment.objectToContainer (Problem.assignment p)).

#[local] Instance same_run_preorder : PreOrder same_run.
Proof.
  split; unfold same_run.
  - intros p. by split.
  - intros p q r [C1 D1] [C2 D2]. split; [by transitivity q|congruence].
Qed.

(** The problem the search starts from. *)
Context (p0 : Problem.t A).

(** The index by equivalence sets, which the search builds before the first cycle. *)
Definition indexed (ps : Params) (p : Problem.t A) : Prop :=
  Assignment.isIndexedByEquivalentSets (Problem.assignment p) (equivalenceSets ps) = true.

(** What a move type promises when it is asked about a container of the problem
    with the index built: it does not throw, and a valid result consists of moves of distinct objects
    from where they are to containers of the problem, with the current value of
    the objective as its old value. *)
Definition sound_move_type (ps : Params) (mv : MoveType) : Prop :=
  ∀ p h n hot limit, Problem.wf p → same_run p0 p → indexed ps p → hot ∈ containers ps →
  ∃ r b, findBestMove mv (evaluator ps) p h n hot limit = Ok r ∧
    MoveResult.isBetter r (Problem.precision p) = Ok b ∧
    (b = true →
       Problem.legal hash p (MoveResult.moveSet_ r) ∧
       (∀ m, m ∈ MoveResult.moveSet_ r → dstContainer m ∈ containers ps) ∧
       MoveResult.oldValue_ r =
         LocalSearchObjective.getValue (Problem.graph p)
           (MovesEvaluator.minimizingGoal (evaluator ps))).

(** The surroundings and the configuration are usable. *)
Record sane (ps : Params) : Prop := {
  sane_moves : Forall (sound_move_type ps) (allowedMoves ps);
  sane_traversal it (p : Problem.t A) c : traversal_get it p = Some c → c ∈ containers ps;
  sane_threshold th : minCycleObjectiveImprovement ps = Some th →
    is_Some (th_percent th) ∨ is_Some (th_absolute th);
  sane_custom r : customEquivalenceSets ps = Some r → ∃ es, r = Ok es;
  sane_finite e m : e ∈ LocalSearchObjective.combinedObjective
                          (MovesEvaluator.minimizingGoal (evaluator ps)) → fin (denote e m)
}.

(** The values the search minimizes. *)
Abbreviation goal_exprs ps :=
  (LocalSearchObjective.combinedObjective (MovesEvaluator.minimizingGoal (evaluator ps))).

Definition goal_values (ps : Params) (p : Problem.t A) : list double :=
  expr_value (Problem.graph p) <$> goal_exprs ps.

Record good (ps : Params) (p : Problem.t A) : Prop := {
  good_wf : Problem.wf p;
  good_within : Problem.within (containers ps) p;
  good_run : same_run p0 p;
  good_tolerance : Precision.positive_tol (Problem.precision p)
}.

Lemma placement_values (p p' : Problem.t A) :
  Problem.wf p → Problem.wf p' →
  Assignment.objectToContainer (Problem.assignment p') =
    Assignment.objectToContainer (Problem.assignment p) →
  ∀ e, expr_value (Problem.graph p') e = expr_value (Problem.graph p) e.
Proof.
  intros [_ H] [_ H'] E e. rewrite E in H'.
  by rewrite (graph_inv_value _ _ _ H), (graph_inv_value _ _ _ H').
Qed.

(** One search step that improves: strictly smaller values, and every hard
    constraint and higher-priority objective respected. *)
Definition improved (ps : Params) (p p' : Problem.t A) : Prop :=
  GlobalObjectiveValue.finite_lt (length (goal_exprs ps)) (goal_values ps p') (goal_values ps p) ∧
  MovesEvaluator.accepted (evaluator ps) p p'
    (LocalSearchObjective.getValue (Problem.graph p) (MovesEvaluator.minimizingGoal (evaluator ps))).

Lemma goal_values_fin ps p : sane ps → Problem.wf p → Forall fin (goal_values ps p).
Proof.
  intros Hs [_ Hq]. apply Forall_fmap, Forall_forall. intros e He. simpl.
  rewrite (graph_inv_value _ _ _ Hq). by apply (sane_finite ps Hs).
Qed.

Lemma accepted_improved ps p p' :
  sane ps → good ps p → Problem.wf p' →
  MovesEvaluator.accepted (evaluator ps) p p'
    (LocalSearchObjective.getValue (Problem.graph p)
       (MovesEvaluator.minimizingGoal (evaluator ps))) →
  improved ps p p'.
Proof.
  intros Hs Hg Hw' Hacc. split; [|done]. destruct Hacc as [_ _ Hb].
  pose proof (λ q, goal_values_fin ps q Hs) as Hfin.
  unfold LocalSearchObjectiveValue.isStrictlyBetter in Hb. apply bind_Ok in Hb as ([] & _ & Hb).
  apply GlobalObjectiveValue.isStrictlyBetter_value_lt in Hb;
    [|apply Hg|by apply Hfin|apply Hfin, Hg].
  split_and!; [|by apply Hfin|unfold goal_values; by rewrite length_fmap].
  destruct Hb as [[H1 H0]|Hb]; [|done]. simpl in H0, H1.
  apply fmap_nil_inv in H0. by rewrite H0 in H1.
Qed.

Lemma findBest_spec ps s hot mv :
  sound_move_type ps mv → good ps (problem s) → indexed ps (problem s) → hot ∈ containers ps →
  ∃ r b s1, findBest ps s hot mv = Ok (r, s1) ∧ problem s1 = problem s ∧ state s1 = state s ∧
    MoveResult.isBetter r (Problem.precision (problem s)) = Ok b ∧
    (b = true →
       Problem.legal hash (problem s) (MoveResult.moveSet_ r) ∧
       (∀ m, m ∈ MoveResult.moveSet_ r → dstContainer m ∈ containers ps) ∧
       MoveResult.oldValue_ r =
         LocalSearchObjective.getValue (Problem.graph (problem s))
           (MovesEvaluator.minimizingGoal (evaluator ps))).
Proof.
  intros Hm Hg Hx Hhot. unfold findBest, getTimePerMove, getSeconds. simpl.
  destruct (Hm (problem s) (hints (state s)) (S (localSearchIterations (progress s))) hot
    (dmin (default dinf (timePerMove ps)) (solveTime ps - clock (ticks (progress s)))%D)
    (good_wf _ _ Hg) (good_run _ _ Hg) Hx Hhot) as (r & b & E & Hb & Hl).
  rewrite E. simpl. eexists r, b, _. by split_and!.
Qed.

(** The fate of a candidate. *)
Definition outcome (ps : Params) (applied : bool) (s s' : t) : Prop :=
  good ps (problem s') ∧ same_run (problem s) (problem s') ∧
  (indexed ps (problem s) → indexed ps (problem s')) ∧
  (if applied
   then (Problem.validateAppliedMoves (problem s) = true →
           improved ps (problem s) (problem s')) ∧
        skipContainers (state s') = skipContainers (state s) ∧
        (is_Some (containersIterator (state s)) → is_Some (containersIterator (state s')))
   else Assignment.objectToContainer (Problem.assignment (problem s')) =
          Assignment.objectToContainer (Problem.assignment (problem s)) ∧
        state s' = state s).

Lemma tryApplyMove_spec ps s idx r :
  sane ps → good ps (problem s) →
  Problem.legal hash (problem s) (MoveResult.moveSet_ r) →
  (∀ m, m ∈ MoveResult.moveSet_ r → dstContainer m ∈ containers ps) →
  MoveResult.oldValue_ r = LocalSearchObjective.getValue (Problem.graph (problem s))
    (MovesEvaluator.minimizingGoal (evaluator ps)) →
  ∃ b s', tryApplyMove ps s idx r = Ok (b, s') ∧ outcome ps b s s'.
Proof.
  intros Hs Hg Hl Hd Eold. unfold tryApplyMove.
  destruct (MovesEvaluator.tryApply_result_spec hash (containers ps) (evaluator ps) (problem s) r)
    as (p' & status & E & W & C & S & O);
    [apply Hg|done|apply Hg|done|done|].
  rewrite E. simpl.
  assert (same_run (problem s) p') as Hr.
  { split; [done|]. rewrite O. case_decide; [|done]. apply place_dom. intros m Hm.
    rewrite (Problem.legal_current _ _ _ Hl m Hm). by eexists. }
  assert (good ps p') as Hg'.
  { split; [done|done|transitivity (problem s); [apply Hg|done]|].
    rewrite (Problem.cfg_precision _ _ S). apply Hg. }
  assert (indexed ps (problem s) → indexed ps p') as Hx.
  { unfold indexed. by rewrite (MovesEvaluator.evaluator_tryApply_indexed hash _ _ _ _ _ (equivalenceSets ps) E). }
  destruct status; cycle 1;
    [eexists false, _; split; [done|]; split; [done|]; split; [done|]; split; [done|]; by split..|].
  eexists true, _. split; [done|]. split; [done|]. split; [done|]. split; [done|].
  split; [|by split]. intros Hv. apply accepted_improved; [done|done|done|].
  rewrite <- Eold. by eapply MovesEvaluator.tryApply_accepted.
Qed.

Lemma afterApply_frame ps n s :
  problem (afterApply ps n s) = problem s ∧
  skipContainers (state (afterApply ps n s)) = skipContainers (state s) ∧
  (is_Some (containersIterator (state s)) →
   is_Some (containersIterator (state (afterApply ps n s)))).
Proof.
  unfold afterApply. simpl. destruct (shouldRecomputeHottestOrderingAfterMove _ _); simpl;
    split_and!; try done; by eexists.
Qed.

(** A rejected candidate leaves the values as they were. *)
Lemma improved_transport ps p q p' :
  Problem.wf p → Problem.wf q → Problem.same_config p q →
  Assignment.objectToContainer (Problem.assignment q) =
    Assignment.objectToContainer (Problem.assignment p) →
  improved ps q p' → improved ps p p'.
Proof.
  intros Wp Wq C E [Hlt [A1 A2 A3]].
  pose proof (placement_values p q Wp Wq E) as Hv.
  pose proof (Problem.cfg_constraints _ _ C) as C3. pose proof (Problem.cfg_precision _ _ C) as C6.
  assert (∀ l : list Z, expr_value (Problem.graph q) <$> l = expr_value (Problem.graph p) <$> l)
    as Hm by (intros l; apply list_fmap_ext; auto).
  unfold goal_values, LocalSearchObjective.getValue, GlobalObjective.getValue in *.
  rewrite Hm in Hlt. rewrite Hm, C6 in A3. split; [done|]. split; [| |done].
  - intros e He. rewrite <- C6. apply A1. by rewrite C3.
  - intros k e He. rewrite <- C6, <- Hv. by apply A2.
Qed.

Lemma outcome_transport ps b s s2 s' :
  good ps (problem s) → good ps (problem s2) → same_run (problem s) (problem s2) →
  (indexed ps (problem s) → indexed ps (problem s2)) →
  Assignment.objectToContainer (Problem.assignment (problem s2)) =
    Assignment.objectToContainer (Problem.assignment (problem s)) →
  state s2 = state s → outcome ps b s2 s' → outcome ps b s s'.
Proof.
  intros G1 G2 C X E Es (G' & C' & X' & H). unfold outcome. rewrite Es in H.
  split; [done|]. split; [by transitivity (problem s2)|]. split; [by auto|]. destruct C as [C _]. destruct b.
  - destruct H as (H & H1 & H2). split; [|done]. intros Hv.
    apply (improved_transport ps (problem s) (problem s2)); [apply G1|apply G2|done|done|].
    apply H. by rewrite (Problem.cfg_validate _ _ C).
  - destruct H. split; congruence.
Qed.

Lemma improve_loop_spec ps hot moves : ∀ idx s,
  sane ps → Forall (sound_move_type ps) moves → good ps (problem s) → indexed ps (problem s) →
  hot ∈ containers ps →
  ∃ b s', improve_loop ps hot moves idx s = Ok (b, s') ∧ outcome ps b s s'.
Proof.
  induction moves as [|mv moves IH]; intros idx s Hs Hmv Hg Hx Hhot.
  - exists false, s. split; [done|]. by split_and!.
  - inversion_clear Hmv as [|? ? Hm Hmv']. cbn [improve_loop].
    destruct (findBest_spec ps s hot mv Hm) as (r & b & s1 & -> & Ep & Es & Eb & Hl);
      [done|done|done|].
    cbn [mbind result_bind]. rewrite Ep, Eb. cbn [mbind result_bind].
    assert (∀ s2, problem s2 = problem s → state s2 = state s → ∃ b s',
      improve_loop ps hot moves (S idx) s2 = Ok (b, s') ∧ outcome ps b s s') as Hskip.
    { intros s2 E1 E2. destruct (IH (S idx) s2) as (b' & s' & E & Ho);
        [done|done|by rewrite E1|by rewrite E1|done|]. exists b', s'. split; [done|].
      unfold outcome in *. by rewrite E1, E2 in Ho. }
    destruct b; simpl negb; cbn match; [|by apply Hskip].
    destruct Hl as (Hleg & Hdst & Hold); [done|].
    destruct (tryApplyMove_spec ps s1 idx r) as (ok & s2 & -> & Ho); rewrite ?Ep; try done.
    cbn [mbind result_bind]. destruct ok; simpl negb; cbn match.
    + eexists true, _. split; [done|]. destruct Ho as (G2 & C2 & X2 & I2 & K2 & T2).
      destruct (afterApply_frame ps (Z.of_nat (length (MoveResult.moveSet_ r))) s2)
        as (F1 & F2 & F3). rewrite Ep, Es in *. unfold outcome. rewrite F1, F2.
      split; [done|]. split; [done|]. split; [done|]. split; [done|]. auto.
    + unfold outcome at 1 in Ho. rewrite Ep, Es in Ho. destruct Ho as (G2 & C2 & X2 & O2 & K2).
      destruct (IH (S idx) s2) as (b' & s' & E & Ho'); [done|done|done|by apply X2|done|].
      exists b', s'. split; [done|]. by apply (outcome_transport ps b' s s2).
Qed.
(** ** Selecting the hot container *)

(** The containers a traversal still lists; its size bounds their number. *)
Fixpoint upcoming (fuel : nat) (it : Traversal) (p : Problem.t A) : list Z :=
  match fuel with
  | O => []
  | S fuel =>
      match traversal_get it p with
      | None => []
      | Some c => c :: upcoming fuel (traversal_next it p) p
      end
  end.

Definition rest (it : Traversal) (p : Problem.t A) : list Z := upcoming (S (traversal_size it)) it p.

Lemma upcoming_enough n m it p :
  (traversal_size it < n)%nat → (traversal_size it < m)%nat → upcoming n it p = upcoming m it p.
Proof.
  revert m it. induction n as [|n IH]; intros [|m] it Hn Hm; [done|lia|lia|]. simpl.
  destruct (traversal_get it p) as [c|] eqn:E; [|done]. f_equal.
  pose proof (traversal_next_size it p c E). apply IH; lia.
Qed.

Lemma rest_get it p :
  rest it p = match traversal_get it p with None => [] | Some c => c :: rest (traversal_next it p) p end.
Proof.
  unfold rest at 1. simpl. destruct (traversal_get it p) as [c|] eqn:E; [|done]. f_equal.
  pose proof (traversal_next_size it p c E). apply upcoming_enough; lia.
Qed.

(** The loop passes over containers to skip only and stops at the first other one. *)
Lemma advance_rest fuel it p skip o it' :
  (traversal_size it < fuel)%nat → advance fuel it p skip = (o, it') →
  ∃ pre, rest it p = pre ++ rest it' p ∧ (∀ c, c ∈ pre → c ∈ skip) ∧ o = head (rest it' p) ∧
    (∀ c, o = Some c → c ∉ skip).
Proof.
  revert it. induction fuel as [|fuel IH]; intros it Hf; [lia|]. simpl.
  destruct (traversal_get it p) as [c|] eqn:E.
  - case_decide as Hc.
    + intros Ha. destruct (IH (traversal_next it p)) as (pre & E1 & H1 & H2 & H3); [|done|].
      { pose proof (traversal_next_size it p c E). lia. }
      exists (c :: pre). split; [by rewrite rest_get, E, E1|]. split; [|done].
      intros c' [->|?]%elem_of_cons; [done|by apply H1].
    + intros [= <- <-]. exists []. split; [done|]. split; [set_solver|].
      split; [by rewrite rest_get, E|]. by intros c' [= <-].
  - intros [= <- <-]. exists []. split; [done|]. split; [set_solver|]. split; [by rewrite rest_get, E|done].
Qed.

Lemma set_iterator_same s it : containersIterator (state s) = Some it →
  set_iterator (Some it) (randomSeed (state s)) s = s.
Proof.
  intros Hit. destruct s as [p st g]. unfold set_iterator, on_state; simpl in *. f_equal.
  destruct st. by simpl in *; subst.
Qed.

(** What the selector returns, and where it leaves its iterator. *)
Lemma selector_next_exact ps s it :
  containersIterator (state s) = Some it →
  ∃ o it' pre, selector_next ps s = Ok (o, set_iterator (Some it') (randomSeed (state s)) s) ∧
    rest it (problem s) = pre ++ rest it' (problem s) ∧ (∀ c, c ∈ pre → c ∈ skipContainers (state s)) ∧
    (∀ c, o = Some c → c ∉ skipContainers (state s)) ∧
    if exploreMovesFromContainersNotInObjective ps
    then match o with
         | None => size (skipContainers (state s)) = size (containers ps) ∨
             ∀ c, c ∈ dom (Assignment.containerToObjects (Problem.assignment (problem s))) →
               c ∈ skipContainers (state s)
         | Some c => size (skipContainers (state s)) ≠ size (containers ps) ∧
             (head (rest it' (problem s)) = Some c ∨
              rest it' (problem s) = [] ∧
              c ∈ dom (Assignment.containerToObjects (Problem.assignment (problem s))))
         end
    else o = head (rest it' (problem s)).
Proof.
  intros Hit. unfold selector_next. rewrite Hit.
  match goal with |- context [if ?b then Ok (None, s) else _] => destruct b eqn:En end.
  { exists None, it, []. rewrite set_iterator_same by done. split; [done|]. split; [done|].
    split; [set_solver|]. split; [done|].
    destruct (exploreMovesFromContainersNotInObjective ps); [left; by apply Nat.eqb_eq in En|].
    apply bool_decide_eq_true in En. by rewrite rest_get, En. }
  cbn [at_ mbind result_bind]. unfold findNextHotContainer.
  destruct (advance _ _ _ _) as [o it'] eqn:E.
  apply advance_rest in E as (pre & E1 & H1 & H2 & H3); [|lia].
  destruct o as [c|].
  { exists (Some c), it', pre. split; [done|]. split; [done|]. split; [done|]. split; [done|].
    destruct (exploreMovesFromContainersNotInObjective ps); [|done].
    apply Nat.eqb_neq in En. split; [done|by left]. }
  destruct (exploreMovesFromContainersNotInObjective ps); [apply Nat.eqb_neq in En|by exists None, it', pre].
  eexists _, it', pre. split; [done|]. split; [done|]. split; [done|].
  assert (∀ x, x ∈ (hash_iter (Assignment.containerToObjects (Problem.assignment (problem s)))).*1 ↔
    x ∈ dom (Assignment.containerToObjects (Problem.assignment (problem s)))) as Hdom.
  { intros x. rewrite elem_of_dom, list_elem_of_fmap. split.
    - intros ([c st] & -> & Hin). rewrite hash_iter_perm in Hin. apply elem_of_map_to_list in Hin. by eexists.
    - intros [st Hx]. exists (x, st). split; [done|]. rewrite hash_iter_perm. by apply elem_of_map_to_list. }
  match goal with |- context [head ?l] => destruct (head l) as [c|] eqn:Eh; [|split; [done|]] end.
  - apply head_Some_elem_of, list_elem_of_filter in Eh as [Hc Hin].
    split; [by intros c' [= <-]|]. split; [done|]. right. split; [|by apply Hdom].
    by destruct (rest it' (problem s)).
  - right. intros c Hc. apply dec_stable. intros Hn. apply head_None in Eh.
    apply (not_elem_of_nil c). rewrite <- Eh. apply list_elem_of_filter. split; [done|]. by apply Hdom.
Qed.

Lemma selector_next_spec ps s :
  sane ps → good ps (problem s) → is_Some (containersIterator (state s)) →
  ∃ o it, selector_next ps s = Ok (o, set_iterator (Some it) (randomSeed (state s)) s) ∧
    ∀ c, o = Some c → c ∈ containers ps ∧ c ∉ skipContainers (state s).
Proof.
  intros Hs Hg [it Hit].
  destruct (selector_next_exact ps s it Hit) as (o & it' & pre & E & _ & _ & Hns & Ho).
  exists o, it'. split; [done|]. intros c ->. split; [|by apply Hns].
  assert (head (rest it' (problem s)) = Some c → c ∈ containers ps) as Hhead.
  { rewrite rest_get. destruct (traversal_get it' (problem s)) as [x|] eqn:Ex; [|done].
    intros [= <-]. by eapply (sane_traversal ps Hs). }
  destruct (exploreMovesFromContainersNotInObjective ps); [|by apply Hhead].
  destruct Ho as [_ [Ho|[_ Ho]]]; [by apply Hhead|by apply (good_within ps _ Hg)].
Qed.

(** ** Termination *)

Lemma precisionCompare_ok {X} (f g : X → double) l p :
  is_Ok (GlobalObjectiveValue.precisionCompare (GlobalObjectiveValue.mk (f <$> l) None)
           (GlobalObjectiveValue.mk (g <$> l) None) p) = true.
Proof.
  unfold GlobalObjectiveValue.precisionCompare, GlobalObjectiveValue.size. simpl.
  rewrite !length_fmap, Nat.eqb_refl. simpl. by destruct (length l =? 0)%nat.
Qed.

Lemma within_bounds_ok {X} (f g : X → double) l p :
  ∃ b, isObjectiveWithinBounds (GlobalObjectiveValue.mk (f <$> l) None)
         (GlobalObjectiveValue.mk (g <$> l) None) p = Ok b.
Proof.
  unfold isObjectiveWithinBounds. pose proof (precisionCompare_ok f g l p) as H.
  destruct (GlobalObjectiveValue.precisionCompare _ _ _); [simpl; eauto|done].
Qed.

Lemma reachedGlobalOptimum_spec ps s :
  ∃ b s', reachedGlobalOptimum ps s = Ok (b, s') ∧
    problem s' = problem s ∧ state s' = state s ∧
    (b = true → endReason (progress s') = OPTIMAL).
Proof.
  unfold reachedGlobalOptimum, GlobalObjective.getValue, lowerBoundOf.
  destruct (within_bounds_ok (expr_value (Problem.graph (problem s)))
    (lowerBound (problem s) None) (userObjective ps) (Problem.precision (problem s))) as [b ->].
  simpl. destruct b; eexists _, _; by split_and!.
Qed.

Lemma reachedLocalOptimum_spec ps s :
  ∃ b s', reachedLocalOptimum ps s = Ok (b, s') ∧
    problem s' = problem s ∧ state s' = state s.
Proof.
  unfold reachedLocalOptimum, GlobalObjective.getValue, lowerBoundOf.
  destruct (negb _); [by eexists _, _; split_and!|]. simpl.
  destruct (_ <? _)%D; [by eexists _, _; split_and!|].
  destruct (within_bounds_ok (expr_value (Problem.graph (problem s)))
    (lowerBound (problem s) (Some (skipContainers (state s)))) (userObjective ps)
    (Problem.precision (problem s))) as [b E].
  rewrite E. simpl. eexists _, _. by split_and!.
Qed.

Lemma shouldTerminate_frame ps now s b s' :
  shouldTerminate ps now s = (b, s') → problem s' = problem s ∧ state s' = state s.
Proof. unfold shouldTerminate. repeat case_match; intros [= <- <-]; done. Qed.

Lemma anySignificantDecrease_ok th before after :
  is_Some (th_percent th) ∨ is_Some (th_absolute th) →
  ∃ b, anySignificantDecrease th before after = Ok b.
Proof.
  intros Hth. revert after. induction before as [|b before IH]; intros [|a after]; simpl; eauto.
  assert (∃ d, isSignificantDecrease th b a = Ok d) as [d ->].
  { unfold isSignificantDecrease. destruct (_ <=? _)%D; [eauto|].
    destruct (th_percent th), (th_absolute th); cbn [bool_decide]; repeat case_match; eauto.
    destruct Hth as [[? ?]|[? ?]]; done. }
  simpl. destruct d; eauto.
Qed.

Definition inv_at (ps : Params) (c : pc) (s : t) : Prop :=
  good ps (problem s) ∧
  match c with
  | Start => ∃ f, ∀ o, Assignment.is_dynamic (Problem.assignment (problem s)) o →
      es_at (equivalenceSets ps) o = Ok (f o)
  | Loop => is_Some (containersIterator (state s)) ∧ indexed ps (problem s)
  | CycleStart | CycleEnd => indexed ps (problem s)
  | Finished _ => True
  end.

(** How far the machine is from the end if nothing improves any more: a cycle
    that applied moves is followed by one more cycle. *)
Definition phase (c : pc) (s : t) : nat :=
  let again := 0 <? movesInCycle (state s) in
  match c with
  | Start => 6
  | Loop => if again then 5 else 2
  | CycleEnd => if again then 4 else 1
  | CycleStart => 3
  | Finished _ => 0
  end.

Definition remaining (ps : Params) (s : t) : nat :=
  size (containers ps ∖ skipContainers (state s)).

Definition closer (ps : Params) (c : pc) (s : t) (c' : pc) (s' : t) : Prop :=
  (phase c' s' < phase c s)%nat ∨
  (phase c' s' = phase c s ∧ (remaining ps s' < remaining ps s)%nat).

(** One iteration: the state stays consistent, and either a move was applied or
    every object is where it was and the machine is closer to the end. *)
Definition step_ok (ps : Params) (c : pc) (s : t) (c' : pc) (s' : t) : Prop :=
  inv_at ps c' s' ∧ same_run (problem s) (problem s') ∧
  ((Problem.validateAppliedMoves (problem s) = true → improved ps (problem s) (problem s')) ∨
   (Assignment.objectToContainer (Problem.assignment (problem s')) =
      Assignment.objectToContainer (Problem.assignment (problem s)) ∧
    closer ps c s c' s')).

Lemma initializeEquivalenceSets_ok ps : sane ps → initializeEquivalenceSets ps = Ok (equivalenceSets ps).
Proof.
  intros Hs. unfold initializeEquivalenceSets, equivalenceSets.
  destruct (customEquivalenceSets ps) as [r|] eqn:E; [|done]. by destruct (sane_custom ps Hs r E) as [es ->].
Qed.

Lemma step_start_spec ps s :
  sane ps → inv_at ps Start s → ∃ c' s', step_start ps s = Ok (c', s') ∧ step_ok ps Start s c' s'.
Proof.
  intros Hs [Hg [f Hf]]. unfold step_start.
  destruct (reachedGlobalOptimum_spec ps s) as (b & s1 & -> & E1 & _ & _). simpl.
  destruct b.
  { eexists _, _. split; [done|]. unfold step_ok, inv_at. rewrite E1.
    split; [done|]. split; [reflexivity|]. right. split; [done|]. left. simpl. lia. }
  destruct (shouldTerminate _ _ _) as [stop s5] eqn:Et.
  apply shouldTerminate_frame in Et as [E5 _]. simpl in E5. rewrite E1 in E5. destruct stop.
  { eexists _, _. split; [done|]. unfold step_ok, inv_at. rewrite E5.
    split; [done|]. split; [reflexivity|]. right. split; [done|]. left. simpl. lia. }
  rewrite E5, initializeEquivalenceSets_ok by done. cbn [mbind result_bind].
  destruct (Assignment.maybeBuild_spec (Problem.assignment (problem s))
    (equivalenceSets ps) f) as (a' & ix & -> & Ha & Eo & Ec & _ & Hx); [apply Hg|done|]. simpl.
  eexists _, _. split; [done|]. destruct Hg as [[G1 G2] G3 G4 G5]. unfold step_ok, inv_at. simpl.
  match goal with |- context [good ps ?q] => set (p1 := q) end.
  assert (same_run (problem s) p1) as Hr by (split; [by split|simpl; by rewrite Eo]).
  split; [split; [|done]; split;
    [split; simpl; by rewrite ?Eo|unfold Problem.within; simpl; by rewrite Ec|
     by transitivity (problem s)|done]|].
  split; [done|]. right. split; [done|]. left. simpl. lia.
Qed.

Lemma step_end_spec ps s :
  sane ps → inv_at ps CycleEnd s →
  ∃ c' s', step_end ps s = Ok (c', s') ∧ step_ok ps CycleEnd s c' s'.
Proof.
  intros Hs [Hg Hx]. unfold step_end, shouldStartNextCycle.
  assert (∃ again s1, (if 0 <? movesInCycle (state s)
      then hasSufficientObjectiveImprovement ps s else Ok (false, s)) = Ok (again, s1) ∧
    problem s1 = problem s ∧ state s1 = state s ∧
    (again = true → (0 <? movesInCycle (state s)) = true)) as (again & s1 & -> & E1 & E2 & Ha).
  { destruct (0 <? movesInCycle (state s)); [|by eexists _, _; split_and!].
    unfold hasSufficientObjectiveImprovement.
    destruct (minCycleObjectiveImprovement ps) as [th|] eqn:Eth; [|by eexists _, _; split_and!].
    destruct (anySignificantDecrease_ok th
      (GlobalObjectiveValue.values (objectiveAtCycleStart (state s)))
      (expr_value (Problem.graph (problem s)) <$> Problem.objective (problem s))) as [b ->].
    { by apply (sane_threshold ps Hs). }
    simpl. destruct b; by eexists _, _; split_and!. }
  simpl. destruct again.
  - eexists _, _. split; [done|]. unfold step_ok, inv_at. rewrite E1.
    split; [done|]. split; [reflexivity|]. right. split; [done|]. left.
    simpl. rewrite (Ha eq_refl). lia.
  - eexists _, _. split; [done|].
    match goal with |- step_ok _ _ _ _ ?x => set (s2 := x) end.
    assert (problem s2 = problem s) as E3 by (unfold s2; repeat case_match; done).
    unfold step_ok, inv_at. rewrite E3.
    split; [done|]. split; [reflexivity|]. right. split; [done|]. left.
    simpl. destruct (0 <? _); lia.
Qed.

Lemma step_loop_spec ps s :
  sane ps → inv_at ps Loop s →
  ∃ c' s', step_loop ps s = Ok (c', s') ∧ step_ok ps Loop s c' s'.
Proof.
  intros Hs [Hg [Hit Hx]]. unfold step_loop.
  destruct (selector_next_spec ps s Hs Hg Hit) as (hot & it & -> & Hhot).
  set (s1 := set_iterator _ _ s). cbn [mbind result_bind].
  destruct hot as [hot|].
  2: { eexists _, _. split; [done|]. unfold step_ok, inv_at. simpl.
       split; [done|]. split; [reflexivity|]. right. split; [done|]. left.
       simpl. destruct (0 <? _); lia. }
  destruct (Hhot hot eq_refl) as [Hin Hnot].
  destruct (improve_loop_spec ps hot (allowedMoves ps) 0 s1 Hs (sane_moves ps Hs) Hg Hx Hin)
    as (improved' & s2 & E2 & Ho). unfold improveHotContainer. rewrite E2.
  cbn [mbind result_bind].
  match goal with |- context [reachedGlobalOptimum ps ?x] => set (s3 := x) end.
  assert (problem s3 = problem s2 ∧
    containersIterator (state s3) = containersIterator (state s2) ∧
    movesInCycle (state s3) = movesInCycle (state s2)) as (P3 & I3 & M3)
    by (unfold s3; destruct improved'; done).
  assert (is_Some (containersIterator (state s2))) as Hit2.
  { destruct Ho as (_ & _ & _ & Ho). destruct improved'.
    - destruct Ho as (_ & _ & Ho). apply Ho. by eexists.
    - destruct Ho as [_ ->]. by eexists. }
  (* whatever the checks do, they keep the problem and the solve state *)
  assert (∀ c' s', problem s' = problem s3 → state s' = state s3 →
    (phase c' s3 ≤ phase Loop s3)%nat → step_ok ps Loop s c' s') as Hdone.
  { intros c' s' Ep Es Hph. destruct Ho as (G2 & C2 & X2 & Ho). specialize (X2 Hx).
    unfold step_ok, inv_at. rewrite Ep, P3. split.
    { split; [done|]. destruct c'; try done; [simpl in Hph; destruct (0 <? _); lia|].
      by rewrite Es, I3. }
    split; [done|]. destruct improved'; [by left; apply Ho|right].
    destruct Ho as [O2 S2]. split; [done|].
    assert (movesInCycle (state s3) = movesInCycle (state s)) as Hm by (by rewrite M3, S2).
    assert (phase c' s' = phase c' s3) as E1 by (unfold phase; by rewrite Es).
    assert (phase Loop s3 = phase Loop s) as E4 by (unfold phase; by rewrite Hm).
    unfold closer. rewrite E1, <- E4.
    destruct (decide (phase c' s3 = phase Loop s3)) as [->|]; [right|left; lia].
    split; [done|]. unfold remaining. rewrite Es. unfold s3; simpl. rewrite S2; simpl.
    apply subset_size. split; [set_solver|]. intros Hsub. specialize (Hsub hot). set_solver. }
  clearbody s3. destruct (reachedGlobalOptimum_spec ps s3) as (b & s4 & -> & E4 & S4 & _).
  cbn [mbind result_bind]. destruct b; [eexists _, _; split; [done|]; apply Hdone; [done|done|simpl; lia]|].
  simpl. destruct (shouldTerminate _ _ _) as [stop s6] eqn:Et.
  apply shouldTerminate_frame in Et as [E6 S6]. simpl in E6, S6.
  destruct stop; [eexists _, _; split; [done|]; apply Hdone; [congruence|congruence|simpl; lia]|].
  destruct (reachedLocalOptimum_spec ps s6) as (lo & s7 & -> & E7 & S7). simpl.
  eexists _, _. split; [done|]. apply Hdone; [congruence|congruence|].
  destruct lo; simpl; destruct (0 <? _); lia.
Qed.

Lemma step_spec ps c s :
  sane ps → inv_at ps c s → (∀ b, c ≠ Finished b) →
  ∃ c' s', step ps c s = Ok (c', s') ∧ step_ok ps c s c' s'.
Proof.
  intros Hs Hi Hc. destruct c; simpl; [by apply step_start_spec| |by apply step_loop_spec|
    by apply step_end_spec|by destruct (Hc solved)].
  eexists _, _. split; [done|]. destruct Hi as [Hg Hx]. unfold step_ok, inv_at; simpl.
  split; [split; [done|split; [by eexists|done]]|]. split; [reflexivity|].
  right. split; [done|]. left. simpl. lia.
Qed.

(** ** Whole runs *)

Definition constraints_ok (p : Problem.t A) : Prop :=
  ∀ e, e ∈ Problem.labeledHardConstraints p →
    Precision.isStrictlyGtZero (Problem.precision p) (expr_value (Problem.graph p) e) = false.

Abbreviation goal_lt ps := (GlobalObjectiveValue.finite_lt (length (goal_exprs ps))).

(** What relates the problem at two moments of a run. *)
Record advanced (ps : Params) (p p' : Problem.t A) : Prop := {
  adv_run : same_run p p';
  adv_constraints : constraints_ok p → constraints_ok p';
  adv_goal : goal_values ps p' = goal_values ps p ∨
             goal_lt ps (goal_values ps p') (goal_values ps p)
}.

Lemma goal_lt_trans ps v1 v2 v3 : goal_lt ps v1 v2 → goal_lt ps v2 v3 → goal_lt ps v1 v3.
Proof.
  intros (L1 & F1 & N1) (L2 & _ & _). split_and!; [|done|done].
  by eapply GlobalObjectiveValue.lex_lt_trans.
Qed.

#[local] Instance advanced_preorder ps : PreOrder (advanced ps).
Proof.
  split.
  - intros p. split; [reflexivity|done|by left].
  - intros p q r [R1 C1 V1] [R2 C2 V2]. split; [by transitivity q|auto|].
    destruct V1 as [V1|V1], V2 as [V2|V2]; rewrite ?V2, ?V1; auto.
    + right. by rewrite <- V1.
    + right. by eapply goal_lt_trans.
Qed.

Lemma step_ok_advanced ps c s c' s' :
  Problem.validateAppliedMoves (problem s) = true → good ps (problem s) →
  step_ok ps c s c' s' → advanced ps (problem s) (problem s').
Proof.
  intros Hv Hg ([Hg' _] & [C D] & H). split; [done| |].
  - destruct H as [H|[E _]].
    + destruct (H Hv) as [_ [A1 _ _]]. intros _ e.
      rewrite (Problem.cfg_constraints _ _ C), (Problem.cfg_precision _ _ C). apply A1.
    + intros Hc e. rewrite (Problem.cfg_constraints _ _ C), (Problem.cfg_precision _ _ C).
      rewrite (placement_values (problem s) (problem s')); [apply Hc|apply Hg|apply Hg'|done].
  - destruct H as [H|[E _]]; [right; by apply (H Hv)|left].
    apply list_fmap_ext. intros _ e _.
    apply placement_values; [apply Hg|apply Hg'|done].
Qed.

Lemma run_step fuel ps c s c' s' :
  (∀ b, c ≠ Finished b) → step ps c s = Ok (c', s') → run (S fuel) ps c s = run fuel ps c' s'.
Proof.
  intros Hc E. destruct c as [| | | |b]; [cbn [run]; by rewrite E..|]. by destruct (Hc b).
Qed.

(** However long it runs, and whether or not applied moves are validated, the search
    does not throw and keeps the problem consistent. *)
Lemma run_safe ps fuel : ∀ c s, sane ps → inv_at ps c s →
  ∃ r, run fuel ps c s = Ok r ∧ ∀ b s', r = Some (b, s') → good ps (problem s').
Proof.
  induction fuel as [|fuel IH]; intros c s Hs Hi;
    (assert ((∃ b, c = Finished b) ∨ ∀ b, c ≠ Finished b) as [[b ->]|Hc'] by (destruct c; eauto; by right);
     [exists (Some (b, s)); split; [done|]; intros ? ? [= _ <-]; apply Hi|]).
  - exists None. destruct c; try done. by destruct (Hc' solved).
  - destruct (step_spec ps c s Hs Hi Hc') as (c' & s' & Est & Hok).
    rewrite (run_step fuel ps c s c' s' Hc' Est). apply IH; [done|apply Hok].
Qed.

(** The search ends: each applied move lowers the values of the objective, which
    is possible only finitely often, and between two applied moves only finitely
    many containers are tried. *)
Lemma run_total ps c s :
  sane ps → inv_at ps c s → Problem.validateAppliedMoves (problem s) = true →
  ∃ fuel b s', run fuel ps c s = Ok (Some (b, s')) ∧
    good ps (problem s') ∧ advanced ps (problem s) (problem s').
Proof.
  intros Hs Hi0 Hv0.
  assert (Acc (goal_lt ps) (goal_values ps (problem s))) as Hacc.
  { apply GlobalObjectiveValue.finite_lt_acc; [apply goal_values_fin; [done|apply Hi0]|].
    unfold goal_values. by rewrite length_fmap. }
  revert Hi0 Hv0. remember (goal_values ps (problem s)) as v eqn:Ev. revert c s Ev.
  induction Hacc as [v _ IHv]. intros c s Ev.
  remember (phase c s) as k eqn:Ek. revert c s Ek Ev.
  induction (lt_wf k) as [k _ IHk]. intros c s Ek Ev.
  remember (remaining ps s) as n eqn:En. revert c s En Ek Ev.
  induction (lt_wf n) as [n _ IHn]. intros c s En Ek Ev Hi Hv.
  assert ((∃ b, c = Finished b) ∨ ∀ b, c ≠ Finished b) as [[b ->]|Hc']
    by (destruct c; eauto; by right).
  { exists 0%nat, b, s. split; [done|]. split; [apply Hi|reflexivity]. }
  destruct (step_spec ps c s Hs Hi Hc') as (c' & s' & Est & Hok).
  pose proof (step_ok_advanced ps c s c' s' Hv (proj1 Hi) Hok) as Hadv.
  assert (∃ fuel b s'', run fuel ps c' s' = Ok (Some (b, s'')) ∧
    good ps (problem s'') ∧ advanced ps (problem s') (problem s'')) as
    (fuel & b & s'' & Er & Hg & Hadv').
  { destruct Hok as (Hi' & [C D] & Hcase).
    assert (Problem.validateAppliedMoves (problem s') = true) as Hv'
      by (by rewrite (Problem.cfg_validate _ _ C)).
    destruct Hcase as [Himp|[E Hcl]].
    - eapply IHv; [|done|done|done]. rewrite Ev. by apply Himp.
    - assert (v = goal_values ps (problem s')) as Ev'.
      { rewrite Ev. symmetry. apply list_fmap_ext. intros _ e _.
        apply placement_values; [apply Hi|apply Hi'|done]. }
      destruct Hcl as [Hk|[Hk Hr]].
      + by eapply (IHk (phase c' s')); [lia|..].
      + by eapply (IHn (remaining ps s')); [lia|done|lia|..]. }
  exists (S fuel), b, s''. rewrite (run_step fuel ps c s c' s' Hc' Est).
  split_and!; [done|done|by transitivity (problem s')].
Qed.
End correct.
End search.
End LocalSearch.
