(* ===== verification/AssociativeMap.v ===== *)
(** * AssociativeMap: an AVL tree that aggregates its values

    algopt_common/AssociativeMap.h.  Every node stores the aggregate of its
    subtree, so the aggregate of all the values is read at the root; [SumMap]
    instantiates it with addition and is what [LinearSum] keeps its terms in. *)

From Stdlib Require Import Sorted.
From S2P Require Import Prelude Exact.

Module AssociativeMap.

(** A [Node] with its cached result and height; a null pointer is [Leaf]. *)
Inductive tree (V : Type) :=
  | Leaf
  | Node (key : Z) (value : V) (result : V) (height : nat) (left right : tree V).
Arguments Leaf {V}.
Arguments Node {V}.

Inductive InsertOrUpdate := INSERT | UPDATE.

Section tree.
Context {V : Type} (operation : V → V → V) (neutral : V).

Definition height (t : tree V) : nat := match t with Leaf => 0 | Node _ _ _ h _ _ => h end.

Fixpoint getValueIfExists (t : tree V) (key : Z) : option V :=
  match t with
  | Leaf => None
  | Node k v _ _ l r =>
      if key =? k then Some v
      else if key <? k then getValueIfExists l key else getValueIfExists r key
  end.

(** [update_result]: the value, then the left and the right aggregates. *)
Definition combine (v : V) (l r : tree V) : V :=
  let res := match l with Leaf => v | Node _ _ x _ _ _ => operation v x end in
  match r with Leaf => res | Node _ _ x _ _ _ => operation res x end.

(** [update_height_and_result] *)
Definition node (k : Z) (v : V) (l r : tree V) : tree V :=
  Node k v (combine v l r) (S (height l `max` height r)) l r.

Definition rotate_left (t : tree V) : tree V :=
  match t with
  | Node k v _ _ b (Node k' v' _ _ d e) => node k' v' (node k v b d) e
  | _ => t
  end.

Definition rotate_right (t : tree V) : tree V :=
  match t with
  | Node k v _ _ (Node k' v' _ _ d e) c => node k' v' d (node k v e c)
  | _ => t
  end.

(** [left] and [right] of a node that is there. *)
Definition left_of (t : tree V) : tree V := match t with Leaf => Leaf | Node _ _ _ _ l _ => l end.
Definition right_of (t : tree V) : tree V := match t with Leaf => Leaf | Node _ _ _ _ _ r => r end.

(** [rebalance] of the node with these fields: its own result and height are
    recomputed on every branch. *)
Definition rebalance (k : Z) (v : V) (l r : tree V) : tree V :=
  if (height r + 1 <? height l)%nat then
    let l' := if (height (left_of l) <? height (right_of l))%nat then rotate_left l else l in
    rotate_right (node k v l' r)
  else if (height l + 1 <? height r)%nat then
    let r' := if (height (right_of r) <? height (left_of r))%nat then rotate_right r else r in
    rotate_left (node k v l r')
  else node k v l r.

Fixpoint insert_or_update (t : tree V) (key : Z) (value : V) : InsertOrUpdate * tree V :=
  match t with
  | Leaf => (INSERT, Node key value value 1 Leaf Leaf)
  | Node k v res h l r =>
      if key =? k then (UPDATE, Node k value (combine value l r) h l r)
      else if key <? k then
        match insert_or_update l key value with
        | (UPDATE, l') => (UPDATE, Node k v (combine v l' r) h l' r)
        | (INSERT, l') => (INSERT, rebalance k v l' r)
        end
      else
        match insert_or_update r key value with
        | (UPDATE, r') => (UPDATE, Node k v (combine v l r') h l r')
        | (INSERT, r') => (INSERT, rebalance k v l r')
        end
  end.

Definition update (t : tree V) (key : Z) (value : V) : tree V := (insert_or_update t key value).2.

(** The node taken out and the rest of the subtree. *)
Fixpoint extract_min (t : tree V) : option (Z * V * tree V) :=
  match t with
  | Leaf => None
  | Node k v _ _ l r =>
      match extract_min l with
      | None => Some (k, v, r)
      | Some (mk, mv, l') => Some (mk, mv, rebalance k v l' r)
      end
  end.

Definition merge (l r : tree V) : tree V :=
  match extract_min r with
  | None => l
  | Some (k, v, r') => rebalance k v l r'
  end.

Fixpoint remove (t : tree V) (key : Z) : tree V :=
  match t with
  | Leaf => Leaf
  | Node k v _ _ l r =>
      if key =? k then merge l r
      else if key <? k then rebalance k v (remove l key) r
      else rebalance k v l (remove r key)
  end.

Definition query (t : tree V) : V :=
  match t with Leaf => neutral | Node _ _ res _ _ _ => res end.

Fixpoint less_than (t : tree V) (key : Z) (strict : bool) : V :=
  match t with
  | Leaf => neutral
  | Node k v _ _ l r =>
      if (strict && (k <? key)) || (negb strict && (k <=? key)) then
        let res := match l with Leaf => v | Node _ _ x _ _ _ => operation v x end in
        match r with Leaf => res | Node _ _ _ _ _ _ => operation res (less_than r key strict) end
      else less_than l key strict
  end.

Definition query_lt (t : tree V) (key : Z) : V := less_than t key true.
Definition query_le (t : tree V) (key : Z) : V := less_than t key false.
Definition clear : tree V := Leaf.

(** ** Invariants *)

(** Heights are right and siblings differ by at most one. *)
Fixpoint avl (t : tree V) : Prop :=
  match t with
  | Leaf => True
  | Node _ _ _ h l r =>
      avl l ∧ avl r ∧ h = S (height l `max` height r) ∧
      (height l ≤ S (height r))%nat ∧ (height r ≤ S (height l))%nat
  end.

(** Every cached result is the aggregate of its subtree. *)
Fixpoint results (t : tree V) : Prop :=
  match t with
  | Leaf => True
  | Node _ v res _ l r => results l ∧ results r ∧ res = combine v l r
  end.

(** The entries in key order. *)
Fixpoint entries (t : tree V) : list (Z * V) :=
  match t with
  | Leaf => []
  | Node k v _ _ l r => entries l ++ ((k, v) :: entries r)
  end.

Definition sorted (l : list (Z * V)) : Prop := StronglySorted Z.lt l.*1.

Record inv (t : tree V) : Prop := {
  inv_avl : avl t;
  inv_results : results t;
  inv_sorted : sorted (entries t)
}.

(** ** Rebalancing *)

Lemma entries_rotate_left t : entries (rotate_left t) = entries t.
Proof.
  destruct t as [|k v res h b c]; [done|]. destruct c; [done|]. simpl.
  by rewrite <- app_assoc.
Qed.

Lemma entries_rotate_right t : entries (rotate_right t) = entries t.
Proof.
  destruct t as [|k v res h b c]; [done|]. destruct b; [done|]. simpl.
  by rewrite <- app_assoc.
Qed.

Lemma entries_rebalance k v l r : entries (rebalance k v l r) = entries l ++ ((k, v) :: entries r).
Proof.
  unfold rebalance. destruct (_ <? _)%nat; [|destruct (_ <? _)%nat; [|done]].
  - rewrite entries_rotate_right. simpl. destruct (_ <? _)%nat; [|done].
    by rewrite entries_rotate_left.
  - rewrite entries_rotate_left. simpl. destruct (_ <? _)%nat; [|done].
    by rewrite entries_rotate_right.
Qed.

Lemma results_rotate_left t : results t → results (rotate_left t).
Proof.
  destruct t as [|k v res h b c]; [done|]. destruct c; [done|]. simpl. tauto.
Qed.

Lemma results_rotate_right t : results t → results (rotate_right t).
Proof.
  destruct t as [|k v res h b c]; [done|]. destruct b; [done|]. simpl. tauto.
Qed.

Lemma results_rebalance k v l r : results l → results r → results (rebalance k v l r).
Proof.
  intros Hl Hr. unfold rebalance. destruct (_ <? _)%nat; [|destruct (_ <? _)%nat; [|done]].
  - apply results_rotate_right. simpl. destruct (_ <? _)%nat; [|done].
    split_and!; [by apply results_rotate_left|done|done].
  - apply results_rotate_left. simpl. destruct (_ <? _)%nat; [|done].
    split_and!; [done|by apply results_rotate_right|done].
Qed.

(** Subtrees that differ by at most two are balanced again; the height is that
    of the higher one, or one more. *)
Lemma avl_rebalance k v l r :
  avl l → avl r → (height l ≤ 2 + height r)%nat → (height r ≤ 2 + height l)%nat →
  avl (rebalance k v l r) ∧
  ((height l ≤ 1 + height r)%nat → (height r ≤ 1 + height l)%nat →
     height (rebalance k v l r) = S (height l `max` height r)) ∧
  (height l `max` height r ≤ height (rebalance k v l r) ≤ S (height l `max` height r))%nat.
Proof.
  intros Hl Hr H1 H2. unfold rebalance.
  destruct (Nat.ltb_spec (height r + 1) (height l)) as [Hlt|Hge].
  - destruct l as [|lk lv lres lh ll lr]; [simpl in *; lia|]. simpl in Hl, Hlt, H1, H2.
    destruct Hl as (Hll & Hlr & -> & Hb1 & Hb2). cbn [left_of right_of].
    destruct (Nat.ltb_spec (height ll) (height lr)).
    + destruct lr as [|lrk lrv lrres lrh lrl lrr]; [simpl in *; lia|]. simpl in *.
      destruct Hlr as (? & ? & -> & ? & ?). lia || (split_and!; try done; lia).
    + simpl in *. split_and!; try done; lia.
  - destruct (Nat.ltb_spec (height l + 1) (height r)) as [Hlt|Hge'].
    + destruct r as [|rk rv rres rh rl rr]; [simpl in *; lia|]. simpl in Hr, Hlt, H1, H2.
      destruct Hr as (Hrl & Hrr & -> & Hb1 & Hb2). cbn [left_of right_of].
      destruct (Nat.ltb_spec (height rr) (height rl)).
      * destruct rl as [|rlk rlv rlres rlh rll rlr]; [simpl in *; lia|]. simpl in *.
        destruct Hrl as (? & ? & -> & ? & ?). lia || (split_and!; try done; lia).
      * simpl in *. split_and!; try done; lia.
    + simpl. split_and!; try done; lia.
Qed.

(** ** update *)

(** Insertion into a sorted association list. *)
Fixpoint put (l : list (Z * V)) (key : Z) (value : V) : list (Z * V) :=
  match l with
  | [] => [(key, value)]
  | (k, v) :: l =>
      if key =? k then (k, value) :: l
      else if key <? k then (key, value) :: (k, v) :: l
      else (k, v) :: put l key value
  end.

Lemma sorted_app l1 k v l2 :
  sorted (l1 ++ ((k, v) :: l2)) ↔
  sorted l1 ∧ sorted l2 ∧ Forall (λ e, e.1 < k) l1 ∧ Forall (λ e, k < e.1) l2.
Proof.
  unfold sorted. rewrite fmap_app. simpl. induction l1 as [|[k1 v1] l1 IH]; simpl.
  - split.
    + inversion_clear 1 as [|? ? Hs Hf]. split_and!; [constructor|done|done|].
      by rewrite Forall_fmap in Hf.
    + intros (_ & Hs & _ & Hf). constructor; [done|]. by rewrite Forall_fmap.
  - split.
    + inversion_clear 1 as [|? ? Hs Hf]. apply IH in Hs as (? & ? & ? & ?).
      apply Forall_app in Hf as [Hf1 Hf2]. inversion_clear Hf2.
      split_and!; [by constructor|done|by constructor|done].
    + intros (Hs & Hs2 & Hf1 & Hf2). inversion_clear Hs as [|? ? Hs1 Hf].
      inversion_clear Hf1 as [|? ? Hk Hf1']. simpl in Hk.
      constructor; [by apply IH|]. apply Forall_app. split; [done|].
      constructor; [done|]. rewrite Forall_fmap. eapply Forall_impl; [eassumption|].
      simpl. intros; lia.
Qed.

Lemma put_app l1 k v l2 key value :
  Forall (λ e, e.1 < k) l1 →
  put (l1 ++ ((k, v) :: l2)) key value =
  if key =? k then l1 ++ ((k, value) :: l2)
  else if key <? k then put l1 key value ++ ((k, v) :: l2)
  else l1 ++ ((k, v) :: put l2 key value).
Proof.
  induction 1 as [|[k1 v1] l1 Hk Hl IH]; simpl in *;
    [by destruct (key =? k), (key <? k)|].
  rewrite IH. destruct (Z.eqb_spec key k1), (Z.eqb_spec key k), (Z.ltb_spec key k1),
    (Z.ltb_spec key k); subst; simpl; try done; lia.
Qed.

Lemma put_sorted l key value :
  sorted l → sorted (put l key value) ∧
  ∀ k, k ∈ (put l key value).*1 ↔ k = key ∨ k ∈ l.*1.
Proof.
  clear operation neutral.
  induction l as [|[k v] l IH]; intros Hs; simpl.
  - split; [repeat constructor|set_solver].
  - inversion_clear Hs as [|? ? Hs' Hf]. destruct (IH Hs') as [IH1 IH2].
    destruct (Z.eqb_spec key k) as [->|Hne]; [split; [by constructor|intros x; simpl; rewrite !elem_of_cons; tauto]|].
    destruct (Z.ltb_spec key k); simpl.
    + split; [|intros x; by rewrite !elem_of_cons]. constructor; [by constructor|]. simpl. constructor; [lia|].
      eapply Forall_impl; [eassumption|]. simpl. lia.
    + split; [|intros x; rewrite !elem_of_cons, IH2; tauto]. constructor; [done|]. simpl. apply Forall_forall. intros x Hx.
      apply IH2 in Hx as [->|Hx]; [lia|]. by eapply Forall_forall in Hf.
Qed.

Lemma entries_insert t key value :
  sorted (entries t) → entries (insert_or_update t key value).2 = put (entries t) key value.
Proof.
  induction t as [|k v res h l IHl r IHr]; simpl; [done|].
  intros (Hl & Hr & Hf1 & Hf2)%sorted_app. rewrite put_app by done.
  destruct (key =? k); [done|]. destruct (key <? k).
  - rewrite <- IHl by done. destruct (insert_or_update l key value) as [[] l']; simpl;
      [apply entries_rebalance|done].
  - rewrite <- IHr by done. destruct (insert_or_update r key value) as [[] r']; simpl;
      [apply entries_rebalance|done].
Qed.

Lemma results_insert t key value : results t → results (insert_or_update t key value).2.
Proof.
  induction t as [|k v res h l IHl r IHr]; simpl; [done|]. intros (Hl & Hr & ->).
  specialize (IHl Hl). specialize (IHr Hr).
  destruct (key =? k); [done|]. destruct (key <? k).
  - destruct (insert_or_update l key value) as [[] l']; simpl in *;
      [by apply results_rebalance|done].
  - destruct (insert_or_update r key value) as [[] r']; simpl in *;
      [by apply results_rebalance|done].
Qed.

(** An update keeps the height, an insertion adds at most one. *)
Lemma avl_insert t key value :
  avl t →
  let '(what, t') := insert_or_update t key value in
  avl t' ∧ match what with
           | UPDATE => height t' = height t
           | INSERT => (height t ≤ height t' ≤ S (height t))%nat
           end.
Proof.
  induction t as [|k v res h l IHl r IHr]; simpl; [lia || by split_and!; lia|].
  intros (Hl & Hr & -> & Hb1 & Hb2). specialize (IHl Hl). specialize (IHr Hr).
  destruct (key =? k); [by split_and!|]. destruct (key <? k).
  - destruct (insert_or_update l key value) as [[] l'], IHl as [Ha Hh]; simpl.
    + destruct (avl_rebalance k v l' r) as (Ha' & He & Hh'); [done|done|lia|lia|].
      split; [done|]. destruct (decide (height l' ≤ 1 + height r)%nat); [rewrite He by lia; lia|lia].
    + rewrite Hh. by split_and!.
  - destruct (insert_or_update r key value) as [[] r'], IHr as [Ha Hh]; simpl.
    + destruct (avl_rebalance k v l r') as (Ha' & He & Hh'); [done|done|lia|lia|].
      split; [done|]. destruct (decide (height r' ≤ 1 + height l)%nat); [rewrite He by lia; lia|lia].
    + rewrite Hh. by split_and!.
Qed.

Lemma update_inv t key value : inv t → inv (update t key value).
Proof.
  intros [Ha Hr Hs]. pose proof (avl_insert t key value Ha) as Hi. unfold update.
  split; [by destruct (insert_or_update t key value) as [w t'], Hi|by apply results_insert|].
  rewrite entries_insert by done. by apply put_sorted.
Qed.

Lemma clear_inv : inv clear.
Proof. repeat constructor. Qed.

(** ** remove *)

Definition drop_key (l : list (Z * V)) (key : Z) : list (Z * V) := filter (λ e, e.1 ≠ key) l.

Lemma drop_key_absent l key : Forall (λ e, e.1 ≠ key) l → drop_key l key = l.
Proof.
  unfold drop_key. induction 1 as [|[k v] l Hk Hl IH]; [done|].
  rewrite filter_cons_True by done. by rewrite IH.
Qed.

Lemma drop_key_app l1 k v l2 key :
  Forall (λ e, e.1 < k) l1 → Forall (λ e, k < e.1) l2 →
  drop_key (l1 ++ ((k, v) :: l2)) key =
  if key =? k then l1 ++ l2
  else if key <? k then drop_key l1 key ++ ((k, v) :: l2)
  else l1 ++ ((k, v) :: drop_key l2 key).
Proof.
  clear operation neutral.
  intros H1 H2. unfold drop_key. rewrite filter_app.
  destruct (Z.eqb_spec key k) as [->|Hne].
  - rewrite filter_cons_False by tauto. fold (drop_key l1 k) (drop_key l2 k).
    rewrite !drop_key_absent; [done|..]; (eapply Forall_impl; [eassumption|]); simpl; lia.
  - rewrite filter_cons_True by (simpl; congruence).
    fold (drop_key l1 key) (drop_key l2 key). destruct (Z.ltb_spec key k).
    + rewrite (drop_key_absent l2); [done|]. eapply Forall_impl; [eassumption|]. simpl; lia.
    + rewrite (drop_key_absent l1); [done|]. eapply Forall_impl; [eassumption|]. simpl; lia.
Qed.

Lemma entries_extract_min t k v t' :
  extract_min t = Some (k, v, t') → entries t = (k, v) :: entries t'.
Proof.
  revert k v t'. induction t as [|k0 v0 res h l IHl r _]; simpl; [done|]. intros k v t'.
  destruct (extract_min l) as [[[mk mv] l']|] eqn:E.
  - intros [= <- <- <-]. rewrite entries_rebalance. by rewrite (IHl _ _ _ eq_refl).
  - intros [= <- <- <-]. by destruct l; [|simpl in E; destruct (extract_min _) as [[[? ?] ?]|]].
Qed.

Lemma extract_min_None t : extract_min t = None → t = Leaf.
Proof. destruct t; [done|]. simpl. by destruct (extract_min _) as [[[? ?] ?]|]. Qed.

Lemma entries_merge l r : entries (merge l r) = entries l ++ entries r.
Proof.
  unfold merge. destruct (extract_min r) as [[[k v] r']|] eqn:E.
  - rewrite entries_rebalance. by rewrite (entries_extract_min _ _ _ _ E).
  - apply extract_min_None in E as ->. by rewrite app_nil_r.
Qed.

Lemma entries_remove t key : sorted (entries t) → entries (remove t key) = drop_key (entries t) key.
Proof.
  induction t as [|k v res h l IHl r IHr]; simpl; [done|].
  intros (Hl & Hr & Hf1 & Hf2)%sorted_app. rewrite drop_key_app by done.
  destruct (key =? k); [apply entries_merge|].
  destruct (key <? k); rewrite entries_rebalance; [by rewrite IHl|by rewrite IHr].
Qed.

Lemma avl_extract_min t k v t' :
  avl t → extract_min t = Some (k, v, t') →
  avl t' ∧ (height t' ≤ height t ≤ S (height t'))%nat.
Proof.
  revert k v t'. induction t as [|k0 v0 res h l IHl r _]; simpl; [done|].
  intros k v t' (Hl & Hr & -> & Hb1 & Hb2).
  destruct (extract_min l) as [[[mk mv] l']|] eqn:E.
  - intros [= <- <- <-]. destruct (IHl _ _ _ Hl eq_refl) as [Ha Hh].
    destruct (avl_rebalance k0 v0 l' r) as (Ha' & He & Hh'); [done|done|lia|lia|].
    split; [done|]. destruct (decide (height r ≤ 1 + height l')%nat); [rewrite He by lia; lia|lia].
  - intros [= <- <- <-]. apply extract_min_None in E as ->. simpl in *. split; [done|lia].
Qed.

Lemma avl_merge l r :
  avl l → avl r → (height l ≤ S (height r))%nat → (height r ≤ S (height l))%nat →
  avl (merge l r) ∧
  (height (merge l r) ≤ S (height l `max` height r) ≤ S (height (merge l r)))%nat.
Proof.
  intros Hl Hr H1 H2. unfold merge. destruct (extract_min r) as [[[k v] r']|] eqn:E.
  - destruct (avl_extract_min _ _ _ _ Hr E) as [Ha Hh].
    destruct (avl_rebalance k v l r') as (Ha' & He & Hh'); [done|done|lia|lia|].
    split; [done|]. destruct (decide (height l ≤ 1 + height r')%nat); [rewrite He by lia; lia|lia].
  - apply extract_min_None in E as ->. simpl in *. split; [done|lia].
Qed.

Lemma avl_remove t key :
  avl t → avl (remove t key) ∧ (height (remove t key) ≤ height t ≤ S (height (remove t key)))%nat.
Proof.
  induction t as [|k v res h l IHl r IHr]; simpl; [by split; [|lia]|].
  intros (Hl & Hr & -> & Hb1 & Hb2). destruct (IHl Hl) as [Al Bl], (IHr Hr) as [Ar Br].
  destruct (key =? k); [by apply avl_merge|]. destruct (key <? k).
  - destruct (avl_rebalance k v (remove l key) r) as (Ha' & He & Hh'); [done|done|lia|lia|].
    split; [done|].
    destruct (decide (height r ≤ 1 + height (remove l key))%nat); [rewrite He by lia; lia|lia].
  - destruct (avl_rebalance k v l (remove r key)) as (Ha' & He & Hh'); [done|done|lia|lia|].
    split; [done|].
    destruct (decide (height l ≤ 1 + height (remove r key))%nat); [rewrite He by lia; lia|lia].
Qed.

Lemma results_extract_min t k v t' :
  results t → extract_min t = Some (k, v, t') → results t'.
Proof.
  revert k v t'. induction t as [|k0 v0 res h l IHl r _]; simpl; [done|].
  intros k v t' (Hl & Hr & _). destruct (extract_min l) as [[[mk mv] l']|] eqn:E.
  - intros [= <- <- <-]. apply results_rebalance; [by eapply IHl|done].
  - by intros [= <- <- <-].
Qed.

Lemma results_remove t key : results t → results (remove t key).
Proof.
  induction t as [|k v res h l IHl r IHr]; simpl; [done|]. intros (Hl & Hr & _).
  destruct (key =? k).
  - unfold merge. destruct (extract_min r) as [[[mk mv] r']|] eqn:E; [|done].
    apply results_rebalance; [done|]. by eapply results_extract_min.
  - destruct (key <? k); apply results_rebalance; auto.
Qed.

Lemma drop_key_sorted l key : sorted l → sorted (drop_key l key).
Proof.
  clear operation neutral.
  unfold sorted, drop_key. induction l as [|[k v] l IH]; [done|]. intros Hs.
  inversion_clear Hs as [|? ? Hs' Hf]. destruct (decide (k ≠ key)).
  - rewrite filter_cons_True by done. simpl. constructor; [by apply IH|].
    rewrite Forall_fmap, Forall_forall in Hf |- *.
    intros e [_ He]%list_elem_of_filter. by apply Hf.
  - rewrite filter_cons_False by (simpl; tauto). by apply IH.
Qed.

Lemma remove_inv t key : inv t → inv (remove t key).
Proof.
  intros [Ha Hr Hs]. split; [by apply avl_remove|by apply results_remove|].
  rewrite entries_remove by done. by apply drop_key_sorted.
Qed.

(** ** The map the tree represents *)

Definition to_map (t : tree V) : gmap Z V := list_to_map (entries t).

Lemma lookup_sorted_app l1 k v l2 (key : Z) :
  Forall (λ e, e.1 < k) l1 → Forall (λ e, k < e.1) l2 →
  (list_to_map (l1 ++ ((k, v) :: l2)) : gmap Z V) !! key =
  if key =? k then Some v
  else if key <? k then (list_to_map l1 : gmap Z V) !! key else (list_to_map l2 : gmap Z V) !! key.
Proof.
  intros H1 H2. rewrite list_to_map_app, lookup_union. simpl. rewrite lookup_insert.
  assert (∀ l : list (Z * V), Forall (λ e, e.1 ≠ key) l → (list_to_map l : gmap Z V) !! key = None) as Hn.
  { intros l Hl. apply not_elem_of_list_to_map. intros ([k' v'] & -> & Hin)%list_elem_of_fmap.
    by eapply Forall_forall in Hl. }
  destruct (Z.eqb_spec key k) as [->|Hne].
  - rewrite decide_True by done.
    rewrite Hn; [done|]. eapply Forall_impl; [exact H1|]. simpl; lia.
  - rewrite decide_False by congruence. destruct (Z.ltb_spec key k).
    + rewrite (Hn l2); [by destruct (_ !! _)|]. eapply Forall_impl; [exact H2|]. simpl; lia.
    + rewrite (Hn l1); [by destruct (_ !! _)|]. eapply Forall_impl; [exact H1|]. simpl; lia.
Qed.

Lemma getValueIfExists_spec t key :
  sorted (entries t) → getValueIfExists t key = to_map t !! key.
Proof.
  unfold to_map. induction t as [|k v res h l IHl r IHr]; simpl; [done|].
  intros (Hl & Hr & Hf1 & Hf2)%sorted_app. rewrite lookup_sorted_app by done.
  rewrite IHl, IHr by done. done.
Qed.

Lemma sorted_keys_NoDup l : sorted l → NoDup l.*1.
Proof.
  unfold sorted. induction l as [|[k v] l IH]; intros Hs; [constructor|].
  inversion_clear Hs as [|? ? Hs' Hf]. simpl. constructor; [|by apply IH].
  intros Hin. eapply Forall_forall in Hf; [|exact Hin]. lia.
Qed.

Lemma put_lookup l key value :
  sorted l → list_to_map (put l key value) = <[key := value]> (list_to_map l : gmap Z V).
Proof.
  induction l as [|[k v] l IH]; intros Hs; simpl; [done|].
  inversion_clear Hs as [|? ? Hs' Hf]. destruct (Z.eqb_spec key k) as [->|Hne]; simpl.
  - by rewrite insert_insert_eq.
  - destruct (Z.ltb_spec key k); simpl; [done|]. rewrite IH by done.
    apply insert_insert_ne. congruence.
Qed.

Lemma update_to_map t key value : inv t → to_map (update t key value) = <[key := value]> (to_map t).
Proof.
  intros [_ _ Hs]. unfold to_map, update. rewrite entries_insert by done. by apply put_lookup.
Qed.

Lemma remove_to_map t key : inv t → to_map (remove t key) = delete key (to_map t).
Proof.
  intros [_ _ Hs]. unfold to_map. rewrite entries_remove by done. unfold drop_key.
  apply map_eq. intros k. rewrite lookup_delete.
  apply sorted_keys_NoDup in Hs as Hnd. apply option_eq. intros v.
  rewrite <- elem_of_list_to_map, list_elem_of_filter by
    (by apply sorted_keys_NoDup, (drop_key_sorted (entries t))). simpl.
  case_decide; [naive_solver|]. rewrite <- elem_of_list_to_map by done. naive_solver.
Qed.

(** ** The height is logarithmic *)
Lemma avl_height t : avl t → (2 ^ (height t / 2) ≤ S (length (entries t)))%nat.
Proof.
  remember (height t) as n eqn:En. revert t En. induction (lt_wf n) as [n _ IH].
  intros t -> Ha. destruct t as [|k v res h l r]; [simpl; lia|].
  cbn [avl height entries] in *.
  destruct Ha as (Hl & Hr & -> & Hb1 & Hb2). rewrite length_app. simpl length.
  pose proof (IH (height l) ltac:(lia) l eq_refl Hl) as El.
  pose proof (IH (height r) ltac:(lia) r eq_refl Hr) as Er.
  set (m := (height l `max` height r)%nat) in *.
  destruct m as [|m'] eqn:Em; [simpl; lia|].
  replace (S (S m')) with (m' + 1 * 2)%nat by lia. rewrite Nat.div_add, Nat.add_1_r by lia.
  assert (∀ x, (m' ≤ x)%nat → (2 ^ (m' / 2) ≤ 2 ^ (x / 2))%nat) as Hmono.
  { intros x Hx. apply Nat.pow_le_mono_r; [lia|]. by apply Nat.Div0.div_le_mono. }
  pose proof (Hmono (height l) ltac:(lia)). pose proof (Hmono (height r) ltac:(lia)).
  cbn [Nat.pow]. lia.
Qed.

(** ** Updating existing keys *)

(** Keys, heights and shape, without the values. *)
Fixpoint skeleton (t : tree V) : tree () :=
  match t with
  | Leaf => Leaf
  | Node k _ _ h l r => Node k () () h (skeleton l) (skeleton r)
  end.

(** The skeleton and the values determine the tree, whatever the operation. *)
Lemma skeleton_values t1 t2 :
  results t1 → results t2 → skeleton t1 = skeleton t2 →
  (entries t1).*2 = (entries t2).*2 → t1 = t2.
Proof.
  revert t2. induction t1 as [|k1 v1 r1 h1 l1 IHl t1 IHr]; intros [|k2 v2 r2 h2 l2 t2];
    simpl; try done.
  intros (Hl1 & Hr1 & ->) (Hl2 & Hr2 & ->) [= -> -> El Er]. rewrite !fmap_app. simpl.
  assert (∀ ta tb : tree V, skeleton ta = skeleton tb → length (entries ta) = length (entries tb))
    as Hlen.
  { clear. induction ta as [|? ? ? ? ? IH1 ? IH2]; intros [|? ? ? ? ? ?]; simpl; try done.
    intros [= -> -> E1 E2]. rewrite !length_app. simpl. by rewrite (IH1 _ E1), (IH2 _ E2). }
  intros E. apply app_inj_1 in E as [E1 [= -> E2]];
    [|by rewrite !length_fmap, (Hlen _ _ El)].
  by rewrite (IHl l2), (IHr t2).
Qed.

Lemma update_existing t key value :
  sorted (entries t) → is_Some (to_map t !! key) →
  skeleton (update t key value) = skeleton t ∧ (insert_or_update t key value).1 = UPDATE.
Proof.
  unfold update, to_map. induction t as [|k v res h l IHl r IHr]; simpl; [by intros _ [? [=]]|].
  intros (Hl & Hr & Hf1 & Hf2)%sorted_app. rewrite lookup_sorted_app by done.
  destruct (key =? k); [done|]. destruct (key <? k); intros Hs.
  - destruct (IHl Hl Hs) as [E1 E2].
    destruct (insert_or_update l key value) as [[] l']; simpl in *; [done|]. by rewrite E1.
  - destruct (IHr Hr Hs) as [E1 E2].
    destruct (insert_or_update r key value) as [[] r']; simpl in *; [done|]. by rewrite E1.
Qed.

(** A sequence of updates. *)
Definition updates (t : tree V) (us : list (Z * V)) : tree V :=
  foldl (λ t '(k, v), update t k v) t us.

Lemma updates_spec t us :
  inv t → (∀ k, k ∈ us.*1 → is_Some (to_map t !! k)) →
  inv (updates t us) ∧ skeleton (updates t us) = skeleton t ∧
  to_map (updates t us) = foldl (λ m '(k, v), <[k := v]> m) (to_map t) us.
Proof.
  revert t. induction us as [|[k v] us IH]; intros t Ht Hk; simpl; [done|].
  destruct (update_existing t k v) as [E _]; [apply Ht|apply Hk; set_solver|].
  destruct (IH (update t k v)) as (H1 & H2 & H3).
  - by apply update_inv.
  - intros k' Hk'. rewrite update_to_map by done. apply lookup_insert_is_Some'. right.
    apply Hk. set_solver.
  - split_and!; [done|congruence|]. by rewrite H3, update_to_map.
Qed.

Lemma sorted_entries_eq (l1 l2 : list (Z * V)) :
  sorted l1 → sorted l2 → (list_to_map l1 : gmap Z V) = list_to_map l2 → l1 = l2.
Proof.
  intros H1 H2 E. assert (l1 ≡ₚ l2) as Hp.
  { rewrite <- (map_to_list_to_map l1), <- (map_to_list_to_map l2), E by (by apply sorted_keys_NoDup).
    done. }
  revert l2 H2 Hp E. induction l1 as [|[k v] l1 IH]; intros l2 H2 Hp _;
    [by apply Permutation_nil_l in Hp|].
  destruct l2 as [|[k2 v2] l2]; [by apply Permutation_nil_r in Hp|].
  inversion_clear H1 as [|? ? H1' F1]. inversion_clear H2 as [|? ? H2' F2].
  simpl in *.
  assert ((k, v) = (k2, v2)) as [= <- <-].
  { assert ((k, v) ∈ (k2, v2) :: l2) as Hin by (rewrite <- Hp; set_solver).
    assert ((k2, v2) ∈ (k, v) :: l1) as Hin' by (rewrite Hp; set_solver).
    apply elem_of_cons in Hin as [?|Hin]; [done|].
    apply elem_of_cons in Hin' as [?|Hin']; [done|].
    apply (list_elem_of_fmap_2 fst) in Hin, Hin'. simpl in *.
    eapply Forall_forall in F1; [|exact Hin']. eapply Forall_forall in F2; [|exact Hin]. lia. }
  f_equal. apply Permutation_cons_inv in Hp. apply IH; [done|done|done|].
  by apply list_to_map_proper; [by apply sorted_keys_NoDup|].
Qed.

(** Bit-for-bit stability: after any updates of existing keys the tree, with all
    its cached results, depends only on the final values. *)
Lemma updates_determined t us1 us2 :
  inv t → (∀ k, k ∈ us1.*1 → is_Some (to_map t !! k)) →
  (∀ k, k ∈ us2.*1 → is_Some (to_map t !! k)) →
  to_map (updates t us1) = to_map (updates t us2) → updates t us1 = updates t us2.
Proof.
  intros Ht H1 H2 E. destruct (updates_spec t us1 Ht H1) as ([_ R1 S1] & K1 & _).
  destruct (updates_spec t us2 Ht H2) as ([_ R2 S2] & K2 & _).
  apply skeleton_values; [done|done|congruence|].
  by rewrite (sorted_entries_eq (entries (updates t us1)) (entries (updates t us2))).
Qed.

(** The aggregate at the root is a sum of the values. *)
Lemma results_sum t : results t → sum_of operation neutral (entries t).*2 (query t).
Proof.
  induction t as [|k v res h l IHl r IHr]; [constructor|].
  intros (Hl & Hr & ->). specialize (IHl Hl). specialize (IHr Hr).
  cbn [entries query]. rewrite fmap_app, fmap_cons.
  cbn [snd]. rewrite cons_middle, app_assoc. unfold combine.
  assert (sum_of operation neutral ((entries l).*2 ++ [v])
    match l with Leaf => v | Node _ _ x _ _ _ => operation v x end) as Hlv.
  { destruct l; [constructor|]. eapply sum_perm; [apply Permutation_app_comm|].
    apply sum_add; [constructor|exact IHl]. }
  destruct r; [by rewrite app_nil_r|]. by apply sum_add.
Qed.

(** ** Aggregates

    For a commutative and associative operation with the neutral element as its
    identity, the cached results are the aggregates of the values. *)
Section aggregate.
Context `{!Comm (=) operation, !Assoc (=) operation, !LeftId (=) neutral operation}.

Definition total (l : list (Z * V)) : V := foldr operation neutral l.*2.

#[local] Instance right_id_neutral : RightId (=) neutral operation.
Proof. intros x. by rewrite (comm operation), (left_id neutral operation). Qed.

Lemma total_app l1 l2 : total (l1 ++ l2) = operation (total l1) (total l2).
Proof.
  unfold total. rewrite fmap_app. induction l1.*2 as [|x l IH]; simpl.
  - by rewrite (left_id neutral operation).
  - by rewrite IH, (assoc operation).
Qed.

Lemma total_cons k v l : total ((k, v) :: l) = operation v (total l).
Proof. done. Qed.

Lemma combine_total v l r :
  combine v l r = operation (operation v (query l)) (query r).
Proof. unfold combine. destruct l, r; simpl; by rewrite ?(right_id neutral operation). Qed.

Lemma query_total t : results t → query t = total (entries t).
Proof.
  induction t as [|k v res h l IHl r IHr]; simpl; [done|]. intros (Hl & Hr & ->).
  rewrite combine_total, IHl, IHr, total_app, total_cons by done. rewrite (assoc operation).
  f_equal. apply (comm operation).
Qed.

Lemma total_filter_none (P : Z * V → Prop) `{∀ e, Decision (P e)} l :
  Forall (λ e, ¬ P e) l → filter P l = [].
Proof. induction 1; [done|]. by rewrite filter_cons_False. Qed.

Lemma total_filter_all (P : Z * V → Prop) `{∀ e, Decision (P e)} l :
  Forall P l → filter P l = l.
Proof. induction 1 as [|e l He Hl IH]; [done|]. rewrite filter_cons_True by done. by rewrite IH. Qed.

(** The keys [less_than] aggregates. *)
Definition below (key : Z) (strict : bool) (e : Z * V) : Prop :=
  if strict then e.1 < key else e.1 ≤ key.

#[local] Instance below_dec key strict e : Decision (below key strict e).
Proof. unfold below. destruct strict; apply _. Defined.

Lemma less_than_total t key strict :
  results t → sorted (entries t) →
  less_than t key strict = total (filter (below key strict) (entries t)).
Proof.
  induction t as [|k v res h l IHl r IHr]; simpl; [done|].
  intros (Hl & Hr & _) (Sl & Sr & Hf1 & Hf2)%sorted_app. rewrite filter_app.
  assert ((strict && (k <? key)) || (negb strict && (k <=? key)) =
          bool_decide (below key strict (k, v))) as ->.
  { unfold below. destruct strict; simpl; rewrite ?orb_false_r; symmetry;
      [destruct (Z.ltb_spec k key)|destruct (Z.leb_spec k key)];
      (apply bool_decide_eq_true || apply bool_decide_eq_false); simpl; lia. }
  case_bool_decide as Hb.
  - rewrite filter_cons_True by done.
    rewrite (total_filter_all _ (entries l)).
    2: { eapply Forall_impl; [exact Hf1|]. unfold below in *. destruct strict; simpl in *; lia. }
    rewrite total_app, total_cons. rewrite <- IHr, <- (query_total l) by done. rewrite (assoc operation), (comm operation (query l)).
    destruct l, r; simpl; by rewrite ?(right_id neutral operation).
  - rewrite filter_cons_False, (total_filter_none _ (entries r)) by first [done|
      eapply Forall_impl; [exact Hf2|]; unfold below in *; destruct strict; simpl in *; lia].
    rewrite app_nil_r. auto.
Qed.
End aggregate.
End tree.
End AssociativeMap.
