(* ===== verification/AssociativeFixedMap.v ===== *)
(** * AssociativeFixedMap and AssociativeHybridMap

    algopt_common/AssociativeFixedMap.h keeps its entries in a complete binary
    search tree laid out in a vector: the children of the node at index [i] are at
    [2 i] and [2 i + 1].  algopt_common/AssociativeHybridMap.h pairs it with an
    [AssociativeMap] for the keys added later; [SumHybridMap] is what [ObjectLookup]
    keeps the values of its objects in. *)

From stdpp Require Import sorting.
From Stdlib Require Import Sorted.
From S2P Require Import Prelude Exact AssociativeMap.

Open Scope Z_scope.

Module AssociativeFixedMap.

Record Node (V : Type) := mkNode { node_key : Z; node_value : V; node_result : V }.
Arguments mkNode {V}.
Arguments node_key {V}.
Arguments node_value {V}.
Arguments node_result {V}.

(** The loop of [left_child_size] from [h] on; [n] iterations are more than enough. *)
Fixpoint full_height (fuel : nat) (h n : Z) : Z :=
  match fuel with
  | O => h
  | S fuel => if 1 + 2 * (Z.shiftl 1 (h + 1) - 1) <=? n then full_height fuel (h + 1) n else h
  end.

Definition left_child_size (n : Z) : Z :=
  let h := full_height (Z.to_nat n) 0 n in
  let p := Z.min (Z.shiftl 1 h) (n - 1 - 2 * (Z.shiftl 1 h - 1)) in
  Z.shiftl 1 h - 1 + p.

(** ** The layout

    [fits i s n]: of the indexes [1 .. n], exactly [s] lie in the subtree of [i].  Its
    levels below [h] are full and level [h] is not. *)
Definition fits (i s n : Z) : Prop :=
  ∃ h, 0 ≤ h ∧ s = 2 ^ h - 1 + Z.max 0 (n + 1 - i * 2 ^ h) ∧ n + 1 < (i + 1) * 2 ^ h ∧
       (h = 0 ∨ (i + 1) * 2 ^ (h - 1) ≤ n + 1).

Lemma fits_root n : 0 ≤ n → fits 1 n n.
Proof.
  intros Hn. exists (Z.log2 (n + 1)). pose proof (Z.log2_spec (n + 1) ltac:(lia)) as [H1 H2].
  pose proof (Z.log2_nonneg (n + 1)) as H0. rewrite Z.pow_succ_r in H2 by done.
  split; [done|]. split; [lia|]. split; [lia|].
  destruct (Z.eq_dec (Z.log2 (n + 1)) 0) as [|Hne]; [by left|right].
  assert (2 ^ Z.log2 (n + 1) = 2 * 2 ^ (Z.log2 (n + 1) - 1)) as E.
  { rewrite <- Z.pow_succ_r by lia. f_equal. lia. }
  lia.
Qed.

Lemma fits_range i s n : 1 ≤ i → fits i s n → 0 ≤ s ∧ (i ≤ n ↔ 1 ≤ s).
Proof.
  intros Hi (h & Hh & -> & H1 & H2). pose proof (Z.pow_pos_nonneg 2 h ltac:(lia) Hh).
  destruct (Z.eq_dec h 0) as [->|Hne]; [change (2 ^ 0) with 1 in *; lia|].
  destruct H2 as [?|H2]; [lia|].
  assert (2 ^ h = 2 * 2 ^ (h - 1)) as E.
  { rewrite <- Z.pow_succ_r by lia. f_equal. lia. }
  pose proof (Z.pow_pos_nonneg 2 (h - 1) ltac:(lia) ltac:(lia)). split; [lia|].
  split; [lia|]. intros _. nia.
Qed.

(** [full_height] finds the height of the part of the children that is full. *)
Lemma full_height_spec fuel h n g :
  0 ≤ h ≤ g → 2 ^ (g + 1) - 1 ≤ n < 2 ^ (g + 2) - 1 → g - h ≤ Z.of_nat fuel →
  full_height fuel h n = g.
Proof.
  revert h. induction fuel as [|fuel IH]; intros h Hh Hn Hf; simpl; [lia|].
  rewrite Z.shiftl_1_l.
  assert (∀ a, 0 ≤ a → 2 ^ (a + 1) = 2 * 2 ^ a) as Hp.
  { intros a Ha. by rewrite Z.pow_add_r, Z.mul_comm by lia. }
  destruct (Z.eq_dec h g) as [->|Hne].
  - rewrite (proj2 (Z.leb_gt _ _)); [done|].
    replace (g + 2) with (g + 1 + 1) in Hn by lia. rewrite (Hp (g + 1)) in Hn by lia. lia.
  - rewrite (proj2 (Z.leb_le _ _)); [apply IH; [lia|done|lia]|].
    assert (2 ^ (h + 1) ≤ 2 ^ g) by (apply Z.pow_le_mono_r; lia).
    rewrite (Hp g) in Hn by lia. lia.
Qed.

Lemma pow2_half h : 0 ≤ h → h = 0 ∨ 2 ^ h = 2 * 2 ^ (h - 1).
Proof.
  intros Hh. destruct (Z.eq_dec h 0); [by left|right]. rewrite <- Z.pow_succ_r by lia. f_equal. lia.
Qed.

(** [fits] with the powers of two as numbers. *)
Lemma fits_intro i s n h x z :
  0 ≤ h → x = 2 ^ h → z = 2 ^ (h - 1) → s = x - 1 + Z.max 0 (n + 1 - i * x) →
  n + 1 < (i + 1) * x → (h = 0 ∨ (i + 1) * z ≤ n + 1) → fits i s n.
Proof. intros ? -> -> ? ? ?. by exists h. Qed.

Lemma fits_children i s n :
  1 ≤ i → 1 ≤ s → fits i s n →
  fits (2 * i) (left_child_size s) n ∧ fits (2 * i + 1) (s - 1 - left_child_size s) n.
Proof.
  intros Hi Hs (h & Hh & Es & H1 & H2).
  destruct (Z.eq_dec h 0) as [->|Hne]; [change (2 ^ 0) with 1 in *; lia|].
  destruct H2 as [?|H2]; [lia|].
  destruct (pow2_half h Hh) as [?|E]; [lia|].
  pose proof (Z.pow_pos_nonneg 2 (h - 1) ltac:(lia) ltac:(lia)) as Hx.
  assert (full_height (Z.to_nat s) 0 s = h - 1) as Ef.
  { apply full_height_spec; [lia| |].
    - replace (h - 1 + 1) with h by lia. replace (h - 1 + 2) with (Z.succ h) by lia.
      rewrite Z.pow_succ_r by lia. lia.
    - assert (h - 1 < 2 ^ (h - 1)) by (apply Z.pow_gt_lin_r; lia). lia. }
  unfold left_child_size. rewrite Ef, !Z.shiftl_1_l.
  destruct (pow2_half (h - 1) ltac:(lia)) as [Eh|Eh];
    remember (2 ^ (h - 1)) as x eqn:Ex; remember (2 ^ (h - 1 - 1)) as z eqn:Ez;
    rewrite E in *; split.
  1, 3: destruct (Z_le_gt_dec x (n + 1 - 2 * (i * x)));
    [apply (fits_intro _ _ _ h (2 * x) x)|apply (fits_intro _ _ _ (h - 1) x z)]; try lia; nia.
  all: apply (fits_intro _ _ _ (h - 1) x z); try lia; nia.
Qed.

Section fixed.
Context {V : Type} (operation : V → V → V) (neutral : V) (value_lt : V → V → bool).

(** [std::vector<std::unique_ptr<Node>>] *)
Abbreviation t := (list (option (Node V))).

(** [*nodes\[i\]] *)
Definition deref (nodes : t) (i : Z) : result (Node V) :=
  p ← vec_get nodes i;
  match p with
  | Some n => Ok n
  | None => Throw (undefined_behaviour "null pointer dereference")
  end.

Definition in_range (nodes : t) (i : Z) : bool := i <? Z.of_nat (length nodes).

Definition update_result (nodes : t) (node_index : Z) : result t :=
  node ← deref nodes node_index;
  let res := node_value node in
  res ← (if in_range nodes (2 * node_index)
         then left_child ← deref nodes (2 * node_index);
              Ok (operation (node_result left_child) res)
         else Ok res);
  res ← (if in_range nodes (2 * node_index + 1)
         then right_child ← deref nodes (2 * node_index + 1);
              Ok (operation res (node_result right_child))
         else Ok res);
  vec_set nodes node_index (Some (mkNode (node_key node) (node_value node) res)).

(** [init_tree] on the items between the two iterators; the result field is set by
    [update_result], here it starts as the value. *)
Fixpoint init_tree (fuel : nat) (nodes : t) (node_index : Z) (items : list (Z * V)) : result t :=
  match fuel with
  | O => Throw (undefined_behaviour "recursion without end")
  | S fuel =>
      let left_size := Z.to_nat (left_child_size (Z.of_nat (length items))) in
      let before := take left_size items in
      match drop left_size items with
      | [] => Throw (undefined_behaviour "iterator past the end")
      | (k, v) :: after =>
          nodes ← (match before with [] => Ok nodes
                   | _ => init_tree fuel nodes (2 * node_index) before end);
          nodes ← (match after with [] => Ok nodes
                   | _ => init_tree fuel nodes (2 * node_index + 1) after end);
          nodes ← vec_set nodes node_index (Some (mkNode k v v));
          update_result nodes node_index
      end
  end.

(** [std::sort] on pairs: by key, then by value. *)
Definition item_lt (x y : Z * V) : bool :=
  (x.1 <? y.1) || ((x.1 =? y.1) && value_lt x.2 y.2).

Fixpoint insert_item (x : Z * V) (l : list (Z * V)) : list (Z * V) :=
  match l with
  | [] => [x]
  | y :: l' => if item_lt x y then x :: l else y :: insert_item x l'
  end.

Definition sort_items (items : list (Z * V)) : list (Z * V) := foldr insert_item [] items.

(** [nodes.resize(n)] *)
Definition resize (nodes : t) (n : nat) : t := take n nodes ++ replicate (n - length nodes) None.

Definition init (nodes : t) (items : list (Z * V)) : result t :=
  let items := sort_items items in
  match items with
  | [] => Ok []
  | _ => init_tree (length items) (resize nodes (length items + 1)) 1 items
  end.

Fixpoint update_tree (fuel : nat) (nodes : t) (node_index : Z) (key : Z) (value : V) : result t :=
  match fuel with
  | O => Throw (undefined_behaviour "recursion without end")
  | S fuel =>
      if negb (in_range nodes node_index) then Throw (runtime_error "key not found")
      else
        node ← deref nodes node_index;
        nodes ← (if key =? node_key node
                 then vec_set nodes node_index (Some (mkNode (node_key node) value (node_result node)))
                 else update_tree fuel nodes
                        (if key <? node_key node then 2 * node_index else 2 * node_index + 1)
                        key value);
        update_result nodes node_index
  end.

(** The index at least doubles, so the length of the vector bounds the depth. *)
Definition update (nodes : t) (key : Z) (value : V) : result t :=
  update_tree (S (length nodes)) nodes 1 key value.

Fixpoint count_tree (fuel : nat) (nodes : t) (node_index : Z) (key : Z) : result Z :=
  match fuel with
  | O => Throw (undefined_behaviour "recursion without end")
  | S fuel =>
      if negb (in_range nodes node_index) then Ok 0
      else
        node ← deref nodes node_index;
        if key =? node_key node then Ok 1
        else count_tree fuel nodes
               (if key <? node_key node then 2 * node_index else 2 * node_index + 1) key
  end.

Definition count (nodes : t) (key : Z) : result Z := count_tree (S (length nodes)) nodes 1 key.

Definition query (nodes : t) : result V :=
  match nodes with
  | [] => Ok neutral
  | _ => node ← deref nodes 1; Ok (node_result node)
  end.

Fixpoint less_than (fuel : nat) (nodes : t) (node_index : Z) (key : Z) (strict : bool) : result V :=
  match fuel with
  | O => Throw (undefined_behaviour "recursion without end")
  | S fuel =>
      node ← deref nodes node_index;
      if (strict && (node_key node <? key)) || (negb strict && (node_key node <=? key)) then
        let res := node_value node in
        res ← (if in_range nodes (2 * node_index)
               then left_child ← deref nodes (2 * node_index);
                    Ok (operation (node_result left_child) res)
               else Ok res);
        if in_range nodes (2 * node_index + 1)
        then right ← less_than fuel nodes (2 * node_index + 1) key strict;
             Ok (operation res right)
        else Ok res
      else if in_range nodes (2 * node_index) then less_than fuel nodes (2 * node_index) key strict
      else Ok neutral
  end.

Definition query_lt (nodes : t) (key : Z) : result V :=
  match nodes with [] => Ok neutral | _ => less_than (length nodes) nodes 1 key true end.

Definition query_le (nodes : t) (key : Z) : result V :=
  match nodes with [] => Ok neutral | _ => less_than (length nodes) nodes 1 key false end.

(** ** The tree in the vector *)

(** The subtree at an index, as a tree of [AssociativeMap] with heights left at 0. *)
Inductive repr (nodes : t) : Z → AssociativeMap.tree V → Prop :=
  | repr_leaf i : Z.of_nat (length nodes) ≤ i → repr nodes i AssociativeMap.Leaf
  | repr_node i k v res l r :
      nodes !! Z.to_nat i = Some (Some (mkNode k v res)) →
      repr nodes (2 * i) l → repr nodes (2 * i + 1) r →
      repr nodes i (AssociativeMap.Node k v res 0 l r).

(** [update_result]: the left aggregate, the value, the right aggregate. *)
Definition combine (v : V) (l r : AssociativeMap.tree V) : V :=
  let res := match l with AssociativeMap.Leaf => v
             | AssociativeMap.Node _ _ x _ _ _ => operation x v end in
  match r with AssociativeMap.Leaf => res | AssociativeMap.Node _ _ x _ _ _ => operation res x end.

Fixpoint results (tr : AssociativeMap.tree V) : Prop :=
  match tr with
  | AssociativeMap.Leaf => True
  | AssociativeMap.Node _ v res _ l r => results l ∧ results r ∧ res = combine v l r
  end.

(** The indexes of the subtree of [i]. *)
Definition under (i j : Z) : Prop := ∃ k, 0 ≤ k ∧ i * 2 ^ k ≤ j < (i + 1) * 2 ^ k.

Lemma under_refl i : under i i.
Proof. exists 0. change (2 ^ 0) with 1. lia. Qed.

Lemma under_child i j b : 0 ≤ b ≤ 1 → under (2 * i + b) j → under i j.
Proof.
  intros Hb (k & Hk & Hj). exists (k + 1). split; [lia|].
  rewrite Z.pow_add_r, Z.pow_1_r by lia. pose proof (Z.pow_pos_nonneg 2 k ltac:(lia) Hk). nia.
Qed.

Lemma under_child_ne i b : 1 ≤ i → 0 ≤ b → ¬ under (2 * i + b) i.
Proof. intros Hi Hb (k & Hk & Hj). pose proof (Z.pow_pos_nonneg 2 k ltac:(lia) Hk). nia. Qed.

Lemma under_siblings i j : 1 ≤ i → under (2 * i) j → under (2 * i + 1) j → False.
Proof.
  intros Hi (k & Hk & Hj) (m & Hm & Hj').
  destruct (Z_lt_le_dec k (m + 1)) as [H1|H1].
  - assert (2 ^ k ≤ 2 ^ m) by (apply Z.pow_le_mono_r; lia). nia.
  - assert (2 ^ (m + 1) ≤ 2 ^ k) as H2 by (apply Z.pow_le_mono_r; lia).
    rewrite Z.pow_add_r, Z.pow_1_r in H2 by lia. nia.
Qed.

Definition agree_outside (i : Z) (nodes nodes' : t) : Prop :=
  length nodes' = length nodes ∧ ∀ j, 0 ≤ j → ¬ under i j → nodes' !! Z.to_nat j = nodes !! Z.to_nat j.

Lemma repr_frame nodes nodes' i tr :
  1 ≤ i → repr nodes i tr → length nodes' = length nodes →
  (∀ j, 0 ≤ j → under i j → nodes' !! Z.to_nat j = nodes !! Z.to_nat j) → repr nodes' i tr.
Proof.
  intros Hi Hr Hlen. induction Hr as [i Hl|i k v res l r Hn Hl IHl Hr IHr]; intros Ha.
  - constructor. lia.
  - constructor.
    + rewrite Ha; [done|lia|apply under_refl].
    + apply IHl; [lia|]. intros j Hj Hu. apply Ha; [done|].
      apply (under_child i j 0); [lia|]. by rewrite Z.add_0_r.
    + apply IHr; [lia|]. intros j Hj Hu. apply Ha; [done|]. by apply (under_child i j 1); [lia|].
Qed.

(** Writing one node leaves its subtrees and everything outside its own alone. *)
Lemma set_node nodes i x :
  1 ≤ i →
  agree_outside i nodes (<[Z.to_nat i := x]> nodes) ∧
  (∀ tr, repr nodes (2 * i) tr → repr (<[Z.to_nat i := x]> nodes) (2 * i) tr) ∧
  (∀ tr, repr nodes (2 * i + 1) tr → repr (<[Z.to_nat i := x]> nodes) (2 * i + 1) tr).
Proof.
  intros Hi. assert (∀ b tr, 0 ≤ b ≤ 1 → repr nodes (2 * i + b) tr →
    repr (<[Z.to_nat i := x]> nodes) (2 * i + b) tr) as Hf.
  { intros b tr Hb Ht. apply (repr_frame nodes); [lia|done|by rewrite length_insert|].
    intros j Hj Hu. rewrite list_lookup_insert_ne; [done|].
    intros E. assert (i = j) as -> by lia. by destruct (under_child_ne j b ltac:(lia) ltac:(lia) Hu). }
  split; [|split].
  - split; [by rewrite length_insert|]. intros j Hj Hu.
    rewrite list_lookup_insert_ne; [done|]. intros E. assert (i = j) as -> by lia.
    apply Hu, under_refl.
  - intros tr Ht. specialize (Hf 0 tr ltac:(lia)). rewrite Z.add_0_r in Hf. auto.
  - intros tr Ht. by apply Hf; [lia|].
Qed.

Lemma deref_Ok nodes i n :
  0 ≤ i → nodes !! Z.to_nat i = Some (Some n) → deref nodes i = Ok n.
Proof. intros Hi Hn. unfold deref. by rewrite (proj2 (vec_get_Ok _ _ _) (conj Hi Hn)). Qed.

(** The root of a subtree that is not empty. *)
Lemma repr_root nodes i tr :
  0 ≤ i → repr nodes i tr →
  match tr with
  | AssociativeMap.Leaf => in_range nodes i = false
  | AssociativeMap.Node k v res _ _ _ =>
      in_range nodes i = true ∧ deref nodes i = Ok (mkNode k v res)
  end.
Proof.
  intros Hi. destruct 1 as [i Hl|i k v res l r Hn _ _]; unfold in_range.
  - apply Z.ltb_ge. done.
  - split.
    + apply Z.ltb_lt. apply lookup_lt_Some in Hn. lia.
    + by apply deref_Ok.
Qed.

Lemma update_result_spec nodes i k v res0 l r :
  1 ≤ i → nodes !! Z.to_nat i = Some (Some (mkNode k v res0)) →
  repr nodes (2 * i) l → repr nodes (2 * i + 1) r →
  ∃ nodes', update_result nodes i = Ok nodes' ∧
    repr nodes' i (AssociativeMap.Node k v (combine v l r) 0 l r) ∧ agree_outside i nodes nodes'.
Proof.
  intros Hi Hn Hl Hr.
  pose proof (repr_root nodes (2 * i) l ltac:(lia) Hl) as Rl.
  pose proof (repr_root nodes (2 * i + 1) r ltac:(lia) Hr) as Rr.
  set (nodes' := <[Z.to_nat i := Some (mkNode k v (combine v l r))]> nodes).
  destruct (set_node nodes i (Some (mkNode k v (combine v l r))) Hi) as (Ha & Hfl & Hfr).
  fold nodes' in Ha, Hfl, Hfr.
  exists nodes'. split; [|split].
  - unfold update_result. assert (deref nodes i = Ok (mkNode k v res0)) as -> by (by apply deref_Ok; [lia|]).
    cbn [mbind result_bind node_value node_key]. apply lookup_lt_Some in Hn as Hlt.
    assert (0 ≤ i < Z.of_nat (length nodes)) as Hrange by lia.
    unfold nodes', combine.
    destruct l; [rewrite Rl|destruct Rl as [-> ->]]; cbn [mbind result_bind node_result];
      (destruct r; [rewrite Rr|destruct Rr as [-> ->]]); cbn [mbind result_bind node_result];
      by rewrite vec_set_Ok.
  - constructor.
    + unfold nodes'. apply list_lookup_insert_eq. by eapply lookup_lt_Some.
    + auto.
    + auto.
  - done.
Qed.

Lemma agree_outside_child nodes1 nodes2 i b :
  0 ≤ b ≤ 1 → agree_outside (2 * i + b) nodes1 nodes2 → agree_outside i nodes1 nodes2.
Proof.
  intros Hb [Hl Ha]. split; [done|]. intros j Hj Hu. apply Ha; [done|].
  intros Hu'. by apply Hu, (under_child i j b).
Qed.

Lemma agree_outside_trans i nodes1 nodes2 nodes3 :
  agree_outside i nodes1 nodes2 → agree_outside i nodes2 nodes3 → agree_outside i nodes1 nodes3.
Proof.
  intros [L1 A1] [L2 A2]. split; [congruence|]. intros j Hj Hu. by rewrite A2, A1.
Qed.

(** Work on one subtree leaves the sibling and the parent alone. *)
Lemma repr_sibling nodes nodes' i b tr :
  1 ≤ i → 0 ≤ b ≤ 1 → agree_outside (2 * i + b) nodes nodes' →
  repr nodes (2 * i + (1 - b)) tr → repr nodes' (2 * i + (1 - b)) tr.
Proof.
  intros Hi Hb [Hl Ha] Hr. apply (repr_frame nodes); [lia|done|done|].
  intros j Hj Hu. apply Ha; [done|]. intros Hu'.
  assert (b = 0 ∨ b = 1) as [->| ->] by lia; simpl in *; rewrite Z.add_0_r in *;
    by apply (under_siblings i j).
Qed.

Lemma agree_parent nodes nodes' i b :
  1 ≤ i → 0 ≤ b ≤ 1 → agree_outside (2 * i + b) nodes nodes' →
  nodes' !! Z.to_nat i = nodes !! Z.to_nat i.
Proof. intros Hi Hb [_ Ha]. apply Ha; [lia|]. by apply under_child_ne; lia. Qed.

Lemma left_child_size_range s : 1 ≤ s → 0 ≤ left_child_size s < s.
Proof.
  intros Hs. destruct (fits_children 1 s s ltac:(lia) Hs (fits_root s ltac:(lia))) as [F1 F2].
  apply fits_range in F1 as [? _]; [|lia]. apply fits_range in F2 as [? _]; lia.
Qed.

(** [init_tree], or nothing when there are no items. *)
Definition init_part (fuel : nat) (nodes : t) (i : Z) (items : list (Z * V)) : result t :=
  match items with [] => Ok nodes | _ => init_tree fuel nodes i items end.

Lemma init_tree_spec fuel nodes i items n :
  (length items ≤ fuel)%nat → 1 ≤ i → Z.of_nat (length nodes) = n + 1 →
  fits i (Z.of_nat (length items)) n →
  ∃ nodes' tr, init_part fuel nodes i items = Ok nodes' ∧ repr nodes' i tr ∧ results tr ∧
    AssociativeMap.entries tr = items ∧ agree_outside i nodes nodes'.
Proof.
  revert nodes i items. induction fuel as [|fuel IH]; intros nodes i items Hf Hi Hn Hfit.
  { destruct items; [|simpl in Hf; lia]. exists nodes, AssociativeMap.Leaf.
    apply fits_range in Hfit as [_ Hr]; [|done]. split_and!; try done. constructor. simpl in Hr. lia. }
  apply fits_range in Hfit as Hr; [|done]. destruct Hr as [_ Hr].
  destruct items as [|kv items]; [|].
  { exists nodes, AssociativeMap.Leaf. split_and!; try done. constructor. simpl in Hr. lia. }
  set (all := kv :: items) in *. assert (1 ≤ Z.of_nat (length all)) as Hs by (simpl; lia).
  destruct (fits_children i _ n Hi Hs Hfit) as [F1 F2].
  pose proof (left_child_size_range _ Hs) as Hls. set (ls := left_child_size _) in *.
  assert (init_part (S fuel) nodes i all = init_tree (S fuel) nodes i all) as -> by done.
  cbn [init_tree]. fold ls.
  destruct (drop (Z.to_nat ls) all) as [|[k v] after] eqn:Ed.
  { apply (f_equal length) in Ed. rewrite length_drop in Ed. simpl in Ed. unfold all in Hls. simpl in *. lia. }
  assert (length (take (Z.to_nat ls) all) = Z.to_nat ls) as Eb by (rewrite length_take; lia).
  assert (Z.of_nat (length after) = Z.of_nat (length all) - 1 - ls) as Ea.
  { apply (f_equal length) in Ed. rewrite length_drop in Ed. simpl in Ed. simpl in *. lia. }
  fold (init_part fuel nodes (2 * i) (take (Z.to_nat ls) all)).
  destruct (IH nodes (2 * i) (take (Z.to_nat ls) all)) as (n1 & t1 & -> & R1 & S1 & E1 & A1).
  { lia. } { lia. } { done. } { by rewrite Eb, Z2Nat.id by lia. }
  cbn [mbind result_bind].
  fold (init_part fuel n1 (2 * i + 1) after). rewrite <- (Z.add_0_r (2 * i)) in A1.
  destruct (IH n1 (2 * i + 1) after) as (n2 & t2 & -> & R2 & S2 & E2 & A2).
  { lia. } { lia. } { destruct A1; lia. } { by rewrite Ea. }
  cbn [mbind result_bind].
  assert (repr n2 (2 * i) t1) as R1'.
  { rewrite <- (Z.add_0_r (2 * i)). apply (repr_sibling n1 n2 i 1); [done|lia|done|].
    by rewrite Z.add_0_r. }
  assert (i ≤ n) as Hin by lia.
  rewrite vec_set_Ok by (destruct A1, A2; lia). cbn [mbind result_bind].
  set (n3 := <[Z.to_nat i := _]> n2).
  destruct (set_node n2 i (Some (mkNode k v v)) Hi) as (A3 & Hfl & Hfr). fold n3 in A3, Hfl, Hfr.
  destruct (update_result_spec n3 i k v v t1 t2) as (n4 & -> & R4 & A4); [done|..].
  { unfold n3. apply list_lookup_insert_eq. destruct A1, A2. lia. }
  { auto. } { auto. }
  exists n4, (AssociativeMap.Node k v (combine v t1 t2) 0 t1 t2). split_and!; try done.
  - simpl. rewrite E1, E2, <- Ed. apply take_drop.
  - apply (agree_outside_trans i _ n1); [by apply (agree_outside_child _ _ i 0); [lia|]|].
    apply (agree_outside_trans i _ n2); [by apply (agree_outside_child _ _ i 1); [lia|]|].
    by apply (agree_outside_trans i _ n3).
Qed.

(** The tree after writing a value under a key that is there. *)
Fixpoint tree_set (tr : AssociativeMap.tree V) (key : Z) (value : V) : AssociativeMap.tree V :=
  match tr with
  | AssociativeMap.Leaf => AssociativeMap.Leaf
  | AssociativeMap.Node k v _ h l r =>
      if key =? k then AssociativeMap.Node k value (combine value l r) h l r
      else if key <? k
      then AssociativeMap.Node k v (combine v (tree_set l key value) r) h (tree_set l key value) r
      else AssociativeMap.Node k v (combine v l (tree_set r key value)) h l (tree_set r key value)
  end.

Lemma results_tree_set tr key value : results tr → results (tree_set tr key value).
Proof.
  induction tr as [|k v res h l IHl r IHr]; simpl; [done|]. intros (Hl & Hr & ->).
  repeat case_match; simpl; auto.
Qed.

Lemma entries_tree_set tr key value :
  AssociativeMap.sorted (AssociativeMap.entries tr) →
  is_Some (AssociativeMap.getValueIfExists tr key) →
  AssociativeMap.entries (tree_set tr key value) =
  AssociativeMap.put (AssociativeMap.entries tr) key value.
Proof.
  induction tr as [|k v res h l IHl r IHr]; simpl; [by intros _ [? [=]]|].
  intros (Hl & Hr & Hf1 & Hf2)%AssociativeMap.sorted_app Hs.
  rewrite AssociativeMap.put_app by done.
  repeat case_match; simpl; [done|by rewrite IHl|by rewrite IHr].
Qed.

Lemma update_tree_spec fuel nodes i tr key value :
  1 ≤ i → repr nodes i tr → (1 ≤ fuel)%nat → Z.of_nat (length nodes) < i + Z.of_nat fuel →
  match AssociativeMap.getValueIfExists tr key with
  | Some _ => ∃ nodes', update_tree fuel nodes i key value = Ok nodes' ∧
                repr nodes' i (tree_set tr key value) ∧ agree_outside i nodes nodes'
  | None => update_tree fuel nodes i key value = Throw (runtime_error "key not found")
  end.
Proof.
  intros Hi Hr. revert fuel. induction Hr as [i Hl|i k v res l r Hn Hl IHl Hr IHr]; intros [|fuel] Hf0 Hf.
  { lia. }
  { cbn. unfold in_range. by rewrite (proj2 (Z.ltb_ge _ _)). }
  { apply lookup_lt_Some in Hn. lia. }
  destruct (repr_root nodes i _ ltac:(lia) (repr_node _ _ _ _ _ _ _ Hn Hl Hr)) as [Hin Hd].
  cbn [update_tree AssociativeMap.getValueIfExists tree_set].
  rewrite Hin, Hd. cbn [negb mbind result_bind node_key node_value node_result].
  apply lookup_lt_Some in Hn as Hlt.
  destruct (key =? k); [|destruct (key <? k)].
  - rewrite vec_set_Ok by lia. cbn [mbind result_bind].
    destruct (set_node nodes i (Some (mkNode k value res)) Hi) as (A1 & Hfl & Hfr).
    destruct (update_result_spec (<[Z.to_nat i := Some (mkNode k value res)]> nodes) i k value res l r)
      as (n2 & -> & R2 & A2); auto.
    { by apply list_lookup_insert_eq. }
    exists n2. split; [done|]. split; [done|]. by eapply agree_outside_trans.
  - specialize (IHl ltac:(lia) fuel ltac:(lia) ltac:(lia)).
    destruct (AssociativeMap.getValueIfExists l key); [|by rewrite IHl].
    destruct IHl as (n1 & -> & R1 & A1). cbn [mbind result_bind].
    rewrite <- (Z.add_0_r (2 * i)) in A1.
    destruct (update_result_spec n1 i k v res (tree_set l key value) r) as (n2 & -> & R2 & A2); auto.
    { by rewrite (agree_parent nodes n1 i 0) by (done || lia). }
    { by apply (repr_sibling nodes n1 i 0); [done|lia|done|]. }
    exists n2. split; [done|]. split; [done|].
    eapply agree_outside_trans; [|done]. by apply (agree_outside_child _ _ i 0); [lia|].
  - specialize (IHr ltac:(lia) fuel ltac:(lia) ltac:(lia)).
    destruct (AssociativeMap.getValueIfExists r key); [|by rewrite IHr].
    destruct IHr as (n1 & -> & R1 & A1). cbn [mbind result_bind].
    destruct (update_result_spec n1 i k v res l (tree_set r key value)) as (n2 & -> & R2 & A2); auto.
    { by rewrite (agree_parent nodes n1 i 1) by (done || lia). }
    { rewrite <- (Z.add_0_r (2 * i)). apply (repr_sibling nodes n1 i 1); [done|lia|done|].
      by rewrite Z.add_0_r. }
    exists n2. split; [done|]. split; [done|].
    eapply agree_outside_trans; [|done]. by apply (agree_outside_child _ _ i 1); [lia|].
Qed.

Lemma count_tree_spec fuel nodes i tr key :
  1 ≤ i → repr nodes i tr → (1 ≤ fuel)%nat → Z.of_nat (length nodes) < i + Z.of_nat fuel →
  count_tree fuel nodes i key =
  Ok (if AssociativeMap.getValueIfExists tr key then 1 else 0).
Proof.
  intros Hi Hr. revert fuel. induction Hr as [i Hl|i k v res l r Hn Hl IHl Hr IHr]; intros [|fuel] Hf0 Hf.
  { lia. }
  { cbn. unfold in_range. by rewrite (proj2 (Z.ltb_ge _ _)). }
  { apply lookup_lt_Some in Hn. lia. }
  destruct (repr_root nodes i _ ltac:(lia) (repr_node _ _ _ _ _ _ _ Hn Hl Hr)) as [Hin Hd].
  cbn [count_tree AssociativeMap.getValueIfExists].
  rewrite Hin, Hd. cbn [negb mbind result_bind node_key]. apply lookup_lt_Some in Hn as Hlt.
  destruct (key =? k); [done|]. destruct (key <? k); [apply IHl|apply IHr]; lia.
Qed.

(** The abstract state: the search tree, its results and its keys. *)
Definition models (nodes : t) (m : gmap Z V) : Prop :=
  ∃ tr, repr nodes 1 tr ∧ results tr ∧ AssociativeMap.sorted (AssociativeMap.entries tr) ∧
        AssociativeMap.to_map tr = m ∧ (nodes = [] ∨ tr ≠ AssociativeMap.Leaf).

Lemma models_empty : models [] ∅.
Proof. exists AssociativeMap.Leaf. split_and!; try done; [by constructor|constructor|by left]. Qed.

Lemma insert_item_perm x l : insert_item x l ≡ₚ x :: l.
Proof.
  induction l as [|y l IH]; simpl; [done|]. case_match; [done|]. rewrite IH. constructor.
Qed.

Lemma sort_items_perm items : sort_items items ≡ₚ items.
Proof. induction items as [|x items IH]; simpl; [done|]. by rewrite insert_item_perm, IH. Qed.

Lemma insert_item_sorted x l :
  x.1 ∉ l.*1 → AssociativeMap.sorted l → AssociativeMap.sorted (insert_item x l).
Proof.
  unfold AssociativeMap.sorted, item_lt.
  induction l as [|y l IH]; intros Hx Hs; [repeat constructor|].
  rewrite fmap_cons in Hx, Hs. apply not_elem_of_cons in Hx as [Hxy Hx].
  inversion_clear Hs as [|? ? Hs' Hall]. cbn [insert_item]. unfold item_lt.
  destruct (Z.ltb_spec x.1 y.1) as [Hlt|Hge]; cbn [orb].
  - rewrite !fmap_cons. constructor; [by constructor|]. constructor; [done|].
    eapply Forall_impl; [exact Hall|]. simpl; lia.
  - rewrite (proj2 (Z.eqb_neq x.1 y.1)) by done. cbn [andb]. rewrite fmap_cons.
    constructor; [by apply IH|]. rewrite insert_item_perm. constructor; [lia|done].
Qed.

Lemma sort_items_sorted items : NoDup items.*1 → AssociativeMap.sorted (sort_items items).
Proof.
  induction items as [|x items IH]; simpl; [intros; constructor|]. intros [Hx Hn]%NoDup_cons.
  apply insert_item_sorted; [by rewrite sort_items_perm|auto].
Qed.

Lemma fixed_init_models nodes items :
  NoDup items.*1 → ∃ nodes', init nodes items = Ok nodes' ∧ models nodes' (list_to_map items).
Proof.
  intros Hn. unfold init.
  pose proof (sort_items_sorted items Hn) as Hs. pose proof (sort_items_perm items) as Hp.
  assert ((list_to_map (sort_items items) : gmap Z V) = list_to_map items) as Em.
  { apply list_to_map_proper; [by rewrite Hp|done]. }
  destruct (sort_items items) as [|x l] eqn:E.
  { exists []. split; [done|]. rewrite <- Em. apply models_empty. }
  destruct (init_tree_spec (length (x :: l)) (resize nodes (length (x :: l) + 1)) 1 (x :: l)
              (Z.of_nat (length (x :: l)))) as (n' & tr & E1 & R & S' & E2 & A).
  { done. } { done. }
  { unfold resize. rewrite length_app, length_take, length_replicate. lia. }
  { apply fits_root. lia. }
  exists n'. split; [exact E1|]. exists tr. split_and!; [done|done|by rewrite E2| |].
  - unfold AssociativeMap.to_map. by rewrite E2.
  - right. intros ->. done.
Qed.

Lemma models_count nodes m key :
  models nodes m → count nodes key = Ok (if m !! key then 1 else 0).
Proof.
  intros (tr & R & _ & Hs & <- & _). unfold count.
  rewrite (count_tree_spec _ nodes 1 tr) by (done || lia).
  by rewrite AssociativeMap.getValueIfExists_spec.
Qed.

Lemma models_update nodes m key value :
  models nodes m →
  match m !! key with
  | Some _ => ∃ nodes', update nodes key value = Ok nodes' ∧ models nodes' (<[key := value]> m)
  | None => update nodes key value = Throw (runtime_error "key not found")
  end.
Proof.
  intros (tr & R & Hr & Hs & <- & Hne). unfold update.
  pose proof (update_tree_spec (S (length nodes)) nodes 1 tr key value ltac:(done) R ltac:(lia) ltac:(lia)) as Hu.
  rewrite <- AssociativeMap.getValueIfExists_spec by done.
  destruct (AssociativeMap.getValueIfExists tr key) as [old|] eqn:Eo; [|done].
  destruct Hu as (n' & -> & R' & A). exists n'. split; [done|].
  exists (tree_set tr key value).
  pose proof (entries_tree_set tr key value Hs ltac:(by eexists)) as Ee.
  split_and!; [done|by apply results_tree_set| | |].
  - rewrite Ee. by apply AssociativeMap.put_sorted.
  - unfold AssociativeMap.to_map. rewrite Ee. by apply AssociativeMap.put_lookup.
  - right. destruct tr; [done|]. simpl. repeat case_match; done.
Qed.

Lemma fixed_results_sum tr :
  results tr → sum_of operation neutral (AssociativeMap.entries tr).*2 (AssociativeMap.query neutral tr).
Proof.
  induction tr as [|k v res h l IHl r IHr]; [constructor|].
  intros (Hl & Hr & ->). specialize (IHl Hl). specialize (IHr Hr).
  cbn [AssociativeMap.entries AssociativeMap.query]. rewrite fmap_app, fmap_cons.
  cbn [snd]. rewrite cons_middle, app_assoc. unfold combine.
  assert (sum_of operation neutral ((AssociativeMap.entries l).*2 ++ [v])
    match l with AssociativeMap.Leaf => v | AssociativeMap.Node _ _ x _ _ _ => operation x v end) as Hlv.
  { destruct l; [constructor|]. apply sum_add; [exact IHl|constructor]. }
  destruct r; [by rewrite app_nil_r|]. by apply sum_add.
Qed.

(** [query] reads the aggregate at the root: a sum of all the values. *)
Lemma models_query nodes m :
  models nodes m →
  ∃ q, query nodes = Ok q ∧ sum_of operation neutral (map_to_list m).*2 q.
Proof.
  intros (tr & R & Hr & Hs & <- & Hne).
  exists (AssociativeMap.query neutral tr). split.
  - pose proof (repr_root nodes 1 tr ltac:(done) R) as Hd. unfold query.
    destruct nodes as [|n0 nodes].
    + destruct tr; [done|]. by destruct Hd.
    + destruct tr; [by destruct Hne|]. destruct Hd as [_ ->]. done.
  - eapply sum_perm; [|by apply fixed_results_sum]. unfold AssociativeMap.to_map.
    by rewrite map_to_list_to_map by (by apply AssociativeMap.sorted_keys_NoDup).
Qed.

End fixed.
End AssociativeFixedMap.

(** ** AssociativeHybridMap *)
Module AssociativeHybridMap.
Section hybrid.
Context {V : Type} (operation : V → V → V) (neutral : V) (value_lt : V → V → bool).

Record t := mk {
  fixed : list (option (AssociativeFixedMap.Node V));
  overflow : AssociativeMap.tree V
}.

Definition make : t := mk [] AssociativeMap.Leaf.

Definition init (h : t) (items : list (Z * V)) : result t :=
  f ← AssociativeFixedMap.init operation value_lt (fixed h) items;
  Ok (mk f AssociativeMap.clear).

Definition update (h : t) (key : Z) (value : V) : result t :=
  c ← AssociativeFixedMap.count (fixed h) key;
  if negb (c =? 0)
  then f ← AssociativeFixedMap.update operation (fixed h) key value; Ok (mk f (overflow h))
  else Ok (mk (fixed h) (AssociativeMap.update operation (overflow h) key value)).

Definition remove (h : t) (key : Z) : result t :=
  c ← AssociativeFixedMap.count (fixed h) key;
  if negb (c =? 0)
  then f ← AssociativeFixedMap.update operation (fixed h) key neutral; Ok (mk f (overflow h))
  else Ok (mk (fixed h) (AssociativeMap.remove operation (overflow h) key)).

Definition query (h : t) : result V :=
  q ← AssociativeFixedMap.query neutral (fixed h);
  Ok (operation q (AssociativeMap.query neutral (overflow h))).

Definition query_lt (h : t) (key : Z) : result V :=
  q ← AssociativeFixedMap.query_lt operation neutral (fixed h) key;
  Ok (operation q (AssociativeMap.query_lt operation neutral (overflow h) key)).

Definition query_le (h : t) (key : Z) : result V :=
  q ← AssociativeFixedMap.query_le operation neutral (fixed h) key;
  Ok (operation q (AssociativeMap.query_le operation neutral (overflow h) key)).

Lemma lookup_constant (v : V) (R : gset Z) k :
  gset_to_gmap v R !! k = if decide (k ∈ R) then Some v else None.
Proof.
  rewrite lookup_gset_to_gmap. case_decide; [by rewrite option_guard_True|by rewrite option_guard_False].
Qed.

Lemma map_to_list_disjoint_union (m1 m2 : gmap Z V) :
  m1 ##ₘ m2 → map_to_list (m1 ∪ m2) ≡ₚ map_to_list m1 ++ map_to_list m2.
Proof.
  revert m2. induction m1 as [|k v m1 Hk IH] using map_ind; intros m2 Hd.
  - by rewrite map_empty_union, map_to_list_empty.
  - apply map_disjoint_insert_l in Hd as [Hk2 Hd]. rewrite <- insert_union_l.
    rewrite !map_to_list_insert by (try apply lookup_union_None; done).
    by rewrite IH.
Qed.

Lemma constant_values (v : V) (R : gset Z) :
  (map_to_list (gset_to_gmap v R)).*2 = replicate (size R) v.
Proof.
  symmetry. apply replicate_as_Forall. split.
  - by rewrite length_fmap, length_map_to_list, <- size_dom, dom_gset_to_gmap.
  - apply Forall_forall. intros x ([k w] & -> & Hin)%list_elem_of_fmap.
    apply elem_of_map_to_list in Hin. rewrite lookup_constant in Hin.
    by case_decide; simplify_eq.
Qed.

(** The map the structure stands for.  A key that was there at the beginning and has
    been removed stays in the fixed part, with the neutral value. *)
Definition models (h : t) (m : gmap Z V) : Prop :=
  ∃ mf mo (R : gset Z),
    AssociativeFixedMap.models operation (fixed h) mf ∧
    AssociativeMap.inv operation (overflow h) ∧ AssociativeMap.to_map (overflow h) = mo ∧
    mf ##ₘ mo ∧ R ## dom m ∧ mf ∪ mo = m ∪ gset_to_gmap neutral R.

Lemma hybrid_make_models : models make ∅.
Proof.
  exists ∅, ∅, ∅. split_and!; try done.
  - apply AssociativeFixedMap.models_empty.
  - apply AssociativeMap.clear_inv.
Qed.

Lemma hybrid_init_models h items :
  NoDup items.*1 → ∃ h', init h items = Ok h' ∧ models h' (list_to_map items).
Proof.
  intros Hn. unfold init.
  destruct (AssociativeFixedMap.fixed_init_models operation value_lt (fixed h) items Hn) as (f & -> & Hf).
  eexists. split; [done|]. exists (list_to_map items), ∅, ∅. split_and!; try done.
  - apply AssociativeMap.clear_inv.
  - apply map_disjoint_empty_r.
Qed.

Lemma update_models h m key value :
  models h m → ∃ h', update h key value = Ok h' ∧ models h' (<[key := value]> m).
Proof using Type.
  clear value_lt. intros (mf & mo & R & Hf & Ho & Eo & Hd & HR & Eu). unfold update.
  rewrite (AssociativeFixedMap.models_count operation _ mf) by done.
  pose proof (AssociativeFixedMap.models_update operation _ mf key value Hf) as Hu.
  assert (R ∖ {[key]} ## dom (<[key := value]> m)) as HR' by (rewrite dom_insert_L; set_solver).
  assert (<[key := value]> (m ∪ gset_to_gmap neutral R) =
          <[key := value]> m ∪ gset_to_gmap neutral (R ∖ {[key]})) as Em.
  { apply map_eq. intros k. rewrite lookup_union, !lookup_insert, lookup_union, !lookup_constant.
    destruct (decide (key = k)) as [<-|Hne]; [by case_decide|].
    assert (k ∈ R ↔ k ∈ R ∖ {[key]}) by set_solver. repeat case_decide; tauto. }
  destruct (mf !! key) as [v0|] eqn:Ek; cbn [mbind result_bind negb Z.eqb].
  - destruct Hu as (f' & -> & Hf'). cbn [mbind result_bind]. eexists. split; [done|].
    exists (<[key := value]> mf), mo, (R ∖ {[key]}). split_and!; try done.
    + apply map_disjoint_insert_l. split; [|done]. by eapply map_disjoint_Some_l.
    + by rewrite <- insert_union_l, Eu.
  - eexists. split; [done|].
    exists mf, (<[key := value]> mo), (R ∖ {[key]}). cbn [fixed overflow].
    split_and!; [done|by apply AssociativeMap.update_inv|subst mo; by apply AssociativeMap.update_to_map|..].
    + by apply map_disjoint_insert_r.
    + done.
    + by rewrite <- insert_union_r, Eu.
Qed.

Lemma remove_models h m key :
  models h m → ∃ h', remove h key = Ok h' ∧ models h' (delete key m).
Proof using Type.
  clear value_lt. intros (mf & mo & R & Hf & Ho & Eo & Hd & HR & Eu). unfold remove.
  rewrite (AssociativeFixedMap.models_count operation _ mf) by done.
  pose proof (AssociativeFixedMap.models_update operation _ mf key neutral Hf) as Hu.
  destruct (mf !! key) as [v0|] eqn:Ek; cbn [mbind result_bind negb Z.eqb].
  - destruct Hu as (f' & -> & Hf'). cbn [mbind result_bind]. eexists. split; [done|].
    exists (<[key := neutral]> mf), mo, (R ∪ {[key]}). split_and!; try done.
    + apply map_disjoint_insert_l. split; [|done]. by eapply map_disjoint_Some_l.
    + rewrite dom_delete_L. set_solver.
    + rewrite <- insert_union_l, Eu. apply map_eq. intros k.
      rewrite lookup_insert, !lookup_union, lookup_delete, !lookup_constant.
      destruct (decide (key = k)) as [<-|Hne].
      * by rewrite decide_True by set_solver.
      * assert (k ∈ R ↔ k ∈ R ∪ {[key]}) by set_solver. repeat case_decide; tauto.
  - eexists. split; [done|].
    exists mf, (delete key mo), (R ∖ {[key]}). cbn [fixed overflow].
    split_and!; [done|by apply AssociativeMap.remove_inv|subst mo; by apply AssociativeMap.remove_to_map|..].
    + by apply map_disjoint_delete_r.
    + rewrite dom_delete_L. set_solver.
    + apply map_eq. intros k. apply (f_equal (.!! k)) in Eu. revert Eu.
      rewrite !lookup_union, !lookup_delete, !lookup_constant. destruct (decide (key = k)) as [<-|Hne].
      * intros _. by rewrite Ek, (decide_False (P := key ∈ R ∖ {[key]})) by set_solver.
      * assert (k ∈ R ↔ k ∈ R ∖ {[key]}) by set_solver. intros ->. repeat case_decide; tauto.
Qed.

(** The query is a sum of the values, and of the neutral value of removed keys. *)
Lemma query_models h m :
  models h m → ∃ q n, query h = Ok q ∧
    sum_of operation neutral ((map_to_list m).*2 ++ replicate n neutral) q.
Proof.
  intros (mf & mo & R & Hf & [_ Hr Hs] & Eo & Hd & HR & Eu). unfold query.
  destruct (AssociativeFixedMap.models_query operation neutral _ mf Hf) as (q & -> & Hq).
  cbn [mbind result_bind]. eexists _, (size R). split; [done|].
  eapply sum_perm; [|apply sum_add; [exact Hq|by apply AssociativeMap.results_sum]].
  assert ((AssociativeMap.entries (overflow h)).*2 ≡ₚ (map_to_list mo).*2) as ->.
  { subst mo. unfold AssociativeMap.to_map.
    by rewrite map_to_list_to_map by (by apply AssociativeMap.sorted_keys_NoDup). }
  rewrite <- fmap_app, <- map_to_list_disjoint_union, Eu by done.
  rewrite map_to_list_disjoint_union, fmap_app by (apply map_disjoint_dom; rewrite dom_gset_to_gmap; set_solver).
  by rewrite constant_values.
Qed.

End hybrid.
Arguments t : clear implicits.
End AssociativeHybridMap.
