(* ===== verification/EquivalenceSets.v ===== *)
(** * Equivalence sets

    [EquivalenceSets] (solver/utils/equivalence_sets) partitions the objects into
    sets the objective and the constraints cannot tell apart, by successive
    refinement; [ObjectDeduper] (solver/utils) keeps one object per set of a
    sequence. *)

From S2P Require Import Prelude.

Module EquivalenceSets.

Definition kUnassignedSetId : Z := -1.

(** The universe is known here by its objects [0 .. numObjects - 1].  The sets of
    keys already merged are kept by the callers below. *)
Record t := mk {
  key : string;
  sets : list (gset Z);
  objectIdToSetId : list Z;
  seenObjects : Z;
  combineInputBySetId : list (list Z)
}.

Definition make (numObjects : nat) (key : string) : t :=
  mk key [] (replicate numObjects kUnassignedSetId) 0 [].

Definition getKey (e : t) : string := key e.

Definition size (e : t) : nat := length (sets e).

Definition getSet (e : t) (idx : Z) : result (gset Z) := vec_get (sets e) idx.

Definition at_object (e : t) (element : Z) : result Z :=
  setId ← vec_get (objectIdToSetId e) element;
  if setId =? kUnassignedSetId
  then Throw (runtime_error "object has not been assigned to any equivalence set")
  else Ok setId.

Definition hasObject (e : t) (objectId : Z) : result bool :=
  setId ← vec_get (objectIdToSetId e) objectId;
  Ok (negb (setId =? kUnassignedSetId)).

Definition ids (e : t) : list Z := Z.of_nat <$> seq 0 (size e).

Definition addToNewSet (e : t) (items : list Z) : result t :=
  let newSetId := Z.of_nat (size e) in
  m ← foldM (λ m item, vec_set m item newSetId) (objectIdToSetId e) items;
  Ok (mk (key e) (sets e ++ [list_to_set items]) m (seenObjects e) (combineInputBySetId e)).

(** The first loop of [combine]: the objects of the input by the set they are in,
    the sets in the order they are met, and the objects in no set. *)
Definition sort_item (e : t) (s : list (list Z) * list Z * list Z) (item : Z)
    : result (list (list Z) * list Z * list Z) :=
  let '(buf, setIdsInInput, unseenObjects) := s in
  setId ← vec_get (objectIdToSetId e) item;
  if setId =? kUnassignedSetId
  then Ok (buf, setIdsInInput, unseenObjects ++ [item])
  else
    subset ← vec_get buf setId;
    buf' ← vec_set buf setId (subset ++ [item]);
    Ok (buf', match subset with [] => setIdsInInput ++ [setId] | _ => setIdsInInput end,
        unseenObjects).

(** The second loop: split the set unless the input has all of it. *)
Definition split_set (e : t) (setId : Z) : result t :=
  subset ← vec_get (combineInputBySetId e) setId;
  s ← vec_get (sets e) setId;
  e' ← (if negb (length subset =? base.size s)%nat then
          sets' ← vec_set (sets e) setId (foldl (λ s item, s ∖ {[item]}) s subset);
          addToNewSet (mk (key e) sets' (objectIdToSetId e) (seenObjects e)
                         (combineInputBySetId e)) subset
        else Ok e);
  buf ← vec_set (combineInputBySetId e') setId [];
  Ok (mk (key e') (sets e') (objectIdToSetId e') (seenObjects e') buf).

Definition combine (e : t) (input : list Z) : result t :=
  let buf := combineInputBySetId e ++
    replicate (size e - length (combineInputBySetId e)) [] in
  '(buf, setIdsInInput, unseenObjects) ← foldM (sort_item e) (buf, [], []) input;
  e1 ← foldM split_set (mk (key e) (sets e) (objectIdToSetId e) (seenObjects e) buf)
         setIdsInInput;
  match unseenObjects with
  | [] => Ok e1
  | _ => addToNewSet (mk (key e1) (sets e1) (objectIdToSetId e1)
           (seenObjects e1 + Z.of_nat (length unseenObjects)) (combineInputBySetId e1))
           unseenObjects
  end.

(** [objectIds]: the ids of all the objects of the universe. *)
Definition finalize (e : t) (objectIds : list Z) : result t :=
  let unseenCount := Z.of_nat (length objectIds) - seenObjects e in
  if unseenCount =? 0 then Ok e
  else
    let newSetId := Z.of_nat (size e) in
    '(m, s) ← foldM (λ '(m, s) objectId,
        slot ← vec_get m objectId;
        if slot =? kUnassignedSetId
        then m' ← vec_set m objectId newSetId; Ok (m', {[objectId]} ∪ s)
        else Ok (m, s)) (objectIdToSetId e, ∅ : gset Z) objectIds;
    Ok (mk (key e) (sets e ++ [s]) m (Z.of_nat (length objectIds)) (combineInputBySetId e)).

(** [mappingMerge] of a map from objects to values: the entries as the map
    iterates over them; the objects of each value, in the order the values are met. *)
Section mapping.
Context {V : Type} `{EqDecision V}.

Fixpoint group_add (g : list (V * list Z)) (obj : Z) (v : V) : list (V * list Z) :=
  match g with
  | [] => [(v, [obj])]
  | (w, os) :: g => if decide (w = v) then (w, os ++ [obj]) :: g else (w, os) :: group_add g obj v
  end.

Definition eqSetsOf (mapping : list (Z * V)) : list (V * list Z) :=
  foldl (λ g '(obj, v), group_add g obj v) [] mapping.

Definition mappingMerge (e : t) (mapping : list (Z * V)) : result t :=
  match mapping with
  | [] => Ok e
  | _ => foldM combine e (eqSetsOf mapping).*2
  end.
End mapping.

(** ** The partition *)

Definition is_object (m : list Z) (o : Z) : Prop := 0 ≤ o < Z.of_nat (length m).

(** The set an object is in, [-1] for none. *)
Definition cls (m : list Z) (o : Z) : Z := default kUnassignedSetId (m !! Z.to_nat o).

Record inv (e : t) : Prop := {
  inv_set i s : sets e !! i = Some s →
    s ≠ ∅ ∧ ∀ o, o ∈ s ↔ is_object (objectIdToSetId e) o ∧ cls (objectIdToSetId e) o = Z.of_nat i;
  inv_cls o : is_object (objectIdToSetId e) o →
    cls (objectIdToSetId e) o = kUnassignedSetId ∨ 0 ≤ cls (objectIdToSetId e) o < Z.of_nat (size e);
  inv_seen : seenObjects e = Z.of_nat (base.size (⋃ sets e))
}.

(** The scratch buffer is clean between two calls. *)
Definition clean (e : t) : Prop := Forall (λ l, l = []) (combineInputBySetId e).

(** [m'] separates what [m] separates, and the objects of [P] from the others. *)
Definition refines (m m' : list Z) (P : Z → Prop) : Prop :=
  length m' = length m ∧
  ∀ o1 o2, is_object m o1 → is_object m o2 →
    (cls m' o1 = cls m' o2 ↔ cls m o1 = cls m o2 ∧ (P o1 ↔ P o2)).

Lemma vec_get_cls m o : is_object m o → vec_get m o = Ok (cls m o).
Proof.
  intros [H1 H2]. apply vec_get_Ok. split; [done|]. unfold cls.
  destruct (lookup_lt_is_Some_2 m (Z.to_nat o)) as [x ->]; [lia|done].
Qed.

Lemma cls_insert m o x o' :
  is_object m o → 0 ≤ o' →
  cls (<[Z.to_nat o := x]> m) o' = if decide (o' = o) then x else cls m o'.
Proof.
  intros [H1 H2] H3. unfold cls. case_decide as E.
  - subst. rewrite list_lookup_insert_eq by lia. done.
  - rewrite list_lookup_insert_ne by lia. done.
Qed.

Lemma set_all_spec x items : ∀ m,
  Forall (is_object m) items →
  ∃ m', foldM (λ m item, vec_set m item x) m items = Ok m' ∧ length m' = length m ∧
    ∀ o, 0 ≤ o → cls m' o = if decide (o ∈ items) then x else cls m o.
Proof.
  induction items as [|a items IH]; intros m Hi; simpl; [by exists m|].
  inversion_clear Hi as [|? ? Ha Hi']. rewrite vec_set_Ok by apply Ha. cbn [mbind result_bind].
  destruct (IH (<[Z.to_nat a := x]> m)) as (m' & -> & Hl & Hc).
  { eapply Forall_impl; [eassumption|]. intros o. unfold is_object. by rewrite length_insert. }
  exists m'. split; [done|]. rewrite Hl, length_insert. split; [done|]. intros o Ho.
  rewrite Hc, cls_insert by done. repeat case_decide; set_solver.
Qed.

Lemma assigned_spec e o : inv e →
  o ∈ ⋃ sets e ↔
  is_object (objectIdToSetId e) o ∧ cls (objectIdToSetId e) o ≠ kUnassignedSetId.
Proof.
  intros He. rewrite elem_of_union_list. split.
  - intros (s & (i & Hi)%list_elem_of_lookup & Ho).
    apply (proj2 (inv_set e He i s Hi)) in Ho as [Ho E]. split; [done|].
    rewrite E. unfold kUnassignedSetId. lia.
  - intros [Ho Hc]. destruct (inv_cls e He o Ho) as [?|Hr]; [done|].
    destruct (lookup_lt_is_Some_2 (sets e) (Z.to_nat (cls (objectIdToSetId e) o)))
      as [s Hs]; [unfold size in Hr; lia|].
    exists s. split; [by apply list_elem_of_lookup; eauto|].
    apply (inv_set e He _ _ Hs). split; [done|lia].
Qed.

(** [addToNewSet] of objects that form a part of one class. *)
Lemma moved_refines e m' items i :
  inv e → Forall (is_object (objectIdToSetId e)) items → length m' = length (objectIdToSetId e) →
  (∀ o, o ∈ items → cls (objectIdToSetId e) o = i) →
  (∀ o, 0 ≤ o → cls m' o =
     if decide (o ∈ items) then Z.of_nat (size e) else cls (objectIdToSetId e) o) →
  refines (objectIdToSetId e) m' (.∈ items).
Proof.
  intros He Hi Hl Hcl Hm. split; [done|]. intros o1 o2 H1 H2.
  rewrite !Hm by (apply H1 || apply H2).
  pose proof (inv_cls e He o1 H1). pose proof (inv_cls e He o2 H2).
  unfold kUnassignedSetId in *.
  repeat case_decide; split; intros; try naive_solver lia.
  - split; [|done]. by rewrite !Hcl.
Qed.

(** Pulling the objects [subset] out of their set. *)
Lemma foldl_delete (l : list Z) : ∀ s : gset Z,
  foldl (λ s item, s ∖ {[item]}) s l = s ∖ list_to_set l.
Proof. induction l as [|x l IH]; intros s; simpl; [set_solver|]. rewrite IH. set_solver. Qed.

Lemma union_difference (l : list (gset Z)) (X : gset Z) :
  ⋃ (((.∖ X) <$> l) ++ [X]) = ⋃ l ∪ X.
Proof.
  rewrite union_list_app_L. simpl. induction l as [|s l IH]; simpl; [set_solver|].
  assert (⋃ ((.∖ X) <$> l) ∪ X = ⋃ l ∪ X) as E by (rewrite <- IH; set_solver).
  transitivity (s ∖ X ∪ (⋃ ((.∖ X) <$> l) ∪ X)); [set_solver|]. rewrite E.
  apply set_eq. intros o. rewrite !elem_of_union, elem_of_difference.
  destruct (decide (o ∈ X)); tauto.
Qed.

(** Taking [items] out of all sets and making them a set of their own. *)
Lemma regroup_inv e items m' seen buf :
  inv e → items ≠ [] → Forall (is_object (objectIdToSetId e)) items →
  (∀ i s, sets e !! i = Some s → ¬ s ⊆ list_to_set items) →
  length m' = length (objectIdToSetId e) →
  (∀ o, 0 ≤ o → cls m' o =
     if decide (o ∈ items) then Z.of_nat (size e) else cls (objectIdToSetId e) o) →
  seen = Z.of_nat (base.size (⋃ sets e ∪ list_to_set items)) →
  inv (mk (key e) (((.∖ list_to_set items) <$> sets e) ++ [list_to_set items]) m' seen buf).
Proof.
  intros He Hne Hin Hsub Hl Hm ->.
  assert (∀ o, is_object m' o ↔ is_object (objectIdToSetId e) o) as Hob
    by (intros o; unfold is_object; by rewrite Hl).
  split; simpl.
  - intros j s' Hj. destruct (decide (j < length (sets e))%nat) as [Hjl|Hjl].
    + rewrite lookup_app_l, list_lookup_fmap in Hj by (by rewrite length_fmap).
      destruct (sets e !! j) as [s|] eqn:Hs; [|done]. injection Hj as <-.
      destruct (inv_set e He j s Hs) as [_ H1]. split.
      { intros E. apply (Hsub j s Hs). intros o Ho. destruct (decide (o ∈ (list_to_set items : gset Z)));
          [done|]. assert (o ∈ s ∖ list_to_set items) as Hx by set_solver. rewrite E in Hx. set_solver. }
      intros o. rewrite elem_of_difference, elem_of_list_to_set, H1, Hob. split.
      * intros [[Ho Hc] Hn]. split; [done|]. rewrite Hm by apply Ho. by rewrite decide_False.
      * intros [Ho Hc]. rewrite Hm in Hc by apply Ho. case_decide; [unfold size in Hc; lia|done].
    + assert (j = length (sets e)) as ->.
      { apply lookup_lt_Some in Hj. rewrite length_app, length_fmap in Hj. simpl in Hj. lia. }
      rewrite lookup_app_r in Hj by (rewrite length_fmap; lia).
      rewrite length_fmap, Nat.sub_diag in Hj. injection Hj as <-. split.
      { destruct items; [done|]. simpl. set_solver. }
      intros o. rewrite elem_of_list_to_set, Hob. split.
      * intros Ho. pose proof (proj1 (Forall_forall _ _) Hin o Ho) as H1. split; [done|].
        rewrite Hm by apply H1. by rewrite decide_True.
      * intros [Ho Hc]. rewrite Hm in Hc by apply Ho. case_decide; [done|].
        destruct (inv_cls e He o Ho); unfold kUnassignedSetId, size in *; lia.
  - intros o Ho%Hob. rewrite Hm by apply Ho. unfold size; simpl.
    rewrite length_app, length_fmap; simpl. case_decide; unfold size; [lia|].
    destruct (inv_cls e He o Ho); unfold size in *; [by left|lia].
  - by rewrite union_difference.
Qed.

(** Objects in different sets. *)
Lemma other_sets e items i :
  inv e → (∀ o, o ∈ items → cls (objectIdToSetId e) o = i) →
  ∀ j s, sets e !! j = Some s → Z.of_nat j ≠ i → s ∖ list_to_set items = s.
Proof.
  intros He Hc j s Hs Hne. apply set_eq. intros o.
  rewrite elem_of_difference, elem_of_list_to_set. split; [tauto|]. intros Ho. split; [done|].
  intros Hi%Hc. apply (inv_set e He j s Hs) in Ho as [_ Ho]. lia.
Qed.

Lemma addToNewSet_spec e items sets' seen :
  inv e → items ≠ [] → Forall (is_object (objectIdToSetId e)) items →
  (∃ i, ∀ o, o ∈ items → cls (objectIdToSetId e) o = i) →
  sets' = (.∖ list_to_set items) <$> sets e →
  (∀ i s, sets e !! i = Some s → ¬ s ⊆ list_to_set items) →
  seen = Z.of_nat (base.size (⋃ sets e ∪ list_to_set items)) →
  ∃ e', addToNewSet (mk (key e) sets' (objectIdToSetId e) seen (combineInputBySetId e)) items
      = Ok e' ∧ inv e' ∧ key e' = key e ∧ size e' = S (size e) ∧
    refines (objectIdToSetId e) (objectIdToSetId e') (.∈ items) ∧
    combineInputBySetId e' = combineInputBySetId e ∧
    (∀ o, 0 ≤ o → o ∉ items → cls (objectIdToSetId e') o = cls (objectIdToSetId e) o) ∧
    (∀ o, 0 ≤ o → o ∈ items → cls (objectIdToSetId e') o = Z.of_nat (size e)) ∧
    ∀ j s, sets e !! j = Some s → sets e' !! j = Some (s ∖ list_to_set items).
Proof.
  intros He Hne Hin [i Hc] -> Hsub Hseen. unfold addToNewSet, size. simpl. rewrite length_fmap.
  destruct (set_all_spec (Z.of_nat (length (sets e))) items _ Hin) as (m' & -> & Hl & Hm).
  simpl. eexists. split; [done|]. simpl. rewrite length_app, length_fmap; simpl. split_and!.
  - by apply regroup_inv.
  - done.
  - lia.
  - by eapply moved_refines.
  - done.
  - intros o Ho Hn. rewrite Hm by done. by rewrite decide_False.
  - intros o Ho Hn. rewrite Hm by done. by rewrite decide_True.
  - intros j s Hj. rewrite lookup_app_l by (rewrite length_fmap; by eapply lookup_lt_Some).
    by rewrite list_lookup_fmap, Hj.
Qed.

(** ** combine *)

Abbreviation part m l i := (filter (λ o, cls m o = i) (l : list Z)).

(** The state of the first loop after the items [l]. *)
Record sorted_by (e : t) (n : nat) (l : list Z) (s : list (list Z) * list Z * list Z) : Prop := {
  sb_length : length s.1.1 = n;
  sb_buf i : (i < n)%nat → s.1.1 !! i = Some (part (objectIdToSetId e) l (Z.of_nat i));
  sb_ids_nodup : NoDup s.1.2;
  sb_ids i : i ∈ s.1.2 ↔
    i ≠ kUnassignedSetId ∧ part (objectIdToSetId e) l i ≠ [];
  sb_unseen : s.2 = part (objectIdToSetId e) l kUnassignedSetId
}.

Lemma sort_item_spec e n l s item :
  inv e → (size e ≤ n)%nat → is_object (objectIdToSetId e) item → sorted_by e n l s →
  ∃ s', sort_item e s item = Ok s' ∧ sorted_by e n (l ++ [item]) s'.
Proof.
  intros He Hn Ho [H1 H2 H3 H4 H5]. destruct s as [[buf sids] us]. simpl in *.
  set (m := objectIdToSetId e) in *. set (c := cls m item).
  assert (∀ i, part m (l ++ [item]) i = part m l i ++ (if decide (c = i) then [item] else [])) as Hp.
  { intros i. rewrite filter_app. done. }
  rewrite (vec_get_cls _ _ Ho). fold m c. cbn [mbind result_bind].
  destruct (Z.eqb_spec c kUnassignedSetId) as [Ec|Ec].
  - eexists. split; [done|]. split; simpl; [done| |done| |].
    + intros i Hi. rewrite Hp, decide_False, app_nil_r by (unfold kUnassignedSetId in *; lia). auto.
    + intros i. rewrite Hp, H4. destruct (decide (c = i)); [split; intros []; congruence|].
      by rewrite app_nil_r.
    + by rewrite H5, Hp, decide_True.
  - assert (0 ≤ c < Z.of_nat n) as Hc by (destruct (inv_cls e He item Ho); [done|unfold c, m; lia]).
    assert (vec_get buf c = Ok (part m l c)) as ->.
    { apply vec_get_Ok. split; [lia|]. rewrite H2 by lia. by rewrite Z2Nat.id by lia. }
    cbn [mbind result_bind]. rewrite vec_set_Ok by (rewrite H1; lia). cbn [mbind result_bind].
    eexists. split; [done|]. split; simpl; [by rewrite length_insert| | | |].
    + intros i Hi. rewrite Hp. destruct (decide (c = Z.of_nat i)) as [E|E].
      * rewrite E, Nat2Z.id, list_lookup_insert_eq by lia. done.
      * rewrite list_lookup_insert_ne, app_nil_r by lia. auto.
    + destruct (part m l c) eqn:Ep; [|done]. apply NoDup_app. split_and!; [done| |apply NoDup_singleton].
      intros i Hi ->%list_elem_of_singleton. apply H4 in Hi as [_ Hi]. by rewrite Ep in Hi.
    + intros i. rewrite Hp.
      assert (i ∈ (match part m l c with [] => sids ++ [c] | _ => sids end) ↔ i ∈ sids ∨ i = c) as ->.
      { destruct (part m l c) eqn:Ep; [set_solver|]. split; [auto|]. intros [?| ->]; [done|].
        apply H4. split; [done|]. by rewrite Ep. }
      rewrite H4. destruct (decide (c = i)) as [<-|Hne]; [|rewrite app_nil_r; naive_solver].
      split; [|auto]. intros _. split; [done|]. by destruct (part m l c).
    + by rewrite H5, Hp, decide_False, app_nil_r.
Qed.

Lemma sort_items_spec e n l : ∀ l0 s,
  inv e → (size e ≤ n)%nat → Forall (is_object (objectIdToSetId e)) l → sorted_by e n l0 s →
  ∃ s', foldM (sort_item e) s l = Ok s' ∧ sorted_by e n (l0 ++ l) s'.
Proof.
  induction l as [|o l IH]; intros l0 s He Hn Hl Hs; simpl.
  - exists s. by rewrite app_nil_r.
  - inversion_clear Hl as [|? ? Ho Hl'].
    destruct (sort_item_spec e n l0 s o He Hn Ho Hs) as (s1 & -> & H1). cbn [mbind result_bind].
    destruct (IH (l0 ++ [o]) s1 He Hn Hl' H1) as (s2 & -> & H2). exists s2. split; [done|].
    by rewrite <- app_assoc in H2.
Qed.

(** The state of the second loop after the sets [done]. *)
Record split_state (e : t) (input : list Z) (done : list Z) (e1 : t) : Prop := {
  ss_inv : inv e1;
  ss_key : key e1 = key e;
  ss_size : (size e ≤ size e1)%nat;
  ss_refines : refines (objectIdToSetId e) (objectIdToSetId e1)
    (λ o, o ∈ input ∧ cls (objectIdToSetId e) o ∈ done);
  ss_buf_length : (size e ≤ length (combineInputBySetId e1))%nat;
  ss_buf (i : nat) l : combineInputBySetId e1 !! i = Some l →
    l = if decide (Z.of_nat i ∈ done) then [] else part (objectIdToSetId e) input (Z.of_nat i);
  ss_sets i s : Z.of_nat i ∉ done → sets e !! i = Some s → sets e1 !! i = Some s;
  ss_unassigned o : is_object (objectIdToSetId e) o → 
    cls (objectIdToSetId e) o = kUnassignedSetId →
    cls (objectIdToSetId e1) o = kUnassignedSetId
}.

Lemma part_whole e input i s :
  inv e → NoDup input → Forall (is_object (objectIdToSetId e)) input → sets e !! i = Some s →
  list_to_set (part (objectIdToSetId e) input (Z.of_nat i)) ⊆ s ∧
  (length (part (objectIdToSetId e) input (Z.of_nat i)) = base.size s →
   s ⊆ list_to_set (part (objectIdToSetId e) input (Z.of_nat i))) ∧
  (s ⊆ list_to_set (part (objectIdToSetId e) input (Z.of_nat i)) →
   length (part (objectIdToSetId e) input (Z.of_nat i)) = base.size s).
Proof.
  intros He Hnd Hin Hs. set (l := part _ _ _).
  assert (list_to_set l ⊆ s) as Hsub.
  { intros o Ho%elem_of_list_to_set. apply list_elem_of_filter in Ho as [Hc Ho].
    apply (inv_set e He i s Hs). split; [|done]. by apply (proj1 (Forall_forall _ _) Hin). }
  assert (NoDup l) as Hl by (by apply NoDup_filter).
  rewrite <- (size_list_to_set (C:=gset Z) l Hl). split_and!; [done| |].
  - intros E. destruct (decide (s ⊆ list_to_set l)) as [|Hn]; [done|].
    assert (base.size (list_to_set l : gset Z) < base.size s)%nat by (apply subset_size; split; done). lia.
  - intros Hsup. f_equal. apply set_eq. set_solver.
Qed.

(** Refining one more class. *)
Lemma refines_done e (input done : list Z) i m1 m2 (Q : Z → Prop) :
  refines (objectIdToSetId e) m1 (λ o, o ∈ input ∧ cls (objectIdToSetId e) o ∈ done) →
  i ∉ done →
  (∀ o, is_object (objectIdToSetId e) o → Q o ↔ o ∈ input ∧ cls (objectIdToSetId e) o = i) →
  refines m1 m2 Q →
  refines (objectIdToSetId e) m2 (λ o, o ∈ input ∧ cls (objectIdToSetId e) o ∈ i :: done).
Proof.
  intros [L1 R1] Hi HQ [L2 R2]. split; [congruence|]. intros o1 o2 H1 H2.
  rewrite R2 by (unfold is_object; rewrite L1; done). rewrite R1, !HQ by done.
  setoid_rewrite elem_of_cons. split.
  - intros [[E Hd] Hq]. split; [done|]. rewrite E in *. tauto.
  - intros [E Hd]. rewrite E in *. split_and!; [done| |].
    + destruct (decide (cls (objectIdToSetId e) o2 = i)) as [Ec|]; rewrite ?Ec in *; tauto.
    + destruct (decide (cls (objectIdToSetId e) o2 = i)) as [Ec|]; rewrite ?Ec in *; tauto.
Qed.

(** A class that lies in the input as a whole needs no new set. *)
Lemma refines_whole e (input done : list Z) i m1 :
  refines (objectIdToSetId e) m1 (λ o, o ∈ input ∧ cls (objectIdToSetId e) o ∈ done) →
  i ∉ done →
  (∀ o, is_object (objectIdToSetId e) o → cls (objectIdToSetId e) o = i → o ∈ input) →
  refines (objectIdToSetId e) m1 (λ o, o ∈ input ∧ cls (objectIdToSetId e) o ∈ i :: done).
Proof.
  intros [L1 R1] Hi Hall. split; [done|]. intros o1 o2 H1 H2. rewrite R1 by done.
  setoid_rewrite elem_of_cons. split; intros [E Hd]; (split; [done|]).
  - destruct (decide (cls (objectIdToSetId e) o2 = i)) as [Ei|]; [|rewrite E in *; tauto].
    pose proof (Hall o1 H1). pose proof (Hall o2 H2). rewrite E in *. tauto.
  - destruct (decide (cls (objectIdToSetId e) o2 = i)) as [Ei|]; rewrite E in *; [|tauto].
    rewrite Ei in *. tauto.
Qed.

Section split.
Context (e : t) (input : list Z) (He : inv e) (Hnd : NoDup input).
Context (Hin : Forall (is_object (objectIdToSetId e)) input).

(** Clearing the buffer of the class just handled. *)
Lemma clear_buf (done : list Z) (buf : list (list Z)) i :
  (∀ (j : nat) l, buf !! j = Some l →
     l = if decide (Z.of_nat j ∈ done) then [] else part (objectIdToSetId e) input (Z.of_nat j)) →
  0 ≤ i → ∀ (j : nat) l, <[Z.to_nat i := []]> buf !! j = Some l →
     l = if decide (Z.of_nat j ∈ i :: done) then []
         else part (objectIdToSetId e) input (Z.of_nat j).
Proof.
  intros H Hi j l Hj. destruct (decide (j = Z.to_nat i)) as [->|Hne].
  - apply list_lookup_insert_Some in Hj as [(_ & <- & _)|[? _]]; [|done].
    rewrite decide_True; [done|]. rewrite Z2Nat.id by done. set_solver.
  - rewrite list_lookup_insert_ne in Hj by done. rewrite (H j l Hj).
    assert (Z.of_nat j ≠ i) by lia.
    destruct (decide (Z.of_nat j ∈ done)); [by rewrite decide_True by set_solver|].
    by rewrite decide_False by set_solver.
Qed.

Lemma split_whole done e1 i s :
  split_state e input done e1 → i ∉ done → 0 ≤ i → sets e !! Z.to_nat i = Some s →
  length (part (objectIdToSetId e) input i) = base.size s →
  split_state e input (i :: done) (mk (key e1) (sets e1) (objectIdToSetId e1) (seenObjects e1)
    (<[Z.to_nat i := []]> (combineInputBySetId e1))).
Proof.
  intros [S1 S2 S3 S4 S5 S6 S7 S8] Hi H0 Hs E.
  destruct (part_whole e input (Z.to_nat i) s He Hnd Hin Hs) as (_ & Hw & _).
  rewrite Z2Nat.id in Hw by done. specialize (Hw E). split; simpl; try done.
  - by destruct S1.
  - apply refines_whole; [done|done|]. intros o Ho Hc.
    assert (o ∈ s) as Hos by (apply (inv_set e He _ _ Hs); split; [done|lia]).
    apply Hw, elem_of_list_to_set, list_elem_of_filter in Hos. tauto.
  - by rewrite length_insert.
  - by apply clear_buf.
  - intros j s' Hj. apply S7. set_solver.
Qed.

Lemma split_part done e1 i s :
  split_state e input done e1 → i ∉ done → 0 ≤ i → sets e !! Z.to_nat i = Some s →
  part (objectIdToSetId e) input i ≠ [] →
  length (part (objectIdToSetId e) input i) ≠ base.size s →
  ∃ e2, addToNewSet (mk (key e1) (<[Z.to_nat i := s ∖ list_to_set (part (objectIdToSetId e) input i)]>
      (sets e1)) (objectIdToSetId e1) (seenObjects e1) (combineInputBySetId e1))
      (part (objectIdToSetId e) input i) = Ok e2 ∧
    combineInputBySetId e2 = combineInputBySetId e1 ∧
    split_state e input (i :: done) (mk (key e2) (sets e2) (objectIdToSetId e2) (seenObjects e2)
      (<[Z.to_nat i := []]> (combineInputBySetId e2))).
Proof.
  intros [S1 S2 S3 S4 S5 S6 S7 S8] Hi H0 Hs Hne E.
  destruct (part_whole e input (Z.to_nat i) s He Hnd Hin Hs) as (Hsub & _ & Hw).
  rewrite Z2Nat.id in Hsub, Hw by done. set (l := part _ _ _) in *.
  assert (sets e1 !! Z.to_nat i = Some s) as Hs1 by (apply S7; [by rewrite Z2Nat.id|done]).
  assert (∀ o, o ∈ l → is_object (objectIdToSetId e1) o ∧ cls (objectIdToSetId e1) o = i) as Hl.
  { intros o Ho. rewrite <- (Z2Nat.id i) by done. apply (inv_set e1 S1 _ _ Hs1).
    by apply Hsub, elem_of_list_to_set. }
  assert (∀ o, o ∈ l → cls (objectIdToSetId e1) o = i) as Hl2 by apply Hl.
  destruct (addToNewSet_spec e1 l (<[Z.to_nat i := s ∖ list_to_set l]> (sets e1)) (seenObjects e1))
    as (e2 & E2 & I2 & K2 & Z2 & R2 & B2 & C2 & _ & T2).
  - done.
  - done.
  - apply Forall_forall. apply Hl.
  - eauto.
  - apply list_eq. intros j. rewrite list_lookup_fmap.
    destruct (decide (j = Z.to_nat i)) as [->|Hj].
    + rewrite list_lookup_insert_eq by (by eapply lookup_lt_Some). by rewrite Hs1.
    + rewrite list_lookup_insert_ne by done. destruct (sets e1 !! j) as [s'|] eqn:Ej; [|done].
      simpl. f_equal. symmetry. eapply (other_sets e1 l i); [done|done|done|lia].
  - intros j s' Hj Hsub'. destruct (decide (j = Z.to_nat i)) as [->|Hji].
    + rewrite Hs1 in Hj. injection Hj as <-. by apply E, Hw.
    + rewrite <- (other_sets e1 l i S1 Hl2 j s' Hj) in Hsub' by lia.
      destruct (inv_set e1 S1 j s' Hj) as [Hn _]. apply Hn.
      rewrite <- (other_sets e1 l i S1 Hl2 j s' Hj) by lia. set_solver.
  - rewrite (inv_seen e1 S1), (union_comm_L (⋃ sets e1)). do 2 f_equal.
    symmetry. apply subseteq_union_1_L.
    transitivity s; [done|]. intros o Ho. apply elem_of_union_list. exists s.
    split; [apply list_elem_of_lookup; eauto|done].
  - exists e2. split; [done|]. split; [done|]. split; simpl; try congruence.
    + by destruct I2.
    + change ((size e ≤ size e2)%nat). lia.
    + apply (refines_done e input done i (objectIdToSetId e1) _ (.∈ l)); [done|done| |done].
      intros o Ho. unfold l. rewrite list_elem_of_filter. tauto.
    + rewrite length_insert, B2. done.
    + rewrite B2. by apply clear_buf.
    + intros j s' Hj Hs'. rewrite (T2 j s') by (apply S7; set_solver). f_equal.
      eapply (other_sets e1 l i); [done|done|apply S7; set_solver|set_solver].
    + intros o Ho Hc. rewrite C2; [by apply S8|apply Ho|]. intros Hol%list_elem_of_filter.
      assert (i = -1) by (unfold kUnassignedSetId in Hc; lia). lia.
Qed.

Lemma split_set_spec done e1 i :
  split_state e input done e1 → i ∉ done → i ≠ kUnassignedSetId →
  part (objectIdToSetId e) input i ≠ [] →
  ∃ e2, split_set e1 i = Ok e2 ∧ split_state e input (i :: done) e2.
Proof.
  intros HS Hi Hu Hp.
  assert (0 ≤ i < Z.of_nat (size e)) as Hr.
  { destruct (part (objectIdToSetId e) input i) as [|o l] eqn:E; [done|].
    assert (o ∈ part (objectIdToSetId e) input i) as Ho by (rewrite E; set_solver).
    apply list_elem_of_filter in Ho as [<- Ho].
    destruct (inv_cls e He o); [by apply (proj1 (Forall_forall _ _) Hin)|done|done]. }
  destruct (lookup_lt_is_Some_2 (sets e) (Z.to_nat i)) as [s Hs]; [unfold size in Hr; lia|].
  assert (sets e1 !! Z.to_nat i = Some s) as Hs1
    by (apply (ss_sets _ _ _ _ HS); [by rewrite Z2Nat.id by lia|done]).
  pose proof (ss_buf_length _ _ _ _ HS) as Hbl.
  destruct (lookup_lt_is_Some_2 (combineInputBySetId e1) (Z.to_nat i)) as [l Hl]; [lia|].
  pose proof (ss_buf _ _ _ _ HS _ _ Hl) as El.
  rewrite Z2Nat.id, decide_False in El by (done || lia). subst l.
  unfold split_set. rewrite (proj2 (vec_get_Ok _ _ _) (conj (proj1 Hr) Hl)).
  cbn [mbind result_bind]. rewrite (proj2 (vec_get_Ok _ _ _) (conj (proj1 Hr) Hs1)).
  cbn [mbind result_bind]. destruct (Nat.eqb_spec (length (part (objectIdToSetId e) input i))
    (base.size s)) as [E|E]; simpl negb; cbn match.
  - cbn [mbind result_bind]. rewrite vec_set_Ok by lia. cbn [mbind result_bind].
    eexists. split; [done|]. by apply (split_whole done e1 i s HS Hi (proj1 Hr) Hs).
  - rewrite foldl_delete.
    rewrite vec_set_Ok by (apply lookup_lt_Some in Hs1; lia). cbn [mbind result_bind].
    destruct (split_part done e1 i s HS Hi (proj1 Hr) Hs Hp E) as (e2 & -> & B2 & H2).
    cbn [mbind result_bind]. rewrite vec_set_Ok by (rewrite B2; lia). eauto.
Qed.

Lemma split_sets_spec l : ∀ done e1,
  split_state e input done e1 → NoDup l →
  (∀ i, i ∈ l → i ∉ done ∧ i ≠ kUnassignedSetId ∧ part (objectIdToSetId e) input i ≠ []) →
  ∃ e2, foldM split_set e1 l = Ok e2 ∧ split_state e input (reverse l ++ done) e2.
Proof.
  induction l as [|i l IH]; intros done e1 HS Hl Hd; simpl; [eauto|].
  apply NoDup_cons in Hl as [Hil Hl]. destruct (Hd i) as (H1 & H2 & H3); [set_solver|].
  destruct (split_set_spec done e1 i HS H1 H2 H3) as (e2 & -> & S2). cbn [mbind result_bind].
  destruct (IH (i :: done) e2 S2 Hl) as (e3 & -> & S3).
  { intros j Hj. destruct (Hd j) as (? & ? & ?); [set_solver|]. split_and!; try done.
    rewrite elem_of_cons. intros [-> |?]; done. }
  exists e3. split; [done|]. by rewrite reverse_cons, <- app_assoc.
Qed.
End split.

(** The last part of [combine]: the objects of the input that were in no set. *)
Lemma add_unseen e input done e1 us :
  inv e → NoDup input → Forall (is_object (objectIdToSetId e)) input →
  split_state e input done e1 → kUnassignedSetId ∉ done →
  us = part (objectIdToSetId e) input kUnassignedSetId → us ≠ [] →
  ∃ e2, addToNewSet (mk (key e1) (sets e1) (objectIdToSetId e1)
      (seenObjects e1 + Z.of_nat (length us)) (combineInputBySetId e1)) us = Ok e2 ∧
    inv e2 ∧ combineInputBySetId e2 = combineInputBySetId e1 ∧ key e2 = key e ∧
    refines (objectIdToSetId e) (objectIdToSetId e2)
      (λ o, o ∈ input ∧ cls (objectIdToSetId e) o ∈ kUnassignedSetId :: done).
Proof.
  intros He Hnd Hin [S1 S2 S3 S4 S5 S6 S7 S8] Hd Eus Hus.
  assert (∀ o, o ∈ us → is_object (objectIdToSetId e1) o ∧
    cls (objectIdToSetId e1) o = kUnassignedSetId) as Hu.
  { intros o Ho. rewrite Eus in Ho. apply list_elem_of_filter in Ho as [Hc Ho].
    pose proof (proj1 (Forall_forall _ _) Hin o Ho) as Hob. split; [|by apply S8].
    unfold is_object. by rewrite (proj1 S4). }
  assert (∀ o, o ∈ us → cls (objectIdToSetId e1) o = kUnassignedSetId) as Hu2 by apply Hu.
  pose proof (other_sets e1 us kUnassignedSetId S1 Hu2) as Hos.
  assert (list_to_set us ## ⋃ sets e1) as Hdis.
  { intros o Ho%elem_of_list_to_set Ho2. apply assigned_spec in Ho2 as [_ Ho2]; [|done].
    by apply Ho2, Hu. }
  assert (NoDup us) as Hndu by (subst us; by apply NoDup_filter).
  destruct (addToNewSet_spec e1 us (sets e1) (seenObjects e1 + Z.of_nat (length us)))
    as (e2 & E2 & I2 & K2 & _ & R2 & B2 & _); [done|done|apply Forall_forall, Hu|eauto| | | |].
  - apply list_eq. intros j. rewrite list_lookup_fmap.
    destruct (sets e1 !! j) as [s|] eqn:Ej; [|done]. simpl. f_equal. symmetry.
    apply (Hos j s Ej). unfold kUnassignedSetId. lia.
  - intros j s Hj Hsub. destruct (inv_set e1 S1 j s Hj) as [Hn _]. apply Hn.
    rewrite <- (Hos j s Hj) by (unfold kUnassignedSetId; lia). set_solver.
  - rewrite size_union by set_solver. rewrite size_list_to_set by done.
    rewrite (inv_seen e1 S1). lia.
  - exists e2. split_and!; [done|done|done|congruence|].
    apply (refines_done e input done kUnassignedSetId (objectIdToSetId e1) _ (.∈ us)); [done|done| |done].
    intros o Ho. rewrite Eus, list_elem_of_filter. tauto.
Qed.

(** Once every class met has been handled, membership is all that counts. *)
Lemma refines_all m m' (input done : list Z) :
  (∀ o, o ∈ input → cls m o ∈ done) →
  refines m m' (λ o, o ∈ input ∧ cls m o ∈ done) → refines m m' (.∈ input).
Proof.
  intros Hall [L R]. split; [done|]. intros o1 o2 H1 H2. rewrite R by done.
  pose proof (Hall o1). pose proof (Hall o2). tauto.
Qed.

(** [combine] refines the partition by membership in the input: two objects stay
    together exactly when they were together and both or neither are in the
    input. *)
Lemma combine_spec e input :
  inv e → clean e → NoDup input → Forall (is_object (objectIdToSetId e)) input →
  ∃ e', combine e input = Ok e' ∧ inv e' ∧ clean e' ∧ key e' = key e ∧
    refines (objectIdToSetId e) (objectIdToSetId e') (.∈ input).
Proof.
  intros He Hcl Hnd Hin. unfold combine.
  set (buf0 := combineInputBySetId e ++ _).
  assert (Forall (λ l, l = []) buf0) as Hb0
    by (apply Forall_app; split; [done|by apply Forall_replicate]).
  assert (size e ≤ length buf0)%nat as Hlb
    by (unfold buf0; rewrite length_app, length_replicate; lia).
  destruct (sort_items_spec e (length buf0) input [] (buf0, [], []))
    as ([[buf sids] us] & -> & [B1 B2 B3 B4 B5]); [done|done|done| |].
  { split; simpl; [done| |constructor|set_solver|done].
    intros i Hi. destruct (lookup_lt_is_Some_2 buf0 i Hi) as [l Hl]. rewrite Hl. f_equal.
    by apply (proj1 (Forall_lookup _ _) Hb0 i l). }
  simpl in *. cbn [mbind result_bind].
  set (e0 := mk (key e) (sets e) (objectIdToSetId e) (seenObjects e) buf).
  assert (split_state e input [] e0) as S0.
  { split; simpl; try done; [by destruct He| | |].
    - split; [done|]. intros o1 o2 _ _. set_solver.
    - by rewrite B1.
    - intros i l Hl.
      rewrite B2 in Hl by (apply lookup_lt_Some in Hl; lia). by injection Hl. }
  destruct (split_sets_spec e input He Hnd Hin sids [] e0 S0 B3) as (e1 & -> & S1).
  { intros i Hi. apply B4 in Hi as [? ?]. split; [set_solver|done]. }
  cbn [mbind result_bind]. rewrite app_nil_r in S1.
  assert (∀ i o, i ≠ kUnassignedSetId → o ∈ part (objectIdToSetId e) input i → i ∈ reverse sids)
    as Hmet.
  { intros i o Hi Ho. rewrite elem_of_reverse. apply B4. split; [done|]. intros E.
    rewrite E in Ho. set_solver. }
  assert (clean e1) as Hc1.
  { apply Forall_lookup. intros i l Hl. rewrite (ss_buf _ _ _ _ S1 i l Hl).
    case_decide as Hd; [done|]. destruct (part (objectIdToSetId e) input (Z.of_nat i)) as [|o l'] eqn:Ep; [done|].
    destruct Hd. apply (Hmet _ o); [unfold kUnassignedSetId; lia|]. rewrite Ep. set_solver. }
  destruct us as [|u us'] eqn:Eus.
  - exists e1. split_and!; [done|apply S1|done|apply S1|].
    eapply refines_all; [|apply S1]. intros o Ho.
    apply (Hmet _ o); [|by apply list_elem_of_filter]. intros E.
    assert (o ∈ part (objectIdToSetId e) input kUnassignedSetId) as Hp by (by apply list_elem_of_filter).
    rewrite <- B5 in Hp. set_solver.
  - rewrite <- Eus in *. destruct (add_unseen e input (reverse sids) e1 us) as (e2 & E2 & I2 & C2 & K2 & R2);
      [done|done|done|done| |done|by subst|].
    { rewrite elem_of_reverse. intros [? _]%B4. done. }
    exists e2. split_and!; [done|done| |done|].
    + unfold clean. by rewrite C2.
    + eapply refines_all; [|exact R2]. intros o Ho. rewrite elem_of_cons.
      destruct (decide (cls (objectIdToSetId e) o = kUnassignedSetId)) as [|Hn]; [by left|right].
      apply (Hmet _ o); [done|by apply list_elem_of_filter].
Qed.

(** ** Whole mappings *)

Lemma combine_all ls : ∀ e,
  inv e → clean e → Forall NoDup ls → Forall (Forall (is_object (objectIdToSetId e))) ls →
  ∃ e', foldM combine e ls = Ok e' ∧ inv e' ∧ clean e' ∧ key e' = key e ∧
    length (objectIdToSetId e') = length (objectIdToSetId e) ∧
    ∀ o1 o2, is_object (objectIdToSetId e) o1 → is_object (objectIdToSetId e) o2 →
      (cls (objectIdToSetId e') o1 = cls (objectIdToSetId e') o2 ↔
       cls (objectIdToSetId e) o1 = cls (objectIdToSetId e) o2 ∧
       ∀ l, l ∈ ls → o1 ∈ l ↔ o2 ∈ l).
Proof.
  induction ls as [|l ls IH]; intros e He Hc Hnd Hin.
  - exists e. split_and!; try done. set_solver.
  - inversion_clear Hnd as [|? ? Hl Hnd']. inversion_clear Hin as [|? ? Hi Hin'].
    destruct (combine_spec e l He Hc Hl Hi) as (e1 & E1 & I1 & C1 & K1 & [L1 R1]).
    cbn [foldM]. rewrite E1. cbn [mbind result_bind].
    assert (∀ o, is_object (objectIdToSetId e1) o ↔ is_object (objectIdToSetId e) o) as Hob
      by (intros o; unfold is_object; by rewrite L1).
    destruct (IH e1 I1 C1 Hnd') as (e2 & E2 & I2 & C2 & K2 & L2 & R2).
    { eapply Forall_impl; [exact Hin'|]. intros x Hx. eapply Forall_impl; [exact Hx|].
      intros o. apply Hob. }
    exists e2. split_and!; [done|done|done|congruence|congruence|]. intros o1 o2 H1 H2.
    rewrite R2 by (by apply Hob). rewrite R1 by done. setoid_rewrite elem_of_cons.
    split; [intros [[E Hl0] Hls]|intros [E Hls]]; (split_and!; [done|..]).
    + intros x [-> |?]; auto.
    + apply Hls; auto.
    + intros x Hx. apply Hls; auto.
Qed.

Section mapping_lemmas.
Context {V : Type} `{EqDecision V}.

(** The groups of a prefix of the mapping. *)
Definition grouped (g : list (V * list Z)) (mapping : list (Z * V)) : Prop :=
  NoDup g.*1 ∧ (∀ v os, (v, os) ∈ g → os ≠ [] ∧ os = (filter (λ p, p.2 = v) mapping).*1) ∧
  ∀ o v, (o, v) ∈ mapping → v ∈ g.*1.

Lemma group_add_fst g (o : Z) v w :
  w ∈ (group_add g o v).*1 ↔ w ∈ (g : list (V * list Z)).*1 ∨ w = v.
Proof.
  induction g as [|[u os] g IH]; simpl; [set_solver|].
  case_decide; simpl; rewrite !elem_of_cons; [naive_solver|rewrite IH; naive_solver].
Qed.

Lemma group_add_NoDup g (o : Z) v : NoDup (g : list (V * list Z)).*1 → NoDup (group_add g o v).*1.
Proof.
  induction g as [|[u os] g IH]; simpl; intros Hg; [constructor; [set_solver|constructor]|].
  apply NoDup_cons in Hg as [Hu Hg]. case_decide; simpl; [by constructor|].
  apply NoDup_cons. split; [|auto]. rewrite group_add_fst. naive_solver.
Qed.

Lemma group_add_elem g (o : Z) v w os :
  NoDup (g : list (V * list Z)).*1 → (w, os) ∈ group_add g o v →
  (w ≠ v ∧ (w, os) ∈ g) ∨
  (w = v ∧ ((v ∉ g.*1 ∧ os = [o]) ∨ ∃ os0, (v, os0) ∈ g ∧ os = os0 ++ [o])).
Proof.
  induction g as [|[u us] g IH]; simpl; intros Hg Hin.
  - apply list_elem_of_singleton in Hin as [= -> ->]. right. split; [done|left; set_solver].
  - apply NoDup_cons in Hg as [Hu Hg]. case_decide as E.
    + subst u. apply elem_of_cons in Hin as [[= -> ->]|Hin].
      * right. split; [done|]. right. exists us. set_solver.
      * left. split; [|set_solver]. intros ->. apply Hu, list_elem_of_fmap. by exists (v, os).
    + apply elem_of_cons in Hin as [[= -> ->]|Hin]; [left; set_solver|].
      destruct (IH Hg Hin) as [[? ?]|[-> [[? ->]|(os0 & ? & ->)]]]; [left; set_solver| |].
      * right. split; [done|]. left. set_solver.
      * right. split; [done|]. right. exists os0. set_solver.
Qed.

Lemma eqSetsOf_grouped (mapping : list (Z * V)) : grouped (eqSetsOf mapping) mapping.
Proof.
  unfold eqSetsOf. induction mapping as [|[o v] mapping (I1 & I2 & I3)] using rev_ind;
    [split_and!; [constructor|set_solver|set_solver]|].
  rewrite foldl_snoc. split_and!; [by apply group_add_NoDup| |].
  - intros w os Hin. rewrite filter_app, fmap_app, filter_cons, filter_nil. simpl.
    apply group_add_elem in Hin as [[Hne Hin]|[-> [[Hn ->]|(os0 & Hin & ->)]]]; [..|done].
    + rewrite decide_False, app_nil_r by done. auto.
    + rewrite decide_True by done. simpl. split; [done|].
      destruct (filter (λ p, p.2 = v) mapping) as [|[o' v'] l] eqn:E; [done|].
      assert ((o', v') ∈ filter (λ p, p.2 = v) mapping) as Hp by (rewrite E; set_solver).
      apply list_elem_of_filter in Hp as [Hv Hp]. simpl in Hv. subst v'. by apply I3 in Hp.
    + rewrite decide_True by done. simpl. destruct (I2 v os0 Hin) as [_ <-].
      split; [by destruct os0|done].
  - intros o' v' Hin. rewrite group_add_fst. apply elem_of_app in Hin as [Hin|Hin]; [left; eauto|].
    right. set_solver.
Qed.

(** [mappingMerge] refines the partition by the values of the mapping: two
    objects stay together exactly when they were together and have the same
    value, or both have none. *)
Lemma mappingMerge_spec e (mapping : list (Z * V)) :
  inv e → clean e → NoDup mapping.*1 → Forall (is_object (objectIdToSetId e)) mapping.*1 →
  ∃ e', mappingMerge e mapping = Ok e' ∧ inv e' ∧ clean e' ∧ key e' = key e ∧
    length (objectIdToSetId e') = length (objectIdToSetId e) ∧
    ∀ o1 o2, is_object (objectIdToSetId e) o1 → is_object (objectIdToSetId e) o2 →
      (cls (objectIdToSetId e') o1 = cls (objectIdToSetId e') o2 ↔
       cls (objectIdToSetId e) o1 = cls (objectIdToSetId e) o2 ∧
       (list_to_map mapping : gmap Z V) !! o1 = (list_to_map mapping : gmap Z V) !! o2).
Proof.
  intros He Hc Hnd Hin. unfold mappingMerge.
  destruct (eqSetsOf_grouped mapping) as (G1 & G2 & G3).
  assert (∀ v o os, (v, os) ∈ eqSetsOf mapping →
    o ∈ os ↔ (list_to_map mapping : gmap Z V) !! o = Some v) as Hos.
  { intros v o os Hv. rewrite <- elem_of_list_to_map by done. destruct (G2 v os Hv) as [_ ->].
    rewrite list_elem_of_fmap. split.
    - intros ([o' v'] & -> & [E Hp]%list_elem_of_filter). simpl in *. by subst.
    - intros Hp. exists (o, v). split; [done|]. by apply list_elem_of_filter. }
  destruct (combine_all (eqSetsOf mapping).*2 e He Hc) as (e' & E & I' & C' & K' & L' & R').
  - apply Forall_fmap, Forall_forall. intros [v os] Hv. destruct (G2 v os Hv) as [_ ->]. simpl.
    apply NoDup_fmap_fst_filter. done.
  - apply Forall_fmap, Forall_forall. intros [v os] Hv. destruct (G2 v os Hv) as [_ ->]. simpl.
    apply Forall_forall. intros o (p & -> & [_ Hp]%list_elem_of_filter)%list_elem_of_fmap.
    apply (proj1 (Forall_forall _ _) Hin). by apply list_elem_of_fmap_2.
  - exists e'. split_and!; try done.
    { destruct mapping; [|done]. by injection E as <-. }
    intros o1 o2 H1 H2. rewrite R' by done. apply and_iff_compat_l. split.
    + intros Hl. apply option_eq. intros v.
      assert (∀ o, (list_to_map mapping : gmap Z V) !! o = Some v →
        ∃ os, (v, os) ∈ eqSetsOf mapping) as Hex.
      { intros o Ho%elem_of_list_to_map_2. apply G3, list_elem_of_fmap in Ho as ([v' os] & -> & ?).
        by exists os. }
      split; intros Ho; destruct (Hex _ Ho) as [os Hv]; apply (Hos v _ os Hv);
        apply (Hl os); (by apply (list_elem_of_fmap_2 snd) in Hv) || by apply (Hos v _ os Hv).
    + intros El os (p & -> & Hp)%list_elem_of_fmap. destruct p as [v os]. simpl.
      by rewrite !(Hos v _ os Hp), El.
Qed.
End mapping_lemmas.

(** ** The first and the last step *)

Lemma make_partition n k :
  inv (make n k) ∧ clean (make n k) ∧
  ∀ o1 o2, cls (objectIdToSetId (make n k)) o1 = cls (objectIdToSetId (make n k)) o2.
Proof.
  assert (∀ o, cls (replicate n kUnassignedSetId) o = kUnassignedSetId) as Hc.
  { intros o. unfold cls. destruct (_ !! _) eqn:E; [|done].
    by apply lookup_replicate in E as [-> _]. }
  split_and!; [split; simpl|constructor|].
  - intros i s [=].
  - intros o _. left. apply Hc.
  - done.
  - intros o1 o2. simpl. by rewrite !Hc.
Qed.

(** The loop of [finalize] after the objects [l0]. *)
Lemma finalize_loop m0 new l : ∀ l0 m (s : gset Z),
  NoDup (l0 ++ l) → Forall (is_object m0) l → length m = length m0 →
  (∀ o, 0 ≤ o → cls m o = if decide (o ∈ part m0 l0 kUnassignedSetId) then new else cls m0 o) →
  s = list_to_set (part m0 l0 kUnassignedSetId) →
  ∃ m' s', foldM (λ '(m, s) objectId,
      slot ← vec_get m objectId;
      if slot =? kUnassignedSetId
      then m' ← vec_set m objectId new; Ok (m', {[objectId]} ∪ s)
      else Ok (m, s)) (m, s) l = Ok (m', s') ∧ length m' = length m0 ∧
    (∀ o, 0 ≤ o → cls m' o =
       if decide (o ∈ part m0 (l0 ++ l) kUnassignedSetId) then new else cls m0 o) ∧
    s' = list_to_set (part m0 (l0 ++ l) kUnassignedSetId).
Proof.
  induction l as [|a l IH]; intros l0 m s Hnd Hin Hl Hm Hs; simpl.
  - exists m, s. by rewrite app_nil_r.
  - inversion_clear Hin as [|? ? Ha Hin'].
    assert (is_object m a) as Ha' by (unfold is_object; by rewrite Hl).
    assert (a ∉ l0) as Hal by (apply NoDup_app in Hnd as (_ & Hd & _); intros Hx; apply (Hd a Hx); set_solver).
    rewrite (vec_get_cls m a Ha'), Hm by apply Ha.
    rewrite decide_False by (rewrite list_elem_of_filter; tauto). cbn [mbind result_bind].
    assert (∀ o, o ∈ part m0 (l0 ++ [a]) kUnassignedSetId ↔
      o ∈ part m0 l0 kUnassignedSetId ∨ (o = a ∧ cls m0 a = kUnassignedSetId)) as Hp.
    { intros o. rewrite !list_elem_of_filter, elem_of_app, list_elem_of_singleton. naive_solver. }
    replace (l0 ++ a :: l) with ((l0 ++ [a]) ++ l) in * by (by rewrite <- app_assoc).
    destruct (Z.eqb_spec (cls m0 a) kUnassignedSetId) as [E|E].
    + rewrite vec_set_Ok by apply Ha'. cbn [mbind result_bind].
      apply IH; [done|done|by rewrite length_insert| |].
      * intros o Ho. rewrite cls_insert, Hm by done.
        destruct (decide (o = a)) as [->|Hne].
        -- by rewrite decide_True by (apply Hp; auto).
        -- destruct (decide (o ∈ part m0 l0 kUnassignedSetId)).
           ++ by rewrite decide_True by (apply Hp; auto).
           ++ rewrite decide_False by (rewrite Hp; tauto). done.
      * subst s. apply set_eq. intros o.
        rewrite elem_of_union, !elem_of_list_to_set, Hp, elem_of_singleton. tauto.
    + apply IH; [done|done|done| |].
      * intros o Ho. rewrite Hm by done.
        destruct (decide (o ∈ part m0 l0 kUnassignedSetId)).
        -- by rewrite decide_True by (apply Hp; auto).
        -- by rewrite decide_False by (rewrite Hp; tauto).
      * subst s. apply set_eq. intros o. rewrite !elem_of_list_to_set, Hp. tauto.
Qed.

(** [finalize] puts the objects in no set into one set and changes no other: the
    partition of the objects stays, and every object is in a set. *)
Lemma finalize_spec e objectIds :
  inv e → NoDup objectIds → (∀ o, o ∈ objectIds ↔ is_object (objectIdToSetId e) o) →
  ∃ e', finalize e objectIds = Ok e' ∧ inv e' ∧ key e' = key e ∧
    length (objectIdToSetId e') = length (objectIdToSetId e) ∧
    (∀ o1 o2, is_object (objectIdToSetId e) o1 → is_object (objectIdToSetId e) o2 →
       cls (objectIdToSetId e') o1 = cls (objectIdToSetId e') o2 ↔
       cls (objectIdToSetId e) o1 = cls (objectIdToSetId e) o2) ∧
    ∀ o, is_object (objectIdToSetId e) o →
      at_object e' o = Ok (cls (objectIdToSetId e') o).
Proof.
  intros He Hnd Hids. unfold finalize. rewrite (inv_seen e He).
  assert (⋃ sets e ⊆ list_to_set objectIds) as Hsub.
  { intros o [Ho _]%assigned_spec; [|done]. by apply elem_of_list_to_set, Hids. }
  assert (∀ e', length (objectIdToSetId e') = length (objectIdToSetId e) →
    (∀ o, is_object (objectIdToSetId e) o → cls (objectIdToSetId e') o ≠ kUnassignedSetId) →
    ∀ o, is_object (objectIdToSetId e) o → at_object e' o = Ok (cls (objectIdToSetId e') o)) as Hat.
  { intros e' El Hne o Ho. unfold at_object. rewrite vec_get_cls by (unfold is_object; by rewrite El).
    cbn [mbind result_bind]. by rewrite (proj2 (Z.eqb_neq _ _)) by auto. }
  set (us := part (objectIdToSetId e) objectIds kUnassignedSetId).
  assert (∀ o, o ∈ us ↔ is_object (objectIdToSetId e) o ∧ cls (objectIdToSetId e) o = kUnassignedSetId)
    as Hus by (intros o; unfold us; rewrite list_elem_of_filter, Hids; tauto).
  assert (⋃ sets e ∪ list_to_set us = list_to_set objectIds) as Hall.
  { apply set_eq. intros o. rewrite elem_of_union, !elem_of_list_to_set, Hus, Hids.
    rewrite assigned_spec by done. destruct (decide (cls (objectIdToSetId e) o = kUnassignedSetId)); tauto. }
  destruct (Z.eqb_spec (Z.of_nat (length objectIds) - Z.of_nat (base.size (⋃ sets e))) 0) as [E|E].
  - exists e. split_and!; try done. apply Hat; [done|]. intros o Ho Hc.
    assert (o ∈ ⋃ sets e) as [_ Ho']%assigned_spec; [|done|done].
    destruct (decide (o ∈ ⋃ sets e)) as [|Hn]; [done|]. exfalso.
    assert (base.size (⋃ sets e) < base.size (list_to_set objectIds : gset Z))%nat as Hlt.
    { apply subset_size. split; [done|]. intros Hsup. apply Hn, Hsup.
      by apply elem_of_list_to_set, Hids. }
    rewrite size_list_to_set in Hlt by done. lia.
  - destruct (finalize_loop (objectIdToSetId e) (Z.of_nat (size e)) objectIds [] (objectIdToSetId e) ∅)
      as (m' & s' & -> & L' & M' & ->); [done|by apply Forall_forall; intros o; apply Hids|done| |done|].
    { intros o _. by rewrite decide_False by (rewrite filter_nil; set_solver). }
    rewrite app_nil_l in *. fold us in M'. fold us. cbn [mbind result_bind].
    assert (∀ o, o ∈ us → cls (objectIdToSetId e) o = kUnassignedSetId) as Hu2 by (intros o; apply Hus).
    pose proof (other_sets e us kUnassignedSetId He Hu2) as Hos.
    assert ((.∖ list_to_set us) <$> sets e = sets e) as Esets.
    { apply list_eq. intros j. rewrite list_lookup_fmap. destruct (sets e !! j) as [s|] eqn:Ej; [|done].
      simpl. f_equal. apply (Hos j s Ej). unfold kUnassignedSetId. lia. }
    eexists. split; [done|]. split_and!; [|done|done| |].
    + rewrite <- Esets at 1. apply regroup_inv; try done.
      * intros Eu. rewrite Eu in Hall. apply E. rewrite <- (size_list_to_set (C:=gset Z) objectIds) by done.
        rewrite <- Hall. simpl. rewrite union_empty_r_L. lia.
      * apply Forall_forall. intros o. rewrite Hus. tauto.
      * intros j s Hj Hsub'. destruct (inv_set e He j s Hj) as [Hn _]. apply Hn.
        rewrite <- (Hos j s Hj) by (unfold kUnassignedSetId; lia). set_solver.
      * by rewrite Hall, size_list_to_set.
    + intros o1 o2 H1 H2. rewrite (proj2 (moved_refines e m' us kUnassignedSetId He ltac:(by apply Forall_forall; intros o; rewrite Hus; intros []) L' Hu2 M') o1 o2 H1 H2).
      rewrite !Hus. intuition congruence.
    + apply Hat; [done|]. simpl. intros o Ho. rewrite M' by apply Ho.
      case_decide as Hd; [unfold kUnassignedSetId; lia|]. intros Hc. by apply Hd, Hus.
Qed.
End EquivalenceSets.

(** ** ObjectDeduper

    The iterator keeps the sets already met in [lookup]; the rest of the
    underlying sequence starts with the current object. *)
Module ObjectDeduper.
Section deduper.
Context (es_at : Z → result Z).

(** The loop of [operator++]. *)
Fixpoint skip_seen (lookup : gset Z) (rest : list Z) : result (list Z) :=
  match rest with
  | [] => Ok []
  | o :: rest' =>
      eqSet ← es_at o;
      if decide (eqSet ∈ lookup) then skip_seen lookup rest' else Ok rest
  end.

Definition next (s : gset Z * list Z) : result (gset Z * list Z) :=
  match s.2 with
  | [] => Ok s
  | o :: rest =>
      eqSet ← es_at o;
      let lookup := {[eqSet]} ∪ s.1 in
      rest' ← skip_seen lookup rest;
      Ok (lookup, rest')
  end.

(** A range-for loop over the deduper; the sequence gets shorter with each
    [next], so its length is enough fuel. *)
Fixpoint iterate (fuel : nat) (s : gset Z * list Z) : result (list Z) :=
  match fuel, s.2 with
  | _, [] | O, _ => Ok []
  | S fuel, o :: _ => s' ← next s; os ← iterate fuel s'; Ok (o :: os)
  end.

Definition objects (l : list Z) : result (list Z) := iterate (length l) (∅, l).

Context (f : Z → Z).

Lemma skip_seen_spec lookup l :
  (∀ o, o ∈ l → es_at o = Ok (f o)) →
  ∃ pre l', skip_seen lookup l = Ok l' ∧ l = pre ++ l' ∧ (∀ o, o ∈ pre → f o ∈ lookup) ∧
    (∀ o, head l' = Some o → f o ∉ lookup).
Proof.
  induction l as [|a l IH]; intros Hf; simpl.
  - exists [], []. split_and!; (done || set_solver).
  - rewrite Hf by set_solver. cbn [mbind result_bind]. case_decide as Hd.
    + destruct IH as (pre & l' & E & -> & Hp & Hh); [set_solver|].
      exists (a :: pre), l'. split_and!; [done|done| |done]. set_solver.
    + exists [], (a :: l). split_and!; [done|done|set_solver|]. by intros o [= <-].
Qed.

Lemma dedup_iterate_spec fuel : ∀ lookup l,
  (length l ≤ fuel)%nat → (∀ o, o ∈ l → es_at o = Ok (f o)) →
  (∀ o, head l = Some o → f o ∉ lookup) →
  ∃ os, iterate fuel (lookup, l) = Ok os ∧ os ⊆+ l ∧ NoDup (f <$> os) ∧
    (∀ o, o ∈ os → f o ∉ lookup) ∧
    (∀ o, o ∈ l → f o ∈ lookup ∨ f o ∈ f <$> os).
Proof.
  induction fuel as [|fuel IH]; intros lookup l Hl Hf Hh.
  - destruct l; [|simpl in Hl; lia]. exists []. split_and!; (done || set_solver || constructor).
  - destruct l as [|a l]; [exists []; split_and!; (done || set_solver || constructor)|].
    cbn [iterate next snd fst]. rewrite Hf by set_solver. cbn [mbind result_bind].
    destruct (skip_seen_spec ({[f a]} ∪ lookup) l) as (pre & l' & -> & -> & Hp & Hh');
      [set_solver|]. cbn [mbind result_bind].
    destruct (IH ({[f a]} ∪ lookup) l') as (os & -> & Hs & Hnd & Hnew & Hcov);
      [simpl in Hl; rewrite length_app in Hl; lia|set_solver|done|].
    cbn [mbind result_bind]. exists (a :: os). split_and!.
    + done.
    + by apply submseteq_skip, submseteq_inserts_l.
    + rewrite fmap_cons. apply NoDup_cons. split; [|done].
      intros (o & E & Ho)%list_elem_of_fmap. apply (Hnew o Ho). rewrite E. set_solver.
    + intros o [-> |Ho]%elem_of_cons; [by apply Hh|]. specialize (Hnew o Ho). set_solver.
    + intros o [-> |[Ho|Ho]%elem_of_app]%elem_of_cons; rewrite fmap_cons.
      * right. set_solver.
      * specialize (Hp o Ho). set_solver.
      * destruct (Hcov o Ho); set_solver.
Qed.

(** One object of every equivalence set of the sequence, and only one. *)
Lemma objects_spec l :
  (∀ o, o ∈ l → es_at o = Ok (f o)) →
  ∃ os, objects l = Ok os ∧ os ⊆+ l ∧ NoDup (f <$> os) ∧
    ∀ o, o ∈ l → ∃ o', o' ∈ os ∧ f o' = f o.
Proof.
  intros Hf. destruct (dedup_iterate_spec (length l) ∅ l) as (os & E & Hs & Hnd & _ & Hcov);
    [done|done|set_solver|].
  exists os. split_and!; try done. intros o Ho.
  destruct (Hcov o Ho) as [?|(o' & -> & Ho')%list_elem_of_fmap]; [set_solver|eauto].
Qed.
End deduper.
End ObjectDeduper.
