(* ===== verification/Bits.v ===== *)
(** * Bit sets and the invalid-move filter

    [DynamicBitSet] (algopt_common), a set of indexes in 64-bit blocks with
    atomic updates, and [InvalidMoveFilter] (solver/moves), a bit set of objects
    per destination container. *)

From S2P Require Import Prelude.

Module DynamicBitSet.

Definition kBitsPerBlock : Z := 64.

Record t := mk { blocks : list Z; numBits : Z }.

Definition make (numBits : Z) : t :=
  mk (replicate (Z.to_nat (numBits / kBitsPerBlock
        + (if numBits mod kBitsPerBlock =? 0 then 0 else 1))) 0) numBits.

Definition singleBitMask (i : Z) : Z := Z.shiftl 1 (i mod kBitsPerBlock).

(** [FOLLY_SAFE_CHECK(i < numBits_)] and the block of bit [i]. *)
Definition block_of (s : t) (i : Z) : result Z :=
  if (0 <=? i) && (i <? numBits s) then vec_get (blocks s) (i / kBitsPerBlock)
  else Throw (safe_check_failed "bit index out of range").

Definition with_block (s : t) (i b : Z) : result t :=
  bs ← vec_set (blocks s) (i / kBitsPerBlock) b; Ok (mk bs (numBits s)).

Definition set (s : t) (i : Z) : result (t * bool) :=
  block ← block_of s i;
  if negb (Z.land block (singleBitMask i) =? 0) then Ok (s, false)
  else s' ← with_block s i (Z.lor block (singleBitMask i)); Ok (s', true).

Definition clear (s : t) (i : Z) : result t :=
  block ← block_of s i;
  with_block s i (Z.land block (u64 (Z.lnot (singleBitMask i)))).

Definition isSet (s : t) (i : Z) : result bool :=
  block ← block_of s i;
  Ok (negb (Z.land block (singleBitMask i) =? 0)).

(** [atomicSet] reads the block and, if the bit is not set in what it read,
    updates the block with [fetch_or]; other threads may run in between. *)
Definition atomicSet_load (s : t) (i : Z) : result bool := isSet s i.

Definition fetch_or (s : t) (i : Z) : result t :=
  block ← block_of s i; with_block s i (Z.lor block (singleBitMask i)).

Definition atomicSet (s : t) (i : Z) : result t :=
  b ← atomicSet_load s i;
  if (b : bool) then Ok s else fetch_or s i.

Definition sizes_match (s other : t) : result () :=
  if numBits s =? numBits other then Ok () else Throw (safe_check_failed "size mismatch").

Definition mergeFrom (s other : t) : result t :=
  _ ← sizes_match s other;
  Ok (mk (zip_with Z.lor (blocks s) (blocks other)) (numBits s)).

(** One iteration of the loop of [atomicOrFrom]. *)
Definition or_block (block sourceBlock : Z) : Z :=
  if sourceBlock =? 0 then block
  else if Z.land block sourceBlock =? sourceBlock then block
  else Z.lor block sourceBlock.

Definition atomicOrFrom (s other : t) : result t :=
  _ ← sizes_match s other;
  Ok (mk (zip_with or_block (blocks s) (blocks other)) (numBits s)).

Definition size (s : t) : Z := numBits s.

Definition empty (s : t) : bool := numBits s =? 0.

Definition any (s : t) : bool := existsb (λ block, negb (block =? 0)) (blocks s).

Definition numBlocks (s : t) : Z := Z.of_nat (length (blocks s)).

(** [std::countr_zero] of a nonzero block. *)
Fixpoint ctz_pos (p : positive) : Z :=
  match p with xO p => 1 + ctz_pos p | _ => 0 end.

Definition countr_zero (block : Z) : Z :=
  match block with Zpos p => ctz_pos p | _ => kBitsPerBlock end.

(** The while loop over one block; every iteration clears a bit, so 64 of them
    are enough. *)
Fixpoint visit_block (fuel : nat) (baseIndex block : Z) : list Z :=
  match fuel with
  | O => []
  | S fuel =>
      if block =? 0 then []
      else (baseIndex + countr_zero block)
             :: visit_block fuel baseIndex (Z.land block (u64 (block - 1)))
  end.

Fixpoint visit_blocks (baseIndex : Z) (bs : list Z) : list Z :=
  match bs with
  | [] => []
  | b :: bs => visit_block 64 baseIndex b ++ visit_blocks (baseIndex + kBitsPerBlock) bs
  end.

(** The indexes [forEachSetBit] calls its function with, in order. *)
Definition forEachSetBit (s : t) : list Z := visit_blocks 0 (blocks s).

(** ** The set a bit set stands for *)

Definition bit (s : t) (i : Z) : bool :=
  Z.testbit (default 0 (blocks s !! Z.to_nat (i / kBitsPerBlock))) (i mod kBitsPerBlock).

Record wf (s : t) : Prop := {
  wf_numBits : 0 ≤ numBits s;
  wf_length : Z.of_nat (length (blocks s)) * kBitsPerBlock < numBits s + kBitsPerBlock;
  wf_enough : numBits s ≤ Z.of_nat (length (blocks s)) * kBitsPerBlock;
  wf_blocks : Forall is_u64 (blocks s);
  wf_tail i : numBits s ≤ i → bit s i = false
}.

Lemma land_single x n : 0 ≤ n → negb (Z.land x (Z.shiftl 1 n) =? 0) = Z.testbit x n.
Proof.
  intros Hn. rewrite Z.shiftl_1_l. destruct (Z.testbit x n) eqn:E.
  - apply negb_true_iff, Z.eqb_neq. intros H.
    assert (Z.testbit (Z.land x (2 ^ n)) n = false) as Hb by (by rewrite H, Z.bits_0).
    by rewrite Z.land_spec, Z.pow2_bits_true, E in Hb.
  - apply negb_false_iff, Z.eqb_eq, Z.bits_inj'. intros k Hk.
    rewrite Z.land_spec, Z.bits_0, Z.pow2_bits_eqb by done.
    destruct (Z.eqb_spec n k) as [<-|]; [by rewrite E|by rewrite andb_false_r].
Qed.

Lemma block_index s i : wf s → 0 ≤ i < numBits s →
  0 ≤ i / kBitsPerBlock < Z.of_nat (length (blocks s)).
Proof.
  intros Hw Hi. pose proof (wf_enough s Hw). unfold kBitsPerBlock in *.
  split; [apply Z.div_pos; lia|]. apply Z.div_lt_upper_bound; lia.
Qed.

Lemma block_of_Ok s i : wf s → 0 ≤ i < numBits s →
  ∃ b, block_of s i = Ok b ∧ blocks s !! Z.to_nat (i / kBitsPerBlock) = Some b ∧ is_u64 b ∧
    bit s i = Z.testbit b (i mod kBitsPerBlock).
Proof.
  intros Hw Hi. unfold block_of. rewrite (proj2 (Z.leb_le _ _)), (proj2 (Z.ltb_lt _ _)) by lia.
  simpl. pose proof (block_index s i Hw Hi) as Hb.
  destruct (lookup_lt_is_Some_2 (blocks s) (Z.to_nat (i / kBitsPerBlock))) as [b E]; [lia|].
  exists b. split; [apply vec_get_Ok; split; [lia|done]|]. split; [done|]. split.
  - by apply (proj1 (Forall_lookup _ _) (wf_blocks s Hw) _ _ E).
  - unfold bit. by rewrite E.
Qed.

Lemma block_of_Throw s i : ¬ 0 ≤ i < numBits s →
  block_of s i = Throw (safe_check_failed "bit index out of range").
Proof.
  intros Hi. unfold block_of. destruct (Z.leb_spec 0 i), (Z.ltb_spec i (numBits s)); simpl; try done. lia.
Qed.

(** Replacing the block of bit [i] by [b'], which differs from the old block only
    in bit [i]. *)
Lemma with_block_spec s i b b' v :
  wf s → 0 ≤ i < numBits s → blocks s !! Z.to_nat (i / kBitsPerBlock) = Some b → is_u64 b' →
  (∀ n, 0 ≤ n < kBitsPerBlock →
     Z.testbit b' n = if n =? i mod kBitsPerBlock then v else Z.testbit b n) →
  ∃ s', with_block s i b' = Ok s' ∧ wf s' ∧ numBits s' = numBits s ∧
    ∀ j, 0 ≤ j → bit s' j = if j =? i then v else bit s j.
Proof.
  intros Hw Hi E Hb Hn. pose proof (block_index s i Hw Hi) as Hx. unfold with_block.
  rewrite vec_set_Ok by done. simpl. eexists. split; [done|].
  assert (∀ j, 0 ≤ j → bit (mk (<[Z.to_nat (i / kBitsPerBlock) := b']> (blocks s)) (numBits s)) j =
    if j =? i then v else bit s j) as Hbit.
  { intros j Hj. unfold bit. simpl.
    pose proof (Z.mod_pos_bound j kBitsPerBlock ltac:(done)) as Hjm.
    destruct (decide (j / kBitsPerBlock = i / kBitsPerBlock)) as [Eq|Ne].
    - rewrite Eq, list_lookup_insert_eq, E by lia. simpl. rewrite Hn by done.
      pose proof (Z.div_mod j kBitsPerBlock ltac:(done)). pose proof (Z.div_mod i kBitsPerBlock ltac:(done)).
      destruct (Z.eqb_spec (j mod kBitsPerBlock) (i mod kBitsPerBlock)), (Z.eqb_spec j i);
        try done; subst; try congruence; unfold kBitsPerBlock in *; lia.
    - rewrite list_lookup_insert_ne by (pose proof (Z.div_pos j kBitsPerBlock Hj ltac:(done)); lia).
      destruct (Z.eqb_spec j i); [by subst|done]. }
  split_and!; [|done|done]. destruct Hw as [W1 W2 W3 W4 W5].
  split; simpl; try (by rewrite ?length_insert).
  - by apply Forall_insert.
  - intros j Hj. rewrite Hbit by lia. destruct (Z.eqb_spec j i); [lia|]. by apply W5.
Qed.

Lemma u64_bits x n : 0 ≤ n < kBitsPerBlock → Z.testbit (u64 x) n = Z.testbit x n.
Proof. intros Hn. unfold u64, u64_mod. apply Z.mod_pow2_bits_low. unfold kBitsPerBlock in Hn. lia. Qed.

Lemma is_u64_lor x y : is_u64 x → is_u64 y → is_u64 (Z.lor x y).
Proof.
  intros [H1 H2] [H3 H4]. unfold is_u64. assert (0 ≤ Z.lor x y) as H0 by (by apply Z.lor_nonneg).
  split; [done|]. destruct (Z.eq_dec (Z.lor x y) 0) as [->|Hne]; [done|].
  unfold u64_mod in *. apply Z.log2_lt_pow2; [lia|].
  rewrite Z.log2_lor by done. destruct (Z.eq_dec x 0), (Z.eq_dec y 0); subst; try done.
  - rewrite Z.max_r by apply Z.log2_nonneg. apply Z.log2_lt_pow2; lia.
  - rewrite Z.max_l by apply Z.log2_nonneg. apply Z.log2_lt_pow2; lia.
  - apply Z.max_lub_lt; apply Z.log2_lt_pow2; lia.
Qed.

Lemma is_u64_land x y : is_u64 x → is_u64 y → is_u64 (Z.land x y).
Proof.
  intros [H1 H2] [H3 H4]. split; [apply Z.land_nonneg; auto|].
  destruct (Z.eq_dec (Z.land x y) 0) as [->|Hne]; [done|].
  assert (0 ≤ Z.land x y) by (apply Z.land_nonneg; auto).
  unfold u64_mod in *. apply Z.log2_lt_pow2; [lia|].
  pose proof (Z.log2_land x y H1 H3). assert (x ≠ 0) by (intros ->; by rewrite Z.land_0_l in Hne).
  assert (Z.log2 x < 64) by (apply Z.log2_lt_pow2; lia). lia.
Qed.

Lemma mask_u64 i : is_u64 (singleBitMask i).
Proof.
  unfold singleBitMask. rewrite Z.shiftl_1_l.
  pose proof (Z.mod_pos_bound i kBitsPerBlock ltac:(done)) as Hi. unfold kBitsPerBlock in *.
  split; [by apply Z.pow_nonneg|]. apply Z.pow_lt_mono_r; lia.
Qed.

Lemma mask_bit i n : 0 ≤ n →
  Z.testbit (singleBitMask i) n = (n =? i mod kBitsPerBlock).
Proof.
  intros Hn. unfold singleBitMask. rewrite Z.shiftl_1_l, Z.pow2_bits_eqb
    by (by apply Z.mod_pos_bound). by rewrite Z.eqb_sym.
Qed.

Lemma isSet_spec s i : wf s → 0 ≤ i < numBits s → isSet s i = Ok (bit s i).
Proof.
  intros Hw Hi. destruct (block_of_Ok s i Hw Hi) as (b & E & _ & _ & Hb). unfold isSet.
  rewrite E. simpl. unfold singleBitMask. rewrite land_single, Hb by (by apply Z.mod_pos_bound).
  done.
Qed.

Lemma fetch_or_spec s i : wf s → 0 ≤ i < numBits s →
  ∃ s', fetch_or s i = Ok s' ∧ wf s' ∧ numBits s' = numBits s ∧
    ∀ j, 0 ≤ j → bit s' j = if j =? i then true else bit s j.
Proof.
  intros Hw Hi. destruct (block_of_Ok s i Hw Hi) as (b & E & El & Hu & _). unfold fetch_or.
  rewrite E. cbn [mbind result_bind]. apply (with_block_spec s i b); [done|done|done| |].
  - apply is_u64_lor; [done|apply mask_u64].
  - intros n Hn. rewrite Z.lor_spec, mask_bit by lia. destruct (_ =? _); [apply orb_true_r|apply orb_false_r].
Qed.

Lemma set_spec s i : wf s → 0 ≤ i < numBits s →
  ∃ s', set s i = Ok (s', negb (bit s i)) ∧ wf s' ∧ numBits s' = numBits s ∧
    ∀ j, 0 ≤ j → bit s' j = if j =? i then true else bit s j.
Proof.
  intros Hw Hi. pose proof (isSet_spec s i Hw Hi) as Hs. pose proof (fetch_or_spec s i Hw Hi) as Hf.
  unfold isSet in Hs. unfold set, fetch_or in *.
  destruct (block_of s i) as [b|] eqn:Eb; [|done]. cbn [mbind result_bind] in *.
  injection Hs as Hs. rewrite Hs. destruct (bit s i) eqn:Ebit.
  - exists s. split_and!; try done. intros j Hj. destruct (Z.eqb_spec j i); [by subst|done].
  - destruct Hf as (s' & -> & Hf). cbn [mbind result_bind]. eauto.
Qed.

Lemma atomicSet_spec s i : wf s → 0 ≤ i < numBits s →
  ∃ s', atomicSet s i = Ok s' ∧ wf s' ∧ numBits s' = numBits s ∧
    ∀ j, 0 ≤ j → bit s' j = if j =? i then true else bit s j.
Proof.
  intros Hw Hi. unfold atomicSet, atomicSet_load. rewrite (isSet_spec s i Hw Hi).
  cbn [mbind result_bind]. destruct (bit s i) eqn:Eb; [|by apply fetch_or_spec].
  exists s. split_and!; try done. intros j Hj. destruct (Z.eqb_spec j i); [by subst|done].
Qed.

Lemma clear_spec s i : wf s → 0 ≤ i < numBits s →
  ∃ s', clear s i = Ok s' ∧ wf s' ∧ numBits s' = numBits s ∧
    ∀ j, 0 ≤ j → bit s' j = if j =? i then false else bit s j.
Proof.
  intros Hw Hi. destruct (block_of_Ok s i Hw Hi) as (b & E & El & Hu & _). unfold clear.
  rewrite E. cbn [mbind result_bind]. apply (with_block_spec s i b); [done|done|done| |].
  - apply is_u64_land; [done|apply u64_range].
  - intros n Hn. rewrite Z.land_spec, u64_bits, Z.lnot_spec, mask_bit by lia.
    destruct (_ =? _); [apply andb_false_r|apply andb_true_r].
Qed.

(** ** Whole-set operations *)

Lemma or_block_lor b src : or_block b src = Z.lor b src.
Proof.
  unfold or_block. destruct (Z.eqb_spec src 0) as [->|]; [by rewrite Z.lor_0_r|].
  destruct (Z.eqb_spec (Z.land b src) src) as [E|]; [|done].
  rewrite <- E at 1. apply Z.bits_inj'. intros k Hk. rewrite Z.lor_spec, Z.land_spec.
  by destruct (Z.testbit b k), (Z.testbit src k).
Qed.

Lemma same_blocks s o : wf s → wf o → numBits s = numBits o → length (blocks s) = length (blocks o).
Proof. intros [_ A1 A2 _ _] [_ B1 B2 _ _] E. unfold kBitsPerBlock in *. lia. Qed.

Lemma mergeFrom_spec s o : wf s → wf o → numBits s = numBits o →
  ∃ s', mergeFrom s o = Ok s' ∧ atomicOrFrom s o = Ok s' ∧ wf s' ∧ numBits s' = numBits s ∧
    ∀ j, bit s' j = bit s j || bit o j.
Proof.
  intros Hs Ho E. pose proof (same_blocks s o Hs Ho E) as El.
  unfold mergeFrom, atomicOrFrom, sizes_match. rewrite E, Z.eqb_refl. cbn [mbind result_bind].
  rewrite <- E. eexists. split; [done|]. split.
  { do 2 f_equal. apply zip_with_ext; [|done|done]. intros. apply or_block_lor. }
  assert (∀ j, bit (mk (zip_with Z.lor (blocks s) (blocks o)) (numBits s)) j = bit s j || bit o j) as Hb.
  { intros j. unfold bit. simpl. rewrite lookup_zip_with.
    set (k := Z.to_nat _). destruct (blocks s !! k) as [b|] eqn:E1, (blocks o !! k) as [b'|] eqn:E2; simpl.
    - apply Z.lor_spec.
    - apply lookup_lt_Some in E1. apply lookup_ge_None in E2. lia.
    - apply lookup_lt_Some in E2. apply lookup_ge_None in E1. lia.
    - by rewrite Z.bits_0. }
  split; [|split; [done|exact Hb]]. destruct Hs as [A1 A2 A3 A4 A5], Ho as [B1 B2 B3 B4 B5].
  split; simpl; rewrite ?length_zip_with; try done; [lia|lia| |].
  - apply Forall_lookup_2. intros i x (b & b' & -> & Hb1 & Hb2)%lookup_zip_with_Some.
    apply is_u64_lor; [by apply (proj1 (Forall_lookup _ _) A4 i)|by apply (proj1 (Forall_lookup _ _) B4 i)].
  - intros i Hi. rewrite Hb, A5, B5 by lia. done.
Qed.

Lemma make_bits n : 0 ≤ n → wf (make n) ∧ numBits (make n) = n ∧ ∀ j, bit (make n) j = false.
Proof.
  intros Hn. assert (∀ j, bit (make n) j = false) as Hb.
  { intros j. unfold bit. destruct (_ !! _) eqn:E; simpl; [|by rewrite Z.bits_0].
    apply lookup_replicate in E as [-> _]. by rewrite Z.bits_0. }
  split_and!; [|done|done]. unfold make.
  pose proof (Z.div_mod n kBitsPerBlock ltac:(done)). pose proof (Z.mod_pos_bound n kBitsPerBlock ltac:(done)).
  pose proof (Z.div_pos n kBitsPerBlock Hn ltac:(done)). unfold kBitsPerBlock in *.
  split; simpl; rewrite ?length_replicate; try done.
  - unfold kBitsPerBlock. destruct (Z.eqb_spec (n mod 64) 0); lia.
  - unfold kBitsPerBlock. destruct (Z.eqb_spec (n mod 64) 0); lia.
  - by apply Forall_replicate.
Qed.

(** ** The order of the visits *)

Lemma ctz_pos_spec p : ∃ q, 0 ≤ q ∧ 0 ≤ ctz_pos p ∧ Zpos p = 2 ^ ctz_pos p * (2 * q + 1).
Proof.
  induction p as [p IH|p (q & Hq & Hc & E)|]; simpl.
  - exists (Zpos p). lia.
  - exists q. split_and!; [done|lia|]. rewrite Z.pow_add_r by lia. lia.
  - exists 0. lia.
Qed.

(** The lowest bit set and the effect of [block &= block - 1]. *)
Lemma lowest_bit b : is_u64 b → b ≠ 0 →
  let c := countr_zero b in
  0 ≤ c < kBitsPerBlock ∧ Z.testbit b c = true ∧ (∀ n, 0 ≤ n < c → Z.testbit b n = false) ∧
  is_u64 (Z.land b (u64 (b - 1))) ∧
  ∀ n, 0 ≤ n < kBitsPerBlock →
    Z.testbit (Z.land b (u64 (b - 1))) n = (c <? n) && Z.testbit b n.
Proof.
  intros Hb Hne. destruct b as [|p|p]; [done| |by destruct Hb]. simpl.
  destruct (ctz_pos_spec p) as (q & Hq & Hc & E). set (c := ctz_pos p) in *. set (x := Zpos p) in *.
  assert (0 < 2 ^ c) as Hp by (by apply Z.pow_pos_nonneg).
  assert (2 ^ (c + 1) = 2 * 2 ^ c) as Hp2 by (rewrite Z.pow_add_r by lia; lia).
  assert (c < 64) as Hc64.
  { apply (Z.pow_lt_mono_r_iff 2); [lia|lia|]. destruct Hb as [_ Hb]. unfold u64_mod in Hb. nia. }
  assert (x / 2 ^ (c + 1) = q) as Hd1 by (symmetry; apply (Z.div_unique _ _ q (2 ^ c)); lia).
  assert ((x - 1) / 2 ^ (c + 1) = q) as Hd2
    by (symmetry; apply (Z.div_unique _ _ q (2 ^ c - 1)); lia).
  assert (∀ n, 0 ≤ n < c → Z.testbit x n = false) as Hlow.
  { intros n Hn. rewrite E, Z.mul_comm, Z.mul_pow2_bits_low by lia. done. }
  assert (Z.testbit x c = true) as Hbit.
  { rewrite E, Z.mul_comm, Z.mul_pow2_bits, Z.sub_diag by lia. apply Z.testbit_odd_0. }
  assert (Z.testbit (x - 1) c = false) as Hbit'.
  { rewrite Z.testbit_odd, Z.shiftr_div_pow2 by done.
    replace ((x - 1) / 2 ^ c) with (2 * q); [by rewrite Z.odd_mul|].
    apply (Z.div_unique _ _ _ (2 ^ c - 1)); lia. }
  assert (∀ y n, y / 2 ^ (c + 1) = q → c < n → Z.testbit y n = Z.testbit q (n - (c + 1))) as Hhigh.
  { intros y n <- Hn. rewrite Z.div_pow2_bits by lia. f_equal. lia. }
  unfold kBitsPerBlock. split; [lia|]. split; [done|]. split; [done|]. split.
  { apply is_u64_land; [done|apply u64_range]. }
  intros n Hn. rewrite Z.land_spec, u64_bits by done.
  destruct (Z.ltb_spec c n) as [Hlt|Hge]; simpl.
  - rewrite (Hhigh x n Hd1 Hlt), (Hhigh (x - 1) n Hd2 Hlt). apply andb_diag.
  - destruct (Z.eq_dec n c) as [->|]; [by rewrite Hbit', andb_false_r|].
    by rewrite Hlow by lia.
Qed.

(** The bits of a block visited from bit [k] on. *)
Lemma visit_block_spec fuel : ∀ base b k,
  is_u64 b → 0 ≤ k ≤ kBitsPerBlock → kBitsPerBlock - k ≤ Z.of_nat fuel →
  (∀ n, 0 ≤ n < k → Z.testbit b n = false) →
  visit_block fuel base b =
    (λ n, base + n) <$> filter (λ n, Z.testbit b n = true) (seqZ k (kBitsPerBlock - k)).
Proof.
  induction fuel as [|fuel IH]; intros base b k Hb Hk Hf Hz; simpl.
  - by replace (kBitsPerBlock - k) with 0 by lia.
  - assert (∀ l, (∀ n, n ∈ l → Z.testbit b n = false) →
      filter (λ n, Z.testbit b n = true) l = []) as Hnone.
    { clear. intros l Hl. apply filter_none. intros n Hn. by rewrite Hl. }
    destruct (Z.eqb_spec b 0) as [->|Hne].
    + rewrite Hnone; [done|]. intros. apply Z.bits_0.
    + destruct (lowest_bit b Hb Hne) as (Hc & Hbit & Hlow & Hu & Hnext).
      set (c := countr_zero b) in *.
      assert (k ≤ c) as Hkc by (destruct (Z.le_gt_cases k c); [done|]; rewrite Hz in Hbit by lia; done).
      rewrite (IH base _ (c + 1)); [|done|lia|lia|].
      2: { intros n Hn. rewrite Hnext by lia. by rewrite (proj2 (Z.ltb_ge _ _)) by lia. }
      replace (kBitsPerBlock - k) with ((c - k) + (1 + (kBitsPerBlock - (c + 1)))) by lia.
      rewrite !seqZ_app by lia. rewrite !filter_app, Hnone, app_nil_l.
      2: { intros n Hn%elem_of_seqZ. apply Hlow. lia. }
      replace (k + (c - k)) with c by lia. rewrite fmap_app.
      change (seqZ c 1) with [0 + c]. rewrite Z.add_0_l, filter_cons_True by done. simpl.
      f_equal. f_equal. apply filter_ext_in. intros n Hn%elem_of_seqZ.
      rewrite Hnext by lia. by rewrite (proj2 (Z.ltb_lt _ _)) by lia.
Qed.

Lemma visit_blocks_spec bs : ∀ base,
  Forall is_u64 bs →
  visit_blocks base bs =
    (λ i, base + i) <$> filter (λ i, bit (mk bs 0) i = true)
      (seqZ 0 (kBitsPerBlock * Z.of_nat (length bs))).
Proof.
  induction bs as [|b bs IH]; intros base Hb; [done|].
  inversion_clear Hb as [|? ? H1 H2]. cbn [visit_blocks length].
  rewrite (visit_block_spec 64 base b 0) by (unfold kBitsPerBlock; (done || lia || intros; lia)).
  rewrite IH by done.
  replace (kBitsPerBlock * Z.of_nat (S (length bs)))
    with (kBitsPerBlock + kBitsPerBlock * Z.of_nat (length bs)) by lia.
  rewrite seqZ_app by (unfold kBitsPerBlock; lia). rewrite filter_app, fmap_app, Z.add_0_l, Z.sub_0_r.
  rewrite (filter_ext_in (λ i, bit (mk (b :: bs) 0) i = true) (λ n, Z.testbit b n = true)
    (seqZ 0 kBitsPerBlock)).
  2: { intros n Hn%elem_of_seqZ. unfold bit. simpl. rewrite Z.div_small, Z.mod_small by lia. done. }
  apply (f_equal2 app); [done|].
  replace (seqZ kBitsPerBlock (kBitsPerBlock * Z.of_nat (length bs))) with
    (Z.add kBitsPerBlock <$> seqZ 0 (kBitsPerBlock * Z.of_nat (length bs)))
    by (by rewrite fmap_add_seqZ, Z.add_0_r).
  rewrite filter_of_fmap.
  rewrite <- list_fmap_compose.
  rewrite (filter_ext_in (λ i, bit (mk (b :: bs) 0) (kBitsPerBlock + i) = true)
    (λ i, bit (mk bs 0) i = true)).
  - apply list_fmap_ext. intros _ i _. simpl. lia.
  - intros i Hi%elem_of_seqZ. unfold bit. cbn [blocks].
    replace (kBitsPerBlock + i) with (i + 1 * kBitsPerBlock) by lia.
    rewrite Z.div_add, Z.mod_add by done.
    pose proof (Z.div_pos i kBitsPerBlock ltac:(lia) ltac:(done)).
    rewrite Z2Nat.inj_add, Nat.add_1_r by lia. done.
Qed.

(** [forEachSetBit] visits exactly the bits that are set, each once, in ascending
    order. *)
Lemma forEachSetBit_spec s : wf s →
  forEachSetBit s = filter (λ i, bit s i = true) (seqZ 0 (numBits s)).
Proof.
  intros Hw. unfold forEachSetBit. rewrite visit_blocks_spec by apply Hw.
  rewrite (list_fmap_ext (λ i, 0 + i) id) by (intros; simpl; lia). rewrite list_fmap_id.
  pose proof (wf_enough s Hw) as He. pose proof (wf_numBits s Hw) as H0.
  replace (kBitsPerBlock * Z.of_nat (length (blocks s))) with
    (numBits s + (kBitsPerBlock * Z.of_nat (length (blocks s)) - numBits s)) by lia.
  rewrite seqZ_app by lia. rewrite filter_app.
  rewrite (filter_none _ (seqZ (0 + numBits s) _)), app_nil_r; [done|].
  intros i Hi%elem_of_seqZ E. change (bit (mk (blocks s) 0) i) with (bit s i) in E.
  rewrite (wf_tail s Hw) in E by lia. done.
Qed.

Lemma u64_nonzero_bit b : is_u64 b → b ≠ 0 → ∃ n, 0 ≤ n < kBitsPerBlock ∧ Z.testbit b n = true.
Proof. intros Hb Hn. destruct (lowest_bit b Hb Hn) as (H1 & H2 & _). eauto. Qed.

Lemma any_spec s : wf s → any s = true ↔ ∃ i, 0 ≤ i < numBits s ∧ bit s i = true.
Proof.
  intros Hw. unfold any. rewrite existsb_exists. split.
  - intros (b & (k & Hk)%list_elem_of_In%list_elem_of_lookup & Hb). bool_to_prop.
    pose proof (proj1 (Forall_lookup _ _) (wf_blocks s Hw) _ _ Hk) as Hu.
    destruct (u64_nonzero_bit b Hu Hb) as (n & Hn & Ht).
    assert (bit s (Z.of_nat k * kBitsPerBlock + n) = true) as Hbit.
    { unfold bit. rewrite Z.div_add_l, Z.div_small, Z.add_0_r, Nat2Z.id, Hk by (done || lia).
      rewrite Z.add_comm, Z.mod_add, Z.mod_small by (done || lia). done. }
    exists (Z.of_nat k * kBitsPerBlock + n). split; [|done]. split; [unfold kBitsPerBlock in *; lia|].
    destruct (Z.lt_ge_cases (Z.of_nat k * kBitsPerBlock + n) (numBits s)); [done|].
    by rewrite (wf_tail s Hw) in Hbit by done.
  - intros (i & Hi & Hb). destruct (block_of_Ok s i Hw Hi) as (b & _ & E & _ & Hbit).
    exists b. split; [by apply list_elem_of_In; eapply list_elem_of_lookup_2|].
    apply negb_true_iff, Z.eqb_neq. intros ->. rewrite Hb, Z.bits_0 in Hbit. done.
Qed.

(** ** Concurrent marking

    Threads call [atomicSet]; each call is a load, and a [fetch_or] if the bit was
    not set in the value loaded.  The state holds the bits still to be set by the
    calls under way: not started, or between load and [fetch_or]. *)
Inductive call := Pending (i : Z) | Loaded (i : Z).

Definition target (c : call) : Z := match c with Pending i | Loaded i => i end.

Inductive atomic_step : t * list call → t * list call → Prop :=
  | step_load_set s c1 c2 i : atomicSet_load s i = Ok true →
      atomic_step (s, c1 ++ Pending i :: c2) (s, c1 ++ c2)
  | step_load_unset s c1 c2 i : atomicSet_load s i = Ok false →
      atomic_step (s, c1 ++ Pending i :: c2) (s, c1 ++ Loaded i :: c2)
  | step_fetch_or s s' c1 c2 i : fetch_or s i = Ok s' →
      atomic_step (s, c1 ++ Loaded i :: c2) (s', c1 ++ c2).

(** What never changes: the bits set together with the bits still to be set. *)
Definition reaches (st : t * list call) (j : Z) : Prop :=
  bit st.1 j = true ∨ j ∈ target <$> st.2.

Definition callable (st : t * list call) : Prop :=
  wf st.1 ∧ Forall (λ c, 0 ≤ target c < numBits st.1) st.2.

Lemma atomic_step_inv st st' : callable st → atomic_step st st' →
  callable st' ∧ numBits st'.1 = numBits st.1 ∧ ∀ j, 0 ≤ j → reaches st j ↔ reaches st' j.
Proof.
  intros [Hw Hc] Hs. destruct Hs as [s c1 c2 i E|s c1 c2 i E|s s' c1 c2 i E];
    unfold callable, reaches in *; simpl in *;
    apply Forall_app in Hc as [Hc1 Hc2]; inversion_clear Hc2 as [|? ? Hi Hc2']; simpl in Hi.
  - unfold atomicSet_load in E. rewrite isSet_spec in E by done. injection E as E.
    split; [split; [done|by apply Forall_app]|]. split; [done|]. intros j _.
    rewrite !fmap_app. simpl. set_solver.
  - split; [split; [done|apply Forall_app; split; [done|by constructor]]|]. split; [done|].
    intros j _. by rewrite !fmap_app.
  - destruct (fetch_or_spec s i Hw Hi) as (s1 & E1 & W1 & N1 & B1). rewrite E in E1.
    injection E1 as <-. split; [split; [done|rewrite N1; by apply Forall_app]|].
    split; [done|]. intros j Hj. rewrite B1 by done. rewrite !fmap_app. simpl.
    destruct (Z.eqb_spec j i) as [->|Hne]; set_solver.
Qed.

Lemma atomic_steps_inv st st' : rtc atomic_step st st' → callable st →
  callable st' ∧ numBits st'.1 = numBits st.1 ∧ ∀ j, 0 ≤ j → reaches st j ↔ reaches st' j.
Proof.
  induction 1 as [st|st st1 st2 Hs Hr IH]; intros Hc; [by split; [|split]|].
  destruct (atomic_step_inv st st1 Hc Hs) as (C1 & N1 & R1).
  destruct (IH C1) as (C2 & N2 & R2). split; [done|]. split; [congruence|].
  intros j Hj. by rewrite R1, R2.
Qed.

(** However the calls interleave, once all have returned exactly their bits and
    the bits set before are set. *)
Lemma atomic_marking s calls s' :
  callable (s, calls) → rtc atomic_step (s, calls) (s', []) →
  wf s' ∧ numBits s' = numBits s ∧
  ∀ j, 0 ≤ j → bit s' j = true ↔ bit s j = true ∨ j ∈ target <$> calls.
Proof.
  intros Hc Hr. destruct (atomic_steps_inv _ _ Hr Hc) as (H1 & H2 & H3).
  split; [apply H1|]. split; [done|]. intros j Hj. specialize (H3 j Hj). unfold reaches in H3.
  simpl in H3. rewrite H3. set_solver.
Qed.
End DynamicBitSet.

(** ** InvalidMoveFilter *)
Module InvalidMoveFilter.

Record t := mk {
  containerToInvalidObjects : list (option DynamicBitSet.t);
  numObjects : Z;
  isEmpty : bool
}.

Definition make (numObjects numContainers : Z) : t :=
  mk (replicate (Z.to_nat numContainers) None) numObjects true.

(** [at(container)] *)
Definition row_at (f : t) (c : Z) : result (option DynamicBitSet.t) :=
  at_ (if c <? 0 then None else containerToInvalidObjects f !! Z.to_nat c).

(** [try_emplace(numObjects_)] *)
Definition emplaced (f : t) (row : option DynamicBitSet.t) : DynamicBitSet.t :=
  default (DynamicBitSet.make (numObjects f)) row.

Definition set_row (f : t) (c : Z) (row : DynamicBitSet.t) : t :=
  mk (<[Z.to_nat c := Some row]> (containerToInvalidObjects f)) (numObjects f) false.

Definition markInvalid (f : t) (objectIds : list Z) (containerId : Z) : result t :=
  match objectIds with
  | [] => Ok f
  | _ =>
      row ← row_at f containerId;
      row' ← foldM DynamicBitSet.atomicSet (emplaced f row) objectIds;
      Ok (set_row f containerId row')
  end.

(** The overload that takes a bit set of objects. *)
Definition markInvalidBits (f : t) (objectIds : DynamicBitSet.t) (containerId : Z) : result t :=
  if negb (DynamicBitSet.any objectIds) then Ok f
  else
    row ← row_at f containerId;
    row' ← DynamicBitSet.atomicOrFrom (emplaced f row) objectIds;
    Ok (set_row f containerId row').

Fixpoint merge_rows (f : t) (rows others : list (option DynamicBitSet.t))
    : result (list (option DynamicBitSet.t)) :=
  match rows, others with
  | row :: rows, other :: others =>
      row' ← (match other with
              | None => Ok row
              | Some o => r ← DynamicBitSet.mergeFrom (emplaced f row) o; Ok (Some r)
              end);
      rows' ← merge_rows f rows others;
      Ok (row' :: rows')
  | _, _ => Ok rows
  end.

Definition mergeFrom (f other : t) : result t :=
  if isEmpty other then Ok f
  else if negb (length (containerToInvalidObjects other) =? length (containerToInvalidObjects f))%nat
          || negb (numObjects other =? numObjects f)
  then Throw (invalid_argument "InvalidMoveFilter::mergeFrom dimension mismatch")
  else
    rows ← merge_rows f (containerToInvalidObjects f) (containerToInvalidObjects other);
    Ok (mk rows (numObjects f) false).

Definition isMarkedInvalid (f : t) (objectId containerId : Z) : result bool :=
  if isEmpty f then Ok false
  else
    row ← vec_get (containerToInvalidObjects f) containerId;
    match row with Some r => DynamicBitSet.isSet r objectId | None => Ok false end.

(** [std::any_of] over a bundle. *)
Fixpoint any_set (r : DynamicBitSet.t) (objectBundle : list Z) : result bool :=
  match objectBundle with
  | [] => Ok false
  | o :: os => b ← DynamicBitSet.isSet r o; if (b : bool) then Ok true else any_set r os
  end.

Definition anyMarkedInvalid (f : t) (objectBundle : list Z) (containerId : Z) : result bool :=
  if isEmpty f then Ok false
  else
    row ← vec_get (containerToInvalidObjects f) containerId;
    match row with Some r => any_set r objectBundle | None => Ok false end.

(** [filter] is a possibly null pointer. *)
Definition isMoveInvalid (filter : option t) (objectId destContainer : Z) : result bool :=
  match filter with Some f => isMarkedInvalid f objectId destContainer | None => Ok false end.

Definition anyMoveInvalid (filter : option t) (objectBundle : list Z) (destContainer : Z)
    : result bool :=
  match filter with Some f => anyMarkedInvalid f objectBundle destContainer | None => Ok false end.

(** ** The pairs a filter marks *)

Definition marked (f : t) (o c : Z) : Prop :=
  ∃ r, containerToInvalidObjects f !! Z.to_nat c = Some (Some r) ∧ DynamicBitSet.bit r o = true.

Definition in_range (f : t) (o c : Z) : Prop :=
  0 ≤ o < numObjects f ∧ 0 ≤ c < Z.of_nat (length (containerToInvalidObjects f)).

Record inv (f : t) : Prop := {
  inv_numObjects : 0 ≤ numObjects f;
  inv_rows i r : containerToInvalidObjects f !! i = Some (Some r) →
    DynamicBitSet.wf r ∧ DynamicBitSet.numBits r = numObjects f;
  inv_empty : isEmpty f = true → ∀ i r, containerToInvalidObjects f !! i ≠ Some (Some r)
}.

Lemma filter_make_inv nO nC : 0 ≤ nO → 0 ≤ nC →
  inv (make nO nC) ∧ numObjects (make nO nC) = nO ∧
  Z.of_nat (length (containerToInvalidObjects (make nO nC))) = nC ∧
  ∀ o c, ¬ marked (make nO nC) o c.
Proof.
  intros HO HC. assert (∀ i r, containerToInvalidObjects (make nO nC) !! i ≠ Some (Some r)) as Hn
    by (intros i r [? _]%lookup_replicate_1; done).
  split; [split; [done|by intros i r ?%Hn|done]|]. split; [done|]. split.
  - simpl. rewrite length_replicate. lia.
  - by intros o c (r & ?%Hn & _).
Qed.

Lemma emplaced_wf f row : inv f →
  (∀ r, row = Some r → ∃ i : nat, containerToInvalidObjects f !! i = Some (Some r)) →
  DynamicBitSet.wf (emplaced f row) ∧ DynamicBitSet.numBits (emplaced f row) = numObjects f ∧
  ∀ o, DynamicBitSet.bit (emplaced f row) o = true ↔ ∃ r, row = Some r ∧ DynamicBitSet.bit r o = true.
Proof.
  intros Hf Hr. destruct row as [r|]; simpl.
  - destruct (Hr r eq_refl) as [i Hi]. destruct (inv_rows f Hf i r Hi). split_and!; [done|done|].
    naive_solver.
  - destruct (DynamicBitSet.make_bits (numObjects f) (inv_numObjects f Hf)) as (H1 & H2 & H3).
    split_and!; [done|done|]. intros o. rewrite H3. naive_solver.
Qed.

(** Replacing the row of one container. *)
Lemma set_row_spec f c row : inv f → 0 ≤ c < Z.of_nat (length (containerToInvalidObjects f)) →
  DynamicBitSet.wf row → DynamicBitSet.numBits row = numObjects f →
  inv (set_row f c row) ∧
  ∀ o c', 0 ≤ c' → marked (set_row f c row) o c' ↔
    if decide (c' = c) then DynamicBitSet.bit row o = true else marked f o c'.
Proof.
  intros Hf Hc Hw Hn. split.
  - split; simpl; [apply Hf| |done]. intros i r Hi.
    apply list_lookup_insert_Some in Hi as [(_ & [= <-] & _)|[_ Hi]]; [done|].
    by apply (inv_rows f Hf i).
  - intros o c' Hc'. unfold marked. simpl. case_decide as E.
    + subst. rewrite list_lookup_insert_eq by lia. naive_solver.
    + by rewrite list_lookup_insert_ne by lia.
Qed.

Lemma row_at_Ok f c : 0 ≤ c < Z.of_nat (length (containerToInvalidObjects f)) →
  ∃ row, row_at f c = Ok row ∧ containerToInvalidObjects f !! Z.to_nat c = Some row.
Proof.
  intros Hc. unfold row_at. rewrite (proj2 (Z.ltb_ge _ _)) by lia.
  destruct (lookup_lt_is_Some_2 (containerToInvalidObjects f) (Z.to_nat c)) as [row ->]; [lia|].
  by exists row.
Qed.

Lemma atomicSets_spec os : ∀ s, DynamicBitSet.wf s →
  Forall (λ o, 0 ≤ o < DynamicBitSet.numBits s) os →
  ∃ s', foldM DynamicBitSet.atomicSet s os = Ok s' ∧ DynamicBitSet.wf s' ∧
    DynamicBitSet.numBits s' = DynamicBitSet.numBits s ∧
    ∀ j, 0 ≤ j → DynamicBitSet.bit s' j = true ↔ DynamicBitSet.bit s j = true ∨ j ∈ os.
Proof.
  induction os as [|o os IH]; intros s Hw Ho; simpl.
  - exists s. split; [done|]. split; [done|]. split; [done|]. set_solver.
  - inversion_clear Ho as [|? ? H1 H2].
    destruct (DynamicBitSet.atomicSet_spec s o Hw H1) as (s1 & -> & W1 & N1 & B1).
    cbn [mbind result_bind]. rewrite <- N1 in H2. destruct (IH s1 W1 H2) as (s2 & -> & W2 & N2 & B2).
    exists s2. split; [done|]. split; [done|]. split; [congruence|]. intros j Hj.
    rewrite B2, B1 by done. destruct (Z.eqb_spec j o) as [->|]; set_solver.
Qed.

(** [markInvalid] adds exactly the pairs of its arguments. *)
Lemma markInvalid_spec f os c : inv f →
  Forall (λ o, in_range f o c) os →
  ∃ f', markInvalid f os c = Ok f' ∧ inv f' ∧ numObjects f' = numObjects f ∧
    length (containerToInvalidObjects f') = length (containerToInvalidObjects f) ∧
    ∀ o c', 0 ≤ o → 0 ≤ c' → marked f' o c' ↔ marked f o c' ∨ (c' = c ∧ o ∈ os).
Proof.
  intros Hf Ho. unfold markInvalid. destruct os as [|o1 os'] eqn:Eos.
  { exists f. split_and!; try done. set_solver. }
  assert (0 ≤ c < Z.of_nat (length (containerToInvalidObjects f))) as Hc
    by (inversion_clear Ho as [|? ? [_ ?] _]; done).
  rewrite <- Eos in *. destruct (row_at_Ok f c Hc) as (row & -> & Hrow). cbn [mbind result_bind].
  destruct (emplaced_wf f row Hf) as (W & N & B); [intros r ->; eauto|].
  destruct (atomicSets_spec os (emplaced f row) W) as (row' & -> & W' & N' & B').
  { eapply Forall_impl; [exact Ho|]. intros o [H _]. by rewrite N. }
  cbn [mbind result_bind]. destruct (set_row_spec f c row') as [I' M']; [done|done|done|congruence|].
  eexists. split; [done|]. split; [done|]. split; [done|]. split; [simpl; apply length_insert|].
  intros o c' H0 Hc'. rewrite M' by done. case_decide as E.
  - subst c'. rewrite B', B by done. unfold marked. rewrite Hrow. set_solver.
  - set_solver.
Qed.

(** The lookup of the move types. *)
Lemma isMarkedInvalid_spec f o c : inv f → in_range f o c →
  ∃ b, isMarkedInvalid f o c = Ok b ∧ (b = true ↔ marked f o c).
Proof.
  intros Hf [Ho Hc]. unfold isMarkedInvalid, marked. destruct (isEmpty f) eqn:Ee.
  - exists false. split; [done|]. split; [done|]. intros (r & Hr & _).
    by destruct (inv_empty f Hf Ee _ _ Hr).
  - destruct (lookup_lt_is_Some_2 (containerToInvalidObjects f) (Z.to_nat c)) as [row Hrow]; [lia|].
    rewrite (proj2 (vec_get_Ok _ _ _) (conj (proj1 Hc) Hrow)). cbn [mbind result_bind]. rewrite Hrow.
    destruct row as [r|]; [|exists false; naive_solver].
    destruct (inv_rows f Hf _ _ Hrow) as [Hw Hn].
    rewrite DynamicBitSet.isSet_spec by (rewrite ?Hn; done). eexists. split; [done|]. naive_solver.
Qed.

Definition row_bit (row : option (option DynamicBitSet.t)) (o : Z) : Prop :=
  ∃ r, row = Some (Some r) ∧ DynamicBitSet.bit r o = true.

Definition row_ok (n : Z) (row : option DynamicBitSet.t) : Prop :=
  ∀ r, row = Some r → DynamicBitSet.wf r ∧ DynamicBitSet.numBits r = n.

Lemma merge_rows_spec f others : ∀ rows,
  0 ≤ numObjects f → length rows = length others →
  Forall (row_ok (numObjects f)) rows → Forall (row_ok (numObjects f)) others →
  ∃ rows', merge_rows f rows others = Ok rows' ∧ length rows' = length rows ∧
    Forall (row_ok (numObjects f)) rows' ∧
    ∀ i o, row_bit (rows' !! i) o ↔ row_bit (rows !! i) o ∨ row_bit (others !! i) o.
Proof.
  induction others as [|other others IH]; intros rows H0 El Hr Ho; destruct rows as [|row rows];
    try done.
  - exists []. split_and!; try done. intros i o. unfold row_bit. rewrite lookup_nil. naive_solver.
  - inversion_clear Hr as [|? ? R1 R2]. inversion_clear Ho as [|? ? O1 O2]. injection El as El.
    cbn [merge_rows]. destruct (IH rows H0 El R2 O2) as (rows' & E & L & R & B).
    assert (∃ row', (match other with
        | None => Ok row
        | Some x => r ← DynamicBitSet.mergeFrom (emplaced f row) x; Ok (Some r)
        end) = Ok row' ∧ row_ok (numObjects f) row' ∧
        ∀ o, row_bit (Some row') o ↔ row_bit (Some row) o ∨ row_bit (Some other) o)
      as (row' & -> & R' & B').
    { destruct other as [x|]; [|exists row; split_and!; [done|done|unfold row_bit; naive_solver]].
      destruct (O1 x eq_refl) as [Wx Nx].
      assert (DynamicBitSet.wf (emplaced f row) ∧ DynamicBitSet.numBits (emplaced f row) = numObjects f ∧
        ∀ o, DynamicBitSet.bit (emplaced f row) o = true ↔ row_bit (Some row) o) as (We & Ne & Be).
      { destruct row as [r|]; simpl.
        - destruct (R1 r eq_refl). split_and!; [done|done|]. unfold row_bit. naive_solver.
        - destruct (DynamicBitSet.make_bits (numObjects f) H0) as (M1 & M2 & M3).
          split_and!; [done|done|]. intros o. rewrite M3. unfold row_bit. naive_solver. }
      destruct (DynamicBitSet.mergeFrom_spec (emplaced f row) x We Wx) as (s & -> & _ & Ws & Ns & Bs);
        [congruence|].
      cbn [mbind result_bind]. exists (Some s). split_and!; [done| |].
      - intros r [= <-]. split; congruence || done.
      - intros o. rewrite <- Be. unfold row_bit. specialize (Bs o). split.
        + intros (r & [= <-] & Hb). rewrite Bs in Hb. apply orb_true_iff in Hb as [?|?]; eauto.
        + intros [Hb|(r & [= <-] & Hb)]; exists s; (split; [done|]); rewrite Bs, Hb;
            [done|apply orb_true_r]. }
    cbn [mbind result_bind]. rewrite E. cbn [mbind result_bind].
    exists (row' :: rows'). split_and!; [done|simpl; congruence|by constructor|].
    intros [|i] o; simpl; auto.
Qed.

Lemma inv_row_ok f : inv f → Forall (row_ok (numObjects f)) (containerToInvalidObjects f).
Proof. intros Hf. apply Forall_lookup_2. intros i row Hi r ->. by apply (inv_rows f Hf i). Qed.

(** [mergeFrom] is the union of the two filters, or throws if the dimensions
    differ. *)
Lemma filter_mergeFrom_spec f other : inv f → inv other →
  numObjects other = numObjects f →
  length (containerToInvalidObjects other) = length (containerToInvalidObjects f) →
  ∃ f', mergeFrom f other = Ok f' ∧ inv f' ∧
    ∀ o c, marked f' o c ↔ marked f o c ∨ marked other o c.
Proof.
  intros Hf Ho En El. unfold mergeFrom. destruct (isEmpty other) eqn:Ee.
  { exists f. split_and!; try done. intros o c. split; [auto|]. intros [?|(r & Hr & _)]; [done|].
    by destruct (inv_empty other Ho Ee _ _ Hr). }
  rewrite El, Nat.eqb_refl, En, Z.eqb_refl. cbn [negb orb].
  destruct (merge_rows_spec f (containerToInvalidObjects other) (containerToInvalidObjects f))
    as (rows & -> & L & R & B);
    [apply Hf|done|by apply inv_row_ok|rewrite <- En; by apply inv_row_ok|].
  cbn [mbind result_bind]. eexists. split; [done|]. split.
  - split; simpl; [apply Hf| |done]. intros i r Hi. by apply (proj1 (Forall_lookup _ _) R i _ Hi).
  - intros o c. apply (B (Z.to_nat c) o).
Qed.
End InvalidMoveFilter.
