(* ===== verification/CompressedIdMap.v ===== *)
(** * CompressedIdMap

    algopt_common/CompressedIdMap.h: a map from identifiers below a fixed size to
    values, with a default for the rest.  The layout, a vector with a bit set of the
    entries or a hash map, is chosen at construction.  The values of the objects in a
    dimension are kept in one. *)

From Stdlib Require Import Sorted.
From S2P Require Import Prelude Double Bits ChangeSet.

Open Scope Z_scope.

Module CompressedIdMap.
Section map.
Context `{HashOrder} {V : Type} (eqb : V → V → bool).

Record t := mk {
  isDense : bool;
  totalSize : Z;
  defaultValue : V;
  sparse : gmap Z V;
  dense_values : list V;
  nonDefaultBits : DynamicBitSet.t;
  numNonDefaultValues : Z
}.

(** [DenseThreshold], 0.2. *)
Definition denseThreshold : double := Eval vm_compute in ddiv d1 (dofZ 5).

Definition shouldPickDense (totalSize expectedNonDefaultSize : Z) : bool :=
  (0 <? totalSize) && (0 <? expectedNonDefaultSize) &&
  (denseThreshold * dofZ totalSize <=? dofZ expectedNonDefaultSize)%D.

Definition make (totalSize : Z) (defaultValue : V) (expectedNonDefaultSize : Z) : t :=
  let isDense := shouldPickDense totalSize expectedNonDefaultSize in
  let n := if isDense then totalSize else 0 in
  mk isDense totalSize defaultValue ∅ (replicate (Z.to_nat n) defaultValue) (DynamicBitSet.make n) 0.

(** [FOLLY_SAFE_CHECK(index < totalSize_)] *)
Definition check_index (c : t) (key : Z) : result () :=
  if (0 <=? key) && (key <? totalSize c) then Ok ()
  else Throw (safe_check_failed "CompressedIdMap: key index exceeds totalSize").

Definition emplace (c : t) (key : Z) (value : V) : result t :=
  _ ← check_index c key;
  if eqb value (defaultValue c) then Ok c
  else if isDense c then
    '(bits, inserted) ← DynamicBitSet.set (nonDefaultBits c) key;
    if (inserted : bool) then
      values ← vec_set (dense_values c) key value;
      Ok (mk (isDense c) (totalSize c) (defaultValue c) (sparse c) values bits
             (numNonDefaultValues c + 1))
    else Ok (mk (isDense c) (totalSize c) (defaultValue c) (sparse c) (dense_values c) bits
                (numNonDefaultValues c))
  else
    (* [emplace] of a hash map keeps the entry that is there *)
    Ok (match sparse c !! key with
        | Some _ => c
        | None => mk (isDense c) (totalSize c) (defaultValue c) (<[key := value]> (sparse c))
                     (dense_values c) (nonDefaultBits c) (numNonDefaultValues c)
        end).

Definition fromRange (keyToValue : list (Z * V)) (defaultValue : V) (totalSize : Z) : result t :=
  foldM (λ c '(k, v), emplace c k v)
    (make totalSize defaultValue (Z.of_nat (length keyToValue))) keyToValue.

(** The constructor that consumes a hash map. *)
Definition fromMap (keyToValue : gmap Z V) (defaultValue : V) (totalSize : Z) : result t :=
  let c0 := mk false totalSize defaultValue ∅ [] (DynamicBitSet.make 0) 0 in
  kept ← foldM (λ m '(k, v),
    _ ← check_index c0 k;
    Ok (if eqb v defaultValue then delete k m else m)) keyToValue (hash_iter keyToValue);
  if shouldPickDense totalSize (Z.of_nat (size kept)) then
    foldM (λ c '(k, v), emplace c k v)
      (mk true totalSize defaultValue ∅ (replicate (Z.to_nat totalSize) defaultValue)
          (DynamicBitSet.make totalSize) 0) (hash_iter kept)
  else Ok (mk false totalSize defaultValue kept [] (DynamicBitSet.make 0) 0).

Definition getValue (c : t) (key : Z) : result V :=
  _ ← check_index c key;
  if isDense c then vec_get (dense_values c) key
  else Ok (default (defaultValue c) (sparse c !! key)).

Definition nonDefaultSize (c : t) : Z :=
  if isDense c then numNonDefaultValues c else Z.of_nat (size (sparse c)).

(** The calls [forEachNonDefault] makes, in order. *)
Definition forEachNonDefault (c : t) : result (list (Z * V)) :=
  if isDense c
  then foldM (λ acc i, v ← vec_get (dense_values c) i; Ok (acc ++ [(i, v)])) []
         (DynamicBitSet.forEachSetBit (nonDefaultBits c))
  else Ok (hash_iter (sparse c)).

(** ** The map it stands for: the entries that differ from the default *)

Record models (c : t) (m : gmap Z V) : Prop := {
  models_range : ∀ k v, m !! k = Some v → 0 ≤ k < totalSize c ∧ eqb v (defaultValue c) = false;
  models_sparse : isDense c = false → sparse c = m;
  models_length : isDense c = true → Z.of_nat (length (dense_values c)) = totalSize c;
  models_bits_wf : isDense c = true → DynamicBitSet.wf (nonDefaultBits c) ∧
                     DynamicBitSet.numBits (nonDefaultBits c) = totalSize c;
  models_bits : isDense c = true → ∀ k, 0 ≤ k < totalSize c →
                  DynamicBitSet.bit (nonDefaultBits c) k = bool_decide (is_Some (m !! k));
  models_values : isDense c = true → ∀ k, 0 ≤ k < totalSize c →
                    dense_values c !! Z.to_nat k = Some (default (defaultValue c) (m !! k));
  models_count : isDense c = true → numNonDefaultValues c = Z.of_nat (size m)
}.

Lemma make_models n d e : 0 ≤ n → models (make n d e) ∅.
Proof.
  intros Hn. unfold make. split; cbn [isDense totalSize defaultValue sparse dense_values
    nonDefaultBits numNonDefaultValues]; try (intros ->); try done.
  - rewrite length_replicate. lia.
  - pose proof (DynamicBitSet.make_bits n Hn) as (? & ? & _). done.
  - intros k Hk. pose proof (DynamicBitSet.make_bits n Hn) as (_ & _ & ->). done.
  - intros k Hk. rewrite lookup_empty. apply lookup_replicate_2. lia.
Qed.

Lemma check_index_spec c key :
  check_index c key = if decide (0 ≤ key < totalSize c) then Ok ()
    else Throw (safe_check_failed "CompressedIdMap: key index exceeds totalSize").
Proof.
  unfold check_index. destruct (Z.leb_spec 0 key), (Z.ltb_spec key (totalSize c)); simpl;
    case_decide; try done; lia.
Qed.

(** What [emplace] does to the map: the default is not stored and the first value
    written under a key stays. *)
Definition put (d : V) (m : gmap Z V) (key : Z) (value : V) : gmap Z V :=
  if eqb value d then m
  else match m !! key with Some _ => m | None => <[key := value]> m end.

Lemma emplace_models c m key value :
  models c m → 0 ≤ key < totalSize c →
  ∃ c', emplace c key value = Ok c' ∧ models c' (put (defaultValue c) m key value) ∧
    totalSize c' = totalSize c ∧ defaultValue c' = defaultValue c ∧ isDense c' = isDense c.
Proof.
  intros Hm Hk. unfold emplace, put. rewrite check_index_spec, decide_True by done.
  cbn [mbind result_bind]. destruct (eqb value (defaultValue c)) eqn:Ev; [by exists c|].
  destruct Hm as [Hr Hs Hl Hw Hb Hv Hc]. destruct (isDense c) eqn:Hd.
  - specialize (Hl eq_refl). specialize (Hw eq_refl) as [Hw Hn]. specialize (Hb eq_refl).
    specialize (Hv eq_refl). specialize (Hc eq_refl).
    destruct (DynamicBitSet.set_spec (nonDefaultBits c) key Hw ltac:(lia)) as (bits & Es & Hw' & Hn' & Hb').
    rewrite Es. cbn [mbind result_bind].
    rewrite (Hb key Hk) in *. destruct (m !! key) as [v0|] eqn:Ek.
    + rewrite bool_decide_true by done. cbn [negb]. eexists. split; [done|].
      split; [|done]. split; cbn; try done.
      * by rewrite Hn'.
      * intros _ k Hk'. rewrite Hb', Hb by lia. destruct (Z.eqb_spec k key); [subst; by rewrite Ek|done].
    + rewrite bool_decide_false by (by intros [? ?]). cbn [negb].
      rewrite vec_set_Ok by lia. cbn [mbind result_bind]. eexists. split; [done|].
      split; [|done]. split; cbn; try done.
      * intros k v [[<- <-]|[? ?]]%lookup_insert_Some; [done|by apply Hr].
      * by rewrite length_insert.
      * by rewrite Hn'.
      * intros _ k Hk'. rewrite Hb', Hb by lia. destruct (Z.eqb_spec k key) as [->|Hne].
        -- rewrite lookup_insert_eq. by rewrite bool_decide_true.
        -- by rewrite lookup_insert_ne by done.
      * intros _ k Hk'. rewrite lookup_insert. case_decide as E; [subst|].
        -- apply list_lookup_insert_eq. lia.
        -- rewrite list_lookup_insert_ne by lia. by apply Hv.
      * intros _. rewrite Hc, map_size_insert_None by done. lia.
  - specialize (Hs eq_refl). subst m. destruct (sparse c !! key) as [v0|] eqn:Ek.
    + exists c. split; [done|]. by split; [constructor|]; rewrite ?Hd.
    + eexists. split; [done|]. split; [|done]. split; cbn; try by rewrite ?Hd.
      intros k v [[<- <-]|[? ?]]%lookup_insert_Some; [done|by apply Hr].
Qed.

Lemma emplace_out_of_range c key value :
  ¬ 0 ≤ key < totalSize c →
  emplace c key value = Throw (safe_check_failed "CompressedIdMap: key index exceeds totalSize").
Proof. intros Hk. unfold emplace. by rewrite check_index_spec, decide_False. Qed.

Lemma emplaces_models items : ∀ c m,
  models c m → Forall (λ e, 0 ≤ e.1 < totalSize c) items →
  ∃ c', foldM (λ c '(k, v), emplace c k v) c items = Ok c' ∧
    models c' (foldl (λ m '(k, v), put (defaultValue c) m k v) m items) ∧
    totalSize c' = totalSize c ∧ defaultValue c' = defaultValue c ∧ isDense c' = isDense c.
Proof.
  induction items as [|[k v] items IH]; intros c m Hm Hf; [by exists c|].
  apply Forall_cons in Hf as [Hk Hf].
  destruct (emplace_models c m k v Hm Hk) as (c1 & E1 & Hm1 & Ht & Hd & Hl). simpl.
  rewrite E1. cbn [mbind result_bind]. rewrite <- Ht in Hf.
  destruct (IH c1 _ Hm1 Hf) as (c2 & -> & Hm2 & Ht2 & Hd2 & Hl2).
  exists c2. rewrite Hd in Hm2. split_and!; try done; congruence.
Qed.

Lemma getValue_models c m key :
  models c m → 0 ≤ key < totalSize c →
  getValue c key = Ok (default (defaultValue c) (m !! key)).
Proof.
  intros [Hr Hs Hl Hw Hb Hv Hc] Hk. unfold getValue. rewrite check_index_spec, decide_True by done.
  cbn [mbind result_bind]. destruct (isDense c); [|by rewrite Hs].
  apply vec_get_Ok. split; [lia|]. by apply Hv.
Qed.

Lemma nonDefaultSize_models c m : models c m → nonDefaultSize c = Z.of_nat (size m).
Proof.
  intros [Hr Hs Hl Hw Hb Hv Hc]. unfold nonDefaultSize. destruct (isDense c); [by apply Hc|by rewrite Hs].
Qed.

Lemma collect_dense c (m : gmap Z V) l acc :
  (∀ k, k ∈ l → 0 ≤ k ∧ ∃ v, m !! k = Some v ∧ dense_values c !! Z.to_nat k = Some v) →
  foldM (λ acc i, v ← vec_get (dense_values c) i; Ok (acc ++ [(i, v)])) acc l =
  Ok (acc ++ omap (λ k, (k,.) <$> m !! k) l).
Proof.
  revert acc. induction l as [|k l IH]; intros acc Hl; [by rewrite app_nil_r|].
  destruct (Hl k ltac:(set_solver)) as (Hk & v & E1 & E2). cbn [foldM omap list_omap].
  rewrite (proj2 (vec_get_Ok _ _ _) (conj Hk E2)), E1. cbn [mbind result_bind fmap option_fmap option_map].
  rewrite IH by set_solver. by rewrite <- (assoc_L (++)).
Qed.

(** Every entry is visited once. *)
Lemma forEachNonDefault_models c m :
  models c m → ∃ l, forEachNonDefault c = Ok l ∧ l ≡ₚ map_to_list m.
Proof.
  intros [Hr Hs Hl Hw Hb Hv Hc]. unfold forEachNonDefault. destruct (isDense c) eqn:Ed.
  2: { eexists. split; [done|]. rewrite Hs by done. apply hash_iter_perm. }
  destruct (Hw eq_refl) as [Hwf Hn]. rewrite DynamicBitSet.forEachSetBit_spec, Hn by done.
  set (ks := filter _ _).
  assert (∀ k, k ∈ ks ↔ is_Some (m !! k)) as Hks.
  { intros k. unfold ks. rewrite list_elem_of_filter, elem_of_seqZ. split.
    - intros [Hbit Hk]. rewrite Hb in Hbit by (done || lia). by apply bool_decide_eq_true in Hbit.
    - intros [v Hk]. destruct (Hr k v Hk) as [Hk' _]. rewrite Hb by (done || lia).
      rewrite bool_decide_true by done. split; [done|lia]. }
  rewrite (collect_dense c m).
  2: { intros k [v Hk]%Hks. destruct (Hr k v Hk) as [Hk' _]. split; [lia|]. exists v.
       split; [done|]. rewrite Hv, Hk by (done || lia). done. }
  eexists. split; [done|]. simpl. apply NoDup_Permutation.
  - assert (NoDup ks) as Hnd by (apply NoDup_filter, NoDup_seqZ).
    clear -Hnd. induction Hnd as [|k l Hk Hl IH]; simpl; [constructor|].
    destruct (m !! k) as [v|]; simpl; [|done]. constructor; [|done].
    intros (k' & Hk' & E)%list_elem_of_omap. destruct (m !! k'); simplify_eq/=. done.
  - apply NoDup_map_to_list.
  - intros [k v]. rewrite list_elem_of_omap, elem_of_map_to_list. split.
    + intros (k' & Hk' & E). destruct (m !! k') eqn:?; simplify_eq/=. done.
    + intros Hk. exists k. rewrite Hks, Hk. eauto.
Qed.

(** ** Construction *)

Lemma drop_defaults d n (l : list (Z * V)) : ∀ m,
  Forall (λ e, 0 ≤ e.1 < n) l →
  foldM (λ m '(k, v),
    _ ← check_index (mk false n d ∅ [] (DynamicBitSet.make 0) 0) k;
    Ok (if eqb v d then delete k m else m)) m l =
  Ok (foldl (λ (m : gmap Z V) '(k, v), if eqb v d then delete k m else m) m l).
Proof.
  induction l as [|[k v] l IH]; intros m Hf; [done|]. apply Forall_cons in Hf as [Hk Hf]. simpl.
  rewrite check_index_spec, decide_True by done. cbn [mbind result_bind]. by apply IH.
Qed.

Lemma drop_defaults_filter d (l : list (Z * V)) : ∀ m : gmap Z V,
  NoDup l.*1 → (∀ k v, (k, v) ∈ l → m !! k = Some v) →
  (∀ k v, m !! k = Some v → (k, v) ∈ l ∨ eqb v d = false) →
  foldl (λ m '(k, v), if eqb v d then delete k m else m) m l =
  filter (λ e, eqb e.2 d = false) m.
Proof.
  induction l as [|[k v] l IH]; intros m Hn Hl Hm; simpl.
  - symmetry. apply map_filter_id. intros k v Hk. destruct (Hm k v Hk); [set_solver|done].
  - apply NoDup_cons in Hn as [Hk Hn]. pose proof (Hl k v ltac:(set_solver)) as Hkv.
    assert (∀ k' v', (k', v') ∈ l → k' ≠ k) as Hne.
    { intros k' v' Hin ->. apply Hk. by apply (list_elem_of_fmap_2 fst) in Hin. }
    destruct (eqb v d) eqn:Ev.
    + rewrite IH; [|done|..].
      * apply map_eq. intros k'. apply option_eq. intros v'.
        rewrite !map_lookup_filter_Some, lookup_delete_Some. simpl. split; [naive_solver|].
        intros [H1 H2]. split; [|done]. split; [|done]. intros <-. naive_solver congruence.
      * intros k' v' Hin. rewrite lookup_delete_ne by (by apply not_eq_sym, (Hne k' v')).
        apply Hl. set_solver.
      * intros k' v' [H1 H2]%lookup_delete_Some. destruct (Hm k' v' H2) as [Hin|]; [|by right].
        apply elem_of_cons in Hin as [?|?]; [naive_solver|by left].
    + apply IH; [done| |].
      * intros k' v' Hin. apply Hl. set_solver.
      * intros k' v' Hk'. destruct (Hm k' v' Hk') as [Hin|]; [|by right].
        apply elem_of_cons in Hin as [?|?]; [simplify_eq; by right|by left].
Qed.

Lemma puts_all d (l : list (Z * V)) : ∀ m : gmap Z V,
  NoDup l.*1 → Forall (λ e, eqb e.2 d = false) l → (∀ k, k ∈ l.*1 → m !! k = None) →
  foldl (λ m '(k, v), put d m k v) m l = list_to_map l ∪ m.
Proof.
  induction l as [|[k v] l IH]; intros m Hn Hf Hm; simpl; [by rewrite (left_id_L ∅ (∪))|].
  apply NoDup_cons in Hn as [Hk Hn]. apply Forall_cons in Hf as [Hv Hf]. simpl in Hv.
  unfold put at 2. rewrite Hv, Hm by set_solver. rewrite IH; [|done|done|].
  - rewrite <- insert_union_l, insert_union_r; [done|]. by apply not_elem_of_list_to_map.
  - intros k' Hk'. rewrite lookup_insert_ne; [apply Hm; set_solver|]. intros <-. done.
Qed.

(** The constructor that consumes a hash map keeps the entries that differ from the
    default, whichever layout it picks. *)
Lemma fromMap_models m d n :
  0 ≤ n → (∀ k v, m !! k = Some v → 0 ≤ k < n) →
  ∃ c, fromMap m d n = Ok c ∧ models c (filter (λ e, eqb e.2 d = false) m) ∧
    totalSize c = n ∧ defaultValue c = d.
Proof.
  intros Hn Hr. unfold fromMap.
  assert (∀ m' : gmap Z V, NoDup (hash_iter m').*1) as Hnd.
  { intros m'. rewrite hash_iter_perm. apply NoDup_fst_map_to_list. }
  assert (∀ (m' : gmap Z V) k v, (k, v) ∈ hash_iter m' ↔ m' !! k = Some v) as Hin.
  { intros m' k v. by rewrite hash_iter_perm, elem_of_map_to_list. }
  rewrite drop_defaults.
  2: { apply Forall_forall. intros [k v] Hk%Hin. by eapply Hr. }
  rewrite drop_defaults_filter; [|done|by intros k v ?%Hin|by intros k v ?%Hin; left].
  cbn [mbind result_bind]. set (kept := filter _ m).
  assert (∀ k v, kept !! k = Some v → 0 ≤ k < n ∧ eqb v d = false) as Hkept.
  { intros k v [Hk Hv]%map_lookup_filter_Some. split; [by eapply Hr|done]. }
  destruct (shouldPickDense n (Z.of_nat (size kept))) eqn:Ed.
  - pose proof (make_models n d (Z.of_nat (size kept)) Hn) as H0. unfold make in H0. rewrite Ed in H0.
    destruct (emplaces_models (hash_iter kept) _ ∅ H0) as (c & E & Hc & Ht & Hd & _).
    { apply Forall_forall. intros [k v] Hk%Hin. by apply Hkept in Hk as [? _]. }
    exists c. split; [exact E|]. cbn [defaultValue] in Hc. rewrite puts_all in Hc.
    + rewrite (right_id_L ∅ (∪)) in Hc.
      assert ((list_to_map (hash_iter kept) : gmap Z V) = kept) as Ek; [|by rewrite Ek in Hc].
      rewrite <- (list_to_map_to_list kept) at 2. apply list_to_map_proper; [done|apply hash_iter_perm].
    + done.
    + apply Forall_forall. intros [k v] Hk%Hin. by apply Hkept in Hk as [_ ?].
    + done.
  - eexists. split; [done|]. split; [|done]. by split.
Qed.
End map.
End CompressedIdMap.
