(* ===== verification/ObjectValues.v ===== *)
(** * Values of objects

    [Partition] and [ObjectValues] of entities: the value of every object in one
    dimension, given per object in a [CompressedIdMap] or per group of a disjoint
    partition. *)

From S2P Require Import Prelude Double ChangeSet Bits CompressedIdMap.

Open Scope Z_scope.

(** ** Partition: groups of objects *)
Module Partition.
Section partition.
Context `{HashOrder}.

Record t := mk {
  groups : gmap Z (list Z);
  groupIds : list Z;
  objectIdToGroupIds : gmap Z (list Z);
  isDisjoint : bool
}.

Definition add_group (m : gmap Z (list Z)) (g : Z) (objectIds : list Z) : gmap Z (list Z) :=
  foldl (λ m o, <[o := default [] (m !! o) ++ [g]]> m) m objectIds.

Definition computeIsDisjoint (m : gmap Z (list Z)) : bool :=
  negb (existsb (λ '(_, gs), (1 <? length gs)%nat) (hash_iter m)).

Definition make (groups : gmap Z (list Z)) : t :=
  let objectIdToGroupIds := foldl (λ m '(g, os), add_group m g os) ∅ (hash_iter groups) in
  mk groups (hash_iter groups).*1 objectIdToGroupIds (computeIsDisjoint objectIdToGroupIds).

Definition getObjectIds (p : t) (groupId : Z) : result (list Z) := at_ (groups p !! groupId).

(** Every occurrence of an object in a group adds the group to its list. *)
Definition occurrences (l : list (Z * list Z)) (o : Z) : list Z :=
  l ≫= λ '(g, os), replicate (length (filter (λ x, x = o) os)) g.

Lemma add_group_lookup m g os o :
  default [] (add_group m g os !! o) =
  default [] (m !! o) ++ replicate (length (filter (λ x, x = o) os)) g.
Proof.
  unfold add_group. revert m. induction os as [|x os IH]; intros m; simpl; [by rewrite app_nil_r|].
  rewrite IH, filter_cons. destruct (decide (x = o)) as [->|Hne].
  - rewrite lookup_insert_eq. simpl. by rewrite <- (assoc_L (++)).
  - by rewrite lookup_insert_ne.
Qed.

Lemma make_lookup gs o :
  default [] (objectIdToGroupIds (make gs) !! o) = occurrences (hash_iter gs) o.
Proof.
  unfold make. cbn [objectIdToGroupIds]. unfold occurrences.
  induction (hash_iter gs) as [|[g os] l IH] using rev_ind; [done|].
  rewrite foldl_snoc, add_group_lookup, IH, bind_app. simpl. by rewrite app_nil_r.
Qed.

(** In a disjoint partition an object occurs once and in one group. *)
Lemma disjoint_occurrences gs o :
  isDisjoint (make gs) = true → (length (occurrences (hash_iter gs) o) ≤ 1)%nat.
Proof.
  intros Hd. rewrite <- make_lookup.
  unfold make in Hd at 1. cbn [isDisjoint] in Hd. unfold computeIsDisjoint in Hd.
  apply negb_true_iff in Hd.
  change (foldl _ ∅ (hash_iter gs)) with (objectIdToGroupIds (make gs)) in Hd.
  destruct (objectIdToGroupIds (make gs) !! o) as [l|] eqn:El; simpl; [|lia].
  destruct (Nat.ltb_spec 1 (length l)) as [Hl|]; [|done].
  assert (existsb (λ '(_, gs0), (1 <? length gs0)%nat) (hash_iter (objectIdToGroupIds (make gs))) = true) as Ht;
    [|congruence].
  apply existsb_exists. exists (o, l). split; [|by apply Nat.ltb_lt].
  apply list_elem_of_In. by rewrite hash_iter_perm, elem_of_map_to_list.
Qed.

Lemma disjoint_group gs g os o :
  isDisjoint (make gs) = true → gs !! g = Some os → o ∈ os →
  objectIdToGroupIds (make gs) !! o = Some [g].
Proof.
  intros Hd Hg Ho. pose proof (disjoint_occurrences gs o Hd) as Hl.
  pose proof (make_lookup gs o) as Hm.
  assert (g ∈ occurrences (hash_iter gs) o) as Hin.
  { unfold occurrences. apply list_elem_of_bind. exists (g, os).
    split; [|by rewrite hash_iter_perm, elem_of_map_to_list].
    apply elem_of_replicate. split; [done|]. intros E%nil_length_inv.
    assert (o ∈ filter (λ x, x = o) os) by (by apply list_elem_of_filter). rewrite E in *. set_solver. }
  destruct (occurrences (hash_iter gs) o) as [|g' [|? ?]]; [set_solver| |simpl in Hl; lia].
  apply list_elem_of_singleton in Hin as <-.
  by destruct (objectIdToGroupIds (make gs) !! o); simplify_eq/=.
Qed.
End partition.
End Partition.

(** ** ObjectValues *)
Module ObjectValues.
Section values.
Context `{HashOrder}.

(** [folly::F14FastMap] of group values. *)
Inductive t :=
  | ObjectBacked (map : CompressedIdMap.t (V := double))
  | GroupBacked (groupValues : gmap Z double) (partition : Partition.t) (partitionId : Z)
      (defaultValue : double) (totalObjects : Z).

Definition ofMap (map : option (CompressedIdMap.t (V := double))) : result t :=
  match map with
  | None => Throw (invalid_argument "ObjectValues map cannot be null")
  | Some map => Ok (ObjectBacked map)
  end.

Definition ofGroups (groupValues : option (gmap Z double)) (partition : option Partition.t)
    (defaultValue : double) (totalObjects partitionId : Z) : result t :=
  match groupValues, partition with
  | None, _ => Throw (invalid_argument "ObjectValues groupValues cannot be null")
  | _, None => Throw (invalid_argument "ObjectValues partition cannot be null")
  | Some gv, Some p =>
      if negb (Partition.isDisjoint p)
      then Throw (invalid_argument "ObjectValues group-backed partition must be disjoint")
      else Ok (GroupBacked gv p partitionId defaultValue totalObjects)
  end.

Definition getObjectValue (ov : t) (o : Z) : result double :=
  match ov with
  | ObjectBacked map => CompressedIdMap.getValue map o
  | GroupBacked gv p _ d _ =>
      match Partition.objectIdToGroupIds p !! o with
      | None | Some [] => Ok d
      | Some (g :: _) => Ok (default d (gv !! g))
      end
  end.

Definition defaultValue (ov : t) : double :=
  match ov with
  | ObjectBacked map => CompressedIdMap.defaultValue map
  | GroupBacked _ _ _ d _ => d
  end.

Definition totalObjectCount (ov : t) : Z :=
  match ov with
  | ObjectBacked map => CompressedIdMap.totalSize map
  | GroupBacked _ _ _ _ n => n
  end.

Definition nonDefaultCount (ov : t) : result Z :=
  match ov with
  | ObjectBacked map => Ok (CompressedIdMap.nonDefaultSize map)
  | GroupBacked gv p _ _ _ =>
      foldM (λ count '(g, _), os ← Partition.getObjectIds p g; Ok (count + Z.of_nat (length os)))
        0 (hash_iter gv)
  end.

(** The calls [forEachNonDefault] makes, in order. *)
Definition forEachNonDefault (ov : t) : result (list (Z * double)) :=
  match ov with
  | ObjectBacked map => CompressedIdMap.forEachNonDefault map
  | GroupBacked gv p _ _ _ =>
      foldM (λ acc '(g, v), os ← Partition.getObjectIds p g; Ok (acc ++ ((λ o, (o, v)) <$> os)))
        [] (hash_iter gv)
  end.

Definition sum (ov : t) : result double :=
  match ov with
  | ObjectBacked map =>
      l ← CompressedIdMap.forEachNonDefault map;
      Ok (foldl (λ s '(_, v), s + v)%D d0 l +
          CompressedIdMap.defaultValue map *
          dofZ (CompressedIdMap.totalSize map - CompressedIdMap.nonDefaultSize map))%D
  | GroupBacked gv p _ d n =>
      '(total, covered) ← foldM (λ '(total, covered) '(g, v),
        os ← Partition.getObjectIds p g;
        Ok ((total + v * dofZ (Z.of_nat (length os)))%D, covered + Z.of_nat (length os)))
        (d0, 0) (hash_iter gv);
      Ok (total + d * dofZ (n - covered))%D
  end.

(** ** What both backings promise

    The entries listed are a map; an object that is not listed has the default. *)
Record models (ov : t) (m : gmap Z double) : Prop := {
  models_keys : ∀ k, k ∈ dom m → 0 ≤ k < totalObjectCount ov;
  models_value : ∀ o, 0 ≤ o < totalObjectCount ov →
    getObjectValue ov o = Ok (default (defaultValue ov) (m !! o));
  models_iter : ∃ l, forEachNonDefault ov = Ok l ∧ l ≡ₚ map_to_list m;
  models_count : nonDefaultCount ov = Ok (Z.of_nat (size m))
}.

Lemma object_backed_models map m :
  CompressedIdMap.models deq map m → models (ObjectBacked map) m.
Proof.
  intros Hm. split.
  - intros k [v Hk]%elem_of_dom. by apply (CompressedIdMap.models_range _ _ _ Hm) in Hk as [? _].
  - intros o Ho. by apply (CompressedIdMap.getValue_models deq).
  - by apply (CompressedIdMap.forEachNonDefault_models deq).
  - simpl. by rewrite (CompressedIdMap.nonDefaultSize_models deq map m).
Qed.

(** The entries of a group-backed dimension. *)
Definition group_entries (gs : gmap Z (list Z)) (gv : list (Z * double)) : list (Z * double) :=
  gv ≫= λ '(g, v), (λ o, (o, v)) <$> default [] (gs !! g).

Lemma group_entries_cons gs g v gv :
  group_entries gs ((g, v) :: gv) = ((λ o, (o, v)) <$> default [] (gs !! g)) ++ group_entries gs gv.
Proof. done. Qed.

Lemma group_loop gs (gv : list (Z * double)) acc :
  (∀ g, g ∈ gv.*1 → is_Some (gs !! g)) →
  foldM (λ acc '(g, v), os ← Partition.getObjectIds (Partition.make gs) g;
           Ok (acc ++ ((λ o, (o, v)) <$> os))) acc gv = Ok (acc ++ group_entries gs gv).
Proof.
  revert acc. induction gv as [|[g v] gv IH]; intros acc Hg; [by rewrite app_nil_r|].
  destruct (Hg g ltac:(set_solver)) as [os Eg]. cbn [foldM].
  unfold Partition.getObjectIds. cbn [Partition.groups Partition.make]. rewrite Eg.
  cbn [at_ mbind result_bind]. rewrite IH by set_solver.
  rewrite group_entries_cons, Eg. cbn [default]. by rewrite <- (assoc_L (++)).
Qed.

Lemma count_loop gs (gv : list (Z * double)) n :
  (∀ g, g ∈ gv.*1 → is_Some (gs !! g)) →
  foldM (λ count '(g, _), os ← Partition.getObjectIds (Partition.make gs) g;
           Ok (count + Z.of_nat (length os))) n gv =
  Ok (n + Z.of_nat (length (group_entries gs gv))).
Proof.
  revert n. induction gv as [|[g v] gv IH]; intros n Hg; [simpl; f_equal; lia|].
  destruct (Hg g ltac:(set_solver)) as [os Eg]. cbn [foldM].
  unfold Partition.getObjectIds. cbn [Partition.groups Partition.make]. rewrite Eg.
  cbn [at_ mbind result_bind]. rewrite IH by set_solver.
  rewrite group_entries_cons, Eg. cbn [default]. rewrite length_app, length_fmap. f_equal. cbn [id]. lia.
Qed.

Lemma NoDup_by_count (l : list Z) :
  (∀ x, (length (filter (λ y, y = x) l) ≤ 1)%nat) → NoDup l.
Proof.
  induction l as [|x l IH]; intros Hc; [constructor|]. constructor.
  - intros Hx. specialize (Hc x). rewrite filter_cons_True in Hc by done.
    assert (x ∈ filter (λ y, y = x) l) as Hf by (by apply list_elem_of_filter).
    destruct (filter (λ y, y = x) l); [set_solver|simpl in Hc; lia].
  - apply IH. intros y. specialize (Hc y). rewrite filter_cons in Hc. case_decide; simpl in Hc; lia.
Qed.

(** In a disjoint partition the entries of different groups are different. *)
Lemma group_entries_NoDup gs (gv : list (Z * double)) :
  Partition.isDisjoint (Partition.make gs) = true → NoDup gv.*1 → NoDup (group_entries gs gv).*1.
Proof.
  intros Hd. induction gv as [|[g v] gv IH]; intros Hn; [constructor|].
  apply NoDup_cons in Hn as [Hg Hn]. rewrite group_entries_cons, fmap_app.
  assert (∀ os : list Z, ((λ o, (o, v)) <$> os).*1 = os) as Efst.
  { intros os. rewrite <- list_fmap_compose. apply list_fmap_id. }
  rewrite Efst. apply NoDup_app. split; [|split; [|by apply IH]].
  - destruct (gs !! g) as [os|] eqn:Eg; [|constructor]. simpl. apply NoDup_by_count. intros o.
    pose proof (Partition.disjoint_occurrences gs o Hd) as Hl.
    assert ((g, os) ∈ hash_iter gs) as Hin by (by rewrite hash_iter_perm, elem_of_map_to_list).
    apply list_elem_of_split in Hin as (l1 & l2 & E). rewrite E in Hl.
    unfold Partition.occurrences in Hl. rewrite bind_app, length_app in Hl. simpl in Hl.
    rewrite length_app, length_replicate in Hl. lia.
  - intros o Ho Ho'. apply list_elem_of_fmap in Ho' as ([o' v'] & -> & Hin). simpl in *.
    apply list_elem_of_bind in Hin as ([g' w] & Hin & Hg').
    apply list_elem_of_fmap in Hin as (o2 & [= <- <-] & Hin).
    destruct (gs !! g) as [os|] eqn:Eg; [|simpl in Ho; set_solver].
    destruct (gs !! g') as [os'|] eqn:Eg'; [|simpl in Hin; set_solver]. simpl in *.
    pose proof (Partition.disjoint_group gs g os o' Hd Eg Ho) as E1.
    pose proof (Partition.disjoint_group gs g' os' o' Hd Eg' Hin) as E2.
    apply Hg. assert (g = g') as -> by congruence. by apply (list_elem_of_fmap_2 fst) in Hg'.
Qed.

Lemma elem_of_group_entries gv gs o v : (o, v) ∈ group_entries gs (hash_iter gv) ↔
  ∃ g os, gv !! g = Some v ∧ gs !! g = Some os ∧ o ∈ os.
Proof.
  assert (∀ g v, (g, v) ∈ hash_iter gv ↔ gv !! g = Some v) as Hin.
  { intros g w. by rewrite hash_iter_perm, elem_of_map_to_list. }
  unfold group_entries. rewrite list_elem_of_bind. split.
  - intros ([g w] & Ho & Hgv%Hin). apply list_elem_of_fmap in Ho as (o' & [= -> ->] & Ho).
    destruct (gs !! g) as [os|] eqn:E; [|simpl in Ho; set_solver]. eauto.
  - intros (g & os & Hgv & E & Ho). exists (g, v). rewrite E. split; [|by apply Hin].
    apply list_elem_of_fmap. eauto.
Qed.

Lemma group_backed_models gv gs pid d n :
  Partition.isDisjoint (Partition.make gs) = true →
  (∀ g, is_Some (gv !! g) → is_Some (gs !! g)) →
  (∀ g os o, gs !! g = Some os → o ∈ os → 0 ≤ o < n) →
  models (GroupBacked gv (Partition.make gs) pid d n) (list_to_map (group_entries gs (hash_iter gv))).
Proof.
  intros Hd Hg Hr.
  assert (NoDup (hash_iter gv).*1) as Hnd by (rewrite hash_iter_perm; apply NoDup_fst_map_to_list).
  assert (∀ g v, (g, v) ∈ hash_iter gv ↔ gv !! g = Some v) as Hin.
  { intros g v. by rewrite hash_iter_perm, elem_of_map_to_list. }
  assert (∀ g, g ∈ (hash_iter gv).*1 → is_Some (gs !! g)) as Hgs.
  { intros g ([g' v] & -> & Hgv)%list_elem_of_fmap. apply Hg. apply Hin in Hgv. by eexists. }
  pose proof (group_entries_NoDup gs (hash_iter gv) Hd Hnd) as Hne.
  pose proof (elem_of_group_entries gv gs) as He.
  split; cbn [totalObjectCount defaultValue].
  - intros o [v Ho]%elem_of_dom. apply elem_of_list_to_map_2, He in Ho as (g & os & _ & E & Ho). eauto.
  - intros o Ho. cbn [getObjectValue].
    destruct (list_to_map _ !! o) as [v|] eqn:Ev.
    + apply elem_of_list_to_map_2, He in Ev as (g & os & Egv & Egs & Hos).
      rewrite (Partition.disjoint_group gs g os o Hd Egs Hos), Egv. done.
    + destruct (Partition.objectIdToGroupIds (Partition.make gs) !! o) as [[|g l]|] eqn:Eo; [done| |done].
      assert (gv !! g = None) as ->; [|done].
      destruct (gv !! g) as [w|] eqn:Ew; [|done]. exfalso.
      pose proof (Partition.make_lookup gs o) as Hm. rewrite Eo in Hm. simpl in Hm.
      assert (g ∈ Partition.occurrences (hash_iter gs) o) as Hocc by (rewrite <- Hm; set_solver).
      apply list_elem_of_bind in Hocc as ([g' os] & Hocc & Hgs').
      apply elem_of_replicate in Hocc as [-> Hlen].
      rewrite hash_iter_perm, elem_of_map_to_list in Hgs'.
      destruct (filter (λ x, x = o) os) as [|x l'] eqn:Ef; [done|].
      assert (x ∈ filter (λ x, x = o) os) as Hx by (rewrite Ef; set_solver).
      apply list_elem_of_filter in Hx as [-> Hx].
      apply not_elem_of_list_to_map_2 in Ev. apply Ev.
      apply (list_elem_of_fmap_2 fst (_ : list (Z * double)) (o, w)). apply He. eauto.
  - exists (group_entries gs (hash_iter gv)). cbn [forEachNonDefault].
    rewrite group_loop by done. split; [done|]. by rewrite map_to_list_to_map.
  - cbn [nonDefaultCount]. rewrite count_loop by done. do 2 f_equal.
    rewrite <- length_map_to_list. by rewrite map_to_list_to_map.
Qed.
End values.
End ObjectValues.
