(* ===== verification/Affected.v ===== *)
(** * Which changes affect a node

    [AffectedByChange] of solver/utils/AffectedByChangeInfo.cpp: what a leaf of the
    expression graph tells the orchestrator about the changes it must be recomputed
    for. *)

From S2P Require Import Prelude ChangeSet.

Open Scope Z_scope.

Inductive AffectedByChangeType :=
  | ALL_CHANGES
  | CONTAINERS_ONLY
  | OBJECTS_ONLY
  | ALL_GIVEN_CONTAINER_OBJECT_PAIRS.

Record AffectedByChangeDecisionData := mkDecisionData {
  numTotalObjects : Z;
  numTotalContainers : Z
}.

(** A null [std::function] is [None]. *)
Abbreviation ChangeFilterFn := (option (Change → result bool)).

Module AffectedByChange.

Record t := mk {
  containersPtr : option (gset Z);
  objectsPtr : option (gset Z);
  filter : ChangeFilterFn;
  affectedByAllChanges : bool
}.

(** The constructors. *)
Definition ofAll (affectedByAllChanges : bool) : t := mk None None None affectedByAllChanges.

Definition ofContainers (containersPtr : option (gset Z)) (changeFilter : ChangeFilterFn) : result t :=
  match containersPtr with
  | None => Throw (runtime_error "expected non nullptr as input for containersPtr")
  | Some _ => Ok (mk containersPtr None changeFilter false)
  end.

Definition ofObjects (objectsPtr : option (gset Z)) (changeFilter : ChangeFilterFn) : result t :=
  match objectsPtr with
  | None => Throw (runtime_error "expected non nullptr as input for objectsPtr")
  | Some _ => Ok (mk None objectsPtr changeFilter false)
  end.

Definition ofPairs (containersPtr objectsPtr : option (gset Z)) : result t :=
  match containersPtr, objectsPtr with
  | Some _, Some _ => Ok (mk containersPtr objectsPtr None false)
  | _, _ => Throw (runtime_error "expected non nullptr as inputs for containersPtr and objectsPtr")
  end.

Definition ofPairsWithData (containersPtr objectsPtr : option (gset Z))
    (data : AffectedByChangeDecisionData) : result t :=
  match containersPtr, objectsPtr with
  | Some cs, Some os =>
      let allContainersAffected := Z.of_nat (size cs) =? numTotalContainers data in
      let allObjectsAffected := Z.of_nat (size os) =? numTotalObjects data in
      Ok (if allContainersAffected && allObjectsAffected then mk None None None true
          else if allContainersAffected then mk None objectsPtr None false
          else if allObjectsAffected then mk containersPtr None None false
          else mk containersPtr objectsPtr None false)
  | _, _ => Throw (runtime_error "expected non nullptr as inputs for containersPtr and objectsPtr")
  end.

Definition getContainers (a : t) : result (gset Z) :=
  match containersPtr a with
  | None => Throw (runtime_error "unexpected call to getContainers() when containerPtr_ is null")
  | Some cs => Ok cs
  end.

Definition getObjects (a : t) : result (gset Z) :=
  match objectsPtr a with
  | None => Throw (runtime_error "unexpected call to getObjects() when objectPtr_ is null")
  | Some os => Ok os
  end.

Definition getType (a : t) : result AffectedByChangeType :=
  if affectedByAllChanges a then Ok ALL_CHANGES
  else match containersPtr a, objectsPtr a with
       | Some _, Some _ => Ok ALL_GIVEN_CONTAINER_OBJECT_PAIRS
       | Some _, None => Ok CONTAINERS_ONLY
       | None, Some _ => Ok OBJECTS_ONLY
       | None, None => Throw (runtime_error
           "Unknown affectedByChange type. Has AffectedByChange been properly initialized?")
       end.

(** ** What the information promises

    The changes a node is recomputed for.  Only the containers-only and the
    objects-only leaves have a filter. *)
Definition passes (a : t) (c : Change) : bool :=
  match filter a with Some f => bool_decide (f c = Ok true) | None => true end.

(** The filter does not throw on these changes. *)
Definition filter_total (a : t) (changes : list Change) : Prop :=
  ∀ f c, filter a = Some f → c ∈ changes → ∃ b, f c = Ok b.

Definition matches_change (a : t) (c : Change) : bool :=
  match containersPtr a, objectsPtr a with
  | Some cs, Some os => bool_decide (container c ∈ cs) && bool_decide (object c ∈ os)
  | Some cs, None => bool_decide (container c ∈ cs) && passes a c
  | None, Some os => bool_decide (object c ∈ os) && passes a c
  | None, None => false
  end.

Definition matches (a : t) (changes : list Change) : bool :=
  affectedByAllChanges a || existsb (matches_change a) changes.

Lemma matches_false a cs c :
  matches a cs = false → c ∈ cs → matches_change a c = false.
Proof.
  unfold matches. intros [_ H]%orb_false_iff Hc. destruct (matches_change a c) eqn:E; [|done].
  assert (existsb (matches_change a) cs = true) as Ht; [|congruence].
  apply existsb_exists. exists c. split; [by apply list_elem_of_In|done].
Qed.

(** One of the constructors with a non-null pointer made it. *)
Definition initialized (a : t) : Prop := ∃ ty, getType a = Ok ty.

End AffectedByChange.

(** ** The net effect of changes

    [net cs o C] is the sum of the values of the changes of object [o] in the
    containers [C]. *)
Definition net (cs : list Change) (o : Z) (C : gset Z) : Z :=
  foldr (λ c z, (if decide (object c = o ∧ container c ∈ C) then value c else 0) + z) 0 cs.

(** The changes lead from one placement to another. *)
Definition on (m : gmap Z Z) (o : Z) (C : gset Z) : bool :=
  match m !! o with Some c => bool_decide (c ∈ C) | None => false end.

Record transition (cs : ChangeSet.t) (m m' : gmap Z Z) : Prop := {
  transition_wf : ChangeSet.wf cs;
  transition_dom : dom m' = dom m;
  transition_objects c : c ∈ ChangeSet.changes cs → object c ∈ dom m;
  transition_net o C : net (ChangeSet.changes cs) o C = Z.b2z (on m' o C) - Z.b2z (on m o C)
}.

Lemma net_app cs1 cs2 o C : net (cs1 ++ cs2) o C = net cs1 o C + net cs2 o C.
Proof. induction cs1 as [|c cs1 IH]; simpl; [done|]. rewrite IH. lia. Qed.

Lemma net_zero cs o C :
  (∀ c, c ∈ cs → object c = o → container c ∉ C) → net cs o C = 0.
Proof.
  induction cs as [|c cs IH]; intros H; simpl; [done|].
  rewrite IH by (intros; apply H; set_solver).
  rewrite decide_False; [done|]. intros [Ho Hc]. apply (H c); [set_solver|done|done].
Qed.

(** The change set of a legal move set is a transition to the new placement. *)
Lemma moves_transition ms m :
  NoDup (move_object <$> ms) →
  (∀ mv, mv ∈ ms → m !! move_object mv = Some (srcContainer mv)) →
  transition (MoveSet_getChangeSet ms) m (place ms m).
Proof.
  intros Hn Hs. split.
  - apply MoveSet_getChangeSet_wf.
  - apply place_dom. intros mv Hm. rewrite Hs by done. by eexists.
  - intros c Hc. rewrite MoveSet_changes in Hc.
    apply list_elem_of_bind in Hc as (mv & Hc & Hm). apply elem_of_dom.
    unfold move_changes in Hc.
    assert (object c = move_object mv) as -> by set_solver. rewrite Hs by done. by eexists.
  - intros o C. rewrite MoveSet_changes.
    induction ms as [|mv ms IH] using rev_ind; [unfold place; simpl; lia|].
    rewrite fmap_app in Hn. apply NoDup_app in Hn as (Hn & Hd & _).
    rewrite bind_app, net_app, IH by (done || (intros; apply Hs; set_solver)).
    assert (move_object mv ∉ move_object <$> ms) as Hmv by (intros ?; eapply Hd; [done|set_solver]).
    unfold place. rewrite foldl_snoc. fold (place ms m).
    assert (place ms m !! move_object mv = Some (srcContainer mv)) as Hp.
    { rewrite place_ne by done. apply Hs. set_solver. }
    unfold on. destruct (decide (move_object mv = o)) as [<-|Hne].
    + rewrite lookup_insert_eq, Hp. simpl. unfold removal, addition; simpl.
      repeat case_decide; repeat case_bool_decide; simpl; try tauto; lia.
    + rewrite lookup_insert_ne by done. rewrite (net_zero (_ ≫= _)); [lia|].
      intros c Hc Ho. exfalso. apply Hne. rewrite <- Ho. simpl in Hc. unfold removal, addition in Hc.
      set_solver.
Qed.

(** Where a node is not touched, neither is the placement. *)
Lemma transition_same cs m m' o C :
  transition cs m m' →
  (∀ c, c ∈ ChangeSet.changes cs → object c = o → container c ∉ C) → on m' o C = on m o C.
Proof.
  intros Ht Hc. pose proof (transition_net _ _ _ Ht o C) as Hn. rewrite net_zero in Hn by done.
  destruct (on m' o C), (on m o C); simpl in Hn; (done || lia).
Qed.
