(* ===== verification/Lookup.v ===== *)
(** * ObjectVector and ObjectLookup

    solver/expressions/ObjectVector.cpp, the values of the objects in a dimension with
    their bounds, and ObjectLookup.cpp, the total of these values over the objects in a
    set of containers: the leaves most goals and constraints are built on. *)

From Stdlib Require Import SpecFloat.
From S2P Require Import Prelude Double Precision Exact ObjectStore ChangeSet Assignment AccessOrderedSet AssociativeMap AssociativeFixedMap Bits CompressedIdMap ObjectValues Affected.

Open Scope Z_scope.

(** ** ObjectVector *)
Module ObjectVector.
Section vector.
Context `{HashOrder} (tol : PrecisionTolerances).

Record t := mk {
  objectValues : ObjectValues.t;
  defaultValue : double;
  totalObjects : Z;
  lowerBound : double;
  upperBound : double;
  hasNegativeValues : bool;
  allIntegerValues : bool
}.

(** The loop of the constructor over the values that are listed. *)
Definition scan (s : bool * bool * double * double) (e : Z * double) : bool * bool * double * double :=
  let '(allIntegers, hasNegative, lb, ub) := s in
  let v := e.2 in
  (allIntegers && Precision.isInteger tol v,
   hasNegative || (v <? d0)%D,
   if (v <? d0)%D then (lb + v)%D else lb,
   if (v <? d0)%D then ub else if (d0 <? v)%D then (ub + v)%D else ub).

Definition make (ov : ObjectValues.t) : result t :=
  let d := ObjectValues.defaultValue ov in
  let n := ObjectValues.totalObjectCount ov in
  k ← ObjectValues.nonDefaultCount ov;
  let allIntegers := negb ((k <? n) && negb (Precision.isInteger tol d)) in
  if n <? k
  then Throw (runtime_error "ObjectVector: size of objectValues must not exceed totalObjects")
  else
    entries ← ObjectValues.forEachNonDefault ov;
    let '(allIntegers, hasNegative, lb, ub) :=
      foldl scan (allIntegers, (k <? n) && (d <? d0)%D, d0, d0) entries in
    Ok (mk ov d n
          (if (d <? d0)%D then (lb + dofZ (n - k) * d)%D else lb)
          (if (d <? d0)%D then ub else if (d0 <? d)%D then (ub + dofZ (n - k) * d)%D else ub)
          hasNegative allIntegers).

Definition getObjectValue (v : t) (o : Z) : result double := ObjectValues.getObjectValue (objectValues v) o.
Definition isZeroDefault (v : t) : bool := (defaultValue v =? d0)%D.
Definition nonDefaultCount (v : t) : result Z := ObjectValues.nonDefaultCount (objectValues v).
Definition totalObjectCount (v : t) : Z := totalObjects v.
Definition forEachNonDefaultEntry (v : t) : result (list (Z * double)) :=
  ObjectValues.forEachNonDefault (objectValues v).
Definition nonDefaultObjectIds (v : t) : result (gset Z) :=
  l ← forEachNonDefaultEntry v; Ok (list_to_set l.*1).
Definition has_negative_values (v : t) : bool := hasNegativeValues v.
Definition references (v : t) (o : Z) : result bool :=
  if negb (isZeroDefault v) then Ok true
  else x ← getObjectValue v o; Ok (negb (x =? d0)%D).

(** The value of an object, with the entries [m] of the dimension. *)
Definition value_of (d : double) (m : gmap Z double) (o : Z) : double := default d (m !! o).

(** The vector holds the entries [m] and was made by the constructor. *)
Record ok (v : t) (m : gmap Z double) : Prop := {
  ok_models : ObjectValues.models (objectValues v) m;
  ok_default : defaultValue v = ObjectValues.defaultValue (objectValues v);
  ok_total : totalObjects v = ObjectValues.totalObjectCount (objectValues v)
}.

Lemma make_ok ov m :
  ObjectValues.models ov m → Z.of_nat (size m) ≤ ObjectValues.totalObjectCount ov →
  ∃ v, make ov = Ok v ∧ ok v m ∧ objectValues v = ov.
Proof.
  intros Hm Hs. unfold make. rewrite (ObjectValues.models_count _ _ Hm). cbn [mbind result_bind].
  rewrite (proj2 (Z.ltb_ge _ _)) by lia.
  destruct (ObjectValues.models_iter _ _ Hm) as (l & -> & _). cbn [mbind result_bind].
  destruct (foldl scan _ l) as [[[ai hn] lb] ub]. eexists. split; [done|]. by split.
Qed.

Lemma ok_value v m o : ok v m → 0 ≤ o < totalObjects v →
  getObjectValue v o = Ok (value_of (defaultValue v) m o).
Proof.
  intros [Hm Hd Ht] Ho. unfold getObjectValue, value_of. rewrite Hd.
  apply (ObjectValues.models_value _ _ Hm). by rewrite <- Ht.
Qed.
End vector.
End ObjectVector.

(** ** ObjectPotential *)
Module ObjectPotential.

(** [operator<]: by potential, then by object. *)
Definition lt (a b : Z * double) : bool :=
  if negb (a.2 =? b.2)%D then (a.2 <? b.2)%D else a.1 <? b.1.

#[global] Instance lt_strict_total : StdSet.StrictTotal (λ p : Z * double, canon p.2) lt.
Proof.
  unfold lt. split.
  - intros [o p] [Hp _]. simpl. rewrite deq_val by done. rewrite Z.eqb_refl. simpl. apply Z.ltb_irrefl.
  - intros [o1 p1] [o2 p2] [o3 p3] [F1 _] [F2 _] [F3 _]. simpl in *. rewrite !deq_val, !dlt_val by done.
    destruct (Z.eqb_spec (val p1) (val p2)), (Z.eqb_spec (val p2) (val p3)),
      (Z.eqb_spec (val p1) (val p3)); simpl; intros; bool_to_prop; first [apply Z.ltb_lt; lia | lia].
  - intros [o1 p1] [o2 p2] C1 C2. simpl in *. destruct C1 as [F1 N1], C2 as [F2 N2].
    rewrite !deq_val, !dlt_val by done. rewrite (Z.eqb_sym (val p2)).
    destruct (Z.eqb_spec (val p1) (val p2)) as [E|]; simpl; intros; bool_to_prop; [|lia].
    f_equal; [lia|]. by apply canon_inj.
Qed.

End ObjectPotential.

(** ** ObjectLookup *)
Module ObjectLookup.
Section lookup.
Context `{HashOrder} (tol : PrecisionTolerances).

(** The child, an [ObjectVector], is immutable; [values] and [objectPotentials_] are
    the state. *)
Record t := mk {
  containers : gset Z;
  object_vector : ObjectVector.t;
  values : AssociativeHybridMap.t double;
  objectPotentials : list (Z * double)
}.

Definition getObjectValue (n : t) (o : Z) : result double :=
  ObjectVector.getObjectValue (object_vector n) o.

(** *** Construction and full apply *)

Definition getCurrObjectsInContainersSize (n : t) (a : Assignment.t) : Z :=
  foldl (λ sum c, sum + Z.of_nat (length (Assignment.getObjects a c))) 0 (set_iter (containers n)).

(** The items and the set of potentials, which the constructor has just cleared. *)
Definition getObjectValuesFromObjectVectorAndUpdateObjectPotentials (n : t) (a : Assignment.t)
    : result (list (Z * double) * list (Z * double)) :=
  entries ← ObjectVector.forEachNonDefaultEntry (object_vector n);
  foldM (λ '(items, pots) '(o, v),
    c ← Assignment.getContainer a o;
    if negb (bool_decide (c ∈ containers n)) then Ok (items, pots)
    else Ok (items ++ [(o, v)], (StdSet.insert ObjectPotential.lt (o, v) pots).1))
    ([], objectPotentials n) entries.

Definition getObjectValuesFromAssignmentAndUpdateObjectPotentials (n : t) (a : Assignment.t)
    : result (list (Z * double) * list (Z * double)) :=
  foldM (λ acc c,
    foldM (λ '(items, pots) o,
      v ← getObjectValue n o;
      if (v =? d0)%D then Ok (items, pots)
      else Ok (items ++ [(o, v)], (StdSet.insert ObjectPotential.lt (o, v) pots).1))
      acc (Assignment.getObjects a c)) ([], objectPotentials n) (set_iter (containers n)).

(** The new state and the value. *)
Definition applyAssignment (n : t) (a : Assignment.t) : result (t * double) :=
  let n := mk (containers n) (object_vector n) (values n) [] in
  nObjectsInObjectVector ← ObjectVector.nonDefaultCount (object_vector n);
  '(items, pots) ←
    (if ObjectVector.isZeroDefault (object_vector n) &&
        ((nObjectsInObjectVector <=? Z.of_nat (size (containers n))) ||
         (nObjectsInObjectVector <=? getCurrObjectsInContainersSize n a))
     then getObjectValuesFromObjectVectorAndUpdateObjectPotentials n a
     else getObjectValuesFromAssignmentAndUpdateObjectPotentials n a);
  values ← AssociativeHybridMap.init dadd dlt (values n) items;
  value ← AssociativeHybridMap.query dadd d0 values;
  Ok (mk (containers n) (object_vector n) values pots, value).

(** *** Which changes affect it *)
Definition isAffectedByChange (n : t) (data : AffectedByChangeDecisionData)
    : result AffectedByChange.t :=
  if negb (ObjectVector.isZeroDefault (object_vector n))
  then AffectedByChange.ofContainers (Some (containers n)) None
  else
    nonDefaultCount ← ObjectVector.nonDefaultCount (object_vector n);
    let containerSize := Z.of_nat (size (containers n)) in
    let objectRatio := (dofZ nonDefaultCount * d1 / dofZ (numTotalObjects data))%D in
    let containerRatio := (dofZ containerSize * d1 / dofZ (numTotalContainers data))%D in
    if (0 <? numTotalObjects data) && (0 <? numTotalContainers data) &&
       (objectRatio <? containerRatio)%D
    then
      ids ← ObjectVector.nonDefaultObjectIds (object_vector n);
      AffectedByChange.ofObjects (Some ids)
        (if containerSize <? numTotalContainers data
         then Some (λ c, Ok (bool_decide (container c ∈ containers n))) else None)
    else
      AffectedByChange.ofContainers (Some (containers n))
        (if nonDefaultCount <? numTotalObjects data
         then Some (λ c, v ← getObjectValue n (object c); Ok (negb (v =? d0)%D)) else None).

(** *** Partial apply *)

(** [netChangePerObject\[object\] += value] *)
Definition add_net (m : gmap Z Z) (o v : Z) : gmap Z Z := <[o := default 0 (m !! o) + v]> m.

Definition in_containers (n : t) (c : Change) : Prop := container c ∈ containers n.
#[local] Instance in_containers_dec n c : Decision (in_containers n c).
Proof. unfold in_containers. apply _. Defined.

Definition changeSizeForObjects (n : t) (changes : ChangeSet.t) : result Z :=
  entries ← ObjectVector.forEachNonDefaultEntry (object_vector n);
  Ok (foldl (λ size '(o, _), size + Z.of_nat (length (ChangeSet.getChangesByObject changes o))) 0 entries).

Definition changeSizeForContainers (n : t) (changes : ChangeSet.t) : Z :=
  Z.of_nat (ChangeSet.getChangeSizeForContainers changes (set_iter (containers n))).

(** How the changes are traversed. *)
Inductive traversal := byChangeSet | byLookupObjects | byContainers.

Definition chooseTraversal (n : t) (changes : ChangeSet.t) : result traversal :=
  let isSparse := ObjectVector.isZeroDefault (object_vector n) in
  relevantObjectsSize ← (if isSparse then ObjectVector.nonDefaultCount (object_vector n)
                         else Ok (ObjectVector.totalObjectCount (object_vector n)));
  let nChanges := Z.of_nat (ChangeSet.size changes) in
  let nContainers := Z.of_nat (size (containers n)) in
  if (nChanges <=? relevantObjectsSize) && (nChanges <=? nContainers) then Ok byChangeSet
  else if isSparse && (relevantObjectsSize <? nChanges) then
    if nContainers <=? relevantObjectsSize then
      let forContainers := changeSizeForContainers n changes in
      if relevantObjectsSize <? forContainers then
        forObjects ← changeSizeForObjects n changes;
        Ok (if forObjects <=? forContainers then byLookupObjects else byContainers)
      else Ok byContainers
    else
      forObjects ← changeSizeForObjects n changes;
      Ok (if (forObjects <=? nContainers) || (forObjects <=? changeSizeForContainers n changes)
          then byLookupObjects else byContainers)
  else Ok byContainers.

Definition getNetChangePerObject (n : t) (changes : ChangeSet.t) : result (gmap Z Z) :=
  tr ← chooseTraversal n changes;
  match tr with
  | byChangeSet =>
      Ok (foldl (λ m c, if decide (in_containers n c) then add_net m (object c) (value c) else m)
            ∅ (ChangeSet.changes changes))
  | byLookupObjects =>
      entries ← ObjectVector.forEachNonDefaultEntry (object_vector n);
      Ok (foldl (λ m '(o, _),
            foldl (λ m c, if decide (in_containers n c) then add_net m o (value c) else m)
              m (ChangeSet.getChangesByObject changes o)) ∅ entries)
  | byContainers =>
      Ok (foldl (λ m c,
            foldl (λ m ch, add_net m (object ch) (value ch)) m (ChangeSet.getChangesByContainer changes c))
            ∅ (set_iter (containers n)))
  end.

Definition apply_one (n : t) (o changeVal : Z) : result t :=
  objectValue ← getObjectValue n o;
  if (changeVal =? 0) || (objectValue =? d0)%D then Ok n
  else if changeVal =? 1 then
    values ← AssociativeHybridMap.update dadd (values n) o objectValue;
    Ok (mk (containers n) (object_vector n) values
          (StdSet.insert ObjectPotential.lt (o, objectValue) (objectPotentials n)).1)
  else if changeVal =? -1 then
    values ← AssociativeHybridMap.remove dadd d0 (values n) o;
    Ok (mk (containers n) (object_vector n) values
          (StdSet.erase ObjectPotential.lt (o, objectValue) (objectPotentials n)))
  else Throw (runtime_error "Invalid change value").

Definition innerPartialApply (n : t) (changes : ChangeSet.t) : result (t * double) :=
  netChangePerObject ← getNetChangePerObject n changes;
  n ← foldM (λ n '(o, v), apply_one n o v) n (hash_iter netChangePerObject);
  value ← AssociativeHybridMap.query dadd d0 (values n);
  Ok (n, value).

(** *** Evaluation *)
Definition add_delta (n : t) (delta : double) (c : Change) : result double :=
  v ← getObjectValue n (object c); Ok (delta + dofZ (value c) * v)%D.

Definition evaluate (n : t) (value : double) (changes : ChangeSet.t) : result double :=
  delta ←
    (if Z.of_nat (ChangeSet.size changes) <=? Z.of_nat (size (containers n))
     then foldM (λ delta c, if decide (in_containers n c) then add_delta n delta c else Ok delta)
            d0 (ChangeSet.changes changes)
     else foldM (λ delta c, foldM (add_delta n) delta (ChangeSet.getChangesByContainer changes c))
            d0 (set_iter (containers n)));
  if Precision.compare tol value (- delta)%D =? 0 then Ok d0 else Ok (value + delta)%D.

(** *** The net change per object *)

Definition sums (l : list Change) (o : Z) : Z :=
  foldr (λ c z, (if decide (object c = o) then value c else 0) + z) 0 l.

Definition nets (m : gmap Z Z) (l : list Change) : gmap Z Z :=
  foldl (λ m c, add_net m (object c) (value c)) m l.

Lemma nets_lookup m l o :
  nets m l !! o = if decide (o ∈ object <$> l) then Some (default 0 (m !! o) + sums l o) else m !! o.
Proof.
  unfold nets. revert m. induction l as [|c l IH]; intros m.
  { by rewrite decide_False by set_solver. }
  rewrite fmap_cons. simpl foldl. rewrite IH. unfold add_net.
  change (sums (c :: l) o) with ((if decide (object c = o) then value c else 0) + sums l o).
  destruct (decide (object c = o)) as [<-|Hne].
  - rewrite lookup_insert_eq. rewrite (decide_True (P := object c ∈ object c :: _)) by set_solver.
    case_decide as Hin; simpl; f_equal; [lia|].
    assert (sums l (object c) = 0) as ->; [|lia].
    clear -Hin. induction l as [|c' l IH]; [done|].
    rewrite fmap_cons in Hin. apply not_elem_of_cons in Hin as [H1 H2].
    simpl. rewrite decide_False, IH by done. done.
  - rewrite lookup_insert_ne by done. repeat case_decide; try done; set_solver.
Qed.

Lemma sums_perm l1 l2 o : l1 ≡ₚ l2 → sums l1 o = sums l2 o.
Proof. induction 1; simpl; lia. Qed.

Lemma nets_perm l1 l2 : l1 ≡ₚ l2 → nets ∅ l1 = nets ∅ l2.
Proof.
  intros Hp. apply map_eq. intros o. rewrite !nets_lookup, (sums_perm l1 l2) by done.
  repeat case_decide; try done; exfalso; rewrite Hp in *; done.
Qed.

Lemma sums_filter (Q : Change → Prop) `{∀ c, Decision (Q c)} l o (C : gset Z) :
  (∀ c, object c = o → Q c ↔ container c ∈ C) → sums (filter Q l) o = net l o C.
Proof.
  intros HQ. induction l as [|c l IH]; [done|]. rewrite filter_cons.
  change (net (c :: l) o C) with
    ((if decide (object c = o ∧ container c ∈ C) then value c else 0) + net l o C).
  rewrite <- IH. specialize (HQ c). destruct (decide (Q c)).
  - change (sums (c :: filter Q l) o) with
      ((if decide (object c = o) then value c else 0) + sums (filter Q l) o).
    repeat case_decide; tauto || lia.
  - repeat case_decide; tauto || lia.
Qed.

(** The changes found through an index, key by key. *)
Lemma index_perm (key : Change → Z) (idx : gmap Z (list Change)) cs ks :
  ChangeSet.indexed key idx cs → NoDup ks →
  (ks ≫= λ k, default [] (idx !! k)) ≡ₚ filter (λ c, key c ∈ ks) cs.
Proof.
  intros Hi. induction ks as [|k ks IH]; intros Hn.
  { by rewrite filter_none by (intros; set_solver). }
  apply NoDup_cons in Hn as [Hk Hn]. simpl. rewrite IH by done.
  assert (default [] (idx !! k) = filter (λ c, key c = k) cs) as ->.
  { rewrite Hi. cbn zeta. case_decide as E; simpl; [by rewrite E|done]. }
  clear IH Hi. induction cs as [|c cs IH]; [done|]. rewrite !filter_cons.
  destruct (decide (key c = k)) as [E|E].
  - rewrite (decide_False (P := key c ∈ ks)), (decide_True (P := key c ∈ k :: ks)) by (subst; set_solver).
    simpl. by rewrite IH.
  - destruct (decide (key c ∈ ks)).
    + rewrite (decide_True (P := key c ∈ k :: ks)) by set_solver.
      rewrite <- Permutation_middle. by rewrite IH.
    + rewrite (decide_False (P := key c ∈ k :: ks)) by set_solver. done.
Qed.

Lemma foldl_bind {A B C} (g : C → B → C) (h : A → list B) (l : list A) c :
  foldl (λ c a, foldl g c (h a)) c l = foldl g c (l ≫= h).
Proof.
  revert c. induction l as [|a l IH]; intros c; simpl; [done|]. by rewrite IH, foldl_app.
Qed.

Lemma foldl_filter {B C} (Q : B → Prop) `{∀ b, Decision (Q b)} (g : C → B → C) (l : list B) c :
  foldl (λ c b, if decide (Q b) then g c b else c) c l = foldl g c (filter Q l).
Proof.
  revert c. induction l as [|b l IH]; intros c; [done|]. rewrite filter_cons. simpl.
  case_decide; simpl; apply IH.
Qed.

(** What every traversal computes, on the objects that count. *)
Definition net_ok (n : t) (f : Z → double) (cs : list Change) (N : gmap Z Z) : Prop :=
  (∀ o z, N !! o = Some z → z = net cs o (containers n) ∧ o ∈ object <$> cs) ∧
  (∀ o, N !! o = None → net cs o (containers n) = 0 ∨ (f o =? d0)%D = true).

Lemma nets_ok n f cs l (Q : Change → Prop) `{∀ c, Decision (Q c)} :
  l ≡ₚ filter Q cs → (∀ c, Q c → container c ∈ containers n) →
  (∀ c, c ∈ cs → container c ∈ containers n → Q c ∨ (f (object c) =? d0)%D = true) →
  (∀ c c', object c = object c' → container c ∈ containers n → container c' ∈ containers n → Q c → Q c') →
  net_ok n f cs (nets ∅ l).
Proof.
  intros Hp HQ1 HQ2 HQ3. rewrite (nets_perm _ _ Hp).
  assert (∀ o, o ∈ object <$> filter Q cs → sums (filter Q cs) o = net cs o (containers n)) as Hs.
  { intros o (c & -> & [Hc Hin]%list_elem_of_filter)%list_elem_of_fmap.
    apply sums_filter. intros c' Ho. split; [apply HQ1|]. intros Hc'. eapply HQ3; [..|done]; auto. }
  split.
  - intros o z. rewrite nets_lookup, lookup_empty. case_decide as Hin; [|done]. intros [= <-].
    simpl. rewrite Hs by done. split; [done|].
    apply list_elem_of_fmap in Hin as (c & -> & [_ Hc]%list_elem_of_filter).
    by apply list_elem_of_fmap_2.
  - intros o. rewrite nets_lookup, lookup_empty. case_decide as Hin; [done|]. intros _.
    destruct (f o =? d0)%D eqn:Ef; [by right|left]. apply net_zero. intros c Hc <- Hcont.
    destruct (HQ2 c Hc Hcont) as [Hq|]; [|congruence]. apply Hin. apply list_elem_of_fmap_2.
    by apply list_elem_of_filter.
Qed.

Lemma getNetChangePerObject_ok n m cs :
  ObjectVector.ok (object_vector n) m → ChangeSet.wf cs →
  ∃ N, getNetChangePerObject n cs = Ok N ∧
    net_ok n (ObjectVector.value_of (ObjectVector.defaultValue (object_vector n)) m)
      (ChangeSet.changes cs) N.
Proof.
  intros [Hm Hd Ht] Hw. unfold getNetChangePerObject.
  destruct (ObjectValues.models_iter _ _ Hm) as (entries & Ee & Hp).
  assert (NoDup entries.*1) as Hnd by (rewrite Hp; apply NoDup_fst_map_to_list).
  assert (∃ tr, chooseTraversal n cs = Ok tr ∧
            (tr = byLookupObjects → ObjectVector.isZeroDefault (object_vector n) = true))
    as (tr & -> & Htr).
  { unfold chooseTraversal, ObjectVector.nonDefaultCount, changeSizeForObjects,
      ObjectVector.forEachNonDefaultEntry. rewrite (ObjectValues.models_count _ _ Hm), Ee.
    destruct (ObjectVector.isZeroDefault (object_vector n)); cbn [mbind result_bind andb];
      repeat case_match; eauto; eexists; (split; [done|]); by repeat case_match. }
  cbn [mbind result_bind]. destruct tr.
  - eexists. split; [done|]. rewrite (foldl_filter (in_containers n)).
    apply (nets_ok n _ _ _ (in_containers n)); [done|done|by left|]. unfold in_containers. naive_solver.
  - unfold ObjectVector.forEachNonDefaultEntry. rewrite Ee. cbn [mbind result_bind].
    eexists. split; [done|].
    set (Q c := in_containers n c ∧ object c ∈ entries.*1).
    assert (foldl (λ m0 '(o, _), foldl (λ m1 c, if decide (in_containers n c)
               then add_net m1 o (value c) else m1) m0 (ChangeSet.getChangesByObject cs o)) ∅ entries =
            nets ∅ (filter (in_containers n) (entries.*1 ≫= λ o, default [] (ChangeSet.objectToChanges cs !! o))))
      as ->.
    { unfold nets. generalize (∅ : gmap Z Z). clear -Hw.
      induction entries as [|[o v] l IH]; intros N0; [done|]. simpl. rewrite IH, filter_app, foldl_app.
      f_equal. unfold ChangeSet.getChangesByObject.
      rewrite <- (foldl_filter (in_containers n) (λ m c, add_net m (object c) (value c))).
      assert (∀ c, c ∈ default [] (ChangeSet.objectToChanges cs !! o) → object c = o) as Ho.
      { rewrite (ChangeSet.wf_object cs Hw). cbn zeta. case_decide; simpl; [set_solver|].
        intros c [? _]%list_elem_of_filter. done. }
      revert Ho. generalize (default [] (ChangeSet.objectToChanges cs !! o)). intros l' Ho.
      revert N0. induction l' as [|c l' IH']; intros N0; [done|]. simpl.
      rewrite (Ho c) by set_solver. apply IH'. set_solver. }
    apply (nets_ok n _ _ _ Q).
    + rewrite (index_perm object) by (apply Hw || done). rewrite list_filter_filter. done.
    + by intros c [? _].
    + intros c Hc Hcont. destruct (decide (object c ∈ entries.*1)) as [|Hn]; [by left|right].
      rewrite Hp in Hn. unfold ObjectVector.value_of.
      destruct (m !! object c) as [v|] eqn:E.
      * destruct Hn. apply (list_elem_of_fmap_2 fst _ (object c, v)). by apply elem_of_map_to_list.
      * simpl. by apply Htr.
    + intros c c' Ho _ Hc' [_ Hin]. split; [done|]. by rewrite <- Ho.
  - eexists. split; [done|]. rewrite (foldl_bind _ (ChangeSet.getChangesByContainer cs)).
    apply (nets_ok n _ _ _ (λ c, container c ∈ set_iter (containers n))).
    + apply index_perm; [apply Hw|]. rewrite set_iter_perm. apply NoDup_elements.
    + intros c. by rewrite set_iter_perm, elem_of_elements.
    + intros c _ Hc. left. by rewrite set_iter_perm, elem_of_elements.
    + intros c c' _ _ Hc' _. by rewrite set_iter_perm, elem_of_elements.
Qed.

(** *** The value for a placement *)

(** The values of the objects that are in the containers. *)
Definition contribution (C : gset Z) (f : Z → double) (m : gmap Z Z) : gmap Z double :=
  map_imap (λ o c, if decide (c ∈ C) then if (f o =? d0)%D then None else Some (f o) else None) m.

Lemma contribution_lookup C f m o :
  contribution C f m !! o = if on m o C && negb (f o =? d0)%D then Some (f o) else None.
Proof.
  unfold contribution, on. rewrite map_lookup_imap. destruct (m !! o) as [c|]; [|done]. simpl.
  case_decide; [rewrite bool_decide_true by done|by rewrite bool_decide_false].
  by destruct (f o =? d0)%D.
Qed.

Definition lookup_value (C : gset Z) (f : Z → double) (m : gmap Z Z) : double :=
  foldr dadd d0 (map_to_list (contribution C f m)).*2.

(** The two structures hold the entries [E]. *)
Record holds (n : t) (E : gmap Z double) : Prop := {
  holds_values : AssociativeHybridMap.models dadd d0 (values n) E;
  holds_elem o v : (o, v) ∈ objectPotentials n ↔ E !! o = Some v;
  holds_canon : Forall (λ p, canon p.2) (objectPotentials n);
  holds_sorted : StdSet.sorted ObjectPotential.lt (objectPotentials n)
}.

Definition step (f : Z → double) (E : gmap Z double) (e : Z * Z) : gmap Z double :=
  if (e.2 =? 0) || (f e.1 =? d0)%D then E
  else if e.2 =? 1 then <[e.1 := f e.1]> E else delete e.1 E.

Definition from (f : Z → double) (E : gmap Z double) : Prop := ∀ o v, E !! o = Some v → v = f o.

Lemma step_from f E e : from f E → from f (step f E e).
Proof.
  intros HE o v. unfold step. repeat case_match; [apply HE| |].
  - rewrite lookup_insert. case_decide; [naive_solver|apply HE].
  - rewrite lookup_delete_Some. intros [_ ?]. by apply HE.
Qed.

Lemma insert_potential pots (E : gmap Z double) o v :
  canon v → (∀ o' v', (o', v') ∈ pots ↔ E !! o' = Some v') → from (λ _, v) (filter (λ p, p.1 = o) E) →
  Forall (λ p, canon p.2) pots → StdSet.sorted ObjectPotential.lt pots →
  let pots' := (StdSet.insert ObjectPotential.lt (o, v) pots).1 in
  (∀ o' v', (o', v') ∈ pots' ↔ <[o := v]> E !! o' = Some v') ∧
  Forall (λ p, canon p.2) pots' ∧ StdSet.sorted ObjectPotential.lt pots'.
Proof.
  intros Cv He Ho Hc Hs pots'. split_and!.
  - intros o' v'. unfold pots'.
    rewrite (StdSet.insert_elem_of (D := λ p : Z * double, canon p.2)) by done.
    rewrite He, lookup_insert. case_decide as Eo; [|naive_solver]. subst o'. split; [|naive_solver].
    intros [?|Hl]; [naive_solver|]. f_equal. symmetry. apply (Ho o v').
    by apply map_lookup_filter_Some.
  - by apply (StdSet.insert_dom (D := λ p : Z * double, canon p.2)).
  - by apply (StdSet.insert_sorted (D := λ p : Z * double, canon p.2)).
Qed.

#[local] Instance potential_eq_dec : EqDecision (Z * double).
Proof. apply prod_eq_dec. Defined.

Lemma erase_potential pots (E : gmap Z double) o v :
  canon v → (∀ o' v', (o', v') ∈ pots ↔ E !! o' = Some v') → from (λ _, v) (filter (λ p, p.1 = o) E) →
  Forall (λ p, canon p.2) pots → StdSet.sorted ObjectPotential.lt pots →
  let pots' := StdSet.erase ObjectPotential.lt (o, v) pots in
  (∀ o' v', (o', v') ∈ pots' ↔ delete o E !! o' = Some v') ∧
  Forall (λ p, canon p.2) pots' ∧ StdSet.sorted ObjectPotential.lt pots'.
Proof.
  intros Cv He Ho Hc Hs pots'. unfold pots'.
  rewrite (StdSet.erase_filter (D := λ p : Z * double, canon p.2)) by done. split_and!.
  - intros o' v'. rewrite list_elem_of_filter, He, lookup_delete_Some. split.
    + intros [Hne Hl]. split; [|done]. intros ->. apply Hne. f_equal. apply (Ho o' v').
      by apply map_lookup_filter_Some.
    + intros [Hne Hl]. split; [congruence|done].
  - by apply StdSet.filter_dom.
  - by apply StdSet.filter_sorted.
Qed.

Definition same_lookup (n n' : t) : Prop :=
  containers n' = containers n ∧ object_vector n' = object_vector n.

Lemma apply_one_holds n E f o z :
  holds n E → from f E → getObjectValue n o = Ok (f o) → canon (f o) → z ∈ [-1; 0; 1] →
  ∃ n', apply_one n o z = Ok n' ∧ holds n' (step f E (o, z)) ∧ same_lookup n n'.
Proof.
  intros [Hv He Hc Hs] HE Hf Cf Hz. unfold apply_one, step. rewrite Hf. cbn [mbind result_bind fst snd].
  destruct ((z =? 0) || (f o =? d0)%D) eqn:E0; [by exists n|].
  assert (from (λ _, f o) (filter (λ p, p.1 = o) E)) as Ho.
  { intros o' v' [Hl Hp]%map_lookup_filter_Some. simpl in Hp. subst o'. by apply HE. }
  destruct (z =? 1) eqn:E1.
  - destruct (AssociativeHybridMap.update_models dadd d0 (values n) E o (f o) Hv) as (h & -> & Hh).
    eexists. split; [done|].
    destruct (insert_potential _ E o (f o) Cf He Ho Hc Hs) as (?&?&?). split; [by split|done].
  - apply orb_false_iff in E0 as [E0 _].
    assert (z = -1) as -> by (set_solver by lia). simpl (_ =? _).
    destruct (AssociativeHybridMap.remove_models dadd d0 (values n) E o Hv) as (h & -> & Hh).
    eexists. split; [done|].
    destruct (erase_potential _ E o (f o) Cf He Ho Hc Hs) as (?&?&?). split; [by split|done].
Qed.

Lemma apply_all_holds n E f l :
  holds n E → from f E →
  (∀ o z, (o, z) ∈ l → getObjectValue n o = Ok (f o) ∧ canon (f o) ∧ z ∈ [-1; 0; 1]) →
  ∃ n', foldM (λ n '(o, v), apply_one n o v) n l = Ok n' ∧
    holds n' (foldl (step f) E l) ∧ same_lookup n n'.
Proof.
  revert n E. induction l as [|[o z] l IH]; intros n E Hn HE Hl; simpl; [by exists n|].
  destruct (Hl o z) as (Hf & Cf & Hz); [set_solver|].
  destruct (apply_one_holds n E f o z) as (n1 & -> & H1 & S1); [done..|]. cbn [mbind result_bind].
  destruct (IH n1 (step f E (o, z))) as (n2 & -> & H2 & S2); [done|by apply step_from| |].
  - intros o' z' Hin. destruct (Hl o' z') as (? & ? & ?); [set_solver|].
    unfold getObjectValue in *. destruct S1 as [_ ->]. done.
  - exists n2. split; [done|]. split; [done|]. unfold same_lookup in *. intuition congruence.
Qed.

Lemma step_at f E E' o z : E !! o = E' !! o → step f E (o, z) !! o = step f E' (o, z) !! o.
Proof.
  intros HE. unfold step. simpl. repeat case_match; [done|by rewrite !lookup_insert_eq|by rewrite !lookup_delete_eq].
Qed.

Lemma steps_lookup f E l o :
  NoDup l.*1 →
  foldl (step f) E l !! o =
    match (list_to_map l : gmap Z Z) !! o with
    | Some z => step f E (o, z) !! o
    | None => E !! o
    end.
Proof.
  revert E. induction l as [|[k z] l IH]; intros E Hn; [done|].
  apply NoDup_cons in Hn as [Hk Hn]. simpl foldl. rewrite IH by done. simpl list_to_map.
  assert (∀ o', o' ≠ k → step f E (k, z) !! o' = E !! o') as Hne.
  { intros o' Ho. unfold step. simpl. repeat case_match; try done;
      by rewrite ?lookup_insert_ne, ?lookup_delete_ne. }
  destruct (decide (o = k)) as [->|Ho].
  - rewrite lookup_insert_eq. rewrite (proj1 (not_elem_of_list_to_map l k)) by done. done.
  - rewrite lookup_insert_ne by done. case_match; [|auto]. apply step_at. auto.
Qed.

(** The changes of a transition lead to the entries of the new placement, also when
    they had been applied before. *)
Lemma steps_contribution f C cs m m' m0 N :
  transition cs m m' → m0 = m ∨ m0 = m' →
  (∀ o z, N !! o = Some z → z = net (ChangeSet.changes cs) o C) →
  (∀ o, N !! o = None → net (ChangeSet.changes cs) o C = 0 ∨ (f o =? d0)%D = true) →
  foldl (step f) (contribution C f m0) (hash_iter N) = contribution C f m'.
Proof.
  intros Ht Hm HS HN. apply map_eq. intros o.
  rewrite steps_lookup by (rewrite hash_iter_perm; apply NoDup_fst_map_to_list).
  rewrite (list_to_map_proper _ (map_to_list N)), list_to_map_to_list
    by (apply hash_iter_perm || (rewrite hash_iter_perm; apply NoDup_fst_map_to_list)).
  pose proof (transition_net _ _ _ Ht o C) as Hn.
  assert (on m0 o C = on m o C ∨ on m0 o C = on m' o C) as Ho by (destruct Hm; subst; auto).
  destruct (N !! o) as [z|] eqn:En.
  - apply HS in En as ->. unfold step. simpl. rewrite Hn.
    destruct (f o =? d0)%D eqn:Ef.
    { rewrite orb_true_r, !contribution_lookup, Ef. by rewrite !andb_false_r. }
    destruct (on m o C) eqn:E1, (on m' o C) eqn:E2; simpl;
      rewrite ?lookup_insert_eq, ?lookup_delete_eq, !contribution_lookup, ?Ef, ?E1, ?E2; simpl; try done;
      by destruct Ho as [->| ->].
  - rewrite !contribution_lookup. apply HN in En as [E0|Ef]; [|by rewrite Ef, !andb_false_r].
    rewrite E0 in Hn. destruct (on m o C), (on m' o C); simpl in Hn; try lia; by destruct Ho as [->| ->].
Qed.

Lemma contribution_from C f m : from f (contribution C f m).
Proof. intros o v. rewrite contribution_lookup. case_match; naive_solver. Qed.

Lemma values_of_dom (f : Z → double) (E : gmap Z double) :
  from f E → (map_to_list E).*2 ≡ₚ f <$> elements (dom E).
Proof.
  induction E as [|o v E Ho IH] using map_ind; intros HE; [by rewrite map_to_list_empty|].
  rewrite map_to_list_insert, dom_insert_L, elements_disj_union, elements_singleton, fmap_app
    by (try done; apply not_elem_of_dom in Ho; set_solver).
  simpl. rewrite IH.
  - by rewrite (HE o v) by apply lookup_insert_eq.
  - intros o' v' Hl. apply HE. rewrite lookup_insert_ne; [done|]. intros ->. congruence.
Qed.

Lemma contribution_values C f m :
  ∃ rest, (map_to_list (contribution C f m)).*2 ++ rest ≡ₚ f <$> elements (dom m).
Proof.
  assert (dom (contribution C f m) ⊆ dom m) as Hd.
  { intros o. rewrite !elem_of_dom, contribution_lookup. unfold on. intros [v Hv].
    destruct (m !! o); [by eexists|done]. }
  exists (f <$> elements (dom m ∖ dom (contribution C f m))).
  assert ((map_to_list (contribution C f m)).*2 ≡ₚ f <$> elements (dom (contribution C f m))) as ->.
  { apply values_of_dom, contribution_from. }
  rewrite <- fmap_app, <- elements_disj_union by set_solver.
  by rewrite <- union_difference_L.
Qed.

(** The values of the objects [D] are added without rounding. *)
Definition exact_values (f : Z → double) (D : gset Z) : Prop :=
  ∃ u, unit_ok u ∧ exact_list u (f <$> elements D).

Lemma exact_canon f D o : exact_values f D → o ∈ D → canon (f o).
Proof.
  intros (u & _ & [Hg _]) Ho. rewrite Forall_forall in Hg.
  apply (Hg (f o)). apply list_elem_of_fmap_2. by apply elem_of_elements.
Qed.

Lemma foldr_sum l : sum_of dadd d0 l (foldr dadd d0 l).
Proof.
  induction l as [|x l IH]; [constructor|].
  apply (sum_add dadd d0 [x] l x (foldr dadd d0 l)); [constructor|done].
Qed.

Lemma magnitude_zeros k : magnitude (replicate k d0) = 0.
Proof. induction k; simpl; lia. Qed.

Lemma total_zeros k : total (replicate k d0) = 0.
Proof. induction k; simpl; lia. Qed.

Lemma sum_value C f m q k :
  exact_values f (dom m) →
  sum_of dadd d0 ((map_to_list (contribution C f m)).*2 ++ replicate k d0) q →
  q = lookup_value C f m ∧ canon q.
Proof.
  intros (u & Hu & Hg & Hm) Hq. destruct (contribution_values C f m) as [rest Hp].
  rewrite <- Hp in Hg. rewrite <- (magnitude_perm _ _ Hp), magnitude_app in Hm.
  apply Forall_app in Hg as [Hg _]. pose proof (magnitude_nonneg rest).
  unfold lookup_value. set (l := (map_to_list (contribution C f m)).*2) in *.
  assert (exact_list u (l ++ replicate k d0)) as Hz.
  { split; [|rewrite magnitude_app, magnitude_zeros; lia].
    apply Forall_app. split; [done|]. apply Forall_replicate, grid_zero. }
  destruct (sum_of_exact u _ q Hu Hz Hq) as [[Cq _] Vq].
  destruct (sum_of_exact u l (foldr dadd d0 l) Hu) as [[Cl _] Vl]; [split; [done|lia]|apply foldr_sum|].
  split; [|done]. apply canon_inj; [done..|]. rewrite Vq, Vl, exact_total_app, total_zeros. lia.
Qed.

(** The lookup, its vector and the objects [D] fit together. *)
Record fits (n : t) (f : Z → double) (D : gset Z) : Prop := {
  fits_value o : o ∈ D → getObjectValue n o = Ok (f o);
  fits_exact : exact_values f D;
  fits_vector : ∃ em, ObjectVector.ok (object_vector n) em ∧
    f = ObjectVector.value_of (ObjectVector.defaultValue (object_vector n)) em
}.

(** Partial apply computes the value of the new placement, whether or not the changes
    had been applied. *)
Lemma innerPartialApply_spec n f cs m m' m0 :
  fits n f (dom m) → transition cs m m' → m0 = m ∨ m0 = m' →
  holds n (contribution (containers n) f m0) →
  ∃ n', innerPartialApply n cs = Ok (n', lookup_value (containers n) f m') ∧
    holds n' (contribution (containers n) f m') ∧ same_lookup n n'.
Proof.
  intros [Hf Hx (em & Hok & ->)] Ht Hm Hh. unfold innerPartialApply.
  destruct (getNetChangePerObject_ok n em cs Hok (transition_wf _ _ _ Ht)) as (N & -> & HS & HN).
  cbn [mbind result_bind]. set (f := ObjectVector.value_of _ em) in *.
  destruct (apply_all_holds n _ f (hash_iter N) Hh (contribution_from _ _ _)) as (n' & -> & Hn' & Hs).
  { intros o z Hin. rewrite hash_iter_perm, elem_of_map_to_list in Hin.
    apply HS in Hin as [-> (c & -> & Hc)%list_elem_of_fmap].
    pose proof (transition_objects _ _ _ Ht c Hc) as Ho.
    split; [by apply Hf|]. split; [by apply (exact_canon _ (dom m))|].
    rewrite (transition_net _ _ _ Ht). destruct (on m' _ _), (on m _ _); set_solver. }
  rewrite (steps_contribution f _ cs m m') in Hn' by (done || (intros o z Hz; by apply HS in Hz as [? _])).
  cbn [mbind result_bind].
  destruct (AssociativeHybridMap.query_models _ _ _ _ (holds_values _ _ Hn')) as (q & k & -> & Hq).
  cbn [mbind result_bind]. exists n'. split; [|done]. do 2 f_equal.
  apply (sum_value _ f m' q k); [|done]. by rewrite (transition_dom _ _ _ Ht).
Qed.

(** *** Full apply *)

(** A pass that collects the items [L] in the order of the list and inserts each into
    the set of potentials. *)
Definition collects (items pots : list (Z * double)) : Prop :=
  (∀ p, p ∈ pots ↔ p ∈ items) ∧ Forall (λ p, canon p.2) pots ∧
  StdSet.sorted ObjectPotential.lt pots.

Lemma collects_snoc items pots o v :
  collects items pots → canon v →
  collects (items ++ [(o, v)]) (StdSet.insert ObjectPotential.lt (o, v) pots).1.
Proof.
  intros (He & Hc & Hs) Cv. split_and!.
  - intros p. rewrite (StdSet.insert_elem_of (D := λ p : Z * double, canon p.2)) by done.
    rewrite He. set_solver.
  - by apply (StdSet.insert_dom (D := λ p : Z * double, canon p.2)).
  - by apply (StdSet.insert_sorted (D := λ p : Z * double, canon p.2)).
Qed.

Lemma collects_loop {A} (g : list (Z * double) * list (Z * double) → A → result (list (Z * double) * list (Z * double)))
    (h : A → option (Z * double)) (l : list A) :
  (∀ a items pots, a ∈ l → g (items, pots) a =
     Ok match h a with
        | Some p => (items ++ [p], (StdSet.insert ObjectPotential.lt p pots).1)
        | None => (items, pots)
        end) →
  (∀ a p, a ∈ l → h a = Some p → canon p.2) →
  ∀ items pots, collects items pots →
  ∃ pots', foldM g (items, pots) l = Ok (items ++ omap h l, pots') ∧ collects (items ++ omap h l) pots'.
Proof.
  intros Hg Hc. induction l as [|a l IH]; intros items pots Hi.
  { exists pots. simpl. by rewrite app_nil_r. }
  change (omap h (a :: l)) with (match h a with Some p => p :: omap h l | None => omap h l end).
  cbn [foldM]. rewrite Hg by set_solver. cbn [mbind result_bind].
  destruct (h a) as [[o v]|] eqn:Ea; [|apply IH; set_solver].
  replace (items ++ (o, v) :: omap h l) with ((items ++ [(o, v)]) ++ omap h l) by (by rewrite <- app_assoc).
  apply IH; [set_solver..|]. apply collects_snoc; [done|]. apply (Hc a (o, v)); [set_solver|done].
Qed.

Lemma collects_holds n (E : gmap Z double) vals pots items :
  AssociativeHybridMap.models dadd d0 vals (list_to_map items) → collects items pots →
  NoDup items.*1 → (∀ o v, (o, v) ∈ items ↔ E !! o = Some v) →
  list_to_map items = E ∧ holds (mk (containers n) (object_vector n) vals pots) E.
Proof.
  intros Hv (He & Hc & Hs) Hn Hi.
  assert (list_to_map items = E) as HE.
  { apply map_eq. intros o. apply option_eq. intros v. rewrite <- Hi. symmetry.
    by apply elem_of_list_to_map. }
  split; [done|]. rewrite HE in Hv. split; simpl; try done. intros o v. by rewrite He, Hi.
Qed.

Lemma omap_keys_NoDup {A} (h : A → option (Z * double)) (key : A → Z) (l : list A) :
  (∀ a p, h a = Some p → p.1 = key a) → NoDup (key <$> l) → NoDup (omap h l).*1.
Proof.
  intros Hk. induction l as [|a l IH]; intros Hn; [constructor|].
  rewrite fmap_cons in Hn. apply NoDup_cons in Hn as [Ha Hn].
  change (omap h (a :: l)) with (match h a with Some p => p :: omap h l | None => omap h l end).
  destruct (h a) as [p|] eqn:E; [|auto]. rewrite fmap_cons. constructor; [|auto].
  rewrite (Hk a p E). intros (q & Eq & (b & Hb & Hq)%list_elem_of_omap)%list_elem_of_fmap.
  apply Ha. rewrite Eq, (Hk b q Hq). by apply list_elem_of_fmap_2.
Qed.

(** The two ways of collecting the items. *)
Lemma from_vector_spec n f a :
  fits n f (dom (Assignment.objectToContainer a)) → ObjectVector.isZeroDefault (object_vector n) = true →
  (∀ em, ObjectVector.ok (object_vector n) em →
     ∀ o v, em !! o = Some v → o ∈ dom (Assignment.objectToContainer a) ∧ (v =? d0)%D = false) →
  objectPotentials n = [] →
  let E := contribution (containers n) f (Assignment.objectToContainer a) in
  ∃ items pots, getObjectValuesFromObjectVectorAndUpdateObjectPotentials n a = Ok (items, pots) ∧
    collects items pots ∧ NoDup items.*1 ∧ (∀ o v, (o, v) ∈ items ↔ E !! o = Some v).
Proof.
  intros [Hf Hx (em & Hok & ->)] Hz Hem Hp E. set (f := ObjectVector.value_of _ em) in *.
  specialize (Hem em Hok). set (m := Assignment.objectToContainer a) in *.
  unfold getObjectValuesFromObjectVectorAndUpdateObjectPotentials, ObjectVector.forEachNonDefaultEntry.
  destruct (ObjectValues.models_iter _ _ (ObjectVector.ok_models _ _ Hok)) as (entries & -> & Hpe).
  cbn [mbind result_bind]. rewrite Hp.
  set (h (p : Z * double) := if on m p.1 (containers n) then Some p else None).
  assert (∀ o v, (o, v) ∈ entries ↔ em !! o = Some v) as Hin.
  { intros o v. by rewrite Hpe, elem_of_map_to_list. }
  destruct (collects_loop (λ '(items, pots) '(o, v),
    c ← Assignment.getContainer a o;
    if negb (bool_decide (c ∈ containers n)) then Ok (items, pots)
    else Ok (items ++ [(o, v)], (StdSet.insert ObjectPotential.lt (o, v) pots).1)) h entries)
    with (items := @nil (Z * double)) (pots := @nil (Z * double)) as (pots' & -> & Hc).
  - intros [o v] items pots [Ho _]%Hin%Hem. unfold Assignment.getContainer, h, on. simpl.
    apply elem_of_dom in Ho as [c Ho]. fold m. rewrite Ho. simpl. by case_bool_decide.
  - intros [o v] p Hov. unfold h. case_match; [intros [= <-]|done]. simpl.
    apply Hin in Hov. destruct (Hem o v Hov) as [Ho _].
    pose proof (exact_canon f _ o Hx Ho) as Hcan. unfold f, ObjectVector.value_of in Hcan.
    by rewrite Hov in Hcan.
  - split_and!; [set_solver|constructor|constructor].
  - simpl. eexists _, pots'. split; [done|]. split; [done|].
    assert (∀ o v, (o, v) ∈ omap h entries ↔ em !! o = Some v ∧ on m o (containers n) = true) as Hom.
    { intros o v. rewrite list_elem_of_omap. unfold h. split.
      - intros ([o' v'] & Hin' & Hh). case_match; [|done]. simplify_eq. simpl in *. by rewrite <- Hin.
      - intros [Hl Ho]. exists (o, v). simpl. by rewrite Hin, Ho. }
    split.
    + apply (omap_keys_NoDup h fst); [|rewrite Hpe; apply NoDup_fst_map_to_list].
      intros p q. unfold h. case_match; naive_solver.
    + intros o v. rewrite Hom. unfold E. rewrite contribution_lookup.
      destruct (on m o (containers n)) eqn:Eo; simpl; [|naive_solver].
      unfold f, ObjectVector.value_of. destruct (em !! o) as [v'|] eqn:El; simpl.
      * destruct (Hem o v' El) as [_ ->]. naive_solver.
      * unfold ObjectVector.isZeroDefault in Hz. rewrite Hz. naive_solver.
Qed.

Lemma getObjects_NoDup a (C : gset Z) :
  Assignment.inv a → NoDup (set_iter C ≫= Assignment.getObjects a).
Proof.
  intros Ha. assert (NoDup (set_iter C)) as Hn by (rewrite set_iter_perm; apply NoDup_elements).
  induction Hn as [|c l Hc Hn IH]; [constructor|]. simpl. apply NoDup_app. split_and!; [| |done].
  - unfold Assignment.getObjects. destruct (Assignment.containerToObjects a !! c) as [st|] eqn:Ec; [|constructor].
    simpl. apply ObjectStore.iter_NoDup. by apply (Assignment.inv_stores a Ha c).
  - intros o Ho (c' & Ho' & Hc')%list_elem_of_bind.
    apply (Assignment.elem_of_getObjects a _ _ Ha) in Ho, Ho'. by simplify_eq.
Qed.

Lemma from_assignment_spec n f a :
  fits n f (dom (Assignment.objectToContainer a)) → Assignment.inv a → objectPotentials n = [] →
  let E := contribution (containers n) f (Assignment.objectToContainer a) in
  ∃ items pots, getObjectValuesFromAssignmentAndUpdateObjectPotentials n a = Ok (items, pots) ∧
    collects items pots ∧ NoDup items.*1 ∧ (∀ o v, (o, v) ∈ items ↔ E !! o = Some v).
Proof.
  intros [Hf Hx _] Ha Hp E. set (m := Assignment.objectToContainer a) in *.
  unfold getObjectValuesFromAssignmentAndUpdateObjectPotentials. rewrite Hp, foldM_bind.
  set (os := set_iter (containers n) ≫= Assignment.getObjects a).
  assert (∀ o, o ∈ os ↔ on m o (containers n) = true) as Hos.
  { intros o. unfold os, on. rewrite list_elem_of_bind. split.
    - intros (c & Ho & Hc). apply (Assignment.elem_of_getObjects a o c Ha) in Ho. fold m in Ho.
      rewrite Ho. rewrite set_iter_perm, elem_of_elements in Hc. by apply bool_decide_true.
    - destruct (m !! o) as [c|] eqn:Eo; [|done]. intros Hc%bool_decide_eq_true. exists c.
      rewrite set_iter_perm, elem_of_elements, Assignment.elem_of_getObjects by done. done. }
  assert (∀ o, o ∈ os → o ∈ dom m) as Hdom.
  { intros o. rewrite Hos. unfold on. intros Ho. apply elem_of_dom. by destruct (m !! o). }
  set (h o := if (f o =? d0)%D then None else Some (o, f o)).
  destruct (collects_loop (λ '(items, pots) o,
      v ← getObjectValue n o;
      if (v =? d0)%D then Ok (items, pots)
      else Ok (items ++ [(o, v)], (StdSet.insert ObjectPotential.lt (o, v) pots).1)) h os)
    with (items := @nil (Z * double)) (pots := @nil (Z * double)) as (pots' & -> & Hc).
  - intros o items pots Ho. rewrite Hf by auto. unfold h. simpl. by destruct (f o =? d0)%D.
  - intros o p Ho. unfold h. case_match; [done|]. intros [= <-]. simpl. apply (exact_canon f _ o Hx). auto.
  - split_and!; [set_solver|constructor|constructor].
  - simpl. eexists _, pots'. split; [done|]. split; [done|]. split.
    + apply (omap_keys_NoDup h id); [unfold h; intros o p; case_match; naive_solver|].
      rewrite list_fmap_id. by apply getObjects_NoDup.
    + intros o v. rewrite list_elem_of_omap. unfold E, h. rewrite contribution_lookup. split.
      * intros (o' & Ho & Hh). case_match eqn:Ef; [done|]. simplify_eq. by rewrite (proj1 (Hos _) Ho), Ef.
      * case_match eqn:Eb; [|done]. intros [= <-]. apply andb_true_iff in Eb as [Ho Hn].
        exists o. rewrite Hos. apply negb_true_iff in Hn. by rewrite Hn.
Qed.

(** The structures and the value after a full apply are those of the placement. *)
Lemma applyAssignment_spec n f a :
  fits n f (dom (Assignment.objectToContainer a)) → Assignment.inv a →
  (∀ em, ObjectVector.ok (object_vector n) em → ObjectVector.isZeroDefault (object_vector n) = true →
     ∀ o v, em !! o = Some v → o ∈ dom (Assignment.objectToContainer a) ∧ (v =? d0)%D = false) →
  ∃ n', applyAssignment n a = Ok (n', lookup_value (containers n) f (Assignment.objectToContainer a)) ∧
    holds n' (contribution (containers n) f (Assignment.objectToContainer a)) ∧ same_lookup n n'.
Proof.
  intros [Hf Hx (em & Hok & Ef)] Ha Hem. unfold applyAssignment.
  unfold ObjectVector.nonDefaultCount. cbn [object_vector].
  rewrite (ObjectValues.models_count _ _ (ObjectVector.ok_models _ _ Hok)). cbn [mbind result_bind].
  set (n0 := mk (containers n) (object_vector n) (values n) []).
  assert (fits n0 f (dom (Assignment.objectToContainer a))) as Hfit by (split; eauto).
  match goal with |- context [if ?b then _ else _] => set (cond := b) end.
  assert (∃ items pots, (if cond then getObjectValuesFromObjectVectorAndUpdateObjectPotentials n0 a
     else getObjectValuesFromAssignmentAndUpdateObjectPotentials n0 a) = Ok (items, pots) ∧
     collects items pots ∧ NoDup items.*1 ∧ (∀ o v, (o, v) ∈ items ↔
       contribution (containers n) f (Assignment.objectToContainer a) !! o = Some v))
    as (items & pots & -> & Hc & Hn & Hi).
  { destruct cond eqn:Ec; [|by apply (from_assignment_spec n0 f a)].
    apply andb_true_iff in Ec as [Hz _]. apply (from_vector_spec n0 f a); try done.
    intros em' Hok'. by apply Hem. }
  cbn [mbind result_bind].
  destruct (AssociativeHybridMap.hybrid_init_models dadd d0 dlt (values n0) items Hn) as (vals & -> & Hv).
  cbn [mbind result_bind].
  destruct (collects_holds n _ vals pots items Hv Hc Hn Hi) as [HE Hh]. rewrite HE in Hv.
  destruct (AssociativeHybridMap.query_models _ _ _ _ Hv) as (q & k & -> & Hq). cbn [mbind result_bind].
  eexists. split; [|done]. do 2 f_equal. by apply (sum_value _ f _ q k).
Qed.

(** *** Which changes matter *)

Lemma isAffectedByChange_spec n f D data cs :
  fits n f D → (∀ c, c ∈ cs → object c ∈ D) →
  ∃ a, isAffectedByChange n data = Ok a ∧ AffectedByChange.initialized a ∧
    AffectedByChange.filter_total a cs ∧
    (∀ c, c ∈ cs → container c ∈ containers n → (f (object c) =? d0)%D = false →
       AffectedByChange.matches_change a c = true).
Proof.
  intros [Hf Hx (em & Hok & Ef)] Hcs. unfold isAffectedByChange.
  assert (∀ b, AffectedByChange.initialized (AffectedByChange.mk (Some b) None None false)) as I1.
  { intros b. by exists CONTAINERS_ONLY. }
  destruct (ObjectVector.isZeroDefault (object_vector n)) eqn:Hz; simpl.
  2:{ eexists. split_and!; [done|by eexists|intros ? ? [=]|].
      intros c _ Hc _. unfold AffectedByChange.matches_change, AffectedByChange.passes. simpl.
      by rewrite bool_decide_true. }
  unfold ObjectVector.nonDefaultCount, ObjectVector.nonDefaultObjectIds, ObjectVector.forEachNonDefaultEntry.
  rewrite (ObjectValues.models_count _ _ (ObjectVector.ok_models _ _ Hok)).
  destruct (ObjectValues.models_iter _ _ (ObjectVector.ok_models _ _ Hok)) as (entries & -> & Hp).
  cbn [mbind result_bind]. case_match; simpl; (eexists; split; [done|]); split; try by eexists.
  - split.
    + intros g c. simpl. case_match; [intros [= <-] _; by eexists|done].
    + intros c Hc Hin Hv. unfold AffectedByChange.matches_change, AffectedByChange.passes. simpl.
      rewrite bool_decide_true;
        [simpl; destruct (Z.of_nat (size (containers n)) <? numTotalContainers data); [|done];
         apply bool_decide_true; by rewrite bool_decide_true|].
      apply elem_of_list_to_set. rewrite Hp. destruct (em !! object c) as [v|] eqn:El.
      * apply (list_elem_of_fmap_2 fst _ (object c, v)). by apply elem_of_map_to_list.
      * rewrite Ef in Hv. unfold ObjectVector.value_of in Hv. rewrite El in Hv. simpl in Hv.
        unfold ObjectVector.isZeroDefault in Hz. congruence.
  - split.
    + intros g c. simpl. case_match; [|done]. intros [= <-] Hc. rewrite Hf by auto. by eexists.
    + intros c Hc Hin Hv. unfold AffectedByChange.matches_change, AffectedByChange.passes. simpl.
      rewrite bool_decide_true by done. simpl.
      destruct (Z.of_nat (size em) <? numTotalObjects data); [|done].
      rewrite Hf by auto. cbn [mbind result_bind]. rewrite Hv. by apply bool_decide_true.
Qed.

Lemma contribution_frame n f data a cs m m' :
  fits n f (dom m) → transition cs m m' → isAffectedByChange n data = Ok a →
  AffectedByChange.matches a (ChangeSet.changes cs) = false →
  contribution (containers n) f m' = contribution (containers n) f m.
Proof.
  intros Hf Ht Ha Hm. apply map_eq. intros o. rewrite !contribution_lookup.
  destruct (f o =? d0)%D eqn:Ef; [by rewrite !andb_false_r|].
  rewrite (transition_same cs m m' o); [done|done|]. intros c Hc <- Hin.
  destruct (isAffectedByChange_spec n f (dom m) data (ChangeSet.changes cs) Hf (transition_objects _ _ _ Ht))
    as (a' & Ha' & _ & _ & Hall). rewrite Ha in Ha'. injection Ha' as <-.
  pose proof (Hall c Hc Hin Ef). by rewrite (AffectedByChange.matches_false _ _ c Hm Hc) in *.
Qed.

Lemma lookup_evaluate_total n f D v cs :
  fits n f D → ChangeSet.wf cs → (∀ c, c ∈ ChangeSet.changes cs → object c ∈ D) →
  ∃ r, evaluate n v cs = Ok r.
Proof.
  intros [Hf _ _] Hw Hcs. unfold evaluate.
  assert (∀ delta c, c ∈ ChangeSet.changes cs → ∃ r, add_delta n delta c = Ok r) as Hadd.
  { intros delta c Hc. unfold add_delta. rewrite Hf by auto. by eexists. }
  assert (∃ delta, (if Z.of_nat (ChangeSet.size cs) <=? Z.of_nat (size (containers n))
     then foldM (λ delta c, if decide (in_containers n c) then add_delta n delta c else Ok delta)
            d0 (ChangeSet.changes cs)
     else foldM (λ delta c, foldM (add_delta n) delta (ChangeSet.getChangesByContainer cs c))
            d0 (set_iter (containers n))) = Ok delta) as [delta ->].
  { case_match.
    - destruct (foldM_total (λ _ : double, True) (λ delta c, if decide (in_containers n c)
        then add_delta n delta c else Ok delta) d0 (ChangeSet.changes cs)) as (r & -> & _); [done| |by exists r].
      intros s c Hc _. case_decide; [|by exists s]. destruct (Hadd s c Hc) as [r ->]. by exists r.
    - rewrite foldM_bind.
      destruct (foldM_total (λ _ : double, True) (add_delta n) d0
        (set_iter (containers n) ≫= ChangeSet.getChangesByContainer cs)) as (r & -> & _); [done| |by exists r].
      intros s c Hc _. destruct (Hadd s c) as [r ->]; [|by exists r].
      unfold ChangeSet.getChangesByContainer in Hc.
      rewrite (index_perm container) in Hc by (apply Hw || (rewrite set_iter_perm; apply NoDup_elements)).
      by apply list_elem_of_filter in Hc as [_ ?]. }
  cbn [mbind result_bind]. case_match; by eexists.
Qed.

End lookup.
End ObjectLookup.
