(* ===== verification/Orchestrator.v ===== *)
(** * The orchestrator of the expression graph

    solver/expressions/Orchestrator.cpp, BottomToTopEvaluator.cpp and the caches of
    solver/utils/Context.h: the order of the nodes, the index from changes to the nodes
    they affect, evaluation of a change set and its application to the graph.  What the
    orchestrator uses of an expression is the class [ExpressionOps]. *)

From S2P Require Import Prelude Double Exact ChangeSet Assignment AccessOrderedSet Queues Affected Lookup.

Open Scope Z_scope.

(** ** Expressions, as the orchestrator sees them *)

(** What an expression reads of its surroundings: the stored value of another
    expression, [BottomToTopEvaluator::evaluate] or [apply], and the children that have
    changed. *)
Record Evaluator := mkEvaluator {
  current : Z → result double;
  updated : Z → result double;
  changed : gset Z
}.

Class ExpressionOps := {
  Expression : Type;
  children : Expression → gset Z;
  expression_value : Expression → double;
  isFixed : Expression → bool;
  markFixed : Expression → Expression;
  getDirectlyAffectedContainers : Expression → option (gset Z);
  isAffectedByChange : Expression → AffectedByChangeDecisionData → result (option AffectedByChange.t);
  expression_evaluate : Expression → Evaluator → ChangeSet.t → result double;
  (** the expression after the changes and the value returned *)
  partialApply : Expression → Evaluator → Assignment.t → ChangeSet.t → result (Expression * double)
}.

(** An expression is only asked for a new value when it is told of the changes or one of
    its children has changed. *)
Definition needed `{ExpressionOps} (x : Expression) (data : AffectedByChangeDecisionData)
    (ev : Evaluator) (cs : ChangeSet.t) : Prop :=
  (∃ a, isAffectedByChange x data = Ok (Some a) ∧
     AffectedByChange.matches a (ChangeSet.changes cs) = true) ∨ changed ev ≠ ∅.

(** What the orchestrator relies on.  [spec x m D] is the value expression [x] has when
    the objects are placed as in [m] and the children have the values [D]; [consistent x
    m D] says that the state of [x] is that of the placement and of these values.
    Applying changes brings an expression that is in step with the old placement, or
    already with the new one, in step with the new one; an expression that is not told
    of the changes and whose children keep their values stays in step. *)
Class ExpressionLaws `{ExpressionOps} := {
  same : relation Expression;
  same_equiv : Equivalence same;
  spec : Expression → gmap Z Z → (Z → double) → double;
  consistent : Expression → gmap Z Z → (Z → double) → Prop;
  same_children x y : same x y → children x = children y;
  same_affected x y data : same x y → isAffectedByChange x data = isAffectedByChange y data;
  same_spec x y m D : same x y → spec x m D = spec y m D;
  spec_children x m D D' :
    (∀ c, c ∈ children x → D c = D' c) → spec x m D = spec x m D';
  markFixed_same x : same x (markFixed x);
  markFixed_consistent x m D : consistent x m D → consistent (markFixed x) m D;
  consistent_children x m D D' :
    (∀ c, c ∈ children x → D c = D' c) → consistent x m D → consistent x m D';
  consistent_value x m D : consistent x m D → expression_value x = spec x m D;
  affected_total x m D data cs :
    consistent x m D → (∀ c, c ∈ cs → object c ∈ dom m) →
    ∃ info, isAffectedByChange x data = Ok info ∧
      ∀ a, info = Some a → AffectedByChange.initialized a ∧ AffectedByChange.filter_total a cs;
  evaluate_total x m D data ev cs :
    consistent x m D → needed x data ev cs → ChangeSet.wf cs → (∀ c, c ∈ ChangeSet.changes cs → object c ∈ dom m) →
    changed ev ⊆ children x →
    (∀ c, c ∈ children x → current ev c = Ok (D c) ∧ ∃ v, updated ev c = Ok v) →
    ∃ v, expression_evaluate x ev cs = Ok v;
  evaluate_children x m D ev ev' cs :
    consistent x m D → changed ev = changed ev' → changed ev ⊆ children x →
    (∀ c, c ∈ children x → current ev c = current ev' c ∧ updated ev c = updated ev' c) →
    expression_evaluate x ev cs = expression_evaluate x ev' cs;
  partialApply_spec x data ev a cs m m' D D' :
    needed x data ev cs → transition cs m m' → Assignment.inv a → Assignment.objectToContainer a = m' →
    (∀ c, c ∈ children x → canon (D c) ∧ canon (D' c)) → canon (spec x m' D') →
    consistent x m D ∨ consistent x m' D' →
    (∀ c, c ∈ children x → current ev c = Ok (D' c) ∧ updated ev c = Ok (D' c)) →
    (∀ c, c ∈ changed ev ↔ c ∈ children x ∧ D c ≠ D' c) →
    ∃ x', partialApply x ev a cs = Ok (x', spec x m' D') ∧ same x x' ∧ consistent x' m' D';
  frame x data info cs m m' D D' :
    transition cs m m' → consistent x m D → (∀ c, c ∈ children x → D c = D' c) →
    isAffectedByChange x data = Ok info →
    (∀ a, info = Some a → AffectedByChange.matches a (ChangeSet.changes cs) = false) →
    consistent x m' D'
}.
#[export] Existing Instance same_equiv.

(** ** Context *)

(** [Cache::save] does not overwrite. *)
Definition save {T} (cache : gmap Z T) (exp_id : Z) (val : T) : gmap Z T :=
  match cache !! exp_id with Some _ => cache | None => <[exp_id := val]> cache end.

Abbreviation ReadyNodes := (list (PriorityInfo * list Z)).

Record EvaluationContext := mkContext {
  ctx_val : gmap Z double;
  ctx_apply : gmap Z double;
  changedChildren : gmap Z (gset Z);
  ctx_changes : option ChangeSet.t;
  readyNodes : ReadyNodes;
  evaluatedRoots : Z
}.

(** A new context with the changes of a candidate. *)
Definition newContext (changes : option ChangeSet.t) : EvaluationContext :=
  mkContext ∅ ∅ ∅ changes BucketedPriorityQueue.clear (-1).

Definition context_clear (ctx : EvaluationContext) : EvaluationContext := newContext None.

Definition getChangedChildren (ctx : EvaluationContext) (e : Z) : gset Z :=
  default ∅ (changedChildren ctx !! e).

Definition with_ready (ctx : EvaluationContext) (q : ReadyNodes) : EvaluationContext :=
  mkContext (ctx_val ctx) (ctx_apply ctx) (changedChildren ctx) (ctx_changes ctx) q (evaluatedRoots ctx).
Definition with_changed (ctx : EvaluationContext) (cc : gmap Z (gset Z)) : EvaluationContext :=
  mkContext (ctx_val ctx) (ctx_apply ctx) cc (ctx_changes ctx) (readyNodes ctx) (evaluatedRoots ctx).
Definition save_val (ctx : EvaluationContext) (e : Z) (v : double) : EvaluationContext :=
  mkContext (save (ctx_val ctx) e v) (ctx_apply ctx) (changedChildren ctx) (ctx_changes ctx)
    (readyNodes ctx) (evaluatedRoots ctx).
Definition save_apply (ctx : EvaluationContext) (e : Z) (v : double) : EvaluationContext :=
  mkContext (ctx_val ctx) (save (ctx_apply ctx) e v) (changedChildren ctx) (ctx_changes ctx)
    (readyNodes ctx) (evaluatedRoots ctx).
Definition next_root (ctx : EvaluationContext) : EvaluationContext :=
  mkContext (ctx_val ctx) (ctx_apply ctx) (changedChildren ctx) (ctx_changes ctx)
    (readyNodes ctx) (evaluatedRoots ctx + 1).

(** [std::any_of] with a predicate that may throw. *)
Fixpoint any_of {A} (f : A → result bool) (l : list A) : result bool :=
  match l with
  | [] => Ok false
  | a :: l => b ← f a; if (b : bool) then Ok true else any_of f l
  end.

Module Orchestrator.
Section orchestrator.
Context `{HashOrder} `{ExpressionOps}.

(** The expressions, by the number that stands for their address and their id. *)
Abbreviation ExprGraph := (gmap Z Expression).

Definition deref (g : ExprGraph) (e : Z) : result Expression :=
  match g !! e with
  | Some x => Ok x
  | None => Throw (undefined_behaviour "dangling expression")
  end.

(** *** State *)

Record Order := mkOrder {
  postOrder : list Z;
  nodeToPriority : gmap Z PriorityInfo;
  nFixedNodes : Z
}.

Record Index := mkIndex {
  leafStore : list (Z * ChangeFilterFn);
  containerToLeaves : list (gmap Z (list Z));
  objectToLeaves : list (gmap Z (list Z));
  containerObjectToLeaves : list (gmap Z (gmap Z (list Z)));
  toCheckLeaves : list (list Z)
}.

Record t := mk {
  roots : list Z;
  order : Order;
  nodeToParents : gmap Z (list Z);
  index : Index
}.

Definition priority (o : t) (e : Z) : result PriorityInfo := at_ (nodeToPriority (order o) !! e).

(** *** Order *)

(** The visited set, the order so far and the graph, in which fixed nodes are marked. *)
Record Traversal := mkTraversal {
  visited : gset Z;
  tr_order : Order;
  tr_graph : ExprGraph
}.

Definition all_fixed (fixedContainers : gset Z) (x : Expression) : bool :=
  match getDirectlyAffectedContainers x with
  | Some cs => bool_decide (set_Forall (λ c, c ∈ fixedContainers) cs)
  | None => true
  end.

(** The part of [traversePostOrder] after the loop over the children. *)
Definition finish_node (fixedContainers : gset Z) (currRootIdx : Z) (node : Z)
    (s : Traversal) (isFixedExpr : bool) (maxChildHeight : Z) : result Traversal :=
  let od := tr_order s in
  let od' := mkOrder (postOrder od ++ [node])
               (save (nodeToPriority od) node (mkPriority currRootIdx (maxChildHeight + 1)))
               (nFixedNodes od) in
  x ← deref (tr_graph s) node;
  if isFixedExpr && all_fixed fixedContainers x
  then Ok (mkTraversal (visited s) (mkOrder (postOrder od') (nodeToPriority od') (nFixedNodes od' + 1))
             (<[node := markFixed x]> (tr_graph s)))
  else Ok (mkTraversal (visited s) od' (tr_graph s)).

(** The depth of the recursion is bounded by [fuel]. *)
Fixpoint traversePostOrder (fuel : nat) (fixedContainers : gset Z) (currRootIdx : Z)
    (s : Traversal) (node : Z) : result Traversal :=
  match fuel with
  | O => Throw (undefined_behaviour "unbounded recursion")
  | S fuel =>
      if decide (node ∈ visited s) then Ok s
      else
        let s := mkTraversal ({[node]} ∪ visited s) (tr_order s) (tr_graph s) in
        x ← deref (tr_graph s) node;
        '(s, isFixedExpr, maxChildHeight) ←
          foldM (λ '(s, isFixedExpr, maxChildHeight) child,
            s ← traversePostOrder fuel fixedContainers currRootIdx s child;
            y ← deref (tr_graph s) child;
            p ← at_ (nodeToPriority (tr_order s) !! child);
            Ok (s, isFixedExpr && isFixed y, Z.max maxChildHeight (height p)))
            (s, true, 0) (set_iter (children x));
        finish_node fixedContainers currRootIdx node s isFixedExpr maxChildHeight
  end.

(** The traversal of every root, and where the nodes of each end in the post order. *)
Definition initOrder (fuel : nat) (rs : list Z) (fixedContainers : gset Z) (g : ExprGraph)
    : result (Traversal * list Z) :=
  foldM (λ '(s, nodeRangeByRoots) rootIdx,
    root ← vec_get rs rootIdx;
    s ← traversePostOrder fuel fixedContainers rootIdx s root;
    Ok (s, nodeRangeByRoots ++ [Z.of_nat (length (postOrder (tr_order s)))]))
    (mkTraversal ∅ (mkOrder [] ∅ 0) g, [0]) (Z.of_nat <$> seq 0 (length rs)).

Definition initParents (postOrder : list Z) (g : ExprGraph) : result (gmap Z (list Z)) :=
  foldM (λ parents node,
    x ← deref g node;
    Ok (foldl (λ parents child, <[child := default [] (parents !! child) ++ [node]]> parents)
          parents (set_iter (children x)))) ∅ postOrder.

(** *** The index from changes to leaves *)

Definition push_leaf (m : gmap Z (list Z)) (leaf k : Z) : gmap Z (list Z) :=
  <[k := default [] (m !! k) ++ [leaf]]> m.

Definition push_pair (objs : list Z) (m : gmap Z (gmap Z (list Z))) (leaf c : Z)
    : gmap Z (gmap Z (list Z)) :=
  foldl (λ m ob, <[c := push_leaf (default ∅ (m !! c)) leaf ob]> m) m objs.

(** [LeafStore::add], and the entry of the leaf in one of the four indexes. *)
Definition initChangeInfo (g : ExprGraph) (node rootId : Z) (data : AffectedByChangeDecisionData)
    (ix : Index) : result Index :=
  x ← deref g node;
  affectedByChangeInfo ← isAffectedByChange x data;
  match affectedByChangeInfo with
  | None => Ok ix
  | Some a =>
      changeType ← AffectedByChange.getType a;
      let leafId := Z.of_nat (length (leafStore ix)) in
      let store := leafStore ix ++ [(node, AffectedByChange.filter a)] in
      match changeType with
      | CONTAINERS_ONLY =>
          cs ← AffectedByChange.getContainers a;
          m ← vec_get (containerToLeaves ix) rootId;
          v ← vec_set (containerToLeaves ix) rootId (foldl (λ m c, push_leaf m leafId c) m (set_iter cs));
          Ok (mkIndex store v (objectToLeaves ix) (containerObjectToLeaves ix) (toCheckLeaves ix))
      | OBJECTS_ONLY =>
          os ← AffectedByChange.getObjects a;
          m ← vec_get (objectToLeaves ix) rootId;
          v ← vec_set (objectToLeaves ix) rootId (foldl (λ m ob, push_leaf m leafId ob) m (set_iter os));
          Ok (mkIndex store (containerToLeaves ix) v (containerObjectToLeaves ix) (toCheckLeaves ix))
      | ALL_GIVEN_CONTAINER_OBJECT_PAIRS =>
          cs ← AffectedByChange.getContainers a;
          os ← AffectedByChange.getObjects a;
          m ← vec_get (containerObjectToLeaves ix) rootId;
          v ← vec_set (containerObjectToLeaves ix) rootId
                (foldl (λ m c, push_pair (set_iter os) m leafId c) m (set_iter cs));
          Ok (mkIndex store (containerToLeaves ix) (objectToLeaves ix) v (toCheckLeaves ix))
      | ALL_CHANGES =>
          l ← vec_get (toCheckLeaves ix) rootId;
          v ← vec_set (toCheckLeaves ix) rootId (l ++ [leafId]);
          Ok (mkIndex store (containerToLeaves ix) (objectToLeaves ix) (containerObjectToLeaves ix) v)
      end
  end.

Definition initIndex (rs : list Z) (nodeRangeByRoots postOrder : list Z)
    (data : AffectedByChangeDecisionData) (g : ExprGraph) : result Index :=
  foldM (λ ix i,
    let ix := mkIndex (leafStore ix) (containerToLeaves ix ++ [∅]) (objectToLeaves ix ++ [∅])
                (containerObjectToLeaves ix ++ [∅]) (toCheckLeaves ix ++ [[]]) in
    from ← vec_get nodeRangeByRoots i;
    to ← vec_get nodeRangeByRoots (i + 1);
    foldM (λ ix j, node ← vec_get postOrder j; initChangeInfo g node i data ix)
      ix (seqZ from (to - from)))
    (mkIndex [] [] [] [] []) (Z.of_nat <$> seq 0 (length rs)).

Definition init (fuel : nat) (rs : list Z) (data : AffectedByChangeDecisionData)
    (fixedContainers : gset Z) (g : ExprGraph) : result (t * ExprGraph) :=
  '(s, nodeRangeByRoots) ← initOrder fuel rs fixedContainers g;
  parents ← initParents (postOrder (tr_order s)) (tr_graph s);
  ix ← initIndex rs nodeRangeByRoots (postOrder (tr_order s)) data (tr_graph s);
  Ok (mk rs (tr_order s) parents ix, tr_graph s).

(** *** Changed leaves *)

(** The set of leaves seen and the queue. *)
Definition processLeaf (o : t) (shouldDedupeLeaves : bool) (s : gset Z * ReadyNodes) (leafId : Z)
    : result (gset Z * ReadyNodes) :=
  let '(leaves, q) := s in
  if shouldDedupeLeaves && bool_decide (leafId ∈ leaves) then Ok (leaves, q)
  else
    leaf ← vec_get (leafStore (index o)) leafId;
    p ← priority o leaf.1;
    Ok (if shouldDedupeLeaves then {[leafId]} ∪ leaves else leaves,
        BucketedPriorityQueue.emplace Priority.gt q p leaf.1).

Definition processFilteredLeaves (o : t) (shouldDedupeLeaves : bool) (s : gset Z * ReadyNodes)
    (leafIds : list Z) (changes : list Change) : result (gset Z * ReadyNodes) :=
  foldM (λ s leafId,
    leaf ← vec_get (leafStore (index o)) leafId;
    match leaf.2 with
    | None => processLeaf o shouldDedupeLeaves s leafId
    | Some filter =>
        b ← any_of filter changes;
        if (b : bool) then processLeaf o shouldDedupeLeaves s leafId else Ok s
    end) s leafIds.

Definition computeChangedLeavesByRoot (o : t) (ctx : EvaluationContext) (root : Z)
    : result EvaluationContext :=
  let shouldDedupeLeaves :=
    match ctx_changes ctx with
    | Some cs => negb (ChangeSet.is_empty cs) && negb (ChangeSet.representsSingleMove cs)
    | None => false
    end in
  let processLeaves s leafIds := foldM (processLeaf o shouldDedupeLeaves) s leafIds in
  toCheck ← vec_get (toCheckLeaves (index o)) root;
  s ← processLeaves (∅, readyNodes ctx) toCheck;
  s ← match ctx_changes ctx with
      | None => Ok s
      | Some changeSet =>
          containerObjects ← vec_get (containerObjectToLeaves (index o)) root;
          s ← foldM (λ s '(c, changes),
                match containerObjects !! c with
                | None => Ok s
                | Some objectLeaves =>
                    foldM (λ s change,
                      match (objectLeaves : gmap Z (list Z)) !! object change with
                      | None => Ok s
                      | Some leafIds => processLeaves s leafIds
                      end) s changes
                end) s (hash_iter (ChangeSet.containerToChanges changeSet));
          containerLeaves ← vec_get (containerToLeaves (index o)) root;
          s ← foldM (λ s '(c, _),
                match containerLeaves !! c with
                | None => Ok s
                | Some leafIds => processFilteredLeaves o shouldDedupeLeaves s leafIds
                                    (ChangeSet.getChangesByContainer changeSet c)
                end) s (hash_iter (ChangeSet.containerToChanges changeSet));
          objectLeaves ← vec_get (objectToLeaves (index o)) root;
          foldM (λ s '(ob, _),
                match objectLeaves !! ob with
                | None => Ok s
                | Some leafIds => processFilteredLeaves o shouldDedupeLeaves s leafIds
                                    (ChangeSet.getChangesByObject changeSet ob)
                end) s (hash_iter (ChangeSet.objectToChanges changeSet))
      end;
  Ok (with_ready ctx s.2).

Definition computeAllChangedLeaves (o : t) (ctx : EvaluationContext) : result EvaluationContext :=
  foldM (computeChangedLeavesByRoot o) ctx (Z.of_nat <$> seq 0 (length (roots o))).

Definition computeChangedLeaves (o : t) (ctx : EvaluationContext) : result EvaluationContext :=
  let ctx := next_root ctx in
  computeChangedLeavesByRoot o ctx (evaluatedRoots ctx).

(** *** Propagation *)

Definition notifyChange (o : t) (ctx : EvaluationContext) (changedNode : Z) : result EvaluationContext :=
  match nodeToParents o !! changedNode with
  | None => Ok ctx
  | Some parents =>
      foldM (λ ctx parent,
        let cc := getChangedChildren ctx parent in
        ctx ← (if decide (cc = ∅)
               then p ← priority o parent;
                    Ok (with_ready ctx (BucketedPriorityQueue.emplace Priority.gt (readyNodes ctx) p parent))
               else Ok ctx);
        Ok (with_changed ctx (<[parent := {[changedNode]} ∪ cc]> (changedChildren ctx)))) ctx parents
  end.

(** [BottomToTopEvaluator]: the cached value, or the stored one. *)
Definition read_value (g : ExprGraph) (e : Z) : result double :=
  x ← deref g e; Ok (expression_value x).

Definition cached_or_value (cache : gmap Z double) (g : ExprGraph) (e : Z) : result double :=
  match cache !! e with Some v => Ok v | None => read_value g e end.

Definition evaluator_for (cache : gmap Z double) (g : ExprGraph) (ctx : EvaluationContext) (e : Z)
    : Evaluator :=
  mkEvaluator (read_value g) (cached_or_value cache g) (getChangedChildren ctx e).

Definition changes_of (ctx : EvaluationContext) : result ChangeSet.t :=
  match ctx_changes ctx with
  | Some cs => Ok cs
  | None => Throw (undefined_behaviour "dereference of an empty Optional")
  end.

(** One iteration of the loop of [apply]. *)
Definition apply_step (o : t) (a : Assignment.t) (g : ExprGraph) (ctx : EvaluationContext)
    : result (ExprGraph * EvaluationContext) :=
  expr ← BucketedPriorityQueue.top (readyNodes ctx);
  q ← BucketedPriorityQueue.pop (readyNodes ctx);
  let ctx := with_ready ctx q in
  x ← deref g expr;
  let oldValue := expression_value x in
  '(g, newValue) ←
    match ctx_apply ctx !! expr with
    | Some cached => Ok (g, cached)
    | None =>
        cs ← changes_of ctx;
        '(x', v) ← partialApply x (evaluator_for (ctx_apply ctx) g ctx expr) a cs;
        Ok (<[expr := x']> g, v)
    end;
  if negb (oldValue =? newValue)%D
  then ctx ← notifyChange o (save_apply ctx expr newValue) expr; Ok (g, ctx)
  else Ok (g, ctx).

Fixpoint apply_loop (fuel : nat) (o : t) (a : Assignment.t) (g : ExprGraph) (ctx : EvaluationContext)
    : result (ExprGraph * EvaluationContext) :=
  if BucketedPriorityQueue.empty (readyNodes ctx) then Ok (g, ctx)
  else match fuel with
       | O => Throw (undefined_behaviour "unbounded loop")
       | S fuel => '(g, ctx) ← apply_step o a g ctx; apply_loop fuel o a g ctx
       end.

(** A node is pushed once when a first child of it changes, besides the pushes of the
    leaves. *)
Definition loop_bound (o : t) (ctx : EvaluationContext) : nat :=
  length (BucketedPriorityQueue.flatten (readyNodes ctx)) + length (postOrder (order o)).

Definition apply (o : t) (ctx : EvaluationContext) (a : Assignment.t) (g : ExprGraph)
    : result (ExprGraph * EvaluationContext) :=
  ctx ← computeAllChangedLeaves o ctx;
  apply_loop (loop_bound o ctx) o a g ctx.

(** *** Evaluation *)

Fixpoint push_roots (fuel : nat) (o : t) (nodePriority : PriorityInfo) (ctx : EvaluationContext)
    : result EvaluationContext :=
  root ← vec_get (roots o) (evaluatedRoots ctx);
  p ← priority o root;
  if Priority.lt nodePriority p
  then match fuel with
       | O => Throw (undefined_behaviour "unbounded loop")
       | S fuel => ctx ← computeChangedLeaves o ctx; push_roots fuel o nodePriority ctx
       end
  else Ok ctx.

(** The value when the node itself is reached. *)
Fixpoint evaluate_loop (fuel : nat) (o : t) (g : ExprGraph) (changes : ChangeSet.t) (node : Z)
    (nodePriority : PriorityInfo) (ctx : EvaluationContext) : result (EvaluationContext * option double) :=
  if BucketedPriorityQueue.empty (readyNodes ctx) then Ok (ctx, None)
  else
    expr ← BucketedPriorityQueue.top (readyNodes ctx);
    p ← priority o expr;
    if Priority.lt p nodePriority then Ok (ctx, None)
    else match fuel with
         | O => Throw (undefined_behaviour "unbounded loop")
         | S fuel =>
             q ← BucketedPriorityQueue.pop (readyNodes ctx);
             let ctx := with_ready ctx q in
             x ← deref g expr;
             newValue ← expression_evaluate x (evaluator_for (ctx_val ctx) g ctx expr) changes;
             ctx ← (if negb (expression_value x =? newValue)%D
                    then notifyChange o (save_val ctx expr newValue) expr
                    else Ok ctx);
             if expr =? node then Ok (ctx, Some newValue)
             else evaluate_loop fuel o g changes node nodePriority ctx
         end.

Definition evaluate (o : t) (g : ExprGraph) (node : Z) (ctx : EvaluationContext)
    : result (EvaluationContext * double) :=
  changes ← changes_of ctx;
  ctx ← (if evaluatedRoots ctx =? -1 then computeChangedLeaves o ctx else Ok ctx);
  nodePriority ← priority o node;
  ctx ← push_roots (length (roots o)) o nodePriority ctx;
  '(ctx, r) ← evaluate_loop (loop_bound o ctx) o g changes node nodePriority ctx;
  match r with
  | Some v => Ok (ctx, v)
  | None => v ← cached_or_value (ctx_val ctx) g node; Ok (ctx, v)
  end.

End orchestrator.
End Orchestrator.
