(* ===== verification/OrchestratorInit.v ===== *)
(** * Building the orchestrator: facts

    The post order, the priorities and the index that [Orchestrator.init] builds for an
    acyclic graph. *)

From S2P Require Import Prelude Double Exact ChangeSet Assignment AccessOrderedSet Queues Affected Lookup Orchestrator.
Import Orchestrator.

Open Scope Z_scope.

Section traversal.
Context `{HashOrder} `{ExpressionLaws}.

(** A node, possibly marked as fixed since. *)
Definition marked (x y : Expression) : Prop :=
  same x y ∧ ∀ m D, consistent x m D → consistent y m D.

#[export] Instance marked_preorder : PreOrder marked.
Proof.
  split; [by intros x; split|]. intros x y z [S1 C1] [S2 C2]. split; [by trans y|auto].
Qed.

Lemma marked_markFixed x : marked x (markFixed x).
Proof. split; [apply markFixed_same|intros ? ?; apply markFixed_consistent]. Qed.

Context (g0 : gmap Z Expression) (fixedContainers : gset Z) (rank : Z → nat).
Context (Hrank : ∀ n x c, g0 !! n = Some x → c ∈ children x → is_Some (g0 !! c) ∧ (rank c < rank n)%nat).

Definition marked_graph (g : gmap Z Expression) : Prop :=
  ∀ n, option_Forall2 marked (g0 !! n) (g !! n).

Abbreviation prio s n := (nodeToPriority (tr_order s) !! n).
Abbreviation post s := (postOrder (tr_order s)).

Lemma marked_lookup g n x :
  marked_graph g → g0 !! n = Some x → ∃ y, g !! n = Some y ∧ marked x y.
Proof. intros Hg Hx. specialize (Hg n). rewrite Hx in Hg. inversion Hg; subst. eauto. Qed.

Lemma deref_marked g n x :
  marked_graph g → g0 !! n = Some x → ∃ y, deref g n = Ok y ∧ marked x y.
Proof.
  intros Hg Hx. destruct (marked_lookup g n x Hg Hx) as (y & Hy & Hm).
  exists y. unfold deref. by rewrite Hy.
Qed.

(** The order so far: every node in it comes after its children, and has a lower
    priority. *)
Record tinv (r : Z) (s : Traversal) : Prop := {
  t_graph : marked_graph (tr_graph s);
  t_nodup : NoDup (post s);
  t_visited n : n ∈ post s → n ∈ visited s;
  t_dom n : is_Some (prio s n) ↔ n ∈ post s;
  t_node n : n ∈ post s → is_Some (g0 !! n);
  t_prio n p : prio s n = Some p → 0 ≤ rootIdx p ≤ r ∧ 1 ≤ height p;
  t_closed n p x c : prio s n = Some p → g0 !! n = Some x → c ∈ children x →
    ∃ q, prio s c = Some q ∧ rootIdx q ≤ rootIdx p ∧ height q < height p
}.

(** What a step of the traversal of root [r] adds: nodes of that root up to a height. *)
Record grows (r : Z) (s s' : Traversal) (h : Z) (ext : list Z) : Prop := {
  g_post : post s' = post s ++ ext;
  g_visited : visited s' = visited s ∪ list_to_set ext;
  g_prio n p : prio s n = Some p → prio s' n = Some p;
  g_new n : n ∈ ext → ∃ p, prio s' n = Some p ∧ rootIdx p = r ∧ height p ≤ h;
  g_fresh n : n ∈ ext → n ∉ visited s
}.

Lemma grows_refl r s h : grows r s s h [].
Proof. split; [by rewrite app_nil_r|set_solver|done|set_solver|set_solver]. Qed.

Lemma grows_trans r s1 s2 s3 h1 h2 h e1 e2 :
  grows r s1 s2 h1 e1 → grows r s2 s3 h2 e2 → h1 ≤ h → h2 ≤ h → grows r s1 s3 h (e1 ++ e2).
Proof.
  intros [P1 V1 M1 N1 F1] [P2 V2 M2 N2 F2] Hle1 Hle2. split.
  - by rewrite P2, P1, app_assoc.
  - rewrite V2, V1, list_to_set_app_L. set_solver.
  - auto.
  - intros n [Hn|Hn]%elem_of_app.
    + destruct (N1 n Hn) as (p & Hp & ? & ?). exists p. split; [auto|lia].
    + destruct (N2 n Hn) as (p & Hp & ? & ?). exists p. split; [auto|lia].
  - intros n [Hn|Hn]%elem_of_app; [auto|]. apply F2 in Hn. set_solver.
Qed.

(** Nodes on the stack of the recursion. *)
Definition active (s : Traversal) (k : Z) : Prop := k ∈ visited s ∧ k ∉ post s.

Lemma grows_active r s s' h ext k : grows r s s' h ext → active s' k → active s k.
Proof.
  intros [P V _ _ _] [Hv Hp]. rewrite V in Hv. rewrite P in Hp. split; set_solver.
Qed.

(** *** The last part: the node itself *)
Lemma finish_spec r s node x (b : bool) h :
  0 ≤ r → 0 ≤ h → tinv r s → active s node → g0 !! node = Some x →
  (∀ c, c ∈ children x → ∃ q, prio s c = Some q ∧ height q ≤ h) →
  ∃ s', finish_node fixedContainers r node s b h = Ok s' ∧ tinv r s' ∧
    prio s' node = Some (mkPriority r (h + 1)) ∧
    post s' = post s ++ [node] ∧ visited s' = visited s ∧
    (∀ n p, prio s n = Some p → prio s' n = Some p).
Proof.
  intros Hr Hh [Hg Hnd Hv Hd Hn Hp Hc] [Ha1 Ha2] Hx Hch. unfold finish_node.
  destruct (deref_marked _ node x Hg Hx) as (y & -> & Hm). cbn [mbind result_bind].
  assert (prio s node = None) as Hnone.
  { apply eq_None_not_Some. by rewrite Hd. }
  unfold save. rewrite Hnone.
  set (pr := <[node := mkPriority r (h + 1)]> (nodeToPriority (tr_order s))).
  assert (∀ n p, prio s n = Some p → pr !! n = Some p) as Hext.
  { intros n p Hnp. unfold pr. rewrite lookup_insert_ne; [done|]. intros ->. congruence. }
  assert (∀ gr k, marked_graph gr → tinv r (mkTraversal (visited s)
            (mkOrder (post s ++ [node]) pr k) gr)) as Hinv.
  { intros gr k Hgr. split; simpl.
    - done.
    - apply NoDup_app. split_and!; [done|set_solver|apply NoDup_singleton].
    - intros n [?| ->%list_elem_of_singleton]%elem_of_app; auto.
    - intros n. rewrite elem_of_app, list_elem_of_singleton, <- Hd. unfold pr. rewrite lookup_insert.
      case_decide; [naive_solver|]. naive_solver.
    - intros n [?| ->%list_elem_of_singleton]%elem_of_app; [auto|by eexists].
    - intros n p. unfold pr. rewrite lookup_insert. case_decide; [|apply Hp].
      intros [= <-]. simpl. lia.
    - intros n p x' c. unfold pr at 1. rewrite lookup_insert. case_decide as En.
      + subst n. intros [= <-] Hx' Hin. rewrite Hx in Hx'. injection Hx' as <-.
        destruct (Hch c Hin) as (q & Hq & Hle). exists q. split; [by apply Hext|].
        simpl. destruct (Hp c q Hq). lia.
      + intros Hnp Hx' Hin. destruct (Hc n p x' c Hnp Hx' Hin) as (q & Hq & ?).
        exists q. split; [by apply Hext|done]. }
  assert (pr !! node = Some (mkPriority r (h + 1))) as Hpr by (unfold pr; apply lookup_insert_eq).
  case_match; eexists; (split; [done|]); simpl; (split; [|done]); apply Hinv; [|done].
  intros n. rewrite lookup_insert. case_decide as En; [|apply Hg]. subst n. rewrite Hx.
  constructor. trans y; [done|]. apply marked_markFixed.
Qed.

(** *** The recursion *)

Definition traverse_child (fuel : nat) (r : Z) :=
  λ '(s, isFixedExpr, maxChildHeight) child,
    s ← traversePostOrder fuel fixedContainers r s child;
    y ← deref (tr_graph s) child;
    p ← at_ (nodeToPriority (tr_order s) !! child);
    Ok (s, isFixedExpr && isFixed y, Z.max maxChildHeight (height p)).

Definition traverses (fuel : nat) (r : Z) : Prop :=
  ∀ s n x, tinv r s → g0 !! n = Some x → (rank n < fuel)%nat →
  (∀ k, active s k → (rank n < rank k)%nat) →
  ∃ s' p ext, traversePostOrder fuel fixedContainers r s n = Ok s' ∧ tinv r s' ∧
    prio s' n = Some p ∧ grows r s s' (height p) ext ∧ (ext = [] ∨ n ∈ ext).

Lemma children_spec fuel r s cs (b : bool) h :
  traverses fuel r → tinv r s → 0 ≤ h →
  (∀ c, c ∈ cs → is_Some (g0 !! c) ∧ (rank c < fuel)%nat ∧ ∀ k, active s k → (rank c < rank k)%nat) →
  ∃ s' b' h' ext, foldM (traverse_child fuel r) (s, b, h) cs = Ok (s', b', h') ∧ tinv r s' ∧
    h ≤ h' ∧ grows r s s' h' ext ∧ ∀ c, c ∈ cs → ∃ q, prio s' c = Some q ∧ height q ≤ h'.
Proof.
  intros IH. revert s b h. induction cs as [|c cs IHc]; intros s b h Hs Hh Hcs.
  { exists s, b, h, []. split; [done|]. split; [done|]. split; [lia|]. split; [apply grows_refl|set_solver]. }
  destruct (Hcs c) as ([x Hx] & Hf & Ha); [set_solver|].
  destruct (IH s c x Hs Hx Hf Ha) as (s1 & p & e1 & E1 & T1 & P1 & G1 & _).
  destruct (deref_marked _ c x (t_graph _ _ T1) Hx) as (y & Ey & _).
  cbn [foldM]. unfold traverse_child at 2. rewrite E1. cbn [mbind result_bind]. rewrite Ey.
  cbn [mbind result_bind]. rewrite P1. cbn [at_ mbind result_bind].
  destruct (IHc s1 (b && isFixed y) (Z.max h (height p))) as (s2 & b2 & h2 & e2 & -> & T2 & L2 & G2 & C2);
    [done|lia| |].
  { intros c' Hc'. destruct (Hcs c') as (? & ? & Ha'); [set_solver|]. split_and!; [done|done|].
    intros k Hk. apply Ha'. by eapply grows_active. }
  exists s2, b2, h2, (e1 ++ e2). split; [done|]. split; [done|]. split; [lia|]. split.
  - eapply grows_trans; [done|done|lia|lia].
  - intros c' [->|Hc']%elem_of_cons; [|auto]. exists p. split; [by apply (g_prio _ _ _ _ _ G2)|lia].
Qed.

Lemma traversePostOrder_spec fuel r : 0 ≤ r → traverses fuel r.
Proof.
  intros Hr. induction fuel as [|fuel IH]; intros s n x Hs Hx Hf Ha; [lia|]. cbn [traversePostOrder].
  destruct (decide (n ∈ visited s)) as [Hv|Hv].
  { destruct (decide (n ∈ post s)) as [Hp|Hp]; [|exfalso; assert (rank n < rank n)%nat by (by apply Ha); lia].
    apply (t_dom _ _ Hs) in Hp as [p Hp]. exists s, p, []. split_and!; [done|done|done|apply grows_refl|by left]. }
  set (s1 := mkTraversal ({[n]} ∪ visited s) (tr_order s) (tr_graph s)).
  assert (tinv r s1) as Hs1.
  { destruct Hs. split; simpl; try done. intros k Hk. apply elem_of_union_r. auto. }
  destruct (deref_marked _ n x (t_graph _ _ Hs1) Hx) as (y & -> & [Sy _]). cbn [mbind result_bind].
  rewrite <- (same_children _ _ Sy).
  assert (∀ k, active s1 k → k = n ∨ active s k) as Hact.
  { intros k [Hk1 Hk2]. simpl in *. unfold active. set_solver. }
  destruct (children_spec fuel r s1 (set_iter (children x)) true 0 IH Hs1)
    as (s2 & b & h & ext & Ef & T2 & L2 & G2 & C2); [lia| |].
  { intros c Hc. rewrite set_iter_perm, elem_of_elements in Hc. destruct (Hrank n x c Hx Hc) as [Hc1 Hc2].
    split_and!; [done|lia|]. intros k [->|Hk]%Hact; [done|]. specialize (Ha k Hk). lia. }
  unfold traverse_child in Ef. rewrite Ef. cbn [mbind result_bind].
  assert (n ∉ post s) as Hnp by (intros Hin; apply Hv; by apply (t_visited _ _ Hs)).
  assert (active s2 n) as Hn2.
  { split; [rewrite (g_visited _ _ _ _ _ G2); simpl; set_solver|].
    rewrite (g_post _ _ _ _ _ G2). intros [?|Hin]%elem_of_app; [done|].
    apply (g_fresh _ _ _ _ _ G2 n Hin). simpl. set_solver. }
  destruct (finish_spec r s2 n x b h Hr L2 T2 Hn2 Hx) as (s3 & -> & T3 & P3 & E3 & V3 & M3).
  { intros c Hc. apply C2. by rewrite set_iter_perm, elem_of_elements. }
  exists s3, (mkPriority r (h + 1)), (ext ++ [n]). split; [done|]. split; [done|]. split; [done|].
  split; [|right; set_solver]. destruct G2 as [Gp Gv Gm Gn Gf]. simpl in *. split.
  - by rewrite E3, Gp, app_assoc.
  - rewrite V3, Gv, list_to_set_app_L. simpl. set_solver.
  - auto.
  - intros k [Hk| ->%list_elem_of_singleton]%elem_of_app.
    + destruct (Gn k Hk) as (p & Hp & ? & ?). exists p. simpl. split_and!; [auto|done|lia].
    + eexists. split; [done|]. simpl. split; lia.
  - intros k [Hk| ->%list_elem_of_singleton]%elem_of_app; [|done]. apply Gf in Hk. set_solver.
Qed.

(** *** All the roots *)

(** The end of each layer of the post order. *)
Definition offsets (L : list (list Z)) : list Z :=
  (λ k, Z.of_nat (length (concat (take k L)))) <$> seq 0 (S (length L)).

Lemma offsets_snoc L e : offsets (L ++ [e]) = offsets L ++ [Z.of_nat (length (concat (L ++ [e])))].
Proof.
  unfold offsets. rewrite length_app. simpl length. rewrite Nat.add_1_r, (seq_S (S (length L))).
  rewrite fmap_app. simpl (_ <$> [_]). f_equal.
  - apply list_fmap_ext. intros i k Hk%lookup_seq. by rewrite take_app_le by lia.
  - do 3 f_equal. rewrite take_ge; [done|]. rewrite length_app. simpl. lia.
Qed.

Lemma offsets_lookup L k : (k ≤ length L)%nat →
  offsets L !! k = Some (Z.of_nat (length (concat (take k L)))).
Proof. intros Hk. unfold offsets. rewrite list_lookup_fmap, lookup_seq_lt by lia. done. Qed.

Record rinv (rs : list Z) (s : Traversal) (ranges : list Z) (L : list (list Z)) : Prop := {
  r_tinv : tinv (Z.of_nat (length L) - 1) s;
  r_visited n : n ∈ visited s → n ∈ post s;
  r_post : post s = concat L;
  r_ranges : ranges = offsets L;
  r_layer i Li n : L !! i = Some Li → n ∈ Li → ∃ p, prio s n = Some p ∧ rootIdx p = Z.of_nat i;
  r_root i root : (i < length L)%nat → rs !! i = Some root →
    ∃ p, prio s root = Some p ∧ rootIdx p ≤ Z.of_nat i ∧
      ∀ n q, prio s n = Some q → rootIdx q = Z.of_nat i → rootIdx p = Z.of_nat i ∧ height q ≤ height p
}.

Lemma tinv_weaken r r' s : r ≤ r' → tinv r s → tinv r' s.
Proof. intros Hr [? ? ? ? ? Hp ?]. split; try done. intros n p Hn. destruct (Hp n p Hn). lia. Qed.

Lemma root_spec fuel rs s ranges L root x :
  rinv rs s ranges L → rs !! length L = Some root → g0 !! root = Some x → (rank root < fuel)%nat →
  ∃ s' e, traversePostOrder fuel fixedContainers (Z.of_nat (length L)) s root = Ok s' ∧
    rinv rs s' (ranges ++ [Z.of_nat (length (post s'))]) (L ++ [e]).
Proof.
  intros [Ht Hv Hp Hr Hl Ho] Hroot Hx Hf. set (r := Z.of_nat (length L)) in *.
  destruct (traversePostOrder_spec fuel r ltac:(lia) s root x) as (s' & p & e & -> & T & P & G & E).
  { by apply (tinv_weaken (r - 1)); [lia|]. }
  { done. }
  { done. }
  { intros k [Hk1 Hk2]. destruct Hk2. auto. }
  exists s', e. split; [done|]. destruct G as [Gp Gv Gm Gn Gf].
  assert (∀ n q, prio s' n = Some q → n ∈ e ∨ prio s n = Some q) as Hold.
  { intros n q Hq. assert (n ∈ post s') as Hin by (apply (t_dom _ _ T); by eexists).
    rewrite Gp in Hin. apply elem_of_app in Hin as [Hin|]; [right|by left].
    apply (t_dom _ _ Ht) in Hin as [q' Hq']. pose proof (Gm n q' Hq'). congruence. }
  split.
  - rewrite length_app. simpl. by replace (Z.of_nat (length L + 1) - 1) with r by lia.
  - intros n. rewrite Gv, Gp. intros [Hn%Hv|Hn]%elem_of_union; set_solver.
  - rewrite Gp, Hp, concat_app. simpl. by rewrite app_nil_r.
  - rewrite offsets_snoc, Hr. do 3 f_equal. rewrite Gp, Hp, concat_app. simpl. by rewrite app_nil_r.
  - intros i Li n [Hi|[Hi Hi']]%lookup_app_Some Hn.
    + destruct (Hl i Li n Hi Hn) as (q & ? & ?). exists q. auto.
    + apply list_lookup_singleton_Some in Hi' as [? <-]. destruct (Gn n Hn) as (q & ? & ? & ?).
      exists q. split; [done|]. lia.
  - intros i rt. rewrite length_app. simpl. intros Hi Hrt.
    destruct (decide (i = length L)) as [->|Hne].
    + rewrite Hroot in Hrt. injection Hrt as <-. exists p. split; [done|].
      destruct (t_prio _ _ T root p P) as [? _]. split; [lia|]. intros n q Hq Hqr.
      destruct (Hold n q Hq) as [Hne|Hq']; [|destruct (t_prio _ _ Ht n q Hq'); lia].
      destruct E as [->|Hin]; [set_solver|]. destruct (Gn root Hin) as (p' & Hp' & ? & _).
      rewrite P in Hp'. injection Hp' as <-. destruct (Gn n Hne) as (q' & Hq' & _ & ?).
      rewrite Hq in Hq'. injection Hq' as <-. done.
    + destruct (Ho i rt) as (q & Hq & ? & Hall); [lia|done|]. exists q. split; [auto|]. split; [done|].
      intros n q' Hq' Hi'. destruct (Hold n q' Hq') as [Hin|]; [|eauto].
      destruct (Gn n Hin) as (q2 & Hq2 & ? & _). rewrite Hq' in Hq2. injection Hq2 as <-. lia.
Qed.

Lemma initOrder_spec fuel rs :
  (∀ root, root ∈ rs → is_Some (g0 !! root) ∧ (rank root < fuel)%nat) →
  ∃ s L, initOrder fuel rs fixedContainers g0 = Ok (s, offsets L) ∧
    length L = length rs ∧ rinv rs s (offsets L) L.
Proof.
  intros Hrs. unfold initOrder.
  assert (∀ k, (k ≤ length rs)%nat → ∃ s L,
    foldM (λ '(s, nodeRangeByRoots) rootIdx,
      root ← vec_get rs rootIdx;
      s ← traversePostOrder fuel fixedContainers rootIdx s root;
      Ok (s, nodeRangeByRoots ++ [Z.of_nat (length (postOrder (tr_order s)))]))
      (mkTraversal ∅ (mkOrder [] ∅ 0) g0, [0]) (Z.of_nat <$> seq 0 k) = Ok (s, offsets L) ∧
    length L = k ∧ rinv rs s (offsets L) L) as Hk; [|by apply Hk].
  induction k as [|k IH]; intros Hk.
  - exists (mkTraversal ∅ (mkOrder [] ∅ 0) g0), []. split; [done|]. split; [done|].
    split; simpl; try done; [|intros; lia]. split; simpl; try set_solver.
    + intros n. destruct (g0 !! n); by constructor.
    + constructor.
    + intros n. rewrite lookup_empty. split; [intros [? [=]]|set_solver].
  - destruct IH as (s & L & Hf & HL & Hr); [lia|].
    destruct (lookup_lt_is_Some_2 rs k) as [root Hroot]; [lia|].
    destruct (Hrs root) as [[x Hx] Hrk]; [by eapply list_elem_of_lookup_2|].
    rewrite <- HL in Hroot.
    destruct (root_spec fuel rs s _ L root x Hr Hroot Hx Hrk) as (s' & e & Ht & Hr').
    exists s', (L ++ [e]). rewrite seq_S, fmap_app, foldM_app, Hf. cbn [mbind result_bind fmap list_fmap foldM].
    change (0 + k)%nat with k. assert (vec_get rs (Z.of_nat k) = Ok root) as ->.
    { apply vec_get_Ok. split; [lia|]. by rewrite Nat2Z.id, <- HL. }
    cbn [mbind result_bind]. rewrite <- HL in *. rewrite Ht. cbn [mbind result_bind].
    rewrite <- (r_ranges _ _ _ _ Hr'). split; [done|]. split; [|done]. rewrite length_app. simpl. lia.
Qed.

End traversal.
