(* ===== verification/OrchestratorIndex.v ===== *)
(** * The index of the orchestrator: facts

    What [Orchestrator.initParents] and [Orchestrator.initIndex] build: the parents of
    every node, and for each kind of change the leaves it affects. *)

From S2P Require Import Prelude Double Exact ChangeSet Assignment AccessOrderedSet Queues Affected Lookup Orchestrator OrchestratorInit.
Import Orchestrator.

Open Scope Z_scope.

(** ** The parents and the index *)
Section index.
Context `{HashOrder} `{ExpressionOps}.

Lemma initParents_spec (g : gmap Z Expression) po :
  (∀ n, n ∈ po → is_Some (g !! n)) →
  ∃ P, initParents po g = Ok P ∧
    ∀ c p, p ∈ default [] (P !! c) ↔ p ∈ po ∧ ∃ x, g !! p = Some x ∧ c ∈ children x.
Proof.
  unfold initParents. induction po as [|n po IH] using rev_ind; intros Hn.
  { exists ∅. split; [done|]. intros c p. rewrite lookup_empty. simpl. set_solver. }
  destruct IH as (P & HP & Hiff); [intros; apply Hn; set_solver|].
  rewrite foldM_app, HP. cbn [mbind result_bind foldM].
  destruct (Hn n) as [x Hx]; [set_solver|]. unfold deref at 1. rewrite Hx. cbn [mbind result_bind].
  eexists. split; [done|]. intros c p.
  assert (∀ (cs : list Z) (P : gmap Z (list Z)),
    p ∈ default [] (foldl (λ parents child, <[child := default [] (parents !! child) ++ [n]]> parents) P cs !! c)
      ↔ p ∈ default [] (P !! c) ∨ (p = n ∧ c ∈ cs)) as Hf.
  { induction cs as [|c' cs IHc]; intros P'; [set_solver|]. simpl foldl. rewrite IHc, lookup_insert.
    case_decide as Ec; [subst; simpl|]; set_solver. }
  rewrite Hf, Hiff, set_iter_perm, elem_of_elements, elem_of_app, list_elem_of_singleton. split.
  - intros [(? & y & ? & ?)|[-> ?]]; eauto.
  - intros [[Hin| ->] (y & Hy & Hc)]; [left; eauto|]. rewrite Hx in Hy. injection Hy as <-. by right.
Qed.

(** The leaves added so far: root, node and information. *)
Abbreviation leaves := (list (Z * Z * AffectedByChange.t)).

Definition is_leaf (LS : leaves) (i l : Z) (n : Z) (a : AffectedByChange.t) : Prop :=
  0 ≤ l ∧ LS !! Z.to_nat l = Some (i, n, a).

Definition has_leaf (LS : leaves) (i l : Z) (R : AffectedByChange.t → Prop) : Prop :=
  ∃ n a, is_leaf LS i l n a ∧ R a.

(** The index a leaf belongs to. *)
Definition in_check (a : AffectedByChange.t) : Prop := AffectedByChange.getType a = Ok ALL_CHANGES.
Definition in_cont (c : Z) (a : AffectedByChange.t) : Prop :=
  AffectedByChange.getType a = Ok CONTAINERS_ONLY ∧
  ∃ cs, AffectedByChange.containersPtr a = Some cs ∧ c ∈ cs.
Definition in_obj (ob : Z) (a : AffectedByChange.t) : Prop :=
  AffectedByChange.getType a = Ok OBJECTS_ONLY ∧
  ∃ os, AffectedByChange.objectsPtr a = Some os ∧ ob ∈ os.
Definition in_pair (c ob : Z) (a : AffectedByChange.t) : Prop :=
  AffectedByChange.getType a = Ok ALL_GIVEN_CONTAINER_OBJECT_PAIRS ∧
  ∃ cs os, AffectedByChange.containersPtr a = Some cs ∧ AffectedByChange.objectsPtr a = Some os ∧
    c ∈ cs ∧ ob ∈ os.

Record index_ok (ix : Index) (LS : leaves) (k : nat) : Prop := {
  i_store : leafStore ix = (λ '(_, n, a), (n, AffectedByChange.filter a)) <$> LS;
  i_check_len : length (toCheckLeaves ix) = k;
  i_cont_len : length (containerToLeaves ix) = k;
  i_obj_len : length (objectToLeaves ix) = k;
  i_pair_len : length (containerObjectToLeaves ix) = k;
  i_check i m : toCheckLeaves ix !! i = Some m →
    ∀ l, l ∈ m ↔ has_leaf LS (Z.of_nat i) l in_check;
  i_cont i m : containerToLeaves ix !! i = Some m →
    ∀ c l, l ∈ default [] (m !! c) ↔ has_leaf LS (Z.of_nat i) l (in_cont c);
  i_obj i m : objectToLeaves ix !! i = Some m →
    ∀ ob l, l ∈ default [] (m !! ob) ↔ has_leaf LS (Z.of_nat i) l (in_obj ob);
  i_pair i m : containerObjectToLeaves ix !! i = Some m →
    ∀ c ob l, l ∈ default [] (default ∅ (m !! c) !! ob) ↔ has_leaf LS (Z.of_nat i) l (in_pair c ob)
}.

Lemma is_leaf_snoc LS i n a i' l n' a' :
  is_leaf (LS ++ [(i, n, a)]) i' l n' a' ↔
    is_leaf LS i' l n' a' ∨ (l = Z.of_nat (length LS) ∧ i' = i ∧ n' = n ∧ a' = a).
Proof.
  unfold is_leaf. rewrite lookup_snoc_Some. split.
  - intros [Hl [[? ?]|[E [= <- <- <-]]]]; [by left|right]. split; [lia|done].
  - intros [[Hl Hs]|(-> & -> & -> & ->)].
    + split; [done|]. left. split; [by eapply lookup_lt_Some|done].
    + split; [lia|]. right. split; [lia|done].
Qed.

Lemma foldl_push_leaf (leaf : Z) (ks : list Z) (m : gmap Z (list Z)) k l :
  l ∈ default [] (foldl (λ m k, push_leaf m leaf k) m ks !! k) ↔
    l ∈ default [] (m !! k) ∨ (l = leaf ∧ k ∈ ks).
Proof.
  revert m. induction ks as [|k' ks IH]; intros m; simpl; [set_solver|].
  rewrite IH. unfold push_leaf. rewrite lookup_insert. case_decide as E; [subst; simpl|]; set_solver.
Qed.

Lemma push_pair_spec (os : list Z) m leaf c c' ob l :
  l ∈ default [] (default ∅ (push_pair os m leaf c !! c') !! ob) ↔
    l ∈ default [] (default ∅ (m !! c') !! ob) ∨ (l = leaf ∧ c' = c ∧ ob ∈ os).
Proof.
  unfold push_pair. revert m. induction os as [|o' os IH]; intros m; simpl; [set_solver|].
  rewrite IH, lookup_insert. case_decide as E.
  - subst c'. simpl. unfold push_leaf. rewrite lookup_insert. case_decide as E; [subst; simpl|]; set_solver.
  - set_solver.
Qed.

Lemma foldl_push_pair (cs os : list Z) m leaf c ob l :
  l ∈ default [] (default ∅ (foldl (λ m c, push_pair os m leaf c) m cs !! c) !! ob) ↔
    l ∈ default [] (default ∅ (m !! c) !! ob) ∨ (l = leaf ∧ c ∈ cs ∧ ob ∈ os).
Proof.
  revert m. induction cs as [|c' cs IH]; intros m; simpl; [set_solver|].
  rewrite IH, push_pair_spec. set_solver.
Qed.

Lemma has_leaf_snoc LS i n a i' l R :
  has_leaf (LS ++ [(i, n, a)]) i' l R ↔
    has_leaf LS i' l R ∨ (l = Z.of_nat (length LS) ∧ i' = i ∧ R a).
Proof.
  unfold has_leaf. setoid_rewrite is_leaf_snoc. split.
  - intros (n' & a' & [?|(-> & -> & -> & ->)] & ?); [left; eauto|by right].
  - intros [(n' & a' & ? & ?)|(-> & -> & ?)]; [exists n', a'; auto|]. exists n, a. split; [by right|done].
Qed.

(** The entry of one root is replaced and the leaf it gained is the new one. *)
Lemma vec_update {M} (v : list M) (i k : nat) (f : M → M) (Q Q' : nat → M → Prop) :
  length v = k → (i < k)%nat → (∀ j m, v !! j = Some m → Q j m) →
  (∀ j m, Q j m → j ≠ i → Q' j m) → (∀ m, Q i m → Q' i (f m)) →
  ∃ m, vec_get v (Z.of_nat i) = Ok m ∧
  ∃ v', vec_set v (Z.of_nat i) (f m) = Ok v' ∧ length v' = k ∧ ∀ j m', v' !! j = Some m' → Q' j m'.
Proof.
  intros Hl Hi HQ Hne Hf. destruct (lookup_lt_is_Some_2 v i) as [m Hm]; [lia|].
  exists m. split; [apply vec_get_Ok; split; [lia|by rewrite Nat2Z.id]|].
  eexists. split; [apply vec_set_Ok; lia|]. rewrite Nat2Z.id, length_insert. split; [done|].
  intros j m' Hj. apply list_lookup_insert_Some in Hj as [(<- & <- & _)|[Hji Hj]]; eauto.
Qed.

(** The new leaf is in the index of its type, and in no other. *)
#[local] Ltac leaf_type Ea Ec Eo :=
  unfold AffectedByChange.getType; rewrite ?Ea, ?Ec, ?Eo; naive_solver.
#[local] Ltac leaf_rest Hother Ea Ec Eo :=
  cbn [mbind result_bind]; eexists; split; [done|]; split; simpl; try done;
  intros ? ? ?; intros; rewrite Hother; eauto; right;
  unfold in_check, in_cont, in_obj, in_pair, AffectedByChange.getType; rewrite ?Ea, ?Ec, ?Eo;
  first [by intros [=] | by intros [[=] _]].

Lemma initChangeInfo_spec (g : gmap Z Expression) n (i : nat) data ix LS k x info :
  index_ok ix LS k → (i < k)%nat → g !! n = Some x → isAffectedByChange x data = Ok info →
  (∀ a, info = Some a → AffectedByChange.initialized a) →
  ∃ ix', initChangeInfo g n (Z.of_nat i) data ix = Ok ix' ∧
    index_ok ix' (LS ++ match info with Some a => [(Z.of_nat i, n, a)] | None => [] end) k.
Proof.
  intros [Hs L1 L2 L3 L4 I1 I2 I3 I4] Hi Hx Ha Hinit. unfold initChangeInfo, deref. rewrite Hx.
  cbn [mbind result_bind]. rewrite Ha. cbn [mbind result_bind]. destruct info as [a|].
  2:{ exists ix. rewrite app_nil_r. split; [done|by split]. }
  destruct (Hinit a eq_refl) as [ty Hty]. rewrite Hty. cbn [mbind result_bind].
  set (LS' := LS ++ [(Z.of_nat i, n, a)]).
  assert (leafStore ix ++ [(n, AffectedByChange.filter a)] =
          (λ '(_, n, a), (n, AffectedByChange.filter a)) <$> LS') as Hs'.
  { unfold LS'. by rewrite fmap_app, Hs. }
  assert (length (leafStore ix) = length LS) as Hlen by (by rewrite Hs, length_fmap).
  assert (∀ j l R, j ≠ i ∨ ¬ R a → has_leaf LS' (Z.of_nat j) l R ↔ has_leaf LS (Z.of_nat j) l R) as Hother.
  { intros j l R HR. unfold LS'. rewrite has_leaf_snoc. split; [|by left].
    intros [?|(_ & ? & ?)]; [done|]. destruct HR as [HR|]; [|done]. destruct HR. lia. }
  assert (∀ l R, has_leaf LS' (Z.of_nat i) l R ↔ has_leaf LS (Z.of_nat i) l R ∨ (l = Z.of_nat (length LS) ∧ R a))
    as Hnew. { intros l R. unfold LS'. rewrite has_leaf_snoc. naive_solver. }
  unfold AffectedByChange.getType in Hty. unfold AffectedByChange.getContainers, AffectedByChange.getObjects.
  destruct (AffectedByChange.affectedByAllChanges a) eqn:Ea;
  destruct (AffectedByChange.containersPtr a) as [cs|] eqn:Ec;
  destruct (AffectedByChange.objectsPtr a) as [os|] eqn:Eo; injection Hty as <- || done.
  1-4: destruct (vec_update (toCheckLeaves ix) i k (λ l, l ++ [Z.of_nat (length (leafStore ix))]) _
      (λ j m, ∀ l, l ∈ m ↔ has_leaf LS' (Z.of_nat j) l in_check) L1 Hi I1) as (m & -> & v & Hv & Lv & Iv);
    [ intros j m Hm Hj l; rewrite Hother by (by left); apply Hm
    | intros m Hm l; rewrite elem_of_app, list_elem_of_singleton, Hm, Hnew, Hlen;
      unfold in_check; leaf_type Ea Ec Eo
    | cbn [mbind result_bind]; rewrite Hv; leaf_rest Hother Ea Ec Eo ].
  - destruct (vec_update (containerObjectToLeaves ix) i k
      (λ m, foldl (λ m c, push_pair (set_iter os) m (Z.of_nat (length (leafStore ix))) c) m (set_iter cs)) _
      (λ j m, ∀ c ob l, l ∈ default [] (default ∅ (m !! c) !! ob) ↔ has_leaf LS' (Z.of_nat j) l (in_pair c ob))
      L4 Hi I4) as (m & Hm & v & Hv & Lv & Iv);
    [ intros j m Hm Hj c ob l; rewrite Hother by (by left); apply Hm
    | intros m Hm c ob l; rewrite foldl_push_pair, !set_iter_perm, !elem_of_elements, Hm, Hnew, Hlen;
      unfold in_pair; leaf_type Ea Ec Eo
    | cbn [mbind result_bind]; rewrite Hm; cbn [mbind result_bind]; rewrite Hv; leaf_rest Hother Ea Ec Eo ].
  - destruct (vec_update (containerToLeaves ix) i k
      (λ m, foldl (λ m c, push_leaf m (Z.of_nat (length (leafStore ix))) c) m (set_iter cs)) _
      (λ j m, ∀ c l, l ∈ default [] (m !! c) ↔ has_leaf LS' (Z.of_nat j) l (in_cont c))
      L2 Hi I2) as (m & Hm & v & Hv & Lv & Iv);
    [ intros j m Hm Hj c l; rewrite Hother by (by left); apply Hm
    | intros m Hm c l; rewrite foldl_push_leaf, !set_iter_perm, !elem_of_elements, Hm, Hnew, Hlen;
      unfold in_cont; leaf_type Ea Ec Eo
    | cbn [mbind result_bind]; rewrite Hm; cbn [mbind result_bind]; rewrite Hv; leaf_rest Hother Ea Ec Eo ].
  - destruct (vec_update (objectToLeaves ix) i k
      (λ m, foldl (λ m c, push_leaf m (Z.of_nat (length (leafStore ix))) c) m (set_iter os)) _
      (λ j m, ∀ c l, l ∈ default [] (m !! c) ↔ has_leaf LS' (Z.of_nat j) l (in_obj c))
      L3 Hi I3) as (m & Hm & v & Hv & Lv & Iv);
    [ intros j m Hm Hj c l; rewrite Hother by (by left); apply Hm
    | intros m Hm c l; rewrite foldl_push_leaf, !set_iter_perm, !elem_of_elements, Hm, Hnew, Hlen;
      unfold in_obj; leaf_type Ea Ec Eo
    | cbn [mbind result_bind]; rewrite Hm; cbn [mbind result_bind]; rewrite Hv; leaf_rest Hother Ea Ec Eo ].
Qed.

(** A new root starts with empty entries. *)
Lemma index_grow ix LS k :
  index_ok ix LS k → (∀ i n a, (i, n, a) ∈ LS → i < Z.of_nat k) →
  index_ok (mkIndex (leafStore ix) (containerToLeaves ix ++ [∅]) (objectToLeaves ix ++ [∅])
              (containerObjectToLeaves ix ++ [∅]) (toCheckLeaves ix ++ [[]])) LS (S k).
Proof.
  intros [Hs L1 L2 L3 L4 I1 I2 I3 I4] Hlt.
  assert (∀ l R, ¬ has_leaf LS (Z.of_nat k) l R) as Hno.
  { intros l R (n & a & [_ Hl] & _). apply list_elem_of_lookup_2, Hlt in Hl. lia. }
  split; simpl; rewrite ?length_app; simpl; try done; try lia;
    intros i m [?|[Hi Hm]]%lookup_app_Some; eauto;
    apply list_lookup_singleton_Some in Hm as [E <-];
    (assert (i = k) as -> by lia); intros; rewrite ?lookup_empty; simpl; rewrite ?lookup_empty; simpl;
    (split; [set_solver|intros Hl; by apply Hno in Hl]).
Qed.

(** A loop over a range of positions of a vector is a loop over its elements. *)
Lemma foldM_range {A T} (F : T → A → result T) (l1 l2 l3 : list A) s :
  foldM (λ s j, a ← vec_get (l1 ++ l2 ++ l3) j; F s a) s (seqZ (Z.of_nat (length l1)) (Z.of_nat (length l2)))
  = foldM F s l2.
Proof.
  revert l1 s. induction l2 as [|a l2 IH]; intros l1 s; [done|]. simpl length.
  rewrite seqZ_cons by lia. cbn [foldM].
  assert (vec_get (l1 ++ (a :: l2) ++ l3) (Z.of_nat (length l1)) = Ok a) as ->.
  { apply vec_get_Ok. split; [lia|]. rewrite Nat2Z.id. simpl. by apply list_lookup_middle. }
  cbn [mbind result_bind]. destruct (F s a) as [s'|e]; [|done]. cbn [mbind result_bind].
  specialize (IH (l1 ++ [a]) s'). rewrite length_app in IH. simpl in IH.
  replace (Z.succ (Z.of_nat (length l1))) with (Z.of_nat (length l1 + 1)) by lia.
  replace (Z.pred (Z.of_nat (S (length l2)))) with (Z.of_nat (length l2)) by lia.
  rewrite <- IH. by rewrite <- app_assoc.
Qed.

Lemma layer_spec (g : gmap Z Expression) (i : nat) data ix LS k Li (info : Z → option AffectedByChange.t) :
  index_ok ix LS k → (i < k)%nat →
  (∀ n, n ∈ Li → ∃ x, g !! n = Some x ∧ isAffectedByChange x data = Ok (info n) ∧
     ∀ a, info n = Some a → AffectedByChange.initialized a) →
  ∃ ix', foldM (λ ix node, initChangeInfo g node (Z.of_nat i) data ix) ix Li = Ok ix' ∧
    index_ok ix' (LS ++ omap (λ n, (λ a, (Z.of_nat i, n, a)) <$> info n) Li) k.
Proof.
  intros Hix Hi. revert ix LS Hix. induction Li as [|n Li IH]; intros ix LS Hix Hn.
  { exists ix. simpl. by rewrite app_nil_r. }
  destruct (Hn n) as (x & Hx & Ha & Hin); [set_solver|].
  destruct (initChangeInfo_spec g n i data ix LS k x (info n) Hix Hi Hx Ha Hin) as (ix1 & E1 & H1').
  cbn [foldM]. rewrite E1. cbn [mbind result_bind].
  destruct (IH ix1 _ H1') as (ix2 & -> & H2'); [set_solver|]. exists ix2. split; [done|].
  rewrite <- app_assoc in H2'. set (h := λ n, (λ a, (Z.of_nat i, n, a)) <$> info n) in *.
  assert (omap h (n :: Li) = match info n with Some a => [(Z.of_nat i, n, a)] | None => [] end ++ omap h Li) as ->;
    [|done].
  change (omap h (n :: Li)) with (match h n with Some y => y :: omap h Li | None => omap h Li end).
  unfold h at 1. by destruct (info n).
Qed.

Lemma initIndex_spec (g : gmap Z Expression) data rs (L : list (list Z)) (info : Z → option AffectedByChange.t) :
  length L = length rs →
  (∀ n, n ∈ concat L → ∃ x, g !! n = Some x ∧ isAffectedByChange x data = Ok (info n) ∧
     ∀ a, info n = Some a → AffectedByChange.initialized a) →
  ∃ ix LS, initIndex rs (offsets L) (concat L) data g = Ok ix ∧ index_ok ix LS (length L) ∧
    ∀ i n a, (i, n, a) ∈ LS ↔
      ∃ k Li, i = Z.of_nat k ∧ L !! k = Some Li ∧ n ∈ Li ∧ info n = Some a.
Proof.
  intros HL Hinfo. unfold initIndex. rewrite <- HL.
  set (step := λ (ix : Index) (i : Z),
    let ix := mkIndex (leafStore ix) (containerToLeaves ix ++ [∅]) (objectToLeaves ix ++ [∅])
                (containerObjectToLeaves ix ++ [∅]) (toCheckLeaves ix ++ [[]]) in
    from ← vec_get (offsets L) i;
    to ← vec_get (offsets L) (i + 1);
    foldM (λ ix j, node ← vec_get (concat L) j; initChangeInfo g node i data ix) ix (seqZ from (to - from))).
  assert (∀ k, (k ≤ length L)%nat → ∃ ix LS,
    foldM step (mkIndex [] [] [] [] []) (Z.of_nat <$> seq 0 k) = Ok ix ∧ index_ok ix LS k ∧
    ∀ i n a, (i, n, a) ∈ LS ↔
      ∃ k' Li, (k' < k)%nat ∧ i = Z.of_nat k' ∧ L !! k' = Some Li ∧ n ∈ Li ∧ info n = Some a) as Hk.
  { induction k as [|k IH]; intros Hk.
    - exists (mkIndex [] [] [] [] []), []. split; [done|]. split; [by split|]. intros i n a.
      split; [set_solver|]. intros (k' & Li & ? & _). lia.
    - destruct IH as (ix & LS & E & Hix & Hls); [lia|].
      destruct (lookup_lt_is_Some_2 L k) as [Li HLi]; [lia|].
      rewrite seq_S, fmap_app, foldM_app, E. change (0 + k)%nat with k. cbn [mbind result_bind fmap list_fmap foldM].
      unfold step at 1. cbn zeta.
      assert (vec_get (offsets L) (Z.of_nat k) = Ok (Z.of_nat (length (concat (take k L))))) as ->.
      { apply vec_get_Ok. split; [lia|]. by rewrite Nat2Z.id, offsets_lookup by lia. }
      assert (vec_get (offsets L) (Z.of_nat k + 1) = Ok (Z.of_nat (length (concat (take (S k) L))))) as ->.
      { apply vec_get_Ok. split; [lia|]. replace (Z.to_nat (Z.of_nat k + 1)) with (S k) by lia.
        by rewrite offsets_lookup by lia. }
      cbn [mbind result_bind].
      assert (concat L = concat (take k L) ++ Li ++ concat (drop (S k) L)) as Hc.
      { rewrite <- (take_drop_middle L k Li HLi) at 1. by rewrite concat_app. }
      assert (concat (take (S k) L) = concat (take k L) ++ Li) as Ht.
      { rewrite (take_S_r L k Li HLi), concat_app. simpl. by rewrite app_nil_r. }
      rewrite Ht, length_app, Hc.
      replace (Z.of_nat (length (concat (take k L)) + length Li) - Z.of_nat (length (concat (take k L))))
        with (Z.of_nat (length Li)) by lia.
      rewrite (foldM_range (λ ix node, initChangeInfo g node (Z.of_nat k) data ix)).
      destruct (layer_spec g k data (mkIndex (leafStore ix) (containerToLeaves ix ++ [∅]) (objectToLeaves ix ++ [∅])
                (containerObjectToLeaves ix ++ [∅]) (toCheckLeaves ix ++ [[]])) LS (S k) Li info)
        as (ix' & -> & Hix').
      + apply index_grow; [done|]. intros i n a (k' & ? & ? & -> & _)%Hls. lia.
      + lia.
      + intros n Hn. apply Hinfo. rewrite Hc. set_solver.
      + eexists _, _. split; [done|]. split; [exact Hix'|]. intros i n a.
        rewrite elem_of_app, Hls, list_elem_of_omap. split.
        * intros [(k' & Li' & ? & ?)|(n' & Hn' & Hsome)]; [exists k', Li'; split; [lia|done]|].
          destruct (info n') as [a'|] eqn:Ea; [|done]. simpl in Hsome. simplify_eq.
          exists k, Li. split; [lia|done].
        * intros (k' & Li' & Hlt & -> & HLi' & Hn & Ha). destruct (decide (k' = k)) as [->|Hne].
          -- right. exists n. simplify_eq. rewrite Ha. done.
          -- left. exists k', Li'. split; [lia|done]. }
  destruct (Hk (length L) (Nat.le_refl _)) as (ix & LS & E & Hix & Hls). exists ix, LS.
  split; [done|]. split; [done|]. intros i n a. rewrite Hls. split.
  - intros (k & Li & _ & ?). eauto.
  - intros (k & Li & ? & HLi & ?). exists k, Li. split; [by eapply lookup_lt_Some|done].
Qed.

End index.
