(* ===== verification/OrchestratorLeaves.v ===== *)
(** * The leaves that a change set affects

    What [Orchestrator.init] yields for an acyclic graph, and which nodes
    [Orchestrator.computeChangedLeavesByRoot] puts on the queue. *)

From S2P Require Import Prelude Double Exact ChangeSet Assignment AccessOrderedSet Queues Affected Lookup Orchestrator OrchestratorInit OrchestratorIndex.
Import Orchestrator.

Open Scope Z_scope.

#[global] Existing Instance Priority.gt_strict_total.

Section leaves.
Context `{HashOrder} `{ExpressionOps}.

Abbreviation prio o n := (nodeToPriority (order o) !! n).
Abbreviation post o := (postOrder (order o)).

(** How the orchestrator relates to the graph with the children [ch], where [info] says
    which changes affect a node. *)
Record layout (o : t) (ch : Z → gset Z) (info : Z → option AffectedByChange.t) : Prop := {
  lay_nodup : NoDup (post o);
  lay_dom n : is_Some (prio o n) ↔ n ∈ post o;
  lay_closed n p c : prio o n = Some p → c ∈ ch n → ∃ q, prio o c = Some q ∧ Priority.gt q p = true ∧ height q < height p;
  lay_parents c p : p ∈ default [] (nodeToParents o !! c) ↔ p ∈ post o ∧ c ∈ ch p;
  lay_index : ∃ LS, index_ok (index o) LS (length (roots o)) ∧
    ∀ i n a, (i, n, a) ∈ LS ↔ ∃ p, prio o n = Some p ∧ rootIdx p = i ∧ info n = Some a;
  lay_rootIdx n p : prio o n = Some p → 0 ≤ rootIdx p < Z.of_nat (length (roots o)) ∧ 1 ≤ height p;
  lay_root i root : roots o !! i = Some root →
    ∃ p, prio o root = Some p ∧ rootIdx p ≤ Z.of_nat i ∧
      ∀ n q, prio o n = Some q → rootIdx q = Z.of_nat i → rootIdx p = Z.of_nat i ∧ height q ≤ height p
}.

(** ** The queue *)
Definition in_queue (q : ReadyNodes) (x : Z) : Prop := ∃ p, (p, x) ∈ BucketedPriorityQueue.flatten q.

Record queue_ok (o : t) (q : ReadyNodes) : Prop := {
  q_inv : BucketedPriorityQueue.inv Priority.gt q;
  q_prio p x : (p, x) ∈ BucketedPriorityQueue.flatten q → prio o x = Some p
}.

Lemma emplace_spec o q p x :
  queue_ok o q → prio o x = Some p →
  queue_ok o (BucketedPriorityQueue.emplace Priority.gt q p x) ∧
  ∀ y, in_queue (BucketedPriorityQueue.emplace Priority.gt q p x) y ↔ in_queue q y ∨ y = x.
Proof.
  intros [Hi Hp] Hx. unfold in_queue.
  assert (∀ p' y, (p', y) ∈ BucketedPriorityQueue.flatten (BucketedPriorityQueue.emplace Priority.gt q p x) ↔
            (p', y) = (p, x) ∨ (p', y) ∈ BucketedPriorityQueue.flatten q) as Hel.
  { intros p' y. rewrite (BucketedPriorityQueue.flatten_emplace Priority.gt q p x Hi).
    rewrite BucketedPriorityQueue.enqueue_perm. by rewrite elem_of_cons. }
  split; [split|].
  - exact (BucketedPriorityQueue.emplace_inv Priority.gt q p x Hi).
  - intros p' y. rewrite Hel. intros [[= -> ->]|?]; auto.
  - intros y. setoid_rewrite Hel. naive_solver.
Qed.

Lemma clear_queue o : queue_ok o BucketedPriorityQueue.clear.
Proof. split; [by repeat constructor|intros p x; simpl; set_solver]. Qed.

(** ** Pushing leaves *)
Section push.
Context (o : t) (ch : Z → gset Z) (info : Z → option AffectedByChange.t) (Hlay : layout o ch info).
Context (LS : list (Z * Z * AffectedByChange.t)).
Context (Hix : index_ok (index o) LS (length (roots o))).
Context (HLS : ∀ i n a, (i, n, a) ∈ LS ↔ ∃ p, prio o n = Some p ∧ rootIdx p = i ∧ info n = Some a).

Definition good (s : gset Z * ReadyNodes) : Prop :=
  queue_ok o s.2 ∧ ∀ l, l ∈ s.1 → ∃ i n a, is_leaf LS i l n a ∧ in_queue s.2 n.

Definition adds (s s' : gset Z * ReadyNodes) (A : Z → Prop) : Prop :=
  good s' ∧ ∀ x, in_queue s'.2 x ↔ in_queue s.2 x ∨ A x.

Lemma adds_none s (A : Z → Prop) : good s → (∀ x, ¬ A x) → adds s s A.
Proof. intros Hg Ha. split; [done|]. intros x. specialize (Ha x). tauto. Qed.

Lemma adds_iff s s' A A' : (∀ x, A x ↔ A' x) → adds s s' A → adds s s' A'.
Proof. intros HA [Hg Hx]. split; [done|]. intros x. by rewrite Hx, HA. Qed.

Lemma foldM_adds {B} (f : gset Z * ReadyNodes → B → result (gset Z * ReadyNodes))
    (A : B → Z → Prop) (l : list B) :
  (∀ b s, b ∈ l → good s → ∃ s', f s b = Ok s' ∧ adds s s' (A b)) →
  ∀ s, good s → ∃ s', foldM f s l = Ok s' ∧ adds s s' (λ x, ∃ b, b ∈ l ∧ A b x).
Proof.
  induction l as [|b l IH]; intros Hf s Hs.
  { exists s. split; [done|]. apply adds_none; [done|]. set_solver. }
  destruct (Hf b s) as (s1 & E1 & [G1 Q1]); [set_solver|done|].
  destruct (IH (λ b' s' Hb', Hf b' s' (list_elem_of_further _ _ _ Hb')) s1 G1) as (s2 & E2 & [G2 Q2]).
  exists s2. cbn [foldM]. rewrite E1. split; [done|]. split; [done|]. intros x. rewrite Q2, Q1. set_solver.
Qed.

Lemma leaf_at l i n a : is_leaf LS i l n a →
  vec_get (leafStore (index o)) l = Ok (n, AffectedByChange.filter a).
Proof.
  intros [Hl Hs]. apply vec_get_Ok. split; [done|].
  by rewrite (i_store _ _ _ Hix), list_lookup_fmap, Hs.
Qed.

Lemma processLeaf_spec b s l i n a :
  is_leaf LS i l n a → good s →
  ∃ s', processLeaf o b s l = Ok s' ∧ adds s s' (λ x, x = n).
Proof.
  intros Hl [Hq Hd]. destruct s as [ls q]. unfold processLeaf. simpl in *.
  destruct (b && bool_decide (l ∈ ls)) eqn:Eb.
  - apply andb_true_iff in Eb as [_ Hin%bool_decide_eq_true].
    exists (ls, q). split; [done|]. split; [done|]. simpl. intros x. split; [by left|].
    intros [?| ->]; [done|]. destruct (Hd l Hin) as (i' & n' & a' & [_ Hl'] & Hq').
    destruct Hl as [_ Hl]. by simplify_eq.
  - rewrite (leaf_at l i n a Hl). cbn [mbind result_bind fst].
    destruct (proj1 (HLS i n a)) as (p & Hp & _). { by eapply list_elem_of_lookup_2, Hl. }
    unfold priority. rewrite Hp. cbn [at_ mbind result_bind].
    destruct (emplace_spec o q p n Hq Hp) as [Hq' Hin]. eexists. split; [done|]. split; [split|]; simpl.
    + done.
    + intros l' Hl'. assert (l' = l ∨ l' ∈ ls) as [->|Hls] by (destruct b; set_solver).
      * exists i, n, a. split; [done|]. apply Hin. by right.
      * destruct (Hd l' Hls) as (i' & n' & a' & ? & ?). exists i', n', a'. split; [done|].
        apply Hin. by left.
    + done.
Qed.

(** The leaves listed in an index are pushed. *)
Lemma processLeaves_spec b s ls i R :
  (∀ l, l ∈ ls ↔ has_leaf LS i l R) → good s →
  ∃ s', foldM (processLeaf o b) s ls = Ok s' ∧
    adds s s' (λ x, ∃ p a, prio o x = Some p ∧ rootIdx p = i ∧ info x = Some a ∧ R a).
Proof.
  intros Hls Hs.
  destruct (foldM_adds (processLeaf o b) (λ l x, ∃ a, is_leaf LS i l x a ∧ R a) ls) with (s := s)
    as (s' & Es & Ha); [|done|].
  - intros l s0 (n & a & Hl & HR)%Hls Hs0. destruct (processLeaf_spec b s0 l i n a Hl Hs0) as (s1 & E1 & A1).
    exists s1. split; [done|]. eapply adds_iff; [|exact A1]. intros x. split.
    + intros ->. eauto.
    + intros (a' & [_ Hl'] & _). destruct Hl as [_ Hl]. by simplify_eq.
  - exists s'. split; [done|]. eapply adds_iff; [|exact Ha]. intros x. split.
    + intros (l & Hl & a & [Hp Hx] & HR). apply list_elem_of_lookup_2, HLS in Hx as (p & ? & ? & ?). eauto 10.
    + intros (p & a & Hp & Hi & Hx & HR).
      assert ((i, x, a) ∈ LS) as (k & Hk)%list_elem_of_lookup_1 by (apply HLS; eauto).
      assert (is_leaf LS i (Z.of_nat k) x a) by (split; [lia|by rewrite Nat2Z.id]).
      exists (Z.of_nat k). split; [|eauto]. apply Hls. exists x, a. eauto.
Qed.

Lemma any_of_spec {A} (f : A → result bool) (l : list A) :
  (∀ a, a ∈ l → ∃ b, f a = Ok b) →
  any_of f l = Ok (existsb (λ a, bool_decide (f a = Ok true)) l).
Proof.
  induction l as [|a l IH]; intros Hf; [done|]. simpl. destruct (Hf a) as [b Eb]; [set_solver|].
  rewrite Eb. cbn [mbind result_bind]. destruct b; [by rewrite bool_decide_true|].
  rewrite bool_decide_false by congruence. apply IH. set_solver.
Qed.

Lemma processFilteredLeaves_spec b s ls i R changes :
  (∀ l, l ∈ ls ↔ has_leaf LS i l R) → good s →
  (∀ n a, is_Some (prio o n) → info n = Some a → AffectedByChange.filter_total a changes) →
  changes ≠ [] →
  ∃ s', processFilteredLeaves o b s ls changes = Ok s' ∧
    adds s s' (λ x, ∃ p a, prio o x = Some p ∧ rootIdx p = i ∧ info x = Some a ∧ R a ∧
      ∃ c, c ∈ changes ∧ AffectedByChange.passes a c = true).
Proof.
  intros Hls Hs Hft Hne. unfold processFilteredLeaves.
  match goal with |- context [foldM ?f s ls] => set (step := f) end.
  destruct (foldM_adds step (λ l x, ∃ a, is_leaf LS i l x a ∧ R a ∧
      ∃ c, c ∈ changes ∧ AffectedByChange.passes a c = true) ls) with (s := s)
    as (s' & Es & Ha); [|done|].
  - intros l s0 (n & a & Hl & HR)%Hls Hs0. unfold step. rewrite (leaf_at l i n a Hl).
    cbn [mbind result_bind snd].
    destruct (proj1 (HLS i n a)) as (pn & Hpn & _ & Hin); [by eapply list_elem_of_lookup_2, Hl|].
    destruct (processLeaf_spec b s0 l i n a Hl Hs0) as (s1 & E1 & A1).
    assert (∀ x, (∃ a', is_leaf LS i l x a' ∧ R a' ∧
        ∃ c, c ∈ changes ∧ AffectedByChange.passes a' c = true) ↔
        x = n ∧ ∃ c, c ∈ changes ∧ AffectedByChange.passes a c = true) as Hiff.
    { intros x. split.
      - intros (a' & [_ Hl'] & _ & Hc). destruct Hl as [_ Hl]. by simplify_eq.
      - intros [-> Hc]. eauto. }
    unfold AffectedByChange.passes in *. destruct (AffectedByChange.filter a) as [f|] eqn:Ef.
    + rewrite any_of_spec by (intros c Hc; eapply (Hft n a); [by eexists|done..]). cbn [mbind result_bind].
      destruct (existsb _ changes) eqn:Ex.
      * exists s1. split; [done|]. eapply adds_iff; [|exact A1]. intros x. rewrite Hiff.
        apply existsb_exists in Ex as (c & Hc%list_elem_of_In & Hb). naive_solver.
      * exists s0. split; [done|]. apply adds_none; [done|]. intros x. rewrite Hiff.
        intros [_ (c & Hc & Hb)]. assert (existsb (λ a, bool_decide (f a = Ok true)) changes = true); [|congruence].
        apply existsb_exists. exists c. split; [by apply list_elem_of_In|done].
    + exists s1. split; [done|]. eapply adds_iff; [|exact A1]. intros x. rewrite Hiff.
      split; [|tauto]. intros ->. split; [done|]. destruct changes as [|c ?]; [done|]. exists c. set_solver.
  - exists s'. split; [done|]. eapply adds_iff; [|exact Ha]. intros x. split.
    + intros (l & Hl & a & [Hp Hx] & HR & Hc). apply list_elem_of_lookup_2, HLS in Hx as (p & ? & ? & ?). eauto 12.
    + intros (p & a & Hp & Hi & Hx & HR & Hc).
      assert ((i, x, a) ∈ LS) as (k & Hk)%list_elem_of_lookup_1 by (apply HLS; eauto).
      assert (is_leaf LS i (Z.of_nat k) x a) by (split; [lia|by rewrite Nat2Z.id]).
      exists (Z.of_nat k). split; [|eauto]. apply Hls. exists x, a. eauto.
Qed.

(** ** The changed leaves of a root *)
Section changed.
Context (cs : ChangeSet.t) (Hwf : ChangeSet.wf cs).
Context (Hft : ∀ n a, is_Some (prio o n) → info n = Some a → AffectedByChange.filter_total a (ChangeSet.changes cs)).

(** A node of root [i] that the changes affect directly. *)
Definition affected (n : Z) : Prop :=
  ∃ a, info n = Some a ∧ AffectedByChange.matches a (ChangeSet.changes cs) = true.

(** How a node can be affected. *)
Lemma matches_cases a :
  AffectedByChange.matches a (ChangeSet.changes cs) = true ↔
    in_check a ∨ ∃ c, c ∈ ChangeSet.changes cs ∧
      (in_pair (container c) (object c) a ∨
       in_cont (container c) a ∧ AffectedByChange.passes a c = true ∨
       in_obj (object c) a ∧ AffectedByChange.passes a c = true).
Proof.
  unfold AffectedByChange.matches, in_check, in_pair, in_cont, in_obj, AffectedByChange.getType.
  destruct (AffectedByChange.affectedByAllChanges a); simpl; [by split; [left|]|].
  rewrite existsb_exists. setoid_rewrite <- list_elem_of_In. unfold AffectedByChange.matches_change.
  destruct (AffectedByChange.containersPtr a) as [C|], (AffectedByChange.objectsPtr a) as [O|].
  - split.
    + intros (c & Hc & [H1' H2']%andb_true_iff). right. exists c. split; [done|]. left.
      split; [done|]. apply bool_decide_eq_true in H1', H2'. eauto 10.
    + intros [[=]|(c & Hc & [[_ (C' & O' & [= <-] & [= <-] & ? & ?)]|[[[[=] _] _]|[[[=] _] _]]])].
      exists c. split; [done|]. by rewrite !bool_decide_true.
  - split.
    + intros (c & Hc & [H1' H2']%andb_true_iff). right. exists c. split; [done|]. right; left.
      apply bool_decide_eq_true in H1'. eauto 10.
    + intros [[=]|(c & Hc & [[[=] _]|[[[_ (C' & [= <-] & ?)] ?]|[[[=] _] _]]])].
      exists c. split; [done|]. by rewrite bool_decide_true.
  - split.
    + intros (c & Hc & [H1' H2']%andb_true_iff). right. exists c. split; [done|]. right; right.
      apply bool_decide_eq_true in H1'. eauto 10.
    + intros [[=]|(c & Hc & [[[=] _]|[[[[=] _] _]|[[_ (C' & [= <-] & ?)] ?]]])].
      exists c. split; [done|]. by rewrite bool_decide_true.
  - split; [naive_solver|]. intros [[=]|(c & Hc & [[[=] _]|[[[[=] _] _]|[[[=] _] _]]])].
Qed.

Lemma elem_of_map_to_list' {V} (m : gmap Z V) (p : Z * V) : p ∈ map_to_list m ↔ m !! p.1 = Some p.2.
Proof. destruct p. apply elem_of_map_to_list. Qed.

(** The entries of the two maps of a change set. *)
Lemma changes_of_key (key : Change → Z) idx k l :
  ChangeSet.indexed key idx (ChangeSet.changes cs) → idx !! k = Some l →
  l ≠ [] ∧ ∀ c, c ∈ l ↔ c ∈ ChangeSet.changes cs ∧ key c = k.
Proof.
  intros Hi Hk. rewrite Hi in Hk. cbn zeta in Hk. case_decide as E; [done|]. injection Hk as <-.
  split; [done|]. intros c. rewrite list_elem_of_filter. tauto.
Qed.

Lemma key_of_change (key : Change → Z) idx c :
  ChangeSet.indexed key idx (ChangeSet.changes cs) → c ∈ ChangeSet.changes cs →
  ∃ l, idx !! key c = Some l ∧ c ∈ l.
Proof.
  intros Hi Hc. rewrite Hi. cbn zeta.
  assert (c ∈ filter (λ c', key c' = key c) (ChangeSet.changes cs)) as Hin by (by apply list_elem_of_filter).
  rewrite decide_False by (intros E; rewrite E in Hin; set_solver). eauto.
Qed.

Definition node_of (i : Z) (R : AffectedByChange.t → Prop) (x : Z) : Prop :=
  ∃ p a, prio o x = Some p ∧ rootIdx p = i ∧ info x = Some a ∧ R a.

Lemma no_leaf i R x : (∀ l, l ∈ ([] : list Z) ↔ has_leaf LS i l R) → ¬ node_of i R x.
Proof.
  intros Hl (p & a & Hx & Hr & Ha & HR).
  assert ((i, x, a) ∈ LS) as (k & Hk)%list_elem_of_lookup_1 by (apply HLS; eauto).
  eapply not_elem_of_nil, (proj2 (Hl (Z.of_nat k))). exists x, a.
  split; [|done]. split; [lia|by rewrite Nat2Z.id].
Qed.

Lemma pair_phase b s (m : gmap Z (gmap Z (list Z))) i :
  (∀ c ob l, l ∈ default [] (default ∅ (m !! c) !! ob) ↔ has_leaf LS i l (in_pair c ob)) → good s →
  ∃ s', foldM (λ s '(c, changes),
      match m !! c with
      | None => Ok s
      | Some objectLeaves =>
          foldM (λ s change,
            match (objectLeaves : gmap Z (list Z)) !! object change with
            | None => Ok s
            | Some leafIds => foldM (processLeaf o b) s leafIds
            end) s changes
      end) s (hash_iter (ChangeSet.containerToChanges cs)) = Ok s' ∧
    adds s s' (λ x, ∃ c, c ∈ ChangeSet.changes cs ∧ node_of i (in_pair (container c) (object c)) x).
Proof.
  intros Hm Hs. match goal with |- context [foldM ?f s _] => set (f2 := f) end.
  destruct (foldM_adds f2 (λ p x, ∃ chg, chg ∈ p.2 ∧ node_of i (in_pair p.1 (object chg)) x)
    (hash_iter (ChangeSet.containerToChanges cs))) with (s := s) as (s' & Es & Ha); [|done|].
  - intros [c l] s0 _ Gs. unfold f2. simpl. specialize (Hm c).
    destruct (m !! c) as [mc|]; simpl in Hm.
    2:{ exists s0. split; [done|]. apply adds_none; [done|]. intros x (chg & _ & Hx).
        eapply (no_leaf i _ x); [|exact Hx]. intros l'. rewrite <- Hm, lookup_empty. done. }
    match goal with |- context [foldM ?f s0 _] => set (f2' := f) end.
    apply (foldM_adds f2' (λ chg x, node_of i (in_pair c (object chg)) x) l); [|done].
    intros chg s1 _ Gs'. unfold f2'. specialize (Hm (object chg)).
    destruct (mc !! object chg) as [ls|]; simpl in Hm.
    + by apply processLeaves_spec.
    + exists s1. split; [done|]. apply adds_none; [done|]. intros x. by apply no_leaf.
  - exists s'. split; [done|]. eapply adds_iff; [|exact Ha]. intros x.
    setoid_rewrite hash_iter_perm. setoid_rewrite elem_of_map_to_list'. split.
    + intros ([c l] & Hl & chg & Hc & Hx). simpl in *.
      destruct (changes_of_key container _ c l (ChangeSet.wf_container _ Hwf) Hl) as [_ Hel].
      apply Hel in Hc as [Hc <-]. eauto.
    + intros (chg & Hc & Hx).
      destruct (key_of_change container _ chg (ChangeSet.wf_container _ Hwf) Hc) as (l & Hl & Hin).
      exists (container chg, l). simpl. eauto.
Qed.

Lemma filtered_phase b s (key : Change → Z) idx (m : gmap Z (list Z)) (R : Z → AffectedByChange.t → Prop) i :
  ChangeSet.indexed key idx (ChangeSet.changes cs) →
  (∀ k l, l ∈ default [] (m !! k) ↔ has_leaf LS i l (R k)) → good s →
  ∃ s', foldM (λ s '(k, _),
      match m !! k with
      | None => Ok s
      | Some leafIds => processFilteredLeaves o b s leafIds (default [] (idx !! k))
      end) s (hash_iter idx) = Ok s' ∧
    adds s s' (λ x, ∃ c, c ∈ ChangeSet.changes cs ∧
      node_of i (λ a, R (key c) a ∧ AffectedByChange.passes a c = true) x).
Proof.
  intros Hidx Hm Hs. match goal with |- context [foldM ?f s _] => set (f2 := f) end.
  destruct (foldM_adds f2 (λ p x, ∃ chg, chg ∈ p.2 ∧
      node_of i (λ a, R p.1 a ∧ AffectedByChange.passes a chg = true) x)
    (hash_iter idx)) with (s := s) as (s' & Es & Ha); [|done|].
  - intros [k l] s0 Hin Gs. rewrite hash_iter_perm, elem_of_map_to_list in Hin. unfold f2. simpl.
    rewrite Hin. simpl. specialize (Hm k).
    destruct (changes_of_key key idx k l Hidx Hin) as [Hne Hel].
    destruct (m !! k) as [ls|]; simpl in Hm.
    + destruct (processFilteredLeaves_spec b s0 ls i (R k) l Hm Gs) as (s1 & -> & A1); [|done|].
      { intros n a Hn Ha f c Hf Hc. eapply Hft; [done..|]. by apply Hel. }
      exists s1. split; [done|]. eapply adds_iff; [|exact A1]. intros x. unfold node_of. naive_solver.
    + exists s0. split; [done|]. apply adds_none; [done|].
      intros x (chg & _ & p & a & ? & ? & ? & ? & _). eapply (no_leaf i (R k) x); [done|].
      exists p, a. done.
  - exists s'. split; [done|]. eapply adds_iff; [|exact Ha]. intros x.
    setoid_rewrite hash_iter_perm. setoid_rewrite elem_of_map_to_list'. split.
    + intros ([k l] & Hl & chg & Hc & Hx). simpl in *.
      destruct (changes_of_key key _ k l Hidx Hl) as [_ Hel]. apply Hel in Hc as [Hc <-]. eauto.
    + intros (chg & Hc & Hx). destruct (key_of_change key _ chg Hidx Hc) as (l & Hl & Hin).
      exists (key chg, l). simpl. eauto.
Qed.

(** Exactly the nodes of the root that the changes affect are pushed. *)
Lemma computeChangedLeavesByRoot_spec ctx i :
  (i < length (roots o))%nat → queue_ok o (readyNodes ctx) → ctx_changes ctx = Some cs →
  ∃ q, computeChangedLeavesByRoot o ctx (Z.of_nat i) = Ok (with_ready ctx q) ∧ queue_ok o q ∧
    ∀ x, in_queue q x ↔ in_queue (readyNodes ctx) x ∨
      affected x ∧ ∃ p, prio o x = Some p ∧ rootIdx p = Z.of_nat i.
Proof.
  intros Hi Hq Hcs. unfold computeChangedLeavesByRoot. rewrite Hcs. cbn zeta.
  set (b := negb (ChangeSet.is_empty cs) && negb (ChangeSet.representsSingleMove cs)).
  assert (∀ {M} (v : list M), length v = length (roots o) →
            ∃ m, vec_get v (Z.of_nat i) = Ok m ∧ v !! i = Some m) as Hget.
  { intros M v Hv. destruct (lookup_lt_is_Some_2 v i) as [m Hm]; [lia|]. exists m. split; [|done].
    apply vec_get_Ok. split; [lia|by rewrite Nat2Z.id]. }
  destruct (Hget _ _ (i_check_len _ _ _ Hix)) as (m1 & -> & M1).
  destruct (Hget _ _ (i_pair_len _ _ _ Hix)) as (m2 & -> & M2).
  destruct (Hget _ _ (i_cont_len _ _ _ Hix)) as (m3 & -> & M3).
  destruct (Hget _ _ (i_obj_len _ _ _ Hix)) as (m4 & -> & M4). clear Hget. cbn [mbind result_bind].
  assert (good (∅, readyNodes ctx)) as G0 by (split; [done|set_solver]).
  destruct (processLeaves_spec b _ m1 (Z.of_nat i) in_check (i_check _ _ _ Hix i m1 M1) G0) as (s1 & -> & [G1 Q1]).
  cbn [mbind result_bind].
  destruct (pair_phase b s1 m2 (Z.of_nat i) (i_pair _ _ _ Hix i m2 M2) G1) as (s2 & -> & [G2 Q2]).
  cbn [mbind result_bind].
  destruct (filtered_phase b s2 container _ m3 in_cont (Z.of_nat i) (ChangeSet.wf_container _ Hwf)
    (i_cont _ _ _ Hix i m3 M3) G2) as (s3 & E3 & [G3 Q3]).
  unfold ChangeSet.getChangesByContainer. rewrite E3. cbn [mbind result_bind].
  destruct (filtered_phase b s3 object _ m4 in_obj (Z.of_nat i) (ChangeSet.wf_object _ Hwf)
    (i_obj _ _ _ Hix i m4 M4) G3) as (s4 & E4 & [G4 Q4]).
  unfold ChangeSet.getChangesByObject. rewrite E4. cbn [mbind result_bind].
  exists s4.2. split; [done|]. split; [apply G4|]. intros x. rewrite Q4, Q3, Q2, Q1. simpl.
  unfold affected, node_of. setoid_rewrite matches_cases. split.
  - intros [[[[?|(p & a & ? & ? & ? & ?)]|(c & Hc & p & a & ? & ? & ? & ?)]
      |(c & Hc & p & a & ? & ? & ? & ?)]|(c & Hc & p & a & ? & ? & ? & ?)]; [by left|right..];
      (split; [exists a; split; [done|]|by exists p]); [by left|right; exists c; tauto..].
  - intros [?|[(a & Ha & Hm) (p & Hp & Hr)]]; [tauto|].
    destruct Hm as [?|(c & Hc & [?|[?|?]])].
    + left; left; left; right. by exists p, a.
    + left; left; right. exists c. split; [done|]. by exists p, a.
    + left; right. exists c. split; [done|]. by exists p, a.
    + right. exists c. split; [done|]. by exists p, a.
Qed.

Lemma computeAllChangedLeaves_spec ctx :
  queue_ok o (readyNodes ctx) → ctx_changes ctx = Some cs →
  ∃ q, computeAllChangedLeaves o ctx = Ok (with_ready ctx q) ∧ queue_ok o q ∧
    ∀ x, in_queue q x ↔ in_queue (readyNodes ctx) x ∨ affected x ∧ is_Some (prio o x).
Proof.
  intros Hq Hcs. unfold computeAllChangedLeaves.
  assert (∀ k, (k ≤ length (roots o))%nat → ∃ q,
    foldM (computeChangedLeavesByRoot o) ctx (Z.of_nat <$> seq 0 k) = Ok (with_ready ctx q) ∧ queue_ok o q ∧
    ∀ x, in_queue q x ↔ in_queue (readyNodes ctx) x ∨
      affected x ∧ ∃ p, prio o x = Some p ∧ rootIdx p < Z.of_nat k) as Hk.
  { induction k as [|k IH]; intros Hk.
    - exists (readyNodes ctx). split; [by destruct ctx|]. split; [done|]. intros x. split; [by left|].
      intros [?|[_ (p & Hp & Hlt)]]; [done|]. destruct (lay_rootIdx _ _ _ Hlay x p Hp). lia.
    - destruct IH as (q & E & Hq1 & Hin); [lia|].
      destruct (computeChangedLeavesByRoot_spec (with_ready ctx q) k) as (q' & E' & Hq' & Hin'); [lia|done|done|].
      exists q'. rewrite seq_S, fmap_app, foldM_app, E. cbn [mbind result_bind fmap list_fmap foldM].
      change (0 + k)%nat with k. rewrite E'. split; [done|]. split; [done|]. intros x. rewrite Hin'. simpl.
      rewrite Hin. split.
      + intros [[?|[? (p & ? & ?)]]|[? (p & ? & ?)]]; [by left|right..]; (split; [done|]); exists p; (split; [done|lia]).
      + intros [?|[? (p & Hp & Hlt)]]; [tauto|]. destruct (decide (rootIdx p = Z.of_nat k)).
        * right. eauto.
        * left. right. split; [done|]. exists p. split; [done|lia]. }
  destruct (Hk (length (roots o)) (Nat.le_refl _)) as (q & E & Hq' & Hin). exists q.
  split; [done|]. split; [done|]. intros x. rewrite Hin. split; [|].
  - intros [?|[? (p & ? & ?)]]; [by left|right]. split; [done|]. by exists p.
  - intros [?|[? [p Hp]]]; [by left|right]. split; [done|]. exists p. split; [done|].
    destruct (lay_rootIdx _ _ _ Hlay x p Hp). lia.
Qed.

End changed.
End push.
End leaves.

(** ** Construction *)
Section init.
Context `{HashOrder} `{ExpressionLaws}.

Definition children_of (g : gmap Z Expression) (n : Z) : gset Z :=
  match g !! n with Some x => children x | None => ∅ end.

Definition info_of (g : gmap Z Expression) (data : AffectedByChangeDecisionData) (n : Z)
    : option AffectedByChange.t :=
  match g !! n with
  | Some x => match isAffectedByChange x data with Ok info => info | Throw _ => None end
  | None => None
  end.

(** The children of a node are in the graph and of lower rank, and the node can say which
    changes affect it. *)
Record acyclic (g : gmap Z Expression) (rank : Z → nat) : Prop := {
  acyclic_child n x c : g !! n = Some x → c ∈ children x → is_Some (g !! c) ∧ (rank c < rank n)%nat
}.

Definition informed (g : gmap Z Expression) (data : AffectedByChangeDecisionData) : Prop :=
  ∀ n x, g !! n = Some x → ∃ info, isAffectedByChange x data = Ok info ∧
    ∀ a, info = Some a → AffectedByChange.initialized a.

Lemma init_spec g0 rank data fixedContainers rs fuel :
  acyclic g0 rank → informed g0 data →
  (∀ root, root ∈ rs → is_Some (g0 !! root) ∧ (rank root < fuel)%nat) →
  ∃ o g, init fuel rs data fixedContainers g0 = Ok (o, g) ∧ marked_graph g0 g ∧ roots o = rs ∧
    layout o (children_of g0) (info_of g0 data) ∧ ∀ n, n ∈ postOrder (order o) → is_Some (g0 !! n).
Proof.
  intros [Hrank] Hinf Hrs. unfold init.
  destruct (initOrder_spec g0 fixedContainers rank Hrank fuel rs Hrs) as (s & L & -> & HL & [Ht Hv Hp _ Hl Ho]).
  cbn [mbind result_bind]. destruct Ht as [Tg Tn Tv Td Tnode Tp Tc].
  assert (∀ n, n ∈ postOrder (tr_order s) → ∃ x y, g0 !! n = Some x ∧ tr_graph s !! n = Some y ∧ marked x y) as Hnode.
  { intros n Hn. destruct (Tnode n Hn) as [x Hx]. destruct (marked_lookup g0 _ n x Tg Hx) as (y & Hy & Hm). eauto. }
  destruct (initParents_spec (tr_graph s) (postOrder (tr_order s))) as (P & -> & HP).
  { intros n (x & y & _ & Hy & _)%Hnode. by eexists. }
  cbn [mbind result_bind]. rewrite Hp.
  destruct (initIndex_spec (tr_graph s) data rs L (info_of g0 data) HL) as (ix & LS & -> & Hix & HLS).
  { intros n Hn. rewrite <- Hp in Hn. destruct (Hnode n Hn) as (x & y & Hx & Hy & [Sm _]). exists y.
    destruct (Hinf n x Hx) as (info & Hi & Hin). unfold info_of. rewrite Hx, Hi.
    rewrite <- (same_affected x y data Sm). done. }
  cbn [mbind result_bind]. eexists _, _. split; [done|]. split; [done|]. split; [done|]. split; [|done].
  split; simpl.
  - done.
  - done.
  - intros n p c Hnp Hc. unfold children_of in Hc. destruct (g0 !! n) as [x|] eqn:Hx; [|set_solver].
    destruct (Tc n p x c Hnp Hx Hc) as (q & Hq & Hr & Hh). exists q. split; [done|]. split; [|done].
    unfold Priority.gt. case_match; bool_to_prop; apply Z.ltb_lt; lia.
  - intros c p. rewrite HP. unfold children_of. split.
    + intros (Hin & y & Hy & Hc). split; [done|]. destruct (Hnode p Hin) as (x & y' & Hx & Hy' & [Sm _]).
      simplify_eq. rewrite Hx. by rewrite (same_children _ _ Sm).
    + intros (Hin & Hc). split; [done|]. destruct (Hnode p Hin) as (x & y' & Hx & Hy' & [Sm _]).
      rewrite Hx in Hc. exists y'. split; [done|]. by rewrite <- (same_children _ _ Sm).
  - exists LS. rewrite <- HL. split; [done|]. intros i n a. rewrite HLS. split.
    + intros (k & Li & -> & HLi & Hn & Ha). destruct (Hl k Li n HLi Hn) as (p & ? & ?). eauto.
    + intros (p & Hnp & Hr & Ha).
      assert (n ∈ concat L) as Hn by (rewrite <- Hp; apply Td; by eexists).
      apply list_elem_of_In, in_concat in Hn as (Li & HLi%list_elem_of_In & Hn%list_elem_of_In).
      apply list_elem_of_lookup_1 in HLi as [k Hk]. exists k, Li. split_and!; try done.
      destruct (Hl k Li n Hk Hn) as (p' & Hp' & <-). simplify_eq. done.
  - intros n p Hnp. destruct (Tp n p Hnp). lia.
  - intros i root Hroot. apply Ho; [|done]. apply lookup_lt_Some in Hroot. lia.
Qed.

End init.
