(* ===== verification/OrchestratorApply.v ===== *)
(** * Applying changes to the expression graph

    The loop of [Orchestrator.apply] brings every node in step with the new placement:
    nodes leave the queue after their children, and a node that does not enter it keeps
    its value. *)

From S2P Require Import Prelude Double Exact ChangeSet Assignment AccessOrderedSet Queues Affected Lookup Orchestrator OrchestratorInit OrchestratorIndex OrchestratorLeaves.
Import Orchestrator.

Open Scope Z_scope.

Abbreviation prio o n := (nodeToPriority (order o) !! n).
Abbreviation post o := (postOrder (order o)).

#[export] Instance affected_dec info cs n : Decision (affected info cs n).
Proof.
  unfold affected. destruct (info n) as [a|].
  - destruct (AffectedByChange.matches a (ChangeSet.changes cs)) eqn:E; [left; eauto|right].
    intros (a' & [= <-] & ?). congruence.
  - right. by intros (a' & [=] & _).
Defined.

(** ** Values defined along the graph *)
Section solution.
Context `{HashOrder} `{ExpressionOps}.
Context (o : t) (F : Z → (Z → double) → double).

Fixpoint unfold_value (k : nat) (n : Z) : double :=
  match k with O => d0 | S k => F n (unfold_value k) end.

(** The solution of [D n = F n D]. *)
Definition solution (n : Z) : double :=
  match prio o n with Some p => unfold_value (Z.to_nat (height p)) n | None => d0 end.

Context (ch : Z → gset Z) (info : Z → option AffectedByChange.t) (Hlay : layout o ch info).
Context (Hext : ∀ n D D', n ∈ post o → (∀ c, c ∈ ch n → D c = D' c) → F n D = F n D').

Lemma unfold_value_enough k k' n p :
  prio o n = Some p → (Z.to_nat (height p) ≤ k)%nat → (Z.to_nat (height p) ≤ k')%nat →
  unfold_value k n = unfold_value k' n.
Proof.
  revert k' n p. induction k as [|k IH]; intros k' n p Hp Hk Hk'.
  { destruct (lay_rootIdx _ _ _ Hlay n p Hp). lia. }
  destruct k' as [|k']; [destruct (lay_rootIdx _ _ _ Hlay n p Hp); lia|]. simpl.
  apply Hext; [apply (lay_dom _ _ _ Hlay); by eexists|]. intros c Hc. destruct (lay_closed _ _ _ Hlay n p c Hp Hc) as (q & Hq & _ & Hh).
  destruct (lay_rootIdx _ _ _ Hlay c q Hq). apply (IH k' c q Hq); lia.
Qed.

Lemma solution_eq n : n ∈ post o → solution n = F n solution.
Proof.
  intros Hn. pose proof Hn as [p Hp]%(lay_dom _ _ _ Hlay). unfold solution at 1. rewrite Hp.
  destruct (lay_rootIdx _ _ _ Hlay n p Hp) as [_ Hh].
  destruct (Z.to_nat (height p)) as [|k] eqn:Ek; [lia|]. simpl. apply Hext; [done|]. intros c Hc.
  destruct (lay_closed _ _ _ Hlay n p c Hp Hc) as (q & Hq & _ & Hh'). unfold solution. rewrite Hq.
  destruct (lay_rootIdx _ _ _ Hlay c q Hq). apply (unfold_value_enough _ _ c q Hq); lia.
Qed.

(** There is no other. *)
Lemma solution_unique D : (∀ n, n ∈ post o → D n = F n D) → ∀ n, n ∈ post o → D n = solution n.
Proof.
  intros HD. assert (∀ k n p, prio o n = Some p → (Z.to_nat (height p) ≤ k)%nat → D n = solution n) as Hk.
  { induction k as [|k IH]; intros n p Hp Hh; destruct (lay_rootIdx _ _ _ Hlay n p Hp); [lia|].
    assert (n ∈ post o) as Hn by (apply (lay_dom _ _ _ Hlay); by eexists).
    rewrite HD, solution_eq by done. apply Hext; [done|]. intros c Hc.
    destruct (lay_closed _ _ _ Hlay n p c Hp Hc) as (q & Hq & _ & Hlt).
    destruct (lay_rootIdx _ _ _ Hlay c q Hq). apply (IH c q Hq). lia. }
  intros n Hn. pose proof Hn as [p Hp]%(lay_dom _ _ _ Hlay). by apply (Hk (Z.to_nat (height p)) n p Hp).
Qed.

End solution.

Lemma in_queue_pop `{HashOrder} `{ExpressionOps} (q q' : ReadyNodes) p n :
  BucketedPriorityQueue.flatten q = (p, n) :: BucketedPriorityQueue.flatten q' →
  ∀ y, in_queue q y ↔ y = n ∨ in_queue q' y.
Proof.
  intros Hf y. unfold in_queue. rewrite Hf. setoid_rewrite elem_of_cons. split.
  - intros (p' & [[= -> ->]|?]); [by left|right; eauto].
  - intros [->|(p' & ?)]; eauto.
Qed.

(** ** Propagation to the parents *)
Section notify.
Context `{HashOrder} `{ExpressionOps}.
Context (o : t) (ch : Z → gset Z) (info : Z → option AffectedByChange.t) (Hlay : layout o ch info).

(** The nodes that can still be pushed by a change of a child, and the queue. *)
Definition potential (ctx : EvaluationContext) : nat :=
  length (BucketedPriorityQueue.flatten (readyNodes ctx)) +
  length (filter (λ n, getChangedChildren ctx n = ∅) (post o)).

Lemma potential_bound ctx : (potential ctx ≤ loop_bound o ctx)%nat.
Proof. unfold potential, loop_bound. pose proof (length_filter (λ n, getChangedChildren ctx n = ∅) (post o)). lia. Qed.

(** The contexts differ only in the queue and in the changed children. *)
Record same_caches (ctx ctx' : EvaluationContext) : Prop := {
  sc_val : ctx_val ctx' = ctx_val ctx;
  sc_apply : ctx_apply ctx' = ctx_apply ctx;
  sc_changes : ctx_changes ctx' = ctx_changes ctx;
  sc_roots : evaluatedRoots ctx' = evaluatedRoots ctx
}.

Definition notify_parent (n : Z) (ctx : EvaluationContext) (parent : Z) : result EvaluationContext :=
  let cc := getChangedChildren ctx parent in
  ctx ← (if decide (cc = ∅)
         then p ← priority o parent;
              Ok (with_ready ctx (BucketedPriorityQueue.emplace Priority.gt (readyNodes ctx) p parent))
         else Ok ctx);
  Ok (with_changed ctx (<[parent := {[n]} ∪ cc]> (changedChildren ctx))).

Lemma getChangedChildren_insert ctx cc p n :
  getChangedChildren (with_changed ctx (<[p := cc]> (changedChildren ctx))) n =
    if decide (p = n) then cc else getChangedChildren ctx n.
Proof. unfold getChangedChildren. simpl. rewrite lookup_insert. by case_decide. Qed.

(** A node that turns from having no changed child to having one leaves the count. *)
Lemma count_insert ctx cc p :
  p ∈ post o → getChangedChildren ctx p = ∅ → cc ≠ ∅ →
  S (length (filter (λ n, getChangedChildren (with_changed ctx (<[p := cc]> (changedChildren ctx))) n = ∅) (post o)))
  = length (filter (λ n, getChangedChildren ctx n = ∅) (post o)).
Proof.
  intros Hp Hz0 Hcc. pose proof (lay_nodup _ _ _ Hlay) as Hn. revert Hp Hn.
  set (ctx' := with_changed ctx _).
  assert (∀ l, p ∉ l → length (filter (λ n, getChangedChildren ctx' n = ∅) l) =
            length (filter (λ n, getChangedChildren ctx n = ∅) l)) as Hsame.
  { induction l as [|k l IH]; [done|]. intros [Hk Hl]%not_elem_of_cons. rewrite !filter_cons.
    assert (getChangedChildren ctx' k = getChangedChildren ctx k) as ->.
    { unfold ctx'. by rewrite getChangedChildren_insert, decide_False. }
    case_decide; simpl; auto. }
  induction (post o) as [|k l IH]; [set_solver|]. intros Hp [Hk Hl]%NoDup_cons. rewrite !filter_cons.
  destruct (decide (k = p)) as [->|Hkp].
  - rewrite (decide_True (P := getChangedChildren ctx p = ∅)) by done.
    rewrite decide_False. { simpl. by rewrite Hsame. }
    unfold ctx'. by rewrite getChangedChildren_insert, decide_True.
  - assert (getChangedChildren ctx' k = getChangedChildren ctx k) as ->.
    { unfold ctx'. by rewrite getChangedChildren_insert, decide_False by congruence. }
    assert (p ∈ l) as Hpl by set_solver. specialize (IH Hpl Hl). case_decide; simpl; lia.
Qed.

Lemma count_insert_ne ctx cc p :
  getChangedChildren ctx p ≠ ∅ → cc ≠ ∅ →
  length (filter (λ n, getChangedChildren (with_changed ctx (<[p := cc]> (changedChildren ctx))) n = ∅) (post o))
  = length (filter (λ n, getChangedChildren ctx n = ∅) (post o)).
Proof.
  intros Hz0 Hcc. f_equal. apply list_filter_iff. intros n. rewrite getChangedChildren_insert.
  case_decide; [subst; naive_solver|done].
Qed.

Lemma notify_parent_spec n ctx p :
  p ∈ post o → queue_ok o (readyNodes ctx) →
  ∃ ctx', notify_parent n ctx p = Ok ctx' ∧ same_caches ctx ctx' ∧ queue_ok o (readyNodes ctx') ∧
    (potential ctx' ≤ potential ctx)%nat ∧
    (∀ y, in_queue (readyNodes ctx') y ↔
       in_queue (readyNodes ctx) y ∨ y = p ∧ getChangedChildren ctx p = ∅) ∧
    (∀ y, getChangedChildren ctx' y =
       if decide (y = p) then {[n]} ∪ getChangedChildren ctx p else getChangedChildren ctx y).
Proof.
  intros Hp Hq. unfold notify_parent. cbn zeta.
  assert ({[n]} ∪ getChangedChildren ctx p ≠ ∅) as Hne by set_solver.
  case_decide as E.
  - apply (lay_dom _ _ _ Hlay) in Hp as Hpr. destruct Hpr as [pr Hpr]. unfold priority. rewrite Hpr.
    cbn [at_ mbind result_bind]. eexists. split; [done|].
    destruct (emplace_spec o (readyNodes ctx) pr p Hq Hpr) as [Hq' Hin].
    split; [done|]. split; [done|]. split; [|split].
    + unfold potential. simpl readyNodes.
      rewrite (BucketedPriorityQueue.flatten_emplace Priority.gt _ pr p (q_inv _ _ Hq)).
      rewrite (BucketedPriorityQueue.enqueue_perm Priority.gt). simpl length.
      pose proof (count_insert ctx ({[n]} ∪ getChangedChildren ctx p) p Hp E Hne) as Hc. unfold with_changed in *.
      unfold getChangedChildren in *. simpl in *. lia.
    + intros y. simpl. rewrite Hin. naive_solver.
    + intros y. unfold getChangedChildren. simpl. rewrite lookup_insert.
      destruct (decide (p = y)), (decide (y = p)); congruence || done.
  - eexists. split; [done|]. split; [done|]. split; [done|]. split; [|split].
    + unfold potential. rewrite count_insert_ne by done. done.
    + intros y. simpl. naive_solver.
    + intros y. rewrite getChangedChildren_insert. repeat case_decide; congruence.
Qed.

Lemma notifyChange_spec ctx n :
  queue_ok o (readyNodes ctx) →
  ∃ ctx', notifyChange o ctx n = Ok ctx' ∧ same_caches ctx ctx' ∧ queue_ok o (readyNodes ctx') ∧
    (potential ctx' ≤ potential ctx)%nat ∧
    (∀ y, in_queue (readyNodes ctx') y ↔
       in_queue (readyNodes ctx) y ∨ (y ∈ post o ∧ n ∈ ch y) ∧ getChangedChildren ctx y = ∅) ∧
    (∀ y, y ∈ post o → getChangedChildren ctx' y =
       if decide (n ∈ ch y) then {[n]} ∪ getChangedChildren ctx y else getChangedChildren ctx y).
Proof.
  intros Hq. unfold notifyChange. setoid_rewrite <- (lay_parents _ _ _ Hlay n).
  assert (∀ ps ctx, (∀ p, p ∈ ps → p ∈ post o) → queue_ok o (readyNodes ctx) →
    ∃ ctx', foldM (notify_parent n) ctx ps = Ok ctx' ∧ same_caches ctx ctx' ∧ queue_ok o (readyNodes ctx') ∧
    (potential ctx' ≤ potential ctx)%nat ∧
    (∀ y, in_queue (readyNodes ctx') y ↔
       in_queue (readyNodes ctx) y ∨ y ∈ ps ∧ getChangedChildren ctx y = ∅) ∧
    (∀ y, getChangedChildren ctx' y =
       if decide (y ∈ ps) then {[n]} ∪ getChangedChildren ctx y else getChangedChildren ctx y)) as Hloop.
  { clear ctx Hq. induction ps as [|p ps IH]; intros ctx Hps Hq.
    { exists ctx. split; [done|]. split; [done|]. split; [done|]. split; [lia|]. split; [set_solver|done]. }
    destruct (notify_parent_spec n ctx p) as (c1 & E1 & S1 & Q1 & M1 & I1 & C1); [set_solver|done|].
    destruct (IH c1) as (c2 & E2 & S2 & Q2 & M2 & I2 & C2); [set_solver|done|].
    exists c2. cbn [foldM]. rewrite E1. split; [done|].
    split; [destruct S1, S2; split; congruence|]. split; [done|]. split; [lia|]. split.
    - intros y. rewrite I2, I1, C1. case_decide as E.
      + subst y. split; [|naive_solver set_solver].
        intros [[?|[_ ?]]|[_ ?]]; [by left|right; set_solver|set_solver].
      + set_solver.
    - intros y. rewrite C2, C1. destruct (decide (y ∈ ps)), (decide (y = p));
        (destruct (decide (y ∈ p :: ps)); [|set_solver] || (destruct (decide (y ∈ p :: ps)); [set_solver|]));
        subst; set_solver. }
  pose proof (λ p, lay_parents _ _ _ Hlay n p) as Hpar.
  destruct (nodeToParents o !! n) as [ps|]; simpl in Hpar.
  - destruct (Hloop ps ctx) as (c & E & S & Q & M & I & C); [intros p Hp; by apply Hpar|done|].
    exists c. split; [exact E|]. split; [done|]. split; [done|]. split; [done|]. split; [done|].
    intros y Hy. rewrite C. assert (y ∈ ps ↔ n ∈ ch y) by (rewrite Hpar; tauto). repeat case_decide; tauto.
  - exists ctx. split; [done|]. split; [done|]. split; [done|]. split; [lia|]. split; [set_solver|].
    intros y Hy. rewrite decide_False; [done|]. intros Hin.
    assert (y ∈ []) as ?%not_elem_of_nil by (by apply Hpar). done.
Qed.

End notify.

(** ** The value of every node for a placement *)
Section denote.
Context `{HashOrder} `{ExpressionLaws}.
Context (o : t) (g0 : gmap Z Expression) (data : AffectedByChangeDecisionData).
Context (Hlay : layout o (children_of g0) (info_of g0 data)).
Context (Hnodes : ∀ n, n ∈ post o → is_Some (g0 !! n)).

Definition node_value (m : gmap Z Z) (n : Z) (D : Z → double) : double :=
  match g0 !! n with Some x => spec x m D | None => d0 end.

Definition denotation (m : gmap Z Z) : Z → double := solution o (node_value m).

(** A node as it was built, up to its state. *)
Definition static (n : Z) (x : Expression) : Prop := ∃ x0, g0 !! n = Some x0 ∧ same x0 x.

Lemma static_children n x : static n x → children x = children_of g0 n.
Proof. intros (y & Hy & Hs). unfold children_of. rewrite Hy. symmetry. by apply same_children. Qed.

Lemma static_info n x : static n x → informed g0 data → isAffectedByChange x data = Ok (info_of g0 data n).
Proof.
  intros (y & Hy & Hs) Hinf. unfold info_of. rewrite Hy. destruct (Hinf n y Hy) as (info & Hi & _).
  rewrite Hi. by rewrite <- (same_affected y x data Hs).
Qed.

Lemma denotation_eq m n x : n ∈ post o → static n x → denotation m n = spec x m (denotation m).
Proof.
  intros Hn (y & Hy & Hs). unfold denotation at 1.
  rewrite (solution_eq o (node_value m) _ _ Hlay).
  - unfold node_value at 1. rewrite Hy. by apply same_spec.
  - intros k D D' _ HD. unfold node_value. unfold children_of in HD. destruct (g0 !! k); [|done].
    by apply spec_children.
  - done.
Qed.

(** Every node is in step with the placement. *)
Definition in_step (g : gmap Z Expression) (m : gmap Z Z) : Prop :=
  ∀ n, n ∈ post o → ∃ x, g !! n = Some x ∧ static n x ∧ consistent x m (denotation m).

Lemma in_step_value g m n : in_step g m → n ∈ post o → read_value g n = Ok (denotation m n).
Proof.
  intros Hg Hn. destruct (Hg n Hn) as (x & Hx & Hs & Hc). unfold read_value, deref. rewrite Hx.
  cbn [mbind result_bind]. by rewrite (consistent_value x m _ Hc), (denotation_eq m n x).
Qed.

(** ** The loop of [apply] *)
Section loop.
Context (Hinf : informed g0 data).
Context (cs : ChangeSet.t) (m m' : gmap Z Z) (Ht : transition cs m m').
Context (a : Assignment.t) (Ha : Assignment.inv a) (Hm' : Assignment.objectToContainer a = m').
Context (Hcan : ∀ n, n ∈ post o → canon (denotation m n) ∧ canon (denotation m' n)).

Abbreviation D := (denotation m).
Abbreviation D' := (denotation m').
Abbreviation ch := (children_of g0).

(** A node that has been brought in step; its parents know if its value changed. *)
Definition settled (g : gmap Z Expression) (ctx : EvaluationContext) (n : Z) (x : Expression) : Prop :=
  consistent x m' D' ∧ (D n ≠ D' n → is_Some (ctx_apply ctx !! n)).

Record pinv (g : gmap Z Expression) (ctx : EvaluationContext) : Prop := {
  p_queue : queue_ok o (readyNodes ctx);
  p_changes : ctx_changes ctx = Some cs;
  p_node n : n ∈ post o →
    ∃ x, g !! n = Some x ∧ static n x ∧ (consistent x m D ∨ settled g ctx n x);
  p_cache n v : ctx_apply ctx !! n = Some v →
    v = D' n ∧ D n ≠ D' n ∧ n ∈ post o ∧ ∃ x, g !! n = Some x ∧ consistent x m' D';
  p_changed p c : p ∈ post o → c ∈ getChangedChildren ctx p ↔ c ∈ ch p ∧ is_Some (ctx_apply ctx !! c);
  p_pending n : n ∈ post o → affected (info_of g0 data) cs n ∨ getChangedChildren ctx n ≠ ∅ →
    in_queue (readyNodes ctx) n ∨ ∃ x, g !! n = Some x ∧ settled g ctx n x;
  p_needed n : in_queue (readyNodes ctx) n → affected (info_of g0 data) cs n ∨ getChangedChildren ctx n ≠ ∅
}.

Lemma child_post p c : p ∈ post o → c ∈ ch p → c ∈ post o.
Proof.
  intros [q Hq]%(lay_dom _ _ _ Hlay) Hc. destruct (lay_closed _ _ _ Hlay p q c Hq Hc) as (r & Hr & _).
  apply (lay_dom _ _ _ Hlay). by eexists.
Qed.

(** A node above everything that is queued is settled. *)
Lemma above_settled g ctx n p :
  pinv g ctx → prio o n = Some p →
  (∀ y q, in_queue (readyNodes ctx) y → prio o y = Some q → Priority.gt p q = true) →
  ∃ x, g !! n = Some x ∧ static n x ∧ consistent x m' D' ∧
    (D n ≠ D' n ↔ is_Some (ctx_apply ctx !! n)).
Proof.
  intros Hp. remember (Z.to_nat (height p)) as k eqn:Ek. revert n p Ek.
  induction k as [k IH] using lt_wf_ind. intros n p -> Hn Hq.
  assert (n ∈ post o) as Hpost by (apply (lay_dom _ _ _ Hlay); by eexists).
  assert (∀ c, c ∈ ch n → D c ≠ D' c ↔ is_Some (ctx_apply ctx !! c)) as Hch.
  { intros c Hc. destruct (lay_closed _ _ _ Hlay n p c Hn Hc) as (q & Hqc & Hgt & Hh).
    destruct (lay_rootIdx _ _ _ Hlay c q Hqc) as [_ Hh1].
    destruct (IH (Z.to_nat (height q)) ltac:(lia) c q eq_refl Hqc) as (x & _ & _ & _ & Hiff); [|done].
    intros y r Hy Hr. apply (Priority.gt_trans q p r); [done|]. by apply (Hq y). }
  destruct (p_node g ctx Hp n Hpost) as (x & Hx & Hst & Hc). exists x. split; [done|]. split; [done|].
  assert (is_Some (ctx_apply ctx !! n) → D n ≠ D' n) as Hback.
  { intros [v Hv]. by destruct (p_cache g ctx Hp n v Hv) as (_ & ? & _). }
  destruct Hc as [Hc|[Hc Hs]]; [|split; [done|split; auto]].
  destruct (decide (affected (info_of g0 data) cs n ∨ getChangedChildren ctx n ≠ ∅)) as [Hnd|Hnd].
  - destruct (p_pending g ctx Hp n Hpost Hnd) as [Hin|(x' & Hx' & [Hc' Hs])].
    + specialize (Hq n p Hin Hn). by rewrite (StdSet.st_irrefl (D := λ _, True)) in Hq.
    + simplify_eq. split; [done|]. split; auto.
  - apply Decidable.not_or in Hnd as [Haff Hcc%dec_stable].
    assert (∀ c, c ∈ children x → D c = D' c) as Hsame.
    { rewrite (static_children n x Hst). intros c Hc'. apply dec_stable. intros Hne.
      assert (c ∈ getChangedChildren ctx n) as Hin; [|set_solver].
      apply (p_changed g ctx Hp n c Hpost). split; [done|]. by apply Hch. }
    assert (consistent x m' D') as Hnew.
    { eapply (frame x data _ cs m m' D D' Ht Hc Hsame); [by apply (static_info n)|].
      intros b Hb. destruct (AffectedByChange.matches b _) eqn:E; [|done]. destruct Haff. by exists b. }
    split; [done|]. split; [|done]. intros Hne. destruct Hne.
    rewrite (denotation_eq m n x), (denotation_eq m' n x) by done.
    by rewrite <- (consistent_value x m D), <- (consistent_value x m' D').
Qed.

(** What a node finds when it is taken from the queue. *)
Lemma pop_children g ctx p n rest :
  pinv g ctx → BucketedPriorityQueue.flatten (readyNodes ctx) = (p, n) :: rest →
  prio o n = Some p ∧ n ∈ post o ∧
  (∀ c, c ∈ ch n → read_value g c = Ok (D' c) ∧ cached_or_value (ctx_apply ctx) g c = Ok (D' c)) ∧
  (∀ c, c ∈ getChangedChildren ctx n ↔ c ∈ ch n ∧ D c ≠ D' c).
Proof.
  intros Hp Hf. assert (prio o n = Some p) as Hn.
  { apply (q_prio _ _ (p_queue g ctx Hp)). rewrite Hf. set_solver. }
  assert (n ∈ post o) as Hpost by (apply (lay_dom _ _ _ Hlay); by eexists).
  assert (∀ c, c ∈ ch n → ∃ x, g !! c = Some x ∧ static c x ∧ consistent x m' D' ∧
            (D c ≠ D' c ↔ is_Some (ctx_apply ctx !! c))) as Hch.
  { intros c Hc. destruct (lay_closed _ _ _ Hlay n p c Hn Hc) as (q & Hqc & Hgt & _).
    apply (above_settled g ctx c q Hp Hqc). intros y r [r' Hy] Hr.
    pose proof (q_prio _ _ (p_queue g ctx Hp) r' y Hy) as Hr'. simplify_eq.
    apply (Priority.gt_ge q p r Hgt). rewrite Hf in Hy. apply elem_of_cons in Hy as [[= -> ->]|Hy].
    - by apply (StdSet.st_irrefl (D := λ _, True)).
    - by eapply (BucketedPriorityQueue.flatten_sorted Priority.gt _ (q_inv _ _ (p_queue g ctx Hp))). }
  split; [done|]. split; [done|]. split.
  - intros c Hc. destruct (Hch c Hc) as (x & Hx & Hst & Hcons & _).
    assert (read_value g c = Ok (D' c)) as Hr.
    { unfold read_value, deref. rewrite Hx. cbn [mbind result_bind].
      rewrite (consistent_value x m' D' Hcons), (denotation_eq m' c x); [done|by eapply child_post|done]. }
    split; [done|]. unfold cached_or_value. destruct (ctx_apply ctx !! c) as [v|] eqn:E; [|done].
    by destruct (p_cache g ctx Hp c v E) as [-> _].
  - intros c. rewrite (p_changed g ctx Hp n c Hpost). split.
    + intros [Hc Hs]. destruct (Hch c Hc) as (x & _ & _ & _ & Hiff). split; [done|]. by apply Hiff.
    + intros [Hc Hs]. destruct (Hch c Hc) as (x & _ & _ & _ & Hiff). split; [done|]. by apply Hiff.
Qed.


(** The node taken from the queue is settled and its value is the old one, or its parents
    had been told before. *)
Lemma pinv_update g ctx n x' q :
  pinv g ctx → queue_ok o q → (∀ y, in_queue (readyNodes ctx) y ↔ y = n ∨ in_queue q y) →
  static n x' → consistent x' m' D' → (D n ≠ D' n → is_Some (ctx_apply ctx !! n)) →
  pinv (<[n := x']> g) (with_ready ctx q).
Proof.
  intros [Pq Pc Pn Pa Pch Pp Pne] Hq Hin Hst Hcons Hs. split.
  - done.
  - done.
  - intros k Hk. rewrite lookup_insert. case_decide as E.
    + subst k. exists x'. split; [done|]. split; [done|]. by right.
    + destruct (Pn k Hk) as (x & ? & ? & ?). exists x. done.
  - intros k v Hv. destruct (Pa k v Hv) as (? & ? & ? & x & Hx & Hc). do 3 (split; [done|]).
    rewrite lookup_insert. case_decide; [subst; eauto|eauto].
  - done.
  - intros k Hk Hnd. rewrite lookup_insert. case_decide as E.
    + subst k. right. exists x'. done.
    + destruct (Pp k Hk Hnd) as [Hkq|?]; [|by right]. apply Hin in Hkq as [->|?]; [done|by left].
  - intros k Hk. apply Pne, Hin. by right.
Qed.

(** Its value has changed and its parents are told. *)
Lemma pinv_notified g ctx n x' q ctx' :
  pinv g ctx → queue_ok o q → (∀ y, in_queue (readyNodes ctx) y ↔ y = n ∨ in_queue q y) →
  n ∈ post o → static n x' → consistent x' m' D' → D n ≠ D' n → ctx_apply ctx !! n = None →
  same_caches (save_apply (with_ready ctx q) n (D' n)) ctx' → queue_ok o (readyNodes ctx') →
  (∀ y, in_queue (readyNodes ctx') y ↔
     in_queue q y ∨ (y ∈ post o ∧ n ∈ ch y) ∧ getChangedChildren ctx y = ∅) →
  (∀ y, y ∈ post o → getChangedChildren ctx' y =
     if decide (n ∈ ch y) then {[n]} ∪ getChangedChildren ctx y else getChangedChildren ctx y) →
  pinv (<[n := x']> g) ctx'.
Proof.
  intros [Pq Pc Pn Pa Pch Pp Pne] Hq Hin Hpost Hst Hcons Hne Hnone [_ Sa Sc _] Hq' Hin' Hcc.
  assert (ctx_apply ctx' = <[n := D' n]> (ctx_apply ctx)) as Eap.
  { rewrite Sa. simpl. unfold save. simpl. by rewrite Hnone. }
  assert (∀ k x, settled g ctx k x → settled (<[n := x']> g) ctx' k x) as Hset.
  { intros k x [Hk1 Hk2]. split; [done|]. intros Hk. rewrite Eap, lookup_insert. case_decide; [by eexists|auto]. }
  split.
  - done.
  - by rewrite Sc.
  - intros k Hk. rewrite lookup_insert. case_decide as E.
    + subst k. exists x'. split; [done|]. split; [done|]. right. split; [done|].
      intros _. rewrite Eap, lookup_insert_eq. by eexists.
    + destruct (Pn k Hk) as (x & Hx & Hsx & [Hc|Hc]); exists x; [by auto|].
      split; [done|]. split; [done|]. right. auto.
  - intros k v. rewrite Eap, lookup_insert. case_decide as E.
    + subst k. intros [= <-]. do 3 (split; [done|]). exists x'. by rewrite lookup_insert_eq.
    + intros Hv. destruct (Pa k v Hv) as (? & ? & ? & x & Hx & Hc). do 3 (split; [done|]).
      exists x. by rewrite lookup_insert_ne.
  - intros p c Hp. rewrite Hcc by done. specialize (Pch p c Hp). rewrite Eap, lookup_insert.
    case_decide as E1; case_decide as E2; subst; rewrite ?elem_of_union, ?elem_of_singleton.
    + split; [intros _; split; [done|by eexists]|by left].
    + rewrite Pch. split; [intros [?|?]; [congruence|done]|by right].
    + rewrite Pch. split; [|tauto]. intros [? _]. done.
    + done.
  - intros k Hk Hnd. destruct (decide (k = n)) as [->|Hkn].
    { right. exists x'. rewrite lookup_insert_eq. split; [done|]. split; [done|]. intros _.
      rewrite Eap, lookup_insert_eq. by eexists. }
    rewrite lookup_insert_ne by done.
    assert (in_queue (readyNodes ctx') k ∨ (affected (info_of g0 data) cs k ∨ getChangedChildren ctx k ≠ ∅))
      as [?|Hnd'].
    { rewrite Hcc in Hnd by done. destruct (decide (getChangedChildren ctx k = ∅)) as [E|E]; [|tauto].
      destruct Hnd as [?|Hnd]; [tauto|]. case_decide; [|tauto]. left. apply Hin'. right. tauto. }
    { by left. }
    destruct (Pp k Hk Hnd') as [Hkq|(x & Hx & Hset')]; [|right; eauto].
    apply Hin in Hkq as [?|Hkq]; [done|]. left. apply Hin'. by left.
  - intros k [Hk|[[Hk1 Hk2] _]]%Hin'.
    + assert (k ∈ post o) as Hkp.
      { destruct Hk as [p Hk]. apply (lay_dom _ _ _ Hlay). exists p. by apply (q_prio _ _ Hq). }
      destruct (Pne k) as [?|?]; [apply Hin; by right|by left|right]. rewrite Hcc by done. case_decide; set_solver.
    + right. rewrite Hcc by done. rewrite decide_True by done. set_solver.
Qed.

Lemma apply_step_spec g ctx :
  pinv g ctx → BucketedPriorityQueue.empty (readyNodes ctx) = false →
  ∃ g' ctx', apply_step o a g ctx = Ok (g', ctx') ∧ pinv g' ctx' ∧
    (potential o ctx' < potential o ctx)%nat.
Proof.
  intros Hp Hne. pose proof (p_queue g ctx Hp) as Hq.
  destruct (BucketedPriorityQueue.pop_inv Priority.gt _ (q_inv _ _ Hq) Hne) as (p & n & q & Et & Ep & Hi & Hf).
  destruct (pop_children g ctx p n _ Hp Hf) as (Hn & Hpost & Hch & Hcc).
  assert (queue_ok o q) as Hq'.
  { split; [done|]. intros p' y Hy. apply (q_prio _ _ Hq). rewrite Hf. set_solver. }
  assert (∀ y, in_queue (readyNodes ctx) y ↔ y = n ∨ in_queue q y) as Hin by (by eapply in_queue_pop).
  assert (potential o ctx = S (potential o (with_ready ctx q))) as Hpot.
  { unfold potential. rewrite Hf. done. }
  destruct (p_node g ctx Hp n Hpost) as (x & Hx & Hst & Hc).
  destruct (Hcan n Hpost) as [C1 C2].
  unfold apply_step. rewrite Et. cbn [mbind result_bind]. rewrite Ep. cbn [mbind result_bind].
  unfold deref at 1. rewrite Hx. cbn [mbind result_bind]. cbn [ctx_apply with_ready].
  destruct (ctx_apply ctx !! n) as [v|] eqn:Ev.
  - destruct (p_cache g ctx Hp n v Ev) as (-> & Hne' & _ & x' & Hx' & Hc').
    rewrite Hx in Hx'. injection Hx' as <-. cbn [mbind result_bind].
    assert (expression_value x = D' n) as ->.
    { by rewrite (consistent_value x m' D' Hc'), (denotation_eq m' n x). }
    rewrite canon_eq, bool_decide_true by done. simpl. eexists _, _. split; [done|]. split; [|lia].
    rewrite <- (insert_id g n x Hx). by apply pinv_update.
  - unfold changes_of. cbn [ctx_changes with_ready]. rewrite (p_changes g ctx Hp). cbn [mbind result_bind].
    assert (expression_value x = D n) as ->.
    { destruct Hc as [Hc|[Hc Hs]].
      - by rewrite (consistent_value x m D Hc), (denotation_eq m n x).
      - rewrite (consistent_value x m' D' Hc), <- (denotation_eq m' n x) by done.
        destruct (decide (D n = D' n)) as [E|E]; [done|]. destruct (Hs E) as [? ?]. congruence. }
    destruct (partialApply_spec x data (evaluator_for (ctx_apply ctx) g (with_ready ctx q) n) a cs m m' D D')
      as (x' & -> & Hsame & Hcons); [|done|done|done| | | | | |].
    { destruct (p_needed g ctx Hp n) as [(b & Hb & Hmb)|?]; [apply Hin; by left|left|by right].
      exists b. by rewrite (static_info n x Hst Hinf), Hb. }
    { intros c Hc'. rewrite (static_children n x Hst) in Hc'. apply Hcan. by eapply child_post. }
    { by rewrite <- (denotation_eq m' n x). }
    { destruct Hc as [?|[? _]]; tauto. }
    { intros c Hc'. rewrite (static_children n x Hst) in Hc'. simpl. by apply Hch. }
    { intros c. simpl. rewrite (static_children n x Hst). apply Hcc. }
    cbn [mbind result_bind]. rewrite <- (denotation_eq m' n x) by done.
    assert (static n x') as Hst'.
    { destruct Hst as (y & Hy & Hs). exists y. split; [done|]. by trans x. }
    rewrite canon_eq by done. case_bool_decide as E; simpl.
    + eexists _, _. split; [done|]. split; [|lia]. by apply pinv_update.
    + destruct (notifyChange_spec o ch _ Hlay (save_apply (with_ready ctx q) n (D' n)) n)
        as (ctx' & -> & S' & Q' & M' & I' & C'); [done|].
      cbn [mbind result_bind]. eexists _, _. split; [done|]. split.
      * eapply (pinv_notified g ctx n x' q ctx'); done.
      * rewrite Hpot. change (potential o (save_apply (with_ready ctx q) n (D' n)))
          with (potential o (with_ready ctx q)) in M'. lia.
Qed.

Lemma apply_loop_spec fuel g ctx :
  pinv g ctx → (potential o ctx ≤ fuel)%nat →
  ∃ g' ctx', apply_loop fuel o a g ctx = Ok (g', ctx') ∧ in_step g' m'.
Proof.
  revert g ctx. induction fuel as [|fuel IH]; intros g ctx Hp Hf; cbn [apply_loop];
    destruct (BucketedPriorityQueue.empty (readyNodes ctx)) eqn:E.
  2:{ destruct (apply_step_spec g ctx Hp E) as (g' & ctx' & _ & _ & ?). lia. }
  3:{ destruct (apply_step_spec g ctx Hp E) as (g' & ctx' & -> & Hp' & Hlt). cbn [mbind result_bind].
      apply IH; [done|lia]. }
  all: exists g, ctx; split; [done|]; intros n Hn;
    pose proof Hn as [p Hpr]%(lay_dom _ _ _ Hlay);
    destruct (above_settled g ctx n p Hp Hpr) as (x & ? & ? & ? & _); [|by eauto];
    intros y q [r Hy] _;
    apply (BucketedPriorityQueue.empty_flatten Priority.gt _ (q_inv _ _ (p_queue g ctx Hp))) in E;
    rewrite E in Hy; set_solver.
Qed.

(** Applying the changes to a graph in step with the old placement yields one in step
    with the new one. *)
Lemma graph_apply_spec g :
  in_step g m → ∃ g' ctx', apply o (newContext (Some cs)) a g = Ok (g', ctx') ∧ in_step g' m'.
Proof.
  intros Hg. unfold apply.
  destruct (lay_index _ _ _ Hlay) as (LS & Hix & HLS).
  destruct (computeAllChangedLeaves_spec o _ _ Hlay LS Hix HLS cs (transition_wf _ _ _ Ht))
    with (ctx := newContext (Some cs)) as (q & -> & Hq & Hin); [|apply clear_queue|done|].
  { intros n b Hn%(lay_dom _ _ _ Hlay) Hb. destruct (Hg n Hn) as (x & Hx & Hst & Hc).
    destruct (affected_total x m D data (ChangeSet.changes cs) Hc (transition_objects _ _ _ Ht)) as (i & Hi & Hall).
    rewrite (static_info n x Hst Hinf) in Hi. injection Hi as <-. by apply Hall. }
  cbn [mbind result_bind]. apply apply_loop_spec; [|apply potential_bound]. split.
  - done.
  - done.
  - intros n Hn. destruct (Hg n Hn) as (x & Hx & Hst & Hc). eauto.
  - intros n v. simpl. by rewrite lookup_empty.
  - intros p c Hp. unfold getChangedChildren. simpl. rewrite !lookup_empty. simpl. split; [set_solver|].
    intros [_ [? [=]]].
  - intros n Hn [Haff|Hcc]; [|done]. left. simpl. apply Hin. right. split; [done|]. by apply (lay_dom _ _ _ Hlay).
  - intros n [[p Hn]|[Hn _]]%Hin; [|by left]. simpl in Hn. set_solver.
Qed.

End loop.
End denote.
