(* ===== verification/OrchestratorEvaluate.v ===== *)
(** * Evaluating changes without applying them

    [Orchestrator.evaluate] finds the value of a node after some changes.  The result is
    determined by the graph and the changes: it does not depend on which nodes were
    evaluated before with the same context. *)

From S2P Require Import Prelude Double Exact ChangeSet Assignment AccessOrderedSet Queues Affected Lookup Orchestrator OrchestratorInit OrchestratorIndex OrchestratorLeaves OrchestratorApply.
Import Orchestrator.

Open Scope Z_scope.

Abbreviation prio o n := (nodeToPriority (order o) !! n).
Abbreviation post o := (postOrder (order o)).

Section evaluate.
Context `{HashOrder} `{ExpressionLaws}.
Context (o : t) (g0 : gmap Z Expression) (data : AffectedByChangeDecisionData).
Context (Hlay : layout o (children_of g0) (info_of g0 data)).
Context (Hinf : informed g0 data).
Context (g : gmap Z Expression) (m : gmap Z Z) (Hg : in_step o g0 g m).
Context (Hcan : ∀ n, n ∈ post o → canon (denotation o g0 m n)).
Context (cs : ChangeSet.t) (Hwf : ChangeSet.wf cs).
Context (Hobj : ∀ c, c ∈ ChangeSet.changes cs → object c ∈ dom m).

Abbreviation D := (denotation o g0 m).
Abbreviation ch := (children_of g0).
Abbreviation aff := (affected (info_of g0 data) cs).

(** [oldValue != newValue] *)
Definition differs (n : Z) (v : double) : bool := negb (D n =? v)%D.

(** What a parent sees of a child with the value [E c]. *)
Definition seen (E : Z → double) (c : Z) : double := if differs c (E c) then E c else D c.

Definition changed_by (E : Z → double) (n : Z) : gset Z := filter (λ c, differs c (E c) = true) (ch n).

Definition evaluator_of (E : Z → double) (n : Z) : Evaluator :=
  mkEvaluator (read_value g) (λ c, Ok (seen E c)) (changed_by E n).

(** A node is evaluated if the changes affect it or one of its children changed. *)
Definition evaluation (n : Z) (E : Z → double) : double :=
  match g !! n with
  | Some x =>
      if decide (aff n ∨ changed_by E n ≠ ∅)
      then match expression_evaluate x (evaluator_of E n) cs with Ok v => v | Throw _ => D n end
      else D n
  | None => d0
  end.

(** The value of every node after the changes. *)
Definition prediction : Z → double := solution o evaluation.
Abbreviation ev := prediction.

Lemma changed_by_ext E E' n : (∀ c, c ∈ ch n → E c = E' c) → changed_by E n = changed_by E' n.
Proof.
  intros HE. apply set_eq. intros c. unfold changed_by. rewrite !elem_of_filter. split.
  - intros [Hd Hc]. by rewrite <- (HE c Hc).
  - intros [Hd Hc]. by rewrite (HE c Hc).
Qed.

Lemma child_in_post p c : p ∈ post o → c ∈ ch p → c ∈ post o.
Proof. by apply (child_post o g0 data Hlay). Qed.

Lemma prediction_eq n : n ∈ post o → ev n = evaluation n ev.
Proof.
  apply (solution_eq o evaluation ch (info_of g0 data) Hlay). intros k E E' Hk HE. unfold evaluation.
  destruct (Hg k Hk) as (x & Hx & Hst & Hc). rewrite Hx, (changed_by_ext E E' k HE).
  case_decide; [|done]. rewrite (evaluate_children x m D (evaluator_of E k) (evaluator_of E' k) cs Hc); [done|..].
  - simpl. by apply changed_by_ext.
  - simpl. rewrite (static_children g0 k x Hst). unfold changed_by. set_solver.
  - intros c Hin. rewrite (static_children g0 k x Hst) in Hin. simpl. unfold seen. by rewrite (HE c Hin).
Qed.

(** ** The invariant of the context *)
Record einv (ctx : EvaluationContext) : Prop := {
  e_queue : queue_ok o (readyNodes ctx);
  e_changes : ctx_changes ctx = Some cs;
  e_cache n v : ctx_val ctx !! n = Some v → n ∈ post o ∧ v = ev n ∧ differs n (ev n) = true;
  e_changed p c : p ∈ post o → c ∈ getChangedChildren ctx p ↔ c ∈ ch p ∧ is_Some (ctx_val ctx !! c);
  e_pending n p : prio o n = Some p →
    aff n ∧ rootIdx p ≤ evaluatedRoots ctx ∨ getChangedChildren ctx n ≠ ∅ →
    in_queue (readyNodes ctx) n ∨ (differs n (ev n) = true → is_Some (ctx_val ctx !! n));
  e_needed n : in_queue (readyNodes ctx) n → aff n ∨ getChangedChildren ctx n ≠ ∅
}.

Lemma same_value n : n ∈ post o → differs n (D n) = false.
Proof. intros Hn. unfold differs. destruct (Hcan n Hn) as [Hf _]. by rewrite deq_val, Z.eqb_refl. Qed.

Lemma gt_root p q : Priority.gt q p = true → rootIdx q ≤ rootIdx p.
Proof. unfold Priority.gt. case_match; bool_to_prop; intros; bool_to_prop; lia. Qed.

Lemma above_evaluated ctx n p :
  einv ctx → prio o n = Some p → rootIdx p ≤ evaluatedRoots ctx →
  (∀ y q, in_queue (readyNodes ctx) y → prio o y = Some q → Priority.gt p q = true) →
  (differs n (ev n) = true ↔ is_Some (ctx_val ctx !! n)).
Proof.
  intros He. remember (Z.to_nat (height p)) as k eqn:Ek. revert n p Ek.
  induction k as [k IH] using lt_wf_ind. intros n p -> Hn Hr Hq.
  assert (n ∈ post o) as Hpost by (apply (lay_dom _ _ _ Hlay); by eexists).
  assert (∀ c, c ∈ ch n → differs c (ev c) = true ↔ is_Some (ctx_val ctx !! c)) as Hch.
  { intros c Hc. destruct (lay_closed _ _ _ Hlay n p c Hn Hc) as (q & Hqc & Hgt & Hh).
    destruct (lay_rootIdx _ _ _ Hlay c q Hqc) as [_ Hh1].
    apply (IH (Z.to_nat (height q)) ltac:(lia) c q eq_refl Hqc).
    - apply gt_root in Hgt. lia.
    - intros y r Hy Hr'. apply (Priority.gt_trans q p r); [done|]. by apply (Hq y). }
  split; [|intros [v Hv]; by destruct (e_cache ctx He n v Hv) as (_ & _ & ?)].
  intros Hd. destruct (decide (aff n ∨ getChangedChildren ctx n ≠ ∅)) as [Hnd|Hnd].
  - destruct (e_pending ctx He n p Hn) as [Hin|Hs]; [tauto| |auto].
    specialize (Hq n p Hin Hn). by rewrite (StdSet.st_irrefl (D := λ _, True)) in Hq.
  - exfalso. rewrite (prediction_eq n Hpost) in Hd. unfold evaluation in Hd.
    destruct (Hg n Hpost) as (x & Hx & _). rewrite Hx, decide_False in Hd.
    + by rewrite same_value in Hd.
    + intros [?|Hne]; [tauto|]. apply Hnd. right. intros E. apply Hne. apply set_eq. intros c.
      unfold changed_by. rewrite elem_of_filter. split; [|set_solver]. intros [Hdc Hc].
      rewrite <- E. apply (e_changed ctx He n c Hpost). split; [done|]. by apply Hch.
Qed.

(** The value computed for a node taken from the queue. *)
Lemma popped_value ctx p n rest :
  einv ctx → BucketedPriorityQueue.flatten (readyNodes ctx) = (p, n) :: rest →
  prio o n = Some p → rootIdx p ≤ evaluatedRoots ctx →
  ∃ x, g !! n = Some x ∧
    expression_evaluate x (evaluator_for (ctx_val ctx) g ctx n) cs = Ok (ev n).
Proof.
  intros He Hf Hn Hr. assert (n ∈ post o) as Hpost by (apply (lay_dom _ _ _ Hlay); by eexists).
  assert (∀ c, c ∈ ch n → differs c (ev c) = true ↔ is_Some (ctx_val ctx !! c)) as Hch.
  { intros c Hc. destruct (lay_closed _ _ _ Hlay n p c Hn Hc) as (q & Hqc & Hgt & _).
    apply (above_evaluated ctx c q He Hqc); [apply gt_root in Hgt; lia|]. intros y r [r' Hy] Hry.
    pose proof (q_prio _ _ (e_queue ctx He) r' y Hy) as Hr'. simplify_eq.
    apply (Priority.gt_ge q p r Hgt). rewrite Hf in Hy. apply elem_of_cons in Hy as [[= -> ->]|Hy].
    - by apply (StdSet.st_irrefl (D := λ _, True)).
    - by eapply (BucketedPriorityQueue.flatten_sorted Priority.gt _ (q_inv _ _ (e_queue ctx He))). }
  assert (getChangedChildren ctx n = changed_by ev n) as Hcc.
  { apply set_eq. intros c. rewrite (e_changed ctx He n c Hpost). unfold changed_by. rewrite elem_of_filter.
    split; intros [H1' H2']; (split; [|done]) || (split; [done|]); by apply Hch. }
  destruct (Hg n Hpost) as (x & Hx & Hst & Hc). exists x. split; [done|].
  pose proof (static_children g0 n x Hst) as Hxc.
  assert (changed_by ev n ⊆ children x) as Hsub by (rewrite Hxc; unfold changed_by; set_solver).
  rewrite (evaluate_children x m D _ (evaluator_of ev n) cs Hc).
  - rewrite (prediction_eq n Hpost). unfold evaluation at 1. rewrite Hx.
    assert (in_queue (readyNodes ctx) n) as Hq by (exists p; rewrite Hf; set_solver).
    apply (e_needed ctx He) in Hq. rewrite Hcc in Hq. rewrite decide_True by done.
    destruct (evaluate_total x m D data (evaluator_of ev n) cs Hc) as [v ->]; [|done|done|done| |done].
    { destruct Hq as [(b & Hb & Hmb)|?]; [left|by right]. exists b.
      by rewrite (static_info g0 data n x Hst Hinf), Hb. }
    intros c Hc'. rewrite Hxc in Hc'. simpl. split; [|by eexists].
    apply (in_step_value o g0 data Hlay g m c Hg). by eapply child_in_post.
  - done.
  - simpl. by rewrite Hcc.
  - intros c Hc'. rewrite Hxc in Hc'. simpl. split; [done|]. unfold cached_or_value, seen.
    destruct (ctx_val ctx !! c) as [v|] eqn:Ev.
    + destruct (e_cache ctx He c v Ev) as (_ & -> & ->). done.
    + destruct (differs c (ev c)) eqn:E; [apply Hch in E as [? ?]; [congruence|done]|].
      apply (in_step_value o g0 data Hlay g m c Hg). by eapply child_in_post.
Qed.

(** ** The steps *)
Lemma einv_same ctx n q :
  einv ctx → queue_ok o q → (∀ y, in_queue (readyNodes ctx) y ↔ y = n ∨ in_queue q y) →
  differs n (ev n) = false → einv (with_ready ctx q).
Proof.
  intros [Eq Ec Ea Ech Ep En] Hq Hin Hd. split; try done.
  - intros k p Hk Hnd. destruct (Ep k p Hk Hnd) as [Hkq|?]; [|by right].
    apply Hin in Hkq as [->|?]; [right; congruence|by left].
  - intros k Hk. apply En, Hin. by right.
Qed.

Lemma einv_notified ctx n q ctx' :
  einv ctx → queue_ok o q → (∀ y, in_queue (readyNodes ctx) y ↔ y = n ∨ in_queue q y) →
  n ∈ post o → differs n (ev n) = true →
  same_caches (save_val (with_ready ctx q) n (ev n)) ctx' → queue_ok o (readyNodes ctx') →
  (∀ y, in_queue (readyNodes ctx') y ↔
     in_queue q y ∨ (y ∈ post o ∧ n ∈ ch y) ∧ getChangedChildren ctx y = ∅) →
  (∀ y, y ∈ post o → getChangedChildren ctx' y =
     if decide (n ∈ ch y) then {[n]} ∪ getChangedChildren ctx y else getChangedChildren ctx y) →
  einv ctx'.
Proof.
  intros [Eq Ec Ea Ech Ep En] Hq Hin Hpost Hd [Sv _ Sc Sr] Hq' Hin' Hcc.
  assert (ctx_val ctx' = <[n := ev n]> (ctx_val ctx)) as Ev.
  { rewrite Sv. simpl. unfold save. simpl. destruct (ctx_val ctx !! n) as [v|] eqn:E; [|done].
    destruct (Ea n v E) as (_ & -> & _). by rewrite insert_id. }
  simpl in Sr. split.
  - done.
  - by rewrite Sc.
  - intros k v. rewrite Ev, lookup_insert. case_decide; [naive_solver|apply Ea].
  - intros p c Hp. rewrite Hcc by done. specialize (Ech p c Hp). rewrite Ev, lookup_insert.
    case_decide as E1; case_decide as E2; subst; rewrite ?elem_of_union, ?elem_of_singleton.
    + split; [intros _; split; [done|by eexists]|by left].
    + rewrite Ech. split; [intros [?|?]; [congruence|done]|by right].
    + rewrite Ech. split; [|tauto]. intros [? _]. done.
    + done.
  - intros k p Hk Hnd. rewrite Ev, lookup_insert.
    assert (k ∈ post o) as Hkp by (apply (lay_dom _ _ _ Hlay); by eexists).
    case_decide as E; [by right|]. rewrite Sr, Hcc in Hnd by done.
    destruct (decide (getChangedChildren ctx k = ∅)) as [E0|E0].
    + destruct (decide (n ∈ ch k)); [left; apply Hin'; right; tauto|].
      destruct (Ep k p Hk ltac:(tauto)) as [Hkq|?]; [|by right].
      apply Hin in Hkq as [?|?]; [congruence|]. left. apply Hin'. by left.
    + destruct (Ep k p Hk ltac:(tauto)) as [Hkq|?]; [|by right].
      apply Hin in Hkq as [?|?]; [congruence|]. left. apply Hin'. by left.
  - intros k [Hk|[[Hk1 Hk2] _]]%Hin'.
    + assert (k ∈ post o) as Hkp.
      { destruct Hk as [p Hk]. apply (lay_dom _ _ _ Hlay). exists p. by apply (q_prio _ _ Hq). }
      destruct (En k) as [?|?]; [apply Hin; by right|by left|right]. rewrite Hcc by done. case_decide; set_solver.
    + right. rewrite Hcc by done. rewrite decide_True by done. set_solver.
Qed.

(** The loop ends with the value of the node, or with everything at or above its
    priority evaluated. *)
Lemma evaluate_loop_spec fuel node np ctx :
  einv ctx → prio o node = Some np → rootIdx np ≤ evaluatedRoots ctx →
  (potential o ctx ≤ fuel)%nat →
  ∃ ctx' r, evaluate_loop fuel o g cs node np ctx = Ok (ctx', r) ∧ einv ctx' ∧
    evaluatedRoots ctx' = evaluatedRoots ctx ∧
    match r with
    | Some v => v = ev node
    | None => cached_or_value (ctx_val ctx') g node = Ok (seen ev node)
    end.
Proof.
  intros He Hnp Hr. assert (node ∈ post o) as Hnode by (apply (lay_dom _ _ _ Hlay); by eexists).
  assert (∀ ctx, einv ctx → rootIdx np ≤ evaluatedRoots ctx →
    (∀ y q, in_queue (readyNodes ctx) y → prio o y = Some q → Priority.gt np q = true) →
    cached_or_value (ctx_val ctx) g node = Ok (seen ev node)) as Hend.
  { intros c Hc Hrc Hq. pose proof (above_evaluated c node np Hc Hnp Hrc Hq) as Hiff.
    unfold cached_or_value, seen. destruct (ctx_val c !! node) as [v|] eqn:Ev.
    - destruct (e_cache c Hc node v Ev) as (_ & -> & ->). done.
    - destruct (differs node (ev node)) eqn:E; [by destruct (proj1 Hiff eq_refl)|].
      by apply (in_step_value o g0 data Hlay g m node Hg). }
  revert ctx He Hr. induction fuel as [|fuel IH]; intros ctx He Hr Hf; cbn [evaluate_loop];
    destruct (BucketedPriorityQueue.empty (readyNodes ctx)) eqn:Ee;
    try (exists ctx, None; split; [done|]; split; [done|]; split; [done|]; apply (Hend ctx He Hr);
         intros y q [r Hy] _;
         apply (BucketedPriorityQueue.empty_flatten Priority.gt _ (q_inv _ _ (e_queue ctx He))) in Ee;
         rewrite Ee in Hy; set_solver);
    destruct (BucketedPriorityQueue.pop_inv Priority.gt _ (q_inv _ _ (e_queue ctx He)) Ee)
      as (p & n & q & Et & Ep & Hi & Hfl).
  { exfalso. unfold potential in Hf. rewrite Hfl in Hf. simpl in Hf. lia. }
  assert (prio o n = Some p) as Hn.
  { apply (q_prio _ _ (e_queue ctx He)). rewrite Hfl. set_solver. }
  rewrite Et. cbn [mbind result_bind]. unfold priority. rewrite Hn. cbn [at_ mbind result_bind].
  unfold Priority.lt. destruct (Priority.gt np p) eqn:Egt.
  { exists ctx, None. split; [done|]. split; [done|]. split; [done|]. apply (Hend ctx He Hr).
    intros y r [r' Hy] Hyr. pose proof (q_prio _ _ (e_queue ctx He) r' y Hy) as Hr'. simplify_eq.
    apply (Priority.gt_ge np p r Egt). rewrite Hfl in Hy. apply elem_of_cons in Hy as [[= -> ->]|Hy].
    - by apply (StdSet.st_irrefl (D := λ _, True)).
    - by eapply (BucketedPriorityQueue.flatten_sorted Priority.gt _ (q_inv _ _ (e_queue ctx He))). }
  rewrite Ep. cbn [mbind result_bind].
  assert (rootIdx p ≤ evaluatedRoots ctx) as Hrp.
  { revert Egt. unfold Priority.gt. case_match; bool_to_prop; intros; bool_to_prop; lia. }
  assert (n ∈ post o) as Hpost by (apply (lay_dom _ _ _ Hlay); by eexists).
  destruct (popped_value ctx p n _ He Hfl Hn Hrp) as (x & Hx & Hev).
  unfold deref at 1. rewrite Hx. cbn [mbind result_bind].
  change (evaluator_for (ctx_val (with_ready ctx q)) g (with_ready ctx q) n)
    with (evaluator_for (ctx_val ctx) g ctx n). rewrite Hev. cbn [mbind result_bind].
  assert (expression_value x = D n) as ->.
  { pose proof (in_step_value o g0 data Hlay g m n Hg Hpost) as Hrv. unfold read_value, deref in Hrv.
    rewrite Hx in Hrv. by injection Hrv. }
  assert (queue_ok o q) as Hq'.
  { split; [done|]. intros p' y Hy. apply (q_prio _ _ (e_queue ctx He)). rewrite Hfl. set_solver. }
  assert (∀ y, in_queue (readyNodes ctx) y ↔ y = n ∨ in_queue q y) as Hin.
  { by eapply in_queue_pop. }
  assert (potential o ctx = S (potential o (with_ready ctx q))) as Hpot.
  { unfold potential. rewrite Hfl. done. }
  assert (∃ ctx', (if negb (D n =? ev n)%D then notifyChange o (save_val (with_ready ctx q) n (ev n)) n
      else Ok (with_ready ctx q)) = Ok ctx' ∧ einv ctx' ∧ evaluatedRoots ctx' = evaluatedRoots ctx ∧
      (potential o ctx' ≤ potential o (with_ready ctx q))%nat) as (ctx' & -> & He' & Hr' & Hp').
  { fold (differs n (ev n)). destruct (differs n (ev n)) eqn:Ed.
    - destruct (notifyChange_spec o ch _ Hlay (save_val (with_ready ctx q) n (ev n)) n)
        as (ctx' & -> & S' & Q' & M' & I' & C'); [done|].
      exists ctx'. split; [done|]. split; [by apply (einv_notified ctx n q)|]. split; [apply S'|done].
    - exists (with_ready ctx q). split; [done|]. split; [by apply (einv_same ctx n)|done]. }
  cbn [mbind result_bind]. destruct (Z.eqb_spec n node) as [->|Hne].
  { exists ctx', (Some (ev node)). done. }
  destruct (IH ctx' He' ltac:(lia) ltac:(lia)) as (c2 & r & -> & He2 & Hr2 & Hres).
  exists c2, r. split; [done|]. split; [done|]. split; [congruence|done].
Qed.

(** ** The roots *)

(** The last root whose leaves were pushed has nodes of its own. *)
Definition proper (k : Z) : Prop :=
  ∃ root p, 0 ≤ k ∧ roots o !! Z.to_nat k = Some root ∧ prio o root = Some p ∧ rootIdx p = k.

Lemma computeChangedLeaves_spec ctx :
  einv ctx → -1 ≤ evaluatedRoots ctx → evaluatedRoots ctx + 1 < Z.of_nat (length (roots o)) →
  ∃ ctx', computeChangedLeaves o ctx = Ok ctx' ∧ einv ctx' ∧
    evaluatedRoots ctx' = evaluatedRoots ctx + 1.
Proof.
  intros He Hlo Hhi. unfold computeChangedLeaves. cbn [evaluatedRoots next_root].
  destruct (lay_index _ _ _ Hlay) as (LS & Hix & HLS).
  destruct (computeChangedLeavesByRoot_spec o _ (info_of g0 data) Hlay LS Hix HLS cs Hwf)
    with (ctx := next_root ctx) (i := Z.to_nat (evaluatedRoots ctx + 1)) as (q & E & Hq & Hin).
  { intros n b Hn%(lay_dom _ _ _ Hlay) Hb. destruct (Hg n Hn) as (x & Hx & Hst & Hc).
    destruct (affected_total x m D data (ChangeSet.changes cs) Hc Hobj) as (i & Hi & Hall).
    rewrite (static_info g0 data n x Hst Hinf) in Hi. injection Hi as <-. by apply Hall. }
  { lia. }
  { apply He. }
  { apply He. }
  rewrite Z2Nat.id in E, Hin by lia. rewrite E. eexists. split; [done|]. split; [|done].
  destruct He as [Eq Ec Ea Ech Ep En]. split; simpl; try done.
  - intros n p Hn Hnd. rewrite Hin.
    destruct (decide (rootIdx p = evaluatedRoots ctx + 1 ∧ aff n)) as [[? ?]|Hne]; [left; right; eauto|].
    destruct (Ep n p Hn) as [?|?]; [|tauto|tauto]. destruct Hnd as [[? ?]|?]; [left|by right].
    split; [done|]. destruct (decide (rootIdx p = evaluatedRoots ctx + 1)); [tauto|lia].
  - intros n [Hn|[Hn _]]%Hin; [by apply En|by left].
Qed.

Lemma push_roots_spec fuel node np ctx :
  prio o node = Some np → einv ctx → 0 ≤ evaluatedRoots ctx →
  evaluatedRoots ctx ≤ rootIdx np ∨ proper (evaluatedRoots ctx) →
  rootIdx np - evaluatedRoots ctx ≤ Z.of_nat fuel →
  ∃ ctx', push_roots fuel o np ctx = Ok ctx' ∧ einv ctx' ∧
    rootIdx np ≤ evaluatedRoots ctx' ∧ proper (evaluatedRoots ctx').
Proof.
  intros Hnp. destruct (lay_rootIdx _ _ _ Hlay node np Hnp) as [Hrn _].
  assert (proper (rootIdx np)) as Hpr.
  { destruct (lookup_lt_is_Some_2 (roots o) (Z.to_nat (rootIdx np))) as [root Hroot]; [lia|].
    destruct (lay_root _ _ _ Hlay _ root Hroot) as (p & Hp & _ & Hall).
    destruct (Hall node np Hnp) as [E _]; [lia|]. exists root, p. split_and!; [lia|done|done|lia]. }
  revert ctx. assert (∀ ctx, 0 ≤ evaluatedRoots ctx → evaluatedRoots ctx ≤ rootIdx np ∨ proper (evaluatedRoots ctx) →
    ∃ root p, vec_get (roots o) (evaluatedRoots ctx) = Ok root ∧ prio o root = Some p ∧
      Priority.gt p np = (evaluatedRoots ctx <? rootIdx np)) as Hstop.
  { intros ctx Hlo Hk. destruct (Z.ltb_spec (evaluatedRoots ctx) (rootIdx np)) as [Hlt|Hge].
    - destruct (lookup_lt_is_Some_2 (roots o) (Z.to_nat (evaluatedRoots ctx))) as [root Hroot]; [lia|].
      destruct (lay_root _ _ _ Hlay _ root Hroot) as (p & Hp & Hle & _). exists root, p.
      split; [by apply vec_get_Ok|]. split; [done|]. unfold Priority.gt.
      rewrite (proj2 (Z.eqb_neq _ _)) by lia. apply Z.ltb_lt. lia.
    - assert (proper (evaluatedRoots ctx)) as (root & p & _ & Hroot & Hp & Hr).
      { destruct Hk; [|done]. by replace (evaluatedRoots ctx) with (rootIdx np) by lia. }
      exists root, p. split; [by apply vec_get_Ok|]. split; [done|]. unfold Priority.gt.
      destruct (Z.eqb_spec (rootIdx p) (rootIdx np)) as [E|E]; apply Z.ltb_ge; [|lia].
      destruct (lay_root _ _ _ Hlay _ root Hroot) as (p' & Hp' & _ & Hall).
      destruct (Hall node np Hnp) as [_ ?]; [lia|]. simplify_eq. done. }
  induction fuel as [|fuel IH]; intros ctx He Hlo Hk Hf; cbn [push_roots];
    destruct (Hstop ctx Hlo Hk) as (root & p & -> & Hp & Hgt); cbn [mbind result_bind];
    unfold priority; rewrite Hp; cbn [at_ mbind result_bind]; unfold Priority.lt; rewrite Hgt;
    destruct (Z.ltb_spec (evaluatedRoots ctx) (rootIdx np)) as [Hlt|Hge]; try lia.
  2:{ destruct (computeChangedLeaves_spec ctx He) as (c1 & -> & He1 & Hr1); [lia|lia|].
      cbn [mbind result_bind]. apply (IH c1 He1); rewrite Hr1; [lia|left; lia|lia]. }
  all: exists ctx; split; [done|]; split; [done|]; split; [done|];
    destruct Hk; [|done]; by replace (evaluatedRoots ctx) with (rootIdx np) by lia.
Qed.

(** A context as the evaluations of one candidate leave it. *)
Definition context_ok (ctx : EvaluationContext) : Prop :=
  einv ctx ∧ (evaluatedRoots ctx = -1 ∨ proper (evaluatedRoots ctx)).

Lemma newContext_ok : context_ok (newContext (Some cs)).
Proof.
  split; [|by left]. split; simpl.
  - apply clear_queue.
  - done.
  - intros n v. by rewrite lookup_empty.
  - intros p c _. unfold getChangedChildren. simpl. rewrite !lookup_empty. simpl. split; [set_solver|].
    intros [_ [? [=]]].
  - intros n p Hn [[_ Hr]|Hcc]; [|done]. destruct (lay_rootIdx _ _ _ Hlay n p Hn). lia.
  - intros n [p Hn]. simpl in Hn. set_solver.
Qed.

(** The value is that of [prediction], up to the sign of zero. *)
Lemma graph_evaluate_spec node ctx :
  node ∈ post o → context_ok ctx →
  ∃ ctx' v, evaluate o g node ctx = Ok (ctx', v) ∧ context_ok ctx' ∧
    (v = ev node ∨ v = seen ev node).
Proof.
  intros Hnode [He Hk]. pose proof Hnode as [np Hnp]%(lay_dom _ _ _ Hlay). unfold evaluate, changes_of.
  destruct (lay_rootIdx _ _ _ Hlay node np Hnp) as [Hrn _].
  rewrite (e_changes ctx He). cbn [mbind result_bind].
  assert (∃ c1, (if evaluatedRoots ctx =? -1 then computeChangedLeaves o ctx else Ok ctx) = Ok c1 ∧ einv c1 ∧
    0 ≤ evaluatedRoots c1 ∧ (evaluatedRoots c1 ≤ rootIdx np ∨ proper (evaluatedRoots c1)))
    as (c1 & -> & He1 & Hlo1 & Hk1).
  { destruct (Z.eqb_spec (evaluatedRoots ctx) (-1)) as [E|E].
    - destruct (computeChangedLeaves_spec ctx He) as (c1 & -> & He1 & Hr1); [lia|lia|].
      exists c1. rewrite Hr1. split; [done|]. split; [done|]. split; [lia|]. left. lia.
    - destruct Hk as [?|Hk]; [done|]. exists ctx. split; [done|]. split; [done|].
      split; [by destruct Hk as (? & ? & ? & _)|by right]. }
  cbn [mbind result_bind]. unfold priority. rewrite Hnp. cbn [at_ mbind result_bind].
  destruct (push_roots_spec (length (roots o)) node np c1 Hnp He1 Hlo1 Hk1) as (c2 & -> & He2 & Hr2 & Hp2); [lia|].
  cbn [mbind result_bind].
  destruct (evaluate_loop_spec (loop_bound o c2) node np c2 He2 Hnp Hr2 (potential_bound o c2))
    as (c3 & r & -> & He3 & Hr3 & Hres). cbn [mbind result_bind].
  assert (context_ok c3) as Hok by (split; [done|right; by rewrite Hr3]).
  destruct r as [v|].
  - exists c3, v. split; [done|]. split; [done|]. by left.
  - rewrite Hres. exists c3, (seen ev node). split; [done|]. split; [done|]. by right.
Qed.

(** The two agree as doubles, and are the same where the value is not a negative zero. *)
Lemma seen_eq n : n ∈ post o → canon (ev n) → seen ev n = ev n.
Proof.
  intros Hn Hc. unfold seen, differs. rewrite canon_eq by auto.
  case_bool_decide; simpl; congruence.
Qed.

(** Two results of [evaluate] compare as equal. *)
Lemma seen_close n v w :
  v = ev n ∨ v = seen ev n → w = ev n ∨ w = seen ev n → v = w ∨ (v =? w)%D = true.
Proof.
  assert (seen ev n = ev n ∨ (D n =? ev n)%D = true ∧ seen ev n = D n) as [E|[E ->]].
  { unfold seen, differs. destruct (D n =? ev n)%D; auto. }
  - rewrite E. intros [->| ->] [->| ->]; auto.
  - assert ((ev n =? D n)%D = true) as E' by (by rewrite deq_sym).
    intros [->| ->] [->| ->]; auto.
Qed.

End evaluate.
