(* ===== verification/Expressions.v ===== *)
(** * Expressions

    The nodes of the expression graph, solver/expressions: the state of each class of
    expressions, how it is built, what it computes from the values of its children and
    how changes are applied to it.  [Expressions.t] is [Expression] with the class it is
    an object of. *)

From Stdlib Require Import SpecFloat.
From S2P Require Import Prelude Double Precision Exact ChangeSet Assignment AccessOrderedSet Queues AssociativeMap AssociativeFixedMap Affected Lookup Orchestrator.

Open Scope Z_scope.

(** [std::numeric_limits<double>::max()] *)
Definition dbl_max : double := S754_finite false (2 ^ 53 - 1) 971.

(** [std::ceil] *)
Definition dceil (x : double) : double :=
  match x with
  | S754_finite s m e =>
      if 0 <=? e then x
      else
        let k := - e in
        binary_normalize prec emax (- ((- cond_Zopp s (Z.pos m)) / 2 ^ k)) 0 s
  | _ => x
  end.

(** What the constructor of a parent reads of a child: [getInitialValue()]. *)
Abbreviation InitialValues := (Z → result double).

(** [Expression::snapToZero] *)
Definition snapToZero (tol : PrecisionTolerances) (val : double) : double :=
  if Precision.isZero tol val then d0 else val.

(** ** Variable: whether an object is in a container *)
Module VariableExpr.

Record t := mk { var_object : Z; var_container : Z }.

Definition applyAssignment (x : t) (a : Assignment.t) : result double :=
  c ← Assignment.getContainer a (var_object x); Ok (if c =? var_container x then d1 else d0).

Definition evaluate (x : t) (val0 : double) (changes : ChangeSet.t) : double :=
  foldl (λ val ch,
    if (object ch =? var_object x) && (container ch =? var_container x)
    then (val + dofZ (value ch))%D else val) val0 (ChangeSet.changes changes).

Definition isAffectedByChange (x : t) : result AffectedByChange.t :=
  AffectedByChange.ofPairs (Some {[var_container x]}) (Some {[var_object x]}).

Definition innerLowerAndUpperBounds : double * double := (d0, d1).

End VariableExpr.

(** ** LinearSum *)
Module LinearSum.
Section sum.
Context `{HashOrder} (tol : PrecisionTolerances).

Record t := mk {
  constant : double;
  collection : AssociativeMap.tree double;
  coefficients : gmap Z double;
  allCoeffsOne : bool
}.

Definition getChildCoefficient (x : t) (child : Z) : double :=
  if allCoeffsOne x then d1 else default d0 (coefficients x !! child).

Definition computeValue (x : t) : double :=
  snapToZero tol (constant x + AssociativeMap.query d0 (collection x))%D.

Definition with_collection (x : t) (c : AssociativeMap.tree double) : t :=
  mk (constant x) c (coefficients x) (allCoeffsOne x).

(** [collection.update(child, v * coefficient)] for the children given. *)
Definition update_children (value_of : Z → result double) (x : t) (cs : list Z) : result t :=
  foldM (λ x c,
    v ← value_of c;
    Ok (with_collection x
          (AssociativeMap.update dadd (collection x) c (v * getChildCoefficient x c)%D))) x cs.

(** The children and the sum; the terms with weight zero are left out. *)
Definition make (initial : InitialValues) (constant0 : double) (coef : gmap Z double)
    : result (gset Z * t * double) :=
  let '(children, x) :=
    foldl (λ '(children, x) '(child, weight),
      if (weight =? d0)%D then (children, x)
      else ({[child]} ∪ children,
            mk (constant x) (collection x) (save (coefficients x) child weight)
              (allCoeffsOne x && (weight =? d1)%D)))
      (∅, mk constant0 AssociativeMap.Leaf ∅ true) (hash_iter coef) in
  x ← update_children initial x (set_iter children);
  Ok (children, x, computeValue x).

Definition evaluate (x : t) (value : double) (ev : Evaluator) : result double :=
  sum ← foldM (λ sum c,
      new ← updated ev c;
      old ← current ev c;
      Ok (sum + (new - old) * getChildCoefficient x c)%D) value (set_iter (changed ev));
  Ok (snapToZero tol sum).

Definition innerPartialApply (x : t) (ev : Evaluator) : result (t * double) :=
  x ← update_children (updated ev) x (set_iter (changed ev));
  Ok (x, computeValue x).

Definition innerFullApply (x : t) (children : gset Z) (value_of : Z → result double) : result (t * double) :=
  x ← update_children value_of (with_collection x AssociativeMap.clear) (set_iter children);
  Ok (x, computeValue x).

(** [add]: the coefficient of a child that is there already is kept. *)
Definition add (initial : InitialValues) (children : gset Z) (x : t) (expr : Z) (coef : double)
    : result (gset Z * t * double) :=
  v ← initial expr;
  let x := mk (constant x) (AssociativeMap.update dadd (collection x) expr (v * coef)%D)
             (save (coefficients x) expr coef) (allCoeffsOne x && (coef =? d1)%D) in
  Ok ({[expr]} ∪ children, x, computeValue x).

End sum.
End LinearSum.

(** ** Max *)
Module Max.
Section max.
Context `{HashOrder}.

Abbreviation t := (ValueSortedMap.t Z double).

(** [SortedValuesCompare]: the highest value first. *)
Definition compare (lhs rhs : Z * double) : bool :=
  if (lhs.2 =? rhs.2)%D then lhs.1 <? rhs.1 else (rhs.2 <? lhs.2)%D.

(** [sorted_values_.begin()->second] *)
Definition front (x : t) : result double :=
  match ValueSortedMap.begin x with
  | Some (_, v) => Ok v
  | None => Throw (undefined_behaviour "begin of an empty set")
  end.

Definition assign_children (value_of : Z → result double) (x : t) (cs : list Z) : result t :=
  foldM (λ x c, v ← value_of c; ValueSortedMap.assign compare x c v) x cs.

Definition make (initial : InitialValues) (exprs : list Z) : result (gset Z * t * double) :=
  let children : gset Z := list_to_set exprs in
  if decide (children = ∅) then Throw (runtime_error "Max needs to have at least one child")
  else
    x ← assign_children initial ValueSortedMap.empty (set_iter children);
    v ← front x;
    Ok (children, x, v).

Definition max_of_changed (ev : Evaluator) : result double :=
  foldM (λ new_max c, val ← updated ev c; Ok (if (new_max <? val)%D then val else new_max))
    (- dbl_max)%D (set_iter (changed ev)).

(** The first entry whose child has not changed. *)
Fixpoint first_unchanged (changed : gset Z) (l : list (Z * double)) : option double :=
  match l with
  | [] => None
  | (c, v) :: l => if decide (c ∈ changed) then first_unchanged changed l else Some v
  end.

Definition evaluate (children : gset Z) (x : t) (ev : Evaluator) : result double :=
  new_max ← max_of_changed ev;
  if (size (changed ev) =? size children)%nat then Ok new_max
  else match first_unchanged (changed ev) (ValueSortedMap.set x) with
       | Some val => Ok (if (new_max <? val)%D then val else new_max)
       | None => Ok new_max
       end.

Definition innerPartialApply (x : t) (ev : Evaluator) : result (t * double) :=
  x ← assign_children (updated ev) x (set_iter (changed ev));
  v ← front x;
  Ok (x, v).

Definition innerFullApply (x : t) (children : gset Z) (value_of : Z → result double) : result (t * double) :=
  x ← assign_children value_of (ValueSortedMap.clear x) (set_iter children);
  v ← front x;
  Ok (x, v).

End max.
End Max.

(** ** AnyPositive *)
Module AnyPositive.
Section any.
Context `{HashOrder} (tol : PrecisionTolerances).

(** [violatingChildren_] *)
Abbreviation t := (gset Z).

Definition isViolating (childVal : double) : bool := Precision.isStrictlyGtZero tol childVal.

Definition computeResult (x : t) : double := if decide (x = ∅) then d0 else d1.

Definition make (initial : InitialValues) (exprs : list Z) : result (gset Z * t * double) :=
  '(children, x) ← foldM (λ '(children, x) e,
      v ← initial e;
      Ok ({[e]} ∪ children, if isViolating v then {[e]} ∪ x else x)) (∅, ∅) exprs;
  Ok (children, x, computeResult x).

(** The loop returns 1 at the first child that is positive, otherwise it counts the
    children that were. *)
Fixpoint scan (x : t) (ev : Evaluator) (cs : list Z) (nonViolatingChildren : nat) : result (option nat) :=
  match cs with
  | [] => Ok (Some nonViolatingChildren)
  | c :: cs =>
      v ← updated ev c;
      if Precision.isStrictlyGtZero tol v then Ok None
      else scan x ev cs (nonViolatingChildren + if decide (c ∈ x) then 1 else 0)
  end.

Definition evaluate (x : t) (ev : Evaluator) : result double :=
  r ← scan x ev (set_iter (changed ev)) 0;
  Ok match r with
     | None => d1
     | Some nonViolatingChildren => if (size x =? nonViolatingChildren)%nat then d0 else d1
     end.

Definition innerPartialApply (x : t) (ev : Evaluator) : result (t * double) :=
  x ← foldM (λ x c, v ← updated ev c; Ok (if isViolating v then {[c]} ∪ x else x ∖ {[c]}))
        x (set_iter (changed ev));
  Ok (x, computeResult x).

Definition innerFullApply (children : gset Z) (value_of : Z → result double) : result (t * double) :=
  x ← foldM (λ x c, v ← value_of c; Ok (if isViolating v then {[c]} ∪ x else x)) ∅ (set_iter children);
  Ok (x, computeResult x).

Definition innerLowerAndUpperBounds (children : gset Z) : double * double :=
  (d0, if decide (children = ∅) then d0 else d1).

End any.
End AnyPositive.

(** ** Transform and its subclasses *)
Module Transform.
Section transform.
Context `{HashOrder} (tol : PrecisionTolerances) (pow : double → double → double) (log : double → double).

Inductive t :=
  | Step
  | Square
  | Rectangle (lowerBound upperBound : double)
  | Ceil
  | Power (exponent : double)
  | Log.

Definition perform_transform (x : t) (val : double) : double :=
  match x with
  | Step => if Precision.isStrictlyGtZero tol val then d1 else d0
  | Square => (val * val)%D
  | Rectangle lowerBound upperBound =>
      if (lowerBound <=? val)%D && (val <=? upperBound)%D then d1 else d0
  | Ceil =>
      let closestInteger := dround val in
      if Precision.compare tol val closestInteger =? 0 then closestInteger else dceil val
  | Power exponent => pow val exponent
  | Log => if (val <=? d0)%D then (- dbl_max)%D else log val
  end.

(** [getOnlyChildRawPtr] *)
Definition getOnlyChild (children : gset Z) : result Z :=
  match set_iter children with
  | [c] => Ok c
  | _ => Throw (runtime_error "expression does not have one child")
  end.

Definition make (initial : InitialValues) (x : t) (expr : Z) : result (gset Z * double) :=
  v ← initial expr; Ok ({[expr]}, perform_transform x v).

Definition evaluate (x : t) (children : gset Z) (ev : Evaluator) : result double :=
  c ← getOnlyChild children; v ← updated ev c; Ok (perform_transform x v).

(** [_applyUsingChildValues] *)
Definition applyUsingChildValues (x : t) (children : gset Z) (value_of : Z → result double) : result double :=
  c ← getOnlyChild children; v ← value_of c; Ok (perform_transform x v).

(** [innerLowerAndUpperBounds] of [Transform], from the bounds of the child. *)
Definition innerLowerAndUpperBounds (x : t) (exprLb exprUb : double) : double * double :=
  match x with
  | Rectangle _ _ => (d0, d1)
  | _ =>
      let different_children_signs := (exprLb <? d0)%D && (d0 <? exprUb)%D in
      let fromLb := perform_transform x exprLb in
      let fromUb := perform_transform x exprUb in
      (if different_children_signs
       then dmin (dmin fromUb fromLb) (perform_transform x d0) else dmin fromUb fromLb,
       dmax fromUb fromLb)
  end.

End transform.
End Transform.

(** ** Product and quotient *)
Module BinaryOperation.

Record t := mk { child1st : Z; child2nd : Z }.

Definition product (x : t) (value_of : Z → result double) : result double :=
  v1 ← value_of (child1st x); v2 ← value_of (child2nd x); Ok (v1 * v2)%D.

Definition is_inf (x : double) : bool := match x with S754_infinity _ => true | _ => false end.
Definition is_nan (x : double) : bool := match x with S754_nan => true | _ => false end.

Definition safe_div (numerator denominator : double) : result double :=
  if is_nan numerator || is_nan denominator
  then Throw (runtime_error "safe_div: numerator and denominator should be valid doubles: not nan")
  else if is_inf numerator && is_inf denominator
  then Throw (runtime_error "safe_div: numerator and denominator should be valid doubles: not inf")
  else Ok (if (denominator =? d0)%D then (numerator * dinf)%D else (numerator / denominator)%D).

Definition quotient (x : t) (value_of : Z → result double) : result double :=
  v1 ← value_of (child1st x); v2 ← value_of (child2nd x); safe_div v1 v2.

End BinaryOperation.

(** ** NthLargest *)
Module NthLargest.
Section nth.
Context `{HashOrder}.

(** [valueFrequency_], a [std::map<double, int>]: its entries in increasing order. *)
Record t := mk { n : Z; unique : bool; valueFrequency : list (double * Z) }.

(** [map\[v\] += d] *)
Fixpoint bump (m : list (double * Z)) (v : double) (d : Z) : list (double * Z) :=
  match m with
  | [] => [(v, d)]
  | (w, k) :: m' =>
      if (v <? w)%D then (v, d) :: m
      else if (w <? v)%D then (w, k) :: bump m' v d
      else (w, k + d) :: m'
  end.

(** The iterator of [MapUnion]: the keys of both maps in order, with the values of each. *)
Fixpoint mapUnion (lessThan : double → double → bool) (l1 : list (double * Z))
    : list (double * Z) → list (double * Z * Z) :=
  fix go (l2 : list (double * Z)) : list (double * Z * Z) :=
    match l1, l2 with
    | [], [] => []
    | [], (k2, v2) :: l2' => (k2, 0, v2) :: go l2'
    | (k1, v1) :: l1', [] => (k1, v1, 0) :: mapUnion lessThan l1' []
    | (k1, v1) :: l1', (k2, v2) :: l2' =>
        if lessThan k1 k2 then (k1, v1, 0) :: mapUnion lessThan l1' l2
        else if lessThan k2 k1 then (k2, 0, v2) :: go l2'
        else (k1, v1, v2) :: mapUnion lessThan l1' l2'
    end.

Fixpoint scan (x : t) (l : list (double * Z * Z)) (index : Z) (smallestValue : double) : double :=
  match l with
  | [] => smallestValue
  | (value, baseFrequency, deltaFrequency) :: l =>
      let frequency := baseFrequency + deltaFrequency in
      if frequency =? 0 then scan x l index smallestValue
      else
        let index := index + if unique x then 1 else frequency in
        if n x <? index then value else scan x l index value
  end.

Definition computeNthLargest (x : t) (valueFrequencyDelta : list (double * Z)) : double :=
  scan x (mapUnion (λ a b, (b <? a)%D) (rev (valueFrequency x)) (rev valueFrequencyDelta)) 0 dinf.

Definition count_values (value_of : Z → result double) (cs : list Z) : result (list (double * Z)) :=
  foldM (λ m c, v ← value_of c; Ok (bump m v 1)) [] cs.

(** [_applyUsingChildValues] *)
Definition applyUsingChildValues (x : t) (children : gset Z) (value_of : Z → result double)
    : result (t * double) :=
  f ← count_values value_of (set_iter children);
  let x := mk (n x) (unique x) f in
  Ok (x, computeNthLargest x []).

Definition make (initial : InitialValues) (values : list Z) (n : Z) (unique : bool)
    : result (gset Z * t * double) :=
  let children : gset Z := list_to_set values in
  if decide (children = ∅) then Throw (runtime_error "NthLargest requires at least one value")
  else '(x, v) ← applyUsingChildValues (mk n unique []) children initial; Ok (children, x, v).

Definition evaluate (x : t) (val0 : double) (ev : Evaluator) : result double :=
  delta ← foldM (λ delta c,
      oldValue ← current ev c;
      newValue ← updated ev c;
      Ok (if negb (oldValue =? newValue)%D then bump (bump delta oldValue (-1)) newValue 1 else delta))
      [] (set_iter (changed ev));
  Ok match delta with [] => val0 | _ => computeNthLargest x delta end.

End nth.
End NthLargest.

(** ** Expression *)
Module Expressions.

(** The classes. *)
Inductive Body :=
  | Var (x : VariableExpr.t)
  | Vector (x : ObjectVector.t)
  | Lookup (x : ObjectLookup.t)
  | Sum (x : LinearSum.t)
  | Maximum (x : ValueSortedMap.t Z double)
  | Any (x : gset Z)
  | Unary (x : Transform.t)
  | Product (x : BinaryOperation.t)
  | Quotient (x : BinaryOperation.t)
  | Nth (x : NthLargest.t).

(** The members of the base class; [shouldRefresh] is the flag of
    [descendingChildPotentials_]. *)
Record t := mk {
  children : gset Z;
  value : double;
  initialValue : double;
  properlyInitialized : bool;
  isFixed : bool;
  directlyAffectedContainers : option (gset Z);
  shouldRefresh : bool;
  body : Body
}.

Definition markFixed (x : t) : t :=
  mk (children x) (value x) (initialValue x) (properlyInitialized x) true
    (directlyAffectedContainers x) (shouldRefresh x) (body x).

(** [setInitialValue] at the end of a constructor. *)
Definition construct (children : gset Z) (affected : option (gset Z)) (b : Body) (v : double) : t :=
  mk children v v true false affected true b.

(** What [partialApply] leaves: the new value and state, and the flag. *)
Definition applied (x : t) (b : Body) (v : double) : t :=
  mk (children x) v (initialValue x) (properlyInitialized x) (isFixed x)
    (directlyAffectedContainers x) true b.

Section expressions.
Context `{HashOrder} (tol : PrecisionTolerances) (pow : double → double → double) (log : double → double).

Definition isAffectedByChange (x : t) (data : AffectedByChangeDecisionData)
    : result (option AffectedByChange.t) :=
  match body x with
  | Var v => a ← VariableExpr.isAffectedByChange v; Ok (Some a)
  | Lookup l => a ← ObjectLookup.isAffectedByChange l data; Ok (Some a)
  | _ => Ok None
  end.

Definition evaluate (x : t) (ev : Evaluator) (changes : ChangeSet.t) : result double :=
  match body x with
  | Var v => Ok (VariableExpr.evaluate v (value x) changes)
  | Vector _ => Throw (runtime_error "add evaluate API")
  | Lookup l => ObjectLookup.evaluate tol l (value x) changes
  | Sum s => LinearSum.evaluate tol s (value x) ev
  | Maximum s => Max.evaluate (children x) s ev
  | Any s => AnyPositive.evaluate tol s ev
  | Unary f => Transform.evaluate tol pow log f (children x) ev
  | Product p => BinaryOperation.product p (updated ev)
  | Quotient p => BinaryOperation.quotient p (updated ev)
  | Nth s => NthLargest.evaluate s (value x) ev
  end.

Definition innerPartialApply (x : t) (ev : Evaluator) (a : Assignment.t) (changes : ChangeSet.t)
    : result (Body * double) :=
  match body x with
  | Var v => r ← VariableExpr.applyAssignment v a; Ok (body x, r)
  | Vector _ => Throw (runtime_error "add innerPartialApply API for expression type")
  | Lookup l => '(l, v) ← ObjectLookup.innerPartialApply l changes; Ok (Lookup l, v)
  | Sum s => '(s, v) ← LinearSum.innerPartialApply tol s ev; Ok (Sum s, v)
  | Maximum s => '(s, v) ← Max.innerPartialApply s ev; Ok (Maximum s, v)
  | Any s => '(s, v) ← AnyPositive.innerPartialApply tol s ev; Ok (Any s, v)
  | Unary f => v ← Transform.applyUsingChildValues tol pow log f (children x) (updated ev); Ok (body x, v)
  | Product p => v ← BinaryOperation.product p (updated ev); Ok (body x, v)
  | Quotient p => v ← BinaryOperation.quotient p (updated ev); Ok (body x, v)
  | Nth s => '(s, v) ← NthLargest.applyUsingChildValues s (children x) (updated ev); Ok (Nth s, v)
  end.

Definition partialApply (x : t) (ev : Evaluator) (a : Assignment.t) (changes : ChangeSet.t)
    : result (t * double) :=
  if negb (properlyInitialized x)
  then Throw (runtime_error "expression is not properly initialized")
  else '(b, newValue) ← innerPartialApply x ev a changes; Ok (applied x b newValue, newValue).

(** *** Constructors *)

Definition makeVariable (a : Assignment.t) (obj con : Z) : result t :=
  let x := VariableExpr.mk obj con in
  v ← VariableExpr.applyAssignment x a;
  Ok (construct ∅ (Some {[con]}) (Var x) v).

Definition makeVector (ov : ObjectValues.ObjectValues.t) : result t :=
  v ← ObjectVector.make tol ov; Ok (construct ∅ None (Vector v) d0).

(** [vector] is the expression of an [ObjectVector]. *)
Definition makeLookup (a : Assignment.t) (expr : Z) (vector : ObjectVector.t) (containers : option (gset Z))
    : result t :=
  match containers with
  | None => Throw (runtime_error "Expected 'containerPtr' to be non-null")
  | Some cs =>
      '(l, v) ← ObjectLookup.applyAssignment
                  (ObjectLookup.mk cs vector AssociativeHybridMap.make []) a;
      Ok (construct {[expr]} (Some cs) (Lookup l) v)
  end.

Definition makeLinearSum (initial : InitialValues) (constant : double) (coef : gmap Z double) : result t :=
  '(cs, s, v) ← LinearSum.make tol initial constant coef; Ok (construct cs None (Sum s) v).

Definition makeMax (initial : InitialValues) (exprs : list Z) : result t :=
  '(cs, s, v) ← Max.make initial exprs; Ok (construct cs None (Maximum s) v).

Definition makeAnyPositive (initial : InitialValues) (exprs : list Z) : result t :=
  '(cs, s, v) ← AnyPositive.make tol initial exprs; Ok (construct cs None (Any s) v).

Definition makeTransform (initial : InitialValues) (f : Transform.t) (expr : Z) : result t :=
  '(cs, v) ← Transform.make tol pow log initial f expr; Ok (construct cs None (Unary f) v).

Definition makeProduct (initial : InitialValues) (expr1 expr2 : Z) : result t :=
  let x := BinaryOperation.mk expr1 expr2 in
  v ← BinaryOperation.product x initial; Ok (construct {[expr1; expr2]} None (Product x) v).

Definition makeQuotient (initial : InitialValues) (expr1 expr2 : Z) : result t :=
  let x := BinaryOperation.mk expr1 expr2 in
  v ← BinaryOperation.quotient x initial; Ok (construct {[expr1; expr2]} None (Quotient x) v).

Definition makeNthLargest (initial : InitialValues) (values : list Z) (n : Z) (unique : bool) : result t :=
  '(cs, s, v) ← NthLargest.make initial values n unique; Ok (construct cs None (Nth s) v).

#[export] Instance ops : ExpressionOps := {|
  Expression := t;
  Orchestrator.children := children;
  expression_value := value;
  Orchestrator.isFixed := isFixed;
  Orchestrator.markFixed := markFixed;
  getDirectlyAffectedContainers := directlyAffectedContainers;
  Orchestrator.isAffectedByChange := isAffectedByChange;
  expression_evaluate := evaluate;
  Orchestrator.partialApply := partialApply
|}.

End expressions.
End Expressions.
