(* ===== verification/ExpressionFacts.v ===== *)
(** * What each class of expressions computes

    The value of an expression as a function of the placement and of the values of its
    children, the state that goes with it, and the proof that the operations of
    [Expressions] keep the promises of [ExpressionLaws]. *)

From Stdlib Require Import SpecFloat.
From S2P Require Import Prelude Double Precision Exact ChangeSet Assignment AccessOrderedSet Queues AssociativeMap AssociativeFixedMap ObjectValues Affected Lookup Orchestrator Expressions.

Open Scope Z_scope.

(** ** The tree of a sum, from its skeleton *)
Section fill.
Context {V : Type} (operation : V → V → V).

Fixpoint fill (sk : AssociativeMap.tree ()) (f : Z → V) : AssociativeMap.tree V :=
  match sk with
  | AssociativeMap.Leaf => AssociativeMap.Leaf
  | AssociativeMap.Node k _ _ h l r =>
      let l' := fill l f in
      let r' := fill r f in
      AssociativeMap.Node k (f k) (AssociativeMap.combine operation (f k) l' r') h l' r'
  end.

Lemma skeleton_fill sk f : AssociativeMap.skeleton (fill sk f) = sk.
Proof. induction sk as [|k [] [] h l IHl r IHr]; simpl; [done|]. by rewrite IHl, IHr. Qed.

Lemma fill_keys (t : AssociativeMap.tree V) f :
  AssociativeMap.entries (fill (AssociativeMap.skeleton t) f) = (λ k, (k, f k)) <$> (AssociativeMap.entries t).*1.
Proof. induction t as [|k v res h l IHl r IHr]; simpl; [done|]. by rewrite IHl, IHr, !fmap_app. Qed.

Lemma results_fill sk f : AssociativeMap.results operation (fill sk f).
Proof. induction sk; simpl; auto. Qed.

Lemma fill_ext (t : AssociativeMap.tree V) f f' :
  (∀ k, k ∈ (AssociativeMap.entries t).*1 → f k = f' k) →
  fill (AssociativeMap.skeleton t) f = fill (AssociativeMap.skeleton t) f'.
Proof.
  induction t as [|k v res h l IHl r IHr]; simpl; [done|]. intros Hf.
  rewrite fmap_app, fmap_cons in Hf.
  rewrite IHl, IHr, (Hf k); [done|set_solver|intros; apply Hf; set_solver..].
Qed.

(** A tree is determined by its skeleton and the values of its keys. *)
Lemma fill_unique t f :
  AssociativeMap.inv operation t → (∀ k v, AssociativeMap.to_map t !! k = Some v → v = f k) →
  t = fill (AssociativeMap.skeleton t) f.
Proof.
  intros [_ Hr Hs] Hf. apply (AssociativeMap.skeleton_values operation); [done|apply results_fill|by rewrite skeleton_fill|].
  rewrite fill_keys. rewrite <- list_fmap_compose. unfold AssociativeMap.to_map in Hf.
  pose proof (AssociativeMap.sorted_keys_NoDup _ Hs) as Hn.
  assert (∀ k v, (k, v) ∈ AssociativeMap.entries t → v = f k) as Hall.
  { intros k v Hin. apply Hf. by apply elem_of_list_to_map. }
  clear -Hall. induction (AssociativeMap.entries t) as [|[k v] l IH]; [done|]. simpl.
  f_equal; [apply Hall; set_solver|]. apply IH. intros. apply Hall. set_solver.
Qed.

End fill.

(** ** Monadic loops over sets *)
Lemma foldM_ext_in {A S} (f f' : S → A → result S) s l :
  (∀ s a, a ∈ l → f s a = f' s a) → foldM f s l = foldM f' s l.
Proof.
  revert s. induction l as [|a l IH]; intros s Hf; simpl; [done|]. rewrite Hf by set_solver.
  destruct (f' s a); simpl; [apply IH; set_solver|done].
Qed.

(** ** Max *)
#[global] Instance max_strict_total : StdSet.StrictTotal (λ p : Z * double, canon p.2) Max.compare.
Proof.
  unfold Max.compare. split.
  - intros [o p] [Hp _]. simpl. rewrite deq_val by done. rewrite Z.eqb_refl. apply Z.ltb_irrefl.
  - intros [o1 p1] [o2 p2] [o3 p3] [F1 _] [F2 _] [F3 _]. simpl in *. rewrite !deq_val, !dlt_val by done.
    destruct (Z.eqb_spec (val p1) (val p2)), (Z.eqb_spec (val p2) (val p3)),
      (Z.eqb_spec (val p1) (val p3)); intros; bool_to_prop; first [apply Z.ltb_lt; lia | lia].
  - intros [o1 p1] [o2 p2] C1 C2. simpl in *. destruct C1 as [F1 N1], C2 as [F2 N2].
    rewrite !deq_val, !dlt_val by done. rewrite (Z.eqb_sym (val p2)).
    destruct (Z.eqb_spec (val p1) (val p2)) as [E|]; intros; bool_to_prop; [|lia].
    f_equal; [lia|]. by apply canon_inj.
Qed.

(** The largest of the values [f] takes on a list. *)
Definition largest (f : Z → double) (l : list Z) : double :=
  match l with
  | [] => d0
  | c :: l => foldl (λ acc c, if (acc <? f c)%D then f c else acc) (f c) l
  end.

Lemma largest_spec f l :
  l ≠ [] → (∀ c, c ∈ l → canon (f c)) →
  (∃ c, c ∈ l ∧ largest f l = f c) ∧ ∀ c, c ∈ l → val (f c) ≤ val (largest f l).
Proof.
  destruct l as [|c0 l]; [done|]. intros _ Hc. cbn [largest].
  assert (∀ acc, fin acc →
    let r := foldl (λ acc c, if (acc <? f c)%D then f c else acc) acc l in
    (r = acc ∨ ∃ c, c ∈ l ∧ r = f c) ∧ val acc ≤ val r ∧ ∀ c, c ∈ l → val (f c) ≤ val r) as Hl.
  { assert (∀ c, c ∈ l → fin (f c)) as Hf by (intros c Hin; apply Hc; set_solver). clear Hc.
    induction l as [|c l IH]; intros acc Hacc; simpl; [split_and!; [by left|done|set_solver]|].
    assert (fin (f c)) as Fc by (apply Hf; set_solver).
    destruct (IH ltac:(set_solver) (if (acc <? f c)%D then f c else acc)) as (I1 & I2 & I3).
    { by case_match. }
    rewrite dlt_val in * by done. destruct (Z.ltb_spec (val acc) (val (f c))).
    - split_and!; [destruct I1 as [->|(d & ? & ->)]; right; [exists c|exists d]; set_solver|lia|].
      intros d [->|Hd]%elem_of_cons; [done|auto].
    - split_and!; [destruct I1 as [->|(d & ? & ->)]; [by left|right; exists d; set_solver]|done|].
      intros d [->|Hd]%elem_of_cons; [lia|auto]. }
  destruct (Hl (f c0)) as (I1 & I2 & I3); [apply Hc; set_solver|]. split.
  - destruct I1 as [->|(c & Hin & ->)]; [exists c0|exists c]; set_solver.
  - intros c [->|Hin]%elem_of_cons; auto.
Qed.

Lemma max_front (x : ValueSortedMap.t Z double) (cs : gset Z) (f : Z → double) :
  ValueSortedMap.inv Max.compare (λ p, canon p.2) x → cs ≠ ∅ →
  (∀ c, ValueSortedMap.map x !! c = if decide (c ∈ cs) then Some (f c) else None) →
  (∀ c, c ∈ cs → canon (f c)) → Max.front x = Ok (largest f (elements cs)).
Proof.
  intros Hi Hne Hm Hc. pose proof (ValueSortedMap.begin_spec Max.compare x Hi) as Hb. unfold Max.front.
  destruct (ValueSortedMap.begin x) as [[k v]|].
  2:{ apply set_choose_L in Hne as [c Hin]. specialize (Hm c). by rewrite Hb, lookup_empty, decide_True in Hm. }
  destruct Hb as [Hk Hall]. rewrite Hm in Hk. case_decide as Hin; [|done]. injection Hk as <-. f_equal.
  destruct (largest_spec f (elements cs)) as [(c & Hc1 & Hc2) Hmax].
  - intros E. apply Hne. by apply elements_empty_inv in E; apply leibniz_equiv.
  - intros c. rewrite elem_of_elements. auto.
  - rewrite elem_of_elements in Hc1. apply canon_inj; [auto|rewrite Hc2; auto|].
    assert (val (f k) ≤ val (largest f (elements cs))) by (apply Hmax; by rewrite elem_of_elements).
    assert (val (largest f (elements cs)) ≤ val (f k)); [|lia]. rewrite Hc2.
    destruct (Hall c (f c)) as [[= -> _]|Hlt]; [by rewrite Hm, decide_True|done|].
    destruct (Hc k Hin) as [Fk _], (Hc c Hc1) as [Fc _]. revert Hlt. unfold Max.compare. simpl.
    rewrite deq_val, dlt_val by done. destruct (Z.eqb_spec (val (f k)) (val (f c))); intros; bool_to_prop; lia.
Qed.

Lemma assign_children_spec value_of (x : ValueSortedMap.t Z double) (cs : list Z) (f : Z → double) :
  ValueSortedMap.inv Max.compare (λ p, canon p.2) x →
  (∀ c, c ∈ cs → value_of c = Ok (f c) ∧ canon (f c)) →
  ∃ x', Max.assign_children value_of x cs = Ok x' ∧ ValueSortedMap.inv Max.compare (λ p, canon p.2) x' ∧
    ∀ c, ValueSortedMap.map x' !! c = if decide (c ∈ cs) then Some (f c) else ValueSortedMap.map x !! c.
Proof.
  unfold Max.assign_children. revert x. induction cs as [|c cs IH]; intros x Hi Hcs.
  { exists x. split; [done|]. split; [done|]. intros c. by rewrite decide_False by set_solver. }
  destruct (Hcs c) as [Hv Hc]; [set_solver|]. cbn [foldM]. rewrite Hv. cbn [mbind result_bind].
  destruct (ValueSortedMap.assign_inv Max.compare (D := λ p, canon p.2) x c (f c) Hc Hi) as (x1 & -> & H1 & E1).
  cbn [mbind result_bind]. destruct (IH x1 H1) as (x2 & -> & H2 & E2); [intros; apply Hcs; set_solver|].
  exists x2. split; [done|]. split; [done|]. intros d. rewrite E2, E1, lookup_insert.
  destruct (decide (d ∈ cs)), (decide (c = d)), (decide (d ∈ c :: cs)); subst; first [done | exfalso; set_solver].
Qed.

(** ** LinearSum *)
Section linear_sum.
Context `{HashOrder} (tol : PrecisionTolerances).

(** Updating children; the tree keeps its shape when they are all there. *)
Lemma update_children_spec value_of (x : LinearSum.t) (cs : list Z) (f : Z → double) :
  AssociativeMap.inv dadd (LinearSum.collection x) →
  (∀ c, c ∈ cs → value_of c = Ok (f c)) →
  ∃ col, LinearSum.update_children value_of x cs = Ok (LinearSum.with_collection x col) ∧
    AssociativeMap.inv dadd col ∧
    (∀ c, AssociativeMap.to_map col !! c =
       if decide (c ∈ cs) then Some (f c * LinearSum.getChildCoefficient x c)%D
       else AssociativeMap.to_map (LinearSum.collection x) !! c) ∧
    ((∀ c, c ∈ cs → is_Some (AssociativeMap.to_map (LinearSum.collection x) !! c)) →
     AssociativeMap.skeleton col = AssociativeMap.skeleton (LinearSum.collection x)).
Proof.
  unfold LinearSum.update_children. revert x. induction cs as [|c cs IH]; intros x Hi Hcs.
  { exists (LinearSum.collection x). split; [by destruct x|]. split; [done|]. split; [|done].
    intros c. by rewrite decide_False by set_solver. }
  cbn [foldM]. rewrite Hcs by set_solver. cbn [mbind result_bind].
  set (col1 := AssociativeMap.update dadd (LinearSum.collection x) c (f c * LinearSum.getChildCoefficient x c)%D).
  destruct (IH (LinearSum.with_collection x col1)) as (col & E & I2 & I3 & I4);
    [by apply AssociativeMap.update_inv|intros; apply Hcs; set_solver|].
  exists col. split; [exact E|]. split; [done|].
  assert (AssociativeMap.to_map col1 = <[c := (f c * LinearSum.getChildCoefficient x c)%D]>
            (AssociativeMap.to_map (LinearSum.collection x))) as E1 by (by apply AssociativeMap.update_to_map).
  cbn [LinearSum.collection LinearSum.with_collection] in I3, I4. split.
  - intros d. rewrite I3, E1, lookup_insert.
    destruct (decide (d ∈ cs)), (decide (c = d)), (decide (d ∈ c :: cs)); subst;
      first [done | exfalso; set_solver].
  - intros Hin. rewrite I4.
    + apply AssociativeMap.update_existing; [apply Hi|]. apply Hin. set_solver.
    + intros d Hd. rewrite E1. apply lookup_insert_is_Some'. right. apply Hin. set_solver.
Qed.

(** The value of a sum with the tree [sk] of its children. *)
Definition sum_value (x : LinearSum.t) (sk : AssociativeMap.tree ()) (D : Z → double) : double :=
  snapToZero tol (LinearSum.constant x +
    AssociativeMap.query d0 (fill dadd sk (λ c, D c * LinearSum.getChildCoefficient x c)%D))%D.

(** The collection holds the terms for the values [D] of the children. *)
Record sum_holds (x : LinearSum.t) (children : gset Z) (D : Z → double) : Prop := {
  sh_inv : AssociativeMap.inv dadd (LinearSum.collection x);
  sh_terms c : AssociativeMap.to_map (LinearSum.collection x) !! c =
    if decide (c ∈ children) then Some (D c * LinearSum.getChildCoefficient x c)%D else None
}.

Lemma sum_computeValue x cs D :
  sum_holds x cs D →
  LinearSum.computeValue tol x = sum_value x (AssociativeMap.skeleton (LinearSum.collection x)) D.
Proof.
  intros [Hi Ht]. unfold LinearSum.computeValue, sum_value. do 3 f_equal.
  apply fill_unique; [done|]. intros k v Hk. rewrite Ht in Hk. case_decide; naive_solver.
Qed.

Lemma sum_keys x cs D : sum_holds x cs D →
  ∀ k, k ∈ (AssociativeMap.entries (LinearSum.collection x)).*1 → k ∈ cs.
Proof.
  intros [[_ _ Hs] Ht] k (p & -> & Hp)%list_elem_of_fmap. destruct p as [k v].
  apply (elem_of_list_to_map (M := gmap Z)) in Hp; [|by apply AssociativeMap.sorted_keys_NoDup].
  unfold AssociativeMap.to_map in Ht. simpl. specialize (Ht k). rewrite Hp in Ht. by case_decide.
Qed.

Lemma sum_apply x cs D D' ev :
  sum_holds x cs D ∨ sum_holds x cs D' →
  (∀ c, c ∈ cs → updated ev c = Ok (D' c)) → (∀ c, c ∈ changed ev ↔ c ∈ cs ∧ D c ≠ D' c) →
  ∃ x', LinearSum.innerPartialApply tol x ev =
      Ok (x', sum_value x (AssociativeMap.skeleton (LinearSum.collection x)) D') ∧
    sum_holds x' cs D' ∧ LinearSum.constant x' = LinearSum.constant x ∧
    LinearSum.coefficients x' = LinearSum.coefficients x ∧ LinearSum.allCoeffsOne x' = LinearSum.allCoeffsOne x ∧
    AssociativeMap.skeleton (LinearSum.collection x') = AssociativeMap.skeleton (LinearSum.collection x).
Proof.
  intros Hx Hu Hc. assert (AssociativeMap.inv dadd (LinearSum.collection x)) as Hi by (by destruct Hx as [[? _]|[? _]]).
  assert (∀ c, c ∈ set_iter (changed ev) ↔ c ∈ cs ∧ D c ≠ D' c) as Hit.
  { intros c. by rewrite set_iter_perm, elem_of_elements, Hc. }
  destruct (update_children_spec (updated ev) x (set_iter (changed ev)) D' Hi) as (col & E & I2 & I3 & I4).
  { intros c [? _]%Hit. auto. }
  assert (sum_holds (LinearSum.with_collection x col) cs D') as Hnew.
  { split; [done|]. intros c. cbn [LinearSum.collection LinearSum.with_collection]. rewrite I3.
    change (LinearSum.getChildCoefficient (LinearSum.with_collection x col) c)
      with (LinearSum.getChildCoefficient x c). destruct (decide (c ∈ set_iter (changed ev))) as [Hin|Hin].
    + apply Hit in Hin as [Hin _]. by rewrite decide_True.
    + destruct Hx as [[_ Ht]|[_ Ht]]; rewrite Ht; case_decide; try done. do 2 f_equal.
      apply dec_stable. intros Hne. apply Hin, Hit. done. }
  assert (AssociativeMap.skeleton col = AssociativeMap.skeleton (LinearSum.collection x)) as Hsk.
  { apply I4. intros c [Hin _]%Hit. destruct Hx as [[_ Ht]|[_ Ht]]; rewrite Ht, decide_True by done; by eexists. }
  unfold LinearSum.innerPartialApply. rewrite E. cbn [mbind result_bind]. eexists. split; [|done].
  rewrite (sum_computeValue _ cs D' Hnew). cbn [LinearSum.collection LinearSum.with_collection]. by rewrite Hsk.
Qed.

Lemma sum_evaluate_total x val0 ev :
  (∀ c, c ∈ changed ev → (∃ v, current ev c = Ok v) ∧ ∃ v, updated ev c = Ok v) →
  ∃ v, LinearSum.evaluate tol x val0 ev = Ok v.
Proof.
  intros Hev. unfold LinearSum.evaluate.
  destruct (foldM_total (λ _ : double, True) (λ sum c, new ← updated ev c; old ← current ev c;
      Ok (sum + (new - old) * LinearSum.getChildCoefficient x c)%D) val0 (set_iter (changed ev)))
    as (v & -> & _); [done| |by eexists].
  intros s c Hc _. rewrite set_iter_perm, elem_of_elements in Hc. destruct (Hev c Hc) as [[v1 E1] [v2 E2]].
  rewrite E2. cbn [mbind result_bind]. rewrite E1. by eexists.
Qed.

End linear_sum.

(** ** AnyPositive *)
Section any_positive.
Context `{HashOrder} (tol : PrecisionTolerances).

Definition violating (children : gset Z) (D : Z → double) : gset Z :=
  filter (λ c, AnyPositive.isViolating tol (D c) = true) children.

Lemma any_loop value_of (D : Z → double) x cs :
  (∀ c, c ∈ cs → value_of c = Ok (D c)) →
  ∃ x', foldM (λ x c, v ← value_of c;
      Ok (if AnyPositive.isViolating tol v then {[c]} ∪ x else x ∖ {[c]})) x cs = Ok x' ∧
    ∀ c, c ∈ x' ↔ if decide (c ∈ cs) then AnyPositive.isViolating tol (D c) = true else c ∈ (x : gset Z).
Proof.
  revert x. induction cs as [|c cs IH]; intros x Hv; cbn [foldM].
  { exists x. split; [done|]. intros c. by rewrite decide_False by set_solver. }
  rewrite Hv by set_solver. cbn [mbind result_bind].
  destruct (IH (if AnyPositive.isViolating tol (D c) then {[c]} ∪ x else x ∖ {[c]})) as (x' & -> & Hx');
    [intros; apply Hv; set_solver|].
  exists x'. split; [done|]. intros d. rewrite Hx'.
  destruct (decide (d ∈ cs)), (decide (d ∈ c :: cs)); try done; [exfalso; set_solver|..].
  - assert (d = c) as -> by set_solver. destruct (AnyPositive.isViolating tol (D c)); set_solver.
  - destruct (AnyPositive.isViolating tol (D c)); set_solver.
Qed.

Lemma any_apply x cs D D' ev :
  x = violating cs D ∨ x = violating cs D' →
  (∀ c, c ∈ cs → updated ev c = Ok (D' c)) → (∀ c, c ∈ changed ev ↔ c ∈ cs ∧ D c ≠ D' c) →
  AnyPositive.innerPartialApply tol x ev =
    Ok (violating cs D', AnyPositive.computeResult (violating cs D')).
Proof.
  intros Hx Hu Hc. unfold AnyPositive.innerPartialApply.
  destruct (any_loop (updated ev) D' x (set_iter (changed ev))) as (x' & -> & Hx').
  { intros c. rewrite set_iter_perm, elem_of_elements, Hc. intros [? _]. auto. }
  cbn [mbind result_bind]. assert (x' = violating cs D') as ->; [|done].
  apply set_eq. intros c. rewrite Hx'. unfold violating in *. rewrite elem_of_filter.
  destruct (decide (c ∈ set_iter (changed ev))) as [Hin|Hin]; rewrite set_iter_elem in Hin.
  - apply Hc in Hin as [? _]. tauto.
  - destruct Hx as [->| ->]; rewrite elem_of_filter; [|done].
    assert (c ∈ cs → D c = D' c) as He by (intros; apply dec_stable; intros ?; apply Hin, Hc; done).
    split; intros [? Hcs]; (split; [|done]); [by rewrite <- He|by rewrite He].
Qed.

Lemma any_evaluate_total x ev :
  (∀ c, c ∈ changed ev → ∃ v, updated ev c = Ok v) → ∃ v, AnyPositive.evaluate tol x ev = Ok v.
Proof.
  intros Hev. unfold AnyPositive.evaluate.
  assert (∀ cs k, (∀ c, c ∈ cs → ∃ v, updated ev c = Ok v) → ∃ r, AnyPositive.scan tol x ev cs k = Ok r) as Hs.
  { induction cs as [|c cs IH]; intros k Hcs; simpl; [by eexists|].
    destruct (Hcs c) as [v ->]; [set_solver|]. cbn [mbind result_bind]. case_match; [by eexists|].
    apply IH. intros; apply Hcs; set_solver. }
  destruct (Hs (set_iter (changed ev)) 0%nat) as [r ->]; [|by eexists].
  intros c. rewrite set_iter_perm, elem_of_elements. apply Hev.
Qed.

End any_positive.

(** ** The other loops do not throw *)
Section totality.
Context `{HashOrder}.

Lemma max_evaluate_total cs x ev :
  (∀ c, c ∈ changed ev → ∃ v, updated ev c = Ok v) → ∃ v, Max.evaluate cs x ev = Ok v.
Proof.
  intros Hev. unfold Max.evaluate, Max.max_of_changed.
  destruct (foldM_total (λ _ : double, True)
    (λ new_max c, val ← updated ev c; Ok (if (new_max <? val)%D then val else new_max))
    (- dbl_max)%D (set_iter (changed ev))) as (v & -> & _); [done|..].
  - intros s c Hc _. rewrite set_iter_perm, elem_of_elements in Hc. destruct (Hev c Hc) as [v ->]. by eexists.
  - cbn [mbind result_bind]. repeat case_match; by eexists.
Qed.

Lemma nth_evaluate_total x val0 ev :
  (∀ c, c ∈ changed ev → (∃ v, current ev c = Ok v) ∧ ∃ v, updated ev c = Ok v) →
  ∃ v, NthLargest.evaluate x val0 ev = Ok v.
Proof.
  intros Hev. unfold NthLargest.evaluate.
  match goal with |- context [foldM ?f _ _] => set (step := f) end.
  destruct (foldM_total (λ _, True) step [] (set_iter (changed ev))) as (v & -> & _); [done|..].
  - intros s c Hc _. rewrite set_iter_perm, elem_of_elements in Hc. destruct (Hev c Hc) as [[v1 E1] [v2 E2]].
    unfold step. rewrite E1. cbn [mbind result_bind]. rewrite E2. by eexists.
  - cbn [mbind result_bind]. by eexists.
Qed.

(** The frequencies of the values of the children. *)
Definition frequencies (children : gset Z) (D : Z → double) : list (double * Z) :=
  foldl (λ m c, NthLargest.bump m (D c) 1) [] (set_iter children).

Lemma count_values_spec value_of children D :
  (∀ c, c ∈ children → value_of c = Ok (D c)) →
  NthLargest.count_values value_of (set_iter children) = Ok (frequencies children D).
Proof.
  intros Hv. unfold NthLargest.count_values, frequencies. generalize ([] : list (double * Z)).
  assert (∀ c, c ∈ set_iter children → value_of c = Ok (D c)) as Hv'.
  { intros c. rewrite set_iter_perm, elem_of_elements. apply Hv. }
  clear Hv. induction (set_iter children) as [|c l IH]; intros m; simpl; [done|].
  rewrite Hv' by set_solver. cbn [mbind result_bind]. apply IH. intros; apply Hv'; set_solver.
Qed.

Lemma frequencies_ext children D D' :
  (∀ c, c ∈ children → D c = D' c) → frequencies children D = frequencies children D'.
Proof.
  intros HD. unfold frequencies. generalize ([] : list (double * Z)).
  assert (∀ c, c ∈ set_iter children → D c = D' c) as HD'.
  { intros c. rewrite set_iter_perm, elem_of_elements. apply HD. }
  clear HD. induction (set_iter children) as [|c l IH]; intros m; simpl; [done|].
  rewrite HD' by set_solver. apply IH. intros; apply HD'; set_solver.
Qed.

Lemma only_child (cs : gset Z) c : Transform.getOnlyChild cs = Ok c ↔ cs = {[c]}.
Proof.
  unfold Transform.getOnlyChild. split.
  - intros E. apply set_eq. intros d. rewrite <- elem_of_elements, <- set_iter_perm.
    destruct (set_iter cs) as [|d0' [|]]; try done. injection E as ->. set_solver.
  - intros ->. assert (set_iter {[c]} ≡ₚ [c]) as Hp by (by rewrite set_iter_perm, elements_singleton).
    by rewrite (proj1 (Permutation_singleton_r _ _) Hp).
Qed.

End totality.
