(* ===== verification/ExpressionValues.v ===== *)
(** * The promises the expressions keep

    The value of every class of expressions as a function of the placement and of the
    values of its children, the state that goes with it, and the instance of
    [ExpressionLaws]: what the orchestrator relies on holds of the expressions. *)

From Stdlib Require Import SpecFloat.
From S2P Require Import Prelude Double Precision Exact ChangeSet Assignment AccessOrderedSet Queues AssociativeMap AssociativeFixedMap ObjectValues Affected Lookup Orchestrator Expressions ExpressionFacts.

Open Scope Z_scope.

Module ExpressionValues.
Import Expressions.

(** ** What changes cannot change *)

Definition erase_body (b : Body) : Body :=
  match b with
  | Lookup l => Lookup (ObjectLookup.mk (ObjectLookup.containers l) (ObjectLookup.object_vector l)
                          AssociativeHybridMap.make [])
  | Sum s => Sum (LinearSum.with_collection s
                    (fill dadd (AssociativeMap.skeleton (LinearSum.collection s)) (λ _, d0)))
  | Maximum _ => Maximum ValueSortedMap.empty
  | Any _ => Any ∅
  | Nth s => Nth (NthLargest.mk (NthLargest.n s) (NthLargest.unique s) [])
  | _ => b
  end.

Definition erase (x : t) : t :=
  mk (children x) d0 d0 true false (directlyAffectedContainers x) true (erase_body (body x)).

Definition alike (x y : t) : Prop := erase x = erase y.

#[global] Instance alike_equiv : Equivalence alike.
Proof. unfold alike. split; [done|by intros ? ? ->|by intros ? ? ? -> ->]. Qed.

Lemma alike_applied x b v : erase_body b = erase_body (body x) → alike x (applied x b v).
Proof. unfold alike, erase, applied. simpl. by intros ->. Qed.

Lemma alike_var x y v : alike x y → body x = Var v → body y = Var v.
Proof. intros E Hx. apply (f_equal body) in E. simpl in E. rewrite Hx in E. by destruct (body y). Qed.

Section values.
Context `{HashOrder} (tol : PrecisionTolerances) (pow : double → double → double) (log : double → double).

Abbreviation transform := (Transform.perform_transform tol pow log).

Lemma affected_erase x data : isAffectedByChange (erase x) data = isAffectedByChange x data.
Proof. by destruct x as [? ? ? ? ? ? ? []]. Qed.

(** ** The value *)

(** The value of an object for a lookup. *)
Definition value_in (l : ObjectLookup.t) (o : Z) : double :=
  match ObjectLookup.getObjectValue l o with Ok v => v | Throw _ => d0 end.

Definition restrict (cs : gset Z) (D : Z → double) (c : Z) : double := if decide (c ∈ cs) then D c else d0.

Definition meaning (x : t) (m : gmap Z Z) (D : Z → double) : double :=
  match body x with
  | Var v => if decide (m !! VariableExpr.var_object v = Some (VariableExpr.var_container v)) then d1 else d0
  | Vector _ | Quotient _ => d0
  | Lookup l => ObjectLookup.lookup_value (ObjectLookup.containers l) (value_in l) m
  | Sum s => sum_value tol s (AssociativeMap.skeleton (LinearSum.collection s)) (restrict (children x) D)
  | Maximum _ => largest D (elements (children x))
  | Any _ => AnyPositive.computeResult (violating tol (children x) D)
  | Unary f => match Transform.getOnlyChild (children x) with Ok c => transform f (D c) | Throw _ => d0 end
  | Product p =>
      if decide ({[BinaryOperation.child1st p; BinaryOperation.child2nd p]} = children x)
      then (D (BinaryOperation.child1st p) * D (BinaryOperation.child2nd p))%D else d0
  | Nth s =>
      NthLargest.computeNthLargest
        (NthLargest.mk (NthLargest.n s) (NthLargest.unique s) (frequencies (children x) D)) []
  end.

(** The state of an expression is that of a placement and of the values of its
    children.  A quotient has no such state, as it may throw: see
    [quotient_partialApply]. *)
Definition state_ok (x : t) (m : gmap Z Z) (D : Z → double) : Prop :=
  match body x with
  | Var v => children x = ∅ ∧ VariableExpr.var_object v ∈ dom m
  | Vector _ => children x = ∅
  | Lookup l => ∃ f, ObjectLookup.fits l f (dom m) ∧
      ObjectLookup.holds l (ObjectLookup.contribution (ObjectLookup.containers l) f m)
  | Sum s => sum_holds s (children x) D
  | Maximum s => children x ≠ ∅ ∧ ValueSortedMap.inv Max.compare (λ p, canon p.2) s ∧
      ∀ c, ValueSortedMap.map s !! c = if decide (c ∈ children x) then Some (D c) else None
  | Any s => s = violating tol (children x) D
  | Unary _ => ∃ c, children x = {[c]}
  | Product p => children x = {[BinaryOperation.child1st p; BinaryOperation.child2nd p]}
  | Quotient _ => False
  | Nth s => NthLargest.valueFrequency s = frequencies (children x) D
  end.

Record in_state (x : t) (m : gmap Z Z) (D : Z → double) : Prop := {
  is_initialized : properlyInitialized x = true;
  is_value : value x = meaning x m D;
  is_state : state_ok x m D
}.

Lemma meaning_erase x m D : meaning (erase x) m D = meaning x m D.
Proof.
  destruct x as [? ? ? ? ? ? ? []]; try done. unfold meaning, erase, sum_value. simpl.
  by rewrite skeleton_fill.
Qed.

Lemma contribution_ext C f f' m :
  (∀ o, o ∈ dom m → f o = f' o) → ObjectLookup.contribution C f m = ObjectLookup.contribution C f' m.
Proof.
  intros Hf. apply map_eq. intros o. rewrite !ObjectLookup.contribution_lookup. unfold on.
  destruct (m !! o) eqn:E; [|done]. rewrite Hf; [done|]. apply elem_of_dom. by eexists.
Qed.

(** The function a lookup fits is that of its vector. *)
Lemma fits_value_in l f m :
  ObjectLookup.fits l f (dom m) →
  ObjectLookup.lookup_value (ObjectLookup.containers l) f m =
  ObjectLookup.lookup_value (ObjectLookup.containers l) (value_in l) m.
Proof.
  intros [Hv _ _]. unfold ObjectLookup.lookup_value. erewrite contribution_ext; [done|].
  intros o Ho. unfold value_in. by rewrite Hv.
Qed.

(** The sum over the objects that are in the containers, those with value zero included. *)
Lemma total_filter (f : Z → double) (P Q : Z → Prop) `{∀ o, Decision (P o)} `{∀ o, Decision (Q o)} os :
  (∀ o, Q o → P o) → (∀ o, o ∈ os → P o → ¬ Q o → val (f o) = 0) →
  total (f <$> filter P os) = total (f <$> filter Q os).
Proof.
  intros HQ. induction os as [|o os IH]; intros Hz; [done|]. rewrite !filter_cons.
  assert (total (f <$> filter P os) = total (f <$> filter Q os)) as E by (apply IH; intros; apply Hz; set_solver).
  destruct (decide (P o)) as [HP|HP], (decide (Q o)) as [HQo|HQo]; rewrite ?fmap_cons; simpl.
  - by rewrite E.
  - rewrite E, (Hz o) by (done || set_solver). lia.
  - by destruct HP; apply HQ.
  - done.
Qed.

Lemma lookup_exact l f m :
  ObjectLookup.fits l f (dom m) →
  canon (ObjectLookup.lookup_value (ObjectLookup.containers l) (value_in l) m) ∧
  val (ObjectLookup.lookup_value (ObjectLookup.containers l) (value_in l) m) =
    total (value_in l <$> filter (λ o, on m o (ObjectLookup.containers l) = true) (elements (dom m))).
Proof.
  intros Hf. assert (∀ o, o ∈ dom m → value_in l o = f o) as Hvf.
  { intros o Ho. unfold value_in. by rewrite (ObjectLookup.fits_value _ _ _ Hf). }
  rewrite <- (fits_value_in l f m Hf). unfold ObjectLookup.lookup_value. set (C := ObjectLookup.containers l).
  destruct (ObjectLookup.fits_exact _ _ _ Hf) as (u & Hu & Hg & Hm).
  destruct (ObjectLookup.contribution_values C f m) as [rest Hp].
  rewrite <- Hp in Hg. rewrite <- (magnitude_perm _ _ Hp), magnitude_app in Hm.
  apply Forall_app in Hg as [Hg _]. pose proof (magnitude_nonneg rest).
  assert (exact_list u (map_to_list (ObjectLookup.contribution C f m)).*2) as Hl by (split; [done|lia]).
  destruct (sum_of_exact u _ _ Hu Hl (ObjectLookup.foldr_sum _)) as [[Hc _] ->].
  split; [done|]. clear Hp Hg Hm Hl. set (P := λ o, on m o C = true). set (Q := λ o, P o ∧ (f o =? d0)%D = false).
  rewrite (total_perm _ _ (ObjectLookup.values_of_dom f _ (ObjectLookup.contribution_from C f m))).
  transitivity (total (f <$> filter P (elements (dom m)))).
  2:{ f_equal. apply list_fmap_ext. intros i o Ho. symmetry. apply Hvf. apply list_elem_of_lookup_2 in Ho.
      by apply list_elem_of_filter in Ho as [_ ?%elem_of_elements]. }
  rewrite (total_filter f P Q).
  - apply total_perm, fmap_Permutation, NoDup_Permutation; [apply NoDup_elements|apply NoDup_filter, NoDup_elements|].
    intros o. rewrite elem_of_elements, elem_of_dom, ObjectLookup.contribution_lookup, list_elem_of_filter, elem_of_elements.
    unfold Q, P, on. rewrite elem_of_dom. 
    destruct (m !! o) as [c|]; [destruct (bool_decide (c ∈ C)), (f o =? d0)%D|]; simpl; split;
      try (by intros [? [=]]); try (by intros [[[=] ?] ?]); try (by intros [[? [=]] ?]); eauto.
  - by intros o [? _].
  - intros o Ho%elem_of_elements HP HQ. destruct (f o =? d0)%D eqn:E; [|by destruct HQ].
    destruct (ObjectLookup.exact_canon f _ o (ObjectLookup.fits_exact _ _ _ Hf) Ho) as [Hfin _].
    rewrite deq_val in E by done. by apply Z.eqb_eq in E.
Qed.

Lemma sum_value_restrict x cs D D0 :
  sum_holds x cs D0 →
  sum_value tol x (AssociativeMap.skeleton (LinearSum.collection x)) (restrict cs D) =
  sum_value tol x (AssociativeMap.skeleton (LinearSum.collection x)) D.
Proof.
  intros Hs. unfold sum_value. do 3 f_equal. apply fill_ext. intros k Hk. unfold restrict.
  rewrite decide_True; [done|]. by apply (sum_keys x cs D0).
Qed.

Lemma largest_ext D D' l : (∀ c, c ∈ l → D c = D' c) → largest D l = largest D' l.
Proof.
  destruct l as [|c0 l]; [done|]. intros HD. simpl. rewrite (HD c0) by set_solver. generalize (D' c0).
  assert (∀ c, c ∈ l → D c = D' c) as HD' by (intros; apply HD; set_solver). clear HD.
  induction l as [|c l IH]; intros acc; simpl; [done|]. rewrite HD' by set_solver.
  apply IH. intros; apply HD'; set_solver.
Qed.

Lemma violating_ext cs D D' : (∀ c, c ∈ cs → D c = D' c) → violating tol cs D = violating tol cs D'.
Proof.
  intros HD. apply set_eq. intros c. unfold violating. rewrite !elem_of_filter.
  split; intros [? Hc]; (split; [|done]); [by rewrite <- HD|by rewrite HD].
Qed.

Lemma fill_ext' {V} (op : V → V → V) sk f f' : (∀ k, f k = f' k) → fill op sk f = fill op sk f'.
Proof. intros Hf. induction sk as [|k [] [] h l IHl r IHr]; simpl; [done|]. by rewrite IHl, IHr, Hf. Qed.

Lemma meaning_children x m D D' : (∀ c, c ∈ children x → D c = D' c) → meaning x m D = meaning x m D'.
Proof.
  intros HD. unfold meaning. destruct (body x); try done.
  - unfold sum_value. do 3 f_equal. apply fill_ext'. intros c. unfold restrict. case_decide; [by rewrite HD|done].
  - apply largest_ext. intros c. rewrite elem_of_elements. apply HD.
  - by rewrite (violating_ext _ D D').
  - destruct (Transform.getOnlyChild (children x)) as [c|] eqn:E; [|done].
    apply only_child in E. rewrite HD; [done|]. rewrite E. set_solver.
  - case_decide as E; [|done]. rewrite !HD by (rewrite <- E; set_solver). done.
  - by rewrite (frequencies_ext _ D D').
Qed.

Lemma state_children x m D D' : (∀ c, c ∈ children x → D c = D' c) → state_ok x m D → state_ok x m D'.
Proof.
  intros HD. unfold state_ok. destruct (body x); try done.
  - intros [Hi Ht]. split; [done|]. intros c. rewrite Ht. case_decide; [by rewrite HD|done].
  - intros (? & ? & Ht). split; [done|]. split; [done|]. intros c. rewrite Ht. case_decide; [by rewrite HD|done].
  - by rewrite (violating_ext _ D D').
  - by rewrite (frequencies_ext _ D D').
Qed.

Lemma in_state_children x m D D' : (∀ c, c ∈ children x → D c = D' c) → in_state x m D → in_state x m D'.
Proof.
  intros HD [Hp Hv Hs]. split; [done| |by apply (state_children _ _ D)].
  by rewrite Hv, (meaning_children _ _ D D').
Qed.

(** The constant parts: a lookup knows the objects. *)
Lemma affected_in_state x m D data cs :
  in_state x m D → (∀ c, c ∈ cs → object c ∈ dom m) →
  ∃ info, isAffectedByChange x data = Ok info ∧
    ∀ a, info = Some a → AffectedByChange.initialized a ∧ AffectedByChange.filter_total a cs.
Proof.
  intros [_ _ Hs] Hcs. unfold isAffectedByChange, state_ok in *.
  destruct (body x) as [v| |l| | | | | | |]; try (by exists None).
  - eexists. split; [done|]. intros a [= <-]. split; [by eexists|]. intros ? ? [=].
  - destruct Hs as (f & Hf & _).
    destruct (ObjectLookup.isAffectedByChange_spec l f (dom m) data cs Hf Hcs) as (a & -> & Hi & Ht & _).
    eexists. split; [done|]. by intros a' [= <-].
Qed.

Lemma evaluate_in_state x m D ev cs :
  in_state x m D → (∀ v, body x ≠ Vector v) → ChangeSet.wf cs → (∀ c, c ∈ ChangeSet.changes cs → object c ∈ dom m) →
  changed ev ⊆ children x →
  (∀ c, c ∈ children x → current ev c = Ok (D c) ∧ ∃ v, updated ev c = Ok v) →
  ∃ v, evaluate tol pow log x ev cs = Ok v.
Proof.
  intros [_ _ Hs] Hn Hw Hcs Hc Hev. unfold evaluate, state_ok in *.
  assert (∀ c, c ∈ changed ev → (∃ v, current ev c = Ok v) ∧ ∃ v, updated ev c = Ok v) as Hch.
  { intros c Hin. destruct (Hev c) as [? ?]; [set_solver|]. split; [by eexists|done]. }
  destruct (body x) as [v|v|l|s|s|s|f|p|p|s] eqn:Eb.
  - by eexists.
  - by destruct (Hn v).
  - destruct Hs as (f & Hf & _). by apply (ObjectLookup.lookup_evaluate_total tol l f (dom m)).
  - by apply sum_evaluate_total.
  - apply max_evaluate_total. intros c Hin. by apply Hch.
  - apply any_evaluate_total. intros c Hin. by apply Hch.
  - destruct Hs as [c Hs]. unfold Transform.evaluate. rewrite (proj2 (only_child _ c) Hs). cbn [mbind result_bind].
    destruct (Hev c) as [_ [v ->]]; [set_solver|]. by eexists.
  - unfold BinaryOperation.product. rewrite Hs in Hev.
    destruct (Hev (BinaryOperation.child1st p)) as [_ [v1 ->]]; [set_solver|].
    destruct (Hev (BinaryOperation.child2nd p)) as [_ [v2 E2]]; [set_solver|]. cbn [mbind result_bind].
    rewrite E2. by eexists.
  - done.
  - by apply nth_evaluate_total.
Qed.

(** A vector is never told of changes. *)
Lemma needed_not_vector x m D data ev cs :
  in_state x m D → changed ev ⊆ children x → needed (H := ops tol pow log) x data ev cs → ∀ v, body x ≠ Vector v.
Proof.
  intros [_ _ Hs] Hc Hn v Eb. unfold state_ok in Hs. rewrite Eb in Hs.
  destruct Hn as [(a & Ha & _)|Hne]; [|set_solver].
  cbn in Ha. unfold isAffectedByChange in Ha. by rewrite Eb in Ha.
Qed.

Lemma evaluate_reads x m D ev ev' cs :
  in_state x m D → changed ev = changed ev' → changed ev ⊆ children x →
  (∀ c, c ∈ children x → current ev c = current ev' c ∧ updated ev c = updated ev' c) →
  evaluate tol pow log x ev cs = evaluate tol pow log x ev' cs.
Proof.
  intros [_ _ Hs] Ech Hsub Hev. unfold evaluate, state_ok in *.
  assert (∀ c, c ∈ set_iter (changed ev') → current ev c = current ev' c ∧ updated ev c = updated ev' c) as Hch.
  { intros c. rewrite set_iter_elem, <- Ech. intros Hin. apply Hev. set_solver. }
  assert (∀ c, c ∈ set_iter (changed ev') → updated ev c = updated ev' c) as Hup by (intros; by apply Hch).
  destruct (body x) as [v|v|l|s|s|s|f|p|p|s]; try done.
  - unfold LinearSum.evaluate. rewrite Ech. f_equal. apply foldM_ext_in. intros z c Hc.
    by destruct (Hch c Hc) as [-> ->].
  - unfold Max.evaluate, Max.max_of_changed. rewrite Ech. f_equal. apply foldM_ext_in. intros z c Hc. by rewrite Hup.
  - unfold AnyPositive.evaluate. rewrite Ech. f_equal. generalize 0%nat.
    induction (set_iter (changed ev')) as [|c cs' IH]; intros k; simpl; [done|].
    rewrite Hup by set_solver. destruct (updated ev' c) as [w|]; [|done]. cbn [mbind result_bind].
    case_match; [done|]. apply IH; intros; [apply Hch|apply Hup]; set_solver.
  - destruct Hs as [c Hs]. unfold Transform.evaluate. rewrite (proj2 (only_child _ c) Hs). cbn [mbind result_bind].
    destruct (Hev c) as [_ ->]; [set_solver|done].
  - unfold BinaryOperation.product.
    destruct (Hev (BinaryOperation.child1st p)) as [_ ->]; [set_solver|].
    by destruct (Hev (BinaryOperation.child2nd p)) as [_ ->]; [set_solver|].
  - unfold NthLargest.evaluate. rewrite Ech. f_equal. apply foldM_ext_in. intros z c Hc.
    by destruct (Hch c Hc) as [-> ->].
Qed.

(** A single move changes a variable by one at most. *)
Lemma var_evaluate_fin x v m D ev mv w :
  in_state x m D → body x = Var v →
  evaluate tol pow log x ev (MoveSet_getChangeSet [mv]) = Ok w → fin w.
Proof.
  intros [_ Hv _] Hb. unfold evaluate. rewrite Hb. intros [= <-]. rewrite Hv. unfold meaning. rewrite Hb.
  unfold VariableExpr.evaluate. rewrite MoveSet_changes. simpl. by destruct (decide _), (_ && _), (_ && _).
Qed.

(** *** Applying changes *)

(** It is enough that the state after the inner apply is right. *)
Lemma partialApply_inner x ev a cs b m' D' :
  properlyInitialized x = true →
  innerPartialApply tol pow log x ev a cs = Ok (b, meaning x m' D') →
  erase_body b = erase_body (body x) → state_ok (applied x b (meaning x m' D')) m' D' →
  ∃ x', partialApply tol pow log x ev a cs = Ok (x', meaning x m' D') ∧ alike x x' ∧ in_state x' m' D'.
Proof.
  intros Hp Hi He Hs. exists (applied x b (meaning x m' D')). unfold partialApply. rewrite Hp, Hi.
  split; [done|]. split; [by apply alike_applied|]. split; [done| |done].
  simpl. rewrite <- (meaning_erase x), <- (meaning_erase (applied _ _ _)).
  f_equal. unfold erase, applied. simpl. by rewrite He.
Qed.

Lemma var_apply x a m' :
  Assignment.objectToContainer a = m' → VariableExpr.var_object x ∈ dom m' →
  VariableExpr.applyAssignment x a =
    Ok (if decide (m' !! VariableExpr.var_object x = Some (VariableExpr.var_container x)) then d1 else d0).
Proof.
  intros <- [c Hc]%elem_of_dom. unfold VariableExpr.applyAssignment, Assignment.getContainer.
  rewrite Hc. cbn [at_ mbind result_bind]. f_equal.
  destruct (Z.eqb_spec c (VariableExpr.var_container x)); [subst; by rewrite decide_True|].
  rewrite decide_False; [done|]. congruence.
Qed.

Lemma max_apply s (cs : gset Z) D D' ev :
  cs ≠ ∅ → ValueSortedMap.inv Max.compare (λ p, canon p.2) s →
  (∀ c, c ∈ cs → canon (D' c)) →
  (∀ c, ValueSortedMap.map s !! c = if decide (c ∈ cs) then Some (D c) else None) ∨
  (∀ c, ValueSortedMap.map s !! c = if decide (c ∈ cs) then Some (D' c) else None) →
  (∀ c, c ∈ cs → updated ev c = Ok (D' c)) → (∀ c, c ∈ changed ev ↔ c ∈ cs ∧ D c ≠ D' c) →
  ∃ s', Max.innerPartialApply s ev = Ok (s', largest D' (elements cs)) ∧
    ValueSortedMap.inv Max.compare (λ p, canon p.2) s' ∧
    ∀ c, ValueSortedMap.map s' !! c = if decide (c ∈ cs) then Some (D' c) else None.
Proof.
  intros Hne Hi Hcan Hm Hu Hc. unfold Max.innerPartialApply.
  destruct (assign_children_spec (updated ev) s (set_iter (changed ev)) D' Hi) as (s' & -> & Hi' & Hm').
  { intros c. rewrite set_iter_elem, Hc. intros [? _]. auto. }
  cbn [mbind result_bind].
  assert (∀ c, ValueSortedMap.map s' !! c = if decide (c ∈ cs) then Some (D' c) else None) as Hmap.
  { intros c. rewrite Hm'. destruct (decide (c ∈ set_iter (changed ev))) as [Hin|Hin]; rewrite set_iter_elem in Hin.
    - apply Hc in Hin as [? _]. by rewrite decide_True.
    - destruct Hm as [-> | ->]; [|done]. case_decide; [|done]. f_equal.
      apply dec_stable. intros Hd. apply Hin, Hc. done. }
  rewrite (max_front s' cs D') by done. by exists s'.
Qed.

Lemma partialApply_in_state x data ev a cs m m' D D' :
  needed (H := ops tol pow log) x data ev cs → transition cs m m' →
  Assignment.objectToContainer a = m' →
  (∀ c, c ∈ children x → canon (D c) ∧ canon (D' c)) →
  in_state x m D ∨ in_state x m' D' →
  (∀ c, c ∈ children x → updated ev c = Ok (D' c)) →
  (∀ c, c ∈ changed ev ↔ c ∈ children x ∧ D c ≠ D' c) →
  ∃ x', partialApply tol pow log x ev a cs = Ok (x', meaning x m' D') ∧ alike x x' ∧ in_state x' m' D'.
Proof.
  intros Hn Ht Ha Hcan Hin Hup Hch.
  assert (changed ev ⊆ children x) as Hsub by (intros c; rewrite Hch; tauto).
  assert (∀ v, body x ≠ Vector v) as Hv by (destruct Hin; by eapply needed_not_vector).
  assert (properlyInitialized x = true) as Hp by (by destruct Hin as [[]|[]]).
  assert (state_ok x m D ∨ state_ok x m' D') as Hs by (destruct Hin as [[]|[]]; tauto). clear Hin.
  unfold state_ok in Hs. pose proof (transition_dom _ _ _ Ht) as Hdom. pose proof (partialApply_inner x ev a cs) as Hpi.
  unfold innerPartialApply, meaning, state_ok, applied in Hpi. unfold meaning.
  destruct (body x) as [v|v|l|s|s|s|f|p|p|s].
  - apply (Hpi (Var v)); [done| |done|]; cbn.
    + rewrite (var_apply v a m'); [done|done|]. destruct Hs as [[_ ?]|[_ ?]]; [by rewrite Hdom|done].
    + destruct Hs as [[? ?]|[? ?]]; [by rewrite Hdom|done].
  - by destruct (Hv v).
  - assert (∃ f m0, ObjectLookup.fits l f (dom m) ∧ (m0 = m ∨ m0 = m') ∧
      ObjectLookup.holds l (ObjectLookup.contribution (ObjectLookup.containers l) f m0)) as (f & m0 & Hf & Hm0 & Hh).
    { destruct Hs as [(f & ? & ?)|(f & ? & ?)]; [by exists f, m; auto|exists f, m'; rewrite <- Hdom; auto]. }
    destruct (ObjectLookup.innerPartialApply_spec l f cs m m' m0 Hf Ht Hm0 Hh) as (l' & E & Hh' & Ec & Ev).
    rewrite <- Hdom in Hf. rewrite (fits_value_in l f m' Hf) in E.
    apply (Hpi (Lookup l')); [done|by rewrite E|by cbn; rewrite Ec, Ev|]. cbn. exists f. rewrite Ec. split; [|done].
    destruct Hf as [F1 F2 F3]. split; [|done|by rewrite Ev].
    unfold ObjectLookup.getObjectValue in *. by rewrite Ev.
  - destruct (sum_apply tol s (children x) D D' ev Hs Hup Hch) as (s' & E & Hh & E1 & E2 & E3 & E4).
    assert (∃ D0, sum_holds s (children x) D0) as [D0 H0'] by (destruct Hs; eauto).
    rewrite <- (sum_value_restrict s (children x) D' D0 H0') in E.
    apply (Hpi (Sum s')); [done|by rewrite E| |done]. cbn. unfold LinearSum.with_collection. by rewrite E1, E2, E3, E4.
  - destruct (max_apply s (children x) D D' ev) as (s' & E & Hi & Hm); try done.
    + destruct Hs as [(? & _)|(? & _)]; done.
    + destruct Hs as [(_ & ? & _)|(_ & ? & _)]; done.
    + intros c Hc. by apply Hcan.
    + destruct Hs as [(_ & _ & ?)|(_ & _ & ?)]; auto.
    + apply (Hpi (Maximum s')); [done|by rewrite E|done|]. cbn. destruct Hs as [(? & _)|(? & _)]; done.
  - apply (Hpi (Any (violating tol (children x) D'))); [done| |done|done].
    by rewrite (any_apply tol s (children x) D D' ev Hs Hup Hch).
  - assert (∃ c, children x = {[c]}) as [c Ec] by (destruct Hs; done).
    apply (Hpi (Unary f)); [done| |done|by exists c]. unfold Transform.applyUsingChildValues.
    rewrite (proj2 (only_child _ c) Ec). cbn [mbind result_bind]. by rewrite Hup by set_solver.
  - assert (children x = {[BinaryOperation.child1st p; BinaryOperation.child2nd p]}) as Ec by (destruct Hs; done).
    apply (Hpi (Product p)); [done| |done|done]. unfold BinaryOperation.product. rewrite decide_True by done.
    rewrite (Hup (BinaryOperation.child1st p)) by set_solver. cbn [mbind result_bind].
    rewrite (Hup (BinaryOperation.child2nd p)) by set_solver. done.
  - by destruct Hs.
  - apply (Hpi (Nth (NthLargest.mk (NthLargest.n s) (NthLargest.unique s) (frequencies (children x) D')))); [done| |done|done].
    unfold NthLargest.applyUsingChildValues. rewrite (count_values_spec _ _ D') by done. done.
Qed.

(** A quotient throws exactly if an operand is not a number or both are infinite. *)
Lemma quotient_partialApply x p ev a cs D' :
  body x = Quotient p → properlyInitialized x = true →
  (∀ c, c = BinaryOperation.child1st p ∨ c = BinaryOperation.child2nd p → updated ev c = Ok (D' c)) →
  let n := D' (BinaryOperation.child1st p) in
  let d := D' (BinaryOperation.child2nd p) in
  if BinaryOperation.is_nan n || BinaryOperation.is_nan d || (BinaryOperation.is_inf n && BinaryOperation.is_inf d)
  then ∃ e, partialApply tol pow log x ev a cs = Throw e
  else ∃ x', partialApply tol pow log x ev a cs =
      Ok (x', if (d =? d0)%D then (n * dinf)%D else (n / d)%D) ∧ alike x x'.
Proof.
  intros Eb Hp Hup n d. unfold partialApply, innerPartialApply, BinaryOperation.quotient. rewrite Hp, Eb. cbn [negb].
  rewrite (Hup (BinaryOperation.child1st p)), (Hup (BinaryOperation.child2nd p)) by auto.
  cbn [mbind result_bind]. fold n d. unfold BinaryOperation.safe_div.
  destruct (BinaryOperation.is_nan n || BinaryOperation.is_nan d); [by eexists|]. simpl.
  destruct (BinaryOperation.is_inf n && BinaryOperation.is_inf d); [by eexists|].
  eexists. split; [done|]. apply alike_applied. by rewrite Eb.
Qed.

(** An expression that is not told of the changes stays as it is. *)
Lemma frame_in_state x data info cs m m' D D' :
  transition cs m m' → in_state x m D → (∀ c, c ∈ children x → D c = D' c) →
  isAffectedByChange x data = Ok info →
  (∀ a, info = Some a → AffectedByChange.matches a (ChangeSet.changes cs) = false) →
  in_state x m' D'.
Proof.
  intros Ht Hx HD Ha Hm. apply (in_state_children x m' D D' HD). destruct Hx as [Hp Hv Hs].
  assert (meaning x m' D = meaning x m D ∧ state_ok x m' D) as [E Hs'].
  2:{ split; [done|by rewrite E|done]. }
  pose proof (transition_dom _ _ _ Ht) as Hdom. clear Hv. unfold meaning, state_ok, isAffectedByChange in *.
  destruct (body x) as [v|v|l|s|s|s|f|p|p|s]; try done.
  - destruct Hs as [Hc Ho]. cbn in Ha. injection Ha as <-. specialize (Hm _ eq_refl).
    split; [|by rewrite Hdom]. set (o := VariableExpr.var_object v) in *. set (c := VariableExpr.var_container v) in *.
    assert (on m' o {[c]} = on m o {[c]}) as E.
    { apply (transition_same cs); [done|]. intros ch Hin Hob Hcon.
      pose proof (AffectedByChange.matches_false _ _ ch Hm Hin) as Hf. unfold AffectedByChange.matches_change in Hf.
      simpl in Hf. apply elem_of_singleton in Hcon. rewrite !bool_decide_true in Hf by set_solver. done. }
    unfold on in E. destruct (m' !! o) as [c1|], (m !! o) as [c2|]; try done.
    + destruct (decide (c1 = c)) as [->|N1], (decide (c2 = c)) as [->|N2]; try done.
      * rewrite bool_decide_true, bool_decide_false in E by set_solver. done.
      * rewrite bool_decide_false, bool_decide_true in E by set_solver. done.
      * rewrite !decide_False by congruence. done.
    + destruct (decide (c1 = c)) as [->|]; [by rewrite bool_decide_true in E by set_solver|].
      rewrite !decide_False by congruence. done.
    + destruct (decide (c2 = c)) as [->|]; [by rewrite bool_decide_true in E by set_solver|].
      rewrite !decide_False by congruence. done.
  - destruct Hs as (f & Hf & Hh).
    destruct (ObjectLookup.isAffectedByChange l data) as [a|] eqn:El; [|done]. cbn in Ha. injection Ha as <-.
    pose proof (ObjectLookup.contribution_frame l f data a cs m m' Hf Ht El (Hm a eq_refl)) as E.
    assert (ObjectLookup.fits l f (dom m')) as Hf' by (by rewrite Hdom). split.
    + rewrite <- !(fits_value_in l f) by done. unfold ObjectLookup.lookup_value. by rewrite E.
    + exists f. by rewrite E.
Qed.

(** The instance, for the operations of [Expressions]. *)
#[global] Instance expression_laws : ExpressionLaws (H := ops tol pow log).
Proof.
  refine (@Build_ExpressionLaws (ops tol pow log) alike alike_equiv meaning in_state
    _ _ _ meaning_children _ _ in_state_children is_value affected_in_state _ evaluate_reads _ frame_in_state).
  - abstract (intros x y E; by apply (f_equal children) in E).
  - abstract (intros x y data E; cbn; by rewrite <- (affected_erase x), E, affected_erase).
  - abstract (intros x y m D E; by rewrite <- (meaning_erase x), E, meaning_erase).
  - abstract done.
  - abstract (intros x m D []; by split).
  - abstract (intros x m D data ev cs Hx Hn ? ? Hsub ?; eapply evaluate_in_state; try done;
      by eapply needed_not_vector).
  - abstract (intros x data ev a cs m m' D D' Hn Ht _ Ha Hcan _ Hx Hev Hch;
      eapply partialApply_in_state; try done; intros c Hc; by apply Hev).
Defined.

End values.
End ExpressionValues.
