(* ===== verification/ExpressionGraphs.v ===== *)
(** * Graphs of expressions

    A graph built by the constructors of [Expressions] on an assignment is in step with
    it: [Orchestrator.init] succeeds on it, and together with the orchestrator it is a
    graph the search can use, an instance of [LawfulGraph] and [EvaluableGraph]. *)

From S2P Require Import Prelude Double Precision Exact ChangeSet Assignment AccessOrderedSet Queues AssociativeMap AssociativeFixedMap ObjectValues Affected Lookup Orchestrator OrchestratorInit OrchestratorIndex OrchestratorLeaves OrchestratorApply OrchestratorEvaluate Expressions ExpressionFacts ExpressionValues Objective.

Open Scope Z_scope.

(** ** The orchestrator as the graph of the search *)
Module OrchestratedGraph.
Section graph.
Context `{HashOrder} `{ExpressionLaws}.

Abbreviation post o := (Orchestrator.postOrder (Orchestrator.order o)).

(** The stored values, the evaluation of a candidate with a context of its own and the
    application of changes.  An id that no root leads to is no expression of the problem. *)
#[local] Instance orchestrated (o : Orchestrator.t) : ExpressionGraph := {|
  Graph := gmap Z Expression;
  expr_value g e :=
    if decide (e ∈ post o)
    then match Orchestrator.read_value g e with Ok v => v | Throw _ => d0 end else d0;
  expr_evaluate g cs e :=
    if decide (e ∈ post o)
    then '(_, v) ← Orchestrator.evaluate o g e (newContext (Some cs)); Ok v else Ok d0;
  graph_apply g cs a := '(g, _) ← Orchestrator.apply o (newContext (Some cs)) a g; Ok g
|}.

(** The graph [g0] as it was built, and what [Orchestrator.init] made of it; for every
    placement of the objects the values are numbers other than -0. *)
Record ready (o : Orchestrator.t) (g0 : gmap Z Expression) (data : AffectedByChangeDecisionData)
    (objects : gset Z) : Prop := {
  ready_layout : layout o (children_of g0) (info_of g0 data);
  ready_nodes n : n ∈ post o → is_Some (g0 !! n);
  ready_informed : informed g0 data;
  ready_canon m n : dom m = objects → n ∈ post o → canon (denotation o g0 m n)
}.

Context (o : Orchestrator.t) (g0 : gmap Z Expression) (data : AffectedByChangeDecisionData).
Context (objects : gset Z).

(** The value of an expression for a placement of the objects. *)
Definition value_at (e : Z) (m : gmap Z Z) : double :=
  if decide (dom m = objects ∧ e ∈ post o) then denotation o g0 m e else d0.

Definition in_step_with (g : gmap Z Expression) (m : gmap Z Z) : Prop :=
  dom m = objects ∧ in_step o g0 g m.

Context (Hr : ready o g0 data objects).

Lemma value_in_step g m e : in_step_with g m → expr_value (ExpressionGraph := orchestrated o) g e = value_at e m.
Proof.
  intros [Hd Hg]. unfold value_at. simpl. case_decide as He.
  - rewrite decide_True by done.
    by rewrite (in_step_value o g0 data (ready_layout _ _ _ _ Hr) g m e Hg He).
  - rewrite decide_False; [done|tauto].
Qed.

Lemma apply_moves g m ms a :
  in_step_with g m → NoDup (move_object <$> ms) →
  (∀ mv, mv ∈ ms → m !! move_object mv = Some (srcContainer mv)) →
  Assignment.inv a → Assignment.objectToContainer a = place ms m →
  ∃ g', graph_apply (ExpressionGraph := orchestrated o) g (MoveSet_getChangeSet ms) a = Ok g' ∧ in_step_with g' (place ms m).
Proof.
  intros [Hd Hg] Hn Hs Ha Hm. pose proof (moves_transition ms m Hn Hs) as Ht.
  assert (dom (place ms m) = objects) as Hd' by (by rewrite (transition_dom _ _ _ Ht)).
  destruct (graph_apply_spec o g0 data (ready_layout _ _ _ _ Hr) (ready_nodes _ _ _ _ Hr) (ready_informed _ _ _ _ Hr)
    (MoveSet_getChangeSet ms) m (place ms m) Ht a Ha Hm) with (g := g) as (g' & ctx & E & Hg'); [|done|].
  { intros n Hin. split; by apply (ready_canon _ _ _ _ Hr). }
  exists g'. simpl. rewrite E. done.
Qed.

(** The value of a candidate is the current one or what the expression computes. *)
Lemma evaluates_moves g m ms e :
  in_step_with g m → NoDup (move_object <$> ms) →
  (∀ mv, mv ∈ ms → m !! move_object mv = Some (srcContainer mv)) →
  ∃ v, expr_evaluate (ExpressionGraph := orchestrated o) g (MoveSet_getChangeSet ms) e = Ok v ∧
    (v = value_at e m ∨
     ∃ x ev, g !! e = Some x ∧ static g0 e x ∧ consistent x m (denotation o g0 m) ∧
       expression_evaluate x ev (MoveSet_getChangeSet ms) = Ok v).
Proof.
  intros [Hd Hg] Hn Hs. pose proof (moves_transition ms m Hn Hs) as Ht. simpl. unfold value_at.
  case_decide as He; [rewrite decide_True by done|rewrite decide_False by tauto; by eauto].
  assert (∀ n, n ∈ post o → canon (denotation o g0 m n)) as Hcan by (intros; by apply (ready_canon _ _ _ _ Hr)).
  destruct Hr as [Hlay _ Hinf _]. pose proof (transition_wf _ _ _ Ht) as Hwf. pose proof (transition_objects _ _ _ Ht) as Hob.
  destruct (graph_evaluate_spec o g0 data Hlay Hinf g m Hg Hcan (MoveSet_getChangeSet ms) Hwf Hob e
    (newContext (Some (MoveSet_getChangeSet ms))) He) as (ctx & v & E & _ & Hv).
  { apply (newContext_ok o g0 data Hlay Hinf g m Hg Hcan _ Hwf Hob). }
  exists v. rewrite E. split; [done|]. destruct (Hg e He) as (x & Hx & Hst & Hc).
  pose proof (prediction_eq o g0 data Hlay Hinf g m Hg Hcan (MoveSet_getChangeSet ms) Hwf Hob e He) as Hp.
  set (pr := prediction o g0 data g m (MoveSet_getChangeSet ms)) in *.
  assert (v = pr e ∨ v = denotation o g0 m e) as [->| ->]; [|rewrite Hp|by left].
  { destruct Hv as [->| ->]; [by left|]. unfold seen. case_match; auto. }
  unfold evaluation. rewrite Hx. destruct (decide _); [|by left].
  destruct (expression_evaluate x _ _) as [w|] eqn:Ew; [right; by exists x, (evaluator_of o g0 g m pr e)|by left].
Qed.

Definition lawful : LawfulGraph (orchestrated o) :=
  {| denote := value_at : Z → gmap Z Z → double;
     graph_inv := in_step_with : Graph (ExpressionGraph := orchestrated o) → _;
     graph_inv_value := value_in_step;
     graph_apply_moves := apply_moves |}.

Definition evaluable : @EvaluableGraph (orchestrated o) lawful :=
  @Build_EvaluableGraph (orchestrated o) lawful (λ g m ms e Hg Hn Hs,
    let '(ex_intro _ v (conj E _)) := evaluates_moves g m ms e Hg Hn Hs in ex_intro _ v E).

Lemma value_at_fin e m : fin (value_at e m).
Proof. unfold value_at. case_decide as Hd; [|done]. apply (ready_canon _ _ _ _ Hr); tauto. Qed.

End graph.
End OrchestratedGraph.

(** ** Construction *)

(** What a loop that succeeds has read. *)
Lemma foldM_reads {S V} (r : Z → result V) (k : S → Z → V → result S) s l s' :
  foldM (λ s c, v ← r c; k s c v) s l = Ok s' → ∀ c, c ∈ l → ∃ v, r c = Ok v.
Proof.
  revert s. induction l as [|c l IH]; intros s E d Hd; [set_solver|]. cbn [foldM] in E.
  apply bind_Ok in E as (s1 & E1 & E2). apply bind_Ok in E1 as (v & Ev & _).
  apply elem_of_cons in Hd as [->|Hd]; [by exists v|]. by apply (IH s1).
Qed.

Module ExpressionGraphs.
Import Expressions ExpressionValues.
Section build.
Context `{HashOrder} (tol : PrecisionTolerances) (pow : double → double → double) (log : double → double).

(** [getInitialValue] of an expression of the graph. *)
Definition initial (g : gmap Z t) (c : Z) : result double :=
  match g !! c with Some x => Ok (initialValue x) | None => Throw (undefined_behaviour "dangling expression") end.

(** The vector fits the objects: their values are added without rounding, and if the
    default is zero the listed objects exist and have other values. *)
Definition vector_fits (v : ObjectVector.t) (objects : gset Z) : Prop :=
  ∃ em, ObjectVector.ok v em ∧ (∀ o, o ∈ objects → 0 ≤ o < ObjectVector.totalObjects v) ∧
    ObjectLookup.exact_values (ObjectVector.value_of (ObjectVector.defaultValue v) em) objects ∧
    (ObjectVector.isZeroDefault v = true → ∀ o w, em !! o = Some w → o ∈ objects ∧ (w =? d0)%D = false).

(** A full apply gives the value of the placement. *)
Lemma vector_fits_apply v objects :
  vector_fits v objects → ∃ f,
    (∀ l, ObjectLookup.object_vector l = v → ObjectLookup.fits l f objects) ∧
    ∀ l a, ObjectLookup.object_vector l = v → dom (Assignment.objectToContainer a) = objects → Assignment.inv a →
    ∃ l', ObjectLookup.applyAssignment l a =
        Ok (l', ObjectLookup.lookup_value (ObjectLookup.containers l) f (Assignment.objectToContainer a)) ∧
      ObjectLookup.holds l' (ObjectLookup.contribution (ObjectLookup.containers l) f (Assignment.objectToContainer a)) ∧
      ObjectLookup.containers l' = ObjectLookup.containers l ∧ ObjectLookup.object_vector l' = v.
Proof.
  intros (em & Hok & Hran & Hex & Hem). set (f := ObjectVector.value_of (ObjectVector.defaultValue v) em) in *.
  assert (∀ l, ObjectLookup.object_vector l = v → ObjectLookup.fits l f objects) as Hfit.
  { intros l El. split; [|done|rewrite El; by exists em]. intros o Ho.
    unfold ObjectLookup.getObjectValue. rewrite El. apply (ObjectVector.ok_value v em o Hok). auto. }
  exists f. split; [done|]. intros l a El <- Ha.
  destruct (ObjectLookup.applyAssignment_spec l f a (Hfit l El) Ha) as (l' & E & Hh & Ec & Ev).
  { rewrite El. intros em' Hok' Hz o w Ho. apply (Hem Hz o w).
    destruct (ObjectValues.models_iter _ _ (ObjectVector.ok_models _ _ Hok)) as (l1 & E1 & P1).
    destruct (ObjectValues.models_iter _ _ (ObjectVector.ok_models _ _ Hok')) as (l2 & E2 & P2).
    rewrite E1 in E2. injection E2 as <-. apply elem_of_map_to_list.
    rewrite <- P1, P2. by apply elem_of_map_to_list. }
  exists l'. by rewrite <- El.
Qed.

(** An expression made by one of the constructors from those of the graph. *)
Inductive made (a : Assignment.t) (g : gmap Z t) : t → Prop :=
  | made_variable obj con x : makeVariable a obj con = Ok x → made a g x
  | made_vector ov x : makeVector tol ov = Ok x → made a g x
  | made_lookup e y v cs x :
      g !! e = Some y → body y = Vector v → vector_fits v (dom (Assignment.objectToContainer a)) →
      makeLookup a e v cs = Ok x → made a g x
  | made_sum constant coef x : makeLinearSum tol (initial g) constant coef = Ok x → made a g x
  | made_max exprs x : makeMax (initial g) exprs = Ok x → made a g x
  | made_any exprs x : makeAnyPositive tol (initial g) exprs = Ok x → made a g x
  | made_transform f e x : makeTransform tol pow log (initial g) f e = Ok x → made a g x
  | made_product e1 e2 x : makeProduct (initial g) e1 e2 = Ok x → made a g x
  | made_nth exprs n unique x : makeNthLargest (initial g) exprs n unique = Ok x → made a g x.

(** The graph grows by one expression at a time. *)
Inductive built (a : Assignment.t) : list Z → gmap Z t → Prop :=
  | built_empty : built a [] ∅
  | built_insert l g e x : built a l g → g !! e = None → made a g x → built a (e :: l) (<[e := x]> g).

Definition values_of (g : gmap Z t) (c : Z) : double :=
  match g !! c with Some x => value x | None => d0 end.

Section made.
Context (a : Assignment.t) (Ha : Assignment.inv a) (g : gmap Z t).
Context (Hg : ∀ c y, g !! c = Some y → initialValue y = value y ∧ canon (value y)).
Abbreviation m := (Assignment.objectToContainer a).
Abbreviation D := (values_of g).

(** What a constructor must leave. *)
Definition fresh (x : t) : Prop :=
  children x ⊆ dom g ∧ initialValue x = value x ∧ in_state tol pow log x m D.

Lemma initial_value c v : initial g c = Ok v → c ∈ dom g ∧ v = D c ∧ canon (D c).
Proof.
  unfold initial, values_of. destruct (g !! c) as [y|] eqn:Ey; [|done]. intros [= <-].
  destruct (Hg c y Ey) as [E ?]. split; [|done]. apply elem_of_dom. by eexists.
Qed.

Lemma initial_read c : (∃ v, initial g c = Ok v) → initial g c = Ok (D c) ∧ c ∈ dom g ∧ canon (D c).
Proof. intros [v E]. destruct (initial_value c v E) as (? & -> & ?). done. Qed.

Lemma variable_fresh obj con x : makeVariable a obj con = Ok x → fresh x.
Proof.
  intros E. apply bind_Ok in E as (v & Ev & [= <-]). split; [set_solver|]. split; [done|].
  assert (obj ∈ dom m) as Ho.
  { unfold VariableExpr.applyAssignment, Assignment.getContainer in Ev. simpl in Ev.
    apply elem_of_dom. by destruct (m !! obj); [eexists|]. }
  split; [done| |done]. rewrite (var_apply _ a m) in Ev by done. by injection Ev as <-.
Qed.

Lemma lookup_fresh e y v cs x :
  g !! e = Some y → vector_fits v (dom m) → makeLookup a e v cs = Ok x → fresh x.
Proof.
  intros Hy Hv E. unfold makeLookup in E. destruct cs as [cs|]; [|done].
  destruct (vector_fits_apply v _ Hv) as (f & Hfit & Happ).
  destruct (Happ (ObjectLookup.mk cs v AssociativeHybridMap.make []) a eq_refl eq_refl Ha)
    as (l' & El & Hh & Ec & Ev). cbn [ObjectLookup.containers] in El, Hh, Ec.
  rewrite El in E. cbn [mbind result_bind] in E. injection E as <-.
  pose proof (Hfit l' Ev) as Hl'. split; [|split; [done|split; [done| |]]].
  - simpl. intros c ->%elem_of_singleton. apply elem_of_dom. by eexists.
  - simpl. unfold meaning. simpl. rewrite <- (fits_value_in l' f m Hl'). by rewrite Ec.
  - simpl. unfold state_ok. simpl. exists f. by rewrite Ec.
Qed.

Lemma sum_fresh constant coef x : makeLinearSum tol (initial g) constant coef = Ok x → fresh x.
Proof.
  unfold makeLinearSum, LinearSum.make. intros E. destruct (foldl _ _ _) as [cs s] eqn:Ef.
  assert (LinearSum.collection s = AssociativeMap.Leaf) as Es.
  { revert Ef. set (s0 := LinearSum.mk constant AssociativeMap.Leaf ∅ true).
    assert (LinearSum.collection s0 = AssociativeMap.Leaf) as E0 by done. revert E0.
    generalize s0. generalize (∅ : gset Z). clear. induction (hash_iter coef) as [|[c w] l IH]; intros c0 s0 E0; simpl.
    - by intros [= <- <-].
    - case_match; [by apply IH|]. apply IH. done. }
  apply bind_Ok in E as ([[cs' s'] v] & E & [= <-]). apply bind_Ok in E as (s1 & Eu & [= <- <- <-]).
  assert (∀ c, c ∈ cs → initial g c = Ok (D c) ∧ c ∈ dom g ∧ canon (D c)) as Hcs.
  { intros c Hc. apply initial_read. eapply (foldM_reads _ _ _ _ _ Eu). by apply set_iter_elem. }
  destruct (update_children_spec (initial g) s (set_iter cs) D) as (col & Eu' & Hi & Hm & _).
  { rewrite Es. apply AssociativeMap.clear_inv. }
  { intros c Hc%set_iter_elem. by apply Hcs. }
  rewrite Eu' in Eu. injection Eu as <-.
  assert (sum_holds (LinearSum.with_collection s col) cs D) as Hh.
  { split; [done|]. intros c. cbn [LinearSum.collection LinearSum.with_collection]. rewrite Hm, Es.
    destruct (decide (c ∈ set_iter cs)) as [Hc|Hc]; rewrite set_iter_elem in Hc;
      [by rewrite decide_True|by rewrite decide_False]. }
  split; [intros c Hc; by apply Hcs|]. split; [done|]. split; [done| |done].
  simpl. unfold meaning. simpl. rewrite (sum_computeValue tol _ cs D Hh). symmetry.
  by apply (sum_value_restrict tol (LinearSum.with_collection s col) cs D D).
Qed.

Lemma max_fresh exprs x : makeMax (initial g) exprs = Ok x → fresh x.
Proof.
  unfold makeMax, Max.make. intros E. case_decide as Hne; [done|].
  apply bind_Ok in E as ([[cs' s'] v] & E & [= <-]). apply bind_Ok in E as (s1 & Eu & E).
  apply bind_Ok in E as (v1 & Ev & [= <- <- <-]). set (cs := (list_to_set exprs : gset Z)) in *.
  assert (∀ c, c ∈ cs → initial g c = Ok (D c) ∧ c ∈ dom g ∧ canon (D c)) as Hcs.
  { intros c Hc. apply initial_read. eapply (foldM_reads _ _ _ _ _ Eu). by apply set_iter_elem. }
  destruct (assign_children_spec (initial g) ValueSortedMap.empty (set_iter cs) D) as (s2 & E2 & Hi & Hm).
  { by apply (ValueSortedMap.empty_inv Max.compare). }
  { intros c Hc%set_iter_elem. destruct (Hcs c Hc) as (? & ? & ?); done. }
  rewrite E2 in Eu. injection Eu as <-.
  assert (∀ c, ValueSortedMap.map s2 !! c = if decide (c ∈ cs) then Some (D c) else None) as Hmap.
  { intros c. rewrite Hm. destruct (decide (c ∈ set_iter cs)) as [Hc|Hc]; rewrite set_iter_elem in Hc;
      [by rewrite decide_True|by rewrite decide_False]. }
  rewrite (max_front s2 cs D) in Ev by (done || (intros c Hc; by apply Hcs)). injection Ev as <-.
  split; [intros c Hc; by apply Hcs|]. split; [done|]. by split.
Qed.

Lemma any_fresh exprs x : makeAnyPositive tol (initial g) exprs = Ok x → fresh x.
Proof.
  unfold makeAnyPositive, AnyPositive.make. intros E.
  apply bind_Ok in E as ([[cs' s'] v] & E & [= <-]). apply bind_Ok in E as ([cs s] & Eu & [= <- <- <-]).
  assert (∀ l cs0 s0, foldM (λ '(children, x) e, v ← initial g e;
      Ok ({[e]} ∪ children, if AnyPositive.isViolating tol v then {[e]} ∪ x else x)) (cs0, s0) l = Ok (cs, s) →
    s0 = violating tol cs0 D → cs0 ⊆ dom g → s = violating tol cs D ∧ cs ⊆ dom g) as Hl.
  { clear Eu. intros l. induction l as [|e l IH]; intros cs0 s0 E Hs Hd; cbn [foldM] in E; [by injection E as <- <-|].
    apply bind_Ok in E as ([cs1 s1] & E1 & E2). apply bind_Ok in E1 as (v & Ev & [= <- <-]).
    destruct (initial_value e v Ev) as (He & -> & _).
    apply (IH _ _ E2); [|set_solver]. rewrite Hs. apply set_eq. intros c. unfold violating.
    rewrite (elem_of_filter _ ({[e]} ∪ cs0)). destruct (AnyPositive.isViolating tol (D e)) eqn:Ee.
    - rewrite !elem_of_union, elem_of_filter, elem_of_singleton. split; [intros [->|[? ?]]|intros [? [->|?]]]; auto.
    - rewrite elem_of_filter, !elem_of_union, elem_of_singleton. split; [intros [? ?]; auto|].
      intros [Hv [->|?]]; [congruence|auto]. }
  destruct (Hl exprs ∅ ∅ Eu) as [-> Hd]; [by unfold violating|set_solver|].
  split; [done|]. split; [done|]. by split.
Qed.

Lemma transform_fresh f e x : makeTransform tol pow log (initial g) f e = Ok x → fresh x.
Proof.
  unfold makeTransform, Transform.make. intros E. apply bind_Ok in E as ([cs v] & E & [= <-]).
  apply bind_Ok in E as (w & Ew & [= <- <-]). destruct (initial_value e w Ew) as (He & -> & _).
  split; [set_solver|]. split; [done|]. split; [done| |by exists e].
  simpl. unfold meaning. simpl. by rewrite (proj2 (only_child _ e) eq_refl).
Qed.

Lemma product_fresh e1 e2 x : makeProduct (initial g) e1 e2 = Ok x → fresh x.
Proof.
  unfold makeProduct, BinaryOperation.product. intros E. apply bind_Ok in E as (v & E & [= <-]).
  apply bind_Ok in E as (v1 & Ev1 & E). apply bind_Ok in E as (v2 & Ev2 & [= <-]).
  destruct (initial_value _ _ Ev1) as (? & -> & _), (initial_value _ _ Ev2) as (? & -> & _). simpl in *.
  split; [set_solver|]. split; [done|]. split; [done| |done].
  simpl. unfold meaning. simpl. by rewrite decide_True.
Qed.

Lemma nth_fresh exprs n unique x : makeNthLargest (initial g) exprs n unique = Ok x → fresh x.
Proof.
  unfold makeNthLargest, NthLargest.make. intros E. apply bind_Ok in E as ([[cs s] v] & E & [= <-]).
  case_decide as Hne; [done|]. apply bind_Ok in E as ([s1 v1] & E & [= <- <- <-]).
  unfold NthLargest.applyUsingChildValues in E. apply bind_Ok in E as (fr & Ef & [= <- <-]).
  set (cs := (list_to_set exprs : gset Z)) in *.
  assert (∀ c, c ∈ cs → initial g c = Ok (D c) ∧ c ∈ dom g ∧ canon (D c)) as Hcs.
  { intros c Hc. apply initial_read. eapply (foldM_reads _ _ _ _ _ Ef). by apply set_iter_elem. }
  rewrite (count_values_spec _ cs D) in Ef by (intros c Hc; by apply Hcs). injection Ef as <-.
  split; [intros c Hc; by apply Hcs|]. split; [done|]. by split.
Qed.

Lemma made_fresh x : made a g x → fresh x.
Proof.
  destruct 1; eauto using variable_fresh, lookup_fresh, sum_fresh, max_fresh, any_fresh, transform_fresh,
    product_fresh, nth_fresh.
  unfold makeVector in *. apply bind_Ok in H0 as (v & _ & [= <-]). split; [set_solver|]. by split.
Qed.

End made.
(** *** Evaluation from scratch *)

(** The values for a placement, in the order of construction, the newest first. *)
Definition scratch (l : list Z) (g : gmap Z t) (m : gmap Z Z) : gmap Z double :=
  foldr (λ e V, match g !! e with
                | Some x => <[e := meaning tol pow log x m (λ c, default d0 (V !! c))]> V
                | None => V
                end) ∅ l.

Definition scratch_value (l : list Z) (g : gmap Z t) (m : gmap Z Z) (e : Z) : double :=
  default d0 (scratch l g m !! e).

(** The age of an expression. *)
Fixpoint rank (l : list Z) (n : Z) : nat :=
  match l with [] => O | e :: l => if decide (n = e) then length l else rank l n end.

Lemma rank_lt l n : n ∈ l → (rank l n < length l)%nat.
Proof. induction l as [|e l IH]; simpl; [set_solver|]. intros Hn. case_decide; [lia|]. assert (n ∈ l) by set_solver. specialize (IH ltac:(done)). lia. Qed.

Lemma scratch_ext l g g' m : (∀ e, e ∈ l → g !! e = g' !! e) → scratch l g m = scratch l g' m.
Proof.
  induction l as [|e l IH]; intros Hg; simpl; [done|]. rewrite IH by (intros; apply Hg; set_solver).
  by rewrite Hg by set_solver.
Qed.

Lemma scratch_insert l g e x m :
  e ∉ l → scratch (e :: l) (<[e := x]> g) m = <[e := meaning tol pow log x m (scratch_value l g m)]> (scratch l g m).
Proof.
  intros He. simpl. rewrite lookup_insert_eq, (scratch_ext l (<[e := x]> g) g); [done|].
  intros d Hd. rewrite lookup_insert_ne; [done|]. set_solver.
Qed.

Section built.
Context (a : Assignment.t).
Abbreviation m0 := (Assignment.objectToContainer a).

(** What holds of a graph that was built on [a]. *)
Record sound (l : list Z) (g : gmap Z t) : Prop := {
  s_nodes n : n ∈ l ↔ is_Some (g !! n);
  s_acyclic : acyclic (H0 := ops tol pow log) g (rank l);
  s_state n x : g !! n = Some x → initialValue x = value x ∧ in_state tol pow log x m0 (values_of g);
  s_scratch m n x : g !! n = Some x → scratch_value l g m n = meaning tol pow log x m (scratch_value l g m);
  s_value n x : g !! n = Some x → value x = scratch_value l g m0 n
}.

Lemma sound_values l g c : sound l g → c ∈ l → values_of g c = scratch_value l g m0 c.
Proof.
  intros Hs [x Hx]%(s_nodes _ _ Hs). unfold values_of. rewrite Hx. by apply (s_value _ _ Hs).
Qed.

Section insert.
Context (l : list Z) (g : gmap Z t) (Hs : sound l g) (e : Z) (He : g !! e = None) (x : t) (Hx : fresh a g x).
Abbreviation g' := (<[e := x]> g).

Lemma insert_new : e ∉ l.
Proof. rewrite (s_nodes _ _ Hs), He. by intros [? [=]]. Qed.

(** The children of all the expressions were there. *)
Lemma insert_old n y c : g' !! n = Some y → c ∈ children y → is_Some (g !! c) ∧ c ≠ e.
Proof.
  intros Hy Hc. assert (is_Some (g !! c)) as Ho.
  { rewrite lookup_insert in Hy. case_decide.
    - injection Hy as <-. apply elem_of_dom. destruct Hx. set_solver.
    - by apply (acyclic_child _ _ (s_acyclic _ _ Hs) n y). }
  split; [done|]. intros ->. rewrite He in Ho. by destruct Ho.
Qed.

Lemma insert_acyclic : acyclic (H0 := ops tol pow log) g' (rank (e :: l)).
Proof.
  split. intros n y c Hy Hc. destruct (insert_old n y c Hy Hc) as [Ho Hne].
  split; [apply lookup_insert_is_Some'; auto|]. simpl. rewrite (decide_False (P := c = e)) by done.
  case_decide as En; [apply rank_lt; by apply (s_nodes _ _ Hs)|].
  rewrite lookup_insert_ne in Hy by done. by apply (acyclic_child _ _ (s_acyclic _ _ Hs) n y c).
Qed.

Lemma insert_state n y :
  g' !! n = Some y → initialValue y = value y ∧ in_state tol pow log y m0 (values_of g').
Proof.
  intros Hy. assert (initialValue y = value y ∧ in_state tol pow log y m0 (values_of g)) as [Hi Hst].
  { rewrite lookup_insert in Hy. case_decide; [injection Hy as <-; by destruct Hx as (_ & ? & ?)|].
    by apply (s_state _ _ Hs n). }
  split; [done|]. apply (in_state_children tol pow log y _ (values_of g)); [|done].
  intros c Hc. destruct (insert_old n y c Hy Hc) as [_ Hne]. unfold values_of. by rewrite lookup_insert_ne.
Qed.

Lemma insert_scratch_value m c : c ≠ e → scratch_value (e :: l) g' m c = scratch_value l g m c.
Proof.
  intros Hc. unfold scratch_value. rewrite scratch_insert by apply insert_new. by rewrite lookup_insert_ne.
Qed.

Lemma insert_scratch m n y :
  g' !! n = Some y → scratch_value (e :: l) g' m n = meaning tol pow log y m (scratch_value (e :: l) g' m).
Proof.
  intros Hy. rewrite (meaning_children tol pow log y m _ (scratch_value l g m)).
  2:{ intros c Hc. destruct (insert_old n y c Hy Hc) as [_ Hne]. by apply insert_scratch_value. }
  rewrite lookup_insert in Hy. case_decide as En.
  - injection Hy as <-. subst n. unfold scratch_value at 1. rewrite scratch_insert by apply insert_new.
    by rewrite lookup_insert_eq.
  - rewrite insert_scratch_value by done. by apply (s_scratch _ _ Hs).
Qed.

Lemma insert_value n y : g' !! n = Some y → value y = scratch_value (e :: l) g' m0 n.
Proof.
  intros Hy. rewrite (insert_scratch m0 n y Hy). destruct (insert_state n y Hy) as [_ [_ -> _]].
  apply meaning_children. intros c Hc. destruct (insert_old n y c Hy Hc) as [[z Hz] Hne].
  unfold values_of. rewrite insert_scratch_value, lookup_insert_ne, Hz by done. by apply (s_value _ _ Hs).
Qed.

Lemma insert_sound : sound (e :: l) g'.
Proof.
  split; [|apply insert_acyclic|apply insert_state|apply insert_scratch|apply insert_value].
  intros n. rewrite elem_of_cons, (s_nodes _ _ Hs), lookup_insert_is_Some.
  destruct (decide (n = e)); naive_solver.
Qed.

End insert.

Context (Ha : Assignment.inv a).

(** Every value is a number other than -0. *)
Definition canonical (l : list Z) (g : gmap Z t) (m : gmap Z Z) : Prop :=
  ∀ n, n ∈ l → canon (scratch_value l g m n).

Lemma built_sound l g : built a l g → canonical l g m0 → sound l g.
Proof.
  induction 1 as [|l g e x Hb IH He Hx]; intros Hcan.
  { split; [intros n; rewrite lookup_empty; split; [set_solver|by intros [? [=]]]|split|..];
      intros *; rewrite ?lookup_empty; done. }
  assert (∀ n, n ∈ l ↔ is_Some (g !! n)) as Hn.
  { clear -Hb. induction Hb as [|l g e x Hb IH He Hx]; intros n; [rewrite lookup_empty; split; [set_solver|by intros [? [=]]]|].
    rewrite elem_of_cons, IH, lookup_insert_is_Some. destruct (decide (n = e)); naive_solver. }
  assert (e ∉ l) as Hel by (rewrite Hn, He; by intros [? [=]]).
  assert (sound l g) as Hs.
  { apply IH. intros n Hin. specialize (Hcan n ltac:(set_solver)). unfold scratch_value in *.
    rewrite scratch_insert, lookup_insert_ne in Hcan by (done || set_solver). done. }
  apply insert_sound; [done|done|]. apply made_fresh; [done| |done].
  intros c y Hy. split; [by apply (s_state _ _ Hs c)|]. rewrite (s_value _ _ Hs c y Hy).
  assert (c ∈ l) as Hc by (apply Hn; by eexists). specialize (Hcan c ltac:(set_solver)).
  unfold scratch_value in *. rewrite scratch_insert, lookup_insert_ne in Hcan by (done || set_solver). done.
Qed.

(** ** The graph of the search *)

Abbreviation den o g := (denotation (H0 := ops tol pow log) (H1 := expression_laws tol pow log) o g).

(** [init] succeeds on a graph that was built, the orchestrator is ready for it, and it
    is in step with the assignment; the value of every node is that of an evaluation from
    scratch. *)
Lemma built_ready l g0 data fixedContainers rs :
  built a l g0 → (∀ root, root ∈ rs → root ∈ l) → (∀ m, dom m = dom m0 → canonical l g0 m) →
  ∃ o g, Orchestrator.init (H0 := ops tol pow log) (length l) rs data fixedContainers g0 = Ok (o, g) ∧
    Orchestrator.roots o = rs ∧
    OrchestratedGraph.ready (H0 := ops tol pow log) o g0 data (dom m0) ∧
    OrchestratedGraph.in_step_with (H0 := ops tol pow log) o g0 (dom m0) g m0 ∧
    (∀ root, root ∈ rs → root ∈ Orchestrator.postOrder (Orchestrator.order o)) ∧
    ∀ n, n ∈ Orchestrator.postOrder (Orchestrator.order o) →
      n ∈ l ∧ ∀ m, den o g0 m n = scratch_value l g0 m n.
Proof.
  intros Hb Hrs Hcan. pose proof (built_sound l g0 Hb (Hcan m0 eq_refl)) as Hs.
  assert (informed (H0 := ops tol pow log) g0 data) as Hinf.
  { intros n x Hx. destruct (s_state _ _ Hs n x Hx) as [_ Hst].
    destruct (affected_in_state tol pow log x _ _ data [] Hst) as (info & Hi & Hall); [set_solver|].
    exists info. split; [done|]. intros b Eb. by apply Hall. }
  destruct (init_spec (H0 := ops tol pow log) g0 (rank l) data fixedContainers rs (length l))
    as (o & g & E & Hm & Er & Hlay & Hnodes); [apply Hs|done| |].
  { intros root Hin. split; [by apply (s_nodes _ _ Hs), Hrs|]. apply rank_lt. auto. }
  assert (∀ m n, n ∈ Orchestrator.postOrder (Orchestrator.order o) → scratch_value l g0 m n = den o g0 m n) as Hden.
  { intros m n Hn. unfold denotation.
    apply (solution_unique o (node_value (H0 := ops tol pow log) g0 m) _ _ Hlay) with (D := scratch_value l g0 m); [..|done].
    - intros k D D' Hk HD. destruct (Hnodes k Hk) as [x Hx]. unfold node_value, children_of in *. rewrite Hx in *.
      by apply (meaning_children tol pow log).
    - intros k Hk. destruct (Hnodes k Hk) as [x Hx]. unfold node_value. rewrite Hx. by apply (s_scratch _ _ Hs). }
  exists o, g. split; [done|]. split; [done|]. split_and!.
  - split; [done|done|done|]. intros m n Hd Hn. rewrite <- Hden by done. apply (Hcan m Hd).
    by apply (s_nodes _ _ Hs), Hnodes.
  - split; [done|]. intros n Hn. destruct (Hnodes n Hn) as [x Hx].
    destruct (marked_lookup (H0 := ops tol pow log) g0 g n x Hm Hx) as (y & Hy & Hsame & Hc).
    exists y. split; [done|]. split; [by exists x|]. apply Hc.
    destruct (s_state _ _ Hs n x Hx) as [_ Hst].
    apply (in_state_children tol pow log x _ (values_of g0)); [|done]. intros c Hch.
    destruct (acyclic_child (H0 := ops tol pow log) _ _ (s_acyclic _ _ Hs) n x c Hx Hch) as [Hz _].
    rewrite (sound_values l g0 c Hs) by (by apply (s_nodes _ _ Hs)). apply Hden.
    destruct (lay_dom _ _ _ Hlay n) as [_ [p Hp]]; [done|].
    destruct (lay_closed _ _ _ Hlay n p c Hp) as (q & Hq & _); [|apply (lay_dom _ _ _ Hlay); by eexists].
    unfold children_of. by rewrite Hx.
  - intros root Hin. apply (lay_dom _ _ _ Hlay). subst rs. apply list_elem_of_lookup_1 in Hin as [i Hi].
    destruct (lay_root _ _ _ Hlay i root Hi) as (p & Hp & _). by eexists.
  - intros n Hn. split; [by apply (s_nodes _ _ Hs), Hnodes|]. intros m. symmetry. by apply Hden.
Qed.

End built.

(** *** Graphs whose values are always numbers *)

(** The expressions whose value is a number other than -0 whenever the values of their
    children are. *)
Definition tame (objects : gset Z) (x : t) : Prop :=
  match body x with
  | Var _ | Vector _ | Any _ | Unary Transform.Step | Unary (Transform.Rectangle _ _) => True
  | Lookup l => ∃ f, ObjectLookup.fits l f objects
  | Maximum _ => children x ≠ ∅
  | _ => False
  end.

Lemma tame_canon x m D :
  tame (dom m) x → (∀ c, canon (D c)) → canon (meaning tol pow log x m D).
Proof.
  assert (∀ b : bool, canon (if b then d1 else d0)) as Hb by (by intros []).
  unfold tame, meaning. destruct (body x) as [v|v|l|s|s|s|f|p|p|s]; try done; intros Hx HD.
  - by case_decide.
  - destruct Hx as [f Hf]. rewrite <- (fits_value_in l f m Hf).
    eapply (ObjectLookup.sum_value _ f m _ 0); [apply Hf|]. rewrite app_nil_r. apply ObjectLookup.foldr_sum.
  - destruct (largest_spec D (elements (children x))) as [(c & _ & ->) _]; [|auto|auto].
    intros E. apply Hx. by apply elements_empty_inv in E; apply leibniz_equiv.
  - unfold AnyPositive.computeResult. by case_decide.
  - destruct (Transform.getOnlyChild (children x)); [|by destruct f].
    destruct f; try done; apply Hb.
Qed.

Lemma tame_canonical l g m :
  (∀ e x, g !! e = Some x → tame (dom m) x) → canonical l g m.
Proof.
  intros Hg. assert (∀ c, canon (default d0 (scratch l g m !! c))) as Hs.
  { induction l as [|e l IH]; intros c; simpl; [by rewrite lookup_empty|].
    destruct (g !! e) as [x|] eqn:Ex; [|apply IH]. rewrite lookup_insert. case_decide; [|apply IH].
    apply tame_canon; [by apply (Hg e)|apply IH]. }
  intros n _. apply Hs.
Qed.

End build.
End ExpressionGraphs.
