(* ===== verification/Parallel.v ===== *)
(** * Batched parallel evaluation

    [CoroUtils::parallelMapReduceAllPairs] and the batching of
    [runEachAndGetAccumulatedWithBatching] (common/CoroUtils.h): the pairs of two
    sequences are numbered, cut into as many consecutive batches as there are
    threads, and the results of the batches are merged as they finish. *)

From S2P Require Import Prelude.

Module CoroUtils.

(** ** Batches *)

Definition numBatches (numThreads total : nat) : nat := Nat.min numThreads total.

Definition itemsInBatch (total batches batchIdx : nat) : nat :=
  (total / batches + (if (batchIdx <? total mod batches)%nat then 1 else 0))%nat.

Definition startIdx (total batches batchIdx : nat) : nat :=
  (batchIdx * (total / batches) + Nat.min batchIdx (total mod batches))%nat.

(** The indexes of the items of one batch. *)
Definition batch (total batches batchIdx : nat) : list nat :=
  seq (startIdx total batches batchIdx) (itemsInBatch total batches batchIdx).

Lemma startIdx_next total batches b :
  startIdx total batches (S b) = (startIdx total batches b + itemsInBatch total batches b)%nat.
Proof.
  unfold startIdx, itemsInBatch. destruct (Nat.ltb_spec b (total mod batches)); lia.
Qed.

Lemma startIdx_end total batches : batches ≠ 0%nat → startIdx total batches batches = total.
Proof.
  intros Hb. unfold startIdx. pose proof (Nat.mod_upper_bound total batches Hb).
  pose proof (Nat.div_mod total batches Hb). lia.
Qed.

Lemma batches_prefix total batches n :
  seq 0 n ≫= batch total batches = seq 0 (startIdx total batches n).
Proof.
  induction n as [|n IH]; [done|].
  rewrite seq_S, bind_app, IH, startIdx_next, seq_app. simpl. by rewrite app_nil_r.
Qed.

(** The batches are consecutive and together hold every index exactly once. *)
Lemma batches_partition total batches :
  batches ≠ 0%nat → seq 0 batches ≫= batch total batches = seq 0 total.
Proof. intros Hb. by rewrite batches_prefix, startIdx_end. Qed.

(** Their sizes differ by at most one. *)
Lemma batches_balanced total batches b1 b2 :
  (itemsInBatch total batches b1 ≤ S (itemsInBatch total batches b2))%nat.
Proof. unfold itemsInBatch. destruct (_ <? _)%nat, (_ <? _)%nat; lia. Qed.

Section mapreduce.
Context {A B R : Type}.
Context (workFunc : A → B → result R) (accumulateFunc : R → R → result R) (initResult : R).

(** [accumulateFunc(result, workFunc(a, b))] *)
Definition accumulate_pair (acc : R) (p : A * B) : result R :=
  r ← workFunc p.1 p.2; accumulateFunc acc r.

(** [vec1[pairIdx / vec2.size()]] and [vec2[pairIdx % vec2.size()]] *)
Definition pair_at (vec1 : list A) (vec2 : list B) (pairIdx : nat) : option (A * B) :=
  a ← vec1 !! (pairIdx / length vec2)%nat; b ← vec2 !! (pairIdx mod length vec2)%nat; Some (a, b).

Definition run_batch (vec1 : list A) (vec2 : list B) (idxs : list nat) : result R :=
  foldM (λ acc i,
    match pair_at vec1 vec2 i with
    | Some p => accumulate_pair acc p
    | None => Throw (undefined_behaviour "vector access out of bounds")
    end) initResult idxs.

(** The nested loops of the serial case. *)
Definition all_pairs (vec1 : list A) (vec2 : list B) : list (A * B) :=
  vec1 ≫= λ a, (λ b, (a, b)) <$> vec2.

(** [numThreads] is what [canUseExistingExecutor] returns; [order n] is the order
    in which [n] batches finish. *)
Definition parallelMapReduceAllPairs (numThreads : option nat) (order : nat → list nat)
    (vec1 : list A) (vec2 : list B) : result R :=
  let totalPairs := (length vec1 * length vec2)%nat in
  if (totalPairs =? 0)%nat then Ok initResult
  else match numThreads with
  | None => foldM accumulate_pair initResult (all_pairs vec1 vec2)
  | Some n =>
      let batches := numBatches n totalPairs in
      foldM (λ final b,
        r ← run_batch vec1 vec2 (batch totalPairs batches b);
        accumulateFunc final r) initResult (order batches)
  end.

(** ** Every pair is handled once *)

Lemma all_pairs_elem vec1 vec2 a b : (a, b) ∈ all_pairs vec1 vec2 ↔ a ∈ vec1 ∧ b ∈ vec2.
Proof.
  clear workFunc accumulateFunc initResult.
  unfold all_pairs. rewrite list_elem_of_bind. setoid_rewrite list_elem_of_fmap. naive_solver.
Qed.

Lemma length_all_pairs vec1 vec2 : length (all_pairs vec1 vec2) = (length vec1 * length vec2)%nat.
Proof.
  unfold all_pairs. induction vec1 as [|a vec1 IH]; [done|].
  rewrite bind_cons, length_app, IH, length_fmap. simpl. lia.
Qed.

Lemma pair_at_spec vec1 vec2 i :
  (i < length vec1 * length vec2)%nat → pair_at vec1 vec2 i = all_pairs vec1 vec2 !! i.
Proof.
  unfold all_pairs. revert i. induction vec1 as [|a vec1 IH]; intros i Hi; simpl in Hi; [lia|].
  assert (length vec2 ≠ 0)%nat as Hn by lia. rewrite bind_cons. unfold pair_at in *.
  destruct (decide (i < length vec2)%nat) as [Hl|Hl].
  - rewrite lookup_app_l by (by rewrite length_fmap).
    rewrite Nat.div_small, Nat.mod_small, list_lookup_fmap by done. simpl.
    by destruct (vec2 !! i).
  - rewrite lookup_app_r by (rewrite length_fmap; lia). rewrite length_fmap, <- IH by lia.
    assert ((i / length vec2)%nat = S ((i - length vec2) / length vec2)%nat) as ->.
    { replace i with (i - length vec2 + 1 * length vec2)%nat at 1 by lia.
      rewrite Nat.div_add by done. lia. }
    assert ((i mod length vec2)%nat = ((i - length vec2) mod length vec2)%nat) as ->.
    { replace i with (i - length vec2 + 1 * length vec2)%nat at 1 by lia.
      by rewrite Nat.Div0.mod_add. }
    done.
Qed.

(** A batch runs over a slice of the pairs. *)
Lemma run_batch_spec vec1 vec2 start n :
  (start + n ≤ length vec1 * length vec2)%nat →
  run_batch vec1 vec2 (seq start n) =
  foldM accumulate_pair initResult (take n (drop start (all_pairs vec1 vec2))).
Proof.
  unfold run_batch. generalize initResult as acc. revert start.
  induction n as [|n IH]; intros start acc Hn; [done|].
  cbn [seq foldM]. rewrite pair_at_spec by lia.
  destruct (lookup_lt_is_Some_2 (all_pairs vec1 vec2) start) as [p Hp];
    [rewrite length_all_pairs; lia|].
  rewrite Hp, (drop_S _ p) by done. cbn [take foldM].
  destruct (accumulate_pair acc p) as [acc'|]; [|done]. cbn [mbind result_bind].
  apply IH. lia.
Qed.

Lemma batch_range total batches b :
  (b < batches)%nat → (startIdx total batches b + itemsInBatch total batches b ≤ total)%nat.
Proof.
  intros Hb. rewrite <- startIdx_next. rewrite <- (startIdx_end total batches) at 2 by lia.
  assert (∀ m, (S b + m ≤ batches)%nat →
    (startIdx total batches (S b) ≤ startIdx total batches (S b + m))%nat) as Hm.
  { induction m as [|m IH]; intros Hm; [by rewrite Nat.add_0_r|].
    rewrite Nat.add_succ_r, (startIdx_next _ _ (S b + m)). lia. }
  specialize (Hm (batches - S b)%nat). replace (S b + (batches - S b))%nat with batches in Hm by lia.
  lia.
Qed.

(** The pairs of one batch. *)
Definition batch_pairs (vec1 : list A) (vec2 : list B) (batches b : nat) : list (A * B) :=
  let total := (length vec1 * length vec2)%nat in
  take (itemsInBatch total batches b) (drop (startIdx total batches b) (all_pairs vec1 vec2)).

Lemma batch_pairs_elem vec1 vec2 batches p :
  batches ≠ 0%nat →
  p ∈ all_pairs vec1 vec2 ↔ ∃ b, (b < batches)%nat ∧ p ∈ batch_pairs vec1 vec2 batches b.
Proof.
  intros Hb. set (total := (length vec1 * length vec2)%nat).
  split.
  - intros (i & Hi)%list_elem_of_lookup.
    assert (i ∈ seq 0 batches ≫= batch total batches) as Hin.
    { rewrite batches_partition by done. apply elem_of_seq. apply lookup_lt_Some in Hi.
      rewrite length_all_pairs in Hi. fold total in Hi. lia. }
    apply list_elem_of_bind in Hin as (b & Hib & Hbs%elem_of_seq). exists b. split; [lia|].
    unfold batch in Hib. apply elem_of_seq in Hib. unfold batch_pairs. fold total.
    apply list_elem_of_lookup. exists (i - startIdx total batches b)%nat.
    rewrite lookup_take_lt, lookup_drop by lia. rewrite <- Hi. f_equal. lia.
  - intros (b & _ & Hp). unfold batch_pairs in Hp. apply list_elem_of_lookup in Hp as (i & Hi).
    apply lookup_take_Some in Hi as [Hi _]. rewrite lookup_drop in Hi.
    by eapply list_elem_of_lookup_2.
Qed.

(** The slices, one after the other, are all the pairs. *)
Lemma batch_pairs_concat vec1 vec2 batches :
  batches ≠ 0%nat → seq 0 batches ≫= batch_pairs vec1 vec2 batches = all_pairs vec1 vec2.
Proof.
  intros Hb. set (total := (length vec1 * length vec2)%nat).
  assert (∀ n, seq 0 n ≫= batch_pairs vec1 vec2 batches =
    take (startIdx total batches n) (all_pairs vec1 vec2)) as Hp.
  { induction n as [|n IH]; [done|].
    rewrite seq_S, bind_app, IH, startIdx_next, bind_cons. cbn [mbind list_bind plus].
    rewrite app_nil_r. unfold batch_pairs. fold total. by rewrite take_take_drop. }
  rewrite Hp, startIdx_end by done. apply take_ge. by rewrite length_all_pairs.
Qed.

(** ** The serial and the parallel result agree *)
Section reduce.
Context (work : A → B → R) (op : R → R → R).
Context (Hwork : ∀ a b, workFunc a b = Ok (work a b)).
Context (Hacc : ∀ x y, accumulateFunc x y = Ok (op x y)).
Context `{!Comm (=) op, !Assoc (=) op, !LeftId (=) initResult op}.

Definition reduce (l : list (A * B)) : R := foldr (λ p acc, op (work p.1 p.2) acc) initResult l.

Lemma reduce_app l1 l2 : reduce (l1 ++ l2) = op (reduce l1) (reduce l2).
Proof using All.
  unfold reduce. induction l1 as [|p l1 IH]; simpl; [by rewrite (left_id initResult op)|].
  by rewrite IH, (assoc op).
Qed.

Lemma accumulate_reduce l : ∀ acc, foldM accumulate_pair acc l = Ok (op acc (reduce l)).
Proof using All.
  induction l as [|p l IH]; intros acc; cbn [foldM reduce foldr].
  - by rewrite (comm op), (left_id initResult op).
  - assert (accumulate_pair acc p = Ok (op acc (work p.1 p.2))) as ->
      by (unfold accumulate_pair; by rewrite Hwork, <- Hacc).
    cbn [mbind result_bind]. by rewrite IH, (assoc op).
Qed.

Lemma batches_reduce vec1 vec2 batches bs : ∀ acc,
  Forall (λ b, (b < batches)%nat) bs →
  foldM (λ final b,
    r ← run_batch vec1 vec2 (batch (length vec1 * length vec2) batches b);
    accumulateFunc final r) acc bs =
  Ok (op acc (reduce (bs ≫= batch_pairs vec1 vec2 batches))).
Proof using All.
  induction bs as [|b bs IH]; intros acc Hbs; cbn [foldM].
  - cbn. by rewrite (comm op), (left_id initResult op).
  - inversion_clear Hbs. unfold batch. rewrite run_batch_spec by (by apply batch_range).
    fold (batch_pairs vec1 vec2 batches b). rewrite accumulate_reduce. cbn [mbind result_bind].
    rewrite Hacc. cbn [mbind result_bind]. rewrite IH by done.
    by rewrite bind_cons, reduce_app, (left_id initResult op), (assoc op).
Qed.

#[local] Instance reduce_perm : Proper ((≡ₚ) ==> (=)) reduce.
Proof using All.
  intros l1 l2 Hl. unfold reduce. apply (foldr_permutation (=) _ initResult); [|done].
  intros _ p1 _ p2 y _ _ _. by rewrite !(assoc op), (comm op (work p1.1 p1.2)).
Qed.

Lemma parallel_reduce numThreads order vec1 vec2 :
  numThreads ≠ Some 0%nat → (∀ n, order n ≡ₚ seq 0 n) →
  parallelMapReduceAllPairs numThreads order vec1 vec2 = Ok (reduce (all_pairs vec1 vec2)).
Proof using All.
  intros Hn Ho. unfold parallelMapReduceAllPairs.
  destruct (Nat.eqb_spec (length vec1 * length vec2) 0) as [E|E].
  { assert (all_pairs vec1 vec2 = []) as -> by (apply length_zero_iff_nil; by rewrite length_all_pairs).
    done. }
  destruct numThreads as [n|]; [|by rewrite accumulate_reduce, (left_id initResult op)].
  set (batches := numBatches n _).
  assert (batches ≠ 0%nat) as Hb.
  { unfold batches, numBatches. assert (n ≠ 0%nat) by congruence. lia. }
  rewrite batches_reduce by (rewrite Ho; apply Forall_forall; intros b Hin%elem_of_seq; lia).
  rewrite (left_id initResult op). f_equal. rewrite <- (batch_pairs_concat vec1 vec2 batches Hb).
  apply reduce_perm. by rewrite Ho.
Qed.
End reduce.
End mapreduce.
End CoroUtils.
