(* ===== verification/SingleMove.v ===== *)
(** * Single moves

    [AsyncSingleMovesMoveType::findBestMove] and [SingleMoveType]
    (solver/moves): every object of the hot container, one per equivalence set,
    is tried on every accepting container, in parallel; the best result is kept.
    The file shows that this move type keeps the promise the search loop asks
    for and that its result is the best candidate whatever the threads do. *)

From S2P Require Import Prelude Double Precision ObjectiveValue ChangeSet ObjectStore.
From S2P Require Import Assignment EntityAttributes Objective Problem Moves LocalSearch.
From S2P Require Import EquivalenceSets Bits Parallel.

(** What the move type reads besides the problem: the containers and their
    roles, the filter, the equivalence sets, the number of threads, the order in
    which the batches of a call finish and the time elapsed when a pair is
    reached. *)
Record SingleMoveEnv := {
  all_containers : list Z;                              (* problem.containers *)
  not_accepting_containers : gset Z;
  invalidMoveFilter : option InvalidMoveFilter.t;
  equivalence : Z → result Z;                           (* getEquivalenceSets().at *)
  numThreads : option nat;
  schedule : nat → nat → list nat;
  elapsed : nat → Z → Z → double
}.

Module SingleMoveType.
Section single.
Context `{G : ExpressionGraph} `{HO : HashOrder} {A : Type} `{EA : EntityAttributes A}.
Context (hash : Z → Z → Z → Z).

Definition exploreFromAllSingleMoves (env : SingleMoveEnv) (ev : MovesEvaluator.t)
    (p : Problem.t A) (hotContainer hotObject coldContainer : Z) : result MoveResult.t :=
  invalid ← InvalidMoveFilter.isMoveInvalid (invalidMoveFilter env) hotObject coldContainer;
  if (invalid : bool) then Ok MoveResult.makeEmpty
  else MovesEvaluator.evaluate ev p [makeMove hash hotObject hotContainer coldContainer].

(** [getAcceptingContainersCheckFunc] *)
Definition accepting (env : SingleMoveEnv) (hotContainer container : Z) : bool :=
  negb (container =? hotContainer)
  && negb (bool_decide (container ∈ not_accepting_containers env)).

Definition attemptMoveWithThisObject (p : Problem.t A) (o : Z) : bool :=
  negb (bool_decide (o ∈ Problem.fixed_objects p)).

(** The work function of the parallel loop. *)
Definition work (env : SingleMoveEnv) (ev : MovesEvaluator.t) (p : Problem.t A) (call : nat)
    (hotContainer : Z) (timeLimit : double) (hotObject coldContainer : Z) : result MoveResult.t :=
  if (timeLimit <=? elapsed env call hotObject coldContainer)%D then Ok MoveResult.makeEmpty
  else exploreFromAllSingleMoves env ev p hotContainer hotObject coldContainer.

Definition findBestMoveOfHotObjects (env : SingleMoveEnv) (ev : MovesEvaluator.t)
    (p : Problem.t A) (call : nat) (hotContainer : Z) (timeLimit : double)
    (customColdContainers : option (list Z)) (hotObjects : list Z) : result MoveResult.t :=
  let filteredObjects := filter (λ o, attemptMoveWithThisObject p o = true) hotObjects in
  let filteredContainers := filter (λ c, accepting env hotContainer c = true)
    (default (all_containers env) customColdContainers) in
  CoroUtils.parallelMapReduceAllPairs (work env ev p call hotContainer timeLimit)
    MoveResult.aggregate MoveResult.makeEmpty (numThreads env) (schedule env call)
    filteredObjects filteredContainers.

(** The hot objects come from the index of the assignment or from the deduper. *)
Definition findBestMove (usesEquivalenceIndex : bool) (es : EquivalenceSetsView)
    (env : SingleMoveEnv) (ev : MovesEvaluator.t) (p : Problem.t A) (call : nat)
    (hotContainer : Z) (timeLimit : double) (custom : option (list Z)) : result MoveResult.t :=
  hotObjects ← (if usesEquivalenceIndex
                then Assignment.getDistinctObjectsFromEquivSetIdx (Problem.assignment p)
                       hotContainer es
                else ObjectDeduper.objects (equivalence env)
                       (Assignment.getDynamicObjects (Problem.assignment p) hotContainer));
  findBestMoveOfHotObjects env ev p call hotContainer timeLimit custom hotObjects.

(** ** Merging over a schedule *)
Section schedule.
Context (F : list double → Prop) (n : nat) (pen : bool) (k : nat).
Context (HF : ∀ l1 l2, F l1 → F l2 → GlobalObjectiveValue.agree l1 l2 → length l1 = length l2).

Abbreviation mergeable := (λ r, MoveResult.comparable F n pen r ∧ MoveResult.arbiter_comparable k r).
Abbreviation values r :=
  (GlobalObjectiveValue.values (LocalSearchObjectiveValue.combinedValue (MoveResult.newValue_ r))).

(** The result of a loop: the start value or one of the results, up to the count
    of evaluations. *)
Definition chosen (rs : list MoveResult.t) (best : MoveResult.t) : Prop :=
  ∃ x, (x = MoveResult.makeEmpty ∨ x ∈ rs) ∧
    best = MoveResult.take_best x x (MoveResult.evalsCount_ best).

Lemma makeEmpty_mergeable : mergeable MoveResult.makeEmpty.
Proof. split; [split; [constructor|by left]|]. intros a [=]. Qed.

Lemma aggregate_loop rs :
  Forall mergeable rs →
  ∃ best, MoveResult.aggregateAll MoveResult.makeEmpty rs = Ok best ∧ chosen rs best ∧
    mergeable best ∧ ∀ r, r ∈ rs → ¬ MoveResult.lt (values r) (values best).
Proof.
  intros Hrs. destruct makeEmpty_mergeable as [E1 E2].
  destruct (MoveResult.aggregateAll_spec F n pen k HF rs MoveResult.makeEmpty E1 E2)
    as (best & E & Hx & Hc & Ha & _ & _ & Hbest);
    [eapply Forall_impl; [exact Hrs|by intros r []]..|].
  exists best. by split_and!.
Qed.

Context {X Y : Type} (f : X → Y → result MoveResult.t) (w : X → Y → MoveResult.t).
Context (v1 : list X) (v2 : list Y).
Context (Hf : ∀ x y, x ∈ v1 → y ∈ v2 → f x y = Ok (w x y) ∧ mergeable (w x y)).

Lemma pairs_loop l : ∀ acc,
  (∀ q, q ∈ l → q ∈ CoroUtils.all_pairs v1 v2) →
  foldM (CoroUtils.accumulate_pair f MoveResult.aggregate) acc l =
  MoveResult.aggregateAll acc ((λ q, w q.1 q.2) <$> l).
Proof.
  induction l as [|[x y] l IH]; intros acc Hl; [done|].
  destruct (proj1 (CoroUtils.all_pairs_elem v1 v2 x y)) as [H1 H2]; [apply Hl; set_solver|].
  assert (CoroUtils.accumulate_pair f MoveResult.aggregate acc (x, y) =
    MoveResult.aggregate acc (w x y)) as E
    by (unfold CoroUtils.accumulate_pair; simpl; by rewrite (proj1 (Hf x y H1 H2))).
  unfold MoveResult.aggregateAll in *. rewrite fmap_cons. cbn [foldM fst snd]. rewrite E.
  destruct (MoveResult.aggregate acc (w x y)); [|done]. cbn [mbind result_bind].
  apply IH. set_solver.
Qed.

Lemma pairs_mergeable l :
  (∀ q, q ∈ l → q ∈ CoroUtils.all_pairs v1 v2) →
  Forall mergeable ((λ q, w q.1 q.2) <$> l).
Proof.
  intros Hl. apply Forall_fmap, Forall_forall. intros [x y] Hq.
  destruct (proj1 (CoroUtils.all_pairs_elem v1 v2 x y)) as [H1 H2]; [by apply Hl|]. by apply (Hf x y).
Qed.

Abbreviation run_batch batches b :=
  (CoroUtils.run_batch f MoveResult.aggregate MoveResult.makeEmpty v1 v2
     (CoroUtils.batch (length v1 * length v2) batches b)).

(** What one batch returns. *)
Lemma batch_best batches b : (b < batches)%nat →
  ∃ r, run_batch batches b = Ok r ∧ mergeable r ∧
    chosen ((λ q, w q.1 q.2) <$> CoroUtils.all_pairs v1 v2) r ∧
    ∀ q, q ∈ CoroUtils.batch_pairs v1 v2 batches b →
      ¬ MoveResult.lt (values (w q.1 q.2)) (values r).
Proof.
  intros Hb.
  assert (∀ q, q ∈ CoroUtils.batch_pairs v1 v2 batches b → q ∈ CoroUtils.all_pairs v1 v2) as Hsub
    by (intros q Hq; apply (CoroUtils.batch_pairs_elem v1 v2 batches); [lia|eauto]).
  destruct (aggregate_loop _ (pairs_mergeable _ Hsub)) as (r & Er & (x & Hx & Ex) & Hm & Hbest).
  unfold CoroUtils.batch. rewrite CoroUtils.run_batch_spec by (by apply CoroUtils.batch_range).
  fold (CoroUtils.batch_pairs v1 v2 batches b). rewrite pairs_loop by exact Hsub.
  exists r. split; [done|]. split; [done|]. split.
  - exists x. split; [|done]. destruct Hx as [?|(q & -> & Hq)%list_elem_of_fmap]; [by left|right].
    apply list_elem_of_fmap. eauto.
  - intros q Hq. apply Hbest, list_elem_of_fmap. eauto.
Qed.

Lemma merge_loop {I} (g : I → result MoveResult.t) order rs : ∀ acc,
  Forall2 (λ b r, g b = Ok r) order rs →
  foldM (λ final b, r ← g b; MoveResult.aggregate final r) acc order =
  MoveResult.aggregateAll acc rs.
Proof.
  unfold MoveResult.aggregateAll. intros acc Hrs. revert acc.
  induction Hrs as [|b r order rs E _ IH]; intros acc; [done|]. cbn [foldM]. rewrite E.
  cbn [mbind result_bind]. destruct (MoveResult.aggregate acc r); [apply IH|done].
Qed.

(** Whatever the number of threads and the order in which they finish, the loop
    returns one of the results, and none of them is strictly better. *)
Lemma parallel_best threads order :
  (∀ m, threads = Some m → (0 < m)%nat) →
  (∀ b, order b ≡ₚ seq 0 b) →
  ∃ best, CoroUtils.parallelMapReduceAllPairs f MoveResult.aggregate MoveResult.makeEmpty
      threads order v1 v2 = Ok best ∧
    chosen ((λ q, w q.1 q.2) <$> CoroUtils.all_pairs v1 v2) best ∧ mergeable best ∧
    ∀ x y, x ∈ v1 → y ∈ v2 → ¬ MoveResult.lt (values (w x y)) (values best).
Proof.
  intros Hpos Hord. unfold CoroUtils.parallelMapReduceAllPairs.
  destruct (Nat.eqb_spec (length v1 * length v2) 0) as [E0|Hn0].
  { exists MoveResult.makeEmpty. split; [done|]. split; [exists MoveResult.makeEmpty; auto|].
    split; [apply makeEmpty_mergeable|]. intros x y (i & Hi%lookup_lt_Some)%list_elem_of_lookup
      (j & Hj%lookup_lt_Some)%list_elem_of_lookup. destruct (length v1), (length v2); lia. }
  destruct threads as [m|].
  - specialize (Hpos m eq_refl).
    set (batches := CoroUtils.numBatches m (length v1 * length v2)) in *.
    specialize (Hord batches).
    assert (0 < batches)%nat as Hb by (unfold batches, CoroUtils.numBatches; lia).
    assert (∃ rs, Forall2 (λ b r, run_batch batches b = Ok r ∧ mergeable r ∧
        chosen ((λ q, w q.1 q.2) <$> CoroUtils.all_pairs v1 v2) r ∧
        ∀ q, q ∈ CoroUtils.batch_pairs v1 v2 batches b →
          ¬ MoveResult.lt (values (w q.1 q.2)) (values r)) (order batches) rs) as [rs Hrs].
    { apply Forall_exists_Forall2_l. rewrite Hord. apply Forall_forall.
      intros b Hin%elem_of_seq. apply batch_best. lia. }
    rewrite (merge_loop _ (order batches) rs) by (eapply Forall2_impl; [exact Hrs|]; by intros b r (E & _)).
    destruct (aggregate_loop rs) as (best & -> & (x & Hx & Ex) & Hm & Hbest).
    { eapply Forall2_Forall_r; [exact Hrs|]. apply Forall_forall. by intros b _ r (_ & Hr & _). }
    exists best. split; [done|]. split; [|split; [done|]].
    + destruct Hx as [-> |Hx]; [exists MoveResult.makeEmpty; auto|].
      apply list_elem_of_lookup in Hx as (i & Hi).
      destruct (Forall2_lookup_r _ _ _ _ _ Hrs Hi) as (b & _ & _ & _ & (z & Hz & Ez) & _).
      exists z. split; [done|]. rewrite Ex. by rewrite Ez.
    + intros a b Ha Hb'. assert ((a, b) ∈ CoroUtils.all_pairs v1 v2) as Hab by (by apply CoroUtils.all_pairs_elem).
      apply (CoroUtils.batch_pairs_elem v1 v2 batches) in Hab as (i & Hi & Hq); [|lia].
      assert (i ∈ order batches) as (j & Hj)%list_elem_of_lookup by (rewrite Hord; apply elem_of_seq; lia).
      destruct (Forall2_lookup_l _ _ _ _ _ Hrs Hj) as (r & Hr & _ & Hmr & _ & Hlt).
      specialize (Hlt _ Hq). specialize (Hbest r (list_elem_of_lookup_2 _ _ _ Hr)). intros Hl.
      eapply (MoveResult.lt_cotrans F HF _ (values r)) in Hl as [?|?]; [done|done| |];
        eapply MoveResult.comparable_family; [by apply (Hf a b)|apply Hmr].
  - rewrite pairs_loop by done. destruct (aggregate_loop _ (pairs_mergeable (CoroUtils.all_pairs v1 v2)
      ltac:(done))) as (best & -> & Hch & Hm & Hbest).
    exists best. split; [done|]. split; [done|]. split; [done|]. intros x y Hx Hy. apply Hbest.
    apply list_elem_of_fmap. exists (x, y). split; [done|]. by apply CoroUtils.all_pairs_elem.
Qed.
End schedule.

(** ** Evaluation of a candidate *)

Lemma anyPositive_ok p cs l :
  (∀ e, e ∈ l → ∃ v, expr_evaluate (Problem.graph p) cs e = Ok v) →
  ∃ b, MovesEvaluator.anyPositive (A:=A) p cs l = Ok b.
Proof.
  induction l as [|e l IH]; intros Hl; simpl; [eauto|]. unfold MovesEvaluator.isPositiveExpr.
  destruct (Hl e) as [v ->]; [set_solver|]. cbn [mbind result_bind].
  destruct (Precision.isStrictlyGtZero _ v); [eauto|]. apply IH. set_solver.
Qed.

Lemma firstWorse_ok p cs d l : ∀ pos,
  (∀ e, e ∈ l → ∃ v, expr_evaluate (Problem.graph p) cs e = Ok v) →
  ∃ o, MovesEvaluator.firstWorse_loop (A:=A) p cs d pos l = Ok o.
Proof.
  induction l as [|e l IH]; intros pos Hl; simpl; [eauto|].
  destruct (Hl e) as [v ->]; [set_solver|]. cbn [mbind result_bind].
  destruct (MovesEvaluator.exceedsAllowedWorsening _ _ _ _ v); [eauto|]. apply IH. set_solver.
Qed.

(** A tuple that may have been cut short against the current, complete one. *)
Lemma cut_comparisons_ok l olds pen prec :
  (length l ≤ length olds)%nat →
  let v := LocalSearchObjectiveValue.mk (GlobalObjectiveValue.mk l (Some (length olds))) pen in
  let c := LocalSearchObjectiveValue.mk (GlobalObjectiveValue.mk olds None) pen in
  (∃ x, LocalSearchObjectiveValue.unsafeCompare v c = Ok x) ∧
  (∃ b, LocalSearchObjectiveValue.isStrictlyBetter v c prec = Ok b).
Proof.
  intros Hl. cbn zeta.
  unfold LocalSearchObjectiveValue.unsafeCompare, LocalSearchObjectiveValue.isStrictlyBetter,
    LocalSearchObjectiveValue.validateCompatible, GlobalObjectiveValue.unsafeCompare,
    GlobalObjectiveValue.isStrictlyBetter, GlobalObjectiveValue.isPartial, GlobalObjectiveValue.size.
  simpl. rewrite eqb_reflx, andb_false_r. cbn [mbind result_bind].
  destruct (length l =? 0)%nat; [destruct (length olds =? 0)%nat; split; eauto|].
  destruct (length olds =? 0)%nat; [split; eauto|].
  destruct (Nat.eqb_spec (length olds) (length l)) as [E|E]; simpl; [|split; eauto].
  rewrite E, Nat.eqb_refl. simpl. split; eauto.
Qed.

Section evaluation.
Context (ev : MovesEvaluator.t) (p : Problem.t A) (ms : list Move).
Abbreviation cs := (MoveSet_getChangeSet ms).
Abbreviation goal :=
  (LocalSearchObjective.combinedObjective (MovesEvaluator.minimizingGoal ev)).
Abbreviation olds := (expr_value (Problem.graph p) <$> goal).

(** The tuples an evaluation of the goal can return. *)
Definition outcomes (l : list double) : Prop :=
  ∃ news, Forall fin news ∧ length news = length olds ∧
    l = GlobalObjective.cut false olds news.

(** The positions of the objective a value of the goal spans. *)
Definition tuple_size : nat :=
  if LocalSearchObjective.hasPenalty (MovesEvaluator.minimizingGoal ev)
  then ((length goal + 1) / 2)%nat else length goal.

(** If statistics of moves are collected, every position has its labeled objectives. *)
Definition stats_ok : Prop :=
  MovesEvaluator.shouldCollectMoveStats p = true →
  0 ≤ MovesEvaluator.objTupleBegin ev ∧
  MovesEvaluator.objTupleBegin ev + Z.of_nat tuple_size ≤ Z.of_nat (length (Problem.labeledObjectives p)) ∧
  (length (Problem.objective p) ≤ length (Problem.labeledObjectives p))%nat.

Definition arbiter_size : nat :=
  match MovesEvaluator.arbiterGoal ev with Some ag => length ag | None => 0%nat end.

Lemma outcomes_prefix_free l1 l2 : Forall fin olds →
  outcomes l1 → outcomes l2 → GlobalObjectiveValue.agree l1 l2 → length l1 = length l2.
Proof.
  intros Ho (n1 & F1 & L1 & ->) (n2 & F2 & L2 & ->). by apply GlobalObjective.cut_prefix_free.
Qed.


Context `{LG : !LawfulGraph G} `{EG : !EvaluableGraph G}.
Context (Hw : Problem.wf p) (Hl : Problem.legal hash p ms).
Context (Hstats : stats_ok).
Context (Hcur : Forall fin olds).
Context (Hnew : ∀ e v, e ∈ goal → expr_evaluate (Problem.graph p) cs e = Ok v → fin v).

Lemma evaluates e : ∃ v, expr_evaluate (Problem.graph p) cs e = Ok v.
Proof. eapply graph_evaluate; [apply Hw|apply Hl|apply Hl]. Qed.

(** The value of an expression after the moves. *)
Definition value_after (e : Z) : double :=
  match expr_evaluate (Problem.graph p) cs e with Ok v => v | Throw _ => d0 end.

Lemma value_after_spec e : expr_evaluate (Problem.graph p) cs e = Ok (value_after e).
Proof. unfold value_after. by destruct (evaluates e) as [v ->]. Qed.

(** The goal evaluated with its early exit. *)
Lemma goal_value : ∃ l,
  LocalSearchObjective.evaluate (Problem.graph p) cs (MovesEvaluator.minimizingGoal ev) false =
    Ok (LocalSearchObjectiveValue.mk (GlobalObjectiveValue.mk l (Some (length olds)))
          (LocalSearchObjective.hasPenalty (MovesEvaluator.minimizingGoal ev))) ∧
  outcomes l ∧ Forall fin l ∧ (length l ≤ length olds)%nat.
Proof.
  assert (Forall fin (value_after <$> goal)) as Hf.
  { apply Forall_fmap, Forall_forall. intros e He. eapply Hnew; [done|]. apply value_after_spec. }
  exists (GlobalObjective.cut false olds (value_after <$> goal)).
  unfold LocalSearchObjective.evaluate.
  rewrite (GlobalObjective.evaluate_cut _ _ value_after) by (intros; apply value_after_spec).
  cbn [mbind result_bind]. rewrite !length_fmap. split; [done|]. split.
  - exists (value_after <$> goal). split; [done|]. split; [by rewrite !length_fmap|done].
  - destruct (GlobalObjective.cut_take olds false (value_after <$> goal)) as (k & Hk & ->);
      [by rewrite !length_fmap|].
    split; [by apply Forall_take|]. rewrite length_take, length_fmap. rewrite length_fmap in Hk. lia.
Qed.

Lemma at_pos_ok {T} (l : list T) i : 0 ≤ i < Z.of_nat (length l) →
  ∃ x, MovesEvaluator.at_pos l i = Ok x.
Proof.
  intros Hi. unfold MovesEvaluator.at_pos. rewrite (proj2 (Z.ltb_ge i 0)) by lia.
  destruct (lookup_lt_is_Some_2 l (Z.to_nat i)) as [x ->]; [lia|]. by exists x.
Qed.

Lemma deltasOf_ok pn exprs : ∃ ds, MovesEvaluator.deltasOf p cs pn exprs = Ok ds.
Proof.
  destruct (foldM_total (λ _, True) (λ acc e,
    v ← expr_evaluate (Problem.graph p) cs e;
    Ok (acc ++ [MoveResult.mkDelta e (expr_value (Problem.graph p) e) v pn])) [] exprs) as (ds & E & _);
    [done| |by exists ds].
  intros a e _ _. rewrite value_after_spec. by eexists.
Qed.

(** The statistics of an evaluation never throw. *)
Lemma getObjectiveDeltas_ok upto :
  upto ≤ MovesEvaluator.objTupleBegin ev + Z.of_nat tuple_size →
  ∃ d, MovesEvaluator.getObjectiveDeltas ev p cs upto = Ok d.
Proof.
  intros Hu. unfold MovesEvaluator.getObjectiveDeltas.
  destruct (MovesEvaluator.shouldCollectMoveStats p) eqn:Es; [|by eexists].
  destruct (Hstats Es) as (H0 & H1 & H2). cbn [negb].
  match goal with |- context [foldM ?f ?a ?l] =>
    destruct (foldM_total (λ _, True) f a l) as (ds & -> & _) end; [done| |by eexists].
  intros acc i Hi%elem_of_seq _. set (all := showAllChangedObjectivesInMovesSummary _) in *.
  set (b := if all then 0 else _) in *. set (e := if all then _ else upto) in *.
  destruct (at_pos_ok (Problem.labeledObjectives p) (b + Z.of_nat i)) as [objs ->].
  { subst b e. destruct all; lia. }
  cbn [mbind result_bind]. destruct (deltasOf_ok false objs) as [d1 ->]. cbn [mbind result_bind].
  destruct (Z.ltb_spec (b + Z.of_nat i) (Z.of_nat (length (Problem.labeledPenalties p)))); [|by eexists].
  destruct (at_pos_ok (Problem.labeledPenalties p) (b + Z.of_nat i)) as [pens ->].
  { subst b. destruct all; lia. }
  cbn [mbind result_bind]. destruct (deltasOf_ok true pens) as [d2 ->]. by eexists.
Qed.

Lemma getFirstInvalidConstraints_ok : ∃ ls, MovesEvaluator.getFirstInvalidConstraints p cs = Ok ls.
Proof.
  unfold MovesEvaluator.getFirstInvalidConstraints.
  destruct (MovesEvaluator.shouldCollectMoveStats p); [|by eexists]. cbn [negb].
  assert (∀ l, ∃ o, MovesEvaluator.firstPositive p cs l = Ok o) as H; [|by destruct (H (Problem.labeledHardConstraints p)) as [o ->]; eexists].
  induction l as [|e l [o IH]]; simpl; [by eexists|]. unfold MovesEvaluator.isPositiveExpr.
  rewrite value_after_spec. cbn [mbind result_bind]. destruct (Precision.isStrictlyGtZero _ _); [by eexists|].
  rewrite IH. by eexists.
Qed.

(** Evaluating a legal move set never throws, and the results of such evaluations
    can be merged. *)
Lemma evaluate_total :
  ∃ r, MovesEvaluator.evaluate ev p ms = Ok r ∧
    MoveResult.comparable outcomes (length olds)
      (LocalSearchObjective.hasPenalty (MovesEvaluator.minimizingGoal ev)) r ∧
    MoveResult.arbiter_comparable arbiter_size r ∧
    ∃ b, MoveResult.isBetter r (Problem.precision p) = Ok b.
Proof.
  unfold MovesEvaluator.evaluate.
  rewrite (proj2 (MovesEvaluator.checkMoves_spec hash p ms) (Problem.legal_current _ _ _ Hl)).
  cbn [mbind result_bind].
  destruct (anyPositive_ok p cs (Problem.labeledHardConstraints p)) as [b ->];
    [intros; apply evaluates|]. cbn [mbind result_bind].
  assert (∀ ls, MoveResult.comparable outcomes (length olds)
      (LocalSearchObjective.hasPenalty (MovesEvaluator.minimizingGoal ev))
      (MoveResult.makeInvalid ms ls)) as Hinv by (intros ls; split; [constructor|by left]).
  destruct b.
  { destruct getFirstInvalidConstraints_ok as [ls ->]. cbn [mbind result_bind].
    eexists. split; [reflexivity|]. split; [done|]. split; [by intros a [=]|]. by exists false. }
  unfold MovesEvaluator.getFirstWorseTuplePos.
  destruct (firstWorse_ok p cs (MovesEvaluator.doNotWorsenGoalConfig ev)
    (MovesEvaluator.goal (MovesEvaluator.doNotWorsenGoalConfig ev)) 0) as [o ->];
    [intros; apply evaluates|]. cbn [mbind result_bind]. destruct o as [pos|].
  { eexists. split; [reflexivity|]. split; [done|]. split; [by intros a [=]|]. by exists false. }
  destruct goal_value as (l & -> & Hout & Hfin & Hlen). cbn [mbind result_bind].
  set (pen := LocalSearchObjective.hasPenalty (MovesEvaluator.minimizingGoal ev)).
  destruct (cut_comparisons_ok l olds pen (Problem.precision p) Hlen) as [(c & Ec) (bb & Eb)].
  unfold LocalSearchObjective.getValue, GlobalObjective.getValue. fold pen. rewrite Ec.
  cbn [mbind result_bind].
  assert (∃ av, (if c <? 0 then
      match MovesEvaluator.arbiterGoal ev with
      | Some ag => v ← GlobalObjective.evaluate (Problem.graph p) cs ag true; Ok (Some v)
      | None => Ok None
      end
    else Ok None) = Ok av ∧
    ∀ a, av = Some a → length (GlobalObjectiveValue.values a) = arbiter_size) as (av & -> & Hav).
  { unfold arbiter_size. destruct (c <? 0); [|by exists None].
    destruct (MovesEvaluator.arbiterGoal ev) as [ag|]; [|by exists None].
    rewrite (GlobalObjective.evaluate_all_spec _ _ value_after) by (intros; apply value_after_spec).
    eexists. split; [done|]. intros a [= <-]. simpl. by rewrite length_fmap. }
  cbn [mbind result_bind].
  match goal with |- context [MovesEvaluator.getObjectiveDeltas ev p cs ?u] =>
    destruct (getObjectiveDeltas_ok u) as [[deltas tupleBegin] ->] end.
  { unfold LocalSearchObjectiveValue.size, GlobalObjectiveValue.size, tuple_size. fold pen.
    cbn [LocalSearchObjectiveValue.hasPenalty LocalSearchObjectiveValue.combinedValue GlobalObjectiveValue.values].
    rewrite length_fmap in Hlen. destruct pen; [|lia].
    apply Z.add_le_mono_l, inj_le, Nat.Div0.div_le_mono. lia. }
  cbn [mbind result_bind]. eexists. split; [reflexivity|]. split; [|split; [done|]].
  - split; [done|]. destruct l as [|x l]; [by left|right]. split; [done|]. split; [done|].
    destruct (decide (length (x :: l) = length olds)) as [E|E]; [by left|right].
    unfold GlobalObjectiveValue.isPartial. simpl. apply negb_true_iff, Nat.eqb_neq. done.
  - exists bb. done.
Qed.
End evaluation.

Lemma stats_ok_config ev (p p' : Problem.t A) : Problem.same_config p p' → stats_ok ev p → stats_ok ev p'.
Proof.
  intros C. unfold stats_ok, MovesEvaluator.shouldCollectMoveStats.
  by rewrite (Problem.cfg_stats _ _ C), (Problem.cfg_labels _ _ C), (Problem.cfg_objective _ _ C).
Qed.

(** ** The promise to the search loop *)
Section promise.
Context `{LG : !LawfulGraph G} `{EG : !EvaluableGraph G} `{SE : !SearchEnv A}.
Context (p0 : Problem.t A) (ps : LocalSearch.Params) (env : SingleMoveEnv) (f : Z → Z).
Abbreviation goal := (LocalSearchObjective.combinedObjective
  (MovesEvaluator.minimizingGoal (LocalSearch.evaluator ps))).
Abbreviation values r :=
  (GlobalObjectiveValue.values (LocalSearchObjectiveValue.combinedValue (MoveResult.newValue_ r))).

(** The surroundings fit the problem: every object has an equivalence set, the
    filter has the dimensions of the problem, every batch finishes once, and the
    values of the goal are finite. *)
Record usable : Prop := {
  us_containers c : c ∈ all_containers env → c ∈ LocalSearch.containers ps;
  us_equivalence o : o ∈ dom (Assignment.objectToContainer (Problem.assignment p0)) →
    equivalence env o = Ok (f o);
  us_filter flt : invalidMoveFilter env = Some flt → InvalidMoveFilter.inv flt ∧
    ∀ o c, o ∈ dom (Assignment.objectToContainer (Problem.assignment p0)) →
      c ∈ all_containers env → InvalidMoveFilter.in_range flt o c;
  us_threads m : numThreads env = Some m → (1 < m)%nat;
  us_schedule call b : schedule env call b ≡ₚ seq 0 b;
  us_stats : stats_ok (LocalSearch.evaluator ps) p0;
  us_current e m : e ∈ goal → fin (denote e m);
  us_new e v g m mv : e ∈ goal → graph_inv g m →
    m !! move_object mv = Some (srcContainer mv) →
    expr_evaluate g (MoveSet_getChangeSet [mv]) e = Ok v → fin v
}.

Definition single (es : EquivalenceSetsView) : LocalSearch.MoveType := {|
  LocalSearch.name := "SINGLE";
  LocalSearch.findBestMove ev p _ call hot limit :=
    findBestMove false es env ev p call hot limit None
|}.

(** The candidates of a call: an object of the hot container that may move, one
    per equivalence set, and an accepting container. *)
Definition candidate (p : Problem.t A) (hot : Z) (hotObjects : list Z) (o c : Z) : Prop :=
  o ∈ hotObjects ∧ o ∉ Problem.fixed_objects p ∧
  c ∈ all_containers env ∧ c ≠ hot ∧ c ∉ not_accepting_containers env.

(** What trying a candidate gives: nothing, when the time is up or the filter
    rules the move out, or the result of the evaluation. *)
Definition tried (p : Problem.t A) (hot o c : Z) (r : MoveResult.t) : Prop :=
  r = MoveResult.makeEmpty ∨
  MovesEvaluator.evaluate (LocalSearch.evaluator ps) p [makeMove hash o hot c] = Ok r.

Section state.
Context (Hu : usable) (p : Problem.t A) (Hw : Problem.wf p) (Hrun : LocalSearch.same_run p0 p).
Context (hot : Z).
Abbreviation ev := (LocalSearch.evaluator ps).
Abbreviation olds := (expr_value (Problem.graph p) <$> goal).
Abbreviation pen := (LocalSearchObjective.hasPenalty (MovesEvaluator.minimizingGoal ev)).

Lemma olds_fin : Forall fin olds.
Proof.
  apply Forall_fmap, Forall_forall. intros e He. simpl.
  rewrite (graph_inv_value _ _ _ (Problem.wf_graph p Hw)). by apply (us_current Hu).
Qed.

Lemma hot_object o : o ∈ Assignment.getDynamicObjects (Problem.assignment p) hot →
  Assignment.objectToContainer (Problem.assignment p) !! o = Some hot ∧
  o ∈ dom (Assignment.objectToContainer (Problem.assignment p0)).
Proof.
  rewrite Assignment.elem_of_getDynamicObjects by apply Hw. intros [E _]. split; [done|].
  destruct Hrun as [_ <-]. by eapply elem_of_dom_2.
Qed.

Lemma move_legal o c :
  Assignment.objectToContainer (Problem.assignment p) !! o = Some hot →
  Problem.legal hash p [makeMove hash o hot c].
Proof.
  intros E. split; [apply NoDup_singleton|by constructor|].
  intros m ->%list_elem_of_singleton. done.
Qed.

(** Trying a pair always gives a result that can be merged. *)
Lemma work_ok call limit o c :
  o ∈ Assignment.getDynamicObjects (Problem.assignment p) hot → c ∈ all_containers env →
  ∃ r, work env ev p call hot limit o c = Ok r ∧ tried p hot o c r ∧
    (MoveResult.comparable (outcomes ev p) (length olds) pen r ∧
     MoveResult.arbiter_comparable (arbiter_size ev) r) ∧
    ∃ b, MoveResult.isBetter r (Problem.precision p) = Ok b.
Proof.
  intros Ho Hc. destruct (hot_object o Ho) as [E Hdom]. unfold work.
  assert (∀ r, r = MoveResult.makeEmpty → tried p hot o c r ∧
    (MoveResult.comparable (outcomes ev p) (length olds) pen r ∧
     MoveResult.arbiter_comparable (arbiter_size ev) r) ∧
    ∃ b, MoveResult.isBetter r (Problem.precision p) = Ok b) as Hempty.
  { intros r ->. split; [by left|]. split; [apply makeEmpty_mergeable|by exists false]. }
  destruct (_ <=? _)%D; [eexists; split; [done|by apply Hempty]|].
  unfold exploreFromAllSingleMoves.
  assert (∃ b, InvalidMoveFilter.isMoveInvalid (invalidMoveFilter env) o c = Ok b) as [b ->].
  { unfold InvalidMoveFilter.isMoveInvalid. destruct (invalidMoveFilter env) as [flt|] eqn:Ef; [|eauto].
    destruct (us_filter Hu flt Ef) as [Hi Hr].
    destruct (InvalidMoveFilter.isMarkedInvalid_spec flt o c Hi) as (b & -> & _); eauto. }
  cbn [mbind result_bind]. destruct b; [eexists; split; [done|by apply Hempty]|].
  destruct (evaluate_total ev p [makeMove hash o hot c] Hw (move_legal o c E)) as (r & Er & Hc1 & Ha & Hb).
  - destruct Hrun as [C _]. eapply stats_ok_config; [exact C|apply Hu].
  - intros e v He Hev. eapply (us_new Hu); [done|apply Hw| |exact Hev]. done.
  - exists r. split; [done|]. split; [by right|]. by split.
Qed.

(** The call returns the result of one candidate or an empty one, and no
    candidate has strictly smaller values. *)
Lemma findBestMove_spec es call limit :
  ∃ hotObjects r, ObjectDeduper.objects (equivalence env)
      (Assignment.getDynamicObjects (Problem.assignment p) hot) = Ok hotObjects ∧
    findBestMove false es env ev p call hot limit None = Ok r ∧
    (∃ x, r = MoveResult.take_best x x (MoveResult.evalsCount_ r) ∧
       (x = MoveResult.makeEmpty ∨
        ∃ o c, candidate p hot hotObjects o c ∧ tried p hot o c x)) ∧
    (∃ b, MoveResult.isBetter r (Problem.precision p) = Ok b) ∧
    ∀ o c x, candidate p hot hotObjects o c → work env ev p call hot limit o c = Ok x →
      ¬ MoveResult.lt (values x) (values r).
Proof.
  destruct (ObjectDeduper.objects_spec (equivalence env) f
    (Assignment.getDynamicObjects (Problem.assignment p) hot)) as (hotObjects & Eo & Hsub & _ & _).
  { intros o Ho. apply (us_equivalence Hu). by apply hot_object. }
  unfold findBestMove. rewrite Eo. cbn [mbind result_bind]. unfold findBestMoveOfHotObjects. simpl.
  set (v1 := filter _ hotObjects). set (v2 := filter _ (all_containers env)).
  assert (∀ o c, o ∈ v1 ∧ c ∈ v2 ↔ candidate p hot hotObjects o c) as Hcand.
  { intros o c. unfold v1, v2, candidate, attemptMoveWithThisObject, accepting.
    rewrite !list_elem_of_filter, andb_true_iff, !negb_true_iff, Z.eqb_neq, !bool_decide_eq_false. tauto. }
  assert (∀ o c, o ∈ v1 → c ∈ v2 → ∃ r, work env ev p call hot limit o c = Ok r ∧
    tried p hot o c r ∧ (MoveResult.comparable (outcomes ev p) (length olds) pen r ∧
     MoveResult.arbiter_comparable (arbiter_size ev) r) ∧
    ∃ b, MoveResult.isBetter r (Problem.precision p) = Ok b) as Hwork.
  { intros o c Ho Hc. apply work_ok.
    - apply list_elem_of_filter in Ho as [_ Ho]. by eapply elem_of_submseteq.
    - by apply list_elem_of_filter in Hc as [_ Hc]. }
  set (w := λ o c, match work env ev p call hot limit o c with
                   | Ok r => r | Throw _ => MoveResult.makeEmpty end).
  destruct (parallel_best (outcomes ev p) (length olds) pen (arbiter_size ev)
    ltac:(intros; apply (outcomes_prefix_free ev p); auto using olds_fin)
    (work env ev p call hot limit) w v1 v2) with (threads := numThreads env)
    (order := schedule env call) as (best & -> & (x & Hx & Ex) & _ & Hbest).
  - intros o c Ho Hc. destruct (Hwork o c Ho Hc) as (r & Er & _ & Hm & _). unfold w. by rewrite Er.
  - intros m Hm. pose proof (us_threads Hu m Hm). lia.
  - apply (us_schedule Hu).
  - exists hotObjects, best. split; [done|]. split; [done|].
    assert (x = MoveResult.makeEmpty ∨ ∃ o c, candidate p hot hotObjects o c ∧ tried p hot o c x ∧
      ∃ b, MoveResult.isBetter x (Problem.precision p) = Ok b) as Hx'.
    { destruct Hx as [?|([o c] & -> & [Ho Hc]%CoroUtils.all_pairs_elem)%list_elem_of_fmap]; [by left|right]. simpl.
      destruct (Hwork o c Ho Hc) as (r & Er & Ht & _ & Hb). exists o, c. unfold w. rewrite Er.
      split; [by apply Hcand|]. by split. }
    split; [|split].
    + exists x. split; [done|]. destruct Hx' as [?|(o & c & ? & ? & _)]; [by left|right; eauto].
    + rewrite Ex. unfold MoveResult.isBetter. simpl.
      destruct Hx' as [-> |(o & c & _ & _ & Hb)]; [by exists false|exact Hb].
    + intros o c y Hc Ey. apply Hcand in Hc as [Ho Hc]. specialize (Hbest o c Ho Hc).
      unfold w in Hbest. by rewrite Ey in Hbest.
Qed.
End state.

(** The single move type keeps the promise of the search loop. *)
Lemma single_sound es : usable → LocalSearch.sound_move_type hash p0 ps (single es).
Proof.
  intros Hu p h n hot limit Hw Hrun _ _.
  destruct (findBestMove_spec Hu p Hw Hrun hot es n limit)
    as (os & r & Eo & Er & (x & Ex & Hx) & (b & Eb) & _).
  exists r, b. split; [exact Er|]. split; [done|]. intros ->.
  assert (MoveResult.valid_ x = true) as Hv.
  { rewrite Ex in Eb. unfold MoveResult.isBetter in Eb. simpl in Eb.
    by destruct (MoveResult.valid_ x). }
  destruct Hx as [-> |(o & c & Hc & [-> |He])]; [done|done|].
  pose proof (MovesEvaluator.evaluate_spec hash _ _ _ _ He) as Hs. rewrite Hv in Hs.
  destruct Hs as [_ _ _ Sm So _]. rewrite Ex. simpl. rewrite Sm, So.
  destruct Hc as (Ho & _ & Hc & _ & _).
  destruct (ObjectDeduper.objects_spec (equivalence env) f
    (Assignment.getDynamicObjects (Problem.assignment p) hot)) as (os' & Eo' & Hsub & _).
  { intros o' Ho'. apply (us_equivalence Hu). by apply (hot_object p Hw Hrun hot). }
  rewrite Eo in Eo'. injection Eo' as <-.
  split; [|split; [|done]].
  - apply move_legal. apply (hot_object p Hw Hrun hot). by eapply elem_of_submseteq.
  - intros m ->%list_elem_of_singleton. simpl. by apply (us_containers Hu).
Qed.
End promise.
End single.
End SingleMoveType.
