(* ===== verification/Iterators.v ===== *)
(** * Lazy collections

    The iterators of solver/iterators that the move types loop over: [Filter],
    [DeduperIterator], [TransformIterator], [Range], [CartesianProduct] with its
    forward and its random access iterator, [MultiCollectionCartesianProduct],
    [MapUnion] and [Timeout].  An iterator over a collection of the standard
    library is the sequence that is left; each class is its state with the
    comparison against [end()], [operator*] and [operator++], and the range-for
    loop over it is shown to give the elements of a reference definition. *)

From Stdlib Require Import Sorting.Sorted.
From S2P Require Import Prelude Double Parallel.

(** [get it] is [*it], or nothing when [it == end()]; [left] bounds the number
    of increments before the end. *)
Class Iterator (I X : Type) := {
  get : I → option X;
  next : I → I;
  left_ : I → nat;
  next_left it x : get it = Some x → (left_ (next it) < left_ it)%nat
}.

Section loops.
Context {I X : Type} `{!Iterator I X}.

(** [for (auto x : collection)] *)
Fixpoint iterate (fuel : nat) (it : I) : list X :=
  match fuel with
  | O => []
  | S fuel => match get it with
              | Some x => x :: iterate fuel (next it)
              | None => []
              end
  end.

Definition elements (it : I) : list X := iterate (S (left_ it)) it.

Lemma iterate_enough fuel1 : ∀ fuel2 it,
  (left_ it < fuel1)%nat → (left_ it < fuel2)%nat → iterate fuel1 it = iterate fuel2 it.
Proof.
  induction fuel1 as [|n IH]; intros [|m] it H1 H2; [lia..|]. simpl.
  destruct (get it) as [x|] eqn:E; [|done]. pose proof (next_left it x E).
  f_equal. apply IH; lia.
Qed.

Lemma elements_end it : get it = None → elements it = [].
Proof. unfold elements. simpl. by intros ->. Qed.

Lemma elements_step it x : get it = Some x → elements it = x :: elements (next it).
Proof.
  intros E. unfold elements at 1. simpl. rewrite E. f_equal.
  pose proof (next_left it x E). apply iterate_enough; lia.
Qed.

(** A relation between iterators and sequences that every step keeps determines
    the elements. *)
Lemma elements_simulation (R : I → list X → Prop) :
  (∀ it, R it [] → get it = None) →
  (∀ it x l, R it (x :: l) → get it = Some x ∧ R (next it) l) →
  ∀ l it, R it l → elements it = l.
Proof.
  intros Hnil Hcons l. induction l as [|x l IH]; intros it HR.
  - by apply elements_end, Hnil.
  - destruct (Hcons it x l HR) as [E HR']. rewrite (elements_step it x E). f_equal. by apply IH.
Qed.
End loops.

(** ** Collections of the standard library *)
#[export] Program Instance list_iterator {X} : Iterator (list X) X := {|
  get := head; next := tail; left_ := length |}.
Next Obligation. intros X [|y l] x; [done|]. simpl. lia. Qed.

Lemma list_elements {X} (l : list X) : elements l = l.
Proof. apply (elements_simulation eq); [by intros ? ->|by intros ? ? ? ->|done]. Qed.

(** ** Filter *)
Module Filter.
Section filter.
Context {X : Type} (accept : X → bool).

(** The loop of [filter()]. *)
Fixpoint skip (first : list X) : list X :=
  match first with
  | [] => []
  | x :: rest => if accept x then first else skip rest
  end.

Record iterator := mk { first_ : list X }.

Definition begin (l : list X) : iterator := mk (skip l).

Definition step (it : iterator) : iterator := mk (skip (tail (first_ it))).

Lemma skip_length l : (length (skip l) ≤ length l)%nat.
Proof. induction l as [|x l IH]; simpl; [done|]. destruct (accept x); simpl; lia. Qed.

#[export] Program Instance filter_iterator : Iterator iterator X := {|
  get it := head (first_ it); next := step; left_ it := length (first_ it) |}.
Next Obligation.
  intros [[|y l]] x; simpl; [done|]. intros _. pose proof (skip_length l). lia.
Qed.

(** The loop visits the accepted elements in their order. *)
Lemma filter_elements l : elements (begin l) = filter (λ x, accept x = true) l.
Proof.
  apply (elements_simulation (λ it r, ∃ k, first_ it = skip k ∧ r = filter (λ x, accept x = true) k));
    [| |by exists l].
  - intros it (k & E & Er). simpl. rewrite E. clear it E.
    induction k as [|x k IH]; [done|]. simpl in *. rewrite filter_cons in Er.
    destruct (accept x) eqn:Ea; [by rewrite decide_True in Er|].
    rewrite decide_False in Er by congruence. by apply IH.
  - intros it x r (k & E & Er). simpl. unfold step. rewrite E. clear it E.
    induction k as [|y k IH]; [done|]. simpl. rewrite filter_cons in Er.
    destruct (accept y) eqn:Ea.
    + rewrite decide_True in Er by done. injection Er as -> ->. split; [done|by exists k].
    + rewrite decide_False in Er by congruence. by apply IH.
Qed.
End filter.
End Filter.

(** ** Deduper *)
Module DeduperIterator.
Section deduper.
Context {X : Type} `{Countable X}.

Record iterator := mk { current_ : list X; seen_ : gset X }.

Definition begin (l : list X) : iterator := mk l ∅.

(** The while loop of [operator++]. *)
Fixpoint skip (seen : gset X) (current : list X) : list X :=
  match current with
  | [] => []
  | x :: rest => if decide (x ∈ seen) then skip seen rest else current
  end.

Definition step (it : iterator) : iterator :=
  match current_ it with
  | [] => it
  | x :: _ => let seen := {[x]} ∪ seen_ it in mk (skip seen (current_ it)) seen
  end.

Definition clone (it : iterator) : iterator := mk (current_ it) (seen_ it).

Lemma dedup_skip_length seen l : (length (skip seen l) ≤ length l)%nat.
Proof. induction l as [|x l IH]; simpl; [done|]. case_decide; simpl; lia. Qed.

#[export] Program Instance deduper_iterator : Iterator iterator X := {|
  get it := head (current_ it); next := step; left_ it := length (current_ it) |}.
Next Obligation.
  intros [[|y l] seen] x; simpl; [done|]. intros _. unfold step; simpl.
  rewrite decide_True by set_solver. pose proof (dedup_skip_length ({[y]} ∪ seen) l). simpl. lia.
Qed.

(** The first occurrences that are not yet seen. *)
Fixpoint distinct (seen : gset X) (l : list X) : list X :=
  match l with
  | [] => []
  | x :: l => if decide (x ∈ seen) then distinct seen l else x :: distinct ({[x]} ∪ seen) l
  end.

Lemma distinct_spec seen l :
  NoDup (distinct seen l) ∧ distinct seen l `sublist_of` l ∧
  ∀ x, x ∈ distinct seen l ↔ x ∈ l ∧ x ∉ seen.
Proof.
  revert seen. induction l as [|x l IH]; intros seen; simpl.
  { split; [constructor|]. split; [constructor|set_solver]. }
  case_decide as Hx.
  - destruct (IH seen) as (H1 & H2 & H3). split; [done|]. split; [by constructor|].
    intros y. rewrite H3. set_solver.
  - destruct (IH ({[x]} ∪ seen)) as (H1 & H2 & H3). split; [|split; [by constructor|]].
    + constructor; [rewrite H3; set_solver|done].
    + intros y. rewrite elem_of_cons, H3. destruct (decide (y = x)); set_solver.
Qed.

Lemma skip_distinct seen l :
  match skip seen l with
  | [] => distinct seen l = []
  | x :: r => x ∉ seen ∧ distinct seen l = x :: distinct ({[x]} ∪ seen) r
  end.
Proof.
  induction l as [|x l IH]; simpl; [done|]. case_decide as Hx; [done|].
  simpl. done.
Qed.

Lemma deduper_elements l : elements (begin l) = distinct ∅ l.
Proof.
  apply (elements_simulation (λ it r, match current_ it with
    | [] => r = []
    | x :: rest => x ∉ seen_ it ∧ r = x :: distinct ({[x]} ∪ seen_ it) rest end)).
  - intros [[|x rest] seen]; simpl; [done|]. by intros [_ ?].
  - intros [[|y rest] seen] x r; simpl; [done|]. intros [Hy [= -> ->]]. split; [done|].
    unfold step; simpl. rewrite decide_True by set_solver. simpl.
    pose proof (skip_distinct ({[y]} ∪ seen) rest) as Hs.
    by destruct (skip _ rest).
  - destruct l as [|x l]; simpl; [done|]. split; [set_solver|].
    by rewrite decide_False by set_solver.
Qed.
End deduper.
End DeduperIterator.

(** ** Transform and Range *)
Module TransformIterator.
Section transform.
Context {I X Y : Type} `{!Iterator I X} (function : X → Y).

Record iterator := mk { iterator_ : I }.

#[export] Program Instance transform_iterator : Iterator iterator Y := {|
  get it := function <$> get (iterator_ it);
  next it := mk (next (iterator_ it));
  left_ it := left_ (iterator_ it) |}.
Next Obligation.
  intros [it] y. simpl. destruct (get it) as [x|] eqn:E; [|done]. intros _.
  by eapply next_left.
Qed.

Lemma transform_elements it : elements (mk it) = function <$> elements it.
Proof.
  remember (elements it) as l eqn:E. revert it E. induction l as [|x l IH]; intros it E.
  - apply elements_end. simpl. destruct (get it) as [x|] eqn:Eg; [|done].
    by rewrite (elements_step it x Eg) in E.
  - destruct (get it) as [x'|] eqn:Eg; [|by rewrite (elements_end it Eg) in E].
    rewrite (elements_step it x' Eg) in E. injection E as -> El.
    rewrite (elements_step (mk it) (function x')) by (simpl; by rewrite Eg).
    simpl. f_equal. by apply IH.
Qed.
End transform.
End TransformIterator.

(** [Range<int>(first, last)] with [first <= last]. *)
Module Range.
Record iterator := mk { value_ : Z; last_ : Z }.

Definition begin (first last : Z) : iterator := mk first last.

#[export] Program Instance range_iterator : Iterator iterator Z := {|
  get it := if value_ it <? last_ it then Some (value_ it) else None;
  next it := mk (value_ it + 1) (last_ it);
  left_ it := Z.to_nat (last_ it - value_ it) |}.
Next Obligation. intros [v l] x; simpl. destruct (Z.ltb_spec v l); [|done]. lia. Qed.

Lemma range_elements first last : elements (begin first last) = seqZ first (last - first).
Proof.
  remember (Z.to_nat (last - first)) as n eqn:En. revert first En.
  induction n as [|n IH]; intros first En.
  - rewrite elements_end by (simpl; destruct (Z.ltb_spec first last); [lia|done]).
    unfold seqZ. by rewrite <- En.
  - rewrite (elements_step _ first) by (simpl; destruct (Z.ltb_spec first last); [done|lia]).
    simpl next. fold (begin (first + 1) last). rewrite IH by lia.
    rewrite (seqZ_cons first) by lia. repeat f_equal; lia.
Qed.
End Range.

(** ** CartesianProduct *)
Module CartesianProduct.
Section product.
Context {X Y : Type}.

(** The iterator for collections that can only be traversed forwards. *)
Record forward_iterator := mkForward {
  first2_ : list Y;
  current1_ : list X;
  current2_ : list Y
}.

Definition forward_begin (l1 : list X) (l2 : list Y) : forward_iterator := mkForward l2 l1 l2.

Definition done (it : forward_iterator) : bool :=
  match current1_ it, current2_ it with [], _ | _, [] => true | _, _ => false end.

Definition forward_get (it : forward_iterator) : option (X * Y) :=
  match current1_ it, current2_ it with x :: _, y :: _ => Some (x, y) | _, _ => None end.

Definition forward_next (it : forward_iterator) : forward_iterator :=
  match tail (current2_ it) with
  | [] => mkForward (first2_ it) (tail (current1_ it)) (first2_ it)
  | rest => mkForward (first2_ it) (current1_ it) rest
  end.

Lemma forward_get_done it : forward_get it = None ↔ done it = true.
Proof. unfold forward_get, done. by destruct (current1_ it), (current2_ it). Qed.

Definition forward_left (it : forward_iterator) : nat :=
  match current1_ it with
  | [] => 0
  | _ :: l => length l * length (first2_ it) + length (current2_ it)
  end.

#[export] Program Instance forward_iterator_iterator : Iterator forward_iterator (X * Y) := {|
  get := forward_get; next := forward_next;
  left_ := forward_left |}.
Next Obligation.
  intros [f2 [|x l1] [|y l2]] xy; unfold forward_get; simpl; [done..|]. intros _.
  unfold forward_next, forward_left; simpl. destruct l2 as [|y' l2]; simpl; [|lia].
  destruct l1 as [|x' l1]; simpl; lia.
Qed.

(** Pairs are visited in the order of two nested loops. *)
Lemma forward_elements l1 l2 :
  elements (forward_begin l1 l2) = CoroUtils.all_pairs l1 l2.
Proof.
  unfold CoroUtils.all_pairs, forward_begin.
  destruct l2 as [|y0 l2'] eqn:E2.
  { rewrite elements_end; [|by unfold get; simpl; unfold forward_get; destruct l1].
    by induction l1. }
  rewrite <- E2. assert (l2 ≠ []) as Hne by (by rewrite E2). clear y0 l2' E2.
  apply (elements_simulation (λ it r, first2_ it = l2 ∧
    match current1_ it with
    | [] => r = []
    | x :: k1 => current2_ it ≠ [] ∧
        r = ((λ y, (x, y)) <$> current2_ it) ++ (k1 ≫= λ a, (λ b, (a, b)) <$> l2)
    end)).
  - intros [f2 [|x k1] k2]; simpl; [done|]. intros (_ & Hk & Hr). by destruct k2.
  - intros [f2 [|x k1] [|y k2]] xy r; simpl; [by intros []|by intros []|by intros (_ & ? & _)|].
    intros (-> & _ & [= -> ->]). split; [done|]. unfold forward_next; simpl.
    destruct k2 as [|y' k2]; simpl; [|done]. split; [done|].
    destruct k1 as [|x' k1]; [done|]. by rewrite bind_cons.
  - simpl. split; [done|]. destruct l1 as [|x l1]; [done|]. by rewrite bind_cons.
Qed.

(** The iterator for random access collections: an index into the pairs. *)
Record random_access_iterator := mkRandom { range1 : list X; range2 : list Y; index_ : Z }.

Definition size (l1 : list X) (l2 : list Y) : Z := Z.of_nat (length l1) * Z.of_nat (length l2).

Definition random_begin (l1 : list X) (l2 : list Y) : random_access_iterator := mkRandom l1 l2 0.
Definition random_end (l1 : list X) (l2 : list Y) : random_access_iterator :=
  mkRandom l1 l2 (size l1 l2).

Definition plus (it : random_access_iterator) (n : Z) : random_access_iterator :=
  mkRandom (range1 it) (range2 it) (index_ it + n).
Definition minus (it : random_access_iterator) (n : Z) : random_access_iterator :=
  mkRandom (range1 it) (range2 it) (index_ it - n).
Definition difference (it other : random_access_iterator) : Z := index_ it - index_ other.

(** [operator*]: [first1_[index_ / size2_]] and [first2_[index_ % size2_]]. *)
Definition deref (it : random_access_iterator) : result (X * Y) :=
  let size2_ := Z.of_nat (length (range2 it)) in
  a ← vec_get (range1 it) (index_ it `quot` size2_);
  b ← vec_get (range2 it) (index_ it `rem` size2_);
  Ok (a, b).

(** [operator\[\]] *)
Definition at_offset (it : random_access_iterator) (n : Z) : result (X * Y) := deref (plus it n).

Definition random_get (it : random_access_iterator) : option (X * Y) :=
  if index_ it =? size (range1 it) (range2 it) then None
  else match deref it with Ok xy => Some xy | Throw _ => None end.

Lemma deref_in_range it xy :
  deref it = Ok xy → index_ it < size (range1 it) (range2 it).
Proof.
  destruct it as [l1 l2 i]. unfold deref, size; simpl. intros (a & [H1 E1%lookup_lt_Some]%vec_get_Ok & E)%bind_Ok.
  apply bind_Ok in E as (b & [H2 E2%lookup_lt_Some]%vec_get_Ok & _).
  set (n2 := Z.of_nat (length l2)) in *. assert (0 < n2) as Hn by lia.
  pose proof (Z.quot_rem' i n2). nia.
Qed.

#[export] Program Instance random_iterator : Iterator random_access_iterator (X * Y) := {|
  get := random_get; next it := plus it 1;
  left_ it := Z.to_nat (size (range1 it) (range2 it) - index_ it) |}.
Next Obligation.
  intros it xy. unfold random_get. destruct (Z.eqb_spec (index_ it) (size (range1 it) (range2 it))); [done|].
  destruct (deref it) as [xy'|] eqn:E; [|done]. intros _. apply deref_in_range in E.
  destruct it; simpl in *. lia.
Qed.

Lemma deref_spec l1 l2 (i : nat) :
  (i < length l1 * length l2)%nat →
  ∃ xy, CoroUtils.all_pairs l1 l2 !! i = Some xy ∧ deref (mkRandom l1 l2 (Z.of_nat i)) = Ok xy.
Proof.
  intros Hi. rewrite <- CoroUtils.pair_at_spec by done. unfold deref, CoroUtils.pair_at; simpl.
  assert (length l2 ≠ 0)%nat as Hn by lia.
  pose proof (Nat.mod_upper_bound i (length l2) Hn) as Hm.
  pose proof (Nat.div_lt_upper_bound i (length l2) (length l1) Hn ltac:(lia)) as Hd.
  rewrite Z.quot_div_nonneg, Z.rem_mod_nonneg by lia.
  rewrite <- Nat2Z.inj_div, <- Nat2Z.inj_mod.
  destruct (lookup_lt_is_Some_2 l1 _ Hd) as [a Ea]. destruct (lookup_lt_is_Some_2 l2 _ Hm) as [b Eb].
  exists (a, b). rewrite Ea, Eb. split; [done|].
  rewrite (proj2 (vec_get_Ok l1 _ a)), (proj2 (vec_get_Ok l2 _ b)); [done| |];
    by rewrite Nat2Z.id; split; [lia|].
Qed.

(** Both kinds of iterators visit the same pairs in the same order. *)
Lemma random_elements l1 l2 :
  elements (random_begin l1 l2) = CoroUtils.all_pairs l1 l2.
Proof.
  apply (elements_simulation (λ it r, ∃ i : nat,
    it = mkRandom l1 l2 (Z.of_nat i) ∧ (i ≤ length l1 * length l2)%nat ∧
    r = drop i (CoroUtils.all_pairs l1 l2))).
  - intros it (i & -> & Hi & Hr).
    assert (length (drop i (CoroUtils.all_pairs l1 l2)) = 0%nat) as Hl by (by rewrite <- Hr).
    rewrite length_drop, CoroUtils.length_all_pairs in Hl.
    unfold get; simpl; unfold random_get, size; simpl.
    by rewrite (proj2 (Z.eqb_eq _ _)) by lia.
  - intros it xy r (i & -> & Hi & Hr).
    assert (i < length l1 * length l2)%nat as Hlt.
    { destruct (decide (i < length l1 * length l2)%nat); [done|].
      rewrite drop_ge in Hr by (rewrite CoroUtils.length_all_pairs; lia). done. }
    destruct (deref_spec l1 l2 i Hlt) as (xy' & E1 & E2).
    rewrite (drop_S _ xy' _ E1) in Hr. injection Hr as -> ->.
    unfold get; simpl; unfold random_get, size; simpl. rewrite E2.
    rewrite (proj2 (Z.eqb_neq _ _)) by lia. split; [done|]. exists (S i).
    unfold plus; simpl. split; [f_equal; lia|]. split; [lia|done].
  - exists 0%nat. split; [done|]. split; [lia|done].
Qed.
End product.
End CartesianProduct.

(** ** MultiCollectionCartesianProduct *)
Module MultiCollectionCartesianProduct.
Section product.
Context {X : Type}.

Record iterator := mk {
  startIters_ : list (list X);
  currIters_ : list (list X);
  atLeastOneEmptyCollection_ : bool
}.

(** The loop of the constructor: stops at the first empty collection. *)
Fixpoint populate (starts : list (list X)) : list (list X) * bool :=
  match starts with
  | [] => ([], false)
  | s :: starts =>
      match s with
      | [] => ([], true)
      | _ => let '(currs, empty) := populate starts in (s :: currs, empty)
      end
  end.

Definition begin (collections : list (list X)) : iterator :=
  let '(currs, empty) := populate collections in
  mk collections currs (match collections with [] => true | _ => empty end).

(** The while loop of [operator++] from position [j]: a collection that reached
    its end is reset and the one before it moves on. *)
Fixpoint carry (starts : list (list X)) (j : nat) (currs : list (list X)) : list (list X) :=
  match j with
  | O => currs
  | S j' =>
      match currs !! j with
      | Some [] => carry starts j' (alter tail j' (<[j := default [] (starts !! j)]> currs))
      | _ => currs
      end
  end.

Definition step (it : iterator) : iterator :=
  let j := pred (length (currIters_ it)) in
  mk (startIters_ it) (carry (startIters_ it) j (alter tail j (currIters_ it)))
     (atLeastOneEmptyCollection_ it).

Definition doneIterating (it : iterator) : bool :=
  atLeastOneEmptyCollection_ it || match currIters_ it with [] :: _ => true | _ => false end.

(** [operator*] *)
Definition values (it : iterator) : option (list X) := mapM head (currIters_ it).

(** *** Reference: the tuples in lexicographic order *)
Fixpoint product (collections : list (list X)) : list (list X) :=
  match collections with
  | [] => [[]]
  | c :: collections => c ≫= λ x, (x ::.) <$> product collections
  end.

(** The tuples from the current position on. *)
Fixpoint rest (starts currs : list (list X)) : list (list X) :=
  match starts, currs with
  | s :: starts, (x :: c) :: currs =>
      ((x ::.) <$> rest starts currs) ++ (c ≫= λ y, (y ::.) <$> product starts)
  | [], [] => [[]]
  | _, _ => []
  end.

(** The next position, unless this was the last one. *)
Fixpoint inc (starts currs : list (list X)) : option (list (list X)) :=
  match starts, currs with
  | s :: starts, c :: currs =>
      match inc starts currs with
      | Some currs' => Some (c :: currs')
      | None => match tail c with [] => None | c' => Some (c' :: starts) end
      end
  | _, _ => None
  end.

Abbreviation nonempty := (Forall (λ c : list X, c ≠ [])).

Lemma rest_start starts : nonempty starts → rest starts starts = product starts.
Proof.
  induction starts as [|s starts IH]; intros Hs; [done|].
  inversion_clear Hs as [|? ? Hc Hs']. destruct s as [|x s]; [done|].
  simpl. by rewrite IH by done.
Qed.

Lemma rest_step starts : ∀ currs, nonempty starts → Forall2 (λ _ c, c ≠ []) starts currs →
  ∃ xs, mapM head currs = Some xs ∧
    rest starts currs = xs :: match inc starts currs with Some c' => rest starts c' | None => [] end.
Proof.
  induction starts as [|s starts IH]; intros currs Hs Hc; inversion Hc as [|? c ? cs Hne Hcs]; subst.
  - by exists [].
  - inversion_clear Hs as [|? ? _ Hs']. destruct (IH cs Hs' Hcs) as (xs & E & Er).
    destruct c as [|x c]; [done|]. exists (x :: xs). simpl. rewrite E. split; [done|].
    rewrite Er. simpl. f_equal. destruct (inc starts cs) as [cs'|]; [done|]. simpl.
    destruct c as [|y c]; [done|]. simpl. by rewrite rest_start.
Qed.

Lemma inc_snoc starts : ∀ currs s c, length starts = length currs →
  inc (starts ++ [s]) (currs ++ [c]) =
    match tail c with
    | [] => match inc starts currs with Some cs => Some (cs ++ [s]) | None => None end
    | c' => Some (currs ++ [c'])
    end.
Proof.
  induction starts as [|s0 starts IH]; intros [|c0 currs] s c Hl; try done; simpl.
  rewrite IH by (simpl in Hl; lia). destruct (tail c) as [|y c']; [|done].
  destruct (inc starts currs); [done|]. by destruct (tail c0).
Qed.

Lemma inc_nonempty starts : ∀ currs cs', nonempty starts →
  Forall2 (λ _ c, c ≠ []) starts currs → inc starts currs = Some cs' →
  Forall2 (λ _ c, c ≠ []) starts cs'.
Proof.
  induction starts as [|s starts IH]; intros currs cs' Hs Hc; [done|].
  inversion Hc as [|? c ? cs Hne Hcs]; subst. inversion_clear Hs as [|? ? _ Hs']. simpl.
  destruct (inc starts cs) as [ds|] eqn:E; [intros [= <-]; constructor; eauto|].
  destruct (tail c) as [|y c'] eqn:Et; [done|]. intros [= <-]. constructor; [done|].
  clear - Hs'. induction Hs'; by constructor.
Qed.

(** The loop of [operator++] moves to the next position, or leaves the first
    collection at its end. *)
Lemma carry_spec starts currs : ∀ suffix,
  Forall2 (λ _ c, c ≠ []) starts currs → currs ≠ [] →
  carry (starts ++ suffix) (pred (length currs))
    (alter tail (pred (length currs)) (currs ++ suffix)) =
  match inc starts currs with
  | Some cs => cs ++ suffix
  | None => [] :: tail starts ++ suffix
  end.
Proof.
  revert starts. induction currs as [|c currs IH] using rev_ind; intros starts suffix Hc Hne; [done|].
  apply Forall2_app_inv_r in Hc as (ss & s' & Hcs & Hc & ->).
  inversion Hc as [|s ? ? ? Hc0 Hnil]; subst. inversion Hnil; subst. clear Hc Hnil Hne.
  pose proof (Forall2_length _ _ _ Hcs) as Hl. rewrite inc_snoc by done.
  rewrite length_app; simpl. rewrite Nat.add_1_r; simpl. rewrite <- !app_assoc; simpl.
  rewrite (alter_app_r_alt tail currs _ (length currs)) by lia. rewrite Nat.sub_diag; simpl.
  destruct currs as [|c0 currs'] eqn:Ec.
  { destruct ss; [|done]. simpl. by destruct (tail c). }
  rewrite <- Ec in *. assert (currs ≠ []) as Hne by (by rewrite Ec).
  assert (length currs = S (pred (length currs))) as El by (rewrite Ec; done).
  clear Ec c0 currs'. rewrite El at 1. cbn [carry]. rewrite <- El.
  rewrite lookup_app_r, Nat.sub_diag by lia. cbn [lookup list_lookup].
  destruct (tail c) as [|y c'] eqn:Et; [|by rewrite <- app_assoc].
  rewrite (lookup_app_r ss), Hl, Nat.sub_diag by lia. cbn [lookup list_lookup].
  rewrite (insert_app_r_alt currs), Nat.sub_diag by lia. simpl.
  rewrite (IH ss (s :: suffix) Hcs Hne).
  destruct (inc ss currs); simpl; [by rewrite <- app_assoc|].
  destruct ss as [|s1 ss]; [by destruct currs|]. simpl. by rewrite <- app_assoc.
Qed.

(** The range-for loop, with as much fuel as there are tuples. *)
Fixpoint collect (fuel : nat) (it : iterator) : list (list X) :=
  match fuel with
  | O => []
  | S fuel =>
      if doneIterating it then []
      else match values it with
           | Some v => v :: collect fuel (step it)
           | None => []
           end
  end.

Lemma collect_rest fuel : ∀ starts currs,
  nonempty starts → starts ≠ [] → Forall2 (λ _ c, c ≠ []) starts currs →
  (length (rest starts currs) < fuel)%nat →
  collect fuel (mk starts currs false) = rest starts currs.
Proof.
  induction fuel as [|fuel IH]; intros starts currs Hs Hne Hc Hf; [lia|]. simpl.
  destruct (rest_step starts currs Hs Hc) as (xs & E & Er).
  assert (currs ≠ []) as Hcne by (intros ->; inversion Hc; by subst).
  unfold doneIterating; simpl.
  replace (match currs with [] :: _ => true | _ => false end) with false
    by (destruct Hc as [|? c ? ? Hc0]; [done|by destruct c]).
  unfold values; simpl. rewrite E, Er. f_equal. rewrite Er in Hf. simpl in Hf.
  unfold step; simpl. pose proof (carry_spec starts currs [] Hc Hcne) as Hst.
  rewrite !app_nil_r in Hst. rewrite Hst.
  destruct (inc starts currs) as [cs|] eqn:Ei.
  - rewrite app_nil_r. apply IH; [done|done|by eapply inc_nonempty|lia].
  - destruct fuel; [lia|]. done.
Qed.

Lemma populate_spec cs :
  (nonempty cs ∧ populate cs = (cs, false)) ∨ ([] ∈ cs ∧ (populate cs).2 = true).
Proof.
  induction cs as [|c cs IH]; [by left|]. simpl. destruct c as [|x c]; [right; set_solver|].
  destruct IH as [[Hn ->]|[Hin E]]; [left; split; [by constructor|done]|right].
  split; [set_solver|]. destruct (populate cs). done.
Qed.

Lemma product_empty cs : [] ∈ cs → product cs = [].
Proof.
  induction cs as [|c cs IH]; [set_solver|]. intros [<-|Hin]%elem_of_cons; [done|].
  simpl. rewrite IH by done. by induction c.
Qed.

(** The loop visits every tuple once, the last collection varying fastest; over
    no collections at all it visits nothing. *)
Lemma collect_product cs fuel :
  (length (product cs) < fuel)%nat →
  collect fuel (begin cs) = match cs with [] => [] | _ => product cs end.
Proof.
  intros Hf. destruct cs as [|c cs]; [by destruct fuel|].
  unfold begin. destruct (populate_spec (c :: cs)) as [[Hn ->]|[Hin E]].
  - rewrite <- rest_start in Hf |- * by done. apply collect_rest; [done|done| |done].
    clear - Hn. induction Hn; by constructor.
  - destruct (populate (c :: cs)) as [currs empty]. simpl in E. subst.
    rewrite product_empty by done. by destruct fuel.
Qed.
End product.
End MultiCollectionCartesianProduct.

(** ** MapUnion *)
Module MapUnion.
Section union.
Context {K V : Type} `{EqDecision K} (lessThan : K → K → bool) (defaultValue : V).

Record iterator := mk { current1_ : list (K * V); current2_ : list (K * V) }.

Definition begin (m1 m2 : list (K * V)) : iterator := mk m1 m2.

Definition deref (it : iterator) : option (K * V * V) :=
  match current1_ it, current2_ it with
  | [], [] => None
  | [], (k2, v2) :: _ => Some (k2, defaultValue, v2)
  | (k1, v1) :: _, [] => Some (k1, v1, defaultValue)
  | (k1, v1) :: _, (k2, v2) :: _ =>
      if lessThan k1 k2 then Some (k1, v1, defaultValue)
      else if lessThan k2 k1 then Some (k2, defaultValue, v2)
      else Some (k1, v1, v2)
  end.

Definition step (it : iterator) : iterator :=
  match current1_ it, current2_ it with
  | [], l2 => mk [] (tail l2)
  | l1, [] => mk (tail l1) []
  | (k1, v1) :: l1, (k2, v2) :: l2 =>
      if lessThan k1 k2 then mk l1 ((k2, v2) :: l2)
      else if lessThan k2 k1 then mk ((k1, v1) :: l1) l2
      else mk l1 l2
  end.

#[export] Program Instance union_iterator : Iterator iterator (K * V * V) := {|
  get := deref; next := step;
  left_ it := (length (current1_ it) + length (current2_ it))%nat |}.
Next Obligation.
  intros [[|[k1 v1] l1] [|[k2 v2] l2]] x; unfold deref, step; simpl; [done|lia|lia|].
  intros _. repeat case_match; simpl; lia.
Qed.

Context (lt_trans : ∀ a b c, lessThan a b = true → lessThan b c = true → lessThan a c = true).
Context (lt_irrefl : ∀ a, lessThan a a = false).
Context (lt_total : ∀ a b, lessThan a b = false → lessThan b a = false → a = b).

Abbreviation sorted := (StronglySorted (λ a b : K, lessThan a b = true)).

Fixpoint find (l : list (K * V)) (k : K) : option V :=
  match l with
  | [] => None
  | (k', v) :: l => if decide (k = k') then Some v else find l k
  end.

Lemma find_below l k : Forall (λ b, lessThan k b = true) l.*1 → find l k = None.
Proof.
  induction l as [|[k' v] l IH]; [done|]. simpl. intros [Hk Hl]%Forall_cons. simpl in Hk.
  rewrite decide_False by (intros ->; by rewrite lt_irrefl in Hk). by apply IH.
Qed.

Lemma below_trans k k' l :
  lessThan k k' = true → Forall (λ b, lessThan k' b = true) l → Forall (λ b, lessThan k b = true) l.
Proof. intros Hk Hl. eapply Forall_impl; [exact Hl|]. intros b. by apply lt_trans. Qed.

(** Every key of one of the two maps is visited once, in order, with its values
    in both maps. *)
Definition union_of (l1 l2 : list (K * V)) (r : list (K * V * V)) : Prop :=
  sorted r.*1.*1 ∧
  (∀ k, k ∈ r.*1.*1 ↔ k ∈ l1.*1 ∨ k ∈ l2.*1) ∧
  (∀ k v1 v2, (k, v1, v2) ∈ r →
     v1 = default defaultValue (find l1 k) ∧ v2 = default defaultValue (find l2 k)).

Lemma union_cons k v1 v2 l1 l2 k1 k2 r :
  union_of k1 k2 r →
  (∀ k', k' ∈ l1.*1 ∨ k' ∈ l2.*1 ↔ k' = k ∨ k' ∈ k1.*1 ∨ k' ∈ k2.*1) →
  Forall (λ b, lessThan k b = true) k1.*1 → Forall (λ b, lessThan k b = true) k2.*1 →
  v1 = default defaultValue (find l1 k) → v2 = default defaultValue (find l2 k) →
  (∀ k', k' ≠ k → find l1 k' = find k1 k') → (∀ k', k' ≠ k → find l2 k' = find k2 k') →
  union_of l1 l2 ((k, v1, v2) :: r).
Proof.
  intros (Hs & Hk & Hv) Hkeys F1 F2 E1 E2 D1 D2.
  assert (Forall (λ b, lessThan k b = true) r.*1.*1) as Hb.
  { apply Forall_forall. intros b [Hb|Hb]%Hk; [by eapply Forall_forall in F1|by eapply Forall_forall in F2]. }
  split; [by constructor|]. split.
  - intros k'. simpl. rewrite elem_of_cons, Hk, Hkeys. done.
  - intros k' w1 w2 [E|Hin]%elem_of_cons; [by injection E as -> -> ->|].
    assert (k' ≠ k) as Hne.
    { intros ->. rewrite Forall_forall in Hb. specialize (Hb k).
      rewrite lt_irrefl in Hb. cut (k ∈ r.*1.*1); [by intros ?%Hb|].
      apply list_elem_of_fmap. exists (k, w1). split; [done|].
      apply list_elem_of_fmap. by exists (k, w1, w2). }
    destruct (Hv k' w1 w2 Hin) as [-> ->]. by rewrite D1, D2.
Qed.

#[local] Ltac keys :=
  intros ?; simpl; rewrite ?fmap_cons, ?elem_of_cons, ?elem_of_nil; simpl; tauto.

Lemma union_elements l1 l2 :
  sorted l1.*1 → sorted l2.*1 → union_of l1 l2 (elements (begin l1 l2)).
Proof.
  unfold begin. remember (length l1 + length l2)%nat as n eqn:En. revert l1 l2 En.
  induction (lt_wf n) as [n _ IH]. intros l1 l2 En S1 S2.
  assert (∀ (k' : K) k v (l : list (K * V)), k' ≠ k → find ((k, v) :: l) k' = find l k') as Hskip
    by (intros; simpl; by rewrite decide_False).
  assert (∀ k v (l : list (K * V)), v = default defaultValue (find ((k, v) :: l) k)) as Hfind
    by (intros; simpl; by rewrite decide_True).
  assert (∀ k k' v (l : list (K * V)), lessThan k k' = true →
    Forall (λ b, lessThan k' b = true) l.*1 → Forall (λ b, lessThan k b = true) ((k', v) :: l).*1)
    as Hbelow by (intros; simpl; constructor; [done|by eapply below_trans]).
  destruct l1 as [|[a1 v1] l1], l2 as [|[a2 v2] l2]; simpl in S1, S2.
  - rewrite elements_end by done. split; [constructor|].
    by split; [intros k; rewrite !elem_of_nil; tauto|intros k w1 w2 ?%elem_of_nil].
  - rewrite (elements_step _ (a2, defaultValue, v2)) by done.
    apply StronglySorted_inv in S2 as [S2 B2].
    apply (union_cons _ _ _ _ _ [] l2); auto.
    + apply (IH (length l2)); simpl in *; auto; lia.
    + keys.
  - rewrite (elements_step _ (a1, v1, defaultValue)) by done.
    apply StronglySorted_inv in S1 as [S1 B1].
    apply (union_cons _ _ _ _ _ l1 []); auto.
    + apply (IH (length l1)); simpl in *; auto; lia.
    + keys.
  - pose proof S1 as S1'. pose proof S2 as S2'.
    apply StronglySorted_inv in S1 as [S1 B1]. apply StronglySorted_inv in S2 as [S2 B2].
    destruct (lessThan a1 a2) eqn:E1; [|destruct (lessThan a2 a1) eqn:E2].
    + rewrite (elements_step _ (a1, v1, defaultValue)) by (cbn; by rewrite E1).
      cbn. rewrite E1.
      apply (union_cons _ _ _ _ _ l1 ((a2, v2) :: l2)); auto.
      * apply (IH (length l1 + S (length l2))%nat); simpl in *; auto; lia.
      * keys.
      * rewrite (find_below ((a2, v2) :: l2)); auto.
    + rewrite (elements_step _ (a2, defaultValue, v2)) by (cbn; by rewrite E1, E2).
      cbn. rewrite E1, E2.
      apply (union_cons _ _ _ _ _ ((a1, v1) :: l1) l2); auto.
      * apply (IH (S (length l1) + length l2)%nat); simpl in *; auto; lia.
      * keys.
      * rewrite (find_below ((a1, v1) :: l1)); auto.
    + pose proof (lt_total a1 a2 E1 E2) as <-.
      rewrite (elements_step _ (a1, v1, v2)) by (cbn; by rewrite E1).
      cbn. rewrite E1.
      apply (union_cons _ _ _ _ _ l1 l2); auto.
      * apply (IH (length l1 + length l2)%nat); simpl in *; auto; lia.
      * keys.
Qed.
End union.
End MapUnion.

(** ** Timeout *)
Module Timeout.
Section timeout.
Context {X : Type} (timeout_ : double) (getSeconds : nat → double).

(** [ticks] counts the readings of the timer. *)
Record iterator := mk { current_ : list X; ticks : nat }.

(** The constructor of the iterator reads the timer, too. *)
Definition begin (l : list X) (ticks : nat) : iterator :=
  mk (if (timeout_ <=? getSeconds ticks)%D then [] else l) (S ticks).

Definition step (it : iterator) : iterator :=
  mk (if (getSeconds (ticks it) <? timeout_)%D then tail (current_ it) else []) (S (ticks it)).

#[export] Program Instance timeout_iterator : Iterator iterator X := {|
  get it := head (current_ it); next := step; left_ it := length (current_ it) |}.
Next Obligation.
  intros [[|y l] t] x; simpl; [done|]. intros _. destruct (_ <? _)%D; simpl; lia.
Qed.

(** The loop visits a prefix of the collection, and all of it when the timer
    stays below the limit. *)
Lemma timeout_elements l t : elements (begin l t) `prefix_of` l.
Proof.
  unfold begin. set (b := (_ <=? _)%D). clearbody b.
  assert (∀ k n, elements (mk k n) `prefix_of` k) as H.
  { intros k. induction k as [|x k IH]; intros n; [by rewrite elements_end|].
    rewrite (elements_step _ x) by done. apply prefix_cons. simpl. unfold step; simpl.
    destruct (_ <? _)%D; [apply IH|]. rewrite elements_end by done. apply prefix_nil. }
  destruct b; [rewrite elements_end by done; apply prefix_nil|apply H].
Qed.

Lemma timeout_unlimited l t :
  (∀ n, (getSeconds n <? timeout_)%D = true) → (∀ n, (timeout_ <=? getSeconds n)%D = false) →
  elements (begin l t) = l.
Proof.
  intros H1 H2. unfold begin. rewrite H2. generalize (S t). clear t. induction l as [|x l IH]; intros n.
  - by rewrite elements_end.
  - rewrite (elements_step _ x) by done. f_equal. simpl. unfold step; simpl. rewrite H1. apply IH.
Qed.
End timeout.
End Timeout.
