(* ===== verification/IncrementalQueue.v ===== *)
(** * Incremental priority queues

    algopt_common/IncrementalPriorityQueue.h and IncrementalPriorityQueueV2.h: the two
    queues the traversal of the hot containers is a template over.  Items are ranked
    by a series of sets fed one at a time; an item that is in an earlier set than
    another comes first, later sets break ties.  The first queue stores the sequence of
    sets each item was in, the second splits groups of tied items.  [ranking] is what
    both promise, [QueueLaws] the interface their client is proved against. *)

From stdpp Require Import sorting.
From S2P Require Import Prelude AccessOrderedSet Queues.

Open Scope Z_scope.

(** ** Sequences of updates

    A sequence precedes another if it is smaller at the first position where they
    differ, and if it continues where the other ends. *)
Fixpoint seq_lt (l r : list Z) : bool :=
  match l, r with
  | [], _ => false
  | _ :: _, [] => true
  | x :: l, y :: r => if x =? y then seq_lt l r else x <? y
  end.

Lemma seq_lt_irrefl l : seq_lt l l = false.
Proof. induction l as [|x l IH]; simpl; [done|]. by rewrite Z.eqb_refl. Qed.

Lemma seq_lt_trans l : ∀ r t, seq_lt l r = true → seq_lt r t = true → seq_lt l t = true.
Proof.
  induction l as [|x l IH]; intros [|y r] [|z t]; simpl; try done.
  destruct (Z.eqb_spec x y), (Z.eqb_spec y z), (Z.eqb_spec x z);
    rewrite ?Z.ltb_lt; subst; try done; try lia; eauto.
Qed.

Lemma seq_lt_total l : ∀ r, seq_lt l r = false → seq_lt r l = false → l = r.
Proof.
  induction l as [|x l IH]; intros [|y r]; simpl; try done.
  destruct (Z.eqb_spec x y), (Z.eqb_spec y x); rewrite ?Z.ltb_ge; subst; try lia.
  intros. f_equal. by apply IH.
Qed.

Lemma seq_lt_asym l r : seq_lt l r = true → seq_lt r l = false.
Proof.
  intros E. destruct (seq_lt r l) eqn:E'; [|done].
  by rewrite <-(seq_lt_irrefl l), (seq_lt_trans l r l).
Qed.

(** A later set moves an item up, and only within its ties. *)
Lemma seq_lt_more i l : seq_lt (l ++ [i]) l = true.
Proof. induction l as [|x l IH]; simpl; [done|]. by rewrite Z.eqb_refl. Qed.

Lemma seq_lt_more_l i l r : seq_lt l r = true → seq_lt (l ++ [i]) r = true.
Proof. intros E. by apply (seq_lt_trans _ l), E; apply seq_lt_more. Qed.

Lemma seq_lt_more_r i l : ∀ r,
  Forall (λ x, x ≤ i) l → l ≠ r ++ [i] → seq_lt l r = true → seq_lt l (r ++ [i]) = true.
Proof.
  induction l as [|x l IH]; intros [|y r] Hl Hne E; simpl in *; try done.
  - apply Forall_cons in Hl as [Hx _]. destruct (Z.eqb_spec x i) as [->|]; [|by apply Z.ltb_lt; lia].
    by destruct l.
  - destruct (Z.eqb_spec x y) as [->|]; [|done]. apply IH; [by inversion Hl| |done]. congruence.
Qed.

Lemma seq_lt_last i l : Forall (λ x, x ≤ i) l → l ≠ [] → l ≠ [i] → seq_lt l [i] = true.
Proof.
  destruct l as [|x l]; intros Hl Hne Hi; [done|]. simpl. apply Forall_cons in Hl as [Hx _].
  destruct (Z.eqb_spec x i) as [->|]; [|by apply Z.ltb_lt; lia]. by destruct l.
Qed.

(** Two items that are ranked stay ranked. *)
Lemma seq_lt_app i l : ∀ r el er,
  Forall (λ x, x < i) l → Forall (λ x, x < i) r → Forall (λ x, i ≤ x) er →
  seq_lt l r = true → seq_lt (l ++ el) (r ++ er) = true.
Proof.
  induction l as [|x l IH]; intros [|y r] el er Hl Hr He E; simpl in *; try done.
  - destruct er as [|z er]; [done|]. simpl. apply Forall_cons in He as [Hz _].
    apply Forall_cons in Hl as [Hx _]. destruct (Z.eqb_spec x z); [lia|]. apply Z.ltb_lt. lia.
  - destruct (Z.eqb_spec x y) as [->|]; [|done]. apply IH; [by inversion Hl|by inversion Hr|done..].
Qed.

(** ** What the queues promise *)
Record ranking (T : Type) `{Countable T} := mkRanking {
  count : Z;                     (* the number of updates so far *)
  gone : gset T;                 (* the items that were removed *)
  seen : gmap T (list Z)         (* the updates each item was in *)
}.
Arguments mkRanking {T _ _} count gone seen.
Arguments count {T _ _} _.
Arguments gone {T _ _} _.
Arguments seen {T _ _} _.

Section ranking.
Context `{Countable T} (lt : T → T → bool).
Implicit Types (r : ranking T) (x y : T).

Definition Compare (a b : T * list Z) : bool :=
  seq_lt a.2 b.2 || (bool_decide (a.2 = b.2) && lt a.1 b.1).

Definition rank_empty : ranking T := mkRanking 0 ∅ ∅.

Definition touch r x : ranking T :=
  if decide (x ∈ gone r) then r
  else mkRanking (count r) (gone r) (<[x := default [] (seen r !! x) ++ [count r]]> (seen r)).

Definition next r : ranking T := mkRanking (count r + 1) (gone r) (seen r).

Definition rank_update r (items : list T) : ranking T := next (foldl touch r items).

Definition rank_remove r x : ranking T :=
  mkRanking (count r) ({[x]} ∪ gone r) (delete x (seen r)).

(** The first item, and whether no other item is tied with it. *)
Definition is_first r x : Prop := ∃ s, seen r !! x = Some s ∧
  ∀ y s', seen r !! y = Some s' → y = x ∨ Compare (x, s) (y, s') = true.

Definition is_strict r x : Prop := ∀ y, seen r !! y = seen r !! x → y = x.

(** Sequences are not empty and hold numbers of past updates, removed items have
    none. *)
Record rank_wf r : Prop := {
  wf_count : 0 ≤ count r;
  wf_gone x : x ∈ gone r → seen r !! x = None;
  wf_seq x s : seen r !! x = Some s → s ≠ [] ∧ Forall (λ i, i < count r) s
}.
End ranking.

Section ranking_facts.
Context `{Countable T} {lt : T → T → bool} `{ST : !StdSet.StrictTotal (λ _, True) lt}.
Implicit Types (r : ranking T) (x y : T).

#[export] Instance Compare_total : StdSet.StrictTotal (λ _, True) (Compare lt).
Proof.
  split; unfold Compare.
  - intros [k s] _. simpl. rewrite seq_lt_irrefl, bool_decide_true by done. simpl.
    by apply (StdSet.st_irrefl (D := λ _, True)).
  - intros [k1 s1] [k2 s2] [k3 s3] _ _ _. simpl. rewrite !orb_true_iff, !andb_true_iff, !bool_decide_eq_true.
    intros [E1|[-> E1]] [E2|[-> E2]]; [left; by eapply seq_lt_trans|by left|by left|].
    right. split; [done|]. by eapply (StdSet.st_trans (D := λ _, True)).
  - intros [k1 s1] [k2 s2] _ _. simpl. rewrite !orb_false_iff. intros [E1 F1] [E2 F2].
    pose proof (seq_lt_total _ _ E1 E2) as ->. rewrite bool_decide_true in F1, F2 by done.
    f_equal. by apply (StdSet.st_total (D := λ _, True)).
Qed.

Lemma first_unique r x y : is_first lt r x → is_first lt r y → x = y.
Proof.
  intros (s & Ex & Hx) (s' & Ey & Hy). destruct (Hx y s' Ey) as [->|E1]; [done|].
  destruct (Hy x s Ex) as [->|E2]; [done|].
  apply (StdSet.lt_asym (D := λ _, True)) in E1; [congruence|done..].
Qed.

Lemma first_exists_list (l : list (T * list Z)) : l ≠ [] →
  ∃ a, a ∈ l ∧ ∀ b, b ∈ l → b = a ∨ Compare lt a b = true.
Proof.
  induction l as [|a l IH]; [done|]. intros _. destruct (decide (l = [])) as [->|Hne].
  { exists a. set_solver. }
  destruct (IH Hne) as (m & Hm & Hmin). destruct (Compare lt a m) eqn:E.
  - exists a. split; [set_solver|]. intros b [->|Hb]%elem_of_cons; [by left|]. right.
    destruct (Hmin b Hb) as [->|E']; [done|]. by eapply (StdSet.st_trans (D := λ _, True)).
  - exists m. split; [set_solver|]. intros b [->|Hb]%elem_of_cons; [|by apply Hmin].
    destruct (Compare lt m a) eqn:E'; [by right|left]. by apply (StdSet.st_total (D := λ _, True)).
Qed.

Lemma first_exists r : seen r ≠ ∅ → ∃ x, is_first lt r x.
Proof.
  intros Hne. destruct (first_exists_list (map_to_list (seen r))) as ([x s] & Hx & Hmin).
  { by rewrite map_to_list_empty_iff. }
  exists x, s. split; [by apply elem_of_map_to_list|]. intros y s' Hy.
  destruct (Hmin (y, s')) as [[= -> ->]|E]; [by apply elem_of_map_to_list|by left|by right].
Qed.

Lemma no_ranks_wf : rank_wf (rank_empty (T := T)).
Proof. split; simpl; [lia|set_solver|intros x s; by rewrite lookup_empty]. Qed.

Lemma touch_count r x : count (touch r x) = count r ∧ gone (touch r x) = gone r.
Proof. unfold touch. by case_decide. Qed.

Lemma touches_count items : ∀ r,
  count (foldl touch r items) = count r ∧ gone (foldl touch r items) = gone r.
Proof.
  induction items as [|x items IH]; intros r; [done|]. simpl.
  destruct (IH (touch r x)) as [-> ->]. apply touch_count.
Qed.

(** The invariant while an update is under way. *)
Record rank_mid r : Prop := {
  mid_count : 0 ≤ count r;
  mid_gone x : x ∈ gone r → seen r !! x = None;
  mid_seq x s : seen r !! x = Some s → s ≠ [] ∧ Forall (λ i, i ≤ count r) s
}.

Lemma wf_mid r : rank_wf r → rank_mid r.
Proof.
  intros [Hc Hg Hs]. split; [done..|]. intros x s Hx. destruct (Hs x s Hx) as [? Hf].
  split; [done|]. eapply Forall_impl; [exact Hf|]. simpl. lia.
Qed.

Lemma mid_next r : rank_mid r → rank_wf (next r).
Proof.
  intros [Hc Hg Hs]. split; simpl; [lia|done|]. intros x s Hx. destruct (Hs x s Hx) as [? Hf].
  split; [done|]. eapply Forall_impl; [exact Hf|]. simpl. lia.
Qed.

Lemma touch_mid r x : rank_mid r → rank_mid (touch r x).
Proof.
  intros [Hc Hg Hs]. unfold touch. case_decide as Hx; [by split|]. split; simpl; [done| |].
  - intros y Hy. rewrite lookup_insert_ne by set_solver. by apply Hg.
  - intros y s [[<- <-]|[_ Hy]]%lookup_insert_Some; [|by apply (Hs y)].
    split; [by destruct (default [] _)|]. apply Forall_app. split; [|by constructor].
    destruct (seen r !! x) as [s|] eqn:E; simpl; [apply (Hs x s E)|by constructor].
Qed.

Lemma touches_mid items : ∀ r, rank_mid r → rank_mid (foldl touch r items).
Proof. induction items; intros r Hr; simpl; [done|]. by apply IHitems, touch_mid. Qed.

Lemma update_wf r items : rank_wf r → rank_wf (rank_update r items).
Proof. intros Hr. by apply mid_next, touches_mid, wf_mid. Qed.

Lemma remove_wf r x : rank_wf r → rank_wf (rank_remove r x).
Proof.
  intros [Hc Hg Hs]. split; simpl; [done| |].
  - intros y [->%elem_of_singleton|Hy]%elem_of_union; [by rewrite lookup_delete_eq|].
    destruct (decide (y = x)) as [->|]; [by rewrite lookup_delete_eq|].
    rewrite lookup_delete_ne by done. by apply Hg.
  - intros y s [_ E]%lookup_delete_Some. by eapply Hs.
Qed.
End ranking_facts.

(** ** The interface of a queue *)
Class PriorityQueue (T Q : Type) := {
  q_empty : Q;
  q_size : Q → Z;
  q_isEmpty : Q → bool;
  q_top : Q → result (T * Q);
  q_is_top_strict : Q → result bool;
  q_remove : Q → T → result Q;
  q_update : Q → list T → result Q
}.

(** The number of updates is that of a 32-bit [int]. *)
Definition int_max : Z := 2 ^ 31 - 1.

Class QueueLaws (T Q : Type) `{Countable T} `{PriorityQueue T Q} (lt : T → T → bool) := {
  q_rel : ranking T → Q → Prop;
  q_rel_wf r q : q_rel r q → rank_wf r;
  q_empty_rel : q_rel rank_empty q_empty;
  q_size_rel r q : q_rel r q → q_size q = Z.of_nat (size (seen r));
  q_isEmpty_rel r q : q_rel r q → q_isEmpty q = bool_decide (seen r = ∅);
  q_top_rel r q x : q_rel r q → is_first lt r x → ∃ q', q_top q = Ok (x, q') ∧ q_rel r q';
  q_strict_rel r q x : q_rel r q → is_first lt r x →
    ∃ b, q_is_top_strict q = Ok b ∧ (b = true ↔ is_strict r x);
  q_remove_rel r q x : q_rel r q → ∃ q', q_remove q x = Ok q' ∧ q_rel (rank_remove r x) q';
  q_update_rel r q items : q_rel r q → count r < int_max →
    ∃ q', q_update q items = Ok q' ∧ q_rel (rank_update r items) q'
}.

(** ** The queue of sequences *)
Module IncrementalPriorityQueue.
Section queue.
Context `{Countable T} (lt : T → T → bool).

(** The loop of the comparator over the common positions. *)
Fixpoint firstDifference (lhsSeq rhsSeq : list Z) : option bool :=
  match lhsSeq, rhsSeq with
  | x :: l, y :: r => if x =? y then firstDifference l r else Some (x <? y)
  | _, _ => None
  end.

Definition compare (lhs rhs : T * list Z) : bool :=
  match firstDifference lhs.2 rhs.2 with
  | Some b => b
  | None =>
      if (length lhs.2 =? length rhs.2)%nat then lt lhs.1 rhs.1
      else (length rhs.2 <? length lhs.2)%nat
  end.

Record t := mk { update_count : Z; removed : gset T; map : ValueSortedMap.t T (list Z) }.

Definition empty : t := mk 0 ∅ ValueSortedMap.empty.

Definition size (q : t) : Z := Z.of_nat (ValueSortedMap.size (map q)).

Definition isEmpty (q : t) : bool := size q =? 0.

Definition top (q : t) : result T :=
  match ValueSortedMap.begin (map q) with
  | None => Throw (runtime_error "empty")
  | Some (item, _) => Ok item
  end.

Definition is_top_strict (q : t) : result bool :=
  match ValueSortedMap.set (map q) with
  | [] => Throw (runtime_error "empty")
  | [_] => Ok true
  | (_, first_sequence) :: (_, second_sequence) :: _ =>
      Ok (negb (bool_decide (first_sequence = second_sequence)))
  end.

Definition remove (q : t) (item : T) : t :=
  mk (update_count q) ({[item]} ∪ removed q) (ValueSortedMap.erase compare (map q) item).

Definition update_item (index : Z) (q : t) (item : T) : result t :=
  if decide (item ∈ removed q) then Ok q
  else
    let sequence :=
      match ValueSortedMap.map (map q) !! item with
      | Some s => s ++ [index]
      | None => [index]
      end in
    m ← ValueSortedMap.assign compare (map q) item sequence;
    Ok (mk (update_count q) (removed q) m).

Definition update (q : t) (items : list T) : result t :=
  if int_max <=? update_count q then Throw (undefined_behaviour "overflow of a signed integer")
  else
    let index := update_count q in
    foldM (update_item index) (mk (index + 1) (removed q) (map q)) items.
End queue.
Arguments t T {_ _}.

Section facts.
Context `{Countable T} {lt : T → T → bool} `{ST : !StdSet.StrictTotal (λ _, True) lt}.
Implicit Types (r : ranking T) (q : t T).

Lemma compare_spec a b : compare lt a b = Compare lt a b.
Proof.
  destruct a as [x l], b as [y r]. unfold compare, Compare. simpl.
  revert r. induction l as [|a l IH]; intros [|b r]; [done| | |].
  - rewrite bool_decide_false by done. done.
  - done.
  - simpl. destruct (Z.eqb_spec a b) as [->|Hne].
    + rewrite (bool_decide_ext (b :: l = b :: r) (l = r)) by naive_solver. apply IH.
    + rewrite bool_decide_false by congruence. by rewrite orb_false_r.
Qed.

#[export] Instance compare_total : StdSet.StrictTotal (λ _, True) (compare lt).
Proof.
  split; intros *; rewrite ?compare_spec.
  - apply (StdSet.st_irrefl (D := λ _, True) (lt := Compare lt)).
  - apply (StdSet.st_trans (D := λ _, True) (lt := Compare lt)).
  - apply (StdSet.st_total (D := λ _, True) (lt := Compare lt)).
Qed.

Definition rel (r : ranking T) (q : t T) : Prop :=
  rank_wf r ∧ count r = update_count q ∧ gone r = removed q ∧
  ValueSortedMap.inv (compare lt) (λ _, True) (map q) ∧ ValueSortedMap.map (map q) = seen r.

Lemma first_begin r q x s l : rel r q → ValueSortedMap.set (map q) = (x, s) :: l → is_first lt r x.
Proof.
  intros (_ & _ & _ & Hi & Em) E. pose proof (ValueSortedMap.begin_spec (compare lt) (map q) Hi) as Hb.
  unfold ValueSortedMap.begin in Hb. rewrite E in Hb. simpl in Hb. destruct Hb as [Hx Hmin].
  exists s. rewrite <-Em. split; [done|]. intros y s' Hy.
  destruct (Hmin y s' Hy) as [[= -> _]|Hc]; [by left|right]. by rewrite <-compare_spec.
Qed.

Lemma update_item_rel index r q x :
  count r = index → 0 ≤ index → gone r = removed q →
  ValueSortedMap.inv (compare lt) (λ _, True) (map q) → ValueSortedMap.map (map q) = seen r →
  ∃ q', update_item lt index q x = Ok q' ∧ update_count q' = update_count q ∧
    gone (touch r x) = removed q' ∧ ValueSortedMap.inv (compare lt) (λ _, True) (map q') ∧
    ValueSortedMap.map (map q') = seen (touch r x).
Proof.
  intros <- Hc Hg Hi Em. unfold update_item, touch. rewrite <-Hg.
  destruct (decide (x ∈ gone r)); [by exists q|]. rewrite Em.
  destruct (ValueSortedMap.assign_inv (compare lt) (D := λ _, True) (map q) x
    match seen r !! x with Some s => s ++ [count r] | None => [count r] end I Hi) as (m & E & Hi' & Em').
  rewrite E. eexists. split; [done|]. simpl. split; [done|]. split; [done|]. split; [done|].
  rewrite Em', Em. by destruct (seen r !! x).
Qed.

Lemma update_items_rel index items : ∀ r q,
  count r = index → 0 ≤ index → gone r = removed q →
  ValueSortedMap.inv (compare lt) (λ _, True) (map q) → ValueSortedMap.map (map q) = seen r →
  ∃ q', foldM (update_item lt index) q items = Ok q' ∧ update_count q' = update_count q ∧
    gone (foldl touch r items) = removed q' ∧ ValueSortedMap.inv (compare lt) (λ _, True) (map q') ∧
    ValueSortedMap.map (map q') = seen (foldl touch r items).
Proof.
  induction items as [|x items IH]; intros r q Hc Hi Hg Hv Em; simpl; [by eauto 10|].
  destruct (update_item_rel index r q x Hc Hi Hg Hv Em) as (q1 & -> & Hu & H1 & H2 & H3). simpl.
  destruct (IH (touch r x) q1) as (q2 & -> & Hu2 & ?); [|done..|].
  - by rewrite (proj1 (touch_count r x)).
  - exists q2. by rewrite Hu2, Hu.
Qed.

#[export] Instance v1_queue : PriorityQueue T (t T) := {
  q_empty := empty;
  q_size := size;
  q_isEmpty := isEmpty;
  q_top q := x ← top q; Ok (x, q);
  q_is_top_strict := is_top_strict;
  q_remove q x := Ok (remove lt q x);
  q_update := update lt
}.

Lemma strict_spec r q x : rel r q → is_first lt r x →
  ∃ b, is_top_strict q = Ok b ∧ (b = true ↔ is_strict r x).
Proof.
  intros Hr Hf. pose proof Hr as (_ & _ & _ & [_ Hsort He] & Em). destruct Hf as (s & Ex & Hmin).
  unfold is_top_strict. destruct (ValueSortedMap.set (map q)) as [|[y sy] l] eqn:El.
  { exfalso. rewrite <-Em in Ex. apply He in Ex. by apply elem_of_nil in Ex. }
  pose proof (first_begin r q y sy l Hr El) as Hy.
  assert (y = x) as -> by (eapply first_unique; [exact Hy|by exists s]).
  assert (sy = s) as -> by (assert (ValueSortedMap.map (map q) !! x = Some sy) by (apply He; set_solver); congruence).
  destruct l as [|[z sz] l].
  - exists true. split; [done|]. split; [|done]. intros _ z Ez. rewrite Ex, <-Em in Ez. apply He in Ez. set_solver.
  - eexists. split; [done|]. rewrite negb_true_iff, bool_decide_eq_false.
    inversion Hsort as [|? ? Hl Hall]; subst. rewrite Forall_forall in Hall.
    assert (ValueSortedMap.map (map q) !! z = Some sz) as Ez by (apply He; set_solver).
    split.
    + intros Hne w Ew. rewrite Ex, <-Em in Ew. apply He in Ew.
      apply elem_of_cons in Ew as [[= ->]|[[= -> ->]|Hw]%elem_of_cons]; [done..|]. exfalso.
      inversion Hl as [|? ? _ Hl2]; subst. rewrite Forall_forall in Hl2. specialize (Hl2 _ Hw).
      assert (compare lt (x, s) (z, sz) = true) as Hxz by (apply Hall; set_solver).
      rewrite compare_spec in Hl2, Hxz. unfold Compare in *. simpl in *.
      rewrite bool_decide_false in Hl2, Hxz by congruence. rewrite orb_false_r in Hl2, Hxz.
      apply seq_lt_asym in Hl2. congruence.
    + intros Hs <-. assert (z = x) as -> by (apply Hs; congruence).
      assert (compare lt (x, s) (x, s) = true) as Hxx by (apply Hall; set_solver).
      by rewrite (StdSet.st_irrefl (D := λ _, True)) in Hxx.
Qed.

#[export] Instance v1_laws : QueueLaws T (t T) lt.
Proof.
  refine {| q_rel := rel |}.
  - by intros r q [? _].
  - split; [apply no_ranks_wf|]. split; [done|]. split; [done|]. split; [apply ValueSortedMap.empty_inv; apply _|done].
  - intros r q (_ & _ & _ & _ & Em). simpl. unfold size, ValueSortedMap.size. by rewrite Em.
  - intros r q (_ & _ & _ & _ & Em). simpl. unfold isEmpty, size, ValueSortedMap.size. rewrite Em.
    case_bool_decide as E; [by rewrite E|]. apply Z.eqb_neq. rewrite <-map_size_empty_iff in E. lia.
  - intros r q x Hr Hf. exists q. split; [|done]. simpl. unfold top, ValueSortedMap.begin.
    destruct (ValueSortedMap.set (map q)) as [|[y sy] l] eqn:El.
    + destruct Hr as (_ & _ & _ & [_ _ He] & Em), Hf as (s & Ex & _). rewrite <-Em in Ex. apply He in Ex.
      rewrite El in Ex. by apply elem_of_nil in Ex.
    + simpl. do 2 f_equal. eapply first_unique; [by eapply first_begin|done].
  - apply strict_spec.
  - intros r q x (Hw & Hc & Hg & Hi & Em). eexists. split; [done|]. split; [by apply remove_wf|].
    destruct (ValueSortedMap.vsm_erase_inv (compare lt) (D := λ _, True) (map q) x Hi) as [Hi' Em']. simpl.
    rewrite Em', Em, Hg. done.
  - intros r q items (Hw & Hc & Hg & Hi & Em) Hlt. simpl. unfold update. rewrite <-Hc.
    rewrite (proj2 (Z.leb_gt _ _)) by done.
    destruct (update_items_rel (count r) items r (mk (count r + 1) (removed q) (map q)))
      as (q' & -> & Hu & Hg' & Hi' & Em'); [done|apply Hw|done..|].
    exists q'. split; [done|]. split; [by apply update_wf|]. simpl in *.
    rewrite (proj1 (touches_count items r)). done.
Defined.
End facts.
End IncrementalPriorityQueue.

(** ** The queue of groups of tied items

    The nodes of the two [std::list]s of groups are kept in [heap]; a list is the
    sequence of its nodes, an iterator the number of a node, and [splice] moves a node
    from one list to the other. *)
Module IncrementalPriorityQueueV2.
Section queue.
Context `{Countable T} (lt : T → T → bool).

Record PriorityGroup := mkGroup { items : list T; updatedItemsGroupIt : option Z }.

Record ItemLocation := mkLocation { groupIt : Z; itemIndex : nat }.

Record t := mk {
  heap : gmap Z PriorityGroup;
  fresh : Z;
  priorityGroups_ : list Z;
  recycledPriorityGroups_ : list Z;
  itemToLocation_ : gmap T (option ItemLocation);
  size_ : Z;
  sortedTopGroupItems_ : option (list T)
}.

Definition empty : t := mk ∅ 0 [] [] ∅ 0 None.

Definition with_group (q : t) (id : Z) (g : PriorityGroup) : t :=
  mk (<[id := g]> (heap q)) (fresh q) (priorityGroups_ q) (recycledPriorityGroups_ q)
    (itemToLocation_ q) (size_ q) (sortedTopGroupItems_ q).

Definition with_lists (q : t) (groups recycled : list Z) : t :=
  mk (heap q) (fresh q) groups recycled (itemToLocation_ q) (size_ q) (sortedTopGroupItems_ q).

Definition with_location (q : t) (item : T) (location : option ItemLocation) : t :=
  mk (heap q) (fresh q) (priorityGroups_ q) (recycledPriorityGroups_ q)
    (<[item := location]> (itemToLocation_ q)) (size_ q) (sortedTopGroupItems_ q).

Definition with_size (q : t) (n : Z) : t :=
  mk (heap q) (fresh q) (priorityGroups_ q) (recycledPriorityGroups_ q) (itemToLocation_ q) n
    (sortedTopGroupItems_ q).

Definition with_sorted (q : t) (l : option (list T)) : t :=
  mk (heap q) (fresh q) (priorityGroups_ q) (recycledPriorityGroups_ q) (itemToLocation_ q) (size_ q) l.

(** Dereferencing an iterator. *)
Definition group_at (q : t) (id : Z) : result PriorityGroup :=
  match heap q !! id with
  | Some g => Ok g
  | None => Throw (undefined_behaviour "dangling iterator")
  end.

Definition isEmpty (q : t) : bool := size_ q =? 0.

Definition isBegin (q : t) (id : Z) : bool :=
  match priorityGroups_ q with id' :: _ => id =? id' | [] => false end.

Definition throwIfEmpty (q : t) : result unit :=
  if isEmpty q then Throw (runtime_error "IncrementalPriorityQueueV2 is expected to be non-empty")
  else Ok tt.

(** The order of a sort in which equal elements may come in any order. *)
Definition le (x y : T) : Prop := lt y x = false.
#[export] Instance le_dec x y : Decision (le x y) := decide (lt y x = false).

(** From the worst to the best. *)
Definition sortDescending (l : list T) : list T := reverse (merge_sort le l).

Definition bestItemInTopGroup (q : t) : result (T * t) :=
  match priorityGroups_ q with
  | [] => Throw (undefined_behaviour "the front of an empty list")
  | id :: _ =>
      g ← group_at q id;
      match items g with
      | [x] => Ok (x, q)
      | l =>
          let sorted := match sortedTopGroupItems_ q with
                        | Some s => s
                        | None => sortDescending l
                        end in
          match last sorted with
          | Some x => Ok (x, with_sorted q (Some sorted))
          | None => Throw (undefined_behaviour "the back of an empty vector")
          end
      end
  end.

Definition top (q : t) : result (T * t) := _ ← throwIfEmpty q; bestItemInTopGroup q.

Definition is_top_strict (q : t) : result bool :=
  _ ← throwIfEmpty q;
  match priorityGroups_ q with
  | [] => Throw (undefined_behaviour "the front of an empty list")
  | id :: _ => g ← group_at q id; Ok (length (items g) =? 1)%nat
  end.

Definition markRemoved (q : t) (item : T) : option ItemLocation * t :=
  match itemToLocation_ q !! item with
  | Some (Some location) => (Some location, with_location q item None)
  | Some None => (None, q)
  | None => (None, with_location q item None)
  end.

Definition appendItemToGroup (q : t) (id : Z) (item : T) : result (ItemLocation * t) :=
  g ← group_at q id;
  Ok (mkLocation id (length (items g)), with_group q id (mkGroup (items g ++ [item]) (updatedItemsGroupIt g))).

(** The last item takes the place of the one that is removed. *)
Definition removeItemFromGroup (q : t) (location : ItemLocation) : result t :=
  g ← group_at q (groupIt location);
  let lastItemIndex := (length (items g) - 1)%nat in
  match last (items g) with
  | None => Throw (undefined_behaviour "pop_back of an empty vector")
  | Some lastItem =>
      if decide (itemIndex location = lastItemIndex)
      then Ok (with_group q (groupIt location)
                 (mkGroup (take lastItemIndex (items g)) (updatedItemsGroupIt g)))
      else if (length (items g) <=? itemIndex location)%nat
      then Throw (undefined_behaviour "vector access out of bounds")
      else
        movedItemLocation ← at_ (itemToLocation_ q !! lastItem);
        match movedItemLocation with
        | None => Throw (undefined_behaviour "access to an empty optional")
        | Some l =>
            let q1 := with_location q lastItem (Some (mkLocation (groupIt l) (itemIndex location))) in
            Ok (with_group q1 (groupIt location)
                  (mkGroup (take lastItemIndex (<[itemIndex location := lastItem]> (items g)))
                     (updatedItemsGroupIt g)))
        end
  end.

Definition invalidateSortedTopGroupItemsIfNeeded (q : t) (id : Z) : t :=
  match sortedTopGroupItems_ q with
  | Some _ => if isBegin q id then with_sorted q None else q
  | None => q
  end.

Definition updateSortedTopGroupItemsAfterRemoval (q : t) (id : Z) (item : T) : result t :=
  match sortedTopGroupItems_ q with
  | None => Ok q
  | Some sorted =>
      if negb (isBegin q id) then Ok q
      else match last sorted with
      | None => Throw (undefined_behaviour "the back of an empty vector")
      | Some x =>
          if decide (x = item) then Ok (with_sorted q (Some (take (length sorted - 1) sorted)))
          else Ok (with_sorted q None)
      end
  end.

(** [None] is the end of the list. *)
Fixpoint insert_before (next : option Z) (id : Z) (l : list Z) : list Z :=
  match l with
  | [] => [id]
  | x :: l' => if decide (next = Some x) then id :: l else x :: insert_before next id l'
  end.

Definition insertGroupBefore (q : t) (nextGroupIt : option Z) : Z * t :=
  match recycledPriorityGroups_ q with
  | [] =>
      let id := fresh q in
      (id, mk (<[id := mkGroup [] None]> (heap q)) (id + 1)
             (insert_before nextGroupIt id (priorityGroups_ q)) [] (itemToLocation_ q) (size_ q)
             (sortedTopGroupItems_ q))
  | id :: recycled => (id, with_lists q (insert_before nextGroupIt id (priorityGroups_ q)) recycled)
  end.

Definition eraseGroup (q : t) (id : Z) : t :=
  let q1 := invalidateSortedTopGroupItemsIfNeeded q id in
  with_lists q1 (filter (λ x, x ≠ id) (priorityGroups_ q1)) (recycledPriorityGroups_ q1 ++ [id]).

Definition eraseGroupIfEmpty (q : t) (id : Z) : result t :=
  g ← group_at q id;
  match items g with
  | [] => Ok (eraseGroup q id)
  | _ => Ok q
  end.

Definition remove (q : t) (item : T) : result t :=
  match markRemoved q item with
  | (None, q1) => Ok q1
  | (Some removedLocation, q1) =>
      q2 ← updateSortedTopGroupItemsAfterRemoval q1 (groupIt removedLocation) item;
      q3 ← removeItemFromGroup q2 removedLocation;
      q4 ← eraseGroupIfEmpty q3 (groupIt removedLocation);
      Ok (with_size q4 (size_ q4 - 1))
  end.

Definition addNewItem (q : t) (item : T) (newItemsGroupIt : option Z) : result (t * option Z) :=
  let '(id, q1) := match newItemsGroupIt with
                   | Some id => (id, q)
                   | None => insertGroupBefore q None
                   end in
  '(location, q2) ← appendItemToGroup q1 id item;
  let q3 := with_location q2 item (Some location) in
  Ok (with_size q3 (size_ q3 + 1), Some id).

Definition getOrCreateNewGroupBefore (q : t) (source : Z) (splitSourceGroups : list Z)
    : result (Z * t * list Z) :=
  g ← group_at q source;
  match updatedItemsGroupIt g with
  | Some id => Ok (id, q, splitSourceGroups)
  | None =>
      let '(id, q1) := insertGroupBefore q (Some source) in
      g1 ← group_at q1 source;
      Ok (id, with_group q1 source (mkGroup (items g1) (Some id)), splitSourceGroups ++ [source])
  end.

Definition moveToNewGroupBeforeCurrentGroup (q : t) (item : T) (location : ItemLocation)
    (splitSourceGroups : list Z) : result (t * list Z) :=
  let q1 := invalidateSortedTopGroupItemsIfNeeded q (groupIt location) in
  q2 ← removeItemFromGroup q1 location;
  '(id, q3, splits) ← getOrCreateNewGroupBefore q2 (groupIt location) splitSourceGroups;
  '(location', q4) ← appendItemToGroup q3 id item;
  Ok (with_location q4 item (Some location'), splits).

(** The body of the loop of [update]. *)
Definition update_item (s : t * option Z * list Z) (item : T) : result (t * option Z * list Z) :=
  let '(q, newItemsGroupIt, splitSourceGroups) := s in
  match itemToLocation_ q !! item with
  | None =>
      '(q1, new) ← addNewItem (with_location q item None) item newItemsGroupIt;
      Ok (q1, new, splitSourceGroups)
  | Some None => Ok (q, newItemsGroupIt, splitSourceGroups)
  | Some (Some location) =>
      '(q1, splits) ← moveToNewGroupBeforeCurrentGroup q item location splitSourceGroups;
      Ok (q1, newItemsGroupIt, splits)
  end.

Definition finish_split (q : t) (source : Z) : result t :=
  g ← group_at q source;
  eraseGroupIfEmpty (with_group q source (mkGroup (items g) None)) source.

Definition finishGroupSplits (q : t) (splitSourceGroups : list Z) : result t :=
  foldM finish_split q splitSourceGroups.

Definition update (q : t) (new_items : list T) : result t :=
  '(q1, _, splits) ← foldM update_item (q, None, []) new_items;
  finishGroupSplits q1 splits.
End queue.
Arguments t T {_ _}.
Arguments PriorityGroup : clear implicits.
End IncrementalPriorityQueueV2.

(** ** Later updates

    An item that is strictly first stays first whatever updates follow, and removing
    an item commutes with them: so the items can be taken in order while the updates
    are still being fed. *)
Section later.
Context `{Countable T} {lt : T → T → bool} `{ST : !StdSet.StrictTotal (λ _, True) lt}.
Implicit Types (r : ranking T) (x y : T).

Lemma touch_remove r x y : touch (rank_remove r x) y = rank_remove (touch r y) x.
Proof.
  unfold touch, rank_remove. simpl. destruct (decide (y = x)) as [->|Hne].
  - rewrite decide_True by set_solver. case_decide; [done|]. simpl. by rewrite delete_insert_eq.
  - destruct (decide (y ∈ gone r)).
    + by rewrite !decide_True by set_solver.
    + rewrite !decide_False by set_solver. simpl. rewrite lookup_delete_ne by done.
      by rewrite delete_insert_ne.
Qed.

Lemma update_remove r x items : rank_update (rank_remove r x) items = rank_remove (rank_update r items) x.
Proof.
  unfold rank_update. enough (foldl touch (rank_remove r x) items = rank_remove (foldl touch r items) x) as -> by done.
  revert r. induction items as [|y items IH]; intros r; [done|]. simpl. by rewrite touch_remove, IH.
Qed.

Lemma updates_remove us : ∀ r x,
  foldl rank_update (rank_remove r x) us = rank_remove (foldl rank_update r us) x.
Proof. induction us as [|u us IH]; intros r x; [done|]. simpl. by rewrite update_remove, IH. Qed.

(** Sequences only grow, by numbers of later updates. *)
Definition grows (i : Z) (s s' : option (list Z)) : Prop :=
  match s' with
  | Some t => ∃ e, t = default [] s ++ e ∧ Forall (λ j, i ≤ j) e
  | None => s = None
  end.

Lemma queue_grows_refl i s : grows i s s.
Proof. destruct s as [s|]; [|done]. exists []. by rewrite app_nil_r. Qed.

Lemma queue_grows_trans i s1 s2 s3 : grows i s1 s2 → grows i s2 s3 → grows i s1 s3.
Proof.
  destruct s3 as [t3|]; simpl; [|by intros H1 ->].
  intros H1 (e2 & -> & He2). destruct s2 as [t2|]; simpl in *.
  - destruct H1 as (e1 & -> & He1). exists (e1 ++ e2). rewrite <-(assoc_L (++)). split; [done|].
    by apply Forall_app.
  - subst s1. by exists e2.
Qed.

Lemma touch_grows i r x y : i ≤ count r → grows i (seen r !! y) (seen (touch r x) !! y).
Proof.
  intros Hi. unfold touch. case_decide; [apply queue_grows_refl|]. simpl. destruct (decide (y = x)) as [->|].
  - rewrite lookup_insert_eq. exists [count r]. split; [done|]. by constructor.
  - rewrite lookup_insert_ne by done. apply queue_grows_refl.
Qed.

Lemma touches_grow i items : ∀ r y, i ≤ count r → grows i (seen r !! y) (seen (foldl touch r items) !! y).
Proof.
  induction items as [|x items IH]; intros r y Hi; simpl; [apply queue_grows_refl|].
  eapply queue_grows_trans; [by apply (touch_grows i r x)|]. apply IH. by rewrite (proj1 (touch_count r x)).
Qed.

Lemma updates_grow i us : ∀ r y, i ≤ count r → grows i (seen r !! y) (seen (foldl rank_update r us) !! y).
Proof.
  induction us as [|u us IH]; intros r y Hi; simpl; [apply queue_grows_refl|].
  eapply queue_grows_trans; [by apply (touches_grow i u r)|]. apply (IH (rank_update r u)).
  simpl. rewrite (proj1 (touches_count u r)). lia.
Qed.

Lemma updates_wf us : ∀ r, rank_wf r → rank_wf (foldl rank_update r us).
Proof. induction us as [|u us IH]; intros r Hr; simpl; [done|]. by apply IH, update_wf. Qed.

Lemma strict_first_stays r x us :
  rank_wf r → is_first lt r x → is_strict r x → is_first lt (foldl rank_update r us) x.
Proof.
  intros Hw (s & Ex & Hmin) Hs. destruct (wf_seq _ Hw x s Ex) as [Hne Hlt].
  pose proof (updates_grow (count r) us r x (Z.le_refl _)) as Gx. rewrite Ex in Gx.
  destruct (seen (foldl rank_update r us) !! x) as [s1|] eqn:E1; [|done]. destruct Gx as (e1 & -> & He1). simpl in E1.
  exists (s ++ e1). split; [done|]. intros y s2 E2.
  pose proof (updates_grow (count r) us r y (Z.le_refl _)) as Gy. rewrite E2 in Gy. destruct Gy as (e2 & -> & He2).
  unfold Compare. simpl. destruct (seen r !! y) as [sy|] eqn:Ey; simpl in *.
  - destruct (Hmin y sy Ey) as [->|Hc]; [by left|]. unfold Compare in Hc. simpl in Hc.
    apply orb_true_iff in Hc as [Hc|[Hc%bool_decide_eq_true _]%andb_true_iff].
    + right. rewrite (seq_lt_app (count r)); [done|done| |done|done]. by apply (wf_seq _ Hw y sy).
    + left. apply Hs. by rewrite Ex, Ey, Hc.
  - right. destruct (wf_seq _ (updates_wf us r Hw) y e2 E2) as [He2' _].
    destruct s as [|a s], e2 as [|b e2]; try done. simpl. inversion Hlt; inversion He2; subst.
    destruct (Z.eqb_spec a b); [lia|]. by rewrite (proj2 (Z.ltb_lt a b)) by lia.
Qed.

(** The items in the order of a ranking. *)
Record in_order r (l : list T) : Prop := {
  io_elem x : x ∈ l ↔ is_Some (seen r !! x);
  io_sorted : StronglySorted (λ x y, Compare lt (x, default [] (seen r !! x)) (y, default [] (seen r !! y)) = true) l
}.

Lemma in_order_cons r x l : is_first lt r x → in_order (rank_remove r x) l → in_order r (x :: l).
Proof.
  intros (s & Ex & Hmin) [Hel Hsort]. simpl in *. split.
  - intros y. rewrite elem_of_cons, Hel. destruct (decide (y = x)) as [->|Hne].
    + rewrite Ex. split; [by eexists|by left].
    + rewrite lookup_delete_ne by done. naive_solver.
  - assert (∀ y, y ∈ l → y ≠ x ∧ is_Some (seen r !! y)) as Hl.
    { intros y Hy%Hel. destruct (decide (y = x)) as [->|Hne]; [rewrite lookup_delete_eq in Hy; by destruct Hy|].
      by rewrite lookup_delete_ne in Hy. }
    constructor.
    + clear Hel Hmin. induction Hsort as [|y m Hm IH Hf]; [constructor|]. constructor; [apply IH; set_solver|].
      rewrite Forall_forall in *. intros z Hz. specialize (Hf z Hz).
      rewrite !lookup_delete_ne in Hf; [done|apply not_eq_sym, Hl; set_solver..].
    + apply Forall_forall. intros y Hy. destruct (Hl y Hy) as [Hne [t Et]]. rewrite Ex, Et. simpl.
      destruct (Hmin y t Et); done.
Qed.

Lemma in_order_nil r : seen r = ∅ → in_order r [].
Proof.
  intros E. split; [|constructor]. intros x. rewrite E, lookup_empty.
  split; [by intros ?%elem_of_nil|by intros [? ?]].
Qed.

Lemma in_order_NoDup r l : in_order r l → NoDup l.
Proof.
  intros [_ Hs]. induction Hs as [|x l _ IH Hf]; constructor; [|done]. intros Hx.
  rewrite Forall_forall in Hf. specialize (Hf x Hx).
  by rewrite (StdSet.st_irrefl (D := λ _, True) (lt := Compare lt)) in Hf.
Qed.

Lemma in_order_unique r l1 l2 : in_order r l1 → in_order r l2 → l1 = l2.
Proof.
  intros H1 H2. pose proof (in_order_NoDup r l1 H1) as N1. pose proof (in_order_NoDup r l2 H2) as N2.
  destruct H1 as [E1 S1], H2 as [E2 S2].
  eapply (StronglySorted_unique_strong); [|exact S1|exact S2|].
  - intros x y _ _ Hxy Hyx. exfalso.
    apply (StdSet.lt_asym (D := λ _, True) (lt := Compare lt)) in Hxy; [congruence|done..].
  - apply NoDup_Permutation; [done..|]. intros x. by rewrite E1, E2.
Qed.
End later.
