(* ===== verification/GroupQueue.v ===== *)
(** * The queue of groups keeps the promise of the incremental queues

    algopt_common/IncrementalPriorityQueueV2.h: the groups are labelled with the
    sequence of updates their items were in; the labels are sorted, an update splits a
    group into the items it touches, with a longer label, and those left behind. *)

From stdpp Require Import sorting.
From S2P Require Import Prelude AccessOrderedSet Queues IncrementalQueue.

Open Scope Z_scope.

(** ** Lists *)

(** The last element takes the place of the [i]-th. *)
Definition swap_pop {T} (i : nat) (z : T) (l : list T) : list T := take (length l - 1) (<[i := z]> l).

Lemma swap_pop_lookup {T} (l : list T) i z x :
  NoDup l → l !! i = Some x → last l = Some z → i ≠ (length l - 1)%nat →
  z ≠ x ∧ ∀ j y, swap_pop i z l !! j = Some y ↔ (j = i ∧ y = z) ∨ (l !! j = Some y ∧ y ≠ x ∧ y ≠ z).
Proof.
  intros Hnd Hx Hz Hi. rewrite last_lookup in Hz. replace (pred (length l)) with (length l - 1)%nat in Hz by lia.
  pose proof (lookup_lt_Some _ _ _ Hx) as Hlt.
  assert (z ≠ x) as Hzx. { intros ->. by apply Hi, (NoDup_lookup l _ _ x). }
  split; [done|]. intros j y. unfold swap_pop. rewrite lookup_take_Some.
  split.
  - intros [E Hj]. destruct (decide (j = i)) as [->|Hji].
    + rewrite list_lookup_insert_eq in E by done. injection E as <-. by left.
    + rewrite list_lookup_insert_ne in E by done. right. split; [done|]. split.
      * intros ->. by apply Hji, (NoDup_lookup l _ _ x).
      * intros ->. assert (j = length l - 1)%nat by by eapply (NoDup_lookup l _ _ z). lia.
  - intros [[-> ->]|(E & Hyx & Hyz)].
    + split; [|lia]. by rewrite list_lookup_insert_eq.
    + assert (j ≠ i) by congruence. split; [by rewrite list_lookup_insert_ne|].
      pose proof (lookup_lt_Some _ _ _ E). assert (j ≠ length l - 1)%nat by congruence. lia.
Qed.

Lemma pop_lookup {T} (l : list T) x :
  NoDup l → l !! (length l - 1)%nat = Some x →
  ∀ j y, take (length l - 1) l !! j = Some y ↔ l !! j = Some y ∧ y ≠ x.
Proof.
  intros Hnd Hx j y. rewrite lookup_take_Some. split.
  - intros [E Hj]. split; [done|]. intros ->. assert (j = length l - 1)%nat by by eapply (NoDup_lookup l _ _ x). lia.
  - intros [E Hne]. split; [done|]. pose proof (lookup_lt_Some _ _ _ E).
    assert (j ≠ length l - 1)%nat by congruence. lia.
Qed.

Lemma sorted_insert_mid {X} (R : X → X → Prop) l1 x l2 :
  StronglySorted R (l1 ++ l2) → (∀ a, a ∈ l1 → R a x) → (∀ b, b ∈ l2 → R x b) →
  StronglySorted R (l1 ++ x :: l2).
Proof.
  induction l1 as [|a l1 IH]; simpl; intros Hs H1 H2.
  - constructor; [done|]. by apply Forall_forall.
  - inversion Hs as [|? ? Hs' Hf]; subst. constructor; [apply IH; [done|set_solver|done]|].
    rewrite Forall_app in *. destruct Hf as [Hf1 Hf2]. split; [done|]. constructor; [apply H1; set_solver|done].
Qed.

Lemma sorted_around {X} (R : X → X → Prop) l1 x l2 :
  StronglySorted R (l1 ++ x :: l2) → (∀ a, a ∈ l1 → R a x) ∧ (∀ b, b ∈ l2 → R x b).
Proof.
  induction l1 as [|a l1 IH]; simpl; intros Hs; inversion Hs as [|? ? Hs' Hf]; subst;
    rewrite Forall_forall in Hf.
  - split; [by intros ? ?%elem_of_nil|done].
  - destruct (IH Hs') as [H1 H2]. split; [|done]. intros b [->|Hb]%elem_of_cons; [apply Hf; set_solver|auto].
Qed.

Lemma sorted_impl_in {X} (R R' : X → X → Prop) l :
  (∀ a b, a ∈ l → b ∈ l → R a b → R' a b) → StronglySorted R l → StronglySorted R' l.
Proof.
  intros HR Hs. induction Hs as [|x l Hs IH Hf]; constructor.
  - apply IH. intros a b Ha Hb. apply HR; set_solver.
  - rewrite Forall_forall in *. intros b Hb. apply HR; [set_solver..|]. by apply Hf.
Qed.

Lemma sorted_filter {X} (R : X → X → Prop) (P : X → Prop) `{∀ x, Decision (P x)} l :
  StronglySorted R l → StronglySorted R (filter P l).
Proof.
  induction 1 as [|x l Hs IH Hf]; [constructor|]. rewrite filter_cons. case_decide; [|done].
  constructor; [done|]. rewrite Forall_forall in *. intros y [_ Hy]%list_elem_of_filter. by apply Hf.
Qed.

Module GroupQueue.
Import IncrementalPriorityQueueV2.
Section facts.
Context `{Countable T} {lt : T → T → bool} `{ST : !StdSet.StrictTotal (λ _, True) lt}.
Implicit Types (r : ranking T) (q : t T) (g : PriorityGroup T) (x y z : T) (id : Z).

Lemma insert_before_end id l : insert_before None id l = l ++ [id].
Proof. induction l as [|x l IH]; simpl; [done|]. by rewrite IH. Qed.

Lemma insert_before_mid n id l : n ∈ l →
  ∃ l1 l2, l = l1 ++ n :: l2 ∧ insert_before (Some n) id l = l1 ++ id :: n :: l2.
Proof.
  induction l as [|x l IH]; simpl; [by intros ?%elem_of_nil|]. case_decide as E.
  - injection E as ->. intros _. by exists [], l.
  - intros [->|Hn]%elem_of_cons; [done|]. destruct (IH Hn) as (l1 & l2 & -> & ->). by exists (x :: l1), l2.
Qed.

(** ** The representation

    Every node is in at most one list, the recycled ones are empty; the locations
    are the positions of the items, but for an item that is between two groups. *)
Record shape q : Prop := {
  sh_ids : NoDup (priorityGroups_ q ++ recycledPriorityGroups_ q);
  sh_heap id : id ∈ priorityGroups_ q → is_Some (heap q !! id);
  sh_fresh id : is_Some (heap q !! id) → id < fresh q;
  sh_recycled id : id ∈ recycledPriorityGroups_ q → heap q !! id = Some (mkGroup [] None)
}.

Definition content q id x : Prop := ∃ g, heap q !! id = Some g ∧ x ∈ items g.

Definition located (skip : option T) q : Prop := ∀ x,
  if decide (skip = Some x)
  then ∀ id, id ∈ priorityGroups_ q → ¬ content q id x
  else ∀ l, itemToLocation_ q !! x = Some (Some l) ↔ groupIt l ∈ priorityGroups_ q ∧
         ∃ g, heap q !! groupIt l = Some g ∧ items g !! itemIndex l = Some x.

Lemma located_at q x l : located None q →
  (itemToLocation_ q !! x = Some (Some l) ↔ groupIt l ∈ priorityGroups_ q ∧
         ∃ g, heap q !! groupIt l = Some g ∧ items g !! itemIndex l = Some x).
Proof. intros Hl. specialize (Hl x). by rewrite decide_False in Hl. Qed.

Lemma located_content q x id : located None q → id ∈ priorityGroups_ q →
  content q id x ↔ ∃ i, itemToLocation_ q !! x = Some (Some (mkLocation id i)).
Proof.
  intros Hl Hid. split.
  - intros (g & Eg & [i Ei]%list_elem_of_lookup_1). exists i. apply located_at; [done|]. simpl. eauto.
  - intros [i E]. apply located_at in E as [_ (g & Eg & Ei)]; [|done]. exists g. split; [done|].
    by eapply list_elem_of_lookup_2.
Qed.

Lemma content_unique q x id1 id2 : located None q →
  id1 ∈ priorityGroups_ q → id2 ∈ priorityGroups_ q → content q id1 x → content q id2 x → id1 = id2.
Proof.
  intros Hl H1 H2 [i1 E1]%located_content [i2 E2]%located_content; [|done..]. congruence.
Qed.

Lemma located_NoDup q id g : located None q → id ∈ priorityGroups_ q → heap q !! id = Some g → NoDup (items g).
Proof.
  intros Hl Hid Eg. apply NoDup_alt. intros i j x Ei Ej.
  assert (itemToLocation_ q !! x = Some (Some (mkLocation id i))) as E1 by (apply located_at; [done|]; simpl; eauto).
  assert (itemToLocation_ q !! x = Some (Some (mkLocation id j))) as E2 by (apply located_at; [done|]; simpl; eauto).
  congruence.
Qed.

(** ** Removing an item from its group *)
Record removed q id g x q' g' : Prop := {
  rm_heap : heap q' = <[id := g']> (heap q);
  rm_updated : updatedItemsGroupIt g' = updatedItemsGroupIt g;
  rm_NoDup : NoDup (items g');
  rm_items y : y ∈ items g' ↔ y ∈ items g ∧ y ≠ x;
  rm_located : located (Some x) q';
  rm_location : itemToLocation_ q' !! x = itemToLocation_ q !! x;
  rm_present y : itemToLocation_ q' !! y = None ↔ itemToLocation_ q !! y = None;
  rm_gone y : itemToLocation_ q' !! y = Some None ↔ itemToLocation_ q !! y = Some None;
  rm_frame : fresh q' = fresh q ∧ priorityGroups_ q' = priorityGroups_ q ∧
    recycledPriorityGroups_ q' = recycledPriorityGroups_ q ∧ size_ q' = size_ q ∧
    sortedTopGroupItems_ q' = sortedTopGroupItems_ q
}.

Lemma located_after q q' id g g' x :
  located None q → id ∈ priorityGroups_ q → heap q !! id = Some g → x ∈ items g →
  priorityGroups_ q' = priorityGroups_ q → heap q' = <[id := g']> (heap q) → x ∉ items g' →
  (∀ y l, y ≠ x → itemToLocation_ q' !! y = Some (Some l) ↔
     (groupIt l = id ∧ items g' !! itemIndex l = Some y) ∨
     (groupIt l ≠ id ∧ itemToLocation_ q !! y = Some (Some l))) →
  located (Some x) q'.
Proof.
  intros Hl Hid Eg Hx Ep Eh Hx' Hloc y. case_decide as Hy.
  - injection Hy as ->. rewrite Ep. intros k Hk (g1 & Ek & H1). rewrite Eh in Ek.
    destruct (decide (k = id)) as [->|Hne].
    + rewrite lookup_insert_eq in Ek. by injection Ek as <-.
    + rewrite lookup_insert_ne in Ek by done.
      apply Hne, (content_unique q y); [done..|by exists g1|by exists g].
  - intros l. rewrite Hloc, Ep, Eh by congruence. destruct (decide (groupIt l = id)) as [El|Hne].
    + rewrite El, lookup_insert_eq. split; [naive_solver|]. intros [_ (g1 & [= <-] & E)]. by left.
    + rewrite lookup_insert_ne, located_at by done. naive_solver.
Qed.

Lemma remove_last q id x g :
  located None q → id ∈ priorityGroups_ q → heap q !! id = Some g →
  items g !! (length (items g) - 1)%nat = Some x →
  removed q id g x (with_group q id (mkGroup (take (length (items g) - 1) (items g)) (updatedItemsGroupIt g)))
    (mkGroup (take (length (items g) - 1) (items g)) (updatedItemsGroupIt g)).
Proof.
  intros Hl Hid Eg Ei. pose proof (located_NoDup q id g Hl Hid Eg) as Hnd.
  pose proof (pop_lookup _ _ Hnd Ei) as Hp.
  assert (∀ y, y ∈ take (length (items g) - 1) (items g) ↔ y ∈ items g ∧ y ≠ x) as Hin.
  { intros y. rewrite !list_elem_of_lookup. setoid_rewrite Hp. naive_solver. }
  split; simpl; try done; [by apply (sublist_NoDup _ _ Hnd), sublist_take|].
  eapply (located_after q _ id g); simpl; try done; [by eapply list_elem_of_lookup_2|by intros [_ ?]%Hin|].
  intros y l Hy. rewrite Hp. destruct (decide (groupIt l = id)) as [El|Hne]; [|naive_solver].
  rewrite located_at, El, Eg by done. naive_solver.
Qed.

Lemma remove_swap q id i x z g :
  located None q → id ∈ priorityGroups_ q → heap q !! id = Some g → items g !! i = Some x →
  last (items g) = Some z → i ≠ (length (items g) - 1)%nat →
  itemToLocation_ q !! z = Some (Some (mkLocation id (length (items g) - 1))) ∧
  removed q id g x
    (with_group (with_location q z (Some (mkLocation id i))) id
       (mkGroup (swap_pop i z (items g)) (updatedItemsGroupIt g)))
    (mkGroup (swap_pop i z (items g)) (updatedItemsGroupIt g)).
Proof.
  intros Hl Hid Eg Ei Ez Hi. pose proof (located_NoDup q id g Hl Hid Eg) as Hnd.
  destruct (swap_pop_lookup (items g) i z x Hnd Ei Ez Hi) as [Hzx Hp].
  assert (itemToLocation_ q !! z = Some (Some (mkLocation id (length (items g) - 1)))) as Eloc.
  { apply located_at; [done|]. simpl. split; [done|]. exists g. split; [done|].
    rewrite last_lookup in Ez. by replace (length (items g) - 1)%nat with (pred (length (items g))) by lia. }
  assert (∀ y, y ∈ swap_pop i z (items g) ↔ y ∈ items g ∧ y ≠ x) as Hin.
  { intros y. rewrite !list_elem_of_lookup. setoid_rewrite Hp. split; [|intros [[j Ej] Hyx]].
    - intros (j & [[-> ->]|(E & ? & _)]); [|naive_solver]. split; [|done]. exists (pred (length (items g))).
      by rewrite <-last_lookup.
    - destruct (decide (y = z)) as [->|]; [exists i; by left|exists j; by right]. }
  split; [done|]. split; simpl; try done.
  - apply NoDup_alt. intros j k y Ej Ek.
    apply Hp in Ej as [[-> ->]|(E1 & _ & N1)], Ek as [[-> Ey]|(E2 & _ & N2)]; [done..|].
    by eapply (NoDup_lookup (items g)).
  - eapply (located_after q _ id g); simpl; try done; [by eapply list_elem_of_lookup_2|by intros [_ ?]%Hin|].
    intros y l Hy. rewrite Hp. destruct (decide (y = z)) as [->|Hyz].
    + rewrite lookup_insert_eq, Eloc. destruct l as [gi ii]; simpl. naive_solver.
    + rewrite lookup_insert_ne by done. destruct (decide (groupIt l = id)) as [El|Hne]; [|naive_solver].
      rewrite located_at, El, Eg by done. naive_solver.
  - by rewrite lookup_insert_ne.
  - intros y. destruct (decide (y = z)) as [->|]; [by rewrite lookup_insert_eq, Eloc|by rewrite lookup_insert_ne].
  - intros y. destruct (decide (y = z)) as [->|]; [by rewrite lookup_insert_eq, Eloc|by rewrite lookup_insert_ne].
Qed.

Lemma remove_from_group q id i x g :
  located None q → id ∈ priorityGroups_ q → heap q !! id = Some g → items g !! i = Some x →
  ∃ q' g', removeItemFromGroup q (mkLocation id i) = Ok q' ∧ removed q id g x q' g'.
Proof.
  intros Hl Hid Eg Ei. unfold removeItemFromGroup, group_at. cbn [groupIt itemIndex]. rewrite Eg.
  cbn [mbind result_bind]. destruct (last (items g)) as [z|] eqn:Ez; [|by apply last_None in Ez; rewrite Ez in Ei].
  case_decide as Hi.
  - subst i. eexists _, _. split; [done|]. by apply remove_last.
  - rewrite (proj2 (Nat.leb_gt _ _)) by (by eapply lookup_lt_Some).
    destruct (remove_swap q id i x z g Hl Hid Eg Ei Ez Hi) as [-> Hr].
    eexists _, _. split; [done|]. exact Hr.
Qed.

(** ** Putting an item into a group *)
Lemma append_to_group q id g x :
  located (Some x) q → id ∈ priorityGroups_ q → heap q !! id = Some g →
  let g' := mkGroup (items g ++ [x]) (updatedItemsGroupIt g) in
  ∃ l, appendItemToGroup q id x = Ok (l, with_group q id g') ∧
    located None (with_location (with_group q id g') x (Some l)).
Proof.
  intros Hl Hid Eg g'. unfold appendItemToGroup, group_at. rewrite Eg. eexists. split; [done|].
  intros y. rewrite decide_False by done. intros l. simpl.
  pose proof (Hl x) as Hx. rewrite decide_True in Hx by done.
  destruct (decide (y = x)) as [->|Hne].
  - rewrite lookup_insert_eq. split.
    + intros [= <-]. simpl. split; [done|]. rewrite lookup_insert_eq. eexists. split; [done|]. simpl.
      by apply list_lookup_middle.
    + intros [Hg (g1 & E1 & E2)]. destruct (decide (groupIt l = id)) as [El|Hne].
      * rewrite El, lookup_insert_eq in E1. injection E1 as <-. simpl in E2.
        apply lookup_app_Some in E2 as [E2|[H1 E2]].
        -- exfalso. apply (Hx id Hid). exists g. split; [done|]. by eapply list_elem_of_lookup_2.
        -- apply list_lookup_singleton_Some in E2 as [E2 _]. destruct l as [a b]; simpl in *. subst. do 3 f_equal. lia.
      * rewrite lookup_insert_ne in E1 by done. exfalso. apply (Hx (groupIt l) Hg). exists g1. split; [done|].
        by eapply list_elem_of_lookup_2.
  - rewrite lookup_insert_ne by done. specialize (Hl y). rewrite decide_False in Hl by congruence.
    rewrite Hl. destruct (decide (groupIt l = id)) as [El|Hn].
    + rewrite El, lookup_insert_eq, Eg. split; intros [? (g1 & [= <-] & E)]; split; try done; eexists; (split; [done|]).
      * simpl. rewrite lookup_app_l; [done|]. by eapply lookup_lt_Some.
      * simpl in E. apply lookup_app_Some in E as [E|[_ E]]; [done|].
        by apply list_lookup_singleton_Some in E as [_ ?].
    + by rewrite lookup_insert_ne.
Qed.

(** ** A new group *)
Record inserted q q' id : Prop := {
  in_new : id ∉ priorityGroups_ q;
  in_group : heap q' !! id = Some (mkGroup [] None);
  in_heap k : k ≠ id → heap q' !! k = heap q !! k;
  in_shape : shape q';
  in_frame : itemToLocation_ q' = itemToLocation_ q ∧ size_ q' = size_ q ∧
    sortedTopGroupItems_ q' = sortedTopGroupItems_ q
}.

Lemma insert_before_perm next id l : insert_before next id l ≡ₚ id :: l.
Proof.
  induction l as [|x l IH]; simpl; [done|]. case_decide; [done|]. rewrite IH. apply Permutation_swap.
Qed.

Lemma insert_group q next : shape q →
  ∃ id q', insertGroupBefore q next = (id, q') ∧ inserted q q' id ∧
    priorityGroups_ q' = insert_before next id (priorityGroups_ q).
Proof.
  intros [Hn Hh Hf Hr]. unfold insertGroupBefore.
  destruct (recycledPriorityGroups_ q) as [|id rec] eqn:Er.
  - eexists _, _. split; [done|]. split; [|done].
    assert (fresh q ∉ priorityGroups_ q) as Hnew.
    { intros Hin. apply Hh, Hf in Hin. lia. }
    split; simpl; try done; [by rewrite lookup_insert_eq|intros; by rewrite lookup_insert_ne|].
    split; simpl.
    + rewrite app_nil_r in *. rewrite insert_before_perm. by constructor.
    + intros k. rewrite insert_before_perm. intros [->|Hk]%elem_of_cons; [by rewrite lookup_insert_eq|].
      rewrite lookup_insert_ne; [by apply Hh|]. congruence.
    + intros k [g Hk]. apply lookup_insert_Some in Hk as [[<- _]|[_ Hk]]; [lia|].
      assert (k < fresh q) by (apply Hf; by eexists). lia.
    + intros k ?%elem_of_nil. done.
  - eexists _, _. split; [done|]. split; [|done].
    assert (id ∉ priorityGroups_ q ++ rec) as Hnew.
    { rewrite <-Permutation_middle in Hn. by apply NoDup_cons in Hn as [? _]. }
    split; simpl; try done; [set_solver|apply Hr; set_solver|].
    split; simpl.
    + rewrite insert_before_perm, <-app_comm_cons, Permutation_middle. done.
    + intros k. rewrite insert_before_perm. intros [->|Hk]%elem_of_cons; [|by apply Hh].
      exists (mkGroup [] None). apply Hr. set_solver.
    + done.
    + intros k Hk. apply Hr. set_solver.
Qed.

(** ** The invariant

    Every group has a label, the sequence of updates of its items; [skip] is an item
    that is between two groups.  The sorted copy of the first group is kept only
    while the current update has not touched the group. *)
Definition ascending (l : list T) : Prop := StronglySorted (λ a b, lt a b = true) l.

Record core (skip : option T) (lab : Z → list Z) r q : Prop := {
  c_shape : shape q;
  c_located : located skip q;
  c_skip x : skip = Some x → seen r !! x = None;
  c_content id x : id ∈ priorityGroups_ q → content q id x → seen r !! x = Some (lab id);
  c_seen x : is_Some (seen r !! x) → ∃ id, id ∈ priorityGroups_ q ∧ content q id x;
  c_gone x : skip ≠ Some x → itemToLocation_ q !! x = Some None ↔ x ∈ gone r;
  c_sorted : StronglySorted (λ a b, seq_lt (lab a) (lab b) = true) (priorityGroups_ q);
  c_lab id : id ∈ priorityGroups_ q → lab id ≠ [] ∧ Forall (λ i, i ≤ count r) (lab id);
  c_cache l : sortedTopGroupItems_ q = Some l → ∃ id rest g, priorityGroups_ q = id :: rest ∧
    heap q !! id = Some g ∧ l ≡ₚ items g ∧ ascending (reverse l) ∧ count r ∉ lab id
}.

(** The groups an update has split, [out] being one that is being split. *)
Record splitting (out : option Z) (lab : Z → list Z) r q (splits : list Z) (new : option Z) : Prop := {
  s_NoDup : NoDup splits;
  s_source id : id ∈ splits → id ∈ priorityGroups_ q ∧
    ∃ g u, heap q !! id = Some g ∧ updatedItemsGroupIt g = Some u;
  s_updated id g u : id ∈ priorityGroups_ q → heap q !! id = Some g → updatedItemsGroupIt g = Some u →
    id ∈ splits ∧ u ∈ priorityGroups_ q ∧ lab u = lab id ++ [count r];
  s_empty id g : out ≠ Some id → id ∈ priorityGroups_ q → heap q !! id = Some g → items g = [] → id ∈ splits;
  s_target a b : a ∈ priorityGroups_ q → b ∈ priorityGroups_ q → lab a = lab b ++ [count r] →
    ∃ g, heap q !! b = Some g ∧ updatedItemsGroupIt g = Some a;
  s_closed a s : a ∈ priorityGroups_ q → lab a = s ++ [count r] →
    s = [] ∨ ∃ b, b ∈ priorityGroups_ q ∧ lab b = s;
  s_new a : a ∈ priorityGroups_ q → lab a = [count r] → new = Some a;
  s_new_in a : new = Some a → a ∈ priorityGroups_ q ∧ lab a = [count r]
}.

Definition put r x (s : list Z) : ranking T := mkRanking (count r) (gone r) (<[x := s]> (seen r)).
Definition minus r x : ranking T := mkRanking (count r) (gone r) (delete x (seen r)).

Lemma touch_put r x : x ∉ gone r →
  touch r x = put (minus r x) x (default [] (seen r !! x) ++ [count r]).
Proof. intros Hx. unfold touch, put, minus. rewrite decide_False by done. simpl. by rewrite insert_delete_eq. Qed.

Lemma begin_head q id : isBegin q id = true ↔ ∃ rest, priorityGroups_ q = id :: rest.
Proof.
  unfold isBegin. destruct (priorityGroups_ q) as [|a l]; [naive_solver|]. rewrite Z.eqb_eq. naive_solver.
Qed.

(** The splits do not depend on the items, but for groups that become empty. *)
Lemma splitting_group out0 out lab r r' q q' id g g' splits new :
  count r' = count r → priorityGroups_ q' = priorityGroups_ q → heap q' = <[id := g']> (heap q) →
  heap q !! id = Some g → updatedItemsGroupIt g' = updatedItemsGroupIt g →
  (items g' = [] → out = Some id) → out0 = None ∨ out0 = Some id →
  splitting out0 lab r q splits new → splitting out lab r' q' splits new.
Proof.
  intros Ec Ep Eh Eg Eu Hout Hout0 [N1 N2 N3 N4 N5 N6 N7].
  assert (∀ k g1, heap q' !! k = Some g1 → ∃ g2, heap q !! k = Some g2 ∧
    updatedItemsGroupIt g1 = updatedItemsGroupIt g2 ∧ (k ≠ id → g1 = g2)) as Hto.
  { intros k g1. rewrite Eh. intros [[<- <-]|[Hne E]]%lookup_insert_Some; eauto 6. exists g. done. }
  assert (∀ k g1, heap q !! k = Some g1 → ∃ g2, heap q' !! k = Some g2 ∧
    updatedItemsGroupIt g2 = updatedItemsGroupIt g1) as Hfrom.
  { intros k g1 E. rewrite Eh. destruct (decide (k = id)) as [->|Hne].
    - rewrite lookup_insert_eq. exists g'. split; [done|]. congruence.
    - rewrite lookup_insert_ne by done. eauto. }
  split; rewrite ?Ec, ?Ep; try done.
  - intros k Hk. destruct (N2 k Hk) as (? & g1 & u & E1 & E2). split; [done|].
    destruct (Hfrom k g1 E1) as (g2 & E3 & E4). exists g2, u. split; [done|]. congruence.
  - intros k g1 u Hk E1 E2. destruct (Hto k g1 E1) as (g2 & E3 & E4 & _). apply (N3 k g2); [done..|congruence].
  - intros k g1 Ho Hk E1 E2. destruct (Hto k g1 E1) as (g2 & E3 & _ & E5).
    destruct (decide (k = id)) as [->|Hne].
    + exfalso. apply Ho, Hout. rewrite Eh, lookup_insert_eq in E1. by injection E1 as <-.
    + rewrite E5 in E2 by done. apply (N4 k g2); [|done..]. destruct Hout0; congruence.
  - intros a b Ha Hb E. destruct (N5 a b Ha Hb E) as (g1 & E1 & E2).
    destruct (Hfrom b g1 E1) as (g2 & E3 & E4). exists g2. split; [done|]. congruence.
Qed.

Lemma shape_group q id g : id ∈ priorityGroups_ q → shape q → shape (with_group q id g).
Proof.
  intros Hid [H1 H2 H3 H4]. split; simpl; [done| | |].
  - intros k Hk. destruct (decide (k = id)) as [->|]; [by rewrite lookup_insert_eq|].
    rewrite lookup_insert_ne by done. by apply H2.
  - intros k [gk Hk]. apply lookup_insert_Some in Hk as [[<- _]|[_ Hk]]; [by apply H3, H2|apply H3; by eexists].
  - intros k Hk. rewrite lookup_insert_ne; [by apply H4|]. intros <-.
    apply NoDup_app in H1 as (_ & H1 & _). by apply (H1 id).
Qed.

Lemma core_put x tid g l lab r q :
  core (Some x) lab r q → tid ∈ priorityGroups_ q → heap q !! tid = Some g → count r ∈ lab tid → x ∉ gone r →
  let q' := with_location (with_group q tid (mkGroup (items g ++ [x]) (updatedItemsGroupIt g))) x (Some l) in
  located None q' → core None lab (put r x (lab tid)) q'.
Proof.
  intros [Hsh _ Hskip Hcon Hseen Hgone Hsort Hlab Hcache] Htid Eg Hcount Hx q' Hloc.
  specialize (Hskip x eq_refl). split; simpl; try done.
  - destruct (shape_group q tid (mkGroup (items g ++ [x]) (updatedItemsGroupIt g)) Htid Hsh). by split.
  - intros id y Hid (g1 & E1 & Hy). simpl in *. destruct (decide (y = x)) as [->|Hyx].
    { rewrite lookup_insert_eq. f_equal. f_equal. apply (content_unique q' x); try done; simpl.
      - eexists. simpl. rewrite lookup_insert_eq. split; [done|]. simpl. set_solver.
      - by exists g1. }
    rewrite lookup_insert_ne by done. apply Hcon; [done|]. destruct (decide (id = tid)) as [->|Hne].
    + rewrite lookup_insert_eq in E1. injection E1 as <-. simpl in Hy. exists g. split; [done|]. set_solver.
    + rewrite lookup_insert_ne in E1 by done. by exists g1.
  - intros y Hy. destruct (decide (y = x)) as [->|Hne].
    + exists tid. split; [done|]. eexists. simpl. rewrite lookup_insert_eq. split; [done|]. simpl. set_solver.
    + rewrite lookup_insert_ne in Hy by done. destruct (Hseen y Hy) as (id & Hid & g1 & E1 & Hg1). exists id.
      split; [done|]. unfold content. simpl. destruct (decide (id = tid)) as [->|Hn].
      * rewrite lookup_insert_eq. eexists. split; [done|]. simpl. replace g1 with g in * by congruence. set_solver.
      * rewrite lookup_insert_ne by done. eauto.
  - intros y _. destruct (decide (y = x)) as [->|Hne]; [by rewrite lookup_insert_eq|].
    rewrite lookup_insert_ne by done. apply Hgone. congruence.
  - intros lc Elc. destruct (Hcache lc Elc) as (id & rest & g1 & E1 & E2 & E3 & E4 & E5).
    exists id, rest, g1. rewrite lookup_insert_ne; [done|]. by intros <-.
Qed.

(** The item arrives in its new group. *)
Lemma arrive out x tid lab r q splits new :
  core (Some x) lab r q → splitting out lab r q splits new → out = None ∨ out = Some tid →
  tid ∈ priorityGroups_ q → count r ∈ lab tid → x ∉ gone r →
  ∃ l q', appendItemToGroup q tid x = Ok (l, q') ∧ size_ q' = size_ q ∧
    core None lab (put r x (lab tid)) (with_location q' x (Some l)) ∧
    splitting None lab (put r x (lab tid)) (with_location q' x (Some l)) splits new.
Proof.
  intros Hc Hs Hout Htid Hcount Hx. destruct (sh_heap _ (c_shape _ _ _ _ Hc) tid Htid) as [g Eg].
  destruct (append_to_group q tid g x (c_located _ _ _ _ Hc) Htid Eg) as (l & El & Hloc).
  eexists l, _. split; [exact El|]. split; [done|]. split; [by apply core_put|].
  eapply (splitting_group out _ _ r _ q _ tid g); [done| | |done| | |done|done]; simpl; try done.
  by destruct (items g).
Qed.

(** The item leaves its group. *)
Lemma core_take x id g q' g' lab r q :
  core None lab r q → id ∈ priorityGroups_ q → heap q !! id = Some g → x ∈ items g →
  removed q id g x q' g' → (sortedTopGroupItems_ q = None ∨ isBegin q id = false) →
  core (Some x) lab (minus r x) q'.
Proof.
  intros [Hsh Hloc Hskip Hcon Hseen Hgone Hsort Hlab Hcache] Hid Eg Hx
    [Eh Eu Hnd Hit Hl Elx Hpres Hgn (F1 & F2 & F3 & F4 & F5)] Hbeg.
  assert (∀ k y, content q' k y ↔ content q k y ∧ (k = id → y ≠ x)) as Hcont.
  { intros k y. unfold content. rewrite Eh. destruct (decide (k = id)) as [->|Hne].
    - rewrite lookup_insert_eq, Eg. split.
      + intros (? & [= <-] & ?%Hit). naive_solver.
      + intros [(? & [= <-] & ?) ?]. exists g'. split; [done|]. apply Hit. auto.
    - rewrite lookup_insert_ne by done. naive_solver. }
  split; simpl; rewrite ?F2; try done.
  - destruct (shape_group q id g' Hid Hsh) as [G1 G2 G3 G4]. simpl in *. split; rewrite ?Eh, ?F1, ?F2, ?F3; try done.
  - intros ? [= ->]. apply lookup_delete_eq.
  - intros k y Hk [Hy Hne]%Hcont. rewrite lookup_delete_ne; [by apply Hcon|]. intros <-.
    apply Hne; [|done]. apply (content_unique q x); [done..|by exists g].
  - intros y Hy. destruct (decide (y = x)) as [->|Hne]; [rewrite lookup_delete_eq in Hy; by destruct Hy|].
    rewrite lookup_delete_ne in Hy by done. destruct (Hseen y Hy) as (k & Hk & Hc). exists k. split; [done|].
    apply Hcont. done.
  - intros y _. rewrite Hgn. by apply Hgone.
  - intros l Hcl. rewrite F5 in Hcl. destruct Hbeg as [Hb|Hb]; [congruence|].
    destruct (Hcache l Hcl) as (k & rest & g1 & E1 & E2 & E3). exists k, rest, g1. split; [done|].
    split; [|done]. rewrite Eh, lookup_insert_ne; [done|]. intros ->.
    assert (isBegin q k = true) by (apply begin_head; eauto). congruence.
Qed.

(** ** An empty group with its label *)
Definition relabel (lab : Z → list Z) (id : Z) (s : list Z) : Z → list Z :=
  λ k, if decide (k = id) then s else lab k.

Lemma relabel_new lab id s : relabel lab id s id = s.
Proof. unfold relabel. by rewrite decide_True. Qed.

Lemma relabel_old lab id s k : k ≠ id → relabel lab id s k = lab k.
Proof. intros. unfold relabel. by rewrite decide_False. Qed.

Lemma inserted_content q q' tid k y : inserted q q' tid → content q' k y → content q k y ∧ k ≠ tid.
Proof.
  intros [H1 H2 H3 _ _] (g & Eg & Hy). destruct (decide (k = tid)) as [->|Hne].
  - rewrite H2 in Eg. injection Eg as <-. by apply elem_of_nil in Hy.
  - rewrite H3 in Eg by done. split; [by exists g|done].
Qed.

Lemma core_insert skip tid s lab r q q' l1 l2 :
  core skip lab r q → inserted q q' tid → priorityGroups_ q = l1 ++ l2 → priorityGroups_ q' = l1 ++ tid :: l2 →
  (∀ a, a ∈ l1 → seq_lt (lab a) s = true) → (∀ b, b ∈ l2 → seq_lt s (lab b) = true) →
  s ≠ [] → Forall (λ i, i ≤ count r) s → (sortedTopGroupItems_ q = None ∨ l1 ≠ []) →
  core skip (relabel lab tid s) r q'.
Proof.
  intros [Hsh Hloc Hskip Hcon Hseen Hgone Hsort Hlab Hcache] Hin Ep Ep' H1 H2 Hne Hs Hc.
  pose proof Hin as [Hnew Hg Hh Hsh' (F1 & F2 & F3)].
  assert (∀ k, k ∈ priorityGroups_ q' ↔ k = tid ∨ k ∈ priorityGroups_ q) as Hel
    by (intros k; rewrite Ep, Ep'; set_solver).
  assert (∀ k, k ∈ priorityGroups_ q → k ≠ tid) as Hold by (intros k Hk ->; done).
  split; try done.
  - intros y. specialize (Hloc y). case_decide.
    + intros k Hk [Hy Hkt]%(inserted_content q _ tid); [|done]. apply (Hloc k); [|done]. apply Hel in Hk as [?|?]; done.
    + intros l. rewrite F1, Hloc, Hel. split.
      * intros [Hl ?]. split; [by right|]. by rewrite Hh by auto.
      * intros [[El|Hl] (g & Eg & Ei)]; [by rewrite El, Hg in Eg; injection Eg as <-|].
        rewrite Hh in Eg by auto. eauto.
  - intros k y Hk [Hy Hkt]%(inserted_content q _ tid); [|done]. rewrite relabel_old by done.
    apply Hcon; [|done]. apply Hel in Hk as [?|?]; done.
  - intros y Hy. destruct (Hseen y Hy) as (k & Hk & g & Eg & Hyg). exists k. split; [apply Hel; by right|].
    exists g. by rewrite Hh by auto.
  - by rewrite F1.
  - rewrite Ep'. apply sorted_insert_mid.
    + rewrite <-Ep. eapply sorted_impl_in; [|exact Hsort]. intros a b Ha Hb. rewrite !relabel_old by auto. done.
    + intros a Ha. rewrite relabel_new, relabel_old by (apply Hold; rewrite Ep; set_solver). by apply H1.
    + intros b Hb. rewrite relabel_new, relabel_old by (apply Hold; rewrite Ep; set_solver). by apply H2.
  - intros k [->|Hk]%Hel; [by rewrite relabel_new|]. rewrite relabel_old by auto. by apply Hlab.
  - intros l El. rewrite F3 in El. destruct Hc as [Hc|Hc]; [congruence|].
    destruct (Hcache l El) as (k & rest & g & E1 & E2 & E3 & E4 & E5). rewrite Ep in E1.
    destruct l1 as [|k' l1]; [done|]. injection E1 as -> _. exists k, (l1 ++ tid :: l2), g.
    assert (k ≠ tid) by (apply Hold; rewrite Ep; set_solver). by rewrite Hh, relabel_old.
Qed.

Lemma core_pointer skip id g u lab r q :
  core skip lab r q → id ∈ priorityGroups_ q → heap q !! id = Some g →
  core skip lab r (with_group q id (mkGroup (items g) u)).
Proof.
  intros [Hsh Hloc Hskip Hcon Hseen Hgone Hsort Hlab Hcache] Hid Eg.
  assert (∀ k y, content (with_group q id (mkGroup (items g) u)) k y ↔ content q k y) as Hcont.
  { intros k y. unfold content. simpl. destruct (decide (k = id)) as [->|].
    - rewrite lookup_insert_eq, Eg. naive_solver.
    - by rewrite lookup_insert_ne. }
  split; simpl; try done.
  - by apply shape_group.
  - intros y. specialize (Hloc y). case_decide; simpl.
    + intros k Hk. rewrite Hcont. by apply Hloc.
    + intros l. rewrite Hloc. destruct (decide (groupIt l = id)) as [->|].
      * rewrite lookup_insert_eq, Eg. naive_solver.
      * by rewrite lookup_insert_ne.
  - intros k y Hk. rewrite Hcont. by apply Hcon.
  - intros y Hy. destruct (Hseen y Hy) as (k & ? & ?). exists k. by rewrite Hcont.
  - intros l El. destruct (Hcache l El) as (k & rest & g1 & E1 & E2 & E3 & E4). exists k, rest.
    destruct (decide (k = id)) as [->|].
    + rewrite lookup_insert_eq. eexists. split; [done|]. split; [done|]. simpl. by replace g with g1 by congruence.
    + rewrite lookup_insert_ne by done. by exists g1.
Qed.

Lemma label_unique skip lab r q a b :
  core skip lab r q → a ∈ priorityGroups_ q → b ∈ priorityGroups_ q → lab a = lab b → a = b.
Proof.
  intros Hc. pose proof (c_sorted _ _ _ _ Hc) as Hs. clear Hc.
  induction Hs as [|x l _ IH Hf]; [by intros ?%elem_of_nil|]. rewrite Forall_forall in Hf.
  intros [->|Ha]%elem_of_cons [->|Hb]%elem_of_cons E; [done| | |by apply IH].
  - specialize (Hf b Hb). by rewrite E, seq_lt_irrefl in Hf.
  - specialize (Hf a Ha). by rewrite E, seq_lt_irrefl in Hf.
Qed.

(** A group that takes the items of [id], put before it. *)
Lemma core_split skip id tid lab r q q' g :
  core skip lab r q → id ∈ priorityGroups_ q → heap q !! id = Some g →
  (∀ a, a ∈ priorityGroups_ q → lab a ≠ lab id ++ [count r]) →
  (sortedTopGroupItems_ q = None ∨ isBegin q id = false) → 0 ≤ count r →
  inserted q q' tid → priorityGroups_ q' = insert_before (Some id) tid (priorityGroups_ q) →
  core skip (relabel lab tid (lab id ++ [count r])) r q'.
Proof.
  intros Hc Hid Eg Hno Hbeg Hcount Hin Ep.
  destruct (insert_before_mid id tid _ Hid) as (l1 & l2 & E1 & E2). rewrite E2 in Ep.
  pose proof (c_sorted _ _ _ _ Hc) as Hs. rewrite E1 in Hs.
  pose proof (sorted_around _ _ _ _ Hs) as [H1 H2].
  destruct (c_lab _ _ _ _ Hc id Hid) as [Hne Hle].
  eapply (core_insert skip tid (lab id ++ [count r]) lab r q q' l1 (id :: l2)); try done.
  - intros a Ha. assert (a ∈ priorityGroups_ q) as Hin' by (rewrite E1; set_solver).
    apply seq_lt_more_r; [by apply (c_lab _ _ _ _ Hc a)|by apply Hno|by apply H1].
  - intros b [->|Hb]%elem_of_cons; [apply seq_lt_more|]. by apply seq_lt_more_l, H2.
  - by destruct (lab id).
  - apply Forall_app. split; [done|]. by constructor.
  - destruct Hbeg as [?|Hb]; [by left|right]. intros ->. assert (isBegin q id = true) by (apply begin_head; eauto).
    congruence.
Qed.

Lemma splitting_split skip id tid lab r q q' g splits new :
  core skip lab r q →
  splitting (Some id) lab r q splits new → id ∈ priorityGroups_ q → heap q !! id = Some g →
  updatedItemsGroupIt g = None → inserted q q' tid →
  (∀ k, k ∈ priorityGroups_ q' ↔ k = tid ∨ k ∈ priorityGroups_ q) →
  splitting (Some tid) (relabel lab tid (lab id ++ [count r])) r
    (with_group q' id (mkGroup (items g) (Some tid))) (splits ++ [id]) new.
Proof.
  intros Hc [N1 N2 N3 N4 N5 N6 N7 N8] Hid Eg Eu [Hnew Hg Hh _ _] Hel.
  assert (∀ a b, a ∈ priorityGroups_ q → b ∈ priorityGroups_ q → lab a = lab b → a = b) as Huniq
    by (intros a b; by eapply label_unique).
  assert (lab id ≠ []) as Hne by (by apply (c_lab _ _ _ _ Hc)).
  assert (∀ k, k ∈ priorityGroups_ q → k ≠ tid) as Hold by (intros k Hk ->; done).
  assert (∀ a, a ∈ priorityGroups_ q → lab a ≠ lab id ++ [count r]) as Hno.
  { intros a Ha E. destruct (N5 a id Ha Hid E) as (g1 & ? & ?). congruence. }
  assert (id ≠ tid) as Hit by auto.
  split; simpl.
  - apply NoDup_app. split; [done|]. split; [|apply NoDup_singleton]. intros k Hk ->%list_elem_of_singleton.
    destruct (N2 id Hk) as (_ & g1 & u & ? & ?). congruence.
  - intros k Hk. apply elem_of_app in Hk as [Hk| ->%list_elem_of_singleton].
    + destruct (N2 k Hk) as (Hkq & g1 & u & E1 & E2). split; [apply Hel; by right|].
      destruct (decide (k = id)) as [->|]; [rewrite lookup_insert_eq; by eexists _, _|].
      rewrite lookup_insert_ne, Hh by auto. eauto.
    + split; [apply Hel; by right|]. rewrite lookup_insert_eq. by eexists _, _.
  - intros k g1 u Hk E1 E2. destruct (decide (k = id)) as [->|Hne'].
    + rewrite lookup_insert_eq in E1. injection E1 as <-. simpl in E2. injection E2 as <-.
      split; [set_solver|]. split; [apply Hel; by left|]. by rewrite relabel_new, relabel_old.
    + rewrite lookup_insert_ne in E1 by done. destruct (decide (k = tid)) as [->|Hkt].
      { rewrite Hg in E1. by injection E1 as <-. }
      rewrite Hh in E1 by done. apply Hel in Hk as [?|Hk]; [done|].
      destruct (N3 k g1 u Hk E1 E2) as (A1 & A2 & A3). split; [set_solver|]. split; [apply Hel; by right|].
      rewrite !relabel_old by auto. done.
  - intros k g1 Ho Hk E1 E2. destruct (decide (k = id)) as [->|Hne']; [set_solver|].
    rewrite lookup_insert_ne, Hh in E1 by congruence. apply Hel in Hk as [?|Hk]; [congruence|].
    apply elem_of_app. left. apply (N4 k g1); [congruence|done..].
  - intros a b [->|Ha]%Hel [->|Hb]%Hel; rewrite ?relabel_new, ?(relabel_old _ _ _ a), ?(relabel_old _ _ _ b) by auto.
    + intros E%(f_equal length). rewrite !length_app in E. simpl in E. lia.
    + intros E%app_inj_2; [|done]. destruct E as [E _]. assert (id = b) as <- by (by apply Huniq).
      rewrite lookup_insert_eq. by eexists.
    + intros E. destruct (N6 a (lab id ++ [count r]) Ha E) as [E'|(b & Hb & E')]; [by destruct (lab id)|].
      by destruct (Hno b Hb).
    + intros E. destruct (N5 a b Ha Hb E) as (g1 & E1 & E2). destruct (decide (b = id)) as [->|]; [congruence|].
      rewrite lookup_insert_ne, Hh by auto. eauto.
  - intros a s [->|Ha]%Hel; rewrite ?relabel_new, ?(relabel_old _ _ _ a) by auto.
    + intros [<- _]%app_inj_2; [|done]. right. exists id. split; [apply Hel; by right|]. by rewrite relabel_old.
    + intros E. destruct (N6 a s Ha E) as [?|(b & Hb & <-)]; [by left|right]. exists b.
      split; [apply Hel; by right|]. by rewrite relabel_old by auto.
  - intros a [->|Ha]%Hel; rewrite ?relabel_new, ?(relabel_old _ _ _ a) by auto; [|by apply N7].
    intros E. destruct (lab id) as [|? [|]]; done.
  - intros a Ha. destruct (N8 a Ha) as [Haq E]. split; [apply Hel; by right|]. by rewrite relabel_old by auto.
Qed.

Lemma target skip id lab r q splits new :
  core skip lab r q → splitting (Some id) lab r q splits new → id ∈ priorityGroups_ q →
  (sortedTopGroupItems_ q = None ∨ isBegin q id = false) → 0 ≤ count r →
  ∃ tid q' splits' lab', getOrCreateNewGroupBefore q id splits = Ok (tid, q', splits') ∧
    core skip lab' r q' ∧ splitting (Some tid) lab' r q' splits' new ∧ tid ∈ priorityGroups_ q' ∧
    lab' tid = lab id ++ [count r] ∧ size_ q' = size_ q.
Proof.
  intros Hc Hs Hid Hbeg Hcount. destruct (sh_heap _ (c_shape _ _ _ _ Hc) id Hid) as [g Eg].
  unfold getOrCreateNewGroupBefore, group_at. rewrite Eg. cbn [mbind result_bind].
  destruct (updatedItemsGroupIt g) as [u|] eqn:Eu.
  - destruct (s_updated _ _ _ _ _ _ Hs id g u Hid Eg Eu) as (Hsp & Hu & El).
    exists u, q, splits, lab. split; [done|]. split; [done|]. split; [|done].
    destruct Hs as [N1 N2 N3 N4 N5 N6 N7 N8]. split; try done. intros k g1 _ Hk E1 E2.
    destruct (decide (k = id)) as [->|]; [done|]. apply (N4 k g1); [congruence|done..].
  - destruct (insert_group q (Some id) (c_shape _ _ _ _ Hc)) as (tid & q1 & -> & Hin & Ep).
    assert (∀ k, k ∈ priorityGroups_ q1 ↔ k = tid ∨ k ∈ priorityGroups_ q) as Hel
      by (intros k; rewrite Ep, insert_before_perm; set_solver).
    assert (heap q1 !! id = Some g) as E1.
    { rewrite (in_heap _ _ _ Hin); [done|]. intros ->. by apply (in_new _ _ _ Hin). }
    rewrite E1. cbn [mbind result_bind].
    eexists tid, _, _, (relabel lab tid (lab id ++ [count r])). split; [done|]. split; [|split; [|split; [|split]]].
    + apply core_pointer; [|apply Hel; by right|done]. eapply (core_split skip id tid lab r q q1 g); try done.
      intros a Ha E. destruct (s_target _ _ _ _ _ _ Hs a id Ha Hid E) as (g1 & ? & ?). congruence.
    + by apply (splitting_split skip _ _ _ _ q).
    + apply Hel. by left.
    + apply relabel_new.
    + apply (in_frame _ _ _ Hin).
Qed.

(** The group of the items that are new in an update, at the end. *)
Lemma fresh_group skip lab r q splits :
  core skip lab r q → splitting None lab r q splits None → 0 ≤ count r →
  ∃ tid q' lab', insertGroupBefore q None = (tid, q') ∧
    core skip lab' r q' ∧ splitting (Some tid) lab' r q' splits (Some tid) ∧ tid ∈ priorityGroups_ q' ∧
    lab' tid = [count r] ∧ size_ q' = size_ q.
Proof.
  intros Hc Hs Hcount. destruct (insert_group q None (c_shape _ _ _ _ Hc)) as (tid & q1 & -> & Hin & Ep).
  rewrite insert_before_end in Ep.
  assert (∀ k, k ∈ priorityGroups_ q1 ↔ k = tid ∨ k ∈ priorityGroups_ q) as Hel by (intros k; rewrite Ep; set_solver).
  pose proof Hin as [Hnew Hg Hh _ (_ & F2 & _)]. destruct Hs as [N1 N2 N3 N4 N5 N6 N7 N8].
  assert (∀ k, k ∈ priorityGroups_ q → k ≠ tid) as Hold by (intros k Hk ->; done).
  exists tid, q1, (relabel lab tid [count r]). split; [done|]. split; [|split; [|split; [|by rewrite relabel_new]]].
  - eapply (core_insert skip tid [count r] lab r q q1 (priorityGroups_ q) []); try done.
    + by rewrite app_nil_r.
    + intros a Ha. destruct (c_lab _ _ _ _ Hc a Ha). apply seq_lt_last; [done..|]. intros E. by apply N7 in E.
    + by intros b ?%elem_of_nil.
    + by constructor.
    + destruct (sortedTopGroupItems_ q) as [l|] eqn:El; [|by left]. right.
      destruct (c_cache _ _ _ _ Hc l El) as (? & ? & ? & -> & _). done.
  - split; try done.
    + intros k Hk. destruct (N2 k Hk) as (Hkq & g & u & ? & ?). split; [apply Hel; by right|].
      exists g, u. by rewrite Hh by auto.
    + intros k g u [->|Hk]%Hel E1 E2; [rewrite Hg in E1; by injection E1 as <-|]. rewrite Hh in E1 by auto.
      destruct (N3 k g u Hk E1 E2) as (? & ? & ?). split; [done|]. split; [apply Hel; by right|].
      by rewrite !relabel_old by auto.
    + intros k g Hk1 [->|Hk]%Hel E1 E2; [done|]. rewrite Hh in E1 by auto. by apply (N4 k g).
    + intros a b [->|Ha]%Hel [->|Hb]%Hel; rewrite ?relabel_new, ?(relabel_old _ _ _ a), ?(relabel_old _ _ _ b) by auto.
      * intros E%(f_equal length). simpl in E. lia.
      * intros E. destruct (c_lab _ _ _ _ Hc b Hb) as [Hne _]. by destruct (lab b) as [|? [|]].
      * intros E. destruct (N6 a [count r] Ha E) as [?|(b & Hb & E')]; [done|]. by apply N7 in E'.
      * rewrite Hh by auto. by apply N5.
    + intros a s [->|Ha]%Hel; rewrite ?relabel_new, ?(relabel_old _ _ _ a) by auto.
      * intros E. left. by destruct s as [|? [|]].
      * intros E. destruct (N6 a s Ha E) as [?|(b & Hb & <-)]; [by left|right]. exists b.
        split; [apply Hel; by right|]. by rewrite relabel_old by auto.
    + intros a [->|Ha]%Hel; rewrite ?relabel_new, ?(relabel_old _ _ _ a) by auto; [done|]. intros E. by apply N7 in E.
    + intros a [= <-]. split; [apply Hel; by left|]. apply relabel_new.
  - apply Hel. by left.
Qed.

Lemma core_size skip lab r q n : core skip lab r q → core skip lab r (with_size q n).
Proof. intros [[? ? ? ?] H2 H3 H4 H5 H6 H7 H8 H9]. split; [by split|done..]. Qed.

(** ** One item of an update *)
Lemma update_item_new lab r q splits new x :
  core None lab r q → splitting None lab r q splits new → 0 ≤ count r →
  size_ q = Z.of_nat (size (seen r)) → itemToLocation_ q !! x = None →
  ∃ q' new' lab', update_item (q, new, splits) x = Ok (q', new', splits) ∧
    core None lab' (touch r x) q' ∧ splitting None lab' (touch r x) q' splits new' ∧
    size_ q' = Z.of_nat (size (seen (touch r x))).
Proof.
  intros Hc Hs Hcount Hsize Ex. unfold update_item. rewrite Ex.
  assert (x ∉ gone r) as Hx by (rewrite <-(c_gone _ _ _ _ Hc x) by done; congruence).
  assert (∀ id, id ∈ priorityGroups_ q → ¬ content q id x) as Hno.
  { intros id Hid [i Ei]%located_content; [congruence|apply Hc|done]. }
  assert (seen r !! x = None) as Es.
  { destruct (seen r !! x) eqn:E; [|done]. destruct (c_seen _ _ _ _ Hc x) as (id & Hid & Hcx); [by eexists|].
    by destruct (Hno id Hid). }
  set (q0 := with_location q x None).
  assert (core (Some x) lab r q0) as Hc0.
  { destruct Hc as [H1 H2 H3 H4 H5 H6 H7 H8 H9]. split; simpl; try done.
    - destruct H1. by split.
    - intros y. case_decide as Hy; [injection Hy as <-; done|]. intros l. simpl.
      rewrite lookup_insert_ne by congruence. by apply located_at.
    - by intros ? [= <-].
    - intros y Hy. rewrite lookup_insert_ne by congruence. by apply H6. }
  assert (splitting None lab r q0 splits new) as Hs0 by (destruct Hs; by split).
  assert (touch r x = put r x [count r]) as Et.
  { unfold touch, put. by rewrite decide_False, Es by done. }
  assert (∃ id q1 lab', match new with Some id => (id, q0) | None => insertGroupBefore q0 None end = (id, q1) ∧
    core (Some x) lab' r q1 ∧ (∃ out, splitting out lab' r q1 splits (Some id) ∧ (out = None ∨ out = Some id)) ∧
    id ∈ priorityGroups_ q1 ∧ lab' id = [count r] ∧ size_ q1 = size_ q0) as (id & q1 & lab' & E1 & A1 & (out & A2 & A3) & A4 & A5 & A6).
  { destruct new as [id|].
    - destruct (s_new_in _ _ _ _ _ _ Hs0 id eq_refl) as [? ?]. exists id, q0, lab. repeat (split; [done|]).
      split; [exists None; auto|done].
    - destruct (fresh_group (Some x) lab r q0 splits Hc0 Hs0 Hcount) as (id & q1 & lab' & ? & ? & ? & ? & ? & ?).
      exists id, q1, lab'. repeat (split; [done|]). split; [exists (Some id); auto|done]. }
  unfold addNewItem. rewrite E1.
  destruct (arrive out x id lab' r q1 splits (Some id) A1 A2 A3 A4) as (l & q2 & E2 & A7 & A8 & A9); [|done|].
  { rewrite A5. set_solver. }
  rewrite E2. cbn [mbind result_bind]. rewrite A5, <-Et in A8, A9.
  eexists _, _, lab'. split; [done|]. split; [|split].
  - by apply core_size.
  - destruct A9. by split.
  - simpl. rewrite A7, A6, Et. simpl. rewrite Hsize, map_size_insert_None by done. lia.
Qed.

Lemma core_sorted_none skip lab r q : core skip lab r q → core skip lab r (with_sorted q None).
Proof. intros [[? ? ? ?] H2 H3 H4 H5 H6 H7 H8 H9]. split; [by split|done..]. Qed.

Lemma invalidate_spec skip lab r q id :
  core skip lab r q →
  let q' := invalidateSortedTopGroupItemsIfNeeded q id in
  core skip lab r q' ∧ (sortedTopGroupItems_ q' = None ∨ isBegin q' id = false) ∧
  heap q' = heap q ∧ priorityGroups_ q' = priorityGroups_ q ∧ itemToLocation_ q' = itemToLocation_ q ∧
  size_ q' = size_ q ∧ recycledPriorityGroups_ q' = recycledPriorityGroups_ q.
Proof.
  intros Hc q'. unfold q', invalidateSortedTopGroupItemsIfNeeded.
  destruct (sortedTopGroupItems_ q) eqn:E1; [|by auto 10].
  destruct (isBegin q id) eqn:E2; [|by auto 10]. split; [by apply core_sorted_none|]. simpl. auto 10.
Qed.

Lemma update_item_move lab r q splits new x l :
  core None lab r q → splitting None lab r q splits new → 0 ≤ count r →
  size_ q = Z.of_nat (size (seen r)) → itemToLocation_ q !! x = Some (Some l) →
  ∃ q' splits' lab', update_item (q, new, splits) x = Ok (q', new, splits') ∧
    core None lab' (touch r x) q' ∧ splitting None lab' (touch r x) q' splits' new ∧
    size_ q' = Z.of_nat (size (seen (touch r x))).
Proof.
  intros Hc Hs Hcount Hsize Ex. unfold update_item. rewrite Ex. destruct l as [id i].
  pose proof (proj1 (located_at q x _ (c_located _ _ _ _ Hc)) Ex) as [Hid (g & Eg & Ei)]. simpl in *.
  assert (x ∈ items g) as Hxg by (by eapply list_elem_of_lookup_2).
  assert (seen r !! x = Some (lab id)) as Es by (apply (c_content _ _ _ _ Hc); [done|by exists g]).
  assert (x ∉ gone r) as Hx by (rewrite <-(c_gone _ _ _ _ Hc x) by done; congruence).
  unfold moveToNewGroupBeforeCurrentGroup. simpl.
  destruct (invalidate_spec None lab r q id Hc) as (Hc1 & Hbeg & F1 & F2 & F3 & F4 & _).
  set (q1 := invalidateSortedTopGroupItemsIfNeeded q id) in *.
  rewrite <-F1 in Eg. rewrite <-F2 in Hid.
  destruct (remove_from_group q1 id i x g (c_located _ _ _ _ Hc1) Hid Eg Ei) as (q2 & g' & -> & Hrm).
  cbn [mbind result_bind]. pose proof (core_take x id g q2 g' lab r q1 Hc1 Hid Eg Hxg Hrm Hbeg) as Hc2.
  pose proof Hrm as [R1 R2 R3 R4 R5 R6 R7 R8 (G1 & G2 & G3 & G4 & G5)].
  assert (splitting (Some id) lab (minus r x) q2 splits new) as Hs2.
  { eapply (splitting_group None _ _ r _ q _ id g g'); try done; [by rewrite G2|by rewrite R1, F1|by rewrite <-F1|by left]. }
  destruct (target (Some x) id lab (minus r x) q2 splits new Hc2 Hs2) as (tid & q3 & splits' & lab' & -> & B1 & B2 & B3 & B4 & B5).
  { by rewrite G2. }
  { rewrite G5. unfold isBegin. by rewrite G2. }
  { done. }
  cbn [mbind result_bind].
  destruct (arrive (Some tid) x tid lab' (minus r x) q3 splits' new B1 B2) as (l & q4 & -> & D1 & D2 & D3);
    [by right|done|rewrite B4; simpl; set_solver|done|].
  cbn [mbind result_bind]. rewrite touch_put, Es by done. simpl. rewrite B4 in D2, D3. simpl in D2, D3.
  eexists _, _, lab'. split; [done|]. split; [done|]. split; [done|]. simpl.
  rewrite D1, B5, G4, F4, Hsize, insert_delete_eq. rewrite map_size_insert_Some; [done|by eexists].
Qed.

Lemma group_update_item lab r q splits new x :
  core None lab r q → splitting None lab r q splits new → 0 ≤ count r →
  size_ q = Z.of_nat (size (seen r)) →
  ∃ q' splits' new' lab', update_item (q, new, splits) x = Ok (q', new', splits') ∧
    core None lab' (touch r x) q' ∧ splitting None lab' (touch r x) q' splits' new' ∧
    size_ q' = Z.of_nat (size (seen (touch r x))).
Proof.
  intros Hc Hs Hcount Hsize. destruct (itemToLocation_ q !! x) as [[l|]|] eqn:Ex.
  - destruct (update_item_move lab r q splits new x l Hc Hs Hcount Hsize Ex) as (q' & sp & lab' & ?). by exists q', sp, new, lab'.
  - unfold update_item. rewrite Ex. apply (c_gone _ _ _ _ Hc) in Ex; [|done]. unfold touch.
    rewrite decide_True by done. by exists q, splits, new, lab.
  - destruct (update_item_new lab r q splits new x Hc Hs Hcount Hsize Ex) as (q' & nw & lab' & ?). by exists q', splits, nw, lab'.
Qed.

Lemma group_update_items xs : ∀ lab r q splits new,
  core None lab r q → splitting None lab r q splits new → 0 ≤ count r →
  size_ q = Z.of_nat (size (seen r)) →
  ∃ q' splits' new' lab', foldM update_item (q, new, splits) xs = Ok (q', new', splits') ∧
    core None lab' (foldl touch r xs) q' ∧ splitting None lab' (foldl touch r xs) q' splits' new' ∧
    size_ q' = Z.of_nat (size (seen (foldl touch r xs))).
Proof.
  induction xs as [|x xs IH]; intros lab r q splits new Hc Hs Hcount Hsize; cbn [foldM foldl]; [by eauto 10|].
  destruct (group_update_item lab r q splits new x Hc Hs Hcount Hsize) as (q1 & sp & nw & lab1 & -> & A1 & A2 & A3).
  cbn [mbind result_bind]. apply (IH lab1); try done. by rewrite (proj1 (touch_count r x)).
Qed.

(** ** The end of an update

    [todo] are the split groups that are still to be looked at. *)
Record finishing q (todo : list Z) : Prop := {
  f_NoDup : NoDup todo;
  f_todo id : id ∈ todo → id ∈ priorityGroups_ q;
  f_done id g : id ∈ priorityGroups_ q → heap q !! id = Some g → id ∉ todo →
    updatedItemsGroupIt g = None ∧ items g ≠ []
}.

Lemma erase_group skip lab r q id g :
  core skip lab r q → id ∈ priorityGroups_ q → heap q !! id = Some g → items g = [] →
  updatedItemsGroupIt g = None →
  core skip lab r (eraseGroup q id) ∧ heap (eraseGroup q id) = heap q ∧
  priorityGroups_ (eraseGroup q id) = filter (λ k, k ≠ id) (priorityGroups_ q) ∧
  size_ (eraseGroup q id) = size_ q.
Proof.
  intros Hc Hid Eg Ei Eu. unfold eraseGroup.
  destruct (invalidate_spec skip lab r q id Hc) as (Hc1 & Hbeg & F1 & F2 & F3 & F4 & F5).
  set (q1 := invalidateSortedTopGroupItemsIfNeeded q id) in *. simpl. rewrite F1, F2, F4.
  split; [|done]. assert (g = mkGroup [] None) as -> by (destruct g; simpl in *; congruence).
  assert (∀ y, ¬ content q1 id y) as Hno.
  { intros y (g & E & Hy). rewrite F1, Eg in E. injection E as <-. by apply elem_of_nil in Hy. }
  destruct Hc1 as [[S1 S2 S3 S4] H2 H3 H4 H5 H6 H7 H8 H9].
  split; simpl; rewrite <-?F2.
  - assert (NoDup (id :: filter (λ k, k ≠ id) (priorityGroups_ q1) ++ recycledPriorityGroups_ q1)) as Hnd.
    { apply NoDup_cons. apply NoDup_app in S1 as (N1 & N2 & N3). split.
      - intros [[? _]%list_elem_of_filter|Hr]%elem_of_app; [done|]. apply (N2 id); [by rewrite F2|done].
      - apply NoDup_app. split; [by apply NoDup_filter|]. split; [|done]. intros k [_ Hk]%list_elem_of_filter. by apply N2. }
    split; simpl; try done.
    + rewrite app_assoc, <-Permutation_cons_append. done.
    + intros k [_ Hk]%list_elem_of_filter. by apply S2.
    + intros k [Hk| ->%list_elem_of_singleton]%elem_of_app; [by apply S4|by rewrite F1].
  - intros y. specialize (H2 y). case_decide; simpl.
    + intros k [_ Hk]%list_elem_of_filter. by apply H2.
    + intros l. rewrite H2, list_elem_of_filter. split; [|naive_solver]. intros [Hl (g & E1 & E2)].
      split; [|eauto]. split; [|done]. intros El. apply (Hno y). rewrite <-El. exists g. split; [done|].
      by eapply list_elem_of_lookup_2.
  - done.
  - intros k y [_ Hk]%list_elem_of_filter. by apply H4.
  - intros y Hy. destruct (H5 y Hy) as (k & Hk & Hcy). exists k. split; [|done].
    apply list_elem_of_filter. split; [|done]. intros ->. by apply (Hno y).
  - done.
  - by apply sorted_filter.
  - intros k [_ Hk]%list_elem_of_filter. by apply H8.
  - intros l El. destruct Hbeg as [?|Hb]; [congruence|].
    destruct (H9 l El) as (k & rest & g & E1 & E2). exists k, (filter (λ k, k ≠ id) rest), g. split; [|done].
    rewrite E1, filter_cons, decide_True; [done|]. intros ->.
    assert (isBegin q1 id = true) by (apply begin_head; eauto). congruence.
Qed.

Lemma finish_rel lab r splits : ∀ q,
  core None lab r q → finishing q splits →
  ∃ q', finishGroupSplits q splits = Ok q' ∧ core None lab r q' ∧ finishing q' [] ∧ size_ q' = size_ q.
Proof.
  induction splits as [|id splits IH]; intros q Hc [N1 N2 N3]; [by exists q|].
  unfold finishGroupSplits. simpl. apply NoDup_cons in N1 as [Hid' N1].
  assert (id ∈ priorityGroups_ q) as Hid by (apply N2; set_solver).
  destruct (sh_heap _ (c_shape _ _ _ _ Hc) id Hid) as [g Eg].
  unfold finish_split, group_at. rewrite Eg. cbn [mbind result_bind].
  pose proof (core_pointer None id g None lab r q Hc Hid Eg) as Hc1.
  set (q1 := with_group q id (mkGroup (items g) None)) in *.
  unfold eraseGroupIfEmpty, group_at. cbn [q1 heap with_group]. rewrite lookup_insert_eq.
  cbn [mbind result_bind items]. fold q1.
  assert (∀ k g1, k ≠ id → heap q1 !! k = Some g1 → heap q !! k = Some g1) as Hk.
  { intros k g1 Hne. cbn [q1 heap with_group]. by rewrite lookup_insert_ne. }
  destruct (items g) as [|x xs] eqn:Ei.
  - destruct (erase_group None lab r q1 id (mkGroup [] None) Hc1 Hid) as (A1 & A2 & A3 & A4);
      [by cbn [q1 heap with_group]; rewrite lookup_insert_eq|done..|].
    destruct (IH (eraseGroup q1 id)) as (q' & E & B1 & B2 & B3); [done| |].
    + split; [done| |].
      * intros k Hin. rewrite A3. apply list_elem_of_filter. split; [congruence|]. apply N2. set_solver.
      * intros k g1. rewrite A2, A3. intros [Hne Hkq]%list_elem_of_filter E1 Hsp.
        apply (N3 k g1); [done|by apply Hk|set_solver].
    + exists q'. split; [exact E|]. split; [done|]. split; [done|]. by rewrite B3, A4.
  - destruct (IH q1) as (q' & E & B1 & B2 & B3); [done| |by exists q'].
    split; [done| |].
    + intros k Hin. apply N2. set_solver.
    + intros k g1 Hkq E1 Hsp. destruct (decide (k = id)) as [->|Hne].
      * cbn [q1 heap with_group] in E1. rewrite lookup_insert_eq in E1. by injection E1 as <-.
      * apply (N3 k g1); [done|by apply Hk|set_solver].
Qed.

(** ** The queue and its ranking *)
Definition rel r q : Prop := rank_wf r ∧ ∃ lab, core None lab r q ∧ finishing q [] ∧
  size_ q = Z.of_nat (size (seen r)).

Lemma rel_labels lab r q id : rank_wf r → core None lab r q → finishing q [] →
  id ∈ priorityGroups_ q → ∃ g x, heap q !! id = Some g ∧ x ∈ items g ∧
    seen r !! x = Some (lab id) ∧ updatedItemsGroupIt g = None ∧ Forall (λ i, i < count r) (lab id).
Proof.
  intros Hw Hc Hf Hid. destruct (sh_heap _ (c_shape _ _ _ _ Hc) id Hid) as [g Eg].
  destruct (f_done _ _ Hf id g Hid Eg) as [Hu Hne]; [by apply not_elem_of_nil|].
  destruct (items g) as [|x l] eqn:Ei; [done|].
  assert (seen r !! x = Some (lab id)) as Ex.
  { apply (c_content _ _ _ _ Hc); [done|]. exists g. split; [done|]. rewrite Ei. set_solver. }
  exists g, x. split; [done|]. split; [rewrite Ei; set_solver|]. split; [done|]. split; [done|].
  by apply (wf_seq _ Hw x).
Qed.

Lemma start_splitting lab r q : rank_wf r → core None lab r q → finishing q [] →
  splitting None lab r q [] None.
Proof.
  intros Hw Hc Hf.
  assert (∀ a s, a ∈ priorityGroups_ q → lab a ≠ s ++ [count r]) as Hno.
  { intros a s Ha E. destruct (rel_labels lab r q a Hw Hc Hf Ha) as (_ & _ & _ & _ & _ & _ & Hl).
    rewrite E in Hl. apply Forall_app in Hl as [_ Hl]. inversion Hl; subst. lia. }
  split; try done.
  - constructor.
  - by intros ? ?%elem_of_nil.
  - intros id g u Hid Eg Eu. destruct (rel_labels lab r q id Hw Hc Hf Hid) as (g1 & ? & ? & ? & ? & ? & ?). congruence.
  - intros id g _ Hid Eg Ei. exfalso. destruct (rel_labels lab r q id Hw Hc Hf Hid) as (g1 & x & E1 & Hx & _).
    replace g1 with g in * by congruence. rewrite Ei in Hx. by apply elem_of_nil in Hx.
  - intros a b Ha _ E. by apply Hno in E.
  - intros a s Ha E. by apply Hno in E.
  - intros a Ha E. by apply (Hno a []) in E.
Qed.

Lemma core_next lab r q : core None lab r q → core None lab (next r) q.
Proof.
  intros [H1 H2 H3 H4 H5 H6 H7 H8 H9]. split; simpl; try done.
  - intros id Hid. destruct (H8 id Hid) as [? Hl]. split; [done|]. eapply Forall_impl; [exact Hl|]. simpl. lia.
  - intros l El. destruct (H9 l El) as (id & rest & g & E1 & E2 & E3 & E4 & _). exists id, rest, g.
    repeat (split; [done|]). destruct (H8 id) as [_ Hl]; [rewrite E1; set_solver|]. rewrite Forall_forall in Hl.
    intros Hin. specialize (Hl _ Hin). lia.
Qed.

Lemma update_rel r q xs : rel r q → ∃ q', update q xs = Ok q' ∧ rel (rank_update r xs) q'.
Proof.
  intros (Hw & lab & Hc & Hf & Hsize). unfold update.
  destruct (group_update_items xs lab r q [] None Hc (start_splitting _ _ _ Hw Hc Hf) (wf_count _ Hw) Hsize)
    as (q1 & sp & nw & lab1 & -> & A1 & A2 & A3).
  cbn [mbind result_bind]. destruct (finish_rel lab1 _ sp q1 A1) as (q2 & -> & B1 & B2 & B3).
  - destruct A2 as [N1 N2 N3 N4 _ _ _ _]. split; [done|intros id Hid; by apply N2|].
    intros id g Hid Eg Hsp. split.
    + destruct (updatedItemsGroupIt g) eqn:E; [|done]. by destruct (N3 id g z Hid Eg E) as [? _].
    + intros E. by apply Hsp, (N4 id g).
  - exists q2. split; [done|]. split; [by apply update_wf|]. exists lab1. split; [by apply core_next|].
    split; [done|]. by rewrite B3, A3.
Qed.

(** ** Removing an item *)
Lemma remove_commutes q x o s id i g q' :
  heap q !! id = Some g → items g !! i = Some x → NoDup (items g) →
  removeItemFromGroup q (mkLocation id i) = Ok q' →
  removeItemFromGroup (with_location (with_sorted q s) x o) (mkLocation id i) =
    Ok (with_location (with_sorted q' s) x o).
Proof.
  intros Eg Ei Hnd. unfold removeItemFromGroup, group_at. cbn [groupIt itemIndex heap with_location with_sorted].
  rewrite Eg. cbn [mbind result_bind itemToLocation_ with_location with_sorted]. destruct (last (items g)) as [z|] eqn:Ez; [|done].
  case_decide as Hi; [by intros [= <-]|]. case_match; [done|].
  assert (z ≠ x) as Hne.
  { rewrite last_lookup in Ez. intros ->. apply Hi.
    assert (i = pred (length (items g))) as -> by (by eapply (NoDup_lookup (items g))). lia. }
  rewrite lookup_insert_ne by done. destruct (itemToLocation_ q !! z) as [[l|]|]; simpl; try done.
  intros [= <-]. unfold with_group, with_location, with_sorted. simpl. do 2 f_equal. by rewrite insert_insert_ne.
Qed.

Lemma core_gone lab r q x :
  core (Some x) lab (minus r x) q → core None lab (rank_remove r x) (with_location q x None).
Proof.
  intros [[? ? ? ?] H2 H3 H4 H5 H6 H7 H8 H9]. split; simpl; try done.
  - intros y. rewrite decide_False by done. intros l. specialize (H2 y). simpl. case_decide as Hy.
    + injection Hy as <-. rewrite lookup_insert_eq. split; [done|]. intros [Hl (g & Eg & Ei)]. exfalso.
      apply (H2 _ Hl). exists g. split; [done|]. by eapply list_elem_of_lookup_2.
    + rewrite lookup_insert_ne by congruence. by apply H2.
  - intros y _. destruct (decide (y = x)) as [->|Hne]; [rewrite lookup_insert_eq; set_solver|].
    rewrite lookup_insert_ne, H6 by congruence. simpl. set_solver.
Qed.

Lemma core_cached skip lab r q l id rest g :
  core skip lab r q → priorityGroups_ q = id :: rest → heap q !! id = Some g → l ≡ₚ items g →
  ascending (reverse l) → count r ∉ lab id → core skip lab r (with_sorted q (Some l)).
Proof.
  intros [[? ? ? ?] H2 H3 H4 H5 H6 H7 H8 H9] E1 E2 E3 E4 E5. split; simpl; try done.
  intros ? [= <-]. by exists id, rest, g.
Qed.

Lemma ascending_pop l x : last l = Some x → ascending (reverse l) →
  ascending (reverse (take (length l - 1) l)).
Proof.
  destruct l as [|y l _] using rev_ind; [done|]. rewrite last_snoc. intros [= ->].
  rewrite length_app, Nat.add_sub, take_app_length, reverse_snoc. intros Hs. by inversion Hs.
Qed.

Lemma pop_perm l l' x (m : list T) : NoDup l → last l = Some x → l ≡ₚ m → NoDup l' →
  (∀ y, y ∈ l' ↔ y ∈ m ∧ y ≠ x) → take (length l - 1) l ≡ₚ l'.
Proof.
  intros Hnd Hl Hp Hnd' Hm. apply NoDup_Permutation; [by apply (sublist_NoDup _ _ Hnd), sublist_take|done|].
  intros y. rewrite Hm, <-Hp. rewrite !list_elem_of_lookup.
  assert (l !! (length l - 1)%nat = Some x) as Hx
    by (rewrite last_lookup in Hl; by replace (length l - 1)%nat with (pred (length l)) by lia).
  setoid_rewrite (pop_lookup l x Hnd Hx). naive_solver.
Qed.

Lemma removed_sorted q id g x q' g' s :
  removed q id g x q' g' → removed (with_sorted q s) id g x (with_sorted q' s) g'.
Proof. intros [H1 H2 H3 H4 H5 H6 H7 H8 (F1 & F2 & F3 & F4 & F5)]. by split. Qed.

(** What becomes of the sorted copy of the first group. *)
Lemma sorted_after_removal lab r q id i x g :
  core None lab r q → id ∈ priorityGroups_ q → heap q !! id = Some g → items g !! i = Some x →
  ∃ s q', updateSortedTopGroupItemsAfterRemoval (with_location q x None) id x =
      Ok (with_location (with_sorted q s) x None) ∧
    removeItemFromGroup (with_location (with_sorted q s) x None) (mkLocation id i) = Ok q' ∧
    core None lab (rank_remove r x) q' ∧ priorityGroups_ q' = priorityGroups_ q ∧ size_ q' = size_ q ∧
    ∃ g', heap q' = <[id := g']> (heap q) ∧ updatedItemsGroupIt g' = updatedItemsGroupIt g.
Proof.
  intros Hc Hid Eg Ei. pose proof (c_located _ _ _ _ Hc) as Hloc. pose proof (located_NoDup q id g Hloc Hid Eg) as Hnd.
  assert (x ∈ items g) as Hxg by (by eapply list_elem_of_lookup_2).
  destruct (remove_from_group q id i x g Hloc Hid Eg Ei) as (q1 & g' & Erm & Hrm).
  pose proof Hrm as [R1 R2 R3 R4 _ _ _ _ (_ & G2 & _ & G4 & _)].
  assert (core None lab (rank_remove r x) (with_location (with_sorted q1 None) x None)) as Hc0.
  { apply core_gone, (core_take x id g _ g' lab r (with_sorted q None)); [by apply core_sorted_none|done..| |by left].
    by apply removed_sorted. }
  assert (∀ s, core None lab (rank_remove r x) (with_location (with_sorted q1 s) x None) →
    ∃ q', removeItemFromGroup (with_location (with_sorted q s) x None) (mkLocation id i) = Ok q' ∧
      core None lab (rank_remove r x) q' ∧ priorityGroups_ q' = priorityGroups_ q ∧ size_ q' = size_ q ∧
      ∃ g', heap q' = <[id := g']> (heap q) ∧ updatedItemsGroupIt g' = updatedItemsGroupIt g) as Hgoal.
  { intros s Hs. rewrite (remove_commutes q x None s id i g q1 Eg Ei Hnd Erm). eexists. split; [done|].
    split; [done|]. simpl. rewrite R1. eauto 6. }
  unfold updateSortedTopGroupItemsAfterRemoval. cbn [sortedTopGroupItems_ with_location].
  destruct (sortedTopGroupItems_ q) as [l|] eqn:El.
  2: { exists None. destruct (Hgoal None Hc0) as (q' & ?). exists q'. split; [|done].
       destruct q; simpl in *; by subst. }
  destruct (c_cache _ _ _ _ Hc l El) as (hd & rest & gh & E1 & E2 & E3 & E4 & E5).
  replace (isBegin (with_location q x None) id) with (id =? hd) by (unfold isBegin; simpl; by rewrite E1).
  destruct (Z.eqb_spec id hd) as [->|Hne]; simpl.
  - replace gh with g in * by congruence.
    destruct (last l) as [y|] eqn:Ey; [|by apply last_None in Ey; subst; apply Permutation_nil in E3; rewrite E3 in Ei].
    case_decide as Hy.
    + subst y. exists (Some (take (length l - 1) l)). destruct (Hgoal (Some (take (length l - 1) l))) as (q' & Hq'); [|exists q'; split; [reflexivity|exact Hq']].
      change (with_location (with_sorted q1 (Some (take (length l - 1) l))) x None)
        with (with_sorted (with_location (with_sorted q1 None) x None) (Some (take (length l - 1) l))).
      eapply (core_cached _ _ _ _ _ hd rest g'); [done| | | | |done].
      * simpl. by rewrite G2.
      * simpl. by rewrite R1, lookup_insert_eq.
      * apply (pop_perm l _ x (items g)); [by rewrite E3|done..].
      * by eapply ascending_pop.
    + exists None. destruct (Hgoal None Hc0) as (q' & ?). by exists q'.
  - exists (Some l). destruct (Hgoal (Some l)) as (q' & ?).
    + change (with_location (with_sorted q1 (Some l)) x None)
        with (with_sorted (with_location (with_sorted q1 None) x None) (Some l)).
      eapply (core_cached _ _ _ _ _ hd rest gh); [done| | |done..].
      * simpl. by rewrite G2.
      * simpl. by rewrite R1, lookup_insert_ne.
    + exists q'. split; [|done]. destruct q; simpl in *; by subst.
Qed.

Lemma remove_present r q x l : rel r q → itemToLocation_ q !! x = Some (Some l) →
  ∃ q', remove q x = Ok q' ∧ rel (rank_remove r x) q'.
Proof.
  intros (Hw & lab & Hc & Hf & Hsize) Ex. unfold remove, markRemoved. rewrite Ex. destruct l as [id i].
  pose proof (proj1 (located_at q x _ (c_located _ _ _ _ Hc)) Ex) as [Hid (g & Eg & Ei)]. cbn [groupIt itemIndex] in *.
  destruct (sorted_after_removal lab r q id i x g Hc Hid Eg Ei) as (s & q1 & -> & E1 & A1 & A2 & A3 & g' & A4 & A5).
  cbn [mbind result_bind]. rewrite E1. cbn [mbind result_bind].
  unfold eraseGroupIfEmpty, group_at. rewrite A4, lookup_insert_eq. cbn [mbind result_bind].
  assert (seen r !! x = Some (lab id)) as Es.
  { apply (c_content _ _ _ _ Hc); [done|]. exists g. split; [done|]. by eapply list_elem_of_lookup_2. }
  assert (size_ q - 1 = Z.of_nat (size (seen (rank_remove r x)))) as Hsz.
  { simpl. rewrite Hsize, map_size_delete, Es. simpl. assert (size (seen r) ≠ 0%nat); [|lia].
    rewrite map_size_ne_0_lookup. by eexists _, _. }
  destruct (f_done _ _ Hf id g Hid Eg) as [Hu _]; [by apply not_elem_of_nil|].
  assert (∀ k gk, k ≠ id → k ∈ priorityGroups_ q → heap q1 !! k = Some gk →
    updatedItemsGroupIt gk = None ∧ items gk ≠ []) as Hother.
  { intros k gk Hne Hk. rewrite A4, lookup_insert_ne by done. intros Ek. apply (f_done _ _ Hf k gk); [done..|].
    by apply not_elem_of_nil. }
  assert (heap q1 !! id = Some g') as Eg' by (by rewrite A4, lookup_insert_eq).
  rewrite <-A2 in Hid. destruct (items g') as [|y ys] eqn:Ey.
  - destruct (erase_group None lab _ q1 id g' A1 Hid Eg' Ey) as (B1 & B2 & B3 & B4); [congruence|].
    eexists. split; [done|]. split; [by apply remove_wf|]. exists lab. split; [by apply core_size|].
    split; [|cbn [size_ with_size]; by rewrite B4, A3]. split; simpl; [constructor|by intros ? ?%elem_of_nil|].
    intros k gk. change (k ∈ priorityGroups_ (eraseGroup q1 id) → heap (eraseGroup q1 id) !! k = Some gk →
      k ∉ [] → updatedItemsGroupIt gk = None ∧ items gk ≠ []).
    rewrite B2, B3. intros [Hne Hk]%list_elem_of_filter Ek _. apply (Hother k gk); [done|by rewrite <-A2|done].
  - eexists. split; [done|]. split; [by apply remove_wf|]. exists lab. split; [by apply core_size|].
    split; [|simpl; by rewrite A3]. split; simpl; [constructor|by intros ? ?%elem_of_nil|].
    intros k gk Hk Ek _. destruct (decide (k = id)) as [->|Hne]; [|apply (Hother k gk); [done|by rewrite <-A2|done]].
    replace gk with g' by congruence. split; congruence.
Qed.

Lemma remove_rel r q x : rel r q → ∃ q', remove q x = Ok q' ∧ rel (rank_remove r x) q'.
Proof.
  intros Hr. destruct (itemToLocation_ q !! x) as [[l|]|] eqn:Ex; [by eapply remove_present| |].
  - unfold remove, markRemoved. rewrite Ex. exists q. split; [done|].
    destruct Hr as (Hw & lab & Hc & Hf & Hsize). pose proof Ex as Hg. rewrite (c_gone _ _ _ _ Hc x) in Hg by done.
    assert (rank_remove r x = r) as ->; [|by split; eauto].
    unfold rank_remove. destruct r as [c go se]. simpl in *. f_equal; [set_solver|].
    apply delete_id. by apply (wf_gone _ Hw).
  - unfold remove, markRemoved. rewrite Ex. eexists. split; [done|].
    destruct Hr as (Hw & lab & Hc & Hf & Hsize). split; [by apply remove_wf|]. exists lab.
    assert (seen r !! x = None) as Es.
    { destruct (seen r !! x) eqn:E; [|done]. destruct (c_seen _ _ _ _ Hc x) as (id & Hid & Hcx); [by eexists|].
      apply located_content in Hcx as [i Ei]; [congruence|apply Hc|done]. }
    split; [|split; [destruct Hf; by split|simpl; by rewrite delete_id]].
    apply core_gone. destruct Hc as [H1 H2 H3 H4 H5 H6 H7 H8 H9].
    assert (minus r x = r) as -> by (unfold minus; rewrite delete_id by done; by destruct r).
    split; simpl; try done.
    + intros y. case_decide as Hy; [injection Hy as <-|intros l; by apply located_at].
      intros id Hid [i Ei]%located_content; [congruence|done..].
    + by intros ? [= <-].
    + intros y _. by apply H6.
Qed.

(** ** The first item *)
Lemma sort_ascending l : NoDup l → ascending (reverse (sortDescending lt l)) ∧ sortDescending lt l ≡ₚ l.
Proof.
  intros Hnd. unfold sortDescending. rewrite reverse_involutive.
  assert (merge_sort (le lt) l ≡ₚ l) as Hp by apply merge_sort_Permutation.
  split; [|by rewrite reverse_Permutation].
  assert (StronglySorted (le lt) (merge_sort (le lt) l)) as Hs.
  { apply StronglySorted_merge_sort; [|intros x y; unfold le; destruct (lt y x) eqn:E; [right|left; done];
      by apply (StdSet.lt_asym (D := λ _, True))].
    intros x y z Hxy Hyz. unfold le in *. destruct (lt z x) eqn:E; [|done].
    destruct (decide (y = z)) as [->|Hne]; [congruence|].
    assert (lt y z = true) as E2.
    { destruct (lt y z) eqn:E2; [done|]. exfalso. by apply Hne, (StdSet.st_total (D := λ _, True)). }
    assert (lt y x = true) by (by apply (StdSet.st_trans (D := λ _, True) y z x)). congruence. }
  rewrite <-Hp in Hnd. clear Hp. revert Hnd. induction Hs as [|x m Hs IH Hf]; [constructor|].
  intros [Hx Hnd]%NoDup_cons. constructor; [by apply IH|]. rewrite Forall_forall in *. intros y Hy.
  destruct (lt x y) eqn:E; [done|]. exfalso. apply Hx. specialize (Hf y Hy). unfold le in Hf.
  by rewrite (StdSet.st_total (D := λ _, True) x y).
Qed.

Lemma ascending_last l x : ascending (reverse l) → last l = Some x → ∀ y, y ∈ l → y = x ∨ lt x y = true.
Proof.
  destruct l as [|z l _] using rev_ind; [done|]. rewrite last_snoc, reverse_snoc. intros Hs [= ->] y Hy.
  inversion Hs as [|? ? _ Hf]; subst. rewrite Forall_forall in Hf.
  apply elem_of_app in Hy as [Hy|Hy%list_elem_of_singleton]; [|by left]. right. apply Hf. by rewrite elem_of_reverse.
Qed.

Lemma group_first lab r q id rest g x :
  core None lab r q → priorityGroups_ q = id :: rest → heap q !! id = Some g → x ∈ items g →
  (∀ y, y ∈ items g → y = x ∨ lt x y = true) → is_first lt r x.
Proof.
  intros Hc E1 Eg Hx Hmin. exists (lab id).
  assert (id ∈ priorityGroups_ q) as Hid by (rewrite E1; set_solver).
  split; [apply (c_content _ _ _ _ Hc); [done|by exists g]|]. intros y s' Ey.
  destruct (c_seen _ _ _ _ Hc y) as (k & Hk & Hcy); [by eexists|].
  assert (s' = lab k) as -> by (pose proof (c_content _ _ _ _ Hc k y Hk Hcy); congruence).
  unfold Compare. simpl. rewrite E1 in Hk. apply elem_of_cons in Hk as [->|Hk].
  - destruct Hcy as (g1 & E2 & Hy). replace g1 with g in * by congruence.
    destruct (Hmin y Hy) as [?|Hlt]; [by left|right]. by rewrite bool_decide_true, Hlt, orb_true_r.
  - right. pose proof (c_sorted _ _ _ _ Hc) as Hs. rewrite E1 in Hs. inversion Hs as [|? ? _ Hf]; subst.
    rewrite Forall_forall in Hf. by rewrite (Hf k Hk).
Qed.

Lemma rel_top lab r q x : core None lab r q → is_first lt r x →
  ∃ id rest g, priorityGroups_ q = id :: rest ∧ heap q !! id = Some g ∧ size (seen r) ≠ 0%nat.
Proof.
  intros Hc (s & Ex & _). destruct (c_seen _ _ _ _ Hc x) as (k & Hk & _); [by eexists|].
  destruct (priorityGroups_ q) as [|id rest] eqn:E1; [by apply elem_of_nil in Hk|].
  destruct (sh_heap _ (c_shape _ _ _ _ Hc) id) as [g Eg]; [rewrite E1; set_solver|].
  exists id, rest, g. split; [done|]. split; [done|]. rewrite map_size_ne_0_lookup. by eexists _, _.
Qed.

Lemma top_rel r q x : rel r q → is_first lt r x → ∃ q', top lt q = Ok (x, q') ∧ rel r q'.
Proof.
  intros Hr Hf. pose proof Hr as (Hw & lab & Hc & Hfin & Hsize).
  destruct (rel_top lab r q x Hc Hf) as (id & rest & g & E1 & Eg & Hne).
  assert (id ∈ priorityGroups_ q) as Hid by (rewrite E1; set_solver).
  destruct (rel_labels lab r q id Hw Hc Hfin Hid) as (g1 & z & E2 & Hz & _ & _ & Hl).
  replace g1 with g in * by congruence. clear g1 E2.
  unfold top, throwIfEmpty, isEmpty. rewrite (proj2 (Z.eqb_neq _ _)) by lia. cbn [mbind result_bind].
  unfold bestItemInTopGroup. rewrite E1. unfold group_at. rewrite Eg. cbn [mbind result_bind].
  assert (∀ y, y ∈ items g → (∀ y', y' ∈ items g → y' = y ∨ lt y y' = true) → y = x) as Hy.
  { intros y Hin Hmin. eapply first_unique; [|done]. by eapply group_first. }
  assert (∃ l, match sortedTopGroupItems_ q with Some s => s | None => sortDescending lt (items g) end = l ∧
    ascending (reverse l) ∧ l ≡ₚ items g) as (l & El & Hasc & Hp).
  { destruct (sortedTopGroupItems_ q) as [s|] eqn:Es.
    - destruct (c_cache _ _ _ _ Hc s Es) as (id' & rest' & g' & E3 & E4 & E5 & E6 & _). exists s.
      split; [done|]. split; [done|]. rewrite E1 in E3. injection E3 as <- <-. by replace g with g' by congruence.
    - eexists. split; [done|]. apply sort_ascending. by eapply located_NoDup; [apply Hc|..]. }
  destruct (last l) as [y|] eqn:Ey.
  2: { apply last_None in Ey as ->. apply Permutation_nil in Hp. rewrite Hp in Hz. by apply elem_of_nil in Hz. }
  assert (y = x) as ->.
  { apply Hy.
    - rewrite <-Hp. rewrite last_lookup in Ey. by eapply list_elem_of_lookup_2.
    - intros y' Hy'. rewrite <-Hp in Hy'. by eapply ascending_last. }
  assert (∃ q', Ok (x, with_sorted q (Some l)) = Ok (x, q') ∧ rel r q') as Hgoal.
  { eexists. split; [done|]. split; [done|]. exists lab. split; [|split; [destruct Hfin; by split|done]].
    eapply core_cached; [done..|]. intros Hin. rewrite Forall_forall in Hl. specialize (Hl _ Hin). lia. }
  destruct (items g) as [|a [|b m]] eqn:Ei; [by apply elem_of_nil in Hz| |by rewrite El, Ey].
  exists q. split; [|done]. do 2 f_equal. apply Hy; [set_solver|]. intros y' Hy'%list_elem_of_singleton. by left.
Qed.

Lemma strict_rel r q x : rel r q → is_first lt r x →
  ∃ b, is_top_strict q = Ok b ∧ (b = true ↔ is_strict r x).
Proof.
  intros Hr Hf. pose proof Hr as (Hw & lab & Hc & Hfin & Hsize).
  destruct (rel_top lab r q x Hc Hf) as (id & rest & g & E1 & Eg & Hne).
  assert (id ∈ priorityGroups_ q) as Hid by (rewrite E1; set_solver).
  unfold is_top_strict, throwIfEmpty, isEmpty. rewrite (proj2 (Z.eqb_neq _ _)) by lia. cbn [mbind result_bind].
  rewrite E1. unfold group_at. rewrite Eg. cbn [mbind result_bind]. eexists. split; [done|]. rewrite Nat.eqb_eq.
  pose proof (located_NoDup q id g (c_located _ _ _ _ Hc) Hid Eg) as Hnd.
  assert (∀ y, y ∈ items g → seen r !! y = Some (lab id)) as Hin
    by (intros y Hy; apply (c_content _ _ _ _ Hc); [done|by exists g]).
  assert (x ∈ items g ∧ seen r !! x = Some (lab id)) as [Hx Ex].
  { destruct (first_exists_list (lt := lt) ((λ y, (y, lab id)) <$> items g)) as ([y s] & Hys & Hmin).
    - intros E%fmap_nil_inv. destruct (rel_labels lab r q id Hw Hc Hfin Hid) as (g1 & z & E2 & Hz & _).
      replace g1 with g in * by congruence. rewrite E in Hz. by apply elem_of_nil in Hz.
    - apply list_elem_of_fmap in Hys as (y' & [= -> ->] & Hy). enough (y' = x) as <- by auto.
      eapply first_unique; [|done]. eapply group_first; [done..|]. intros z Hz.
      destruct (Hmin (z, lab id)) as [[= ->]|Hc']; [apply list_elem_of_fmap; eauto|by left|right].
      unfold Compare in Hc'. simpl in Hc'. by rewrite seq_lt_irrefl, bool_decide_true in Hc'. }
  split.
  - intros Hlen y Ey. rewrite Ex in Ey. destruct (c_seen _ _ _ _ Hc y) as (k & Hk & Hcy); [by eexists|].
    assert (k = id) as ->.
    { eapply label_unique; [done..|]. pose proof (c_content _ _ _ _ Hc k y Hk Hcy). congruence. }
    destruct Hcy as (g1 & E2 & Hy). replace g1 with g in * by congruence.
    destruct (items g) as [|a [|]]; try done. set_solver.
  - intros Hs. destruct (items g) as [|a [|b m]] eqn:Ei; [by apply elem_of_nil in Hx|done|].
    exfalso. apply NoDup_cons in Hnd as [Hab _]. apply Hab.
    assert (a = x) as -> by (apply Hs; rewrite Ex; apply Hin; set_solver).
    assert (b = x) as -> by (apply Hs; rewrite Ex; apply Hin; set_solver). set_solver.
Qed.

#[export] Instance v2_queue : PriorityQueue T (t T) := {
  q_empty := empty;
  q_size := size_;
  q_isEmpty := isEmpty;
  q_top := top lt;
  q_is_top_strict := is_top_strict;
  q_remove := remove;
  q_update := update
}.

#[export] Instance v2_laws : QueueLaws T (t T) lt.
Proof.
  refine {| q_rel := rel |}.
  - by intros r q [? _].
  - split; [apply no_ranks_wf|]. exists (λ _, []). split; [|split; [|done]].
    + split; simpl; [| |done|by intros ? ? ?%elem_of_nil| | |constructor|by intros ? ?%elem_of_nil|done].
      * split; simpl; [constructor|by intros ? ?%elem_of_nil| |by intros ? ?%elem_of_nil].
        intros ? [? E]. by rewrite lookup_empty in E.
      * intros x. rewrite decide_False by done. intros l. simpl. rewrite lookup_empty.
        split; [done|]. by intros [?%elem_of_nil _].
      * intros x [? E]. by rewrite lookup_empty in E.
      * intros x _. rewrite lookup_empty. set_solver.
    + split; simpl; [apply NoDup_nil_2|by intros ? ?%elem_of_nil|by intros ? ? ?%elem_of_nil].
  - by intros r q (_ & lab & _ & _ & ?).
  - intros r q (_ & lab & _ & _ & Hs). simpl. unfold isEmpty. rewrite Hs.
    case_bool_decide as E; [by rewrite E|]. apply Z.eqb_neq. rewrite <-map_size_empty_iff in E. lia.
  - apply top_rel.
  - apply strict_rel.
  - apply remove_rel.
  - intros r q items Hr _. by apply update_rel.
Defined.
End facts.
End GroupQueue.
