(* ===== verification/Traversal.v ===== *)
(** * The traversal of the hot containers

    solver/iterators/ExpressionIterator.cpp and ExpressionContainersIterator.cpp: the
    expressions of the objective in pre-order, the children with the highest potential
    first, and the containers they affect, ranked by an incremental queue that is fed
    only until its first item is certain. *)

From S2P Require Import Prelude Double Precision ChangeSet AccessOrderedSet Queues IncrementalQueue.

Open Scope Z_scope.

(** What the traversal reads of the expressions: nodes are numbered, [potentials] are
    the children with their potentials in descending order, [rootPotential] is the value
    minus the lower bound. *)
Record ExpressionView := {
  isFixed : Z → bool;
  potentials : Z → list (Z * double);
  rootPotential : Z → double;
  directlyAffected : Z → option (gset Z);
  uniqueAffected : Z → option (gset Z);
  viewPrecision : PrecisionTolerances
}.

Module PreOrderExpressionIterator.

Record config := { descending_ : bool; pruneOptimalSubgraphs : bool }.

Record iterator := mk { stack : list (Z * double); seen : gset Z }.

Section traversal.
Context (cfg : config) (shouldExpand : ExpressionView → Z → bool).

Definition pruned (v : ExpressionView) (p : Z * double) : bool :=
  pruneOptimalSubgraphs cfg && (Precision.isZero defaultTolerances p.2 || isFixed v p.1).

Definition unique_push_to_stack (v : ExpressionView) (it : iterator) (p : Z * double) : iterator :=
  if negb (pruned v p) && bool_decide (p.1 ∉ seen it)
  then mk (p :: stack it) ({[p.1]} ∪ seen it)
  else it.

Definition begin (v : ExpressionView) (expression : Z) : iterator :=
  unique_push_to_stack v (mk [] ∅)
    (expression, if pruneOptimalSubgraphs cfg then rootPotential v expression else d1).

Definition get (it : iterator) : option (Z * double) := head (stack it).

Definition step (v : ExpressionView) (it : iterator) : iterator :=
  match stack it with
  | [] => it
  | (expr, _) :: rest =>
      let it1 := mk rest (seen it) in
      if shouldExpand v expr
      then foldl (unique_push_to_stack v) it1
             (if descending_ cfg then reverse (potentials v expr) else potentials v expr)
      else it1
  end.

(** A bound on the number of nodes that are still to come. *)
Definition left_nodes (nodes : gset Z) (it : iterator) : nat :=
  (length (stack it) + size (nodes ∖ seen it))%nat.
End traversal.
End PreOrderExpressionIterator.

(** ** Containers with a random priority *)
Record ContainerWithPriority := mkContainer { containerId : Z; priority : Z }.

#[export] Instance ContainerWithPriority_eq_dec : EqDecision ContainerWithPriority.
Proof. solve_decision. Defined.

#[export] Instance ContainerWithPriority_countable : Countable ContainerWithPriority.
Proof.
  refine (inj_countable' (λ c, (containerId c, priority c)) (λ p, mkContainer p.1 p.2) _).
  by intros [].
Defined.

Definition ContainerWithPriority_lt (a b : ContainerWithPriority) : bool :=
  if negb (priority a =? priority b) then priority a <? priority b else containerId a <? containerId b.

#[export] Instance ContainerWithPriority_total :
  StdSet.StrictTotal (λ _, True) ContainerWithPriority_lt.
Proof.
  unfold ContainerWithPriority_lt. split.
  - intros [i p] _. simpl. rewrite Z.eqb_refl. simpl. lia.
  - intros [i1 p1] [i2 p2] [i3 p3] _ _ _. simpl.
    destruct (Z.eqb_spec p1 p2), (Z.eqb_spec p2 p3), (Z.eqb_spec p1 p3); simpl; rewrite ?Z.ltb_lt; lia.
  - intros [i1 p1] [i2 p2] _ _. simpl.
    destruct (Z.eqb_spec p1 p2), (Z.eqb_spec p2 p1); simpl; rewrite ?Z.ltb_ge; intros; try lia.
    f_equal; lia.
Qed.

Module ExpressionContainersIterator.
Import PreOrderExpressionIterator.

(** [twang] is [folly::hash::twang_32from64]. *)
Section iterator.
Context `{HO : HashOrder} (twang : Z → Z) {Q : Type} `{PQ : PriorityQueue ContainerWithPriority Q}.
Context (cfg : config).

(** A node is not expanded if it is fixed or if its subgraph affects one set of
    containers only. *)
Definition shouldExpand (v : ExpressionView) (node : Z) : bool :=
  if isFixed v node then false
  else match uniqueAffected v node with Some _ => false | None => true end.

Record t := mk {
  ranges : list PreOrderExpressionIterator.iterator;
  queue : Q;
  current_range_index_ : nat;
  skipOptimalExpressions_ : bool;
  randomSeed_ : Z
}.

Definition with_queue (it : t) (q : Q) : t :=
  mk (ranges it) q (current_range_index_ it) (skipOptimalExpressions_ it) (randomSeed_ it).

(** [(uint64_t(randomSeed_) << 32) | containerId] *)
Definition randomizeContainer (seed : Z) (id : Z) : ContainerWithPriority :=
  mkContainer id (twang (Z.lor (Z.shiftl seed 32 `mod` 2 ^ 64) id)).

Definition randomizeContainers (seed : Z) (ids : gset Z) : list ContainerWithPriority :=
  randomizeContainer seed <$> set_iter ids.

Definition yields_unique_container (q : Q) : result bool :=
  if q_isEmpty q then Ok false else q_is_top_strict q.

(** The containers an expression contributes. *)
Definition affected (v : ExpressionView) (e : Z) : option (gset Z) :=
  match uniqueAffected v e, directlyAffected v e with
  | Some u, None => Some u
  | Some u, Some d => Some (u ∪ d)
  | None, Some d => Some d
  | None, None => None
  end.

(** The expression is ignored: it is fixed, or has reached its bound. *)
Definition ignored (v : ExpressionView) (skipOptimal : bool) (p : Z * double) : bool :=
  isFixed v p.1 || (skipOptimal && (Precision.compare (viewPrecision v) p.2 d0 =? 0)).

Definition addContainers (v : ExpressionView) (it : t) (p : Z * double) : result Q :=
  if ignored v (skipOptimalExpressions_ it) p then Ok (queue it)
  else match affected v p.1 with
  | Some containers => q_update (queue it) (randomizeContainers (randomSeed_ it) containers)
  | None => Ok (queue it)
  end.

Fixpoint feed_queue (fuel : nat) (v : ExpressionView) (it : t) : result t :=
  if (length (ranges it) <=? current_range_index_ it)%nat then Ok it
  else
    unique ← yields_unique_container (queue it);
    if (unique : bool) then Ok it
    else match fuel with
    | O => Throw (undefined_behaviour "out of fuel")
    | S fuel =>
        match ranges it !! current_range_index_ it with
        | None => Throw (undefined_behaviour "vector access out of bounds")
        | Some current =>
            match get current with
            | None => feed_queue fuel v (mk (ranges it) (queue it) (S (current_range_index_ it))
                        (skipOptimalExpressions_ it) (randomSeed_ it))
            | Some p =>
                q ← addContainers v it p;
                feed_queue fuel v
                  (mk (<[current_range_index_ it := step cfg shouldExpand v current]> (ranges it)) q
                     (current_range_index_ it) (skipOptimalExpressions_ it) (randomSeed_ it))
            end
        end
    end.

(** Every pass of the loop pops a node or leaves a range. *)
Definition fuel_of (nodes : gset Z) (it : t) : nat :=
  (sum_list_with (λ r, S (left_nodes nodes r)) (drop (current_range_index_ it) (ranges it)))%nat.

Definition construct (nodes : gset Z) (v : ExpressionView)
    (rs : list PreOrderExpressionIterator.iterator) (skipOptimalExpressions : bool) (randomSeed : Z)
    : result t :=
  let it := mk rs q_empty 0 skipOptimalExpressions randomSeed in
  feed_queue (fuel_of nodes it) v it.

Definition at_end (it : t) : bool := q_isEmpty (queue it).

Definition deref (it : t) : result (Z * t) :=
  '(c, q) ← q_top (queue it);
  Ok (containerId c, with_queue it q).

Definition increment (nodes : gset Z) (v : ExpressionView) (it : t) : result t :=
  '(c, q1) ← q_top (queue it);
  q2 ← q_remove q1 c;
  let it1 := with_queue it q2 in
  feed_queue (fuel_of nodes it1) v it1.
End iterator.
End ExpressionContainersIterator.

(** ** The traversal of the objectives *)
Module DescendingExpressionContainersTraversal.
Section traversal.
Context `{HO : HashOrder} (twang : Z → Z) {Q : Type} `{PQ : PriorityQueue ContainerWithPriority Q}.

Definition config (skipOptimalExpressions pruneOptimalSubgraphs : bool)
    : PreOrderExpressionIterator.config := {|
  PreOrderExpressionIterator.descending_ := true;
  PreOrderExpressionIterator.pruneOptimalSubgraphs := skipOptimalExpressions && pruneOptimalSubgraphs
|}.

Definition begin (nodes : gset Z) (v : ExpressionView) (objectives : list Z)
    (skipOptimalExpressions pruneOptimalSubgraphs : bool) (randomSeed : Z)
    : result (ExpressionContainersIterator.t (Q := Q)) :=
  let cfg := config skipOptimalExpressions pruneOptimalSubgraphs in
  ExpressionContainersIterator.construct twang cfg nodes v
    (PreOrderExpressionIterator.begin cfg v <$> objectives) skipOptimalExpressions randomSeed.

(** The loop over all containers; [fuel] is more than their number. *)
Fixpoint visit (fuel : nat) (cfg : PreOrderExpressionIterator.config) (nodes : gset Z) (v : ExpressionView)
    (it : ExpressionContainersIterator.t (Q := Q)) : result (list Z) :=
  if ExpressionContainersIterator.at_end it then Ok []
  else match fuel with
  | O => Throw (undefined_behaviour "out of fuel")
  | S fuel =>
      '(c, it1) ← ExpressionContainersIterator.deref it;
      it2 ← ExpressionContainersIterator.increment twang cfg nodes v it1;
      l ← visit fuel cfg nodes v it2;
      Ok (c :: l)
  end.
End traversal.
End DescendingExpressionContainersTraversal.
