(* ===== verification/TraversalFacts.v ===== *)
(** * The traversal of the hot containers is complete and sorted

    The expressions come in pre-order, each once and exactly those that can be reached;
    the containers come in the order that feeding every expression to the queue would
    give, whichever queue is used. *)

From Stdlib Require Import Sorting.Sorted.
From S2P Require Import Prelude Double Precision ChangeSet AccessOrderedSet Queues IncrementalQueue Traversal.

Open Scope Z_scope.

(** ** The expressions in pre-order *)
Section walk.
Import PreOrderExpressionIterator.
Context (cfg : config) (expand : ExpressionView → Z → bool) (v : ExpressionView) (nodes : gset Z).
Implicit Types (it : iterator) (p : Z * double).

(** The children are nodes. *)
Definition closed : Prop := ∀ e c w, e ∈ nodes → (c, w) ∈ potentials v e → c ∈ nodes.

Definition on_nodes it : Prop := ∀ p, p ∈ stack it → p.1 ∈ nodes.

Fixpoint walk_loop (fuel : nat) it : list (Z * double) :=
  match fuel with
  | O => []
  | S fuel => match get it with
              | None => []
              | Some p => p :: walk_loop fuel (step cfg expand v it)
              end
  end.

Definition walk it : list (Z * double) := walk_loop (left_nodes nodes it) it.

(** The children in the order they are pushed. *)
Definition pushed (e : Z) : list (Z * double) :=
  if descending_ cfg then reverse (potentials v e) else potentials v e.

Lemma pushed_elem e p : p ∈ pushed e ↔ p ∈ potentials v e.
Proof. unfold pushed. destruct (descending_ cfg); [by rewrite elem_of_reverse|done]. Qed.

Lemma push_left it p : p.1 ∈ nodes →
  (left_nodes nodes (unique_push_to_stack cfg v it p) ≤ left_nodes nodes it)%nat.
Proof.
  intros Hp. unfold unique_push_to_stack. destruct (negb _ && _) eqn:E; [|done].
  apply andb_true_iff in E as [_ E%bool_decide_eq_true]. unfold left_nodes. simpl.
  assert (size (nodes ∖ ({[p.1]} ∪ seen it)) < size (nodes ∖ seen it))%nat; [|lia].
  apply subset_size. split; set_solver.
Qed.

Lemma pushes_left l : ∀ it, (∀ p, p ∈ l → p.1 ∈ nodes) →
  (left_nodes nodes (foldl (unique_push_to_stack cfg v) it l) ≤ left_nodes nodes it)%nat.
Proof.
  induction l as [|p l IH]; intros it Hl; simpl; [done|].
  etrans; [apply IH; set_solver|]. apply push_left, Hl. set_solver.
Qed.

Lemma push_on_nodes it p : p.1 ∈ nodes → on_nodes it → on_nodes (unique_push_to_stack cfg v it p).
Proof.
  intros Hp Hit. unfold unique_push_to_stack. case_match; [|done]. intros p' [->|?]%elem_of_cons; [done|by apply Hit].
Qed.

Lemma pushes_on_nodes l : ∀ it, (∀ p, p ∈ l → p.1 ∈ nodes) → on_nodes it →
  on_nodes (foldl (unique_push_to_stack cfg v) it l).
Proof.
  induction l as [|p l IH]; intros it Hl Hit; simpl; [done|].
  apply IH; [set_solver|]. apply push_on_nodes; [apply Hl; set_solver|done].
Qed.

Lemma increment_spec it p : closed → on_nodes it → get it = Some p →
  (left_nodes nodes (step cfg expand v it) < left_nodes nodes it)%nat ∧ on_nodes (step cfg expand v it).
Proof.
  intros Hc Hit Hg. unfold get in Hg. unfold step. destruct (stack it) as [|[e w] rest] eqn:Es; [done|].
  assert (∀ q, q ∈ rest → q.1 ∈ nodes) as Hrest by (intros q Hq; apply Hit; rewrite Es; set_solver).
  assert (e ∈ nodes) as He by (apply (Hit (e, w)); rewrite Es; set_solver).
  assert (left_nodes nodes (mk rest (seen it)) < left_nodes nodes it)%nat as Hlt
    by (unfold left_nodes; rewrite Es; simpl; lia).
  fold (pushed e). assert (∀ q, q ∈ pushed e → q.1 ∈ nodes) as Hpush.
  { intros [c x] Hq%pushed_elem. by eapply Hc. }
  destruct (expand v e); [|split; done]. split.
  - eapply Nat.le_lt_trans; [by apply pushes_left|done].
  - by apply pushes_on_nodes.
Qed.

Lemma walk_enough fuel1 : ∀ fuel2 it, closed → on_nodes it →
  (left_nodes nodes it ≤ fuel1)%nat → (left_nodes nodes it ≤ fuel2)%nat → walk_loop fuel1 it = walk_loop fuel2 it.
Proof.
  assert (∀ it, left_nodes nodes it = 0%nat → get it = None) as H0.
  { intros it. unfold left_nodes, get. destruct (stack it); simpl; [done|lia]. }
  induction fuel1 as [|n IH]; intros [|m] it Hc Hit H1 H2; [done| | |]; simpl.
  - by rewrite H0 by lia.
  - by rewrite H0 by lia.
  - destruct (get it) as [p|] eqn:E; [|done]. f_equal. destruct (increment_spec it p Hc Hit E). apply IH; [done..|lia|lia].
Qed.

Lemma walk_step it p : closed → on_nodes it → get it = Some p → walk it = p :: walk (step cfg expand v it).
Proof.
  intros Hc Hit E. destruct (increment_spec it p Hc Hit E) as [Hlt Hon]. unfold walk at 1.
  destruct (left_nodes nodes it) as [|n] eqn:El; [lia|]. simpl. rewrite E. f_equal.
  apply walk_enough; [done..|lia|done].
Qed.

Lemma walk_end it : get it = None → walk it = [].
Proof. intros E. unfold walk. destruct (left_nodes nodes it); simpl; [done|]. by rewrite E. Qed.

(** ** Each expression once, exactly those that are reached

    A child is reached if its parent is and is expanded, and if it is not pruned. *)
Inductive reached (roots : gset Z) : Z → Prop :=
  | reached_root e : e ∈ roots → reached roots e
  | reached_child e c w : reached roots e → expand v e = true → (c, w) ∈ potentials v e →
      pruned cfg v (c, w) = false → reached roots c.

(** The nodes visited so far, [done_], and those on the stack are what was seen, and
    the children of the visited ones were seen, but for a node that is being expanded. *)
Record walk_inv (roots done_ : gset Z) (open : option Z) it : Prop := {
  w_seen e : e ∈ seen it ↔ e ∈ done_ ∨ e ∈ (stack it).*1;
  w_disj e : e ∈ done_ → e ∉ (stack it).*1;
  w_NoDup : NoDup (stack it).*1;
  w_roots : roots ⊆ seen it;
  w_reached e : e ∈ seen it → reached roots e;
  w_closed e c w : e ∈ done_ → open ≠ Some e → expand v e = true → (c, w) ∈ potentials v e →
    pruned cfg v (c, w) = false → c ∈ seen it
}.

Lemma push_inv roots done_ open it p :
  (pruned cfg v p = false → reached roots p.1) →
  walk_inv roots done_ open it → walk_inv roots done_ open (unique_push_to_stack cfg v it p) ∧
  seen it ⊆ seen (unique_push_to_stack cfg v it p) ∧
  (pruned cfg v p = false → p.1 ∈ seen (unique_push_to_stack cfg v it p)).
Proof.
  intros Hr Hi. unfold unique_push_to_stack. destruct (pruned cfg v p) eqn:Ep; simpl; [done|].
  case_bool_decide as Hs; [|split; [done|]; split; [done|]; done].
  destruct Hi as [H1 H2 H3 H4 H5 H6].
  specialize (Hr eq_refl). split; [|simpl; split; [set_solver|set_solver]]. split; simpl.
  - intros e. rewrite elem_of_union, elem_of_singleton, H1, elem_of_cons. naive_solver.
  - intros e He. rewrite elem_of_cons. intros [->|Hin]; [apply Hs, H1; by left|by apply (H2 e)].
  - constructor; [|done]. intros Hin. apply Hs, H1. by right.
  - set_solver.
  - intros e [->%elem_of_singleton|He]%elem_of_union; [done|by apply H5].
  - intros e c w He Ho Hx Hc Hp. apply elem_of_union. right. by eapply H6.
Qed.

Lemma pushes_inv roots done_ open l : ∀ it,
  (∀ p, p ∈ l → pruned cfg v p = false → reached roots p.1) →
  walk_inv roots done_ open it → walk_inv roots done_ open (foldl (unique_push_to_stack cfg v) it l) ∧
  seen it ⊆ seen (foldl (unique_push_to_stack cfg v) it l) ∧
  ∀ p, p ∈ l → pruned cfg v p = false → p.1 ∈ seen (foldl (unique_push_to_stack cfg v) it l).
Proof.
  induction l as [|p l IH]; intros it Hl Hi; simpl; [by split; [|split; [|intros ? ?%elem_of_nil]]|].
  destruct (push_inv roots done_ open it p) as (A1 & A2 & A3); [apply Hl; set_solver|done|].
  destruct (IH (unique_push_to_stack cfg v it p)) as (B1 & B2 & B3); [set_solver|done|].
  split; [done|]. split; [set_solver|]. intros q [->|Hq]%elem_of_cons Hp; [set_solver|by apply B3].
Qed.

Lemma step_inv roots done_ it e w : get it = Some (e, w) → walk_inv roots done_ None it →
  e ∉ done_ ∧ reached roots e ∧ walk_inv roots ({[e]} ∪ done_) None (step cfg expand v it).
Proof.
  intros Hg [H1 H2 H3 H4 H5 H6]. unfold get in Hg. unfold step.
  destruct (stack it) as [|p rest] eqn:Es; [done|]. injection Hg as ->. simpl in *.
  apply NoDup_cons in H3 as [He H3]. assert (e ∈ seen it) as Hes by (apply H1; right; set_solver).
  split; [intros Hd; apply (H2 e Hd); set_solver|]. split; [by apply H5|].
  assert (walk_inv roots ({[e]} ∪ done_) (Some e) (mk rest (seen it))) as Hi.
  { split; simpl; try done.
    - intros x. rewrite H1, elem_of_union, elem_of_singleton, elem_of_cons. naive_solver.
    - intros x [->%elem_of_singleton|Hx]%elem_of_union; [done|]. specialize (H2 x Hx). set_solver.
    - intros x c y [->%elem_of_singleton|Hx]%elem_of_union Ho; [done|]. by apply H6. }
  destruct (expand v e) eqn:Ex.
  - fold (pushed e). destruct (pushes_inv roots ({[e]} ∪ done_) (Some e) (pushed e) (mk rest (seen it))) as ([] & B2 & B3); [|done|].
    + intros [c x] Hc%pushed_elem Hp. eapply reached_child; [by apply H5|done..].
    + split; try done. intros x c y Hx _ Hxe Hc Hp. destruct (decide (x = e)) as [->|Hne].
      * apply (B3 (c, y)); [by apply pushed_elem|done].
      * apply (w_closed0 x c y); [done|congruence|done..].
  - destruct Hi as [I1 I2 I3 I4 I5 I6]. split; try done. intros x c y Hx _ Hxe Hc Hp.
    apply (I6 x c y); [done| |done..]. congruence.
Qed.

Lemma begin_inv roots0 root :
  roots0 = (if pruned cfg v (root, if pruneOptimalSubgraphs cfg then rootPotential v root else d1) then ∅ else {[root]}) →
  walk_inv roots0 ∅ None (begin cfg v root).
Proof.
  intros ->. unfold begin, unique_push_to_stack. destruct (pruned _ _ _); simpl.
  - split; simpl; [set_solver|set_solver|apply NoDup_nil_2|set_solver..].
  - rewrite bool_decide_true by set_solver.
    split; simpl; [set_solver|set_solver|apply NoDup_singleton|set_solver| |set_solver].
    intros e He. apply reached_root. set_solver.
Qed.

Lemma walk_over roots done_ it : get it = None → walk_inv roots done_ None it →
  ∀ e, e ∈ done_ ↔ reached roots e.
Proof.
  unfold get. intros Eg [H1 H2 H3 H4 H5 H6]. destruct (stack it) as [|] eqn:Es; [|done]. simpl in *.
  assert (∀ e, e ∈ seen it ↔ e ∈ done_) as Hs by (intros e; rewrite H1; set_solver).
  intros e. rewrite <-Hs. split; [apply H5|].
  induction 1 as [x Hx|x c y Hx IHx Hxe Hp Hpr]; [by apply H4|]. apply (H6 x c y); [by apply Hs|done..].
Qed.

Lemma walk_visits n : ∀ roots done_ it, (left_nodes nodes it ≤ n)%nat → closed → on_nodes it →
  walk_inv roots done_ None it →
  NoDup (walk it).*1 ∧ (∀ e, e ∈ (walk it).*1 → e ∉ done_) ∧
  (∀ e, e ∈ done_ ∨ e ∈ (walk it).*1 ↔ reached roots e).
Proof.
  induction n as [|n IH]; intros roots done_ it Hn Hc Hon Hi; destruct (get it) as [[e w]|] eqn:Eg.
  - exfalso. unfold left_nodes, get in *. destruct (stack it); simpl in *; [done|lia].
  - rewrite walk_end by done. split; [apply NoDup_nil_2|]. split; [by intros ? ?%elem_of_nil|].
    intros e. rewrite <-(walk_over roots done_ it Eg Hi). simpl. set_solver.
  - destruct (increment_spec it (e, w) Hc Hon Eg) as [Hlt Hon']. rewrite (walk_step it (e, w)) by done. simpl.
    destruct (step_inv roots done_ it e w Eg Hi) as (He & _ & Hi').
    destruct (IH roots ({[e]} ∪ done_) (step cfg expand v it)) as (N1 & N2 & N3); [lia|done..|].
    split; [constructor; [|done]; intros Hin; apply (N2 e Hin); set_solver|].
    split; [intros x [->|Hx]%elem_of_cons; [done|specialize (N2 x Hx); set_solver]|].
    intros x. rewrite <-N3, elem_of_cons. set_solver.
  - rewrite walk_end by done. split; [apply NoDup_nil_2|]. split; [by intros ? ?%elem_of_nil|].
    intros e. rewrite <-(walk_over roots done_ it Eg Hi). simpl. set_solver.
Qed.
End walk.

Lemma drop_insert_here {X} (l : list X) i x : (i < length l)%nat → drop i (<[i := x]> l) = x :: drop (S i) l.
Proof. intros Hi. rewrite (drop_S _ x) by (by apply list_lookup_insert_eq). by rewrite drop_insert_lt by lia. Qed.

(** ** The containers *)
Module ContainersFacts.
Import ExpressionContainersIterator.
Section containers.
Context `{HO : HashOrder} (twang : Z → Z) {Q : Type} `{PQ : PriorityQueue ContainerWithPriority Q}.
Context `{QL : !QueueLaws ContainerWithPriority Q ContainerWithPriority_lt}.
Context (cfg : PreOrderExpressionIterator.config) (v : ExpressionView) (nodes : gset Z).
Context (Hclosed : closed v nodes).
Abbreviation lt := ContainerWithPriority_lt.
Abbreviation walks := (walk cfg shouldExpand v nodes).
Implicit Types (it : t (Q := Q)) (r : ranking ContainerWithPriority).

(** The updates the expressions that are still to come will make. *)
Definition contribution (skip : bool) (seed : Z) (p : Z * double) : list (list ContainerWithPriority) :=
  if ignored v skip p then []
  else match affected v p.1 with
       | Some containers => [randomizeContainers twang seed containers]
       | None => []
       end.

Definition updates (skip : bool) (seed : Z) (rs : list PreOrderExpressionIterator.iterator)
    : list (list ContainerWithPriority) := r ← rs; p ← walks r; contribution skip seed p.

Definition pending it : list (list ContainerWithPriority) :=
  updates (skipOptimalExpressions_ it) (randomSeed_ it) (drop (current_range_index_ it) (ranges it)).

Definition on it : Prop := Forall (on_nodes nodes) (ranges it).

(** The first container is certain. *)
Definition settled it r : Prop := pending it = [] ∨ ∃ x, is_first lt r x ∧ is_strict r x.

Lemma addContainers_spec it r p : q_rel r (queue it) →
  count r + Z.of_nat (length (contribution (skipOptimalExpressions_ it) (randomSeed_ it) p)) ≤ int_max →
  ∃ q, addContainers twang v it p = Ok q ∧
    q_rel (foldl rank_update r (contribution (skipOptimalExpressions_ it) (randomSeed_ it) p)) q.
Proof.
  intros Hr Hc. unfold addContainers, contribution in *. destruct (ignored _ _ _); [by eexists|].
  destruct (affected v p.1) as [cs|]; [|by eexists]. simpl in *. apply q_update_rel; [done|lia].
Qed.

Lemma count_updates us : ∀ r, count (foldl rank_update r us) = count r + Z.of_nat (length us).
Proof.
  induction us as [|u us IH]; intros r; simpl; [lia|]. rewrite IH. simpl. rewrite (proj1 (touches_count u r)). lia.
Qed.

Lemma unique_spec it r : q_rel r (queue it) →
  ∃ b, yields_unique_container (queue it) = Ok b ∧ (b = true → ∃ x, is_first lt r x ∧ is_strict r x).
Proof.
  intros Hr. unfold yields_unique_container. rewrite (q_isEmpty_rel r _ Hr).
  case_bool_decide as E; [by eexists|]. destruct (first_exists r E) as [x Hx].
  destruct (q_strict_rel r _ x Hr Hx) as (b & -> & Hb). exists b. split; [done|]. intros Hb'. exists x. by split; [|apply Hb].
Qed.

Lemma feed_spec n : ∀ it r, (fuel_of nodes it ≤ n)%nat → on it → q_rel r (queue it) →
  count r + Z.of_nat (length (pending it)) ≤ int_max →
  ∃ it' r', feed_queue twang cfg n v it = Ok it' ∧ on it' ∧ q_rel r' (queue it') ∧
    foldl rank_update r (pending it) = foldl rank_update r' (pending it') ∧ settled it' r' ∧
    count r' + Z.of_nat (length (pending it')) ≤ int_max.
Proof.
  induction n as [|n IH]; intros it r Hn Hon Hr Hc; simpl.
  all: destruct (Nat.leb_spec (length (ranges it)) (current_range_index_ it)) as [Hle|Hlt].
  1, 3: exists it, r; split_and!; try done; left; unfold pending; by rewrite drop_ge.
  all: destruct (unique_spec it r Hr) as (b & -> & Hb); cbn [mbind result_bind]; destruct b;
    [exists it, r; split_and!; try done; right; by apply Hb|].
  all: destruct (lookup_lt_is_Some_2 _ _ Hlt) as [cur Ecur]; pose proof (drop_S _ _ _ Ecur) as Ed.
  { unfold fuel_of in Hn. rewrite Ed in Hn. simpl in Hn. lia. }
  rewrite Ecur. assert (on_nodes nodes cur) as Hcur by (unfold on in Hon; rewrite Forall_forall in Hon; by eapply Hon, list_elem_of_lookup_2).
  destruct (PreOrderExpressionIterator.get cur) as [p|] eqn:Eg.
  - assert (pending it = contribution (skipOptimalExpressions_ it) (randomSeed_ it) p ++
      pending (mk (<[current_range_index_ it := PreOrderExpressionIterator.step cfg shouldExpand v cur]> (ranges it))
        (queue it) (current_range_index_ it) (skipOptimalExpressions_ it) (randomSeed_ it))) as Ep.
    { unfold pending, updates. simpl. rewrite Ed. simpl. rewrite (walk_step cfg shouldExpand v nodes cur p) by done.
      rewrite drop_insert_here by done. simpl. by rewrite (assoc_L (++)). }
    rewrite Ep, length_app in Hc.
    destruct (addContainers_spec it r p Hr) as (q & -> & Hq); [lia|]. cbn [mbind result_bind].
    destruct (increment_spec cfg shouldExpand v nodes cur p Hclosed Hcur Eg) as [Hl Hon'].
    destruct (IH (mk (<[current_range_index_ it := PreOrderExpressionIterator.step cfg shouldExpand v cur]> (ranges it))
        q (current_range_index_ it) (skipOptimalExpressions_ it) (randomSeed_ it))
      (foldl rank_update r (contribution (skipOptimalExpressions_ it) (randomSeed_ it) p)))
      as (it' & r' & E & A1 & A2 & A3 & A4); [| |exact Hq| |].
    + unfold fuel_of in *. simpl. rewrite Ed in Hn. simpl in Hn.
      rewrite drop_insert_here by done. simpl. lia.
    + unfold on. simpl. by apply Forall_insert.
    + rewrite count_updates. unfold pending in *. simpl in *. lia.
    + exists it', r'. split; [exact E|]. split_and!; try done; [|by apply A4..]. rewrite <-A3, Ep, foldl_app. done.
  - assert (pending it = pending (mk (ranges it) (queue it) (S (current_range_index_ it)) (skipOptimalExpressions_ it) (randomSeed_ it))) as Ep.
    { unfold pending, updates. simpl. rewrite Ed. simpl. by rewrite walk_end. }
    destruct (IH (mk (ranges it) (queue it) (S (current_range_index_ it)) (skipOptimalExpressions_ it)
        (randomSeed_ it)) r) as (it' & r' & E & A1 & A2 & A3 & A4); [| |exact Hr| |].
    + unfold fuel_of in *. simpl. rewrite Ed in Hn. simpl in Hn. lia.
    + done.
    + by rewrite <-Ep.
    + exists it', r'. split; [exact E|]. split_and!; try done; [|by apply A4..]. by rewrite <-A3, <-Ep.
Qed.

Lemma visit_spec fuel : ∀ it r, on it → q_rel r (queue it) → settled it r →
  count r + Z.of_nat (length (pending it)) ≤ int_max →
  (size (seen (foldl rank_update r (pending it))) ≤ fuel)%nat →
  ∃ l, DescendingExpressionContainersTraversal.visit twang fuel cfg nodes v it = Ok (containerId <$> l) ∧
    in_order (lt := lt) (foldl rank_update r (pending it)) l.
Proof.
  induction fuel as [|fuel IH]; intros it r Hon Hr Hs Hc Hsz; simpl; unfold at_end; rewrite (q_isEmpty_rel r _ Hr).
  all: assert (seen r = ∅ → pending it = []) as Hempty
    by (intros E; destruct Hs as [?|(x & (s & Ex & _) & _)]; [done|]; by rewrite E, lookup_empty in Ex).
  all: case_bool_decide as E; [exists []; split; [done|]; rewrite Hempty by done; by apply in_order_nil|].
  all: destruct (first_exists r E) as [x Hx].
  all: assert (is_first lt (foldl rank_update r (pending it)) x) as HxR
    by (destruct Hs as [->|(y & Hy1 & Hy2)]; [done|]; rewrite (first_unique r x y) by done;
        apply strict_first_stays; [by eapply q_rel_wf|done..]).
  { exfalso. destruct HxR as (s & Ex & _).
    apply (map_size_ne_0_lookup (seen (foldl rank_update r (pending it)))); [by eexists _, _|lia]. }
  destruct (q_top_rel r _ x Hr Hx) as (q1 & E1 & Hr1). unfold deref. rewrite E1. cbn [mbind result_bind].
  unfold increment. simpl. destruct (q_top_rel r q1 x Hr1 Hx) as (q2 & E2 & Hr2). rewrite E2. cbn [mbind result_bind].
  destruct (q_remove_rel r q2 x Hr2) as (q3 & E3 & Hr3). rewrite E3. cbn [mbind result_bind].
  change (with_queue (with_queue it q1) q3) with (with_queue it q3).
  destruct (feed_spec (fuel_of nodes (with_queue it q3)) (with_queue it q3) (rank_remove r x))
    as (it' & r' & E4 & A1 & A2 & A3 & A4 & A5); [done|done|done|done|]. rewrite E4. cbn [mbind result_bind].
  change (pending (with_queue it q3)) with (pending it) in A3. rewrite updates_remove in A3.
  destruct (IH it' r') as (l & -> & Hl); [done..| |].
  - rewrite <-A3. simpl. rewrite map_size_delete. destruct HxR as (s & Ex & _). rewrite Ex. simpl. lia.
  - exists (x :: l). split; [done|]. apply in_order_cons; [done|]. by rewrite A3.
Qed.

Lemma begin_on objectives : (∀ e, e ∈ objectives → e ∈ nodes) →
  Forall (on_nodes nodes) (PreOrderExpressionIterator.begin cfg v <$> objectives).
Proof.
  intros Ho. apply Forall_fmap, Forall_forall. intros e He. unfold PreOrderExpressionIterator.begin. simpl.
  apply push_on_nodes; [by apply Ho|]. by intros ? ?%elem_of_nil.
Qed.

Lemma traversal_spec objectives skip seed fuel :
  let us := updates skip seed (PreOrderExpressionIterator.begin cfg v <$> objectives) in
  (∀ e, e ∈ objectives → e ∈ nodes) → Z.of_nat (length us) ≤ int_max →
  (size (seen (foldl rank_update rank_empty us)) ≤ fuel)%nat →
  ∃ it l, construct (Q := Q) twang cfg nodes v (PreOrderExpressionIterator.begin cfg v <$> objectives) skip seed = Ok it ∧
    DescendingExpressionContainersTraversal.visit twang fuel cfg nodes v it = Ok (containerId <$> l) ∧
    in_order (lt := lt) (foldl rank_update rank_empty us) l.
Proof.
  intros us Ho Hc Hf. unfold construct.
  set (it0 := mk (PreOrderExpressionIterator.begin cfg v <$> objectives) q_empty 0 skip seed : t (Q := Q)).
  assert (pending it0 = us) as Ep by (unfold pending, us; simpl; by rewrite drop_0).
  destruct (feed_spec (fuel_of nodes it0) it0 rank_empty) as (it & r & E & A1 & A2 & A3 & A4 & A5); [done| | |by rewrite Ep|].
  - by apply begin_on.
  - apply q_empty_rel.
  - rewrite Ep in A3. rewrite E. destruct (visit_spec fuel it r A1 A2 A4 A5) as (l & El & Hl); [by rewrite <-A3|].
    exists it, l. split; [done|]. split; [done|]. by rewrite A3.
Qed.
End containers.

(** The items a ranking knows are those of its updates. *)
Lemma touches_seen `{Countable T} (items : list T) : ∀ (r : ranking T) x, gone r = ∅ →
  is_Some (seen (foldl touch r items) !! x) ↔ is_Some (seen r !! x) ∨ x ∈ items.
Proof.
  induction items as [|y items IH]; intros r x Hg; simpl; [set_solver|].
  rewrite IH by (by rewrite (proj2 (touch_count r y))). unfold touch. rewrite decide_False by set_solver. simpl.
  rewrite elem_of_cons. destruct (decide (x = y)) as [->|Hne].
  - rewrite lookup_insert_eq. split; [auto|]. intros _. left. by eexists.
  - rewrite lookup_insert_ne by done. naive_solver.
Qed.

Lemma updates_seen `{Countable T} (us : list (list T)) : ∀ (r : ranking T) x, gone r = ∅ →
  is_Some (seen (foldl rank_update r us) !! x) ↔ is_Some (seen r !! x) ∨ ∃ u, u ∈ us ∧ x ∈ u.
Proof.
  induction us as [|u us IH]; intros r x Hg; simpl; [set_solver|].
  rewrite IH by (simpl; by rewrite (proj2 (touches_count u r))). simpl. rewrite touches_seen by done. set_solver.
Qed.
End ContainersFacts.
