(* ===== verification/Potentials.v ===== *)
(** * Potentials of children, affected containers, merged object potentials

    The parts of solver/expressions/Expression.cpp the traversal of the hot containers
    reads: the cache of the children sorted by potential, which is refreshed
    incrementally, and the set of containers that all nodes of a subgraph affect;
    solver/utils/ContainerSetWithHash.cpp; and the iterator of
    solver/iterators/ObjectPotentialsMerge.cpp. *)

From stdpp Require Import sorting.
From S2P Require Import Prelude Double Exact ChangeSet AccessOrderedSet.

Open Scope Z_scope.

(** ** Sorting with an order that is transitive on the elements of the list *)
Section sorted_on.
Context {X : Type} (D : X → Prop) (lt : X → X → bool) `{ST : !StdSet.StrictTotal D lt}.

(** [std::sort] and [std::merge] only ask whether the comparator holds. *)
Definition not_after (x y : X) : Prop := lt y x = false.
#[export] Instance not_after_dec x y : Decision (not_after x y) := decide (lt y x = false).

Lemma not_after_trans x y z : D x → D y → D z → not_after x y → not_after y z → not_after x z.
Proof.
  unfold not_after. intros Dx Dy Dz Hxy Hyz. destruct (lt z x) eqn:E; [|done].
  destruct (lt y z) eqn:E'.
  - by rewrite (StdSet.st_trans (D := D) y z x) in Hxy.
  - pose proof (StdSet.st_total (D := D) y z Dy Dz E' Hyz) as ->. congruence.
Qed.

Lemma sorted_strongly l : Forall D l → Sorted not_after l → StronglySorted not_after l.
Proof.
  intros Hd Hs. induction Hs as [|x l Hs IH Hh]; [constructor|]. apply Forall_cons in Hd as [Dx Dl].
  specialize (IH Dl). constructor; [done|]. destruct Hh as [|y l Hxy]; [constructor|].
  apply Forall_cons in Dl as [Dy Dl]. constructor; [done|]. inversion IH as [|? ? _ Hf]; subst.
  rewrite Forall_forall in *. intros z Hz. eapply (not_after_trans x y z); auto.
Qed.

(** Two lists without duplicates that are sorted and have the same elements are equal. *)
Lemma sorted_equal l1 l2 : Forall D l1 → Sorted not_after l1 → Sorted not_after l2 → l1 ≡ₚ l2 → l1 = l2.
Proof.
  intros D1 S1 S2 Hp. assert (Forall D l2) as D2 by (by rewrite <-Hp).
  apply (StronglySorted_unique_strong not_after); [|by apply sorted_strongly..|done].
  intros x y Hx Hy Hxy Hyx. rewrite Forall_forall in D1, D2. apply (StdSet.st_total (D := D)); auto.
Qed.
End sorted_on.

(** ** Children by descending potential *)
Module ChildPotentials.

Record ChildPotential := mkChild { expr : Z; potential : double; valueAtLastRefresh : double }.

(** [DescendingChildPotentials] *)
Record t := mk { potentials_ : list ChildPotential; shouldRefresh : bool }.

Definition empty : t := mk [] true.

Definition setPotentials (newPotentials : list ChildPotential) : t := mk newPotentials false.

(** An apply marks the cache. *)
Definition markDirty (s : t) : t := mk (potentials_ s) true.

(** The coefficients, the bounds and the numbers of affected containers of the
    children do not change; [children] is the iteration order of the set. *)
Section potentials.
Context (coefficient : Z → double) (bounds : Z → double * double) (affectedSize : Z → option Z).
Context (children : list Z).

Definition kInf : Z := u64_mod - 1.

Definition getPotential (value : double) (e : Z) : double :=
  let coeff := coefficient e in
  let '(lb, ub) := bounds e in
  (coeff * (value - (if d0 <? coeff then lb else ub)))%D.

Definition makeChildPotential (value : Z → double) (child : Z) : ChildPotential :=
  mkChild child (getPotential (value child) child) (value child).

Definition higherPotentialFirst (a b : ChildPotential) : bool :=
  if negb (potential a =? potential b)%D then (potential b <? potential a)%D
  else
    let affectedSize1 := default kInf (affectedSize (expr a)) in
    let affectedSize2 := default kInf (affectedSize (expr b)) in
    if negb (affectedSize1 =? affectedSize2) then affectedSize1 <? affectedSize2
    else expr b <? expr a.

Abbreviation order := (not_after higherPotentialFirst).

Definition unchanged (value : Z → double) (cp : ChildPotential) : bool :=
  (value (expr cp) =? valueAtLastRefresh cp)%D.

Definition refreshDescendingChildPotentials (value : Z → double) (s : t) : t :=
  match potentials_ s with
  | [] => setPotentials (merge_sort order (makeChildPotential value <$> children))
  | l =>
      let keep := filter (λ cp, unchanged value cp = true) l in
      let changed := makeChildPotential value ∘ expr <$> filter (λ cp, unchanged value cp = false) l in
      match changed, keep with
      | [], _ => mk l false
      | _, [] => setPotentials (merge_sort order changed)
      | _, _ => setPotentials (list_merge order keep (merge_sort order changed))
      end
  end.

Definition getDescendingChildPotentials (value : Z → double) (s : t) : t :=
  match children with
  | [] => s
  | _ => if shouldRefresh s then refreshDescendingChildPotentials value s else s
  end.

(** ** The incremental refresh gives the order from scratch *)
Definition from_scratch (value : Z → double) : list ChildPotential :=
  merge_sort order (makeChildPotential value <$> children).

(** The values are numbers other than -0 and the potentials do not overflow. *)
Definition regular (value : Z → double) : Prop :=
  ∀ e, e ∈ children → canon (value e) ∧ fin (getPotential (value e) e).

Definition current (value : Z → double) (cp : ChildPotential) : Prop :=
  cp = makeChildPotential value (expr cp) ∧ fin (potential cp).

Lemma higher_total value : StdSet.StrictTotal (current value) higherPotentialFirst.
Proof.
  assert (∀ a b, fin (potential a) → fin (potential b) → higherPotentialFirst a b =
    if negb (val (potential a) =? val (potential b)) then val (potential b) <? val (potential a)
    else if negb (default kInf (affectedSize (expr a)) =? default kInf (affectedSize (expr b)))
    then default kInf (affectedSize (expr a)) <? default kInf (affectedSize (expr b))
    else expr b <? expr a) as Hspec.
  { intros a b Ha Hb. unfold higherPotentialFirst. by rewrite deq_val, dlt_val by done. }
  split.
  - intros a [_ Ha]. rewrite Hspec by done. rewrite !Z.eqb_refl. simpl. lia.
  - intros a b c [_ Ha] [_ Hb] [_ Hc]. rewrite !Hspec by done.
    generalize (default kInf (affectedSize (expr a))), (default kInf (affectedSize (expr b))),
      (default kInf (affectedSize (expr c))), (val (potential a)), (val (potential b)), (val (potential c)).
    intros x1 x2 x3 p1 p2 p3.
    destruct (Z.eqb_spec p1 p2), (Z.eqb_spec p2 p3), (Z.eqb_spec p1 p3), (Z.eqb_spec x1 x2), (Z.eqb_spec x2 x3),
      (Z.eqb_spec x1 x3); simpl; rewrite ?Z.ltb_lt; lia.
  - intros a b [Ea Ha] [Eb Hb]. rewrite !Hspec by done. rewrite (Z.eqb_sym (val (potential b))).
    rewrite (Z.eqb_sym (default kInf (affectedSize (expr b)))).
    destruct (Z.eqb_spec (val (potential a)) (val (potential b))) as [E1|N1]; simpl; rewrite ?Z.ltb_ge; [|lia].
    destruct (Z.eqb_spec (default kInf (affectedSize (expr a))) (default kInf (affectedSize (expr b)))); simpl;
      rewrite ?Z.ltb_ge; [|lia]. intros H1 H2. assert (expr a = expr b) as E by lia. by rewrite Ea, Eb, E.
Qed.

#[local] Instance order_total : Total order.
Proof.
  intros a b. unfold not_after, higherPotentialFirst. rewrite (deq_sym (potential b)).
  destruct (potential a =? potential b)%D eqn:E; simpl.
  - rewrite (Z.eqb_sym (default kInf (affectedSize (expr b)))).
    destruct (Z.eqb_spec (default kInf (affectedSize (expr a))) (default kInf (affectedSize (expr b)))); simpl;
      rewrite !Z.ltb_ge; lia.
  - destruct (potential b <? potential a)%D eqn:E1; [|by right]. left. by apply dlt_asym.
Qed.

Lemma make_current value e : e ∈ children → regular value → current value (makeChildPotential value e).
Proof. intros He Hr. split; [done|]. by apply Hr. Qed.

(** A sorted list of current entries, one per child, is the list from scratch. *)
Lemma scratch_unique value l :
  Forall (current value) l → Sorted order l → expr <$> l ≡ₚ children → l = from_scratch value.
Proof.
  intros Hc Hs Hp. pose proof (higher_total value).
  apply (sorted_equal (current value) higherPotentialFirst); [done|done|apply Sorted_merge_sort, _|].
  unfold from_scratch. rewrite merge_sort_Permutation, <-Hp, <-list_fmap_compose.
  rewrite <-(list_fmap_id l) at 1. apply Permutation_refl'. apply list_fmap_ext. intros i cp Hcp.
  rewrite Forall_forall in Hc. simpl. by apply list_elem_of_lookup_2, Hc in Hcp as [? _].
Qed.

(** Every entry is right for the value it was computed from. *)
Record cached (s : t) : Prop := {
  ca_children : expr <$> potentials_ s ≡ₚ children;
  ca_values : ∃ value', regular value' ∧ Forall (current value') (potentials_ s);
  ca_sorted : Sorted order (potentials_ s)
}.

Lemma scratch_cached value b : regular value → cached (mk (from_scratch value) b).
Proof.
  intros Hr. split; simpl.
  - unfold from_scratch. rewrite merge_sort_Permutation, <-list_fmap_compose.
    by rewrite (list_fmap_ext _ id children), list_fmap_id by done.
  - exists value. split; [done|]. unfold from_scratch. rewrite merge_sort_Permutation.
    apply Forall_fmap, Forall_forall. intros e He. by apply make_current.
  - apply Sorted_merge_sort, _.
Qed.

Lemma kept_current value value' l : regular value → regular value' → expr <$> l ≡ₚ children →
  Forall (current value') l → Forall (current value) (filter (λ cp, unchanged value cp = true) l).
Proof.
  intros Hr Hr' Hp Hc. rewrite Forall_forall in *. intros cp [Hu Hin]%list_elem_of_filter.
  assert (expr cp ∈ children) as He by (rewrite <-Hp; by apply list_elem_of_fmap_2).
  destruct (Hc cp Hin) as [E Hf]. split; [|done]. unfold unchanged in Hu.
  assert (valueAtLastRefresh cp = value' (expr cp)) as Ev by (by rewrite E at 1).
  rewrite Ev, canon_eq in Hu by (by apply Hr || by apply Hr'). apply bool_decide_eq_true in Hu.
  rewrite E at 1. unfold makeChildPotential. by rewrite Hu.
Qed.

Lemma refresh_from_scratch value s : regular value → (potentials_ s = [] ∨ cached s) →
  potentials_ (refreshDescendingChildPotentials value s) = from_scratch value ∧
  shouldRefresh (refreshDescendingChildPotentials value s) = false.
Proof.
  intros Hr Hs. unfold refreshDescendingChildPotentials. destruct (potentials_ s) as [|cp0 l0] eqn:El; [done|].
  destruct Hs as [?|[Hp (value' & Hr' & Hc) Hso]]; [done|]. rewrite El in *. clear El.
  generalize dependent (cp0 :: l0). intros l Hp Hc Hso.
  pose proof (kept_current value value' l Hr Hr' Hp Hc) as Hk.
  set (keep := filter (λ cp, unchanged value cp = true) l) in *.
  set (rest := filter (λ cp, unchanged value cp = false) l).
  assert (keep ++ rest ≡ₚ l) as Hsplit.
  { unfold keep, rest. rewrite (list_filter_iff (λ cp, unchanged value cp = false) (λ cp, ¬ unchanged value cp = true))
      by (intros x; by rewrite not_true_iff_false). apply filter_app_complement. }
  assert (Forall (current value) (makeChildPotential value ∘ expr <$> rest)) as Hch.
  { apply Forall_fmap, Forall_forall. intros cp [_ Hin]%list_elem_of_filter. simpl. apply make_current; [|done].
    rewrite <-Hp. by apply list_elem_of_fmap_2. }
  assert (expr <$> (makeChildPotential value ∘ expr <$> rest) = expr <$> rest) as Ee
    by (rewrite <-list_fmap_compose; by apply list_fmap_ext).
  assert (Sorted order keep) as Hsk.
  { apply StronglySorted_Sorted. pose proof (higher_total value').
    pose proof (sorted_strongly (current value') higherPotentialFirst l Hc Hso) as Hss. unfold keep.
    clear -Hss. induction Hss as [|x m Hm IH Hf]; [constructor|]. rewrite filter_cons. case_decide; [|done].
    constructor; [done|]. rewrite Forall_forall in *. intros y [_ Hy]%list_elem_of_filter. by apply Hf. }
  set (changed := makeChildPotential value ∘ expr <$> rest) in *.
  assert (∀ m, m ≡ₚ keep ++ changed → Sorted order m → m = from_scratch value) as Hgoal.
  { intros m Hm Hsm. apply scratch_unique; [|done|].
    - rewrite Hm. by apply Forall_app.
    - rewrite Hm, fmap_app, Ee, <-fmap_app, Hsplit. done. }
  destruct changed as [|c cs] eqn:Ec.
  - split; [|done]. simpl. apply Hgoal; [|done]. rewrite app_nil_r. unfold changed in Ec.
    apply fmap_nil_inv in Ec. by rewrite <-Hsplit, Ec, app_nil_r.
  - rewrite <-Ec in *. destruct keep as [|k ks] eqn:Ek.
    + split; [|done]. simpl. apply Hgoal; [by rewrite merge_sort_Permutation|apply Sorted_merge_sort, _].
    + rewrite <-Ek in *. split; [|done]. cbn [potentials_ setPotentials]. apply Hgoal.
      * by rewrite merge_Permutation, merge_sort_Permutation.
      * apply Sorted_list_merge; [apply _|done|apply Sorted_merge_sort, _].
Qed.
End potentials.
End ChildPotentials.

(** ** A set of containers with its hash *)
Module ContainerSetWithHash.

Record t := mk { containersPtr_ : option (gset Z); hashValueOpt_ : option Z }.

Definition empty : t := mk None None.

(** [hash] is [folly::hash::commutative_hash_combine_range], which does not depend on
    the order of the elements. *)
Section set.
Context (hash : gset Z → Z).

Definition set (containersPtr : option (gset Z)) : result t :=
  match containersPtr with
  | None => Throw (runtime_error "Expected to be set with non-null containersPtr")
  | Some s => Ok (mk (Some s) (Some (hash s)))
  end.

Definition getNonNullSet (x : t) : result (gset Z) :=
  match containersPtr_ x with
  | None => Throw (runtime_error "expect containerPtr to be non-null")
  | Some s => Ok s
  end.

Definition getHashValue (x : t) : result Z :=
  match hashValueOpt_ x with
  | None => Throw (runtime_error "Hash value is not set. Has containerPtr been properly initialized using set()?")
  | Some h =>
      s ← getNonNullSet x;
      if decide (s = ∅)
      then Throw (runtime_error "Unexpected attempt to get the hash value of an empty set")
      else Ok h
  end.

Definition exists_ (x : t) : bool := bool_decide (is_Some (containersPtr_ x)).

Definition isEmpty (x : t) : result bool := s ← getNonNullSet x; Ok (bool_decide (s = ∅)).

Definition size (x : t) : option Z := (λ s, Z.of_nat (base.size s)) <$> containersPtr_ x.
End set.
End ContainerSetWithHash.

(** ** The containers that every node of a subgraph affects *)
Module AffectedContainers.
Abbreviation cset := ContainerSetWithHash.t.
Abbreviation ptr := ContainerSetWithHash.containersPtr_.

(** [direct] are the directly affected containers of a node, [children] its children in
    the iteration order; [memo] holds the sets computed so far. *)
Section unique.
Context (hash : gset Z → Z) (direct : Z → cset) (children : Z → list Z).

(** The hash of a set that exists and is not empty. *)
Definition nonEmptyHash (x : cset) : result (option Z) :=
  if ContainerSetWithHash.exists_ x
  then
    e ← ContainerSetWithHash.isEmpty x;
    if (e : bool) then Ok None else h ← ContainerSetWithHash.getHashValue x; Ok (Some h)
  else Ok None.

Definition getDistinctHashValuesCountAndCandidateSetIfUnique (uniqueSet directSet : cset)
    : result (nat * option cset) :=
  u ← nonEmptyHash uniqueSet;
  d ← nonEmptyHash directSet;
  let hashValues : gset Z := list_to_set (option_list u ++ option_list d) in
  if (base.size hashValues =? 1)%nat
  then Ok (1%nat, Some (match d with Some _ => directSet | None => uniqueSet end))
  else Ok (base.size hashValues, None).

(** The loop over the children; [None] is the return before the end. *)
Fixpoint childrenLoop (get : gmap Z cset → Z → result (cset * gmap Z cset)) (memo : gmap Z cset)
    (candidate : option cset) (cs : list Z) : result (option (option cset) * gmap Z cset) :=
  match cs with
  | [] => Ok (Some candidate, memo)
  | child :: cs =>
      '(u, memo) ← get memo child;
      if negb (ContainerSetWithHash.exists_ u) then Ok (None, memo)
      else
        '(distinctHashCountFromChild, uniqueSetFromChild) ←
          getDistinctHashValuesCountAndCandidateSetIfUnique u (direct child);
        if (1 <? distinctHashCountFromChild)%nat then Ok (None, memo)
        else if (distinctHashCountFromChild =? 0)%nat then childrenLoop get memo candidate cs
        else match candidate, uniqueSetFromChild with
        | None, x => childrenLoop get memo x cs
        | Some c, Some x =>
            h1 ← ContainerSetWithHash.getHashValue c;
            h2 ← ContainerSetWithHash.getHashValue x;
            if negb (h1 =? h2) then Ok (None, memo) else childrenLoop get memo candidate cs
        | Some _, None => Throw (undefined_behaviour "access to an empty optional")
        end
  end.

(** [fuel] is more than the height of the node. *)
Fixpoint computeUniqueAffectedContainersInSubgraph (fuel : nat) (memo : gmap Z cset) (node : Z)
    : result (cset * gmap Z cset) :=
  match fuel with
  | O => Throw (undefined_behaviour "out of fuel")
  | S fuel =>
      let get memo e := match memo !! e with
                        | Some u => Ok (u, memo)
                        | None => computeUniqueAffectedContainersInSubgraph fuel memo e
                        end in
      let memo := <[node := ContainerSetWithHash.empty]> memo in
      if ContainerSetWithHash.exists_ (direct node)
      then u ← ContainerSetWithHash.set hash (ptr (direct node)); Ok (u, <[node := u]> memo)
      else
        '(outcome, memo) ← childrenLoop get memo None (children node);
        match outcome with
        | None => Ok (ContainerSetWithHash.empty, memo)
        | Some candidate =>
            u ← ContainerSetWithHash.set hash (match candidate with Some c => ptr c | None => Some ∅ end);
            Ok (u, <[node := u]> memo)
        end
  end.

Definition getUniqueAffectedContainersInSubgraphIfExists (fuel : nat) (memo : gmap Z cset) (node : Z)
    : result (cset * gmap Z cset) :=
  match memo !! node with
  | Some u => Ok (u, memo)
  | None => computeUniqueAffectedContainersInSubgraph fuel memo node
  end.

(** ** What the set is

    The sets of the nodes where the search for affected containers stops. *)
Inductive frontier : Z → gset Z → Prop :=
  | frontier_direct e d : ptr (direct e) = Some d → frontier e d
  | frontier_child e c d : ptr (direct e) = None → c ∈ children e → frontier c d → frontier e d.

(** The answer, up to the hashes the sets are compared by: one of the sets, where all of
    them that are not empty have its hash, or null if two have different ones. *)
Definition exact (e : Z) (u : cset) : Prop :=
  match ptr u with
  | Some s => ContainerSetWithHash.hashValueOpt_ u = Some (hash s) ∧
      (∀ d, frontier e d → d = ∅ ∨ s ≠ ∅ ∧ hash d = hash s) ∧ (s = ∅ ∨ frontier e s)
  | None => ∃ d1 d2, frontier e d1 ∧ frontier e d2 ∧ d1 ≠ ∅ ∧ d2 ≠ ∅ ∧ hash d1 ≠ hash d2
  end.

(** The answer in terms of the sets. *)
Definition exact_sets (e : Z) (u : cset) : Prop :=
  match ptr u with
  | Some s => (∀ d, frontier e d → d = ∅ ∨ d = s) ∧ (s = ∅ ∨ frontier e s)
  | None => ∃ d1 d2, frontier e d1 ∧ frontier e d2 ∧ d1 ≠ ∅ ∧ d2 ≠ ∅ ∧ d1 ≠ d2
  end.

(** No two different sets of the graph have the same hash. *)
Definition no_collision : Prop :=
  ∀ e1 e2 d1 d2, ptr (direct e1) = Some d1 → ptr (direct e2) = Some d2 →
    d1 ≠ ∅ → d2 ≠ ∅ → hash d1 = hash d2 → d1 = d2.

Context (height : Z → nat) (Hheight : ∀ e c, c ∈ children e → (height c < height e)%nat).
Context (Hdirect : ∀ e d, ptr (direct e) = Some d → ContainerSetWithHash.hashValueOpt_ (direct e) = Some (hash d)).

Lemma frontier_set e d : frontier e d → ∃ e', ptr (direct e') = Some d.
Proof. induction 1; eauto. Qed.

Lemma exact_no_collision e u : no_collision → exact e u → exact_sets e u.
Proof.
  intros Hhash. unfold exact, exact_sets. destruct (ptr u) as [s|].
  - intros (_ & Hd & Hs). split; [|done]. intros d Hf. destruct (decide (d = ∅)) as [->|Hne]; [by left|right].
    destruct (Hd d Hf) as [?|[Hs' E]]; [done|]. destruct Hs as [?|Hs]; [done|].
    apply frontier_set in Hf as [e1 H1]. apply frontier_set in Hs as [e2 H2]. by eapply Hhash.
  - intros (d1 & d2 & ? & ? & ? & ? & Hn). exists d1, d2. split_and!; [done..|]. congruence.
Qed.

(** The nodes of [open] are being computed: they have the null set so far. *)
Definition good (open : gset Z) (memo : gmap Z cset) : Prop :=
  ∀ e u, memo !! e = Some u → if decide (e ∈ open) then u = ContainerSetWithHash.empty else exact e u.

Lemma nonEmptyHash_spec u s : ptr u = Some s → ContainerSetWithHash.hashValueOpt_ u = Some (hash s) →
  nonEmptyHash u = Ok (if decide (s = ∅) then None else Some (hash s)).
Proof.
  intros Ep Eh. unfold nonEmptyHash, ContainerSetWithHash.exists_, ContainerSetWithHash.isEmpty,
    ContainerSetWithHash.getHashValue, ContainerSetWithHash.getNonNullSet. rewrite Ep, Eh.
  rewrite bool_decide_true by (by eexists). cbn [mbind result_bind].
  destruct (decide (s = ∅)) as [->|Hne].
  - by rewrite bool_decide_true.
  - by rewrite bool_decide_false by done.
Qed.

Lemma size_one_hash h : base.size (list_to_set [h] : gset Z) = 1%nat.
Proof. replace (list_to_set [h] : gset Z) with ({[h]} : gset Z) by set_solver. apply size_singleton. Qed.

Lemma size_two_hashes h : base.size (list_to_set [h; h] : gset Z) = 1%nat.
Proof. replace (list_to_set [h; h] : gset Z) with ({[h]} : gset Z) by set_solver. apply size_singleton. Qed.

(** A child contributes its set if that is not empty. *)
Lemma distinctHash_spec c u s : exact c u → ptr u = Some s →
  ∃ n x, getDistinctHashValuesCountAndCandidateSetIfUnique u (direct c) = Ok (n, x) ∧
    if decide (s = ∅) then n = 0%nat
    else n = 1%nat ∧ ∃ y, x = Some y ∧ ptr y = Some s ∧ ContainerSetWithHash.hashValueOpt_ y = Some (hash s).
Proof.
  intros He Ep. unfold exact in He. rewrite Ep in He. destruct He as (Eh & Hd & Hs).
  unfold getDistinctHashValuesCountAndCandidateSetIfUnique. rewrite (nonEmptyHash_spec u s Ep Eh).
  cbn [mbind result_bind]. destruct (ptr (direct c)) as [d|] eqn:Ed.
  - assert (d = s) as ->.
    { destruct Hs as [->|Hs]; [|inversion Hs; congruence].
      destruct (Hd d (frontier_direct c d Ed)) as [->|[Hz _]]; [done|by destruct Hz]. }
    rewrite (nonEmptyHash_spec (direct c) s Ed (Hdirect c s Ed)). cbn [mbind result_bind].
    destruct (decide (s = ∅)) as [->|Hne]; [by eexists _, _|]. cbv zeta.
    rewrite (size_two_hashes (hash s) : base.size (list_to_set (option_list (Some (hash s)) ++ option_list (Some (hash s))) : gset Z) = _). cbn [Nat.eqb]. eexists _, _. split; [done|]. split; [done|]. eexists. split; [done|]. split; [done|]. by apply Hdirect.
  - assert (nonEmptyHash (direct c) = Ok None) as ->.
    { unfold nonEmptyHash, ContainerSetWithHash.exists_. rewrite Ed. by rewrite bool_decide_false by (by intros [? ?]). }
    cbn [mbind result_bind]. destruct (decide (s = ∅)) as [->|Hne]; [by eexists _, _|]. cbv zeta.
    rewrite (size_one_hash (hash s) : base.size (list_to_set (option_list (Some (hash s)) ++ option_list None) : gset Z) = _). cbn [Nat.eqb]. eexists _, _. split; [done|]. split; [done|]. by eexists.
Qed.

(** What the candidate says about the sets [P] seen so far. *)
Definition summary (P : gset Z → Prop) (candidate : option cset) : Prop :=
  match candidate with
  | None => ∀ d, P d → d = ∅
  | Some y => ∃ s, ptr y = Some s ∧ ContainerSetWithHash.hashValueOpt_ y = Some (hash s) ∧ s ≠ ∅ ∧ P s ∧
      ∀ d, P d → d = ∅ ∨ hash d = hash s
  end.

Definition several (P : gset Z → Prop) : Prop := ∃ d1 d2, P d1 ∧ P d2 ∧ d1 ≠ ∅ ∧ d2 ≠ ∅ ∧ hash d1 ≠ hash d2.

Definition outcome_ok (P : gset Z → Prop) (outcome : option (option cset)) : Prop :=
  match outcome with Some candidate => summary P candidate | None => several P end.

Lemma outcome_iff P Q outcome : (∀ d, P d ↔ Q d) → outcome_ok P outcome → outcome_ok Q outcome.
Proof.
  intros HPQ. destruct outcome as [[y|]|]; simpl.
  - intros (s & ? & ? & ? & Hs & Hd). exists s. split_and!; [done..|by apply HPQ|]. intros d Hq. by apply Hd, HPQ.
  - intros H d Hq. by apply H, HPQ.
  - intros (d1 & d2 & H1 & H2 & ?). exists d1, d2. by rewrite <-!HPQ.
Qed.

Lemma getHashValue_ok y s : ptr y = Some s → ContainerSetWithHash.hashValueOpt_ y = Some (hash s) → s ≠ ∅ →
  ContainerSetWithHash.getHashValue y = Ok (hash s).
Proof.
  intros Ep Eh Hne. unfold ContainerSetWithHash.getHashValue, ContainerSetWithHash.getNonNullSet. rewrite Eh, Ep.
  cbn [mbind result_bind]. by rewrite decide_False.
Qed.

Lemma childrenLoop_spec open get cs : 
  (∀ c memo, c ∈ cs → good open memo → ∃ u memo', get memo c = Ok (u, memo') ∧ exact c u ∧ good open memo') →
  ∀ P candidate memo, (∀ d, P d → ∃ e, frontier e d) → summary P candidate → good open memo →
  ∃ outcome memo', childrenLoop get memo candidate cs = Ok (outcome, memo') ∧ good open memo' ∧
    outcome_ok (λ d, P d ∨ ∃ c, c ∈ cs ∧ frontier c d) outcome.
Proof.
  induction cs as [|c cs IH]; intros Hget P candidate memo HP Hsum Hgood.
  - exists (Some candidate), memo. split; [done|]. split; [done|]. eapply (outcome_iff P); [|done].
    intros d. set_solver.
  - simpl. destruct (Hget c memo ltac:(set_solver) Hgood) as (u & memo' & -> & Hex & Hgood').
    cbn [mbind result_bind].
    pose (Q d := P d ∨ frontier c d).
    assert (∀ d, Q d → ∃ e, frontier e d) as HQ by (intros d [?|?]; eauto).
    assert (∀ o, outcome_ok (λ d, Q d ∨ ∃ c, c ∈ cs ∧ frontier c d) o →
      outcome_ok (λ d, P d ∨ ∃ c', c' ∈ c :: cs ∧ frontier c' d) o) as Hfin.
    { intros o. apply outcome_iff. intros d. unfold Q. set_solver. }
    assert (∀ candidate, summary Q candidate →
      ∃ outcome memo'', childrenLoop get memo' candidate cs = Ok (outcome, memo'') ∧ good open memo'' ∧
        outcome_ok (λ d, P d ∨ ∃ c', c' ∈ c :: cs ∧ frontier c' d) outcome) as Hnext.
    { intros cand Hc. destruct (IH ltac:(set_solver) Q cand memo' HQ Hc Hgood') as (o & m & ? & ? & ?). eauto 10. }
    assert (several Q → outcome_ok (λ d, P d ∨ ∃ c', c' ∈ c :: cs ∧ frontier c' d) None) as Hsev.
    { intros (d1 & d2 & H1 & H2 & ?). apply (Hfin None). exists d1, d2. split_and!; tauto. }
    clear IH Hget. pose proof Hex as Hex'. unfold exact in Hex'. unfold ContainerSetWithHash.exists_.
    destruct (ptr u) as [s|] eqn:Eu.
    2: { rewrite bool_decide_false by (by intros [? ?]). simpl. eexists None, memo'. split; [done|].
         split; [done|]. apply Hsev. destruct Hex' as (d1 & d2 & ? & ? & ?). exists d1, d2. unfold Q. tauto. }
    rewrite bool_decide_true by (by eexists). cbn [negb].
    destruct (distinctHash_spec c u s Hex Eu) as (n & x & -> & Hn). cbn [mbind result_bind].
    destruct Hex' as (_ & Hd & Hs). destruct (decide (s = ∅)) as [->|Hne].
    + subst n. simpl. apply Hnext. assert (∀ d, Q d → P d ∨ d = ∅) as HQP.
      { intros d [?|Hf]; [by left|]. destruct (Hd d Hf) as [?|[Hz _]]; [by right|by destruct Hz]. }
      destruct candidate as [y|]; simpl in *.
      * destruct Hsum as (s & ? & ? & ? & Hs' & Hd'). exists s. split_and!; [done..|by left|].
        intros d [?| ->]%HQP; auto.
      * intros d [?| ->]%HQP; auto.
    + destruct Hn as (-> & y & -> & Ey & Ehy). destruct Hs as [Hs|Hs]; [done|]. simpl.
      destruct candidate as [z|].
      * destruct Hsum as (s' & Ez & Ehz & Hne' & Hs' & Hd').
        rewrite (getHashValue_ok z s'), (getHashValue_ok y s) by done. cbn [mbind result_bind].
        destruct (Z.eqb_spec (hash s') (hash s)) as [He|He]; simpl.
        -- apply Hnext. exists s'. split_and!; [done..|by left|]. intros d [?|Hf]; [auto|].
           destruct (Hd d Hf) as [?|[_ E]]; [by left|right; congruence].
        -- eexists None, memo'. split; [done|]. split; [done|]. apply Hsev. exists s', s. unfold Q.
           split_and!; auto.
      * apply Hnext. exists s. split_and!; [done..|by right|]. intros d [Hp|Hf]; [auto|].
        destruct (Hd d Hf) as [?|[_ E]]; auto.
Qed.

Lemma frontier_children e d : ptr (direct e) = None → frontier e d ↔ ∃ c, c ∈ children e ∧ frontier c d.
Proof.
  intros He. split.
  - inversion 1; subst; [congruence|eauto].
  - intros (c & ? & ?). by eapply frontier_child.
Qed.

Lemma good_open_insert open e memo : good open memo → good ({[e]} ∪ open) (<[e := ContainerSetWithHash.empty]> memo).
Proof.
  intros Hg e' u. destruct (decide (e' = e)) as [->|Hne].
  - rewrite lookup_insert_eq, decide_True by set_solver. by intros [= <-].
  - rewrite lookup_insert_ne by done. intros H%Hg. do 2 case_decide; set_solver.
Qed.

Lemma good_insert open e u memo : e ∉ open → good ({[e]} ∪ open) memo → exact e u → good open (<[e := u]> memo).
Proof.
  intros Ho Hg He e' u'. destruct (decide (e' = e)) as [->|Hne].
  - rewrite lookup_insert_eq, decide_False by done. by intros [= <-].
  - rewrite lookup_insert_ne by done. intros H%Hg. do 2 case_decide; set_solver.
Qed.

Lemma good_close open e memo : e ∉ open → good ({[e]} ∪ open) memo → exact e ContainerSetWithHash.empty → good open memo.
Proof.
  intros Ho Hg He e' u' H%Hg. destruct (decide (e' = e)) as [->|Hne].
  - rewrite decide_False by done. rewrite decide_True in H by set_solver. by subst.
  - do 2 case_decide; set_solver.
Qed.

Lemma exact_set e s : (∀ d, frontier e d → d = ∅ ∨ s ≠ ∅ ∧ hash d = hash s) → (s = ∅ ∨ frontier e s) →
  exact e (ContainerSetWithHash.mk (Some s) (Some (hash s))).
Proof. by unfold exact. Qed.

Lemma compute_spec fuel open memo e : (height e < fuel)%nat → (∀ o, o ∈ open → (height e < height o)%nat) →
  good open memo →
  ∃ u memo', computeUniqueAffectedContainersInSubgraph fuel memo e = Ok (u, memo') ∧ exact e u ∧ good open memo'.
Proof.
  revert open memo e. induction fuel as [|fuel IH]; intros open memo e Hf Ho Hg; [lia|].
  assert (e ∉ open) as He by (intros H; specialize (Ho e H); lia).
  cbn [computeUniqueAffectedContainersInSubgraph]. set (get := λ memo0 e0, _). unfold ContainerSetWithHash.exists_.
  apply good_open_insert with (e := e) in Hg.
  destruct (ptr (direct e)) as [d|] eqn:Ed.
  - rewrite bool_decide_true by (by eexists). simpl. eexists _, _. split; [done|].
    assert (exact e (ContainerSetWithHash.mk (Some d) (Some (hash d)))) as Hex.
    { apply exact_set; [|right; by constructor]. intros d'. inversion 1; subst; [|congruence].
      destruct (decide (d' = ∅)); [by left|right]. split; congruence. }
    split; [done|]. by apply good_insert.
  - rewrite bool_decide_false by (by intros [? ?]).
    assert (∀ c memo, c ∈ children e → good ({[e]} ∪ open) memo →
      ∃ u memo', get memo c = Ok (u, memo') ∧ exact c u ∧ good ({[e]} ∪ open) memo') as Hget.
    { intros c memo' Hc Hg'. pose proof (Hheight e c Hc) as Hlt.
      assert (∀ o, o ∈ {[e]} ∪ open → (height c < height o)%nat) as Hco.
      { intros o [->%elem_of_singleton|Ho'%Ho]%elem_of_union; lia. }
      unfold get. destruct (memo' !! c) as [u|] eqn:Ec.
      - eexists _, _. split; [done|]. split; [|done]. apply Hg' in Ec. rewrite decide_False in Ec; [done|].
        intros H%Hco. lia.
      - apply IH; [lia|done|done]. }
    destruct (childrenLoop_spec _ _ _ Hget (λ _, False) None _ ltac:(by intros ? []) ltac:(by intros ? []) Hg)
      as (outcome & memo' & -> & Hg' & Hout). cbn [mbind result_bind].
    eapply (outcome_iff _ (frontier e)) in Hout; [|intros d; rewrite (frontier_children e d Ed); set_solver].
    destruct outcome as [candidate|]; simpl in Hout.
    + set (s := match candidate with Some c => default ∅ (ptr c) | None => ∅ end).
      assert (exact e (ContainerSetWithHash.mk (Some s) (Some (hash s)))) as Hex.
      { apply exact_set; subst s; destruct candidate as [y|]; simpl in *; eauto;
          destruct Hout as (s & -> & ? & ? & ? & Hd); simpl; eauto.
        intros d Hfd. destruct (Hd d Hfd); auto. }
      assert (match candidate with Some c => ptr c | None => Some ∅ end = Some s) as ->.
      { subst s. destruct candidate as [y|]; [|done]. destruct Hout as (s & -> & ?). done. }
      simpl. eexists _, _. split; [done|]. split; [done|]. by apply good_insert.
    + eexists _, _. split; [done|]. split; [done|]. by apply good_close with (e := e).
Qed.

Lemma getUnique_spec fuel memo e : (height e < fuel)%nat → good ∅ memo →
  ∃ u memo', getUniqueAffectedContainersInSubgraphIfExists fuel memo e = Ok (u, memo') ∧ exact e u ∧ good ∅ memo'.
Proof.
  intros Hf Hg. unfold getUniqueAffectedContainersInSubgraphIfExists. destruct (memo !! e) as [u|] eqn:Ee.
  - eexists _, _. split; [done|]. split; [|done]. apply Hg in Ee. by rewrite decide_False in Ee by set_solver.
  - apply compute_spec; [done|set_solver|done].
Qed.
End unique.
End AffectedContainers.
