(* ===== verification/PotentialsMerge.v ===== *)
(** * Merging the potentials of objects

    solver/iterators/ObjectPotentialsMerge.cpp: the iterator that merges sequences of
    object potentials, each sorted by potential, and gives every object once, with the
    best potential it has in any of them; and the order of the hot containers that
    [resetHotContainerTraversal] builds on it when the objects are sorted by potential. *)

From Stdlib Require Import Sorting.Sorted.
From S2P Require Import Prelude Double ChangeSet AccessOrderedSet Assignment Lookup Iterators.

Open Scope Z_scope.

Module ObjectPotentialsMergeIterator.
Section merge.
Context {I : Type} `{!Iterator I (Z * double)} (descending : bool).

Record ObjectPotentialWithIndex := mkHead { objectPotential : Z * double; index : nat }.

(** [begin] and [end] of an input are an iterator that knows its end;
    [sortedHeads_] is a [std::priority_queue], here the bag of its elements. *)
Record iterator := mk {
  inputs_ : list I;
  sortedHeads_ : list ObjectPotentialWithIndex;
  objectIdsSeen_ : gset Z
}.

(** [ObjectPotential::operator==] *)
Definition potential_eq (a b : Z * double) : bool := (a.1 =? b.1) && (a.2 =? b.2)%D.

Definition compareFunction (a b : ObjectPotentialWithIndex) : bool :=
  if potential_eq (objectPotential a) (objectPotential b) then (index b <? index a)%nat
  else
    let aSmaller := ObjectPotential.lt (objectPotential a) (objectPotential b) in
    if descending then aSmaller else negb aSmaller.

(** [top()] and what [pop()] leaves. *)
Fixpoint top_pop (heads : list ObjectPotentialWithIndex)
    : option (ObjectPotentialWithIndex * list ObjectPotentialWithIndex) :=
  match heads with
  | [] => None
  | h :: heads =>
      match top_pop heads with
      | None => Some (h, [])
      | Some (b, rest) => if compareFunction b h then Some (h, b :: rest) else Some (b, h :: rest)
      end
  end.

Definition top (it : iterator) : option (Z * double) :=
  objectPotential ∘ fst <$> top_pop (sortedHeads_ it).

(** The head of an input enters the queue unless the input is at its end. *)
Definition push (input : I) (i : nat) (heads : list ObjectPotentialWithIndex) : list ObjectPotentialWithIndex :=
  match get input with Some p => mkHead p i :: heads | None => heads end.

Fixpoint construct_loop (i : nat) (inputs : list I) (heads : list ObjectPotentialWithIndex)
    : list ObjectPotentialWithIndex :=
  match inputs with
  | [] => heads
  | input :: inputs => construct_loop (S i) inputs (push input i heads)
  end.

Definition construct (inputs : list I) : iterator := mk inputs (construct_loop 0 inputs []) ∅.

Fixpoint inputs_left (inputs : list I) : nat :=
  match inputs with [] => O | input :: inputs => (left_ input + inputs_left inputs)%nat end.

(** The while loop of [operator++]. *)
Fixpoint skip_seen (fuel : nat) (it : iterator) : result iterator :=
  match fuel with
  | O => Throw (undefined_behaviour "out of fuel")
  | S fuel =>
      match top_pop (sortedHeads_ it) with
      | None => Ok it
      | Some (h, rest) =>
          if decide ((objectPotential h).1 ∈ objectIdsSeen_ it) then
            input ← at_ (inputs_ it !! index h);
            let input := next input in
            skip_seen fuel (mk (<[index h := input]> (inputs_ it)) (push input (index h) rest) (objectIdsSeen_ it))
          else Ok it
      end
  end.

Definition increment (it : iterator) : result iterator :=
  match top it with
  | None => Throw (undefined_behaviour "top of an empty priority_queue")
  | Some p =>
      skip_seen (S (inputs_left (inputs_ it)))
        (mk (inputs_ it) (sortedHeads_ it) ({[p.1]} ∪ objectIdsSeen_ it))
  end.

Definition deref (it : iterator) : result (Z * double) :=
  match top it with
  | None => Throw (runtime_error "ObjectPotentialsMergeIterator has reached the end")
  | Some p => Ok p
  end.

(** [equal] with the end iterator. *)
Definition at_end (it : iterator) : bool := match sortedHeads_ it with [] => true | _ => false end.

(** A copy of an [AbstractIterator] is a [clone]: it starts over from where the inputs are. *)
Definition clone (it : iterator) : iterator := construct (inputs_ it).

(** The elements of the container, by a range-for loop. *)
Fixpoint collect (fuel : nat) (it : iterator) : result (list (Z * double)) :=
  if at_end it then Ok []
  else match fuel with
  | O => Throw (undefined_behaviour "out of fuel")
  | S fuel =>
      p ← deref it;
      it ← increment it;
      l ← collect fuel it;
      Ok (p :: l)
  end.

Definition makeObjectPotentialsMergeContainer (inputs : list I) : result (list (Z * double)) :=
  collect (inputs_left inputs) (clone (construct inputs)).

(** ** What the merge gives

    [key] grows with the preference. *)
Definition key (p : Z * double) : Z := if descending then val p.2 else - val p.2.

Definition by_key (p q : Z * double) : Prop := key q ≤ key p.

(** The elements that are left in all inputs. *)
Definition remaining (inputs : list I) : list (Z * double) := inputs ≫= elements.

Definition regular (inputs : list I) : Prop :=
  Forall (λ input, StronglySorted by_key (elements input) ∧ Forall (λ p, fin p.2) (elements input)) inputs.

(** The queue holds the current element of each input that is not at its end. *)
Record queue_of (inputs : list I) (heads : list ObjectPotentialWithIndex) : Prop := {
  queue_nodup : NoDup (index <$> heads);
  queue_heads i p : mkHead p i ∈ heads ↔ ∃ input, inputs !! i = Some input ∧ get input = Some p
}.

(** The elements in the order in which they leave the queue. *)
Inductive drains : list I → list ObjectPotentialWithIndex → list (Z * double) → Prop :=
  | drains_nil inputs : drains inputs [] []
  | drains_cons inputs heads h rest input m :
      top_pop heads = Some (h, rest) → inputs !! index h = Some input → get input = Some (objectPotential h) →
      drains (<[index h := next input]> inputs) (push (next input) (index h) rest) m →
      drains inputs heads (objectPotential h :: m).

Lemma compare_key a b : fin (objectPotential a).2 → fin (objectPotential b).2 →
  if compareFunction a b then key (objectPotential a) ≤ key (objectPotential b)
  else key (objectPotential b) ≤ key (objectPotential a).
Proof.
  intros Fa Fb. unfold compareFunction, potential_eq, ObjectPotential.lt, key. rewrite deq_val, dlt_val by done.
  destruct (Z.eqb_spec (val (objectPotential a).2) (val (objectPotential b).2)) as [->|Hne];
    simpl; rewrite ?andb_true_r, ?andb_false_r.
  - by repeat case_match.
  - destruct (Z.ltb_spec (val (objectPotential a).2) (val (objectPotential b).2)), descending; simpl; lia.
Qed.

Lemma top_pop_perm heads h rest : top_pop heads = Some (h, rest) → heads ≡ₚ h :: rest.
Proof.
  revert h rest. induction heads as [|x heads IH]; intros h rest; simpl; [done|].
  destruct (top_pop heads) as [[b r]|] eqn:E; [|intros [= <- <-]; destruct heads as [|y l]; [done|]].
  - rewrite (IH b r eq_refl). destruct (compareFunction b x); intros [= <- <-]; [done|constructor].
  - exfalso. simpl in E. destruct (top_pop l) as [[? ?]|]; [|done]. by destruct (compareFunction _ _).
Qed.

Lemma top_pop_None heads : top_pop heads = None → heads = [].
Proof.
  destruct heads as [|x heads]; simpl; [done|]. destruct (top_pop heads) as [[b r]|]; [|done].
  by destruct (compareFunction b x).
Qed.

Lemma top_pop_best heads h rest : Forall (λ x, fin (objectPotential x).2) heads → top_pop heads = Some (h, rest) →
  ∀ x, x ∈ heads → key (objectPotential x) ≤ key (objectPotential h).
Proof.
  revert h rest. induction heads as [|x heads IH]; intros h rest Hf; simpl; [done|].
  apply Forall_cons in Hf as [Fx Fr]. destruct (top_pop heads) as [[b r]|] eqn:E.
  - assert (b ∈ heads) as Hb by (rewrite (top_pop_perm _ _ _ E); set_solver).
    assert (fin (objectPotential b).2) as Fb by (by rewrite Forall_forall in Fr; apply Fr).
    specialize (IH b r Fr eq_refl). pose proof (compare_key b x Fb Fx) as Hc.
    destruct (compareFunction b x); intros [= <- <-] y [->|Hy%IH]%elem_of_cons; lia.
  - apply top_pop_None in E as ->. intros [= <- <-] y Hy. assert (y = x) as -> by set_solver. done.
Qed.

Lemma elements_left input : (length (elements input) ≤ left_ input)%nat.
Proof.
  remember (left_ input) as n eqn:E. revert input E. induction (lt_wf n) as [n _ IH]. intros input ->.
  destruct (get input) as [p|] eqn:Eg; [|rewrite (elements_end _ Eg); simpl; lia].
  rewrite (elements_step _ _ Eg). pose proof (next_left _ _ Eg). simpl.
  specialize (IH (left_ (next input)) ltac:(done) (next input) eq_refl). lia.
Qed.

Lemma inputs_left_insert inputs i input input' : inputs !! i = Some input →
  (inputs_left (<[i := input']> inputs) + left_ input = inputs_left inputs + left_ input')%nat.
Proof.
  revert i. induction inputs as [|x l IH]; intros [|i]; simpl; try done.
  - intros [= ->]. lia.
  - intros H%IH. cbn [insert list_insert] in *. lia.
Qed.

Lemma drains_length inputs heads m : drains inputs heads m → (length m ≤ inputs_left inputs)%nat.
Proof.
  induction 1 as [inputs|inputs heads h rest input m _ Hi Hg _ IH]; simpl; [lia|].
  pose proof (inputs_left_insert inputs (index h) input (next input) Hi). pose proof (next_left _ _ Hg). lia.
Qed.

Lemma remaining_step inputs i input p : inputs !! i = Some input → get input = Some p →
  remaining inputs ≡ₚ p :: remaining (<[i := next input]> inputs).
Proof.
  unfold remaining. revert i. induction inputs as [|x l IH]; intros [|i]; simpl; try done.
  - intros [= ->] Hg. by rewrite (elements_step _ _ Hg).
  - intros Hi Hg. rewrite (IH i Hi Hg). by rewrite Permutation_middle.
Qed.

Lemma queue_step inputs heads h rest : queue_of inputs heads → top_pop heads = Some (h, rest) →
  ∃ input, inputs !! index h = Some input ∧ get input = Some (objectPotential h) ∧
    queue_of (<[index h := next input]> inputs) (push (next input) (index h) rest).
Proof.
  intros [Hn Hh] Ht%top_pop_perm. assert (h ∈ heads) as Hin by (rewrite Ht; set_solver).
  destruct h as [p i]. apply Hh in Hin as (input & Hi & Hg). exists input. split; [done|]. split; [done|].
  rewrite Ht in Hn. apply NoDup_cons in Hn as [Hni Hn]. cbn [index] in *.
  assert (i < length inputs)%nat as Hlt by (by eapply lookup_lt_Some).
  assert (∀ q, mkHead q i ∉ rest) as Hno.
  { intros q Hq. apply Hni. apply list_elem_of_fmap. by exists (mkHead q i). }
  assert (∀ j q, j ≠ i → mkHead q j ∈ rest ↔ mkHead q j ∈ heads) as Hne.
  { intros j q Hj. rewrite Ht, elem_of_cons. naive_solver. }
  unfold push. split.
  - destruct (get (next input)) as [q|]; [|done]. rewrite fmap_cons. by constructor.
  - intros j q. destruct (decide (j = i)) as [->|Hj].
    + rewrite list_lookup_insert_eq by done. destruct (get (next input)) as [q'|] eqn:Eq.
      * rewrite elem_of_cons. split; [intros [[= ->]|Hq]; [by exists (next input)|by apply Hno in Hq]|].
        intros (? & [= <-] & Hq). left. congruence.
      * split; [intros Hq; by apply Hno in Hq|]. intros (? & [= <-] & Hq). congruence.
    + rewrite list_lookup_insert_ne by done. rewrite <-Hh, <-Hne by done.
      destruct (get (next input)) as [q'|]; [|done]. rewrite elem_of_cons. naive_solver.
Qed.

Lemma regular_step inputs i input p : regular inputs → inputs !! i = Some input → get input = Some p →
  regular (<[i := next input]> inputs).
Proof.
  intros Hr Hi Hg. apply Forall_insert; [done|]. unfold regular in Hr. rewrite Forall_lookup in Hr.
  destruct (Hr i input Hi) as [Hs Hf]. rewrite (elements_step _ _ Hg) in Hs, Hf.
  inversion Hs; subst. by inversion Hf.
Qed.

Lemma queue_fin inputs heads : regular inputs → queue_of inputs heads →
  Forall (λ x, fin (objectPotential x).2) heads.
Proof.
  intros Hr [_ Hh]. apply Forall_forall. intros [p i] Hp. apply Hh in Hp as (input & Hi & Hg). simpl.
  unfold regular in Hr. rewrite Forall_lookup in Hr. destruct (Hr i input Hi) as [_ Hf].
  rewrite (elements_step _ _ Hg) in Hf. by inversion Hf.
Qed.

(** The top of the queue is the best of all that is left. *)
Lemma top_best inputs heads h rest : regular inputs → queue_of inputs heads → top_pop heads = Some (h, rest) →
  Forall (λ q, key q ≤ key (objectPotential h)) (remaining inputs).
Proof.
  intros Hr Hq Ht. apply Forall_forall. intros q (input & Hin & Hqi)%list_elem_of_bind.
  apply list_elem_of_lookup in Hqi as [i Hi]. unfold regular in Hr. pose proof Hr as Hr'. rewrite Forall_lookup in Hr.
  destruct (Hr i input Hi) as [Hs _].
  destruct (get input) as [p|] eqn:Eg; [|rewrite (elements_end _ Eg) in Hin; by apply not_elem_of_nil in Hin].
  assert (key p ≤ key (objectPotential h)) as Hp.
  { eapply (top_pop_best heads h rest (queue_fin _ _ Hr' Hq) Ht (mkHead p i)). apply Hq. eauto. }
  rewrite (elements_step _ _ Eg) in Hs, Hin. apply elem_of_cons in Hin as [->|Hin]; [done|].
  inversion Hs as [|? ? _ Hf]; subst. rewrite Forall_forall in Hf. specialize (Hf q Hin). unfold by_key in Hf. lia.
Qed.

Lemma remaining_nil inputs : queue_of inputs [] → remaining inputs = [].
Proof.
  intros [_ Hh]. unfold remaining. induction inputs as [|x l IH] in Hh |- *; [done|]. simpl.
  destruct (get x) as [p|] eqn:Eg; [destruct (not_elem_of_nil (mkHead p 0)); apply Hh; by exists x|].
  rewrite (elements_end _ Eg). apply IH. intros i p. split; [by intros []%not_elem_of_nil|].
  intros Hi. apply (Hh (S i) p), not_elem_of_nil in Hi. done.
Qed.

Lemma drains_all inputs heads : regular inputs → queue_of inputs heads →
  ∃ m, drains inputs heads m ∧ m ≡ₚ remaining inputs ∧ StronglySorted by_key m.
Proof.
  remember (inputs_left inputs) as n eqn:En. revert inputs heads En.
  induction (lt_wf n) as [n _ IH]. intros inputs heads -> Hr Hq.
  destruct (top_pop heads) as [[h rest]|] eqn:Et.
  - destruct (queue_step _ _ _ _ Hq Et) as (input & Hi & Hg & Hq').
    pose proof (inputs_left_insert inputs (index h) input (next input) Hi). pose proof (next_left _ _ Hg).
    pose proof (remaining_step _ _ _ _ Hi Hg) as Hrem.
    destruct (IH (inputs_left (<[index h := next input]> inputs)) ltac:(lia) _ _ eq_refl
      (regular_step _ _ _ _ Hr Hi Hg) Hq') as (m & Hd & Hm & Hs).
    exists (objectPotential h :: m). split; [by eapply drains_cons|]. split; [by rewrite Hrem, Hm|].
    constructor; [done|]. pose proof (top_best _ _ _ _ Hr Hq Et) as Hb. rewrite Hrem in Hb.
    rewrite Hm. by inversion Hb.
  - apply top_pop_None in Et as ->. exists []. split; [constructor|]. rewrite (remaining_nil _ Hq). by split; constructor.
Qed.

Lemma construct_loop_queue i inputs heads :
  NoDup (index <$> heads) → (∀ h, h ∈ heads → (index h < i)%nat) →
  NoDup (index <$> construct_loop i inputs heads) ∧
  ∀ j p, mkHead p j ∈ construct_loop i inputs heads ↔
    mkHead p j ∈ heads ∨ (i ≤ j)%nat ∧ ∃ input, inputs !! (j - i)%nat = Some input ∧ get input = Some p.
Proof.
  revert i heads. induction inputs as [|x l IH]; intros i heads Hn Hlt; simpl.
  - split; [done|]. intros j p. split; [by left|]. intros [?|(_ & ? & [=] & _)]; done.
  - assert (NoDup (index <$> push x i heads) ∧ ∀ h, h ∈ push x i heads → (index h < S i)%nat) as [Hn' Hlt'].
    { unfold push. destruct (get x) as [p|].
      - rewrite fmap_cons. split; [constructor; [|done]|].
        + intros (h & Ei & Hh%Hlt)%list_elem_of_fmap. simpl in Ei. lia.
        + intros h [->|Hh%Hlt]%elem_of_cons; simpl; lia.
      - split; [done|]. intros h Hh%Hlt. lia. }
    destruct (IH (S i) _ Hn' Hlt') as [HN HE]. split; [done|]. intros j p. rewrite HE.
    assert (mkHead p j ∈ push x i heads ↔ mkHead p j ∈ heads ∨ j = i ∧ get x = Some p) as ->.
    { unfold push. destruct (get x) as [q|]; [rewrite elem_of_cons|]; naive_solver. }
    destruct (decide (j = i)) as [->|Hne].
    + rewrite Nat.sub_diag. simpl. split; [intros [[?|[_ ?]]|[? _]]|intros [?|(_ & ? & [= <-] & ?)]]; eauto 6; lia.
    + destruct (decide (i < j)%nat) as [Hj|Hj].
      * replace (j - i)%nat with (S (j - S i)) by lia. simpl. naive_solver (eauto; lia).
      * split; intros [?|?]; naive_solver (lia || eauto).
Qed.

Lemma construct_queue inputs : queue_of inputs (construct_loop 0 inputs []).
Proof.
  destruct (construct_loop_queue 0 inputs []) as [Hn Hh]; [apply NoDup_nil_2|set_solver|]. split; [done|].
  intros i p. rewrite Hh, Nat.sub_0_r. split; [intros [[]%not_elem_of_nil|[_ ?]]; done|]. intros ?. right. split; [lia|done].
Qed.

(** The first occurrence of every object that is not seen. *)
Fixpoint firsts (seen : gset Z) (m : list (Z * double)) : list (Z * double) :=
  match m with
  | [] => []
  | p :: m => if decide (p.1 ∈ seen) then firsts seen m else p :: firsts ({[p.1]} ∪ seen) m
  end.

Lemma merge_skip_spec fuel inputs heads seen m : drains inputs heads m → (length m < fuel)%nat →
  ∃ inputs' heads' m', skip_seen fuel (mk inputs heads seen) = Ok (mk inputs' heads' seen) ∧
    drains inputs' heads' m' ∧ firsts seen m = firsts seen m' ∧ (m' = m ∨ (length m' < length m)%nat) ∧
    match m' with [] => True | p :: _ => p.1 ∉ seen end.
Proof.
  intros Hd. revert fuel. induction Hd as [inputs|inputs heads h rest input m Ht Hi Hg Hd IH]; intros [|fuel] Hf;
    cbn [length] in Hf; try lia; cbn [skip_seen sortedHeads_].
  - eexists _, _, _. split; [done|]. split; [constructor|]. auto.
  - rewrite Ht. cbn [objectIdsSeen_ inputs_]. case_decide as Hs.
    + rewrite Hi. cbn [at_ mbind result_bind]. destruct (IH fuel) as (i' & h' & m' & -> & Hd' & Hfi & Hl & Hm'); [lia|].
      exists i', h', m'. split; [done|]. split; [done|]. simpl. rewrite decide_True by done.
      split; [done|]. split; [|done]. right. simpl. destruct Hl as [->|]; lia.
    + eexists _, _, _. split; [done|]. split; [by eapply drains_cons|]. auto.
Qed.

Lemma drains_top inputs heads seen p m : drains inputs heads (p :: m) → top (mk inputs heads seen) = Some p.
Proof. inversion 1 as [|? ? h rest input ? Ht]; subst. unfold top. cbn [sortedHeads_]. by rewrite Ht. Qed.

Lemma collect_spec fuel inputs heads seen m : drains inputs heads m → (length m ≤ fuel)%nat →
  match m with [] => True | p :: _ => p.1 ∉ seen end →
  collect fuel (mk inputs heads seen) = Ok (firsts seen m).
Proof.
  revert inputs heads seen m. induction fuel as [|fuel IH]; intros inputs heads seen m Hd Hf Hm.
  - destruct m as [|p m]; [|simpl in Hf; lia]. by inversion Hd; subst.
  - destruct m as [|p m]; [by inversion Hd; subst|]. simpl in Hf. cbn [collect].
    assert (at_end (mk inputs heads seen) = false) as ->.
    { inversion Hd as [|? ? h rest ? ? Ht]; subst. by destruct heads. }
    unfold deref, increment. rewrite (drains_top _ _ _ _ _ Hd). cbn [mbind result_bind inputs_ sortedHeads_ objectIdsSeen_].
    pose proof (drains_length _ _ _ Hd) as Hlen.
    destruct (merge_skip_spec (S (inputs_left inputs)) inputs heads ({[p.1]} ∪ seen) (p :: m) Hd ltac:(lia))
      as (i' & h' & m' & -> & Hd' & Hfi & Hl & Hm'). cbn [mbind result_bind].
    assert (length m' ≤ fuel)%nat as Hl'.
    { destruct Hl as [->|]; [set_solver|]. simpl in *. lia. }
    rewrite (IH _ _ _ _ Hd' Hl' Hm'), <-Hfi. cbn [mbind result_bind firsts].
    by rewrite decide_True, decide_False by set_solver.
Qed.

Lemma firsts_spec seen m : StronglySorted by_key m →
  StronglySorted by_key (firsts seen m) ∧ NoDup (firsts seen m).*1 ∧ (∀ p, p ∈ firsts seen m → p ∈ m) ∧
  (∀ o, o ∈ (firsts seen m).*1 ↔ o ∈ m.*1 ∧ o ∉ seen) ∧
  (∀ p q, p ∈ firsts seen m → q ∈ m → q.1 = p.1 → key q ≤ key p).
Proof.
  revert seen. induction m as [|x m IH]; intros seen Hs; simpl.
  { split_and!; [constructor|apply NoDup_nil_2|set_solver..]. }
  inversion Hs as [|? ? Hs' Hf]; subst. rewrite Forall_forall in Hf. case_decide as Hx.
  - destruct (IH seen Hs') as (H1 & H2 & H3 & H4 & H5).
    assert (∀ p, p ∈ firsts seen m → p.1 ∉ seen) as Hseen.
    { intros p Hp. apply (H4 p.1). apply list_elem_of_fmap. eauto. }
    split_and!; [done|done|set_solver|intros o; rewrite H4; set_solver|].
    intros p q Hp [->|Hq]%elem_of_cons Hpq; [|eauto]. by rewrite Hpq in Hx; apply Hseen in Hx.
  - destruct (IH ({[x.1]} ∪ seen) Hs') as (H1 & H2 & H3 & H4 & H5).
    assert (∀ p, p ∈ firsts ({[x.1]} ∪ seen) m → p.1 ≠ x.1) as Hseen.
    { intros p Hp. assert (p.1 ∉ {[x.1]} ∪ seen) by (apply (H4 p.1), list_elem_of_fmap; eauto). set_solver. }
    split_and!.
    + constructor; [done|]. apply Forall_forall. intros p Hp%H3. by apply Hf.
    + rewrite fmap_cons. constructor; [rewrite H4; set_solver|done].
    + set_solver.
    + intros o. rewrite !fmap_cons, !elem_of_cons, H4. destruct (decide (o = x.1)); set_solver.
    + intros p q [->|Hp]%elem_of_cons [->|Hq]%elem_of_cons Hpq; [lia|by apply Hf| |eauto].
      by destruct (Hseen p Hp).
Qed.

(** Every object once, with its best potential, the best objects first. *)
Definition best_of (inputs : list I) (out : list (Z * double)) : Prop :=
  StronglySorted by_key out ∧ NoDup out.*1 ∧ (∀ p, p ∈ out → p ∈ remaining inputs) ∧
  (∀ o, o ∈ out.*1 ↔ o ∈ (remaining inputs).*1) ∧
  ∀ p q, p ∈ out → q ∈ remaining inputs → q.1 = p.1 → key q ≤ key p.

Lemma merge_spec inputs : regular inputs →
  ∃ out, makeObjectPotentialsMergeContainer inputs = Ok out ∧ best_of inputs out.
Proof.
  intros Hr. destruct (drains_all inputs _ Hr (construct_queue inputs)) as (m & Hd & Hm & Hs).
  exists (firsts ∅ m). split.
  - apply collect_spec; [done|by apply drains_length in Hd|]. destruct m; [done|set_solver].
  - destruct (firsts_spec ∅ m Hs) as (H1 & H2 & H3 & H4 & H5). split_and!; [done|done| | |].
    + intros p Hp%H3. by rewrite Hm in Hp.
    + intros o. rewrite H4, Hm. set_solver.
    + intros p q Hp Hq. rewrite <-Hm in Hq. eauto.
Qed.
End merge.
End ObjectPotentialsMergeIterator.

(** ** Hot containers by the potentials of their objects

    [resetHotContainerTraversal] with [enableObjectPotentialSorting]: the containers of
    the objects, each once.  The order is built anew after every move, so the containers
    are those of one assignment. *)
#[local] Existing Instance DeduperIterator.deduper_iterator.

Definition containersByPotential (a : Assignment.t) (potentials : list (Z * double)) : result (list Z) :=
  cs ← mapM (λ p, Assignment.getContainer a p.1) potentials;
  Ok (elements (DeduperIterator.begin cs)).

Section by_potential.
Context (descending : bool) (f : Z → Z).
Abbreviation key := (ObjectPotentialsMergeIterator.key descending).
Abbreviation by_key := (ObjectPotentialsMergeIterator.by_key descending).

(** [c] has an object that is at least as good as all objects of [c']. *)
Definition as_hot (ps : list (Z * double)) (c c' : Z) : Prop :=
  ∃ p, p ∈ ps ∧ f p.1 = c ∧ ∀ q, q ∈ ps → f q.1 = c' → key q ≤ key p.

Lemma distinct_as_hot ps : StronglySorted by_key ps → ∀ seen,
  StronglySorted (as_hot ps) (DeduperIterator.distinct seen (f ∘ fst <$> ps)).
Proof.
  induction 1 as [|x ps Hs IH Hf]; intros seen; simpl; [constructor|]. rewrite Forall_forall in Hf.
  assert (∀ seen', f x.1 ∈ seen' →
    StronglySorted (as_hot (x :: ps)) (DeduperIterator.distinct seen' (f ∘ fst <$> ps))) as Hrest.
  { intros seen' Hx. specialize (IH seen').
    assert (∀ c, c ∈ DeduperIterator.distinct seen' (f ∘ fst <$> ps) → c ≠ f x.1) as Hne.
    { intros c Hc ->. by apply DeduperIterator.distinct_spec in Hc as [_ ?]. }
    revert IH Hne. generalize (DeduperIterator.distinct seen' (f ∘ fst <$> ps)). clear -Hs.
    induction 1 as [|c l _ IHl Hl]; intros Hne; [constructor|]. constructor; [apply IHl; set_solver|].
    rewrite Forall_forall in *. intros c' Hc'. destruct (Hl c' Hc') as (p & Hp & Ep & Hb).
    exists p. split; [set_solver|]. split; [done|]. intros q [->|Hq]%elem_of_cons Eq; [|by apply Hb].
    destruct (Hne c'); [set_solver|done]. }
  case_decide as Hx; [by apply Hrest|]. constructor; [apply Hrest; set_solver|].
  apply Forall_forall. intros c _. exists x. split; [set_solver|]. split; [done|].
  intros q [->|Hq]%elem_of_cons _; [done|]. by apply Hf.
Qed.

Lemma containersByPotential_spec a ps : (∀ p, p ∈ ps → Assignment.getContainer a p.1 = Ok (f p.1)) →
  StronglySorted by_key ps →
  ∃ cs, containersByPotential a ps = Ok cs ∧ NoDup cs ∧ (∀ c, c ∈ cs ↔ ∃ p, p ∈ ps ∧ f p.1 = c) ∧
    StronglySorted (as_hot ps) cs.
Proof.
  intros Hg Hs. assert (mapM (λ p, Assignment.getContainer a p.1) ps = Ok (f ∘ fst <$> ps)) as E.
  { clear Hs. induction ps as [|p ps IH]; [done|]. simpl. rewrite (Hg p), IH by set_solver. done. }
  exists (DeduperIterator.distinct ∅ (f ∘ fst <$> ps)). unfold containersByPotential. rewrite E.
  cbn [mbind result_bind]. rewrite DeduperIterator.deduper_elements.
  destruct (DeduperIterator.distinct_spec ∅ (f ∘ fst <$> ps)) as (Hn & _ & He).
  split; [done|]. split; [done|]. split; [|by apply distinct_as_hot].
  intros c. rewrite He, list_elem_of_fmap. set_solver.
Qed.
End by_potential.
