(* ===== verification/ParallelExecution.v ===== *)
(** * Parallel execution of a collection of inputs

    [executeParallelWindow] and [executeParallelBatch] (solver/utils): the solver
    thread hands inputs to a pool, workers process them, and the results are
    aggregated as they arrive.  Both are machines whose steps are the actions of
    one thread; a [choice] sequence stands for the scheduler, and the pool may refuse
    a task.  Whatever it chooses, the machines end, no input is lost or processed twice,
    and an exception of a worker or of the pool reaches the caller. *)

From S2P Require Import Prelude.

Module ParallelExecution.
Section execution.
Context {Input Output Acc : Type}.
Context (process : Input → result Output).
Context (initialize : Acc) (aggregate : Acc → Output → result Acc) (merge : Acc → Acc → result Acc).

(** An input iterator: [advance n first] is [first] after its [n]-th increment.
    A collection with a time limit may jump to its end. *)
Context (advance : nat → list Input → list Input).

(** The pool: [add n] is the exception of its [n]-th [executor->add] in a call, if it
    throws (a full queue, a pool that is stopped). *)
Context (add : nat → option exn).

(** [aggregate(acc, process(input))] *)
Definition handle (acc : Acc) (input : Input) : result Acc :=
  o ← process input; aggregate acc o.

(** ** Sliding window *)

(** [running]: workers that have not finished; [outputs]: the queue of their
    results, not yet read; [adds]: the tasks the pool has been given. *)
Record window := mkWindow {
  w_first : list Input;
  w_ticks : nat;
  w_adds : nat;
  w_running : list Input;
  w_outputs : list (result Output);
  w_result : Acc;
  w_exception : option exn
}.

(** [newWorker( *first )], and [++first] if it returns true: a refusal of the pool is
    recorded as the exception of the call. *)
Definition newWorker (w : window) : window :=
  match w_first w with
  | [] => w
  | x :: _ =>
      match add (w_adds w) with
      | Some e => mkWindow (w_first w) (w_ticks w) (S (w_adds w)) (w_running w) (w_outputs w)
                    (w_result w) (Some (default e (w_exception w)))
      | None => mkWindow (advance (w_ticks w) (w_first w)) (S (w_ticks w)) (S (w_adds w))
                  (w_running w ++ [x]) (w_outputs w) (w_result w) (w_exception w)
      end
  end.

(** The first workers, up to the size of the window, or until the pool refuses one. *)
Fixpoint fill (n : nat) (w : window) : window :=
  match n with
  | O => w
  | S n =>
      match w_first w with
      | [] => w
      | _ => let w' := newWorker w in
             match w_exception w' with Some _ => w' | None => fill n w' end
      end
  end.

(** The [k]-th worker finishes. *)
Definition worker_step (k : nat) (w : window) : option window :=
  match w_running w !! k with
  | Some x => Some (mkWindow (w_first w) (w_ticks w) (w_adds w) (delete k (w_running w))
                      (w_outputs w ++ [process x]) (w_result w) (w_exception w))
  | None => None
  end.

(** One iteration of [while (pending != 0)] once an output can be read. *)
Definition main_step (w : window) : option window :=
  match w_outputs w with
  | [] => None
  | r :: outputs =>
      let w' := mkWindow (w_first w) (w_ticks w) (w_adds w) (w_running w) outputs (w_result w) (w_exception w) in
      Some match w_exception w with
      | Some _ => w'
      | None =>
          match (o ← r; aggregate (w_result w) o) with
          | Throw e => mkWindow (w_first w) (w_ticks w) (w_adds w) (w_running w) outputs (w_result w) (Some e)
          | Ok acc => newWorker (mkWindow (w_first w) (w_ticks w) (w_adds w) (w_running w) outputs acc None)
          end
      end
  end.

Definition window_done (w : window) : bool :=
  match w_running w, w_outputs w with [], [] => true | _, _ => false end.

(** Any thread that can act may act. *)
Inductive window_step (w w' : window) : Prop :=
  | window_worker k : worker_step k w = Some w' → window_step w w'
  | window_main : main_step w = Some w' → window_step w w'.

(** A scheduler: the [k]-th running worker if there is one, the solver thread
    otherwise, the first worker if the queue is empty. *)
Definition window_next (k : nat) (w : window) : option window :=
  match worker_step k w with
  | Some w' => Some w'
  | None => match main_step w with Some w' => Some w' | None => worker_step 0 w end
  end.

Fixpoint window_run (fuel : nat) (choice : nat → nat) (w : window) : window :=
  match fuel with
  | O => w
  | S fuel => match window_next (choice fuel) w with
              | Some w' => window_run fuel choice w'
              | None => w
              end
  end.

Definition window_left (w : window) : nat :=
  (3 * length (w_first w) + 2 * length (w_running w) + length (w_outputs w))%nat.

Definition window_result (w : window) : result Acc :=
  match w_exception w with Some e => Throw e | None => Ok (w_result w) end.

(** The loop of the serial case. *)
Fixpoint serial (fuel : nat) (ticks : nat) (acc : Acc) (first : list Input) : result Acc :=
  match fuel, first with
  | S fuel, x :: _ => acc' ← handle acc x; serial fuel (S ticks) acc' (advance ticks first)
  | _, _ => Ok acc
  end.

Definition executeParallelWindow (choice : nat → nat) (ticks : nat) (first : list Input)
    (windowSize : Z) : result Acc :=
  if windowSize =? 1 then serial (length first) ticks initialize first
  else
    let w := fill (Z.to_nat windowSize) (mkWindow first ticks 0 [] [] initialize None) in
    window_result (window_run (S (window_left w)) choice w).

(** ** What a run has to be: a merge of the results of some inputs *)
Inductive merged : list Input → Acc → Prop :=
  | merged_init : merged [] initialize
  | merged_handle l acc x acc' : merged l acc → handle acc x = Ok acc' → merged (x :: l) acc'
  | merged_merge l1 l2 acc1 acc2 acc : merged l1 acc1 → merged l2 acc2 →
      merge acc1 acc2 = Ok acc → merged (l1 ++ l2) acc
  | merged_perm l l' acc : merged l acc → l ≡ₚ l' → merged l' acc.

(** The exception of one of the inputs, or of the aggregation of its result, or
    of the merge of the results of two parts, or of the pool that refused a task. *)
Definition failure (l : list Input) (e : exn) : Prop :=
  (∃ l' acc x, x ∈ l ∧ l' ⊆ l ∧ merged l' acc ∧ handle acc x = Throw e) ∨
  (∃ l1 l2 acc1 acc2, l1 ⊆ l ∧ l2 ⊆ l ∧ merged l1 acc1 ∧ merged l2 acc2 ∧ merge acc1 acc2 = Throw e) ∨
  (∃ n, add n = Some e).

Lemma failure_mono l l' e : l ⊆ l' → failure l e → failure l' e.
Proof.
  intros Hl [(k & acc & x & Hx & Hk & H)|[(l1 & l2 & a1 & a2 & H1 & H2 & H)|H]];
    [left|right; left|by right; right].
  - exists k, acc, x. split; [by apply Hl|]. split; [by etrans|done].
  - exists l1, l2, a1, a2. split; [by etrans|]. split; [by etrans|done].
Qed.

(** The outcome of a run over [inputs]: it handles a prefix of them, the [whole]
    collection if the iterator never jumps, and returns their merged results or
    throws. *)
Definition outcome (whole : Prop) (inputs : list Input) (r : result Acc) : Prop :=
  ∃ started, started `prefix_of` inputs ∧ (whole → (∃ a, r = Ok a) → started = inputs) ∧
    match r with
    | Ok acc => merged started acc
    | Throw e => failure started e
    end.

(** If all goes well for every input, so does a merge. *)
Lemma merged_ind_ok (P : Acc → Prop) l acc :
  merged l acc → P initialize →
  (∀ x a a', x ∈ l → P a → handle a x = Ok a' → P a') →
  (∀ a1 a2 a, P a1 → P a2 → merge a1 a2 = Ok a → P a) → P acc.
Proof.
  intros Hm Hinit Hh Hg. induction Hm as [|l acc x acc' Hm IH E|l1 l2 a1 a2 a H1 IH1 H2 IH2 E|l l' acc Hm IH Hp].
  - done.
  - eapply (Hh x); [set_solver|apply IH|done]. intros; eapply (Hh x0); eauto. set_solver.
  - eapply Hg; [apply IH1|apply IH2|done]; intros; eapply (Hh x); eauto; set_solver.
  - apply IH. intros; eapply (Hh x); eauto. by rewrite <- Hp.
Qed.

(** If [P] holds of the start value and every step keeps it without throwing, the run
    returns a value that satisfies it, unless the pool refuses a task. *)
Lemma outcome_total (P : Acc → Prop) whole inputs r :
  outcome whole inputs r → P initialize →
  (∀ x a, x ∈ inputs → P a → ∃ a', handle a x = Ok a' ∧ P a') →
  (∀ a1 a2, P a1 → P a2 → ∃ a, merge a1 a2 = Ok a ∧ P a) →
  (∃ e n, r = Throw e ∧ add n = Some e) ∨
  ∃ acc started, r = Ok acc ∧ P acc ∧ merged started acc ∧ started `prefix_of` inputs ∧
    (whole → started = inputs).
Proof.
  intros (st & Hpre & Hall & Hr) H0 Hh Hg.
  assert (∀ x, x ∈ st → x ∈ inputs) as Hin by (destruct Hpre as [k ->]; set_solver).
  assert (∀ l acc, l ⊆ st → merged l acc → P acc) as HP.
  { intros l acc Hl Hm. eapply merged_ind_ok; [exact Hm|done| |].
    - intros x a a' Hx Ha E. destruct (Hh x a) as (a'' & E' & Ha'); [auto|done|]. congruence.
    - intros a1 a2 a Ha1 Ha2 E. destruct (Hg a1 a2 Ha1 Ha2) as (a'' & E' & Ha'). congruence. }
  destruct r as [acc|e].
  - right. exists acc, st. split; [done|]. split; [by apply (HP st); [set_solver|]|]. split; [done|]. split; [done|].
    intros Hj. apply Hall; [done|by eexists].
  - left. destruct Hr as [(l & acc & x & Hx & Hl & Hm & E)|[(l1 & l2 & a1 & a2 & H1 & H2 & M1 & M2 & E)|[n E]]].
    + destruct (Hh x acc) as (a' & E' & _); [auto|by apply (HP l)|]. congruence.
    + destruct (Hg a1 a2) as (a' & E' & _); [by apply (HP l1)|by apply (HP l2)|]. congruence.
    + by exists e, n.
Qed.

Context (advance_cut : ∀ n x l, advance n (x :: l) = l ∨ advance n (x :: l) = []).
Context (whole : Prop) (advance_whole : whole → ∀ n x l, advance n (x :: l) = l).

(** ** The sliding window is correct *)

(** [handled]: the inputs whose results have been aggregated; [waiting]: those of
    the outputs in the queue. *)
Record window_core (inputs : list Input) (w : window) (started waiting handled : list Input) : Prop := {
  wc_prefix : (started ++ w_first w) `prefix_of` inputs;
  wc_all : whole → started ++ w_first w = inputs;
  wc_outputs : w_outputs w = process <$> waiting;
  wc_started : started ≡ₚ w_running w ++ waiting ++ handled;
  wc_result : match w_exception w with
              | None => merged handled (w_result w)
              | Some e => failure started e
              end
}.

Definition pending (w : window) : nat := (length (w_running w) + length (w_outputs w))%nat.

(** The window is never larger than its size, and full while inputs are left. *)
Definition window_inv (n : nat) (inputs : list Input) (w : window) : Prop :=
  (∃ started waiting handled, window_core inputs w started waiting handled) ∧
  (pending w ≤ n)%nat ∧
  (w_exception w = None → w_first w ≠ [] → pending w = n).

Lemma prefix_cut (s l k inputs : list Input) x n :
  (s ++ x :: l) `prefix_of` inputs → (whole → s ++ x :: l = inputs) →
  k = advance n (x :: l) →
  ((s ++ [x]) ++ k) `prefix_of` inputs ∧ (whole → (s ++ [x]) ++ k = inputs).
Proof.
  intros Hp Ha ->. rewrite <- app_assoc. simpl.
  destruct (advance_cut n x l) as [E|E].
  - rewrite E. done.
  - rewrite E. split.
    + etrans; [|exact Hp]. apply prefix_app, prefix_cons, prefix_nil.
    + intros Hn. rewrite (advance_whole Hn) in E. rewrite E in Ha. by apply Ha.
Qed.

(** A worker is started, the inputs are exhausted, or the pool refuses the task. *)
Lemma newWorker_core inputs w started waiting handled :
  window_core inputs w started waiting handled → w_exception w = None →
  (∃ started', window_core inputs (newWorker w) started' waiting handled) ∧
  ((∃ e, w_exception (newWorker w) = Some e) ∧ pending (newWorker w) = pending w ∨
   w_exception (newWorker w) = None ∧
   pending (newWorker w) = (pending w + (if decide (w_first w = []) then 0 else 1))%nat).
Proof.
  intros [Hp Ha Ho Hs Hr] He. unfold newWorker. destruct (w_first w) as [|x l] eqn:Ef.
  { split; [exists started; by split; rewrite ?Ef|]. right. split; [done|]. rewrite decide_True by done. lia. }
  rewrite decide_False by done. destruct (add (w_adds w)) as [e|] eqn:Ea.
  - split; [exists started|left; by split; [eexists|]].
    split; simpl; [done|done|done|done|]. rewrite He. simpl. right; right. by eexists.
  - destruct (prefix_cut started l _ inputs x (w_ticks w) Hp Ha eq_refl) as [Hp' Ha'].
    split; [exists (started ++ [x])|right].
    + split; simpl; [done|done|done| |by rewrite He in *].
      rewrite Hs. by rewrite <- !app_assoc, (Permutation_app_comm [x]), <- !app_assoc.
    + split; [done|]. unfold pending; simpl. rewrite length_app; simpl. lia.
Qed.

Lemma fill_inv n inputs m : ∀ w,
  (∃ started waiting handled, window_core inputs w started waiting handled) →
  w_exception w = None → (pending w + m = n)%nat →
  window_inv n inputs (fill m w).
Proof.
  induction m as [|m IH]; intros w Hc He Hm; simpl.
  - split; [done|]. split; [lia|intros; lia].
  - destruct (w_first w) as [|x l] eqn:Ef.
    + split; [done|]. split; [lia|]. by rewrite Ef.
    + destruct Hc as (s & wt & h & Hc).
      destruct (newWorker_core _ _ _ _ _ Hc He) as ([s' Hc'] & [[[e He'] Hp]|[He' Hp]]); rewrite He'.
      * split; [by exists s', wt, h|]. split; [lia|by rewrite He'].
      * rewrite Ef, decide_False in Hp by done. apply IH; [by exists s', wt, h|done|lia].
Qed.

Lemma worker_step_inv n inputs k w w' :
  window_inv n inputs w → worker_step k w = Some w' →
  window_inv n inputs w' ∧ (window_left w' < window_left w)%nat.
Proof.
  intros ((s & wt & h & [Hp Ha Ho Hs Hr]) & Hn & Hf) E. unfold worker_step in E.
  destruct (w_running w !! k) as [x|] eqn:Ex; [|done]. injection E as <-.
  pose proof (delete_Permutation _ _ _ Ex) as Hperm.
  assert (length (w_running w) = S (length (delete k (w_running w)))) as Hl by (by rewrite Hperm at 1).
  split.
  - split; [exists s, (wt ++ [x]), h; split; simpl; try done|].
    + by rewrite Ho, fmap_app.
    + set (d := delete k (w_running w)) in *. rewrite Hs, Hperm, <- app_assoc. simpl.
      by rewrite <- (Permutation_middle wt), <- Permutation_middle.
    + unfold pending in *; simpl. rewrite length_app; simpl. split; [lia|].
      intros He Hne. specialize (Hf He Hne). lia.
  - unfold window_left; simpl. rewrite length_app; simpl. lia.
Qed.

Lemma newWorker_left w : (window_left (newWorker w) ≤ window_left w)%nat.
Proof.
  unfold newWorker. destruct (w_first w) as [|x l] eqn:E; [done|].
  destruct (add (w_adds w)); [unfold window_left; simpl; rewrite E; simpl; lia|].
  unfold window_left; simpl. rewrite E, length_app; simpl. destruct (advance_cut (w_ticks w) x l) as [-> | ->]; simpl; lia.
Qed.

Lemma main_step_inv n inputs w w' :
  window_inv n inputs w → main_step w = Some w' →
  window_inv n inputs w' ∧ (window_left w' < window_left w)%nat.
Proof.
  intros ((s & wt & h & [Hp Ha Ho Hs Hr]) & Hn & Hf) E. unfold main_step in E.
  destruct (w_outputs w) as [|r outputs] eqn:Eo; [done|]. injection E as <-.
  destruct wt as [|x wt]; [done|]. injection Ho as -> Ho.
  assert (s ≡ₚ w_running w ++ wt ++ x :: h) as Hs'.
  { rewrite Hs. by rewrite <- (Permutation_middle wt). }
  unfold pending in Hn, Hf. rewrite Eo in Hn, Hf. simpl in Hn, Hf.
  destruct (w_exception w) as [e|] eqn:Ee.
  { split; [|unfold window_left; simpl; rewrite Eo; simpl; lia].
    split; [exists s, wt, (x :: h); by split|]. unfold pending; simpl. split; [lia|done]. }
  destruct (o ← process x; aggregate (w_result w) o) as [acc|e] eqn:Eh.
  - match goal with |- window_inv _ _ (newWorker ?u) ∧ _ => set (w1 := u) end.
    assert (window_core inputs w1 s wt (x :: h)) as Hc1.
    { split; [done..|]. simpl. by eapply merged_handle. }
    destruct (newWorker_core _ _ _ _ _ Hc1 eq_refl) as ((s' & Hc2) & Hcase).
    split.
    + split; [by exists s', wt, (x :: h)|]. destruct Hcase as [[[e He2] Hp2]|[He2 Hp2]].
      { rewrite Hp2, He2. unfold pending; simpl. split; [lia|done]. }
      rewrite Hp2. unfold pending; simpl. destruct (decide (w_first w = [])) as [E0|E0].
      * split; [lia|]. intros _ Hne. exfalso. apply Hne. unfold newWorker, w1; simpl. by rewrite E0.
      * specialize (Hf eq_refl E0). split; [lia|]. intros. lia.
    + pose proof (newWorker_left w1) as Hl. unfold window_left in *; simpl in *. rewrite Eo; simpl. lia.
  - split; [|unfold window_left; simpl; rewrite Eo; simpl; lia].
    split; [exists s, wt, (x :: h); split; simpl; try done|].
    + left. exists h, (w_result w), x. split; [rewrite Hs'; set_solver|].
      split; [|done]. intros y Hy. rewrite Hs'. set_solver.
    + unfold pending; simpl. split; [lia|done].
Qed.

Lemma window_step_inv n inputs w w' :
  window_inv n inputs w → window_step w w' →
  window_inv n inputs w' ∧ (window_left w' < window_left w)%nat.
Proof. intros Hi [k E|E]; [by eapply worker_step_inv|by eapply main_step_inv]. Qed.

(** As long as something is pending, a thread can act. *)
Lemma window_next_step k w :
  match window_next k w with
  | Some w' => window_step w w'
  | None => window_done w = true
  end.
Proof.
  unfold window_next. destruct (worker_step k w) as [w'|] eqn:E1; [by eapply window_worker|].
  destruct (main_step w) as [w'|] eqn:E2; [by apply window_main|].
  destruct (worker_step 0 w) as [w'|] eqn:E3; [by eapply window_worker|].
  unfold main_step in E2. unfold worker_step in E3. unfold window_done.
  destruct (w_outputs w); [|done]. by destruct (w_running w).
Qed.

Lemma window_run_spec fuel choice n inputs : ∀ w,
  window_inv n inputs w → (window_left w < fuel)%nat →
  window_inv n inputs (window_run fuel choice w) ∧ window_done (window_run fuel choice w) = true.
Proof.
  induction fuel as [|fuel IH]; intros w Hi Hf; [lia|]. simpl.
  pose proof (window_next_step (choice fuel) w) as Hn.
  destruct (window_next (choice fuel) w) as [w'|]; [|done].
  destruct (window_step_inv n inputs w w' Hi Hn) as [Hi' Hl]. apply IH; [done|lia].
Qed.

Lemma window_done_outcome n inputs w :
  (0 < n)%nat → window_inv n inputs w → window_done w = true → outcome whole inputs (window_result w).
Proof.
  intros Hn ((s & wt & h & [Hp Ha Ho Hs Hr]) & _ & Hf) Hd. unfold window_done in Hd.
  destruct (w_running w) as [|x l] eqn:E1; [|done]. destruct (w_outputs w) as [|o l'] eqn:E2; [|done].
  destruct wt; [|done]. simpl in Hs. exists s. split; [by eapply prefix_app_l|].
  unfold window_result. destruct (w_exception w) as [e|] eqn:Ee; [split; [by intros _ [a ?]|done]|].
  split; [|by apply (merged_perm h)]. intros Hj _. rewrite <- (Ha Hj).
  destruct (w_first w) as [|y l]; [by rewrite app_nil_r|].
  unfold pending in Hf. rewrite E1, E2 in Hf. specialize (Hf eq_refl ltac:(done)). simpl in Hf. lia.
Qed.

Lemma serial_outcome fuel inputs : ∀ first ticks acc s,
  (length first ≤ fuel)%nat → (s ++ first) `prefix_of` inputs →
  (whole → s ++ first = inputs) → merged s acc →
  outcome whole inputs (serial fuel ticks acc first).
Proof.
  induction fuel as [|fuel IH]; intros [|x l] ticks acc s Hl Hp Ha Hm; simpl in Hl; try lia.
  1-2: simpl; exists s; rewrite app_nil_r in Hp, Ha; by split_and!; auto.
  cbn [serial]. destruct (prefix_cut s l _ inputs x ticks Hp Ha eq_refl) as [Hp' Ha'].
  destruct (handle acc x) as [acc'|e] eqn:E; cbn [mbind result_bind].
  - apply (IH _ _ _ (s ++ [x])); [|done|done|].
    + destruct (advance_cut ticks x l) as [-> | ->]; simpl; lia.
    + apply (merged_perm (x :: s)); [by eapply merged_handle|]. by rewrite Permutation_app_comm.
  - exists (s ++ [x]). split; [by eapply prefix_app_l|]. split; [by intros _ [a ?]|].
    left. exists s, acc, x. split; [set_solver|]. split; [set_solver|done].
Qed.

Lemma executeParallelWindow_outcome choice ticks inputs windowSize :
  0 < windowSize → outcome whole inputs (executeParallelWindow choice ticks inputs windowSize).
Proof.
  intros Hw. unfold executeParallelWindow. destruct (Z.eqb_spec windowSize 1).
  { apply (serial_outcome _ _ _ _ _ []); [done|done|done|constructor]. }
  set (w0 := mkWindow inputs ticks 0 [] [] initialize None).
  assert (window_inv (Z.to_nat windowSize) inputs (fill (Z.to_nat windowSize) w0)) as Hi.
  { apply fill_inv; [|done|done]. exists [], [], []. split; try done. simpl. constructor. }
  destruct (window_run_spec (S (window_left (fill (Z.to_nat windowSize) w0))) choice _ _ _ Hi)
    as [Hi' Hd]; [lia|]. eapply window_done_outcome; [|exact Hi'|exact Hd]. lia.
Qed.
End execution.

(** ** Batches and consumers *)
Section batches.
Context {Input Output Acc : Type}.
Context (process : Input → result Output).
Context (initialize : Acc) (aggregate : Acc → Output → result Acc) (merge : Acc → Acc → result Acc).
Context (advance : nat → list Input → list Input).
Context (add : nat → option exn).
Context (batchSize capacity : nat).

(** Where a consumer is in [consumeBatches]: before [blockingRead], at the head
    of the loop over its batch, processing an input, or done. *)
Inductive cstate :=
  | Reading
  | Looping (batch : list Input)
  | Processing (input : Input) (batch : list Input)
  | Posted.

Record consumer := mkConsumer { c_state : cstate; c_acc : Acc }.

(** Where the solver thread is: building a batch, writing it, writing the poison
    pills (and then waiting for the consumers). *)
Inductive producer := Filling | Writing (batch : list Input) | Pills (n : nat).

(** The queue holds batches and poison pills. *)
Record pool := mkPool {
  b_it : list Input;
  b_ticks : nat;
  b_producer : producer;
  b_queue : list (option (list Input));
  b_consumers : list consumer;
  b_error : option exn
}.

(** [batch->push_back( *it )] up to [batchSize] times. *)
Fixpoint take_batch (n ticks : nat) (it : list Input) : list Input * nat * list Input :=
  match n, it with
  | S n, x :: _ =>
      let '(b, t, it') := take_batch n (S ticks) (advance ticks it) in (x :: b, t, it')
  | _, _ => ([], ticks, it)
  end.

(** The solver thread; a write waits for room in the queue. *)
Definition producer_step (s : pool) : option pool :=
  let room := (length (b_queue s) <? capacity)%nat in
  match b_producer s with
  | Filling =>
      match b_it s with
      | [] => Some (mkPool [] (b_ticks s) (Pills (length (b_consumers s))) (b_queue s)
                      (b_consumers s) (b_error s))
      | _ =>
          let '(b, t, it') := take_batch batchSize (b_ticks s) (b_it s) in
          Some (mkPool it' t
                  (match b_error s with
                   | Some _ => Pills (length (b_consumers s))
                   | None => Writing b
                   end) (b_queue s) (b_consumers s) (b_error s))
      end
  | Writing b =>
      if room then Some (mkPool (b_it s) (b_ticks s) Filling (b_queue s ++ [Some b])
                           (b_consumers s) (b_error s))
      else None
  | Pills (S n) =>
      if room then Some (mkPool (b_it s) (b_ticks s) (Pills n) (b_queue s ++ [None])
                           (b_consumers s) (b_error s))
      else None
  | Pills O => None
  end.

(** One action of a consumer: its new state, the queue and the first exception. *)
Definition consume (c : consumer) (queue : list (option (list Input))) (error : option exn)
    : option (consumer * list (option (list Input)) * option exn) :=
  match c_state c with
  | Reading =>
      match queue with
      | [] => None
      | Some b :: queue => Some (mkConsumer (Looping b) (c_acc c), queue, error)
      | None :: queue => Some (mkConsumer Posted (c_acc c), queue, error)
      end
  | Looping [] => Some (mkConsumer Reading (c_acc c), queue, error)
  | Looping (x :: b) =>
      Some (mkConsumer (match error with Some _ => Reading | None => Processing x b end) (c_acc c),
            queue, error)
  | Processing x b =>
      Some match handle process aggregate (c_acc c) x with
      | Ok acc => (mkConsumer (Looping b) acc, queue, error)
      | Throw e => (mkConsumer Reading (c_acc c), queue, Some (default e error))
      end
  | Posted => None
  end.

Definition consumer_step (i : nat) (s : pool) : option pool :=
  match b_consumers s !! i with
  | None => None
  | Some c =>
      match consume c (b_queue s) (b_error s) with
      | None => None
      | Some (c', queue, error) =>
          Some (mkPool (b_it s) (b_ticks s) (b_producer s) queue (<[i := c']> (b_consumers s)) error)
      end
  end.

Inductive pool_step (s s' : pool) : Prop :=
  | pool_producer : producer_step s = Some s' → pool_step s s'
  | pool_consumer i : consumer_step i s = Some s' → pool_step s s'.

(** Actor 0 is the solver thread, actor [S i] the consumer [i]. *)
Definition actor_step (a : nat) (s : pool) : option pool :=
  match a with O => producer_step s | S i => consumer_step i s end.

Fixpoint first_enabled (actors : list nat) (s : pool) : option pool :=
  match actors with
  | [] => None
  | a :: actors => match actor_step a s with Some s' => Some s' | None => first_enabled actors s end
  end.

(** A scheduler: the chosen actor, or the first one that is not blocked. *)
Definition pool_next (k : nat) (s : pool) : option pool :=
  first_enabled (k :: seq 0 (S (length (b_consumers s)))) s.

Fixpoint pool_run (fuel : nat) (choice : nat → nat) (s : pool) : pool :=
  match fuel with
  | O => s
  | S fuel => match pool_next (choice fuel) s with
              | Some s' => pool_run fuel choice s'
              | None => s
              end
  end.

Definition posted (c : consumer) : bool := match c_state c with Posted => true | _ => false end.

(** All batons are posted. *)
Definition pool_done (s : pool) : bool :=
  forallb posted (b_consumers s) && match b_producer s with Pills O => true | _ => false end.

(** A bound on the number of actions that are left. *)
Definition c_left (c : consumer) : nat :=
  match c_state c with
  | Reading | Posted => 0
  | Looping b => 2 * length b + 1
  | Processing _ b => 2 * length b + 2
  end.

Definition q_left (o : option (list Input)) : nat :=
  match o with Some b => 2 * length b + 2 | None => 1 end.

Definition p_left (n : nat) (p : producer) : nat :=
  match p with
  | Filling => 2 * n + 1
  | Writing b => 2 * length b + 3 + (2 * n + 1)
  | Pills k => 2 * k
  end.

Definition pool_left (s : pool) : nat :=
  (6 * length (b_it s) + p_left (length (b_consumers s)) (b_producer s) +
   sum_list_with q_left (b_queue s) + sum_list_with c_left (b_consumers s))%nat.

(** The final loop over the accumulators. *)
Definition pool_result (s : pool) : result Acc :=
  match foldM merge initialize (c_acc <$> b_consumers s) with
  | Ok r => match b_error s with Some e => Throw e | None => Ok r end
  | Throw e => Throw (default e (b_error s))
  end.

(** The consumers are given to the pool; its exception is not caught here. *)
Definition submit_consumers (numConsumers : nat) : result () :=
  foldM (λ _ idx, match add idx with Some e => Throw e | None => Ok () end) () (seq 0 numConsumers).

(** [begin n] is [collection.begin()] at the [n]-th reading of its timer. *)
Definition executeParallelBatch (choice : nat → nat) (begin : nat → list Input)
    (numThreads : nat) (maxConcurrency : option nat) : result Acc :=
  match begin 0%nat with
  | [] => Ok initialize
  | _ =>
      if (batchSize =? 0)%nat then Throw (invalid_argument "batchSize must be greater than 0")
      else if bool_decide (maxConcurrency = Some 0%nat)
      then Throw (invalid_argument "maxConcurrency must be greater than 0")
      else
        let executorConcurrency := Nat.max 1 numThreads in
        let numConsumers := Nat.min executorConcurrency (default executorConcurrency maxConcurrency) in
        let '(firstBatch, ticks, it) := take_batch batchSize 2 (begin 1%nat) in
        match firstBatch, it with
        | [], _ => Ok initialize
        | _, [] =>
            executeParallelWindow process initialize aggregate (λ _, tail) add choice 0 firstBatch
              (Z.of_nat (Nat.min (length firstBatch) numConsumers))
        | _, _ =>
            let s := mkPool it ticks (Writing firstBatch) []
                       (replicate numConsumers (mkConsumer Reading initialize)) None in
            _ ← submit_consumers numConsumers;
            pool_result (pool_run (S (pool_left s)) choice s)
        end
  end.

(** *** Correctness *)
Context (advance_cut : ∀ n x l, advance n (x :: l) = l ∨ advance n (x :: l) = []).
Context (whole : Prop) (advance_whole : whole → ∀ n x l, advance n (x :: l) = l).
Abbreviation merged := (merged process initialize aggregate merge).
Abbreviation failure := (failure process initialize aggregate merge add).
Abbreviation outcome := (outcome process initialize aggregate merge add).

(** The inputs a consumer holds. *)
Definition held (c : consumer) : list Input :=
  match c_state c with
  | Reading | Posted => []
  | Looping b => b
  | Processing x b => x :: b
  end.

Definition produced (p : producer) : list Input :=
  match p with Writing b => b | _ => [] end.

Definition posted_count (cs : list consumer) : nat :=
  sum_list_with (λ c, if posted c then 1 else 0)%nat cs.

(** [bs] are the batches in the queue, followed by [k] pills; [gs] pairs each
    consumer with the inputs it has handled. *)
Record pool_core (n : nat) (inputs : list Input) (s : pool) (started : list Input)
    (bs : list (list Input)) (k : nat) (gs : list (consumer * list Input)) : Prop := {
  pc_prefix : (started ++ b_it s) `prefix_of` inputs;
  pc_all : whole → started ++ b_it s = inputs;
  pc_queue : b_queue s = (Some <$> bs) ++ replicate k None;
  pc_consumers : b_consumers s = gs.*1;
  pc_length : length gs = n;
  pc_pills : match b_producer s with
             | Pills m => (posted_count (b_consumers s) + k + m = n)%nat
             | _ => k = 0%nat ∧ posted_count (b_consumers s) = 0%nat
             end;
  pc_order : (0 < posted_count (b_consumers s))%nat → bs = [];
  pc_complete : match b_producer s with Pills _ => b_error s = None → b_it s = [] | _ => True end;
  pc_started : b_error s = None →
    started ≡ₚ produced (b_producer s) ++ (bs ≫= id) ++ (gs ≫= λ g, held g.1 ++ g.2);
  pc_acc : b_error s = None → Forall (λ g, merged g.2 (c_acc g.1)) gs;
  pc_error : match b_error s with Some e => failure started e | None => True end
}.

Definition pool_inv (n : nat) (inputs : list Input) (s : pool) : Prop :=
  ∃ started bs k gs, pool_core n inputs s started bs k gs.

Lemma insert_split {A} (l : list A) i x y :
  l !! i = Some x → ∃ rest, l ≡ₚ x :: rest ∧ <[i := y]> l ≡ₚ y :: rest.
Proof.
  intros E. exists (take i l ++ drop (S i) l). split.
  - rewrite <- (take_drop_middle l i x E) at 1. by rewrite Permutation_middle.
  - rewrite insert_take_drop by (by eapply lookup_lt_Some). by rewrite Permutation_middle.
Qed.

Lemma take_batch_spec n : ∀ ticks it b t it' (s inputs : list Input),
  take_batch n ticks it = (b, t, it') →
  (s ++ it) `prefix_of` inputs → (whole → s ++ it = inputs) →
  ((s ++ b) ++ it') `prefix_of` inputs ∧ (whole → (s ++ b) ++ it' = inputs) ∧
  (length b + length it' ≤ length it)%nat ∧ (it ≠ [] → n ≠ 0%nat → b ≠ []).
Proof.
  induction n as [|n IH]; intros ticks it b t it' s inputs E Hp Ha; simpl in E.
  { injection E as <- <- <-. rewrite app_nil_r. split_and!; try done; simpl; lia. }
  destruct it as [|x l].
  { injection E as <- <- <-. rewrite app_nil_r. split_and!; try done; simpl; lia. }
  destruct (take_batch n (S ticks) (advance ticks (x :: l))) as [[b1 t1] it1] eqn:E1.
  injection E as <- <- <-.
  destruct (prefix_cut advance advance_cut whole advance_whole s l _ inputs x ticks Hp Ha eq_refl) as [Hp' Ha'].
  destruct (IH _ _ _ _ _ _ _ E1 Hp' Ha') as (H1 & H2 & H3 & _).
  rewrite <- (app_assoc s) in H1, H2. simpl in H1, H2. split_and!; [done|done| |done].
  simpl. destruct (advance_cut ticks x l) as [Ec|Ec]; rewrite Ec in H3; simpl in H3; lia.
Qed.

Lemma producer_step_inv n inputs s s' :
  (0 < batchSize)%nat → pool_inv n inputs s → producer_step s = Some s' →
  pool_inv n inputs s' ∧ (pool_left s' < pool_left s)%nat.
Proof.
  intros Hb (st & bs & k & gs & [Hp Ha Hq Hc Hl Hpi Ho Hcm Hs Hac He]) E.
  unfold producer_step in E. destruct (b_producer s) as [|b|[|m]] eqn:Ep.
  - destruct Hpi as [-> Hpo]. destruct (b_it s) as [|x l] eqn:Ei.
    + injection E as <-. split.
      * exists st, bs, 0%nat, gs. split; simpl; try done. rewrite Hpo, Hc, length_fmap. lia.
      * unfold pool_left; simpl. rewrite Ep, Ei; simpl. lia.
    + destruct (take_batch batchSize (b_ticks s) (x :: l)) as [[b t] it'] eqn:Et. injection E as <-.
      destruct (take_batch_spec _ _ _ _ _ _ _ _ Et Hp Ha) as (H1 & H2 & H3 & H4).
      assert (b ≠ []) as Hbn by (apply H4; [done|lia]).
      split.
      * exists (st ++ b), bs, 0%nat, gs. destruct (b_error s) as [e|] eqn:Ee; split; simpl; try done.
        -- rewrite Hpo, Hc, length_fmap. lia.
        -- eapply failure_mono; [|exact He]. set_solver.
        -- intros _. rewrite Hs by done. simpl. apply Permutation_app_comm.
      * unfold pool_left; simpl. rewrite Ep, Ei. simpl p_left. simpl in H3. destruct b as [|y b]; [done|].
        simpl in H3. destruct (b_error s); simpl p_left; simpl length; lia.
  - destruct Hpi as [-> Hpo]. destruct (_ <? _)%nat; [|done]. injection E as <-. split.
    + exists st, (bs ++ [b]), 0%nat, gs. split; simpl; try done.
      * rewrite Hq, fmap_app. simpl. by rewrite !app_nil_r.
      * rewrite Hpo. lia.
      * intros Hn. specialize (Hs Hn). simpl in *. rewrite bind_app. simpl. rewrite app_nil_r.
        rewrite <- app_assoc, Hs. by rewrite (Permutation_app_swap_app b).
    + unfold pool_left; simpl. rewrite Ep. simpl p_left. rewrite sum_list_with_app. simpl. lia.
  - done.
  - destruct (_ <? _)%nat; [|done]. injection E as <-. split.
    + exists st, bs, (S k), gs. split; simpl; try done.
      * rewrite Hq, <- app_assoc. f_equal. by rewrite <- replicate_cons_app.
      * lia.
    + unfold pool_left; simpl. rewrite Ep. simpl p_left. rewrite sum_list_with_app. simpl. lia.
Qed.

Abbreviation one c := (if posted c then 1 else 0)%nat.

(** What a consumer's action has to keep for the invariant to hold. *)
Lemma update_core n inputs s st bs k gs i c h c' h' bs' k' error' :
  pool_core n inputs s st bs k gs → gs !! i = Some (c, h) → posted c = false →
  (one c' + k' = k)%nat → (bs = [] → bs' = []) → (posted c' = true → bs' = []) →
  (error' = None → b_error s = None) →
  (error' = None → merged h (c_acc c) →
     merged h' (c_acc c') ∧ (bs ≫= id) ++ held c ++ h ≡ₚ (bs' ≫= id) ++ held c' ++ h') →
  match error' with Some e => failure st e | None => True end →
  pool_core n inputs
    (mkPool (b_it s) (b_ticks s) (b_producer s) ((Some <$> bs') ++ replicate k' None)
       (<[i := c']> (b_consumers s)) error') st bs' k' (<[i := (c', h')]> gs).
Proof.
  intros [Hp Ha Hq Hc Hl Hpi Ho Hcm Hs Hac He] Eg Hpc Hk Hbs Hpost Herr Hm Hf.
  assert (b_consumers s !! i = Some c) as Ec by (by rewrite Hc, list_lookup_fmap, Eg).
  destruct (insert_split _ _ _ (c', h') Eg) as (rest & P1 & P2).
  destruct (insert_split _ _ _ c' Ec) as (crest & Q1 & Q2).
  assert (posted_count (<[i := c']> (b_consumers s)) = one c' + posted_count (b_consumers s))%nat as Hcount.
  { unfold posted_count. rewrite Q2, Q1. simpl. rewrite Hpc. simpl. lia. }
  split; simpl; try done.
  - by rewrite Hc, list_fmap_insert.
  - by rewrite length_insert.
  - rewrite Hcount. destruct (b_producer s); [split; lia|split; lia|lia].
  - rewrite Hcount. intros Hpos. destruct (posted c') eqn:Epc; [by apply Hpost|].
    apply Hbs, Ho. lia.
  - destruct (b_producer s); [done|done|]. auto.
  - intros He'. specialize (Herr He'). rewrite (Hs Herr), P2, P1. simpl.
    specialize (Hac Herr). rewrite Forall_forall in Hac.
    destruct (Hm He') as [_ Hperm]; [apply (Hac (c, h)); by eapply list_elem_of_lookup_2|].
    apply Permutation_app_head. rewrite !app_assoc. apply Permutation_app_tail.
    rewrite <- !app_assoc. done.
  - intros He'. specialize (Herr He'). specialize (Hac Herr).
    apply Forall_insert; [done|]. apply Hm; [done|]. rewrite Forall_forall in Hac.
    apply (Hac (c, h)). by eapply list_elem_of_lookup_2.
Qed.

Lemma consumer_left s i c c' queue' error' :
  b_consumers s !! i = Some c →
  (sum_list_with q_left queue' + c_left c' < sum_list_with q_left (b_queue s) + c_left c)%nat →
  (pool_left (mkPool (b_it s) (b_ticks s) (b_producer s) queue' (<[i := c']> (b_consumers s)) error')
    < pool_left s)%nat.
Proof.
  intros Ec Hlt. destruct (insert_split _ _ _ c' Ec) as (crest & Q1 & Q2).
  unfold pool_left; simpl. rewrite length_insert.
  assert (sum_list_with c_left (<[i := c']> (b_consumers s)) = c_left c' + sum_list_with c_left crest)%nat
    as -> by (by rewrite Q2).
  assert (sum_list_with c_left (b_consumers s) = c_left c + sum_list_with c_left crest)%nat as ->
    by (by rewrite Q1). lia.
Qed.

Lemma consumer_step_inv n inputs i s s' :
  pool_inv n inputs s → consumer_step i s = Some s' →
  pool_inv n inputs s' ∧ (pool_left s' < pool_left s)%nat.
Proof.
  intros (st & bs & k & gs & Hcore) E. unfold consumer_step in E.
  destruct (b_consumers s !! i) as [c|] eqn:Ec; [|done].
  assert (∃ h, gs !! i = Some (c, h)) as [h Eg].
  { rewrite (pc_consumers _ _ _ _ _ _ _ Hcore), list_lookup_fmap in Ec.
    destruct (gs !! i) as [[c0 h]|]; [|done]. injection Ec as ->. by exists h. }
  destruct (consume c (b_queue s) (b_error s)) as [[[c' queue'] error']|] eqn:Eu; [|done].
  injection E as <-. pose proof (pc_queue _ _ _ _ _ _ _ Hcore) as Hq.
  pose proof (pc_error _ _ _ _ _ _ _ Hcore) as He.
  assert (∀ bs' k' h', queue' = (Some <$> bs') ++ replicate k' None →
    pool_core n inputs (mkPool (b_it s) (b_ticks s) (b_producer s) ((Some <$> bs') ++ replicate k' None)
      (<[i := c']> (b_consumers s)) error') st bs' k' (<[i := (c', h')]> gs) →
    pool_inv n inputs (mkPool (b_it s) (b_ticks s) (b_producer s) queue'
      (<[i := c']> (b_consumers s)) error')) as Hdone.
  { intros bs' k' h' -> Hc'. by exists st, bs', k', (<[i := (c', h')]> gs). }
  destruct c as [[|b|x b|] acc]; unfold consume in Eu; simpl in Eu.
  - (* a batch or a pill is read *)
    rewrite Hq in Eu. destruct bs as [|b bs].
    + destruct k as [|k]; [done|]. simpl in Eu. injection Eu as <- <- <-. split.
      * apply (Hdone [] k h); [done|]. eapply update_core; [exact Hcore|exact Eg|done|simpl; lia|done|done|done|done|done].
      * eapply consumer_left; [exact Ec|]. rewrite Hq. unfold c_left; simpl. lia.
    + simpl in Eu. injection Eu as <- <- <-. split.
      * apply (Hdone bs k h); [done|].
        eapply update_core; [exact Hcore|exact Eg|done|simpl; lia|done|done|done| |done].
        intros _ Hm. split; [done|]. unfold held; simpl.
        rewrite <- app_assoc. by rewrite (Permutation_app_swap_app b).
      * eapply consumer_left; [exact Ec|]. rewrite Hq. unfold c_left; simpl. lia.
  - (* the head of the loop *)
    destruct b as [|x b]; injection Eu as <- <- <-; split.
    + apply (Hdone bs k h Hq). eapply update_core; [exact Hcore|exact Eg|done|simpl; lia|done|done|done|done|done].
    + eapply consumer_left; [exact Ec|]. unfold c_left; simpl. lia.
    + apply (Hdone bs k h Hq). destruct (b_error s) as [e|] eqn:Ee.
      * eapply update_core; [exact Hcore|exact Eg|done|simpl; lia|done|done|done|done|done].
      * eapply update_core; [exact Hcore|exact Eg|done|simpl; lia|done|done|done|done|done].
    + eapply consumer_left; [exact Ec|]. destruct (b_error s); unfold c_left; simpl; lia.
  - (* an input has been processed *)
    injection Eu as Eu. destruct (handle process aggregate acc x) as [acc'|e] eqn:Eh;
      injection Eu as <- <- <-; split.
    + apply (Hdone bs k (x :: h) Hq).
      eapply update_core; [exact Hcore|exact Eg|done|simpl; lia|done|done|done| |done].
      intros _ Hm. split; [by eapply merged_handle|]. unfold held; simpl.
      by rewrite (Permutation_middle b h x).
    + eapply consumer_left; [exact Ec|]. unfold c_left; simpl. lia.
    + apply (Hdone bs k h Hq).
      eapply update_core; [exact Hcore|exact Eg|done|simpl; lia|done|done|done|done|].
      simpl. destruct (b_error s) as [e0|] eqn:Ee; [done|]. simpl.
      pose proof (pc_acc _ _ _ _ _ _ _ Hcore Ee) as Hac. rewrite Forall_forall in Hac.
      pose proof (list_elem_of_lookup_2 _ _ _ Eg) as Hin. specialize (Hac _ Hin). simpl in Hac.
      assert (x :: h ⊆ st) as Hsub.
      { intros y Hy. rewrite (pc_started _ _ _ _ _ _ _ Hcore Ee), !elem_of_app. right; right.
        apply list_elem_of_bind. eexists. split; [|exact Hin]. simpl. set_solver. }
      left. exists h, acc, x. split; [apply Hsub; set_solver|].
      split; [intros y Hy; apply Hsub; set_solver|done].
    + eapply consumer_left; [exact Ec|]. unfold c_left; simpl. lia.
  - done.
Qed.

Context (batch_pos : (0 < batchSize)%nat) (capacity_pos : (0 < capacity)%nat).

Lemma pool_step_inv n inputs s s' :
  pool_inv n inputs s → pool_step s s' →
  pool_inv n inputs s' ∧ (pool_left s' < pool_left s)%nat.
Proof. intros Hi [E|i E]; [by eapply producer_step_inv|by eapply consumer_step_inv]. Qed.

(** A consumer can be blocked only at an empty queue or after its baton. *)
Lemma consumer_blocked s i c :
  b_consumers s !! i = Some c → consumer_step i s = None →
  posted c = true ∨ (c_state c = Reading ∧ b_queue s = []).
Proof.
  intros Ec E. unfold consumer_step in E. rewrite Ec in E. unfold posted.
  destruct c as [[|[|x b]|x b|] acc]; unfold consume in E; simpl in *; try done;
    [| |by left].
  - destruct (b_queue s) as [|[b|] q]; [by right|done|done].
  - by destruct (handle process aggregate acc x).
Qed.

Lemma all_posted cs : forallb posted cs = true ↔ posted_count cs = length cs.
Proof.
  unfold posted_count. induction cs as [|c cs IH]; [done|]. simpl.
  assert (sum_list_with (λ c, one c) cs ≤ length cs)%nat as Hle.
  { clear. induction cs as [|c cs IH]; simpl; [lia|]. destruct (posted c); lia. }
  destruct (posted c); simpl; [rewrite IH; lia|]. split; [done|lia].
Qed.

(** No deadlock: if every thread is blocked, the work is done. *)
Lemma pool_no_deadlock n inputs s :
  (0 < n)%nat → pool_inv n inputs s →
  producer_step s = None → (∀ i c, b_consumers s !! i = Some c → consumer_step i s = None) →
  pool_done s = true.
Proof.
  intros Hn (st & bs & k & gs & [Hp Ha Hq Hc Hl Hpi Ho Hcm Hs Hac He]) Ep Ecs.
  assert (length (b_consumers s) = n) as Hlen by (by rewrite Hc, length_fmap).
  assert (b_queue s ≠ [] → posted_count (b_consumers s) = n) as Hall.
  { intros Hne. rewrite <- Hlen. apply all_posted, forallb_forall.
    intros c Hin%list_elem_of_In. apply list_elem_of_lookup in Hin as [i Hi].
    destruct (consumer_blocked s i c Hi (Ecs i c Hi)) as [?|[_ ?]]; done. }
  assert (b_queue s = [] ∨ b_queue s ≠ []) as Hqd by (destruct (b_queue s); auto).
  unfold producer_step in Ep. unfold pool_done. destruct (b_producer s) as [|b|[|m]] eqn:Epr.
  - destruct (b_it s); [done|]. by destruct (take_batch _ _ _) as [[? ?] ?].
  - destruct Hpi as [_ Hpo]. destruct (Nat.ltb_spec (length (b_queue s)) capacity); [done|].
    destruct Hqd as [E|E]; [rewrite E in *; simpl in *; lia|]. specialize (Hall E). lia.
  - rewrite andb_true_r. apply all_posted. rewrite Hlen.
    destruct Hqd as [E|E]; [|by apply Hall].
    rewrite E in Hq. destruct k as [|k]; [lia|]. by destruct bs.
  - destruct (Nat.ltb_spec (length (b_queue s)) capacity); [done|].
    destruct Hqd as [E|E]; [rewrite E in *; simpl in *; lia|]. specialize (Hall E). lia.
Qed.

Lemma first_enabled_spec actors s :
  match first_enabled actors s with
  | Some s' => pool_step s s'
  | None => ∀ a, a ∈ actors → actor_step a s = None
  end.
Proof.
  induction actors as [|a actors IH]; simpl; [set_solver|].
  destruct (actor_step a s) as [s'|] eqn:E.
  - destruct a; [by apply pool_producer|by eapply pool_consumer].
  - destruct (first_enabled actors s); [done|]. intros b [->|Hb]%elem_of_cons; [done|by apply IH].
Qed.

Lemma pool_run_spec fuel choice n inputs : ∀ s,
  (0 < n)%nat → pool_inv n inputs s → (pool_left s < fuel)%nat →
  pool_inv n inputs (pool_run fuel choice s) ∧ pool_done (pool_run fuel choice s) = true.
Proof.
  induction fuel as [|fuel IH]; intros s Hn Hi Hf; [lia|]. simpl.
  pose proof (first_enabled_spec (choice fuel :: seq 0 (S (length (b_consumers s)))) s) as Hst.
  unfold pool_next. destruct (first_enabled _ s) as [s'|].
  - destruct (pool_step_inv n inputs s s' Hi Hst) as [Hi' Hl]. apply IH; [done|done|lia].
  - split; [done|]. eapply pool_no_deadlock; [exact Hn|exact Hi| |].
    + apply (Hst 0%nat). apply elem_of_cons. right. apply elem_of_seq. lia.
    + intros i c Hi'%lookup_lt_Some. apply (Hst (S i)). apply elem_of_cons. right.
      apply elem_of_seq. lia.
Qed.

Lemma merge_all gs : ∀ l acc,
  merged l acc → Forall (λ g, merged g.2 (c_acc g.1)) gs →
  match foldM merge acc (c_acc <$> gs.*1) with
  | Ok r => merged (l ++ (gs ≫= snd)) r
  | Throw e => failure (l ++ (gs ≫= snd)) e
  end.
Proof.
  induction gs as [|[c h] gs IH]; intros l acc Hl Hgs; simpl; [by rewrite app_nil_r|].
  inversion_clear Hgs as [|? ? Hh Hgs']. simpl in Hh.
  destruct (merge acc (c_acc c)) as [acc'|e] eqn:E; cbn [mbind result_bind].
  - specialize (IH (l ++ h) acc' ltac:(by eapply merged_merge) Hgs').
    unfold fmap in *. destruct (foldM merge acc' _); by rewrite app_assoc.
  - right; left. exists l, h, acc, (c_acc c). split; [set_solver|]. split; [set_solver|done].
Qed.

Lemma pool_done_outcome n inputs s :
  (0 < n)%nat → pool_inv n inputs s → pool_done s = true → outcome whole inputs (pool_result s).
Proof.
  intros Hn (st & bs & k & gs & [Hp Ha Hq Hc Hl Hpi Ho Hcm Hs Hac He]) Hd.
  unfold pool_done in Hd. apply andb_true_iff in Hd as [Hall Hpr].
  destruct (b_producer s) as [|b|[|m]] eqn:Epr; [done|done| |done]. clear Hpr.
  exists st. split; [by eapply prefix_app_l|]. unfold pool_result.
  destruct (b_error s) as [e|] eqn:Ee.
  { split; [intros _ [a Hr]; by destruct (foldM _ _ _)|]. by destruct (foldM _ _ _). }
  assert (posted_count (b_consumers s) = n) as Hcount
    by (rewrite (proj1 (all_posted _) Hall), Hc, length_fmap; done).
  assert (bs = []) as -> by (apply Ho; lia).
  assert (gs ≫= (λ g, held g.1 ++ g.2) = gs ≫= snd) as Hheld.
  { clear - Hall Hc. rewrite Hc in Hall. clear Hc. induction gs as [|[c h] gs IH]; [done|].
    simpl in Hall. apply andb_true_iff in Hall as [Hpo Hall]. rewrite !bind_cons, IH by done. simpl.
    f_equal. unfold posted in Hpo. unfold held. by destruct (c_state c). }
  specialize (Hs eq_refl). simpl in Hs. rewrite Hheld in Hs. specialize (Hac eq_refl).
  pose proof (merge_all gs [] initialize (merged_init _ _ _ _) Hac) as Hm. simpl in Hm.
  rewrite Hc. destruct (foldM merge initialize (c_acc <$> gs.*1)) as [r|e].
  - split; [|by eapply merged_perm]. intros Hj _. rewrite <- (Ha Hj), (Hcm eq_refl). by rewrite app_nil_r.
  - split; [by intros _ [a ?]|]. eapply failure_mono; [|exact Hm]. intros x. by rewrite Hs.
Qed.

Lemma posted_count_init n a : posted_count (replicate n (mkConsumer Reading a)) = 0%nat.
Proof. unfold posted_count. by induction n. Qed.

Lemma submit_consumers_throw n e : submit_consumers n = Throw e → ∃ i, add i = Some e.
Proof.
  unfold submit_consumers. induction (seq 0 n) as [|i l IH]; [done|]. simpl.
  destruct (add i) as [e'|] eqn:Ei; cbn [mbind result_bind]; [|exact IH].
  intros [= ->]. by exists i.
Qed.

(** Whatever the scheduler does: the call over a batchable collection returns
    the merged results of a prefix of it (all of it, if the iterator never jumps
    to the end), or an exception one of them or the pool caused. *)
Lemma executeParallelBatch_outcome choice begin numThreads maxConcurrency inputs :
  maxConcurrency ≠ Some 0%nat →
  begin 0%nat = inputs ∨ begin 0%nat = [] → begin 1%nat = inputs ∨ begin 1%nat = [] →
  (whole → begin 0%nat = inputs ∧ begin 1%nat = inputs) →
  outcome whole inputs (executeParallelBatch choice begin numThreads maxConcurrency).
Proof.
  intros Hmc H0 H1 Hnj. unfold executeParallelBatch.
  assert (∀ (r : result Acc), r = Ok initialize → (whole → inputs = []) → outcome whole inputs r) as Hempty.
  { intros r -> He. exists []. split; [apply prefix_nil|]. split; [by intros ->%He|constructor]. }
  destruct (begin 0%nat) as [|x0 l0] eqn:E0.
  { apply Hempty; [done|]. intros [<- _]%Hnj. done. }
  rewrite (proj2 (Nat.eqb_neq _ _)) by lia. rewrite bool_decide_false by done.
  set (conc := Nat.max 1 numThreads). set (nc := Nat.min conc _).
  assert (0 < nc)%nat as Hnc.
  { unfold nc, conc. destruct maxConcurrency as [[|m]|]; [done|simpl; lia|simpl; lia]. }
  clearbody nc. destruct (take_batch batchSize 2 (begin 1%nat)) as [[fb t] it] eqn:Et.
  assert (begin 1%nat `prefix_of` inputs) as Hp1.
  { destruct H1 as [-> | ->]; [done|apply prefix_nil]. }
  destruct (take_batch_spec _ _ _ _ _ _ [] inputs Et Hp1) as (Hp & Ha & _ & Hne);
    [intros Hj; by apply Hnj|]. simpl in Hp, Ha.
  destruct fb as [|x fb'].
  { apply Hempty; [done|]. intros Hj. specialize (Hnj Hj) as [_ Hb]. rewrite Hb in Hne.
    destruct inputs; [done|]. destruct (Hne ltac:(done) ltac:(lia)). done. }
  set (fb := x :: fb') in *. destruct it as [|y it].
  - assert (ParallelExecution.outcome process initialize aggregate merge add True fb
      (executeParallelWindow process initialize aggregate (λ _, tail) add choice 0 fb
         (Z.of_nat (Nat.min (length fb) nc)))) as (st & Hst & Hall & Hr).
    { apply executeParallelWindow_outcome; [by left|done|]. unfold fb; cbn [length]. lia. }
    rewrite app_nil_r in Hp, Ha. exists st. split; [by etrans|]. split; [|done].
    intros Hj Hok. rewrite <- (Ha Hj). by apply (Hall I).
  - destruct (submit_consumers nc) as [[]|e] eqn:Ead; cbn [mbind result_bind].
    2: { exists []. split; [apply prefix_nil|]. split; [by intros _ [a ?]|].
         right; right. by eapply submit_consumers_throw. }
    set (s0 := mkPool _ _ _ _ _ _).
    assert (pool_inv nc inputs s0) as Hi.
    { exists fb, [], 0%nat, (replicate nc (mkConsumer Reading initialize, [])). split; simpl; try done.
      - by rewrite fmap_replicate.
      - by rewrite length_replicate.
      - split; [done|apply posted_count_init].
      - intros _. assert (replicate nc (mkConsumer Reading initialize, @nil Input) ≫=
          (λ g, held g.1 ++ g.2) = []) as -> by (clear; induction nc; done). by rewrite app_nil_r.
      - intros _. apply Forall_replicate. simpl. constructor. }
    destruct (pool_run_spec (S (pool_left s0)) choice nc inputs s0 Hnc Hi) as [Hi' Hd]; [lia|].
    eapply pool_done_outcome; [exact Hnc|exact Hi'|exact Hd].
Qed.
End batches.
End ParallelExecution.
