(* ===== verification/ExecutionSelector.v ===== *)
(** * Choosing how to execute in parallel

    [ParallelExecutionSelector] (solver/utils): with the automatic setting a move
    type alternates the sliding window and the batches over its first calls, in
    rounds of the pattern A B B A, measures how many evaluations per second each
    brings, and then keeps the faster one.

    The file also shows that rounding never turns a nonzero value into zero, so a
    sum of positive durations is positive. *)

From S2P Require Import Prelude Double Precision.
From Stdlib Require Import Floats.SpecFloat.

(** ** Rounding keeps nonzero values *)

Lemma shr_1_half r : 0 ≤ shr_m r → shr_m (shr_1 r) = shr_m r / 2.
Proof.
  destruct r as [m r s]; simpl. intros Hm. rewrite <- Z.div2_div.
  by destruct m as [|[]|[]].
Qed.

Lemma shr_iter p : ∀ r, 0 ≤ shr_m r →
  shr_m (SpecFloat.iter_pos shr_1 p r) = shr_m r / 2 ^ Z.pos p.
Proof.
  assert (∀ q r, 0 ≤ shr_m r → 0 ≤ shr_m (SpecFloat.iter_pos shr_1 q r)) as Hn
    by (intros q r; apply (iter_pos_ind (λ r, 0 ≤ shr_m r)), shr_1_nonneg).
  assert (∀ x, 2 ^ Z.pos x > 0) as Hpos by (intros; apply Z.lt_gt, Z.pow_pos_nonneg; lia).
  induction p as [p IH|p IH|]; intros r Hr; simpl.
  - pose proof (shr_1_nonneg r Hr). rewrite !IH, shr_1_half by auto.
    rewrite !Z.div_div by (pose proof (Hpos p); lia). f_equal.
    rewrite (Pos2Z.inj_xI p), <- Z.pow_add_r by lia.
    rewrite <- (Z.pow_1_r 2) at 1. rewrite <- Z.pow_add_r by lia. f_equal. lia.
  - rewrite !IH by auto. rewrite Z.div_div by (pose proof (Hpos p); lia). f_equal.
    rewrite (Pos2Z.inj_xO p), <- Z.pow_add_r by lia. f_equal. lia.
  - by rewrite shr_1_half.
Qed.

Lemma shr_fexp_positive m e l : 0 < m → minexp ≤ e →
  0 < shr_m (shr_fexp prec emax m e l).1 ∧ minexp ≤ (shr_fexp prec emax m e l).2.
Proof.
  intros Hm He. destruct m as [|m|m]; [lia| |lia]. unfold shr_fexp, shr.
  assert (shr_m (shr_record_of_loc (Z.pos m) l) = Z.pos m) as Er by (by destruct l as [|[]]).
  destruct (fexp prec emax (Zdigits2 (Z.pos m) + e) - e) as [|p|p] eqn:Ep; simpl; [lia| |lia].
  split; [|lia]. rewrite shr_iter, Er by lia. apply Z.div_str_pos. split; [lia|].
  pose proof (digits2_pos_bounds m) as [Hl _]. unfold fexp, emin in Ep. simpl Zdigits2 in Ep.
  etrans; [|exact Hl]. apply Z.pow_le_mono_r; lia.
Qed.

(** The exponents of doubles are at least [minexp]. *)
Definition above (x : double) : Prop :=
  match x with S754_finite _ _ e => minexp ≤ e | _ => True end.

Lemma binary_round_aux_nonzero s m e l : 0 < m → minexp ≤ e →
  above (binary_round_aux prec emax s m e l) ∧
  ∀ s', binary_round_aux prec emax s m e l ≠ S754_zero s'.
Proof.
  intros Hm He. unfold binary_round_aux.
  destruct (shr_fexp_positive m e l Hm He) as [H1 H2].
  destruct (shr_fexp prec emax m e l) as [r1 e1]; simpl in H1, H2.
  set (n := round_nearest_even _ _).
  assert (0 < n) as Hn.
  { unfold n, round_nearest_even. destruct (loc_of_shr_record r1) as [|[]]; [|destruct (Z.even _)|..]; lia. }
  destruct (shr_fexp_positive n e1 loc_Exact Hn H2) as [H3 H4].
  destruct (shr_fexp prec emax n e1 loc_Exact) as [r2 e2]; simpl in H3, H4.
  destruct (shr_m r2); [lia| |done]. by destruct (e2 <=? _).
Qed.

Lemma binary_round_nonzero s m e : minexp ≤ e →
  above (binary_round prec emax s m e) ∧ ∀ s', binary_round prec emax s m e ≠ S754_zero s'.
Proof.
  intros He. unfold binary_round, shl_align.
  set (f := fexp prec emax (Z.pos (digits2_pos m) + e)).
  assert (minexp ≤ f) by (unfold f, fexp, emin; lia).
  destruct (f - e); apply binary_round_aux_nonzero; lia.
Qed.

(** Not at most zero: what the source tests. *)
Definition positive (x : double) : Prop := (x <=? d0)%D = false.

(** A sum of two values that are not at most zero is not at most zero. *)
Lemma add_positive x y :
  above x → above y → positive x → positive y → above (x + y)%D ∧ positive (x + y)%D.
Proof.
  unfold positive. intros Ax Ay Hx Hy.
  destruct x as [[]|[]| |[] m1 e1], y as [[]|[]| |[] m2 e2]; try done.
  simpl in Ax, Ay. unfold dadd, SFadd. simpl cond_Zopp.
  set (ez := Z.min e1 e2). assert (minexp ≤ ez) by lia.
  destruct (binary_round_nonzero false ((shl_align m1 e1 ez).1 + (shl_align m2 e2 ez).1) ez) as [Ha Hz];
    [done|].
  pose proof (binary_round_sign false ((shl_align m1 e1 ez).1 + (shl_align m2 e2 ez).1) ez) as Hs.
  simpl binary_normalize. split; [done|].
  destruct (binary_round _ _ _ _ _) as [s|[]| |[]]; try done. by destruct (Hz s).
Qed.

Lemma add_zero x : positive x → (d0 + x)%D = x.
Proof. unfold positive. by destruct x as [[]|[]| |[]]. Qed.

(** ** The selector *)
Module ParallelExecutionSelector.

Inductive Strategy := SlidingWindow | Batching.

#[export] Instance strategy_eq_dec : EqDecision Strategy.
Proof. solve_decision. Defined.

Record Observation := { evaluations : Z; durationSecs : double }.

Record BatchingExecutionOptions := { batchSize : Z; maxConcurrency : option Z }.

(** [interface::BatchingExecutionConfig] and [interface::ParallelExecutionConfig] *)
Record BatchingExecutionConfig := { cfg_batchSize : Z; cfg_maxConcurrency : Z }.
Inductive ParallelExecutionConfig :=
  | slidingWindow
  | batching (c : BatchingExecutionConfig)
  | autoExecution (c : BatchingExecutionConfig)
  | EMPTY.

Record Measurements := mkMeasurements { m_evaluations : Z; m_durationSecs : double }.

Record Experiment := mkExperiment {
  samples : Z;
  ex_slidingWindow : Measurements;
  ex_batching : Measurements
}.

Record t := mk {
  strategy_ : Strategy;
  batchingOptions_ : BatchingExecutionOptions;
  experiment_ : option Experiment;
  ownerThread_ : Z
}.

Definition kDefaultBatchSize : Z := 32.
Definition kAbbaRound : list Strategy := [SlidingWindow; Batching; Batching; SlidingWindow].
Definition kExperimentRounds : Z := 6.
Definition kExperimentSamples : Z := kExperimentRounds * Z.of_nat (length kAbbaRound).

(** [static_cast<size_t>] *)
Definition makeBatchingOptions (c : BatchingExecutionConfig) : BatchingExecutionOptions := {|
  batchSize := if negb (cfg_batchSize c =? 0) then u64 (cfg_batchSize c) else kDefaultBatchSize;
  maxConcurrency := if 0 <? cfg_maxConcurrency c then Some (u64 (cfg_maxConcurrency c)) else None |}.

Definition no_measurements : Measurements := mkMeasurements 0 d0.

(** The constructor, called by the thread [self]. *)
Definition make (config : option ParallelExecutionConfig) (self : Z) : result t :=
  let none := {| batchSize := kDefaultBatchSize; maxConcurrency := None |} in
  match config with
  | None | Some slidingWindow => Ok (mk SlidingWindow none None self)
  | Some (batching c) => Ok (mk Batching (makeBatchingOptions c) None self)
  | Some (autoExecution c) =>
      Ok (mk SlidingWindow (makeBatchingOptions c)
            (Some (mkExperiment 0 no_measurements no_measurements)) self)
  | Some EMPTY => Throw (invalid_argument "Parallel execution config cannot be empty")
  end.

Definition isExploring (s : t) : bool := bool_decide (is_Some (experiment_ s)).

Definition evaluationsPerSecond (m : Measurements) : result double :=
  if (m_evaluations m <=? 0) || (m_durationSecs m <=? d0)%D
  then Throw (logic_error "AUTO parallel execution compared an unmeasured strategy")
  else Ok (dofZ (m_evaluations m) / m_durationSecs m)%D.

Definition measurements (e : Experiment) (s : Strategy) : Measurements :=
  match s with SlidingWindow => ex_slidingWindow e | Batching => ex_batching e end.

Definition set_measurements (e : Experiment) (s : Strategy) (m : Measurements) : Experiment :=
  match s with
  | SlidingWindow => mkExperiment (samples e) m (ex_batching e)
  | Batching => mkExperiment (samples e) (ex_slidingWindow e) m
  end.

(** Signed addition of [int64_t]. *)
Definition add_i64 (x y : Z) : result Z :=
  if (- 2 ^ 63 <=? x + y) && (x + y <? 2 ^ 63) then Ok (x + y)
  else Throw (undefined_behaviour "signed overflow").

Definition measure (m : Measurements) (o : Observation) : result Measurements :=
  n ← add_i64 (m_evaluations m) (evaluations o);
  Ok (mkMeasurements n (m_durationSecs m + durationSecs o)%D).

(** Whether [record] takes an observation into account. *)
Definition counted (o : Observation) : bool :=
  negb ((evaluations o <=? 0) || (durationSecs o <=? d0)%D).

Definition record (self : Z) (s : t) (o : Observation) : result t :=
  if negb (self =? ownerThread_ s)
  then Throw (logic_error "AUTO parallel execution recorded off the thread that built the selector")
  else match experiment_ s with
  | None => Ok s
  | Some e =>
      if negb (counted o) then Ok s
      else
        m ← measure (measurements e (strategy_ s)) o;
        let e1 := set_measurements e (strategy_ s) m in
        let e2 := mkExperiment (samples e1 + 1) (ex_slidingWindow e1) (ex_batching e1) in
        if samples e2 <? kExperimentSamples
        then
          next ← at_ (kAbbaRound !! Z.to_nat (samples e2 `mod` Z.of_nat (length kAbbaRound)));
          Ok (mk next (batchingOptions_ s) (Some e2) (ownerThread_ s))
        else
          slidingWindowPerSecond ← evaluationsPerSecond (ex_slidingWindow e2);
          batchingPerSecond ← evaluationsPerSecond (ex_batching e2);
          Ok (mk (if (slidingWindowPerSecond <? batchingPerSecond)%D then Batching else SlidingWindow)
                (batchingOptions_ s) None (ownerThread_ s))
  end.

(** ** The experiment *)

(** The strategy of the [i]-th counted call. *)
Definition abba (i : nat) : Strategy :=
  default SlidingWindow (kAbbaRound !! (i mod 4)%nat).

(** The measurements of a strategy over the counted calls [l]. *)
Definition total (s : Strategy) (l : list Observation) : Measurements :=
  (foldl (λ '(i, m) o,
     (S i, if decide (abba i = s)
           then mkMeasurements (m_evaluations m + evaluations o) (m_durationSecs m + durationSecs o)%D
           else m)) (0%nat, no_measurements) l).2.

Lemma total_snoc s l o :
  total s (l ++ [o]) =
    if decide (abba (length l) = s)
    then mkMeasurements (m_evaluations (total s l) + evaluations o)
           (m_durationSecs (total s l) + durationSecs o)%D
    else total s l.
Proof.
  unfold total. rewrite foldl_app. simpl.
  assert (∀ l i m, (foldl (λ '(i, m) o,
     (S i, if decide (abba i = s)
           then mkMeasurements (m_evaluations m + evaluations o) (m_durationSecs m + durationSecs o)%D
           else m)) (i, m) l).1 = (i + length l)%nat) as Hi.
  { clear l o. induction l as [|o l IH]; intros i m; simpl; [lia|]. rewrite IH. lia. }
  specialize (Hi l 0%nat no_measurements). destruct (foldl _ _ l) as [i m]. simpl in Hi. by subst.
Qed.

(** A plausible observation: a call evaluates fewer than [2^58] candidates. *)
Definition plausible (o : Observation) : Prop :=
  evaluations o < 2 ^ 58 ∧ above (durationSecs o).

Lemma counted_spec o : counted o = true ↔ 0 < evaluations o ∧ positive (durationSecs o).
Proof.
  unfold counted, positive. rewrite negb_true_iff, orb_false_iff, Z.leb_gt. done.
Qed.

Lemma total_spec s l :
  Forall (λ o, plausible o ∧ counted o = true) l →
  0 ≤ m_evaluations (total s l) ≤ Z.of_nat (length l) * 2 ^ 58 ∧
  (total s l = no_measurements ∨
   (0 < m_evaluations (total s l) ∧ above (m_durationSecs (total s l)) ∧
    positive (m_durationSecs (total s l)))) ∧
  (∀ i, (i < length l)%nat → abba i = s → 0 < m_evaluations (total s l)).
Proof.
  induction l as [|o l IH] using rev_ind; intros Hl.
  - split; [simpl; lia|]. split; [by left|]. simpl. lia.
  - apply Forall_app in Hl as [Hl [[Hp Hc] _]%Forall_cons].
    destruct (IH Hl) as (Hb & Hm & Hpos). destruct Hp as [Hp1 Hp2].
    apply counted_spec in Hc as [Hc1 Hc2]. rewrite total_snoc, length_app; simpl.
    destruct (decide (abba (length l) = s)) as [E|E]; simpl.
    + split; [lia|]. split; [right|intros; lia]. split; [lia|].
      destruct Hm as [->|(_ & Ha & Hpo)]; [|by apply add_positive].
      change (m_durationSecs no_measurements) with d0. by rewrite add_zero.
    + split; [lia|]. split; [done|]. intros i Hi Es. apply (Hpos i); [|done].
      destruct (decide (i = length l)) as [->|]; [done|lia].
Qed.

Lemma abba_lookup i : kAbbaRound !! (i mod 4)%nat = Some (abba i).
Proof.
  unfold abba. pose proof (Nat.mod_upper_bound i 4 ltac:(lia)).
  destruct (i mod 4)%nat as [|[|[|[|n]]]]; [done..|lia].
Qed.

(** The selector after the counted calls [l]. *)
Definition after (s0 : t) (l : list Observation) : t :=
  if (length l <? 24)%nat
  then mk (abba (length l)) (batchingOptions_ s0)
         (Some (mkExperiment (Z.of_nat (length l)) (total SlidingWindow l) (total Batching l)))
         (ownerThread_ s0)
  else
    let first := take 24 l in
    let perSecond m := (dofZ (m_evaluations m) / m_durationSecs m)%D in
    mk (if (perSecond (total SlidingWindow first) <? perSecond (total Batching first))%D
        then Batching else SlidingWindow)
       (batchingOptions_ s0) None (ownerThread_ s0).

Lemma record_exploring s0 l o :
  (length l < 24)%nat → Forall (λ o, plausible o ∧ counted o = true) (l ++ [o]) →
  record (ownerThread_ s0) (after s0 l) o = Ok (after s0 (l ++ [o])).
Proof.
  intros Hl Hall. pose proof Hall as [Hl' [[Hp Hc] _]%Forall_cons]%Forall_app.
  unfold after at 1. rewrite (proj2 (Nat.ltb_lt _ _)) by done.
  unfold record; simpl. rewrite Z.eqb_refl, Hc. simpl.
  set (s := abba (length l)). set (e := mkExperiment _ _ _).
  assert (∀ s', measurements e s' = total s' l) as Em by (by intros []).
  destruct (total_spec s l Hl') as (Hb & _). destruct Hp as [Hp1 Hp2].
  pose proof Hc as [Hc1 Hc2]%counted_spec.
  assert (measure (measurements e s) o = Ok (total s (l ++ [o]))) as ->.
  { unfold measure. rewrite Em, total_snoc, decide_True by done. unfold add_i64.
    rewrite (proj2 (Z.leb_le _ _)), (proj2 (Z.ltb_lt _ _)) by lia. done. }
  cbn [mbind result_bind].
  assert (∀ s', measurements (set_measurements e s (total s (l ++ [o]))) s' = total s' (l ++ [o])) as Es.
  { intros s'. destruct (decide (s' = s)) as [->|Hne]; [by destruct s|].
    rewrite (total_snoc s'), decide_False by (fold s; congruence). by destruct s, s'. }
  assert (samples (set_measurements e s (total s (l ++ [o]))) = Z.of_nat (length l)) as -> by (by destruct s).
  pose proof (Es SlidingWindow) as E1. pose proof (Es Batching) as E2. simpl in E1, E2.
  rewrite E1, E2. cbn [samples ex_slidingWindow ex_batching]. clearbody e s. clear Em Es E1 E2.
  unfold after. rewrite length_app. simpl length. change kExperimentSamples with 24.
  destruct (Nat.ltb_spec (length l + 1) 24) as [Hlt|Hge].
  - rewrite (proj2 (Z.ltb_lt _ _)) by lia.
    replace (Z.to_nat (_ `mod` _)) with ((length l + 1) mod 4)%nat.
    + rewrite abba_lookup. simpl. do 3 f_equal. f_equal. lia.
    + change (Z.of_nat (length kAbbaRound)) with (Z.of_nat 4).
      replace (Z.of_nat (length l) + 1) with (Z.of_nat (length l + 1)) by lia.
      by rewrite <- Nat2Z.inj_mod, Nat2Z.id.
  - rewrite (proj2 (Z.ltb_ge _ _)) by lia.
    rewrite take_ge by (rewrite length_app; simpl; lia).
    assert (∀ s' i, (i < 24)%nat → abba i = s' →
      evaluationsPerSecond (total s' (l ++ [o])) =
        Ok (dofZ (m_evaluations (total s' (l ++ [o]))) / m_durationSecs (total s' (l ++ [o])))%D) as Hper.
    { intros s' i Hi Ei. destruct (total_spec s' (l ++ [o]) Hall) as (_ & Hm & Hpos).
      rewrite length_app in Hpos; simpl in Hpos. specialize (Hpos i ltac:(lia) Ei).
      unfold evaluationsPerSecond. rewrite (proj2 (Z.leb_gt _ _)) by done.
      destruct Hm as [Hz|(_ & _ & Hd)]; [rewrite Hz in Hpos; simpl in Hpos; lia|].
      unfold positive in Hd. by rewrite Hd. }
    rewrite (Hper SlidingWindow 0%nat), (Hper Batching 1%nat) by (done || lia). done.
Qed.

Lemma record_locked s0 l o :
  (24 ≤ length l)%nat → record (ownerThread_ s0) (after s0 l) o = Ok (after s0 (l ++ [o])).
Proof.
  intros Hl. unfold after. rewrite length_app; simpl.
  rewrite !(proj2 (Nat.ltb_ge _ _)) by lia. unfold record; simpl. rewrite Z.eqb_refl. simpl.
  by rewrite take_app_le.
Qed.

(** Calls that are not counted change nothing. *)
Lemma record_ignored self s o :
  self = ownerThread_ s → counted o = false → record self s o = Ok s.
Proof.
  intros -> Hc. unfold record. rewrite Z.eqb_refl, Hc. simpl. by destruct (experiment_ s).
Qed.

Lemma record_all c self obs : ∀ s0,
  make (Some (autoExecution c)) self = Ok s0 → Forall plausible obs →
  foldM (record self) s0 obs = Ok (after s0 (filter (λ o, counted o = true) obs)).
Proof.
  intros s0 E. assert (self = ownerThread_ s0) as Hself by (by injection E as <-).
  assert (s0 = after s0 []) as H0 by (by injection E as <-).
  induction obs as [|o obs IH] using rev_ind; intros Hobs; [by rewrite H0 at 1|].
  apply Forall_app in Hobs as [Hobs [Hp _]%Forall_cons].
  rewrite foldM_app, (IH Hobs), filter_app, filter_cons, filter_nil. cbn [mbind result_bind foldM].
  set (l := filter _ obs) in *.
  assert (∀ s, record self (after s0 l) o = Ok s → (s' ← record self (after s0 l) o; Ok s') = Ok s) as Hret
    by (by intros s ->).
  destruct (counted o) eqn:Ec.
  - rewrite decide_True by done. apply Hret. rewrite Hself.
    destruct (decide (length l < 24)%nat); [|apply record_locked; lia].
    apply record_exploring; [done|]. apply Forall_app. split; [|by constructor].
    apply Forall_forall. intros o' [Hc Hin]%list_elem_of_filter. split; [|done].
    rewrite Forall_forall in Hobs. by apply Hobs.
  - rewrite decide_False by done. rewrite app_nil_r. apply Hret, record_ignored; [|done].
    rewrite Hself. unfold after. by destruct (_ <? _)%nat.
Qed.
End ParallelExecutionSelector.
