(* ===== verification/MoveHelper.v ===== *)
(** * Finding the best of many candidates

    [MoveHelper] (solver/moves): the candidates of a move type are evaluated in
    parallel under a time limit and the best result is kept.  The file also holds
    what every move type relies on: the results of evaluating legal move sets can
    be merged in any order, and the merged result is again the result of a legal
    move set or nothing ([sound_result]). *)

From S2P Require Import Prelude Double Precision ObjectiveValue ChangeSet ObjectStore.
From S2P Require Import Assignment EntityAttributes Objective Problem Moves LocalSearch.
From S2P Require Import EquivalenceSets Bits Parallel SingleMove.
From S2P Require Import Iterators ParallelExecution ExecutionSelector.

(** What one call of [findBest] meets: the size of the thread pool, the strategy
    of the selector, the scheduler, the readings of the timer and the tasks the pool
    refuses. *)
Record Executor := mkExecutor {
  x_numThreads : nat;
  x_strategy : ParallelExecutionSelector.Strategy;
  x_options : ParallelExecutionSelector.BatchingExecutionOptions;
  x_choice : nat → nat;
  x_seconds : nat → double;
  x_add : nat → option exn
}.

(** Options [executeParallelBatch] does not refuse. *)
Definition executor_ok (x : Executor) : Prop :=
  0 < ParallelExecutionSelector.batchSize (x_options x) ∧
  (∀ m, ParallelExecutionSelector.maxConcurrency (x_options x) = Some m → 0 < m).

(** The pool takes every task of the call. *)
Definition executor_accepts (x : Executor) : Prop := ∀ n, x_add x n = None.

Definition executor_runs (x : Executor) : Prop := executor_ok x ∧ executor_accepts x.

Module MoveHelper.

(** [++it] of a [Timeout] at its [n]-th reading, and [begin()]. *)
Definition timeout_next {X} (timeout : double) (seconds : nat → double) (n : nat) (l : list X) : list X :=
  Timeout.current_ (Timeout.step timeout seconds (Timeout.mk l n)).

Definition timeout_begin {X} (timeout : double) (seconds : nat → double) (l : list X) (n : nat) : list X :=
  Timeout.current_ (Timeout.begin timeout seconds l n).

Definition kQueueCapacity : nat := Z.to_nat 4096.

Section execute.
Context {X O Acc : Type}.
Context (process : X → result O) (initialize : Acc).
Context (aggregate : Acc → O → result Acc) (merge : Acc → Acc → result Acc).

Definition execute (x : Executor) (inputs : list X) (timeout : double) : result Acc :=
  let seconds := x_seconds x in
  match x_strategy x with
  | ParallelExecutionSelector.SlidingWindow =>
      ParallelExecution.executeParallelWindow process initialize aggregate
        (timeout_next timeout seconds) (x_add x) (x_choice x) 1 (timeout_begin timeout seconds inputs 0)
        (10 + Z.of_nat (x_numThreads x))
  | ParallelExecutionSelector.Batching =>
      ParallelExecution.executeParallelBatch process initialize aggregate merge
        (timeout_next timeout seconds) (x_add x)
        (Z.to_nat (ParallelExecutionSelector.batchSize (x_options x))) kQueueCapacity
        (x_choice x) (timeout_begin timeout seconds inputs) (x_numThreads x)
        (Z.to_nat <$> ParallelExecutionSelector.maxConcurrency (x_options x))
  end.

Abbreviation merged := (ParallelExecution.merged process initialize aggregate merge).
Abbreviation in_time timeout seconds :=
  (∀ n, (seconds n <? timeout)%D = true ∧ (timeout <=? seconds n)%D = false).

Lemma timeout_cut timeout seconds n (x : X) l :
  timeout_next timeout seconds n (x :: l) = l ∨ timeout_next timeout seconds n (x :: l) = [].
Proof. unfold timeout_next; simpl. destruct (_ <? _)%D; auto. Qed.

Lemma timeout_start timeout seconds (l : list X) n :
  timeout_begin timeout seconds l n = l ∨ timeout_begin timeout seconds l n = [].
Proof. unfold timeout_begin; simpl. destruct (_ <=? _)%D; auto. Qed.

(** Whatever the strategy, the scheduler and the timer do: if every step keeps
    [P] without throwing, the call returns a value with [P] that merges the
    results of a prefix of the inputs, and of all of them if the time suffices,
    unless the pool refuses a task. *)
Lemma execute_total (P : Acc → Prop) x inputs timeout :
  executor_ok x → P initialize →
  (∀ i a, i ∈ inputs → P a → ∃ a', ParallelExecution.handle process aggregate a i = Ok a' ∧ P a') →
  (∀ a1 a2, P a1 → P a2 → ∃ a, merge a1 a2 = Ok a ∧ P a) →
  (∃ e n, execute x inputs timeout = Throw e ∧ x_add x n = Some e) ∨
  ∃ acc started, execute x inputs timeout = Ok acc ∧ P acc ∧ merged started acc ∧
    started `prefix_of` inputs ∧ (in_time timeout (x_seconds x) → started = inputs).
Proof.
  intros [Hbs Hmc] H0 Hh Hg. unfold execute.
  set (adv := timeout_next timeout (x_seconds x)). set (beg := timeout_begin timeout (x_seconds x) inputs).
  assert (∀ n i l, adv n (i :: l) = l ∨ adv n (i :: l) = []) as Hcut by apply timeout_cut.
  assert (∀ n, beg n = inputs ∨ beg n = []) as Hbeg by apply timeout_start.
  assert (in_time timeout (x_seconds x) → ∀ n, beg n = inputs) as Hbt.
  { intros Ht n. unfold beg, timeout_begin; simpl. by rewrite (proj2 (Ht n)). }
  assert (in_time timeout (x_seconds x) → ∀ n i l, adv n (i :: l) = l) as Hat.
  { intros Ht n i l. unfold adv, timeout_next; simpl. by rewrite (proj1 (Ht n)). }
  clearbody beg. clearbody adv. destruct (x_strategy x).
  - destruct (Hbeg 0%nat) as [E|E]; rewrite E.
    + apply (ParallelExecution.outcome_total process initialize aggregate merge (x_add x)); [|done..].
      apply ParallelExecution.executeParallelWindow_outcome; [done|done|lia].
    + right. exists initialize, [].
      split; [|split; [done|split; [constructor|split; [apply prefix_nil|]]]].
      * unfold ParallelExecution.executeParallelWindow. rewrite (proj2 (Z.eqb_neq _ _)) by lia.
        destruct (Z.to_nat _) as [|n]; done.
      * intros Ht. by rewrite <- (Hbt Ht 0%nat).
  - apply (ParallelExecution.outcome_total process initialize aggregate merge (x_add x)); [|done..].
    apply ParallelExecution.executeParallelBatch_outcome;
      [done|done|lia|unfold kQueueCapacity; lia| |auto|auto|auto].
    destruct (ParallelExecutionSelector.maxConcurrency (x_options x)) as [m|]; [|done].
    specialize (Hmc m eq_refl). simpl. intros [= Hz]. lia.
Qed.
End execute.

Section helper.
Context `{G : ExpressionGraph} `{HO : HashOrder} {A : Type} `{EA : EntityAttributes A}.
Context (hash : Z → Z → Z → Z).

Definition findBest {X} (x : Executor) (inputs : list X) (evaluate : X → result MoveResult.t)
    (timeout : double) : result MoveResult.t :=
  execute evaluate MoveResult.makeEmpty MoveResult.aggregate MoveResult.aggregate x inputs timeout.

(** While the selector explores, the inputs are counted alongside. *)
Record CountedResult := mkCounted { counted_result : MoveResult.t; counted_inputs : Z }.

Definition AggregateCounted (acc : CountedResult) (r : MoveResult.t) : result CountedResult :=
  r' ← MoveResult.aggregate (counted_result acc) r;
  Ok (mkCounted r' (counted_inputs acc + 1)).

Definition MergeCounted (acc other : CountedResult) : result CountedResult :=
  r' ← MoveResult.aggregate (counted_result acc) (counted_result other);
  Ok (mkCounted r' (counted_inputs acc + counted_inputs other)).

Definition fitsInOneBatch (inputs : Z) (o : ParallelExecutionSelector.BatchingExecutionOptions) : bool :=
  inputs <=? ParallelExecutionSelector.batchSize o.

(** [findBest] with its selector: [self] is the calling thread, [durationSecs] the
    time the call took. *)
Definition findBestSelecting {X} (self : Z) (selector : ParallelExecutionSelector.t)
    (numThreads : nat) (choice : nat → nat) (seconds : nat → double) (add : nat → option exn)
    (durationSecs : double) (inputs : list X) (evaluate : X → result MoveResult.t) (timeout : double)
    : result (MoveResult.t * ParallelExecutionSelector.t) :=
  let x := mkExecutor numThreads (ParallelExecutionSelector.strategy_ selector)
             (ParallelExecutionSelector.batchingOptions_ selector) choice seconds add in
  if negb (ParallelExecutionSelector.isExploring selector)
  then r ← findBest x inputs evaluate timeout; Ok (r, selector)
  else
    counted ← execute evaluate (mkCounted MoveResult.makeEmpty 0) AggregateCounted MergeCounted
                x inputs timeout;
    if negb (fitsInOneBatch (counted_inputs counted)
               (ParallelExecutionSelector.batchingOptions_ selector))
    then
      selector' ← ParallelExecutionSelector.record self selector
                    {| ParallelExecutionSelector.evaluations :=
                         MoveResult.evalsCount_ (counted_result counted);
                       ParallelExecutionSelector.durationSecs := durationSecs |};
      Ok (counted_result counted, selector')
    else Ok (counted_result counted, selector).

(** A filter whose predicate may throw. *)
Fixpoint filterM {X} (f : X → result bool) (l : list X) : result (list X) :=
  match l with
  | [] => Ok []
  | a :: l => b ← f a; r ← filterM f l; Ok (if (b : bool) then a :: r else r)
  end.

Lemma filterM_ok {X} (f : X → result bool) (l : list X) :
  (∀ a, a ∈ l → ∃ b, f a = Ok b) →
  ∃ r, filterM f l = Ok r ∧ ∀ a, a ∈ r ↔ a ∈ l ∧ f a = Ok true.
Proof.
  induction l as [|a l IH]; intros Hf; simpl; [exists []; set_solver|].
  destruct (Hf a) as [b Eb]; [set_solver|]. destruct IH as (r & -> & Hr); [set_solver|].
  rewrite Eb. cbn [mbind result_bind]. eexists. split; [done|]. intros c.
  destruct b; rewrite ?elem_of_cons, Hr; split.
  - intros [->|[? ?]]; auto.
  - intros [[->|?] ?]; auto.
  - intros [? ?]; auto.
  - intros [[->|?] ?]; [congruence|auto].
Qed.

Definition findBestMove (env : SingleMoveEnv) (ev : MovesEvaluator.t) (p : Problem.t A) (x : Executor)
    (hotContainer hotObject : Z) (coldContainers : list Z) (timeout : double)
    : result MoveResult.t :=
  filteredContainers ← filterM (λ container,
      if container =? hotContainer then Ok false
      else if bool_decide (container ∈ not_accepting_containers env) then Ok false
      else invalid ← InvalidMoveFilter.isMoveInvalid (invalidMoveFilter env) hotObject container;
           Ok (negb invalid)) coldContainers;
  findBest x filteredContainers
    (λ coldContainer, MovesEvaluator.evaluate ev p [makeMove hash hotObject hotContainer coldContainer])
    timeout.

(** ** Sound results *)
Section sound.
Context `{LG : !LawfulGraph G} `{EG : !EvaluableGraph G} `{SE : !SearchEnv A}.
Context (p0 : Problem.t A) (ps : LocalSearch.Params) (env : SingleMoveEnv) (f : Z → Z).
Abbreviation goal := (LocalSearchObjective.combinedObjective
  (MovesEvaluator.minimizingGoal (LocalSearch.evaluator ps))).
Abbreviation ev := (LocalSearch.evaluator ps).

(** The surroundings of the move types fit the problem; the values of the goal
    are finite after any legal move set. *)
Record usable : Prop := {
  um_containers c : c ∈ all_containers env ↔ c ∈ LocalSearch.containers ps;
  um_equivalence o : o ∈ dom (Assignment.objectToContainer (Problem.assignment p0)) →
    equivalence env o = Ok (f o);
  um_filter flt : invalidMoveFilter env = Some flt → InvalidMoveFilter.inv flt ∧
    ∀ o c, o ∈ dom (Assignment.objectToContainer (Problem.assignment p0)) →
      c ∈ all_containers env → InvalidMoveFilter.in_range flt o c;
  um_threads m : numThreads env = Some m → (1 < m)%nat;
  um_schedule call b : schedule env call b ≡ₚ seq 0 b;
  um_stats : SingleMoveType.stats_ok (LocalSearch.evaluator ps) p0;
  um_current e m : e ∈ goal → fin (denote e m);
  um_new e v g m ms : e ∈ goal → graph_inv g m → NoDup (move_object <$> ms) →
    (∀ mv, mv ∈ ms → m !! move_object mv = Some (srcContainer mv)) →
    expr_evaluate g (MoveSet_getChangeSet ms) e = Ok v → fin v
}.

Section state.
Context (Hu : usable) (p : Problem.t A) (Hw : Problem.wf p) (Hrun : LocalSearch.same_run p0 p).
Abbreviation olds := (expr_value (Problem.graph p) <$> goal).
Abbreviation pen := (LocalSearchObjective.hasPenalty (MovesEvaluator.minimizingGoal ev)).
Abbreviation place := (Assignment.objectToContainer (Problem.assignment p)).
Abbreviation values r :=
  (GlobalObjectiveValue.values (LocalSearchObjectiveValue.combinedValue (MoveResult.newValue_ r))).

(** A candidate: moves of distinct objects from where they are to containers of
    the problem. *)
Definition candidate (ms : list Move) : Prop :=
  Problem.legal hash p ms ∧ ∀ m, m ∈ ms → dstContainer m ∈ LocalSearch.containers ps.

(** What is known of a result: it can be merged and compared, and if it is valid
    it is that of a candidate, against the current value. *)
Record sound_result (r : MoveResult.t) : Prop := {
  sr_comparable : MoveResult.comparable (SingleMoveType.outcomes ev p) (length olds) pen r;
  sr_arbiter : MoveResult.arbiter_comparable (SingleMoveType.arbiter_size ev) r;
  sr_better : ∃ b, MoveResult.isBetter r (Problem.precision p) = Ok b;
  sr_valid : MoveResult.valid_ r = true →
    candidate (MoveResult.moveSet_ r) ∧
    MoveResult.oldValue_ r =
      LocalSearchObjective.getValue (Problem.graph p) (MovesEvaluator.minimizingGoal ev)
}.

Lemma current_fin : Forall fin olds.
Proof.
  apply Forall_fmap, Forall_forall. intros e He. simpl.
  rewrite (graph_inv_value _ _ _ (Problem.wf_graph p Hw)). by apply (um_current Hu).
Qed.

Lemma family_prefix_free l1 l2 :
  SingleMoveType.outcomes ev p l1 → SingleMoveType.outcomes ev p l2 →
  GlobalObjectiveValue.agree l1 l2 → length l1 = length l2.
Proof. apply SingleMoveType.outcomes_prefix_free, current_fin. Qed.

Lemma sound_empty : sound_result MoveResult.makeEmpty.
Proof.
  split; [split; [constructor|by left]|by intros a [=]|by exists false|done].
Qed.

(** Evaluating a candidate never throws. *)
Lemma sound_evaluate ms : candidate ms →
  ∃ r, MovesEvaluator.evaluate ev p ms = Ok r ∧ sound_result r.
Proof.
  intros [Hl Hd].
  destruct (SingleMoveType.evaluate_total hash ev p ms Hw Hl) as (r & Er & Hc & Ha & Hb).
  - destruct Hrun as [C _]. eapply SingleMoveType.stats_ok_config; [exact C|apply Hu].
  - intros e v He Hev. eapply (um_new Hu); [exact He|apply Hw|apply Hl|apply Hl|exact Hev].
  - exists r. split; [done|]. split; [done|done|done|]. intros Hv.
    pose proof (MovesEvaluator.evaluate_spec hash _ _ _ _ Er) as Hs. rewrite Hv in Hs.
    destruct Hs as [_ _ _ Sm So _]. rewrite Sm, So. done.
Qed.

Lemma sound_take_best r n : sound_result r → sound_result (MoveResult.take_best r r n).
Proof. intros [H1 H2 H3 H4]. by split. Qed.

(** The better of two results is one of them, up to the number of evaluations. *)
Lemma sound_aggregate r o : sound_result r → sound_result o →
  ∃ r', MoveResult.aggregate r o = Ok r' ∧ sound_result r' ∧
    (∃ x, (x = r ∨ x = o) ∧ r' = MoveResult.take_best x x (MoveResult.evalsCount_ r')) ∧
    ¬ MoveResult.lt (values r) (values r') ∧ ¬ MoveResult.lt (values o) (values r').
Proof.
  intros Hr Ho.
  destruct (MoveResult.aggregate_spec (SingleMoveType.outcomes ev p) (length olds) pen
    (SingleMoveType.arbiter_size ev) r o) as (r' & E & (x & Hx & ->) & _ & _ & H1 & H2); [apply Hr|apply Ho|apply Hr|apply Ho|].
  eexists. split; [exact E|]. split; [|split; [|done]].
  - change (MoveResult.take_best r x (MoveResult.evalsCount_ r + MoveResult.evalsCount_ o))
      with (MoveResult.take_best x x (MoveResult.evalsCount_ r + MoveResult.evalsCount_ o)).
    apply sound_take_best. by destruct Hx as [-> | ->].
  - by exists x.
Qed.

(** The promise of a move type follows from the soundness of its result. *)
Lemma sound_promise r : sound_result r →
  ∃ b, MoveResult.isBetter r (Problem.precision p) = Ok b ∧
    (b = true →
       Problem.legal hash p (MoveResult.moveSet_ r) ∧
       (∀ m, m ∈ MoveResult.moveSet_ r → dstContainer m ∈ LocalSearch.containers ps) ∧
       MoveResult.oldValue_ r =
         LocalSearchObjective.getValue (Problem.graph p) (MovesEvaluator.minimizingGoal ev)).
Proof.
  intros [_ _ [b Eb] Hv]. exists b. split; [done|]. intros ->.
  assert (MoveResult.valid_ r = true) as Hr.
  { unfold MoveResult.isBetter in Eb. by destruct (MoveResult.valid_ r). }
  destruct (Hv Hr) as [[H1 H2] H3]. done.
Qed.

(** *** The best of a list of results *)
Record best_of (rs : list MoveResult.t) (r : MoveResult.t) : Prop := {
  bo_sound : sound_result r;
  bo_chosen : SingleMoveType.chosen rs r;
  bo_best o : o ∈ rs → ¬ MoveResult.lt (values o) (values r);
  bo_all : Forall sound_result rs
}.

Lemma not_lt_trans a b c :
  sound_result a → sound_result b → ¬ MoveResult.lt (values a) (values b) →
  ¬ MoveResult.lt (values b) (values c) → ¬ MoveResult.lt (values a) (values c).
Proof.
  intros Ha Hb H1 H2 Hl.
  eapply (MoveResult.lt_cotrans _ family_prefix_free _ (values b)) in Hl as [?|?]; [done|done| |];
    eapply MoveResult.comparable_family; [apply Ha|apply Hb].
Qed.

Lemma best_of_nil : best_of [] MoveResult.makeEmpty.
Proof.
  split; [apply sound_empty|exists MoveResult.makeEmpty; auto|set_solver|done].
Qed.

Lemma best_of_merge rs1 rs2 r1 r2 : best_of rs1 r1 → best_of rs2 r2 →
  ∃ r, MoveResult.aggregate r1 r2 = Ok r ∧ best_of (rs1 ++ rs2) r.
Proof.
  intros [S1 (x1 & C1 & E1) B1 A1] [S2 (x2 & C2 & E2) B2 A2].
  destruct (sound_aggregate r1 r2 S1 S2) as (r & E & Hs & (x & Hx & Er) & L1 & L2).
  exists r. split; [done|]. split; [done| | |by apply Forall_app].
  - destruct Hx as [-> | ->].
    + exists x1. split; [set_solver|]. rewrite Er. by rewrite E1.
    + exists x2. split; [set_solver|]. rewrite Er. by rewrite E2.
  - rewrite !Forall_forall in A1, A2.
    intros o [Ho|Ho]%elem_of_app; [eapply (not_lt_trans o r1)|eapply (not_lt_trans o r2)]; eauto.
Qed.

Lemma best_of_one o : sound_result o → best_of [o] o.
Proof.
  intros Ho. split; [done|exists o; split; [set_solver|by destruct o]| |by constructor].
  intros o' ->%list_elem_of_singleton. apply MoveResult.lt_irrefl.
Qed.

Lemma best_of_add rs r o : best_of rs r → sound_result o →
  ∃ r', MoveResult.aggregate r o = Ok r' ∧ best_of (rs ++ [o]) r'.
Proof. intros Hr Ho. apply best_of_merge; [done|by apply best_of_one]. Qed.

Lemma best_of_perm rs rs' r : rs ≡ₚ rs' → best_of rs r → best_of rs' r.
Proof.
  intros Hp [H1 (x & Hx & E) H3 H4]. split; [done| | |by rewrite <- Hp].
  - exists x. split; [|done]. by rewrite <- Hp.
  - intros o. rewrite <- Hp. apply H3.
Qed.

(** A parallel run over inputs whose evaluations are sound gives the best of the
    evaluated ones, unless the pool refuses a task. *)
Lemma findBest_best {X} x (inputs : list X) (evaluate : X → result MoveResult.t)
    (w : X → MoveResult.t) timeout :
  executor_ok x → (∀ i, i ∈ inputs → evaluate i = Ok (w i) ∧ sound_result (w i)) →
  (∃ e n, findBest x inputs evaluate timeout = Throw e ∧ x_add x n = Some e) ∨
  ∃ r started, findBest x inputs evaluate timeout = Ok r ∧ best_of (w <$> started) r ∧
    started `prefix_of` inputs ∧
    ((∀ n, (x_seconds x n <? timeout)%D = true ∧ (timeout <=? x_seconds x n)%D = false) →
       started = inputs).
Proof.
  intros Hx Hw'.
  destruct (execute_total evaluate MoveResult.makeEmpty MoveResult.aggregate MoveResult.aggregate
    sound_result x inputs timeout Hx sound_empty) as [Hadd|(r & st & E & Hs & Hm & Hp & Ht)].
  - intros i a Hi Ha. destruct (Hw' i Hi) as [Ei Hi']. unfold ParallelExecution.handle. rewrite Ei.
    cbn [mbind result_bind]. destruct (sound_aggregate a (w i) Ha Hi') as (r & Er & Hr & _). eauto.
  - intros a1 a2 H1 H2. destruct (sound_aggregate a1 a2 H1 H2) as (r & Er & Hr & _). eauto.
  - by left.
  - right. exists r, st. split; [done|]. split; [|done].
    assert (∀ i, i ∈ st → i ∈ inputs) as Hin by (destruct Hp as [k ->]; set_solver).
    clear E Hs Hp Ht. induction Hm as [|l acc i acc' Hm IH Eh|l1 l2 a1 a2 a H1 IH1 H2 IH2 Em|l l' acc Hm IH Hp].
    + apply best_of_nil.
    + destruct (Hw' i) as [Ei Hi]; [set_solver|]. unfold ParallelExecution.handle in Eh. rewrite Ei in Eh.
      cbn [mbind result_bind] in Eh.
      destruct (best_of_add (w <$> l) acc (w i)) as (r' & Er & Hr); [apply IH; set_solver|done|].
      rewrite Er in Eh. injection Eh as ->. eapply best_of_perm; [|exact Hr].
      by rewrite Permutation_app_comm.
    + destruct (best_of_merge (w <$> l1) (w <$> l2) a1 a2) as (r' & Er & Hr);
        [apply IH1; set_solver|apply IH2; set_solver|].
      rewrite Er in Em. injection Em as ->. by rewrite fmap_app.
    + eapply best_of_perm; [by rewrite <- Hp|]. apply IH. intros i. rewrite Hp. apply Hin.
Qed.

(** What all but the first case of a proof need. *)
Lemma findBest_sound {X} x (inputs : list X) (evaluate : X → result MoveResult.t) timeout :
  executor_runs x → (∀ i, i ∈ inputs → ∃ r, evaluate i = Ok r ∧ sound_result r) →
  ∃ r, findBest x inputs evaluate timeout = Ok r ∧ sound_result r.
Proof.
  intros [Hx Hacc] Hi.
  destruct (findBest_best x inputs evaluate
    (λ i, match evaluate i with Ok r => r | Throw _ => MoveResult.makeEmpty end) timeout Hx)
    as [(e & n & _ & E)|(r & st & E & Hb & _)];
    [|by rewrite Hacc in E|exists r; split; [done|apply Hb]].
  intros i Hin. by destruct (Hi i Hin) as (r & -> & Hr).
Qed.
End state.
End sound.
End helper.
End MoveHelper.
