(* ===== verification/MoveTypes.v ===== *)
(** * Move types that try one object at a time

    The move types of solver/moves whose candidates move single objects out of
    the hot container ([SingleGreedyMoveType], [SingleFastMoveType],
    [SingleRandomStratifiedMoveType], [SingleColdestStratifiedMoveType],
    [SingleRandomBatchesMoveType]), into it
    ([SingleRandomObjectStratifiedMoveType]), or the replicas of a group out of a
    scope ([ReplicaDropMoveType]).  Each is shown to keep the promise of
    [LocalSearch.sound_move_type]. *)

From S2P Require Import Prelude Double Precision ObjectiveValue ChangeSet ObjectStore.
From S2P Require Import Assignment EntityAttributes Objective Problem Moves LocalSearch.
From S2P Require Import EquivalenceSets Bits Parallel SingleMove.
From S2P Require Import ParallelExecution ExecutionSelector MoveHelper.

(** What a call of a move type meets besides the problem: the readings of its own
    timer and the executors of its parallel loops, by the number of the call and
    the position in the loops. *)
Record MoveTypeEnv := {
  base :> SingleMoveEnv;
  timer : nat → nat → nat → double;
  executor : nat → nat → nat → Executor
}.

Definition env_ok (env : MoveTypeEnv) : Prop := ∀ call i j, executor_runs (executor env call i j).

(** A loop that may be left early: the body returns whether it does and the new
    state; the result tells whether the loop was left. *)
Fixpoint forLoop {X S} (body : nat → S → X → result (bool * S)) (i : nat) (s : S) (l : list X)
    : result (bool * S) :=
  match l with
  | [] => Ok (false, s)
  | x :: l =>
      '(stop, s') ← body i s x;
      if (stop : bool) then Ok (true, s') else forLoop body (Datatypes.S i) s' l
  end.

Lemma forLoop_total {X S} (P : S → Prop) (body : nat → S → X → result (bool * S)) l :
  (∀ i s x, x ∈ l → P s → ∃ b s', body i s x = Ok (b, s') ∧ P s') →
  ∀ i s, P s → ∃ b s', forLoop body i s l = Ok (b, s') ∧ P s'.
Proof.
  induction l as [|x l IH]; intros Hb i s Hs; simpl; [eauto|].
  destruct (Hb i s x) as (b & s1 & -> & H1); [set_solver|done|]. cbn [mbind result_bind].
  destruct b; [eauto|]. apply IH; [|done]. intros; apply Hb; [set_solver|done].
Qed.

Module MoveTypeUtils.
Section utils.
Context `{G : ExpressionGraph} `{HO : HashOrder} {A : Type} `{EA : EntityAttributes A}.
Context (hash : Z → Z → Z → Z).

Abbreviation empty := MoveResult.makeEmpty.
Abbreviation invalid env := (InvalidMoveFilter.isMoveInvalid (invalidMoveFilter env)).

(** [bestResult.aggregate(result)] followed by the test for an improvement. *)
Definition aggregateAndTest (prec : PrecisionTolerances) (best r : MoveResult.t)
    : result (bool * MoveResult.t) :=
  best' ← MoveResult.aggregate best r;
  b ← MoveResult.isBetter best' prec;
  Ok (b, best').

(** The distinct objects of a container up to equivalence. *)
Definition dedupedObjects (env : MoveTypeEnv) (p : Problem.t A) (c : Z) : result (list Z) :=
  ObjectDeduper.objects (equivalence env) (Assignment.getDynamicObjects (Problem.assignment p) c).

(** ** Facts shared by the proofs *)
Section facts.
Context `{LG : !LawfulGraph G} `{EG : !EvaluableGraph G} `{SE : !SearchEnv A}.
Context (p0 : Problem.t A) (ps : LocalSearch.Params) (env : MoveTypeEnv) (f : Z → Z).
Context (Hu : MoveHelper.usable p0 ps env f).
Context (p : Problem.t A) (Hw : Problem.wf p) (Hrun : LocalSearch.same_run p0 p).
Abbreviation ev := (LocalSearch.evaluator ps).
Abbreviation place := (Assignment.objectToContainer (Problem.assignment p)).
Abbreviation sound := (MoveHelper.sound_result hash ps p).

Lemma placed_dom o c : place !! o = Some c →
  o ∈ dom (Assignment.objectToContainer (Problem.assignment p0)).
Proof. intros E. destruct Hrun as [_ <-]. by eapply elem_of_dom_2. Qed.

Lemma filter_answers o src c : place !! o = Some src → c ∈ LocalSearch.containers ps →
  ∃ b, invalid env o c = Ok b.
Proof.
  intros E Hc. unfold InvalidMoveFilter.isMoveInvalid.
  destruct (invalidMoveFilter env) as [flt|] eqn:Ef; [|eauto].
  destruct (MoveHelper.um_filter _ _ _ _ Hu flt Ef) as [Hi Hr].
  destruct (InvalidMoveFilter.isMarkedInvalid_spec flt o c Hi) as (b & -> & _); [|eauto].
  apply Hr; [by eapply placed_dom|]. by apply (MoveHelper.um_containers _ _ _ _ Hu).
Qed.

Lemma deduper_ok l : (∀ o, o ∈ l → is_Some (place !! o)) →
  ∃ os, ObjectDeduper.objects (equivalence env) l = Ok os ∧ ∀ o, o ∈ os → o ∈ l.
Proof.
  intros Hl. destruct (ObjectDeduper.objects_spec (equivalence env) f l) as (os & E & Hs & _).
  - intros o Ho. destruct (Hl o Ho) as [c Ec].
    apply (MoveHelper.um_equivalence _ _ _ _ Hu). by eapply placed_dom.
  - exists os. split; [done|]. intros o Ho. by eapply elem_of_submseteq.
Qed.

Lemma deduped_ok c : ∃ os, dedupedObjects env p c = Ok os ∧ ∀ o, o ∈ os → place !! o = Some c.
Proof.
  destruct (deduper_ok (Assignment.getDynamicObjects (Problem.assignment p) c)) as (os & E & Hs).
  - intros o Ho%Assignment.elem_of_getDynamicObjects; [|apply Hw]. destruct Ho as [-> _]. eauto.
  - exists os. split; [done|]. intros o Ho%Hs.
    apply Assignment.elem_of_getDynamicObjects in Ho as [? _]; [done|apply Hw].
Qed.

(** Moves given by an object, where it is, and where it goes. *)
Abbreviation moves_of l := ((λ '(o, src, dst), makeMove hash o src dst) <$> l).

Lemma candidate_moves (l : list (Z * Z * Z)) :
  NoDup l.*1.*1 →
  (∀ o src dst, (o, src, dst) ∈ l → place !! o = Some src ∧ dst ∈ LocalSearch.containers ps) →
  MoveHelper.candidate hash ps p (moves_of l).
Proof.
  intros Hnd Hl. split; [split|].
  - replace (move_object <$> moves_of l) with l.*1.*1; [done|].
    clear. induction l as [|[[o src] dst] l IH]; [done|]. by rewrite !fmap_cons, IH.
  - apply Forall_fmap, Forall_forall. by intros [[o src] dst] _.
  - intros m (q & -> & Hm)%list_elem_of_fmap. destruct q as [[o src] dst]. simpl. by eapply Hl.
  - intros m (q & -> & Hm)%list_elem_of_fmap. destruct q as [[o src] dst]. simpl. by eapply Hl.
Qed.

Lemma candidate_one o src dst : place !! o = Some src → dst ∈ LocalSearch.containers ps →
  MoveHelper.candidate hash ps p [makeMove hash o src dst].
Proof.
  intros Ho Hd. apply (candidate_moves [(o, src, dst)]); [apply NoDup_singleton|].
  intros ? ? ? [= -> -> ->]%list_elem_of_singleton. done.
Qed.

Lemma candidate_two o1 s1 d1 o2 s2 d2 :
  place !! o1 = Some s1 → place !! o2 = Some s2 → o1 ≠ o2 →
  d1 ∈ LocalSearch.containers ps → d2 ∈ LocalSearch.containers ps →
  MoveHelper.candidate hash ps p [makeMove hash o1 s1 d1; makeMove hash o2 s2 d2].
Proof.
  intros H1 H2 Hne D1 D2. apply (candidate_moves [(o1, s1, d1); (o2, s2, d2)]).
  - simpl. apply NoDup_cons. split; [set_solver|apply NoDup_singleton].
  - intros ? ? ? [[= -> -> ->]|[= -> -> ->]%list_elem_of_singleton]%elem_of_cons; done.
Qed.

Lemma evaluate_ok ms : MoveHelper.candidate hash ps p ms →
  ∃ r, MovesEvaluator.evaluate ev p ms = Ok r ∧ sound r.
Proof. by apply (MoveHelper.sound_evaluate hash p0 ps env f Hu p Hw Hrun). Qed.

Lemma empty_ok : sound empty.
Proof. apply MoveHelper.sound_empty. Qed.

Lemma aggregate_ok best r : sound best → sound r →
  ∃ best', MoveResult.aggregate best r = Ok best' ∧ sound best'.
Proof.
  intros H1 H2. destruct (MoveHelper.sound_aggregate hash ps p best r H1 H2) as (r' & E & Hr & _). eauto.
Qed.

Lemma aggregateAndTest_ok best r : sound best → sound r →
  ∃ b best', aggregateAndTest (Problem.precision p) best r = Ok (b, best') ∧ sound best'.
Proof.
  intros H1 H2. unfold aggregateAndTest. destruct (aggregate_ok best r H1 H2) as (best' & -> & H').
  cbn [mbind result_bind]. destruct (MoveHelper.sr_better hash ps p best' H') as [b ->].
  cbn [mbind result_bind]. eauto.
Qed.

Lemma findBest_ok {X} x (inputs : list X) (evaluate : X → result MoveResult.t) timeout :
  executor_runs x → (∀ i, i ∈ inputs → ∃ r, evaluate i = Ok r ∧ sound r) →
  ∃ r, MoveHelper.findBest x inputs evaluate timeout = Ok r ∧ sound r.
Proof. by apply (MoveHelper.findBest_sound hash p0 ps env f Hu p Hw). Qed.

(** [MoveHelper::findBestMove] over containers of the problem. *)
Lemma findBestMove_ok x hot o cold timeout :
  executor_runs x → place !! o = Some hot → (∀ c, c ∈ cold → c ∈ LocalSearch.containers ps) →
  ∃ r, MoveHelper.findBestMove hash env ev p x hot o cold timeout = Ok r ∧ sound r.
Proof.
  intros Hx Ho Hc. unfold MoveHelper.findBestMove.
  destruct (MoveHelper.filterM_ok (λ c,
      if c =? hot then Ok false
      else if bool_decide (c ∈ not_accepting_containers env) then Ok false
      else i ← invalid env o c; Ok (negb i)) cold) as (r & -> & Hr).
  - intros c Hin. destruct (c =? hot); [eauto|]. destruct (bool_decide _); [eauto|].
    destruct (filter_answers o hot c Ho (Hc c Hin)) as [b ->]. eauto.
  - cbn [mbind result_bind]. apply findBest_ok; [done|]. intros c Hin%Hr.
    apply evaluate_ok, candidate_one; [done|]. by apply Hc, Hin.
Qed.
End facts.
End utils.
End MoveTypeUtils.

Module SingleObject.
Section types.
Context `{G : ExpressionGraph} `{HO : HashOrder} {A : Type} `{EA : EntityAttributes A}.
Context (hash : Z → Z → Z → Z).
Abbreviation empty := MoveResult.makeEmpty.
Abbreviation invalid env := (InvalidMoveFilter.isMoveInvalid (invalidMoveFilter env)).
Abbreviation fixed p o := (bool_decide (o ∈ Problem.fixed_objects p)).
Abbreviation not_accepting env c := (bool_decide (c ∈ not_accepting_containers env)).
Abbreviation precision p := (Problem.precision p).
Abbreviation aggregateAndTest := MoveTypeUtils.aggregateAndTest.

(** *** SingleGreedyMoveType

    [descending] is the traversal of the containers by decreasing contribution to
    the objective. *)
Definition singleGreedy_cold (env : MoveTypeEnv) (ev : MovesEvaluator.t) (p : Problem.t A) (call : nat)
    (hotContainer : Z) (timeLimit : double) (i : nat) (hotObject : Z) (j : nat)
    (bestResult : MoveResult.t) (coldContainer : Z) : result (bool * MoveResult.t) :=
  if (timeLimit <=? timer env call i (S j))%D then Ok (true, bestResult)
  else if not_accepting env coldContainer then Ok (false, bestResult)
  else
    inv ← invalid env hotObject coldContainer;
    if (inv : bool) then Ok (false, bestResult)
    else
      r ← MovesEvaluator.evaluate ev p [makeMove hash hotObject hotContainer coldContainer];
      aggregateAndTest (precision p) bestResult r.

Definition singleGreedy_findBestMove (descending : Problem.t A → list Z) (env : MoveTypeEnv)
    (ev : MovesEvaluator.t) (p : Problem.t A) (call : nat) (hotContainer : Z) (timeLimit : double)
    : result MoveResult.t :=
  match Assignment.getDynamicObjects (Problem.assignment p) hotContainer with
  | [] => Ok empty
  | _ =>
      dedupedObjs ← MoveTypeUtils.dedupedObjects env p hotContainer;
      let coldContainers := reverse (descending p) in
      '(_, bestResult) ← forLoop (λ i bestResult hotObject,
          if (timeLimit <=? timer env call i 0)%D then Ok (true, bestResult)
          else if fixed p hotObject then Ok (false, bestResult)
          else forLoop (singleGreedy_cold env ev p call hotContainer timeLimit i hotObject) 0
                 bestResult coldContainers) 0 empty dedupedObjs;
      Ok bestResult
  end.

(** *** Objects tried one after the other, the containers of each in parallel

    The loop of [SingleFastMoveType], [SingleRandomStratifiedMoveType] (both skip
    a fixed object before they look at the timer) and
    [SingleColdestStratifiedMoveType] (the other way round): [destinations] are
    the containers to try for the [i]-th object. *)
Definition exploreObject (timerFirst : bool) (env : MoveTypeEnv) (ev : MovesEvaluator.t)
    (p : Problem.t A) (call : nat) (hotContainer : Z) (timeLimit : double) (minObjects : Z)
    (destinations : nat → Z → result (list Z)) (i : nat) (s : Z * MoveResult.t) (hotObject : Z)
    : result (bool * (Z * MoveResult.t)) :=
  let '(objectCount, bestResult) := s in
  let timeout := (timeLimit <=? timer env call i 0)%D in
  if timerFirst && timeout then Ok (true, s)
  else if fixed p hotObject then Ok (false, s)
  else if negb timerFirst && timeout then Ok (true, s)
  else
    containers ← destinations i hotObject;
    r ← MoveHelper.findBestMove hash env ev p (executor env call i 0) hotContainer hotObject
          containers (timeLimit - timer env call i 1)%D;
    best' ← MoveResult.aggregate bestResult r;
    let objectCount' := objectCount + 1 in
    if minObjects <=? objectCount'
    then b ← MoveResult.isBetter best' (precision p); Ok (b, (objectCount', best'))
    else Ok (false, (objectCount', best')).

Definition exploreObjects (timerFirst : bool) (env : MoveTypeEnv) (ev : MovesEvaluator.t)
    (p : Problem.t A) (call : nat) (hotContainer : Z) (timeLimit : double) (minObjects : Z)
    (destinations : nat → Z → result (list Z)) : result MoveResult.t :=
  dedupedObjs ← MoveTypeUtils.dedupedObjects env p hotContainer;
  '(_, (_, bestResult)) ← forLoop (exploreObject timerFirst env ev p call hotContainer timeLimit
                                     minObjects destinations) 0 (0, empty) dedupedObjs;
  Ok bestResult.

(** [getDestinations] gives the containers allowed for an object, if the
    specification restricts them. *)
Definition singleFast_findBestMove (minHotObjects : Z)
    (getDestinations : option (Problem.t A → Z → Z → result (list Z))) (env : MoveTypeEnv)
    (ev : MovesEvaluator.t) (p : Problem.t A) (call : nat) (hotContainer : Z) (timeLimit : double)
    : result MoveResult.t :=
  exploreObjects false env ev p call hotContainer timeLimit minHotObjects
    (λ _ hotObject,
       match getDestinations with
       | Some get => get p hotObject hotContainer
       | None => Ok (all_containers env)
       end).

(** [getSampledDestinationsSet] draws with the generator's state at the [i]-th
    object of the call. *)
Definition singleRandomStratified_findBestMove (minObjectsToExplore : Z)
    (getSampledDestinationsSet : Problem.t A → nat → nat → Z → Z → result (list Z))
    (env : MoveTypeEnv) (ev : MovesEvaluator.t) (p : Problem.t A) (call : nat) (hotContainer : Z)
    (timeLimit : double) : result MoveResult.t :=
  exploreObjects false env ev p call hotContainer timeLimit minObjectsToExplore
    (λ i hotObject, getSampledDestinationsSet p call i hotObject hotContainer).

Definition singleColdestStratified_findBestMove (minHotObjects : Z)
    (stratifiedOrderedSample : Problem.t A → nat → nat → Z → result (list Z)) (env : MoveTypeEnv)
    (ev : MovesEvaluator.t) (p : Problem.t A) (call : nat) (hotContainer : Z) (timeLimit : double)
    : result MoveResult.t :=
  exploreObjects true env ev p call hotContainer timeLimit minHotObjects
    (λ i _, stratifiedOrderedSample p call i hotContainer).

(** *** SingleRandomBatchesMoveType

    [shuffled] is the order of the containers for the [i]-th object; the batches
    are consecutive parts of it.  A batch size of zero makes no progress: the loop
    does not end, and the model runs out of fuel. *)
Fixpoint containerBatches (fuel : nat) (batchSize : nat) (containers : list Z)
    : result (list (list Z)) :=
  match containers, fuel with
  | [], _ => Ok []
  | _ :: _, O => Throw (undefined_behaviour "out of fuel")
  | _ :: _, S fuel =>
      batches ← containerBatches fuel batchSize (drop batchSize containers);
      Ok (take batchSize containers :: batches)
  end.

Definition singleRandomBatches_findBestMove (batchSize : nat) (shuffled : nat → nat → list Z)
    (env : MoveTypeEnv) (ev : MovesEvaluator.t) (p : Problem.t A) (call : nat) (hotContainer : Z)
    (timeLimit : double) : result MoveResult.t :=
  dedupedObjs ← MoveTypeUtils.dedupedObjects env p hotContainer;
  '(_, bestResult) ← forLoop (λ i bestResult hotObject,
      if (timeLimit <=? timer env call i 0)%D then Ok (true, bestResult)
      else if fixed p hotObject then Ok (false, bestResult)
      else
        let containers := shuffled call i in
        batches ← containerBatches (length containers) batchSize containers;
        forLoop (λ j bestResult batch,
            r ← MoveHelper.findBestMove hash env ev p (executor env call i j) hotContainer hotObject
                  batch (timeLimit - timer env call i (S j))%D;
            aggregateAndTest (precision p) bestResult r) 0 bestResult batches) 0 empty dedupedObjs;
  Ok bestResult.

(** *** SingleRandomObjectStratifiedMoveType: sampled objects into the container *)
Definition singleRandomObject_findBestMove
    (getSampledSet : Problem.t A → nat → Z → result (list Z)) (env : MoveTypeEnv)
    (ev : MovesEvaluator.t) (p : Problem.t A) (call : nat) (hotContainer : Z) (timeLimit : double)
    : result MoveResult.t :=
  sampled ← getSampledSet p call hotContainer;
  MoveHelper.findBest (executor env call 0 0) sampled
    (λ objectId,
       src ← Assignment.getContainer (Problem.assignment p) objectId;
       MovesEvaluator.evaluate ev p [makeMove hash objectId src hotContainer])
    timeLimit.

(** *** ReplicaDropMoveType

    [onlyGroup] is [getOnlyGroupIdIfExists] of the partition, [objectsOf] the
    objects of a group, [outOfScope] the containers outside the scope. *)
Definition replicaDrop_findBestMove (onlyGroup : Z → result (option Z)) (objectsOf : Z → list Z)
    (outOfScope : list Z) (env : MoveTypeEnv) (ev : MovesEvaluator.t) (p : Problem.t A) (call : nat)
    (hotContainer : Z) (timeLimit : double) : result MoveResult.t :=
  hotObjectIds ← MoveTypeUtils.dedupedObjects env p hotContainer;
  '(_, bestResult) ← forLoop (λ i bestResult hotObjectId,
      if (timeLimit <=? timer env call i 0)%D then Ok (true, bestResult)
      else
        groupIdOpt ← onlyGroup hotObjectId;
        match groupIdOpt with
        | None => Ok (false, bestResult)
        | Some groupId =>
            dynamicReplicaIds ← MoveHelper.filterM (λ replicaId,
                c ← Assignment.getContainer (Problem.assignment p) replicaId;
                Ok (negb (bool_decide (c ∈ outOfScope)) &&
                    Assignment.isDynamic (Problem.assignment p) replicaId)) (objectsOf groupId);
            let accepting := filter (λ c, not_accepting env c = false) outOfScope in
            singleMoves ← MoveHelper.filterM (λ '(o, c), b ← invalid env o c; Ok (negb b))
                            (CoroUtils.all_pairs dynamicReplicaIds accepting);
            r ← MoveHelper.findBest (executor env call i 0) singleMoves
                  (λ '(o, c),
                     src ← Assignment.getContainer (Problem.assignment p) o;
                     MovesEvaluator.evaluate ev p [makeMove hash o src c])
                  (timeLimit - timer env call i 1)%D;
            b ← MoveResult.isBetter r (precision p);
            Ok (if (b : bool) then (true, r) else (false, bestResult))
        end) 0 empty hotObjectIds;
  Ok bestResult.

(** The batches together are the containers, in their order. *)
Lemma containerBatches_join fuel batchSize : ∀ containers,
  (0 < batchSize)%nat → (length containers ≤ fuel)%nat →
  ∃ batches, containerBatches fuel batchSize containers = Ok batches ∧ mjoin batches = containers.
Proof.
  induction fuel as [|fuel IH]; intros [|c cs] Hb Hf; simpl in Hf; [by exists []|lia|by exists []|].
  destruct (IH (drop batchSize (c :: cs)) Hb) as (bs & E & Hj); [rewrite length_drop; simpl; lia|].
  exists (take batchSize (c :: cs) :: bs). simpl. rewrite E. split; [done|].
  change (take batchSize (c :: cs) ++ mjoin bs = c :: cs). rewrite Hj. apply take_drop.
Qed.

(** ** The promises *)
Section sound.
Context `{LG : !LawfulGraph G} `{EG : !EvaluableGraph G} `{SE : !SearchEnv A}.
Context (p0 : Problem.t A) (ps : LocalSearch.Params) (env : MoveTypeEnv) (f : Z → Z).
Context (Hu : MoveHelper.usable p0 ps env f) (Henv : env_ok env).

(** A move type whose calls give sound results keeps its promise. *)
Lemma promise name find :
  (∀ p h n hot limit, Problem.wf p → LocalSearch.same_run p0 p → LocalSearch.indexed ps p →
     hot ∈ LocalSearch.containers ps →
     ∃ r, find (LocalSearch.evaluator ps) p h n hot limit = Ok r ∧ MoveHelper.sound_result hash ps p r) →
  LocalSearch.sound_move_type hash p0 ps
    {| LocalSearch.name := name; LocalSearch.findBestMove := find |}.
Proof.
  intros Hf p h n hot limit Hw Hr Hx Hh. destruct (Hf p h n hot limit Hw Hr Hx Hh) as (r & E & Hs).
  destruct (MoveHelper.sound_promise hash ps p r Hs) as (b & Eb & Hb). by exists r, b.
Qed.

Section state.
Context (p : Problem.t A) (Hw : Problem.wf p) (Hrun : LocalSearch.same_run p0 p).
Abbreviation sound := (MoveHelper.sound_result hash ps p).
Abbreviation place := (Assignment.objectToContainer (Problem.assignment p)).
Abbreviation ev := (LocalSearch.evaluator ps).
Abbreviation containers := (LocalSearch.containers ps).

Lemma singleGreedy_ok descending call hot limit :
  (∀ c, c ∈ descending p → c ∈ containers) →
  ∃ r, singleGreedy_findBestMove descending env ev p call hot limit = Ok r ∧ sound r.
Proof.
  intros Hd. unfold singleGreedy_findBestMove.
  assert (sound empty) as H0 by apply MoveTypeUtils.empty_ok.
  destruct (Assignment.getDynamicObjects _ hot); [eauto|].
  destruct (MoveTypeUtils.deduped_ok p0 ps env f Hu p Hw Hrun hot) as (os & -> & Hos).
  cbn [mbind result_bind].
  match goal with |- context [forLoop ?b _ _ _] => set (body := b) end.
  destruct (forLoop_total sound body os) with (i := 0%nat) (s := empty) as (b & r & -> & Hr); [|done|eauto].
  intros i best o Ho Hbest. unfold body. destruct (_ <=? _)%D; [eauto|]. destruct (fixed p o); [eauto|].
  apply forLoop_total; [|done]. intros j best' c Hc%elem_of_reverse Hb'. rewrite reverse_involutive in Hc. unfold singleGreedy_cold.
  destruct (_ <=? _)%D; [eauto|]. destruct (not_accepting env c); [eauto|].
  destruct (MoveTypeUtils.filter_answers p0 ps env f Hu p Hrun o hot c) as [bad Ebad]; [by apply Hos|by apply Hd|]. rewrite Ebad.
  cbn [mbind result_bind]. destruct bad; [eauto|].
  destruct (MoveTypeUtils.evaluate_ok hash p0 ps env f Hu p Hw Hrun [makeMove hash o hot c]) as (r & -> & Hr).
  { apply MoveTypeUtils.candidate_one; auto. }
  cbn [mbind result_bind]. by apply MoveTypeUtils.aggregateAndTest_ok.
Qed.

Lemma exploreObjects_ok timerFirst call hot limit minObjects destinations :
  (∀ i o, place !! o = Some hot → ∃ l, destinations i o = Ok l ∧ ∀ c, c ∈ l → c ∈ containers) →
  ∃ r, exploreObjects timerFirst env ev p call hot limit minObjects destinations = Ok r ∧ sound r.
Proof.
  intros Hd. unfold exploreObjects.
  destruct (MoveTypeUtils.deduped_ok p0 ps env f Hu p Hw Hrun hot) as (os & -> & Hos).
  cbn [mbind result_bind].
  match goal with |- context [forLoop ?b _ _ _] => set (body := b) end.
  destruct (forLoop_total (λ s, sound s.2) body os) with (i := 0%nat) (s := (0, empty))
    as (b & [n r] & -> & Hr); [|apply MoveTypeUtils.empty_ok|simpl; eauto].
  intros i [count best] o Ho Hbest. simpl in Hbest. unfold body, exploreObject.
  destruct (_ && _); [eauto|]. destruct (fixed p o); [eauto|]. destruct (_ && _); [eauto|].
  destruct (Hd i o (Hos o Ho)) as (l & -> & Hl). cbn [mbind result_bind].
  destruct (MoveTypeUtils.findBestMove_ok hash p0 ps env f Hu p Hw Hrun (executor env call i 0) hot o l
    (limit - timer env call i 1)%D) as (r & -> & Hr); [apply Henv|auto..|]. cbn [mbind result_bind].
  destruct (MoveTypeUtils.aggregate_ok hash ps p best r Hbest Hr) as (best' & -> & Hb').
  cbn [mbind result_bind]. destruct (_ <=? _); [|eauto].
  destruct (MoveHelper.sr_better hash ps p best' Hb') as [b ->]. cbn [mbind result_bind]. eauto.
Qed.

Lemma singleRandomBatches_ok batchSize shuffled call hot limit :
  (0 < batchSize)%nat → (∀ i c, c ∈ shuffled call i → c ∈ containers) →
  ∃ r, singleRandomBatches_findBestMove batchSize shuffled env ev p call hot limit = Ok r ∧ sound r.
Proof.
  intros Hbs Hsh. unfold singleRandomBatches_findBestMove.
  destruct (MoveTypeUtils.deduped_ok p0 ps env f Hu p Hw Hrun hot) as (os & -> & Hos).
  cbn [mbind result_bind].
  match goal with |- context [forLoop ?b _ _ _] => set (body := b) end.
  destruct (forLoop_total sound body os) with (i := 0%nat) (s := empty) as (b & r & -> & Hr);
    [|apply MoveTypeUtils.empty_ok|simpl; eauto].
  intros i best o Ho Hbest. unfold body. destruct (_ <=? _)%D; [eauto|]. destruct (fixed p o); [eauto|].
  destruct (containerBatches_join (length (shuffled call i)) batchSize (shuffled call i) Hbs)
    as (bs & -> & Hj); [done|]. cbn [mbind result_bind].
  apply forLoop_total; [|done]. intros j best' batch Hbatch Hb'.
  destruct (MoveTypeUtils.findBestMove_ok hash p0 ps env f Hu p Hw Hrun (executor env call i j) hot o batch
    (limit - timer env call i (S j))%D) as (r & -> & Hr); [apply Henv|auto| |].
  - intros c Hc. apply (Hsh i). rewrite <- Hj. apply list_elem_of_join. eauto.
  - cbn [mbind result_bind]. by apply MoveTypeUtils.aggregateAndTest_ok.
Qed.

Lemma singleRandomObject_ok getSampledSet call hot limit :
  hot ∈ containers →
  (∃ l, getSampledSet p call hot = Ok l ∧ ∀ o, o ∈ l → is_Some (place !! o)) →
  ∃ r, singleRandomObject_findBestMove getSampledSet env ev p call hot limit = Ok r ∧ sound r.
Proof.
  intros Hh (l & El & Hl). unfold singleRandomObject_findBestMove. rewrite El. cbn [mbind result_bind].
  apply (MoveTypeUtils.findBest_ok hash p0 ps env f Hu p Hw Hrun); [apply Henv|].
  intros o Ho. destruct (Hl o Ho) as [src Es]. unfold Assignment.getContainer. rewrite Es.
  cbn [at_ mbind result_bind].
  apply (MoveTypeUtils.evaluate_ok hash p0 ps env f Hu p Hw Hrun).
  by apply MoveTypeUtils.candidate_one.
Qed.

Lemma replicaDrop_ok onlyGroup objectsOf outOfScope call hot limit :
  (∀ o, place !! o = Some hot → ∃ g, onlyGroup o = Ok g) →
  (∀ g o, o ∈ objectsOf g → is_Some (place !! o)) → (∀ c, c ∈ outOfScope → c ∈ containers) →
  ∃ r, replicaDrop_findBestMove onlyGroup objectsOf outOfScope env ev p call hot limit = Ok r ∧ sound r.
Proof.
  intros Hg Ho Hc. unfold replicaDrop_findBestMove.
  destruct (MoveTypeUtils.deduped_ok p0 ps env f Hu p Hw Hrun hot) as (os & -> & Hos).
  cbn [mbind result_bind].
  match goal with |- context [forLoop ?b _ _ _] => set (body := b) end.
  destruct (forLoop_total sound body os) with (i := 0%nat) (s := empty) as (b & r & -> & Hr);
    [|apply MoveTypeUtils.empty_ok|simpl; eauto].
  intros i best o Hin Hbest. unfold body. destruct (_ <=? _)%D; [eauto|].
  destruct (Hg o (Hos o Hin)) as [[g|] ->]; cbn [mbind result_bind]; [|eauto].
  match goal with |- context [MoveHelper.filterM ?k (objectsOf g)] =>
    destruct (MoveHelper.filterM_ok k (objectsOf g)) as (reps & -> & Hreps) end.
  { intros q Hq. destruct (Ho g q Hq) as [c Ec]. unfold Assignment.getContainer. rewrite Ec. simpl. eauto. }
  cbn [mbind result_bind].
  assert (∀ q c, q ∈ reps → c ∈ filter (λ c, not_accepting env c = false) outOfScope →
    is_Some (place !! q) ∧ c ∈ containers) as Hpair.
  { intros q c [Hq _]%Hreps [_ Hc']%list_elem_of_filter. eauto. }
  match goal with |- context [MoveHelper.filterM ?k (CoroUtils.all_pairs ?a ?b)] =>
    destruct (MoveHelper.filterM_ok k (CoroUtils.all_pairs a b)) as (sms & -> & Hsms) end.
  { intros [q c] [Hq Hc']%CoroUtils.all_pairs_elem. destruct (Hpair q c Hq Hc') as [[src Es] Hcc].
    destruct (MoveTypeUtils.filter_answers p0 ps env f Hu p Hrun q src c Es Hcc) as [x ->]. simpl. eauto. }
  cbn [mbind result_bind].
  match goal with |- context [MoveHelper.findBest ?x ?l ?e ?t] =>
    destruct (MoveTypeUtils.findBest_ok hash p0 ps env f Hu p Hw Hrun x l e t) as (r & -> & Hr) end.
  { apply Henv. }
  { intros [q c] [[Hq Hc']%CoroUtils.all_pairs_elem _]%Hsms. destruct (Hpair q c Hq Hc') as [[src Es] Hcc].
    unfold Assignment.getContainer. rewrite Es. cbn [at_ mbind result_bind].
    apply (MoveTypeUtils.evaluate_ok hash p0 ps env f Hu p Hw Hrun).
    by apply MoveTypeUtils.candidate_one. }
  cbn [mbind result_bind]. destruct (MoveHelper.sr_better hash ps p r Hr) as [b ->].
  cbn [mbind result_bind]. destruct b; eauto.
Qed.
End state.
End sound.
End types.
End SingleObject.
