(* ===== verification/MoveChains.v ===== *)
(** * Move types that move several objects at once

    Chains of two moves ([SingleChainMoveType], [SingleChainFastMoveType],
    [SingleEndChainMoveType]), cycles of three ([TripleLoopMoveType]), exchanges
    of the whole contents of two containers ([SwapFullContainersMoveType],
    [SwapFullWithEmptyContainersMoveType]) and the growing move sets of
    [KLSearchMoveType], on top of the parallel loops of
    [AsyncSingleMovesMoveType] and [AsyncDestinationsMoveType] (solver/moves). *)

From S2P Require Import Prelude Double Precision ObjectiveValue ChangeSet ObjectStore.
From S2P Require Import Assignment EntityAttributes Objective Problem Moves LocalSearch.
From S2P Require Import EquivalenceSets Bits Parallel SingleMove.
From S2P Require Import ParallelExecution ExecutionSelector MoveHelper MoveTypes.

Module Chains.
Section types.
Context `{G : ExpressionGraph} `{HO : HashOrder} {A : Type} `{EA : EntityAttributes A}.
Context (hash : Z → Z → Z → Z).
Abbreviation empty := MoveResult.makeEmpty.
Abbreviation invalid env := (InvalidMoveFilter.isMoveInvalid (invalidMoveFilter env)).
Abbreviation fixed p o := (bool_decide (o ∈ Problem.fixed_objects p)).
Abbreviation not_accepting env c := (bool_decide (c ∈ not_accepting_containers env)).
Abbreviation precision p := (Problem.precision p).
Abbreviation move := (makeMove hash).

(** ** AsyncSingleMovesMoveType

    [explore] and [attempt] are the virtual methods [exploreFromAllSingleMoves] and
    [attemptMoveWithThisObject], [customColdContainers] is what
    [getCustomColdContainers] returns. *)
Definition async_findBestMoveOfHotObjects (explore : Z → Z → result MoveResult.t) (attempt : Z → bool)
    (customColdContainers : option (list Z)) (env : MoveTypeEnv) (call : nat)
    (hotContainer : Z) (timeLimit : double) (hotObjects : list Z) : result MoveResult.t :=
  CoroUtils.parallelMapReduceAllPairs
    (λ hotObject coldContainer,
       if (timeLimit <=? elapsed env call hotObject coldContainer)%D then Ok empty
       else explore hotObject coldContainer)
    MoveResult.aggregate empty (numThreads env) (schedule env call)
    (filter (λ o, attempt o = true) hotObjects)
    (filter (λ c, SingleMoveType.accepting env hotContainer c = true)
       (default (all_containers env) customColdContainers)).

(** The hot objects, one per equivalence set, come from the deduper. *)
Definition async_findBestMove (explore : Z → Z → result MoveResult.t) (attempt : Z → bool)
    (customColdContainers : option (list Z)) (env : MoveTypeEnv) (p : Problem.t A) (call : nat)
    (hotContainer : Z) (timeLimit : double) : result MoveResult.t :=
  hotObjects ← MoveTypeUtils.dedupedObjects env p hotContainer;
  async_findBestMoveOfHotObjects explore attempt customColdContainers env call hotContainer timeLimit
    hotObjects.

(** ** SingleChainMoveType *)

(** [bestResult.aggregate(result); if (greedy && bestResult.isBetter()) break;] *)
Definition aggregateGreedy (greedy : bool) (prec : PrecisionTolerances) (best r : MoveResult.t)
    : result (bool * MoveResult.t) :=
  best' ← MoveResult.aggregate best r;
  if greedy then b ← MoveResult.isBetter best' prec; Ok (b, best') else Ok (false, best').

Definition generateMoveSetAndGetResult (ev : MovesEvaluator.t) (p : Problem.t A)
    (hotObject hotContainer coldContainer otherObject otherContainer : Z) : result MoveResult.t :=
  MovesEvaluator.evaluate ev p
    [move otherObject otherContainer hotContainer; move hotObject hotContainer coldContainer].

Definition exploreAllAndGetBestResult (env : MoveTypeEnv) (ev : MovesEvaluator.t) (p : Problem.t A)
    (hotContainer hotObject coldContainer otherContainer : Z) (greedy : bool) : result MoveResult.t :=
  otherObjects ← MoveTypeUtils.dedupedObjects env p otherContainer;
  '(_, bestResult) ← forLoop (λ _ bestResult otherObject,
      inv ← invalid env otherObject hotContainer;
      if (inv : bool) then Ok (false, bestResult)
      else
        r ← generateMoveSetAndGetResult ev p hotObject hotContainer coldContainer otherObject
              otherContainer;
        aggregateGreedy greedy (precision p) bestResult r) 0 empty otherObjects;
  Ok bestResult.

(** The groups of a partition: the only group of an object, if it is in one, and
    the objects of a group. *)
Record Groups := { onlyGroup : Z → result (option Z); objectsOf : Z → list Z }.

Definition exploreWithinGroupAndGetBestResult (gs : Groups) (env : MoveTypeEnv)
    (ev : MovesEvaluator.t) (p : Problem.t A)
    (hotContainer hotObject coldContainer otherContainer : Z) (greedy : bool) : result MoveResult.t :=
  groupIdOpt ← onlyGroup gs hotObject;
  match groupIdOpt with
  | None => Ok empty
  | Some groupId =>
      relevantObjects ← MoveHelper.filterM (λ object,
          c ← Assignment.getContainer (Problem.assignment p) object;
          if c =? otherContainer
          then inv ← invalid env object hotContainer; Ok (negb inv)
          else Ok false) (objectsOf gs groupId);
      otherObjects ← ObjectDeduper.objects (equivalence env) relevantObjects;
      '(_, bestResult) ← forLoop (λ _ bestResult otherObject,
          r ← generateMoveSetAndGetResult ev p hotObject hotContainer coldContainer otherObject
                otherContainer;
          aggregateGreedy greedy (precision p) bestResult r) 0 empty otherObjects;
      Ok bestResult
  end.

(** [partition]: the groups to stay within, if the specification names one. *)
Definition exploreChainsWithHotObjectToColdContainer (partition : option Groups) (env : MoveTypeEnv)
    (ev : MovesEvaluator.t) (p : Problem.t A) (hotContainer : Z) (greedy : bool)
    (hotObject coldContainer : Z) : result MoveResult.t :=
  inv ← invalid env hotObject coldContainer;
  if (inv : bool) then Ok empty
  else
    '(_, bestResult) ← forLoop (λ _ bestResult otherContainer,
        if (otherContainer =? hotContainer) || (otherContainer =? coldContainer)
        then Ok (false, bestResult)
        else
          r ← match partition with
              | Some gs => exploreWithinGroupAndGetBestResult gs env ev p hotContainer hotObject
                             coldContainer otherContainer greedy
              | None => exploreAllAndGetBestResult env ev p hotContainer hotObject coldContainer
                          otherContainer greedy
              end;
          aggregateGreedy greedy (precision p) bestResult r) 0 empty (all_containers env);
    Ok bestResult.

(** [special] is the identifier of the special cold container, if there is one. *)
Definition singleChain_findBestMove (partition : option Groups) (special : option Z)
    (env : MoveTypeEnv) (ev : MovesEvaluator.t) (p : Problem.t A) (call : nat) (hotContainer : Z)
    (timeLimit : double) : result MoveResult.t :=
  async_findBestMove (exploreChainsWithHotObjectToColdContainer partition env ev p hotContainer false)
    (SingleMoveType.attemptMoveWithThisObject p) ((λ c, [c]) <$> special) env p call hotContainer timeLimit.

(** ** SingleChainFastMoveType: one object after the other, leaving at the first
    improvement *)
Definition singleChainFast_findBestMove (partition : option Groups) (special : option Z)
    (env : MoveTypeEnv) (ev : MovesEvaluator.t) (p : Problem.t A) (call : nat) (hotContainer : Z)
    (timeLimit : double) : result MoveResult.t :=
  dedupedObjs ← MoveTypeUtils.dedupedObjects env p hotContainer;
  let coldContainers := filter (λ c, SingleMoveType.accepting env hotContainer c = true)
                          (default (all_containers env) ((λ c, [c]) <$> special)) in
  '(_, bestResult) ← forLoop (λ i bestResult hotObject,
      if (timeLimit <=? timer env call i 0)%D then Ok (true, bestResult)
      else
        cold ← MoveHelper.filterM (λ c, b ← invalid env hotObject c; Ok (negb b)) coldContainers;
        r ← MoveHelper.findBest (executor env call i 0) cold
              (exploreChainsWithHotObjectToColdContainer partition env ev p hotContainer true hotObject)
              (timeLimit - timer env call i 1)%D;
        MoveTypeUtils.aggregateAndTest (precision p) bestResult r) 0 empty dedupedObjs;
  Ok bestResult.

(** ** SingleEndChainMoveType *)
Definition singleEndChain_explore (env : MoveTypeEnv) (ev : MovesEvaluator.t) (p : Problem.t A)
    (hot_container hotObject cold_container : Z) : result MoveResult.t :=
  inv ← invalid env hotObject cold_container;
  if (inv : bool) then Ok empty
  else
    cold_objects ← MoveTypeUtils.dedupedObjects env p cold_container;
    foldM (λ best coldObject,
      foldM (λ best other_container,
        if (other_container =? hot_container) || (other_container =? cold_container) then Ok best
        else
          inv ← invalid env coldObject other_container;
          if (inv : bool) then Ok best
          else
            r ← MovesEvaluator.evaluate ev p
                  [move coldObject cold_container other_container;
                   move hotObject hot_container cold_container];
            MoveResult.aggregate best r) best (all_containers env)) empty cold_objects.

Definition singleEndChain_findBestMove (env : MoveTypeEnv) (ev : MovesEvaluator.t) (p : Problem.t A)
    (call : nat) (hotContainer : Z) (timeLimit : double) : result MoveResult.t :=
  async_findBestMove (singleEndChain_explore env ev p hotContainer)
    (SingleMoveType.attemptMoveWithThisObject p) None env p call hotContainer timeLimit.

(** ** TripleLoopMoveType *)
Definition tripleLoop_explore (env : MoveTypeEnv) (ev : MovesEvaluator.t) (p : Problem.t A)
    (hot_container hotObject cold_container : Z) : result MoveResult.t :=
  if not_accepting env cold_container then Ok empty
  else
    inv ← invalid env hotObject cold_container;
    if (inv : bool) then Ok empty
    else
      dedupedObjs ← MoveTypeUtils.dedupedObjects env p cold_container;
      foldM (λ best coldObject,
        if fixed p coldObject then Ok best
        else foldM (λ best cold_container2,
          if (cold_container2 =? hot_container) || (cold_container2 =? cold_container) then Ok best
          else if not_accepting env cold_container2 then Ok best
          else
            inv ← invalid env coldObject cold_container2;
            if (inv : bool) then Ok best
            else
              deduped_objs2 ← MoveTypeUtils.dedupedObjects env p cold_container2;
              foldM (λ best cold_object2,
                if fixed p cold_object2 then Ok best
                else
                  inv ← invalid env cold_object2 hot_container;
                  if (inv : bool) then Ok best
                  else
                    r ← MovesEvaluator.evaluate ev p
                          [move hotObject hot_container cold_container;
                           move coldObject cold_container cold_container2;
                           move cold_object2 cold_container2 hot_container];
                    MoveResult.aggregate best r) best deduped_objs2) best (all_containers env))
        empty dedupedObjs.

Definition tripleLoop_findBestMove (env : MoveTypeEnv) (ev : MovesEvaluator.t) (p : Problem.t A)
    (call : nat) (hotContainer : Z) (timeLimit : double) : result MoveResult.t :=
  async_findBestMove (tripleLoop_explore env ev p hotContainer)
    (SingleMoveType.attemptMoveWithThisObject p) None env p call hotContainer timeLimit.

(** ** AsyncDestinationsMoveType

    [explore] is the virtual method [exploreFromAllDestinations]. *)
Definition destinations_findBestMove (explore : Z → result MoveResult.t) (env : MoveTypeEnv)
    (call : nat) (hotContainer : Z) (timeLimit : double) : result MoveResult.t :=
  MoveHelper.findBest (executor env call 0 0)
    (filter (λ c, SingleMoveType.accepting env hotContainer c = true) (all_containers env))
    explore timeLimit.

(** ** SwapFullContainersMoveType *)
Definition isContainerEmpty (p : Problem.t A) (container : Z) : bool :=
  (length (Assignment.getObjects (Problem.assignment p) container) =? 0)%nat.

(** The loop of [canMoveAllObjects]. *)
Fixpoint canMoveAll (env : MoveTypeEnv) (p : Problem.t A) (dst : Z) (objects : list Z) : result bool :=
  match objects with
  | [] => Ok true
  | o :: objects =>
      if fixed p o then Ok false
      else
        inv ← invalid env o dst;
        if (inv : bool) then Ok false else canMoveAll env p dst objects
  end.

Definition canSwapObjects (env : MoveTypeEnv) (p : Problem.t A) (hot_container cold_container : Z)
    : result bool :=
  if not_accepting env hot_container && negb (isContainerEmpty p cold_container) then Ok false
  else
    a ← canMoveAll env p cold_container (Assignment.getObjects (Problem.assignment p) hot_container);
    if (a : bool)
    then canMoveAll env p hot_container (Assignment.getObjects (Problem.assignment p) cold_container)
    else Ok false.

Definition insertAllMovesFromSrcToDest (p : Problem.t A) (src_container dest_container : Z)
    (moves : list Move) : list Move :=
  moves ++ ((λ o, move o src_container dest_container) <$>
              Assignment.getObjects (Problem.assignment p) src_container).

Definition swapFull_explore (env : MoveTypeEnv) (ev : MovesEvaluator.t) (p : Problem.t A)
    (hot_container cold_container : Z) : result MoveResult.t :=
  can ← canSwapObjects env p hot_container cold_container;
  if negb can then Ok empty
  else MovesEvaluator.evaluate ev p
         (insertAllMovesFromSrcToDest p hot_container cold_container
            (insertAllMovesFromSrcToDest p cold_container hot_container [])).

Definition swapFullWithEmpty_explore (env : MoveTypeEnv) (ev : MovesEvaluator.t) (p : Problem.t A)
    (hot_container cold_container : Z) : result MoveResult.t :=
  if negb (isContainerEmpty p hot_container) && negb (isContainerEmpty p cold_container)
  then Ok empty
  else swapFull_explore env ev p hot_container cold_container.

(** ** KLSearchMoveType *)
Definition kl_filter (env : MoveTypeEnv) (sourceIds : list Z) (removeIds : gset Z) (toContainer : Z)
    : result (list Z) :=
  MoveHelper.filterM (λ id,
    if bool_decide (id ∈ removeIds) then Ok false
    else inv ← invalid env id toContainer; Ok (negb inv)) sourceIds.

Definition exploreAllMovesFromContainer (env : MoveTypeEnv) (ev : MovesEvaluator.t) (p : Problem.t A)
    (fromContainer toContainer : Z) (baseMoves : list Move) (objectsTried : gset Z)
    : result MoveResult.t :=
  filteredObjs ← kl_filter env (Assignment.getDynamicObjects (Problem.assignment p) fromContainer)
                   objectsTried toContainer;
  dedupedObjs ← ObjectDeduper.objects (equivalence env) filteredObjs;
  foldM (λ bestResult obj,
    if bool_decide (obj ∈ objectsTried) then Ok bestResult
    else if fixed p obj then Ok bestResult
    else
      r ← MovesEvaluator.evaluate ev p
            (MoveSet_insert baseMoves (move obj fromContainer toContainer));
      MoveResult.aggregate bestResult r) empty dedupedObjs.

(** The while loop; each pass tries one more object, so the number of objects of
    the two containers is enough fuel. *)
Fixpoint kl_loop (fuel : nat) (env : MoveTypeEnv) (ev : MovesEvaluator.t) (p : Problem.t A)
    (hotContainer coldContainer : Z) (bestResult : MoveResult.t) (allMoves : list Move)
    (objectsTried : gset Z) : result MoveResult.t :=
  let hotContainerSize := length (Assignment.getDynamicObjects (Problem.assignment p) hotContainer) in
  let coldContainerSize := length (Assignment.getDynamicObjects (Problem.assignment p) coldContainer) in
  if (size objectsTried <? coldContainerSize + hotContainerSize)%nat
  then match fuel with
  | O => Throw (undefined_behaviour "out of fuel")
  | S fuel =>
      r1 ← exploreAllMovesFromContainer env ev p hotContainer coldContainer allMoves objectsTried;
      pass1 ← MoveResult.aggregate empty r1;
      r2 ← exploreAllMovesFromContainer env ev p coldContainer hotContainer allMoves objectsTried;
      currentPassResults ← MoveResult.aggregate pass1 r2;
      if MoveResult.empty_ currentPassResults then Ok bestResult
      else
        let allMoves' := MoveResult.moveSet_ currentPassResults in
        match last allMoves' with
        | None => Throw (undefined_behaviour "the end of an empty sequence")
        | Some m =>
            best' ← MoveResult.aggregate bestResult currentPassResults;
            kl_loop fuel env ev p hotContainer coldContainer best' allMoves'
              ({[move_object m]} ∪ objectsTried)
        end
  end
  else Ok bestResult.

Definition kl_explore (env : MoveTypeEnv) (ev : MovesEvaluator.t) (p : Problem.t A)
    (hotContainer coldContainer : Z) : result MoveResult.t :=
  kl_loop (length (Assignment.getDynamicObjects (Problem.assignment p) hotContainer) +
           length (Assignment.getDynamicObjects (Problem.assignment p) coldContainer))
    env ev p hotContainer coldContainer empty [] ∅.

(** The single move type is the instance of the parallel loop that tries the move
    itself. *)
Lemma single_is_async es (env : MoveTypeEnv) ev p call hot limit :
  SingleMoveType.findBestMove hash false es env ev p call hot limit None =
  async_findBestMove (SingleMoveType.exploreFromAllSingleMoves hash env ev p hot)
    (SingleMoveType.attemptMoveWithThisObject p) None env p call hot limit.
Proof. done. Qed.

(** ** The promises *)
Section sound.
Context `{LG : !LawfulGraph G} `{EG : !EvaluableGraph G} `{SE : !SearchEnv A}.
Context (p0 : Problem.t A) (ps : LocalSearch.Params) (env : MoveTypeEnv) (f : Z → Z).
Context (Hu : MoveHelper.usable p0 ps env f) (Henv : env_ok env).
Section state.
Context (p : Problem.t A) (Hw : Problem.wf p) (Hrun : LocalSearch.same_run p0 p).
Abbreviation sound := (MoveHelper.sound_result hash ps p).
Abbreviation place := (Assignment.objectToContainer (Problem.assignment p)).
Abbreviation ev := (LocalSearch.evaluator ps).
Abbreviation containers := (LocalSearch.containers ps).

Lemma containers_ok c : c ∈ all_containers env → c ∈ containers.
Proof. apply (MoveHelper.um_containers _ _ _ _ Hu). Qed.

Lemma accepting_ok hot c : SingleMoveType.accepting env hot c = true → c ≠ hot.
Proof. unfold SingleMoveType.accepting. intros [H _]%andb_true_iff ->. by rewrite Z.eqb_refl in H. Qed.

Lemma async_hot_ok explore attempt custom call hot limit os :
  (∀ o, o ∈ os → place !! o = Some hot) →
  (∀ c, c ∈ default (all_containers env) custom → c ∈ containers) →
  (∀ o c, place !! o = Some hot → c ∈ containers → c ≠ hot → ∃ r, explore o c = Ok r ∧ sound r) →
  ∃ r, async_findBestMoveOfHotObjects explore attempt custom env call hot limit os = Ok r ∧ sound r.
Proof.
  intros Hos Hc He. unfold async_findBestMoveOfHotObjects.
  match goal with |- context [CoroUtils.parallelMapReduceAllPairs ?g _ _ _ _ ?a ?b] =>
    set (work := g); set (v1 := a); set (v2 := b) end.
  assert (∀ o c, o ∈ v1 → c ∈ v2 → ∃ r, work o c = Ok r ∧ sound r) as Hwork.
  { intros o c [_ Ho]%list_elem_of_filter [Ha Hin]%list_elem_of_filter. unfold work.
    destruct (_ <=? _)%D; [exists empty; split; [done|apply MoveTypeUtils.empty_ok]|].
    apply He; [by apply Hos|by apply Hc|by apply accepting_ok]. }
  set (w := λ o c, match work o c with Ok r => r | Throw _ => empty end).
  destruct (SingleMoveType.parallel_best (SingleMoveType.outcomes ev p)
    (length (expr_value (Problem.graph p) <$> LocalSearchObjective.combinedObjective
       (MovesEvaluator.minimizingGoal ev)))
    (LocalSearchObjective.hasPenalty (MovesEvaluator.minimizingGoal ev)) (SingleMoveType.arbiter_size ev)
    (MoveHelper.family_prefix_free p0 ps env f Hu p Hw) work w v1 v2)
    with (threads := numThreads env) (order := schedule env call) as (best & -> & (x & Hx & Ex) & _).
  - intros o c Ho Hc'. destruct (Hwork o c Ho Hc') as (r & Er & Hr). unfold w. rewrite Er.
    split; [done|]. split; apply Hr.
  - intros m Hm. pose proof (MoveHelper.um_threads _ _ _ _ Hu m Hm). lia.
  - apply (MoveHelper.um_schedule _ _ _ _ Hu).
  - exists best. split; [done|]. rewrite Ex. apply MoveHelper.sound_take_best.
    destruct Hx as [->|([o c] & -> & [Ho Hc']%CoroUtils.all_pairs_elem)%list_elem_of_fmap];
      [apply MoveTypeUtils.empty_ok|].
    destruct (Hwork o c Ho Hc') as (r & Er & Hr). unfold w. simpl. by rewrite Er.
Qed.

Lemma async_ok explore attempt custom call hot limit :
  (∀ c, c ∈ default (all_containers env) custom → c ∈ containers) →
  (∀ o c, place !! o = Some hot → c ∈ containers → c ≠ hot → ∃ r, explore o c = Ok r ∧ sound r) →
  ∃ r, async_findBestMove explore attempt custom env p call hot limit = Ok r ∧ sound r.
Proof.
  intros Hc He. unfold async_findBestMove.
  destruct (MoveTypeUtils.deduped_ok p0 ps env f Hu p Hw Hrun hot) as (os & -> & Hos).
  cbn [mbind result_bind]. by apply async_hot_ok.
Qed.

Lemma aggregateGreedy_ok greedy best r : sound best → sound r →
  ∃ b best', aggregateGreedy greedy (precision p) best r = Ok (b, best') ∧ sound best'.
Proof.
  intros H1 H2. unfold aggregateGreedy.
  destruct (MoveTypeUtils.aggregate_ok hash ps p best r H1 H2) as (best' & -> & H').
  cbn [mbind result_bind]. destruct greedy; [|eauto].
  destruct (MoveHelper.sr_better hash ps p best' H') as [b ->]. cbn [mbind result_bind]. eauto.
Qed.

Lemma chain_result_ok hot o cold other oo :
  place !! o = Some hot → place !! oo = Some other → other ≠ hot →
  hot ∈ containers → cold ∈ containers →
  ∃ r, generateMoveSetAndGetResult ev p o hot cold oo other = Ok r ∧ sound r.
Proof.
  intros Ho Hoo Hne Hh Hc. apply (MoveTypeUtils.evaluate_ok hash p0 ps env f Hu p Hw Hrun).
  apply (MoveTypeUtils.candidate_two hash p0 ps env f Hu p Hw Hrun); [done|done| |done|done]. intros ->. congruence.
Qed.

Lemma loop_sound {X} (body : nat → MoveResult.t → X → result (bool * MoveResult.t)) l :
  (∀ i best x, x ∈ l → sound best → ∃ b best', body i best x = Ok (b, best') ∧ sound best') →
  ∃ r, ('(_, best) ← forLoop body 0 empty l; Ok best) = Ok r ∧ sound r.
Proof.
  intros Hb. destruct (forLoop_total sound body l Hb 0%nat empty) as (b & r & -> & Hr);
    [apply MoveTypeUtils.empty_ok|]. cbn [mbind result_bind]. eauto.
Qed.

(** The groups know every object of the problem. *)
Definition groups_ok (gs : Groups) : Prop :=
  (∀ o, o ∈ dom (Assignment.objectToContainer (Problem.assignment p0)) → ∃ g, onlyGroup gs o = Ok g) ∧
  (∀ g o, o ∈ objectsOf gs g → o ∈ dom (Assignment.objectToContainer (Problem.assignment p0))).

Lemma exploreAll_ok hot o cold other greedy :
  place !! o = Some hot → other ≠ hot → hot ∈ containers → cold ∈ containers →
  ∃ r, exploreAllAndGetBestResult env ev p hot o cold other greedy = Ok r ∧ sound r.
Proof.
  intros Ho Hne Hh Hc. unfold exploreAllAndGetBestResult.
  destruct (MoveTypeUtils.deduped_ok p0 ps env f Hu p Hw Hrun other) as (os & -> & Hos).
  cbn [mbind result_bind]. apply loop_sound. intros i best oo Hoo Hb.
  destruct (MoveTypeUtils.filter_answers p0 ps env f Hu p Hrun oo other hot (Hos oo Hoo) Hh) as [x ->].
  cbn [mbind result_bind]. destruct x; [eauto|].
  destruct (chain_result_ok hot o cold other oo) as (r & -> & Hr); auto.
  cbn [mbind result_bind]. by apply aggregateGreedy_ok.
Qed.

Lemma exploreWithin_ok gs hot o cold other greedy :
  groups_ok gs → place !! o = Some hot → other ≠ hot → hot ∈ containers → cold ∈ containers →
  ∃ r, exploreWithinGroupAndGetBestResult gs env ev p hot o cold other greedy = Ok r ∧ sound r.
Proof.
  intros [Hg1 Hg2] Ho Hne Hh Hc. unfold exploreWithinGroupAndGetBestResult.
  destruct (Hg1 o) as [[g|] ->]; [by eapply (MoveTypeUtils.placed_dom p0 p Hrun)| |];
    cbn [mbind result_bind]; [|exists empty; split; [done|apply MoveTypeUtils.empty_ok]].
  assert (∀ q, q ∈ objectsOf gs g → is_Some (place !! q)) as Hpl.
  { intros q Hq%Hg2. destruct Hrun as [_ D]. rewrite <- D in Hq. by apply elem_of_dom in Hq. }
  match goal with |- context [MoveHelper.filterM ?k (objectsOf gs g)] =>
    destruct (MoveHelper.filterM_ok k (objectsOf gs g)) as (rel & -> & Hrel) end.
  { intros q Hq. destruct (Hpl q Hq) as [c Ec]. unfold Assignment.getContainer. rewrite Ec.
    cbn [at_ mbind result_bind]. destruct (c =? other); [|eauto].
    destruct (MoveTypeUtils.filter_answers p0 ps env f Hu p Hrun q c hot Ec Hh) as [x ->]. simpl. eauto. }
  cbn [mbind result_bind].
  destruct (MoveTypeUtils.deduper_ok p0 ps env f Hu p Hrun rel) as (os & -> & Hos).
  { intros q [Hq _]%Hrel. by apply Hpl. }
  cbn [mbind result_bind]. apply loop_sound. intros i best oo Hoo Hb.
  destruct (chain_result_ok hot o cold other oo) as (r & -> & Hr); auto.
  - apply Hos, Hrel in Hoo as [Hq E]. destruct (Hpl oo Hq) as [c Ec].
    unfold Assignment.getContainer in E. rewrite Ec in E. cbn [at_ mbind result_bind] in E.
    destruct (Z.eqb_spec c other) as [Eq|]; [by rewrite <- Eq|done].
  - cbn [mbind result_bind]. by apply aggregateGreedy_ok.
Qed.

Lemma exploreChains_ok partition hot greedy o cold :
  (∀ gs, partition = Some gs → groups_ok gs) →
  place !! o = Some hot → hot ∈ containers → cold ∈ containers →
  ∃ r, exploreChainsWithHotObjectToColdContainer partition env ev p hot greedy o cold = Ok r ∧ sound r.
Proof.
  intros Hg Ho Hh Hc. unfold exploreChainsWithHotObjectToColdContainer.
  destruct (MoveTypeUtils.filter_answers p0 ps env f Hu p Hrun o hot cold Ho Hc) as [x ->].
  cbn [mbind result_bind]. destruct x; [exists empty; split; [done|apply MoveTypeUtils.empty_ok]|].
  apply loop_sound. intros i best other Hother Hb.
  destruct (Z.eqb_spec other hot) as [|Hne]; [simpl; eauto|].
  destruct (other =? cold); [simpl; eauto|]. simpl.
  assert (∃ r, match partition with
      | Some gs => exploreWithinGroupAndGetBestResult gs env ev p hot o cold other greedy
      | None => exploreAllAndGetBestResult env ev p hot o cold other greedy
      end = Ok r ∧ sound r) as (r & -> & Hr).
  { destruct partition as [gs|]; [apply exploreWithin_ok|apply exploreAll_ok]; auto. }
  cbn [mbind result_bind]. by apply aggregateGreedy_ok.
Qed.

Lemma singleChain_ok partition special call hot limit :
  (∀ gs, partition = Some gs → groups_ok gs) → (∀ c, special = Some c → c ∈ containers) →
  hot ∈ containers →
  ∃ r, singleChain_findBestMove partition special env ev p call hot limit = Ok r ∧ sound r.
Proof.
  intros Hg Hsp Hh. apply async_ok.
  - destruct special as [c|]; simpl; [|apply containers_ok].
    intros c' ->%list_elem_of_singleton. by apply Hsp.
  - intros. by apply exploreChains_ok.
Qed.

Lemma singleChainFast_ok partition special call hot limit :
  (∀ gs, partition = Some gs → groups_ok gs) → (∀ c, special = Some c → c ∈ containers) →
  hot ∈ containers →
  ∃ r, singleChainFast_findBestMove partition special env ev p call hot limit = Ok r ∧ sound r.
Proof.
  intros Hg Hsp Hh. unfold singleChainFast_findBestMove.
  destruct (MoveTypeUtils.deduped_ok p0 ps env f Hu p Hw Hrun hot) as (os & -> & Hos).
  cbn [mbind result_bind]. apply loop_sound. intros i best o Ho Hb.
  destruct (_ <=? _)%D; [eauto|]. set (cold := filter _ _).
  assert (∀ c, c ∈ cold → c ∈ containers) as Hcold.
  { intros c [_ Hc]%list_elem_of_filter. destruct special as [c'|]; simpl in Hc; [|by apply containers_ok].
    apply list_elem_of_singleton in Hc as ->. by apply Hsp. }
  match goal with |- context [MoveHelper.filterM ?k cold] =>
    destruct (MoveHelper.filterM_ok k cold) as (l & -> & Hl) end.
  { intros c Hc. destruct (MoveTypeUtils.filter_answers p0 ps env f Hu p Hrun o hot c) as [x ->]; auto.
    simpl. eauto. }
  cbn [mbind result_bind].
  match goal with |- context [MoveHelper.findBest ?x ?l ?e ?t] =>
    destruct (MoveTypeUtils.findBest_ok hash p0 ps env f Hu p Hw Hrun x l e t) as (r & -> & Hr) end.
  { apply Henv. }
  { intros c [Hc _]%Hl. apply exploreChains_ok; auto. }
  cbn [mbind result_bind]. by apply (MoveTypeUtils.aggregateAndTest_ok hash ps p).
Qed.

Lemma fold_sound {X} (body : MoveResult.t → X → result MoveResult.t) l best :
  sound best → (∀ best x, x ∈ l → sound best → ∃ best', body best x = Ok best' ∧ sound best') →
  ∃ r, foldM body best l = Ok r ∧ sound r.
Proof. intros Hb Hl. apply foldM_total; [done|]. auto. Qed.

Lemma singleEndChain_ok call hot limit :
  ∃ r, singleEndChain_findBestMove env ev p call hot limit = Ok r ∧ sound r.
Proof.
  apply async_ok; [apply containers_ok|]. intros o c Ho Hc Hne. unfold singleEndChain_explore.
  assert (sound empty) as H0 by apply MoveTypeUtils.empty_ok.
  destruct (MoveTypeUtils.filter_answers p0 ps env f Hu p Hrun o hot c Ho Hc) as [x ->].
  cbn [mbind result_bind]. destruct x; [eauto|].
  destruct (MoveTypeUtils.deduped_ok p0 ps env f Hu p Hw Hrun c) as (os & -> & Hos).
  cbn [mbind result_bind]. apply fold_sound; [done|]. intros best co Hco Hb.
  apply fold_sound; [done|]. intros best' other Hother%containers_ok Hb'.
  destruct (_ || _); [eauto|].
  destruct (MoveTypeUtils.filter_answers p0 ps env f Hu p Hrun co c other (Hos co Hco) Hother) as [x ->].
  cbn [mbind result_bind]. destruct x; [eauto|].
  match goal with |- context [MovesEvaluator.evaluate ev p ?ms] =>
    destruct (MoveTypeUtils.evaluate_ok hash p0 ps env f Hu p Hw Hrun ms) as (r & -> & Hr) end.
  { apply (MoveTypeUtils.candidate_two hash p0 ps env f Hu p Hw Hrun); auto. intros ->. specialize (Hos o Hco). congruence. }
  cbn [mbind result_bind]. by apply (MoveTypeUtils.aggregate_ok hash ps p).
Qed.

Lemma tripleLoop_ok call hot limit :
  hot ∈ containers →
  ∃ r, tripleLoop_findBestMove env ev p call hot limit = Ok r ∧ sound r.
Proof.
  intros Hh. apply async_ok; [apply containers_ok|]. intros o c Ho Hc Hne. unfold tripleLoop_explore.
  assert (sound empty) as H0 by apply MoveTypeUtils.empty_ok.
  destruct (not_accepting env c); [eauto|].
  destruct (MoveTypeUtils.filter_answers p0 ps env f Hu p Hrun o hot c Ho Hc) as [x ->].
  cbn [mbind result_bind]. destruct x; [eauto|].
  destruct (MoveTypeUtils.deduped_ok p0 ps env f Hu p Hw Hrun c) as (os & -> & Hos).
  cbn [mbind result_bind]. apply fold_sound; [done|]. intros best co Hco Hb.
  destruct (fixed p co); [eauto|].
  apply fold_sound; [done|]. intros best2 c2 Hc2%containers_ok Hb2.
  destruct (Z.eqb_spec c2 hot) as [|N1]; [simpl; eauto|]. destruct (Z.eqb_spec c2 c) as [|N2]; [simpl; eauto|].
  simpl. destruct (not_accepting env c2); [eauto|].
  destruct (MoveTypeUtils.filter_answers p0 ps env f Hu p Hrun co c c2 (Hos co Hco) Hc2) as [x ->].
  cbn [mbind result_bind]. destruct x; [eauto|].
  destruct (MoveTypeUtils.deduped_ok p0 ps env f Hu p Hw Hrun c2) as (os2 & -> & Hos2).
  cbn [mbind result_bind]. apply fold_sound; [done|]. intros best3 co2 Hco2 Hb3.
  destruct (fixed p co2); [eauto|].
  destruct (MoveTypeUtils.filter_answers p0 ps env f Hu p Hrun co2 c2 hot (Hos2 co2 Hco2) Hh) as [x ->].
  cbn [mbind result_bind]. destruct x; [eauto|].
  match goal with |- context [MovesEvaluator.evaluate ev p ?ms] =>
    destruct (MoveTypeUtils.evaluate_ok hash p0 ps env f Hu p Hw Hrun ms) as (r & -> & Hr) end.
  { pose proof (Hos co Hco) as P1. pose proof (Hos2 co2 Hco2) as P2.
    apply (MoveTypeUtils.candidate_moves hash ps p [(o, hot, c); (co, c, c2); (co2, c2, hot)]).
    - simpl. repeat (apply NoDup_cons; split); [| | |constructor];
        rewrite ?elem_of_cons, ?elem_of_nil; intros Hin; repeat destruct Hin as [Hin|Hin]; subst; congruence.
    - intros ? ? ? [[= -> -> ->]|[[= -> -> ->]|[= -> -> ->]%list_elem_of_singleton]%elem_of_cons]%elem_of_cons; done. }
  cbn [mbind result_bind]. by apply (MoveTypeUtils.aggregate_ok hash ps p).
Qed.

Lemma destinations_ok explore call hot limit :
  (∀ c, c ∈ containers → c ≠ hot → ∃ r, explore c = Ok r ∧ sound r) →
  ∃ r, destinations_findBestMove explore env call hot limit = Ok r ∧ sound r.
Proof.
  intros He. apply (MoveTypeUtils.findBest_ok hash p0 ps env f Hu p Hw Hrun); [apply Henv|].
  intros c [Ha Hc]%list_elem_of_filter. apply He; [by apply containers_ok|by apply accepting_ok].
Qed.

(** *** Exchanging the contents of two containers *)
Lemma canMoveAll_ok dst os :
  dst ∈ containers → (∀ o, o ∈ os → is_Some (place !! o)) →
  ∃ b, canMoveAll env p dst os = Ok b ∧
    (b = true → ∀ o, o ∈ os → o ∉ Problem.fixed_objects p ∧ invalid env o dst = Ok false).
Proof.
  intros Hd. induction os as [|o os IH]; intros Hos; simpl; [exists true; set_solver|].
  case_bool_decide as Hf; [by exists false|].
  destruct (Hos o) as [c Ec]; [set_solver|].
  destruct (MoveTypeUtils.filter_answers p0 ps env f Hu p Hrun o c dst Ec Hd) as [x Ex]. rewrite Ex.
  cbn [mbind result_bind]. destruct x; [by exists false|].
  destruct IH as (b & -> & Hb); [set_solver|]. exists b. split; [done|].
  intros Hbt o' [->|Ho']%elem_of_cons; [done|by apply Hb].
Qed.

Lemma objects_placed c o : o ∈ Assignment.getObjects (Problem.assignment p) c ↔ place !! o = Some c.
Proof. apply Assignment.elem_of_getObjects, Hw. Qed.

Lemma objects_NoDup c : NoDup (Assignment.getObjects (Problem.assignment p) c).
Proof.
  unfold Assignment.getObjects.
  destruct (Assignment.containerToObjects (Problem.assignment p) !! c) as [st|] eqn:E; simpl; [|constructor].
  eapply ObjectStore.iter_NoDup.
  by eapply (Assignment.inv_stores _ (Problem.wf_assignment p Hw)).
Qed.

Lemma swap_candidate hot cold : hot ≠ cold → hot ∈ containers → cold ∈ containers →
  MoveHelper.candidate hash ps p
    (insertAllMovesFromSrcToDest p hot cold (insertAllMovesFromSrcToDest p cold hot [])).
Proof.
  intros Hne Hh Hc. unfold insertAllMovesFromSrcToDest. simpl.
  set (l := ((λ o, (o, cold, hot)) <$> Assignment.getObjects (Problem.assignment p) cold) ++
            ((λ o, (o, hot, cold)) <$> Assignment.getObjects (Problem.assignment p) hot)).
  match goal with |- MoveHelper.candidate _ _ _ ?x =>
    replace x with ((λ '(o, src, dst), makeMove hash o src dst) <$> l)
      by (unfold l; by rewrite fmap_app, <- !list_fmap_compose) end.
  apply MoveTypeUtils.candidate_moves.
  - unfold l. rewrite !fmap_app, <- !list_fmap_compose.
    apply NoDup_app. split; [|split].
    + rewrite (list_fmap_id _). apply objects_NoDup.
    + intros o Ho Ho'. rewrite (list_fmap_id _), objects_placed in Ho.
      rewrite (list_fmap_id _), objects_placed in Ho'. congruence.
    + rewrite (list_fmap_id _). apply objects_NoDup.
  - intros o src dst [(q & [= -> -> ->] & Hq)%list_elem_of_fmap|
      (q & [= -> -> ->] & Hq)%list_elem_of_fmap]%elem_of_app; by rewrite <- objects_placed.
Qed.

Lemma swapFull_ok hot cold : hot ≠ cold → hot ∈ containers → cold ∈ containers →
  ∃ r, swapFull_explore env ev p hot cold = Ok r ∧ sound r.
Proof.
  intros Hne Hh Hc. unfold swapFull_explore, canSwapObjects.
  assert (∀ c o, o ∈ Assignment.getObjects (Problem.assignment p) c → is_Some (place !! o)) as Hpl
    by (intros c o ->%objects_placed; eauto).
  assert (sound empty) as Hempty by apply MoveTypeUtils.empty_ok.
  destruct (not_accepting env hot && _); [exists empty; done|].
  destruct (canMoveAll_ok cold (Assignment.getObjects (Problem.assignment p) hot) Hc) as (a & -> & _);
    [apply Hpl|].
  cbn [mbind result_bind]. destruct a; [|exists empty; done].
  destruct (canMoveAll_ok hot (Assignment.getObjects (Problem.assignment p) cold) Hh) as (b & -> & _);
    [apply Hpl|].
  cbn [mbind result_bind]. destruct b; [|exists empty; done]. simpl.
  apply (MoveTypeUtils.evaluate_ok hash p0 ps env f Hu p Hw Hrun). by apply swap_candidate.
Qed.

Lemma swapFullWithEmpty_ok hot cold : hot ≠ cold → hot ∈ containers → cold ∈ containers →
  ∃ r, swapFullWithEmpty_explore env ev p hot cold = Ok r ∧ sound r.
Proof.
  intros. unfold swapFullWithEmpty_explore.
  destruct (_ && _); [exists empty; split; [done|apply MoveTypeUtils.empty_ok]|by apply swapFull_ok].
Qed.

(** *** Kernighan-Lin passes *)

(** What a pass returns: nothing, or the moves so far and one of an object not
    tried yet. *)
Definition extends (base : list Move) (tried : gset Z) (r : MoveResult.t) : Prop :=
  sound r ∧
  (MoveResult.empty_ r = false →
   ∃ o src dst, place !! o = Some src ∧ dst ∈ containers ∧ o ∉ tried ∧
     MoveResult.moveSet_ r = base ++ [move o src dst]).

Lemma extends_empty base tried : extends base tried empty.
Proof. split; [apply MoveTypeUtils.empty_ok|done]. Qed.

Lemma extends_aggregate base tried r1 r2 :
  extends base tried r1 → extends base tried r2 →
  ∃ r, MoveResult.aggregate r1 r2 = Ok r ∧ extends base tried r.
Proof.
  intros [S1 E1] [S2 E2].
  destruct (MoveHelper.sound_aggregate hash ps p r1 r2 S1 S2) as (r & E & Hr & (x & Hx & Ex) & _).
  exists r. split; [done|]. split; [done|]. rewrite Ex. simpl.
  by destruct Hx as [-> | ->].
Qed.

Lemma evaluate_moveSet ms r :
  MovesEvaluator.evaluate ev p ms = Ok r → MoveResult.empty_ r = false ∧ MoveResult.moveSet_ r = ms.
Proof.
  unfold MovesEvaluator.evaluate. intros E.
  repeat (match type of E with
          | mbind _ ?x = Ok _ => apply bind_Ok in E as (? & ? & E)
          | (if ?b then _ else _) = Ok _ => destruct b
          | match ?x with Some _ => _ | None => _ end = Ok _ => destruct x
          | (let '(_, _) := ?x in _) = Ok _ => destruct x
          end; cbn beta zeta in E).
  all: by injection E as <-.
Qed.

(** The moves made so far: legal, and only of objects that were tried. *)
Definition partial (base : list Move) (tried : gset Z) : Prop :=
  MoveHelper.candidate hash ps p base ∧ ∀ m, m ∈ base → move_object m ∈ tried.

Lemma partial_snoc base tried o src dst :
  partial base tried → o ∉ tried → place !! o = Some src → dst ∈ containers →
  partial (base ++ [move o src dst]) ({[o]} ∪ tried).
Proof.
  intros [[[L1 L2 L3] Hd] Ht] Hn Ho Hc. split; [split; [split|]|].
  - rewrite fmap_app. apply NoDup_app. split; [done|]. split; [|apply NoDup_singleton].
    intros q (m & -> & Hm)%list_elem_of_fmap Hq%list_elem_of_singleton. simpl in Hq.
    apply Hn. rewrite <- Hq. by apply Ht.
  - apply Forall_app. split; [done|]. by apply Forall_singleton.
  - intros m [Hm| ->%list_elem_of_singleton]%elem_of_app; [by apply L3|done].
  - intros m [Hm| ->%list_elem_of_singleton]%elem_of_app; [by apply Hd|done].
  - intros m [Hm| ->%list_elem_of_singleton]%elem_of_app; simpl; [|set_solver].
    apply elem_of_union_r. by apply Ht.
Qed.

Lemma exploreAllMoves_ok src dst base tried :
  partial base tried → dst ∈ containers →
  ∃ r, exploreAllMovesFromContainer env ev p src dst base tried = Ok r ∧ extends base tried r.
Proof.
  intros Hp Hd. unfold exploreAllMovesFromContainer, kl_filter.
  set (ds := Assignment.getDynamicObjects _ _).
  assert (∀ o, o ∈ ds → place !! o = Some src) as Hds.
  { intros o Ho. apply Assignment.elem_of_getDynamicObjects in Ho as [? _]; [done|apply Hw]. }
  clearbody ds.
  match goal with |- context [MoveHelper.filterM ?k ds] =>
    destruct (MoveHelper.filterM_ok k ds) as (l & -> & Hl) end.
  { intros o Ho. case_bool_decide; [eauto|].
    destruct (MoveTypeUtils.filter_answers p0 ps env f Hu p Hrun o src dst) as [x ->]; auto. simpl. eauto. }
  cbn [mbind result_bind].
  destruct (MoveTypeUtils.deduper_ok p0 ps env f Hu p Hrun l) as (os & -> & Hos).
  { intros o [Ho _]%Hl. rewrite (Hds o Ho). eauto. }
  cbn [mbind result_bind].
  apply (foldM_total (λ r, extends base tried r)); [apply extends_empty|].
  intros best o Ho Hb. case_bool_decide as Hn; [eauto|]. destruct (fixed p o); [eauto|].
  assert (place !! o = Some src) as Hpl by (apply Hds, Hl, Hos, Ho).
  destruct (MoveTypeUtils.evaluate_ok hash p0 ps env f Hu p Hw Hrun (base ++ [move o src dst]))
    as (r & Er & Hr); [by apply (partial_snoc base tried)|].
  unfold MoveSet_insert. rewrite Er. cbn [mbind result_bind].
  apply extends_aggregate; [done|]. split; [done|]. intros _. exists o, src, dst.
  by destruct (evaluate_moveSet _ _ Er).
Qed.

Lemma kl_loop_ok hot cold fuel : ∀ best base tried,
  hot ∈ containers → cold ∈ containers → sound best → partial base tried →
  (length (Assignment.getDynamicObjects (Problem.assignment p) cold) +
   length (Assignment.getDynamicObjects (Problem.assignment p) hot) ≤ fuel + size tried)%nat →
  ∃ r, kl_loop fuel env ev p hot cold best base tried = Ok r ∧ sound r.
Proof.
  induction fuel as [|fuel IH]; intros best base tried Hh Hc Hb Hp Hfuel; simpl;
    destruct (Nat.ltb_spec (size tried)
      (length (Assignment.getDynamicObjects (Problem.assignment p) cold) +
       length (Assignment.getDynamicObjects (Problem.assignment p) hot))) as [Hlt|]; [lia|eauto| |eauto].
  destruct (exploreAllMoves_ok hot cold base tried Hp Hc) as (r1 & -> & H1). cbn [mbind result_bind].
  destruct (extends_aggregate base tried empty r1) as (q1 & -> & Q1); [apply extends_empty|done|].
  cbn [mbind result_bind].
  destruct (exploreAllMoves_ok cold hot base tried Hp Hh) as (r2 & -> & H2). cbn [mbind result_bind].
  destruct (extends_aggregate base tried q1 r2 Q1 H2) as (q2 & -> & Q2). cbn [mbind result_bind].
  destruct (MoveResult.empty_ q2) eqn:Ee; [eauto|].
  destruct Q2 as [Sq Hq]. destruct (Hq Ee) as (o & src & dst & Ho & Hd & Hn & ->).
  rewrite last_snoc.
  destruct (MoveTypeUtils.aggregate_ok hash ps p best q2 Hb Sq) as (b' & -> & Hb'). cbn [mbind result_bind].
  apply IH; [done|done|done|by apply partial_snoc|]. simpl. rewrite size_union by set_solver.
  rewrite size_singleton. lia.
Qed.

Lemma kl_ok hot cold : hot ∈ containers → cold ∈ containers →
  ∃ r, kl_explore env ev p hot cold = Ok r ∧ sound r.
Proof.
  intros Hh Hc. apply kl_loop_ok; [done|done|apply MoveTypeUtils.empty_ok| |].
  - split; [|set_solver]. split; [split|]; [constructor|constructor|intros m Hm; set_solver..].
  - rewrite size_empty. lia.
Qed.
End state.
End sound.
End types.
End Chains.
