(* ===== verification/Sampling.v ===== *)
(** * Random samples

    [getRandomSample], [getSamplesSizeForEachSet] and
    [getEqualSizeRandomSamplesFromEachSetIn] (solver/moves/MoveTypeUtils.h): a
    sample of bounded size is drawn from several sets so that the sets contribute
    as equally as their sizes allow.  The generator is a parameter with the
    documented behaviour of the standard distributions; every statement holds
    for all of its draws. *)

From S2P Require Import Prelude.

(** A generator of random numbers: [uniform r n] draws below [n],
    [shuffle] permutes. *)
Class Rng (R : Type) := {
  uniform : R → nat → nat * R;
  shuffle : R → list nat → list nat * R;
  uniform_lt r n : (0 < n)%nat → ((uniform r n).1 < n)%nat;
  shuffle_perm r l : (shuffle r l).1 ≡ₚ l
}.

Module Sampling.
Section sampling.
Context `{RG : Rng R} {X : Type} `{EqX : !EqDecision X}.
Implicit Types (r : R) (l ids : list X).

(** [std::sample] over forward iterators: each element is taken with the
    probability that keeps the sample uniform, in the order of the range. *)
Fixpoint std_sample r (n : nat) l : list X * R :=
  match n, l with
  | O, _ | _, [] => ([], r)
  | S n', x :: l' =>
      let '(u, r1) := uniform r (length l) in
      if (u <? n)%nat
      then let '(s, r2) := std_sample r1 n' l' in (x :: s, r2)
      else std_sample r1 n l'
  end.

Definition getRandomSample r (idsCollection : list X) (sampleSize : nat)
    (idToExcludeFromSample : option X) : list X * R :=
  if (sampleSize =? 0)%nat then ([], r)
  else match idToExcludeFromSample with
  | Some id => std_sample r sampleSize (filter (λ x, x ≠ id) idsCollection)
  | None => std_sample r sampleSize idsCollection
  end.

(** The loop of [getSamplesSizeForEachSet]: [info] holds how far each iterator is
    from its end.  A round visits every set, and no set survives more rounds than
    it has elements: the number of sets times the number of elements is enough
    fuel. *)
Fixpoint samplesLoop (fuel : nat) (setCount requiredSampleSize : nat) (indexes : list nat)
    (info setToSamplesToTake : list nat) (samplesTaken setsFinished index : nat)
    : result (list nat) :=
  if (samplesTaken <? requiredSampleSize)%nat && (setsFinished <? setCount)%nat
  then match fuel with
  | O => Throw (undefined_behaviour "out of fuel")
  | S fuel =>
      i ← at_ (indexes !! index);
      left ← at_ (info !! i);
      let next := Nat.modulo (index + 1) setCount in
      match left with
      | O => samplesLoop fuel setCount requiredSampleSize indexes info setToSamplesToTake
               samplesTaken setsFinished next
      | S left' =>
          n ← at_ (setToSamplesToTake !! i);
          samplesLoop fuel setCount requiredSampleSize indexes (<[i := left']> info)
            (<[i := S n]> setToSamplesToTake) (S samplesTaken)
            (if (left' =? 0)%nat then S setsFinished else setsFinished) next
      end
  end
  else Ok setToSamplesToTake.

Definition getSamplesSizeForEachSet r (idsList : list (list X)) (requiredSampleSize : nat)
    : result (list nat) * R :=
  let setCount := length idsList in
  let info := length <$> idsList in
  let '(indexes, r1) := shuffle r (seq 0 setCount) in
  (samplesLoop (setCount * sum_list info) setCount requiredSampleSize indexes info
     (replicate setCount 0%nat) 0 (length (filter (λ n, n = 0%nat) info)) 0, r1).
End sampling.

Section sets.
Context `{RG : Rng R}.
Implicit Types (r : R).

(** The loop over the sets in random order; [size_t] differences do not wrap, as
    no more than [total] elements are ever sampled. *)
Fixpoint sampleSets r (total : nat) (exclude : option Z) (sets : list (list Z))
    (setToSampleSize : list nat) (indexes : list nat) (sampledIds : gset Z)
    : result (gset Z * R) :=
  match indexes with
  | [] => Ok (sampledIds, r)
  | index :: indexes =>
      let toSample := (total - size sampledIds)%nat in
      if (toSample =? 0)%nat then Ok (sampledIds, r)
      else
        s ← at_ (setToSampleSize !! index);
        let sampleSize := Nat.min toSample s in
        if (sampleSize =? 0)%nat
        then sampleSets r total exclude sets setToSampleSize indexes sampledIds
        else
          ids ← at_ (sets !! index);
          let '(sample, r1) := getRandomSample r ids sampleSize exclude in
          sampleSets r1 total exclude sets setToSampleSize indexes
            (sampledIds ∪ list_to_set sample)
  end.

Definition getEqualSizeRandomSamplesFromEachSetIn r (inputCollection : list (list Z))
    (totalRequiredSampleSize : nat) (idToExcludeFromSample : option Z) : result (gset Z * R) :=
  if (totalRequiredSampleSize =? 0)%nat then Ok (∅, r)
  else
    let updateSampleSize :=
      match idToExcludeFromSample with
      | Some _ => S totalRequiredSampleSize
      | None => totalRequiredSampleSize
      end in
    let '(sizes, r1) := getSamplesSizeForEachSet r inputCollection updateSampleSize in
    setToSampleSize ← sizes;
    let '(indexes, r2) := shuffle r1 (seq 0 (length inputCollection)) in
    sampleSets r2 totalRequiredSampleSize idToExcludeFromSample inputCollection setToSampleSize
      indexes ∅.
End sets.

(** ** Samples *)
Section facts.
Context `{RG : Rng R} {X : Type} `{EqX : !EqDecision X}.
Implicit Types (r : R) (l : list X).

(** [std::sample] gives that many elements of the range, each at most once. *)
Lemma std_sample_spec l : ∀ r n,
  (std_sample r n l).1 `sublist_of` l ∧ length (std_sample r n l).1 = Nat.min n (length l).
Proof.
  induction l as [|x l IH]; intros r [|n]; simpl;
    [done|done|split; [apply sublist_nil_l|done]|].
  pose proof (uniform_lt r (S (length l)) ltac:(lia)) as Hu.
  destruct (uniform r (S (length l))) as [u r1]. simpl in Hu.
  destruct (Nat.ltb_spec u (S n)) as [Hl|Hl].
  - destruct (std_sample r1 n l) as [s r2] eqn:E. specialize (IH r1 n). rewrite E in IH.
    destruct IH as [H1 H2]. simpl in *. split; [by apply sublist_skip|lia].
  - destruct (IH r1 (S n)) as [H1 H2]. split; [by apply sublist_cons|]. rewrite H2. lia.
Qed.

Definition kept (exclude : option X) l : list X :=
  match exclude with Some id => filter (λ x, x ≠ id) l | None => l end.

Lemma getRandomSample_spec r l n exclude :
  (getRandomSample r l n exclude).1 `sublist_of` kept exclude l ∧
  length (getRandomSample r l n exclude).1 = Nat.min n (length (kept exclude l)).
Proof.
  unfold getRandomSample. destruct (Nat.eqb_spec n 0) as [->|_].
  - split; [apply sublist_nil_l|done].
  - destruct exclude; apply std_sample_spec.
Qed.
End facts.

(** ** The sizes: round robin *)
Section rounds.
Context (sizes : list nat) (required : nat) (indexes : list nat).
Context (Hix : indexes ≡ₚ seq 0 (length sizes)).
Abbreviation n := (length sizes).
Abbreviation size_of i := (sizes !!! i).

(** What set [i] has given after [q] rounds and the visits to the first [k] sets
    of the next one. *)
Definition given (q : nat) (visited : bool) (size : nat) : nat :=
  Nat.min size (q + if visited then 1 else 0).

Record at_round (q k : nat) (info take : list nat) (taken finished : nat) : Prop := {
  ar_take : length take = n;
  ar_info : length info = n;
  ar_given j i : indexes !! j = Some i → take !! i = Some (given q (j <? k)%nat (size_of i));
  ar_left i t : take !! i = Some t → info !! i = Some (size_of i - t)%nat;
  ar_taken : taken = sum_list take;
  ar_finished : finished = sum_list_with (λ x, if (x =? 0)%nat then 1%nat else 0%nat) info
}.

Lemma index_lt j i : indexes !! j = Some i → (i < n)%nat.
Proof.
  intros H%list_elem_of_lookup_2. rewrite Hix in H. apply elem_of_seq in H. lia.
Qed.

Lemma index_pos i : (i < n)%nat → ∃ j, indexes !! j = Some i ∧ (j < n)%nat.
Proof.
  intros Hi. assert (i ∈ indexes) as H by (rewrite Hix; apply elem_of_seq; lia).
  apply list_elem_of_lookup_1 in H as [j Hj]. exists j. split; [done|].
  apply lookup_lt_Some in Hj. by rewrite Hix, length_seq in Hj.
Qed.

Lemma index_inj j j' i : indexes !! j = Some i → indexes !! j' = Some i → j = j'.
Proof. intros. eapply NoDup_lookup; [|done|done]. rewrite Hix. apply NoDup_seq. Qed.

Lemma sum_list_with_insert (f : nat → nat) (l : list nat) i x y :
  l !! i = Some x → (sum_list_with f (<[i := y]> l) + f x = sum_list_with f l + f y)%nat.
Proof.
  revert i. induction l as [|a l IH]; intros [|i] E; simpl in *; [done|done|injection E as ->; lia|].
  specialize (IH i E). lia.
Qed.

Lemma finished_all q k info take taken finished :
  at_round q k info take taken finished →
  (finished ≤ n)%nat ∧ (finished = n ↔ ∀ i, (i < n)%nat → take !! i = Some (size_of i)).
Proof.
  intros [H1 H2 H3 H4 _ ->].
  assert (∀ l : list nat,
    (sum_list_with (λ x, if (x =? 0)%nat then 1%nat else 0%nat) l ≤ length l)%nat ∧
    (sum_list_with (λ x, if (x =? 0)%nat then 1%nat else 0%nat) l = length l ↔
     ∀ i x, l !! i = Some x → x = 0%nat)) as Hall.
  { induction l as [|a l [I1 I2]]; simpl; [split; [lia|split; [by intros _ ??|done]]|].
    destruct (Nat.eqb_spec a 0) as [->|Ha].
    - split; [lia|]. split.
      + intros E [|i] x; simpl; [by intros [= <-]|]. apply I2. lia.
      + intros Hz. f_equal. apply I2. intros i x Hi. by apply (Hz (S i)).
    - split; [lia|]. split; [lia|]. intros Hz. by specialize (Hz 0%nat a eq_refl). }
  rewrite <- H2. destruct (Hall info) as [A1 A2]. split; [done|]. rewrite A2, H2. split.
  - intros Hz i Hi. destruct (index_pos i Hi) as (j & Hj & _). pose proof (H3 j i Hj) as Ht.
    specialize (Hz i _ (H4 i _ Ht)). rewrite Ht. f_equal. unfold given in *. lia.
  - intros Hs i x Hi. assert (i < n)%nat as Hlt by (rewrite <- H2; by eapply lookup_lt_Some).
    rewrite (H4 i _ (Hs i Hlt)) in Hi. injection Hi as <-. lia.
Qed.

(** One visit. *)
Lemma visit_empty q k i info take taken finished :
  at_round q k info take taken finished → indexes !! k = Some i → info !! i = Some 0%nat →
  at_round q (S k) info take taken finished.
Proof.
  intros [H1 H2 H3 H4 H5 H6] Hk Hi. split; [done|done| |done|done|done].
  intros j i' Hj. rewrite (H3 j i' Hj). f_equal. unfold given.
  destruct (Nat.ltb_spec j k), (Nat.ltb_spec j (S k)); try lia.
  assert (j = k) as -> by lia. rewrite Hk in Hj. injection Hj as <-.
  specialize (H4 i _ (H3 k i Hk)). rewrite Nat.ltb_irrefl in H4. unfold given in H4.
  rewrite Hi in H4. injection H4 as E. lia.
Qed.

Lemma visit_take q k i left info take taken finished :
  at_round q k info take taken finished → indexes !! k = Some i → info !! i = Some (S left) →
  ∃ t, take !! i = Some t ∧
    at_round q (S k) (<[i := left]> info) (<[i := S t]> take) (S taken)
      (if (left =? 0)%nat then S finished else finished).
Proof.
  intros [H1 H2 H3 H4 H5 H6] Hk Hi. pose proof (H3 k i Hk) as Ht. rewrite Nat.ltb_irrefl in Ht.
  pose proof (H4 i _ Ht) as Hl. rewrite Hi in Hl. injection Hl as Hl.
  eexists. split; [exact Ht|]. pose proof (index_lt k i Hk) as Hlt. unfold given in *. cbv iota in Ht, Hl |- *.
  split; [by rewrite length_insert|by rewrite length_insert| | | |].
  - intros j i' Hj. destruct (decide (i' = i)) as [->|Hne].
    + rewrite list_lookup_insert_eq by (rewrite H1; done).
      rewrite (index_inj j k i Hj Hk). destruct (Nat.ltb_spec k (S k)); [|lia]. f_equal. unfold given. cbv iota. lia.
    + rewrite list_lookup_insert_ne by done. rewrite (H3 j i' Hj). unfold given. do 3 f_equal.
      destruct (Nat.ltb_spec j k), (Nat.ltb_spec j (S k)); try lia.
      assert (j = k) as -> by lia. congruence.
  - intros i' t. destruct (decide (i' = i)) as [->|Hne].
    + rewrite list_lookup_insert_eq by (rewrite H1; done). intros [= <-].
      rewrite list_lookup_insert_eq by (rewrite H2; done). f_equal. lia.
    + rewrite !list_lookup_insert_ne by done. apply H4.
  - pose proof (sum_list_with_insert id take i _ (S (Nat.min (size_of i) (q + 0))) Ht) as E.
    rewrite H5. unfold id in E |- *. lia.
  - pose proof (sum_list_with_insert (λ x, if (x =? 0)%nat then 1%nat else 0%nat) info i _ left Hi) as E.
    simpl in E. rewrite H6. destruct (left =? 0)%nat; lia.
Qed.

(** A full round. *)
Lemma round_end q info take taken finished :
  at_round q n info take taken finished → at_round (S q) 0 info take taken finished.
Proof.
  intros [H1 H2 H3 H4 H5 H6]. split; [done|done| |done|done|done].
  intros j i Hj. rewrite (H3 j i Hj). f_equal. unfold given.
  assert (j < n)%nat as Hlt.
  { apply lookup_lt_Some in Hj. by rewrite Hix, length_seq in Hj. }
  destruct (Nat.ltb_spec j n), (Nat.ltb_spec j 0); lia.
Qed.

Lemma round_next q k info take taken finished :
  (k < n)%nat → at_round q (S k) info take taken finished →
  ∃ q' k', Nat.modulo (k + 1) n = k' ∧ (k' < n)%nat ∧ at_round q' k' info take taken finished ∧
    (q' * n + k' = S (q * n + k))%nat.
Proof.
  intros Hk Hr. destruct (decide (S k = n)) as [E|Hne].
  - exists (S q), 0%nat. rewrite Nat.add_1_r, E, Nat.Div0.mod_same. split; [done|].
    split; [lia|]. split; [|lia]. apply round_end. by rewrite E in Hr.
  - exists q, (S k). rewrite Nat.mod_small by lia. split; [lia|]. split; [lia|]. split; [done|lia].
Qed.

Lemma sum_elem (l : list nat) i x : l !! i = Some x → (x ≤ sum_list l)%nat.
Proof.
  revert i. induction l as [|a l IH]; intros [|i] E; simpl in *; [done|done|injection E as ->; lia|].
  specialize (IH i E). lia.
Qed.

(** The loop ends with the sets as even as their sizes allow: set [i] gives its
    whole size or the number of rounds, or one more. *)
Lemma samplesLoop_spec fuel : ∀ q k info take taken finished,
  at_round q k info take taken finished → (k < n)%nat → (taken ≤ required)%nat →
  (n * sum_list sizes ≤ fuel + (q * n + k))%nat →
  ∃ q' k' info' take' taken' finished',
    samplesLoop fuel n required indexes info take taken finished k = Ok take' ∧
    at_round q' k' info' take' taken' finished' ∧ (taken' ≤ required)%nat ∧
    (taken' = required ∨ finished' = n).
Proof.
  induction fuel as [|fuel IH]; intros q k info take taken finished Hr Hk Ht Hf; simpl.
  - destruct (finished_all _ _ _ _ _ _ Hr) as [Hle Hall].
    assert (finished = n) as Hfin.
    { apply Hall. intros i Hi. destruct (index_pos i Hi) as (j & Hj & _).
      rewrite (ar_given _ _ _ _ _ _ Hr j i Hj). f_equal. unfold given.
      assert (size_of i ≤ sum_list sizes)%nat.
      { destruct (lookup_lt_is_Some_2 sizes i Hi) as [x Hx].
        rewrite (list_lookup_total_correct _ _ _ Hx). by eapply sum_elem. }
      assert (n * sum_list sizes ≤ n * q + (n - 1))%nat by lia.
      assert (sum_list sizes ≤ q)%nat by nia. lia. }
    rewrite Hfin, Nat.ltb_irrefl, andb_false_r. exists q, k, info, take, taken, finished. auto.
  - destruct (Nat.ltb_spec taken required) as [Hlt|Hge]; simpl.
    2: { exists q, k, info, take, taken, finished. split; [done|]. split; [done|]. split; [done|]. left. lia. }
    destruct (Nat.ltb_spec finished n) as [Hfin|Hfin].
    2: { exists q, k, info, take, taken, finished. split; [done|]. split; [done|]. split; [done|]. right.
         destruct (finished_all _ _ _ _ _ _ Hr). lia. }
    destruct (lookup_lt_is_Some_2 indexes k) as [i Hi]; [rewrite Hix, length_seq; done|].
    rewrite Hi. cbn [at_ mbind result_bind].
    destruct (lookup_lt_is_Some_2 info i) as [left Hl];
      [rewrite (ar_info _ _ _ _ _ _ Hr); by eapply index_lt|].
    rewrite Hl. cbn [at_ mbind result_bind]. destruct left as [|left].
    + destruct (round_next q k info take taken finished Hk) as (q' & k' & -> & Hk' & Hr' & E);
        [by eapply visit_empty|]. eapply IH; [exact Hr'|done|done|lia].
    + destruct (visit_take q k i left info take taken finished Hr Hi Hl) as (t & -> & Hv).
      cbn [at_ mbind result_bind].
      destruct (round_next q k _ _ _ _ Hk Hv) as (q' & k' & -> & Hk' & Hr' & E).
      eapply IH; [exact Hr'|done|lia|lia].
Qed.
End rounds.

Lemma sum_zero_visits (l : list nat) :
  length (filter (λ n, n = 0%nat) l) = sum_list_with (λ x, if (x =? 0)%nat then 1%nat else 0%nat) l.
Proof.
  induction l as [|a l IH]; [done|]. rewrite filter_cons. simpl.
  destruct (decide (a = 0%nat)) as [->|Ha]; simpl; [by rewrite IH|].
  destruct (Nat.eqb_spec a 0); [done|]. by rewrite IH.
Qed.

Lemma sum_pointwise (l1 l2 : list nat) :
  length l1 = length l2 → (∀ i x y, l1 !! i = Some x → l2 !! i = Some y → (x ≤ y)%nat) →
  (sum_list l1 ≤ sum_list l2)%nat.
Proof.
  revert l2. induction l1 as [|x l1 IH]; intros [|y l2] Hl Hle; simpl in *; [lia|lia|lia|].
  pose proof (Hle 0%nat x y eq_refl eq_refl).
  specialize (IH l2 ltac:(lia) (λ i, Hle (S i))). unfold id in *. lia.
Qed.

(** The sizes add up to what is required, or to everything there is; every set
    gives its whole size or the same number of elements as the others, up to one. *)
Lemma getSamplesSizeForEachSet_spec `{RG : Rng R} {X} (r : R) (sets : list (list X)) required :
  ∃ take rounds, (getSamplesSizeForEachSet r sets required).1 = Ok take ∧
    length take = length sets ∧
    sum_list take = Nat.min required (sum_list (length <$> sets)) ∧
    ∀ i ids t, sets !! i = Some ids → take !! i = Some t →
      t = Nat.min (length ids) rounds ∨ t = Nat.min (length ids) (S rounds).
Proof.
  unfold getSamplesSizeForEachSet. set (sizes := length <$> sets).
  assert (length sizes = length sets) as Hn by apply length_fmap.
  pose proof (shuffle_perm r (seq 0 (length sets))) as Hix.
  destruct (shuffle r (seq 0 (length sets))) as [indexes r1]. cbn [fst] in *.
  rewrite <- Hn in Hix |- *.
  assert (at_round sizes indexes 0 0 sizes (replicate (length sizes) 0%nat) 0
            (length (filter (λ n, n = 0%nat) sizes))) as H0.
  { split; [by rewrite length_replicate|done| | | |apply sum_zero_visits].
    - intros j i Hj. rewrite lookup_replicate_2 by (by eapply (index_lt sizes indexes Hix)). f_equal. unfold given. simpl. lia.
    - intros i t [-> Hi]%lookup_replicate. destruct (lookup_lt_is_Some_2 sizes i Hi) as [x Hx].
      rewrite Hx, (list_lookup_total_correct _ _ _ Hx). f_equal. lia.
    - symmetry. clear. induction (length sizes) as [|k IH]; [done|]. exact IH. }
  destruct (decide (length sizes = 0%nat)) as [Hz|Hnz].
  { destruct sizes; [|done]. exists [], 0%nat. simpl. rewrite andb_false_r. split; [done|].
    split; [done|]. simpl. split; [lia|]. intros i ids t _ [=]. }
  destruct (samplesLoop_spec sizes required indexes Hix (length sizes * sum_list sizes) _ _ _ _ _ _ H0)
    as (q & k & info & take & taken & finished & -> & Hr & Hle & Hend); [lia|lia|lia|].
  pose proof Hr as [R1 R2 R3 R4 R5 R6].
  assert (∀ i t, take !! i = Some t → (i < length sizes)%nat ∧
    (t = Nat.min (sizes !!! i) q ∨ t = Nat.min (sizes !!! i) (S q))) as Ht.
  { intros i t Hi. assert (i < length sizes)%nat as Hlt by (rewrite <- R1; by eapply lookup_lt_Some).
    split; [done|]. destruct (index_pos sizes indexes Hix i Hlt) as (j & Hj & _).
    rewrite (R3 j i Hj) in Hi. injection Hi as <-. unfold given. destruct (j <? k)%nat; [right|left]; lia. }
  exists take, q. split; [done|]. split; [done|]. split.
  - assert (sum_list take ≤ sum_list sizes)%nat as Hs.
    { apply sum_pointwise; [done|]. intros i x y Hx Hy. destruct (Ht i x Hx) as [_ Hxx].
      rewrite (list_lookup_total_correct _ _ _ Hy) in Hxx. lia. }
    destruct Hend as [Hend|Hend]; [lia|].
    assert (take = sizes) as ->; [|lia].
    pose proof (proj1 (proj2 (finished_all sizes indexes Hix _ _ _ _ _ _ Hr)) Hend) as Hall.
    apply list_eq. intros i. destruct (decide (i < length sizes)%nat) as [Hi|Hi].
    + rewrite Hall by done. destruct (lookup_lt_is_Some_2 sizes i Hi) as [x Hx].
      by rewrite Hx, (list_lookup_total_correct _ _ _ Hx).
    + rewrite !lookup_ge_None_2; [done|lia|lia].
  - intros i ids t Hs Hi. destruct (Ht i t Hi) as [_ H].
    assert (sizes !! i = Some (length ids)) as Hx by (unfold sizes; rewrite list_lookup_fmap, Hs; done).
    by rewrite (list_lookup_total_correct _ _ _ Hx) in H.
Qed.

(** ** The sample from several sets *)
Section several.
Context `{RG : Rng R}.
Context (total : nat) (exclude : option Z) (sets : list (list Z)).
(** The sets are disjoint and list no element twice. *)
Context (Hnd : NoDup (mjoin sets)).
Abbreviation avail i := (kept exclude (sets !!! i)).

Lemma in_join (i : nat) (ids : list Z) x : sets !! i = Some ids → x ∈ ids → x ∈ mjoin sets.
Proof. intros Hi Hx. apply list_elem_of_join. exists ids. split; [done|]. by eapply list_elem_of_lookup_2. Qed.

Lemma sets_nodup (i : nat) (ids : list Z) : sets !! i = Some ids → NoDup ids.
Proof.
  revert i. induction sets as [|a l IH]; intros [|i] E; simpl in *; [done|done| |];
    apply NoDup_app in Hnd as (H1 & _ & H2); [by injection E as <-|by eapply IH].
Qed.

Lemma sets_disjoint (i j : nat) (a b : list Z) x :
  sets !! i = Some a → sets !! j = Some b → x ∈ a → x ∈ b → i = j.
Proof.
  revert i j. induction sets as [|c l IH]; intros [|i] [|j] Hi Hj Ha Hb; simpl in *; try done.
  - injection Hi as ->. apply NoDup_app in Hnd as (_ & H & _). exfalso. apply (H x Ha).
    apply list_elem_of_join. exists b. split; [done|]. by eapply list_elem_of_lookup_2.
  - injection Hj as ->. apply NoDup_app in Hnd as (_ & H & _). exfalso. apply (H x Hb).
    apply list_elem_of_join. exists a. split; [done|]. by eapply list_elem_of_lookup_2.
  - f_equal. apply (IH ltac:(by apply NoDup_app in Hnd as (_ & _ & ?)) i j); done.
Qed.

Lemma same_set (i j : nat) x : (i < length sets)%nat → (j < length sets)%nat →
  x ∈ sets !!! i → x ∈ sets !!! j → i = j.
Proof.
  intros Hi Hj. destruct (lookup_lt_is_Some_2 sets i Hi) as [a Ha], (lookup_lt_is_Some_2 sets j Hj) as [b Hb].
  rewrite (list_lookup_total_correct _ _ _ Ha), (list_lookup_total_correct _ _ _ Hb).
  by eapply sets_disjoint.
Qed.

Lemma kept_elem x (l : list Z) : x ∈ kept exclude l ↔ x ∈ l ∧ exclude ≠ Some x.
Proof.
  destruct exclude as [id|]; simpl; [|naive_solver].
  rewrite list_elem_of_filter. naive_solver.
Qed.

Context (sizes : list nat) (Hlen : length sizes = length sets).
Abbreviation share i := (Nat.min (sizes !!! i) (length (avail i))).

(** The sets still to visit are untouched so far; then the size of the sample is
    the sum of the shares, cut at [total]. *)
Lemma sampleSets_spec indexes : ∀ r sampled,
  NoDup indexes → (∀ i, i ∈ indexes → (i < length sets)%nat) → (size sampled ≤ total)%nat →
  (∀ i x, i ∈ indexes → x ∈ sets !!! i → x ∉ sampled) →
  ∃ sampled' r', sampleSets r total exclude sets sizes indexes sampled = Ok (sampled', r') ∧
    size sampled' = Nat.min total (size sampled + sum_list_with (λ i, share i) indexes) ∧
    (∀ x, x ∈ sampled' → x ∈ sampled ∨ (∃ i, i ∈ indexes ∧ x ∈ avail i)) ∧ sampled ⊆ sampled' ∧
    ∀ i, i ∈ indexes → (size (sampled' ∩ list_to_set (sets !!! i)) ≤ sizes !!! i)%nat.
Proof.
  induction indexes as [|i indexes IH]; intros r sampled Hnd' Hlt Hsz Hdis; simpl.
  { exists sampled, r. split; [done|]. split; [lia|]. split; [auto|]. split; [done|]. set_solver. }
  apply NoDup_cons in Hnd' as [Hni Hnd'].
  assert (i < length sets)%nat as Hi by (apply Hlt; left).
  destruct (lookup_lt_is_Some_2 sets i Hi) as [ids Hids].
  assert (sets !!! i = ids) as Eids by by apply list_lookup_total_correct.
  destruct (lookup_lt_is_Some_2 sizes i) as [s Hs]; [lia|].
  assert (sizes !!! i = s) as Es by by apply list_lookup_total_correct.
  assert (∀ S : gset Z, (∀ x, x ∈ S → ∀ j, j ∈ i :: indexes → x ∉ sets !!! j) →
    ∀ j, j ∈ i :: indexes → size (S ∩ list_to_set (sets !!! j)) = 0%nat) as Hzero.
  { intros S HS j Hj. apply size_empty_iff. set_solver. }
  destruct (Nat.eqb_spec (total - size sampled) 0) as [Hz|Hnz].
  { exists sampled, r. split; [done|]. split; [lia|]. split; [auto|]. split; [done|].
    intros j Hj. rewrite Hzero; [lia| |done]. intros x Hx k Hk Hx'. by eapply Hdis. }
  rewrite Hs, Es. cbn [at_ mbind result_bind].
  assert (∀ j x, j ∈ indexes → x ∈ sets !!! j → x ∉ sampled) as Hdis1.
  { intros j x Hj. apply Hdis. by right. }
  assert (∀ j, j ∈ indexes → (j < length sets)%nat) as Hlt1 by (intros j Hj; apply Hlt; by right).
  destruct (Nat.eqb_spec (Nat.min (total - size sampled) s) 0) as [Hz|Hnz'].
  { assert (s = 0%nat) as -> by lia.
    destruct (IH r sampled Hnd' Hlt1 Hsz Hdis1) as (S' & r' & -> & H1 & H2 & H3 & H4).
    exists S', r'. split; [done|]. split; [rewrite H1; lia|]. split; [|split; [done|]].
    - intros x [?|(j & ? & ?)]%H2; [by left|right]. exists j. split; [by right|done].
    - intros j [->|Hj]%elem_of_cons; [|by apply H4]. rewrite Es.
      rewrite (proj2 (size_empty_iff _)); [lia|]. apply elem_of_equiv_empty. intros x [Hx Hx']%elem_of_intersection.
      rewrite elem_of_list_to_set in Hx'. apply H2 in Hx as [Hx|(k & Hk & Hx)].
      + eapply Hdis; [left|exact Hx'|done].
      + apply kept_elem in Hx as [Hx _]. assert (k = i) as ->; [|done].
        eapply same_set; eauto. }
  rewrite Hids. cbn [at_ mbind result_bind].
  destruct (getRandomSample_spec r ids (Nat.min (total - size sampled) s) exclude) as [Hsub Hl].
  destruct (getRandomSample r ids _ exclude) as [sample r1]. cbn [fst] in Hsub, Hl.
  assert (∀ x, x ∈ sample → x ∈ avail i) as Hin.
  { intros x Hx. rewrite Eids. eapply elem_of_submseteq; [exact Hx|by apply sublist_submseteq]. }
  assert (NoDup sample) as Hns.
  { eapply sublist_NoDup; [|exact Hsub]. pose proof (sets_nodup i ids Hids) as H.
    destruct exclude; simpl; [by apply NoDup_filter|done]. }
  assert (size (sampled ∪ list_to_set sample) = size sampled + length sample)%nat as Hsz1.
  { rewrite size_union; [by rewrite size_list_to_set|]. intros x Hx Hx'.
    rewrite elem_of_list_to_set in Hx'. apply Hin, kept_elem in Hx' as [Hx' _].
    eapply Hdis; [left|exact Hx'|done]. }
  destruct (IH r1 (sampled ∪ list_to_set sample) Hnd' Hlt1) as (S' & r' & -> & H1 & H2 & H3 & H4).
  { rewrite Hsz1, Hl. lia. }
  { intros j x Hj Hx [Hs'|Hs']%elem_of_union; [by eapply Hdis1|].
    rewrite elem_of_list_to_set in Hs'. apply Hin, kept_elem in Hs' as [Hs' _].
    assert (j = i) as ->; [eapply same_set; eauto|done]. }
  exists S', r'. split; [done|]. rewrite Hsz1, Hl in H1. rewrite H1, Eids. split; [lia|].
  split; [|split; [set_solver|]].
  - intros x [[?|Hx]%elem_of_union|(j & ? & ?)]%H2; [by left| |].
    + right. exists i. rewrite elem_of_list_to_set in Hx. split; [left|by apply Hin].
    + right. exists j. split; [by right|done].
  - intros j [->|Hj]%elem_of_cons; [|by apply H4]. rewrite Es.
    transitivity (size (list_to_set sample : gset Z)); [|rewrite size_list_to_set by done; lia].
    apply subseteq_size. intros x [Hx Hx']%elem_of_intersection. rewrite elem_of_list_to_set in Hx'.
    apply H2 in Hx as [[Hx|Hx]%elem_of_union|(k & Hk & Hx)]; [|done|].
    + exfalso. eapply Hdis; [left|exact Hx'|done].
    + exfalso. apply kept_elem in Hx as [Hx _]. assert (k = i) as ->; [|done].
      eapply same_set; eauto.
Qed.

End several.

(** Sums over the positions of a list. *)
Lemma sum_positions {Y} (f : nat → nat) (g : Y → nat) (l : list Y) : ∀ k,
  (∀ j x, l !! j = Some x → f (k + j)%nat = g x) →
  sum_list_with f (seq k (length l)) = sum_list_with g l.
Proof.
  induction l as [|a l IH]; intros k Hf; simpl; [done|].
  rewrite <- (Hf 0%nat a eq_refl), Nat.add_0_r. f_equal. apply IH.
  intros j x Hj. rewrite <- (Hf (S j) x Hj). f_equal. lia.
Qed.

Lemma sum_list_with_ext {Y} (f g : Y → nat) (l : list Y) :
  (∀ x, x ∈ l → f x = g x) → sum_list_with f l = sum_list_with g l.
Proof.
  induction l as [|a l IH]; intros Hl; simpl; [done|].
  rewrite (Hl a), IH; [done| |left]. intros x Hx. apply Hl. by right.
Qed.

Lemma kept_join exclude (sets : list (list Z)) :
  length (kept exclude (mjoin sets)) = sum_list_with (λ l, length (kept exclude l)) sets.
Proof.
  induction sets as [|a l IH]; [by destruct exclude|]. simpl. rewrite <- IH.
  destruct exclude; simpl; [by rewrite filter_app, length_app|by rewrite length_app].
Qed.

(** At most one element is left out. *)
Lemma kept_most exclude (l : list Z) :
  NoDup l → (length (kept exclude l) ≤ length l)%nat ∧
  (length l ≤ length (kept exclude l) + match exclude with Some _ => 1 | None => 0 end)%nat.
Proof.
  destruct exclude as [id|]; simpl; [|lia]. intros Hnd. split; [apply length_filter|].
  induction l as [|a l IH]; simpl; [lia|]. apply NoDup_cons in Hnd as [Ha Hnd]. rewrite filter_cons.
  destruct (decide (a ≠ id)) as [Hne|He]; simpl; [specialize (IH Hnd); lia|].
  apply dec_stable in He as ->. assert (filter (λ x, x ≠ id) l = l) as ->; [|lia].
  clear IH Hnd. induction l as [|b l IH]; [done|]. rewrite filter_cons_True by set_solver.
  f_equal. apply IH. set_solver.
Qed.

Lemma size_by_set (S : gset Z) (sets : list (list Z)) :
  NoDup (mjoin sets) → S ⊆ list_to_set (mjoin sets) →
  size S = sum_list_with (λ l, size (S ∩ list_to_set l)) sets.
Proof.
  revert S. induction sets as [|a l IH]; intros S Hnd HS; simpl in *; [apply size_empty_iff; set_solver|].
  apply NoDup_app in Hnd as (H1 & H2 & H3). rewrite list_to_set_app in HS.
  assert (S ≡ (S ∩ list_to_set a) ∪ (S ∩ list_to_set (mjoin l))) as E by set_solver.
  assert ((S ∩ list_to_set a) ## (S ∩ list_to_set (mjoin l))) as Hd.
  { intros x [_ Hx]%elem_of_intersection [_ Hy]%elem_of_intersection.
    rewrite elem_of_list_to_set in Hx, Hy. by apply (H2 x). }
  rewrite (set_size_proper _ _ E) at 1. rewrite size_union by done. f_equal.
  rewrite (IH (S ∩ list_to_set (mjoin l)) H3) by set_solver.
  apply sum_list_with_ext. intros b Hb. apply set_size_proper. intros x.
  rewrite !elem_of_intersection, !elem_of_list_to_set. split; [naive_solver|].
  intros [? ?]. split; [|done]. split; [done|]. apply list_elem_of_join. eauto.
Qed.

Lemma sum_shares (l : list nat) (f g h : nat → nat) :
  (∀ i, i ∈ l → (f i ≤ h i ∧ g i ≤ h i)%nat) →
  (sum_list_with f l + sum_list_with g l ≤
   sum_list_with (λ i, Nat.min (f i) (g i)) l + sum_list_with h l)%nat ∧
  (sum_list_with (λ i, Nat.min (f i) (g i)) l ≤ sum_list_with g l)%nat.
Proof.
  induction l as [|i l IH]; intros Hl; simpl; [lia|].
  destruct (Hl i) as [H1 H2]; [left|].
  destruct IH as [H3 H4]; [intros j Hj; apply Hl; by right|]. lia.
Qed.
(** Equal sums of pointwise smaller terms: the terms are equal. *)
Lemma sum_tight {Y} (f g : Y → nat) (l : list Y) :
  (∀ x, x ∈ l → (f x ≤ g x)%nat) → (sum_list_with g l ≤ sum_list_with f l)%nat →
  ∀ x, x ∈ l → f x = g x.
Proof.
  induction l as [|a l IH]; intros Hle Hs x Hx; [by apply elem_of_nil in Hx|]. simpl in Hs.
  assert (sum_list_with f l ≤ sum_list_with g l)%nat.
  { clear -Hle. induction l as [|b l IH]; simpl; [lia|].
    pose proof (Hle b ltac:(set_solver)). specialize (IH ltac:(set_solver)). lia. }
  pose proof (Hle a ltac:(set_solver)).
  apply elem_of_cons in Hx as [->|Hx]; [lia|]. apply IH; [set_solver|lia|done].
Qed.

(** *** The shares of a round robin *)
Section shares.
Context (sets : list (list Z)) (take : list nat) (u q : nat).
Context (Hnd : NoDup (mjoin sets)) (Hl : length take = length sets).
Context (Hs : sum_list take = Nat.min u (sum_list (length <$> sets))).
Context (Hq : ∀ i ids t, sets !! i = Some ids → take !! i = Some t →
  t = Nat.min (length ids) q ∨ t = Nat.min (length ids) (S q)).
Abbreviation positions := (seq 0 (length sets)).

Lemma share_at i : i ∈ positions →
  ∃ ids t, sets !! i = Some ids ∧ sets !!! i = ids ∧ take !! i = Some t ∧ take !!! i = t ∧
    (t ≤ length ids)%nat.
Proof.
  clear Hs. intros Hi%elem_of_seq. destruct (lookup_lt_is_Some_2 sets i) as [ids Hi']; [lia|].
  destruct (lookup_lt_is_Some_2 take i) as [t Ht]; [lia|].
  exists ids, t. split_and!; [done|by apply list_lookup_total_correct|done|
    by apply list_lookup_total_correct|]. destruct (Hq i ids t Hi' Ht); lia.
Qed.

Lemma over_sets (g : list Z → nat) : sum_list_with (λ i, g (sets !!! i)) positions = sum_list_with g sets.
Proof. apply sum_positions. intros j x Hj. simpl. by rewrite (list_lookup_total_correct _ _ _ Hj). Qed.

Lemma over_take : sum_list_with (λ i, take !!! i) positions = sum_list take.
Proof. rewrite <- Hl. apply sum_positions. intros j x Hj. by apply list_lookup_total_correct. Qed.

Lemma sum_length : sum_list (length <$> sets) = sum_list_with length sets.
Proof. clear. induction sets as [|a l IH]; [done|]. rewrite fmap_cons. simpl. unfold id at 1. f_equal. exact IH. Qed.

(** One element more than [total] is asked for when one may be left out. *)
Lemma shares_total total exclude :
  u = match exclude with Some _ => S total | None => total end →
  Nat.min total (sum_list_with (λ i, Nat.min (take !!! i) (length (kept exclude (sets !!! i)))) positions) =
  Nat.min total (length (kept exclude (mjoin sets))).
Proof.
  intros Hu. destruct (sum_shares positions (λ i, take !!! i) (λ i, length (kept exclude (sets !!! i)))
    (λ i, length (sets !!! i))) as [H1 H2].
  { intros i Hi. destruct (share_at i Hi) as (ids & t & Hi' & -> & _ & -> & Ht). split; [done|].
    apply kept_most. by eapply sets_nodup. }
  rewrite over_take, (over_sets length), (over_sets (λ l, length (kept exclude l))), <- kept_join in H1.
  rewrite (over_sets (λ l, length (kept exclude l))), <- kept_join in H2.
  rewrite sum_length in Hs. destruct (kept_most exclude (mjoin sets) Hnd) as [K1 K2].
  rewrite length_join, sum_length in K1, K2. destruct exclude; lia.
Qed.

(** When nothing is left out every set contributes exactly its share. *)
Lemma shares_even (S : gset Z) :
  S ⊆ list_to_set (mjoin sets) → size S = sum_list take →
  (∀ i, i ∈ positions → (size (S ∩ list_to_set (sets !!! i)) ≤ take !!! i)%nat) →
  ∀ a b, a ∈ sets → b ∈ sets →
    (size (S ∩ list_to_set a) ≤ size (S ∩ list_to_set b) + 1)%nat ∨ list_to_set b ⊆ S.
Proof.
  clear Hs. intros Hsub Hsz Hle.
  assert (∀ i, i ∈ positions → size (S ∩ list_to_set (sets !!! i)) = take !!! i) as Heq.
  { apply sum_tight; [done|]. rewrite over_take, (over_sets (λ l, size (S ∩ list_to_set l))).
    by rewrite <- size_by_set, Hsz. }
  assert (∀ a, a ∈ sets → NoDup a ∧ (size (S ∩ list_to_set a) = Nat.min (length a) q ∨
    size (S ∩ list_to_set a) = Nat.min (length a) (Datatypes.S q))) as Hat.
  { intros a [i Hi]%list_elem_of_lookup_1. split; [by eapply sets_nodup|].
    assert (i ∈ positions) as Hp by (apply elem_of_seq; apply lookup_lt_Some in Hi; lia).
    destruct (share_at i Hp) as (ids & t & E1 & E2 & E3 & E4 & _). specialize (Heq i Hp).
    rewrite E2, E4 in Heq. rewrite Hi in E1. injection E1 as <-. rewrite Heq. by apply (Hq i). }
  intros a b [_ Ha]%Hat [Nb Hb]%Hat.
  destruct (decide (length b ≤ size (S ∩ list_to_set b))%nat) as [Hfull|]; [right|left; lia].
  assert (S ∩ list_to_set b ≡ list_to_set b) as E; [|set_solver].
  apply set_subseteq_size_equiv; [set_solver|]. by rewrite size_list_to_set.
Qed.
End shares.

(** Whatever is drawn from disjoint sets: the sample has the required size, or it
    is everything that may be sampled; without an exclusion the sets contribute
    the same number of elements up to one, unless a set is used up. *)
Lemma getEqualSize_spec `{RG : Rng R} (r : R) (sets : list (list Z)) total exclude :
  NoDup (mjoin sets) →
  ∃ S r', getEqualSizeRandomSamplesFromEachSetIn r sets total exclude = Ok (S, r') ∧
    S ⊆ list_to_set (kept exclude (mjoin sets)) ∧
    size S = Nat.min total (length (kept exclude (mjoin sets))) ∧
    (exclude = None → ∀ a b, a ∈ sets → b ∈ sets →
       (size (S ∩ list_to_set a) ≤ size (S ∩ list_to_set b) + 1)%nat ∨ list_to_set b ⊆ S).
Proof.
  intros Hnd. unfold getEqualSizeRandomSamplesFromEachSetIn.
  destruct (Nat.eqb_spec total 0) as [->|Htot].
  { exists ∅, r. split; [done|]. split; [set_solver|]. split; [done|]. intros _ a b _ _. left.
    rewrite (proj2 (size_empty_iff _)); [lia|set_solver]. }
  set (u := match exclude with Some _ => S total | None => total end).
  destruct (getSamplesSizeForEachSet_spec r sets u) as (take & q & E & Hl & Hs & Hq).
  destruct (getSamplesSizeForEachSet r sets u) as [sizes r1]. simpl in E. subst sizes.
  cbn [mbind result_bind].
  pose proof (shuffle_perm r1 (seq 0 (length sets))) as Hix.
  destruct (shuffle r1 (seq 0 (length sets))) as [indexes r2]. simpl in Hix.
  destruct (sampleSets_spec total exclude sets Hnd take Hl indexes r2 ∅) as (S & r' & Es & Hsz & Hel & _ & Hcon).
  { rewrite Hix. apply NoDup_seq. }
  { intros i. rewrite Hix, elem_of_seq. lia. }
  { rewrite size_empty. lia. }
  { set_solver. }
  assert (S ⊆ list_to_set (kept exclude (mjoin sets))) as Hsub.
  { intros x Hx. rewrite elem_of_list_to_set, kept_elem.
    apply Hel in Hx as [Hx|(i & Hi & [Hx He]%kept_elem)]; [set_solver|]. split; [|done].
    rewrite Hix in Hi. destruct (share_at sets take q Hl Hq i Hi) as (ids & t & Hi' & E1 & _).
    rewrite E1 in Hx. by eapply in_join. }
  rewrite size_empty, Nat.add_0_l in Hsz. rewrite Hix in Hsz.
  rewrite (shares_total sets take u q Hnd Hl Hs Hq total exclude) in Hsz by done.
  exists S, r'. split; [done|]. split; [done|]. split; [done|].
  intros ->. simpl in *. apply (shares_even sets take q Hnd Hl Hq); [done| |].
  - rewrite Hsz, Hs. by rewrite length_join.
  - intros i Hi. apply Hcon. by rewrite Hix.
Qed.
End Sampling.
