(* ===== verification/Bundles.v ===== *)
(** * Bundles of objects

    Objects that are moved or exchanged together: the bundles a container offers
    ([ObjectsToExploreGenerator::getObjectBundlesToExplore]) and the bundles of an
    uneven swap ([generateDimensionBasedSwapCandidates] and its helpers in
    solver/moves/MoveTypeUtils.cpp). *)

From Stdlib Require Import SpecFloat.
From S2P Require Import Prelude Double ChangeSet ObjectStore IndexedAssignment Assignment Sampling.
From S2P Require Import ExecutionSelector.

Module Bundles.

(** [objectsByEquivalenceSet[equivalenceSets.at(object)].push_back(object)]. *)
Definition push (m : gmap Z (list Z)) (key o : Z) : gmap Z (list Z) :=
  <[key := default [] (m !! key) ++ [o]]> m.

Definition groupObjectsByEquivalenceSet (at_set : Z → result Z) (objects : list Z)
    : result (gmap Z (list Z)) :=
  foldM (λ m o, key ← at_set o; Ok (push m key o)) ∅ objects.

(** ** ObjectsToExploreGenerator *)
Section generator.
Context `{HO : HashOrder} `{RG : Rng R}.
(** [std::mt19937 rng(0)]. *)
Context (rng0 : R).

(** The loop over the equivalence sets of a group. *)
Fixpoint bundlesLoop (bundleSize groupBundleSize : Z) (createGreedyHeterogenousBundles : bool)
    (numEquivSets : nat) (sets : list (list Z)) (slidingWindow : list (list Z)) (rng : R)
    (objectBundles : list (list Z)) : result (list (list Z)) :=
  match sets with
  | [] => Ok objectBundles
  | objectsInEquivSet :: rest =>
      let lastEquivSet := match rest with [] => true | _ => false end in
      let objectBundles1 :=
        if groupBundleSize <=? Z.of_nat (length objectsInEquivSet)
        then objectBundles ++ [take (Z.to_nat groupBundleSize) objectsInEquivSet]
        else objectBundles in
      if createGreedyHeterogenousBundles && (1 <? numEquivSets)%nat
      then
        let window := slidingWindow ++ [objectsInEquivSet] in
        if (Z.of_nat (length window) =? groupBundleSize) || lastEquivSet
        then
          '(bundleSet, rng1) ←
             Sampling.getEqualSizeRandomSamplesFromEachSetIn rng window (Z.to_nat bundleSize) None;
          bundlesLoop bundleSize groupBundleSize createGreedyHeterogenousBundles numEquivSets rest
            (tail window) rng1 (objectBundles1 ++ [set_iter bundleSet])
        else bundlesLoop bundleSize groupBundleSize createGreedyHeterogenousBundles numEquivSets rest
               window rng objectBundles1
      else bundlesLoop bundleSize groupBundleSize createGreedyHeterogenousBundles numEquivSets rest
             slidingWindow rng objectBundles1
  end.

Definition groupBundles (at_set : Z → result Z) (bundleSize groupBundleSize : Z)
    (createGreedyHeterogenousBundles : bool) (objectsInGroup : list Z)
    (objectBundles : list (list Z)) : result (list (list Z)) :=
  if Z.of_nat (length objectsInGroup) <? groupBundleSize then Ok objectBundles
  else
    m ← groupObjectsByEquivalenceSet at_set objectsInGroup;
    let sets := (hash_iter m).*2 in
    bundlesLoop bundleSize groupBundleSize createGreedyHeterogenousBundles (length sets) sets []
      rng0 objectBundles.

(** The index by the partition is built if it is not there yet. *)
Definition getObjectBundlesToExplore (partition : PartitionView) (partitionId srcContainer : Z)
    (bundleSize : Z) (groupBundleSizeOverrides : gmap Z Z) (a : Assignment.t)
    (equivalenceSets : EquivalenceSetsView) (createGreedyHeterogenousBundles : bool)
    : result (list (list Z) * Assignment.t) :=
  a' ← Assignment.buildIndexByPartition a partition partitionId;
  ix ← Assignment.getObjectsIndexedByPartition a' partitionId;
  groupToObjects ← IndexedAssignment.getContainerObjects ix srcContainer;
  bundles ← foldM (λ bundles '(groupId, objectsInGroup),
      groupBundles (es_at equivalenceSets) bundleSize
        (u64 (default bundleSize (groupBundleSizeOverrides !! groupId)))
        createGreedyHeterogenousBundles (set_iter objectsInGroup) bundles) []
    (hash_iter groupToObjects);
  Ok (bundles, a').

(** [MoveType::getObjectBundlesToExplore] refuses a size below one. *)
Definition moveType_getObjectBundlesToExplore (partition : PartitionView)
    (partitionId srcContainer bundleSize : Z) (groupBundleSizeOverrides : gmap Z Z)
    (a : Assignment.t) (equivalenceSets : EquivalenceSetsView)
    (createGreedyHeterogenousBundles : bool) : result (list (list Z) * Assignment.t) :=
  if bundleSize <? 1
  then Throw (runtime_error "getObjectBundlesToExplore called with a bundleSize below 1")
  else getObjectBundlesToExplore partition partitionId srcContainer bundleSize
         groupBundleSizeOverrides a equivalenceSets createGreedyHeterogenousBundles.
End generator.

(** ** Swap ratios *)

(** [std::ceil] of a finite double, as an integer. *)
Definition ceil (x : double) : Z := - (- val x / 2 ^ (- minexp)).

(** [static_cast<size_t>], undefined outside the range of the type. *)
Definition to_size_t (x : double) : result Z :=
  if isfinite x && (0 <=? ceil x) && (ceil x <? u64_mod) then Ok (ceil x)
  else Throw (undefined_behaviour "conversion of a double out of the range of size_t").

Section ratio.
(** [objectDimension.getValue(object, dimensionScopeItemId)]. *)
Context (getValue : Z → result double).

Definition calculateSwapRatio (largerObject smallerObject : Z) : result Z :=
  largerValue ← getValue largerObject;
  smallerValue ← getValue smallerObject;
  if (d0 <? smallerValue)%D && (smallerValue <? largerValue)%D
  then to_size_t (largerValue / smallerValue)%D
  else Ok 1.

Definition getBundleSizes (enableKToOneSwaps : bool) (hotObject coldObject : Z) : result (Z * Z) :=
  hotValue ← getValue hotObject;
  coldValue ← getValue coldObject;
  if (coldValue <? hotValue)%D && (d0 <? coldValue)%D
  then k ← calculateSwapRatio hotObject coldObject; Ok (1, k)
  else if (hotValue <? coldValue)%D && (d0 <? hotValue)%D
  then
    if negb enableKToOneSwaps then Ok (1, 1)
    else k ← calculateSwapRatio coldObject hotObject; Ok (k, 1)
  else Ok (1, 1).
End ratio.

(** The loop of [buildAnchoredBundle]. *)
Fixpoint extendBundle (anchorObject bundleSize : Z) (bundle candidateObjects : list Z)
    : result (list Z) :=
  match candidateObjects with
  | [] => Throw (runtime_error "Failed to build the bundle")
  | o :: rest =>
      if o =? anchorObject then extendBundle anchorObject bundleSize bundle rest
      else
        let bundle' := bundle ++ [o] in
        if Z.of_nat (length bundle') =? bundleSize then Ok bundle'
        else extendBundle anchorObject bundleSize bundle' rest
  end.

Definition buildAnchoredBundle (candidateObjects : list Z) (anchorObject bundleSize : Z)
    : result (list Z) :=
  if bundleSize =? 0 then Throw (runtime_error "Cannot build a zero-sized bundle")
  else if Z.of_nat (length candidateObjects) <? bundleSize
  then Throw (runtime_error "Cannot build bundle from too few candidates")
  else if negb (bool_decide (anchorObject ∈ candidateObjects))
  then Throw (runtime_error "Anchor object is not present in the candidate bundle")
  else if 1 =? bundleSize then Ok [anchorObject]
  else extendBundle anchorObject bundleSize [anchorObject] candidateObjects.

(** (hotBundle, coldBundles) *)
Definition SwapCandidateImplicit : Type := list Z * list (list Z).

Section candidates.
Context `{HO : HashOrder}.

(** The lambda [appendColdBundleForHotBundleSize]: the hot bundle is built once per
    size. *)
Definition candidateOfSize (hotObjects : list Z) (hotObject : Z)
    (candidates : gmap Z SwapCandidateImplicit) (hotBundleSize : Z) : result SwapCandidateImplicit :=
  match candidates !! hotBundleSize with
  | Some candidate => Ok candidate
  | None =>
      hotBundle ← buildAnchoredBundle hotObjects hotObject hotBundleSize;
      Ok (hotBundle, [])
  end.

Definition appendColdBundleForHotBundleSize (hotObjects : list Z) (hotObject : Z)
    (candidates : gmap Z SwapCandidateImplicit) (hotBundleSize : Z)
    (coldObjectsInEquivSet : list Z) (coldObject coldBundleSize : Z)
    : result (gmap Z SwapCandidateImplicit) :=
  candidate ← candidateOfSize hotObjects hotObject candidates hotBundleSize;
  coldBundle ← buildAnchoredBundle coldObjectsInEquivSet coldObject coldBundleSize;
  Ok (<[hotBundleSize := (candidate.1, candidate.2 ++ [coldBundle])]> candidates).

(** [front] of a vector. *)
Definition front (l : list Z) : result Z :=
  match head l with Some o => Ok o | None => Throw (undefined_behaviour "front of an empty vector") end.

(** [dimension] is the function that reads the values of the configured dimension,
    if there is one; [hotObjectsInEquivSet] is a possibly null pointer. *)
Definition generateDimensionBasedSwapCandidates (enableKToOneSwaps : bool)
    (at_set : Z → result Z) (hotObjectsInEquivSet : option (list Z)) (hotObject : Z)
    (coldDynamicObjects : list Z) (dimension : option (Z → result double))
    : result (list SwapCandidateImplicit) :=
  m ← groupObjectsByEquivalenceSet at_set coldDynamicObjects;
  let coldObjectsByEquivalenceSet := (hash_iter m).*2 in
  match dimension with
  | None =>
      coldObjectBundles ← foldM (λ bundles s, o ← front s; Ok (bundles ++ [[o]])) []
        coldObjectsByEquivalenceSet;
      Ok [([hotObject], coldObjectBundles)]
  | Some getValue =>
      match hotObjectsInEquivSet with
      | None => Throw (invalid_argument "Hot object needs its equivalence set to swap by dimension")
      | Some hotObjects =>
          candidates ← foldM (λ candidates s,
              coldObject ← front s;
              '(hotBundleSize, coldBundleSize) ←
                 getBundleSizes getValue enableKToOneSwaps hotObject coldObject;
              if negb (hotBundleSize =? 1) && negb (coldBundleSize =? 1)
              then Throw (runtime_error "Expect either 1:k or k:1 bundles")
              else if (Z.of_nat (length hotObjects) <? hotBundleSize) ||
                      (Z.of_nat (length s) <? coldBundleSize)
              then Ok candidates
              else appendColdBundleForHotBundleSize hotObjects hotObject candidates hotBundleSize s
                     coldObject coldBundleSize) ∅ coldObjectsByEquivalenceSet;
          Ok (hash_iter candidates).*2
      end
  end.
End candidates.

(** ** Grouping *)
Lemma push_join (m : gmap Z (list Z)) key o :
  mjoin (map_to_list (push m key o)).*2 ≡ₚ mjoin (map_to_list m).*2 ++ [o].
Proof.
  unfold push. destruct (m !! key) as [l|] eqn:E; simpl.
  - rewrite <- (insert_delete_eq m key (l ++ [o])).
    rewrite map_to_list_insert by apply lookup_delete_eq.
    rewrite <- (map_to_list_delete m key l E). simpl.
    rewrite <- !(assoc_L (++)). f_equiv. apply Permutation_app_comm.
  - rewrite map_to_list_insert by done. simpl. symmetry. apply Permutation_app_comm with (l' := [o]).
Qed.

(** The sets of a grouping: no object is lost or listed twice, and a set holds the
    objects with its key. *)
Lemma grouped (at_set : Z → result Z) (f : Z → Z) objects :
  (∀ o, o ∈ objects → at_set o = Ok (f o)) →
  ∃ m, groupObjectsByEquivalenceSet at_set objects = Ok m ∧
    mjoin (map_to_list m).*2 ≡ₚ objects ∧
    ∀ key l, m !! key = Some l → l ≠ [] ∧ ∀ o, o ∈ l → f o = key.
Proof.
  intros Hat. unfold groupObjectsByEquivalenceSet.
  assert (∀ acc done, mjoin (map_to_list acc).*2 ≡ₚ done →
    (∀ key l, acc !! key = Some l → l ≠ [] ∧ ∀ o, o ∈ l → f o = key) →
    ∃ m, foldM (λ m o, key ← at_set o; Ok (push m key o)) acc objects = Ok m ∧
      mjoin (map_to_list m).*2 ≡ₚ done ++ objects ∧
      ∀ key l, m !! key = Some l → l ≠ [] ∧ ∀ o, o ∈ l → f o = key) as Hgen.
  { induction objects as [|o objects IH]; intros acc dn Hp Hk; simpl.
    { exists acc. rewrite app_nil_r. auto. }
    rewrite (Hat o) by set_solver. cbn [mbind result_bind].
    destruct (IH ltac:(set_solver) (push acc (f o) o) (dn ++ [o])) as (m & E & H1 & H2).
    - by rewrite push_join, Hp.
    - intros key l. unfold push. rewrite lookup_insert. case_decide as Hd; [|apply Hk].
      intros [= <-]. subst key. split; [by intros [_ [=]]%app_eq_nil|].
      intros x [Hx| ->%list_elem_of_singleton]%elem_of_app; [|done].
      destruct (acc !! f o) as [l'|] eqn:E; simpl in Hx; [by apply (Hk _ _ E)|by apply elem_of_nil in Hx].
    - exists m. split; [done|]. by rewrite H1, <- (assoc_L (++)). }
  apply (Hgen ∅ []); [by rewrite map_to_list_empty|done].
Qed.

(** ** The bundles a container offers *)
Section offered.
Context `{HO : HashOrder} `{RG : Rng R}.
Context (k : Z) (Hk : 1 ≤ k < u64_mod).

(** A bundle of objects of one group. *)
Definition exact_bundle (objects bundle : list Z) : Prop :=
  NoDup bundle ∧ Z.of_nat (length bundle) = k ∧ ∀ o, o ∈ bundle → o ∈ objects.

Lemma window_size (window : list (list Z)) :
  Forall (λ s, s ≠ []) window → (length window ≤ length (mjoin window))%nat.
Proof.
  induction 1 as [|s window Hs _ IH]; simpl; [lia|]. rewrite length_app.
  destruct s; [done|]. simpl. lia.
Qed.

Lemma window_bundle rng window objects :
  NoDup (mjoin window) → (∀ o, o ∈ mjoin window → o ∈ objects) → Forall (λ s, s ≠ []) window →
  Z.of_nat (length window) = k ∨ k ≤ Z.of_nat (length (mjoin window)) →
  ∃ s rng', Sampling.getEqualSizeRandomSamplesFromEachSetIn rng window (Z.to_nat k) None = Ok (s, rng') ∧
    exact_bundle objects (set_iter s).
Proof.
  intros Hnd Hob Hne Hsz.
  destruct (Sampling.getEqualSize_spec rng window (Z.to_nat k) None Hnd) as (s & r' & E & Hsub & Hs & _).
  simpl in Hsub, Hs. pose proof (window_size window Hne). exists s, r'. split; [done|]. split_and!.
  - apply set_iter_NoDup.
  - rewrite set_iter_length, Hs. lia.
  - intros o Ho%set_iter_elem%Hsub. apply Hob. by rewrite elem_of_list_to_set in Ho.
Qed.

Lemma homogeneous_bundle (P : list Z → Prop) objects acc s :
  (∀ b, exact_bundle objects b → P b) → NoDup s → (∀ o, o ∈ s → o ∈ objects) → Forall P acc →
  Forall P
    (if k <=? Z.of_nat (length s) then acc ++ [take (Z.to_nat k) s] else acc).
Proof.
  intros HP Hnd Hob Hacc. destruct (Z.leb_spec k (Z.of_nat (length s))); [|done].
  apply Forall_app. split; [done|]. apply Forall_singleton, HP. split_and!.
  - eapply sublist_NoDup; [exact Hnd|apply sublist_take].
  - rewrite length_take. lia.
  - intros o Ho. apply Hob. eapply elem_of_submseteq; [exact Ho|]. apply sublist_submseteq, sublist_take.
Qed.

(** The sets a loop has not seen yet, and those of the window: consecutive sets, one
    less than a bundle has objects once a set was dropped. *)
Record loop_state (objects : list Z) (active : bool)
    (dropped window sets : list (list Z)) : Prop := {
  ls_nodup : NoDup (mjoin (dropped ++ window ++ sets));
  ls_objects o : o ∈ mjoin (dropped ++ window ++ sets) → o ∈ objects;
  ls_nonempty : Forall (λ s, s ≠ []) (window ++ sets);
  ls_size : k ≤ Z.of_nat (length (mjoin (dropped ++ window ++ sets)));
  ls_active : active = true → dropped ≠ [] → Z.of_nat (length window) = k - 1;
  ls_inactive : active = false → window = [];
  ls_window : Z.of_nat (length window) ≤ k - 1
}.

Lemma loop_head objects active dropped window s sets :
  loop_state objects active dropped window (s :: sets) →
  NoDup s ∧ (∀ o, o ∈ s → o ∈ objects) ∧
  NoDup (mjoin (window ++ [s])) ∧ (∀ o, o ∈ mjoin (window ++ [s]) → o ∈ objects) ∧
  Forall (λ s, s ≠ []) (window ++ [s]).
Proof.
  intros [Hnd Hob Hne _ _ _ _].
  assert (mjoin (dropped ++ window ++ s :: sets) =
    mjoin dropped ++ mjoin (window ++ [s]) ++ mjoin sets) as E.
  { rewrite !join_app. simpl. by rewrite app_nil_r, <- !(assoc_L (++)). }
  rewrite E in Hnd. setoid_rewrite E in Hob.
  apply NoDup_app in Hnd as (_ & _ & Hnd). apply NoDup_app in Hnd as (Hnd & _ & _).
  pose proof Hnd as Hs. rewrite join_app in Hs. apply NoDup_app in Hs as (_ & _ & Hs).
  simpl in Hs. rewrite app_nil_r in Hs.
  assert (∀ o, o ∈ mjoin (window ++ [s]) → o ∈ objects) as Hw.
  { intros o Ho. apply Hob. rewrite !elem_of_app. auto. }
  split_and!; [done| |done|done|].
  - intros o Ho. apply Hw. rewrite join_app. simpl. rewrite app_nil_r, elem_of_app. auto.
  - apply Forall_app in Hne as [H1 H2]. apply Forall_cons in H2 as [H2 _].
    apply Forall_app. split; [done|]. by apply Forall_singleton.
Qed.

(** The set enters the window; with the window moved on, its first set is dropped. *)
Lemma loop_enter objects dropped window s sets :
  loop_state objects true dropped window (s :: sets) → Z.of_nat (length (window ++ [s])) ≠ k →
  loop_state objects true dropped (window ++ [s]) sets.
Proof.
  intros [Hnd Hob Hne Hsz Hdr Hin Hwin] Hlen. rewrite length_app in Hlen. simpl in Hlen.
  split; rewrite <- ?(assoc_L (++)); simpl; try done.
  - intros _ Hd. specialize (Hdr eq_refl Hd). lia.
  - rewrite length_app. simpl. lia.
Qed.

Lemma loop_slide objects dropped window s sets :
  loop_state objects true dropped window (s :: sets) → Z.of_nat (length (window ++ [s])) = k →
  ∃ d, loop_state objects true (dropped ++ [d]) (tail (window ++ [s])) sets.
Proof.
  intros [Hnd Hob Hne Hsz Hdr Hin Hwin] Hlen.
  assert (window ++ s :: sets = (window ++ [s]) ++ sets) as E by (by rewrite <- (assoc_L (++))).
  rewrite E in *. destruct (window ++ [s]) as [|d w] eqn:Ew; [by destruct window|]. exists d.
  simpl in Hlen. split; rewrite <- ?(assoc_L (++)); simpl; try done.
  - by apply Forall_cons in Hne as [_ ?].
  - intros _ _. lia.
  - lia.
Qed.

Lemma loop_skip objects dropped window s sets :
  loop_state objects false dropped window (s :: sets) →
  loop_state objects false (dropped ++ [s]) window sets.
Proof.
  intros [Hnd Hob Hne Hsz _ Hin Hwin]. specialize (Hin eq_refl) as ->. simpl in *.
  split; rewrite <- ?(assoc_L (++)); simpl; try done. by apply Forall_cons in Hne as [_ ?].
Qed.

Lemma bundlesLoop_exact (P : list Z → Prop) hetero n objects :
  (∀ b, exact_bundle objects b → P b) → ∀ sets window rng acc dropped,
  loop_state objects (hetero && (1 <? n)%nat) dropped window sets → Forall P acc →
  ∃ bundles, bundlesLoop k k hetero n sets window rng acc = Ok bundles ∧ Forall P bundles.
Proof.
  intros HP. induction sets as [|s sets IH]; intros window rng acc dropped Hst Hacc; simpl; [eauto|].
  set (acc1 := if k <=? _ then _ else _).
  destruct (loop_head _ _ _ _ _ _ Hst) as (Ns & Hos & Nw & How & Hne).
  assert (Forall P acc1) as Hacc1 by by apply (homogeneous_bundle P objects).
  clearbody acc1. destruct (hetero && (1 <? n)%nat) eqn:Ea.
  2: { eapply IH; [|done]. by apply loop_skip. }
  destruct (Z.eqb_spec (Z.of_nat (length (window ++ [s]))) k) as [El|El]; simpl.
  - destruct (window_bundle rng (window ++ [s]) objects Nw How Hne) as (b & rng' & -> & Hb); [auto|].
    cbn [mbind result_bind]. destruct (loop_slide _ _ _ _ _ Hst El) as [d Hd].
    eapply IH; [exact Hd|]. apply Forall_app. split; [done|]. by apply Forall_singleton, HP.
  - destruct sets as [|s' sets].
    + assert (dropped = []) as ->.
      { destruct dropped as [|d ds]; [done|]. pose proof (ls_active _ _ _ _ _ Hst eq_refl ltac:(done)).
        rewrite length_app in El. simpl in El. lia. }
      pose proof (ls_size _ _ _ _ _ Hst) as Hsz. simpl in Hsz.
      destruct (window_bundle rng (window ++ [s]) objects Nw How Hne) as (b & rng' & -> & Hb); [auto|].
      cbn [mbind result_bind]. eexists. split; [done|]. apply Forall_app. split; [done|].
      by apply Forall_singleton, HP.
    + eapply IH; [|done]. by apply loop_enter.
Qed.

(** Every bundle of a group has exactly the bundle size, lists no object twice and
    stays within the group. *)
Lemma groupBundles_exact (P : list Z → Prop) (rng0 : R) at_set f hetero objects acc :
  (∀ b, exact_bundle objects b → P b) →
  (∀ o, o ∈ objects → at_set o = Ok (f o)) → NoDup objects → Forall P acc →
  ∃ bundles, groupBundles rng0 at_set k k hetero objects acc = Ok bundles ∧ Forall P bundles.
Proof.
  intros HP Hat Hnd Hacc. unfold groupBundles.
  destruct (Z.ltb_spec (Z.of_nat (length objects)) k) as [|Hsz]; [eauto|].
  destruct (grouped at_set f objects Hat) as (m & -> & Hp & Hm). cbn [mbind result_bind].
  eapply (bundlesLoop_exact P _ _ objects HP _ [] rng0 acc []); [|done].
  assert (mjoin (hash_iter m).*2 ≡ₚ objects) as E by (by rewrite hash_iter_perm).
  split; simpl; [by rewrite E|by intros o; rewrite E| |by rewrite E|done|done|lia].
  apply Forall_fmap, Forall_forall. intros [key l] Hl. simpl.
  rewrite hash_iter_perm, elem_of_map_to_list in Hl. by apply (Hm key l).
Qed.

(** The index by the groups of a container with dynamic objects. *)
Lemma group_index_exact a c p ix :
  Assignment.inv a → Assignment.partitionToPerContainerObjectIndexByGroups a !! p = Some ix →
  Assignment.getDynamicObjects a c ≠ [] →
  ∃ m, IndexedAssignment.getContainerObjects ix c = Ok m ∧
    ∀ group o, o ∈ default ∅ (m !! group) ↔
      o ∈ Assignment.getDynamicObjects a c ∧ IndexedAssignment.objectToIndex ix !! o = Some group.
Proof.
  intros Ha Hix Hne. destruct (Assignment.inv_groups a Ha p ix Hix) as [_ Hf Hi].
  assert (∀ o, o ∈ Assignment.getDynamicObjects a c ↔
    o ∈ Assignment.objs_on (Assignment.containerToObjectsDynamic a) c) as Hdyn.
  { intros o. by rewrite Assignment.elem_of_getDynamicObjects, (Assignment.inv_dynamic a Ha),
      elem_of_difference, <- (Assignment.inv_objects a Ha). }
  unfold IndexedAssignment.getContainerObjects.
  unfold IndexedAssignment.filed, IndexedAssignment.store_at in Hf. simpl in Hf.
  destruct (Assignment.getDynamicObjects a c) as [|o l] eqn:E; [done|].
  assert (o ∈ Assignment.objs_on (Assignment.containerToObjectsDynamic a) c) as Ho by (apply Hdyn; left).
  destruct (Hi c o Ho) as [i Hoi]. destruct (proj2 (Hf c i o)) as (st & Hst & _); [done|].
  destruct (IndexedAssignment.containerToIndexedObjects ix !! c) as [m|] eqn:Em; [|done].
  exists m. split; [done|]. intros group o'. rewrite Hdyn, <- (Hf c group o'), Em. simpl.
  destruct (m !! group) as [s|]; simpl; [split; [by exists s|by intros (? & [= ->] & ?)]|].
  split; [by intros ?%elem_of_empty|by intros (? & [=] & _)].
Qed.

Lemma group_index a c p ix :
  Assignment.inv a → Assignment.partitionToPerContainerObjectIndexByGroups a !! p = Some ix →
  Assignment.getDynamicObjects a c ≠ [] →
  ∃ m, IndexedAssignment.getContainerObjects ix c = Ok m ∧
    ∀ group s o, m !! group = Some s → o ∈ s →
      o ∈ Assignment.getDynamicObjects a c ∧ IndexedAssignment.objectToIndex ix !! o = Some group.
Proof.
  intros Ha Hix Hne. destruct (group_index_exact a c p ix Ha Hix Hne) as (m & E & Hm).
  exists m. split; [done|]. intros group s o Hs Ho. apply Hm. by rewrite Hs.
Qed.

(** The bundles of a container: each has exactly the bundle size and consists of
    distinct dynamic objects of the container, all of one group. *)
Definition container_bundle (a : Assignment.t) (g : Z → Z) (src : Z) (bundle : list Z) : Prop :=
  NoDup bundle ∧ Z.of_nat (length bundle) = k ∧
  ∃ group, ∀ o, o ∈ bundle → o ∈ Assignment.getDynamicObjects a src ∧ g o = group.

Lemma bundles_of_index (rng0 : R) a g f es p ix src m hetero :
  Assignment.inv a → Assignment.partitionToPerContainerObjectIndexByGroups a !! p = Some ix →
  (∀ o i, IndexedAssignment.objectToIndex ix !! o = Some i → i = g o) →
  (∀ o, Assignment.is_dynamic a o → es_at es o = Ok (f o)) →
  (∀ group s o, m !! group = Some s → o ∈ s → o ∈ Assignment.getDynamicObjects a src ∧
     IndexedAssignment.objectToIndex ix !! o = Some group) →
  ∃ bundles, foldM (λ bundles '(groupId, objectsInGroup),
      groupBundles rng0 (es_at es) k (u64 (default k ((∅ : gmap Z Z) !! groupId))) hetero
        (set_iter objectsInGroup) bundles) [] (hash_iter m) = Ok bundles ∧
    Forall (container_bundle a g src) bundles.
Proof.
  intros Ha Hix Hg Hf Hm.
  apply (foldM_total (λ bundles, Forall (container_bundle a g src) bundles)); [constructor|].
  intros bundles [group s] Hin Hb. rewrite hash_iter_perm, elem_of_map_to_list in Hin.
  rewrite lookup_empty. simpl. rewrite u64_small by (unfold is_u64; lia).
  apply (groupBundles_exact _ rng0 (es_at es) f); [| |apply set_iter_NoDup|done].
  - intros b (H1 & H2 & H3). split_and!; [done|done|]. exists group. intros o Ho.
    destruct (Hm group s o Hin) as [H4 H5]; [by apply set_iter_elem, H3|]. split; [done|].
    symmetry. by apply Hg.
  - intros o Ho%set_iter_elem. apply Hf. destruct (Hm group s o Hin Ho) as [H _].
    apply Assignment.elem_of_getDynamicObjects in H as [H1 H2]; [|done]. split; [by eexists|done].
Qed.

Lemma getObjectBundles_exact (rng0 : R) a partition p src es f g hetero :
  Assignment.inv a → Assignment.partitionToPerContainerObjectIndexByGroups a !! p = None →
  (∀ o, Assignment.is_dynamic a o → getObjectIdToGroupIds partition !! o = Some [g o]) →
  (∀ o, Assignment.is_dynamic a o → es_at es o = Ok (f o)) →
  Assignment.getDynamicObjects a src ≠ [] →
  ∃ bundles a', getObjectBundlesToExplore rng0 partition p src k ∅ a es hetero = Ok (bundles, a') ∧
    Assignment.inv a' ∧ Assignment.objectToContainer a' = Assignment.objectToContainer a ∧
    Forall (container_bundle a g src) bundles.
Proof.
  intros Ha Hp Hg Hf Hne. unfold getObjectBundlesToExplore.
  destruct (Assignment.buildIndexByPartition_spec a partition p g Ha Hp Hg) as (ix & -> & Ha' & Hgi).
  cbn [mbind result_bind]. set (a' := Assignment.set_group_index a p ix) in *.
  assert (Assignment.partitionToPerContainerObjectIndexByGroups a' !! p = Some ix) as Hix
    by (unfold a'; simpl; apply lookup_insert_eq).
  unfold Assignment.getObjectsIndexedByPartition. rewrite Hix. cbn [mbind result_bind].
  destruct (group_index a' src p ix Ha' Hix) as (m & -> & Hm); [exact Hne|]. cbn [mbind result_bind].
  destruct (bundles_of_index rng0 a' g f es p ix src m hetero) as (bundles & -> & Hb); [done..|].
  cbn [mbind result_bind]. by exists bundles, a'.
Qed.
End offered.

(** ** Bundles of other sizes

    Whatever sizes a group is given, its bundles are not empty and consist of
    distinct objects of the group. *)
Section inside.
Context `{HO : HashOrder} `{RG : Rng R}.

Definition some_bundle (objects bundle : list Z) : Prop :=
  NoDup bundle ∧ bundle ≠ [] ∧ ∀ o, o ∈ bundle → o ∈ objects.

(** The sets of the window and those to come. *)
Definition pending (objects : list Z) (sets : list (list Z)) : Prop :=
  NoDup (mjoin sets) ∧ (∀ o, o ∈ mjoin sets → o ∈ objects) ∧ Forall (λ s, s ≠ []) sets.

Lemma pending_app objects sets1 sets2 :
  pending objects (sets1 ++ sets2) → pending objects sets1 ∧ pending objects sets2.
Proof.
  unfold pending. rewrite join_app, NoDup_app, Forall_app. setoid_rewrite elem_of_app. naive_solver.
Qed.

Lemma pending_window objects window rng k :
  pending objects window → window ≠ [] → 1 ≤ k →
  ∃ s rng', Sampling.getEqualSizeRandomSamplesFromEachSetIn rng window (Z.to_nat k) None = Ok (s, rng') ∧
    some_bundle objects (set_iter s).
Proof.
  intros (Hnd & Hob & Hne) Hw Hk.
  destruct (Sampling.getEqualSize_spec rng window (Z.to_nat k) None Hnd) as (s & r' & E & Hsub & Hs & _).
  simpl in Hsub, Hs. exists s, r'. split; [done|]. split_and!.
  - apply set_iter_NoDup.
  - pose proof (window_size window Hne). destruct window as [|w ws]; [done|]. simpl length in *.
    intros Ei%(f_equal length). rewrite set_iter_length, Hs in Ei. simpl length in Ei. lia.
  - intros o Ho%set_iter_elem%Hsub. apply Hob. by rewrite elem_of_list_to_set in Ho.
Qed.

Lemma bundlesLoop_inside (P : list Z → Prop) k gk hetero n objects :
  1 ≤ k → 1 ≤ gk → (∀ b, some_bundle objects b → P b) → ∀ sets window rng acc,
  pending objects (window ++ sets) → Forall P acc →
  ∃ bundles, bundlesLoop k gk hetero n sets window rng acc = Ok bundles ∧ Forall P bundles.
Proof.
  intros Hk Hgk HP. induction sets as [|s sets IH]; intros window rng acc Hp Hacc; simpl; [eauto|].
  set (acc1 := if gk <=? _ then _ else _).
  destruct (pending_app objects window (s :: sets) Hp) as [_ Hp2].
  destruct (pending_app objects [s] sets Hp2) as [(Ns & Hs & _) Hp3].
  assert (pending objects ((window ++ [s]) ++ sets)) as Hp' by (by rewrite <- (assoc_L (++))).
  destruct (pending_app _ _ _ Hp') as [Hpw _].
  assert (Forall P acc1) as Hacc1.
  { unfold acc1. destruct (Z.leb_spec gk (Z.of_nat (length s))); [|done].
    simpl in Ns, Hs. rewrite app_nil_r in Ns, Hs.
    apply Forall_app. split; [done|]. apply Forall_singleton, HP. split_and!.
    - eapply sublist_NoDup; [exact Ns|apply sublist_take].
    - intros E%(f_equal length). rewrite length_take in E. simpl in E. lia.
    - intros o Ho. apply Hs. eapply elem_of_submseteq; [exact Ho|]. apply sublist_submseteq, sublist_take. }
  clearbody acc1. destruct (hetero && (1 <? n)%nat).
  - destruct (_ || _).
    + destruct (pending_window objects (window ++ [s]) rng k Hpw) as (b & rng' & -> & Hb);
        [by destruct window|done|]. cbn [mbind result_bind]. apply IH.
      * destruct (window ++ [s]) as [|w ws] eqn:E; [by destruct window|]. simpl.
        by destruct (pending_app objects [w] (ws ++ sets) Hp').
      * apply Forall_app. split; [done|]. by apply Forall_singleton, HP.
    + by apply IH.
  - apply IH; [|done]. unfold pending in *. rewrite join_app, NoDup_app, Forall_app in Hp |- *.
    setoid_rewrite elem_of_app in Hp. setoid_rewrite elem_of_app. simpl in Hp.
    setoid_rewrite NoDup_app in Hp. rewrite Forall_cons in Hp. setoid_rewrite elem_of_app in Hp. naive_solver.
Qed.

Lemma groupBundles_inside (P : list Z → Prop) (rng0 : R) at_set f k gk hetero objects acc :
  1 ≤ k → 1 ≤ gk → (∀ b, some_bundle objects b → P b) →
  (∀ o, o ∈ objects → at_set o = Ok (f o)) → NoDup objects → Forall P acc →
  ∃ bundles, groupBundles rng0 at_set k gk hetero objects acc = Ok bundles ∧ Forall P bundles.
Proof.
  intros Hk Hgk HP Hat Hnd Hacc. unfold groupBundles. destruct (_ <? _); [eauto|].
  destruct (grouped at_set f objects Hat) as (m & -> & Hp & Hm). cbn [mbind result_bind].
  apply (bundlesLoop_inside P k gk _ _ objects Hk Hgk HP); [|done].
  assert (mjoin (hash_iter m).*2 ≡ₚ objects) as E by (by rewrite hash_iter_perm).
  simpl. split_and!; [by rewrite E|by intros o; rewrite E|].
  apply Forall_fmap, Forall_forall. intros [key l] Hl. simpl.
  rewrite hash_iter_perm, elem_of_map_to_list in Hl. by apply (Hm key l).
Qed.

(** The index by a partition, built if it is not there. *)
Lemma index_ready a partition p g :
  Assignment.inv a → (∀ o, Assignment.is_dynamic a o → getObjectIdToGroupIds partition !! o = Some [g o]) →
  ∃ a' ix, Assignment.buildIndexByPartition a partition p = Ok a' ∧ Assignment.inv a' ∧
    Assignment.getObjectsIndexedByPartition a' p = Ok ix ∧
    Assignment.partitionToPerContainerObjectIndexByGroups a' !! p = Some ix ∧
    (∀ c, Assignment.getDynamicObjects a' c = Assignment.getDynamicObjects a c) ∧
    (∀ o, Assignment.is_dynamic a' o ↔ Assignment.is_dynamic a o).
Proof.
  intros Ha Hg. destruct (Assignment.partitionToPerContainerObjectIndexByGroups a !! p) as [ix|] eqn:E.
  - exists a, ix. unfold Assignment.buildIndexByPartition, Assignment.getObjectsIndexedByPartition. by rewrite E.
  - destruct (Assignment.buildIndexByPartition_spec a partition p g Ha E Hg) as (ix & -> & Ha' & _).
    exists (Assignment.set_group_index a p ix), ix. unfold Assignment.getObjectsIndexedByPartition. simpl.
    by rewrite lookup_insert_eq.
Qed.

(** The bundles of a container with dynamic objects, for any sizes from one on. *)
Lemma getObjectBundles_inside (rng0 : R) a partition p src es f g k overrides hetero :
  Assignment.inv a →
  (∀ o, Assignment.is_dynamic a o → getObjectIdToGroupIds partition !! o = Some [g o]) →
  (∀ o, Assignment.is_dynamic a o → es_at es o = Ok (f o)) →
  Assignment.getDynamicObjects a src ≠ [] → 1 ≤ k < u64_mod →
  (∀ group n, overrides !! group = Some n → 1 ≤ n < u64_mod) →
  ∃ bundles a', getObjectBundlesToExplore rng0 partition p src k overrides a es hetero = Ok (bundles, a') ∧
    Forall (some_bundle (Assignment.getDynamicObjects a src)) bundles.
Proof.
  intros Ha Hg Hf Hne Hk Ho. unfold getObjectBundlesToExplore.
  destruct (index_ready a partition p g Ha Hg) as (a' & ix & -> & Ha' & Eix & Hix & Hd & Hdyn).
  cbn [mbind result_bind]. rewrite Eix. cbn [mbind result_bind].
  destruct (group_index a' src p ix Ha' Hix) as (m & -> & Hm); [by rewrite Hd|]. cbn [mbind result_bind].
  set (Q := λ bundles, Forall (some_bundle (Assignment.getDynamicObjects a src)) bundles).
  match goal with |- context [foldM ?h [] (hash_iter m)] =>
    destruct (foldM_total Q h [] (hash_iter m)) as (bundles & -> & Hb) end;
    [constructor| |by exists bundles, a'].
  intros bundles [group s] Hin Hb. rewrite hash_iter_perm, elem_of_map_to_list in Hin.
  assert (1 ≤ u64 (default k (overrides !! group))) as Hgk.
  { destruct (overrides !! group) as [n|] eqn:E; simpl; rewrite u64_small; unfold is_u64; try lia;
      specialize (Ho _ _ E); lia. }
  apply (groupBundles_inside _ rng0 (es_at es) f); [lia|done| | |apply set_iter_NoDup|done].
  - intros b (H1 & H2 & H3). split_and!; [done|done|]. intros o Hin'. rewrite <- Hd.
    by destruct (Hm group s o Hin) as [H4 _]; [apply set_iter_elem, H3|].
  - intros o Hin'%set_iter_elem. apply Hf, Hdyn. destruct (Hm group s o Hin Hin') as [H _].
    apply Assignment.elem_of_getDynamicObjects in H as [H1 H2]; [|done]. split; [by eexists|done].
Qed.
End inside.

(** ** Bundles around an object *)
Abbreviation others anchor l := (filter (λ o, o ≠ anchor) l).

Lemma extendBundle_spec anchor size : ∀ candidates bundle,
  Z.of_nat (length bundle) < size ≤ Z.of_nat (length bundle + length (others anchor candidates)) →
  extendBundle anchor size bundle candidates =
  Ok (take (Z.to_nat size) (bundle ++ others anchor candidates)).
Proof.
  induction candidates as [|o l IH]; intros bundle Hs; simpl; [simpl in Hs; lia|].
  rewrite filter_cons in Hs |- *. destruct (Z.eqb_spec o anchor) as [->|Hne].
  - rewrite decide_False in Hs |- * by (intros H; by apply H). by apply IH.
  - rewrite decide_True in Hs |- * by done. simpl in Hs.
    replace (bundle ++ o :: others anchor l) with ((bundle ++ [o]) ++ others anchor l)
      by (by rewrite <- (assoc_L (++))).
    destruct (Z.eqb_spec (Z.of_nat (length (bundle ++ [o]))) size) as [E|E].
    + rewrite take_app_le by lia. f_equal. rewrite take_ge by lia. done.
    + apply IH. rewrite length_app in *. simpl in *. lia.
Qed.

(** The bundle is the anchor followed by the first others. *)
Lemma buildAnchoredBundle_spec candidates anchor size :
  NoDup candidates → anchor ∈ candidates → 1 ≤ size ≤ Z.of_nat (length candidates) →
  buildAnchoredBundle candidates anchor size =
  Ok (take (Z.to_nat size) (anchor :: others anchor candidates)).
Proof.
  intros Hnd Hin Hs. unfold buildAnchoredBundle.
  rewrite (proj2 (Z.eqb_neq size 0)) by lia. rewrite (proj2 (Z.ltb_ge _ size)) by lia.
  rewrite bool_decide_eq_true_2 by done. simpl.
  destruct (Sampling.kept_most (Some anchor) candidates Hnd) as [_ Hk]. simpl in Hk.
  destruct size as [|[q|q|]|q]; try lia; try done;
    (change (1 =? _) with false; cbv iota; rewrite extendBundle_spec; [done|simpl length; lia]).
Qed.

Record anchored (candidates : list Z) (anchor size : Z) (bundle : list Z) : Prop := {
  an_nodup : NoDup bundle;
  an_size : Z.of_nat (length bundle) = size;
  an_anchor : anchor ∈ bundle;
  an_sub o : o ∈ bundle → o ∈ candidates
}.

Lemma anchored_bundle candidates anchor size :
  NoDup candidates → anchor ∈ candidates → 1 ≤ size ≤ Z.of_nat (length candidates) →
  ∃ bundle, buildAnchoredBundle candidates anchor size = Ok bundle ∧
    anchored candidates anchor size bundle.
Proof.
  intros Hnd Hin Hs. rewrite buildAnchoredBundle_spec by done. eexists. split; [done|].
  destruct (Sampling.kept_most (Some anchor) candidates Hnd) as [_ Hk]. simpl in Hk.
  assert (NoDup (anchor :: others anchor candidates)) as Hn.
  { apply NoDup_cons. split; [|by apply NoDup_filter]. by intros [H _]%list_elem_of_filter. }
  split.
  - eapply sublist_NoDup; [exact Hn|apply sublist_take].
  - rewrite length_take. simpl. lia.
  - destruct (Z.to_nat size) as [|n] eqn:E; [lia|]. simpl. left.
  - intros o Ho.
    assert (o ∈ anchor :: others anchor candidates) as [->|[_ H]%list_elem_of_filter]%elem_of_cons; [|done..].
    eapply elem_of_submseteq; [exact Ho|apply sublist_submseteq, sublist_take].
Qed.

(** ** Swap ratios are at least one *)
Lemma quotient_positive m1 e1 m2 e2 :
  bounded prec emax m1 e1 = true → bounded prec emax m2 e2 = true → e2 ≤ e1 →
  let '(q, e, _) := SFdiv_core_binary prec emax (Z.pos m1) e1 (Z.pos m2) e2 in 0 < q ∧ minexp ≤ e.
Proof.
  intros (_ & _ & _)%bounded_spec (_ & Hu2 & _)%bounded_spec He. unfold SFdiv_core_binary.
  set (e' := Z.min _ _). simpl Zdigits2 in e'.
  pose proof (digits2_pos_bounds m1) as [L1 U1]. pose proof (digits2_pos_bounds m2) as [L2 U2].
  assert (minexp ≤ e') as Hmin by (unfold e', fexp, emin; lia).
  assert (0 ≤ e1 - e2 - e') as Hs by (unfold e'; lia).
  assert (Z.pos m2 ≤ Z.pos m1 * 2 ^ (e1 - e2 - e')) as Hge.
  { transitivity (2 ^ (Z.pos (digits2_pos m1) - 1 + (e1 - e2 - e'))).
    - destruct (Z.max_spec (Z.pos (digits2_pos m1) + e1 - (Z.pos (digits2_pos m2) + e2) - prec) (minexp))
        as [[_ Hmax]|[_ Hmax]].
      + assert (e' ≤ minexp) by (unfold e', fexp, emin in *; lia).
        transitivity (2 ^ 53); [lia|]. apply Z.pow_le_mono_r; lia.
      + transitivity (2 ^ Z.pos (digits2_pos m2)); [lia|]. apply Z.pow_le_mono_r; [lia|].
        unfold e', fexp, emin in *. lia.
    - rewrite Z.pow_add_r by lia. apply Z.mul_le_mono_nonneg_r; [|lia]. apply Z.pow_nonneg. lia. }
  set (m' := match e1 - e2 - e' with Z0 => _ | _ => _ end).
  assert (m' = Z.pos m1 * 2 ^ (e1 - e2 - e')) as ->.
  { unfold m'. destruct (e1 - e2 - e') as [|q|q]; [lia| |lia]. by rewrite Z.shiftl_mul_pow2 by lia. }
  pose proof (Z.div_str_pos (Z.pos m1 * 2 ^ (e1 - e2 - e')) (Z.pos m2) ltac:(lia)) as Hq.
  unfold Z.div in Hq. destruct (Z.div_eucl _ _) as [q r]. split; [done|]. done.
Qed.

Lemma ceil_positive x : 0 < val x → 1 ≤ ceil x.
Proof.
  intros H. unfold ceil. pose proof (Z.mul_div_le (- val x) (2 ^ - minexp) ltac:(lia)).
  assert (0 < 2 ^ - minexp) by lia. nia.
Qed.

Lemma ratio_at_least_one x y n :
  fin x → fin y → (d0 <? y)%D = true → (y <? x)%D = true → to_size_t (x / y)%D = Ok n → 1 ≤ n.
Proof.
  intros Fx Fy Hy Hxy. unfold to_size_t. destruct (isfinite (x / y)%D) eqn:Ef; [|done]. simpl.
  destruct (_ && _); [|done]. intros [= <-]. apply ceil_positive.
  rewrite dlt_val in Hy, Hxy by done. apply Z.ltb_lt in Hy, Hxy. simpl val at 1 in Hy.
  destruct x as [sx|sx| |sx m1 e1], y as [sy|sy| |sy m2 e2]; try done; [simpl in *; lia|].
  assert (sx = false ∧ sy = false) as [-> ->].
  { simpl in Hy, Hxy. destruct sx, sy; simpl in *; try lia; split; try done; nia. }
  assert (e2 ≤ e1) as He.
  { destruct (Z.le_gt_cases e2 e1) as [|Hlt]; [done|]. exfalso.
    pose proof (bounded_exp_lt m1 e1 m2 e2 Fx Fy ltac:(lia)). simpl in Hxy. lia. }
  pose proof (quotient_positive m1 e1 m2 e2 Fx Fy He) as Hq. unfold ddiv, SFdiv in *.
  destruct (SFdiv_core_binary prec emax (Z.pos m1) e1 (Z.pos m2) e2) as [[q e] l]. simpl in Ef |- *.
  destruct Hq as [Hq1 Hq2].
  destruct (binary_round_aux_nonzero false q e l Hq1 Hq2) as [Ha Hz].
  pose proof (binary_round_aux_sign false q e l ltac:(lia)) as Hs.
  destruct (binary_round_aux prec emax false q e l) as [s|s| |[] m e3]; [by destruct (Hz s)|done|done|done|].
  simpl in Ha |- *. apply Z.mul_pos_pos; [lia|]. apply pow2_pos. lia.
Qed.

Section sizes.
Context (getValue : Z → result double).

Lemma calculateSwapRatio_at_least_one larger smaller n :
  (∀ o v, getValue o = Ok v → fin v) → calculateSwapRatio getValue larger smaller = Ok n → 1 ≤ n.
Proof.
  intros Hv. unfold calculateSwapRatio.
  intros (l & El & (s & Es & E)%bind_Ok)%bind_Ok.
  destruct ((d0 <? s)%D) eqn:E1, ((s <? l)%D) eqn:E2; simpl in E; try (injection E as <-; lia).
  eapply (ratio_at_least_one l s); eauto.
Qed.

(** One of the two bundles is a single object; neither is empty. *)
Lemma getBundleSizes_spec flag hot cold h c :
  (∀ o v, getValue o = Ok v → fin v) → getBundleSizes getValue flag hot cold = Ok (h, c) →
  1 ≤ h ∧ 1 ≤ c ∧ (h = 1 ∨ c = 1).
Proof.
  intros Hv. unfold getBundleSizes. intros (hv & Eh & (cv & Ec & E)%bind_Ok)%bind_Ok.
  destruct (_ && _).
  { apply bind_Ok in E as (n & En & [= <- <-]).
    apply calculateSwapRatio_at_least_one in En; [lia|done]. }
  destruct (_ && _); [|injection E as <- <-; lia].
  destruct flag; simpl in E; [|injection E as <- <-; lia].
  apply bind_Ok in E as (n & En & [= <- <-]).
  apply calculateSwapRatio_at_least_one in En; [lia|done].
Qed.
End sizes.

(** ** The candidates of a swap *)
Section swaps.
Context `{HO : HashOrder}.
Context (hotObjects : list Z) (hotObject : Z) (coldObjects : list Z) (f : Z → Z).

(** The sizes agree with the values of the dimension, or are one and one. *)
Definition sizes_ok (dimension : option (Z → result double)) (flag : bool)
    (coldObject h c : Z) : Prop :=
  match dimension with
  | Some getValue => getBundleSizes getValue flag hotObject coldObject = Ok (h, c)
  | None => h = 1 ∧ c = 1
  end.

(** The objects equivalent to a given one. *)
Abbreviation class o := (filter (λ x, f x = f o) coldObjects).

(** A cold bundle against a hot bundle of [h] objects, one side being a single
    object. *)
Definition fitting dimension flag (h : Z) (coldBundle : list Z) : Prop :=
  ∃ coldObject c, anchored (class coldObject) coldObject c coldBundle ∧
    (h = 1 ∨ c = 1) ∧ sizes_ok dimension flag coldObject h c.

(** A candidate: the hot object with [h] equivalent ones of its container, and
    bundles of the other container that fit. *)
Definition swap_candidate dimension flag (candidate : SwapCandidateImplicit) : Prop :=
  ∃ h, anchored hotObjects hotObject h candidate.1 ∧
    ∀ coldBundle, coldBundle ∈ candidate.2 → fitting dimension flag h coldBundle.

(** Some bundle of a candidate holds an object. *)
Definition covers (candidates : list SwapCandidateImplicit) (o : Z) : Prop :=
  ∃ candidate bundle, candidate ∈ candidates ∧ bundle ∈ candidate.2 ∧ o ∈ bundle.

(** There are enough objects for the sizes of a swap. *)
Definition enough dimension flag (o : Z) : Prop :=
  ∀ h c, sizes_ok dimension flag o h c →
    h ≤ Z.of_nat (length hotObjects) ∧ c ≤ Z.of_nat (length (class o)).

Context (at_set : Z → result Z).
Context (Hhot : hotObject ∈ hotObjects) (Nhot : NoDup hotObjects) (Ncold : NoDup coldObjects).
Context (Hat : ∀ o, o ∈ coldObjects → at_set o = Ok (f o)).

(** The sets of the grouping are the classes, each with its first object. *)
Lemma cold_sets :
  ∃ m, groupObjectsByEquivalenceSet at_set coldObjects = Ok m ∧
    (∀ s, s ∈ (hash_iter m).*2 → ∃ o l, s = o :: l ∧ o ∈ coldObjects ∧ s ≡ₚ class o) ∧
    ∀ o, o ∈ coldObjects → ∃ s, s ∈ (hash_iter m).*2 ∧ o ∈ s.
Proof.
  destruct (grouped at_set f coldObjects Hat) as (m & E & Hp & Hm). exists m. split; [done|].
  assert (∀ o, o ∈ coldObjects → ∃ key l, m !! key = Some l ∧ o ∈ l) as Hall.
  { intros o Ho. rewrite <- Hp in Ho. apply list_elem_of_join in Ho as (l & Ho & Hl).
    apply list_elem_of_fmap in Hl as ([key l'] & -> & Hl). apply elem_of_map_to_list in Hl. eauto. }
  assert (∀ key l o, m !! key = Some l → o ∈ l → o ∈ coldObjects) as Hsub.
  { intros key l o Hl Ho. rewrite <- Hp. apply list_elem_of_join. exists l. split; [done|].
    apply list_elem_of_fmap. exists (key, l). by rewrite elem_of_map_to_list. }
  assert (∀ key l, m !! key = Some l → NoDup l) as Hnd.
  { intros key l Hl. rewrite <- Hp in Ncold.
    rewrite <- (map_to_list_delete m key l Hl) in Ncold. simpl in Ncold.
    by apply NoDup_app in Ncold as (? & _ & _). }
  split.
  - intros s ([key l] & -> & Hs)%list_elem_of_fmap. simpl. rewrite hash_iter_perm, elem_of_map_to_list in Hs.
    destruct (Hm key l Hs) as [Hne Hk]. destruct l as [|o l]; [done|]. exists o, l. split; [done|].
    split; [by eapply Hsub; [exact Hs|left]|]. apply NoDup_Permutation; [by eapply Hnd|by apply NoDup_filter|].
    intros x. rewrite list_elem_of_filter, (Hk o) by left. split.
    + intros Hx. split; [by apply Hk|by eapply Hsub].
    + intros [Hx Hxc]. destruct (Hall x Hxc) as (key' & l' & Hl' & Hxl).
      destruct (Hm key' l' Hl') as [_ Hk']. assert (key' = key) as -> by (rewrite <- (Hk' x Hxl); done).
      congruence.
  - intros o Ho. destruct (Hall o Ho) as (key & l & Hl & Hol). exists l. split; [|done].
    apply list_elem_of_fmap. exists (key, l). by rewrite hash_iter_perm, elem_of_map_to_list.
Qed.

(** *** Without a dimension: single objects against single objects *)
Lemma front_bundles flag sets : ∀ acc,
  (∀ s, s ∈ sets → ∃ o l, s = o :: l ∧ o ∈ coldObjects ∧ s ≡ₚ class o) →
  (∀ b, b ∈ acc → fitting None flag 1 b) →
  ∃ bundles, foldM (λ bundles s, o ← front s; Ok (bundles ++ [[o]])) acc sets = Ok bundles ∧
    (∀ b, b ∈ bundles → fitting None flag 1 b) ∧ (∀ b, b ∈ acc → b ∈ bundles) ∧
    ∀ o l, o :: l ∈ sets → [o] ∈ bundles.
Proof.
  induction sets as [|s sets IH]; intros acc Hs Hacc; simpl.
  { exists acc. split_and!; [done|done|done|]. by intros ? ? ?%elem_of_nil. }
  destruct (Hs s) as (o & l & -> & Ho & Hp); [left|]. simpl.
  destruct (IH (acc ++ [[o]])) as (bs & -> & H1 & H2 & H3).
  - intros s' Hs'. apply Hs. by right.
  - intros b [?| ->%list_elem_of_singleton]%elem_of_app; [by apply Hacc|].
    exists o, 1. split_and!; [|by left|done].
    split; [apply NoDup_singleton|done|left|]. intros x ->%list_elem_of_singleton.
    by apply list_elem_of_filter.
  - exists bs. split_and!; [done|done| |].
    + intros b Hb. apply H2. set_solver.
    + intros o' l' [[= -> ->]|Hin]%elem_of_cons; [|by eapply H3]. apply H2. set_solver.
Qed.

Lemma generate_single flag :
  ∃ candidates, generateDimensionBasedSwapCandidates flag at_set None hotObject coldObjects None =
      Ok candidates ∧
    Forall (swap_candidate None flag) candidates ∧
    ∀ o, o ∈ coldObjects → ∃ o', f o' = f o ∧ covers candidates o'.
Proof.
  unfold generateDimensionBasedSwapCandidates.
  destruct cold_sets as (m & -> & Hs & Hall). cbn [mbind result_bind].
  destruct (front_bundles flag _ [] Hs) as (bs & -> & H1 & _ & H3); [by intros ? ?%elem_of_nil|].
  cbn [mbind result_bind]. eexists. split; [done|]. split.
  - apply Forall_singleton. exists 1. simpl. split; [|done].
    split; [apply NoDup_singleton|done|left|]. by intros x ->%list_elem_of_singleton.
  - intros o Ho. destruct (Hall o Ho) as (s & Hin & Hos). destruct (Hs s Hin) as (o' & l & -> & Ho' & Hp).
    exists o'. split.
    + rewrite Hp in Hos. by apply list_elem_of_filter in Hos as [-> _].
    + exists ([hotObject], bs), [o']. split_and!; [left|by eapply H3|left].
Qed.

(** *** With a dimension: bundles of the lighter objects *)
Section dimension.
Context (getValue : Z → result double) (flag : bool).
Context (Hv : ∀ o v, getValue o = Ok v → fin v).
Context (Hsizes : ∀ o, o ∈ coldObjects → ∃ h c, getBundleSizes getValue flag hotObject o = Ok (h, c)).
Abbreviation dim := (Some getValue).

(** The candidates so far, by the size of their hot bundle. *)
Definition by_size (candidates : gmap Z SwapCandidateImplicit) : Prop :=
  ∀ h candidate, candidates !! h = Some candidate →
    anchored hotObjects hotObject h candidate.1 ∧
    ∀ b, b ∈ candidate.2 → fitting dim flag h b.

Definition listed (candidates : gmap Z SwapCandidateImplicit) (o : Z) : Prop :=
  ∃ h candidate b, candidates !! h = Some candidate ∧ b ∈ candidate.2 ∧ o ∈ b.

Lemma append_spec candidates s o h c :
  by_size candidates → o ∈ s → s ≡ₚ class o →
  getBundleSizes getValue flag hotObject o = Ok (h, c) →
  h ≤ Z.of_nat (length hotObjects) → c ≤ Z.of_nat (length s) →
  ∃ candidates', appendColdBundleForHotBundleSize hotObjects hotObject candidates h s o c =
      Ok candidates' ∧ by_size candidates' ∧ listed candidates' o ∧
    ∀ x, listed candidates x → listed candidates' x.
Proof.
  intros Hby Ho Hp Hsz Hh Hc. destruct (getBundleSizes_spec getValue flag hotObject o h c Hv Hsz) as (H1 & H2 & H3).
  unfold appendColdBundleForHotBundleSize.
  assert (∃ candidate, candidateOfSize hotObjects hotObject candidates h = Ok candidate ∧
    anchored hotObjects hotObject h candidate.1 ∧ (∀ b, b ∈ candidate.2 → fitting dim flag h b) ∧
    ∀ old b, candidates !! h = Some old → b ∈ old.2 → b ∈ candidate.2) as (cand & -> & Ca & Cf & Co).
  { unfold candidateOfSize. destruct (candidates !! h) as [cand|] eqn:E.
    - destruct (Hby h cand E). exists cand. split_and!; [done|done|done|]. by intros old b [= <-].
    - destruct (anchored_bundle hotObjects hotObject h Nhot Hhot) as (hb & -> & Hhb); [lia|].
      cbn [mbind result_bind]. eexists. split_and!; [done|done| |done]. simpl. by intros b ?%elem_of_nil. }
  cbn [mbind result_bind].
  assert (NoDup s) as Ns by (rewrite Hp; by apply NoDup_filter).
  destruct (anchored_bundle s o c Ns Ho) as (cb & -> & Hcb); [lia|]. cbn [mbind result_bind].
  assert (fitting dim flag h cb) as Hfit.
  { exists o, c. split_and!; [|done|done]. destruct Hcb as [? ? ? Hsub]. split; [done..|].
    intros x Hx. rewrite <- Hp. by apply Hsub. }
  eexists. split; [done|]. split_and!.
  - intros h' cand'. rewrite lookup_insert. case_decide as Hd; [|apply Hby]. intros [= <-]. subst h'. simpl.
    split; [done|]. intros b [?| ->%list_elem_of_singleton]%elem_of_app; [by apply Cf|done].
  - exists h, (cand.1, cand.2 ++ [cb]), cb. rewrite lookup_insert_eq. simpl.
    split_and!; [done|set_solver|by destruct Hcb].
  - intros x (h' & cand' & b & Hl & Hb & Hx). destruct (decide (h' = h)) as [->|Hne].
    + exists h, (cand.1, cand.2 ++ [cb]), b. rewrite lookup_insert_eq. simpl.
      split_and!; [done| |done]. apply elem_of_app. left. by eapply Co.
    + exists h', cand', b. by rewrite lookup_insert_ne.
Qed.

Lemma generate_loop sets : ∀ candidates,
  (∀ s, s ∈ sets → ∃ o l, s = o :: l ∧ o ∈ coldObjects ∧ s ≡ₚ class o) → by_size candidates →
  ∃ candidates', foldM (λ candidates s,
      coldObject ← front s;
      '(hotBundleSize, coldBundleSize) ← getBundleSizes getValue flag hotObject coldObject;
      if negb (hotBundleSize =? 1) && negb (coldBundleSize =? 1)
      then Throw (runtime_error "Expect either 1:k or k:1 bundles")
      else if (Z.of_nat (length hotObjects) <? hotBundleSize) || (Z.of_nat (length s) <? coldBundleSize)
      then Ok candidates
      else appendColdBundleForHotBundleSize hotObjects hotObject candidates hotBundleSize s
             coldObject coldBundleSize) candidates sets = Ok candidates' ∧ by_size candidates' ∧
    (∀ x, listed candidates x → listed candidates' x) ∧
    ∀ o l, o :: l ∈ sets → enough dim flag o → listed candidates' o.
Proof.
  induction sets as [|s sets IH]; intros cands Hs Hby.
  { exists cands. split_and!; [done|done|done|]. by intros ? ? ?%elem_of_nil. }
  destruct (Hs s) as (o & l & -> & Ho & Hp); [left|].
  assert (∀ s, s ∈ sets → ∃ o l, s = o :: l ∧ o ∈ coldObjects ∧ s ≡ₚ class o) as Hs'
    by (intros s' ?; apply Hs; by right).
  destruct (Hsizes o Ho) as (h & c & Esz).
  destruct (getBundleSizes_spec getValue flag hotObject o h c Hv Esz) as (H1 & H2 & H3).
  cbn [foldM front head mbind result_bind]. rewrite Esz. cbn [mbind result_bind].
  assert (negb (h =? 1) && negb (c =? 1) = false) as -> by (destruct H3 as [-> | ->]; [done|apply andb_false_r]).
  destruct (_ || _) eqn:Ef.
  - destruct (IH cands Hs' Hby) as (cands' & E & B1 & B2 & B3). exists cands'. split_and!; [exact E|done|done|].
    intros o' l' [[= -> ->]|Hin]%elem_of_cons Hen; [|by eapply B3].
    exfalso. destruct (Hen h c Esz) as [E1 E2]. rewrite <- (Permutation_length Hp) in E2.
    apply orb_true_iff in Ef as [?%Z.ltb_lt|?%Z.ltb_lt]; lia.
  - apply orb_false_iff in Ef as [Fh%Z.ltb_ge Fc%Z.ltb_ge].
    destruct (append_spec cands (o :: l) o h c) as (c1 & -> & A1 & A2 & A3); [done|left|done..|].
    cbn [mbind result_bind].
    destruct (IH c1 Hs' A1) as (cands' & E & B1 & B2 & B3). exists cands'. split_and!; [exact E|done|auto|].
    intros o' l' [[= -> ->]|Hin]%elem_of_cons Hen; [by apply B2|by eapply B3].
Qed.

Lemma generate_dimension :
  ∃ candidates, generateDimensionBasedSwapCandidates flag at_set (Some hotObjects) hotObject coldObjects
      dim = Ok candidates ∧
    Forall (swap_candidate dim flag) candidates ∧
    ∀ o, o ∈ coldObjects → ∃ o', o' ∈ coldObjects ∧ f o' = f o ∧
      (enough dim flag o' → covers candidates o').
Proof.
  unfold generateDimensionBasedSwapCandidates.
  destruct cold_sets as (m & -> & Hs & Hall). cbn [mbind result_bind].
  destruct (generate_loop (hash_iter m).*2 ∅ Hs) as (cands & -> & B1 & _ & B3);
    [intros h cand; by rewrite lookup_empty|].
  cbn [mbind result_bind]. eexists. split; [done|]. split.
  - apply Forall_fmap, Forall_forall. intros [h cand] Hin. rewrite hash_iter_perm, elem_of_map_to_list in Hin.
    exists h. simpl. by apply B1.
  - intros o Ho. destruct (Hall o Ho) as (s & Hin & Hos). destruct (Hs s Hin) as (o' & l & -> & Ho' & Hp).
    exists o'. split; [done|]. split.
    + rewrite Hp in Hos. by apply list_elem_of_filter in Hos as [-> _].
    + intros Hen. destruct (B3 o' l Hin Hen) as (h & cand & b & Hl & Hb & Hx).
      exists cand, b. split_and!; [|done|done]. apply list_elem_of_fmap. exists (h, cand).
      by rewrite hash_iter_perm, elem_of_map_to_list.
Qed.
End dimension.
End swaps.
End Bundles.
