(* ===== verification/SwapMoves.v ===== *)
(** * Swaps

    [SwapMoveType] (solver/moves): an object of the hot container, or a bundle of
    equivalent ones, is exchanged with objects of another container.  Sampling
    decisions are parameters: the theorems hold for all of them. *)

From S2P Require Import Prelude Double Precision ObjectiveValue ChangeSet ObjectStore.
From S2P Require Import IndexedAssignment Assignment EntityAttributes Objective Problem Moves.
From S2P Require Import LocalSearch EquivalenceSets Bits Parallel SingleMove.
From S2P Require Import ParallelExecution ExecutionSelector MoveHelper MoveTypes MoveChains.
From S2P Require Import Sampling Bundles.

(** The fields of [SwapMoveTypeSpec], with names resolved: the partition of
    [partitionNameToExploreSwapsWithinObjectGroup], and for a hot container the
    values of the dimension of [swapRatioDimension]. *)
Record SwapConfig := {
  withinGroups : option Chains.Groups;
  greedyOnSrc : bool;
  greedyOnDst : bool;
  customColdContainers : option (list Z);
  swapRatioDimension : option (Z → result (Z → result double))
}.

(** What a call meets: the equivalence sets and the outcome of sampling an object. *)
Record SwapEnv := {
  swap_base :> MoveTypeEnv;
  equivalenceSets : EquivalenceSetsView;
  enableKToOneSwaps : bool;
  sampled : nat → Z → bool
}.

Module SwapMoveType.
Section types.
Context `{G : ExpressionGraph} `{HO : HashOrder} {A : Type} `{EA : EntityAttributes A}.
Context (hash : Z → Z → Z → Z).
Abbreviation empty := MoveResult.makeEmpty.
Abbreviation invalid env := (InvalidMoveFilter.isMoveInvalid (invalidMoveFilter env)).
Abbreviation any_invalid env := (InvalidMoveFilter.anyMoveInvalid (invalidMoveFilter env)).
Abbreviation precision p := (Problem.precision p).
Abbreviation move := (makeMove hash).

Definition attemptMoveWithThisObject (env : SwapEnv) (p : Problem.t A) (call : nat) (o : Z) : bool :=
  SingleMoveType.attemptMoveWithThisObject p o && sampled env call o.

(** The moves of a candidate, in the order of the two loops. *)
Definition swapMoves (hotContainer coldContainer : Z) (hotObjects coldObjects : list Z) : list Move :=
  ((λ o, move o hotContainer coldContainer) <$> hotObjects) ++
  ((λ o, move o coldContainer hotContainer) <$> coldObjects).

(** The dimension for the hot container with the equivalence set of the hot
    object. *)
Definition ratioOf (config : SwapConfig) (env : SwapEnv) (p : Problem.t A) (hotContainer hotObject : Z)
    : result (option (list Z) * option (Z → result double)) :=
  match swapRatioDimension config with
  | None => Ok (None, None)
  | Some dimensionOf =>
      getValue ← dimensionOf hotContainer;
      hotEquivalenceSetId ← es_at (equivalenceSets env) hotObject;
      ix ← Assignment.getObjectsIndexedByEquivSets (Problem.assignment p) (equivalenceSets env);
      m ← IndexedAssignment.getContainerObjects ix hotContainer;
      match m !! hotEquivalenceSetId with
      | None => Throw (runtime_error "Hot object is missing from dynamic equivalence set")
      | Some store => Ok (Some (ObjectStore.iter store), Some getValue)
      end
  end.

(** [CartesianProduct] of the hot bundle with the cold bundles that pass the two
    filters. *)
Definition candidatesToEvaluate (env : SwapEnv) (p : Problem.t A) (call : nat)
    (hotContainer coldContainer : Z) (candidate : Bundles.SwapCandidateImplicit)
    : result (list (list Z * list Z)) :=
  coldBundles ← MoveHelper.filterM (λ b,
      o ← Bundles.front b; Ok (attemptMoveWithThisObject env p call o)) candidate.2;
  MoveHelper.filterM (λ c : list Z * list Z,
      i1 ← any_invalid env c.1 coldContainer;
      if (i1 : bool) then Ok false
      else i2 ← any_invalid env c.2 hotContainer; Ok (negb i2))
    ((λ cold, (candidate.1, cold)) <$> coldBundles).

Definition evaluateSwap (ev : MovesEvaluator.t) (p : Problem.t A) (hotContainer coldContainer : Z)
    (candidate : list Z * list Z) : result MoveResult.t :=
  MovesEvaluator.evaluate ev p (swapMoves hotContainer coldContainer candidate.1 candidate.2).

(** [timeLimit] is given when the candidates of a container are evaluated in
    parallel; [position] is the place of the call in the loop over hot objects. *)
Definition exploreAllAndGetBestResult (config : SwapConfig) (env : SwapEnv) (ev : MovesEvaluator.t)
    (p : Problem.t A) (call position : nat) (hotContainer hotObject coldContainer : Z)
    (dynamicObjects : list Z) (timeLimit : option double) : result MoveResult.t :=
  '(hotObjectsInEquivSet, dimension) ← ratioOf config env p hotContainer hotObject;
  implicitCandidates ← Bundles.generateDimensionBasedSwapCandidates (enableKToOneSwaps env)
    (es_at (equivalenceSets env)) hotObjectsInEquivSet hotObject dynamicObjects dimension;
  '(_, bestResult) ← forLoop (λ i bestResult candidate,
      match timeLimit with
      | Some limit =>
          let remainingTime := (limit - timer env call position i)%D in
          if (remainingTime <=? d0)%D then Ok (true, bestResult)
          else
            candidates ← candidatesToEvaluate env p call hotContainer coldContainer candidate;
            r ← MoveHelper.findBest (executor env call position i) candidates
                  (evaluateSwap ev p hotContainer coldContainer) remainingTime;
            best' ← MoveResult.aggregate bestResult r;
            Ok (false, best')
      | None =>
          candidates ← candidatesToEvaluate env p call hotContainer coldContainer candidate;
          forLoop (λ _ bestResult c,
              r ← evaluateSwap ev p hotContainer coldContainer c;
              Chains.aggregateGreedy (greedyOnDst config) (precision p) bestResult r)
            0 bestResult candidates
      end) 0 empty implicitCandidates;
  Ok bestResult.

(** [Problem::getDynamicObjects(container, partition, group)]. *)
Definition groupDynamicObjects (p : Problem.t A) (gs : Chains.Groups) (container groupId : Z)
    : result (list Z) :=
  store ← foldM (λ store o,
      c ← Assignment.getContainer (Problem.assignment p) o;
      Ok (if (c =? container) && negb (bool_decide (o ∈ Problem.fixed_objects p))
          then ObjectStore.insert store o else store))
    (ObjectStore.get (Assignment.objectStoreFactory (Problem.assignment p))) (Chains.objectsOf gs groupId);
  Ok (ObjectStore.iter store).

Definition exploreSwappingHotObjectWithObjectsInColdContainer (config : SwapConfig) (env : SwapEnv)
    (ev : MovesEvaluator.t) (p : Problem.t A) (call position : nat)
    (hotContainer hotObject coldContainer : Z) (timeLimit : option double) : result MoveResult.t :=
  match withinGroups config with
  | None =>
      exploreAllAndGetBestResult config env ev p call position hotContainer hotObject coldContainer
        (Assignment.getDynamicObjects (Problem.assignment p) coldContainer) timeLimit
  | Some gs =>
      groupIdOpt ← Chains.onlyGroup gs hotObject;
      match groupIdOpt with
      | None => Ok empty
      | Some groupId =>
          dynamicObjects ← groupDynamicObjects p gs coldContainer groupId;
          exploreAllAndGetBestResult config env ev p call position hotContainer hotObject
            coldContainer dynamicObjects timeLimit
      end
  end.

(** The parallel loop of [AsyncSingleMovesMoveType] with the methods of this class. *)
Definition asyncFindBestMove (config : SwapConfig) (env : SwapEnv) (ev : MovesEvaluator.t)
    (p : Problem.t A) (call : nat) (hotContainer : Z) (timeLimit : double) : result MoveResult.t :=
  Chains.async_findBestMove
    (λ hotObject coldContainer,
       exploreSwappingHotObjectWithObjectsInColdContainer config env ev p call 0 hotContainer
         hotObject coldContainer None)
    (attemptMoveWithThisObject env p call) (customColdContainers config) env p call hotContainer
    timeLimit.

(** One hot object at a time, up to the first that improves. *)
Definition greedyFindBestMove (config : SwapConfig) (env : SwapEnv) (ev : MovesEvaluator.t)
    (p : Problem.t A) (call : nat) (hotContainer : Z) (timeLimit : double) : result MoveResult.t :=
  dedupedObjs ← MoveTypeUtils.dedupedObjects env p hotContainer;
  let hotObjects := filter (λ o, attemptMoveWithThisObject env p call o = true) dedupedObjs in
  let coldContainers := filter (λ c, SingleMoveType.accepting env hotContainer c = true)
    (default (all_containers env) (customColdContainers config)) in
  match coldContainers with
  | [] => Ok empty
  | _ =>
      '(_, bestResult) ← forLoop (λ i bestResult hotObject,
          if (timeLimit <=? timer env call i 0)%D then Ok (true, bestResult)
          else
            r ← match coldContainers with
                | [coldContainer] =>
                    exploreSwappingHotObjectWithObjectsInColdContainer config env ev p call i
                      hotContainer hotObject coldContainer
                      (if greedyOnDst config then None else Some (timeLimit - timer env call i 1)%D)
                | _ =>
                    MoveHelper.findBest (executor env call i 0) coldContainers
                      (λ coldContainer,
                         exploreSwappingHotObjectWithObjectsInColdContainer config env ev p call i
                           hotContainer hotObject coldContainer None)
                      (timeLimit - timer env call i 1)%D
                end;
            MoveTypeUtils.aggregateAndTest (precision p) bestResult r) 0 empty hotObjects;
      Ok bestResult
  end.

Definition findBestMove (config : SwapConfig) (env : SwapEnv) (ev : MovesEvaluator.t)
    (p : Problem.t A) (call : nat) (hotContainer : Z) (timeLimit : double) : result MoveResult.t :=
  if negb (greedyOnSrc config)
  then asyncFindBestMove config env ev p call hotContainer timeLimit
  else greedyFindBestMove config env ev p call hotContainer timeLimit.

(** ** The promise *)

(** A bundle is invalid if one of its objects is. *)
Lemma any_invalid_each env o bundle c :
  (∀ x, x ∈ o :: bundle → ∃ b, invalid env x c = Ok b) →
  ∃ b, any_invalid env (o :: bundle) c = Ok b ∧
    (b = true ↔ ∃ x, x ∈ o :: bundle ∧ invalid env x c = Ok true).
Proof.
  unfold InvalidMoveFilter.anyMoveInvalid, InvalidMoveFilter.isMoveInvalid.
  destruct (invalidMoveFilter env) as [flt|]; [|intros _; exists false; split; [done|naive_solver]].
  unfold InvalidMoveFilter.anyMarkedInvalid, InvalidMoveFilter.isMarkedInvalid.
  destruct (InvalidMoveFilter.isEmpty flt); [intros _; exists false; split; [done|naive_solver]|].
  destruct (vec_get _ c) as [row|ex]; cbn [mbind result_bind]; [|intros H; by destruct (H o ltac:(left))].
  destruct row as [r|]; [|intros _; exists false; split; [done|naive_solver]].
  generalize (o :: bundle). clear. induction l as [|x l IH]; intros Hl; simpl.
  { exists false. split; [done|]. split; [done|]. by intros (? & ?%elem_of_nil & _). }
  destruct (Hl x) as [b E]; [left|]. rewrite E. cbn [mbind result_bind]. destruct b.
  - exists true. split; [done|]. split; [|done]. intros _. exists x. split; [left|done].
  - destruct IH as (b & -> & Hb); [intros y Hy; apply Hl; by right|]. exists b. split; [done|].
    rewrite Hb. split.
    + intros (y & Hy & Ey). exists y. split; [by right|done].
    + intros (y & [->|Hy]%elem_of_cons & Ey); [congruence|eauto].
Qed.

Section sound.
Context `{LG : !LawfulGraph G} `{EG : !EvaluableGraph G} `{SE : !SearchEnv A}.
Context (p0 : Problem.t A) (ps : LocalSearch.Params) (env : SwapEnv) (f : Z → Z) (config : SwapConfig).
Context (Hu : MoveHelper.usable p0 ps env f) (Henv : env_ok env).

(** The configuration fits the problem. *)
Record swap_usable : Prop := {
  su_groups gs : withinGroups config = Some gs → Chains.groups_ok p0 gs;
  su_custom cs : customColdContainers config = Some cs →
    ∀ c, c ∈ cs → c ∈ LocalSearch.containers ps;
  su_sets o : o ∈ dom (Assignment.objectToContainer (Problem.assignment p0)) →
    es_at (equivalenceSets env) o = Ok (f o)
}.
Context (Hsu : swap_usable).

Section state.
Context (p : Problem.t A) (Hw : Problem.wf p) (Hrun : LocalSearch.same_run p0 p).
Abbreviation sound := (MoveHelper.sound_result hash ps p).
Abbreviation place := (Assignment.objectToContainer (Problem.assignment p)).
Abbreviation ev := (LocalSearch.evaluator ps).
Abbreviation containers := (LocalSearch.containers ps).

(** The dimension can be read: it gives finite values and ratios of objects. *)
Definition ratio_usable : Prop := ∀ hot o, place !! o = Some hot →
  ratioOf config env p hot o = Ok (None, None) ∨
  ∃ hotObjects getValue, ratioOf config env p hot o = Ok (Some hotObjects, Some getValue) ∧
    o ∈ hotObjects ∧ NoDup hotObjects ∧ (∀ x, x ∈ hotObjects → place !! x = Some hot) ∧
    (∀ x v, getValue x = Ok v → fin v) ∧
    ∀ x, is_Some (place !! x) → ∃ h c,
      Bundles.getBundleSizes getValue (enableKToOneSwaps env) o x = Ok (h, c).
Context (Hratio : ratio_usable).

(** A candidate whose bundles are in the two containers. *)
Definition swap_pair (hot cold : Z) (c : list Z * list Z) : Prop :=
  (NoDup c.1 ∧ c.1 ≠ [] ∧ ∀ o, o ∈ c.1 → place !! o = Some hot) ∧
  (NoDup c.2 ∧ c.2 ≠ [] ∧ ∀ o, o ∈ c.2 → place !! o = Some cold).

Lemma evaluateSwap_ok hot cold c :
  hot ≠ cold → hot ∈ containers → cold ∈ containers → swap_pair hot cold c →
  ∃ r, evaluateSwap ev p hot cold c = Ok r ∧ sound r.
Proof.
  intros Hne Hh Hc [(N1 & _ & P1) (N2 & _ & P2)].
  apply (MoveTypeUtils.evaluate_ok hash p0 ps env f Hu p Hw Hrun). unfold swapMoves.
  set (l := ((λ o, (o, hot, cold)) <$> c.1) ++ ((λ o, (o, cold, hot)) <$> c.2)).
  match goal with |- MoveHelper.candidate _ _ _ ?x =>
    replace x with ((λ '(o, src, dst), makeMove hash o src dst) <$> l)
      by (unfold l; by rewrite fmap_app, <- !list_fmap_compose) end.
  apply MoveTypeUtils.candidate_moves.
  - unfold l. rewrite !fmap_app, <- !list_fmap_compose. apply NoDup_app. split; [|split].
    + by rewrite (list_fmap_id _).
    + intros o Ho Ho'. rewrite (list_fmap_id _) in Ho. rewrite (list_fmap_id _) in Ho'.
      specialize (P1 o Ho). specialize (P2 o Ho'). congruence.
    + by rewrite (list_fmap_id _).
  - intros o src dst [(q & [= -> -> ->] & Hq)%list_elem_of_fmap|
      (q & [= -> -> ->] & Hq)%list_elem_of_fmap]%elem_of_app; auto.
Qed.

(** The candidates of a swap that pass the filters are still pairs of bundles. *)
Lemma candidatesToEvaluate_ok call hot cold (candidate : Bundles.SwapCandidateImplicit) :
  hot ∈ containers → cold ∈ containers →
  (∀ b, b ∈ candidate.2 → swap_pair hot cold (candidate.1, b)) →
  ∃ l, candidatesToEvaluate env p call hot cold candidate = Ok l ∧ ∀ c, c ∈ l → swap_pair hot cold c.
Proof.
  intros Hh Hc Hp. unfold candidatesToEvaluate.
  match goal with |- context [MoveHelper.filterM ?k candidate.2] =>
    destruct (MoveHelper.filterM_ok k candidate.2) as (bs & -> & Hbs) end.
  { intros b Hb. destruct (Hp b Hb) as [_ (_ & Hne & _)]. destruct b; [done|]. simpl. eauto. }
  cbn [mbind result_bind].
  match goal with |- context [MoveHelper.filterM ?k ?l] =>
    destruct (MoveHelper.filterM_ok k l) as (cs & -> & Hcs) end.
  { intros [h b] (b' & [= -> ->] & Hb)%list_elem_of_fmap. apply Hbs in Hb as [Hb _].
    destruct (Hp b' Hb) as [(_ & Hne1 & P1) (_ & Hne2 & P2)]. simpl in *.
    destruct candidate.1 as [|o1 l1]; [done|]. destruct b' as [|o2 l2]; [done|].
    destruct (any_invalid_each env o1 l1 cold) as (x1 & -> & _).
    { intros x Hx. by eapply (MoveTypeUtils.filter_answers p0 ps env f Hu p Hrun), Hc; apply P1. }
    cbn [mbind result_bind]. destruct x1; [eauto|].
    destruct (any_invalid_each env o2 l2 hot) as (x2 & -> & _).
    { intros x Hx. by eapply (MoveTypeUtils.filter_answers p0 ps env f Hu p Hrun), Hh; apply P2. }
    simpl. eauto. }
  exists cs. split; [done|]. intros c [(b & -> & Hb)%list_elem_of_fmap _]%Hcs.
  apply Hbs in Hb as [Hb _]. by apply Hp.
Qed.

(** What the generator gives for the dynamic objects of a container. *)
Lemma candidates_ok hot o cold objects :
  place !! o = Some hot → NoDup objects → (∀ x, x ∈ objects → place !! x = Some cold) →
  ∃ hs dim cands, ratioOf config env p hot o = Ok (hs, dim) ∧
    Bundles.generateDimensionBasedSwapCandidates (enableKToOneSwaps env)
      (es_at (equivalenceSets env)) hs o objects dim = Ok cands ∧
    ∀ candidate b, candidate ∈ cands → b ∈ candidate.2 → swap_pair hot cold (candidate.1, b).
Proof.
  intros Ho Hnd Hob.
  assert (∀ x, x ∈ objects → es_at (equivalenceSets env) x = Ok (f x)) as Hat.
  { intros x Hx. apply (su_sets Hsu). eapply (MoveTypeUtils.placed_dom p0 p Hrun). by apply Hob. }
  assert (∀ hs dim flag (cands : list Bundles.SwapCandidateImplicit),
    (∀ x, x ∈ hs → place !! x = Some hot) →
    Forall (Bundles.swap_candidate hs o objects f dim flag) cands →
    ∀ candidate b, candidate ∈ cands → b ∈ candidate.2 → swap_pair hot cold (candidate.1, b)) as Hpair.
  { intros hs dim flag cands Hhs Hall candidate b Hin Hb. rewrite Forall_forall in Hall.
    destruct (Hall candidate Hin) as (h & [A1 _ A3 A4] & Hfit).
    destruct (Hfit b Hb) as (oo & c & [B1 _ B3 B4] & _). split; simpl.
    - split; [done|]. split; [intros E; rewrite E in A3; by apply elem_of_nil in A3|auto].
    - split; [done|]. split; [intros E; rewrite E in B3; by apply elem_of_nil in B3|].
      intros x [_ Hx]%B4%list_elem_of_filter. by apply Hob. }
  destruct (Hratio hot o Ho) as [E|(hs & gv & E & Hin & Nhs & Phs & Hfin & Hsz)].
  - destruct (Bundles.generate_single [o] o objects f (es_at (equivalenceSets env)) ltac:(left) (NoDup_singleton o)
      Hnd Hat (enableKToOneSwaps env))
      as (cands & Ec & Hall & _).
    exists None, None, cands. split; [done|]. split; [done|].
    eapply (Hpair [o]); [|exact Hall]. by intros x ->%list_elem_of_singleton.
  - destruct (Bundles.generate_dimension hs o objects f (es_at (equivalenceSets env)) Hin Nhs Hnd Hat gv
      (enableKToOneSwaps env) Hfin) as (cands & Ec & Hall & _).
    { intros x Hx. apply Hsz. rewrite (Hob x Hx). eauto. }
    exists (Some hs), (Some gv), cands. split; [done|]. split; [done|]. by eapply (Hpair hs).
Qed.

Lemma exploreAllSwaps_ok call position hot o cold objects limit :
  place !! o = Some hot → hot ≠ cold → hot ∈ containers → cold ∈ containers →
  NoDup objects → (∀ x, x ∈ objects → place !! x = Some cold) →
  ∃ r, exploreAllAndGetBestResult config env ev p call position hot o cold objects limit = Ok r ∧ sound r.
Proof.
  intros Ho Hne Hh Hc Hnd Hob. unfold exploreAllAndGetBestResult.
  destruct (candidates_ok hot o cold objects Ho Hnd Hob) as (hs & dim & cands & -> & Eg & Hp).
  cbn [mbind result_bind]. rewrite Eg. cbn [mbind result_bind].
  apply (Chains.loop_sound hash ps p). intros i best candidate Hin Hb.
  destruct (candidatesToEvaluate_ok call hot cold candidate Hh Hc (λ b, Hp candidate b Hin)) as (l & -> & Hl).
  destruct limit as [limit|].
  - destruct (_ <=? _)%D; [eauto|]. cbn [mbind result_bind].
    match goal with |- context [MoveHelper.findBest ?x ?l ?e ?t] =>
      destruct (MoveTypeUtils.findBest_ok hash p0 ps env f Hu p Hw Hrun x l e t) as (r & -> & Hr) end.
    { apply Henv. }
    { intros c Hc'. apply evaluateSwap_ok; auto. }
    cbn [mbind result_bind].
    destruct (MoveTypeUtils.aggregate_ok hash ps p best r Hb Hr) as (best' & -> & Hb').
    cbn [mbind result_bind]. eauto.
  - cbn [mbind result_bind]. apply forLoop_total; [|done]. intros j best' c Hc' Hb'.
    destruct (evaluateSwap_ok hot cold c) as (r & -> & Hr); auto. cbn [mbind result_bind].
    by apply (Chains.aggregateGreedy_ok hash ps p).
Qed.

Lemma dynamic_cold cold :
  NoDup (Assignment.getDynamicObjects (Problem.assignment p) cold) ∧
  ∀ x, x ∈ Assignment.getDynamicObjects (Problem.assignment p) cold → place !! x = Some cold.
Proof.
  clear Hratio. split.
  - unfold Assignment.getDynamicObjects.
    destruct (Assignment.containerToObjectsDynamic (Problem.assignment p) !! cold) as [st|] eqn:E;
      simpl; [|constructor].
    eapply ObjectStore.iter_NoDup. by eapply (Assignment.inv_stores_dyn _ (Problem.wf_assignment p Hw)).
  - intros x [? _]%Assignment.elem_of_getDynamicObjects; [done|apply Hw].
Qed.

(** The objects of a group in a container. *)
Lemma groupDynamicObjects_ok gs cold g :
  Chains.groups_ok p0 gs →
  ∃ l, groupDynamicObjects p gs cold g = Ok l ∧ NoDup l ∧
    ∀ x, x ∈ l ↔ x ∈ Chains.objectsOf gs g ∧ place !! x = Some cold ∧ x ∉ Problem.fixed_objects p.
Proof.
  clear Hratio. intros [_ Hg]. unfold groupDynamicObjects.
  set (fac := Assignment.objectStoreFactory (Problem.assignment p)).
  destruct (ObjectStore.get_spec fac) as (G1 & G2 & G3).
  assert (∀ x, x ∈ Chains.objectsOf gs g → is_Some (place !! x)) as Hpl.
  { intros x Hx%Hg. destruct Hrun as [_ D]. rewrite <- D in Hx. by apply elem_of_dom in Hx. }
  assert (∀ os acc, ObjectStore.inv acc → (∀ x, ObjectStore.factory_dom fac x → ObjectStore.dom_of acc x) →
    (∀ x, x ∈ os → is_Some (place !! x)) →
    ∃ st, foldM (λ store o,
        c ← Assignment.getContainer (Problem.assignment p) o;
        Ok (if (c =? cold) && negb (bool_decide (o ∈ Problem.fixed_objects p))
            then ObjectStore.insert store o else store)) acc os = Ok st ∧
      ObjectStore.inv st ∧ ∀ x, x ∈ ObjectStore.to_set st ↔ x ∈ ObjectStore.to_set acc ∨
        (x ∈ os ∧ place !! x = Some cold ∧ x ∉ Problem.fixed_objects p)) as Hgen.
  { induction os as [|o os IH]; intros acc Hi Hd Hos; [exists acc; set_solver|].
    destruct (Hos o) as [c Ec]; [left|]. cbn [foldM].
    assert (Assignment.getContainer (Problem.assignment p) o = Ok c) as ->
      by (unfold Assignment.getContainer; by rewrite Ec).
    cbn [mbind result_bind].
    assert (∀ x, x ∈ os → is_Some (place !! x)) as Hos' by (intros x Hx; apply Hos; by right).
    destruct ((c =? cold) && _) eqn:Eb.
    - apply andb_true_iff in Eb as [->%Z.eqb_eq Hf%negb_true_iff%bool_decide_eq_false].
      assert (Assignment.good (Problem.assignment p) o) as Hgood
        by (apply (Assignment.inv_good _ (Problem.wf_assignment p Hw)); eauto).
      destruct (ObjectStore.insert_spec acc o Hi (Hd o Hgood)) as (I1 & I2 & I3).
      destruct (IH (ObjectStore.insert acc o) I1) as (st & E & H1 & H2); [intros x Hx; by apply I2, Hd|done|].
      exists st. split; [exact E|]. split; [done|]. intros x. rewrite H2, I3, elem_of_cons. set_solver.
    - destruct (IH acc Hi Hd Hos') as (st & E & H1 & H2). exists st. split; [exact E|]. split; [done|].
      intros x. rewrite H2, elem_of_cons. split; [naive_solver|]. intros [?|([->|?] & Hx & Hf)]; [by left| |by right].
      exfalso. rewrite Ec in Hx. injection Hx as ->. rewrite Z.eqb_refl, bool_decide_eq_false_2 in Eb by done. done. }
  destruct (Hgen (Chains.objectsOf gs g) (ObjectStore.get fac) G1) as (st & E & H1 & H2); [by intros; apply G3|done|].
  rewrite E. cbn [mbind result_bind]. eexists. split; [done|]. split; [by apply ObjectStore.iter_NoDup|].
  intros x. unfold ObjectStore.to_set in H2. rewrite G2 in H2. specialize (H2 x).
  rewrite elem_of_list_to_set in H2. rewrite H2. set_solver.
Qed.

Lemma exploreSwapping_ok call position hot o cold limit :
  place !! o = Some hot → hot ≠ cold → hot ∈ containers → cold ∈ containers →
  ∃ r, exploreSwappingHotObjectWithObjectsInColdContainer config env ev p call position hot o cold limit
         = Ok r ∧ sound r.
Proof.
  intros Ho Hne Hh Hc. unfold exploreSwappingHotObjectWithObjectsInColdContainer.
  destruct (withinGroups config) as [gs|] eqn:Eg.
  - pose proof (su_groups Hsu gs Eg) as Hgs. destruct (proj1 Hgs o) as [g ->];
      [by eapply (MoveTypeUtils.placed_dom p0 p Hrun)|].
    cbn [mbind result_bind]. destruct g as [g|]; [|exists empty; split; [done|apply MoveTypeUtils.empty_ok]].
    destruct (groupDynamicObjects_ok gs cold g Hgs) as (l & -> & Hnd & Hl). cbn [mbind result_bind].
    apply exploreAllSwaps_ok; try done. by intros x (_ & ? & _)%Hl.
  - destruct (dynamic_cold cold) as [H1 H2]. by apply exploreAllSwaps_ok.
Qed.

Lemma cold_ok c : c ∈ default (all_containers env) (customColdContainers config) → c ∈ containers.
Proof.
  clear Hratio. destruct (customColdContainers config) as [cs|] eqn:E; simpl.
  - by apply (su_custom Hsu cs E).
  - apply (MoveHelper.um_containers _ _ _ _ Hu).
Qed.

Lemma swap_ok call hot limit :
  hot ∈ containers → ∃ r, findBestMove config env ev p call hot limit = Ok r ∧ sound r.
Proof.
  intros Hh. unfold findBestMove. destruct (greedyOnSrc config); simpl.
  2: { apply (Chains.async_ok hash p0 ps env f Hu p Hw Hrun); [apply cold_ok|].
       intros o c Ho Hc Hne. by apply exploreSwapping_ok. }
  unfold greedyFindBestMove.
  destruct (MoveTypeUtils.deduped_ok p0 ps env f Hu p Hw Hrun hot) as (os & -> & Hos).
  cbn [mbind result_bind]. set (cold := filter _ (default _ _)).
  assert (∀ c, c ∈ cold → c ∈ containers ∧ hot ≠ c) as Hcold.
  { intros c [Ha Hc]%list_elem_of_filter. split; [by apply cold_ok|].
    intros ->. by eapply Chains.accepting_ok in Ha. }
  clearbody cold. destruct cold as [|c1 cold]; [exists empty; split; [done|apply MoveTypeUtils.empty_ok]|].
  apply (Chains.loop_sound hash ps p). intros i best o [_ Ho]%list_elem_of_filter Hb.
  destruct (_ <=? _)%D; [eauto|].
  assert (∀ c pos l, c ∈ c1 :: cold → ∃ r, exploreSwappingHotObjectWithObjectsInColdContainer config env ev p
    call pos hot o c l = Ok r ∧ sound r) as Hex.
  { intros c pos l [? ?]%Hcold. apply exploreSwapping_ok; auto. }
  match goal with |- context [mbind _ ?m] => assert (∃ r, m = Ok r ∧ sound r) as (r & -> & Hr) end.
  { destruct cold as [|c2 cold]; [apply Hex; left|].
    apply (MoveTypeUtils.findBest_ok hash p0 ps env f Hu p Hw Hrun); [apply Henv|]. intros c. apply Hex. }
  cbn [mbind result_bind]. by apply (MoveTypeUtils.aggregateAndTest_ok hash ps p).
Qed.
End state.

(** Without a dimension there is nothing to read. *)
Lemma ratio_none p : swapRatioDimension config = None → ratio_usable p.
Proof. intros E hot o _. left. unfold ratioOf. by rewrite E. Qed.

(** With the index by equivalence sets built, the equivalence set of a dynamic hot
    object is found and holds it. *)
Lemma ratio_index p ix dimensionOf :
  Problem.wf p → LocalSearch.same_run p0 p →
  (∀ o c, Assignment.objectToContainer (Problem.assignment p) !! o = Some c →
     o ∉ Assignment.fixedObjects (Problem.assignment p)) →
  swapRatioDimension config = Some dimensionOf →
  Assignment.containerToEquivSetsToObjects (Problem.assignment p) = Some ix →
  Assignment.indexedEquivalenceSetsKey (Problem.assignment p) = es_getKey (equivalenceSets env) →
  (∀ o i, IndexedAssignment.objectToIndex ix !! o = Some i → i = f o) →
  (∀ hot, ∃ getValue, dimensionOf hot = Ok getValue ∧ (∀ x v, getValue x = Ok v → fin v) ∧
     ∀ o x, is_Some (Assignment.objectToContainer (Problem.assignment p) !! o) →
       is_Some (Assignment.objectToContainer (Problem.assignment p) !! x) →
       ∃ h c, Bundles.getBundleSizes getValue (enableKToOneSwaps env) o x = Ok (h, c)) →
  ratio_usable p.
Proof.
  intros Hw Hrun Hdyn Edim Eix Ekey Hidx Hdim hot o Ho. right.
  destruct (Hdim hot) as (gv & Egv & Hfin & Hsz). unfold ratioOf. rewrite Edim, Egv. cbn [mbind result_bind].
  rewrite (su_sets Hsu) by (by eapply (MoveTypeUtils.placed_dom p0 p Hrun)). cbn [mbind result_bind].
  unfold Assignment.getObjectsIndexedByEquivSets, Assignment.isIndexedByEquivalentSets.
  rewrite Eix, bool_decide_eq_true_2 by done. simpl negb. cbn [mbind result_bind].
  pose proof (Problem.wf_assignment p Hw) as Hinv.
  assert (o ∈ Assignment.getDynamicObjects (Problem.assignment p) hot) as Hod
    by (apply Assignment.elem_of_getDynamicObjects; eauto).
  destruct (Assignment.index_stores (Problem.assignment p) hot ix Hinv Eix) as (m & Em & _ & Hm);
    [intros E; rewrite E in Hod; by apply elem_of_nil in Hod|].
  unfold IndexedAssignment.getContainerObjects. rewrite Em. cbn [mbind result_bind].
  destruct (Assignment.inv_equiv _ Hinv ix Eix) as [[_ Hst] _ Hi].
  destruct (Hi hot o) as [i Hoi].
  { rewrite (Assignment.inv_dynamic _ Hinv), elem_of_difference, <- (Assignment.inv_objects _ Hinv). eauto. }
  pose proof (Hidx o i Hoi) as ->.
  destruct (proj2 (Hm (f o) o) (conj Hod Hoi)) as (st & Est & Host). rewrite Est.
  exists (ObjectStore.iter st), gv. split; [done|]. split; [done|]. split.
  { apply ObjectStore.iter_NoDup. apply (Hst hot (f o) st). unfold IndexedAssignment.store_at. by rewrite Em. }
  split; [|split; [done|]].
  - intros x Hx. destruct (proj1 (Hm (f o) x)) as [Hxd _]; [eauto|].
    by apply Assignment.elem_of_getDynamicObjects in Hxd as [? _].
  - intros x Hx. apply Hsz; [eauto|done].
Qed.
End sound.
End types.
End SwapMoveType.
