(* ===== verification/FixedMoves.v ===== *)
(** * Moves with one fixed end

    [FixedSourceMoveType] moves objects of given containers into the hot container,
    [FixedDestMoveType] objects of the hot container into a given one, one object or
    a bundle at a time; and the choice of the size of a bundle by how full the
    bundles of a container are ([getGroupBundleSizeOverrides] of both files).
    Sampling decisions and the order of hash sets are parameters. *)

From S2P Require Import Prelude Double Precision ObjectiveValue ChangeSet ObjectStore.
From S2P Require Import IndexedAssignment Assignment EntityAttributes Objective Problem Moves.
From S2P Require Import LocalSearch EquivalenceSets Bits Parallel SingleMove.
From S2P Require Import ParallelExecution ExecutionSelector MoveHelper MoveTypes MoveChains.
From S2P Require Import Sampling Bundles SwapMoves.

(** [interface::ObjectsToExploreOptions] with the partition resolved. *)
Inductive ObjectsToExploreOptions :=
  | objectsFromGroupsSpec (partition : PartitionView) (partitionId : Z) (bundleSize : option Z)
  | emptyOptions.

(** [interface::ObjectBundleFormationHints]: [scopeItemOf] is the name of the item
    of the hints' scope that a container is in. *)
Record ObjectBundleFormationHints := {
  scopeItemOf : Z → option string;
  scopeItemToObjectsToExploreOptions : option (gmap string ObjectsToExploreOptions);
  adjustBundleSizeForIncompleteBundles : option bool
}.

(** A generator with its seed, the [std::mt19937 rng(0)] of the bundles. *)
Record SeededRng := { rng_state : Type; rng_class : Rng rng_state; rng_seed : rng_state }.

(** What both specifications say; [draw] are the outcomes of the sampling by the
    number of the call and the positions in the loops, [pairOrder] is the order of
    the set of candidates. *)
Record FixedConfig := {
  sampleSize : option Z;
  objectBundleFormationHints : option ObjectBundleFormationHints;
  bundleRng : SeededRng;
  draw : nat → nat → nat → nat → bool;
  pairOrder : gset (list Z * Z) → list (list Z * Z)
}.

Definition order_ok (config : FixedConfig) : Prop := ∀ s, pairOrder config s ≡ₚ elements s.

(** [FixedSourceMoveType] reads from the containers of its scope items if there are
    any, else from the special container. *)
Record FixedSourceConfig := {
  source_base :> FixedConfig;
  source_specialContainer : option Z;
  source_scopeItems : option (list (list Z));
  stopEarlyAtScopeItemThatImprovesObjective : bool
}.

Record FixedDestConfig := { dest_base :> FixedConfig; dest_specialContainer : option Z }.

Module FixedMoves.

(** [MoveHelper::sampleWithProb]: [drawn] is what the distribution gives. *)
Definition sampleWithProb (sampleSize setSize : Z) (drawn : bool) : bool :=
  if setSize <? sampleSize then true else drawn.

(** [getSamplingStatus] of both classes. *)
Definition getSamplingStatus (config : FixedConfig) (numObjects : Z) (drawn : bool) : bool :=
  match sampleSize config with
  | None => true
  | Some size => sampleWithProb size numObjects drawn
  end.

(** [Filter] over a range whose predicate draws for every element. *)
Definition sampledOf {X} (config : FixedConfig) (numObjects : Z) (drawn : nat → bool) (l : list X) : list X :=
  (filter (λ '(k, _), getSamplingStatus config numObjects (drawn k) = true) (imap pair l)).*2.

Definition getBundleSize (exploreOptions : ObjectsToExploreOptions) : Z :=
  match exploreOptions with
  | objectsFromGroupsSpec _ _ bundleSize => default 1 bundleSize
  | emptyOptions => 1
  end.

Definition getBundleOptions (bundleHints : option ObjectBundleFormationHints) (containerId : Z)
    : option ObjectsToExploreOptions :=
  match bundleHints with
  | None => None
  | Some hints =>
      match scopeItemToObjectsToExploreOptions hints with
      | None => None
      | Some options => name ← scopeItemOf hints containerId; options !! name
      end
  end.

(** [objects.size() % bundleSize], with the [int] converted to [size_t]. *)
Definition remainder (n bundleSize : Z) : result Z :=
  if u64 bundleSize =? 0 then Throw (undefined_behaviour "division by zero")
  else Ok (n mod u64 bundleSize).

(** A [size_t] stored in an [int]. *)
Definition to_int (x : Z) : Z := (x + 2 ^ 31) mod 2 ^ 32 - 2 ^ 31.

Section overrides.
Context `{HO : HashOrder}.

(** The sizes that complete the incomplete bundles of a container ([complete]), or
    that take the objects beyond complete bundles out of it. *)
Definition getGroupBundleSizeOverrides (complete : bool) (partition : PartitionView)
    (partitionId bundleSize container : Z) (a : Assignment.t) : result (gmap Z Z * Assignment.t) :=
  a' ← Assignment.buildIndexByPartition a partition partitionId;
  ix ← Assignment.getObjectsIndexedByPartition a' partitionId;
  groupToObjects ← IndexedAssignment.getContainerObjects ix container;
  overrides ← foldM (λ overrides '(groupId, objects),
      r ← remainder (Z.of_nat (size (objects : gset Z))) bundleSize;
      Ok (if r =? 0 then overrides
          else <[groupId := to_int (if complete then u64 (bundleSize - r) else r)]> overrides))
    (∅ : gmap Z Z) (hash_iter groupToObjects);
  Ok (overrides, a').

(** The bundles of [getBundleMoveCandidates] before sampling; [container] is the one
    whose bundles are looked at for the sizes.  The index that is built on the way
    is a cache of the assignment. *)
Definition bundlesToMove (complete : bool) (config : FixedConfig) (options : ObjectsToExploreOptions)
    (container srcContainer : Z) (es : EquivalenceSetsView) (a : Assignment.t) : result (list (list Z)) :=
  let adjust := match objectBundleFormationHints config with
                | Some hints => default false (adjustBundleSizeForIncompleteBundles hints)
                | None => false
                end in
  '(overrides, a1) ←
     match adjust, options with
     | false, _ => Ok (∅, a)
     | true, objectsFromGroupsSpec partition partitionId _ =>
         getGroupBundleSizeOverrides complete partition partitionId (getBundleSize options) container a
     | true, emptyOptions => Throw (invalid_argument "bad field access")
     end;
  match options with
  | objectsFromGroupsSpec partition partitionId _ =>
      '(bundles, _) ← Bundles.moveType_getObjectBundlesToExplore (RG := rng_class (bundleRng config))
         (rng_seed (bundleRng config)) partition partitionId srcContainer (getBundleSize options) overrides
         a1 es true;
      Ok bundles
  | emptyOptions => Throw (runtime_error "ObjectsToExploreOptions is empty; you need to specify one of the options")
  end.

(** *** The sizes *)

(** The objects of a group in a container. *)
Definition inGroup (ix : Assignment.GroupIndex) (a : Assignment.t) (container group : Z) : gset Z :=
  list_to_set (filter (λ o, IndexedAssignment.objectToIndex ix !! o = Some group)
    (Assignment.getDynamicObjects a container)).

(** What completes the bundles, or what is beyond them. *)
Definition override (complete : bool) (k n : Z) : option Z :=
  if n mod k =? 0 then None else Some (if complete then k - n mod k else n mod k).

(** An override is less than a bundle, and with it all bundles are complete. *)
Lemma override_completes complete k n m : 0 < k → override complete k n = Some m →
  0 < m < k ∧ (if complete then n + m else n - m) mod k = 0.
Proof.
  intros Hk. unfold override. destruct (Z.eqb_spec (n mod k) 0) as [|Hne]; [done|].
  pose proof (Z.mod_pos_bound n k Hk). intros [= <-]. pose proof (Z.div_mod n k ltac:(lia)).
  destruct complete; split; try lia.
  - replace (n + (k - n mod k)) with ((n / k + 1) * k) by lia. apply Z.mod_mul. lia.
  - replace (n - n mod k) with (n / k * k) by lia. apply Z.mod_mul. lia.
Qed.

(** A loop over a hash map that sets at most the entry of the key it visits. *)
Lemma foldM_keys {V W} (h : V → option W) (body : gmap Z W → Z * V → result (gmap Z W)) (m : gmap Z V) :
  (∀ acc key v, body acc (key, v) = Ok (match h v with Some w => <[key := w]> acc | None => acc end)) →
  ∃ r, foldM body ∅ (hash_iter m) = Ok r ∧ ∀ key, r !! key = m !! key ≫= h.
Proof.
  intros Hb.
  assert (∀ l acc, NoDup l.*1 → (∀ key, key ∈ l.*1 → acc !! key = None) →
    ∃ r, foldM body acc l = Ok r ∧ (∀ key v, (key, v) ∈ l → r !! key = h v) ∧
      ∀ key, key ∉ l.*1 → r !! key = acc !! key) as Hgen.
  { induction l as [|[key v] l IH]; intros acc Hnd Ha; cbn [foldM].
    { exists acc. split_and!; [done|by intros ? ? []%not_elem_of_nil|done]. }
    rewrite Hb. cbn [mbind result_bind]. apply NoDup_cons in Hnd as [Hnk Hnd].
    set (acc' := match h v with Some w => _ | None => _ end).
    assert (∀ q, q ≠ key → acc' !! q = acc !! q) as Hq.
    { intros q Hq. unfold acc'. destruct (h v); [by rewrite lookup_insert_ne|done]. }
    destruct (IH acc' Hnd) as (r & E & H1 & H2).
    { intros q Hin. rewrite Hq by (intros ->; done). apply Ha. by right. }
    exists r. split; [done|]. split.
    - intros q u [[= -> ->]|Hin]%elem_of_cons; [|by apply H1]. rewrite H2 by done. unfold acc'.
      destruct (h v); [by rewrite lookup_insert_eq|]. apply Ha. left.
    - intros q Hnin. rewrite fmap_cons, not_elem_of_cons in Hnin. rewrite H2 by apply Hnin.
      apply Hq, Hnin. }
  assert (NoDup (hash_iter m).*1) as Hnd by (rewrite hash_iter_perm; apply NoDup_fst_map_to_list).
  destruct (Hgen (hash_iter m) ∅ Hnd) as (r & E & H1 & H2); [intros; apply lookup_empty|].
  exists r. split; [done|]. intros key. destruct (m !! key) as [v|] eqn:Em; simpl.
  - apply H1. by rewrite hash_iter_perm, elem_of_map_to_list.
  - rewrite H2; [apply lookup_empty|]. rewrite hash_iter_perm.
    intros ([q v] & -> & Hin%elem_of_map_to_list)%list_elem_of_fmap. simpl in *. congruence.
Qed.

Lemma overrides_exact complete partition p k container a g :
  Assignment.inv a → 1 ≤ k < 2 ^ 31 → Assignment.getDynamicObjects a container ≠ [] →
  (∀ o, Assignment.is_dynamic a o → getObjectIdToGroupIds partition !! o = Some [g o]) →
  ∃ overrides a' ix, getGroupBundleSizeOverrides complete partition p k container a = Ok (overrides, a') ∧
    Assignment.inv a' ∧ Assignment.getObjectsIndexedByPartition a' p = Ok ix ∧
    (∀ c, Assignment.getDynamicObjects a' c = Assignment.getDynamicObjects a c) ∧
    (∀ o, Assignment.is_dynamic a' o ↔ Assignment.is_dynamic a o) ∧
    ∀ group, overrides !! group =
      override complete k (Z.of_nat (size (inGroup ix a container group))).
Proof.
  intros Ha Hk Hne Hg. unfold getGroupBundleSizeOverrides.
  destruct (Bundles.index_ready a partition p g Ha Hg) as (a' & ix & -> & Ha' & Eix & Hix & Hd & Hdyn).
  cbn [mbind result_bind]. rewrite Eix. cbn [mbind result_bind].
  destruct (Bundles.group_index_exact a' container p ix Ha' Hix) as (m & -> & Hm); [by rewrite Hd|].
  cbn [mbind result_bind].
  assert (∀ group, Z.of_nat (size (inGroup ix a container group)) =
    Z.of_nat (size (default ∅ (m !! group)))) as Hsize.
  { intros group. do 2 f_equal. apply set_eq. intros o. unfold inGroup.
    rewrite elem_of_list_to_set, list_elem_of_filter, <- Hd, (Hm group o). tauto. }
  assert (2 ^ 31 < u64_mod) as Hlt by (unfold u64_mod; lia).
  destruct (foldM_keys (λ s, override complete k (Z.of_nat (size (s : gset Z)))) (λ overrides '(groupId, objects),
      r ← remainder (Z.of_nat (size (objects : gset Z))) k;
      Ok (if r =? 0 then overrides
          else <[groupId := to_int (if complete then u64 (k - r) else r)]> overrides)) m) as (ov & -> & Hov).
  { intros acc key s. unfold remainder, override. rewrite u64_small by (unfold is_u64; lia).
    rewrite (proj2 (Z.eqb_neq k 0)) by lia. cbn [mbind result_bind].
    pose proof (Z.mod_pos_bound (Z.of_nat (size s)) k ltac:(lia)).
    destruct (Z.eqb_spec (Z.of_nat (size s) mod k) 0); [done|]. do 3 f_equal. unfold to_int.
    destruct complete; rewrite ?u64_small by (unfold is_u64; lia); rewrite Z.mod_small; lia. }
  cbn [mbind result_bind]. exists ov, a', ix. split_and!; try done. intros group.
  rewrite Hsize, Hov. destruct (m !! group) as [s|] eqn:E; simpl; [done|].
  unfold override. by rewrite Z.mod_0_l by lia.
Qed.

(** The bundles of a container with dynamic objects are bundles of objects of it. *)
Lemma bundlesToMove_ok complete config partition p size container src es a f g :
  let options := objectsFromGroupsSpec partition p size in
  Assignment.inv a → 1 ≤ getBundleSize options < 2 ^ 31 →
  Assignment.getDynamicObjects a container ≠ [] → Assignment.getDynamicObjects a src ≠ [] →
  (∀ o, Assignment.is_dynamic a o → getObjectIdToGroupIds partition !! o = Some [g o]) →
  (∀ o, Assignment.is_dynamic a o → es_at es o = Ok (f o)) →
  ∃ bundles, bundlesToMove complete config options container src es a = Ok bundles ∧
    Forall (Bundles.some_bundle (Assignment.getDynamicObjects a src)) bundles.
Proof.
  intros options Ha Hk Hc Hs Hg Hf. unfold bundlesToMove. simpl in Hk.
  set (adjust := match objectBundleFormationHints config with Some _ => _ | None => _ end).
  assert (2 ^ 31 < u64_mod) as Hlt by (unfold u64_mod; lia).
  assert (∃ overrides a1,
    match adjust, options with
     | false, _ => Ok (∅, a)
     | true, objectsFromGroupsSpec partition partitionId _ =>
         getGroupBundleSizeOverrides complete partition partitionId (getBundleSize options) container a
     | true, emptyOptions => Throw (invalid_argument "bad field access")
     end = Ok (overrides, a1) ∧ Assignment.inv a1 ∧
    (∀ c, Assignment.getDynamicObjects a1 c = Assignment.getDynamicObjects a c) ∧
    (∀ o, Assignment.is_dynamic a1 o ↔ Assignment.is_dynamic a o) ∧
    ∀ group n, overrides !! group = Some n → 1 ≤ n < u64_mod) as (ov & a1 & -> & H1 & H2 & H3 & H4).
  { destruct adjust; [|by exists ∅, a].
    destruct (overrides_exact complete partition p (default 1 size) container a g)
      as (ov & a1 & ix & E & H1 & _ & H2 & H3 & H4); [done..|].
    exists ov, a1. split_and!; [done..|]. intros group n. rewrite H4.
    intros [? _]%override_completes; lia. }
  cbn [mbind result_bind]. unfold options, Bundles.moveType_getObjectBundlesToExplore. simpl getBundleSize.
  rewrite (proj2 (Z.ltb_ge _ 1)) by lia.
  destruct (Bundles.getObjectBundles_inside (RG := rng_class (bundleRng config)) (rng_seed (bundleRng config)) a1
    partition p src es f g (default 1 size) ov true) as (bundles & a2 & -> & Hb); [done| | | |lia|done|].
  - intros o Ho%H3. by apply Hg.
  - intros o Ho%H3. by apply Hf.
  - by rewrite H2.
  - cbn [mbind result_bind]. exists bundles. split; [done|]. by rewrite H2 in Hb.
Qed.

(** A container whose objects are all fixed, or that has none, has no entry in the
    index: asking for its bundles is an error. *)
Lemma bundles_of_unknown_container config partition p size src es a a' ix :
  objectBundleFormationHints config = None → 1 ≤ default 1 size →
  Assignment.buildIndexByPartition a partition p = Ok a' →
  Assignment.getObjectsIndexedByPartition a' p = Ok ix →
  IndexedAssignment.containerToIndexedObjects ix !! src = None →
  ∃ msg, bundlesToMove true config (objectsFromGroupsSpec partition p size) src src es a =
    Throw (runtime_error msg).
Proof.
  intros Hh Hk E1 E2 E3. unfold bundlesToMove. rewrite Hh. cbn [mbind result_bind].
  unfold Bundles.moveType_getObjectBundlesToExplore. simpl getBundleSize. rewrite (proj2 (Z.ltb_ge _ 1)) by lia.
  unfold Bundles.getObjectBundlesToExplore. rewrite E1. cbn [mbind result_bind]. rewrite E2.
  cbn [mbind result_bind]. unfold IndexedAssignment.getContainerObjects. rewrite E3. simpl. eauto.
Qed.
End overrides.

Section types.
Context `{G : ExpressionGraph} `{HO : HashOrder} {A : Type} `{EA : EntityAttributes A}.
Context (hash : Z → Z → Z → Z).
Abbreviation empty := MoveResult.makeEmpty.
Abbreviation any_invalid env := (InvalidMoveFilter.anyMoveInvalid (invalidMoveFilter env)).
Abbreviation precision p := (Problem.precision p).
Abbreviation move := (makeMove hash).

(** The candidates are pairs of a bundle and a container, in a set. *)
Definition emplaceAll (moves : gset (list Z * Z)) (bundles : list (list Z)) (container : Z)
    : gset (list Z * Z) :=
  moves ∪ list_to_set ((λ b, (b, container)) <$> bundles).

(** ** FixedSourceMoveType *)
Definition source_getSingleMoveCandidates (config : FixedSourceConfig) (env : SwapEnv)
    (p : Problem.t A) (drawn : nat → bool) (srcContainer : Z) (moves : gset (list Z * Z))
    : result (gset (list Z * Z)) :=
  let objects := Assignment.getDynamicObjects (Problem.assignment p) srcContainer in
  dedupedObjs ← Assignment.getDistinctObjectsFromEquivSetIdx (Problem.assignment p) srcContainer
                  (equivalenceSets env);
  let containerObjectIds := sampledOf config (Z.of_nat (length objects)) drawn dedupedObjs in
  Ok (emplaceAll moves ((λ o, [o]) <$> containerObjectIds) srcContainer).

Definition source_getBundleMoveCandidates (config : FixedSourceConfig) (env : SwapEnv)
    (p : Problem.t A) (options : ObjectsToExploreOptions) (drawn : nat → bool)
    (srcContainer dstContainer : Z) (moves : gset (list Z * Z)) : result (gset (list Z * Z)) :=
  bundles ← bundlesToMove true config options dstContainer srcContainer (equivalenceSets env)
              (Problem.assignment p);
  Ok (emplaceAll moves (sampledOf config (Z.of_nat (length bundles)) drawn bundles) srcContainer).

(** The candidates of a scope item. *)
Definition source_candidates (config : FixedSourceConfig) (env : SwapEnv) (p : Problem.t A)
    (options : option ObjectsToExploreOptions) (call i : nat) (hotContainer : Z)
    (containerIds : list Z) : result (gset (list Z * Z)) :=
  '(_, moves) ← forLoop (λ j moves containerId,
      if containerId =? hotContainer then Ok (false, moves)
      else
        moves' ← match options with
                 | Some options =>
                     source_getBundleMoveCandidates config env p options (draw config call i j)
                       containerId hotContainer moves
                 | None => source_getSingleMoveCandidates config env p (draw config call i j) containerId moves
                 end;
        Ok (false, moves')) 0 ∅ containerIds;
  Ok moves.

(** The moves of a bundle. *)
Definition bundleMoves (bundle : list Z) (src dst : Z) : list Move := (λ o, move o src dst) <$> bundle.

(** The loop over the candidates of a set: those the filter lets pass, in parallel. *)
Definition findBestOf (config : FixedConfig) (env : SwapEnv) (ev : MovesEvaluator.t) (p : Problem.t A)
    (ends : list Z * Z → Z * Z) (call i : nat) (timeLimit : double) (moves : gset (list Z * Z))
    : result MoveResult.t :=
  candidates ← MoveHelper.filterM (λ c : list Z * Z,
      inv ← any_invalid env c.1 (ends c).2; Ok (negb inv)) (pairOrder config moves);
  MoveHelper.findBest (executor env call i 0) candidates
    (λ c, MovesEvaluator.evaluate ev p (bundleMoves c.1 (ends c).1 (ends c).2))
    (timeLimit - timer env call i 1)%D.

Definition source_findBestMove (config : FixedSourceConfig) (env : SwapEnv) (ev : MovesEvaluator.t)
    (p : Problem.t A) (call : nat) (hotContainer : Z) (timeLimit : double) : result MoveResult.t :=
  '(scopeItems, stopEarly) ←
     match source_scopeItems config, source_specialContainer config with
     | None, None => Throw (runtime_error
         "FixedSourceMoveType needs a special container or a list of scope items to perform moves from")
     | Some [], _ => Throw (runtime_error
         "FixedSourceMoveType needs list of scope items to perform moves from")
     | Some scopeItems, _ => Ok (scopeItems, stopEarlyAtScopeItemThatImprovesObjective config)
     | None, Some container => Ok ([[container]], false)
     end;
  let options := getBundleOptions (objectBundleFormationHints config) hotContainer in
  '(_, bestResult) ← forLoop (λ i bestResult containerIds,
      if (timeLimit <=? timer env call i 0)%D then Ok (true, bestResult)
      else
        moves ← source_candidates config env p options call i hotContainer containerIds;
        r ← findBestOf config env ev p (λ c, (c.2, hotContainer)) call i timeLimit moves;
        Chains.aggregateGreedy stopEarly (precision p) bestResult r) 0 empty scopeItems;
  Ok bestResult.

(** ** FixedDestMoveType *)
Definition getCustomColdContainers (config : FixedDestConfig) (hotContainer : Z) : result (list Z) :=
  match dest_specialContainer config with
  | None => Throw (runtime_error "FixedDestMoveType needs a special container to perform moves to")
  | Some c => Ok (if negb (hotContainer =? c) then [c] else [])
  end.

(** The draw of an object; the hot objects are distinct. *)
Definition attemptMoveWithThisObject (config : FixedDestConfig) (env : SwapEnv) (p : Problem.t A)
    (call : nat) (numObjects o : Z) : bool :=
  SingleMoveType.attemptMoveWithThisObject p o &&
  match sampleSize config with
  | None => true
  | Some size => sampleWithProb size numObjects (sampled env call o)
  end.

Definition dest_getBundleMoveCandidates (config : FixedDestConfig) (env : SwapEnv)
    (p : Problem.t A) (options : ObjectsToExploreOptions) (drawn : nat → bool)
    (srcContainer dstContainer : Z) (moves : gset (list Z * Z)) : result (gset (list Z * Z)) :=
  bundles ← bundlesToMove false config options srcContainer srcContainer (equivalenceSets env)
              (Problem.assignment p);
  Ok (emplaceAll moves (sampledOf config (Z.of_nat (length bundles)) drawn bundles) dstContainer).

Definition dest_findBestMoveWithBundleOptions (config : FixedDestConfig) (env : SwapEnv)
    (ev : MovesEvaluator.t) (p : Problem.t A) (call : nat) (hotContainer : Z) (timeLimit : double)
    (options : ObjectsToExploreOptions) : result MoveResult.t :=
  customColdContainers ← getCustomColdContainers config hotContainer;
  '(_, bestResult) ← forLoop (λ i bestResult coldContainer,
      if (timeLimit <=? timer env call i 0)%D then Ok (true, bestResult)
      else if coldContainer =? hotContainer then Ok (false, bestResult)
      else
        moves ← dest_getBundleMoveCandidates config env p options (draw config call i 0) hotContainer
                  coldContainer ∅;
        r ← findBestOf config env ev p (λ c, (hotContainer, c.2)) call i timeLimit moves;
        best' ← MoveResult.aggregate bestResult r;
        Ok (false, best')) 0 empty customColdContainers;
  Ok bestResult.

Definition dest_findBestMove (config : FixedDestConfig) (env : SwapEnv) (ev : MovesEvaluator.t)
    (p : Problem.t A) (call : nat) (hotContainer : Z) (timeLimit : double) : result MoveResult.t :=
  match getBundleOptions (objectBundleFormationHints config) hotContainer with
  | Some options =>
      dest_findBestMoveWithBundleOptions config env ev p call hotContainer timeLimit options
  | None =>
      hotObjects ← Assignment.getDistinctObjectsFromEquivSetIdx (Problem.assignment p) hotContainer
                     (equivalenceSets env);
      customColdContainers ← getCustomColdContainers config hotContainer;
      Chains.async_findBestMoveOfHotObjects
        (SingleMoveType.exploreFromAllSingleMoves hash env ev p hotContainer)
        (attemptMoveWithThisObject config env p call
           (Z.of_nat (length (Assignment.getDynamicObjects (Problem.assignment p) hotContainer))))
        (Some customColdContainers) env call hotContainer timeLimit hotObjects
  end.

(** ** The promise *)
Lemma elem_of_sampledOf {X} (config : FixedConfig) n drawn (l : list X) x :
  x ∈ sampledOf config n drawn l → x ∈ l.
Proof.
  unfold sampledOf. intros ([k y] & -> & [_ Hin]%list_elem_of_filter)%list_elem_of_fmap.
  apply elem_of_lookup_imap in Hin as (i & z & [= -> ->] & Hl). by eapply list_elem_of_lookup_2.
Qed.

Section sound.
Context `{LG : !LawfulGraph G} `{EG : !EvaluableGraph G} `{SE : !SearchEnv A}.
Context (p0 : Problem.t A) (ps : LocalSearch.Params) (env : SwapEnv) (f : Z → Z).
Context (Hu : MoveHelper.usable p0 ps env f) (Henv : env_ok env).
(** The move types and the search use the same equivalence sets. *)
Context (Hes : equivalenceSets env = LocalSearch.equivalenceSets ps).

Section state.
Context (p : Problem.t A) (Hw : Problem.wf p) (Hrun : LocalSearch.same_run p0 p).
Context (Hix : LocalSearch.indexed ps p).
Abbreviation sound := (MoveHelper.sound_result hash ps p).
Abbreviation place := (Assignment.objectToContainer (Problem.assignment p)).
Abbreviation dynamic := (Assignment.getDynamicObjects (Problem.assignment p)).
Abbreviation ev := (LocalSearch.evaluator ps).
Abbreviation containers := (LocalSearch.containers ps).

Lemma dynamic_placed c o : o ∈ dynamic c → place !! o = Some c.
Proof. intros [? _]%Assignment.elem_of_getDynamicObjects; [done|apply Hw]. Qed.

Lemma distinct_ok c : ∃ os,
  Assignment.getDistinctObjectsFromEquivSetIdx (Problem.assignment p) c (equivalenceSets env) = Ok os ∧
  ∀ o, o ∈ os → o ∈ dynamic c.
Proof.
  pose proof Hix as H. unfold LocalSearch.indexed, Assignment.isIndexedByEquivalentSets in H. rewrite <- Hes in H.
  destruct (Assignment.containerToEquivSetsToObjects (Problem.assignment p)) as [ix|] eqn:E; [|done].
  apply bool_decide_eq_true in H.
  destruct (Assignment.getDistinctObjects_spec (Problem.assignment p) c (equivalenceSets env) ix)
    as (os & Eo & Hin & _); [apply Hw|done|done|]. eauto.
Qed.

(** Candidates whose bundles are where they are to be moved from. *)
Definition bundle_at (ends : list Z * Z → Z * Z) (c : list Z * Z) : Prop :=
  Bundles.some_bundle (dynamic (ends c).1) c.1 ∧ (ends c).2 ∈ containers.

Lemma bundleMoves_ok bundle src dst :
  Bundles.some_bundle (dynamic src) bundle → dst ∈ containers →
  ∃ r, MovesEvaluator.evaluate ev p (bundleMoves bundle src dst) = Ok r ∧ sound r.
Proof.
  intros (Hnd & _ & Hob) Hd. apply (MoveTypeUtils.evaluate_ok hash p0 ps env f Hu p Hw Hrun).
  unfold bundleMoves. set (l := (λ o, (o, src, dst)) <$> bundle).
  match goal with |- MoveHelper.candidate _ _ _ ?x =>
    replace x with ((λ '(o, src, dst), makeMove hash o src dst) <$> l)
      by (unfold l; by rewrite <- !list_fmap_compose) end.
  apply MoveTypeUtils.candidate_moves.
  - unfold l. rewrite <- !list_fmap_compose. by rewrite (list_fmap_id _).
  - intros o s d (q & [= -> -> ->] & Hq)%list_elem_of_fmap. split; [|done]. by apply dynamic_placed, Hob.
Qed.

Lemma findBestOf_ok config ends call i limit moves :
  order_ok config → (∀ c, c ∈ moves → bundle_at ends c) →
  ∃ r, findBestOf config env ev p ends call i limit moves = Ok r ∧ sound r.
Proof.
  intros Ho Hm. unfold findBestOf.
  assert (∀ c, c ∈ pairOrder config moves → bundle_at ends c) as Hm'.
  { intros c Hc. apply Hm. by rewrite (Ho moves), elem_of_elements in Hc. }
  match goal with |- context [MoveHelper.filterM ?k ?l] =>
    destruct (MoveHelper.filterM_ok k l) as (cs & -> & Hcs) end.
  { intros c Hc. destruct (Hm' c Hc) as [(_ & Hne & Hob) Hd]. destruct c as [[|o b] x]; [done|]. simpl fst in *.
    destruct (SwapMoveType.any_invalid_each hash env o b (ends (o :: b, x)).2) as (y & -> & _); [|simpl; eauto].
    intros q Hq. eapply (MoveTypeUtils.filter_answers p0 ps env f Hu p Hrun); [|done].
    by apply dynamic_placed, Hob. }
  cbn [mbind result_bind]. apply (MoveTypeUtils.findBest_ok hash p0 ps env f Hu p Hw Hrun); [apply Henv|].
  intros c [Hc _]%Hcs. destruct (Hm' c Hc) as [Hb Hd]. by apply bundleMoves_ok.
Qed.

Lemma emplaceAll_ok ends moves bundles container :
  (∀ b, b ∈ bundles → bundle_at ends (b, container)) → (∀ c, c ∈ moves → bundle_at ends c) →
  ∀ c, c ∈ emplaceAll moves bundles container → bundle_at ends c.
Proof.
  intros Hb Hm c Hc. unfold emplaceAll in Hc. apply elem_of_union in Hc as [Hc|Hc]; [by apply Hm|].
  apply elem_of_list_to_set, list_elem_of_fmap in Hc as (b & -> & Hin). by apply Hb.
Qed.

(** The generator gives bundles of the container. *)
Definition bundles_usable (complete : bool) (config : FixedConfig) (options : ObjectsToExploreOptions)
    (container src : Z) : Prop :=
  ∃ bundles, bundlesToMove complete config options container src (equivalenceSets env)
      (Problem.assignment p) = Ok bundles ∧
    Forall (Bundles.some_bundle (dynamic src)) bundles.

Lemma source_candidates_ok (config : FixedSourceConfig) options call i hot cs :
  hot ∈ containers →
  (∀ o c, options = Some o → c ∈ cs → c ≠ hot → bundles_usable true config o hot c) →
  ∃ moves, source_candidates config env p options call i hot cs = Ok moves ∧
    ∀ c, c ∈ moves → bundle_at (λ c, (c.2, hot)) c.
Proof.
  intros Hh Hb. unfold source_candidates.
  match goal with |- context [forLoop ?b 0 ∅ cs] =>
    destruct (forLoop_total (λ m : gset (list Z * Z), ∀ c, c ∈ m → bundle_at (λ c, (c.2, hot)) c) b cs)
      with (i := 0%nat) (s := (∅ : gset (list Z * Z))) as (x & moves & -> & Hm) end.
  - intros j moves c Hc Hm. destruct (Z.eqb_spec c hot) as [->|Hne]; [eauto|].
    destruct options as [options|].
    + destruct (Hb options c eq_refl Hc Hne) as (bundles & E & Hall).
      unfold source_getBundleMoveCandidates. rewrite E. cbn [mbind result_bind].
      do 2 eexists. split; [done|]. apply emplaceAll_ok; [|done].
      intros b Hin%elem_of_sampledOf. split; [|done]. by eapply Forall_forall in Hall.
    + unfold source_getSingleMoveCandidates. destruct (distinct_ok c) as (os & -> & Hos).
      cbn [mbind result_bind]. do 2 eexists. split; [done|]. apply emplaceAll_ok; [|done].
      intros b (o & -> & Hin%elem_of_sampledOf)%list_elem_of_fmap. split; [|done]. split_and!.
      * apply NoDup_singleton.
      * done.
      * intros o' ->%list_elem_of_singleton. by apply Hos.
  - intros c Hc. set_solver.
  - cbn [mbind result_bind]. eauto.
Qed.

(** The containers the move type reads from. *)
Definition source_items (config : FixedSourceConfig) : list (list Z) :=
  match source_scopeItems config, source_specialContainer config with
  | Some items, _ => items
  | None, Some c => [[c]]
  | None, None => []
  end.

Lemma source_ok (config : FixedSourceConfig) call hot limit :
  order_ok config → source_items config ≠ [] → hot ∈ containers →
  (∀ o c cs, getBundleOptions (objectBundleFormationHints config) hot = Some o →
     cs ∈ source_items config → c ∈ cs → c ≠ hot → bundles_usable true config o hot c) →
  ∃ r, source_findBestMove config env ev p call hot limit = Ok r ∧ sound r.
Proof.
  intros Ho Hne Hh Hb. unfold source_findBestMove.
  match goal with |- context [mbind _ ?m] =>
    assert (∃ stop, m = Ok (source_items config, stop)) as [stop ->] end.
  { unfold source_items in *. destruct (source_scopeItems config) as [[|cs items]|]; [done|eauto|].
    destruct (source_specialContainer config); [eauto|done]. }
  cbn [mbind result_bind]. apply (Chains.loop_sound hash ps p). intros i best cs Hcs Hbest.
  destruct (_ <=? _)%D; [eauto|].
  destruct (source_candidates_ok config (getBundleOptions (objectBundleFormationHints config) hot) call i hot cs)
    as (moves & -> & Hm); [done|eauto|]. cbn [mbind result_bind].
  destruct (findBestOf_ok config (λ c, (c.2, hot)) call i limit moves Ho Hm) as (r & -> & Hr).
  cbn [mbind result_bind]. by apply (Chains.aggregateGreedy_ok hash ps p).
Qed.

Lemma dest_ok (config : FixedDestConfig) special call hot limit :
  order_ok config → dest_specialContainer config = Some special → special ∈ containers → hot ∈ containers →
  (∀ o, getBundleOptions (objectBundleFormationHints config) hot = Some o → special ≠ hot →
     bundles_usable false config o hot hot) →
  ∃ r, dest_findBestMove config env ev p call hot limit = Ok r ∧ sound r.
Proof.
  intros Ho Hsp Hsc Hh Hb. unfold dest_findBestMove.
  assert (∃ cs, getCustomColdContainers config hot = Ok cs ∧ ∀ c, c ∈ cs → c = special ∧ c ≠ hot)
    as (cs & Ec & Hcs).
  { unfold getCustomColdContainers. rewrite Hsp. eexists. split; [done|]. intros c.
    destruct (Z.eqb_spec hot special) as [->|Hne]; simpl; [by intros []%not_elem_of_nil|].
    by intros ->%list_elem_of_singleton. }
  destruct (getBundleOptions _ hot) as [options|] eqn:Eo.
  - unfold dest_findBestMoveWithBundleOptions. rewrite Ec. cbn [mbind result_bind].
    apply (Chains.loop_sound hash ps p). intros i best c Hc Hbest. destruct (Hcs c Hc) as [-> Hne].
    destruct (_ <=? _)%D; [eauto|]. rewrite (proj2 (Z.eqb_neq special hot)) by done.
    destruct (Hb options eq_refl Hne) as (bundles & E & Hall).
    unfold dest_getBundleMoveCandidates. rewrite E. cbn [mbind result_bind].
    match goal with |- context [findBestOf _ _ _ _ ?ends ?x ?y ?z ?m] =>
      destruct (findBestOf_ok config ends x y z m Ho) as (r & -> & Hr) end.
    { apply emplaceAll_ok; [|intros c' Hc'; set_solver]. intros b Hin%elem_of_sampledOf. split; [|done].
      by eapply Forall_forall in Hall. }
    cbn [mbind result_bind]. destruct (MoveTypeUtils.aggregate_ok hash ps p best r Hbest Hr) as (best' & -> & Hb').
    cbn [mbind result_bind]. eauto.
  - destruct (distinct_ok hot) as (os & -> & Hos). cbn [mbind result_bind]. rewrite Ec. cbn [mbind result_bind].
    apply (Chains.async_hot_ok hash p0 ps env f Hu p Hw).
    + intros o Hin. by apply dynamic_placed, Hos.
    + intros c Hc. by destruct (Hcs c Hc) as [-> _].
    + intros o c Hpl Hc Hne. unfold SingleMoveType.exploreFromAllSingleMoves.
      destruct (MoveTypeUtils.filter_answers p0 ps env f Hu p Hrun o hot c Hpl Hc) as [x ->].
      cbn [mbind result_bind].
      destruct x; [exists empty; split; [done|apply MoveTypeUtils.empty_ok]|].
      apply (MoveTypeUtils.evaluate_ok hash p0 ps env f Hu p Hw Hrun). by apply MoveTypeUtils.candidate_one.
Qed.
End state.
End sound.
End types.
End FixedMoves.
