(* ===== verification/GroupMoves.v ===== *)
(** * Moves of whole groups

    [GreedyGroupToScopeItemMoveType] spreads the objects of a group over the
    containers of another scope item, [GroupRoutingMoveType] moves the replicas of a
    group to where its traffic has the least latency, [ColocateGroupsMoveType] moves
    one object of each of several related groups together (solver/moves).  Names are
    resolved to identifiers, the draws of the generators and the order of hash sets
    are parameters. *)

From S2P Require Import Prelude Double Precision ObjectiveValue ChangeSet ObjectStore.
From S2P Require Import IndexedAssignment Assignment EntityAttributes Objective Problem Moves.
From S2P Require Import LocalSearch EquivalenceSets Bits Parallel SingleMove Iterators.
From S2P Require Import ParallelExecution ExecutionSelector MoveHelper MoveTypes MoveChains.
From S2P Require Import Sampling Bundles SwapMoves FixedMoves.

(** The members of [GreedyGroupToScopeItemMoveType]: [getDestinations] are the
    containers of the scope items to explore for an object of the hot container,
    [shuffles c n] is the vector [c] after [n + 1] shuffles by the generator that is
    seeded with its elements. *)
Record GreedyGroupConfig (P : Type) := {
  greedy_groups : Chains.Groups;
  nSampleSetsToExplore : nat;
  getDestinations : P → Z → Z → result (list (list Z));
  pruningConstraints : list Z;
  shuffles : list Z → nat → list Z
}.
Arguments greedy_groups {P}.
Arguments nSampleSetsToExplore {P}.
Arguments getDestinations {P}.
Arguments pruningConstraints {P}.
Arguments shuffles {P}.

(** The routing configuration: for a group the origins of its routing rings, for an
    origin the destinations by increasing latency, for a scope item its containers. *)
Record RoutingConfig := {
  scopeIsContainerScope : bool;
  routing_groups : Chains.Groups;
  routingRings : gmap Z (list Z);
  latencyTable : gmap Z (list Z);
  routing_containersOf : Z → list Z;
  unassignedContainer : option Z
}.

(** [ColocateGroupsMoveType::RelatedGroupsInfoId] and [SpecInfo]; the scope gives
    the item of a container, the containers of an item and all items.  [colocate_rng]
    is the state of the generator at a draw, [colocate_clock] are the readings of the
    timer while move sets are collected, by call and positions in the loops. *)
Record RelatedGroupsInfo := { relatedGroups : list Z; destinationScopeItemIds : option (list Z) }.

Record ColocateConfig := {
  colocate_groups : Chains.Groups;
  scopeItemIdOf : Z → option Z;
  scopeContainerIds : Z → list Z;
  scopeItemIds : list Z;
  groupIdToRelatedGroups : gmap Z RelatedGroupsInfo;
  colocationScopeItemToGroupToContainers : gmap Z (gmap Z (list Z));
  defaultSampleSize : option nat;
  colocate_rng : nat → nat → nat → nat → SeededRng;
  colocate_clock : nat → nat → nat → nat → double
}.

Module GroupMoves.

Section zip_with.
Context {X Y V W : Type} (h : X → Y → V).

Lemma zip_with_map (g : V → W) l k : g <$> zip_with h l k = zip_with (λ x y, g (h x y)) l k.
Proof. revert k. induction l as [|x l IH]; intros [|y k]; simpl; [done..|]. by rewrite IH. Qed.

Lemma zip_with_elem l k v : v ∈ zip_with h l k → ∃ x y, v = h x y ∧ x ∈ l ∧ y ∈ k.
Proof.
  revert k. induction l as [|x l IH]; intros [|y k]; simpl; [by intros []%not_elem_of_nil..|].
  intros [->|(x' & y' & -> & ? & ?)%IH]%elem_of_cons.
  - exists x, y. split_and!; [done|left|left].
  - exists x', y'. split_and!; [done|by right|by right].
Qed.
End zip_with.

Lemma zip_with_first {X Y} (l : list X) (k : list Y) : zip_with (λ x _, x) l k = take (length k) l.
Proof. revert k. induction l as [|x l IH]; intros [|y k]; simpl; [done..|]. by rewrite IH. Qed.

(** The map of [ColocateGroupsMoveType::buildSpecInfo]: a group that is listed twice
    keeps its first entry. *)
Definition relatedGroupsMap (relatedGroupsList : list RelatedGroupsInfo) : gmap Z RelatedGroupsInfo :=
  foldl (λ m info, foldl (λ m group,
      match m !! group with Some _ => m | None => <[group := info]> m end) m (relatedGroups info))
    ∅ relatedGroupsList.

(** The entry of a group is the first list that has it. *)
Lemma relatedGroupsMap_spec l g :
  relatedGroupsMap l !! g = head (filter (λ info, g ∈ relatedGroups info) l).
Proof.
  unfold relatedGroupsMap.
  assert (∀ info groups (m : gmap Z RelatedGroupsInfo),
    foldl (λ m group, match m !! group with Some _ => m | None => <[group := info]> m end) m groups !! g =
    match m !! g with Some x => Some x | None => if decide (g ∈ groups) then Some info else None end) as Hin.
  { intros info. induction groups as [|x groups IH]; intros m; simpl; [by destruct (m !! g)|].
    rewrite IH. destruct (m !! x) as [y|] eqn:E.
    - destruct (decide (g = x)) as [->|Hne]; [by rewrite E|].
      destruct (m !! g); [done|]. destruct (decide (g ∈ groups)), (decide (g ∈ x :: groups)); set_solver.
    - destruct (decide (x = g)) as [->|Hx]; [by rewrite lookup_insert_eq, E, decide_True by left|].
      rewrite lookup_insert_ne by done.
      destruct (m !! g); [done|]. destruct (decide (g ∈ groups)), (decide (g ∈ x :: groups)); set_solver. }
  assert (∀ m : gmap Z RelatedGroupsInfo, foldl (λ m info, foldl (λ m group,
      match m !! group with Some _ => m | None => <[group := info]> m end) m (relatedGroups info)) m l !! g =
    match m !! g with Some x => Some x | None => head (filter (λ info, g ∈ relatedGroups info) l) end) as Hout.
  { induction l as [|info l IH]; intros m; simpl; [by destruct (m !! g)|].
    rewrite IH, Hin, filter_cons. destruct (m !! g); [done|]. by case_decide. }
  by rewrite Hout, lookup_empty.
Qed.

(** [getContainerForScopeItem]: the container of an item that has exactly one. *)
Definition getContainerForScopeItem (config : RoutingConfig) (scopeItemId : Z) : option Z :=
  match routing_containersOf config scopeItemId with [c] => Some c | _ => None end.

Section types.
Context `{G : ExpressionGraph} `{HO : HashOrder} {A : Type} `{EA : EntityAttributes A}.
Context (hash : Z → Z → Z → Z).
Abbreviation empty := MoveResult.makeEmpty.
Abbreviation invalid env := (InvalidMoveFilter.isMoveInvalid (invalidMoveFilter env)).
Abbreviation not_accepting env c := (bool_decide (c ∈ not_accepting_containers env)).
Abbreviation precision p := (Problem.precision p).
Abbreviation move := (makeMove hash).
Abbreviation containerOf p o := (Assignment.getContainer (Problem.assignment p) o).

(** ** GreedyGroupToScopeItemMoveType *)
Definition getFeasibleContainers (p : Problem.t A) (containers : list Z) (object : Z)
    (constraints : list Z) : result (list Z) :=
  match constraints with
  | [] => Ok containers
  | _ =>
      source ← containerOf p object;
      MoveHelper.filterM (λ container,
        b ← MovesEvaluator.violatesAny p constraints (move object source container);
        Ok (negb b)) containers
  end.

(** The loop of [generateRandomSampleAndMoveSet] over the shuffled containers. *)
Fixpoint sampleMoveSet (env : MoveTypeEnv) (p : Problem.t A) (objects containers : list Z)
    (candidateMoveSet : list Move) : result (list Move) :=
  match objects with
  | [] => Ok candidateMoveSet
  | hotObject :: objects =>
      sourceContainer ← containerOf p hotObject;
      match containers with
      | [] => Throw out_of_range
      | destinationContainer :: containers =>
          inv ← (if negb (sourceContainer =? destinationContainer)
                 then invalid env hotObject destinationContainer else Ok false);
          if (inv : bool) then Ok []
          else sampleMoveSet env p objects containers
                 (MoveSet_insert candidateMoveSet (move hotObject sourceContainer destinationContainer))
      end
  end.

Definition sampleContainersAndEvaluate (config : GreedyGroupConfig (Problem.t A)) (env : MoveTypeEnv)
    (ev : MovesEvaluator.t) (p : Problem.t A) (groupObjectIds containers : list Z)
    : result MoveResult.t :=
  if (length containers <? length groupObjectIds)%nat then Ok empty
  else
    representative ← Bundles.front groupObjectIds;
    containerIds ← getFeasibleContainers p containers representative (pruningConstraints config);
    if (length containerIds <? length groupObjectIds)%nat then Ok empty
    else foldM (λ bestResult n,
      candidateMoveSet ← sampleMoveSet env p groupObjectIds (shuffles config containerIds n) [];
      match candidateMoveSet with
      | [] => Ok bestResult
      | _ => r ← MovesEvaluator.evaluate ev p candidateMoveSet; MoveResult.aggregate bestResult r
      end) empty (seq 0 (nSampleSetsToExplore config)).

(** The state of the loop over the hot objects: the groups seen and the best result. *)
Definition greedyGroup_object (config : GreedyGroupConfig (Problem.t A)) (env : MoveTypeEnv)
    (ev : MovesEvaluator.t) (p : Problem.t A) (call : nat) (hotContainer : Z) (timeLimit : double)
    (i : nat) (s : gset Z * MoveResult.t) (hotObjectId : Z)
    : result (bool * (gset Z * MoveResult.t)) :=
  let '(seenGroupIds, bestMoves) := s in
  if (timeLimit <=? timer env call i 0)%D then Ok (true, s)
  else
    groupIdOpt ← Chains.onlyGroup (greedy_groups config) hotObjectId;
    match groupIdOpt with
    | None => Ok (false, s)
    | Some groupId =>
        if bool_decide (groupId ∈ seenGroupIds) then Ok (false, s)
        else
          destinations ← getDestinations config p hotContainer hotObjectId;
          bestGroupMove ← MoveHelper.findBest (executor env call i 0) destinations
            (sampleContainersAndEvaluate config env ev p (Chains.objectsOf (greedy_groups config) groupId))
            (timeLimit - timer env call i 1)%D;
          '(better, best') ← MoveTypeUtils.aggregateAndTest (precision p) bestMoves bestGroupMove;
          Ok (better, ({[groupId]} ∪ seenGroupIds, best'))
    end.

Definition greedyGroup_findBestMove (config : GreedyGroupConfig (Problem.t A)) (env : MoveTypeEnv)
    (ev : MovesEvaluator.t) (p : Problem.t A) (call : nat) (hotContainer : Z) (timeLimit : double)
    : result MoveResult.t :=
  '(_, (_, bestMoves)) ← forLoop (greedyGroup_object config env ev p call hotContainer timeLimit) 0
     (∅, empty) (Assignment.getDynamicObjects (Problem.assignment p) hotContainer);
  Ok bestMoves.

(** ** GroupRoutingMoveType *)
Definition isValidDestination (p : Problem.t A) (repObject repSourceContainer candidateContainer : Z)
    : result bool :=
  MovesEvaluator.satisfiesConstraints p [move repObject repSourceContainer candidateContainer].

(** The body of the loop over the destinations of a ring: the cache of validity and
    the destinations found so far. *)
Definition routing_destination (config : RoutingConfig) (env : MoveTypeEnv) (p : Problem.t A)
    (currentGroupPresence : gset Z) (repObjectId repSourceContainer : Z)
    (s : gmap Z bool * list Z) (destScopeItemId : Z) : result (bool * (gmap Z bool * list Z)) :=
  let '(candidateToIsValid, best) := s in
  match getContainerForScopeItem config destScopeItemId with
  | None => Ok (false, s)
  | Some candidate =>
      if bool_decide (candidate ∈ currentGroupPresence)
      then Ok (true, (candidateToIsValid, best ++ [candidate]))
      else if not_accepting env candidate then Ok (false, s)
      else
        inv ← invalid env repObjectId candidate;
        if (inv : bool) then Ok (false, s)
        else
          valid ← match candidateToIsValid !! candidate with
                  | Some valid => Ok valid
                  | None => isValidDestination p repObjectId repSourceContainer candidate
                  end;
          let cache := <[candidate := valid]> candidateToIsValid in
          if (valid : bool) then Ok (true, (cache, best ++ [candidate])) else Ok (false, (cache, best))
  end.

Definition bestDestinationsForEachSource (config : RoutingConfig) (env : MoveTypeEnv) (p : Problem.t A)
    (currentGroupPresence : gset Z) (repObjectId repSourceContainer : Z) (rings : list Z)
    : result (list Z) :=
  '(_, best) ← foldM (λ s origin,
      '(_, s') ← forLoop (λ _, routing_destination config env p currentGroupPresence repObjectId
                                 repSourceContainer) 0 s (default [] (latencyTable config !! origin));
      Ok s') (∅, []) rings;
  Ok best.

(** The last loop: [additions] are the containers that still need an object. *)
Fixpoint routing_moves (p : Problem.t A) (keep : gset Z) (unassigned : option Z) (objectIds : list Z)
    (additions : list Z) (moveSet : list Move) : result (list Move) :=
  match objectIds with
  | [] => Ok moveSet
  | objectId :: objectIds =>
      currContainer ← containerOf p objectId;
      if bool_decide (currContainer ∈ keep)
      then routing_moves p keep unassigned objectIds additions moveSet
      else match additions, unassigned with
      | dst :: additions, _ =>
          routing_moves p keep unassigned objectIds additions
            (MoveSet_insert moveSet (move objectId currContainer dst))
      | [], Some u =>
          routing_moves p keep unassigned objectIds []
            (if negb (currContainer =? u) then MoveSet_insert moveSet (move objectId currContainer u)
             else moveSet)
      | [], None => Ok moveSet
      end
  end.

Definition generateMoveSetFor (config : RoutingConfig) (env : MoveTypeEnv) (p : Problem.t A)
    (groupId : Z) : result (list Move) :=
  match Chains.objectsOf (routing_groups config) groupId with
  | [] => Ok []
  | (repObjectId :: _) as objectIds =>
      currentGroupPresence ← foldM (λ s o, c ← containerOf p o; Ok ({[c]} ∪ s)) (∅ : gset Z) objectIds;
      repSourceContainer ← containerOf p repObjectId;
      rings ← match routingRings config !! groupId with
              | Some rings => Ok rings
              | None => Throw (runtime_error "No routing rings found for group")
              end;
      best ← bestDestinationsForEachSource config env p currentGroupPresence repObjectId
               repSourceContainer rings;
      let shouldAddPresence : gset Z := list_to_set (filter (λ c, c ∉ currentGroupPresence) best) in
      let shouldKeepPresence : gset Z := list_to_set (filter (λ c, c ∈ currentGroupPresence) best) in
      routing_moves p shouldKeepPresence (unassignedContainer config) objectIds
        (set_iter shouldAddPresence) []
  end.

Definition routing_findBestMove (config : RoutingConfig) (env : MoveTypeEnv) (ev : MovesEvaluator.t)
    (p : Problem.t A) (call : nat) (hotContainer : Z) (timeLimit : double) : result MoveResult.t :=
  if negb (scopeIsContainerScope config)
  then Throw (runtime_error "GroupRoutingMoveType is currently supported only when the scope of the routingConfig is the same as the container scope")
  else
    relevantGroups ← foldM (λ s o,
        g ← Chains.onlyGroup (routing_groups config) o;
        Ok (match g with Some g => {[g]} ∪ s | None => s end)) (∅ : gset Z)
      (Assignment.getDynamicObjects (Problem.assignment p) hotContainer);
    MoveHelper.findBest (executor env call 0 0) (set_iter relevantGroups)
      (λ groupId, moves ← generateMoveSetFor config env p groupId; MovesEvaluator.evaluate ev p moves)
      timeLimit.

(** ** ColocateGroupsMoveType *)
Definition getValidDestinations (env : MoveTypeEnv) (p : Problem.t A) (candidates : list Z) (object : Z)
    : result (list Z) :=
  sourceContainer ← containerOf p object;
  MoveHelper.filterM (λ containerId,
    if not_accepting env containerId then Ok false
    else if containerId =? sourceContainer then Ok false
    else inv ← invalid env object containerId; Ok (negb inv)) candidates.

Fixpoint getRepresentativeObjectFromSourceScopeItem (p : Problem.t A) (sourceContainers : list Z)
    (objects : list Z) : result (option Z) :=
  match objects with
  | [] => Ok None
  | repObject :: objects =>
      currContainer ← containerOf p repObject;
      if bool_decide (currContainer ∈ sourceContainers) then Ok (Some repObject)
      else getRepresentativeObjectFromSourceScopeItem p sourceContainers objects
  end.

(** Up to the first group without an object in the source. *)
Fixpoint getRepresentativeObjectPerGroup (gs : Chains.Groups) (p : Problem.t A)
    (hotObjectGroupId hotObjectId : Z) (sourceContainers groups : list Z) : result (list Z) :=
  match groups with
  | [] => Ok []
  | group :: groups =>
      repObjectOpt ← (if group =? hotObjectGroupId then Ok (Some hotObjectId)
                      else getRepresentativeObjectFromSourceScopeItem p sourceContainers
                             (Chains.objectsOf gs group));
      match repObjectOpt with
      | None => Ok []
      | Some o =>
          rest ← getRepresentativeObjectPerGroup gs p hotObjectGroupId hotObjectId sourceContainers groups;
          Ok (o :: rest)
      end
  end.

(** The moves of a tuple of containers. *)
Fixpoint colocate_moves (p : Problem.t A) (representatives destinations : list Z) : result (list Move) :=
  match destinations, representatives with
  | [], _ => Ok []
  | _ :: _, [] => Throw (undefined_behaviour "an index out of the bounds of a vector")
  | dst :: destinations, o :: representatives =>
      src ← containerOf p o;
      rest ← colocate_moves p representatives destinations;
      Ok (move o src dst :: rest)
  end.

(** The clock is read every 1024 tuples. *)
Definition getMoveSetsToDestinationScopeItem (p : Problem.t A) (clock : nat → double)
    (timeLimit : double) (destinationContainersPerGroup : list (list Z)) (representatives : list Z)
    : result (list (list Move)) :=
  let tuples := MultiCollectionCartesianProduct.collect
    (S (length (MultiCollectionCartesianProduct.product destinationContainersPerGroup)))
    (MultiCollectionCartesianProduct.begin destinationContainersPerGroup) in
  '(_, moveSets) ← forLoop (λ numProcessed moveSets destinationContainers,
      if (Z.land (Z.of_nat numProcessed) 1023 =? 0) && (timeLimit <=? clock numProcessed)%D
      then Ok (true, moveSets)
      else
        moveSet ← colocate_moves p representatives destinationContainers;
        Ok (false, moveSets ++ [moveSet])) 0 [] tuples;
  Ok moveSets.

(** The containers of a destination that the group of [object] may move to. *)
Definition colocate_containers (config : ColocateConfig) (env : MoveTypeEnv) (p : Problem.t A)
    (rng : SeededRng) (destinationScopeItem group object : Z) : result (list Z) :=
  let unsampledContainers :=
    match colocationScopeItemToGroupToContainers config !! destinationScopeItem ≫= (.!! group) with
    | Some containers => containers
    | None => scopeContainerIds config destinationScopeItem
    end in
  validContainers ← getValidDestinations env p unsampledContainers object;
  Ok (match defaultSampleSize config with
      | Some n => (Sampling.getRandomSample (RG := rng_class rng) (rng_seed rng) validContainers n None).1
      | None => validContainers
      end).

Definition getMoveSetsForRelatedGroups (config : ColocateConfig) (env : MoveTypeEnv) (p : Problem.t A)
    (info : RelatedGroupsInfo) (sourceScopeItemIdOpt : option Z) (representatives : list Z)
    (call i : nat) (timeLimit : double) : result (list (list Move)) :=
  '(_, moveSets) ← forLoop (λ j moveSets destinationScopeItem,
      if (timeLimit <=? colocate_clock config call i j 0)%D then Ok (true, moveSets)
      else if bool_decide (sourceScopeItemIdOpt = Some destinationScopeItem) then Ok (false, moveSets)
      else
        '(destinationContainersPerGroup, _) ← foldM (λ '(acc, k) '(group, object),
            containers ← colocate_containers config env p (colocate_rng config call i j k)
                           destinationScopeItem group object;
            Ok (acc ++ [containers], S k)) ([], 0%nat) (zip (relatedGroups info) representatives);
        moveSetsToDestinationScopeItem ← getMoveSetsToDestinationScopeItem p
          (λ n, colocate_clock config call i j (S n)) timeLimit destinationContainersPerGroup
          representatives;
        Ok (false, moveSets ++ moveSetsToDestinationScopeItem)) 0 []
    (default (scopeItemIds config) (destinationScopeItemIds info));
  Ok moveSets.

Definition colocate_object (config : ColocateConfig) (env : MoveTypeEnv) (ev : MovesEvaluator.t)
    (p : Problem.t A) (call : nat) (hotContainer : Z) (timeLimit : double) (i : nat)
    (s : gset Z * MoveResult.t) (hotObjectId : Z) : result (bool * (gset Z * MoveResult.t)) :=
  let '(seenGroupIds, bestResult) := s in
  if (timeLimit <=? timer env call i 0)%D then Ok (true, s)
  else
    groupIdOpt ← Chains.onlyGroup (colocate_groups config) hotObjectId;
    match groupIdOpt with
    | None => Ok (false, s)
    | Some hotObjectGroupId =>
        match groupIdToRelatedGroups config !! hotObjectGroupId with
        | None => Ok (false, s)
        | Some info =>
            if bool_decide (hotObjectGroupId ∈ seenGroupIds) then Ok (false, s)
            else
              let seen' := seenGroupIds ∪ list_to_set (relatedGroups info) in
              let sourceScopeItemIdOpt := scopeItemIdOf config hotContainer in
              let sourceContainers := match sourceScopeItemIdOpt with
                                      | Some item => scopeContainerIds config item
                                      | None => [hotContainer]
                                      end in
              representatives ← getRepresentativeObjectPerGroup (colocate_groups config) p
                hotObjectGroupId hotObjectId sourceContainers (relatedGroups info);
              if negb (length representatives =? length (relatedGroups info))%nat
              then Ok (false, (seen', bestResult))
              else
                moveSets ← getMoveSetsForRelatedGroups config env p info sourceScopeItemIdOpt
                             representatives call i timeLimit;
                r ← MoveHelper.findBest (executor env call i 0) moveSets
                      (MovesEvaluator.evaluate ev p) (timeLimit - timer env call i 1)%D;
                '(better, best') ← MoveTypeUtils.aggregateAndTest (precision p) bestResult r;
                Ok (better, (seen', best'))
        end
    end.

Definition colocate_findBestMove (config : ColocateConfig) (env : MoveTypeEnv) (ev : MovesEvaluator.t)
    (p : Problem.t A) (call : nat) (hotContainer : Z) (timeLimit : double) : result MoveResult.t :=
  dedupedObjs ← MoveTypeUtils.dedupedObjects env p hotContainer;
  '(_, (_, bestResult)) ← forLoop (colocate_object config env ev p call hotContainer timeLimit) 0
     (∅, empty) dedupedObjs;
  Ok bestResult.

(** ** The promise *)
Section sound.
Context `{LG : !LawfulGraph G} `{EG : !EvaluableGraph G} `{SE : !SearchEnv A}.
Context (p0 : Problem.t A) (ps : LocalSearch.Params) (env : MoveTypeEnv) (f : Z → Z).
Context (Hu : MoveHelper.usable p0 ps env f) (Henv : env_ok env).
Abbreviation containers := (LocalSearch.containers ps).

(** A partition of the objects of the problem: groups list no object twice, and an
    object is listed by its group. *)
Record partition_ok (gs : Chains.Groups) : Prop := {
  po_groups : Chains.groups_ok p0 gs;
  po_nodup g : NoDup (Chains.objectsOf gs g);
  po_member o g : Chains.onlyGroup gs o = Ok (Some g) → o ∈ Chains.objectsOf gs g
}.

Section state.
Context (p : Problem.t A) (Hw : Problem.wf p) (Hrun : LocalSearch.same_run p0 p).
Abbreviation sound := (MoveHelper.sound_result hash ps p).
Abbreviation place := (Assignment.objectToContainer (Problem.assignment p)).
Abbreviation ev := (LocalSearch.evaluator ps).
Abbreviation candidate := (MoveHelper.candidate hash ps p).

Lemma containerOf_ok o c : place !! o = Some c → containerOf p o = Ok c.
Proof. intros E. unfold Assignment.getContainer. by rewrite E. Qed.

Lemma group_placed gs g o : partition_ok gs → o ∈ Chains.objectsOf gs g →
  ∃ c, containerOf p o = Ok c ∧ place !! o = Some c.
Proof.
  intros Hg Ho. apply (proj2 (po_groups gs Hg)) in Ho. destruct Hrun as [_ D]. rewrite <- D in Ho.
  apply elem_of_dom in Ho as [c Hc]. exists c. split; [by apply containerOf_ok|done].
Qed.

Lemma hot_group gs hot o : partition_ok gs →
  o ∈ Assignment.getDynamicObjects (Problem.assignment p) hot → ∃ g, Chains.onlyGroup gs o = Ok g.
Proof.
  intros Hg [Ho _]%Assignment.elem_of_getDynamicObjects; [|apply Hw].
  apply (proj1 (po_groups gs Hg)). by eapply (MoveTypeUtils.placed_dom p0 p Hrun).
Qed.

Lemma candidate_nil : candidate [].
Proof.
  split; [split; [constructor|constructor|by intros m []%not_elem_of_nil]|by intros m []%not_elem_of_nil].
Qed.

(** A move of another object keeps a set of moves a candidate. *)
Lemma candidate_cons ms o src dst :
  candidate ms → o ∉ (move_object <$> ms) → place !! o = Some src → dst ∈ containers →
  candidate (move o src dst :: ms).
Proof.
  intros [[Hnd Hm Hc] Hd] Hn Hs Ht. split; [split|].
  - rewrite fmap_cons. by apply NoDup_cons.
  - by apply Forall_cons.
  - intros m [->|Hin]%elem_of_cons; [done|by apply Hc].
  - intros m [->|Hin]%elem_of_cons; [done|by apply Hd].
Qed.

Lemma candidate_perm ms ms' : ms ≡ₚ ms' → candidate ms → candidate ms'.
Proof.
  intros E [[Hnd Hm Hc] Hd]. split; [split|].
  - by rewrite <- E.
  - by rewrite <- E.
  - intros m. rewrite <- E. apply Hc.
  - intros m. rewrite <- E. apply Hd.
Qed.

Lemma candidate_insert ms o src dst :
  candidate ms → o ∉ (move_object <$> ms) → place !! o = Some src → dst ∈ containers →
  candidate (MoveSet_insert ms (move o src dst)).
Proof.
  intros H1 H2 H3 H4. eapply candidate_perm; [|by apply (candidate_cons ms o src dst)].
  unfold MoveSet_insert. by rewrite (comm (++)).
Qed.

Lemma insert_objects ms o src dst x :
  x ∈ (move_object <$> MoveSet_insert ms (move o src dst)) ↔ x ∈ (move_object <$> ms) ∨ x = o.
Proof. unfold MoveSet_insert. rewrite fmap_app, elem_of_app. simpl. by rewrite list_elem_of_singleton. Qed.

Lemma constraints_evaluate ms cs : candidate ms →
  ∃ b, MovesEvaluator.anyPositive p (MoveSet_getChangeSet ms) cs = Ok b.
Proof.
  intros [Hl _]. apply (SingleMoveType.anyPositive_ok hash). intros e _.
  eapply graph_evaluate; [apply Hw|apply Hl|apply Hl].
Qed.

Lemma candidate_single o src dst : place !! o = Some src → dst ∈ containers → candidate [move o src dst].
Proof. intros. apply candidate_cons; [apply candidate_nil|by intros []%not_elem_of_nil|done|done]. Qed.

(** *** GreedyGroupToScopeItemMoveType *)
Lemma feasible_ok cs o c constraints : place !! o = Some c → (∀ x, x ∈ cs → x ∈ containers) →
  ∃ l, getFeasibleContainers p cs o constraints = Ok l ∧ ∀ x, x ∈ l → x ∈ containers.
Proof.
  intros Ho Hc. unfold getFeasibleContainers. destruct constraints as [|e es]; [eauto|].
  rewrite (containerOf_ok o c Ho). cbn [mbind result_bind].
  match goal with |- context [MoveHelper.filterM ?k ?l] =>
    destruct (MoveHelper.filterM_ok k l) as (r & -> & Hr) end.
  - intros x Hx. unfold MovesEvaluator.violatesAny.
    destruct (constraints_evaluate [move o c x] (e :: es)) as [b E]; [apply candidate_single; auto|].
    change (Move_getChangeSet (move o c x)) with (MoveSet_getChangeSet [move o c x]).
    rewrite E. cbn [mbind result_bind]. eauto.
  - exists r. split; [done|]. intros x [Hx _]%Hr. auto.
Qed.

Lemma sampleMoveSet_ok : ∀ objects cs ms,
  candidate ms → NoDup objects → (∀ o, o ∈ objects → o ∉ (move_object <$> ms) ∧ is_Some (place !! o)) →
  (∀ c, c ∈ cs → c ∈ containers) → (length objects ≤ length cs)%nat →
  ∃ ms', sampleMoveSet env p objects cs ms = Ok ms' ∧ candidate ms'.
Proof.
  induction objects as [|o objects IH]; intros cs ms Hms Hnd Ho Hc Hl; simpl; [eauto|].
  destruct (Ho o) as [Hn [src Hs]]; [left|]. rewrite (containerOf_ok o src Hs). cbn [mbind result_bind].
  destruct cs as [|dst cs]; [simpl in Hl; lia|]. assert (dst ∈ containers) as Hd by (apply Hc; left).
  assert (∃ b, (if negb (src =? dst) then invalid env o dst else Ok false) = Ok b) as [b ->].
  { destruct (negb _); [|eauto]. by eapply (MoveTypeUtils.filter_answers p0 ps env f Hu p Hrun). }
  cbn [mbind result_bind]. destruct b; [exists []; split; [done|apply candidate_nil]|].
  apply NoDup_cons in Hnd as [Hno Hnd]. apply IH; [by apply candidate_insert|done| | |simpl in Hl; lia].
  - intros q Hq. destruct (Ho q) as [H1 H2]; [by right|]. split; [|done]. rewrite insert_objects.
    intros [?| ->]; done.
  - intros c Hin. apply Hc. by right.
Qed.

(** The configuration fits: containers to explore are containers of the problem, and
    shuffling permutes. *)
Record greedy_fits (config : GreedyGroupConfig (Problem.t A)) : Prop := {
  gf_partition : partition_ok (greedy_groups config);
  gf_destinations q hot o : Problem.wf q → LocalSearch.same_run p0 q → ∃ l,
    getDestinations config q hot o = Ok l ∧ ∀ cs c, cs ∈ l → c ∈ cs → c ∈ containers;
  gf_shuffles cs n : shuffles config cs n ≡ₚ cs
}.

Lemma sampleContainers_ok config g o cs :
  greedy_fits config → o ∈ Chains.objectsOf (greedy_groups config) g → (∀ c, c ∈ cs → c ∈ containers) →
  ∃ r, sampleContainersAndEvaluate config env ev p (Chains.objectsOf (greedy_groups config) g) cs = Ok r ∧
    sound r.
Proof.
  intros [Hg _ Hs] Ho Hc. unfold sampleContainersAndEvaluate.
  destruct (_ <? _)%nat; [exists empty; split; [done|apply MoveTypeUtils.empty_ok]|].
  destruct (Chains.objectsOf (greedy_groups config) g) as [|rep os] eqn:E; [by apply not_elem_of_nil in Ho|].
  assert (∀ x, x ∈ rep :: os → ∃ c, place !! x = Some c) as Hpl.
  { intros x Hx. rewrite <- E in Hx. destruct (group_placed _ _ _ Hg Hx) as (c & _ & ?). eauto. }
  destruct (Hpl rep) as [c Hrep]; [left|]. change (Bundles.front (rep :: os)) with (Ok rep : result Z).
  cbn [mbind result_bind].
  destruct (feasible_ok cs rep c (pruningConstraints config) Hrep Hc) as (l & -> & Hl).
  cbn [mbind result_bind]. destruct (Nat.ltb_spec (length l) (length (rep :: os))) as [|Hlen];
    [exists empty; split; [done|apply MoveTypeUtils.empty_ok]|].
  apply (foldM_total sound); [apply MoveTypeUtils.empty_ok|]. intros best n _ Hbest.
  destruct (sampleMoveSet_ok (rep :: os) (shuffles config l n) []) as (ms & -> & Hms).
  - apply candidate_nil.
  - rewrite <- E. apply (po_nodup _ Hg).
  - intros x Hx. split; [by intros []%not_elem_of_nil|]. by apply Hpl.
  - intros x Hx. apply Hl. by rewrite (Hs l n) in Hx.
  - rewrite (Hs l n). lia.
  - cbn [mbind result_bind]. destruct ms as [|m ms]; [eauto|].
    destruct (MoveTypeUtils.evaluate_ok hash p0 ps env f Hu p Hw Hrun (m :: ms) Hms) as (r & -> & Hr).
    cbn [mbind result_bind]. by apply (MoveTypeUtils.aggregate_ok hash ps p).
Qed.

Lemma greedyGroup_ok config call hot limit : greedy_fits config →
  ∃ r, greedyGroup_findBestMove config env ev p call hot limit = Ok r ∧ sound r.
Proof.
  intros Hf. pose proof (gf_partition _ Hf) as Hg. unfold greedyGroup_findBestMove.
  match goal with |- context [forLoop ?b 0 _ ?l] =>
    destruct (forLoop_total (λ s : gset Z * MoveResult.t, sound s.2) b l) with
      (i := 0%nat) (s := (∅ : gset Z, empty)) as (x & [seen best] & -> & Hb) end.
  - intros i [seen best] o Ho Hb. unfold greedyGroup_object. destruct (_ <=? _)%D; [eauto|].
    destruct (hot_group _ hot o Hg Ho) as [g Eg]. rewrite Eg. cbn [mbind result_bind].
    destruct g as [g|]; [|eauto]. destruct (bool_decide _); [eauto|].
    destruct (gf_destinations _ Hf p hot o Hw Hrun) as (l & -> & Hl). cbn [mbind result_bind].
    match goal with |- context [MoveHelper.findBest ?x ?l ?e ?t] =>
      destruct (MoveTypeUtils.findBest_ok hash p0 ps env f Hu p Hw Hrun x l e t) as (r & -> & Hr) end.
    { apply Henv. }
    { intros cs Hcs. apply (sampleContainers_ok config g o cs Hf); [by apply (po_member _ Hg)|eauto]. }
    cbn [mbind result_bind]. simpl in Hb.
    destruct (MoveTypeUtils.aggregateAndTest_ok hash ps p best r Hb Hr) as (b & best' & -> & Hb').
    cbn [mbind result_bind]. eauto.
  - apply MoveTypeUtils.empty_ok.
  - cbn [mbind result_bind]. eauto.
Qed.

(** *** GroupRoutingMoveType *)
Record routing_fits (config : RoutingConfig) : Prop := {
  rf_scope : scopeIsContainerScope config = true;
  rf_partition : partition_ok (routing_groups config);
  rf_rings o g : Chains.onlyGroup (routing_groups config) o = Ok (Some g) →
    is_Some (routingRings config !! g);
  rf_containers item c : c ∈ routing_containersOf config item → c ∈ containers;
  rf_unassigned c : unassignedContainer config = Some c → c ∈ containers
}.

(** A container may serve a source: the group is there already, or its representative
    may move there. *)
Definition serves (presence : gset Z) (rep src c : Z) : bool :=
  bool_decide (c ∈ presence) ||
  (negb (not_accepting env c) && bool_decide (invalid env rep c = Ok false) &&
   bool_decide (isValidDestination p rep src c = Ok true)).

(** The container of the nearest destination of an origin that may serve it. *)
Definition nearest (config : RoutingConfig) (presence : gset Z) (rep src origin : Z) : option Z :=
  head (filter (λ c, serves presence rep src c = true)
    (omap (getContainerForScopeItem config) (default [] (latencyTable config !! origin)))).

(** The cache remembers what it was told. *)
Definition cached (rep src : Z) (cache : gmap Z bool) : Prop :=
  ∀ c v, cache !! c = Some v → isValidDestination p rep src c = Ok v.

Lemma getContainer_in config item c : routing_fits config →
  getContainerForScopeItem config item = Some c → c ∈ containers.
Proof.
  intros Hf. unfold getContainerForScopeItem. pose proof (rf_containers _ Hf item) as Hc.
  destruct (routing_containersOf config item) as [|c' [|]]; [done| |done]. intros [= <-]. apply Hc. left.
Qed.

Lemma valid_answers rep src c : place !! rep = Some src → c ∈ containers →
  ∃ v, isValidDestination p rep src c = Ok v.
Proof.
  intros Hrep Hin. unfold isValidDestination, MovesEvaluator.satisfiesConstraints.
  pose proof (candidate_single rep src c Hrep Hin) as Hcand.
  rewrite (proj2 (MovesEvaluator.checkMoves_spec hash p _) (Problem.legal_current _ _ _ (proj1 Hcand))).
  cbn [mbind result_bind].
  destruct (constraints_evaluate [move rep src c] (Problem.labeledHardConstraints p) Hcand) as [b ->].
  cbn [mbind result_bind]. eauto.
Qed.

Lemma routing_destination_spec config presence rep src cache best item :
  routing_fits config → place !! rep = Some src → cached rep src cache →
  ∃ cache', cached rep src cache' ∧
    routing_destination config env p presence rep src (cache, best) item =
    Ok (match getContainerForScopeItem config item with
        | Some c => if serves presence rep src c then (true, (cache', best ++ [c]))
                    else (false, (cache', best))
        | None => (false, (cache', best))
        end).
Proof.
  intros Hf Hrep Hc. unfold routing_destination.
  destruct (getContainerForScopeItem config item) as [c|] eqn:Ec; [|by exists cache].
  pose proof (getContainer_in _ _ _ Hf Ec) as Hin. unfold serves.
  destruct (bool_decide (c ∈ presence)); [by exists cache|]. simpl orb.
  destruct (not_accepting env c); [by exists cache|].
  destruct (MoveTypeUtils.filter_answers p0 ps env f Hu p Hrun rep src c Hrep Hin) as [b ->].
  cbn [mbind result_bind]. destruct b; [by exists cache|].
  destruct (valid_answers rep src c Hrep Hin) as [v Ev]. rewrite Ev.
  assert (match cache !! c with Some v => Ok v | None => Ok v end = Ok v) as ->.
  { destruct (cache !! c) as [w|] eqn:Ew; [|done]. apply Hc in Ew. congruence. }
  cbn [mbind result_bind]. exists (<[c := v]> cache). split; [|by destruct v].
  intros c' v' [[<- <-]|[_ ?%Hc]]%lookup_insert_Some; done.
Qed.

Lemma ring_spec config presence rep src : routing_fits config → place !! rep = Some src →
  ∀ items i cache best, cached rep src cache →
  ∃ b cache', cached rep src cache' ∧
    forLoop (λ _, routing_destination config env p presence rep src) i (cache, best) items =
    Ok (b, (cache', best ++ option_list (head (filter (λ c, serves presence rep src c = true)
                                (omap (getContainerForScopeItem config) items))))).
Proof.
  intros Hf Hrep. induction items as [|item items IH]; intros i cache best Hc.
  { exists false, cache. simpl. by rewrite app_nil_r. }
  destruct (routing_destination_spec config presence rep src cache best item Hf Hrep Hc)
    as (cache' & Hc' & E). cbn [forLoop]. rewrite E. cbn [mbind result_bind omap list_omap].
  change (list_omap _ _ (getContainerForScopeItem config) items)
    with (omap (getContainerForScopeItem config) items).
  destruct (getContainerForScopeItem config item) as [c|]; [|by apply IH].
  rewrite filter_cons. destruct (serves presence rep src c) eqn:Es.
  - rewrite decide_True by done. exists true, cache'. by split.
  - rewrite decide_False by done. by apply IH.
Qed.

(** The destinations found: for every source the nearest container that may serve it. *)
Lemma destinations_spec config presence rep src rings :
  routing_fits config → place !! rep = Some src →
  bestDestinationsForEachSource config env p presence rep src rings =
  Ok (omap (nearest config presence rep src) rings).
Proof.
  intros Hf Hrep. unfold bestDestinationsForEachSource.
  assert (∀ cache best, cached rep src cache → ∃ cache',
    foldM (λ s origin,
      '(_, s') ← forLoop (λ _, routing_destination config env p presence rep src) 0 s
                   (default [] (latencyTable config !! origin)); Ok s') (cache, best) rings =
    Ok (cache', best ++ omap (nearest config presence rep src) rings)) as H.
  { induction rings as [|origin rings IH]; intros cache best Hc; simpl.
    - exists cache. by rewrite app_nil_r.
    - destruct (ring_spec config presence rep src Hf Hrep (default [] (latencyTable config !! origin)) 0 cache best Hc)
        as (b & cache' & Hc' & ->). cbn [mbind result_bind].
      match goal with |- context [foldM _ (cache', ?bs) _] => destruct (IH cache' bs Hc') as [cache'' E] end.
      rewrite E. exists cache''. rewrite <- app_assoc. unfold nearest at 2. by destruct (head _). }
  destruct (H ∅ []) as [cache ->]; [by intros c v|]. done.
Qed.

(** Where an object is. *)
Abbreviation at_ o := (default 0 (place !! o)).

(** The moves, in closed form: the objects that are not kept go to the containers to
    add, one each, and the others to the unassigned container. *)
Definition routing_plan (keep : gset Z) (unassigned : option Z) (objects additions : list Z) : list Move :=
  let movable := filter (λ o, at_ o ∉ keep) objects in
  zip_with (λ o c, move o (at_ o) c) movable additions ++
  match unassigned with
  | Some u => (λ o, move o (at_ o) u) <$> filter (λ o, at_ o ≠ u) (drop (length additions) movable)
  | None => []
  end.

Lemma routing_moves_spec keep unassigned : ∀ objects additions ms,
  (∀ o, o ∈ objects → is_Some (place !! o)) →
  routing_moves p keep unassigned objects additions ms =
  Ok (ms ++ routing_plan keep unassigned objects additions).
Proof.
  induction objects as [|o objects IH]; intros additions ms Ho; simpl.
  { unfold routing_plan. rewrite filter_nil. destruct unassigned; simpl; rewrite ?drop_nil; by rewrite app_nil_r. }
  destruct (Ho o) as [c Hc]; [left|]. rewrite (containerOf_ok o c Hc). cbn [mbind result_bind].
  assert (∀ x, x ∈ objects → is_Some (place !! x)) as Ho' by (intros x Hx; apply Ho; by right).
  unfold routing_plan. rewrite filter_cons, Hc. simpl.
  destruct (decide (c ∈ keep)) as [Hk|Hk].
  { rewrite bool_decide_eq_true_2 by done. rewrite decide_False by (by intros H; apply H). by rewrite IH. }
  rewrite bool_decide_eq_false_2 by done. rewrite decide_True by done.
  destruct additions as [|d additions]; simpl.
  - destruct unassigned as [u|]; [|by rewrite app_nil_r]. rewrite IH by done. unfold routing_plan. simpl.
    rewrite filter_cons, Hc, drop_0, zip_with_nil_r. simpl. f_equal.
    destruct (Z.eqb_spec c u) as [->|Hne]; simpl.
    + by rewrite decide_False by (intros H; by apply H).
    + rewrite decide_True by done. unfold MoveSet_insert. simpl. by rewrite <- (assoc_L (++)), Hc.
  - rewrite IH by done. unfold MoveSet_insert. rewrite Hc. simpl. by rewrite <- (assoc_L (++)).
Qed.

Lemma routing_plan_ok keep unassigned objects additions :
  NoDup objects → (∀ o, o ∈ objects → is_Some (place !! o)) →
  (∀ c, c ∈ additions → c ∈ containers) → (∀ u, unassigned = Some u → u ∈ containers) →
  candidate (routing_plan keep unassigned objects additions).
Proof.
  intros Hnd Ho Ha Hun. unfold routing_plan. set (movable := filter _ objects).
  assert (NoDup movable) as Hm by (by apply NoDup_filter).
  assert (∀ o, o ∈ movable → place !! o = Some (at_ o)) as Hpl.
  { intros o [_ Hin]%list_elem_of_filter. by destruct (Ho o Hin) as [c ->]. }
  clearbody movable.
  set (l := zip_with (λ o c, (o, at_ o, c)) movable additions ++
    match unassigned with
    | Some u => (λ o, (o, at_ o, u)) <$> filter (λ o, at_ o ≠ u) (drop (length additions) movable)
    | None => []
    end).
  match goal with |- MoveHelper.candidate _ _ _ ?x =>
    replace x with ((λ '(o, src, dst), makeMove hash o src dst) <$> l) end.
  2: { unfold l. rewrite fmap_app, zip_with_map. f_equal. destruct unassigned; [|done].
       by rewrite <- list_fmap_compose. }
  apply MoveTypeUtils.candidate_moves.
  - assert (l.*1.*1 `sublist_of` movable) as Hsub.
    { unfold l. rewrite !fmap_app.
      assert ((zip_with (λ o c, (o, at_ o, c)) movable additions).*1.*1 = take (length additions) movable) as ->
        by (by rewrite !zip_with_map, <- zip_with_first).
      rewrite <- (take_drop (length additions) movable) at 2. apply sublist_app; [done|].
      destruct unassigned as [u|]; [|apply sublist_nil_l].
      rewrite <- !list_fmap_compose, (list_fmap_id _). apply sublist_filter. }
    by eapply sublist_NoDup.
  - intros o src dst [Hin|Hin]%elem_of_app.
    + apply zip_with_elem in Hin as (o' & c & [= -> -> ->] & Hin1 & Hin2). split; [by apply Hpl|by apply Ha].
    + destruct unassigned as [u|]; [|by apply not_elem_of_nil in Hin].
      apply list_elem_of_fmap in Hin as (o' & [= -> -> ->] & [_ Hin]%list_elem_of_filter).
      split; [|by apply Hun]. apply Hpl. eapply elem_of_submseteq; [exact Hin|].
      apply sublist_submseteq, sublist_drop.
Qed.

(** A container that is kept keeps its objects; a container to add gets one, if there
    are objects enough. *)
Lemma routing_plan_keeps keep unassigned objects additions o :
  at_ o ∈ keep → o ∉ (move_object <$> routing_plan keep unassigned objects additions).
Proof.
  intros Hk. unfold routing_plan. rewrite fmap_app, zip_with_map. simpl. rewrite zip_with_first.
  assert (∀ x, x ∈ filter (λ o, at_ o ∉ keep) objects → x ≠ o) as Hne.
  { intros x [Hx _]%list_elem_of_filter ->. done. }
  intros [Hin|Hin]%elem_of_app.
  - eapply Hne; [|done]. eapply elem_of_submseteq; [exact Hin|]. apply sublist_submseteq, sublist_take.
  - destruct unassigned as [u|]; [|by apply not_elem_of_nil in Hin].
    rewrite <- list_fmap_compose in Hin.
    apply list_elem_of_fmap in Hin as (x & -> & [_ Hin]%list_elem_of_filter). simpl in Hne.
    eapply Hne; [|done]. eapply elem_of_submseteq; [exact Hin|]. apply sublist_submseteq, sublist_drop.
Qed.

Lemma routing_plan_adds keep unassigned objects additions d :
  d ∈ additions → (length additions ≤ length (filter (λ o, at_ o ∉ keep) objects))%nat →
  ∃ o, o ∈ objects ∧ move o (at_ o) d ∈ routing_plan keep unassigned objects additions.
Proof.
  intros [i Hi]%list_elem_of_lookup_1 Hl. unfold routing_plan. set (movable := filter _ objects) in *.
  assert (is_Some (movable !! i)) as [o Ho].
  { apply lookup_lt_is_Some. apply lookup_lt_Some in Hi. lia. }
  exists o. split.
  - apply list_elem_of_lookup_2 in Ho. by apply list_elem_of_filter in Ho as [_ ?].
  - apply elem_of_app. left. apply (list_elem_of_lookup_2 _ i). by rewrite lookup_zip_with, Ho; simpl; rewrite Hi.
Qed.

Lemma presence_ok gs g l : partition_ok gs → (∀ o, o ∈ l → o ∈ Chains.objectsOf gs g) →
  ∃ s, foldM (λ s o, c ← containerOf p o; Ok ({[c]} ∪ s)) (∅ : gset Z) l = Ok s ∧
    ∀ c, c ∈ s ↔ ∃ o, o ∈ l ∧ place !! o = Some c.
Proof.
  intros Hg. assert (∀ acc : gset Z, (∀ o, o ∈ l → o ∈ Chains.objectsOf gs g) →
    ∃ s, foldM (λ s o, c ← containerOf p o; Ok ({[c]} ∪ s)) acc l = Ok s ∧
      ∀ c, c ∈ s ↔ c ∈ acc ∨ ∃ o, o ∈ l ∧ place !! o = Some c) as Hgen.
  { induction l as [|o l IH]; intros acc Hl; cbn [foldM].
    { exists acc. split; [done|]. intros c. split; [by left|]. by intros [?|(? & []%not_elem_of_nil & _)]. }
    destruct (group_placed gs g o Hg (Hl o ltac:(left))) as (c & -> & Hc). cbn [mbind result_bind].
    destruct (IH ({[c]} ∪ acc)) as (s & E & Hs); [intros x Hx; apply Hl; by right|].
    exists s. split; [done|]. intros c'. rewrite Hs, elem_of_union, elem_of_singleton. split.
    - intros [[->|?]|(x & ? & ?)]; [right; exists o; split; [left|done]|by left|right; exists x; split; [by right|done]].
    - intros [?|(x & [->|?]%elem_of_cons & Hx)]; [auto| |right; eauto]. left. left. congruence. }
  intros Hl. destruct (Hgen ∅ Hl) as (s & E & Hs). exists s. split; [done|]. intros c. rewrite Hs. set_solver.
Qed.

Lemma nearest_in config presence rep src origin c : routing_fits config →
  nearest config presence rep src origin = Some c → c ∈ containers.
Proof.
  intros Hf E. apply head_Some_elem_of, list_elem_of_filter in E as [_ H].
  apply list_elem_of_omap in H as (item & _ & H). by eapply getContainer_in.
Qed.

(** The move set of a group: every destination found keeps or gets an object of the
    group, if the group has objects enough that need not stay. *)
Lemma generateMoveSet_spec config g o rest rings :
  routing_fits config → Chains.objectsOf (routing_groups config) g = o :: rest →
  routingRings config !! g = Some rings →
  ∃ (presence : gset Z) src (keep : gset Z) ms,
    let best := omap (nearest config presence o src) rings in
    (∀ c, c ∈ presence ↔ ∃ x, x ∈ o :: rest ∧ place !! x = Some c) ∧
    place !! o = Some src ∧
    (∀ c, c ∈ keep ↔ c ∈ best ∧ c ∈ presence) ∧
    generateMoveSetFor config env p g = Ok ms ∧ candidate ms ∧
    ((size (list_to_set (C := gset Z) (filter (λ c, c ∉ presence) best)) ≤
      length (filter (λ x, at_ x ∉ keep) (o :: rest)))%nat →
     ∀ d, d ∈ best → ∃ x, x ∈ o :: rest ∧
       ((at_ x = d ∧ x ∉ (move_object <$> ms)) ∨ move x (at_ x) d ∈ ms)).
Proof.
  intros Hf Eg Er. pose proof (rf_partition _ Hf) as Hg. unfold generateMoveSetFor. rewrite Eg. cbv iota beta.
  destruct (presence_ok _ g (o :: rest) Hg) as (presence & -> & Hp); [by intros x; rewrite Eg|].
  cbn [mbind result_bind].
  assert (∀ x, x ∈ o :: rest → is_Some (place !! x)) as Hpl.
  { intros x Hx. rewrite <- Eg in Hx. destruct (group_placed _ _ _ Hg Hx) as (c & _ & ->). eauto. }
  destruct (Hpl o) as [src Hsrc]; [left|]. rewrite (containerOf_ok o src Hsrc). cbn [mbind result_bind].
  rewrite Er. cbn [mbind result_bind].
  rewrite (destinations_spec config presence o src rings Hf Hsrc). cbn [mbind result_bind].
  set (best := omap (nearest config presence o src) rings). set (add := list_to_set (C := gset Z) (filter (λ c, c ∉ presence) best)).
  set (keep := list_to_set (C := gset Z) (filter (λ c, c ∈ presence) best)). cbv zeta.
  rewrite routing_moves_spec by done. simpl app.
  exists presence, src, keep, (routing_plan keep (unassignedContainer config) (o :: rest) (set_iter add)).
  assert (∀ c, c ∈ add ↔ c ∈ best ∧ c ∉ presence) as Hadd.
  { intros c. unfold add. rewrite elem_of_list_to_set, list_elem_of_filter. tauto. }
  assert (∀ c, c ∈ keep ↔ c ∈ best ∧ c ∈ presence) as Hkeep.
  { intros c. unfold keep. rewrite elem_of_list_to_set, list_elem_of_filter. tauto. }
  cbv zeta. change (omap _ rings) with best. split_and!; [done..| |].
  - apply routing_plan_ok; [rewrite <- Eg; apply (po_nodup _ Hg)|done| |apply (rf_unassigned _ Hf)].
    intros c [(origin & _ & Hc)%list_elem_of_omap _]%set_iter_elem%Hadd. by eapply nearest_in.
  - intros Hlen d Hd. destruct (decide (d ∈ presence)) as [Hin|Hin].
    + destruct (proj1 (Hp d) Hin) as (x & Hx & Ex). exists x. split; [done|]. left. rewrite Ex. split; [done|].
      apply routing_plan_keeps. rewrite Ex. by apply Hkeep.
    + destruct (routing_plan_adds keep (unassignedContainer config) (o :: rest) (set_iter add) d)
        as (x & Hx & Hm); [by apply set_iter_elem, Hadd|by rewrite set_iter_length|]. eauto.
Qed.

Lemma routing_ok config call hot limit : routing_fits config →
  ∃ r, routing_findBestMove config env ev p call hot limit = Ok r ∧ sound r.
Proof.
  intros Hf. pose proof (rf_partition _ Hf) as Hg. unfold routing_findBestMove. rewrite (rf_scope _ Hf). simpl negb.
  cbv iota.
  set (Q := λ s : gset Z, ∀ g, g ∈ s → ∃ o, Chains.onlyGroup (routing_groups config) o = Ok (Some g)).
  match goal with |- context [foldM ?b ?s0 ?l] =>
    destruct (foldM_total Q b s0 l) as (groups & -> & Hq) end.
  - intros g Hin. set_solver.
  - intros s o Ho Hs. destruct (hot_group _ hot o Hg Ho) as [g Eg]. rewrite Eg. cbn [mbind result_bind].
    eexists. split; [done|]. destruct g as [g|]; [|done].
    intros g' [->%elem_of_singleton|?]%elem_of_union; [eauto|by apply Hs].
  - cbn [mbind result_bind]. apply (MoveTypeUtils.findBest_ok hash p0 ps env f Hu p Hw Hrun); [apply Henv|].
    intros g [o Ho]%set_iter_elem%Hq. pose proof (po_member _ Hg _ _ Ho) as Hin.
    destruct (rf_rings _ Hf _ _ Ho) as [rings Er].
    destruct (Chains.objectsOf (routing_groups config) g) as [|x rest] eqn:E; [by apply not_elem_of_nil in Hin|].
    destruct (generateMoveSet_spec config g x rest rings Hf E Er)
      as (presence & src & keep & ms & _ & _ & _ & -> & Hms & _).
    cbn [mbind result_bind]. by apply (MoveTypeUtils.evaluate_ok hash p0 ps env f Hu p Hw Hrun).
Qed.

(** *** ColocateGroupsMoveType *)
Record colocate_fits (config : ColocateConfig) : Prop := {
  cf_partition : partition_ok (colocate_groups config);
  cf_disjoint g1 g2 o : o ∈ Chains.objectsOf (colocate_groups config) g1 →
    o ∈ Chains.objectsOf (colocate_groups config) g2 → g1 = g2;
  cf_related g info : groupIdToRelatedGroups config !! g = Some info → NoDup (relatedGroups info);
  cf_scope item c : c ∈ scopeContainerIds config item → c ∈ containers;
  cf_containers item m g cs c : colocationScopeItemToGroupToContainers config !! item = Some m →
    m !! g = Some cs → c ∈ cs → c ∈ containers
}.

Lemma representative_ok gs g cs : ∀ l, partition_ok gs → (∀ o, o ∈ l → o ∈ Chains.objectsOf gs g) →
  ∃ r, getRepresentativeObjectFromSourceScopeItem p cs l = Ok r ∧
    ∀ o, r = Some o → o ∈ l ∧ ∃ c, place !! o = Some c ∧ c ∈ cs.
Proof.
  intros l Hg. induction l as [|o l IH]; intros Hl; simpl; [by exists None|].
  destruct (group_placed gs g o Hg (Hl o ltac:(left))) as (c & -> & Hc). cbn [mbind result_bind].
  destruct (bool_decide_reflect (c ∈ cs)) as [Hin|Hin].
  - eexists. split; [done|]. intros ? [= <-]. split; [left|eauto].
  - destruct IH as (r & -> & Hr); [intros x Hx; apply Hl; by right|]. exists r. split; [done|].
    intros x Hx. destruct (Hr x Hx). split; [by right|done].
Qed.

(** One object of each group, from the source or the hot object itself, up to the
    first group that has none. *)
Lemma representatives_ok gs hotGroup hotObject cs : partition_ok gs →
  hotObject ∈ Chains.objectsOf gs hotGroup → ∀ groups,
  ∃ reps, getRepresentativeObjectPerGroup gs p hotGroup hotObject cs groups = Ok reps ∧
    (length reps ≤ length groups)%nat ∧
    Forall2 (λ g o, o ∈ Chains.objectsOf gs g ∧
      (o = hotObject ∨ ∃ c, place !! o = Some c ∧ c ∈ cs)) (take (length reps) groups) reps.
Proof.
  intros Hg Hhot. induction groups as [|g groups IH]; simpl; [by exists []; repeat constructor|].
  assert (∃ r, (if g =? hotGroup then Ok (Some hotObject)
      else getRepresentativeObjectFromSourceScopeItem p cs (Chains.objectsOf gs g)) = Ok r ∧
    ∀ o, r = Some o → o ∈ Chains.objectsOf gs g ∧ (o = hotObject ∨ ∃ c, place !! o = Some c ∧ c ∈ cs))
    as (r & -> & Hr).
  { destruct (Z.eqb_spec g hotGroup) as [->|_].
    - eexists. split; [done|]. intros ? [= <-]. auto.
    - destruct (representative_ok gs g cs (Chains.objectsOf gs g) Hg) as (r & -> & Hr); [done|].
      exists r. split; [done|]. intros o Ho. destruct (Hr o Ho). auto. }
  cbn [mbind result_bind]. destruct r as [o|]; [|exists []; split; [done|]; split; [simpl; lia|constructor]].
  destruct IH as (reps & -> & Hl & Hall). cbn [mbind result_bind]. exists (o :: reps). split; [done|].
  simpl. split; [lia|]. constructor; [by apply Hr|done].
Qed.

Lemma representatives_NoDup (R : Z → Z → Prop) groups reps :
  (∀ g1 g2 o, R g1 o → R g2 o → g1 = g2) → NoDup groups → Forall2 R groups reps → NoDup reps.
Proof.
  intros HR Hnd Hall. revert Hnd. induction Hall as [|g o groups reps H1 Hall IH]; intros Hnd; [constructor|].
  apply NoDup_cons in Hnd as [Hn Hnd]. apply NoDup_cons. split; [|by apply IH].
  intros [i Hi]%list_elem_of_lookup_1. destruct (Forall2_lookup_r _ _ _ _ _ Hall Hi) as (g' & Hg' & H2).
  rewrite (HR _ _ _ H1 H2) in Hn. apply Hn. by eapply list_elem_of_lookup_2.
Qed.

Lemma colocate_moves_ok : ∀ dsts reps,
  NoDup reps → (∀ o, o ∈ reps → is_Some (place !! o)) → (∀ c, c ∈ dsts → c ∈ containers) →
  (length dsts ≤ length reps)%nat →
  ∃ ms, colocate_moves p reps dsts = Ok ms ∧ candidate ms ∧ move_object <$> ms = take (length dsts) reps ∧
    dstContainer <$> ms = dsts.
Proof.
  induction dsts as [|d dsts IH]; intros reps Hnd Hpl Hd Hl; simpl.
  { exists []. split; [by destruct reps|]. split; [apply candidate_nil|]. by rewrite take_0. }
  destruct reps as [|o reps]; [simpl in Hl; lia|]. destruct (Hpl o) as [src Hs]; [left|].
  simpl. rewrite (containerOf_ok o src Hs). cbn [mbind result_bind]. apply NoDup_cons in Hnd as [Hn Hnd].
  destruct (IH reps) as (ms & -> & Hms & Eo & Ed);
    [done|intros x Hx; apply Hpl; by right|intros c Hc; apply Hd; by right|simpl in Hl; lia|].
  cbn [mbind result_bind]. eexists. split; [done|]. split.
  - apply candidate_cons; [done| |done|apply Hd; left]. rewrite Eo. intros Hin. apply Hn.
    eapply elem_of_submseteq; [exact Hin|]. apply sublist_submseteq, sublist_take.
  - rewrite !fmap_cons, Eo, Ed. done.
Qed.

Lemma product_elem (cs : list (list Z)) : ∀ xs,
  xs ∈ MultiCollectionCartesianProduct.product cs → Forall2 (λ x c, x ∈ c) xs cs.
Proof.
  induction cs as [|c cs IH]; intros xs; simpl; [by intros ->%list_elem_of_singleton|].
  intros (x & (ys & -> & Hys)%list_elem_of_fmap & Hx)%list_elem_of_bind. constructor; auto.
Qed.

Lemma moveSets_ok clock limit cs reps :
  NoDup reps → (∀ o, o ∈ reps → is_Some (place !! o)) → Forall (λ c, ∀ x, x ∈ c → x ∈ containers) cs →
  length cs = length reps →
  ∃ l, getMoveSetsToDestinationScopeItem p clock limit cs reps = Ok l ∧ Forall candidate l.
Proof.
  intros Hnd Hpl Hcs Hl. unfold getMoveSetsToDestinationScopeItem.
  rewrite MultiCollectionCartesianProduct.collect_product by lia.
  match goal with |- context [forLoop ?b 0 [] ?l] =>
    destruct (forLoop_total (Forall candidate) b l) with (i := 0%nat) (s := @nil (list Move))
      as (x & r & -> & Hr) end.
  - intros i ms xs Hxs Hms. destruct (_ && _); [eauto|].
    assert (xs ∈ MultiCollectionCartesianProduct.product cs) as Hin%product_elem.
    { destruct cs; [by apply not_elem_of_nil in Hxs|done]. }
    destruct (colocate_moves_ok xs reps Hnd Hpl) as (m & -> & Hm & _).
    + intros c [j Hj]%list_elem_of_lookup_1. destruct (Forall2_lookup_l _ _ _ _ _ Hin Hj) as (c' & Hc' & Hc).
      by apply (Forall_lookup_1 _ _ _ _ Hcs Hc').
    + rewrite (Forall2_length _ _ _ Hin). lia.
    + cbn [mbind result_bind]. do 2 eexists. split; [done|]. apply Forall_app. split; [done|].
      by apply Forall_singleton.
  - constructor.
  - cbn [mbind result_bind]. eauto.
Qed.

Lemma colocate_containers_ok config rng item g o src :
  colocate_fits config → place !! o = Some src →
  ∃ l, colocate_containers config env p rng item g o = Ok l ∧
    ∀ c, c ∈ l → c ∈ containers ∧ c ≠ src ∧ c ∉ not_accepting_containers env.
Proof.
  intros Hf Ho. unfold colocate_containers. set (cs := match _ with Some _ => _ | None => _ end).
  assert (∀ c, c ∈ cs → c ∈ containers) as Hcs.
  { unfold cs. destruct (colocationScopeItemToGroupToContainers config !! item) as [m|] eqn:Em; simpl;
      [|apply (cf_scope _ Hf)]. destruct (m !! g) as [l|] eqn:Eg; [|apply (cf_scope _ Hf)].
    intros c. by apply (cf_containers _ Hf _ _ _ _ _ Em Eg). }
  unfold getValidDestinations. rewrite (containerOf_ok o src Ho). cbn [mbind result_bind].
  match goal with |- context [MoveHelper.filterM ?k ?l] =>
    destruct (MoveHelper.filterM_ok k l) as (r & -> & Hr) end.
  { intros c Hc. destruct (bool_decide _); [eauto|]. destruct (_ =? _); [eauto|].
    destruct (MoveTypeUtils.filter_answers p0 ps env f Hu p Hrun o src c Ho (Hcs c Hc)) as [b ->]. simpl. eauto. }
  cbn [mbind result_bind]. eexists. split; [done|]. intros c Hc.
  assert (c ∈ r) as [Hin Hk]%Hr.
  { destruct (defaultSampleSize config) as [n|]; [|done]. eapply elem_of_submseteq; [exact Hc|].
    apply sublist_submseteq. apply (Sampling.getRandomSample_spec (RG := rng_class rng)). }
  split; [by apply Hcs|]. destruct (bool_decide_reflect (c ∈ not_accepting_containers env)); [done|].
  destruct (Z.eqb_spec c src); [done|]. by split.
Qed.

Lemma perGroup_ok config item rng : colocate_fits config → ∀ (l : list (Z * Z)) acc k,
  (∀ g o, (g, o) ∈ l → is_Some (place !! o)) → Forall (λ c, ∀ x, x ∈ c → x ∈ containers) acc →
  ∃ acc' k', foldM (λ '(acc, k) '(group, object),
      cs ← colocate_containers config env p (rng k) item group object;
      Ok (acc ++ [cs], S k)) (acc, k) l = Ok (acc', k') ∧
    Forall (λ c, ∀ x, x ∈ c → x ∈ containers) acc' ∧ length acc' = (length acc + length l)%nat.
Proof.
  intros Hf. induction l as [|[g o] l IH]; intros acc k Hl Ha; cbn [foldM].
  { exists acc, k. simpl. split_and!; [done|done|lia]. }
  destruct (Hl g o) as [src Hs]; [left|].
  destruct (colocate_containers_ok config (rng k) item g o src Hf Hs) as (cs & -> & Hc).
  cbn [mbind result_bind]. destruct (IH (acc ++ [cs]) (S k)) as (acc' & k' & -> & H1 & H2).
  - intros g' o' Hin. eapply (Hl g'). by right.
  - apply Forall_app. split; [done|]. apply Forall_singleton. intros x Hx. by apply Hc.
  - exists acc', k'. split_and!; [done|done|]. rewrite H2, length_app. simpl. lia.
Qed.

Lemma relatedGroups_ok config info source reps call i limit :
  colocate_fits config → NoDup reps → (∀ o, o ∈ reps → is_Some (place !! o)) →
  length reps = length (relatedGroups info) →
  ∃ l, getMoveSetsForRelatedGroups config env p info source reps call i limit = Ok l ∧ Forall candidate l.
Proof.
  intros Hf Hnd Hpl Hl. unfold getMoveSetsForRelatedGroups.
  match goal with |- context [forLoop ?b 0 [] ?l] =>
    destruct (forLoop_total (Forall candidate) b l) with (i := 0%nat) (s := @nil (list Move))
      as (x & r & -> & Hr) end.
  - intros j ms item _ Hms. destruct (_ <=? _)%D; [eauto|]. destruct (bool_decide _); [eauto|].
    destruct (perGroup_ok config item (colocate_rng config call i j) Hf (zip (relatedGroups info) reps) [] 0%nat)
      as (cs & k & -> & Hcs & Hlen).
    + intros g o (g' & o' & [= -> ->] & _ & Ho)%zip_with_elem. by apply Hpl.
    + constructor.
    + cbn [mbind result_bind].
      destruct (moveSets_ok (λ n, colocate_clock config call i j (S n)) limit cs reps Hnd Hpl Hcs)
        as (l & -> & Hall).
      * rewrite Hlen, length_zip_with. simpl. lia.
      * cbn [mbind result_bind]. do 2 eexists. split; [done|]. by apply Forall_app.
  - constructor.
  - cbn [mbind result_bind]. eauto.
Qed.

Lemma colocate_object_ok config call hot limit i s o :
  colocate_fits config → place !! o = Some hot → sound s.2 →
  ∃ b s', colocate_object config env ev p call hot limit i s o = Ok (b, s') ∧ sound s'.2.
Proof.
  intros Hf Ho Hs. destruct s as [seen best]. simpl in Hs. unfold colocate_object.
  pose proof (cf_partition _ Hf) as Hg. destruct (_ <=? _)%D; [by do 2 eexists|].
  destruct (proj1 (po_groups _ Hg) o) as [g Eg]; [by eapply (MoveTypeUtils.placed_dom p0 p Hrun)|].
  rewrite Eg. cbn [mbind result_bind]. destruct g as [g|]; [|by do 2 eexists].
  destruct (groupIdToRelatedGroups config !! g) as [info|] eqn:Ei; [|by do 2 eexists].
  destruct (bool_decide _); [by do 2 eexists|]. cbv zeta. set (cs := match _ with Some _ => _ | None => _ end).
  pose proof (po_member _ Hg _ _ Eg) as Hin.
  destruct (representatives_ok (colocate_groups config) g o cs Hg Hin (relatedGroups info))
    as (reps & -> & Hl & Hall). cbn [mbind result_bind].
  destruct (Nat.eqb_spec (length reps) (length (relatedGroups info))) as [El|_]; simpl negb; cbv iota;
    [|by do 2 eexists].
  rewrite take_ge in Hall by lia.
  assert (NoDup reps) as Hnd.
  { eapply representatives_NoDup; [|by eapply (cf_related _ Hf)|exact Hall].
    intros g1 g2 x [H1 _] [H2 _]. by eapply (cf_disjoint _ Hf). }
  assert (∀ x, x ∈ reps → is_Some (place !! x)) as Hpl.
  { intros x [j Hj]%list_elem_of_lookup_1. destruct (Forall2_lookup_r _ _ _ _ _ Hall Hj) as (g' & _ & Hx & _).
    destruct (group_placed _ _ _ Hg Hx) as (c & _ & ->). eauto. }
  destruct (relatedGroups_ok config info (scopeItemIdOf config hot) reps call i limit Hf Hnd Hpl El)
    as (l & -> & Hc). cbn [mbind result_bind].
  match goal with |- context [MoveHelper.findBest ?x ?l ?e ?t] =>
    destruct (MoveTypeUtils.findBest_ok hash p0 ps env f Hu p Hw Hrun x l e t) as (r & -> & Hr) end.
  { apply Henv. }
  { intros ms Hms. apply (MoveTypeUtils.evaluate_ok hash p0 ps env f Hu p Hw Hrun).
    by eapply Forall_forall in Hc. }
  cbn [mbind result_bind].
  destruct (MoveTypeUtils.aggregateAndTest_ok hash ps p best r Hs Hr) as (b & best' & -> & Hb').
  cbn [mbind result_bind]. by do 2 eexists.
Qed.

Lemma colocate_ok config call hot limit : colocate_fits config →
  ∃ r, colocate_findBestMove config env ev p call hot limit = Ok r ∧ sound r.
Proof.
  intros Hf. unfold colocate_findBestMove.
  destruct (MoveTypeUtils.deduped_ok p0 ps env f Hu p Hw Hrun hot) as (os & -> & Hos). cbn [mbind result_bind].
  match goal with |- context [forLoop ?b 0 _ ?l] =>
    destruct (forLoop_total (λ s : gset Z * MoveResult.t, sound s.2) b l) with
      (i := 0%nat) (s := (∅ : gset Z, empty)) as (x & [seen best] & -> & Hb) end.
  - intros i s o Ho Hs. apply colocate_object_ok; [done|by apply Hos|done].
  - apply MoveTypeUtils.empty_ok.
  - cbn [mbind result_bind]. eauto.
Qed.
End state.
End sound.
End types.
End GroupMoves.
