(* ===== verification/MoveFactory.v ===== *)
(** * The move types together

    [MoveTypeFactory::createMoveType] (solver/moves/MoveTypeFactory.cpp) for the
    move types of this development, and the contract of the search for all of
    them. *)

From S2P Require Import Prelude Double Precision ObjectiveValue ChangeSet ObjectStore.
From S2P Require Import Assignment EntityAttributes Objective Problem Moves LocalSearch.
From S2P Require Import EquivalenceSets Bits Parallel SingleMove.
From S2P Require Import ParallelExecution ExecutionSelector MoveHelper MoveTypes MoveChains.
From S2P Require Import Sampling Bundles SwapMoves FixedMoves GroupMoves.

Module MoveTypeFactory.
Section factory.
Context `{G : ExpressionGraph} `{HO : HashOrder} {A : Type} `{EA : EntityAttributes A}.
Context `{SE : !SearchEnv A}.
Context (hash : Z → Z → Z → Z).

(** The classes of move types of this development, each with what its constructor
    keeps of its specification and of the solver's, and what it reads from the
    generators of the problem. *)
Inductive MoveTypeClass :=
  | singleMoveTypeSpec
  | swapMoveTypeSpec (config : SwapConfig)
  | tripleLoopMoveTypeSpec
  | klSearchMoveTypeSpec
  | singleRandomObjectStratifiedMoveTypeSpec (getSampledSet : Problem.t A → nat → Z → result (list Z))
  | singleChainMoveTypeSpec (partition : option Chains.Groups) (specialColdContainer : option Z)
  | singleChainFastMoveTypeSpec (partition : option Chains.Groups) (specialColdContainer : option Z)
  | singleFastMoveTypeSpec (minHotObjects : Z)
      (getDestinations : option (Problem.t A → Z → Z → result (list Z)))
  | singleGreedyMoveTypeSpec (descending : Problem.t A → list Z)
  | singleRandomBatchesMoveTypeSpec (batchSize : nat) (shuffled : nat → nat → list Z)
  | swapFullContainersMoveTypeSpec
  | swapFullWithEmptyContainersMoveTypeSpec
  | singleEndChainMoveTypeSpec
  | replicaDropMoveTypeSpec (onlyGroup : Z → result (option Z)) (objectsOf : Z → list Z)
      (outOfScope : list Z)
  | singleRandomStratifiedMoveTypeSpec (minObjectsToExplore : Z)
      (getSampledDestinationsSet : Problem.t A → nat → nat → Z → Z → result (list Z))
  | singleColdestStratified (minHotObjects : Z)
      (stratifiedOrderedSample : Problem.t A → nat → nat → Z → result (list Z))
  | singleFixedSourceMoveTypeSpec (config : FixedSourceConfig)
  | fixedDestMoveTypeSpec (config : FixedDestConfig)
  | greedyGroupToScopeItemMoveTypeSpec (config : GreedyGroupConfig (Problem.t A))
  | groupRoutingMoveTypeSpec (config : RoutingConfig)
  | colocateGroupsMoveTypeSpec (config : ColocateConfig).

(** The cases of [interface::MoveTypeSpec].  For a case of a class above: the object its
    constructor makes, or its exception (a group move without a partition).  The
    next five cases are the classes this development does not model: any move type.
    [moveTypeName] asks for a class by its name. *)
Inductive MoveTypeSpec :=
  | typed (made : result MoveTypeClass)
  | fixedSrcMultiMoveTypeSpec (made : result LocalSearch.MoveType)
  | fixedDestMultiMoveTypeSpec (made : result LocalSearch.MoveType)
  | fixedDestSwapMultiMoveTypeSpec (made : result LocalSearch.MoveType)
  | groupMoveWithHintStrategiesMoveTypeSpec (made : result LocalSearch.MoveType)
  | swapNMoveTypeSpec (made : result LocalSearch.MoveType)
  | moveTypeName (name : string)
  | EMPTY.

(** What the classes that can be asked for by name make of the solver's specification. *)
Record NamedMoveTypes := {
  named_singleRandomStratified : MoveTypeClass;
  named_singleColdestStratified : MoveTypeClass;
  named_fixedDest : MoveTypeClass
}.

Definition find (env : SwapEnv) (spec : MoveTypeClass) (ev : MovesEvaluator.t)
    (p : Problem.t A) (call : nat) (hotContainer : Z) (timeLimit : double) : result MoveResult.t :=
  match spec with
  | singleMoveTypeSpec =>
      Chains.async_findBestMove (SingleMoveType.exploreFromAllSingleMoves hash env ev p hotContainer)
        (SingleMoveType.attemptMoveWithThisObject p) None env p call hotContainer timeLimit
  | swapMoveTypeSpec config =>
      SwapMoveType.findBestMove hash config env ev p call hotContainer timeLimit
  | tripleLoopMoveTypeSpec => Chains.tripleLoop_findBestMove hash env ev p call hotContainer timeLimit
  | klSearchMoveTypeSpec =>
      Chains.destinations_findBestMove (Chains.kl_explore hash env ev p hotContainer) env call
        hotContainer timeLimit
  | singleRandomObjectStratifiedMoveTypeSpec getSampledSet =>
      SingleObject.singleRandomObject_findBestMove hash getSampledSet env ev p call hotContainer timeLimit
  | singleChainMoveTypeSpec partition special =>
      Chains.singleChain_findBestMove hash partition special env ev p call hotContainer timeLimit
  | singleChainFastMoveTypeSpec partition special =>
      Chains.singleChainFast_findBestMove hash partition special env ev p call hotContainer timeLimit
  | singleFastMoveTypeSpec minHotObjects getDestinations =>
      SingleObject.singleFast_findBestMove hash minHotObjects getDestinations env ev p call
        hotContainer timeLimit
  | singleGreedyMoveTypeSpec descending =>
      SingleObject.singleGreedy_findBestMove hash descending env ev p call hotContainer timeLimit
  | singleRandomBatchesMoveTypeSpec batchSize shuffled =>
      SingleObject.singleRandomBatches_findBestMove hash batchSize shuffled env ev p call hotContainer
        timeLimit
  | swapFullContainersMoveTypeSpec =>
      Chains.destinations_findBestMove (Chains.swapFull_explore hash env ev p hotContainer) env call
        hotContainer timeLimit
  | swapFullWithEmptyContainersMoveTypeSpec =>
      Chains.destinations_findBestMove (Chains.swapFullWithEmpty_explore hash env ev p hotContainer)
        env call hotContainer timeLimit
  | singleEndChainMoveTypeSpec =>
      Chains.singleEndChain_findBestMove hash env ev p call hotContainer timeLimit
  | replicaDropMoveTypeSpec onlyGroup objectsOf outOfScope =>
      SingleObject.replicaDrop_findBestMove hash onlyGroup objectsOf outOfScope env ev p call
        hotContainer timeLimit
  | singleRandomStratifiedMoveTypeSpec minObjects getSampled =>
      SingleObject.singleRandomStratified_findBestMove hash minObjects getSampled env ev p call
        hotContainer timeLimit
  | singleColdestStratified minHotObjects sample =>
      SingleObject.singleColdestStratified_findBestMove hash minHotObjects sample env ev p call
        hotContainer timeLimit
  | singleFixedSourceMoveTypeSpec config =>
      FixedMoves.source_findBestMove hash config env ev p call hotContainer timeLimit
  | fixedDestMoveTypeSpec config =>
      FixedMoves.dest_findBestMove hash config env ev p call hotContainer timeLimit
  | greedyGroupToScopeItemMoveTypeSpec config =>
      GroupMoves.greedyGroup_findBestMove hash config env ev p call hotContainer timeLimit
  | groupRoutingMoveTypeSpec config =>
      GroupMoves.routing_findBestMove hash config env ev p call hotContainer timeLimit
  | colocateGroupsMoveTypeSpec config =>
      GroupMoves.colocate_findBestMove hash config env ev p call hotContainer timeLimit
  end.

Definition name (spec : MoveTypeClass) : string :=
  match spec with
  | singleMoveTypeSpec => "SINGLE"
  | swapMoveTypeSpec _ => "SWAP"
  | tripleLoopMoveTypeSpec => "TRIPLE_LOOP"
  | klSearchMoveTypeSpec => "KL_SEARCH"
  | singleRandomObjectStratifiedMoveTypeSpec _ => "SINGLE_RANDOM_OBJECT_STRATIFIED"
  | singleChainMoveTypeSpec _ _ => "SINGLE_CHAIN"
  | singleChainFastMoveTypeSpec _ _ => "SINGLE_CHAIN_FAST"
  | singleFastMoveTypeSpec _ _ => "SINGLE_FAST"
  | singleGreedyMoveTypeSpec _ => "SINGLE_GREEDY"
  | singleRandomBatchesMoveTypeSpec _ _ => "SINGLE_RANDOM_BATCHES"
  | swapFullContainersMoveTypeSpec => "SWAP_FULL_CONTAINERS"
  | swapFullWithEmptyContainersMoveTypeSpec => "SWAP_FULL_WITH_EMPTY_CONTAINERS"
  | singleEndChainMoveTypeSpec => "SINGLE_END_CHAIN"
  | replicaDropMoveTypeSpec _ _ _ => "REPLICA_DROP"
  | singleRandomStratifiedMoveTypeSpec _ _ => "SINGLE_RANDOM_STRATIFIED"
  | singleColdestStratified _ _ => "SINGLE_COLDEST_STRATIFIED"
  | singleFixedSourceMoveTypeSpec _ => "SINGLE_FIXED_SOURCE"
  | fixedDestMoveTypeSpec _ => "SINGLE_FIXED_DEST"
  | greedyGroupToScopeItemMoveTypeSpec _ => "GREEDY_GROUP_TO_SCOPE_ITEM"
  | groupRoutingMoveTypeSpec _ => "GROUP_ROUTING"
  | colocateGroupsMoveTypeSpec _ => "COLOCATE_GROUPS"
  end.

Definition moveType (env : SwapEnv) (spec : MoveTypeClass) : LocalSearch.MoveType := {|
  LocalSearch.name := name spec;
  LocalSearch.findBestMove ev p _ call hot limit := find env spec ev p call hot limit
|}.

(** [createMoveType(name, configs)] *)
Definition createMoveTypeByName (named : NamedMoveTypes) (n : string) : result MoveTypeClass :=
  if String.eqb n "SINGLE_RANDOM_STRATIFIED" then Ok (named_singleRandomStratified named)
  else if String.eqb n "SINGLE_COLDEST_STRATIFIED" then Ok (named_singleColdestStratified named)
  else if String.eqb n "SINGLE_FIXED_DEST" then Ok (named_fixedDest named)
  else Throw (runtime_error "Move type not supported by name").

Definition createMoveType (env : SwapEnv) (named : NamedMoveTypes) (spec : MoveTypeSpec)
    : result LocalSearch.MoveType :=
  match spec with
  | typed made => t ← made; Ok (moveType env t)
  | fixedSrcMultiMoveTypeSpec made | fixedDestMultiMoveTypeSpec made
  | fixedDestSwapMultiMoveTypeSpec made | groupMoveWithHintStrategiesMoveTypeSpec made
  | swapNMoveTypeSpec made => made
  | moveTypeName n => t ← createMoveTypeByName named n; Ok (moveType env t)
  | EMPTY => Throw (runtime_error "Found uninitialized (i.e., empty) MoveTypeSpec")
  end.

(** How candidates are executed in parallel is chosen automatically when the
    specification does not say and the problem asks for it. *)
Definition executionConfig (config : option ParallelExecutionSelector.ParallelExecutionConfig)
    (useAutoParallelExecution : bool) : option ParallelExecutionSelector.ParallelExecutionConfig :=
  match config with
  | None =>
      if useAutoParallelExecution
      then Some (ParallelExecutionSelector.autoExecution
        {| ParallelExecutionSelector.cfg_batchSize := 32;
           ParallelExecutionSelector.cfg_maxConcurrency := 24 |})
      else None
  | Some c => Some c
  end.

(** [environment] is what the configuration makes of the executors. *)
Definition createMoveTypes
    (environment : option ParallelExecutionSelector.ParallelExecutionConfig → SwapEnv)
    (parallelExecutionConfig : option ParallelExecutionSelector.ParallelExecutionConfig)
    (useAutoParallelExecution : bool) (named : NamedMoveTypes) (moveTypeList : list MoveTypeSpec)
    : result (list LocalSearch.MoveType) :=
  let env := environment (executionConfig parallelExecutionConfig useAutoParallelExecution) in
  foldM (λ moves spec, m ← createMoveType env named spec; Ok (moves ++ [m])) [] moveTypeList.

(** ** Specifications that fit a problem *)
Section sound.
Context `{LG : !LawfulGraph G} `{EG : !EvaluableGraph G}.
Context (p0 : Problem.t A) (ps : LocalSearch.Params) (env : SwapEnv) (f : Z → Z).
Abbreviation containers := (LocalSearch.containers ps).
Abbreviation running p := (Problem.wf p ∧ LocalSearch.same_run p0 p).

(** Containers that are to be explored are containers of the problem, sampled
    objects are objects of it, partitions know its objects, and a batch is not
    empty.  Moves with a fixed end read the index of the equivalence sets that the
    search keeps, and move single objects here. *)
Definition class_fits (spec : MoveTypeClass) : Prop :=
  match spec with
  | singleMoveTypeSpec | tripleLoopMoveTypeSpec | klSearchMoveTypeSpec
  | swapFullContainersMoveTypeSpec | swapFullWithEmptyContainersMoveTypeSpec
  | singleEndChainMoveTypeSpec => True
  | swapMoveTypeSpec config =>
      SwapMoveType.swap_usable p0 ps env f config ∧ swapRatioDimension config = None
  | singleRandomObjectStratifiedMoveTypeSpec get => ∀ p n hot, running p →
      ∃ l, get p n hot = Ok l ∧
        ∀ o, o ∈ l → is_Some (Assignment.objectToContainer (Problem.assignment p) !! o)
  | singleChainMoveTypeSpec partition special | singleChainFastMoveTypeSpec partition special =>
      (∀ gs, partition = Some gs → Chains.groups_ok p0 gs) ∧ (∀ c, special = Some c → c ∈ containers)
  | singleFastMoveTypeSpec _ destinations => ∀ get, destinations = Some get → ∀ p o hot, running p →
      ∃ l, get p o hot = Ok l ∧ ∀ c, c ∈ l → c ∈ containers
  | singleGreedyMoveTypeSpec descending => ∀ p c, running p → c ∈ descending p → c ∈ containers
  | singleRandomBatchesMoveTypeSpec batchSize shuffled =>
      (0 < batchSize)%nat ∧ ∀ n i c, c ∈ shuffled n i → c ∈ containers
  | replicaDropMoveTypeSpec onlyGroup objectsOf outOfScope =>
      Chains.groups_ok p0 {| Chains.onlyGroup := onlyGroup; Chains.objectsOf := objectsOf |} ∧
      ∀ c, c ∈ outOfScope → c ∈ containers
  | singleRandomStratifiedMoveTypeSpec _ get => ∀ p n i o hot, running p →
      ∃ l, get p n i o hot = Ok l ∧ ∀ c, c ∈ l → c ∈ containers
  | singleColdestStratified _ get => ∀ p n i hot, running p →
      ∃ l, get p n i hot = Ok l ∧ ∀ c, c ∈ l → c ∈ containers
  | singleFixedSourceMoveTypeSpec config =>
      equivalenceSets env = LocalSearch.equivalenceSets ps ∧ order_ok config ∧
      FixedMoves.source_items config ≠ [] ∧
      ∀ hot, FixedMoves.getBundleOptions (objectBundleFormationHints config) hot = None
  | fixedDestMoveTypeSpec config =>
      equivalenceSets env = LocalSearch.equivalenceSets ps ∧ order_ok config ∧
      (∃ c, dest_specialContainer config = Some c ∧ c ∈ containers) ∧
      ∀ hot, FixedMoves.getBundleOptions (objectBundleFormationHints config) hot = None
  | greedyGroupToScopeItemMoveTypeSpec config => GroupMoves.greedy_fits p0 ps config
  | groupRoutingMoveTypeSpec config => GroupMoves.routing_fits p0 ps config
  | colocateGroupsMoveTypeSpec config => GroupMoves.colocate_fits p0 ps config
  end.

(** A specification the factory accepts: its class fits, or, for a class that is not
    modelled, keeps the contract of the search; a name is one of the three. *)
Definition fits (named : NamedMoveTypes) (spec : MoveTypeSpec) : Prop :=
  match spec with
  | typed made => ∃ t, made = Ok t ∧ class_fits t
  | fixedSrcMultiMoveTypeSpec made | fixedDestMultiMoveTypeSpec made
  | fixedDestSwapMultiMoveTypeSpec made | groupMoveWithHintStrategiesMoveTypeSpec made
  | swapNMoveTypeSpec made => ∃ m, made = Ok m ∧ LocalSearch.sound_move_type hash p0 ps m
  | moveTypeName n => ∃ t, createMoveTypeByName named n = Ok t ∧ class_fits t
  | EMPTY => False
  end.

Context (Hu : MoveHelper.usable p0 ps env f) (Henv : env_ok env).

Lemma find_ok spec p call hot limit :
  class_fits spec → Problem.wf p → LocalSearch.same_run p0 p → LocalSearch.indexed ps p → hot ∈ containers →
  ∃ r, find env spec (LocalSearch.evaluator ps) p call hot limit = Ok r ∧
    MoveHelper.sound_result hash ps p r.
Proof.
  intros Hf Hw Hr Hx Hh. destruct spec; simpl in Hf |- *.
  - apply (Chains.async_ok hash p0 ps env f Hu p Hw Hr); [apply (Chains.containers_ok p0 ps env f Hu)|].
    intros o c Ho Hc Hne. unfold SingleMoveType.exploreFromAllSingleMoves.
    destruct (MoveTypeUtils.filter_answers p0 ps env f Hu p Hr o hot c Ho Hc) as [x ->].
    cbn [mbind result_bind]. destruct x; [exists MoveResult.makeEmpty; split; [done|apply MoveTypeUtils.empty_ok]|].
    apply (MoveTypeUtils.evaluate_ok hash p0 ps env f Hu p Hw Hr). by apply MoveTypeUtils.candidate_one.
  - destruct Hf as [Hf1 Hf2].
    apply (SwapMoveType.swap_ok hash p0 ps env f config Hu Henv Hf1 p Hw Hr); [|done].
    by apply SwapMoveType.ratio_none.
  - by apply (Chains.tripleLoop_ok hash p0 ps env f Hu p Hw Hr).
  - apply (Chains.destinations_ok hash p0 ps env f Hu Henv p Hw Hr). intros c Hc Hne.
    by apply (Chains.kl_ok hash p0 ps env f Hu Henv p Hw Hr).
  - apply (SingleObject.singleRandomObject_ok hash p0 ps env f Hu Henv p Hw Hr); [done|]. by apply Hf.
  - destruct Hf. by apply (Chains.singleChain_ok hash p0 ps env f Hu p Hw Hr).
  - destruct Hf. by apply (Chains.singleChainFast_ok hash p0 ps env f Hu Henv p Hw Hr).
  - apply (SingleObject.exploreObjects_ok hash p0 ps env f Hu Henv p Hw Hr). intros i o Ho.
    destruct getDestinations as [get|]; [by apply (Hf get)|]. eexists. split; [done|].
    apply (Chains.containers_ok p0 ps env f Hu).
  - apply (SingleObject.singleGreedy_ok hash p0 ps env f Hu p Hw Hr). intros c. by apply Hf.
  - destruct Hf as [Hb Hs]. apply (SingleObject.singleRandomBatches_ok hash p0 ps env f Hu Henv p Hw Hr); eauto.
  - apply (Chains.destinations_ok hash p0 ps env f Hu Henv p Hw Hr). intros c Hc Hne.
    by apply (Chains.swapFull_ok hash p0 ps env f Hu Henv p Hw Hr).
  - apply (Chains.destinations_ok hash p0 ps env f Hu Henv p Hw Hr). intros c Hc Hne.
    by apply (Chains.swapFullWithEmpty_ok hash p0 ps env f Hu Henv p Hw Hr).
  - by apply (Chains.singleEndChain_ok hash p0 ps env f Hu p Hw Hr).
  - destruct Hf as [[Hg1 Hg2] Hc]. simpl in Hg1, Hg2.
    apply (SingleObject.replicaDrop_ok hash p0 ps env f Hu Henv p Hw Hr); [| |done].
    + intros o Ho. apply Hg1. by eapply (MoveTypeUtils.placed_dom p0 p Hr).
    + intros g o Ho%Hg2. destruct Hr as [_ D]. rewrite <- D in Ho. by apply elem_of_dom in Ho.
  - apply (SingleObject.exploreObjects_ok hash p0 ps env f Hu Henv p Hw Hr). intros i o Ho. by apply Hf.
  - apply (SingleObject.exploreObjects_ok hash p0 ps env f Hu Henv p Hw Hr). intros i o Ho. by apply Hf.
  - destruct Hf as (He & Ho & Hne & Hn).
    apply (FixedMoves.source_ok hash p0 ps env f Hu Henv He p Hw Hr Hx); [done..|].
    intros o c cs E. by rewrite Hn in E.
  - destruct Hf as (He & Ho & (c & Hc & Hin) & Hn).
    apply (FixedMoves.dest_ok hash p0 ps env f Hu Henv He p Hw Hr Hx config c); [done..|].
    intros o E. by rewrite Hn in E.
  - by apply (GroupMoves.greedyGroup_ok hash p0 ps env f Hu Henv p Hw Hr).
  - by apply (GroupMoves.routing_ok hash p0 ps env f Hu Henv p Hw Hr).
  - by apply (GroupMoves.colocate_ok hash p0 ps env f Hu Henv p Hw Hr).
Qed.

Lemma moveType_sound t : class_fits t → LocalSearch.sound_move_type hash p0 ps (moveType env t).
Proof. intros Ht. apply SingleObject.promise. intros. by apply find_ok. Qed.

Lemma createMoveType_sound named spec : fits named spec →
  ∃ m, createMoveType env named spec = Ok m ∧ LocalSearch.sound_move_type hash p0 ps m.
Proof.
  intros Hf. destruct spec; simpl in *; [|done..| |done]; destruct Hf as (t & -> & Ht);
    (eexists; split; [done|by apply moveType_sound]).
Qed.

Lemma created_sound environment config auto named specs :
  environment (executionConfig config auto) = env → Forall (fits named) specs →
  ∃ moves, createMoveTypes environment config auto named specs = Ok moves ∧
    Forall (LocalSearch.sound_move_type hash p0 ps) moves.
Proof.
  intros E Hf. unfold createMoveTypes. rewrite E. cbn zeta.
  assert (∀ l, Forall (LocalSearch.sound_move_type hash p0 ps) l →
    ∃ moves, foldM (λ moves spec, m ← createMoveType env named spec; Ok (moves ++ [m])) l specs = Ok moves ∧
      Forall (LocalSearch.sound_move_type hash p0 ps) moves) as H; [|by apply H].
  induction Hf as [|spec specs Hs _ IH]; intros l Hl.
  - by exists l.
  - simpl. destruct (createMoveType_sound named spec Hs) as (m & -> & Hm). cbn [mbind result_bind].
    apply IH. apply Forall_app. split; [done|by constructor].
Qed.
End sound.
End factory.
End MoveTypeFactory.
