(* ===== verification/Example.v ===== *)
(** * A small instance

    A concrete graph for the interfaces of the search: the expression of a
    container is the number of its objects, up to two.  It serves to run the
    definitions of the development on a concrete problem, two objects in one
    container with a second, empty container beside it. *)

From S2P Require Import Prelude Double Precision ObjectiveValue ChangeSet ObjectStore.
From S2P Require Import Assignment EntityAttributes Objective Problem Moves LocalSearch.
From S2P Require Import Bits SingleMove.

Module Example.

#[export] Existing Instance canonical_order.

Definition level (m : gmap Z Z) (c : Z) : double :=
  match size (filter (λ p, p.2 = c) m) with O => d0 | S O => d1 | _ => d2 end.

Definition predicted (m : gmap Z Z) (cs : ChangeSet.t) : gmap Z Z :=
  foldl (λ m c, if value c =? 1 then <[object c := container c]> m else m) m (ChangeSet.changes cs).

#[export] Instance counting : ExpressionGraph := {|
  Graph := gmap Z Z;
  expr_value g e := level g e;
  expr_evaluate g cs e := Ok (level (predicted g cs) e);
  graph_apply _ _ a := Ok (Assignment.objectToContainer a)
|}.

Lemma level_fin m c : fin (level m c).
Proof. unfold level. destruct (size _) as [|[|n]]; reflexivity. Qed.

#[export] Program Instance counting_lawful : LawfulGraph counting := {|
  denote e m := level m e;
  graph_inv g m := g = m
|}.
Next Obligation. by intros g m e ->. Qed.
Next Obligation. intros g m ms a _ _ _ _ E. by exists (Assignment.objectToContainer a). Qed.

#[export] Program Instance counting_evaluable : EvaluableGraph counting.
Next Obligation. intros. by eexists. Qed.

(** The containers are visited in a fixed order; the time stands still. *)
#[export] Program Instance env : SearchEnv OneObjectPerGroup.t := {|
  clock _ := d0;
  boundsClock _ := d0;
  Traversal := list bool;
  traversal_start _ _ := [false; true];
  traversal_get l _ := (λ b : bool, if b then 1 else 0) <$> head l;
  traversal_next l _ := tail l;
  traversal_size l := length l;
  next_seed s := s + 1;
  lowerBound _ _ _ := d0;
  Hints := unit;
  hints_update _ _ _ h := h;
  hints_reset _ _ h := h
|}.
Next Obligation. by intros [|b l] p c; simpl; [|lia]. Qed.

Definition hash (o src dst : Z) : Z := o * 100 + src * 10 + dst.

Definition start : Assignment.t := Assignment.make [(0, [0; 1]); (1, [])] None ∅ false.

(** Minimize the load of container 0; the load of container 1 must not exceed its
    capacity, as far as the expressions can tell. *)
Definition p0 : Problem.t OneObjectPerGroup.t :=
  Problem.mk [0] [] [7] [] [] start ∅ (Assignment.objectToContainer start) ∅ false true
    {| trackContainers := false; trackObjects := false;
       showAllChangedObjectivesInMovesSummary := false |} defaultTolerances.

Definition evaluator : MovesEvaluator.t :=
  MovesEvaluator.mk 0 1 (MovesEvaluator.mkDoNotWorsen [] ∅)
    (LocalSearchObjective.mk [0] false) None.

(** Every object is an equivalence set of its own. *)
Definition es : EquivalenceSetsView := {| es_getKey := "default"; es_at o := Ok o |}.

(** Two threads that finish in reverse order. *)
Definition single_env : SingleMoveEnv := {|
  all_containers := [0; 1];
  not_accepting_containers := ∅;
  invalidMoveFilter := Some (InvalidMoveFilter.make 2 2);
  equivalence o := Ok o;
  numThreads := Some 2%nat;
  schedule _ b := reverse (seq 0 b);
  elapsed _ _ _ := d0
|}.

Definition ps : LocalSearch.Params := {|
  LocalSearch.allowedMoves := [SingleMoveType.single hash single_env es];
  LocalSearch.evaluator := evaluator;
  LocalSearch.userObjective := [0];
  LocalSearch.containers := {[0; 1]};
  LocalSearch.fixedContainers := ∅;
  LocalSearch.storedEquivalenceSets := es;
  LocalSearch.customEquivalenceSets := None;
  LocalSearch.solveTime := d100;
  LocalSearch.timePerMove := None;
  LocalSearch.stopAfterMoves := None;
  LocalSearch.allowedPlateauTime := None;
  LocalSearch.minCycleObjectiveImprovement := None;
  LocalSearch.enableConstrainedBoundsOptimization := false;
  LocalSearch.constrainedBoundsCheckMs := 0;
  LocalSearch.enableObjectPotentialSorting := false;
  LocalSearch.recomputeContainerOrderingAfterEveryMove := true;
  LocalSearch.exploreMovesFromContainersNotInObjective := false
|}.

Definition s0 : LocalSearch.t :=
  LocalSearch.mk p0
    (LocalSearch.mkSolveState 0 0 GlobalObjectiveValue.empty tt ∅ ∅ ∅ None 0)
    (LocalSearch.mkProgress 0 0 UNABLE_TO_FIND_MORE_MOVES None d0 [] 0 0).

(** ** The instance meets the assumptions of the theorems *)

Lemma start_inv : Assignment.inv start.
Proof.
  apply (Assignment.make_inv [(0, [0; 1]); (1, [])] None ∅ false);
    [by apply (bool_decide_unpack _); vm_compute..|done].
Qed.

Lemma p0_wf : Problem.wf p0.
Proof. split; [apply start_inv|done]. Qed.

Lemma filter_ok : InvalidMoveFilter.inv (InvalidMoveFilter.make 2 2).
Proof. split; [done| |]; [intros i r|intros _ i r]; by destruct i as [|[|[|i]]]. Qed.

Lemma usable : SingleMoveType.usable p0 ps single_env id.
Proof.
  split.
  - intros c Hc. simpl in *. set_solver.
  - done.
  - intros flt Hf. simpl in Hf. injection Hf as <-. split; [apply filter_ok|]. intros o c Ho Hc.
    assert (dom (Assignment.objectToContainer (Problem.assignment p0)) = {[0; 1]}) as E
      by (by apply (bool_decide_unpack _); vm_compute).
    rewrite E in Ho. simpl in Hc. unfold InvalidMoveFilter.in_range. simpl.
    assert (o = 0 ∨ o = 1) by set_solver. assert (c = 0 ∨ c = 1) by set_solver. lia.
  - intros m [= <-]. lia.
  - intros call b. apply reverse_Permutation.
  - done.
  - intros e m _. apply level_fin.
  - intros e v g m mv _ _ _ [= <-]. apply level_fin.
Qed.

Lemma sane : LocalSearch.sane hash p0 ps.
Proof.
  split.
  - constructor; [|constructor]. apply (SingleMoveType.single_sound hash p0 ps single_env id es usable).
  - intros it p c. simpl. destruct it as [|b it]; [done|]. intros [= <-]. destruct b; set_solver.
  - done.
  - done.
  - intros e m _. apply level_fin.
Qed.

Lemma initial : LocalSearch.inv_at p0 ps LocalSearch.Start s0.
Proof.
  split; [|by exists id]. split; [apply p0_wf| |by split|done].
  unfold Problem.within. by apply (bool_decide_unpack _); vm_compute.
Qed.
End Example.
