(* ===== verification/MoveExample.v ===== *)
(** * An instance with all move types

    The problem of [Example] searched with a mix of the move types, on two
    threads, with batches and windows in turn. *)

From S2P Require Import Prelude Double Precision ObjectiveValue ChangeSet ObjectStore.
From S2P Require Import Assignment EntityAttributes Objective Problem Moves LocalSearch.
From S2P Require Import EquivalenceSets Bits Parallel SingleMove.
From S2P Require Import ParallelExecution ExecutionSelector MoveHelper MoveTypes MoveChains.
From S2P Require Import Sampling Bundles SwapMoves FixedMoves GroupMoves MoveFactory Example.

Module MoveExample.
Import Example.

(** A generator that counts. *)
#[export] Program Instance counting_rng : Rng nat := {|
  uniform r n := (Nat.modulo r n, S r);
  shuffle r l := (reverse l, S r)
|}.
Next Obligation. intros r n Hn. simpl. apply Nat.mod_upper_bound. lia. Qed.
Next Obligation. intros r l. simpl. apply reverse_Permutation. Qed.

(** Two threads; the strategies and the scheduler's picks vary with the loop. *)
Definition executor_at (call i j : nat) : Executor := {|
  x_numThreads := 2;
  x_strategy := if Nat.even i then ParallelExecutionSelector.Batching
                else ParallelExecutionSelector.SlidingWindow;
  x_options := {| ParallelExecutionSelector.batchSize := 1;
                  ParallelExecutionSelector.maxConcurrency := None |};
  x_choice n := (n + j)%nat;
  x_seconds _ := d0;
  x_add _ := None
|}.

Definition move_env : SwapEnv := {|
  swap_base := {| base := single_env; timer _ _ _ := d0; executor := executor_at |};
  equivalenceSets := es;
  enableKToOneSwaps := true;
  sampled _ _ := true
|}.

Definition swap_config : SwapConfig := {|
  withinGroups := None;
  greedyOnSrc := true;
  greedyOnDst := false;
  customColdContainers := None;
  swapRatioDimension := None
|}.

Definition seeded : SeededRng := {| rng_state := nat; rng_class := counting_rng; rng_seed := 0%nat |}.

Definition fixed_config : FixedConfig := {|
  sampleSize := Some 5;
  objectBundleFormationHints := None;
  bundleRng := seeded;
  draw _ _ _ _ := true;
  pairOrder := elements
|}.

Definition source_config : FixedSourceConfig := {|
  source_base := fixed_config;
  source_specialContainer := None;
  source_scopeItems := Some [[0]; [1; 0]];
  stopEarlyAtScopeItemThatImprovesObjective := true
|}.

Definition dest_config : FixedDestConfig := {|
  dest_base := fixed_config; dest_specialContainer := Some 1
|}.

(** Each object is a group of its own. *)
Definition own_groups : Chains.Groups := {|
  Chains.onlyGroup o := Ok (if decide (o ∈ [0; 1]) then Some o else None);
  Chains.objectsOf g := if decide (g ∈ [0; 1]) then [g] else []
|}.

Definition greedy_config : GreedyGroupConfig (Problem.t OneObjectPerGroup.t) := {|
  greedy_groups := own_groups;
  nSampleSetsToExplore := 2;
  getDestinations _ _ _ := Ok [[0]; [1]];
  pruningConstraints := [];
  shuffles cs n := if Nat.even n then cs else reverse cs
|}.

(** The traffic of both groups is nearest to container 1. *)
Definition routing_config : RoutingConfig := {|
  scopeIsContainerScope := true;
  routing_groups := own_groups;
  routingRings := {[0 := [7]; 1 := [7]]};
  latencyTable := {[7 := [1; 0]]};
  routing_containersOf item := if decide (item ∈ [0; 1]) then [item] else [];
  unassignedContainer := None
|}.

(** Two scope items, one for each container; the two objects move together. *)
Definition colocate_config : ColocateConfig := {|
  colocate_groups := own_groups;
  scopeItemIdOf c := Some c;
  scopeContainerIds := routing_containersOf routing_config;
  scopeItemIds := [0; 1];
  groupIdToRelatedGroups := GroupMoves.relatedGroupsMap
    [{| relatedGroups := [0; 1]; destinationScopeItemIds := None |}];
  colocationScopeItemToGroupToContainers := ∅;
  defaultSampleSize := Some 1%nat;
  colocate_rng _ _ _ _ := seeded;
  colocate_clock _ _ _ _ := d0
|}.

Definition specs : list (MoveTypeFactory.MoveTypeSpec (A := OneObjectPerGroup.t)) := [
  MoveTypeFactory.typed (Ok (MoveTypeFactory.singleChainMoveTypeSpec None None));
  MoveTypeFactory.typed (Ok (MoveTypeFactory.swapMoveTypeSpec swap_config));
  MoveTypeFactory.typed (Ok MoveTypeFactory.tripleLoopMoveTypeSpec);
  MoveTypeFactory.typed (Ok MoveTypeFactory.swapFullWithEmptyContainersMoveTypeSpec);
  MoveTypeFactory.typed (Ok (MoveTypeFactory.singleFastMoveTypeSpec 1 None));
  MoveTypeFactory.typed (Ok (MoveTypeFactory.singleRandomBatchesMoveTypeSpec 1 (λ _ _, [1; 0])));
  MoveTypeFactory.typed (Ok MoveTypeFactory.klSearchMoveTypeSpec);
  MoveTypeFactory.typed (Ok (MoveTypeFactory.singleFixedSourceMoveTypeSpec source_config));
  MoveTypeFactory.typed (Ok (MoveTypeFactory.fixedDestMoveTypeSpec dest_config));
  MoveTypeFactory.typed (Ok (MoveTypeFactory.greedyGroupToScopeItemMoveTypeSpec greedy_config));
  MoveTypeFactory.typed (Ok (MoveTypeFactory.groupRoutingMoveTypeSpec routing_config));
  MoveTypeFactory.typed (Ok (MoveTypeFactory.colocateGroupsMoveTypeSpec colocate_config));
  MoveTypeFactory.moveTypeName "SINGLE_FIXED_DEST"
].

(** Asked for by name, the classes take their specification from the solver's. *)
Definition named : MoveTypeFactory.NamedMoveTypes (A := OneObjectPerGroup.t) := {|
  MoveTypeFactory.named_singleRandomStratified :=
    MoveTypeFactory.singleRandomStratifiedMoveTypeSpec 1 (λ _ _ _ _ _, Ok [0; 1]);
  MoveTypeFactory.named_singleColdestStratified :=
    MoveTypeFactory.singleColdestStratified 1 (λ _ _ _ _, Ok [0; 1]);
  MoveTypeFactory.named_fixedDest := MoveTypeFactory.fixedDestMoveTypeSpec dest_config
|}.

Definition allowed : list LocalSearch.MoveType :=
  match MoveTypeFactory.createMoveTypes hash (λ _, move_env) None true named specs with
  | Ok moves => moves
  | Throw _ => []
  end.

Definition ps_moves : LocalSearch.Params := {|
  LocalSearch.allowedMoves := allowed;
  LocalSearch.evaluator := evaluator;
  LocalSearch.userObjective := [0];
  LocalSearch.containers := {[0; 1]};
  LocalSearch.fixedContainers := ∅;
  LocalSearch.storedEquivalenceSets := es;
  LocalSearch.customEquivalenceSets := None;
  LocalSearch.solveTime := d100;
  LocalSearch.timePerMove := None;
  LocalSearch.stopAfterMoves := None;
  LocalSearch.allowedPlateauTime := None;
  LocalSearch.minCycleObjectiveImprovement := None;
  LocalSearch.enableConstrainedBoundsOptimization := false;
  LocalSearch.constrainedBoundsCheckMs := 0;
  LocalSearch.enableObjectPotentialSorting := false;
  LocalSearch.recomputeContainerOrderingAfterEveryMove := true;
  LocalSearch.exploreMovesFromContainersNotInObjective := false
|}.

Lemma move_env_ok : env_ok move_env.
Proof. intros call i j. split; [split; [done|by intros m [=]]|done]. Qed.

Lemma move_usable : MoveHelper.usable p0 ps_moves move_env id.
Proof.
  destruct usable as [U1 U2 U3 U4 U5 U6 U7 U8].
  split; [|exact U2|exact U3|exact U4|exact U5|exact U6|exact U7|].
  - intros c. simpl. set_solver.
  - intros e v g m ms _ _ _ _ [= <-]. apply level_fin.
Qed.

Lemma own_objects g o : o ∈ Chains.objectsOf own_groups g → o = g ∧ (g = 0 ∨ g = 1).
Proof.
  simpl. case_decide as H; [|by intros []%not_elem_of_nil]. intros ->%list_elem_of_singleton. set_solver.
Qed.

Lemma own_domain g o : o ∈ Chains.objectsOf own_groups g →
  o ∈ dom (Assignment.objectToContainer (Problem.assignment p0)).
Proof. intros [-> [->| ->]]%own_objects; by apply (bool_decide_unpack _); vm_compute. Qed.

Lemma own_nodup g : NoDup (Chains.objectsOf own_groups g).
Proof. simpl. case_decide; [apply NoDup_singleton|apply NoDup_nil_2]. Qed.

Lemma own_partition : GroupMoves.partition_ok p0 own_groups.
Proof.
  split; [split|apply own_nodup|].
  - simpl. eauto.
  - intros g o. apply own_domain.
  - intros o g. simpl. case_decide as H; [|done]. intros [= <-]. rewrite decide_True by done. left.
Qed.

Lemma greedy_fit : GroupMoves.greedy_fits p0 ps_moves greedy_config.
Proof.
  split; [apply own_partition| |].
  - intros q hot o _ _. eexists. split; [done|]. change (LocalSearch.containers ps_moves) with ({[0; 1]} : gset Z).
    intros cs c [->| ->%list_elem_of_singleton]%elem_of_cons ->%list_elem_of_singleton; set_solver.
  - intros cs n. simpl. destruct (Nat.even n); [done|]. apply reverse_Permutation.
Qed.

Lemma item_containers item c : c ∈ routing_containersOf routing_config item →
  c ∈ LocalSearch.containers ps_moves.
Proof.
  simpl. case_decide as H; [|by intros []%not_elem_of_nil]. intros ->%list_elem_of_singleton.
  change (LocalSearch.containers ps_moves) with ({[0; 1]} : gset Z). set_solver.
Qed.

Lemma routing_fit : GroupMoves.routing_fits p0 ps_moves routing_config.
Proof.
  split; [done|apply own_partition| |apply item_containers|done].
  intros o g E. cbn [Chains.onlyGroup routing_groups routing_config own_groups] in E.
  destruct (decide (o ∈ [0; 1])) as [H|]; [|done]. injection E as <-.
  apply elem_of_cons in H as [->|H]; [by eexists|].
  apply list_elem_of_singleton in H as ->. by eexists.
Qed.

Lemma colocate_fit : GroupMoves.colocate_fits p0 ps_moves colocate_config.
Proof.
  split; [apply own_partition| | |apply item_containers|].
  - intros g1 g2 o [-> _]%own_objects [-> _]%own_objects. done.
  - intros g info H. unfold groupIdToRelatedGroups, colocate_config in H.
    rewrite GroupMoves.relatedGroupsMap_spec, filter_cons in H. case_decide; [|done]. injection H as <-.
    apply (bool_decide_unpack _). by vm_compute.
  - intros item m g cs c H. cbn in H. by rewrite lookup_empty in H.
Qed.

Lemma dest_fit : MoveTypeFactory.class_fits p0 ps_moves move_env id
  (MoveTypeFactory.fixedDestMoveTypeSpec dest_config).
Proof.
  split; [done|]. split; [by intros s|]. split; [|done]. exists 1. split; [done|].
  change (LocalSearch.containers ps_moves) with ({[0; 1]} : gset Z). set_solver.
Qed.

Lemma specs_fit : Forall (MoveTypeFactory.fits hash p0 ps_moves move_env id named) specs.
Proof.
  repeat apply Forall_cons_2; try apply Forall_nil_2; eexists; (split; [reflexivity|]).
  - done.
  - repeat constructor; done.
  - done.
  - done.
  - done.
  - split; [lia|]. intros n i c Hc. change (LocalSearch.containers ps_moves) with ({[0; 1]} : gset Z). set_solver.
  - done.
  - split; [done|]. split; [by intros s|]. done.
  - apply dest_fit.
  - apply greedy_fit.
  - apply routing_fit.
  - apply colocate_fit.
  - apply dest_fit.
Qed.

(** Three containers; object 1 was moved to container 1 before and must not move
    again. *)
Definition chain_env : MoveTypeEnv := {|
  base := {|
    all_containers := [0; 1; 2];
    not_accepting_containers := ∅;
    invalidMoveFilter := None;
    equivalence o := Ok o;
    numThreads := Some 2%nat;
    schedule _ b := seq 0 b;
    elapsed _ _ _ := d0
  |};
  timer _ _ _ := d0;
  executor := executor_at
|}.

Definition once_start : Assignment.t := Assignment.make [(0, [0]); (1, [1]); (2, [])] None ∅ false.

Definition once_problem : Problem.t OneObjectPerGroup.t :=
  Problem.mk [0] [] [] [] [] once_start {[1]} (Assignment.objectToContainer once_start) ∅ true true
    {| trackContainers := false; trackObjects := false;
       showAllChangedObjectivesInMovesSummary := false |} defaultTolerances.
End MoveExample.
