(* ===== verification/GraphExample.v ===== *)
(** * A concrete graph

    Two objects in container 0, as in [Example], with the graph a problem would have for
    them: the variables of both objects in container 0, whether one of them is there, the
    larger of the two, and the load of container 0 from the values of the objects. *)

From S2P Require Import Prelude Double Precision Exact ChangeSet Assignment AccessOrderedSet Queues AssociativeFixedMap Bits CompressedIdMap ObjectValues Affected Lookup Orchestrator OrchestratorLeaves OrchestratorApply OrchestratorEvaluate Expressions ExpressionValues ExpressionGraphs ObjectiveValue Objective EntityAttributes Problem Moves LocalSearch SingleMove Example.

Open Scope Z_scope.

Module GraphExample.
Import Example.

Definition tol : PrecisionTolerances := defaultTolerances.
Definition pow (x y : double) : double := x.
Definition log (x : double) : double := x.
#[export] Instance ops : ExpressionOps := Expressions.ops tol pow log.
#[export] Instance laws : ExpressionLaws := ExpressionValues.expression_laws tol pow log.

Definition get (r : result Expressions.t) : Expressions.t :=
  match r with
  | Ok x => x
  | Throw _ => Expressions.construct ∅ None (Expressions.Any ∅) d0
  end.

Definition weights : gmap Z double := {[0 := d1; 1 := d1]}.

Definition dimension : ObjectValues.t :=
  match CompressedIdMap.fromMap deq weights d0 2 with
  | Ok c => ObjectValues.ObjectBacked c
  | Throw _ => ObjectValues.GroupBacked ∅ (Partition.make ∅) 0 d0 0
  end.

Definition vector : ObjectVector.t :=
  match ObjectVector.make tol dimension with
  | Ok v => v
  | Throw _ => ObjectVector.mk dimension d0 0 d0 d0 false false
  end.

(** The graph, one expression after the other. *)
Definition in0 (o : Z) : Expressions.t := get (Expressions.makeVariable start o 0).
Definition g1 : gmap Z Expressions.t := <[0 := in0 0]> ∅.
Definition g2 : gmap Z Expressions.t := <[1 := in0 1]> g1.
Definition g3 := <[2 := get (Expressions.makeAnyPositive tol (ExpressionGraphs.initial g2) [0; 1])]> g2.
Definition g4 := <[3 := get (Expressions.makeVector tol dimension)]> g3.
Definition g5 := <[4 := get (Expressions.makeLookup start 3 vector (Some {[0]}))]> g4.
Definition g6 := <[5 := get (Expressions.makeMax (ExpressionGraphs.initial g5) [0; 1])]> g5.
Definition g0 := <[6 := get (Expressions.makeTransform tol pow log (ExpressionGraphs.initial g6) Transform.Step 4)]> g6.

Definition nodes : list Z := [6; 5; 4; 3; 2; 1; 0].
Definition rs : list Z := [2; 5; 6].
Definition data : AffectedByChangeDecisionData := mkDecisionData 2 2.

Definition objects : gset Z := dom (Assignment.objectToContainer start).

Lemma vector_fits : ExpressionGraphs.vector_fits vector objects.
Proof.
  destruct (CompressedIdMap.fromMap_models deq weights d0 2) as (c & E & Hc & Ht & Hd); [done| |].
  { intros k v. unfold weights. intros [[<- <-]|[_ Hk]]%lookup_insert_Some; [lia|].
    apply lookup_singleton_Some in Hk as [<- <-]. lia. }
  set (em := filter (λ e, (e.2 =? d0)%D = false) weights) in *.
  assert (em = weights) as Eem by (by apply (bool_decide_unpack _); vm_compute).
  pose proof (ObjectValues.object_backed_models c em Hc) as Hm.
  destruct (ObjectVector.make_ok tol (ObjectValues.ObjectBacked c) em Hm) as (v & Ev & Hok & Eov).
  { simpl. rewrite Ht, Eem. done. }
  assert (vector = v) as ->.
  { unfold vector, dimension. by rewrite E, Ev. }
  exists em. split; [done|].
  assert (ObjectVector.totalObjects v = 2) as Etot.
  { rewrite (ObjectVector.ok_total _ _ Hok), Eov. simpl. by rewrite Ht. }
  assert (objects = {[0; 1]}) as -> by (by apply (bool_decide_unpack _); vm_compute).
  assert (ObjectVector.defaultValue v = d0) as Ed.
  { rewrite (ObjectVector.ok_default _ _ Hok), Eov. simpl. by rewrite Hd. }
  assert (∀ o, o ∈ ({[0; 1]} : gset Z) → o = 0 ∨ o = 1) as Ho.
  { intros o. by rewrite elem_of_union, !elem_of_singleton. }
  split; [intros o [-> | ->]%Ho; lia|]. rewrite Ed, Eem. split.
  - exists 1074. split; [by split|]. split; [|by vm_compute].
    apply Forall_forall. intros x (o & -> & [-> | ->]%elem_of_elements%Ho)%list_elem_of_fmap; (split; [done|]); exists 1; by vm_compute.
  - intros _ o w. unfold weights. intros [[<- <-]|[_ Hk]]%lookup_insert_Some; [split; [set_solver|done]|].
    apply lookup_singleton_Some in Hk as [<- <-]. split; [set_solver|done].
Qed.

Lemma graph_built : ExpressionGraphs.built tol pow log start nodes g0.
Proof.
  repeat first [apply ExpressionGraphs.built_empty
    | apply ExpressionGraphs.built_insert; [|by vm_compute|]].
  - apply (ExpressionGraphs.made_variable _ _ _ _ _ 0 0). by vm_compute.
  - apply (ExpressionGraphs.made_variable _ _ _ _ _ 1 0). by vm_compute.
  - apply (ExpressionGraphs.made_any _ _ _ _ _ [0; 1]). by vm_compute.
  - apply (ExpressionGraphs.made_vector _ _ _ _ _ dimension). by vm_compute.
  - apply (ExpressionGraphs.made_lookup _ _ _ _ _ 3 (get (Expressions.makeVector tol dimension)) vector (Some {[0]}));
      [by vm_compute|by vm_compute|apply vector_fits|by vm_compute].
  - apply (ExpressionGraphs.made_max _ _ _ _ _ [0; 1]). by vm_compute.
  - apply (ExpressionGraphs.made_transform _ _ _ _ _ Transform.Step 4). by vm_compute.
Qed.

(** The expression of the load, by its body. *)
Definition lookup_of (x : Expressions.t) : option ObjectLookup.t :=
  match Expressions.body x with Expressions.Lookup l => Some l | _ => None end.

Lemma load_tame : ExpressionGraphs.tame objects (get (Expressions.makeLookup start 3 vector (Some {[0]}))).
Proof.
  set (x := get _). assert (∃ l, Expressions.body x = Expressions.Lookup l ∧ ObjectLookup.object_vector l = vector)
    as (l & El & Ev).
  { unfold x. vm_compute. eexists. by split. }
  unfold ExpressionGraphs.tame. rewrite El. 
  destruct (ExpressionGraphs.vector_fits_apply vector objects vector_fits) as (f & Hf & _). exists f. by apply Hf.
Qed.

Lemma graph_tame e x : g0 !! e = Some x → ExpressionGraphs.tame objects x.
Proof.
  assert (∀ (g : gmap Z Expressions.t) k y, (∀ e x, g !! e = Some x → ExpressionGraphs.tame objects x) →
    ExpressionGraphs.tame objects y → ∀ e x, <[k := y]> g !! e = Some x → ExpressionGraphs.tame objects x) as Hins.
  { intros g k y Hg Hy e' x' [[_ <-]|[_ Hx]]%lookup_insert_Some; [done|by apply (Hg e')]. }
  revert e x. refine (Hins g6 6 _ _ _); [|vm_compute; exact I].
  refine (Hins g5 5 _ _ _); [|apply (bool_decide_unpack _); vm_compute; exact I].
  refine (Hins g4 4 _ _ load_tame). refine (Hins g3 3 _ _ _); [|vm_compute; exact I].
  refine (Hins g2 2 _ _ _); [|vm_compute; exact I]. refine (Hins g1 1 _ _ _); [|vm_compute; exact I].
  refine (Hins ∅ 0 _ _ _); [|vm_compute; exact I]. intros e x Hx. by rewrite lookup_empty in Hx.
Qed.

Lemma graph_canonical m : dom m = objects → ExpressionGraphs.canonical tol pow log nodes g0 m.
Proof. intros Hm. apply ExpressionGraphs.tame_canonical. rewrite Hm. apply graph_tame. Qed.

(** ** The orchestrator *)

Definition initialized : result (Orchestrator.t * gmap Z Expressions.t) :=
  Orchestrator.init (length nodes) rs data ∅ g0.

Definition orch : Orchestrator.t :=
  match initialized with
  | Ok (o, _) => o
  | Throw _ => Orchestrator.mk [] (Orchestrator.mkOrder [] ∅ 0) ∅ (Orchestrator.mkIndex [] [] [] [] [])
  end.

Definition graph : gmap Z Expressions.t := match initialized with Ok (_, g) => g | Throw _ => ∅ end.

Lemma roots_known root : root ∈ rs → root ∈ nodes.
Proof. unfold rs, nodes. set_solver. Qed.

Lemma orchestrated : OrchestratedGraph.ready orch g0 data objects ∧
  OrchestratedGraph.in_step_with orch g0 objects graph (Assignment.objectToContainer start).
Proof.
  destruct (ExpressionGraphs.built_ready tol pow log start start_inv nodes g0 data ∅ rs graph_built)
    as (o & g & E & _ & Hr & Hs & _).
  - apply roots_known.
  - apply graph_canonical.
  - assert (initialized = Ok (o, g)) as Ei by exact E.
    assert (orch = o) as -> by (unfold orch; rewrite Ei; reflexivity).
    assert (graph = g) as -> by (unfold graph; rewrite Ei; reflexivity).
    exact (conj Hr Hs).
Qed.

(** ** The problem and the search *)

#[export] Instance search_graph : ExpressionGraph := OrchestratedGraph.orchestrated orch.
#[export] Instance search_lawful : LawfulGraph search_graph :=
  OrchestratedGraph.lawful orch g0 data objects (proj1 orchestrated).
#[export] Instance search_evaluable : EvaluableGraph search_graph :=
  OrchestratedGraph.evaluable orch g0 data objects (proj1 orchestrated).

(** The containers are visited in a fixed order; the time stands still. *)
#[export] Program Instance search_env : SearchEnv (G := search_graph) OneObjectPerGroup.t := {|
  clock _ := d0;
  boundsClock _ := d0;
  Traversal := list bool;
  traversal_start _ _ := [false; true];
  traversal_get l _ := (λ b : bool, if b then 1 else 0) <$> head l;
  traversal_next l _ := tail l;
  traversal_size l := length l;
  next_seed s := s + 1;
  lowerBound _ _ _ := d0;
  Hints := unit;
  hints_update _ _ _ h := h;
  hints_reset _ _ h := h
|}.
Next Obligation. by intros [|b l] p c; simpl; [|lia]. Qed.

(** Minimize the two variables in turn; node 6, the load, is the objective of the user. *)
Definition p0 : Problem.t (G := search_graph) OneObjectPerGroup.t :=
  Problem.mk [6] [] [] [] [] start ∅ graph ∅ false true
    {| trackContainers := false; trackObjects := false;
       showAllChangedObjectivesInMovesSummary := false |} defaultTolerances.

Definition evaluator : MovesEvaluator.t :=
  MovesEvaluator.mk 0 1 (MovesEvaluator.mkDoNotWorsen [] ∅)
    (LocalSearchObjective.mk [0; 1] false) None.

Definition ps : LocalSearch.Params (SE := search_env) := {|
  LocalSearch.allowedMoves := [SingleMoveType.single (G := search_graph) hash single_env es];
  LocalSearch.evaluator := evaluator;
  LocalSearch.userObjective := [6];
  LocalSearch.containers := {[0; 1]};
  LocalSearch.fixedContainers := ∅;
  LocalSearch.storedEquivalenceSets := es;
  LocalSearch.customEquivalenceSets := None;
  LocalSearch.solveTime := d100;
  LocalSearch.timePerMove := None;
  LocalSearch.stopAfterMoves := None;
  LocalSearch.allowedPlateauTime := None;
  LocalSearch.minCycleObjectiveImprovement := None;
  LocalSearch.enableConstrainedBoundsOptimization := false;
  LocalSearch.constrainedBoundsCheckMs := 0;
  LocalSearch.enableObjectPotentialSorting := false;
  LocalSearch.recomputeContainerOrderingAfterEveryMove := true;
  LocalSearch.exploreMovesFromContainersNotInObjective := false
|}.

Definition s0 : LocalSearch.t :=
  LocalSearch.mk p0
    (LocalSearch.mkSolveState 0 0 GlobalObjectiveValue.empty tt ∅ ∅ ∅ None 0)
    (LocalSearch.mkProgress 0 0 UNABLE_TO_FIND_MORE_MOVES None d0 [] 0 0).

Lemma graph_p0_wf : Problem.wf p0.
Proof. split; [apply start_inv|apply orchestrated]. Qed.

(** A candidate changes a variable by one at most. *)
Lemma variable_new e v g m mv :
  e ∈ [0; 1] → graph_inv g m → m !! move_object mv = Some (srcContainer mv) →
  expr_evaluate g (MoveSet_getChangeSet [mv]) e = Ok v → fin v.
Proof.
  intros He Hg Hmv Ev.
  destruct (OrchestratedGraph.evaluates_moves (H1 := laws) orch g0 data objects (proj1 orchestrated) g m [mv] e Hg)
    as (w & Ew & Hw); [apply NoDup_singleton|by intros ? ->%list_elem_of_singleton|].
  assert (w = v) as ->.
  { change (expr_evaluate g (MoveSet_getChangeSet [mv]) e = Ok w) in Ew. rewrite Ev in Ew. by injection Ew. }
  destruct Hw as [->|(x & ev & _ & (y & Hy & Hs) & Hc & Ex)];
    [apply (OrchestratedGraph.value_at_fin (H1 := laws) orch g0 data objects (proj1 orchestrated))|].
  assert (∃ ve, Expressions.body y = Expressions.Var ve) as [ve Hb].
  { apply elem_of_cons in He as [->| ->%list_elem_of_singleton]; injection Hy as <-; by eexists. }
  clear Hy. apply (ExpressionValues.var_evaluate_fin tol pow log x ve m _ ev mv v Hc); [|exact Ex].
  apply (ExpressionValues.alike_var y x ve Hs Hb).
Qed.

Lemma graph_usable (Hr : OrchestratedGraph.ready (H1 := laws) orch g0 data objects) :
  SingleMoveType.usable (LG := OrchestratedGraph.lawful (H1 := laws) orch g0 data objects Hr) p0 ps single_env id.
Proof.
  split.
  - intros c Hc. simpl in *. set_solver.
  - done.
  - intros flt Hf. simpl in Hf. injection Hf as <-. split; [apply filter_ok|]. intros o c Ho Hc.
    assert (dom (Assignment.objectToContainer start) = {[0; 1]}) as E
      by (by apply (bool_decide_unpack _); vm_compute).
    change (o ∈ dom (Assignment.objectToContainer start)) in Ho. rewrite E in Ho.
    unfold InvalidMoveFilter.in_range. simpl in *. clear E.
    assert (o = 0 ∨ o = 1) by set_solver. assert (c = 0 ∨ c = 1) by set_solver. lia.
  - intros m [= <-]. lia.
  - intros call b. apply reverse_Permutation.
  - done.
  - intros e m _. apply (OrchestratedGraph.value_at_fin (H1 := laws) orch g0 data objects (proj1 orchestrated)).
  - apply variable_new.
Qed.

Lemma within : Problem.within (LocalSearch.containers ps) p0.
Proof. unfold Problem.within. apply (bool_decide_unpack _). vm_compute. exact I. Qed.

Lemma traversal_known it (q : Problem.t (G := search_graph) OneObjectPerGroup.t) c :
  traversal_get it q = Some c → c ∈ LocalSearch.containers ps.
Proof. simpl. destruct it as [|b it]; [done|]. intros [= <-]. destruct b; set_solver. Qed.

End GraphExample.
