(* ===== verification/Entities.v ===== *)
(** * Entities: identifiers and their serialization

    The classes of the universe of a problem (entities/) are converted to and from a
    serialized form.  An identifier is a 32-bit unsigned integer,
    serialized as a 32-bit signed one.  Every class has a [toThrift] and a
    constructor from the serialized form, here [fromThrift]; the interface
    [RoundTrip] states that the second undoes the first up to a relation, and is
    lifted to maps.  [Containers] is the first such class. *)

From S2P Require Import Prelude ChangeSet.

(** ** Identifiers *)
Module EntityId.
Definition modulus : Z := 2 ^ 32.

Definition valid (id : Z) : Prop := 0 ≤ id < modulus.
#[export] Instance valid_dec id : Decision (valid id).
Proof. unfold valid. apply _. Defined.

(** [EntityId(int)]: the conversion to [std::uint32_t]. *)
Definition ofInt (i : Z) : Z := i mod modulus.

(** [asInt]: the conversion to [int]. *)
Definition asInt (id : Z) : Z := if id <? 2 ^ 31 then id else id - modulus.

Lemma ofInt_asInt id : valid id → ofInt (asInt id) = id.
Proof.
  unfold valid, ofInt, asInt, modulus. intros H. destruct (Z.ltb_spec id (2 ^ 31)).
  - by apply Z.mod_small.
  - symmetry. apply Z.mod_unique with (-1); lia.
Qed.

Lemma asInt_small id : 0 ≤ id < 2 ^ 31 → asInt id = id.
Proof. intros H. unfold asInt. by rewrite (proj2 (Z.ltb_lt _ _)) by lia. Qed.

Definition asIntsVec (ids : list Z) : list Z := asInt <$> ids.
Definition ofIntsVec (ids : list Z) : list Z := ofInt <$> ids.

Lemma ofIntsVec_asIntsVec ids : Forall valid ids → ofIntsVec (asIntsVec ids) = ids.
Proof.
  intros H. unfold ofIntsVec, asIntsVec. rewrite <- list_fmap_compose. rewrite <- (list_fmap_id ids) at 2.
  apply list_fmap_ext. intros i id Hi. simpl. apply ofInt_asInt. rewrite Forall_forall in H. apply H.
  by eapply list_elem_of_lookup_2.
Qed.
End EntityId.
Import EntityId.

(** ** Loops that fill a hash map

    [emplace] keeps the entry that is there. *)
Section emplace.
Context `{Countable K} {V : Type}.

Definition emplace (m : gmap K V) (k : K) (v : V) : gmap K V :=
  match m !! k with Some _ => m | None => <[k := v]> m end.

Definition emplaceAll (m : gmap K V) (l : list (K * V)) : gmap K V :=
  foldl (λ m '(k, v), emplace m k v) m l.

Lemma emplaceAll_union l m : emplaceAll m l = m ∪ list_to_map l.
Proof.
  revert m. induction l as [|[k v] l IH]; intros m; simpl; [by rewrite (right_id_L ∅ (∪))|].
  unfold emplaceAll in *. simpl. rewrite IH. apply map_eq. intros i. unfold emplace.
  destruct (m !! k) as [w|] eqn:E; rewrite !lookup_union; destruct (decide (i = k)) as [->|Hne];
    rewrite ?lookup_insert_eq, ?lookup_insert_ne, ?E by done;
    first [done|by destruct (list_to_map l !! k)|by destruct (m !! i), (list_to_map l !! i)].
Qed.

Lemma emplaceAll_empty l : emplaceAll ∅ l = list_to_map l.
Proof. rewrite emplaceAll_union. by rewrite (left_id_L ∅ (∪)). Qed.
End emplace.

(** A loop that fills one map from another. *)
Section transform.
Context `{HashOrder} {V W : Type}.

Lemma hash_iter_elem (m : gmap Z V) k v : (k, v) ∈ hash_iter m ↔ m !! k = Some v.
Proof. by rewrite hash_iter_perm, elem_of_map_to_list. Qed.

Lemma hash_iter_NoDup (m : gmap Z V) : NoDup (hash_iter m).*1.
Proof. rewrite hash_iter_perm. apply NoDup_fst_map_to_list. Qed.

Definition transformMap (f : Z → Z) (g : V → W) (m : gmap Z V) : gmap Z W :=
  emplaceAll ∅ ((λ '(k, v), (f k, g v)) <$> hash_iter m).

Lemma fmap_fst_transform (f : Z → Z) (g : V → W) (l : list (Z * V)) :
  ((λ '(k, v), (f k, g v)) <$> l).*1 = f <$> l.*1.
Proof. rewrite <- !list_fmap_compose. apply list_fmap_ext. by intros i [k v]. Qed.

(** The values may fail to convert. *)
Definition transformMapM (f : Z → Z) (g : V → result W) (m : gmap Z V) : result (gmap Z W) :=
  foldM (λ acc '(k, v), w ← g v; Ok (emplace acc (f k) w)) ∅ (hash_iter m).

Lemma emplace_loop (f : Z → Z) (g : V → result W) (l : list (Z * V)) : ∀ acc,
  (∀ k v, (k, v) ∈ l → ∃ w, g v = Ok w) →
  ∃ l', Forall2 (λ e e', e'.1 = f e.1 ∧ g e.2 = Ok e'.2) l l' ∧
    foldM (λ acc '(k, v), w ← g v; Ok (emplace acc (f k) w)) acc l = Ok (emplaceAll acc l').
Proof.
  induction l as [|[k v] l IH]; intros acc Hl; [by exists []|].
  destruct (Hl k v) as [w E]; [left|]. destruct (IH (emplace acc (f k) w)) as (l' & Hf & E').
  { intros k' v' Hin. apply (Hl k' v'). by right. }
  exists ((f k, w) :: l'). split; [by constructor|]. cbn [foldM]. rewrite E. exact E'.
Qed.

Lemma transformMapM_spec (f : Z → Z) g m :
  (∀ k v, m !! k = Some v → ∃ w, g v = Ok w) →
  (∀ k1 k2, k1 ∈ dom m → k2 ∈ dom m → f k1 = f k2 → k1 = k2) →
  ∃ m', transformMapM f g m = Ok m' ∧
    ∀ i w, m' !! i = Some w ↔ ∃ k v, m !! k = Some v ∧ i = f k ∧ g v = Ok w.
Proof.
  intros Hg Hinj. destruct (emplace_loop f g (hash_iter m) ∅) as (l' & Hf & E).
  { intros k v ?%hash_iter_elem. by eapply Hg. }
  exists (emplaceAll ∅ l'). split; [exact E|]. intros i w. rewrite emplaceAll_empty.
  rewrite <- elem_of_list_to_map.
  - split.
    + intros [n Hn]%list_elem_of_lookup. destruct (Forall2_lookup_r _ _ _ _ _ Hf Hn) as ([k v] & Hk & Hi & Hw).
      simpl in Hi, Hw. subst i. exists k, v. split; [|done]. apply hash_iter_elem. by eapply list_elem_of_lookup_2.
    + intros (k & v & Hk & -> & Hw). apply hash_iter_elem, list_elem_of_lookup in Hk as [n Hn].
      destruct (Forall2_lookup_l _ _ _ _ _ Hf Hn) as ([i' w'] & Hk & Hi & Hw'). simpl in *.
      replace (f k, w) with (i', w') by congruence. by eapply list_elem_of_lookup_2.
  - assert (l'.*1 = f <$> (hash_iter m).*1) as ->.
    { clear E. induction Hf as [|[k v] [i' w'] l l' [E _] _ IH]; [done|].
      rewrite !fmap_cons, IH. simpl in *. by rewrite E. }
    apply NoDup_fmap_2_strong; [|apply hash_iter_NoDup].
    intros k1 k2 ([? v1] & -> & H1%hash_iter_elem)%list_elem_of_fmap
      ([? v2] & -> & H2%hash_iter_elem)%list_elem_of_fmap. simpl in *.
    apply Hinj; by apply elem_of_dom_2 in H1, H2.
Qed.
End transform.

(** ** The interface of a serializable class *)
Class RoundTrip {A T : Type} (wf : A → Prop) (same : A → A → Prop) (toThrift : A → T)
    (fromThrift : T → result A) : Prop :=
  roundTrip a : wf a → ∃ a', fromThrift (toThrift a) = Ok a' ∧ same a' a.

(** A map with identifiers as keys is serializable if its values are. *)
Definition map_wf {A} (wf : A → Prop) (m : gmap Z A) : Prop :=
  ∀ k a, m !! k = Some a → valid k ∧ wf a.

#[export] Instance map_wf_dec {A} (wf : A → Prop) `{∀ a, Decision (wf a)} m : Decision (map_wf wf m).
Proof. apply (map_Forall_dec (λ k a, valid k ∧ wf a)). Defined.

Definition map_same {A} (same : A → A → Prop) (m1 m2 : gmap Z A) : Prop :=
  ∀ k, option_Forall2 same (m1 !! k) (m2 !! k).

Lemma map_wf_dom {V} (P : V → Prop) (m : gmap Z V) : map_wf P m → ∀ k, k ∈ dom m → valid k.
Proof. intros Hm k [v Hk]%elem_of_dom. by eapply Hm. Qed.

Lemma map_same_eq {A} (m1 m2 : gmap Z A) : map_same eq m1 m2 → m1 = m2.
Proof. intros Hs. apply map_eq. intros k. by destruct (Hs k) as [? ? ->|]. Qed.

(** Conversions that cannot fail. *)
Lemma transformMapM_pure `{HashOrder} {V W} (f : Z → Z) (g : V → W) m :
  transformMapM f (λ v, Ok (g v)) m = Ok (transformMap f g m).
Proof.
  unfold transformMapM, transformMap, emplaceAll. generalize (∅ : gmap Z W).
  induction (hash_iter m) as [|[k v] l IH]; intros acc; [done|]. apply IH.
Qed.

(** With conversions that may fail in both directions. *)
Lemma map_roundTripM `{HashOrder} {A T} (wf : A → Prop) (same : A → A → Prop)
    (toThrift : A → result T) (fromThrift : T → result A) (m : gmap Z A) :
  (∀ a, wf a → ∃ t a', toThrift a = Ok t ∧ fromThrift t = Ok a' ∧ same a' a) → map_wf wf m →
  ∃ ts m', transformMapM asInt toThrift m = Ok ts ∧ transformMapM ofInt fromThrift ts = Ok m' ∧
    map_same same m' m.
Proof.
  intros RT Hm. destruct (transformMapM_spec asInt toThrift m) as (ts & E & Hto).
  { intros k a [_ Ha]%Hm. destruct (RT a Ha) as (t & _ & Et & _). eauto. }
  { intros k1 k2 H1 H2 E. rewrite <- (ofInt_asInt k1), <- (ofInt_asInt k2), E by (by eapply map_wf_dom). done. }
  destruct (transformMapM_spec ofInt fromThrift ts) as (m' & E' & Hm').
  { intros i t (k & a & Hk & _ & Et)%Hto. destruct (RT a) as (t' & a' & Et' & Ea & _); [by eapply Hm|].
    exists a'. congruence. }
  { intros i1 i2 [t1 (k1 & a1 & H1 & -> & _)%Hto]%elem_of_dom [t2 (k2 & a2 & H2 & -> & _)%Hto]%elem_of_dom.
    rewrite !ofInt_asInt by (by eapply Hm). congruence. }
  exists ts, m'. split; [done|]. split; [done|]. intros k. destruct (m !! k) as [a|] eqn:Ek.
  - destruct (RT a) as (t & a' & Et & Ea & Hs); [by eapply Hm|].
    rewrite (proj2 (Hm' k a')); [by constructor|]. exists (asInt k), t.
    rewrite ofInt_asInt by (by eapply Hm). split; [|done]. apply Hto. eauto.
  - destruct (m' !! k) as [a'|] eqn:Ea'; [|constructor].
    apply Hm' in Ea' as (i & t & (k' & a & Hk' & -> & _)%Hto & -> & _).
    rewrite ofInt_asInt in Ek by (by eapply Hm). congruence.
Qed.

(** The list of what the loop over the serialized map reads. *)
Lemma map_entriesM `{HashOrder} {A T B} (to : A → result T) (from : T → result B) (m : gmap Z A) :
  (∀ k a, m !! k = Some a → valid k ∧ ∃ t b, to a = Ok t ∧ from t = Ok b) →
  ∃ ts l, transformMapM asInt to m = Ok ts ∧
    Forall2 (λ e e', e'.1 = ofInt e.1 ∧ from e.2 = Ok e'.2) (hash_iter ts) l ∧
    ∀ i b, (i, b) ∈ l ↔ ∃ a t, m !! i = Some a ∧ to a = Ok t ∧ from t = Ok b.
Proof.
  intros Hm. destruct (transformMapM_spec asInt to m) as (ts & E & Hto).
  { intros k a (_ & t & b & Et & _)%Hm. eauto. }
  { intros k1 k2 [a1 [H1 _]%Hm]%elem_of_dom [a2 [H2 _]%Hm]%elem_of_dom Ek.
    by rewrite <- (ofInt_asInt k1), <- (ofInt_asInt k2), Ek. }
  destruct (emplace_loop ofInt from (hash_iter ts) ∅) as (l & Hf & _).
  { intros j t (k & a & Hk & _ & Et)%hash_iter_elem%Hto. apply Hm in Hk as (_ & t' & b & Et' & Eb).
    exists b. congruence. }
  exists ts, l. split; [done|]. split; [done|]. intros i b. split.
  - intros [n Hn]%list_elem_of_lookup. destruct (Forall2_lookup_r _ _ _ _ _ Hf Hn) as ([j t] & Hj & Hi & Hb).
    simpl in Hi, Hb. apply list_elem_of_lookup_2, hash_iter_elem, Hto in Hj as (k & a & Hk & -> & Et).
    rewrite ofInt_asInt in Hi by (by eapply Hm). subst. eauto.
  - intros (a & t & Hi & Et & Eb).
    assert ((asInt i, t) ∈ hash_iter ts) as [n Hn]%list_elem_of_lookup by (apply hash_iter_elem, Hto; eauto).
    destruct (Forall2_lookup_l _ _ _ _ _ Hf Hn) as ([i' b'] & Hl & Hi' & Hb'). simpl in *.
    rewrite ofInt_asInt in Hi' by (by eapply Hm). replace (i, b) with (i', b') by congruence.
    by eapply list_elem_of_lookup_2.
Qed.

#[export] Instance map_roundTrip `{HashOrder} {A T} (wf : A → Prop) (same : A → A → Prop)
    (toThrift : A → T) (fromThrift : T → result A) :
  RoundTrip wf same toThrift fromThrift →
  RoundTrip (map_wf wf) (map_same same) (transformMap asInt toThrift) (transformMapM ofInt fromThrift).
Proof.
  intros RT m Hm.
  destruct (map_roundTripM wf same (λ a, Ok (toThrift a)) fromThrift m) as (ts & m' & E & E' & Hs); [|done|].
  - intros a Ha. destruct (RT a Ha) as (a' & ? & ?). eauto.
  - rewrite transformMapM_pure in E. injection E as <-. eauto.
Qed.

Lemma transformMap_roundTrip `{HashOrder} {A T} (wf : A → Prop) (to : A → T) (from : T → A) m :
  (∀ a, wf a → from (to a) = a) → map_wf wf m →
  transformMap ofInt from (transformMap asInt to m) = m.
Proof.
  intros Hr Hm.
  destruct (map_roundTrip wf eq to (λ t, Ok (from t))) with (a := m) as (m' & E & Hs); [|done|].
  - intros a Ha. eexists. split; [done|]. by apply Hr.
  - rewrite transformMapM_pure in E. injection E as ->. by apply map_same_eq.
Qed.

(** The entries of a converted map, in the order of the new map. *)
Lemma transform_iter `{HashOrder} {A T} (to : A → T) (m : gmap Z A) :
  (∀ k, k ∈ dom m → valid k) →
  hash_iter (transformMap asInt to m) ≡ₚ (λ '(k, a), (asInt k, to a)) <$> hash_iter m.
Proof.
  intros Hm. rewrite hash_iter_perm. unfold transformMap. rewrite emplaceAll_empty. apply map_to_list_to_map.
  rewrite fmap_fst_transform. apply NoDup_fmap_2_strong; [|apply hash_iter_NoDup].
  intros ? ? ([k1 v1] & -> & H1%hash_iter_elem)%list_elem_of_fmap
    ([k2 v2] & -> & H2%hash_iter_elem)%list_elem_of_fmap E. simpl in *.
  apply elem_of_dom_2 in H1, H2. rewrite <- (ofInt_asInt k1), <- (ofInt_asInt k2), E by auto. done.
Qed.

(** Filling a map from the entries of another in any order. *)
Lemma transform_any_order `{HashOrder} {V} (m : gmap Z V) l : (∀ k, k ∈ dom m → valid k) →
  l ≡ₚ map_to_list m → emplaceAll ∅ ((λ '(k, v), (asInt k, v)) <$> l) = transformMap asInt id m.
Proof.
  intros Hv Hl. unfold transformMap. rewrite !emplaceAll_empty.
  apply list_to_map_proper; [|by rewrite Hl, hash_iter_perm].
  rewrite (fmap_fst_transform asInt id), Hl, <- hash_iter_perm.
  apply NoDup_fmap_2_strong; [|apply hash_iter_NoDup].
  intros ? ? ([k1 v1] & -> & H1%hash_iter_elem)%list_elem_of_fmap
    ([k2 v2] & -> & H2%hash_iter_elem)%list_elem_of_fmap E. simpl in *. apply elem_of_dom_2 in H1, H2.
  rewrite <- (ofInt_asInt k1), <- (ofInt_asInt k2), E by auto. done.
Qed.

(** The loop of a constructor over the entries of a serialized map sees the entries of
    the original, in some order. *)
Lemma loop_iter `{HashOrder} {A T B} (to : A → T) (from : T → B) (h : A → B) (m : gmap Z A) :
  (∀ k a, m !! k = Some a → valid k ∧ from (to a) = h a) →
  (λ '(i, t), (ofInt i, from t)) <$> hash_iter (transformMap asInt to m) ≡ₚ
  (λ '(k, a), (k, h a)) <$> hash_iter m.
Proof.
  intros Hm. rewrite transform_iter by (intros k [a Hk]%elem_of_dom; by eapply Hm).
  rewrite <- list_fmap_compose. erewrite list_fmap_ext; [done|]. intros i [k a] Hi. simpl.
  apply list_elem_of_lookup_2, hash_iter_elem, Hm in Hi as [Hv ->]. by rewrite ofInt_asInt.
Qed.

Lemma loop_entries `{HashOrder} {V} (m : gmap Z V) : (∀ k, k ∈ dom m → valid k) →
  (λ '(i, v), (ofInt i, v)) <$> hash_iter (transformMap asInt id m) ≡ₚ map_to_list m.
Proof.
  intros Hm. rewrite (loop_iter id id id).
  - erewrite list_fmap_ext; [rewrite list_fmap_id; apply hash_iter_perm|]. by intros i [].
  - intros k v Hk. split; [|done]. apply Hm. by eapply elem_of_dom_2.
Qed.

Lemma foldM_fmap {X Y S} (f : X → Y) (body : S → Y → result S) l : ∀ s,
  foldM body s (f <$> l) = foldM (λ s x, body s (f x)) s l.
Proof. induction l as [|x l IH]; intros s; simpl; [done|]. destruct (body s (f x)); simpl; auto. Qed.

Lemma foldM_ext {X S} (f g : S → X → result S) l : (∀ s x, x ∈ l → f s x = g s x) →
  ∀ s, foldM f s l = foldM g s l.
Proof.
  induction l as [|x l IH]; intros Hl s; simpl; [done|]. rewrite Hl by left.
  destruct (g s x); simpl; [|done]. apply IH. intros. apply Hl. by right.
Qed.

(** ** Containers *)
Module Containers.
Section containers.
Context `{HashOrder}.

Record t := mk { initialAssignment : gmap Z (list Z) }.
Record thrift := mkThrift { thrift_initialAssignment : gmap Z (list Z) }.

Definition getInitialObjectIds (c : t) (containerId : Z) : result (list Z) :=
  at_ (initialAssignment c !! containerId).

Definition getContainerIds (c : t) : list Z := (hash_iter (initialAssignment c)).*1.

Definition toThrift (c : t) : thrift :=
  mkThrift (transformMap asInt asIntsVec (initialAssignment c)).

Definition fromThrift (c : thrift) : t :=
  mk (transformMap ofInt ofIntsVec (thrift_initialAssignment c)).

Definition wf (c : t) : Prop := map_wf (Forall valid) (initialAssignment c).

Lemma containers_roundTrip c : wf c → fromThrift (toThrift c) = c.
Proof.
  intros Hc. destruct c as [m]. unfold fromThrift, toThrift. simpl. f_equal.
  by apply (transformMap_roundTrip (Forall valid)); [apply ofIntsVec_asIntsVec|].
Qed.
End containers.
End Containers.
