(* ===== verification/Scopes.v ===== *)
(** * Scopes

    entities/ScopeDimension.cpp, Scope.cpp and Scopes.cpp: disjoint sets of containers
    with a value for every set in every dimension. *)

From S2P Require Import Prelude Double ChangeSet Entities.
Import EntityId.

(** ** ScopeDimension *)
Module ScopeDimension.
Section dimension.
Context `{HashOrder}.

Record t := mk { values : gmap Z double; defaultValue : double }.
Record thrift := mkThrift { thrift_values : gmap Z double; thrift_defaultValue : double }.

Definition getValue (d : t) (scopeItemId : Z) : double :=
  default (defaultValue d) (values d !! scopeItemId).

Definition toThrift (d : t) : thrift := mkThrift (transformMap asInt id (values d)) (defaultValue d).

Definition fromThrift (d : thrift) : t :=
  mk (transformMap ofInt id (thrift_values d)) (thrift_defaultValue d).

Definition wf (d : t) : Prop := map_wf (λ _, True) (values d).

Lemma scopeDimension_roundTrip d : wf d → fromThrift (toThrift d) = d.
Proof.
  intros Hd. destruct d as [m v]. unfold fromThrift, toThrift. simpl. f_equal.
  by apply (transformMap_roundTrip (λ _, True)).
Qed.
End dimension.
End ScopeDimension.

(** ** Scope: disjoint sets of containers *)
Module Scope.
Section scope.
Context `{HashOrder}.

Record t := mk {
  scopeItems : gmap Z (gset Z);
  containerIdToScopeItemId : gmap Z Z;
  scopeItemIds : list Z;
  dimensions : gmap Z ScopeDimension.t
}.

Record thrift := mkThrift {
  thrift_scopeItems : gmap Z (list Z);
  thrift_dimensions : gmap Z ScopeDimension.thrift
}.

Definition overlap : exn := runtime_error "containerId appears as part of more than one scope item".

(** The inner loop of both constructors. *)
Definition addContainers (index : gmap Z Z) (scopeItemId : Z) (containerIds : list Z) : result (gmap Z Z) :=
  foldM (λ index containerId,
    match index !! containerId with
    | Some _ => Throw overlap
    | None => Ok (<[containerId := scopeItemId]> index)
    end) index containerIds.

(** The body of the outer loop. *)
Definition addItem (s : gmap Z (gset Z) * gmap Z Z * list Z) (scopeItemId : Z) (containerIds : list Z)
    (set : gset Z) : result (gmap Z (gset Z) * gmap Z Z * list Z) :=
  let '(items, index, ids) := s in
  index ← addContainers index scopeItemId containerIds;
  Ok (emplace items scopeItemId set, index, ids ++ [scopeItemId]).

Definition make (scopeItemIdToContainerIds : gmap Z (gset Z)) (dimensions : gmap Z ScopeDimension.t)
    : result t :=
  '(items, index, ids) ← foldM (λ s '(scopeItemId, containerIds),
      addItem s scopeItemId (set_iter containerIds) containerIds) (∅, ∅, [])
    (hash_iter scopeItemIdToContainerIds);
  Ok (mk items index ids dimensions).

Definition fromThrift (scope : thrift) : result t :=
  '(items, index, ids) ← foldM (λ s '(scopeItemIdInt, containers),
      addItem s (ofInt scopeItemIdInt) (ofIntsVec containers) (list_to_set (ofIntsVec containers)))
      (∅, ∅, []) (hash_iter (thrift_scopeItems scope));
  Ok (mk items index ids (transformMap ofInt ScopeDimension.fromThrift (thrift_dimensions scope))).

Definition toThrift (scope : t) : thrift :=
  mkThrift (transformMap asInt (λ cs, asIntsVec (set_iter cs)) (scopeItems scope))
    (transformMap asInt ScopeDimension.toThrift (dimensions scope)).

Definition getScopeItemId (scope : t) (containerId : Z) : option Z :=
  containerIdToScopeItemId scope !! containerId.

Definition getContainerIds (scope : t) (scopeItemId : Z) : result (gset Z) :=
  at_ (scopeItems scope !! scopeItemId).

Definition defaultDimension : ScopeDimension.t := ScopeDimension.mk ∅ d1.

Definition getDimension (scope : t) (dimensionId : Z) : ScopeDimension.t :=
  default defaultDimension (dimensions scope !! dimensionId).

(** *** What the constructors build: a container with the item it is in *)
Definition memberships (l : list (Z * list Z)) : list (Z * Z) :=
  l ≫= λ '(item, cs), (λ c, (c, item)) <$> cs.

Lemma scope_addContainers_spec item cs : ∀ index index',
  addContainers index item cs = Ok index' ↔
  NoDup cs ∧ (∀ c, c ∈ cs → index !! c = None) ∧
  index' = list_to_map ((λ c, (c, item)) <$> cs) ∪ index.
Proof.
  unfold addContainers. induction cs as [|c cs IH]; intros index index'; simpl.
  { rewrite (left_id_L ∅ (∪)). split; [intros [= ->]; split_and!; [constructor|set_solver|done]|].
    by intros (_ & _ & ->). }
  destruct (index !! c) as [x|] eqn:Ec; simpl.
  { split; [done|]. intros (_ & Hn & _). specialize (Hn c ltac:(left)). congruence. }
  rewrite IH, NoDup_cons. split.
  - intros (Hnd & Hn & ->). assert (c ∉ cs) as Hc.
    { intros Hin. specialize (Hn c Hin). by rewrite lookup_insert_eq in Hn. }
    split_and!; [done|done| |].
    + intros c' [->|Hin]%elem_of_cons; [done|]. specialize (Hn c' Hin).
      destruct (decide (c = c')) as [->|]; [done|]. by rewrite lookup_insert_ne in Hn.
    + rewrite <- insert_union_l, insert_union_r; [done|]. apply not_elem_of_list_to_map.
      rewrite <- list_fmap_compose. by rewrite (list_fmap_ext _ id), list_fmap_id.
  - intros ([Hc Hnd] & Hn & ->). split_and!; [done| |].
    + intros c' Hin. rewrite lookup_insert_ne by (intros ->; done). apply Hn. by right.
    + rewrite <- insert_union_l, insert_union_r; [done|]. apply not_elem_of_list_to_map.
      rewrite <- list_fmap_compose. by rewrite (list_fmap_ext _ id), list_fmap_id.
Qed.

(** The loop over the items, from any list of items with their containers. *)
Definition fill (s : gmap Z (gset Z) * gmap Z Z * list Z) (l : list (Z * list Z)) :=
  foldM (λ s '(item, cs), addItem s item cs (list_to_set cs)) s l.

Lemma memberships_cons item cs l :
  memberships ((item, cs) :: l) = ((λ c, (c, item)) <$> cs) ++ memberships l.
Proof. done. Qed.

Lemma memberships_fst item cs : ((λ c, (c, item)) <$> cs : list (Z * Z)).*1 = cs.
Proof. rewrite <- list_fmap_compose. by rewrite (list_fmap_ext _ id), list_fmap_id. Qed.

Lemma fill_spec l : ∀ items index ids r,
  fill (items, index, ids) l = Ok r ↔
  NoDup (memberships l).*1 ∧ (∀ c, c ∈ (memberships l).*1 → index !! c = None) ∧
  r = (emplaceAll items ((λ '(item, cs), (item, list_to_set cs)) <$> l),
       list_to_map (memberships l) ∪ index, ids ++ l.*1).
Proof.
  unfold fill. induction l as [|[item cs] l IH]; intros items index ids r.
  { simpl. rewrite (left_id_L ∅ (∪)), app_nil_r. split; [intros [= <-]|by intros (_ & _ & ->)].
    split_and!; [constructor|set_solver|done]. }
  cbn [foldM]. rewrite memberships_cons, fmap_app, memberships_fst.
  rewrite NoDup_app. split.
  - intros (s & (index' & (Hnd & Hn & ->)%scope_addContainers_spec & [= <-])%bind_Ok & E)%bind_Ok.
    apply IH in E as (Hnd' & Hn' & ->).
    assert (∀ c, c ∈ (memberships l).*1 → c ∉ cs ∧ index !! c = None) as Hd.
    { intros c Hc. apply Hn' in Hc. rewrite lookup_union_None in Hc. destruct Hc as [Hc ?].
      by rewrite <- not_elem_of_list_to_map, memberships_fst in Hc. }
    split_and!; [done| |done| |].
    + intros c Hc Hc'. by apply Hd in Hc' as [? _].
    + intros c [?|Hc]%elem_of_app; [by apply Hn|by apply Hd].
    + f_equal; [|simpl; by rewrite <- app_assoc]. f_equal. rewrite list_to_map_app, (assoc_L (∪)). f_equal.
      apply map_union_comm, map_disjoint_list_to_map_l. apply Forall_forall. intros [c x] Hc. simpl.
      apply not_elem_of_list_to_map. rewrite memberships_fst.
      apply Hd. by apply (list_elem_of_fmap_2 fst) in Hc.
  - intros ((Hnd & Hd & Hnd') & Hn & ->).
    apply bind_Ok. eexists. split.
    + apply bind_Ok. eexists. split; [|done]. apply scope_addContainers_spec. split_and!; [done| |done].
      intros c Hc. apply Hn, elem_of_app. by left.
    + apply IH. split_and!; [done| |].
      * intros c Hc. apply lookup_union_None. split; [|apply Hn, elem_of_app; by right].
        apply not_elem_of_list_to_map. rewrite memberships_fst. intros Hc'. by apply (Hd c).
      * f_equal; [|simpl; by rewrite <- app_assoc]. f_equal. rewrite list_to_map_app, (assoc_L (∪)). f_equal.
        apply map_union_comm, map_disjoint_list_to_map_l. apply Forall_forall. intros [c x] Hc. simpl in Hc.
        apply list_elem_of_fmap in Hc as (c' & [= -> ->] & Hc). simpl.
        apply not_elem_of_list_to_map. by apply Hd.
Qed.

Lemma make_fill m dims : make m dims =
  ('(items, index, ids) ← fill (∅, ∅, []) ((λ '(i, cs), (i, set_iter cs)) <$> hash_iter m);
   Ok (mk items index ids dims)).
Proof.
  unfold make, fill. rewrite foldM_fmap. f_equal. apply foldM_ext. intros s [i cs] _. f_equal.
  apply set_eq. intros c. by rewrite elem_of_list_to_set, set_iter_elem.
Qed.

Lemma fromThrift_fill scope : fromThrift scope =
  ('(items, index, ids) ← fill (∅, ∅, [])
     ((λ '(i, cs), (ofInt i, ofIntsVec cs)) <$> hash_iter (thrift_scopeItems scope));
   Ok (mk items index ids (transformMap ofInt ScopeDimension.fromThrift (thrift_dimensions scope)))).
Proof. unfold fromThrift, fill. rewrite foldM_fmap. f_equal. apply foldM_ext. by intros s [i cs] _. Qed.

Lemma make_items m items index ids :
  fill (∅, ∅, []) ((λ '(i, cs), (i, set_iter cs)) <$> hash_iter m) = Ok (items, index, ids) → items = m.
Proof.
  intros (_ & _ & [= -> _ _])%fill_spec.
  rewrite emplaceAll_empty, <- list_fmap_compose. rewrite <- (list_to_map_to_list m) at 2.
  apply list_to_map_proper.
  - rewrite <- list_fmap_compose. rewrite (list_fmap_ext _ fst); [apply hash_iter_NoDup|by intros i []].
  - rewrite <- hash_iter_perm. rewrite (list_fmap_ext _ id); [by rewrite list_fmap_id|].
    intros i [k cs] _. simpl. f_equal. apply set_eq. intros c. by rewrite elem_of_list_to_set, set_iter_elem.
Qed.

(** Two scopes that differ only in the order of their items. *)
Record same (s1 s2 : t) : Prop := {
  same_items : scopeItems s1 = scopeItems s2;
  same_index : containerIdToScopeItemId s1 = containerIdToScopeItemId s2;
  same_ids : scopeItemIds s1 ≡ₚ scopeItemIds s2;
  same_dimensions : dimensions s1 = dimensions s2
}.

#[export] Instance same_equivalence : Equivalence same.
Proof.
  split.
  - by intros s.
  - intros s1 s2 [? ? ? ?]. by split.
  - intros s1 s2 s3 [? ? ? ?] [? ? ? ?]. split; etrans; eauto.
Qed.

(** A scope is well formed if a constructor built it from identifiers. *)
Definition wf (s : t) : Prop :=
  ∃ m dims, make m dims = Ok s ∧ map_wf (λ cs, ∀ c, c ∈ cs → valid c) m ∧ map_wf ScopeDimension.wf dims.

Lemma fill_perm l1 l2 r1 : l2 ≡ₚ l1 → NoDup l1.*1 → fill (∅, ∅, []) l1 = Ok r1 →
  ∃ r2, fill (∅, ∅, []) l2 = Ok r2 ∧ r2.1 = r1.1 ∧ r2.2 ≡ₚ r1.2.
Proof.
  intros Hl Hn (H1 & _ & ->)%fill_spec.
  assert (memberships l2 ≡ₚ memberships l1) as Hm by (unfold memberships; by rewrite Hl).
  eexists. split; [apply fill_spec; split_and!; [by rewrite Hm|done|done]|]. simpl.
  rewrite !(right_id_L ∅ (∪)), !emplaceAll_empty. split; [|by rewrite Hl]. f_equal.
  - apply list_to_map_proper; [|by rewrite Hl].
    assert (((λ '(item, cs), (item, list_to_set cs : gset Z)) <$> l2).*1 = l2.*1) as ->; [|by rewrite Hl].
    rewrite <- list_fmap_compose. apply list_fmap_ext. by intros i [].
  - apply list_to_map_proper; [by rewrite Hm|done].
Qed.

#[export] Instance scope_roundTrip : RoundTrip wf same toThrift fromThrift.
Proof.
  intros s (m & dims & E & Hm & Hd). rewrite make_fill in E.
  apply bind_Ok in E as ([[items index] ids] & Ef & [= <-]). rewrite fromThrift_fill. simpl.
  pose proof (make_items _ _ _ _ Ef) as ->.
  destruct (fill_perm _ ((λ '(i, cs), (ofInt i, ofIntsVec cs)) <$>
    hash_iter (transformMap asInt (λ cs, asIntsVec (set_iter cs)) m)) _ 
    (loop_iter (λ cs, asIntsVec (set_iter cs)) ofIntsVec set_iter m ltac:(
      intros k cs [Hk Hcs]%Hm; split; [done|]; apply ofIntsVec_asIntsVec, Forall_forall;
      intros c ?%set_iter_elem; by apply Hcs)) ltac:(
      rewrite <- list_fmap_compose, (list_fmap_ext _ fst) by (by intros i []); apply hash_iter_NoDup) Ef)
    as ([[items' index'] ids'] & -> & [= -> ->] & Hids).
  eexists. split; [done|]. split; simpl; [done|done|done|].
  by apply (transformMap_roundTrip ScopeDimension.wf); [apply ScopeDimension.scopeDimension_roundTrip|].
Qed.

Lemma elem_of_memberships l c i : (c, i) ∈ memberships l ↔ ∃ cs, (i, cs) ∈ l ∧ c ∈ cs.
Proof.
  unfold memberships. rewrite list_elem_of_bind. split.
  - intros ([i' cs] & Hc & Hl). apply list_elem_of_fmap in Hc as (c' & [= -> ->] & Hc). eauto.
  - intros (cs & Hl & Hc). exists (i, cs). split; [|done]. apply list_elem_of_fmap. eauto.
Qed.

Lemma memberships_NoDup l : NoDup l.*1 → (∀ i cs, (i, cs) ∈ l → NoDup cs) →
  (∀ i1 i2 cs1 cs2 c, (i1, cs1) ∈ l → (i2, cs2) ∈ l → c ∈ cs1 → c ∈ cs2 → i1 = i2) →
  NoDup (memberships l).*1.
Proof.
  induction l as [|[i cs] l IH]; intros Hk Hn Hd; [constructor|]. apply NoDup_cons in Hk as [Hi Hk].
  rewrite memberships_cons, fmap_app, memberships_fst, NoDup_app. split_and!.
  - apply (Hn i). left.
  - intros c Hc ([c' i'] & -> & (cs' & Hl & Hc')%elem_of_memberships)%list_elem_of_fmap. simpl in Hc.
    apply Hi. rewrite (Hd i i' cs cs' c'); [|left|by right|done|done].
    by apply (list_elem_of_fmap_2 fst) in Hl.
  - apply IH; [done| |].
    + intros i' cs' Hin. apply (Hn i'). by right.
    + intros i1 i2 cs1 cs2 c H1 H2. apply (Hd i1 i2 cs1 cs2 c); by right.
Qed.

Lemma fill_throws l : ∀ s, (∃ r, fill s l = Ok r) ∨ fill s l = Throw overlap.
Proof.
  unfold fill. induction l as [|[i cs] l IH]; intros [[items index] ids]; simpl; [eauto|].
  assert (∀ index, (∃ r, addContainers index i cs = Ok r) ∨ addContainers index i cs = Throw overlap) as Ha.
  { unfold addContainers. clear. induction cs as [|c cs IH]; intros index; simpl; [eauto|].
    destruct (index !! c); simpl; [by right|apply IH]. }
  destruct (Ha index) as [[r ->]| ->]; simpl; [apply IH|by right].
Qed.

(** The constructor accepts exactly disjoint items; the index then gives the item of a
    container. *)
Lemma scope_index m dims s : make m dims = Ok s →
  scopeItems s = m ∧ scopeItemIds s ≡ₚ (map_to_list m).*1 ∧
  ∀ c i, getScopeItemId s c = Some i ↔ ∃ cs, m !! i = Some cs ∧ c ∈ cs.
Proof.
  rewrite make_fill. intros ([[items index] ids] & (Hn & _ & [= -> -> ->])%fill_spec & [= <-])%bind_Ok.
  unfold getScopeItemId. simpl. rewrite (right_id_L ∅ (∪)). split_and!.
  - by eapply make_items, fill_spec.
  - rewrite <- list_fmap_compose. rewrite (list_fmap_ext _ fst) by (by intros i []). by rewrite hash_iter_perm.
  - intros c i. rewrite <- elem_of_list_to_map by done. rewrite elem_of_memberships. split.
    + intros (cs & ([k cs'] & [= -> ->] & Hk%hash_iter_elem)%list_elem_of_fmap & Hc%set_iter_elem). eauto.
    + intros (cs & Hm & Hc). exists (set_iter cs). rewrite set_iter_elem. split; [|done].
      apply list_elem_of_fmap. exists (i, cs). by rewrite hash_iter_elem.
Qed.

Definition disjoint_items (m : gmap Z (gset Z)) : Prop :=
  ∀ i1 i2 cs1 cs2 c, m !! i1 = Some cs1 → m !! i2 = Some cs2 → c ∈ cs1 → c ∈ cs2 → i1 = i2.

Lemma make_accepts m dims :
  match make m dims with
  | Ok _ => disjoint_items m
  | Throw e => e = overlap ∧ ¬ disjoint_items m
  end.
Proof.
  destruct (make m dims) as [s|e] eqn:E.
  - apply scope_index in E as (_ & _ & Hi). intros i1 i2 cs1 cs2 c H1 H2 C1 C2.
    assert (getScopeItemId s c = Some i1 ∧ getScopeItemId s c = Some i2) as [? ?]; [|congruence].
    split; apply Hi; eauto.
  - rewrite make_fill in E. set (l := _ <$> hash_iter m) in E.
    destruct (fill_throws l (∅, ∅, [])) as [[[[? ?] ?] Er]|Er]; rewrite Er in E; [done|].
    injection E as <-. split; [done|]. intros Hd.
    assert (∀ i cs, (i, cs) ∈ l ↔ ∃ s, m !! i = Some s ∧ cs = set_iter s) as Hl.
    { intros i cs. unfold l. rewrite list_elem_of_fmap. split.
      - intros ([k s] & [= -> ->] & Hk%hash_iter_elem). eauto.
      - intros (s & Hs & ->). exists (i, s). by rewrite hash_iter_elem. }
    pose proof (λ r, proj2 (fill_spec l ∅ ∅ [] r)) as Hf. rewrite Er in Hf.
    discriminate (Hf _ (conj (memberships_NoDup l ltac:(
      unfold l; rewrite <- list_fmap_compose, (list_fmap_ext _ fst) by (by intros i []); apply hash_iter_NoDup)
      ltac:(intros i cs (s & _ & ->)%Hl; apply set_iter_NoDup)
      ltac:(intros i1 i2 cs1 cs2 c (s1 & H1 & ->)%Hl (s2 & H2 & ->)%Hl C1%set_iter_elem C2%set_iter_elem;
            by eapply Hd)) (conj (λ c _, lookup_empty c) eq_refl))).
Qed.
End scope.
End Scope.

(** ** Scopes *)
Module Scopes.
Section scopes.
Context `{HashOrder}.

Record t := mk { scopes : gmap Z Scope.t }.
Record thrift := mkThrift { thrift_scopes : gmap Z Scope.thrift }.

Definition getScopeIds (s : t) : list Z := (hash_iter (scopes s)).*1.

Definition getScope (s : t) (scopeId : Z) : result Scope.t := at_ (scopes s !! scopeId).

Definition toThrift (s : t) : thrift := mkThrift (transformMap asInt Scope.toThrift (scopes s)).

Definition fromThrift (s : thrift) : result t :=
  scopes ← transformMapM ofInt Scope.fromThrift (thrift_scopes s);
  Ok (mk scopes).

Definition wf (s : t) : Prop := map_wf Scope.wf (scopes s).
Definition same (s1 s2 : t) : Prop := map_same Scope.same (scopes s1) (scopes s2).

#[export] Instance scopes_roundTrip : RoundTrip wf same toThrift fromThrift.
Proof.
  intros s Hs. destruct (map_roundTrip _ _ _ _ Scope.scope_roundTrip (scopes s) Hs) as (m & E & Hm).
  exists (mk m). split; [|done]. unfold fromThrift. simpl. by rewrite E.
Qed.
End scopes.
End Scopes.
