(* ===== verification/Partitions.v ===== *)
(** * Partitions

    The serialization of entities/Partition.cpp, whose constructor and queries are in
    [ObjectValues], and entities/Partitions.cpp. *)

From S2P Require Import Prelude ChangeSet ObjectValues Entities.
Import EntityId.

Module PartitionThrift.
Section partition.
Context `{HashOrder}.

Record thrift := mkThrift { thrift_groups : gmap Z (list Z) }.

Definition toThrift (p : Partition.t) : thrift :=
  mkThrift (transformMap asInt asIntsVec (Partition.groups p)).

(** The body of the loop over the serialized groups. *)
Definition addGroup (s : gmap Z (list Z) * list Z * gmap Z (list Z)) (e : Z * list Z) :=
  let '(groups, groupIds, objectIdToGroupIds) := s in
  let '(groupId, objectIds) := e in
  (emplace groups groupId objectIds, groupIds ++ [groupId],
   Partition.add_group objectIdToGroupIds groupId objectIds).

Definition fromThrift (p : thrift) : Partition.t :=
  let '(groups, groupIds, objectIdToGroupIds) :=
    foldl (λ s '(groupIdInt, objects), addGroup s (ofInt groupIdInt, ofIntsVec objects)) (∅, [], ∅)
      (hash_iter (thrift_groups p)) in
  Partition.mk groups groupIds objectIdToGroupIds (Partition.computeIsDisjoint objectIdToGroupIds).

(** *** The index of the objects does not depend on the order of the groups *)
Definition index (l : list (Z * list Z)) : gmap Z (list Z) :=
  foldl (λ m '(g, os), Partition.add_group m g os) ∅ l.

Lemma index_lookup l o : default [] (index l !! o) = Partition.occurrences l o.
Proof.
  unfold index, Partition.occurrences. induction l as [|[g os] l IH] using rev_ind; [done|].
  rewrite foldl_snoc, Partition.add_group_lookup, IH, bind_app. simpl. by rewrite app_nil_r.
Qed.

Lemma index_nonempty l o : index l !! o ≠ Some [].
Proof.
  unfold index. revert o. induction l as [|[g os] l IH] using rev_ind; intros o; [done|].
  rewrite foldl_snoc. revert IH o. generalize (foldl (λ m '(g, os), Partition.add_group m g os) ∅ l).
  unfold Partition.add_group. induction os as [|x os IHos]; intros m Hm o; simpl; [apply Hm|].
  apply IHos. intros o'. destruct (decide (x = o')) as [->|]; [|by rewrite lookup_insert_ne].
  rewrite lookup_insert_eq. intros [= E]. by destruct (default [] (m !! o')).
Qed.

Lemma groups_index_perm l1 l2 : l1 ≡ₚ l2 → map_same Permutation (index l1) (index l2).
Proof.
  intros Hl o. pose proof (index_lookup l1 o) as E1. pose proof (index_lookup l2 o) as E2.
  pose proof (index_nonempty l1 o) as N1. pose proof (index_nonempty l2 o) as N2.
  assert (Partition.occurrences l1 o ≡ₚ Partition.occurrences l2 o) as Hp
    by (unfold Partition.occurrences; by rewrite Hl).
  destruct (index l1 !! o) as [os1|], (index l2 !! o) as [os2|]; simpl in E1, E2.
  - constructor. by rewrite E1, E2.
  - rewrite <- E2 in Hp. apply Permutation_nil_r in Hp. congruence.
  - rewrite <- E1 in Hp. symmetry in Hp. apply Permutation_nil_r in Hp. congruence.
  - constructor.
Qed.

Lemma isDisjoint_spec m : Partition.computeIsDisjoint m = true ↔
  ∀ o gs, m !! o = Some gs → (length gs ≤ 1)%nat.
Proof.
  unfold Partition.computeIsDisjoint. rewrite negb_true_iff, <- not_true_iff_false, existsb_exists. split.
  - intros Hn o gs Ho. destruct (decide (length gs ≤ 1)%nat) as [|Hl]; [done|]. destruct Hn.
    exists (o, gs). rewrite <- list_elem_of_In, hash_iter_elem. split; [done|]. apply Nat.ltb_lt. lia.
  - intros Hd ([o gs] & Hin & Hl%Nat.ltb_lt). rewrite <- list_elem_of_In, hash_iter_elem in Hin.
    apply Hd in Hin. lia.
Qed.

Lemma isDisjoint_perm m1 m2 : map_same Permutation m1 m2 →
  Partition.computeIsDisjoint m1 = Partition.computeIsDisjoint m2.
Proof.
  intros Hm. apply eq_true_iff_eq. rewrite !isDisjoint_spec.
  split; intros Hd o gs Ho; specialize (Hm o); rewrite Ho in Hm; inversion Hm as [x y Hxy E1 E2|]; subst;
    rewrite <- ?Hxy || rewrite Hxy; by eapply Hd.
Qed.

(** Partitions that differ only in the order of their groups. *)
Record same (p1 p2 : Partition.t) : Prop := {
  same_groups : Partition.groups p1 = Partition.groups p2;
  same_groupIds : Partition.groupIds p1 ≡ₚ Partition.groupIds p2;
  same_objects : map_same Permutation (Partition.objectIdToGroupIds p1) (Partition.objectIdToGroupIds p2);
  same_isDisjoint : Partition.isDisjoint p1 = Partition.isDisjoint p2
}.

Definition wf (p : Partition.t) : Prop :=
  ∃ groups, p = Partition.make groups ∧ map_wf (Forall valid) groups.

Lemma addGroup_loop l : ∀ groups ids m,
  foldl addGroup (groups, ids, m) l =
  (emplaceAll groups l, ids ++ l.*1, foldl (λ m '(g, os), Partition.add_group m g os) m l).
Proof.
  induction l as [|[g os] l IH]; intros groups ids m; simpl; [by rewrite app_nil_r|].
  rewrite IH. by rewrite <- app_assoc.
Qed.

Lemma partition_fromThrift_loop p : fromThrift p =
  let l := (λ '(i, os), (ofInt i, ofIntsVec os)) <$> hash_iter (thrift_groups p) in
  Partition.mk (list_to_map l) l.*1 (index l) (Partition.computeIsDisjoint (index l)).
Proof.
  unfold fromThrift. cbv zeta.
  assert (∀ s l, foldl (λ s '(i, os), addGroup s (ofInt i, ofIntsVec os)) s l =
    foldl addGroup s ((λ '(i, os), (ofInt i, ofIntsVec os)) <$> l)) as ->.
  { intros s l. revert s. induction l as [|[i os] l IH]; intros s; simpl; [done|apply IH]. }
  rewrite addGroup_loop, emplaceAll_empty. done.
Qed.

#[export] Instance partition_roundTrip : RoundTrip wf same toThrift (λ p, Ok (fromThrift p)).
Proof.
  intros ? (groups & -> & Hg). eexists. split; [done|]. rewrite partition_fromThrift_loop. cbv zeta. simpl.
  assert ((λ '(i, os), (ofInt i, ofIntsVec os)) <$> hash_iter (transformMap asInt asIntsVec groups) ≡ₚ
    hash_iter groups) as Hl.
  { rewrite (loop_iter asIntsVec ofIntsVec id).
    - erewrite list_fmap_ext; [by rewrite list_fmap_id|]. by intros i [].
    - intros k os [Hk Hos]%Hg. split; [done|]. by apply ofIntsVec_asIntsVec. }
  pose proof (groups_index_perm _ _ Hl) as Hi. split; simpl.
  - rewrite <- (list_to_map_to_list groups) at 2. apply list_to_map_proper.
    + rewrite Hl. apply hash_iter_NoDup.
    + by rewrite Hl, hash_iter_perm.
  - by rewrite Hl.
  - exact Hi.
  - by apply isDisjoint_perm.
Qed.
End partition.
End PartitionThrift.

(** ** Partitions

    The constructor from the serialized form builds the partitions concurrently and
    collects them under a lock, in an order [CoroUtils::runEachFuncAndUpdate] leaves
    open; a partition is entered once for each key, so the order does not matter. *)
Module Partitions.
Section partitions.
Context `{HashOrder}.

Record t := mk { partitions : gmap Z Partition.t }.
Record thrift := mkThrift { thrift_partitions : gmap Z PartitionThrift.thrift }.

Definition getPartition (p : t) (partitionId : Z) : result Partition.t := at_ (partitions p !! partitionId).

Definition toThrift (p : t) : thrift :=
  mkThrift (transformMap asInt PartitionThrift.toThrift (partitions p)).

(** [finished] is the order in which the tasks finish. *)
Definition fromThrift (finished : list (Z * PartitionThrift.thrift)) : t :=
  mk (emplaceAll ∅ ((λ '(i, p), (ofInt i, PartitionThrift.fromThrift p)) <$> finished)).

Definition wf (p : t) : Prop := map_wf PartitionThrift.wf (partitions p).
Definition same (p1 p2 : t) : Prop := map_same PartitionThrift.same (partitions p1) (partitions p2).

Lemma partitions_same_refl p : same p p.
Proof.
  intros k. destruct (partitions p !! k); constructor. split; try done.
  intros o. by destruct (_ !! o); constructor.
Qed.

Lemma partitions_roundTrip p finished : wf p → finished ≡ₚ map_to_list (thrift_partitions (toThrift p)) →
  same (fromThrift finished) p.
Proof.
  intros Hp Hf.
  destruct (map_roundTrip _ _ _ _ PartitionThrift.partition_roundTrip (partitions p) Hp) as (m & E & Hm).
  rewrite transformMapM_pure in E. injection E as <-.
  assert (partitions (fromThrift finished) =
    transformMap ofInt PartitionThrift.fromThrift (thrift_partitions (toThrift p))) as Ep;
    [|unfold same; by rewrite Ep].
  simpl. unfold transformMap at 1. rewrite !emplaceAll_empty. apply list_to_map_proper.
  - rewrite Hf, <- hash_iter_perm. simpl.
    rewrite (loop_iter PartitionThrift.toThrift PartitionThrift.fromThrift
      (λ p, PartitionThrift.fromThrift (PartitionThrift.toThrift p))) by (by intros k q [? _]%Hp).
    rewrite <- list_fmap_compose. erewrite list_fmap_ext; [apply hash_iter_NoDup|]. by intros i [].
  - by rewrite Hf, <- hash_iter_perm.
Qed.
End partitions.
End Partitions.
