(* ===== verification/Goals.v ===== *)
(** * Goals and constraints

    entities/Goal.cpp, Goals.cpp, Constraint.cpp and Constraints.cpp.  What a goal or a
    constraint asks for is generated code, here the types [GoalSpecs],
    [ConstraintSpecs] and [ConstraintPolicy]. *)

From stdpp Require Import sorting.
From S2P Require Import Prelude Double ChangeSet Entities.
Import EntityId.

(** A [std::map] is iterated by increasing key. *)
Definition key_le {V} (e1 e2 : Z * V) : Prop := e1.1 ≤ e2.1.
#[export] Instance key_le_dec {V} : RelDecision (key_le (V := V)).
Proof. intros x y. unfold key_le. apply _. Defined.

Definition sorted_iter {V} (m : gmap Z V) : list (Z * V) := merge_sort key_le (map_to_list m).

Lemma sorted_iter_perm {V} (m : gmap Z V) : sorted_iter m ≡ₚ map_to_list m.
Proof. apply merge_sort_Permutation. Qed.

(** Filling a hash map in that order is filling it in any order. *)
Lemma sorted_transform `{HashOrder} {V} (m : gmap Z V) : (∀ k, k ∈ dom m → valid k) →
  emplaceAll ∅ ((λ '(k, v), (asInt k, v)) <$> sorted_iter m) = transformMap asInt id m.
Proof.
  intros Hm. apply transform_any_order; [done|apply sorted_iter_perm].
Qed.

(** The sum of an [int] and one; an overflow is undefined. *)
Definition int_succ (i : Z) : result Z :=
  if i <? 2 ^ 31 - 1 then Ok (i + 1) else Throw (undefined_behaviour "signed overflow").

Section specs.
Context {GoalSpecs ConstraintSpecs ConstraintPolicy : Type}.

(** [Goal] and [thrift::Goal] have the same fields. *)
Record Goal := mkGoal { goal_spec : GoalSpecs; goal_weight : double; goal_tupleIndex : Z }.

Record Constraint := mkConstraint {
  constraint_spec : ConstraintSpecs;
  constraint_policy : ConstraintPolicy;
  constraint_invalidCost : double;
  constraint_invalidState : double;
  constraint_tuplePosIfBroken : Z
}.
End specs.
Arguments Goal : clear implicits.
Arguments Constraint : clear implicits.

(** ** Goals *)
Module Goals.
Section goals.
Context `{HashOrder} {GoalSpecs : Type}.
Abbreviation Goal := (Goal GoalSpecs).

(** [goals] is a [std::map]. *)
Record t := mk { goals : gmap Z Goal; indexedGoalIds : gmap Z (list Z); tupleSize : Z }.
Record thrift := mkThrift { thrift_goals : gmap Z Goal }.

(** The body of the loop of both constructors. *)
Definition addGoal (s : gmap Z (list Z) * Z) (goalId : Z) (goal : Goal) : result (gmap Z (list Z) * Z) :=
  let tupleIndex := goal_tupleIndex goal in
  next ← int_succ tupleIndex;
  Ok (<[tupleIndex := default [] (s.1 !! tupleIndex) ++ [goalId]]> s.1, Z.max s.2 next).

Definition make (goals : gmap Z Goal) : result t :=
  '(index, size) ← foldM (λ s '(goalId, goal), addGoal s goalId goal) (∅, 0) (sorted_iter goals);
  Ok (mk goals index size).

Definition fromThrift (g : thrift) : result t :=
  '(goals, (index, size)) ← foldM (λ '(goals, s) '(goalId, goal),
      s ← addGoal s (ofInt goalId) goal;
      Ok (emplace goals (ofInt goalId) goal, s)) (∅, (∅, 0)) (hash_iter (thrift_goals g));
  Ok (mk goals index size).

Definition toThrift (g : t) : thrift :=
  mkThrift (emplaceAll ∅ ((λ '(k, v), (asInt k, v)) <$> sorted_iter (goals g))).

Definition getGoalIds (g : t) (tupleIndex : Z) : list Z := default [] (indexedGoalIds g !! tupleIndex).

Definition getGoal (g : t) (goalId : Z) : result Goal := at_ (goals g !! goalId).

(** *** What the loop computes: the goals of every position *)
Definition goalsAt (l : list (Z * Goal)) (i : Z) : list Z :=
  (filter (λ e, goal_tupleIndex e.2 = i) l).*1.

Definition sizeOf (l : list (Z * Goal)) : Z := foldl (λ n e, Z.max n (goal_tupleIndex e.2 + 1)) 0 l.

Definition small (goal : Goal) : Prop := goal_tupleIndex goal < 2 ^ 31 - 1.

Lemma addGoal_small s goalId goal : small goal → addGoal s goalId goal =
  Ok (<[goal_tupleIndex goal := default [] (s.1 !! goal_tupleIndex goal) ++ [goalId]]> s.1,
      Z.max s.2 (goal_tupleIndex goal + 1)).
Proof. intros Hs. unfold addGoal, int_succ. by rewrite (proj2 (Z.ltb_lt _ _)) by done. Qed.

Lemma goals_loop l : Forall (λ e, small e.2) l →
  ∃ index, foldM (λ s '(goalId, goal), addGoal s goalId goal) (∅, 0) l = Ok (index, sizeOf l) ∧
    ∀ i, index !! i = match goalsAt l i with [] => None | ids => Some ids end.
Proof.
  induction l as [|[g goal] l IH] using rev_ind; intros Hl; [by exists ∅|].
  apply Forall_app in Hl as [Hl Hg]. apply Forall_cons in Hg as [Hg _]. destruct (IH Hl) as (index & E & Hi).
  eexists. rewrite foldM_app, E. cbn [mbind result_bind foldM]. rewrite addGoal_small by exact Hg.
  cbn [mbind result_bind]. split; [unfold sizeOf; by rewrite foldl_snoc|].
  intros i. unfold goalsAt. rewrite filter_app, filter_cons, filter_nil, fmap_app. simpl.
  fold (goalsAt l i). case_decide as Hd; simpl.
  - subst i. rewrite lookup_insert_eq. rewrite Hi. simpl. by destruct (goalsAt l (goal_tupleIndex goal)).
  - rewrite lookup_insert_ne by done. by rewrite Hi, app_nil_r.
Qed.

Lemma sizeOf_perm l1 l2 : l1 ≡ₚ l2 → sizeOf l1 = sizeOf l2.
Proof.
  unfold sizeOf. generalize 0. intros n Hl. revert n.
  induction Hl as [|x l1 l2 _ IH|x y l|l1 l2 l3 _ IH1 _ IH2]; intros n; simpl; [done|apply IH| |congruence].
  f_equal. lia.
Qed.

(** Goals that differ only in the order within a position of the tuple. *)
Record same (g1 g2 : t) : Prop := {
  same_goals : goals g1 = goals g2;
  same_index : map_same Permutation (indexedGoalIds g1) (indexedGoalIds g2);
  same_size : tupleSize g1 = tupleSize g2
}.

Definition wf (g : t) : Prop := ∃ m, make m = Ok g ∧ map_wf small m.

Lemma entries_small (m : gmap Z Goal) l : map_wf small m → l ≡ₚ map_to_list m →
  Forall (λ e, small e.2) l.
Proof.
  intros Hm Hl. rewrite Hl. apply Forall_forall. intros [k g] Hk%elem_of_map_to_list. by eapply Hm.
Qed.

Lemma goals_fromThrift_loop g : fromThrift g =
  let l := (λ '(i, goal), (ofInt i, goal)) <$> hash_iter (thrift_goals g) in
  '(index, size) ← foldM (λ s '(goalId, goal), addGoal s goalId goal) (∅, 0) l;
  Ok (mk (list_to_map l) index size).
Proof.
  unfold fromThrift. cbv zeta. rewrite <- emplaceAll_empty. generalize (hash_iter (thrift_goals g)) as l.
  intros l. generalize (∅ : gmap Z Goal), (∅ : gmap Z (list Z), 0).
  induction l as [|[i goal] l IH]; intros m s; [by destruct s|]. cbn [foldM fmap list_fmap].
  destruct (addGoal s (ofInt i) goal) as [s'|e]; [|done]. cbn [mbind result_bind]. apply IH.
Qed.

#[export] Instance goals_roundTrip : RoundTrip wf same toThrift fromThrift.
Proof.
  intros g (m & E & Hm). unfold make in E.
  pose proof (entries_small m _ Hm (sorted_iter_perm m)) as Hs.
  destruct (goals_loop (sorted_iter m) Hs) as (index & El & Hi). rewrite El in E. injection E as <-.
  rewrite goals_fromThrift_loop. cbv zeta. simpl.
  set (l := (λ '(i, goal), (ofInt i, goal)) <$> hash_iter _).
  assert (l ≡ₚ map_to_list m) as Hl.
  { unfold l. rewrite sorted_transform by (by eapply map_wf_dom).
    apply loop_entries. by eapply map_wf_dom. }
  destruct (goals_loop l (entries_small m l Hm Hl)) as (index' & -> & Hi'). eexists. split; [done|].
  split; simpl.
  - rewrite <- (list_to_map_to_list m). apply list_to_map_proper; [|done]. rewrite Hl. apply NoDup_fst_map_to_list.
  - intros i. rewrite Hi, Hi'. assert (goalsAt l i ≡ₚ goalsAt (sorted_iter m) i) as Hp
      by (unfold goalsAt; by rewrite Hl, sorted_iter_perm).
    destruct (goalsAt l i) as [|x ids], (goalsAt (sorted_iter m) i) as [|y ids']; [constructor| | |by constructor].
    + by apply Permutation_nil_cons in Hp.
    + symmetry in Hp. by apply Permutation_nil_cons in Hp.
  - apply sizeOf_perm. by rewrite Hl, sorted_iter_perm.
Qed.
End goals.
Arguments t : clear implicits.
Arguments thrift : clear implicits.
End Goals.

(** ** Constraints *)
Module Constraints.
Section constraints.
Context `{HashOrder} {ConstraintSpecs ConstraintPolicy : Type}.
Abbreviation Constraint := (Constraint ConstraintSpecs ConstraintPolicy).

Record t := mk { constraints : gmap Z Constraint }.
Record thrift := mkThrift { thrift_constraints : gmap Z Constraint }.

Definition getConstraint (c : t) (constraintId : Z) : result Constraint := at_ (constraints c !! constraintId).

Definition getConstraintIds (c : t) : list Z := (sorted_iter (constraints c)).*1.

Definition toThrift (c : t) : thrift :=
  mkThrift (emplaceAll ∅ ((λ '(k, v), (asInt k, v)) <$> sorted_iter (constraints c))).

Definition fromThrift (c : thrift) : t := mk (transformMap ofInt id (thrift_constraints c)).

Definition wf (c : t) : Prop := map_wf (λ _, True) (constraints c).

Lemma constraints_roundTrip c : wf c → fromThrift (toThrift c) = c.
Proof.
  intros Hc. destruct c as [m]. unfold fromThrift, toThrift. simpl. f_equal.
  rewrite sorted_transform by (by eapply map_wf_dom). by apply (transformMap_roundTrip (λ _, True)).
Qed.
End constraints.
Arguments t : clear implicits.
Arguments thrift : clear implicits.
End Constraints.
