(* ===== verification/Routing.v ===== *)
(** * Routing

    entities/RoutingRing.cpp and RoutingConfig.cpp: where the traffic of the groups of a
    partition comes from, and the latencies between scope items. *)

From S2P Require Import Prelude Double Exact ChangeSet AccessOrderedSet Queues Entities.
Import EntityId.

(** [CompareScopeItemLatencyPair] *)
Definition CompareScopeItemLatencyPair (p1 p2 : Z * double) : bool :=
  let '(id1, latency1) := p1 in
  let '(id2, latency2) := p2 in
  if (latency1 =? latency2)%D then id1 <? id2 else (latency1 <? latency2)%D.

#[export] Instance latency_strict_total :
  StdSet.StrictTotal (λ p : Z * double, canon p.2) CompareScopeItemLatencyPair.
Proof.
  unfold CompareScopeItemLatencyPair. split.
  - intros [o p] [Hp _]. simpl. rewrite deq_val by done. rewrite Z.eqb_refl. apply Z.ltb_irrefl.
  - intros [o1 p1] [o2 p2] [o3 p3] [F1 _] [F2 _] [F3 _]. simpl in *. rewrite !deq_val, !dlt_val by done.
    destruct (Z.eqb_spec (val p1) (val p2)), (Z.eqb_spec (val p2) (val p3)),
      (Z.eqb_spec (val p1) (val p3)); intros; bool_to_prop; first [apply Z.ltb_lt; lia | lia].
  - intros [o1 p1] [o2 p2] C1 C2. simpl in *. destruct C1 as [F1 N1], C2 as [F2 N2].
    rewrite !deq_val, !dlt_val by done. rewrite (Z.eqb_sym (val p2)).
    destruct (Z.eqb_spec (val p1) (val p2)) as [E|]; intros; bool_to_prop; [|lia].
    f_equal; [lia|]. by apply canon_inj.
Qed.

(** Vectors of vectors of identifiers. *)
Definition ofIntsVecs (sets : list (list Z)) : list (list Z) := ofIntsVec <$> sets.
Definition asIntsVecs (sets : list (list Z)) : list (list Z) := asIntsVec <$> sets.

Lemma ofIntsVecs_asIntsVecs sets : Forall (Forall valid) sets → ofIntsVecs (asIntsVecs sets) = sets.
Proof.
  unfold ofIntsVecs, asIntsVecs. induction 1 as [|s sets Hs _ IH]; [done|].
  rewrite !fmap_cons, IH. f_equal. by apply ofIntsVec_asIntsVec.
Qed.

(** ** RoutingRing *)
Module RoutingRing.
Record t := mk {
  originScopeItem : Z;
  originTraffic : double;
  destinationScopeItemSets : option (list (list Z))
}.

(** [thrift::RoutingRing] has the same fields with [int] for identifiers. *)
Definition fromThrift (r : t) : t :=
  mk (ofInt (originScopeItem r)) (originTraffic r)
    (ofIntsVecs <$> destinationScopeItemSets r).

Definition toThrift (r : t) : t :=
  mk (asInt (originScopeItem r)) (originTraffic r)
    (asIntsVecs <$> destinationScopeItemSets r).

Definition wf (r : t) : Prop :=
  valid (originScopeItem r) ∧
  ∀ sets, destinationScopeItemSets r = Some sets → Forall (Forall valid) sets.

Lemma ring_roundTrip r : wf r → fromThrift (toThrift r) = r.
Proof.
  destruct r as [o tr [sets|]]; intros [Ho Hs]; unfold fromThrift, toThrift; simpl in *;
    rewrite ofInt_asInt by done; [|done]. do 2 f_equal. apply ofIntsVecs_asIntsVecs. by apply Hs.
Qed.
End RoutingRing.

(** ** RoutingConfig *)
Module RoutingConfig.
Section config.
Context `{HashOrder}.
Abbreviation Latencies := (ValueSortedMap.t Z double).
Abbreviation latencies_inv :=
  (ValueSortedMap.inv CompareScopeItemLatencyPair (λ p : Z * double, canon p.2)).

Record t := mk {
  groupToRoutingRings : gmap Z (list RoutingRing.t);
  latencyTable : gmap Z Latencies;
  scopeId : Z;
  partitionId : Z;
  defaultOriginToDestinationScopeItemSets : option (gmap Z (list (list Z)))
}.

Record thrift := mkThrift {
  thrift_groupToRoutingRings : gmap Z (list RoutingRing.t);
  thrift_latencyTable : gmap Z (gmap Z double);
  thrift_scopeId : Z;
  thrift_partitionId : Z;
  thrift_defaultSets : option (gmap Z (list (list Z)))
}.

(** The loop that sorts the latencies of a source. *)
Definition sortLatencies (latencies : gmap Z double) : result Latencies :=
  foldM (λ m '(dest, latency), ValueSortedMap.assign CompareScopeItemLatencyPair m (ofInt dest) latency)
    ValueSortedMap.empty (hash_iter latencies).

Definition fromThrift (c : thrift) : result t :=
  latencyTable ← transformMapM ofInt sortLatencies (thrift_latencyTable c);
  Ok (mk (transformMap ofInt (λ l : list RoutingRing.t, RoutingRing.fromThrift <$> l) (thrift_groupToRoutingRings c))
         latencyTable (ofInt (thrift_scopeId c)) (ofInt (thrift_partitionId c))
         (transformMap ofInt ofIntsVecs <$> thrift_defaultSets c)).

(** [asIntsMap] of a sorted map. *)
Definition latenciesToThrift (m : Latencies) : gmap Z double :=
  emplaceAll ∅ ((λ '(k, v), (asInt k, v)) <$> ValueSortedMap.set m).

Definition toThrift (c : t) : thrift :=
  mkThrift (transformMap asInt (λ l : list RoutingRing.t, RoutingRing.toThrift <$> l) (groupToRoutingRings c))
    (transformMap asInt latenciesToThrift (latencyTable c))
    (asInt (scopeId c)) (asInt (partitionId c))
    (transformMap asInt asIntsVecs <$> defaultOriginToDestinationScopeItemSets c).

Definition getRoutingRings (c : t) (groupId : Z) : result (list RoutingRing.t) :=
  match groupToRoutingRings c !! groupId with
  | Some rings => Ok rings
  | None => Throw (runtime_error "No routing rings found for group")
  end.

Definition getLatency (c : t) (origin destination : Z) : result double :=
  match latencyTable c !! origin with
  | None => Throw (runtime_error "latencies for origin not found")
  | Some latencies =>
      match ValueSortedMap.map latencies !! destination with
      | None => Throw (runtime_error "latency for origin and destination not found")
      | Some latency => Ok latency
      end
  end.

Definition getDefaultDestinationScopeItemSetsFromOrigin (c : t) (scopeItemId : Z)
    : result (list (list Z)) :=
  match defaultOriginToDestinationScopeItemSets c with
  | None => Throw (runtime_error "default destinations not set")
  | Some sets =>
      match sets !! scopeItemId with
      | None => Throw (runtime_error "default destinations for origin not found")
      | Some sets => Ok sets
      end
  end.

(** The loop over the destinations while the latency is the least one. *)
Fixpoint whileLatency (minLatency : double) (l : list (Z * double)) : list Z :=
  match l with
  | (dest, latency) :: l => if (latency =? minLatency)%D then dest :: whileLatency minLatency l else []
  | [] => []
  end.

Definition getMinLatencyDestinationsFor (c : t) (origin : Z) : result (list Z) :=
  match latencyTable c !! origin with
  | None => Throw (runtime_error "latencies for origin not found")
  | Some latencies =>
      match ValueSortedMap.set latencies with
      | [] => Throw (runtime_error "latencies for origin not found")
      | ((_, minLatency) :: _) as l => Ok (whileLatency minLatency l)
      end
  end.

Record wf (c : t) : Prop := {
  wf_rings : map_wf (Forall RoutingRing.wf) (groupToRoutingRings c);
  wf_latencies : map_wf (λ m, latencies_inv m ∧ map_wf (λ _, True) (ValueSortedMap.map m)) (latencyTable c);
  wf_scope : valid (scopeId c);
  wf_partition : valid (partitionId c);
  wf_sets sets : defaultOriginToDestinationScopeItemSets c = Some sets →
    map_wf (Forall (Forall valid)) sets
}.

(** Assigning any entries in any order gives the map of the entries. *)
Lemma assign_loop (l : list (Z * double)) : Forall (λ e, canon e.2) l → NoDup (ofInt <$> l.*1) →
  ∃ m, foldM (λ m '(dest, latency),
           ValueSortedMap.assign CompareScopeItemLatencyPair m (ofInt dest) latency)
         ValueSortedMap.empty l = Ok m ∧ latencies_inv m ∧
    ValueSortedMap.map m = list_to_map ((λ '(k, v), (ofInt k, v)) <$> l).
Proof.
  induction l as [|[k v] l IH] using rev_ind; intros Hc Hn.
  { exists ValueSortedMap.empty. split; [done|]. split; [exact (ValueSortedMap.empty_inv CompareScopeItemLatencyPair)|done]. }
  apply Forall_app in Hc as [Hc Hv]. apply Forall_cons in Hv as [Hv _].
  rewrite !fmap_app in Hn. apply NoDup_app in Hn as (Hn & Hd & _).
  destruct (IH Hc Hn) as (m & E & Hi & Hm). rewrite foldM_app, E. cbn [mbind result_bind foldM].
  destruct (ValueSortedMap.assign_inv CompareScopeItemLatencyPair m (ofInt k) v Hv Hi) as (m' & -> & Hi' & Hm').
  exists m'. split; [done|]. split; [done|]. rewrite Hm', Hm, fmap_app, list_to_map_app. simpl.
  rewrite insert_empty. rewrite insert_union_singleton_l. apply map_union_comm.
  apply map_disjoint_singleton_l, not_elem_of_list_to_map. rewrite <- list_fmap_compose.
  rewrite (list_fmap_ext _ (ofInt ∘ fst)) by (by intros i []). rewrite list_fmap_compose. intros Hin.
  apply (Hd (ofInt k)); [done|]. left.
Qed.

Lemma latencies_entries m : latencies_inv m → ValueSortedMap.set m ≡ₚ map_to_list (ValueSortedMap.map m).
Proof.
  intros [Hd Hs He]. apply NoDup_Permutation.
  - by apply (StdSet.sorted_NoDup (D := λ p : Z * double, canon p.2) (lt := CompareScopeItemLatencyPair)).
  - apply NoDup_map_to_list.
  - intros [k v]. by rewrite He, elem_of_map_to_list.
Qed.

Lemma latencies_roundTrip m : latencies_inv m → map_wf (λ _, True) (ValueSortedMap.map m) →
  sortLatencies (latenciesToThrift m) = Ok m.
Proof.
  intros Hi Hv. unfold sortLatencies. pose proof (latencies_entries m Hi) as Hp.
  set (M := ValueSortedMap.map m) in *.
  assert (latenciesToThrift m = transformMap asInt id M) as ->.
  { apply transform_any_order; [by eapply map_wf_dom|done]. }
  assert ((λ '(k, v), (ofInt k, v)) <$> hash_iter (transformMap asInt id M) ≡ₚ map_to_list M) as Hl.
  { apply loop_entries. by eapply map_wf_dom. }
  destruct (assign_loop (hash_iter (transformMap asInt id M))) as (m' & -> & Hi' & Hm').
  - assert (Forall (λ e, canon e.2) ((λ '(k, v), (ofInt k, v)) <$> hash_iter (transformMap asInt id M))) as Hc.
    { rewrite Hl, <- Hp. apply Hi. }
    rewrite Forall_fmap in Hc. eapply Forall_impl; [exact Hc|]. by intros [].
  - assert (ofInt <$> (hash_iter (transformMap asInt id M)).*1 =
      ((λ '(k, v), (ofInt k, v)) <$> hash_iter (transformMap asInt id M)).*1) as ->.
    { rewrite <- !list_fmap_compose. apply list_fmap_ext. by intros i []. }
    rewrite Hl. apply NoDup_fst_map_to_list.
  - f_equal. apply (ValueSortedMap.representation_unique CompareScopeItemLatencyPair
      (D := λ p : Z * double, canon p.2)); [done|done|]. rewrite Hm'. fold M.
    etrans; [|apply list_to_map_to_list]. apply list_to_map_proper; [|done]. rewrite Hl.
    apply NoDup_fst_map_to_list.
Qed.

#[export] Instance config_roundTrip : RoundTrip wf eq toThrift fromThrift.
Proof.
  intros c [Hr Hl Hs Hp Hd]. exists c. split; [|done]. unfold fromThrift. simpl.
  set (lwf := λ m : Latencies, latencies_inv m ∧ map_wf (λ _, True) (ValueSortedMap.map m)) in Hl.
  assert (RoundTrip lwf eq latenciesToThrift sortLatencies) as RT.
  { intros m [Hi Hm]. exists m. split; [by apply latencies_roundTrip|done]. }
  destruct (map_roundTrip _ _ _ _ RT (latencyTable c) Hl) as (m & -> & ->%map_same_eq).
  cbn [mbind result_bind]. rewrite !ofInt_asInt by done.
  destruct c as [rings table sc pa sets]. simpl in *. f_equal. f_equal.
  - apply (transformMap_roundTrip (Forall RoutingRing.wf)); [|done].
    induction 1 as [|r l Hw _ IH]; [done|]. rewrite !fmap_cons, IH. f_equal. by apply RoutingRing.ring_roundTrip.
  - destruct sets as [sets|]; [|done]. simpl. f_equal.
    apply (transformMap_roundTrip (Forall (Forall valid))); [apply ofIntsVecs_asIntsVecs|by apply Hd].
Qed.

(** The destinations of least latency, and all of them. *)
Lemma whileLatency_spec l d : Forall (λ e, canon e.2) l → canon d →
  StdSet.sorted CompareScopeItemLatencyPair l → Forall (λ e, val d ≤ val e.2) l →
  ∀ x, x ∈ whileLatency d l ↔ (x, d) ∈ l.
Proof.
  intros Hc Hd Hs Hm x. induction l as [|[k v] l IH]; simpl; [by rewrite !elem_of_nil|].
  apply Forall_cons in Hc as [Cv Hc]. apply Forall_cons in Hm as [Mv Hm].
  inversion_clear Hs as [|? ? Hs' Hk]. simpl in *. rewrite deq_val by (apply Cv || apply Hd).
  destruct (Z.eqb_spec (val v) (val d)) as [E|Hne].
  - apply canon_inj in E as ->; [|done..]. rewrite !elem_of_cons, IH by done. naive_solver.
  - split; [by intros ?%not_elem_of_nil|]. intros [[= -> ->]|Hin]%elem_of_cons; [done|].
    rewrite Forall_forall in Hk, Hc. specialize (Hk _ Hin). simpl in Hk.
    rewrite deq_val, dlt_val in Hk by (apply Cv || apply Hd).
    destruct (Z.eqb_spec (val v) (val d)); [done|]. apply Z.ltb_lt in Hk. lia.
Qed.

Lemma minLatency_spec c origin m : latencyTable c !! origin = Some m → latencies_inv m →
  ValueSortedMap.map m ≠ ∅ →
  ∃ dests d, getMinLatencyDestinationsFor c origin = Ok dests ∧
    (∀ x v, ValueSortedMap.map m !! x = Some v → val d ≤ val v) ∧
    (∀ x, x ∈ dests ↔ ValueSortedMap.map m !! x = Some d) ∧ dests ≠ [].
Proof.
  intros E [Hd Hs He] Hne. unfold getMinLatencyDestinationsFor. rewrite E.
  destruct (ValueSortedMap.set m) as [|[k d] l] eqn:El.
  { destruct Hne. apply map_empty. intros x. destruct (ValueSortedMap.map m !! x) eqn:Ex; [|done].
    apply He in Ex. set_solver. }
  assert (Forall (λ e, val d ≤ val e.2) ((k, d) :: l)) as Hle.
  { apply Forall_cons. split; [done|]. inversion_clear Hs as [|? ? _ Hk].
    apply Forall_cons in Hd as [Cd Hd]. apply Forall_forall. intros [x v] Hx. rewrite Forall_forall in Hk, Hd.
    pose proof (Hk _ Hx) as Hlt. specialize (Hd _ Hx) as Cv. simpl in *.
    rewrite deq_val, dlt_val in Hlt by (apply Cd || apply Cv).
    destruct (Z.eqb_spec (val d) (val v)); [lia|]. apply Z.ltb_lt in Hlt. lia. }
  assert (canon d) as Cd by (by apply Forall_cons in Hd as [? _]).
  assert (∀ x, x ∈ whileLatency d ((k, d) :: l) ↔ ValueSortedMap.map m !! x = Some d) as Hw.
  { intros x. rewrite whileLatency_spec by done. apply He. }
  exists (whileLatency d ((k, d) :: l)), d. split_and!; [done| |done|].
  - intros x v Hx%He. rewrite Forall_forall in Hle. by apply (Hle (x, v)).
  - intros Hnil. assert (k ∈ whileLatency d ((k, d) :: l)) as Hk by (apply Hw, He; left).
    rewrite Hnil in Hk. by apply not_elem_of_nil in Hk.
Qed.
End config.
End RoutingConfig.
