(* ===== verification/IdStore.v ===== *)
(** * Names of entities

    entities/Identifiers.cpp: the store of names and identifiers, with its
    serialization.  Maps with names as keys are iterated in the order of the class
    [NameOrder]. *)

From S2P Require Import Prelude ChangeSet Entities.
Import EntityId.

Class NameOrder := {
  name_iter : ∀ {V : Type}, gmap string V → list (string * V);
  name_iter_perm : ∀ V (m : gmap string V), name_iter m ≡ₚ map_to_list m
}.

Definition canonical_names : NameOrder :=
  {| name_iter V m := map_to_list m; name_iter_perm V m := reflexivity _ |}.

Section name_iter.
Context `{NameOrder} {V : Type}.

Lemma name_iter_elem (m : gmap string V) k v : (k, v) ∈ name_iter m ↔ m !! k = Some v.
Proof. by rewrite name_iter_perm, elem_of_map_to_list. Qed.

Lemma name_iter_map (m : gmap string V) : list_to_map (name_iter m) = m.
Proof.
  etrans; [|apply list_to_map_to_list]. apply list_to_map_proper; [|apply name_iter_perm].
  rewrite name_iter_perm. apply NoDup_fst_map_to_list.
Qed.
End name_iter.

(** [std::vector::at] with an [int], which becomes a [std::size_t]. *)
Definition vec_at {A} (v : list A) (i : Z) : result A :=
  if i <? 0 then Throw out_of_range else at_ (v !! Z.to_nat i).

Lemma vec_at_Ok {A} (v : list A) i x : 0 ≤ i → v !! Z.to_nat i = Some x → vec_at v i = Ok x.
Proof. intros Hi E. unfold vec_at. by rewrite (proj2 (Z.ltb_ge _ _)), E by lia. Qed.

(** The [initialize] functions. *)
Definition initialize (names : list string) (ids : list Z) : result (gmap string Z) :=
  foldM (λ nameToId id, name ← vec_at names id; Ok (emplace nameToId name (ofInt id))) ∅ ids.

Definition initializeNested `{HashOrder} (t1Names t2Names : list string) (ids : gmap Z (list Z))
    : result (gmap string Z * gmap Z (gmap string Z)) :=
  foldM (λ '(nameToId1, id1ToNameToId2) '(id1, ids2),
    name ← vec_at t1Names id1;
    nameToId2 ← initialize t2Names ids2;
    Ok (emplace nameToId1 name (ofInt id1), emplace id1ToNameToId2 (ofInt id1) nameToId2))
    (∅, ∅) (hash_iter ids).

(** The [getIds] functions. *)
Definition getIds `{NameOrder} (nameToId : gmap string Z) : list Z := asInt <$> (name_iter nameToId).*2.

Definition getIdsNested `{HashOrder, NameOrder} (m : gmap Z (gmap string Z)) : gmap Z (list Z) :=
  transformMap asInt getIds m.

(** ** Names and identifiers that belong together *)
Definition named (names : list string) (m : gmap string Z) : Prop :=
  ∀ name id, m !! name = Some id → 0 ≤ id < 2 ^ 31 ∧ names !! Z.to_nat id = Some name.

Section initialize.
Context `{HashOrder, NameOrder}.

Lemma small_valid id : 0 ≤ id < 2 ^ 31 → valid id.
Proof. unfold valid, modulus. lia. Qed.

Lemma ofInt_small id : 0 ≤ id < 2 ^ 31 → ofInt id = id.
Proof. intros Hid. apply Z.mod_small. by apply small_valid. Qed.

Lemma initialize_loop names (l : list (string * Z)) : ∀ acc,
  Forall (λ e, 0 ≤ e.2 < 2 ^ 31 ∧ names !! Z.to_nat e.2 = Some e.1) l →
  foldM (λ nameToId id, name ← vec_at names id; Ok (emplace nameToId name (ofInt id))) acc (asInt <$> l.*2) =
  Ok (emplaceAll acc l).
Proof.
  induction l as [|[name id] l IH]; intros acc Hl; [done|]. apply Forall_cons in Hl as [[Hid En] Hl]. simpl in Hid, En.
  cbn [fmap list_fmap foldM snd]. rewrite asInt_small by done.
  rewrite (vec_at_Ok names id name) by (done || lia). cbn [mbind result_bind]. rewrite ofInt_small by done.
  by apply IH.
Qed.

Lemma initialize_getIds names m : named names m → initialize names (getIds m) = Ok m.
Proof.
  intros Hm. unfold initialize, getIds. rewrite initialize_loop.
  - by rewrite emplaceAll_empty, name_iter_map.
  - apply Forall_forall. intros [name id] Hin%name_iter_elem. by apply Hm.
Qed.

(** Nested: every outer identifier has a name and its inner names. *)
Record named_nested (t1Names t2Names : list string) (nameToId1 : gmap string Z)
    (m : gmap Z (gmap string Z)) : Prop := {
  nn_outer : named t1Names nameToId1;
  nn_dom id : is_Some (m !! id) ↔ ∃ name, nameToId1 !! name = Some id;
  nn_inner id inner : m !! id = Some inner → named t2Names inner
}.

Lemma nested_loop t1Names t2Names (nameOf : Z → string) (l : list (Z * gmap string Z)) : ∀ a b,
  (∀ id inner, (id, inner) ∈ l →
    0 ≤ id < 2 ^ 31 ∧ t1Names !! Z.to_nat id = Some (nameOf id) ∧ named t2Names inner) →
  foldM (λ '(nameToId1, id1ToNameToId2) '(id1, ids2),
      name ← vec_at t1Names id1; nameToId2 ← initialize t2Names ids2;
      Ok (emplace nameToId1 name (ofInt id1), emplace id1ToNameToId2 (ofInt id1) nameToId2)) (a, b)
    ((λ '(id, inner), (asInt id, getIds inner)) <$> l) =
  Ok (emplaceAll a ((λ '(id, _), (nameOf id, id)) <$> l), emplaceAll b l).
Proof.
  induction l as [|[id inner] l IH]; intros a b Hl; [done|].
  destruct (Hl id inner) as (Hid & En & Hi); [left|]. cbn [fmap list_fmap foldM].
  rewrite asInt_small by done. rewrite (vec_at_Ok t1Names id (nameOf id)) by (done || lia).
  cbn [mbind result_bind]. rewrite initialize_getIds by done. cbn [mbind result_bind].
  rewrite ofInt_small by done. apply IH. intros id' inner' Hin. apply Hl. by right.
Qed.

Lemma initializeNested_getIds t1Names t2Names nameToId1 m :
  named_nested t1Names t2Names nameToId1 m →
  initializeNested t1Names t2Names (getIdsNested m) = Ok (nameToId1, m).
Proof.
  intros [Ho Hd Hi]. set (nameOf id := default "" (t1Names !! Z.to_nat id)).
  assert (∀ id, is_Some (m !! id) → 0 ≤ id < 2 ^ 31 ∧ t1Names !! Z.to_nat id = Some (nameOf id) ∧
    nameToId1 !! nameOf id = Some id) as Hname.
  { intros id [name Hn]%Hd. destruct (Ho _ _ Hn) as [? En]. unfold nameOf. by rewrite En. }
  assert (∀ k, k ∈ dom m → valid k) as Hv.
  { intros k [Hk _]%elem_of_dom%Hname. by apply small_valid. }
  unfold initializeNested, getIdsNested.
  pose proof (transform_iter getIds m Hv) as Hp.
  apply Permutation_map_inv in Hp as (l & -> & Hl).
  assert (∀ id inner, (id, inner) ∈ l ↔ m !! id = Some inner) as Hin.
  { intros id inner. by rewrite <- Hl, hash_iter_elem. }
  rewrite (nested_loop t1Names t2Names nameOf).
  2: { intros id inner Em%Hin. destruct (Hname id) as (? & ? & _); [by eexists|].
       split; [done|]. split; [done|by eapply Hi]. }
  rewrite !emplaceAll_empty. f_equal. f_equal.
  - apply map_eq. intros name. apply option_eq. intros id. rewrite <- elem_of_list_to_map.
    + rewrite list_elem_of_fmap. split.
      * intros ([i inner] & [= -> ->] & Em%Hin). apply Hname. by eexists.
      * intros Hn. destruct (Ho _ _ Hn) as [Hid En]. destruct (proj2 (Hd id)) as [inner Em]; [eauto|].
        exists (id, inner). unfold nameOf. by rewrite En, Hin.
    + rewrite <- list_fmap_compose. rewrite (list_fmap_ext _ (nameOf ∘ fst)) by (by intros i []).
      rewrite list_fmap_compose, <- Hl. apply NoDup_fmap_2_strong; [|apply hash_iter_NoDup].
      intros ? ? ([i1 x1] & -> & H1%hash_iter_elem)%list_elem_of_fmap
        ([i2 x2] & -> & H2%hash_iter_elem)%list_elem_of_fmap E. simpl in *.
      destruct (Hname i1) as (_ & _ & N1); [by eexists|].
      destruct (Hname i2) as (_ & _ & N2); [by eexists|]. congruence.
  - etrans; [|apply list_to_map_to_list]. apply list_to_map_proper; rewrite <- Hl;
      [apply hash_iter_NoDup|apply hash_iter_perm].
Qed.
End initialize.

(** ** IdStore *)
Module IdStore.
Section store.
Context `{HashOrder, NameOrder}.

Record t := mk {
  objectNames : list string;
  containerNames : list string;
  scopeNames : list string;
  scopeItemNames : list string;
  partitionNames : list string;
  groupNames : list string;
  dimensionNames : list string;
  goalNames : list string;
  constraintNames : list string;
  routingConfigNames : list string;
  objectIds : gmap string Z;
  containerIds : gmap string Z;
  scopeIds : gmap string Z;
  scopeItemIds : gmap Z (gmap string Z);
  partitionNameToId : gmap string Z;
  groupIds : gmap Z (gmap string Z);
  dimensionIds : gmap string Z;
  goalIds : gmap string Z;
  constraintIds : gmap string Z;
  routingConfigIds : gmap string Z
}.

(** [names] is the deprecated field of old bundles. *)
Record thrift := mkThrift {
  names : list string;
  thrift_objectNames : list string;
  thrift_containerNames : list string;
  thrift_scopeNames : list string;
  thrift_scopeItemNames : list string;
  thrift_partitionNames : list string;
  thrift_groupNames : list string;
  thrift_dimensionNames : list string;
  thrift_goalNames : list string;
  thrift_constraintNames : list string;
  thrift_routingConfigNames : list string;
  thrift_objectIds : list Z;
  thrift_containerIds : list Z;
  thrift_scopeItemIds : gmap Z (list Z);
  thrift_groupIds : gmap Z (list Z);
  thrift_dimensionIds : list Z;
  thrift_goalIds : list Z;
  thrift_constraintIds : list Z;
  thrift_routingConfigIds : list Z
}.

Definition fromThrift (s : thrift) : result t :=
  let hasOldNames := negb (bool_decide (names s = [])) in
  let missingNewNames := bool_decide (thrift_objectNames s = []) && negb (bool_decide (thrift_objectIds s = [])) in
  if hasOldNames || missingNewNames
  then Throw (runtime_error "IdStore thrift deserialization received an old-format bundle. Convert via BackwardCompatabilityUtils::densifyEntityIds first.")
  else
    objectIds ← initialize (thrift_objectNames s) (thrift_objectIds s);
    containerIds ← initialize (thrift_containerNames s) (thrift_containerIds s);
    '(scopeIds, scopeItemIds) ←
      initializeNested (thrift_scopeNames s) (thrift_scopeItemNames s) (thrift_scopeItemIds s);
    '(partitionNameToId, groupIds) ←
      initializeNested (thrift_partitionNames s) (thrift_groupNames s) (thrift_groupIds s);
    dimensionIds ← initialize (thrift_dimensionNames s) (thrift_dimensionIds s);
    goalIds ← initialize (thrift_goalNames s) (thrift_goalIds s);
    constraintIds ← initialize (thrift_constraintNames s) (thrift_constraintIds s);
    routingConfigIds ← initialize (thrift_routingConfigNames s) (thrift_routingConfigIds s);
    Ok (mk (thrift_objectNames s) (thrift_containerNames s) (thrift_scopeNames s) (thrift_scopeItemNames s)
           (thrift_partitionNames s) (thrift_groupNames s) (thrift_dimensionNames s) (thrift_goalNames s)
           (thrift_constraintNames s) (thrift_routingConfigNames s)
           objectIds containerIds scopeIds scopeItemIds partitionNameToId groupIds dimensionIds goalIds
           constraintIds routingConfigIds).

Definition toThrift (s : t) : thrift :=
  mkThrift [] (objectNames s) (containerNames s) (scopeNames s) (scopeItemNames s) (partitionNames s)
    (groupNames s) (dimensionNames s) (goalNames s) (constraintNames s) (routingConfigNames s)
    (getIds (objectIds s)) (getIds (containerIds s)) (getIdsNested (scopeItemIds s))
    (getIdsNested (groupIds s)) (getIds (dimensionIds s)) (getIds (goalIds s)) (getIds (constraintIds s))
    (getIds (routingConfigIds s)).

(** [getEntityName] and the look-ups by name. *)
Definition getObjectName (s : t) (id : Z) : result string := vec_at (objectNames s) id.
Definition getDimensionName (s : t) (id : Z) : result string := vec_at (dimensionNames s) id.
Definition getObjectId (s : t) (name : string) : result Z := at_ (objectIds s !! name).
Definition getScopeId (s : t) (name : string) : result Z := at_ (scopeIds s !! name).
Definition getScopeItemId (s : t) (scopeId : Z) (name : string) : result Z :=
  items ← at_ (scopeItemIds s !! scopeId); at_ (items !! name).
Definition getGroupId (s : t) (partitionId : Z) (name : string) : result Z :=
  groups ← at_ (groupIds s !! partitionId); at_ (groups !! name).
Definition existsPartition (s : t) (name : string) : bool := bool_decide (is_Some (partitionNameToId s !! name)).

Record wf (s : t) : Prop := {
  wf_objects : named (objectNames s) (objectIds s);
  wf_containers : named (containerNames s) (containerIds s);
  wf_scopes : named_nested (scopeNames s) (scopeItemNames s) (scopeIds s) (scopeItemIds s);
  wf_partitions : named_nested (partitionNames s) (groupNames s) (partitionNameToId s) (groupIds s);
  wf_dimensions : named (dimensionNames s) (dimensionIds s);
  wf_goals : named (goalNames s) (goalIds s);
  wf_constraints : named (constraintNames s) (constraintIds s);
  wf_routingConfigs : named (routingConfigNames s) (routingConfigIds s)
}.

(** The check of old bundles passes: if there are objects, one of them has a name. *)
Lemma new_format names m : named names m → names = [] → getIds m = [].
Proof.
  intros Hm ->. unfold getIds. destruct (name_iter m) as [|[name id] l] eqn:E; [done|].
  destruct (Hm name id) as [_ E']; [|done]. apply name_iter_elem. rewrite E. left.
Qed.

#[export] Instance idStore_roundTrip : RoundTrip wf eq toThrift fromThrift.
Proof.
  intros s [Ho Hc Hs Hp Hd Hg Hco Hr]. exists s. split; [|done]. unfold fromThrift, toThrift. simpl.
  assert (bool_decide (objectNames s = []) && negb (bool_decide (getIds (objectIds s) = [])) = false) as ->.
  { case_bool_decide as E; [|done]. rewrite (new_format _ _ Ho E). done. }
  rewrite (initialize_getIds _ _ Ho). cbn [mbind result_bind].
  rewrite (initialize_getIds _ _ Hc). cbn [mbind result_bind].
  rewrite (initializeNested_getIds _ _ _ _ Hs). cbn [mbind result_bind].
  rewrite (initializeNested_getIds _ _ _ _ Hp). cbn [mbind result_bind].
  rewrite (initialize_getIds _ _ Hd). cbn [mbind result_bind].
  rewrite (initialize_getIds _ _ Hg). cbn [mbind result_bind].
  rewrite (initialize_getIds _ _ Hco). cbn [mbind result_bind].
  rewrite (initialize_getIds _ _ Hr). cbn [mbind result_bind]. by destruct s.
Qed.
End store.
End IdStore.
