(* ===== verification/Dimensions.v ===== *)
(** * Values of objects and their statistics

    entities/ObjectDimensionValueStats.h, the serialization of
    entities/ObjectValueTypes.cpp, and entities/ObjectStaticDimension.cpp: the value of
    an object wherever it is placed, with statistics collected at construction. *)

From Stdlib Require Import SpecFloat.
From S2P Require Import Prelude Double Exact ChangeSet Bits CompressedIdMap ObjectValues.
From S2P Require Import Entities Partitions.
Import EntityId.

(** [std::numeric_limits<double>::lowest()] *)
Definition dlowest : double := S754_finite true (2 ^ 53 - 1)%positive 971.

Lemma dlowest_canon : canon dlowest.
Proof. by apply (bool_decide_unpack _); vm_compute. Qed.

Lemma dlowest_least x : fin x → val dlowest ≤ val x.
Proof.
  unfold fin. destruct x as [s|s| |s m e]; intros Hf; try discriminate Hf.
  - apply Z.leb_le. by vm_compute.
  - simpl in Hf. pose proof (bounded_spec m e Hf) as (He & Hm & _).
    assert (e ≤ 971) as He' by (unfold bounded in Hf; bool_to_prop; lia). unfold dlowest, val.
    assert (Z.pos m * 2 ^ (e - minexp) ≤ Z.pos (2 ^ 53 - 1) * 2 ^ (971 - minexp)) as H.
    { apply Z.mul_le_mono_nonneg; [lia|lia|apply Z.pow_nonneg; lia|apply Z.pow_le_mono_r; lia]. }
    destruct s; simpl; lia.
Qed.

Lemma d0_canon : canon d0.
Proof. by apply (bool_decide_unpack _); vm_compute. Qed.
#[export] Hint Resolve dlowest_canon d0_canon : core.

(** ** ObjectDimensionValueStats *)
Module ObjectDimensionValueStats.
Record t := mk { hasNegative : bool; hasZero : bool; maxValue : double; minPositive : double }.

Definition init : t := mk false false dlowest dinf.

Definition observe (s : t) (value : double) : t :=
  let max := dmax value (maxValue s) in
  if (value <? d0)%D then mk true (hasZero s) max (minPositive s)
  else if (value =? d0)%D then mk (hasNegative s) true max (minPositive s)
  else if (d0 <? value)%D then mk (hasNegative s) (hasZero s) max (dmin value (minPositive s))
  else mk (hasNegative s) (hasZero s) max (minPositive s).

(** What [observe] returns. *)
Definition isZero (value : double) : bool := (value =? d0)%D.

Definition getMinPositive (s : t) : option double :=
  if (minPositive s =? dinf)%D then None else Some (minPositive s).

Definition observeAll (s : t) (values : list double) : t := foldl observe s values.

(** *** The statistics are those of the set of values *)
Record summary (s : t) (l : list double) : Prop := {
  sum_negative : hasNegative s = true ↔ ∃ v, v ∈ l ∧ val v < 0;
  sum_zero : hasZero s = true ↔ ∃ v, v ∈ l ∧ val v = 0;
  sum_max_in : maxValue s = dlowest ∨ maxValue s ∈ l;
  sum_max v : v ∈ l → val v ≤ val (maxValue s);
  sum_min : (minPositive s = dinf ∧ ∀ v, v ∈ l → val v ≤ 0) ∨
            (minPositive s ∈ l ∧ 0 < val (minPositive s) ∧
             ∀ v, v ∈ l → 0 < val v → val (minPositive s) ≤ val v)
}.

Lemma observe_summary s l v : Forall canon l → canon v → summary s l → summary (observe s v) (l ++ [v]).
Proof.
  intros Hl Hv [Sn Sz Sm SM Smin]. rewrite Forall_forall in Hl. pose proof (proj1 Hv) as Fv.
  assert (canon (maxValue s)) as Cm by (destruct Sm as [->|?]; [apply dlowest_canon|by apply Hl]).
  assert (fin d0) as F0 by done. assert (val d0 = 0) as V0 by done.
  assert ((maxValue (observe s v) = dlowest ∨ maxValue (observe s v) ∈ l ++ [v]) ∧
    ∀ w, w ∈ l ++ [v] → val w ≤ val (maxValue (observe s v))) as [HM1 HM2].
  { assert (maxValue (observe s v) = dmax v (maxValue s)) as -> by (unfold observe; by repeat case_match).
    unfold dmax. rewrite dlt_val by (done || apply Cm). destruct (Z.ltb_spec (val v) (val (maxValue s))).
    - split; [destruct Sm as [?|?]; [by left|right; apply elem_of_app; by left]|].
      intros w [?| ->%list_elem_of_singleton]%elem_of_app; [by apply SM|lia].
    - split; [right; apply elem_of_app; right; left|].
      intros w [Hw| ->%list_elem_of_singleton]%elem_of_app; [apply SM in Hw; lia|lia]. }
  assert ((hasNegative (observe s v) = true ↔ hasNegative s = true ∨ val v < 0) ∧
    (hasZero (observe s v) = true ↔ hasZero s = true ∨ val v = 0) ∧
    minPositive (observe s v) = if 0 <? val v then dmin v (minPositive s) else minPositive s)
    as (HN & HZ & HP).
  { unfold observe. rewrite !dlt_val, deq_val, V0 by done.
    destruct (Z.ltb_spec (val v) 0), (Z.eqb_spec (val v) 0), (Z.ltb_spec 0 (val v)); try lia; simpl; naive_solver lia. }
  split; [| |done|done|].
  - rewrite HN, Sn. setoid_rewrite elem_of_app. setoid_rewrite list_elem_of_singleton. naive_solver.
  - rewrite HZ, Sz. setoid_rewrite elem_of_app. setoid_rewrite list_elem_of_singleton. naive_solver.
  - rewrite HP. setoid_rewrite elem_of_app. setoid_rewrite list_elem_of_singleton.
    destruct (Z.ltb_spec 0 (val v)).
    + right. destruct Smin as [[-> Hp]|(Hin & Hp & Hl')].
      * assert (dmin v dinf = v) as -> by (destruct v as [| | |[] ? ?]; by try done).
        split_and!; [by right|done|]. intros w [?%Hp| ->] ?; lia.
      * unfold dmin. rewrite dlt_val by (done || by apply Hl).
        destruct (Z.ltb_spec (val (minPositive s)) (val v)); split_and!; eauto;
          intros w [Hw| ->] ?; [by apply Hl'|lia| |lia]. specialize (Hl' w Hw). lia.
    + destruct Smin as [[-> Hp]|(Hin & Hp & Hl')]; [left|right].
      * split; [done|]. intros w [?%Hp| ->]; lia.
      * split_and!; [by left|done|]. intros w [Hw| ->] ?; [by apply Hl'|lia].
Qed.

Lemma observeAll_summary l : Forall canon l → summary (observeAll init l) l.
Proof.
  intros Hl. induction l as [|v l IH] using rev_ind.
  - split; simpl; [split; [done|]|split; [done|]|by left| |left; split; [done|]]; set_solver.
  - apply Forall_app in Hl as [Hl Hv]. apply Forall_cons in Hv as [Hv _]. unfold observeAll. rewrite foldl_snoc.
    apply observe_summary; [done|done|by apply IH].
Qed.

Lemma summary_unique s1 s2 l1 l2 : Forall canon l1 → Forall canon l2 → (∀ v, v ∈ l1 ↔ v ∈ l2) →
  summary s1 l1 → summary s2 l2 → s1 = s2.
Proof.
  intros C1 C2 Hl [N1 Z1 I1 M1 P1] [N2 Z2 I2 M2 P2]. rewrite Forall_forall in C1, C2.
  destruct s1 as [n1 z1 m1 p1], s2 as [n2 z2 m2 p2]. simpl in *. setoid_rewrite <- Hl in N2.
  setoid_rewrite <- Hl in Z2. setoid_rewrite <- Hl in I2. setoid_rewrite <- Hl in M2. setoid_rewrite <- Hl in P2.
  assert (canon m1 ∧ canon m2) as [K1 K2].
  { split; [destruct I1 as [->|]|destruct I2 as [->|]]; auto using dlowest_canon. }
  f_equal.
  - apply eq_true_iff_eq. by rewrite N1, N2.
  - apply eq_true_iff_eq. by rewrite Z1, Z2.
  - apply canon_inj; [done..|]. pose proof (dlowest_least m1 (proj1 K1)). pose proof (dlowest_least m2 (proj1 K2)).
    destruct I1 as [->|H1], I2 as [->|H2]; [done|apply M1 in H2; lia|apply M2 in H1; lia|].
    apply M1 in H2. apply M2 in H1. lia.
  - destruct P1 as [[-> A1]|(A1 & B1 & L1)], P2 as [[-> A2]|(A2 & B2 & L2)]; [done| | |].
    + apply A1 in A2. lia.
    + apply A2 in A1. lia.
    + apply canon_inj; [by apply C1..|]. specialize (L1 _ A2 B2). specialize (L2 _ A1 B1). lia.
Qed.

(** Neither the order nor the multiplicity of the values matters. *)
Lemma observeAll_ext l1 l2 : Forall canon l1 → (∀ v, v ∈ l1 ↔ v ∈ l2) →
  observeAll init l1 = observeAll init l2.
Proof.
  intros C1 Hl. assert (Forall canon l2) as C2.
  { rewrite Forall_forall in *. intros v Hv. by apply C1, Hl. }
  apply (summary_unique _ _ l1 l2); auto using observeAll_summary.
Qed.
End ObjectDimensionValueStats.
Import ObjectDimensionValueStats (observe, observeAll, init).

(** ** Serialization of values *)
Module ValuesThrift.
Section values.
Context `{HashOrder}.

(** [thrift::ObjectValues]; the union may be empty. *)
Inductive thrift :=
  | objectValues (values : gmap Z double)
  | groupValues (partitionId : Z) (values : gmap Z double)
  | empty_.

(** [makeObjectValues], and [fromThrift] of a static dimension. *)
Definition makeObjectValues (values : gmap Z double) (defaultValue : double) (totalObjects : Z)
    : result (CompressedIdMap.t (V := double)) :=
  foldM (λ c '(objectId, value),
    if negb (value =? defaultValue)%D then CompressedIdMap.emplace deq c (ofInt objectId) value else Ok c)
    (CompressedIdMap.make totalObjects defaultValue (Z.of_nat (size values))) (hash_iter values).

Definition fromThrift (values : thrift) (defaultValue : double) (totalObjects : Z)
    (partition : option Partition.t) : result ObjectValues.t :=
  match values with
  | objectValues values =>
      map ← makeObjectValues values defaultValue totalObjects;
      Ok (ObjectValues.ObjectBacked map)
  | groupValues partitionId values =>
      match partition with
      | None => Throw (runtime_error "Cannot deserialize group-keyed ObjectValues without partition")
      | Some partition =>
          let groupValues := foldl (λ m '(groupId, value),
              if (value =? defaultValue)%D then m else emplace m (ofInt groupId) value) ∅ (hash_iter values) in
          if negb (Partition.isDisjoint partition)
          then Throw (invalid_argument "ObjectValues group-backed partition must be disjoint")
          else Ok (ObjectValues.GroupBacked groupValues partition (ofInt partitionId) defaultValue totalObjects)
      end
  | empty_ => Throw (runtime_error "thrift::ObjectValues is expected to be non-empty")
  end.

Definition toThrift (ov : ObjectValues.t) : result thrift :=
  match ov with
  | ObjectValues.ObjectBacked map =>
      entries ← CompressedIdMap.forEachNonDefault map;
      Ok (objectValues (emplaceAll ∅ ((λ '(k, v), (asInt k, v)) <$> entries)))
  | ObjectValues.GroupBacked groupValues_ _ partitionId _ _ =>
      Ok (groupValues (asInt partitionId) (transformMap asInt id groupValues_))
  end.

(** *** Object-backed values keep their entries *)
Lemma makeObjectValues_models (m : gmap Z double) d n :
  0 ≤ n < 2 ^ 32 → (∀ k v, m !! k = Some v → 0 ≤ k < n ∧ (v =? d)%D = false) →
  ∃ c, makeObjectValues (transformMap asInt id m) d n = Ok c ∧ CompressedIdMap.models deq c m ∧
    CompressedIdMap.totalSize c = n ∧ CompressedIdMap.defaultValue c = d.
Proof.
  intros Hn Hm. unfold makeObjectValues.
  assert (∀ k v, m !! k = Some v → valid k) as Hv.
  { intros k v [Hk _]%Hm. unfold valid, modulus. lia. }
  set (ts := transformMap asInt id m).
  assert ((λ '(k, v), (ofInt k, v)) <$> hash_iter ts ≡ₚ map_to_list m) as Hp.
  { apply loop_entries. intros k [v Hk]%elem_of_dom. by eapply Hv. }
  assert (∀ k v, (k, v) ∈ hash_iter ts → m !! ofInt k = Some v) as Hin.
  { intros k v Hk. apply elem_of_map_to_list. rewrite <- Hp. apply list_elem_of_fmap. by exists (k, v). }
  pose proof (CompressedIdMap.make_models deq n d (Z.of_nat (size ts)) ltac:(lia)) as H0.
  destruct (CompressedIdMap.emplaces_models deq ((λ '(k, v), (ofInt k, v)) <$> hash_iter ts) _ ∅ H0)
    as (c & E & Hc & Ht & Hd & _).
  { apply Forall_fmap, Forall_forall. intros [k v] Hk%Hin. simpl. by apply Hm in Hk as [? _]. }
  exists c. split_and!; [|  |done|done].
  - rewrite <- E, foldM_fmap. apply foldM_ext. intros c' [k v] Hk%Hin. simpl.
    by rewrite (proj2 (Hm _ _ Hk)).
  - cbn [CompressedIdMap.defaultValue CompressedIdMap.make] in Hc. rewrite CompressedIdMap.puts_all in Hc.
    + rewrite (right_id_L ∅ (∪)) in Hc.
      assert (list_to_map ((λ '(k, v), (ofInt k, v)) <$> hash_iter ts) = m) as Em; [|by rewrite Em in Hc].
      etrans; [|apply list_to_map_to_list]. apply list_to_map_proper; [|done]. rewrite Hp.
      apply NoDup_fst_map_to_list.
    + rewrite Hp. apply NoDup_fst_map_to_list.
    + apply Forall_fmap, Forall_forall. intros [k v] Hk%Hin. simpl. by apply Hm in Hk as [_ ?].
    + done.
Qed.
End values.
End ValuesThrift.

(** ** Values that agree on every object *)
Definition values_same (n : Z) (ov1 ov2 : ObjectValues.t) : Prop :=
  ObjectValues.totalObjectCount ov1 = n ∧ ObjectValues.totalObjectCount ov2 = n ∧
  ObjectValues.defaultValue ov1 = ObjectValues.defaultValue ov2 ∧
  ∀ o, 0 ≤ o < n → ObjectValues.getObjectValue ov1 o = ObjectValues.getObjectValue ov2 o.

(** Both list the same values, the default set aside. *)
Definition listed_same (d : double) (l1 l2 : list double) : Prop :=
  Forall canon l1 ∧ ∀ v, v ∈ d :: l1 ↔ v ∈ d :: l2.

Section objects.
Context `{HashOrder}.

(** *** Object-backed values *)
Definition objects_ok (n : Z) (d : double) (c : CompressedIdMap.t (V := double)) (m : gmap Z double) : Prop :=
  CompressedIdMap.models deq c m ∧ CompressedIdMap.totalSize c = n ∧ CompressedIdMap.defaultValue c = d ∧
  ∀ k v, m !! k = Some v → canon v.

Lemma objects_roundTrip n d c m : 0 ≤ n < 2 ^ 32 → objects_ok n d c m →
  ∃ t c' l l', ValuesThrift.toThrift (ObjectValues.ObjectBacked c) = Ok t ∧
    (∀ p, ValuesThrift.fromThrift t d n p = Ok (ObjectValues.ObjectBacked c')) ∧ objects_ok n d c' m ∧
    values_same n (ObjectValues.ObjectBacked c') (ObjectValues.ObjectBacked c) ∧
    ObjectValues.forEachNonDefault (ObjectValues.ObjectBacked c) = Ok l ∧
    ObjectValues.forEachNonDefault (ObjectValues.ObjectBacked c') = Ok l' ∧
    t = ValuesThrift.objectValues (transformMap asInt id m) ∧ l' ≡ₚ l ∧ Forall canon l.*2.
Proof.
  intros Hn (Hc & Ht & Hd & Hv).
  destruct (CompressedIdMap.forEachNonDefault_models deq c m Hc) as (l & El & Hl).
  assert (∀ k v, m !! k = Some v → 0 ≤ k < n ∧ (v =? d)%D = false) as Hr.
  { intros k v Hk. destruct (CompressedIdMap.models_range _ _ _ Hc k v Hk) as [? ?]. by rewrite <- Ht, <- Hd. }
  destruct (ValuesThrift.makeObjectValues_models m d n Hn Hr) as (c' & E' & Hc' & Ht' & Hd').
  destruct (CompressedIdMap.forEachNonDefault_models deq c' m Hc') as (l' & El' & Hl').
  exists (ValuesThrift.objectValues (transformMap asInt id m)), c', l, l'.
  assert (Forall canon l.*2) as Hcl.
  { rewrite Hl. apply Forall_fmap, Forall_forall. intros [k v] Hk%elem_of_map_to_list. by eapply Hv. }
  split; [|split; [|split; [|split]]].
  - simpl. rewrite El. cbn [mbind result_bind]. rewrite (transform_any_order m l); [done| |done].
    intros k [v Hk]%elem_of_dom. destruct (Hr k v Hk). unfold valid, modulus. lia.
  - intros p. simpl. by rewrite E'.
  - by split.
  - split; [done|]. split; [done|]. split; [simpl; congruence|]. intros o Ho. simpl.
    rewrite (CompressedIdMap.getValue_models deq c' m) by (done || lia).
    rewrite (CompressedIdMap.getValue_models deq c m) by (done || lia). by rewrite Hd, Hd'.
  - split_and!; [done..|by rewrite Hl', Hl|done].
Qed.
End objects.

(** ** ObjectStaticDimension *)
Module ObjectStaticDimension.
Section static.
Context `{HashOrder}.

Record t := mk {
  objectValues : ObjectValues.t;
  hasNegativeValues : bool;
  hasZeroValuedObjects : bool;
  minimumPositiveValue : option double;
  maximumValue : double
}.

Record thrift := mkThrift { thrift_values : gmap Z double; thrift_defaultValue : double }.

Definition make (values : CompressedIdMap.t (V := double)) : result t :=
  objectValues ← ObjectValues.ofMap (Some values);
  entries ← ObjectValues.forEachNonDefault objectValues;
  let stats := observeAll init (ObjectValues.defaultValue objectValues :: entries.*2) in
  Ok (mk objectValues (ObjectDimensionValueStats.hasNegative stats) (ObjectDimensionValueStats.hasZero stats)
         (ObjectDimensionValueStats.getMinPositive stats) (ObjectDimensionValueStats.maxValue stats)).

Definition fromThrift (d : thrift) (totalObjects : Z) : result t :=
  values ← ValuesThrift.makeObjectValues (thrift_values d) (thrift_defaultValue d) totalObjects;
  make values.

Definition toThrift (d : t) : result thrift :=
  entries ← ObjectValues.forEachNonDefault (objectValues d);
  Ok (mkThrift (emplaceAll ∅ ((λ '(k, v), (asInt k, v)) <$> entries))
               (ObjectValues.defaultValue (objectValues d))).

Record same (n : Z) (d1 d2 : t) : Prop := {
  same_values : values_same n (objectValues d1) (objectValues d2);
  same_negative : hasNegativeValues d1 = hasNegativeValues d2;
  same_zero : hasZeroValuedObjects d1 = hasZeroValuedObjects d2;
  same_minimum : minimumPositiveValue d1 = minimumPositiveValue d2;
  same_maximum : maximumValue d1 = maximumValue d2
}.

Definition wf (n : Z) (d : t) : Prop :=
  ∃ c m dv, make c = Ok d ∧ canon dv ∧ objects_ok n dv c m.

Lemma static_roundTrip n d : 0 ≤ n < 2 ^ 32 → wf n d →
  ∃ t d', toThrift d = Ok t ∧ fromThrift t n = Ok d' ∧ same n d' d.
Proof.
  intros Hn (c & m & dv & Ed & Cd & Hc).
  destruct (objects_roundTrip n dv c m Hn Hc) as (t & c' & l & l' & Et & Ef & Hc' & Hv & El & El' & -> & Hl & Hcl).
  pose proof (Ef None) as Ef'. simpl in Ef'. unfold make in Ed. cbn [ObjectValues.ofMap mbind result_bind] in Ed.
  rewrite El in Ed. injection Ed as <-. cbn [mbind result_bind] in *.
  eexists (mkThrift _ _), _. split_and!.
  - unfold toThrift. cbn [objectValues]. rewrite El. cbn [mbind result_bind]. done.
  - unfold fromThrift. cbn [thrift_values thrift_defaultValue].
    assert (emplaceAll ∅ ((λ '(k, v), (asInt k, v)) <$> l) = transformMap asInt id m) as ->.
    { simpl in Et, El. rewrite El in Et. cbn [mbind result_bind] in Et. congruence. }
    destruct Hc as (_ & _ & Hd & _). simpl ObjectValues.defaultValue. rewrite Hd.
    apply bind_Ok in Ef' as (c'' & -> & [= ->]). cbn [mbind result_bind]. unfold make.
    cbn [ObjectValues.ofMap mbind result_bind]. rewrite El'. cbn [mbind result_bind]. done.
  - destruct Hv as (? & ? & Hdv & ?).
    assert (observeAll init (ObjectValues.defaultValue (ObjectValues.ObjectBacked c') :: l'.*2) =
      observeAll init (ObjectValues.defaultValue (ObjectValues.ObjectBacked c) :: l.*2)) as ->.
    { rewrite Hdv. symmetry. apply ObjectDimensionValueStats.observeAll_ext.
      - constructor; [|done]. destruct Hc as (_ & _ & Hd & _). simpl. by rewrite Hd.
      - intros v. by rewrite !elem_of_cons, Hl. }
    by split.
Qed.
End static.
End ObjectStaticDimension.

(** *** Group-backed values *)
Section groups.
Context `{HashOrder}.

Record groups_ok (n : Z) (d : double) (gv : gmap Z double) (gs : gmap Z (list Z)) : Prop := {
  go_disjoint : Partition.isDisjoint (Partition.make gs) = true;
  go_known g : is_Some (gv !! g) → is_Some (gs !! g);
  go_canon g v : gv !! g = Some v → canon v;
  go_valid g : g ∈ dom gv → valid g
}.

(** The values of the groups that have objects. *)
Definition group_values (gv : gmap Z double) (gs : gmap Z (list Z)) (v : double) : Prop :=
  ∃ g o os, gv !! g = Some v ∧ gs !! g = Some (o :: os).

(** The loop over the serialized values of groups. *)
Lemma group_values_read d gv : (∀ g, g ∈ dom gv → valid g) →
  foldl (λ m '(groupId, value), if (value =? d)%D then m else emplace m (ofInt groupId) value) ∅
    (hash_iter (transformMap asInt id gv)) =
  filter (λ e, (e.2 =? d)%D = false) gv.
Proof.
  intros Hv. set (l := hash_iter (transformMap asInt id gv)).
  assert (∀ acc, foldl (λ m '(groupId, value), if (value =? d)%D then m else emplace m (ofInt groupId) value) acc l =
    emplaceAll acc (filter (λ e, (e.2 =? d)%D = false) ((λ '(i, v), (ofInt i, v)) <$> l))) as ->.
  { induction l as [|[i v] l IH]; intros acc; [done|]. cbn [foldl fmap list_fmap]. rewrite filter_cons. simpl.
    destruct (v =? d)%D; simpl; apply IH. }
  rewrite emplaceAll_empty. pose proof (loop_entries gv Hv) as Hl. fold l in Hl.
  apply map_eq. intros g. apply option_eq. intros v. rewrite <- elem_of_list_to_map.
  - by rewrite list_elem_of_filter, Hl, elem_of_map_to_list, map_lookup_filter_Some, (comm and).
  - apply NoDup_fmap_fst_filter. rewrite Hl. apply NoDup_fst_map_to_list.
Qed.

Lemma same_disjoint_lookup p1 p2 o : PartitionThrift.same p1 p2 →
  Partition.computeIsDisjoint (Partition.objectIdToGroupIds p2) = true →
  Partition.objectIdToGroupIds p1 !! o = Partition.objectIdToGroupIds p2 !! o.
Proof.
  intros [_ _ Hs _] Hd. specialize (Hs o).
  destruct (Partition.objectIdToGroupIds p2 !! o) as [l2|] eqn:E2;
    inversion Hs as [l1 ? Hp E1|E1]; subst; [|done]. f_equal.
  pose proof (proj1 (PartitionThrift.isDisjoint_spec _) Hd o l2 E2).
  destruct l2 as [|g [|]]; simpl in *; [|by apply Permutation_singleton_r in Hp|lia].
  by apply Permutation_nil_r in Hp.
Qed.

Lemma group_values_listed n d gv gs p pid v : groups_ok n d gv gs → Partition.groups p = gs →
  ∃ l, ObjectValues.forEachNonDefault (ObjectValues.GroupBacked gv p pid d n) = Ok l ∧
    (v ∈ l.*2 ↔ group_values gv gs v).
Proof.
  intros Hg Hp. exists (ObjectValues.group_entries gs (hash_iter gv)).
  assert (∀ g, g ∈ (hash_iter gv).*1 → is_Some (gs !! g)) as Hk.
  { intros g ([? w] & -> & Hin%hash_iter_elem)%list_elem_of_fmap. apply (go_known _ _ _ _ Hg). by eexists. }
  split.
  - etrans; [|exact (ObjectValues.group_loop gs (hash_iter gv) [] Hk)]. simpl. apply foldM_ext.
    intros acc [g w] _. unfold Partition.getObjectIds. by rewrite Hp.
  - unfold group_values, ObjectValues.group_entries. rewrite list_elem_of_fmap. split.
    + intros ([o w] & -> & ([g w'] & Hin & Hgv%hash_iter_elem)%list_elem_of_bind).
      apply list_elem_of_fmap in Hin as (o' & [= -> ->] & Ho).
      destruct (gs !! g) as [[|o1 os]|] eqn:E; simpl in Ho; [by apply not_elem_of_nil in Ho| |by apply not_elem_of_nil in Ho].
      simpl. eauto.
    + intros (g & o & os & Hgv & Hgs). exists (o, v). split; [done|]. apply list_elem_of_bind. exists (g, v).
      rewrite hash_iter_elem, Hgs. split; [|done]. apply list_elem_of_fmap. exists o. split; [done|]. left.
Qed.

Lemma groups_roundTrip n d gv gs pid p' : canon d → valid pid → groups_ok n d gv gs →
  PartitionThrift.same p' (Partition.make gs) →
  let ov := ObjectValues.GroupBacked gv (Partition.make gs) pid d n in
  ∃ gv', ValuesThrift.toThrift ov = Ok (ValuesThrift.groupValues (asInt pid) (transformMap asInt id gv)) ∧
    let ov' := ObjectValues.GroupBacked gv' p' pid d n in
    ValuesThrift.fromThrift (ValuesThrift.groupValues (asInt pid) (transformMap asInt id gv)) d n (Some p') = Ok ov' ∧
    groups_ok n d gv' gs ∧ values_same n ov' ov ∧
    ∀ v, v = d ∨ group_values gv' gs v ↔ v = d ∨ group_values gv gs v.
Proof.
  intros Cd Hpid Hg Hs ov. pose proof (go_disjoint _ _ _ _ Hg) as Hd.
  set (gv' := filter (λ e : Z * double, (e.2 =? d)%D = false) gv).
  assert (∀ g v, gv !! g = Some v → (v =? d)%D = bool_decide (v = d)) as Heq.
  { intros g v Hv. apply canon_eq; [|done]. by eapply (go_canon _ _ _ _ Hg). }
  assert (∀ g v, gv' !! g = Some v ↔ gv !! g = Some v ∧ v ≠ d) as Hgv'.
  { intros g v. unfold gv'. rewrite map_lookup_filter_Some. simpl. split; intros [Hv E]; split; try done.
    - rewrite (Heq g) in E by done. by apply bool_decide_eq_false in E.
    - rewrite (Heq g) by done. by apply bool_decide_eq_false. }
  exists gv'. split; [done|]. cbv zeta. split_and!.
  - simpl. rewrite (PartitionThrift.same_isDisjoint _ _ Hs). simpl in Hd |- *. rewrite Hd. simpl.
    rewrite group_values_read, ofInt_asInt by (done || apply (go_valid _ _ _ _ Hg)). done.
  - split; [done| | |].
    + intros g [v [Hv _]%Hgv']. apply (go_known _ _ _ _ Hg). by eexists.
    + intros g v [Hv _]%Hgv'. by eapply (go_canon _ _ _ _ Hg).
    + intros g [v [Hv _]%Hgv']%elem_of_dom. apply (go_valid _ _ _ _ Hg). by eapply elem_of_dom_2.
  - split; [done|]. split; [done|]. split; [done|]. intros o Ho. unfold ov. cbn [ObjectValues.getObjectValue].
    rewrite (same_disjoint_lookup _ _ o Hs Hd).
    destruct (Partition.objectIdToGroupIds (Partition.make gs) !! o) as [[|g gs']|]; [done| |done]. f_equal.
    destruct (gv' !! g) as [v|] eqn:E.
    + apply Hgv' in E as [-> _]. done.
    + destruct (gv !! g) as [w|] eqn:Ew; [|done]. simpl. destruct (decide (w = d)) as [->|Hne]; [done|].
      assert (gv' !! g = Some w) by (by apply Hgv'). congruence.
  - intros v. unfold group_values. setoid_rewrite Hgv'. destruct (decide (v = d)); naive_solver.
Qed.
End groups.

(** ** Values of either backing *)
Section either.
Context `{HashOrder}.

(** The values [forEachNonDefault] reports. *)
Definition listed (ov : ObjectValues.t) : list double :=
  match ObjectValues.forEachNonDefault ov with Ok l => l.*2 | Throw _ => [] end.

Definition values_ok (n : Z) (d : double) (ps : Partitions.t) (ov : ObjectValues.t) : Prop :=
  match ov with
  | ObjectValues.ObjectBacked c => ∃ m, objects_ok n d c m
  | ObjectValues.GroupBacked gv p pid d' n' =>
      d' = d ∧ n' = n ∧ valid pid ∧ Partitions.partitions ps !! pid = Some p ∧
      ∃ gs, p = Partition.make gs ∧ groups_ok n d gv gs
  end.

(** The two sides of a round trip. *)
Record values_agree (n : Z) (d : double) (ov' ov : ObjectValues.t) : Prop := {
  agree_same : values_same n ov' ov;
  agree_lists : is_Ok (ObjectValues.forEachNonDefault ov');
  agree_canon : Forall canon (listed ov');
  agree_listed v : v = d ∨ v ∈ listed ov' ↔ v = d ∨ v ∈ listed ov
}.

(** The constructor of a dynamic dimension looks the partition up first. *)
Definition readValues (partitions : option Partitions.t) (defaultValue : double) (totalObjects : Z)
    (thriftValues : ValuesThrift.thrift) : result ObjectValues.t :=
  partition ← match thriftValues with
    | ValuesThrift.groupValues partitionId _ =>
        match partitions with
        | None => Throw (runtime_error "Cannot deserialize group-keyed ObjectValues without partitions")
        | Some partitions =>
            partition ← Partitions.getPartition partitions (ofInt partitionId);
            Ok (Some partition)
        end
    | _ => Ok None
    end;
  ValuesThrift.fromThrift thriftValues defaultValue totalObjects partition.

Lemma values_roundTrip n d ps ps' ov : 0 ≤ n < 2 ^ 32 → canon d → Partitions.same ps' ps →
  values_ok n d ps ov →
  ∃ t ov', ValuesThrift.toThrift ov = Ok t ∧ readValues (Some ps') d n t = Ok ov' ∧ values_agree n d ov' ov.
Proof.
  intros Hn Cd Hps. destruct ov as [c|gv p pid d' n'].
  - intros (m & Hm). destruct (objects_roundTrip n d c m Hn Hm)
      as (t & c' & l & l' & Et & Ef & _ & Hs & El & El' & -> & Hl & Hcl).
    eexists _, _. split; [done|]. split; [apply (Ef None)|]. unfold listed. split; [done| | |].
    + by rewrite El'.
    + unfold listed. rewrite El'. by rewrite Hl.
    + unfold listed. rewrite El, El'. intros v. by rewrite Hl.
  - intros (-> & -> & Hpid & Hp & gs & -> & Hg).
    specialize (Hps pid) as Hsame. rewrite Hp in Hsame. inversion Hsame as [p' ? Hs E'|]; subst.
    destruct (groups_roundTrip n d gv gs pid p' Cd Hpid Hg Hs) as (gv' & Et & Ef & Hg' & Hv & Hlist).
    eexists _, _. split; [done|]. split.
    { unfold readValues, Partitions.getPartition. rewrite ofInt_asInt by done. rewrite <- E'. exact Ef. }
    pose proof (PartitionThrift.same_groups _ _ Hs) as Egs. simpl in Egs.
    pose proof (λ v, group_values_listed n d gv' gs p' pid v Hg' Egs) as L'.
    pose proof (λ v, group_values_listed n d gv gs (Partition.make gs) pid v Hg eq_refl) as L.
    unfold listed. split; [done| | |].
    + destruct (L' d) as (l & -> & _). done.
    + apply Forall_forall. unfold listed. intros v Hin. destruct (L' v) as (l & E & Hl). rewrite E in Hin.
      apply Hl in Hin as (g & o & os & Hgv & _). by eapply (go_canon _ _ _ _ Hg').
    + unfold listed. intros v. destruct (L' v) as (l' & -> & ->), (L v) as (l & -> & ->). apply Hlist.
Qed.
End either.
