(* ===== verification/DynamicDimension.v ===== *)
(** * Dimensions whose values depend on the placement

    entities/ObjectDynamicDimension.cpp: every item of a scope has values of its own,
    given for objects or for the groups of a disjoint partition.  The constructors
    establish an invariant, the serialization keeps the answers to all queries, and a
    dimension given by groups answers as the one given by their objects. *)

From S2P Require Import Prelude Double Exact ChangeSet Bits CompressedIdMap ObjectValues.
From S2P Require Import Entities Partitions Dimensions.
Import EntityId ObjectDimensionValueStats (observe, observeAll, init).

(** ** ObjectDynamicDimension *)
Module ObjectDynamicDimension.
Section dynamic.
Context `{HashOrder}.

Record t := mk {
  scopeId : Z;
  objectValues : gmap Z ObjectValues.t;
  emptyObjectValues : ObjectValues.t;
  defaultValue : double;
  hasNegativeValues : bool;
  minimumPositiveValue : option double;
  maximumValue : double;
  hasZeroValuedObjects : bool;
  scopeItemToHasZeroValue : gmap Z bool
}.

Record thrift := mkThrift {
  thrift_scopeId : Z;
  thrift_scopedValues : gmap Z ValuesThrift.thrift;
  thrift_defaultValue : double
}.

Definition makeEmptyValues (totalObjects : Z) (defaultValue : double) : ObjectValues.t :=
  ObjectValues.ObjectBacked (CompressedIdMap.make totalObjects defaultValue 0).

(** What the loops of the constructors accumulate. *)
Definition state : Type := gmap Z ObjectValues.t * ObjectDimensionValueStats.t * gmap Z bool.

(** One item: its values [ov], and the values observed. *)
Definition addItem (s : state) (scopeItemId : Z) (ov : ObjectValues.t) (observed : list double) : state :=
  let '(objectValues, stats, zero) := s in
  (emplace objectValues scopeItemId ov, observeAll stats observed,
   if existsb ObjectDimensionValueStats.isZero observed then emplace zero scopeItemId true else zero).

(** [addValues] *)
Definition addValues (s : state) (scopeItemId : Z) (ov : ObjectValues.t) : result state :=
  entries ← ObjectValues.forEachNonDefault ov;
  Ok (addItem s scopeItemId ov entries.*2).

Definition initial (defaultValue : double) : state := (∅, observe init defaultValue, ∅).

Definition finish (scopeId : Z) (emptyObjectValues : ObjectValues.t) (defaultValue : double) (s : state) : t :=
  let '(objectValues, stats, zero) := s in
  mk scopeId objectValues emptyObjectValues defaultValue
     (ObjectDimensionValueStats.hasNegative stats) (ObjectDimensionValueStats.getMinPositive stats)
     (ObjectDimensionValueStats.maxValue stats) (ObjectDimensionValueStats.hasZero stats) zero.

(** The constructor from values of objects. *)
Definition makeObjects (scopeId : Z) (values : gmap Z (CompressedIdMap.t (V := double)))
    (defaultValue : double) (totalObjects : Z) : result t :=
  s ← foldM (λ s '(scopeItemId, map), addValues s scopeItemId (ObjectValues.ObjectBacked map))
        (initial defaultValue) (hash_iter values);
  Ok (finish scopeId (makeEmptyValues totalObjects defaultValue) defaultValue s).

(** The constructor from values of groups. *)
Definition observeGroups (partition : Partition.t) (groupValues : gmap Z double) : result (list double) :=
  foldM (λ acc '(groupId, value),
    objectIds ← Partition.getObjectIds partition groupId;
    Ok (match objectIds with [] => acc | _ => acc ++ [value] end)) [] (hash_iter groupValues).

Definition makeGroups (scopeId : Z) (partition : Partition.t) (values : gmap Z (gmap Z double))
    (defaultValue : double) (totalObjects partitionId : Z) : result t :=
  emptyObjectValues ← ObjectValues.ofGroups (Some ∅) (Some partition) defaultValue totalObjects partitionId;
  s ← foldM (λ s '(scopeItemId, groupValues),
        observed ← observeGroups partition groupValues;
        ov ← ObjectValues.ofGroups (Some groupValues) (Some partition) defaultValue totalObjects partitionId;
        Ok (addItem s scopeItemId ov observed)) (initial defaultValue) (hash_iter values);
  Ok (finish scopeId emptyObjectValues defaultValue s).

Definition fromThrift (d : thrift) (totalObjects : Z) (partitions : option Partitions.t) : result t :=
  let defaultValue := thrift_defaultValue d in
  s ← foldM (λ s '(scopeItemIdInt, thriftValues),
        ov ← readValues partitions defaultValue totalObjects thriftValues;
        addValues s (ofInt scopeItemIdInt) ov) (initial defaultValue) (hash_iter (thrift_scopedValues d));
  Ok (finish (ofInt (thrift_scopeId d)) (makeEmptyValues totalObjects defaultValue) defaultValue s).

Definition toThrift (d : t) : result thrift :=
  scopedValues ← transformMapM asInt ValuesThrift.toThrift (objectValues d);
  Ok (mkThrift (asInt (scopeId d)) scopedValues (defaultValue d)).

Definition valuesOf (d : t) (scopeItemId : Z) : ObjectValues.t :=
  default (emptyObjectValues d) (objectValues d !! scopeItemId).

Definition values (d : t) (scopeItemId : option Z) : result ObjectValues.t :=
  match scopeItemId with
  | None => Throw (runtime_error "values of an object dynamic dimension depend on the scope item")
  | Some i => Ok (valuesOf d i)
  end.

Definition getValueFor (d : t) (objectId scopeItemId : Z) : result double :=
  ObjectValues.getObjectValue (valuesOf d scopeItemId) objectId.

Definition getValue (d : t) (objectId : Z) (scopeItemId : option Z) : result double :=
  match scopeItemId with None => Ok (defaultValue d) | Some i => getValueFor d objectId i end.

Definition getValueSafe (d : t) (objectId : Z) (scopeScopeItemPair : option (Z * Z)) : result double :=
  match scopeScopeItemPair with
  | None => Ok (defaultValue d)
  | Some (s, i) =>
      if negb (s =? scopeId d) then Throw (runtime_error "scopeItemId is out of scope")
      else getValueFor d objectId i
  end.

(** [hasZeroValuedObjects(scopeItemId)] *)
Definition hasZeroValuedObjectsAt (d : t) (scopeItemId : Z) : bool :=
  if (defaultValue d =? d0)%D then true else default false (scopeItemToHasZeroValue d !! scopeItemId).

(** *** What the constructors establish *)
Definition stats_of (d : t) (l : list double) : Prop :=
  let stats := observeAll init l in
  hasNegativeValues d = ObjectDimensionValueStats.hasNegative stats ∧
  minimumPositiveValue d = ObjectDimensionValueStats.getMinPositive stats ∧
  maximumValue d = ObjectDimensionValueStats.maxValue stats ∧
  hasZeroValuedObjects d = ObjectDimensionValueStats.hasZero stats.

Record wf (n : Z) (ps : Partitions.t) (d : t) : Prop := {
  wf_scope : valid (scopeId d);
  wf_default : canon (defaultValue d);
  wf_values i ov : objectValues d !! i = Some ov → valid i ∧ values_ok n (defaultValue d) ps ov;
  wf_empty : values_same n (makeEmptyValues n (defaultValue d)) (emptyObjectValues d);
  wf_stats : ∃ l, stats_of d l ∧ Forall canon l ∧
    ∀ v, v ∈ l ↔ v = defaultValue d ∨ ∃ i ov, objectValues d !! i = Some ov ∧ v ∈ listed ov;
  wf_zero i : default false (scopeItemToHasZeroValue d !! i) = true ↔
    ∃ ov, objectValues d !! i = Some ov ∧ d0 ∈ listed ov
}.

Record same (n : Z) (d1 d2 : t) : Prop := {
  same_scope : scopeId d1 = scopeId d2;
  same_default : defaultValue d1 = defaultValue d2;
  same_items i : is_Some (objectValues d1 !! i) ↔ is_Some (objectValues d2 !! i);
  same_values i : values_same n (valuesOf d1 i) (valuesOf d2 i);
  same_negative : hasNegativeValues d1 = hasNegativeValues d2;
  same_zero : hasZeroValuedObjects d1 = hasZeroValuedObjects d2;
  same_minimum : minimumPositiveValue d1 = minimumPositiveValue d2;
  same_maximum : maximumValue d1 = maximumValue d2;
  same_zeroAt i : hasZeroValuedObjectsAt d1 i = hasZeroValuedObjectsAt d2 i
}.

(** The loops, with the values of every item converted. *)
Definition addAll (s : state) (l : list (Z * (ObjectValues.t * list double))) : state :=
  foldl (λ s '(i, (ov, observed)), addItem s i ov observed) s l.

Lemma addAll_split l : ∀ m stats zero, addAll (m, stats, zero) l =
  (emplaceAll m ((λ '(i, (ov, _)), (i, ov)) <$> l), observeAll stats (l ≫= λ e, e.2.2),
   emplaceAll zero ((λ '(i, _), (i, true)) <$>
     filter (λ e : Z * (ObjectValues.t * list double), existsb ObjectDimensionValueStats.isZero e.2.2 = true) l)).
Proof.
  induction l as [|[i [ov os]] l IH]; intros m stats zero; [done|]. unfold addAll in *. cbn [foldl addItem].
  rewrite IH. rewrite filter_cons. simpl. unfold observeAll. rewrite foldl_app.
  destruct (existsb _ os); done.
Qed.

Lemma zero_listed l : Forall canon l →
  (existsb ObjectDimensionValueStats.isZero l = true ↔ d0 ∈ l).
Proof.
  intros Hl. rewrite existsb_exists. rewrite Forall_forall in Hl. split.
  - intros (v & Hv & Hz). rewrite <- list_elem_of_In in Hv. unfold ObjectDimensionValueStats.isZero in Hz.
    rewrite (canon_eq _ _ (Hl v Hv) d0_canon) in Hz. by apply bool_decide_eq_true in Hz as <-.
  - intros Hv. exists d0. by rewrite <- list_elem_of_In.
Qed.

(** The keys of the loop are those of a map. *)
Definition keyed {A} (l : list (Z * A)) : Prop := ∀ i x y, (i, x) ∈ l → (i, y) ∈ l → x = y.

Lemma keyed_lookup {A} (l : list (Z * A)) i x : keyed l → (emplaceAll ∅ l !! i = Some x ↔ (i, x) ∈ l).
Proof.
  intros Hl. rewrite emplaceAll_empty. split; [apply elem_of_list_to_map_2|].
  intros Hx. apply elem_of_list_to_map_1'; [|done]. intros y Hy. by apply (Hl i).
Qed.

Lemma dynamic_finish_spec sid e dv l : keyed l → Forall (λ x, Forall canon x.2.2) l →
  let d := finish sid e dv (addAll (initial dv) l) in
  scopeId d = sid ∧ emptyObjectValues d = e ∧ defaultValue d = dv ∧
  (∀ i ov, objectValues d !! i = Some ov ↔ ∃ os, (i, (ov, os)) ∈ l) ∧
  stats_of d (dv :: (l ≫= λ x, x.2.2)) ∧
  ∀ i, default false (scopeItemToHasZeroValue d !! i) = true ↔ ∃ ov os, (i, (ov, os)) ∈ l ∧ d0 ∈ os.
Proof.
  intros Hk Hc. unfold initial. rewrite addAll_split. simpl. split_and!; try done.
  - intros i ov. rewrite keyed_lookup.
    + rewrite list_elem_of_fmap. split; [intros ([j [ov' os]] & [= -> ->] & Hin); eauto|].
      intros [os Hin]. by exists (i, (ov, os)).
    + intros j x y ([? [? os1]] & [= <- ->] & H1)%list_elem_of_fmap ([? [? os2]] & [= <- ->] & H2)%list_elem_of_fmap.
      specialize (Hk _ _ _ H1 H2). congruence.
  - intros i.
    assert (∀ b, emplaceAll ∅ ((λ '(i, _), (i, true)) <$>
      filter (λ x : Z * (ObjectValues.t * list double), existsb ObjectDimensionValueStats.isZero x.2.2 = true) l) !! i = Some b ↔
      b = true ∧ ∃ ov os, (i, (ov, os)) ∈ l ∧ d0 ∈ os) as Hz.
    { intros b. rewrite Forall_forall in Hc. rewrite keyed_lookup.
      - rewrite list_elem_of_fmap. split.
        + intros ([j [ov os]] & [= -> ->] & [Hz Hin]%list_elem_of_filter). split; [done|]. exists ov, os.
          split; [done|]. by apply zero_listed in Hz; [|apply (Hc _ Hin)].
        + intros [-> (ov & os & Hin & Hz)]. exists (i, (ov, os)). split; [done|]. apply list_elem_of_filter.
          split; [|done]. by apply zero_listed; [apply (Hc _ Hin)|].
      - intros j x y ([? ?] & [= _ ->] & _)%list_elem_of_fmap ([? ?] & [= _ ->] & _)%list_elem_of_fmap. done. }
    destruct (_ !! i) as [b|]; simpl.
    + destruct (proj1 (Hz b) eq_refl) as [-> ?]. done.
    + split; [done|]. intros Hx. by pose proof (proj2 (Hz true) (conj eq_refl Hx)).
Qed.

(** The loop of the constructor from the serialized form. *)
Lemma read_loop (read : ValuesThrift.thrift → result ObjectValues.t) ts l : ∀ s,
  Forall2 (λ e e', e'.1 = ofInt e.1 ∧ read e.2 = Ok e'.2) ts l →
  Forall (λ e, is_Ok (ObjectValues.forEachNonDefault e.2)) l →
  foldM (λ s '(i, t), ov ← read t; addValues s (ofInt i) ov) s ts =
  Ok (addAll s ((λ '(i, ov), (i, (ov, listed ov))) <$> l)).
Proof.
  intros s Hf. revert s. induction Hf as [|[j t] [i ov] ts l [Ei Eov] _ IH]; intros s Hl; [done|].
  apply Forall_cons in Hl as [Hov Hl]. simpl in Ei, Eov, Hov. subst i. cbn [foldM]. rewrite Eov.
  cbn [mbind result_bind]. unfold addValues. unfold addAll. simpl. unfold listed at 1.
  destruct (ObjectValues.forEachNonDefault ov); [|done]. cbn [mbind result_bind]. by apply IH.
Qed.

(** Dimensions whose items have the same values answer the same queries. *)
Lemma agreeing_same n ps d d' : wf n ps d → scopeId d' = scopeId d → defaultValue d' = defaultValue d →
  emptyObjectValues d' = makeEmptyValues n (defaultValue d) →
  map_same (values_agree n (defaultValue d)) (objectValues d') (objectValues d) →
  (∃ l', stats_of d' l' ∧ ∀ v, v ∈ l' ↔ v = defaultValue d ∨
    ∃ i ov', objectValues d' !! i = Some ov' ∧ v ∈ listed ov') →
  (∀ i, default false (scopeItemToHasZeroValue d' !! i) = true ↔
    ∃ ov', objectValues d' !! i = Some ov' ∧ d0 ∈ listed ov') → same n d' d.
Proof.
  intros [Ws Wd Wv We (l & St & Cl & Hl) Wz] Hs Hd He Hm (l' & St' & Hl') Hz'.
  assert (∀ v, (v = defaultValue d ∨ ∃ i ov', objectValues d' !! i = Some ov' ∧ v ∈ listed ov') ↔
    (v = defaultValue d ∨ ∃ i ov, objectValues d !! i = Some ov ∧ v ∈ listed ov)) as Hv.
  { intros v. split; (intros [?|(i & ov & Hov & Hin)]; [by left|]); specialize (Hm i); rewrite Hov in Hm;
      inversion Hm as [x y Ha E1 E2|]; subst;
      destruct (agree_listed _ _ _ _ Ha v) as [A1 A2]; [destruct (A1 (or_intror Hin))|destruct (A2 (or_intror Hin))];
      eauto 8. }
  assert (observeAll init l = observeAll init l') as Est.
  { apply ObjectDimensionValueStats.observeAll_ext; [done|]. intros v. by rewrite Hl, Hl', Hv. }
  destruct St as (S1 & S2 & S3 & S4), St' as (T1 & T2 & T3 & T4). rewrite Est in *.
  split; try congruence.
  - intros i. destruct (Hm i); rewrite ?is_Some_alt; done.
  - intros i. unfold valuesOf. rewrite He. destruct (Hm i) as [ov' ov Ha|]; simpl; [apply Ha|done].
  - intros i. unfold hasZeroValuedObjectsAt. rewrite Hd. rewrite (canon_eq _ _ Wd d0_canon).
    case_bool_decide as E0; [done|]. apply eq_true_iff_eq. rewrite Wz, Hz'.
    split; intros (ov & Hov & Hin); specialize (Hm i); rewrite Hov in Hm; inversion Hm as [x y Ha E1 E2|]; subst;
      destruct (agree_listed _ _ _ _ Ha d0) as [A1 A2];
      [destruct (A1 (or_intror Hin)) as [?|?]|destruct (A2 (or_intror Hin)) as [?|?]]; eauto; congruence.
Qed.

Lemma dynamic_roundTrip n ps ps' d : 0 ≤ n < 2 ^ 32 → Partitions.same ps' ps → wf n ps d →
  ∃ t d', toThrift d = Ok t ∧ fromThrift t n (Some ps') = Ok d' ∧ same n d' d.
Proof.
  intros Hn Hps W. pose proof W as [Ws Wd Wv _ _ _].
  set (dv := defaultValue d) in *.
  assert (∀ i ov, objectValues d !! i = Some ov → valid i ∧ ∃ t ov', ValuesThrift.toThrift ov = Ok t ∧
    readValues (Some ps') dv n t = Ok ov' ∧ values_agree n dv ov' ov) as RT.
  { intros i ov [Hi Hov]%Wv. split; [done|]. by eapply values_roundTrip. }
  destruct (map_entriesM ValuesThrift.toThrift (readValues (Some ps') dv n) (objectValues d))
    as (ts & l & Ets & Hf & Hl).
  { intros i ov (Hi & t & ov' & Et & Eov & _)%RT. eauto. }
  assert (∀ i ov', (i, ov') ∈ l → ∃ ov, objectValues d !! i = Some ov ∧ values_agree n dv ov' ov) as Hag.
  { intros i ov' (ov & t & Hov & Et & Er)%Hl. exists ov. split; [done|].
    destruct (RT i ov Hov) as (_ & t' & ov'' & Et' & Er' & Hag). congruence. }
  assert (∀ i ov, objectValues d !! i = Some ov → ∃ ov', (i, ov') ∈ l ∧ values_agree n dv ov' ov) as Hga.
  { intros i ov Hov. destruct (RT i ov Hov) as (_ & t & ov' & Et & Er & Ha). exists ov'. split; [|done].
    apply Hl. eauto. }
  set (l' := (λ '(i, ov), (i, (ov, listed ov))) <$> l : list (Z * (ObjectValues.t * list double))).
  assert (∀ i ov os, (i, (ov, os)) ∈ l' ↔ (i, ov) ∈ l ∧ os = listed ov) as Hl'.
  { intros i ov os. unfold l'. rewrite list_elem_of_fmap. split; [by intros ([] & [= -> -> ->] & ?)|].
    intros [Hin ->]. by exists (i, ov). }
  destruct (dynamic_finish_spec (scopeId d) (makeEmptyValues n dv) dv l') as (Fs & Fe & Fd & Fv & Fst & Fz).
  { intros i [ov1 os1] [ov2 os2] [(a1 & t1 & H1 & T1 & R1)%Hl ->]%Hl' [(a2 & t2 & H2 & T2 & R2)%Hl ->]%Hl'.
    congruence. }
  { apply Forall_forall. intros [i [ov os]] [(? & _ & Ha)%Hag ->]%Hl'. apply Ha. }
  set (d' := finish (scopeId d) (makeEmptyValues n dv) dv (addAll (initial dv) l')) in *.
  eexists (mkThrift _ _ _), d'.
  split; [|split].
  { unfold toThrift. rewrite Ets. done. }
  { unfold fromThrift. cbn [thrift_scopedValues thrift_defaultValue thrift_scopeId].
    rewrite ofInt_asInt by done. erewrite read_loop; [done|exact Hf|].
    apply Forall_forall. intros [i ov'] (ov & _ & Ha)%Hag. apply Ha. }
  assert (∀ i ov', objectValues d' !! i = Some ov' ↔ (i, ov') ∈ l) as Fv'.
  { intros i ov'. rewrite Fv. split; [by intros [os [? _]%Hl']|]. intros Hin. eexists. by apply Hl'. }
  apply (agreeing_same n ps); [done..| | |].
  - intros i. destruct (objectValues d !! i) as [ov|] eqn:E.
    + destruct (Hga i ov E) as (ov' & Hin & Ha). rewrite (proj2 (Fv' i ov') Hin). by constructor.
    + destruct (objectValues d' !! i) as [ov'|] eqn:E'; [|constructor]. apply Fv', Hag in E' as (? & ? & _). congruence.
  - eexists. split; [exact Fst|]. intros v. rewrite elem_of_cons, list_elem_of_bind. apply or_iff_compat_l.
    setoid_rewrite Fv'. split.
    + intros ([i [ov os]] & Hv & [Hin ->]%Hl'). eauto.
    + intros (i & ov & Hin & Hv). exists (i, (ov, listed ov)). split; [done|]. by apply Hl'.
  - intros i. rewrite Fz. setoid_rewrite Fv'. split.
    + intros (ov & os & [Hin ->]%Hl' & Hz). eauto.
    + intros (ov & Hin & Hz). exists ov, (listed ov). split; [|done]. by apply Hl'.
Qed.

(** *** The constructors establish the invariant *)
Lemma finish_wf n ps sid e dv l : valid sid → canon dv → keyed l →
  values_same n (makeEmptyValues n dv) e →
  (∀ i ov os, (i, (ov, os)) ∈ l → valid i ∧ values_ok n dv ps ov ∧ Forall canon os ∧ ∀ v, v ∈ os ↔ v ∈ listed ov) →
  wf n ps (finish sid e dv (addAll (initial dv) l)).
Proof.
  intros Hs Hd Hk He Hl.
  assert (Forall (λ x, Forall canon x.2.2) l) as Hc by (apply Forall_forall; intros [i [ov os]] Hin; by eapply Hl).
  destruct (dynamic_finish_spec sid e dv l Hk Hc) as (Fs & Fe & Fd & Fv & Fst & Fz).
  set (d := finish sid e dv (addAll (initial dv) l)) in *. split; rewrite ?Fs, ?Fd, ?Fe; try done.
  - intros i ov [os Hin]%Fv. by destruct (Hl _ _ _ Hin) as (? & ? & _).
  - eexists. split; [exact Fst|]. split.
    + constructor; [done|]. apply Forall_bind. eapply Forall_impl; [exact Hc|]. done.
    + intros v. rewrite elem_of_cons, list_elem_of_bind. apply or_iff_compat_l. setoid_rewrite Fv. split.
      * intros ([i [ov os]] & Hv & Hin). exists i, ov. split; [eauto|]. by apply (Hl _ _ _ Hin).
      * intros (i & ov & [os Hin] & Hv). exists (i, (ov, os)). split; [|done]. by apply (Hl _ _ _ Hin).
  - intros i. rewrite Fz. setoid_rewrite Fv. split.
    + intros (ov & os & Hin & Hz). exists ov. split; [eauto|]. by apply (Hl _ _ _ Hin).
    + intros (ov & [os Hin] & Hz). exists ov, os. split; [done|]. by apply (Hl _ _ _ Hin).
Qed.

Lemma finish_objectValues {A} (f : A → ObjectValues.t) (m : gmap Z A) sid e dv l : keyed l →
  Forall (λ x, Forall canon x.2.2) l → (∀ i ov os, (i, (ov, os)) ∈ l → ∃ a, m !! i = Some a ∧ ov = f a) →
  (∀ i a, m !! i = Some a → ∃ ov os, (i, (ov, os)) ∈ l) →
  ∀ i, objectValues (finish sid e dv (addAll (initial dv) l)) !! i = f <$> m !! i.
Proof.
  intros Hk Hc Hl Hm i. destruct (dynamic_finish_spec sid e dv l Hk Hc) as (_ & _ & _ & Fv & _).
  destruct (m !! i) as [a|] eqn:E; simpl.
  - destruct (Hm i a E) as (ov & os & Hin). apply Fv. exists os.
    destruct (Hl i ov os Hin) as (a' & Ea' & Ef). congruence.
  - apply eq_None_not_Some. intros [ov [os Hin]%Fv]. apply Hl in Hin as (? & ? & _). congruence.
Qed.

Lemma makeEmptyValues_read n dv o : 0 ≤ o < n → n < 2 ^ 32 →
  ObjectValues.getObjectValue (makeEmptyValues n dv) o = Ok dv.
Proof.
  intros Ho Hn. pose proof (CompressedIdMap.make_models deq n dv 0 ltac:(lia)) as Hm. simpl.
  by rewrite (CompressedIdMap.getValue_models deq _ _ o Hm) by done.
Qed.

(** A constructor's loop that converts every item. *)
Lemma build_loop {A} (body : A → result (ObjectValues.t * list double)) (m : gmap Z A) s :
  (∀ i a, m !! i = Some a → ∃ r, body a = Ok r) →
  ∃ l, foldM (λ s '(i, a), '(ov, os) ← body a; Ok (addItem s i ov os)) s (hash_iter m) = Ok (addAll s l) ∧
    keyed l ∧ ∀ i ov os, (i, (ov, os)) ∈ l ↔ ∃ a, m !! i = Some a ∧ body a = Ok (ov, os).
Proof.
  intros Hb.
  assert (∀ k, Forall (λ e, ∃ r, body e.2 = Ok r) k → ∀ s, ∃ l,
    foldM (λ s '(i, a), '(ov, os) ← body a; Ok (addItem s i ov os)) s k = Ok (addAll s l) ∧
    Forall2 (λ e e', e'.1 = e.1 ∧ body e.2 = Ok e'.2) k l) as Hloop.
  { intros k Hk. induction Hk as [|[i a] k [[ov os] Ea] _ IH]; intros s'; [by exists []|].
    destruct (IH (addItem s' i ov os)) as (l & El & Hl). exists ((i, (ov, os)) :: l).
    split; [|by constructor]. cbn [foldM]. simpl in Ea. rewrite Ea. exact El. }
  destruct (Hloop (hash_iter m)) with (s := s) as (l & El & Hl).
  { apply Forall_forall. intros [i a] Hin%hash_iter_elem. by eapply Hb. }
  assert (∀ i r, (i, r) ∈ l ↔ ∃ a, m !! i = Some a ∧ body a = Ok r) as Hin.
  { intros i r. setoid_rewrite <- hash_iter_elem. split.
    - intros [k Hk]%list_elem_of_lookup. destruct (Forall2_lookup_r _ _ _ _ _ Hl Hk) as ([j a] & Hj & E & Er).
      simpl in *. subst j. exists a. split; [|done]. by eapply list_elem_of_lookup_2.
    - intros (a & [k Hk]%list_elem_of_lookup & Er).
      destruct (Forall2_lookup_l _ _ _ _ _ Hl Hk) as ([j r'] & Hj & E & Er'). simpl in *.
      replace (i, r) with (j, r') by congruence. by eapply list_elem_of_lookup_2. }
  exists l. split_and!; [done| |intros; by apply Hin].
  intros i r1 r2 (a1 & H1 & E1)%Hin (a2 & H2 & E2)%Hin. congruence.
Qed.

Lemma observeGroups_spec gs gv n d : groups_ok n d gv gs →
  ∃ os, observeGroups (Partition.make gs) gv = Ok os ∧ ∀ v, v ∈ os ↔ group_values gv gs v.
Proof.
  intros Hg. unfold observeGroups.
  assert (∀ (l : list (Z * double)) (acc : list double), (∀ g v, (g, v) ∈ l → is_Some (gs !! g)) → ∃ os,
    foldM (λ acc '(groupId, value), objectIds ← Partition.getObjectIds (Partition.make gs) groupId;
      Ok (match objectIds with [] => acc | _ => acc ++ [value] end)) acc l = Ok os ∧
    ∀ v, v ∈ os ↔ v ∈ acc ∨ ∃ g o os, (g, v) ∈ l ∧ gs !! g = Some (o :: os)) as Hloop.
  { intros l. induction l as [|[g w] l IH]; intros acc Hl.
    - exists acc. split; [done|]. intros v. split; [by left|]. intros [?|(? & ? & ? & []%not_elem_of_nil & _)]; done.
    - destruct (Hl g w ltac:(left)) as [os Eg].
      destruct (IH (match os with [] => acc | _ => acc ++ [w] end)) as (r & Er & Hr).
      { intros g' v' Hin. apply (Hl g' v'). by right. }
      exists r. split.
      + assert (Partition.getObjectIds (Partition.make gs) g = Ok os) as Eo
          by (unfold Partition.getObjectIds; simpl Partition.groups; by rewrite Eg).
        cbn [foldM]. rewrite Eo. exact Er.
      + intros v. rewrite Hr. setoid_rewrite elem_of_cons. destruct os as [|o os].
        * split; [naive_solver|]. intros [?|(g' & o & os & [[= -> ->]|?] & ?)]; [by left|congruence|eauto 8].
        * rewrite elem_of_app, list_elem_of_singleton. naive_solver. }
  destruct (Hloop (hash_iter gv) []) as (os & E & Hos).
  { intros g v Hin%hash_iter_elem. apply (go_known _ _ _ _ Hg). by eexists. }
  exists os. split; [done|]. intros v. rewrite Hos. unfold group_values. setoid_rewrite hash_iter_elem.
  split; [intros [[]%not_elem_of_nil|?]; done|by right].
Qed.

Lemma makeObjects_wf n ps sid dv values : 0 ≤ n < 2 ^ 32 → valid sid → canon dv →
  (∀ i c, values !! i = Some c → valid i ∧ ∃ m, objects_ok n dv c m) →
  ∃ d, makeObjects sid values dv n = Ok d ∧ wf n ps d ∧ scopeId d = sid ∧ defaultValue d = dv ∧
    emptyObjectValues d = makeEmptyValues n dv ∧
    ∀ i, objectValues d !! i = ObjectValues.ObjectBacked <$> values !! i.
Proof.
  intros Hn Hs Hd Hv.
  set (body := λ c : CompressedIdMap.t (V := double), entries ← CompressedIdMap.forEachNonDefault c;
    Ok (ObjectValues.ObjectBacked c, entries.*2) : result _).
  destruct (build_loop body values (initial dv)) as (l & El & Hk & Hl).
  { intros i c (_ & m & Hm & _)%Hv. destruct (CompressedIdMap.forEachNonDefault_models deq c m Hm) as (es & E & _).
    eexists. unfold body. by rewrite E. }
  assert (∀ i ov os, (i, (ov, os)) ∈ l → valid i ∧ values_ok n dv ps ov ∧ Forall canon os ∧
    ∀ v, v ∈ os ↔ v ∈ listed ov) as Hok.
  { intros i ov os (c & Hc & Eb)%Hl. unfold body in Eb. apply Hv in Hc as (Hi & m & Hm).
    destruct (objects_roundTrip n dv c m Hn Hm) as (? & ? & es & ? & _ & _ & _ & _ & E & _ & _ & _ & Hes).
    simpl in E. rewrite E in Eb. injection Eb as <- <-. unfold listed. simpl. rewrite E. split_and!; eauto. }
  assert (Forall (λ x, Forall canon x.2.2) l) as Hc by (apply Forall_forall; intros [i [ov os]] Hin; by eapply Hok).
  destruct (dynamic_finish_spec sid (makeEmptyValues n dv) dv l Hk Hc) as (Fs & Fe & Fd & _).
  exists (finish sid (makeEmptyValues n dv) dv (addAll (initial dv) l)). split_and!; try done.
  - unfold makeObjects. erewrite foldM_ext; [by rewrite El|]. intros s [i c] _. unfold addValues, body. simpl.
    by destruct (CompressedIdMap.forEachNonDefault c).
  - by apply finish_wf; [..|split_and!|].
  - apply finish_objectValues; [done|done| |].
    + intros i ov os (c & Hc0 & Eb)%Hl. exists c. split; [done|]. unfold body in Eb.
      destruct (CompressedIdMap.forEachNonDefault c); [|done]. by injection Eb as <- _.
    + intros i c Hi. destruct (Hv i c Hi) as (_ & m & Hm & _).
      destruct (CompressedIdMap.forEachNonDefault_models deq c m Hm) as (es & E & _).
      eexists _, _. apply Hl. exists c. split; [done|]. unfold body. by rewrite E.
Qed.

Lemma makeGroups_wf n ps sid dv pid gs values : 0 ≤ n < 2 ^ 32 → valid sid → canon dv → valid pid →
  Partitions.partitions ps !! pid = Some (Partition.make gs) → Partition.isDisjoint (Partition.make gs) = true →
  (∀ i gv, values !! i = Some gv → valid i ∧ groups_ok n dv gv gs) →
  ∃ d, makeGroups sid (Partition.make gs) values dv n pid = Ok d ∧ wf n ps d ∧ scopeId d = sid ∧
    defaultValue d = dv ∧
    ∀ i, objectValues d !! i = (λ gv, ObjectValues.GroupBacked gv (Partition.make gs) pid dv n) <$> values !! i.
Proof.
  intros Hn Hs Hd Hp Hps Hdis Hv. set (p := Partition.make gs) in *.
  assert (∀ gv, ObjectValues.ofGroups (Some gv) (Some p) dv n pid = Ok (ObjectValues.GroupBacked gv p pid dv n)) as Eof.
  { intros gv. unfold ObjectValues.ofGroups. by rewrite Hdis. }
  set (body := λ gv, observed ← observeGroups p gv;
    Ok (ObjectValues.GroupBacked gv p pid dv n, observed) : result _).
  destruct (build_loop body values (initial dv)) as (l & El & Hk & Hl).
  { intros i gv [_ Hg]%Hv. destruct (observeGroups_spec gs gv n dv Hg) as (os & E & _). eexists. unfold body, p. by rewrite E. }
  assert (∀ i ov os, (i, (ov, os)) ∈ l → valid i ∧ values_ok n dv ps ov ∧ Forall canon os ∧
    ∀ v, v ∈ os ↔ v ∈ listed ov) as Hok.
  { intros i ov os (gv & Hgv & Eb)%Hl. unfold body in Eb. apply Hv in Hgv as [Hi Hg].
    destruct (observeGroups_spec gs gv n dv Hg) as (os' & E & Hos). unfold p in Eb. rewrite E in Eb.
    injection Eb as <- <-. split; [done|]. split; [split_and!; try done; by exists gs|]. split.
    - apply Forall_forall. intros v (g & o & os & Hgv & _)%Hos. by eapply (go_canon _ _ _ _ Hg).
    - intros v. destruct (group_values_listed n dv gv gs p pid v Hg eq_refl) as (es & Ees & Hes).
      unfold listed. fold p. rewrite Ees. by rewrite Hos, Hes. }
  assert (Forall (λ x, Forall canon x.2.2) l) as Hc by (apply Forall_forall; intros [i [ov os]] Hin; by eapply Hok).
  destruct (dynamic_finish_spec sid (ObjectValues.GroupBacked ∅ p pid dv n) dv l Hk Hc) as (Fs & Fe & Fd & _).
  exists (finish sid (ObjectValues.GroupBacked ∅ p pid dv n) dv (addAll (initial dv) l)). split_and!; try done.
  - unfold makeGroups. rewrite Eof. cbn [mbind result_bind]. erewrite foldM_ext; [by rewrite El|].
    intros s [i gv] _. unfold body. destruct (observeGroups p gv); [|done]. cbn [mbind result_bind]. by rewrite Eof.
  - apply finish_wf; [done..| |done]. split_and!; [done..|]. intros o Ho. rewrite makeEmptyValues_read by lia. simpl.
    destruct (_ !! o) as [[|g ?]|]; [done| |done]. by rewrite lookup_empty.
  - apply finish_objectValues; [done|done| |].
    + intros i ov os (gv & Hgv & Eb)%Hl. exists gv. split; [done|]. unfold body in Eb.
      destruct (observeGroups p gv); [|done]. by injection Eb as <- _.
    + intros i gv Hgv. destruct (Hv i gv Hgv) as [_ Hg]. destruct (observeGroups_spec gs gv n dv Hg) as (os & E & _).
      eexists _, _. apply Hl. exists gv. split; [done|]. unfold body, p. by rewrite E.
Qed.

(** *** Values of groups stand for the values of their objects *)
Definition expands (n : Z) (dv : double) (gs : gmap Z (list Z)) (c : CompressedIdMap.t (V := double))
    (gv : gmap Z double) : Prop :=
  ∃ m, objects_ok n dv c m ∧
    ∀ o v, m !! o = Some v ↔ v ≠ dv ∧ ∃ g os, gv !! g = Some v ∧ gs !! g = Some os ∧ o ∈ os.

Lemma expands_agree n dv gs pid c gv : 0 ≤ n < 2 ^ 32 → groups_ok n dv gv gs →
  (∀ g os o, gs !! g = Some os → o ∈ os → 0 ≤ o < n) → expands n dv gs c gv →
  values_agree n dv (ObjectValues.ObjectBacked c) (ObjectValues.GroupBacked gv (Partition.make gs) pid dv n).
Proof.
  intros Hn Hg Hr (m & Hm & Hmv).
  destruct (objects_roundTrip n dv c m Hn Hm) as (? & ? & es & ? & _ & _ & _ & _ & E & _ & _ & _ & Hes).
  destruct Hm as (Hc & Ht & Hd & _).
  assert (∀ v, v ∈ listed (ObjectValues.ObjectBacked c) ↔ ∃ o, m !! o = Some v) as Hlist.
  { intros v. unfold listed. rewrite E. destruct (CompressedIdMap.forEachNonDefault_models deq c m Hc) as (es' & E' & Hp).
    simpl in E. rewrite E in E'. injection E' as <-. rewrite Hp, list_elem_of_fmap.
    setoid_rewrite <- elem_of_map_to_list. split; [intros ([o w] & -> & ?); eauto|].
    intros [o Ho]. by exists (o, v). }
  split.
  - split; [done|]. split; [done|]. split; [done|]. intros o Ho.
    pose proof (ObjectValues.group_backed_models gv gs pid dv n (go_disjoint _ _ _ _ Hg) (go_known _ _ _ _ Hg) Hr) as Hgm.
    rewrite (ObjectValues.models_value _ _ Hgm o Ho). simpl.
    rewrite (CompressedIdMap.getValue_models deq c m o Hc) by lia. rewrite Hd. f_equal.
    destruct (list_to_map _ !! o) as [v|] eqn:Eo.
    + apply elem_of_list_to_map_2, ObjectValues.elem_of_group_entries in Eo as (g & os & Hgv & Hgs & Hos).
      destruct (decide (v = dv)) as [->|Hne].
      * destruct (m !! o) as [w|] eqn:Ew; [|done]. apply Hmv in Ew as (_ & g' & os' & Hgv' & Hgs' & Hos').
        pose proof (Partition.disjoint_group gs g os o (go_disjoint _ _ _ _ Hg) Hgs Hos).
        pose proof (Partition.disjoint_group gs g' os' o (go_disjoint _ _ _ _ Hg) Hgs' Hos'). simpl. congruence.
      * by rewrite (proj2 (Hmv o v)) by eauto 8.
    + destruct (m !! o) as [w|] eqn:Ew; [|done]. apply Hmv in Ew as (_ & Hex).
      apply not_elem_of_list_to_map_2 in Eo. destruct Eo.
      apply (list_elem_of_fmap_2 fst (_ : list (Z * double)) (o, w)). by apply ObjectValues.elem_of_group_entries.
  - by rewrite E.
  - unfold listed. by rewrite E.
  - intros v. rewrite Hlist. destruct (group_values_listed n dv gv gs (Partition.make gs) pid v Hg eq_refl) as (l & El & Hl).
    unfold listed. rewrite El, Hl. split.
    + intros [->|[o (? & g & os & Hgv & Hgs & Hos)%Hmv]]; [by left|right]. destruct os as [|o1 os]; [by apply not_elem_of_nil in Hos|].
      by exists g, o1, os.
    + intros [->|(g & o & os & Hgv & Hgs)]; [by left|]. destruct (decide (v = dv)); [by left|right].
      exists o. apply Hmv. split; [done|]. exists g, (o :: os). split_and!; [done..|left].
Qed.

Lemma groups_as_objects n sid dv pid gs values cs : 0 ≤ n < 2 ^ 32 → valid sid → canon dv → valid pid →
  Partition.isDisjoint (Partition.make gs) = true →
  (∀ g os o, gs !! g = Some os → o ∈ os → 0 ≤ o < n) →
  (∀ i gv, values !! i = Some gv → valid i ∧ groups_ok n dv gv gs) →
  (∀ i, option_Forall2 (expands n dv gs) (cs !! i) (values !! i)) →
  ∃ d d', makeGroups sid (Partition.make gs) values dv n pid = Ok d ∧ makeObjects sid cs dv n = Ok d' ∧ same n d' d.
Proof.
  intros Hn Hs Hd Hp Hdis Hr Hv He. set (ps := Partitions.mk {[pid := Partition.make gs]}).
  destruct (makeGroups_wf n ps sid dv pid gs values) as (d & E & W & Ws & Wd & Wv);
    [done..|apply lookup_singleton_eq|done|done|].
  destruct (makeObjects_wf n ps sid dv cs) as (d' & E' & W' & Ws' & Wd' & We' & Wv'); [done..| |].
  { intros i c Hc. specialize (He i). rewrite Hc in He. inversion He as [c' gv Hx Ec' Egv|]; subst. destruct Hx as (m & Hm & _).
    split; [|by exists m]. by destruct (Hv i gv (eq_sym Egv)). }
  exists d, d'. split; [done|]. split; [done|].
  destruct (wf_stats _ _ _ W') as (l & St & _ & Hl). rewrite Wd' in Hl.
  apply (agreeing_same n ps); rewrite ?Wd; [done|congruence|done|done| |by exists l|apply (wf_zero _ _ _ W')].
  intros i. rewrite Wv, Wv'. specialize (He i). destruct (values !! i) as [gv|] eqn:Ev;
    inversion He as [c ? Hc Ec|Ec]; subst; simpl; constructor.
  apply expands_agree; try done. by eapply Hv.
Qed.
End dynamic.
End ObjectDynamicDimension.
