(* ===== verification/ObjectDimensions.v ===== *)
(** * Object dimensions as the universe holds them

    entities/ObjectPartitionRoutingDimension.cpp, the virtual methods of
    entities/ObjectScalarDimension.h over its three implementations,
    entities/ObjectDimension.cpp (a vector of scalar dimensions) and
    entities/Objects.cpp. *)

From S2P Require Import Prelude Double Exact ChangeSet Bits CompressedIdMap ObjectValues.
From S2P Require Import Entities Partitions Dimensions DynamicDimension.
Import EntityId ObjectDimensionValueStats (observe, observeAll, init).

(** ** ObjectPartitionRoutingDimension *)
Module ObjectPartitionRoutingDimension.
Section routing.
Context `{HashOrder}.

Record t := mk {
  groupIdToValue : gmap Z double;
  groupIdToStaticValue : gmap Z double;
  defaultValue : double;
  defaultStaticValue : double;
  partitionId : Z;
  routingConfigId : Z;
  hasNegativeValues : bool;
  minimumPositiveValue : option double;
  maximumValue : double
}.

Record thrift := mkThrift {
  thrift_groupIdToValue : gmap Z double;
  thrift_groupIdToStaticValue : gmap Z double;
  thrift_defaultValue : double;
  thrift_defaultStaticValue : double;
  thrift_partitionId : Z;
  thrift_routingConfigId : Z
}.

Definition finish (groupIdToValue groupIdToStaticValue : gmap Z double)
    (defaultValue defaultStaticValue : double) (partitionId routingConfigId : Z)
    (stats : ObjectDimensionValueStats.t) : t :=
  mk groupIdToValue groupIdToStaticValue defaultValue defaultStaticValue partitionId routingConfigId
     (ObjectDimensionValueStats.hasNegative stats) (ObjectDimensionValueStats.getMinPositive stats)
     (ObjectDimensionValueStats.maxValue stats).

Definition make (groupIdToValue : gmap Z double) (defaultValue : double) (partitionId routingConfigId : Z)
    (groupIdToStaticValue : gmap Z double) (defaultStaticValue : double) : t :=
  finish groupIdToValue groupIdToStaticValue defaultValue defaultStaticValue partitionId routingConfigId
    (observeAll (observe init defaultValue) (hash_iter groupIdToValue).*2).

(** The entries that differ from the default. *)
Definition readValues (values : gmap Z double) (defaultValue : double) : gmap Z double :=
  foldl (λ m '(groupId, value), if (value =? defaultValue)%D then m else emplace m (ofInt groupId) value) ∅
    (hash_iter values).

Definition fromThrift (d : thrift) : t :=
  let defaultValue := thrift_defaultValue d in
  let stats := foldl (λ stats '(_, value), if (value =? defaultValue)%D then stats else observe stats value)
    init (hash_iter (thrift_groupIdToValue d)) in
  finish (readValues (thrift_groupIdToValue d) defaultValue)
    (readValues (thrift_groupIdToStaticValue d) (thrift_defaultStaticValue d))
    defaultValue (thrift_defaultStaticValue d) (ofInt (thrift_partitionId d)) (ofInt (thrift_routingConfigId d))
    (observe stats defaultValue).

Definition toThrift (d : t) : thrift :=
  mkThrift (transformMap asInt id (groupIdToValue d)) (transformMap asInt id (groupIdToStaticValue d))
    (defaultValue d) (defaultStaticValue d) (asInt (partitionId d)) (asInt (routingConfigId d)).

Definition getValue (d : t) (groupId : Z) : double := default (defaultValue d) (groupIdToValue d !! groupId).
Definition getStaticValue (d : t) (groupId : Z) : double :=
  default (defaultStaticValue d) (groupIdToStaticValue d !! groupId).

(** *** The round trip drops the entries that equal the default *)
Definition map_ok (m : gmap Z double) : Prop := map_wf canon m.

Record wf (d : t) : Prop := {
  wf_values : map_ok (groupIdToValue d);
  wf_statics : map_ok (groupIdToStaticValue d);
  wf_default : canon (defaultValue d);
  wf_defaultStatic : canon (defaultStaticValue d);
  wf_partition : valid (partitionId d);
  wf_routing : valid (routingConfigId d);
  wf_made : d = make (groupIdToValue d) (defaultValue d) (partitionId d) (routingConfigId d)
                  (groupIdToStaticValue d) (defaultStaticValue d)
}.

Record same (d1 d2 : t) : Prop := {
  same_value g : getValue d1 g = getValue d2 g;
  same_static g : getStaticValue d1 g = getStaticValue d2 g;
  same_default : defaultValue d1 = defaultValue d2;
  same_partition : partitionId d1 = partitionId d2;
  same_routing : routingConfigId d1 = routingConfigId d2;
  same_negative : hasNegativeValues d1 = hasNegativeValues d2;
  same_minimum : minimumPositiveValue d1 = minimumPositiveValue d2;
  same_maximum : maximumValue d1 = maximumValue d2
}.

Lemma readValues_spec m d : map_ok m → canon d →
  (∀ g v, readValues (transformMap asInt id m) d !! g = Some v ↔ m !! g = Some v ∧ v ≠ d) ∧
  ∀ g, default d (readValues (transformMap asInt id m) d !! g) = default d (m !! g).
Proof.
  intros Hm Hd. assert (readValues (transformMap asInt id m) d = filter (λ e, (e.2 =? d)%D = false) m) as ->.
  { apply group_values_read. intros g [v Hg]%elem_of_dom. by eapply Hm. }
  assert (∀ g v, filter (λ e : Z * double, (e.2 =? d)%D = false) m !! g = Some v ↔ m !! g = Some v ∧ v ≠ d) as Hf.
  { intros g v. rewrite map_lookup_filter_Some. simpl. split; intros [Hv E]; split; try done;
      rewrite (canon_eq v d (proj2 (Hm g v Hv)) Hd), bool_decide_eq_false in *; done. }
  split; [done|]. intros g. destruct (filter _ m !! g) as [v|] eqn:E.
  - by apply Hf in E as [-> _].
  - destruct (m !! g) as [w|] eqn:Ew; [|done]. simpl. destruct (decide (w = d)) as [|Hne]; [done|].
    assert (filter (λ e : Z * double, (e.2 =? d)%D = false) m !! g = Some w) by (by apply Hf). congruence.
Qed.

Lemma read_stats m d : map_ok m → canon d →
  observe (foldl (λ stats '(_, value), if (value =? d)%D then stats else observe stats value) init
    (hash_iter (transformMap asInt id m))) d =
  observeAll (observe init d) (hash_iter m).*2.
Proof.
  intros Hm Hd. set (l := hash_iter (transformMap asInt id m)).
  assert (∀ v, v ∈ l.*2 ↔ v ∈ (hash_iter m).*2) as Hl.
  { intros v. unfold l. rewrite transform_iter by (intros g [w Hg]%elem_of_dom; by eapply Hm).
    rewrite <- list_fmap_compose. erewrite list_fmap_ext; [done|]. by intros i []. }
  assert (foldl (λ stats '(_, value), if (value =? d)%D then stats else observe stats value) init l =
    observeAll init (filter (λ v, (v =? d)%D = false) l.*2)) as ->.
  { generalize init. clear Hl. induction l as [|[g v] l IH]; intros s; [done|].
    cbn [foldl fmap list_fmap]. rewrite filter_cons. simpl. destruct (v =? d)%D; simpl; apply IH. }
  assert (∀ v, v ∈ (hash_iter m).*2 → canon v) as Hc.
  { intros v ([g w] & -> & Hg%hash_iter_elem)%list_elem_of_fmap. by eapply Hm. }
  transitivity (observeAll init (filter (λ v, (v =? d)%D = false) l.*2 ++ [d])).
  { unfold observeAll. by rewrite foldl_snoc. }
  change (observeAll (observe init d) (hash_iter m).*2) with (observeAll init (d :: (hash_iter m).*2)).
  apply ObjectDimensionValueStats.observeAll_ext.
  - apply Forall_app. split; [|by apply Forall_singleton]. apply Forall_forall. intros v [_ Hv]%list_elem_of_filter.
    by apply Hc, Hl.
  - intros v. rewrite elem_of_app, list_elem_of_singleton, elem_of_cons, list_elem_of_filter, Hl.
    destruct (decide (v = d)) as [->|Hne]; [naive_solver|]. split; [naive_solver|].
    intros [?|Hv]; [by right|]. left. split; [|done]. by rewrite (canon_eq v d (Hc v Hv) Hd), bool_decide_eq_false.
Qed.

#[export] Instance routing_dimension_roundTrip : RoundTrip wf same toThrift (λ d, Ok (fromThrift d)).
Proof.
  intros d [Wv Ws Wd Wds Wp Wr Wm]. eexists. split; [done|].
  destruct (readValues_spec _ _ Wv Wd) as [_ Rv], (readValues_spec _ _ Ws Wds) as [_ Rs].
  pose proof (read_stats _ _ Wv Wd) as Est. unfold fromThrift.
  cbn [toThrift thrift_defaultValue thrift_groupIdToValue thrift_groupIdToStaticValue thrift_defaultStaticValue
       thrift_partitionId thrift_routingConfigId]. rewrite Est, !ofInt_asInt by done.
  split; try done; rewrite Wm; done.
Qed.
End routing.
End ObjectPartitionRoutingDimension.

(** ** ObjectScalarDimension: the virtual methods *)
Module ObjectScalarDimension.
Section scalar.
Context `{HashOrder}.

Inductive t :=
  | objectStatic (d : ObjectStaticDimension.t)
  | objectDynamic (d : ObjectDynamicDimension.t)
  | objectPartitionRouting (d : ObjectPartitionRoutingDimension.t).

Inductive thrift :=
  | objectStaticDimension (d : ObjectStaticDimension.thrift)
  | objectDynamicDimension (d : ObjectDynamicDimension.thrift)
  | objectPartitionRoutingDimension (d : ObjectPartitionRoutingDimension.thrift)
  | empty_.

Definition no_value {A} : result A :=
  Throw (runtime_error "There is no value associated with an ObjectId in an ObjectPartitionRoutingDimension").
Definition no_zero {A} : result A :=
  Throw (runtime_error "Unexpected call to hasZeroValuedObjects() w.r.t. ObjectPartitionRoutingDimension").

Definition values (d : t) (scopeItemId : option Z) : result ObjectValues.t :=
  match d with
  | objectStatic d => Ok (ObjectStaticDimension.objectValues d)
  | objectDynamic d => ObjectDynamicDimension.values d scopeItemId
  | objectPartitionRouting _ => no_value
  end.

(** [getValue(ObjectId)] *)
Definition getValueOf (d : t) (objectId : Z) : result double :=
  match d with
  | objectStatic d => ObjectValues.getObjectValue (ObjectStaticDimension.objectValues d) objectId
  | objectDynamic _ =>
      Throw (runtime_error "values of an object dynamic dimension depend on the scope item")
  | objectPartitionRouting _ => no_value
  end.

Definition getValue (d : t) (objectId : Z) (scopeItemId : option Z) : result double :=
  match d with
  | objectStatic _ => getValueOf d objectId
  | objectDynamic d => ObjectDynamicDimension.getValue d objectId scopeItemId
  | objectPartitionRouting _ => no_value
  end.

Definition getValueSafe (d : t) (objectId : Z) (scopeScopeItemPair : option (Z * Z)) : result double :=
  match d with
  | objectStatic _ => getValueOf d objectId
  | objectDynamic d => ObjectDynamicDimension.getValueSafe d objectId scopeScopeItemPair
  | objectPartitionRouting _ => no_value
  end.

Definition getDefaultValue (d : t) : double :=
  match d with
  | objectStatic d => ObjectValues.defaultValue (ObjectStaticDimension.objectValues d)
  | objectDynamic d => ObjectDynamicDimension.defaultValue d
  | objectPartitionRouting d => ObjectPartitionRoutingDimension.defaultValue d
  end.

Definition isDynamic (d : t) : bool := match d with objectDynamic _ => true | _ => false end.
Definition isRoutingConfigBased (d : t) : bool := match d with objectPartitionRouting _ => true | _ => false end.

Definition getScopeId (d : t) : result Z :=
  match d with
  | objectStatic _ => Throw (runtime_error "static dimension is not tied to a scope")
  | objectDynamic d => Ok (ObjectDynamicDimension.scopeId d)
  | objectPartitionRouting _ =>
      Throw (runtime_error "There is no scope associated with an ObjectPartitionRoutingDimension")
  end.

Definition hasNegativeValues (d : t) : bool :=
  match d with
  | objectStatic d => ObjectStaticDimension.hasNegativeValues d
  | objectDynamic d => ObjectDynamicDimension.hasNegativeValues d
  | objectPartitionRouting d => ObjectPartitionRoutingDimension.hasNegativeValues d
  end.

Definition hasZeroValuedObjects (d : t) : result bool :=
  match d with
  | objectStatic d => Ok (ObjectStaticDimension.hasZeroValuedObjects d)
  | objectDynamic d => Ok (ObjectDynamicDimension.hasZeroValuedObjects d)
  | objectPartitionRouting _ => no_zero
  end.

Definition hasZeroValuedObjectsAt (d : t) (scopeItemId : Z) : result bool :=
  match d with
  | objectStatic d => Ok (ObjectStaticDimension.hasZeroValuedObjects d)
  | objectDynamic d => Ok (ObjectDynamicDimension.hasZeroValuedObjectsAt d scopeItemId)
  | objectPartitionRouting _ => no_zero
  end.

Definition getMinimumPositiveValue (d : t) : option double :=
  match d with
  | objectStatic d => ObjectStaticDimension.minimumPositiveValue d
  | objectDynamic d => ObjectDynamicDimension.minimumPositiveValue d
  | objectPartitionRouting d => ObjectPartitionRoutingDimension.minimumPositiveValue d
  end.

Definition getMaximumValue (d : t) : double :=
  match d with
  | objectStatic d => ObjectStaticDimension.maximumValue d
  | objectDynamic d => ObjectDynamicDimension.maximumValue d
  | objectPartitionRouting d => ObjectPartitionRoutingDimension.maximumValue d
  end.

Definition toThrift (d : t) : result thrift :=
  match d with
  | objectStatic d => d ← ObjectStaticDimension.toThrift d; Ok (objectStaticDimension d)
  | objectDynamic d => d ← ObjectDynamicDimension.toThrift d; Ok (objectDynamicDimension d)
  | objectPartitionRouting d => Ok (objectPartitionRoutingDimension (ObjectPartitionRoutingDimension.toThrift d))
  end.

(** The switch of the constructor of [ObjectDimension]. *)
Definition fromThrift (totalObjects : Z) (partitions : option Partitions.t) (d : thrift) : result t :=
  match d with
  | objectStaticDimension d => d ← ObjectStaticDimension.fromThrift d totalObjects; Ok (objectStatic d)
  | objectDynamicDimension d =>
      d ← ObjectDynamicDimension.fromThrift d totalObjects partitions; Ok (objectDynamic d)
  | objectPartitionRoutingDimension d => Ok (objectPartitionRouting (ObjectPartitionRoutingDimension.fromThrift d))
  | empty_ => Throw (runtime_error "thrift::ObjectScalarDimension is expected to be non-empty")
  end.

Definition wf (n : Z) (ps : Partitions.t) (d : t) : Prop :=
  match d with
  | objectStatic d => ObjectStaticDimension.wf n d
  | objectDynamic d => ObjectDynamicDimension.wf n ps d
  | objectPartitionRouting d => ObjectPartitionRoutingDimension.wf d
  end.

(** The queries of two dimensions agree. *)
Record same (n : Z) (d1 d2 : t) : Prop := {
  same_dynamic : isDynamic d1 = isDynamic d2;
  same_routingBased : isRoutingConfigBased d1 = isRoutingConfigBased d2;
  same_valueOf o : 0 ≤ o < n → getValueOf d1 o = getValueOf d2 o;
  same_value o i : 0 ≤ o < n → getValue d1 o i = getValue d2 o i;
  same_valueSafe o p : 0 ≤ o < n → getValueSafe d1 o p = getValueSafe d2 o p;
  same_default : getDefaultValue d1 = getDefaultValue d2;
  same_scope : getScopeId d1 = getScopeId d2;
  same_negative : hasNegativeValues d1 = hasNegativeValues d2;
  same_zero : hasZeroValuedObjects d1 = hasZeroValuedObjects d2;
  same_zeroAt i : hasZeroValuedObjectsAt d1 i = hasZeroValuedObjectsAt d2 i;
  same_minimum : getMinimumPositiveValue d1 = getMinimumPositiveValue d2;
  same_maximum : getMaximumValue d1 = getMaximumValue d2;
  same_routing r1 r2 : d1 = objectPartitionRouting r1 → d2 = objectPartitionRouting r2 →
    ObjectPartitionRoutingDimension.same r1 r2
}.

Lemma scalar_roundTrip n ps ps' d : 0 ≤ n < 2 ^ 32 → Partitions.same ps' ps → wf n ps d →
  ∃ t d', toThrift d = Ok t ∧ fromThrift n (Some ps') t = Ok d' ∧ same n d' d.
Proof.
  intros Hn Hps. destruct d as [d|d|d]; simpl.
  - intros (t & d' & Et & Ef & [(_ & _ & Sd & Sv) Sn Sz Smin Smax])%ObjectStaticDimension.static_roundTrip; [|done].
    exists (objectStaticDimension t), (objectStatic d'). simpl. rewrite Et, Ef. split_and!; [done..|].
    split; simpl; try done; try (intros; by apply Sv); congruence.
  - intros (t & d' & Et & Ef & [Ss Sd _ Sv Sn Sz Smin Smax Sza])%(ObjectDynamicDimension.dynamic_roundTrip n ps ps' d Hn Hps).
    exists (objectDynamicDimension t), (objectDynamic d'). simpl. rewrite Et, Ef. split_and!; [done..|].
    assert (∀ o i, 0 ≤ o < n →
      ObjectDynamicDimension.getValueFor d' o i = ObjectDynamicDimension.getValueFor d o i) as Hv.
    { intros o i Ho. by apply (Sv i). }
    split; simpl; try done; try congruence.
    + intros o [i|] Ho; simpl; [by apply Hv|congruence].
    + intros o [[s i]|] Ho; simpl; [|congruence]. rewrite Ss. destruct (negb _); [done|by apply Hv].
  - intros (d' & [= <-] & S)%ObjectPartitionRoutingDimension.routing_dimension_roundTrip.
    eexists _, _. split; [done|]. split; [done|].
    split; simpl; try done; try (by destruct S). intros r1 r2 [= <-] [= <-]. exact S.
Qed.
End scalar.
End ObjectScalarDimension.

(** ** ObjectDimension *)
Module ObjectDimension.
Section dimension.
Context `{HashOrder}.

Record t := mk { scalarDimensions : list ObjectScalarDimension.t; isDynamic : bool }.
Record thrift := mkThrift { thrift_scalarDimensions : list ObjectScalarDimension.thrift; thrift_isDynamic : bool }.

Definition makeStatic (values : CompressedIdMap.t (V := double)) : result t :=
  d ← ObjectStaticDimension.make values;
  Ok (mk [ObjectScalarDimension.objectStatic d] false).

Definition makeVector (values : list (CompressedIdMap.t (V := double))) : result t :=
  match values with
  | [] => Throw (runtime_error "Unexpected call to ObjectDimension(values) when objectValues is empty")
  | _ =>
      ds ← mapM (λ v, d ← ObjectStaticDimension.make v; Ok (ObjectScalarDimension.objectStatic d)) values;
      Ok (mk ds false)
  end.

Definition makeDynamic (scopeId : Z) (values : gmap Z (CompressedIdMap.t (V := double)))
    (defaultValue : double) (totalObjects : Z) : result t :=
  d ← ObjectDynamicDimension.makeObjects scopeId values defaultValue totalObjects;
  Ok (mk [ObjectScalarDimension.objectDynamic d] true).

Definition makeDynamicGroups (scopeId : Z) (partition : Partition.t) (values : gmap Z (gmap Z double))
    (defaultValue : double) (totalObjects partitionId : Z) : result t :=
  d ← ObjectDynamicDimension.makeGroups scopeId partition values defaultValue totalObjects partitionId;
  Ok (mk [ObjectScalarDimension.objectDynamic d] true).

Definition makeRouting (groupIdToValue : gmap Z double) (defaultValue : double)
    (partitionId routingConfigId : Z) (groupIdToStaticValue : gmap Z double) (defaultStaticValue : double) : t :=
  mk [ObjectScalarDimension.objectPartitionRouting
        (ObjectPartitionRoutingDimension.make groupIdToValue defaultValue partitionId routingConfigId
           groupIdToStaticValue defaultStaticValue)] false.

Definition fromThrift (totalObjects : Z) (partitions : option Partitions.t) (d : thrift) : result t :=
  ds ← mapM (ObjectScalarDimension.fromThrift totalObjects partitions) (thrift_scalarDimensions d);
  Ok (mk ds (thrift_isDynamic d)).

Definition toThrift (d : t) : result thrift :=
  ds ← mapM ObjectScalarDimension.toThrift (scalarDimensions d);
  Ok (mkThrift ds (isDynamic d)).

Definition size (d : t) : Z := Z.of_nat (length (scalarDimensions d)).

Definition at_index (d : t) (index : Z) : result ObjectScalarDimension.t :=
  if index <? 0 then Throw out_of_range else at_ (scalarDimensions d !! Z.to_nat index).

Definition only (d : t) : result ObjectScalarDimension.t :=
  if negb (length (scalarDimensions d) =? 1)%nat then Throw (runtime_error "expected single scalar dimension")
  else at_index d 0.

(** The loops return at the first dimension that answers [true]. *)
Fixpoint anyM {A} (f : A → result bool) (l : list A) : result bool :=
  match l with
  | [] => Ok false
  | x :: l => b ← f x; if b : bool then Ok true else anyM f l
  end.

Definition isRoutingConfigBased (d : t) : bool :=
  existsb ObjectScalarDimension.isRoutingConfigBased (scalarDimensions d).
Definition hasNegativeValues (d : t) : bool :=
  existsb ObjectScalarDimension.hasNegativeValues (scalarDimensions d).
Definition hasZeroValuedObjects (d : t) : result bool :=
  anyM ObjectScalarDimension.hasZeroValuedObjects (scalarDimensions d).
Definition hasZeroValuedObjectsAt (d : t) (scopeItemId : Z) : result bool :=
  anyM (λ s, ObjectScalarDimension.hasZeroValuedObjectsAt s scopeItemId) (scalarDimensions d).

Definition getMinimumPositiveValue (d : t) : option double :=
  let m := foldl (λ m s, match ObjectScalarDimension.getMinimumPositiveValue s with
                         | Some v => dmin m v | None => m end) dinf (scalarDimensions d) in
  if (m =? dinf)%D then None else Some m.

Definition getMaximumValue (d : t) : double :=
  foldl (λ m s, dmax m (ObjectScalarDimension.getMaximumValue s)) dlowest (scalarDimensions d).

Definition wf (n : Z) (ps : Partitions.t) (d : t) : Prop :=
  Forall (ObjectScalarDimension.wf n ps) (scalarDimensions d).

Record same (n : Z) (d1 d2 : t) : Prop := {
  same_scalars : Forall2 (ObjectScalarDimension.same n) (scalarDimensions d1) (scalarDimensions d2);
  same_isDynamic : isDynamic d1 = isDynamic d2
}.

Lemma dimension_roundTrip n ps ps' d : 0 ≤ n < 2 ^ 32 → Partitions.same ps' ps → wf n ps d →
  ∃ t d', toThrift d = Ok t ∧ fromThrift n (Some ps') t = Ok d' ∧ same n d' d.
Proof.
  intros Hn Hps Hd. destruct d as [ds dyn]. unfold wf, toThrift, fromThrift in *. simpl in *.
  assert (∃ ts ds', mapM ObjectScalarDimension.toThrift ds = Ok ts ∧
    mapM (ObjectScalarDimension.fromThrift n (Some ps')) ts = Ok ds' ∧
    Forall2 (ObjectScalarDimension.same n) ds' ds) as (ts & ds' & Et & Ef & Hs).
  { induction Hd as [|s ds Hs _ (ts & ds' & Et & Ef & IH)]; [by exists [], []|].
    destruct (ObjectScalarDimension.scalar_roundTrip n ps ps' s Hn Hps Hs) as (t & s' & Est & Esf & Hss).
    exists (t :: ts), (s' :: ds'). simpl. rewrite Est, Esf. cbn [mbind result_bind]. rewrite Et, Ef.
    split_and!; [done..|by constructor]. }
  exists (mkThrift ts dyn), (mk ds' dyn). rewrite Et. simpl. rewrite Ef. by split_and!.
Qed.

(** The queries on the vector agree as well. *)
Lemma same_queries n d1 d2 : same n d1 d2 →
  size d1 = size d2 ∧ isRoutingConfigBased d1 = isRoutingConfigBased d2 ∧
  hasNegativeValues d1 = hasNegativeValues d2 ∧ hasZeroValuedObjects d1 = hasZeroValuedObjects d2 ∧
  (∀ i, hasZeroValuedObjectsAt d1 i = hasZeroValuedObjectsAt d2 i) ∧
  getMinimumPositiveValue d1 = getMinimumPositiveValue d2 ∧ getMaximumValue d1 = getMaximumValue d2.
Proof.
  destruct d1 as [ds1 ?], d2 as [ds2 ?]. intros [Hf _]. simpl in Hf.
  assert (∀ m, foldl (λ m s, match ObjectScalarDimension.getMinimumPositiveValue s with
      Some v => dmin m v | None => m end) m ds1 = foldl (λ m s, match ObjectScalarDimension.getMinimumPositiveValue s with
      Some v => dmin m v | None => m end) m ds2) as Hmin.
  { induction Hf as [|s1 s2 ds1 ds2 Hs _ IH]; intros m; [done|]. simpl.
    rewrite (ObjectScalarDimension.same_minimum n s1 s2 Hs). apply IH. }
  assert (∀ m, foldl (λ m s, dmax m (ObjectScalarDimension.getMaximumValue s)) m ds1 =
    foldl (λ m s, dmax m (ObjectScalarDimension.getMaximumValue s)) m ds2) as Hmax.
  { clear Hmin. induction Hf as [|s1 s2 ds1 ds2 Hs _ IH]; intros m; [done|]. simpl.
    rewrite (ObjectScalarDimension.same_maximum n s1 s2 Hs). apply IH. }
  unfold size, isRoutingConfigBased, hasNegativeValues, hasZeroValuedObjects, hasZeroValuedObjectsAt,
    getMinimumPositiveValue, getMaximumValue. simpl. rewrite Hmin, Hmax.
  split_and!; try done; [by apply Forall2_length in Hf as ->|..]; clear Hmin Hmax;
    try intros i; induction Hf as [|s1 s2 ds1 ds2 Hs _ IH]; simpl; try done.
  - by rewrite (ObjectScalarDimension.same_routingBased n s1 s2 Hs), IH.
  - by rewrite (ObjectScalarDimension.same_negative n s1 s2 Hs), IH.
  - by rewrite (ObjectScalarDimension.same_zero n s1 s2 Hs), IH.
  - by rewrite (ObjectScalarDimension.same_zeroAt n s1 s2 Hs), IH.
Qed.

(** [only] is the single scalar of a dimension made by the constructors but the vector one. *)
Lemma only_spec d : (∃ s, only d = Ok s ∧ scalarDimensions d = [s]) ∨
  only d = Throw (runtime_error "expected single scalar dimension") ∧ length (scalarDimensions d) ≠ 1%nat.
Proof.
  unfold only. destruct d as [[|s [|s' ds]] b]; simpl; [by right|left; by exists s|right; split; [done|lia]].
Qed.
End dimension.
End ObjectDimension.

(** ** Objects *)
Module Objects.
Section objects.
Context `{HashOrder}.

Record t := mk {
  numObjects : Z;
  dimensions : gmap Z ObjectDimension.t;
  defaultDimension : ObjectDimension.t
}.

Record thrift := mkThrift {
  thrift_objectIds : list Z;
  thrift_numObjects : Z;
  thrift_dimensions : gmap Z ObjectDimension.thrift
}.

Definition makeDefaultDimension (totalObjects : Z) : result ObjectDimension.t :=
  ObjectDimension.makeStatic (CompressedIdMap.make totalObjects d0 0).

Definition make (numObjects : Z) (dimensions : gmap Z ObjectDimension.t) : result t :=
  defaultDimension ← makeDefaultDimension numObjects;
  Ok (mk numObjects dimensions defaultDimension).

Definition getObjectIds (o : t) : list Z := seqZ 0 (numObjects o).

Definition getDimension (o : t) (dimensionId : Z) : ObjectDimension.t :=
  default (defaultDimension o) (dimensions o !! dimensionId).

Definition getDimensionIds (o : t) : list Z := (hash_iter (dimensions o)).*1.
Definition getDimensionCount (o : t) : Z := Z.of_nat (size (dimensions o)).

Definition hasNegativeDimensions (o : t) : bool :=
  existsb (λ e, ObjectDimension.hasNegativeValues e.2) (hash_iter (dimensions o)).

(** [folly::to<int32_t>] of an unsigned integer. *)
Definition to_int32 (n : Z) : result Z :=
  if 2 ^ 31 <=? n then Throw (runtime_error "Overflow during arithmetic conversion") else Ok n.

Definition fromThrift (partitions : option Partitions.t) (o : thrift) : result t :=
  let numObjects := ofInt (thrift_numObjects o) in
  defaultDimension ← makeDefaultDimension numObjects;
  dimensions ← transformMapM ofInt (ObjectDimension.fromThrift numObjects partitions) (thrift_dimensions o);
  Ok (mk numObjects dimensions defaultDimension).

Definition toThrift (o : t) : result thrift :=
  numObjects ← to_int32 (numObjects o);
  dimensions ← transformMapM asInt ObjectDimension.toThrift (dimensions o);
  Ok (mkThrift (asIntsVec (getObjectIds o)) numObjects dimensions).

(** The vectors of an embedding: one-hot in the type, then a value for each dimension,
    0 where the value of an object is not a single number. *)
Definition kNumVertexTypes : nat := 4.

Inductive VertexType := OBJECT | CONTAINER | SCOPE_ITEM | GROUP.

Definition indexOfVertexType (type : VertexType) : nat :=
  match type with OBJECT => 0 | CONTAINER => 1 | SCOPE_ITEM => 2 | GROUP => 3 end.

Definition initOneHotEmbedding (type : VertexType) : list double :=
  <[indexOfVertexType type := d1]> (replicate kNumVertexTypes d0).

Record GraphVertex := mkVertex { type : VertexType; embedding : list double; entityId : Z }.

Definition toEmbedding (o : t) (dimIds : list Z) : result (list GraphVertex) :=
  dimDescriptors ← mapM (λ dimId,
    scalarDim ← ObjectDimension.only (getDimension o dimId);
    Ok (scalarDim, ObjectScalarDimension.isDynamic scalarDim ||
                   ObjectScalarDimension.isRoutingConfigBased scalarDim)) dimIds;
  mapM (λ objectId,
    values ← mapM (λ '(scalarDim, useSentinel),
      if useSentinel : bool then Ok d0 else ObjectScalarDimension.getValueOf scalarDim objectId) dimDescriptors;
    Ok (mkVertex OBJECT (initOneHotEmbedding OBJECT ++ values) (asInt objectId))) (getObjectIds o).

Record wf (ps : Partitions.t) (o : t) : Prop := {
  wf_count : 0 ≤ numObjects o < 2 ^ 31;
  wf_default : makeDefaultDimension (numObjects o) = Ok (defaultDimension o);
  wf_dimensions : map_wf (ObjectDimension.wf (numObjects o) ps) (dimensions o)
}.

Record same (o1 o2 : t) : Prop := {
  same_count : numObjects o1 = numObjects o2;
  same_default : defaultDimension o1 = defaultDimension o2;
  same_dimensions : map_same (ObjectDimension.same (numObjects o2)) (dimensions o1) (dimensions o2)
}.

Lemma objects_universe_roundTrip ps ps' o : Partitions.same ps' ps → wf ps o →
  ∃ t o', toThrift o = Ok t ∧ fromThrift (Some ps') t = Ok o' ∧ same o' o.
Proof.
  intros Hps [Hn Hd Hm].
  destruct (map_roundTripM (ObjectDimension.wf (numObjects o) ps) (ObjectDimension.same (numObjects o))
    ObjectDimension.toThrift (ObjectDimension.fromThrift (numObjects o) (Some ps')) (dimensions o))
    as (ts & m' & Et & Ef & Hs); [|done|].
  { intros d Hwf. apply (ObjectDimension.dimension_roundTrip _ ps); [lia|done..]. }
  exists (mkThrift (asIntsVec (getObjectIds o)) (numObjects o) ts), (mk (numObjects o) m' (defaultDimension o)).
  split; [|split; [|done]].
  - unfold toThrift, to_int32. rewrite (proj2 (Z.leb_gt _ _)) by lia. cbn [mbind result_bind]. by rewrite Et.
  - unfold fromThrift. cbn [thrift_numObjects thrift_dimensions].
    assert (ofInt (numObjects o) = numObjects o) as -> by (unfold ofInt, modulus; apply Z.mod_small; lia).
    rewrite Hd. cbn [mbind result_bind]. by rewrite Ef.
Qed.

(** More objects than a 32-bit signed integer counts cannot be serialized. *)
Lemma toThrift_overflow o : 2 ^ 31 ≤ numObjects o →
  toThrift o = Throw (runtime_error "Overflow during arithmetic conversion").
Proof. intros Hn. unfold toThrift, to_int32. by rewrite (proj2 (Z.leb_le _ _)) by lia. Qed.
End objects.
End Objects.
