(* ===== verification/Universe.v ===== *)
(** * The universe of a problem

    entities/Universe.cpp: the classes of entities in one object, its serialization, and
    the graph that embeds it.  The specifications of goals and constraints and the
    options of the destinations to explore are generated types, and parameters here. *)

From S2P Require Import Prelude Double Exact ChangeSet Precision Bits CompressedIdMap ObjectValues.
From S2P Require Import Entities Scopes Partitions Goals Routing IdStore Dimensions DynamicDimension ObjectDimensions.
Import EntityId.

Module Universe.
Section universe.
Context `{HashOrder, NameOrder} {GoalSpecs ConstraintSpecs ConstraintPolicy DestinationsToExploreOptions : Type}.
Abbreviation GoalsT := (Goals.t GoalSpecs).
Abbreviation ConstraintsT := (Constraints.t ConstraintSpecs ConstraintPolicy).

Record t := mk {
  idStore : IdStore.t;
  objectTypeName : string;
  containerTypeName : string;
  objects : Objects.t;
  containers : Containers.t;
  similarContainerIds : option (list (list Z));
  scopes : Scopes.t;
  partitions : Partitions.t;
  goals : GoalsT;
  constraints : ConstraintsT;
  stableOptimization : bool;
  moveObjectsOnce : bool;
  descendingHotnessContainers : list Z;
  objectOrderingDimensionId : option Z;
  routingConfigIdToRoutingConfig : gmap Z RoutingConfig.t;
  idToDestinationsToExploreOptions : gmap string DestinationsToExploreOptions;
  precision : PrecisionTolerances
}.

(** [UniverseConfig]: the objects and the containers may be null. *)
Record UniverseConfig := mkConfig {
  config_idStore : IdStore.t;
  config_objectTypeName : string;
  config_containerTypeName : string;
  config_objects : option Objects.t;
  config_containers : option Containers.t;
  config_scopes : Scopes.t;
  config_partitions : Partitions.t;
  config_goals : GoalsT;
  config_constraints : ConstraintsT;
  config_routingConfigIdToConfig : gmap Z RoutingConfig.t;
  config_similarContainerIds : option (list (list Z));
  config_moveObjectsOnce : bool;
  config_stableOptimization : bool;
  config_descendingHotnessContainers : list Z;
  config_objectOrderingDimensionId : option Z;
  config_idToDestinationsToExploreOptions : gmap string DestinationsToExploreOptions;
  config_precision : PrecisionTolerances
}.

Definition make (c : UniverseConfig) : result t :=
  match config_objects c, config_containers c with
  | None, _ => Throw (runtime_error "Expected 'objects' to be non-null")
  | _, None => Throw (runtime_error "Expected 'containers' to be non-null")
  | Some objects, Some containers =>
      Ok (mk (config_idStore c) (config_objectTypeName c) (config_containerTypeName c) objects containers
            (config_similarContainerIds c) (config_scopes c) (config_partitions c) (config_goals c)
            (config_constraints c) (config_stableOptimization c) (config_moveObjectsOnce c)
            (config_descendingHotnessContainers c) (config_objectOrderingDimensionId c)
            (config_routingConfigIdToConfig c) (config_idToDestinationsToExploreOptions c) (config_precision c))
  end.

Record thrift := mkThrift {
  thrift_idStore : IdStore.thrift;
  thrift_objectTypeName : string;
  thrift_containerTypeName : string;
  thrift_objects : Objects.thrift;
  thrift_containers : Containers.thrift;
  thrift_similarContainerIds : option (list (list Z));
  thrift_scopes : Scopes.thrift;
  thrift_partitions : Partitions.thrift;
  thrift_goals : Goals.thrift GoalSpecs;
  thrift_constraints : Constraints.thrift ConstraintSpecs ConstraintPolicy;
  thrift_stableOptimization : bool;
  thrift_moveObjectsOnce : bool;
  thrift_descendingHotnessContainers : list Z;
  thrift_objectOrderingDimensionId : option Z;
  thrift_routingConfigIdToRoutingConfig : gmap Z RoutingConfig.thrift;
  thrift_idToDestinationToExploreOptions : gmap string DestinationsToExploreOptions;
  thrift_precisionTolerances : PrecisionTolerances
}.

(** [finished] is the order in which the partitions are built. *)
Definition fromThrift (finished : list (Z * PartitionThrift.thrift)) (u : thrift) : result t :=
  idStore ← IdStore.fromThrift (thrift_idStore u);
  let containers := Containers.fromThrift (thrift_containers u) in
  scopes ← Scopes.fromThrift (thrift_scopes u);
  let partitions := Partitions.fromThrift finished in
  goals ← Goals.fromThrift (thrift_goals u);
  let constraints := Constraints.fromThrift (thrift_constraints u) in
  objects ← Objects.fromThrift (Some partitions) (thrift_objects u);
  routing ← transformMapM ofInt RoutingConfig.fromThrift (thrift_routingConfigIdToRoutingConfig u);
  Ok (mk idStore (thrift_objectTypeName u) (thrift_containerTypeName u) objects containers
        (ofIntsVecs <$> thrift_similarContainerIds u) scopes partitions goals constraints
        (thrift_stableOptimization u) (thrift_moveObjectsOnce u)
        (ofIntsVec (thrift_descendingHotnessContainers u)) (ofInt <$> thrift_objectOrderingDimensionId u)
        routing (emplaceAll ∅ (name_iter (thrift_idToDestinationToExploreOptions u)))
        (thrift_precisionTolerances u)).

Definition toThrift (u : t) : result thrift :=
  thriftObjects ← Objects.toThrift (objects u);
  Ok (mkThrift (IdStore.toThrift (idStore u)) (objectTypeName u) (containerTypeName u) thriftObjects
        (Containers.toThrift (containers u)) (asIntsVecs <$> similarContainerIds u)
        (Scopes.toThrift (scopes u)) (Partitions.toThrift (partitions u)) (Goals.toThrift (goals u))
        (Constraints.toThrift (constraints u)) (stableOptimization u) (moveObjectsOnce u)
        (asIntsVec (descendingHotnessContainers u)) (asInt <$> objectOrderingDimensionId u)
        (transformMap asInt RoutingConfig.toThrift (routingConfigIdToRoutingConfig u))
        (emplaceAll ∅ (name_iter (idToDestinationsToExploreOptions u))) (precision u)).

Definition getRoutingConfig (u : t) (routingConfigId : Z) : result RoutingConfig.t :=
  match routingConfigIdToRoutingConfig u !! routingConfigId with
  | None =>
      name ← vec_at (IdStore.routingConfigNames (idStore u)) routingConfigId;
      Throw (runtime_error "Routing config not found")
  | Some c => Ok c
  end.

Definition getDestinationsToExploreOptions (u : t) (name : string) : result DestinationsToExploreOptions :=
  at_ (idToDestinationsToExploreOptions u !! name).

(** ** The round trip *)
Record wf (u : t) : Prop := {
  wf_idStore : IdStore.wf (idStore u);
  wf_objects : Objects.wf (partitions u) (objects u);
  wf_containers : Containers.wf (containers u);
  wf_similar l : similarContainerIds u = Some l → Forall (Forall valid) l;
  wf_scopes : Scopes.wf (scopes u);
  wf_partitions : Partitions.wf (partitions u);
  wf_goals : Goals.wf (goals u);
  wf_constraints : Constraints.wf (constraints u);
  wf_hotness : Forall valid (descendingHotnessContainers u);
  wf_ordering d : objectOrderingDimensionId u = Some d → valid d;
  wf_routing : map_wf RoutingConfig.wf (routingConfigIdToRoutingConfig u)
}.

(** All of it is kept, up to the order of what is iterated in the order of a hash map and
    the representation of the values of dimensions. *)
Record same (u1 u2 : t) : Prop := {
  same_idStore : idStore u1 = idStore u2;
  same_objectTypeName : objectTypeName u1 = objectTypeName u2;
  same_containerTypeName : containerTypeName u1 = containerTypeName u2;
  same_objects : Objects.same (objects u1) (objects u2);
  same_containers : containers u1 = containers u2;
  same_similar : similarContainerIds u1 = similarContainerIds u2;
  same_scopes : Scopes.same (scopes u1) (scopes u2);
  same_partitions : Partitions.same (partitions u1) (partitions u2);
  same_goals : Goals.same (goals u1) (goals u2);
  same_constraints : constraints u1 = constraints u2;
  same_stable : stableOptimization u1 = stableOptimization u2;
  same_once : moveObjectsOnce u1 = moveObjectsOnce u2;
  same_hotness : descendingHotnessContainers u1 = descendingHotnessContainers u2;
  same_ordering : objectOrderingDimensionId u1 = objectOrderingDimensionId u2;
  same_routing : routingConfigIdToRoutingConfig u1 = routingConfigIdToRoutingConfig u2;
  same_destinations : idToDestinationsToExploreOptions u1 = idToDestinationsToExploreOptions u2;
  same_precision : precision u1 = precision u2
}.

Lemma copy_names {V} (m : gmap string V) : emplaceAll ∅ (name_iter m) = m.
Proof. by rewrite emplaceAll_empty, name_iter_map. Qed.

Lemma similar_roundTrip (o : option (list (list Z))) : (∀ l, o = Some l → Forall (Forall valid) l) →
  ofIntsVecs <$> (asIntsVecs <$> o) = o.
Proof. destruct o as [l|]; [|done]. intros Hl. simpl. by rewrite ofIntsVecs_asIntsVecs by by apply Hl. Qed.

Lemma universe_roundTrip u : wf u → ∃ t, toThrift u = Ok t ∧
  ∀ finished, finished ≡ₚ map_to_list (Partitions.thrift_partitions (thrift_partitions t)) →
  ∃ u', fromThrift finished t = Ok u' ∧ same u' u.
Proof.
  intros [Wi Wo Wc Wsim Ws Wp Wg Wcs Wh Word Wr].
  destruct (IdStore.idStore_roundTrip _ Wi) as (i' & Ei & ->).
  destruct (Scopes.scopes_roundTrip _ Ws) as (s' & Es & Ss).
  destruct (Goals.goals_roundTrip _ Wg) as (g' & Eg & Sg).
  destruct (map_roundTrip _ _ _ _ RoutingConfig.config_roundTrip _ Wr) as (r' & Er & Sr%map_same_eq).
  assert (∃ to, Objects.toThrift (objects u) = Ok to ∧
    ∀ ps', Partitions.same ps' (partitions u) → ∃ o', Objects.fromThrift (Some ps') to = Ok o' ∧
      Objects.same o' (objects u)) as (to & Eto & Ho).
  { destruct (Objects.objects_universe_roundTrip (partitions u) (partitions u) (objects u)) as (to & _ & Eto & _);
      [apply Partitions.partitions_same_refl|done|].
    exists to. split; [done|]. intros ps' Hps.
    destruct (Objects.objects_universe_roundTrip (partitions u) ps' (objects u) Hps Wo) as (to' & o' & E1 & E2 & E3).
    exists o'. split; [|done]. congruence. }
  eexists. split; [unfold toThrift; rewrite Eto; done|]. intros finished Hf.
  pose proof (Partitions.partitions_roundTrip _ finished Wp Hf) as Sp. destruct (Ho _ Sp) as (o' & Eo & So).
  eexists. split.
  - unfold fromThrift. simpl. rewrite Ei, Es. cbn [mbind result_bind]. rewrite Eg. cbn [mbind result_bind].
    rewrite Eo. cbn [mbind result_bind]. rewrite Er. done.
  - split; simpl; try done.
    + by apply Containers.containers_roundTrip.
    + by apply similar_roundTrip.
    + by apply Constraints.constraints_roundTrip.
    + by apply ofIntsVec_asIntsVec.
    + destruct (objectOrderingDimensionId u) as [d|]; [|done]. simpl. by rewrite ofInt_asInt by by apply Word.
    + by rewrite !copy_names.
Qed.
End universe.
Arguments t : clear implicits.
Arguments thrift : clear implicits.
End Universe.
