(* ===== verification/EntityGraph.v ===== *)
(** * The graph of a universe

    entities/GraphEmbeddingUtils.h and [Universe::buildGraph] with the [toEmbedding]
    methods of the classes of entities: a vertex for every object, container, scope
    item and group, and an edge for every membership. *)

From stdpp Require Import sorting.
From S2P Require Import Prelude Double Exact ChangeSet Bits CompressedIdMap ObjectValues.
From S2P Require Import Entities Scopes Partitions Goals IdStore Dimensions DynamicDimension ObjectDimensions Universe.
Import EntityId Objects (VertexType, OBJECT, CONTAINER, SCOPE_ITEM, GROUP, kNumVertexTypes, initOneHotEmbedding).
Import Objects (GraphVertex, mkVertex, type, embedding, entityId).

Module EntityGraph.
Section graph.
Context `{HashOrder, NameOrder} {GoalSpecs ConstraintSpecs ConstraintPolicy DestinationsToExploreOptions : Type}.
Abbreviation Universe := (Universe.t GoalSpecs ConstraintSpecs ConstraintPolicy DestinationsToExploreOptions).

Record GraphEdge := mkEdge { sourceIndex : Z; targetIndex : Z }.

Record GraphState := mkGraph {
  vertices : list GraphVertex;
  edges : list GraphEdge;
  embeddingDimension : Z;
  dimensionNames : list string
}.

Definition containers_toEmbedding (c : Containers.t) : list GraphVertex :=
  (λ containerId, mkVertex CONTAINER (initOneHotEmbedding CONTAINER) (asInt containerId)) <$>
  Containers.getContainerIds c.

Definition scope_toEmbedding (s : Scope.t) (dimIds : list Z) : list GraphVertex :=
  let dims := Scope.getDimension s <$> dimIds in
  (λ scopeItemId, mkVertex SCOPE_ITEM
     (initOneHotEmbedding SCOPE_ITEM ++ ((λ dim, ScopeDimension.getValue dim scopeItemId) <$> dims))
     (asInt scopeItemId)) <$> Scope.scopeItemIds s.

Definition partition_toEmbedding (p : Partition.t) : list GraphVertex :=
  (λ groupId, mkVertex GROUP (initOneHotEmbedding GROUP) (asInt groupId)) <$> Partition.groupIds p.

Definition collectSortedDimensionIds (o : Objects.t) : list Z :=
  merge_sort Z.le (Objects.getDimensionIds o).

(** [resize(targetSize, 0.0)] *)
Definition padEmbeddings (vs : list GraphVertex) (targetSize : nat) : list GraphVertex :=
  (λ v, mkVertex (type v) (resize targetSize d0 (embedding v)) (entityId v)) <$> vs.

(** Appending vertices and recording their positions: [buildVertexIndex], and the loops over
    the vertices of scopes and of partitions. *)
Definition addVertices (offset : Z) (s : list GraphVertex * gmap Z Z) (vs : list GraphVertex)
    : list GraphVertex * gmap Z Z :=
  foldl (λ '(all, index) v, (all ++ [v], <[entityId v := offset + Z.of_nat (length all)]> index)) s vs.

Definition find (index : gmap Z Z) (id : Z) : result Z :=
  match index !! id with Some i => Ok i | None => Throw (runtime_error "missing from vertex index") end.

Definition appendAssignmentEdges (c : Containers.t) (containerVertexIndex : gmap Z Z)
    (edges : list GraphEdge) : result (list GraphEdge) :=
  foldM (λ edges '(containerId, objectIds),
    target ← find containerVertexIndex (asInt containerId);
    Ok (edges ++ ((λ objectId, mkEdge (asInt objectId) target) <$> objectIds)))
    edges (hash_iter (Containers.initialAssignment c)).

Definition appendScopeMembershipEdges (s : Scope.t) (containerVertexIndex scopeItemVertexIndex : gmap Z Z)
    (edges : list GraphEdge) : result (list GraphEdge) :=
  foldM (λ edges scopeItemId,
    target ← find scopeItemVertexIndex (asInt scopeItemId);
    containerIds ← Scope.getContainerIds s scopeItemId;
    foldM (λ edges containerId,
      source ← find containerVertexIndex (asInt containerId);
      Ok (edges ++ [mkEdge source target])) edges (set_iter containerIds))
    edges (Scope.scopeItemIds s).

Definition appendPartitionMembershipEdges (p : Partition.t) (groupVertexIndex : gmap Z Z)
    (edges : list GraphEdge) : result (list GraphEdge) :=
  foldM (λ edges '(objectId, groupIds),
    foldM (λ edges groupId,
      target ← find groupVertexIndex (asInt groupId);
      Ok (edges ++ [mkEdge (asInt objectId) target])) edges groupIds)
    edges (hash_iter (Partition.objectIdToGroupIds p)).

Definition buildGraph (u : Universe) : result GraphState :=
  let dimIds := collectSortedDimensionIds (Universe.objects u) in
  let embeddingDim := (kNumVertexTypes + length dimIds)%nat in
  dimensionNames ← mapM (IdStore.getDimensionName (Universe.idStore u)) dimIds;
  objectVertices ← Objects.toEmbedding (Universe.objects u) dimIds;
  let objectCount := Z.of_nat (length objectVertices) in
  let '(containerVertices, containerVertexIndex) :=
    addVertices objectCount ([], ∅) (padEmbeddings (containers_toEmbedding (Universe.containers u)) embeddingDim) in
  let containerCount := Z.of_nat (length containerVertices) in
  let scopes := hash_iter (Scopes.scopes (Universe.scopes u)) in
  let '(scopeItemVertices, scopeItemVertexIndex) :=
    foldl (λ s '(_, scope), addVertices (objectCount + containerCount) s (scope_toEmbedding scope dimIds))
      ([], ∅) scopes in
  let scopeItemCount := Z.of_nat (length scopeItemVertices) in
  let partitions := hash_iter (Partitions.partitions (Universe.partitions u)) in
  let '(groupVertices, groupVertexIndex) :=
    foldl (λ s '(_, partition), addVertices (objectCount + containerCount + scopeItemCount) s
             (padEmbeddings (partition_toEmbedding partition) embeddingDim)) ([], ∅) partitions in
  edges ← appendAssignmentEdges (Universe.containers u) containerVertexIndex [];
  edges ← foldM (λ edges '(_, scope),
    appendScopeMembershipEdges scope containerVertexIndex scopeItemVertexIndex edges) edges scopes;
  edges ← foldM (λ edges '(_, partition),
    appendPartitionMembershipEdges partition groupVertexIndex edges) edges partitions;
  Ok (mkGraph (objectVertices ++ containerVertices ++ scopeItemVertices ++ groupVertices) edges
        (Z.of_nat embeddingDim) dimensionNames).

(** ** Indexes of vertices *)
Definition indexed (offset : Z) (s : list GraphVertex * gmap Z Z) : Prop :=
  (∀ k p, s.2 !! k = Some p →
     offset ≤ p ∧ ∃ v, s.1 !! Z.to_nat (p - offset) = Some v ∧ entityId v = k) ∧
  ∀ v, v ∈ s.1 → is_Some (s.2 !! entityId v).

Lemma addVertices_indexed offset vs : ∀ s, indexed offset s →
  indexed offset (addVertices offset s vs) ∧ (addVertices offset s vs).1 = s.1 ++ vs.
Proof.
  induction vs as [|v vs IH]; intros [all index] [Hi Hc]; [by rewrite app_nil_r|].
  unfold addVertices in *. cbn [foldl].
  destruct (IH (all ++ [v], <[entityId v := offset + Z.of_nat (length all)]> index)) as [IH1 IH2].
  - split; simpl in *.
    + intros k p [[<- <-]|[_ Hk]]%lookup_insert_Some.
      * split; [lia|]. exists v. split; [|done]. apply list_lookup_middle. lia.
      * apply Hi in Hk as (Hp & w & Hw & Ew). split; [done|]. exists w. split; [|done].
        apply lookup_app_l_Some. exact Hw.
    + intros w [Hw| ->%list_elem_of_singleton]%elem_of_app; [|rewrite lookup_insert_eq; by eexists].
      destruct (decide (entityId v = entityId w)) as [->|]; [rewrite lookup_insert_eq; by eexists|].
      rewrite lookup_insert_ne by done. by apply Hc.
  - split; [exact IH1|]. rewrite IH2. simpl. by rewrite <- app_assoc.
Qed.

Lemma addVertices_loop {A} offset (f : A → list GraphVertex) (l : list (Z * A)) : ∀ s,
  foldl (λ s '(_, x), addVertices offset s (f x)) s l = addVertices offset s (l ≫= λ e, f e.2).
Proof.
  induction l as [|[i x] l IH]; intros s; [done|]. cbn [foldl]. rewrite IH. simpl.
  unfold addVertices. by rewrite foldl_app.
Qed.

Lemma start_indexed offset : indexed offset ([], ∅).
Proof. split; simpl; [intros k p []%lookup_empty_Some|intros v []%not_elem_of_nil]. Qed.

(** A vertex of a type and an identifier at a position. *)
Definition located (vs : list GraphVertex) (ty : VertexType) (id p : Z) : Prop :=
  0 ≤ p ∧ ∃ v, vs !! Z.to_nat p = Some v ∧ type v = ty ∧ entityId v = asInt id.

Lemma indexed_located ty before after s id p : indexed (Z.of_nat (length before)) s →
  (∀ v, v ∈ s.1 → type v = ty) → s.2 !! asInt id = Some p → located (before ++ s.1 ++ after) ty id p.
Proof.
  intros [Hi _] Ht (Hp & v & Hv & Ev)%Hi. split; [lia|]. exists v. split; [|split; [|done]].
  - rewrite lookup_app_r by lia. apply lookup_app_l_Some. by replace (Z.to_nat p - length before)%nat with
      (Z.to_nat (p - Z.of_nat (length before))) by lia.
  - apply Ht. by eapply list_elem_of_lookup_2.
Qed.

(** ** Loops that append edges *)
Definition appends {A} (body : list GraphEdge → A → result (list GraphEdge)) (x : A) (R : GraphEdge → Prop) : Prop :=
  ∀ acc, ∃ new, body acc x = Ok (acc ++ new) ∧ ∀ e, e ∈ new ↔ R e.

Lemma appends_loop {A} (body : list GraphEdge → A → result (list GraphEdge)) (l : list A) (R : A → GraphEdge → Prop) :
  (∀ x, x ∈ l → appends body x (R x)) → appends (foldM body) l (λ e, ∃ x, x ∈ l ∧ R x e).
Proof.
  induction l as [|x l IH]; intros Hl acc.
  - exists []. rewrite app_nil_r. split; [done|]. intros e. split; [intros []%not_elem_of_nil|].
    intros (x & []%not_elem_of_nil & _).
  - destruct (Hl x ltac:(left) acc) as (new & E & Hn).
    destruct (IH (λ y Hy, Hl y (list_elem_of_further _ _ _ Hy)) (acc ++ new)) as (new' & E' & Hn').
    exists (new ++ new'). split.
    + cbn [foldM]. rewrite E. cbn [mbind result_bind]. by rewrite E', app_assoc.
    + intros e. rewrite elem_of_app, Hn, Hn'. setoid_rewrite elem_of_cons. naive_solver.
Qed.

Lemma appends_ext {A} (body : list GraphEdge → A → result (list GraphEdge)) (x : A) (R R' : GraphEdge → Prop) :
  (∀ e, R e ↔ R' e) → appends body x R → appends body x R'.
Proof. intros He Ha acc. destruct (Ha acc) as (new & E & Hn). exists new. split; [done|]. intros e. by rewrite Hn. Qed.

(** ** Memberships *)
Lemma assignment_edges c index :
  (∀ containerId, is_Some (Containers.initialAssignment c !! containerId) → is_Some (index !! asInt containerId)) →
  ∀ acc, ∃ new, appendAssignmentEdges c index acc = Ok (acc ++ new) ∧
    ∀ e, e ∈ new ↔ ∃ cid os o t, Containers.initialAssignment c !! cid = Some os ∧ o ∈ os ∧
      index !! asInt cid = Some t ∧ e = mkEdge (asInt o) t.
Proof.
  intros Hi. eapply (appends_ext (λ acc l, foldM _ acc l)); [|apply (appends_loop _ _ (λ '(cid, os) e,
    ∃ o t, o ∈ os ∧ index !! asInt cid = Some t ∧ e = mkEdge (asInt o) t))].
  - intros e. split.
    + intros ([cid os] & Hin%hash_iter_elem & o & t & ? & ? & ?). by exists cid, os, o, t.
    + intros (cid & os & o & t & Hc & ? & ? & ?). exists (cid, os). rewrite hash_iter_elem. eauto 8.
  - intros [cid os] Hin%hash_iter_elem acc. destruct (Hi cid) as [t Et]; [by eexists|].
    eexists. unfold find. rewrite Et. split; [done|]. intros e. rewrite list_elem_of_fmap. naive_solver.
Qed.

Lemma scope_edges s cindex sindex :
  (∀ i, i ∈ Scope.scopeItemIds s → is_Some (sindex !! asInt i) ∧
     ∃ cs, Scope.scopeItems s !! i = Some cs ∧ ∀ c, c ∈ cs → is_Some (cindex !! asInt c)) →
  ∀ acc, ∃ new, appendScopeMembershipEdges s cindex sindex acc = Ok (acc ++ new) ∧
    ∀ e, e ∈ new ↔ ∃ i cs c src t, i ∈ Scope.scopeItemIds s ∧ Scope.scopeItems s !! i = Some cs ∧ c ∈ cs ∧
      cindex !! asInt c = Some src ∧ sindex !! asInt i = Some t ∧ e = mkEdge src t.
Proof.
  intros Hi. eapply (appends_ext (λ acc l, foldM _ acc l)); [|apply (appends_loop _ _ (λ i e,
    ∃ cs c src t, Scope.scopeItems s !! i = Some cs ∧ c ∈ cs ∧
      cindex !! asInt c = Some src ∧ sindex !! asInt i = Some t ∧ e = mkEdge src t))]; [naive_solver|].
  intros i [[t Et] (cs & Ecs & Hcs)]%Hi acc. 
  assert (find sindex (asInt i) = Ok t) as -> by (unfold find; by rewrite Et).
  unfold Scope.getContainerIds. rewrite Ecs. cbn [at_ mbind result_bind].
  destruct (appends_loop (λ edges c, source ← find cindex (asInt c); Ok (edges ++ [mkEdge source t])) (set_iter cs)
    (λ c e, ∃ src, cindex !! asInt c = Some src ∧ e = mkEdge src t)) with (acc := acc) as (new & E & Hn).
  { intros c Hc acc'. destruct (Hcs c) as [src Esrc]; [by apply elem_of_elements; rewrite <- set_iter_perm|].
    eexists. unfold find. rewrite Esrc. split; [done|]. intros e. rewrite list_elem_of_singleton. naive_solver. }
  exists new. split; [exact E|]. intros e. rewrite Hn. setoid_rewrite set_iter_perm. setoid_rewrite elem_of_elements.
  naive_solver.
Qed.

Lemma partition_edges p index :
  (∀ o gs g, Partition.objectIdToGroupIds p !! o = Some gs → g ∈ gs → is_Some (index !! asInt g)) →
  ∀ acc, ∃ new, appendPartitionMembershipEdges p index acc = Ok (acc ++ new) ∧
    ∀ e, e ∈ new ↔ ∃ o gs g t, Partition.objectIdToGroupIds p !! o = Some gs ∧ g ∈ gs ∧
      index !! asInt g = Some t ∧ e = mkEdge (asInt o) t.
Proof.
  intros Hi. eapply (appends_ext (λ acc l, foldM _ acc l)); [|apply (appends_loop _ _ (λ '(o, gs) e,
    ∃ g, g ∈ gs ∧ ∃ t, index !! asInt g = Some t ∧ e = mkEdge (asInt o) t))].
  - intros e. split.
    + intros ([o gs] & Hin%hash_iter_elem & g & Hg & t & ? & ?). by exists o, gs, g, t.
    + intros (o & gs & g & t & Ho & ? & ? & ?). exists (o, gs). rewrite hash_iter_elem. eauto 8.
  - intros [o gs] Hin%hash_iter_elem.
    apply (appends_loop _ gs (λ g e, ∃ t, index !! asInt g = Some t ∧ e = mkEdge (asInt o) t)).
    intros g Hg acc. destruct (Hi o gs g Hin Hg) as [t Et]. eexists. unfold find. rewrite Et. split; [done|].
    intros e. rewrite list_elem_of_singleton. naive_solver.
Qed.

(** ** The vertices of the objects *)
Lemma mapM_Forall2 {A B} (f : A → result B) (P : A → B → Prop) l :
  (∀ x, x ∈ l → ∃ y, f x = Ok y ∧ P x y) → ∃ ys, mapM f l = Ok ys ∧ Forall2 P l ys.
Proof.
  induction l as [|x l IH]; intros Hl; [by exists []|].
  destruct (Hl x ltac:(left)) as (y & E & Hp).
  destruct IH as (ys & Es & Hf); [intros z Hz; apply Hl; by right|].
  exists (y :: ys). simpl. rewrite E. cbn [mbind result_bind]. rewrite Es. by split; [|constructor].
Qed.

Lemma static_value n d o : ObjectStaticDimension.wf n d → 0 ≤ o < n →
  ∃ v, ObjectScalarDimension.getValueOf (ObjectScalarDimension.objectStatic d) o = Ok v.
Proof.
  intros (c & m & dv & Em & _ & Hc & Ht & _) Ho. unfold ObjectStaticDimension.make in Em.
  cbn [ObjectValues.ofMap mbind result_bind] in Em. apply bind_Ok in Em as (l & _ & [= <-]).
  simpl. rewrite (CompressedIdMap.getValue_models deq c m o Hc) by lia. by eexists.
Qed.

Definition single (d : ObjectDimension.t) : Prop := ∃ s, ObjectDimension.scalarDimensions d = [s].

Lemma objects_embedding ps o dimIds : Objects.wf ps o →
  (∀ d, d ∈ dimIds → ∃ dim, Objects.dimensions o !! d = Some dim ∧ single dim) →
  ∃ vs, Objects.toEmbedding o dimIds = Ok vs ∧
    Forall2 (λ i v, type v = OBJECT ∧ entityId v = asInt i ∧
      length (embedding v) = (kNumVertexTypes + length dimIds)%nat) (seqZ 0 (Objects.numObjects o)) vs.
Proof.
  intros [Hn _ Hd] Hs. set (n := Objects.numObjects o) in *. unfold Objects.toEmbedding.
  edestruct (mapM_Forall2 (λ dimId, scalarDim ← ObjectDimension.only (Objects.getDimension o dimId);
    Ok (scalarDim, ObjectScalarDimension.isDynamic scalarDim || ObjectScalarDimension.isRoutingConfigBased scalarDim)))
    with (l := dimIds) (P := λ (_ : Z) e, ∀ i, 0 ≤ i < n → ∃ v,
      (if e.2 : bool then Ok d0 else ObjectScalarDimension.getValueOf e.1 i) = Ok v) as (ds & E & Hf).
  { intros d (dim & Ed & s & Es)%Hs. unfold Objects.getDimension. rewrite Ed. simpl default.
    destruct (ObjectDimension.only_spec dim) as [(s' & -> & Es')|[_ Hl]]; [|rewrite Es in Hl; simpl in Hl; lia].
    eexists. split; [done|]. intros i Hi. simpl. assert (s' = s) as -> by congruence.
    destruct (Hd d dim Ed) as [_ Hw]. unfold ObjectDimension.wf in Hw. rewrite Es in Hw.
    apply Forall_cons in Hw as [Hw _]. destruct s as [s|s|s]; simpl; [|by eexists..]. exact (static_value n s i Hw Hi). }
  rewrite E. cbn [mbind result_bind]. apply mapM_Forall2. intros i Hi. apply elem_of_seqZ in Hi.
  destruct (mapM_Forall2 (λ '(scalarDim, useSentinel),
      if useSentinel : bool then Ok d0 else ObjectScalarDimension.getValueOf scalarDim i) (λ _ _, True) ds)
    as (vs & Ev & Hv).
  { intros [s b] [k Hk]%list_elem_of_lookup. destruct (Forall2_lookup_r _ _ _ _ _ Hf Hk) as (d & _ & Hx).
    destruct (Hx i) as [v Ev]; [lia|]. by exists v. }
  rewrite Ev. eexists. split; [done|]. simpl. split_and!; [done|done|].
  rewrite (Forall2_length _ _ _ Hf). by rewrite (Forall2_length _ _ _ Hv).
Qed.

Lemma objects_located ps o (dimIds : list Z) vs after i : Objects.wf ps o →
  Forall2 (λ i v, type v = OBJECT ∧ entityId v = asInt i ∧ length (embedding v) = (kNumVertexTypes + length dimIds)%nat)
    (seqZ 0 (Objects.numObjects o)) vs → 0 ≤ i < Objects.numObjects o →
  located (vs ++ after) OBJECT i (asInt i).
Proof.
  intros [Hn _ _] Hf Hi. rewrite asInt_small by lia. split; [lia|].
  assert (seqZ 0 (Objects.numObjects o) !! Z.to_nat i = Some i) as Hl by (apply lookup_seqZ; lia).
  destruct (Forall2_lookup_l _ _ _ _ _ Hf Hl) as (v & Hv & Ht & He & _). exists v. split; [|done].
  by apply lookup_app_l_Some.
Qed.

Lemma mapM_throws {X Y} (f : X → result Y) e l : (∀ x, x ∈ l → (∃ y, f x = Ok y) ∨ f x = Throw e) →
  (∃ x, x ∈ l ∧ f x = Throw e) → mapM f l = Throw e.
Proof.
  induction l as [|x l IH]; intros Hf (x0 & Hx & Ex); [by apply not_elem_of_nil in Hx|]. simpl.
  destruct (Hf x ltac:(left)) as [[y Ey]|Ey]; rewrite Ey; [|done]. cbn [mbind result_bind].
  rewrite IH; [done|intros; apply Hf; by right|].
  apply elem_of_cons in Hx as [->|Hx]; [congruence|eauto].
Qed.

(** A dimension with several values per object, or none, is refused. *)
Lemma objects_embedding_throws o dimIds d dim : d ∈ dimIds →
  Objects.dimensions o !! d = Some dim → ¬ single dim →
  Objects.toEmbedding o dimIds = Throw (runtime_error "expected single scalar dimension").
Proof.
  intros Hd Ed Hs. unfold Objects.toEmbedding. erewrite mapM_throws; [done| |].
  - intros d' _. destruct (ObjectDimension.only_spec (Objects.getDimension o d')) as [(s & -> & _)|[-> _]];
      [left; by eexists|by right].
  - exists d. split; [done|]. unfold Objects.getDimension. rewrite Ed. simpl default.
    destruct (ObjectDimension.only_spec dim) as [(s & _ & Es)|[-> _]]; [|done]. destruct Hs. by exists s.
Qed.

(** ** The graph *)

(** Members are objects and containers of the universe, and dimensions have names. *)
Record graph_ok (u : Universe) : Prop := {
  gok_placed c os o : Containers.initialAssignment (Universe.containers u) !! c = Some os → o ∈ os →
    0 ≤ o < Objects.numObjects (Universe.objects u);
  gok_scoped s sc i cs c : Scopes.scopes (Universe.scopes u) !! s = Some sc → Scope.scopeItems sc !! i = Some cs →
    c ∈ cs → is_Some (Containers.initialAssignment (Universe.containers u) !! c);
  gok_grouped p pt g os o : Partitions.partitions (Universe.partitions u) !! p = Some pt →
    Partition.groups pt !! g = Some os → o ∈ os → 0 ≤ o < Objects.numObjects (Universe.objects u);
  gok_named d dim : Objects.dimensions (Universe.objects u) !! d = Some dim →
    is_Ok (IdStore.getDimensionName (Universe.idStore u) d)
}.

(** Every dimension has one value per object. *)
Definition scalar (u : Universe) : Prop :=
  ∀ d dim, Objects.dimensions (Universe.objects u) !! d = Some dim → single dim.

(** What an edge stands for. *)
Inductive member (u : Universe) : VertexType → Z → VertexType → Z → Prop :=
  | object_in_container o c os : Containers.initialAssignment (Universe.containers u) !! c = Some os → o ∈ os →
      member u OBJECT o CONTAINER c
  | container_in_item c i s sc cs : Scopes.scopes (Universe.scopes u) !! s = Some sc →
      Scope.scopeItems sc !! i = Some cs → c ∈ cs → member u CONTAINER c SCOPE_ITEM i
  | object_in_group o g p pt os : Partitions.partitions (Universe.partitions u) !! p = Some pt →
      Partition.groups pt !! g = Some os → o ∈ os → member u OBJECT o GROUP g.

Definition joins (vs : list GraphVertex) (e : GraphEdge) (ts : VertexType) (s : Z) (tt : VertexType) (t : Z) : Prop :=
  located vs ts s (sourceIndex e) ∧ located vs tt t (targetIndex e).

(** The groups an object is indexed with. *)
Lemma partition_index groups o g :
  (∃ gs, Partition.objectIdToGroupIds (Partition.make groups) !! o = Some gs ∧ g ∈ gs) ↔
  ∃ os, groups !! g = Some os ∧ o ∈ os.
Proof.
  pose proof (Partition.make_lookup groups o) as Hm.
  assert (g ∈ Partition.occurrences (hash_iter groups) o ↔ ∃ os, groups !! g = Some os ∧ o ∈ os) as Ho.
  { unfold Partition.occurrences. rewrite list_elem_of_bind. split.
    - intros ([g' os] & [-> Hl]%elem_of_replicate & Hin%hash_iter_elem). exists os. split; [done|].
      destruct (filter (λ x, x = o) os) as [|x l] eqn:Ef; [done|].
      assert (x ∈ filter (λ x, x = o) os) as [-> Hx]%list_elem_of_filter by (rewrite Ef; left). done.
    - intros (os & Hg & Hos). exists (g, os). rewrite hash_iter_elem. split; [|done]. apply elem_of_replicate.
      split; [done|]. intros E%nil_length_inv.
      assert (o ∈ filter (λ x, x = o) os) by (by apply list_elem_of_filter). rewrite E in *. set_solver. }
  rewrite <- Ho, <- Hm. destruct (Partition.objectIdToGroupIds (Partition.make groups) !! o) as [gs|]; simpl.
  - naive_solver.
  - split; [by intros (? & ? & _)|intros []%not_elem_of_nil].
Qed.

(** The vertices of a kind, with their index. *)
Record block (ty : VertexType) (dim : nat) (offset : Z) (ids : list Z) (s : list GraphVertex * gmap Z Z) : Prop := {
  block_indexed : indexed offset s;
  block_type v : v ∈ s.1 → type v = ty ∧ length (embedding v) = dim;
  block_total id : id ∈ ids → is_Some (s.2 !! asInt id)
}.

Lemma block_intro ty dim offset ids vs :
  (∀ v, v ∈ vs → type v = ty ∧ length (embedding v) = dim) →
  (∀ id, id ∈ ids → ∃ v, v ∈ vs ∧ entityId v = asInt id) →
  block ty dim offset ids (addVertices offset ([], ∅) vs).
Proof.
  intros Ht Hi. destruct (addVertices_indexed offset vs ([], ∅) (start_indexed offset)) as [Hx E]. simpl in E.
  split; [done|by rewrite E|]. intros id (v & Hv & <-)%Hi. apply Hx. by rewrite E.
Qed.

Lemma containers_block c dim offset : (kNumVertexTypes ≤ dim)%nat →
  block CONTAINER dim offset (Containers.getContainerIds c)
    (addVertices offset ([], ∅) (padEmbeddings (containers_toEmbedding c) dim)).
Proof.
  intros Hd. unfold padEmbeddings, containers_toEmbedding. apply block_intro.
  - intros v (w & -> & (cid & -> & _)%list_elem_of_fmap)%list_elem_of_fmap. simpl. by rewrite length_resize.
  - intros id Hid. eexists. split; [do 2 apply list_elem_of_fmap_2; exact Hid|done].
Qed.

Lemma scopes_block (l : list (Z * Scope.t)) dimIds offset :
  block SCOPE_ITEM (kNumVertexTypes + length dimIds) offset (l ≫= λ e, Scope.scopeItemIds e.2)
    (foldl (λ s '(_, scope), addVertices offset s (scope_toEmbedding scope dimIds)) ([], ∅) l).
Proof.
  rewrite addVertices_loop. apply block_intro.
  - intros v ([k s] & (i & -> & _)%list_elem_of_fmap & _)%list_elem_of_bind. simpl. by rewrite !length_fmap.
  - intros i ([k s] & Hi & Hl)%list_elem_of_bind. eexists. split; [apply list_elem_of_bind|]; last first.
    + instantiate (1 := mkVertex SCOPE_ITEM _ (asInt i)). done.
    + exists (k, s). split; [|done]. apply list_elem_of_fmap. by exists i.
Qed.

Lemma partitions_block (l : list (Z * Partition.t)) dim offset : (kNumVertexTypes ≤ dim)%nat →
  block GROUP dim offset (l ≫= λ e, Partition.groupIds e.2)
    (foldl (λ s '(_, partition), addVertices offset s (padEmbeddings (partition_toEmbedding partition) dim)) ([], ∅) l).
Proof.
  intros Hd. rewrite (addVertices_loop offset (λ p, padEmbeddings (partition_toEmbedding p) dim)). apply block_intro.
  - intros v ([k p] & (w & -> & (g & -> & _)%list_elem_of_fmap)%list_elem_of_fmap & _)%list_elem_of_bind.
    simpl. by rewrite length_resize.
  - intros i ([k p] & Hi & Hl)%list_elem_of_bind. eexists. split; [apply list_elem_of_bind|]; last first.
    + instantiate (1 := mkVertex GROUP _ (asInt i)). done.
    + exists (k, p). split; [|done]. apply list_elem_of_fmap. eexists. split; [|apply list_elem_of_fmap; by exists i]. done.
Qed.

Lemma block_located ty dim ids before after s id p : block ty dim (Z.of_nat (length before)) ids s →
  s.2 !! asInt id = Some p → located (before ++ s.1 ++ after) ty id p.
Proof. intros [Hi Ht _]. apply indexed_located; [done|]. intros v Hv. by apply Ht. Qed.

(** The edges, in terms of the indexes. *)
Definition edge_of (u : Universe) (ci si gi : gmap Z Z) (e : GraphEdge) : Prop :=
  (∃ c os o t, Containers.initialAssignment (Universe.containers u) !! c = Some os ∧ o ∈ os ∧
     ci !! asInt c = Some t ∧ e = mkEdge (asInt o) t) ∨
  (∃ k sc i cs c src t, Scopes.scopes (Universe.scopes u) !! k = Some sc ∧ Scope.scopeItems sc !! i = Some cs ∧
     c ∈ cs ∧ ci !! asInt c = Some src ∧ si !! asInt i = Some t ∧ e = mkEdge src t) ∨
  (∃ k p g os o t, Partitions.partitions (Universe.partitions u) !! k = Some p ∧ Partition.groups p !! g = Some os ∧
     o ∈ os ∧ gi !! asInt g = Some t ∧ e = mkEdge (asInt o) t).

Lemma scope_ids s : Scope.wf s → ∀ i, i ∈ Scope.scopeItemIds s ↔ is_Some (Scope.scopeItems s !! i).
Proof.
  intros (m & dims & E & _) i. destruct (Scope.scope_index m dims s E) as (-> & -> & _).
  rewrite list_elem_of_fmap. split.
  - intros ([j cs] & -> & Hj%elem_of_map_to_list). by eexists.
  - intros [cs Hi]. exists (i, cs). by rewrite elem_of_map_to_list.
Qed.

Lemma edges_built u ci si gi : Universe.wf u → graph_ok u →
  (∀ c, is_Some (Containers.initialAssignment (Universe.containers u) !! c) → is_Some (ci !! asInt c)) →
  (∀ k sc i, Scopes.scopes (Universe.scopes u) !! k = Some sc → i ∈ Scope.scopeItemIds sc → is_Some (si !! asInt i)) →
  (∀ k p g, Partitions.partitions (Universe.partitions u) !! k = Some p → g ∈ Partition.groupIds p → is_Some (gi !! asInt g)) →
  ∃ es, (edges ← appendAssignmentEdges (Universe.containers u) ci [];
    edges ← foldM (λ edges '(_, scope), appendScopeMembershipEdges scope ci si edges) edges
      (hash_iter (Scopes.scopes (Universe.scopes u)));
    foldM (λ edges '(_, partition), appendPartitionMembershipEdges partition gi edges) edges
      (hash_iter (Partitions.partitions (Universe.partitions u)))) = Ok es ∧
    ∀ e, e ∈ es ↔ edge_of u ci si gi e.
Proof.
  intros W G Hc Hs Hg.
  destruct (assignment_edges (Universe.containers u) ci Hc []) as (e1 & E1 & H1).
  destruct (appends_loop (λ edges '(_, scope), appendScopeMembershipEdges scope ci si edges)
    (hash_iter (Scopes.scopes (Universe.scopes u))) (λ '(_, sc) e, ∃ i cs c src t, Scope.scopeItems sc !! i = Some cs ∧
      c ∈ cs ∧ ci !! asInt c = Some src ∧ si !! asInt i = Some t ∧ e = mkEdge src t)) with (acc := [] ++ e1) as (e2 & E2 & H2).
  { intros [k sc] Hk%hash_iter_elem acc. destruct (Universe.wf_scopes _ W k sc Hk) as [_ Wsc].
    pose proof (scope_ids sc Wsc) as Hids. destruct (scope_edges sc ci si) with (acc := acc) as (new & E & Hn).
    - intros i Hi. split; [by eapply Hs|]. apply Hids in Hi as [cs Ecs]. exists cs. split; [done|].
      intros c Hin. apply Hc. by eapply (gok_scoped _ G).
    - exists new. split; [done|]. intros e. rewrite Hn. setoid_rewrite Hids. unfold is_Some. naive_solver. }
  destruct (appends_loop (λ edges '(_, partition), appendPartitionMembershipEdges partition gi edges)
    (hash_iter (Partitions.partitions (Universe.partitions u))) (λ '(_, p) e, ∃ g os o t, Partition.groups p !! g = Some os ∧
      o ∈ os ∧ gi !! asInt g = Some t ∧ e = mkEdge (asInt o) t)) with (acc := ([] ++ e1) ++ e2) as (e3 & E3 & H3).
  { intros [k p] Hk%hash_iter_elem acc. destruct (Universe.wf_partitions _ W k p Hk) as [_ (groups & -> & _)].
    pose proof (partition_index groups) as Hpi.
    destruct (partition_edges (Partition.make groups) gi) with (acc := acc) as (new & E & Hn).
    - intros o gs g Ho Hin. eapply Hg; [done|]. destruct (proj1 (Hpi o g)) as (os & Hgr & _); [eauto|].
      apply list_elem_of_fmap. exists (g, os). by rewrite hash_iter_elem.
    - exists new. split; [done|]. intros e. rewrite Hn. split.
      + intros (o & gs & g & t & Ho & Hin & Et & ->). destruct (proj1 (Hpi o g)) as (os & ? & ?); [eauto|].
        by exists g, os, o, t.
      + intros (g & os & o & t & Hgr & Hin & Et & ->). destruct (proj2 (Hpi o g)) as (gs & ? & ?); [eauto|].
        by exists o, gs, g, t. }
  eexists. rewrite E1. cbn [mbind result_bind]. rewrite E2. cbn [mbind result_bind]. split; [exact E3|].
  intros e. rewrite !elem_of_app, H1, H2, H3. unfold edge_of. split.
  - intros [[[[]%not_elem_of_nil|?]|([k sc] & Hk%hash_iter_elem & ?)]|([k p] & Hk%hash_iter_elem & ?)];
      naive_solver.
  - intros [?|[(k & sc & ? & ? & ? & ? & ? & Hk & ?)|(k & p & ? & ? & ? & ? & Hk & ?)]]; [by left; left; right|left; right|right].
    + exists (k, sc). rewrite hash_iter_elem. eauto 10.
    + exists (k, p). rewrite hash_iter_elem. eauto 10.
Qed.

(** Every edge joins the vertices of a membership, and every membership has an edge. *)
Lemma edges_join u ci si gi vs (es : list GraphEdge) : graph_ok u → (∀ e, e ∈ es ↔ edge_of u ci si gi e) →
  (∀ o, 0 ≤ o < Objects.numObjects (Universe.objects u) → located vs OBJECT o (asInt o)) →
  (∀ c p, ci !! asInt c = Some p → located vs CONTAINER c p) →
  (∀ i p, si !! asInt i = Some p → located vs SCOPE_ITEM i p) →
  (∀ g p, gi !! asInt g = Some p → located vs GROUP g p) →
  (∀ c, is_Some (Containers.initialAssignment (Universe.containers u) !! c) → is_Some (ci !! asInt c)) →
  (∀ k sc i cs, Scopes.scopes (Universe.scopes u) !! k = Some sc → Scope.scopeItems sc !! i = Some cs →
     is_Some (si !! asInt i)) →
  (∀ k p g os, Partitions.partitions (Universe.partitions u) !! k = Some p → Partition.groups p !! g = Some os →
     is_Some (gi !! asInt g)) →
  (∀ e, e ∈ es → ∃ ts s tt t, member u ts s tt t ∧ joins vs e ts s tt t) ∧
  ∀ ts s tt t, member u ts s tt t → ∃ e, e ∈ es ∧ joins vs e ts s tt t.
Proof.
  intros G He Lo Lc Ls Lg Tc Ts Tg. split.
  - intros e [(c & os & o & t & Hc & Ho & Et & ->)|[(k & sc & i & cs & c & src & t & Hk & Hi & Hc & Es & Et & ->)
      |(k & p & g & os & o & t & Hk & Hg & Ho & Et & ->)]]%He.
    + exists OBJECT, o, CONTAINER, c. split; [by econstructor|]. split; [|by apply Lc]. apply Lo. by eapply (gok_placed _ G).
    + exists CONTAINER, c, SCOPE_ITEM, i. split; [by econstructor|]. split; [by apply Lc|by apply Ls].
    + exists OBJECT, o, GROUP, g. split; [by econstructor|]. split; [|by apply Lg]. apply Lo. by eapply (gok_grouped _ G).
  - intros ts s tt t [o c os Hc Ho|c i k sc cs Hk Hi Hc|o g k p os Hk Hg Ho].
    + destruct (Tc c) as [q Hq]; [by eexists|]. exists (mkEdge (asInt o) q). split; [apply He; left; by exists c, os, o, q|].
      split; [|by apply Lc]. apply Lo. by eapply (gok_placed _ G).
    + destruct (Ts k sc i cs Hk Hi) as [q Hq]. destruct (Tc c) as [r Hr]; [by eapply (gok_scoped _ G)|].
      exists (mkEdge r q). split; [apply He; right; left; by exists k, sc, i, cs, c, r, q|]. split; [by apply Lc|by apply Ls].
    + destruct (Tg k p g os Hk Hg) as [q Hq]. exists (mkEdge (asInt o) q). split; [apply He; right; right; by exists k, p, g, os, o, q|].
      split; [|by apply Lg]. apply Lo. by eapply (gok_grouped _ G).
Qed.

(** The graph of a universe with a dimension that is not scalar is refused. *)
Lemma graph_refused u d dim : graph_ok u → Objects.dimensions (Universe.objects u) !! d = Some dim →
  ¬ single dim → buildGraph u = Throw (runtime_error "expected single scalar dimension").
Proof.
  intros G Ed Hs. unfold buildGraph. set (dimIds := collectSortedDimensionIds (Universe.objects u)).
  assert (∀ d, d ∈ dimIds ↔ ∃ dim, Objects.dimensions (Universe.objects u) !! d = Some dim) as Hd.
  { intros d'. unfold dimIds, collectSortedDimensionIds. rewrite merge_sort_Permutation. split.
    - intros ([d1 dim1] & -> & Hin%hash_iter_elem)%list_elem_of_fmap. by exists dim1.
    - intros [dim1 Hin]. apply list_elem_of_fmap. exists (d', dim1). by rewrite hash_iter_elem. }
  destruct (mapM_Forall2 (IdStore.getDimensionName (Universe.idStore u)) (λ _ _, True) dimIds) as (names & -> & _).
  { intros d' [dm Hdm]%Hd. pose proof (gok_named _ G d' dm Hdm) as Hn.
    destruct (IdStore.getDimensionName (Universe.idStore u) d') as [nm|]; [eauto|done]. }
  cbn [mbind result_bind]. rewrite (objects_embedding_throws (Universe.objects u) dimIds d dim); [done| |done|done].
  apply Hd. by exists dim.
Qed.

Lemma graph_spec u : Universe.wf u → graph_ok u → scalar u → ∃ g, buildGraph u = Ok g ∧
  (∀ v, v ∈ vertices g → Z.of_nat (length (embedding v)) = embeddingDimension g) ∧
  (∀ e, e ∈ edges g → ∃ ts s tt t, member u ts s tt t ∧ joins (vertices g) e ts s tt t) ∧
  ∀ ts s tt t, member u ts s tt t → ∃ e, e ∈ edges g ∧ joins (vertices g) e ts s tt t.
Proof.
  intros W G S. unfold buildGraph. set (dimIds := collectSortedDimensionIds (Universe.objects u)).
  assert (∀ d, d ∈ dimIds → ∃ dim, Objects.dimensions (Universe.objects u) !! d = Some dim) as Hd.
  { intros d. unfold dimIds, collectSortedDimensionIds. rewrite merge_sort_Permutation.
    intros ([d' dim] & -> & Hin%hash_iter_elem)%list_elem_of_fmap. by exists dim. }
  set (dim := (kNumVertexTypes + length dimIds)%nat).
  destruct (mapM_Forall2 (IdStore.getDimensionName (Universe.idStore u)) (λ _ _, True) dimIds) as (names & -> & _).
  { intros d [dm Hdm]%Hd. pose proof (gok_named _ G d dm Hdm) as Hn.
    destruct (IdStore.getDimensionName (Universe.idStore u) d) as [nm|]; [eauto|done]. }
  destruct (objects_embedding (Universe.partitions u) (Universe.objects u) dimIds (Universe.wf_objects _ W)) as (ov & -> & Hov).
  { intros d [dm Hdm]%Hd. exists dm. split; [done|]. by apply (S d). }
  cbn [mbind result_bind].
  pose proof (containers_block (Universe.containers u) dim (Z.of_nat (length ov)) ltac:(unfold dim; lia)) as Bc.
  destruct (addVertices _ _ _) as [cv ci].
  pose proof (scopes_block (hash_iter (Scopes.scopes (Universe.scopes u))) dimIds (Z.of_nat (length (ov ++ cv)))) as Bs.
  rewrite length_app, Nat2Z.inj_add in Bs. destruct (foldl _ _ (hash_iter (Scopes.scopes _))) as [sv si].
  pose proof (partitions_block (hash_iter (Partitions.partitions (Universe.partitions u))) dim
    (Z.of_nat (length (ov ++ cv ++ sv))) ltac:(unfold dim; lia)) as Bg.
  rewrite !length_app, !Nat2Z.inj_add, Z.add_assoc in Bg. destruct (foldl _ _ (hash_iter (Partitions.partitions _))) as [gv gi].
  assert (∀ c, is_Some (Containers.initialAssignment (Universe.containers u) !! c) → is_Some (ci !! asInt c)) as Tc.
  { intros c [os Hc]. apply (block_total _ _ _ _ _ Bc). apply list_elem_of_fmap. exists (c, os). by rewrite hash_iter_elem. }
  assert (∀ k sc i, Scopes.scopes (Universe.scopes u) !! k = Some sc → i ∈ Scope.scopeItemIds sc → is_Some (si !! asInt i)) as Ts.
  { intros k sc i Hk Hi. apply (block_total _ _ _ _ _ Bs). apply list_elem_of_bind. exists (k, sc). by rewrite hash_iter_elem. }
  assert (∀ k p g, Partitions.partitions (Universe.partitions u) !! k = Some p → g ∈ Partition.groupIds p → is_Some (gi !! asInt g)) as Tg.
  { intros k p g Hk Hi. apply (block_total _ _ _ _ _ Bg). apply list_elem_of_bind. exists (k, p). by rewrite hash_iter_elem. }
  destruct (edges_built u ci si gi W G Tc Ts Tg) as (es & Ees & Hes).
  exists (mkGraph (ov ++ cv ++ sv ++ gv) es (Z.of_nat dim) names). split; [|split].
  - apply bind_Ok in Ees as (e1 & -> & (e2 & E2 & E3)%bind_Ok). cbn [mbind result_bind]. rewrite E2.
    cbn [mbind result_bind]. by rewrite E3.
  - simpl. intros v Hv. f_equal. rewrite !elem_of_app in Hv. destruct Hv as [Hv|[Hv|[Hv|Hv]]].
    + apply list_elem_of_lookup in Hv as [k Hk]. by destruct (Forall2_lookup_r _ _ _ _ _ Hov Hk) as (? & _ & _ & _ & ?).
    + by apply (block_type _ _ _ _ _ Bc).
    + by apply (block_type _ _ _ _ _ Bs).
    + by apply (block_type _ _ _ _ _ Bg).
  - apply (edges_join u ci si gi); [done|exact Hes|..]; cbn [vertices].
    + intros o Ho. by eapply objects_located; [apply (Universe.wf_objects _ W)|..].
    + intros c p. apply (block_located _ _ _ _ _ (cv, ci) c p Bc).
    + intros i p Hp. rewrite app_assoc. apply (block_located SCOPE_ITEM dim (hash_iter (Scopes.scopes (Universe.scopes u)) ≫= λ e, Scope.scopeItemIds e.2) _ _ (sv, si) i p); [|done].
      by rewrite length_app, Nat2Z.inj_add.
    + intros g p Hp. replace (ov ++ cv ++ sv ++ gv) with ((ov ++ cv ++ sv) ++ gv ++ []) by (by rewrite app_nil_r, <- !app_assoc).
      apply (block_located GROUP dim (hash_iter (Partitions.partitions (Universe.partitions u)) ≫= λ e, Partition.groupIds e.2) _ _ (gv, gi) g p); [|done].
      by rewrite !length_app, !Nat2Z.inj_add, Z.add_assoc.
    + exact Tc.
    + intros k sc i cs Hk Hi. apply (Ts k sc i Hk). destruct (Universe.wf_scopes _ W k sc Hk) as [_ Wsc].
      apply scope_ids; [done|by eexists].
    + intros k p g os Hk Hg. apply (Tg k p g Hk). destruct (Universe.wf_partitions _ W k p Hk) as [_ (groups & -> & _)].
      apply list_elem_of_fmap. exists (g, os). by rewrite hash_iter_elem.
Qed.
End graph.
End EntityGraph.
