(* ===== verification/Builders.v ===== *)
(** * The builders of the entities

    entities/builders: [IdBuilder] (the counters of identifiers), [AsyncValueMap] (values that
    are announced before they are set), the registries of named entities (goals,
    constraints, routing configurations, scopes, partitions and dimensions),
    [AssignmentBuilder], and the tasks that add scopes and partitions concurrently and draw
    their identifiers from one atomic counter. *)

From S2P Require Import Prelude ChangeSet ObjectValues Entities IdStore.
Import EntityId.

(** ** IdBuilder

    [next] returns the counter and increments it, a [std::uint32_t]. *)
Module IdBuilder.
Definition next (counter : Z) : Z * Z := (counter, (counter + 1) mod modulus).

Lemma next_small counter : 0 ≤ counter < 2 ^ 31 → next counter = (counter, counter + 1).
Proof. intros Hc. unfold next, modulus. by rewrite Z.mod_small by lia. Qed.
End IdBuilder.

(** ** Names by identifier *)
Definition buildNameVector `{NameOrder} (nameToId : gmap string Z) : result (list string) :=
  foldM (λ names '(name, id), vec_set names id name) (replicate (size nameToId) ""%string) (name_iter nameToId).

Definition buildNameVectorFromNested `{HashOrder, NameOrder} (nestedMap : gmap Z (gmap string Z)) : result (list string) :=
  let totalSize := foldl (λ n '(_, inner), (n + size inner)%nat) 0%nat (hash_iter nestedMap) in
  foldM (λ names '(_, inner), foldM (λ names '(name, id), vec_set names id name) names (name_iter inner))
    (replicate totalSize ""%string) (hash_iter nestedMap).

(** The identifiers of a map of names are 0 to n-1, each once. *)
Definition ids (m : gmap string Z) : list Z := (map_to_list m).*2.
Definition dense (m : gmap string Z) (n : Z) : Prop := ids m ≡ₚ seqZ 0 n.

Lemma writes_spec (l : list (string * Z)) : ∀ v, NoDup l.*2 →
  (∀ name id, (name, id) ∈ l → 0 ≤ id < Z.of_nat (length v)) →
  ∃ v', foldM (λ names '(name, id), vec_set names id name) v l = Ok v' ∧ length v' = length v ∧
    (∀ name id, (name, id) ∈ l → v' !! Z.to_nat id = Some name) ∧
    ∀ i, Z.of_nat i ∉ l.*2 → v' !! i = v !! i.
Proof.
  induction l as [|[name id] l IH]; intros v Hn Hl; [exists v; split_and!; [done..| |done]; set_solver|].
  apply NoDup_cons in Hn as [Hid Hn]. destruct (Hl name id ltac:(left)) as [H0 H1].
  destruct (IH (<[Z.to_nat id := name]> v)) as (v' & E & Hlen & Hv & Ho); [done| |].
  { intros name' id' Hin. rewrite length_insert. apply (Hl name' id'). by right. }
  assert (vec_set v id name = Ok (<[Z.to_nat id := name]> v)) as Ew.
  { unfold vec_set. by rewrite (proj2 (Z.ltb_ge _ _)), (proj2 (Z.leb_gt _ _)) by lia. }
  exists v'. cbn [foldM]. rewrite Ew. split; [exact E|]. rewrite length_insert in Hlen. split; [done|]. split.
  - intros name' id' [[= -> ->]|Hin]%elem_of_cons; [|by apply Hv]. rewrite Ho by (by rewrite Z2Nat.id).
    apply list_lookup_insert_eq. lia.
  - intros i Hi. rewrite fmap_cons, not_elem_of_cons in Hi. destruct Hi as [Hi Hi']. simpl in Hi. rewrite Ho by done.
    apply list_lookup_insert_ne. lia.
Qed.

Lemma dense_size m n : 0 ≤ n → dense m n → Z.of_nat (size m) = n.
Proof.
  intros Hn Hd%Permutation_length. unfold ids in Hd. rewrite length_fmap, length_map_to_list, length_seqZ in Hd. lia.
Qed.

Lemma buildNameVector_dense `{NameOrder} m n : 0 ≤ n ≤ 2 ^ 31 → dense m n →
  ∃ v, buildNameVector m = Ok v ∧ named v m.
Proof.
  intros Hn Hd. pose proof (dense_size m n ltac:(lia) Hd) as Hs.
  assert (∀ name id, (name, id) ∈ name_iter m → 0 ≤ id < n) as Hin.
  { intros name id Hm. assert (id ∈ seqZ 0 n) as Hid%elem_of_seqZ; [|lia]. rewrite <- Hd. unfold ids.
    rewrite <- name_iter_perm. by apply (list_elem_of_fmap_2 snd _ (name, id)). }
  destruct (writes_spec (name_iter m) (replicate (size m) ""%string)) as (v & E & _ & Hv & _).
  - rewrite name_iter_perm. unfold dense, ids in Hd. rewrite Hd. apply NoDup_seqZ.
  - intros name id Hm%Hin. rewrite length_replicate. lia.
  - exists v. split; [exact E|]. intros name id Hm%name_iter_elem. split; [|by apply Hv]. apply Hin in Hm. lia.
Qed.

Lemma dense_insert m n name : 0 ≤ n → m !! name = None → dense m n → dense (<[name := n]> m) (n + 1).
Proof.
  intros Hn Hm Hd. unfold dense, ids in *. rewrite map_to_list_insert by done. rewrite fmap_cons, Hd, seqZ_app by lia.
  rewrite Z.add_0_l. change (seqZ n 1) with [0 + n]. rewrite Z.add_0_l. by rewrite Permutation_app_comm.
Qed.

Lemma dense_range m n name id : dense m n → m !! name = Some id → 0 ≤ id < n.
Proof.
  intros Hd Hm. assert (id ∈ seqZ 0 n) as Hid%elem_of_seqZ; [|lia]. rewrite <- Hd.
  apply (list_elem_of_fmap_2 snd _ (name, id)). by apply elem_of_map_to_list.
Qed.

Lemma dense_onto m n id : dense m n → 0 ≤ id < n → ∃ name, m !! name = Some id.
Proof.
  intros Hd Hid. assert (id ∈ ids m) as Hin by (rewrite Hd; apply elem_of_seqZ; lia).
  apply list_elem_of_fmap in Hin as ([name id'] & -> & Hm%elem_of_map_to_list). by exists name.
Qed.

Lemma dense_inj m n name1 name2 id : dense m n → m !! name1 = Some id → m !! name2 = Some id → name1 = name2.
Proof.
  intros Hd H1 H2. destruct (decide (name1 = name2)) as [|Hne]; [done|]. exfalso.
  assert (NoDup (ids m)) as Hn by (rewrite Hd; apply NoDup_seqZ). unfold ids in Hn.
  rewrite <- (insert_delete_id m name1 id H1) in Hn. rewrite map_to_list_insert in Hn by apply lookup_delete_eq.
  rewrite fmap_cons in Hn. apply NoDup_cons in Hn as [Hn _]. apply Hn.
  apply (list_elem_of_fmap_2 snd _ (name2, id)), elem_of_map_to_list. by rewrite lookup_delete_ne.
Qed.

(** ** AsyncValueMap

    A key is registered before its value is set; a promise not yet fulfilled is [None]. *)
Module AsyncValueMap.
Section map.
Context `{Countable K} {V : Type}.
Abbreviation t := (gmap K (option V)).

Definition registerKey (m : t) (key : K) : bool * t :=
  match m !! key with Some _ => (false, m) | None => (true, <[key := None]> m) end.

Definition set (m : t) (key : K) (value : V) : result t :=
  match m !! key with
  | Some (Some _) => Throw (runtime_error "Unexpected call to set() on previously fulfilled key")
  | _ => Ok (<[key := Some value]> m)
  end.

(** [None] inside: the caller is suspended until the value is set. *)
Definition get (m : t) (key : K) : result (option V) :=
  match m !! key with
  | None => Throw (runtime_error "Unexpected call to get() w.r.t a key that was neither explicitly registered nor set")
  | Some v => Ok v
  end.

(** The calls of the function, [order] being that of the keys; [None]: suspended at the first
    value that is not set. *)
Definition waitAndReadFromEach (order : list (K * option V)) : option (list (K * V)) :=
  mapM (λ '(key, promise), (λ v, (key, v)) <$> promise) order.

Definition size (m : t) : nat := base.size m.

(** What is read is what was set. *)
Lemma read_all m order l : order ≡ₚ map_to_list m → waitAndReadFromEach order = Some l →
  ∀ k v, (k, v) ∈ l ↔ m !! k = Some (Some v).
Proof.
  intros Ho E%mapM_Some k v. rewrite <- (elem_of_map_to_list m), <- Ho. split.
  - intros [i Hi]%list_elem_of_lookup. destruct (Forall2_lookup_r _ _ _ _ _ E Hi) as ([k' p] & Hk & Hp).
    destruct p; [|done]. injection Hp as -> ->. by eapply list_elem_of_lookup_2.
  - intros [i Hi]%list_elem_of_lookup. destruct (Forall2_lookup_l _ _ _ _ _ E Hi) as ([k' w] & Hk & Hp).
    injection Hp as <- <-. by eapply list_elem_of_lookup_2.
Qed.

Lemma read_keys m order l : order ≡ₚ map_to_list m → waitAndReadFromEach order = Some l →
  list_to_map l = omap id m ∧ NoDup l.*1 ∧ ∀ k, is_Some (m !! k) → is_Some (omap id m !! k).
Proof.
  intros Ho E. pose proof (read_all m order l Ho E) as Hl.
  assert (l.*1 = order.*1) as E1.
  { clear Hl Ho. apply mapM_Some in E. induction E as [|[k p] [k' v] o l Hp _ IH]; [done|].
    rewrite !fmap_cons, IH. destruct p; [|done]. by injection Hp as -> ->. }
  assert (NoDup l.*1) as Hn by (rewrite E1, Ho; apply NoDup_fst_map_to_list).
  split_and!; [|done|].
  - apply map_eq. intros k. apply option_eq. intros v. rewrite <- elem_of_list_to_map by done.
    rewrite Hl, lookup_omap_Some. split; [by eexists|]. intros (p & Hp & Hm). simpl in Hp. by rewrite Hp in Hm.
  - intros k [p Hk]. assert (k ∈ l.*1) as Hin.
    { rewrite E1, Ho. apply (list_elem_of_fmap_2 fst _ (k, p)). by apply elem_of_map_to_list. }
    apply list_elem_of_fmap in Hin as ([k' v] & -> & Hin%Hl). rewrite lookup_omap. simpl. rewrite Hin. by eexists.
Qed.

(** It suspends exactly while a registered key has no value. *)
Lemma read_suspends m order : order ≡ₚ map_to_list m →
  waitAndReadFromEach order = None ↔ ∃ k, m !! k = Some None.
Proof.
  intros Ho. unfold waitAndReadFromEach. rewrite mapM_None, Exists_exists. split.
  - intros ([k [v|]] & Hin & Hp); [done|]. exists k. apply elem_of_map_to_list. by rewrite <- Ho.
  - intros [k Hk]. exists (k, None). split; [|done]. rewrite Ho. by apply elem_of_map_to_list.
Qed.
End map.
End AsyncValueMap.

(** ** Registries of named entities

    The common part of [GoalsBuilder], [ConstraintsBuilder], [RoutingConfigsBuilder],
    [ScopesBuilder] and [PartitionsBuilder]: names, data by identifier, and the counter of
    [IdBuilder] for the kind of identifier. *)
Module Registry.
Section registry.
Context {V : Type}.

Record t := mk { counter : Z; nameToId : gmap string Z; idToData : gmap Z (option V) }.

Definition empty : t := mk 0 ∅ ∅.

Definition makeIdFromName (r : t) (name : string) : result (Z * t) :=
  match nameToId r !! name with
  | Some _ => Throw (runtime_error "Unexpected call with a previously added name")
  | None =>
      let '(id, counter) := IdBuilder.next (counter r) in
      let '(registered, data) := AsyncValueMap.registerKey (idToData r) id in
      if negb registered then Throw (runtime_error "Unexpected duplicate call to registerKey()")
      else Ok (id, mk counter (emplace (nameToId r) name id) data)
  end.

(** [add] *)
Definition add (r : t) (id : Z) (data : V) : result t :=
  idToData ← AsyncValueMap.set (idToData r) id data;
  Ok (mk (counter r) (nameToId r) idToData).

Definition getId (r : t) (name : string) : result Z := at_ (nameToId r !! name).

(** [build]: the names and the data; [None] while data is missing. *)
Definition build `{HashOrder} (r : t) : option (gmap string Z * gmap Z V) :=
  entries ← AsyncValueMap.waitAndReadFromEach (hash_iter (idToData r));
  Some (nameToId r, emplaceAll ∅ entries).

Record inv (r : t) : Prop := {
  inv_count : 0 ≤ counter r;
  inv_dense : dense (nameToId r) (counter r);
  inv_keys id : is_Some (idToData r !! id) ↔ 0 ≤ id < counter r
}.

Lemma registry_empty_inv : inv empty.
Proof.
  split; simpl; [lia|by unfold dense, ids; rewrite map_to_list_empty|]. intros id. rewrite lookup_empty. split; [by intros []|lia].
Qed.

Lemma makeIdFromName_inv r name : inv r → counter r < 2 ^ 31 →
  match makeIdFromName r name with
  | Ok (id, r') => inv r' ∧ id = counter r ∧ nameToId r !! name = None ∧
      nameToId r' = <[name := id]> (nameToId r) ∧ counter r' = counter r + 1
  | Throw _ => is_Some (nameToId r !! name)
  end.
Proof.
  intros [Hc Hd Hk] Hs. unfold makeIdFromName. destruct (nameToId r !! name) as [i|] eqn:E; [by eexists|].
  rewrite IdBuilder.next_small by lia. unfold AsyncValueMap.registerKey.
  destruct (idToData r !! counter r) as [p|] eqn:Ep.
  { exfalso. assert (is_Some (idToData r !! counter r)) as Hx%Hk by (by eexists). lia. }
  simpl. unfold emplace. rewrite E. split; [|done]. split; simpl; [lia|by apply dense_insert|].
  intros id. destruct (decide (counter r = id)) as [<-|Hne].
  - rewrite lookup_insert_eq. split; [lia|by eexists].
  - rewrite lookup_insert_ne, Hk by done. lia.
Qed.

Lemma add_inv r id data : inv r → 0 ≤ id < counter r →
  match add r id data with
  | Ok r' => inv r' ∧ nameToId r' = nameToId r ∧ idToData r' = <[id := Some data]> (idToData r)
  | Throw _ => ∃ old, idToData r !! id = Some (Some old)
  end.
Proof.
  intros [Hc Hd Hk] Hid. unfold add, AsyncValueMap.set.
  destruct (idToData r !! id) as [[old|]|] eqn:E; simpl; [by eexists|..];
    (split; [split; simpl; [done|done|]|done]); intros id'; (destruct (decide (id = id')) as [<-|Hne];
      [rewrite lookup_insert_eq; split; [done|by eexists]|by rewrite lookup_insert_ne, Hk by done]).
Qed.

(** Every name has its data once the registry can be built. *)
Lemma build_spec `{HashOrder} r names data : inv r → build r = Some (names, data) →
  names = nameToId r ∧ data = omap id (idToData r) ∧
  ∀ i, is_Some (data !! i) ↔ ∃ name, names !! name = Some i.
Proof.
  intros [Hc Hd Hk] E. unfold build in E. apply bind_Some in E as (l & El & [= <- <-]).
  destruct (AsyncValueMap.read_keys (idToData r) _ l (hash_iter_perm _ _) El) as (Em & _ & Hkeys).
  rewrite emplaceAll_empty, Em. split_and!; [done..|]. intros i. split.
  - intros [v (p & _ & Hp)%lookup_omap_Some]. apply (dense_onto _ _ _ Hd), Hk. by eexists.
  - intros [name Hn]. apply Hkeys, Hk. by eapply dense_range.
Qed.
End registry.
Arguments t : clear implicits.
End Registry.

(** ** DimensionsBuilder

    A name may be given to a dimension of the objects and to dimensions of scopes; they
    share the identifier. *)
Module DimensionsBuilder.
Section dimensions.
Context {OD SD : Type}.

Record t := mk {
  counter : Z;
  dimensionNameToId : gmap string Z;
  objectDimensionIdToData : gmap Z (option OD);
  scopeDimensionIdToData : gmap (Z * Z) (option SD)
}.

Definition empty : t := mk 0 ∅ ∅ ∅.

Definition getOrMakeDimensionId (b : t) (name : string) : Z * t :=
  match dimensionNameToId b !! name with
  | Some id => (id, b)
  | None =>
      let '(id, counter) := IdBuilder.next (counter b) in
      (id, mk counter (emplace (dimensionNameToId b) name id) (objectDimensionIdToData b) (scopeDimensionIdToData b))
  end.

Definition makeObjectDimensionId (b : t) (name : string) : result (Z * t) :=
  let '(id, b) := getOrMakeDimensionId b name in
  let '(registered, data) := AsyncValueMap.registerKey (objectDimensionIdToData b) id in
  if negb registered
  then Throw (runtime_error "Unexpected call to makeObjectDimensionId with a previously added dimension name")
  else Ok (id, mk (counter b) (dimensionNameToId b) data (scopeDimensionIdToData b)).

Definition makeScopeDimensionId (b : t) (name : string) (scopeId : Z) : result (Z * t) :=
  let '(id, b) := getOrMakeDimensionId b name in
  let '(registered, data) := AsyncValueMap.registerKey (scopeDimensionIdToData b) (id, scopeId) in
  if negb registered
  then Throw (runtime_error "Unexpected call to makeScopeDimensionId with a previously added dimension name")
  else Ok (id, mk (counter b) (dimensionNameToId b) (objectDimensionIdToData b) data).

Definition addObjectDimension (b : t) (id : Z) (d : OD) : result t :=
  data ← AsyncValueMap.set (objectDimensionIdToData b) id d;
  Ok (mk (counter b) (dimensionNameToId b) data (scopeDimensionIdToData b)).

Definition addScopeDimension (b : t) (id scopeId : Z) (d : SD) : result t :=
  data ← AsyncValueMap.set (scopeDimensionIdToData b) (id, scopeId) d;
  Ok (mk (counter b) (dimensionNameToId b) (objectDimensionIdToData b) data).

(** [order] is that of the keys of the dimensions of scopes. *)
Definition build `{HashOrder} (b : t) (order : list (Z * Z * option SD))
    : option (gmap string Z * gmap Z OD * gmap Z (gmap Z SD)) :=
  objectDims ← AsyncValueMap.waitAndReadFromEach (hash_iter (objectDimensionIdToData b));
  scopeDims ← AsyncValueMap.waitAndReadFromEach order;
  Some (dimensionNameToId b, emplaceAll ∅ objectDims,
        foldl (λ m '((dimensionId, scopeId), d),
          <[scopeId := emplace (default ∅ (m !! scopeId)) dimensionId d]> m) ∅ scopeDims).

Record inv (b : t) : Prop := {
  inv_count : 0 ≤ counter b;
  inv_dense : dense (dimensionNameToId b) (counter b);
  inv_objects id : is_Some (objectDimensionIdToData b !! id) → 0 ≤ id < counter b;
  inv_scopes id scopeId : is_Some (scopeDimensionIdToData b !! (id, scopeId)) → 0 ≤ id < counter b
}.

Lemma dimensions_empty_inv : inv empty.
Proof.
  split; simpl; [lia|by unfold dense, ids; rewrite map_to_list_empty| |]; intros; rewrite lookup_empty in *; by destruct_and?; match goal with
    Hx : is_Some None |- _ => destruct Hx end.
Qed.

Lemma getOrMake_inv b name : inv b → counter b < 2 ^ 31 →
  let '(id, b') := getOrMakeDimensionId b name in
  inv b' ∧ dimensionNameToId b' !! name = Some id ∧ dimensionNameToId b ⊆ dimensionNameToId b' ∧ counter b' ≤ counter b + 1 ∧
  objectDimensionIdToData b' = objectDimensionIdToData b ∧ scopeDimensionIdToData b' = scopeDimensionIdToData b.
Proof.
  intros [Hc Hd Ho Hs] Hb. unfold getOrMakeDimensionId. destruct (dimensionNameToId b !! name) as [id|] eqn:E.
  { split_and!; try done. lia. }
  rewrite IdBuilder.next_small by lia. unfold emplace. rewrite E.
  split_and!; simpl; try done; [|by rewrite lookup_insert_eq|by apply insert_subseteq].
  split; simpl; [lia|by apply dense_insert|intros id Hi%Ho; lia|intros id scopeId Hi%Hs; lia].
Qed.

Lemma makeObjectDimensionId_inv b name : inv b → counter b < 2 ^ 31 →
  match makeObjectDimensionId b name with
  | Ok (id, b') => inv b' ∧ dimensionNameToId b' !! name = Some id ∧ objectDimensionIdToData b' !! id = Some None
  | Throw _ => ∃ id, dimensionNameToId b !! name = Some id ∧ is_Some (objectDimensionIdToData b !! id)
  end.
Proof.
  intros Hi Hb. pose proof (getOrMake_inv b name Hi Hb) as Hg. unfold makeObjectDimensionId, getOrMakeDimensionId in *.
  destruct (dimensionNameToId b !! name) as [id|] eqn:E.
  - unfold AsyncValueMap.registerKey. destruct (objectDimensionIdToData b !! id) as [p|] eqn:Ep; simpl.
    + exists id. split; [done|]. rewrite Ep. by eexists.
    + destruct Hi as [Hc Hd Ho Hs]. split_and!; [|done|by rewrite lookup_insert_eq]. split; simpl; [done|done| |done].
      intros id' [p [[<- _]|[_ Hp]]%lookup_insert_Some]; [by eapply dense_range|apply Ho; by eexists].
  - rewrite IdBuilder.next_small in * by (destruct Hi; lia). unfold emplace in *. rewrite E in *.
    destruct Hg as (Hi' & Hn & _). unfold AsyncValueMap.registerKey. simpl.
    destruct (objectDimensionIdToData b !! counter b) as [p|] eqn:Ep; simpl.
    { exfalso. assert (0 ≤ counter b < counter b); [|lia]. apply (inv_objects _ Hi). by eexists. }
    destruct Hi' as [Hc Hd Ho Hs]. simpl in *. split_and!; [|done|by rewrite lookup_insert_eq].
    split; simpl; [done|done| |done].
    intros id' [q [[<- _]|[_ Hq]]%lookup_insert_Some]; [by eapply dense_range|apply Ho; by eexists].
Qed.
End dimensions.
Arguments t : clear implicits.
End DimensionsBuilder.
