(* ===== verification/AssignmentBuilder.v ===== *)
(** * The builder of the assignment

    entities/builders/AssignmentBuilder.h: the first assignment numbers the objects and
    the containers in a shuffled order, a later one keeps the numbers and must have the
    same objects and containers. *)

From S2P Require Import Prelude ChangeSet Entities IdStore Builders.
Import EntityId.

Module AssignmentBuilder.
Section builder.
Context `{NameOrder}.

Record ObjectsData := mkObjects { numObjects : Z; objectNameToId : gmap string Z }.
Record ContainersData := mkContainers { containerNameToId : gmap string Z; containerIdToObjectIds : gmap Z (list Z) }.

(** The counters are those of [IdBuilder]. *)
Record t := mk {
  nextContainerId : Z;
  nextObjectId : Z;
  objects : option ObjectsData;
  containers : option ContainersData
}.

Definition empty : t := mk 0 0 None None.

(** What [getShuffledAssignment] shuffles. *)
Definition pairs (l : list (string * list string)) : list (string * option string) :=
  l ≫= λ '(container, os), match os with [] => [(container, None)] | _ => (λ o, (container, Some o)) <$> os end.

(** The variables of the loop of [set]. *)
Record acc := mkAcc { a_num : Z; a_objects : gmap string Z; a_containers : gmap string Z; a_assignment : gmap Z (list Z) }.

Definition set_step (nc no : Z) (a : acc) (containerName : string) (objectName : option string)
    : Z * Z * result acc :=
  let '(containerId, nc, a_containers) :=
    match a_containers a !! containerName with
    | Some containerId => (containerId, nc, a_containers a)
    | None =>
        let '(containerId, nc) := IdBuilder.next nc in
        (containerId, nc, emplace (a_containers a) containerName containerId)
    end in
  match objectName with
  | Some objectName =>
      let '(objectId, no) := IdBuilder.next no in
      match a_objects a !! objectName with
      | Some _ => (nc, no, Throw (runtime_error "Duplicate object in assignment"))
      | None =>
          (nc, no, Ok (mkAcc (a_num a + 1) (<[objectName := objectId]> (a_objects a)) a_containers
             (<[containerId := default [] (a_assignment a !! containerId) ++ [objectId]]> (a_assignment a))))
      end
  | None => (nc, no, Ok (mkAcc (a_num a) (a_objects a) a_containers (<[containerId := []]> (a_assignment a))))
  end.

Fixpoint set_loop (nc no : Z) (a : acc) (l : list (string * option string)) : Z * Z * result acc :=
  match l with
  | [] => (nc, no, Ok a)
  | (containerName, objectName) :: l =>
      match set_step nc no a containerName objectName with
      | (nc, no, Ok a) => set_loop nc no a l
      | failed => failed
      end
  end.

(** *** [reassign] *)
Definition mismatch {A} : result A :=
  Throw (runtime_error "AssignmentBuilder::set: re-set must use the same set of objects and containers as the initial call").

Definition reassign_object (o : ObjectsData) (s : list bool * Z * list Z) (objectName : string)
    : result (list bool * Z * list Z) :=
  let '(seen, total, objectsInContainer) := s in
  match objectNameToId o !! objectName with
  | None => mismatch
  | Some objectId =>
      b ← vec_get seen objectId;
      if b : bool then Throw (runtime_error "Duplicate object in assignment")
      else
        seen ← vec_set seen objectId true;
        Ok (seen, total + 1, objectsInContainer ++ [objectId])
  end.

Definition reassign_container (o : ObjectsData) (c : ContainersData) (s : list bool * Z * gmap Z (list Z))
    (e : string * list string) : result (list bool * Z * gmap Z (list Z)) :=
  let '(seen, total, assignment) := s in
  let '(containerName, objectNames) := e in
  match containerNameToId c !! containerName with
  | None => mismatch
  | Some containerId =>
      match assignment !! containerId with
      | Some _ => Throw (runtime_error "Duplicate container in assignment")
      | None =>
          '(seen, total, objectsInContainer) ← foldM (reassign_object o) (seen, total, []) objectNames;
          Ok (seen, total, <[containerId := objectsInContainer]> assignment)
      end
  end.

Definition reassign (o : ObjectsData) (c : ContainersData) (l : list (string * list string)) : result ContainersData :=
  '(seen, total, assignment) ← foldM (reassign_container o c)
      (replicate (Z.to_nat (numObjects o)) false, 0, ∅) l;
  _ ← (if negb (size assignment =? size (containerNameToId c))%nat || negb (total =? numObjects o)
       then
         _ ← (if negb (size assignment =? size (containerNameToId c))%nat
              then foldM (λ _ '(_, id), match assignment !! id with Some _ => Ok tt | None => mismatch end) tt
                     (name_iter (containerNameToId c))
              else Ok tt);
         foldM (λ _ '(_, id), b ← vec_get seen id; if b : bool then Ok tt else mismatch) tt
           (name_iter (objectNameToId o))
       else Ok tt);
  Ok (mkContainers (containerNameToId c) assignment).

(** *** [set]

    The new state and the outcome: the identifiers drawn before an exception stay drawn.
    [shuffled] is the shuffled list of [pairs]. *)
Definition set (b : t) (l : list (string * list string)) (shuffled : list (string * option string)) : t * result () :=
  match objects b, containers b with
  | Some o, Some c =>
      match reassign o c l with
      | Ok c' => (mk (nextContainerId b) (nextObjectId b) (Some o) (Some c'), Ok tt)
      | Throw e => (b, Throw e)
      end
  | Some _, None => (b, Throw (undefined_behaviour "null pointer"))
  | None, _ =>
      match set_loop (nextContainerId b) (nextObjectId b) (mkAcc 0 ∅ ∅ ∅) shuffled with
      | (nc, no, Ok a) =>
          if negb (size (a_assignment a) =? length l)%nat
          then (mk nc no None (containers b),
                Throw (runtime_error "Expected 'assignment' to have every container map to a vector of objects"))
          else (mk nc no (Some (mkObjects (a_num a) (a_objects a)))
                         (Some (mkContainers (a_containers a) (a_assignment a))), Ok tt)
      | (nc, no, Throw e) => (mk nc no None (containers b), Throw e)
      end
  end.

Definition getObjects (b : t) : result ObjectsData :=
  match objects b with
  | None => Throw (runtime_error "Expect objects to be set. Did you set initialAssignment?")
  | Some o => Ok o
  end.
Definition getContainers (b : t) : result ContainersData :=
  match containers b with
  | None => Throw (runtime_error "Expect containers to be set. Did you set initialAssignment?")
  | Some c => Ok c
  end.
Definition wasPreviouslySet (b : t) : bool := match objects b with Some _ => true | None => false end.

Definition build (b : t) : result (ObjectsData * ContainersData) :=
  o ← getObjects b; c ← getContainers b; Ok (o, c).

(** ** The numbering of a first assignment *)
Definition objects_of (l : list (string * option string)) : list string := omap snd l.

Record numbered (nc no : Z) (a : acc) (done : list (string * option string)) : Prop := {
  num_containers : dense (a_containers a) nc;
  num_objects : dense (a_objects a) no;
  num_count : a_num a = no;
  num_container_names c : is_Some (a_containers a !! c) ↔ c ∈ done.*1;
  num_object_names o : is_Some (a_objects a !! o) ↔ o ∈ objects_of done;
  num_distinct : NoDup (objects_of done);
  num_keys i : is_Some (a_assignment a !! i) ↔ 0 ≤ i < nc;
  num_bounds : 0 ≤ nc ≤ Z.of_nat (length done) ∧ 0 ≤ no ≤ Z.of_nat (length done)
}.

Lemma start_numbered : numbered 0 0 (mkAcc 0 ∅ ∅ ∅) [].
Proof.
  assert (dense ∅ 0) as Hd by (unfold dense, ids; by rewrite map_to_list_empty).
  split; simpl; [done|done|done| | |constructor| |lia].
  - intros c. rewrite lookup_empty. split; [by intros []|by intros ?%not_elem_of_nil].
  - intros o. rewrite lookup_empty. split; [by intros []|by intros ?%not_elem_of_nil].
  - intros i. rewrite lookup_empty. split; [by intros []|lia].
Qed.

(** The identifier of the container of a pair. *)
Lemma container_step nc no a done c : numbered nc no a done → Z.of_nat (length done) < 2 ^ 31 →
  ∃ cid nc' cs, (match a_containers a !! c with
     | Some containerId => (containerId, nc, a_containers a)
     | None => let '(containerId, nc) := IdBuilder.next nc in (containerId, nc, emplace (a_containers a) c containerId)
     end) = (cid, nc', cs) ∧
    dense cs nc' ∧ cs !! c = Some cid ∧ a_containers a ⊆ cs ∧ (∀ c', is_Some (cs !! c') ↔ c' ∈ done.*1 ++ [c]) ∧
    0 ≤ nc ≤ nc' ≤ nc + 1 ∧ ∀ i, 0 ≤ i < nc' ↔ 0 ≤ i < nc ∨ i = cid.
Proof.
  intros [Nc _ _ Nn _ _ _ [Hb _]] Hl. destruct (a_containers a !! c) as [cid|] eqn:E.
  - exists cid, nc, (a_containers a). pose proof (dense_range _ _ _ _ Nc E) as Hr. split_and!; try done; try lia.
    intros c'. rewrite Nn, elem_of_app, list_elem_of_singleton. split; [by left|]. intros [?| ->]; [done|].
    apply Nn. by eexists.
  - rewrite IdBuilder.next_small by lia. eexists nc, (nc + 1), _. unfold emplace. rewrite E.
    split_and!; [done|by apply dense_insert; [lia|..]|by rewrite lookup_insert_eq|by apply insert_subseteq| |lia..|intros i; lia].
    intros c'. rewrite elem_of_app, list_elem_of_singleton, <- Nn.
    destruct (decide (c = c')) as [<-|Hne]; [rewrite lookup_insert_eq; split; [by right|by eexists]|].
    rewrite lookup_insert_ne by done. split; [by left|]. intros [?|?]; congruence.
Qed.

Lemma set_step_numbered nc no a done c o : numbered nc no a done → Z.of_nat (length done) < 2 ^ 31 →
  match set_step nc no a c o with
  | (nc', no', Ok a') => numbered nc' no' a' (done ++ [(c, o)])
  | (_, _, Throw _) => ∃ name, o = Some name ∧ name ∈ objects_of done
  end.
Proof.
  intros N Hl. destruct (container_step nc no a done c N Hl) as (cid & nc' & cs & E & Dc & Ec & _ & Hn & Hb & Hi).
  unfold set_step. rewrite E. destruct N as [Nc No Nu Nn Nm Nd Nk [Hbc Hbo]].
  assert (∀ x, objects_of (done ++ [(c, x)]) = objects_of done ++ option_list x) as Eo.
  { intros x. unfold objects_of. rewrite omap_app. by destruct x. }
  destruct o as [o|].
  - rewrite IdBuilder.next_small by lia. destruct (a_objects a !! o) as [i|] eqn:Ea.
    { exists o. split; [done|]. apply Nm. by eexists. }
    assert (o ∉ objects_of done) as Hno by (intros [? Ho]%Nm; congruence).
    split; simpl; rewrite ?Eo, ?fmap_app, ?length_app; simpl.
    + done.
    + apply dense_insert; [lia|done..].
    + lia.
    + done.
    + intros o'. rewrite elem_of_app, list_elem_of_singleton, <- Nm.
      destruct (decide (o = o')) as [<-|Hne]; [rewrite lookup_insert_eq; split; [by right|by eexists]|].
      rewrite lookup_insert_ne by done. split; [by left|]. intros [?|?]; congruence.
    + apply NoDup_app. split; [done|]. split; [|apply NoDup_singleton]. by intros x Hx ->%list_elem_of_singleton.
    + intros i. rewrite Hi. destruct (decide (cid = i)) as [<-|Hne]; [rewrite lookup_insert_eq; split; [by right|by eexists]|].
      rewrite lookup_insert_ne, Nk by done. split; [by left|]. intros [?|?]; congruence.
    + lia.
  - split; simpl; rewrite ?Eo, ?fmap_app, ?length_app; simpl; rewrite ?app_nil_r; try done.
    + intros i. rewrite Hi. destruct (decide (cid = i)) as [<-|Hne]; [rewrite lookup_insert_eq; split; [by right|by eexists]|].
      rewrite lookup_insert_ne, Nk by done. split; [by left|]. intros [?|?]; congruence.
    + lia.
Qed.

Lemma set_loop_numbered l : ∀ nc no a done, numbered nc no a done → Z.of_nat (length (done ++ l)) ≤ 2 ^ 31 →
  match set_loop nc no a l with
  | (nc', no', Ok a') => numbered nc' no' a' (done ++ l)
  | (_, _, Throw _) => ¬ NoDup (objects_of (done ++ l))
  end.
Proof.
  induction l as [|[c o] l IH]; intros nc no a done N Hl; [by rewrite app_nil_r|]. simpl.
  rewrite length_app in Hl. simpl in Hl.
  pose proof (set_step_numbered nc no a done c o N ltac:(lia)) as Hs.
  destruct (set_step nc no a c o) as [[nc' no'] [a'|e]].
  - specialize (IH nc' no' a' (done ++ [(c, o)]) Hs). rewrite <- app_assoc in IH. apply IH.
    rewrite length_app. simpl. lia.
  - destruct Hs as (name & -> & Hin). unfold objects_of. rewrite omap_app. simpl. intros (_ & Hd & _)%NoDup_app.
    apply (Hd name Hin). left.
Qed.

(** *** The members of the containers *)
Definition members_of (c : string) (l : list (string * option string)) : list string :=
  omap (λ '(c', o), if decide (c' = c) then o else None) l.

Definition separate (l : list (string * option string)) : Prop := ∀ c o, (c, None) ∈ l → (c, Some o) ∉ l.

Definition placed (a : acc) (done : list (string * option string)) : Prop :=
  ∀ c cid, a_containers a !! c = Some cid → ∃ oids, a_assignment a !! cid = Some oids ∧
    Forall2 (λ o id, a_objects a !! o = Some id) (members_of c done) oids.

Lemma members_of_snoc c done c' o :
  members_of c (done ++ [(c', o)]) = members_of c done ++ (if decide (c' = c) then option_list o else []).
Proof. unfold members_of. rewrite omap_app. simpl. destruct (decide (c' = c)); [by destruct o|done]. Qed.

Lemma elem_of_members c l o : o ∈ members_of c l ↔ (c, Some o) ∈ l.
Proof.
  unfold members_of. rewrite list_elem_of_omap. split.
  - intros ([c' o'] & Hin & E). simpl in E. destruct (decide (c' = c)) as [->|]; [|done]. by subst.
  - intros Hin. exists (c, Some o). split; [done|]. simpl. by rewrite decide_True.
Qed.

Lemma set_step_placed nc no a done c o nc' no' a' : numbered nc no a done → Z.of_nat (length done) < 2 ^ 31 →
  separate (done ++ [(c, o)]) → placed a done → set_step nc no a c o = (nc', no', Ok a') →
  placed a' (done ++ [(c, o)]).
Proof.
  intros N Hl Hsep Hp. destruct (container_step nc no a done c N Hl) as (cid & nc1 & cs & E & Dc & Ec & Hsub & Hn & Hb & Hi).
  unfold set_step. rewrite E. destruct N as [Nc No Nu Nn Nm Nd Nk [Hbc Hbo]].
  assert (∀ c' i, c' ≠ c → cs !! c' = Some i → a_containers a !! c' = Some i ∧ i ≠ cid) as Hold.
  { intros c' i Hne Hc'. split; [|intros ->; by apply Hne; eapply dense_inj].
    assert (is_Some (cs !! c')) as [Hin| ->%list_elem_of_singleton]%Hn%elem_of_app by (by eexists); [|done].
    apply Nn in Hin as [i' Hi']. pose proof (lookup_weaken _ _ _ _ Hi' Hsub). congruence. }
  assert (∃ old, default [] (a_assignment a !! cid) = old ∧
    Forall2 (λ o id, a_objects a !! o = Some id) (members_of c done) old) as (old & Eold & Hf).
  { destruct (a_containers a !! c) as [i|] eqn:Ea.
    - destruct (Hp c i Ea) as (oids & Eo & Hf). pose proof (lookup_weaken _ _ _ _ Ea Hsub) as Ei.
      assert (i = cid) as -> by congruence. exists oids. by rewrite Eo.
    - exists []. assert (c ∉ done.*1) as Hc by (intros [? ?]%Nn; congruence).
      assert (members_of c done = []) as ->.
      { destruct (members_of c done) as [|x l] eqn:Em; [done|]. exfalso. apply Hc.
        assert (x ∈ members_of c done) as Hx%elem_of_members by (rewrite Em; left).
        by apply (list_elem_of_fmap_2 fst _ (c, Some x)). }
      split; [|constructor]. destruct (a_assignment a !! cid) eqn:Ek; [|done].
      rewrite IdBuilder.next_small in E by lia. injection E as <- <- <-.
      assert (0 ≤ nc < nc) by (apply Nk; by eexists). lia. }
  destruct o as [o|].
  - rewrite IdBuilder.next_small by lia. destruct (a_objects a !! o) as [i|] eqn:Ea; [done|]. intros [= <- <- <-].
    assert (∀ ns zs, Forall2 (λ o id, a_objects a !! o = Some id) ns zs →
      Forall2 (λ o' id, <[o := no]> (a_objects a) !! o' = Some id) ns zs) as Hmono.
    { intros ns zs HF. eapply Forall2_impl; [exact HF|]. intros o' i Ho'. simpl. rewrite lookup_insert_ne; [done|congruence]. }
    intros c' i Hc'. simpl in *. rewrite members_of_snoc. destruct (decide (c = c')) as [<-|Hne].
    + assert (i = cid) as -> by congruence. rewrite lookup_insert_eq. eexists. split; [done|]. rewrite Eold.
      apply Forall2_app; [by apply Hmono|]. constructor; [|constructor]. by rewrite lookup_insert_eq.
    + destruct (Hold c' i ltac:(done) Hc') as [Hc2 Hne2]. rewrite lookup_insert_ne, app_nil_r by done.
      destruct (Hp c' i Hc2) as (oids & Eo & Hf'). exists oids. split; [done|by apply Hmono].
  - intros [= <- <- <-] c' i Hc'. simpl in *. rewrite members_of_snoc. destruct (decide (c = c')) as [<-|Hne]; simpl; rewrite app_nil_r.
    + assert (i = cid) as -> by congruence. rewrite lookup_insert_eq. exists []. split; [done|].
      assert (members_of c done = []) as ->; [|constructor].
      destruct (members_of c done) as [|x l] eqn:Em; [done|]. exfalso.
      assert (x ∈ members_of c done) as Hx%elem_of_members by (rewrite Em; left).
      apply (Hsep c x); apply elem_of_app; [right; left|by left].
    + destruct (Hold c' i ltac:(done) Hc') as [Hc2 Hne2]. rewrite lookup_insert_ne by done. by apply Hp.
Qed.

Lemma set_loop_placed l : ∀ nc no a done nc' no' a', numbered nc no a done → Z.of_nat (length (done ++ l)) ≤ 2 ^ 31 →
  separate (done ++ l) → placed a done → set_loop nc no a l = (nc', no', Ok a') → placed a' (done ++ l).
Proof.
  induction l as [|[c o] l IH]; intros nc no a done nc' no' a' N Hl Hsep Hp E; simpl in E.
  { injection E as <- <- <-. by rewrite app_nil_r. }
  rewrite length_app in Hl. simpl in Hl.
  pose proof (set_step_numbered nc no a done c o N ltac:(lia)) as Hn.
  pose proof (set_step_placed nc no a done c o) as Hs.
  destruct (set_step nc no a c o) as [[nc1 no1] [a1|e]]; [|done].
  assert (placed a1 (done ++ [(c, o)])) as Hp1.
  { apply (Hs nc1 no1 a1); [done|lia| |done|done]. intros c' o' H1 H2. apply (Hsep c' o');
      [rewrite elem_of_app, list_elem_of_singleton in H1|rewrite elem_of_app, list_elem_of_singleton in H2];
      rewrite elem_of_app, elem_of_cons; naive_solver. }
  specialize (IH nc1 no1 a1 (done ++ [(c, o)]) nc' no' a' Hn). rewrite <- app_assoc in IH.
  apply IH; [rewrite length_app; simpl; lia|done..].
Qed.

(** ** What [set] accepts and establishes *)
Definition all_objects (l : list (string * list string)) : list string := l ≫= λ e, e.2.

(** The data agree with an assignment by names. *)
Record assigned (l : list (string * list string)) (o : ObjectsData) (c : ContainersData) : Prop := {
  asg_objects : dense (objectNameToId o) (numObjects o);
  asg_containers : dense (containerNameToId c) (Z.of_nat (length l));
  asg_count : numObjects o = Z.of_nat (length (all_objects l));
  asg_object_names x : is_Some (objectNameToId o !! x) ↔ x ∈ all_objects l;
  asg_container_names x : is_Some (containerNameToId c !! x) ↔ x ∈ l.*1;
  asg_keys i : is_Some (containerIdToObjectIds c !! i) ↔ 0 ≤ i < Z.of_nat (length l);
  asg_members name os : (name, os) ∈ l → ∃ cid os' oids, containerNameToId c !! name = Some cid ∧
    containerIdToObjectIds c !! cid = Some oids ∧ os' ≡ₚ os ∧
    Forall2 (λ x id, objectNameToId o !! x = Some id) os' oids
}.

Definition proper (l : list (string * list string)) : Prop := NoDup l.*1 ∧ NoDup (all_objects l).

Lemma pairs_cons c os l : pairs ((c, os) :: l) =
  (match os with [] => [(c, None)] | _ => (λ o, (c, Some o)) <$> os end) ++ pairs l.
Proof. done. Qed.

Lemma pairs_objects l : objects_of (pairs l) = all_objects l.
Proof.
  induction l as [|[c os] l IH]; [done|]. rewrite pairs_cons. unfold objects_of in *. rewrite omap_app, IH.
  unfold all_objects. simpl. f_equal. destruct os as [|o os]; [done|]. generalize (o :: os). clear.
  intros os. induction os as [|x os IH]; [done|]. simpl. by f_equal.
Qed.

Lemma elem_of_pairs l c x : (c, x) ∈ pairs l ↔ ∃ os, (c, os) ∈ l ∧
  match x with None => os = [] | Some o => o ∈ os end.
Proof.
  unfold pairs. rewrite list_elem_of_bind. split.
  - intros ([c' os] & Hin & Hl). destruct os as [|o os].
    + apply list_elem_of_singleton in Hin as [= -> ->]. by exists [].
    + apply list_elem_of_fmap in Hin as (o' & [= -> ->] & Hin). by exists (o :: os).
  - intros (os & Hl & Hx). exists (c, os). split; [|done]. destruct x as [o|].
    + destruct os as [|o' os]; [by apply not_elem_of_nil in Hx|]. apply list_elem_of_fmap. by exists o.
    + subst. left.
Qed.

Lemma elem_of_pairs_fst l c : c ∈ (pairs l).*1 ↔ c ∈ l.*1.
Proof.
  rewrite !list_elem_of_fmap. split.
  - intros ([c' x] & -> & (os & Hl & _)%elem_of_pairs). by exists (c', os).
  - intros ([c' os] & -> & Hl). destruct os as [|o os]; [exists (c', None)|exists (c', Some o)]; (split; [done|]);
      apply elem_of_pairs; [by exists []|]. exists (o :: os). split; [done|left].
Qed.

Lemma pairs_separate l : NoDup l.*1 → separate (pairs l).
Proof.
  intros Hn c o (os & Hl & ->)%elem_of_pairs (os' & Hl' & Ho)%elem_of_pairs.
  assert (os' = []) as ->; [|by apply not_elem_of_nil in Ho].
  pose proof (proj1 (elem_of_list_to_map l c [] Hn) Hl). pose proof (proj1 (elem_of_list_to_map l c os' Hn) Hl'). congruence.
Qed.

Lemma pairs_members l c os : NoDup l.*1 → (c, os) ∈ l → members_of c (pairs l) = os.
Proof.
  induction l as [|[c' os'] l IH]; intros Hn Hin; [by apply not_elem_of_nil in Hin|].
  rewrite fmap_cons in Hn. apply NoDup_cons in Hn as [Hc Hn]. simpl in Hc.
  rewrite pairs_cons. unfold members_of in *. rewrite omap_app.
  assert (∀ d xs, omap (λ '(c', o), if decide (c' = c) then o else None) ((λ o : string, (d, Some o)) <$> xs) =
    if decide (d = c) then xs else []) as Hf.
  { intros d xs. induction xs as [|x xs IHx]; csimpl; [by destruct (decide (d = c))|]. rewrite IHx. by destruct (decide (d = c)). }
  assert (omap (λ '(c', o), if decide (c' = c) then o else None)
    (match os' with [] => [(c', None)] | _ => (λ o, (c', Some o)) <$> os' end) = if decide (c' = c) then os' else []) as ->.
  { destruct os' as [|x xs]; [simpl; by destruct (decide (c' = c))|apply Hf]. }
  apply elem_of_cons in Hin as [[= -> ->]|Hin].
  - rewrite decide_True by done. destruct (omap _ (pairs l)) as [|x xs] eqn:E; [by rewrite app_nil_r|]. exfalso. apply Hc.
    assert (x ∈ members_of c' (pairs l)) as Hx%elem_of_members by (unfold members_of; rewrite E; left).
    apply elem_of_pairs_fst. by apply (list_elem_of_fmap_2 fst _ (c', Some x)).
  - rewrite decide_False; [by apply IH|]. intros ->. apply Hc. by apply (list_elem_of_fmap_2 fst _ (c, os)).
Qed.

Lemma size_NoDup (l : list string) (m : gmap string Z) : (∀ x, is_Some (m !! x) ↔ x ∈ l) →
  (size m ≤ length l)%nat ∧ (size m = length l ↔ NoDup l).
Proof.
  intros Hm. assert (size m = length (remove_dups l)) as ->.
  { rewrite <- size_dom, <- (size_list_to_set (C := gset string) (remove_dups l)) by apply NoDup_remove_dups.
    f_equal. apply set_eq. intros x. by rewrite elem_of_dom, Hm, elem_of_list_to_set, elem_of_remove_dups. }
  assert (remove_dups l ⊆+ l) as Hs by (clear; induction l as [|x l IH]; simpl; [done|]; case_decide;
    [by apply submseteq_cons|by apply submseteq_skip]).
  split; [by apply submseteq_length|]. split.
  - intros E. rewrite <- (submseteq_length_Permutation _ _ Hs) by lia. apply NoDup_remove_dups.
  - intros Hn. apply Permutation_length, NoDup_Permutation; [apply NoDup_remove_dups|done|].
    intros x. apply elem_of_remove_dups.
Qed.

Lemma assignment_set_spec l shuffled : shuffled ≡ₚ pairs l → Z.of_nat (length (pairs l)) ≤ 2 ^ 31 →
  match set empty l shuffled with
  | (b, Ok _) => proper l ∧ ∃ o c, objects b = Some o ∧ containers b = Some c ∧ assigned l o c
  | (b, Throw _) => ¬ proper l
  end.
Proof.
  intros Hp Hl. unfold set. simpl. pose proof (set_loop_numbered shuffled 0 0 _ [] start_numbered) as Hn.
  pose proof (set_loop_placed shuffled 0 0 (mkAcc 0 ∅ ∅ ∅) []) as Hpl. simpl in Hn, Hpl. rewrite Hp in Hn at 1. specialize (Hn Hl).
  destruct (set_loop 0 0 _ shuffled) as [[nc no] [a|e]].
  2: { intros [_ Hx]. apply Hn. unfold objects_of. rewrite Hp. by rewrite <- pairs_objects in Hx. }
  specialize (Hpl nc no a start_numbered). destruct Hn as [Nc No Nu Nn Nm Nd Nk [Hb1 Hb2]].
  assert (∀ x, is_Some (a_containers a !! x) ↔ x ∈ l.*1) as Hnames.
  { intros x. rewrite Nn, Hp. apply elem_of_pairs_fst. }
  assert (size (a_assignment a) = size (a_containers a)) as Hsz.
  { apply Nat2Z.inj. rewrite (dense_size _ nc) by (done || lia). rewrite <- size_dom.
    assert (dom (a_assignment a) = list_to_set (seqZ 0 nc)) as ->.
    { apply set_eq. intros i. rewrite elem_of_dom, Nk, elem_of_list_to_set, elem_of_seqZ. lia. }
    rewrite size_list_to_set by apply NoDup_seqZ. rewrite length_seqZ. lia. }
  destruct (size_NoDup l.*1 (a_containers a) Hnames) as [_ Hnd]. rewrite length_fmap in Hnd.
  assert (NoDup (all_objects l)) as Hdo by (rewrite <- pairs_objects; unfold objects_of in *; by rewrite <- Hp).
  destruct (Nat.eqb_spec (size (a_assignment a)) (length l)) as [E|E]; simpl.
  2: { intros [Hx _]. apply E. rewrite Hsz. by apply Hnd. }
  assert (NoDup l.*1) as Hdl by (apply Hnd; congruence). split; [done|].
  assert (nc = Z.of_nat (length l)) as Enc by (rewrite <- E, Hsz; symmetry; apply dense_size; [lia|done]).
  eexists _, _. split; [done|]. split; [done|]. split; simpl; rewrite ?Nu, <- ?Enc; try done.
  - apply Permutation_length in No. unfold ids in No. rewrite length_fmap, length_map_to_list, length_seqZ in No.
    assert (∀ x, is_Some (a_objects a !! x) ↔ x ∈ all_objects l) as Hox.
    { intros x. rewrite Nm, <- pairs_objects. unfold objects_of. by rewrite Hp. }
    destruct (size_NoDup (all_objects l) (a_objects a) Hox) as [_ Hz]. apply Hz in Hdo. lia.
  - intros x. rewrite Nm, <- pairs_objects. unfold objects_of. by rewrite Hp.
  - intros name os Hin. assert (is_Some (a_containers a !! name)) as [cid Ec].
    { apply Hnames. by apply (list_elem_of_fmap_2 fst _ (name, os)). }
    destruct (Hpl ltac:(by rewrite Hp)) with (c := name) (cid := cid) as (oids & Eo & Hf); [|done|done|done|].
    { intros c o. rewrite Hp. by apply pairs_separate. }
    exists cid, (members_of name shuffled), oids. split_and!; [done..| |done].
    rewrite <- (pairs_members l name os Hdl Hin). unfold members_of. by rewrite Hp.
Qed.

(** ** What [reassign] accepts *)
Section reassign.
Context (o : ObjectsData) (c : ContainersData) (nc : Z).
Context (Do : dense (objectNameToId o) (numObjects o)) (Dc : dense (containerNameToId c) nc).
Context (Bo : 0 ≤ numObjects o) (Bc : 0 ≤ nc).

(** The objects seen so far. *)
Record seen_ok (seen : list bool) (total : Z) (names : list string) : Prop := {
  so_length : Z.of_nat (length seen) = numObjects o;
  so_total : total = Z.of_nat (length names);
  so_distinct : NoDup names;
  so_known x : x ∈ names → is_Some (objectNameToId o !! x);
  so_bits x id : objectNameToId o !! x = Some id → seen !! Z.to_nat id = Some (bool_decide (x ∈ names))
}.

Lemma seen_read seen total names x id : seen_ok seen total names → objectNameToId o !! x = Some id →
  vec_get seen id = Ok (bool_decide (x ∈ names)).
Proof.
  intros S E. apply vec_get_Ok. split; [by apply (dense_range _ _ _ _ Do E)|by apply (so_bits _ _ _ S)].
Qed.

Lemma reassign_object_spec seen total ids names x : seen_ok seen total names →
  match reassign_object o (seen, total, ids) x with
  | Ok (seen', total', ids') => seen_ok seen' total' (names ++ [x]) ∧
      ∃ id, objectNameToId o !! x = Some id ∧ ids' = ids ++ [id]
  | Throw _ => objectNameToId o !! x = None ∨ x ∈ names
  end.
Proof.
  intros S. unfold reassign_object. destruct (objectNameToId o !! x) as [id|] eqn:E; [|by left].
  pose proof (dense_range _ _ _ _ Do E) as Hr. rewrite (seen_read _ _ _ _ _ S E). destruct S as [Sl St Sd Sk Sb]. cbn [mbind result_bind].
  case_bool_decide as Hx; [by right|]. unfold vec_set.
  rewrite (proj2 (Z.ltb_ge _ _)), (proj2 (Z.leb_gt _ _)) by lia. simpl. split; [|by exists id]. split.
  - by rewrite length_insert.
  - rewrite length_app. simpl. lia.
  - apply NoDup_app. split_and!; [done| |apply NoDup_singleton]. by intros y Hy ->%list_elem_of_singleton.
  - intros y [Hy| ->%list_elem_of_singleton]%elem_of_app; [by apply Sk|]. rewrite E. by eexists.
  - intros y id' Hy. destruct (decide (y = x)) as [->|Hne].
    + assert (id' = id) as -> by congruence. rewrite list_lookup_insert_eq by lia. f_equal. symmetry.
      apply bool_decide_eq_true, elem_of_app. right. left.
    + rewrite list_lookup_insert_ne, (Sb y id' Hy).
      * f_equal. apply bool_decide_ext. rewrite elem_of_app, list_elem_of_singleton. naive_solver.
      * pose proof (dense_range _ _ _ _ Do Hy). intros Heq. apply Hne. apply (dense_inj _ _ y x id' Do); [done|].
        by assert (id' = id) as -> by lia.
Qed.

Lemma reassign_objects_spec xs : ∀ seen total ids names, seen_ok seen total names →
  match foldM (reassign_object o) (seen, total, ids) xs with
  | Ok (seen', total', ids') => seen_ok seen' total' (names ++ xs) ∧
      ∃ new, ids' = ids ++ new ∧ Forall2 (λ x id, objectNameToId o !! x = Some id) xs new
  | Throw _ => ¬ NoDup (names ++ xs) ∨ ∃ x, x ∈ xs ∧ objectNameToId o !! x = None
  end.
Proof.
  induction xs as [|x xs IH]; intros seen total ids names S; cbn [foldM].
  { rewrite app_nil_r. split; [done|]. exists []. by rewrite app_nil_r. }
  pose proof (reassign_object_spec seen total ids names x S) as Hs.
  destruct (reassign_object o (seen, total, ids) x) as [[[seen' total'] ids']|e]; cbn [mbind result_bind].
  - destruct Hs as (S' & id & E & ->). specialize (IH seen' total' (ids ++ [id]) (names ++ [x]) S').
    rewrite <- !app_assoc in IH. destruct (foldM _ _ xs) as [[[seen2 total2] ids2]|e].
    + destruct IH as (S2 & new & -> & Hf). split; [done|]. exists (id :: new). rewrite <- app_assoc. split; [done|]. by constructor.
    + destruct IH as [?|(y & ? & ?)]; [by left|]. right. exists y. split; [by right|done].
  - destruct Hs as [Hx|Hx]; [right; exists x; split; [left|done]|]. left. intros (_ & Hd & _)%NoDup_app. apply (Hd x Hx). left.
Qed.

(** The containers assigned so far. *)
Record cont_ok (assignment : gmap Z (list Z)) (done : list (string * list string)) : Prop := {
  co_distinct : NoDup done.*1;
  co_known x : x ∈ done.*1 → is_Some (containerNameToId c !! x);
  co_keys x cid : containerNameToId c !! x = Some cid → (is_Some (assignment !! cid) ↔ x ∈ done.*1);
  co_size : size assignment = length done;
  co_members name os : (name, os) ∈ done → ∃ cid oids, containerNameToId c !! name = Some cid ∧
    assignment !! cid = Some oids ∧ Forall2 (λ x id, objectNameToId o !! x = Some id) os oids;
  co_range i : is_Some (assignment !! i) → 0 ≤ i < nc
}.

Definition refused (l : list (string * list string)) : Prop :=
  ¬ proper l ∨ (∃ x, x ∈ l.*1 ∧ containerNameToId c !! x = None) ∨ ∃ x, x ∈ all_objects l ∧ objectNameToId o !! x = None.

Lemma reassign_container_spec seen total assignment done name os :
  seen_ok seen total (all_objects done) → cont_ok assignment done →
  match reassign_container o c (seen, total, assignment) (name, os) with
  | Ok (seen', total', assignment') =>
      seen_ok seen' total' (all_objects (done ++ [(name, os)])) ∧ cont_ok assignment' (done ++ [(name, os)])
  | Throw _ => refused (done ++ [(name, os)])
  end.
Proof.
  intros S C. assert (all_objects (done ++ [(name, os)]) = all_objects done ++ os) as Ea.
  { unfold all_objects. rewrite bind_app. simpl. by rewrite app_nil_r. }
  assert (name ∈ (done ++ [(name, os)]).*1) as Hname by (rewrite fmap_app; apply elem_of_app; right; left).
  unfold reassign_container. destruct (containerNameToId c !! name) as [cid|] eqn:E.
  2: { right. left. by exists name. }
  destruct C as [Cd Ck Ci Cs Cm Cr]. destruct (assignment !! cid) as [old|] eqn:Eo.
  { left. intros [Hn _]. rewrite fmap_app in Hn. apply NoDup_app in Hn as (_ & Hd & _). apply (Hd name); [|left].
    apply (Ci name cid E). by eexists. }
  assert (name ∉ done.*1) as Hnew by (intros [? ?]%(Ci name cid E); congruence).
  pose proof (reassign_objects_spec os seen total [] (all_objects done) S) as Ho.
  destruct (foldM (reassign_object o) (seen, total, []) os) as [[[seen' total'] ids']|e]; cbn [mbind result_bind].
  2: { destruct Ho as [Hn|(x & Hx & Ex)]; [left; intros [_ Hd]; by rewrite Ea in Hd|].
       right. right. exists x. rewrite Ea, elem_of_app. split; [by right|done]. }
  destruct Ho as (S' & new & -> & Hf). rewrite Ea. split; [done|]. simpl in *. split; rewrite ?fmap_app; try change ([(name, os)].*1) with [name].
  - apply NoDup_app. split_and!; [done| |apply NoDup_singleton]. by intros x Hx ->%list_elem_of_singleton.
  - intros x [Hx| ->%list_elem_of_singleton]%elem_of_app; [by apply Ck|]. rewrite E. by eexists.
  - intros x cid' Hx. rewrite elem_of_app, list_elem_of_singleton. destruct (decide (x = name)) as [->|Hne].
    + assert (cid' = cid) as -> by congruence. rewrite lookup_insert_eq. split; [by right|by eexists].
    + rewrite lookup_insert_ne; [|intros <-; by apply Hne; eapply (dense_inj _ _ _ _ _ Dc)].
      rewrite (Ci x cid' Hx). naive_solver.
  - rewrite map_size_insert_None by done. rewrite length_app, Cs. simpl. lia.
  - intros name' os' [Hin|[= -> ->]%list_elem_of_singleton]%elem_of_app.
    + destruct (Cm name' os' Hin) as (cid' & oids & Ec' & Ea' & Hf'). exists cid', oids. split_and!; [done| |done].
      rewrite lookup_insert_ne; [done|]. intros <-. congruence.
    + exists cid, new. by rewrite lookup_insert_eq.
  - intros i [v [[<- _]|[_ Hv]]%lookup_insert_Some]; [by eapply dense_range|]. apply Cr. by eexists.
Qed.

Lemma reassign_loop l : ∀ seen total assignment done,
  seen_ok seen total (all_objects done) → cont_ok assignment done →
  match foldM (reassign_container o c) (seen, total, assignment) l with
  | Ok (seen', total', assignment') => seen_ok seen' total' (all_objects (done ++ l)) ∧ cont_ok assignment' (done ++ l)
  | Throw _ => refused (done ++ l)
  end.
Proof.
  induction l as [|[name os] l IH]; intros seen total assignment done S C; cbn [foldM]; [by rewrite app_nil_r|].
  pose proof (reassign_container_spec seen total assignment done name os S C) as Hs.
  destruct (reassign_container o c _ _) as [[[seen' total'] assignment']|e]; cbn [mbind result_bind].
  - destruct Hs as [S' C']. specialize (IH seen' total' assignment' _ S' C'). by rewrite <- app_assoc in IH.
  - assert (done ++ (name, os) :: l = (done ++ [(name, os)]) ++ l) as -> by (by rewrite <- app_assoc).
    unfold refused, proper, all_objects in *. rewrite fmap_app, bind_app.
    destruct Hs as [Hs|[(x & Hx & Ex)|(x & Hx & Ex)]].
    + left. intros [H1 H2]. apply Hs. apply NoDup_app in H1 as [? _], H2 as [? _]. done.
    + right. left. exists x. split; [apply elem_of_app; by left|done].
    + right. right. exists x. split; [apply elem_of_app; by left|done].
Qed.

Lemma covers (l : list string) (m : gmap string Z) : NoDup l → (∀ x, x ∈ l → is_Some (m !! x)) →
  length l = size m ↔ ∀ x, is_Some (m !! x) → x ∈ l.
Proof.
  intros Hn Hl. assert (l ⊆+ (map_to_list m).*1) as Hs.
  { apply NoDup_submseteq; [done|]. intros x [v Hx]%Hl. apply (list_elem_of_fmap_2 fst _ (x, v)). by apply elem_of_map_to_list. }
  assert (length (map_to_list m).*1 = size m) as Hz by (by rewrite length_fmap, length_map_to_list). split.
  - intros E x [v Hx]. rewrite (submseteq_length_Permutation _ _ Hs) by lia.
    apply (list_elem_of_fmap_2 fst _ (x, v)). by apply elem_of_map_to_list.
  - intros Hc. rewrite <- Hz. apply Permutation_length, NoDup_Permutation; [done|apply NoDup_fst_map_to_list|].
    intros x. split; [intros [v Hx]%Hl; apply (list_elem_of_fmap_2 fst _ (x, v)); by apply elem_of_map_to_list|].
    intros ([y v] & -> & Hy%elem_of_map_to_list)%list_elem_of_fmap. apply Hc. by eexists.
Qed.

Lemma search_missing (P : Z → result bool) l : (∀ name id, (name, id) ∈ l → ∃ b, P id = Ok b) →
  match foldM (λ _ '(_, id), b ← P id; if b : bool then Ok tt else mismatch) tt (l : list (string * Z)) with
  | Ok _ => ∀ name id, (name, id) ∈ l → P id = Ok true
  | Throw e => ∃ name id, (name, id) ∈ l ∧ P id = Ok false
  end.
Proof.
  induction l as [|[name id] l IH]; intros Hl; cbn [foldM]; [by intros ? ? ?%not_elem_of_nil|].
  destruct (Hl name id ltac:(left)) as [b Eb]. rewrite Eb. cbn [mbind result_bind]. destruct b; cbn [mbind result_bind].
  - destruct (foldM _ tt l) as [u|e].
    + intros n i [[= -> ->]|Hin]%elem_of_cons; [done|]. eapply IH; [|done]. intros ? ? ?. eapply Hl. by right.
    + destruct IH as (n & i & Hin & Ei); [intros ? ? ?; eapply Hl; by right|]. exists n, i. split; [by right|done].
  - exists name, id. split; [left|done].
Qed.

Definition same_sets (l : list (string * list string)) : Prop :=
  proper l ∧ (∀ x, x ∈ l.*1 ↔ is_Some (containerNameToId c !! x)) ∧
  ∀ x, x ∈ all_objects l ↔ is_Some (objectNameToId o !! x).

Lemma start_seen : seen_ok (replicate (Z.to_nat (numObjects o)) false) 0 (all_objects []).
Proof.
  split; simpl; [rewrite length_replicate; lia|done|constructor|by intros x ?%not_elem_of_nil|].
  intros x id Hx. pose proof (dense_range _ _ _ _ Do Hx).
  rewrite (lookup_replicate_2 (Z.to_nat (numObjects o)) false (Z.to_nat id)) by lia. done.
Qed.

Lemma start_cont : cont_ok ∅ [].
Proof.
  split; simpl; [constructor|by intros x ?%not_elem_of_nil| |done|by intros ? ? ?%not_elem_of_nil|].
  - intros x cid Hx. rewrite lookup_empty. split; [by intros []|by intros ?%not_elem_of_nil].
  - intros i. rewrite lookup_empty. by intros [].
Qed.

(** The final comparison finds what is missing. *)
Lemma final_check seen total assignment l : seen_ok seen total (all_objects l) → cont_ok assignment l →
  match (if negb (size assignment =? size (containerNameToId c))%nat || negb (total =? numObjects o)
         then
           _ ← (if negb (size assignment =? size (containerNameToId c))%nat
                then foldM (λ _ '(_, id), match assignment !! id with Some _ => Ok tt | None => mismatch end) tt
                       (name_iter (containerNameToId c))
                else Ok tt);
           foldM (λ _ '(_, id), b ← vec_get seen id; if b : bool then Ok tt else mismatch) tt
             (name_iter (objectNameToId o))
         else Ok tt) with
  | Ok _ => same_sets l ∧ Z.of_nat (length l) = nc ∧ total = numObjects o
  | Throw _ => ¬ same_sets l
  end.
Proof.
  intros S [Cd Ck Ci Cs Cm Cr]. pose proof (λ x id, seen_read seen total (all_objects l) x id S) as Hread.
  destruct S as [Sl St Sd Sk Sb]. pose proof (dense_size _ _ Bc Dc) as Hsc. pose proof (dense_size _ _ Bo Do) as Hso.
  pose proof (covers l.*1 (containerNameToId c) Cd Ck) as Hcc. rewrite length_fmap in Hcc.
  pose proof (covers (all_objects l) (objectNameToId o) Sd Sk) as Hco.
  pose proof (search_missing (λ id, Ok (bool_decide (is_Some (assignment !! id)))) (name_iter (containerNameToId c))) as Hmc.
  pose proof (search_missing (vec_get seen) (name_iter (objectNameToId o))) as Hmo.
  assert (foldM (λ _ '(_, id), match assignment !! id with Some _ => Ok tt | None => mismatch end) tt
      (name_iter (containerNameToId c)) =
    foldM (λ _ '(_, id), b ← Ok (bool_decide (is_Some (assignment !! id))); if b : bool then Ok tt else mismatch) tt
      (name_iter (containerNameToId c))) as ->.
  { apply foldM_ext. intros u [name id] _. simpl. destruct (assignment !! id); by rewrite ?bool_decide_true, ?bool_decide_false by eauto || (by intros []). }
  destruct (Nat.eqb_spec (size assignment) (size (containerNameToId c))) as [E1|E1]; simpl.
  - assert (∀ x, x ∈ l.*1 ↔ is_Some (containerNameToId c !! x)) as Hl1.
    { intros x. split; [apply Ck|apply Hcc; lia]. }
    destruct (Z.eqb_spec total (numObjects o)) as [E2|E2]; simpl.
    + split; [|lia]. split; [by split|]. split; [done|]. intros x. split; [apply Sk|apply Hco; lia].
    + destruct (foldM _ tt (name_iter (objectNameToId o))) as [u|e].
      * exfalso. apply E2. rewrite St, <- Hso. f_equal. apply Hco. intros x [id Hx].
        assert (vec_get seen id = Ok true) as Hb.
        { eapply Hmo; [|by apply name_iter_elem]. intros n i Hn%name_iter_elem. rewrite (Hread n i Hn). by eexists. }
        rewrite (Hread x id Hx) in Hb. injection Hb as Hb. by apply bool_decide_eq_true in Hb.
      * intros (_ & _ & Ho). apply E2. rewrite St, <- Hso. f_equal. apply Hco. intros x Hx. by apply Ho.
  - assert (¬ same_sets l) as Hns.
    { intros (_ & Hc & _). apply E1. rewrite Cs. apply Hcc. intros x Hx. by apply Hc. }
    destruct (foldM _ tt (name_iter (containerNameToId c))) as [u|e] eqn:Ef; cbn [mbind result_bind]; [|done].
    exfalso. apply E1. rewrite Cs. apply Hcc. intros x [cid Hx]. apply (Ci x cid Hx).
    assert (Ok (A := bool) (bool_decide (is_Some (assignment !! cid))) = Ok true) as [= Hb]; [|by apply bool_decide_eq_true in Hb].
    eapply Hmc; [by eexists|]. by apply name_iter_elem.
Qed.

Lemma reassign_spec l :
  match reassign o c l with
  | Ok c' => same_sets l ∧ containerNameToId c' = containerNameToId c ∧ assigned l o c'
  | Throw _ => ¬ same_sets l
  end.
Proof.
  unfold reassign. pose proof (reassign_loop l _ 0 ∅ [] start_seen start_cont) as Hloop.
  destruct (foldM (reassign_container o c) _ l) as [[[seen total] assignment]|e]; cbn [mbind result_bind].
  2: { intros (Hp & Hc & Ho). destruct Hloop as [Hx|[(x & Hx & Ex)|(x & Hx & Ex)]]; [by apply Hx| |].
       - apply Hc in Hx as [? ?]. congruence.
       - apply Ho in Hx as [? ?]. congruence. }
  destruct Hloop as [S C]. simpl in S, C. pose proof (final_check seen total assignment l S C) as Hf.
  destruct (if negb _ || negb _ then _ else _) as [u|e]; cbn [mbind result_bind]; [|done].
  destruct Hf as (Hs & Hl & Ht). split; [done|]. split; [done|]. destruct Hs as ((Hp1 & Hp2) & Hc & Ho), S as [Sl St Sd Sk Sb], C as [Cd Ck Ci Cs Cm Cr].
  split; simpl; try done.
  - by rewrite Hl.
  - lia.
  - intros i. rewrite Hl. split; [apply Cr|]. intros Hi. destruct (dense_onto _ _ i Dc Hi) as [x Hx].
    apply (Ci x i Hx), Hc. by eexists.
  - intros name os Hin. destruct (Cm name os Hin) as (cid & oids & E & Ea & Hf). by exists cid, os, oids.
Qed.
End reassign.
End builder.
End AssignmentBuilder.
