(* ===== verification/ConcurrentBuilders.v ===== *)
(** * Scopes and partitions added concurrently

    entities/builders/ScopesBuilder.h and PartitionsBuilder.h: every [add] is a coroutine that
    draws the identifiers of its items (scope items, groups) from the counter of
    [IdBuilder] while others do the same, and then publishes its data.  The members of an
    item are a set of containers or a vector of objects. *)

From S2P Require Import Prelude ChangeSet ObjectValues Entities IdStore Builders.
Import EntityId.

Module NestedBuilder.
Section nested.
Context {P : Type} (emptyP : P) (insertP : P → Z → P).
(** The identifiers of the members. *)
Context (memberIds : gmap string Z).

(** The two overloads of [add]. *)
Inductive input :=
  | ByItem (itemToMembers : list (string * list string))
  | ByMember (memberToItem : list (string * string)).

Definition input_length (i : input) : nat :=
  match i with ByItem l => length l | ByMember l => length l end.

(** A running [add]: the position of its loop and its local maps. *)
Record Task := mkTask { owner : Z; source : input; position : nat; names : gmap string Z; items : gmap Z P }.

Definition getId (member : string) : result Z := at_ (memberIds !! member).

Inductive outcome := Advanced (t : Task) | Finished | Failed (e : exn).

(** One round of the loop of the first overload; the identifier is drawn before the
    members are looked up. *)
Definition item_step (counter : Z) (t : Task) (itemName : string) (members : list string) : Z * outcome :=
  let '(itemId, counter) := IdBuilder.next counter in
  (counter,
   match mapM getId members with
   | Ok ids => Advanced (mkTask (owner t) (source t) (S (position t)) (emplace (names t) itemName itemId)
                           (emplace (items t) itemId (foldl insertP emptyP ids)))
   | Throw e => Failed e
   end).

(** One round of the loop of the second overload. *)
Definition member_step (counter : Z) (t : Task) (member itemName : string) : Z * outcome :=
  match getId member with
  | Throw e => (counter, Failed e)
  | Ok memberId =>
      match names t !! itemName with
      | None =>
          let '(itemId, counter) := IdBuilder.next counter in
          (counter, Advanced (mkTask (owner t) (source t) (S (position t)) (emplace (names t) itemName itemId)
             (<[itemId := insertP (default emptyP (items t !! itemId)) memberId]> (items t))))
      | Some itemId =>
          (counter, Advanced (mkTask (owner t) (source t) (S (position t)) (names t)
             (<[itemId := insertP (default emptyP (items t !! itemId)) memberId]> (items t))))
      end
  end.

Definition task_step (counter : Z) (t : Task) : Z * outcome :=
  match source t with
  | ByItem l =>
      match l !! position t with
      | Some (itemName, members) => item_step counter t itemName members
      | None => (counter, Finished)
      end
  | ByMember l =>
      match l !! position t with
      | Some (member, itemName) => member_step counter t member itemName
      | None => (counter, Finished)
      end
  end.

(** The shared state: the counter of the items, the running tasks, the names and the
    published data, and the exceptions the calls ended with. *)
Record Shared := mkShared {
  count : Z;
  running : list Task;
  registry : Registry.t (gmap string Z * gmap Z P);
  errors : list exn
}.

Definition data (s : Shared) : gmap Z (option (gmap string Z * gmap Z P)) := Registry.idToData (registry s).

Definition empty : Shared := mkShared 0 [] Registry.empty [].

(** [makeScopeId] or [makePartitionId] is called, an [add] starts, or one of the running
    ones makes a step. *)
Inductive event := MakeId (name : string) | Start (owner : Z) (i : input) | Run (n : nat).

Definition exec (s : Shared) (ev : event) : Shared :=
  match ev with
  | MakeId name =>
      match Registry.makeIdFromName (registry s) name with
      | Ok (_, r) => mkShared (count s) (running s) r (errors s)
      | Throw e => mkShared (count s) (running s) (registry s) (errors s ++ [e])
      end
  | Start owner i => mkShared (count s) (running s ++ [mkTask owner i 0 ∅ ∅]) (registry s) (errors s)
  | Run n =>
      match running s !! n with
      | None => s
      | Some t =>
          match task_step (count s) t with
          | (c, Advanced t') => mkShared c (<[n := t']> (running s)) (registry s) (errors s)
          | (c, Finished) =>
              match Registry.add (registry s) (owner t) (names t, items t) with
              | Ok r => mkShared c (delete n (running s)) r (errors s)
              | Throw e => mkShared c (delete n (running s)) (registry s) (errors s ++ [e])
              end
          | (c, Failed e) => mkShared c (delete n (running s)) (registry s) (errors s ++ [e])
          end
      end
  end.

(** ** The invariant *)

(** The members an input lists for an item, up to a position. *)
Definition listed (i : input) (n : nat) (item : string) : list string :=
  match i with
  | ByItem l => take n l ≫= λ e, if decide (e.1 = item) then e.2 else []
  | ByMember l => take n l ≫= λ e, if decide (e.2 = item) then [e.1] else []
  end.

Definition item_names (i : input) (n : nat) : list string :=
  match i with ByItem l => (take n l).*1 | ByMember l => (take n l).*2 end.

(** No item twice in the first overload. *)
Definition input_ok (i : input) : Prop :=
  match i with ByItem l => NoDup l.*1 | ByMember _ => True end.

Record local (i : input) (n : nat) (names : gmap string Z) (items : gmap Z P) : Prop := {
  loc_names x : is_Some (names !! x) ↔ x ∈ item_names i n;
  loc_items id : is_Some (items !! id) ↔ ∃ x, names !! x = Some id;
  loc_members x id : names !! x = Some id → ∃ mids, mapM (λ m, memberIds !! m) (listed i n x) = Some mids ∧
    items !! id = Some (foldl insertP emptyP mids)
}.

Definition published (d : gmap Z (option (gmap string Z * gmap Z P))) : list Z :=
  map_to_list d ≫= λ e, match e.2 with Some (ns, _) => ids ns | None => [] end.

Definition drawn (s : Shared) : list Z := (running s ≫= λ t, ids (names t)) ++ published (data s).

Record inv (made : nat) (started : list (Z * input)) (s : Shared) : Prop := {
  inv_registry : Registry.inv (registry s);
  inv_made : Registry.counter (registry s) = Z.of_nat made;
  inv_owners k i : (k, i) ∈ started → 0 ≤ k < Z.of_nat made;
  inv_drawn : drawn s ≡ₚ seqZ 0 (count s);
  inv_running t : t ∈ running s → (owner t, source t) ∈ started ∧ input_ok (source t) ∧
    (position t ≤ input_length (source t))%nat ∧ local (source t) (position t) (names t) (items t);
  inv_data k ns its : data s !! k = Some (Some (ns, its)) → ∃ i, (k, i) ∈ started ∧
    local i (input_length i) ns its;
  inv_started k i : (k, i) ∈ started → (∃ t, t ∈ running s ∧ owner t = k ∧ source t = i) ∨
    ∃ ns its, data s !! k = Some (Some (ns, its)) ∧ local i (input_length i) ns its;
  inv_bound : 0 ≤ count s;
  inv_budget : (Z.to_nat (count s) + sum_list_with (λ t, input_length (source t) - position t) (running s) ≤
    sum_list_with (λ e, input_length e.2) started)%nat
}.

(** *** One step of a task *)
Lemma getIds_Ok ms mids : mapM getId ms = Ok mids → mapM (λ m, memberIds !! m) ms = Some mids.
Proof.
  revert mids. induction ms as [|m ms IH]; intros mids E; simpl in *; [by injection E as <-|].
  apply bind_Ok in E as (i & Ei & (is' & E & [= <-])%bind_Ok). unfold getId in Ei.
  destruct (memberIds !! m); [|done]. injection Ei as ->. by rewrite (IH _ E).
Qed.

Definition injective (ns : gmap string Z) : Prop := ∀ x y id, ns !! x = Some id → ns !! y = Some id → x = y.

Lemma item_names_snoc i n x : (match i with ByItem l => ∃ ms, l !! n = Some (x, ms) | ByMember l => ∃ m, l !! n = Some (m, x) end) →
  item_names i (S n) = item_names i n ++ [x].
Proof.
  destruct i as [l|l]; simpl; intros [m Hm]; by rewrite (take_S_r _ _ _ Hm), fmap_app.
Qed.

Lemma item_step_local l n ns its c x ms mids : NoDup l.*1 → l !! n = Some (x, ms) → local (ByItem l) n ns its →
  (∀ y id, ns !! y = Some id → id ≠ c) → mapM getId ms = Ok mids →
  ns !! x = None ∧
  local (ByItem l) (S n) (emplace ns x c) (emplace its c (foldl insertP emptyP mids)).
Proof.
  intros Hn Hl [Ln Li Lm] Hc Hms.
  assert (x ∉ item_names (ByItem l) n) as Hx.
  { simpl. rewrite <- (take_drop_middle _ _ _ Hl), fmap_app in Hn. apply NoDup_app in Hn as (_ & Hd & _).
    intros Hin. apply (Hd x Hin). simpl. left. }
  assert (ns !! x = None) as Ex by (apply eq_None_not_Some; by rewrite Ln).
  assert (its !! c = None) as Ec.
  { apply eq_None_not_Some. rewrite Li. intros [y Hy]. by apply (Hc y c). }
  split; [done|]. unfold emplace. rewrite Ex, Ec.
  assert (∀ y, listed (ByItem l) (S n) y = listed (ByItem l) n y ++ if decide (x = y) then ms else []) as El.
  { intros y. simpl. rewrite (take_S_r _ _ _ Hl), bind_app. simpl. by rewrite app_nil_r. }
  split.
  - intros y. rewrite (item_names_snoc (ByItem l) n x) by (by exists ms). rewrite elem_of_app, list_elem_of_singleton, <- Ln.
    destruct (decide (x = y)) as [<-|Hne]; [rewrite lookup_insert_eq; split; [by right|by eexists]|].
    rewrite lookup_insert_ne by done. split; [by left|]. intros [?|?]; congruence.
  - intros id. destruct (decide (c = id)) as [<-|Hne].
    + rewrite lookup_insert_eq. split; [intros _; exists x; by rewrite lookup_insert_eq|by eexists].
    + rewrite lookup_insert_ne, Li by done. split; intros [y Hy]; exists y.
      * rewrite lookup_insert_ne; [done|congruence].
      * apply lookup_insert_Some in Hy as [[_ ?]|[_ ?]]; [congruence|done].
  - intros y id [[<- <-]|[Hne Hy]]%lookup_insert_Some; rewrite El.
    + rewrite decide_True by done. assert (listed (ByItem l) n x = []) as ->.
      { destruct (listed (ByItem l) n x) as [|m k] eqn:E; [done|]. exfalso. apply Hx.
        assert (m ∈ listed (ByItem l) n x) as Hm by (rewrite E; left). simpl in Hm.
        apply list_elem_of_bind in Hm as ([x' ms'] & Hm & Hin). simpl in Hm.
        destruct (decide (x' = x)) as [->|]; [|by apply not_elem_of_nil in Hm].
        by apply (list_elem_of_fmap_2 fst _ (x, ms')). }
      exists mids. rewrite lookup_insert_eq. split; [by apply getIds_Ok|done].
    + rewrite decide_False, app_nil_r by done. destruct (Lm y id Hy) as (m & Em & Ei). exists m. split; [done|].
      rewrite lookup_insert_ne; [done|]. intros <-. by apply (Hc y c).
Qed.

Lemma mapM_snoc {A B} (f : A → option B) l x k y : mapM f l = Some k → f x = Some y → mapM f (l ++ [x]) = Some (k ++ [y]).
Proof.
  rewrite !mapM_Some. intros Hl Hx. apply Forall2_app; [done|]. by constructor.
Qed.

Lemma member_step_local l n ns its c m x mid : l !! n = Some (m, x) → local (ByMember l) n ns its →
  (∀ y id, ns !! y = Some id → id ≠ c) → injective ns → getId m = Ok mid →
  let id := default c (ns !! x) in
  local (ByMember l) (S n) (emplace ns x id) (<[id := insertP (default emptyP (its !! id)) mid]> its).
Proof.
  intros Hl [Ln Li Lm] Hc Hi Hm id.
  assert (memberIds !! m = Some mid) as Em by (unfold getId in Hm; destruct (memberIds !! m); [by injection Hm as ->|done]).
  assert (∀ y, listed (ByMember l) (S n) y = listed (ByMember l) n y ++ if decide (x = y) then [m] else []) as El.
  { intros y. simpl. rewrite (take_S_r _ _ _ Hl), bind_app. simpl. by rewrite app_nil_r. }
  assert (∀ y, emplace ns x id !! y = if decide (x = y) then Some id else ns !! y) as En.
  { intros y. unfold emplace, id. destruct (ns !! x) as [i|] eqn:Ex; simpl; destruct (decide (x = y)) as [<-|Hne];
      by rewrite ?lookup_insert_eq, ?lookup_insert_ne. }
  assert (∀ y i, x ≠ y → ns !! y = Some i → i ≠ id) as Hne.
  { intros y i Hxy Hy ->. unfold id in Hy. destruct (ns !! x) as [i|] eqn:Ex; simpl in Hy; [by apply Hxy; eapply Hi|].
    by apply (Hc y c). }
  assert (∃ mids, mapM (λ m, memberIds !! m) (listed (ByMember l) n x) = Some mids ∧
    default emptyP (its !! id) = foldl insertP emptyP mids) as (mids & Emids & Eits).
  { unfold id. destruct (ns !! x) as [i|] eqn:Ex; simpl.
    - destruct (Lm x i Ex) as (mids & ? & ->). by exists mids.
    - exists []. assert (its !! c = None) as -> by (apply eq_None_not_Some; rewrite Li; intros [y Hy]; by apply (Hc y c)).
      split; [|done]. destruct (take n l ≫= λ e, if decide (e.2 = x) then [e.1] else []) as [|z k] eqn:E; [done|]. exfalso.
      assert (is_Some (ns !! x)) as [? ?]; [|congruence]. apply Ln. simpl.
      assert (z ∈ take n l ≫= λ e, if decide (e.2 = x) then [e.1] else []) as Hz by (rewrite E; left).
      apply list_elem_of_bind in Hz as ([m' x'] & Hz & Hin). simpl in Hz.
      destruct (decide (x' = x)) as [->|]; [|by apply not_elem_of_nil in Hz]. by apply (list_elem_of_fmap_2 snd _ (m', x)). }
  split.
  - intros y. rewrite En, (item_names_snoc (ByMember l) n x) by (by exists m).
    rewrite elem_of_app, list_elem_of_singleton, <- Ln. destruct (decide (x = y)) as [<-|]; [split; [by right|by eexists]|].
    split; [by left|]. intros [?|?]; congruence.
  - intros i. destruct (decide (id = i)) as [<-|Hid].
    + rewrite lookup_insert_eq. split; [intros _; exists x; by rewrite En, decide_True|by eexists].
    + rewrite lookup_insert_ne, Li by done. split; intros [y Hy]; exists y.
      * rewrite En, decide_False; [done|]. intros <-. apply Hid. unfold id. by rewrite Hy.
      * rewrite En in Hy. destruct (decide (x = y)); [congruence|done].
  - intros y i Hy. rewrite En in Hy. rewrite El. destruct (decide (x = y)) as [<-|Hxy].
    + injection Hy as <-. exists (mids ++ [mid]). rewrite lookup_insert_eq, Eits, foldl_snoc.
      split; [by apply mapM_snoc|done].
    + rewrite app_nil_r. destruct (Lm y i Hy) as (mids' & ? & ?). exists mids'. split; [done|].
      rewrite lookup_insert_ne; [done|]. intros <-. by apply (Hne y id Hxy).
Qed.

Lemma task_step_spec c t c' t' : 0 ≤ c < 2 ^ 31 → input_ok (source t) → local (source t) (position t) (names t) (items t) →
  (∀ y id, names t !! y = Some id → id ≠ c) → injective (names t) → task_step c t = (c', Advanced t') →
  owner t' = owner t ∧ source t' = source t ∧ position t' = S (position t) ∧
  (position t < input_length (source t))%nat ∧ local (source t') (position t') (names t') (items t') ∧
  ((c' = c ∧ names t' = names t) ∨
   (c' = c + 1 ∧ ∃ x, names t !! x = None ∧ names t' = <[x := c]> (names t))).
Proof.
  intros Hc Hok Hl Hf Hi E. destruct t as [ow src pos ns its]. simpl in *. unfold task_step in E. simpl in E.
  destruct src as [l|l].
  - destruct (l !! pos) as [[x ms]|] eqn:El; [|done]. unfold item_step in E.
    rewrite IdBuilder.next_small in E by lia. cbn -[Z.add] in E. destruct (mapM getId ms) as [mids|] eqn:Em; [|done].
    injection E as <- <-. simpl. destruct (item_step_local l pos ns its c x ms mids Hok El Hl Hf Em) as [Hx Hloc].
    split_and!; try done; [by eapply lookup_lt_Some|]. right. split; [done|]. exists x. split; [done|].
    unfold emplace. by rewrite Hx.
  - destruct (l !! pos) as [[m x]|] eqn:El; [|done]. unfold member_step in E.
    rewrite IdBuilder.next_small in E by lia. cbn -[Z.add getId] in E. destruct (getId m) as [mid|] eqn:Em; [|done].
    pose proof (member_step_local l pos ns its c m x mid El Hl Hf Hi Em) as Hloc. simpl in Hloc.
    apply lookup_lt_Some in El as Hlt.
    destruct (ns !! x) as [id|] eqn:Ex; simpl in Hloc.
    + injection E as <- <-. simpl. assert (emplace ns x id = ns) as Ee by (unfold emplace; by rewrite Ex).
      rewrite Ee in Hloc. split_and!; try done. by left.
    + injection E as <- <-. simpl. split_and!; try done. right.
      split; [done|]. exists x. split; [done|]. unfold emplace. by rewrite Ex.
Qed.

Lemma task_finished c t c' : (position t ≤ input_length (source t))%nat → task_step c t = (c', Finished) →
  c' = c ∧ position t = input_length (source t).
Proof.
  intros Hp. unfold task_step, item_step, member_step. destruct (source t) as [l|l]; simpl in *.
  - destruct (l !! position t) as [[x ms]|] eqn:E.
    + destruct (IdBuilder.next c) as [i c1]. by destruct (mapM getId ms).
    + intros [= <-]. apply lookup_ge_None in E. split; [done|lia].
  - destruct (l !! position t) as [[m x]|] eqn:E.
    + destruct (getId m); [|done]. destruct (names t !! x); [done|]. by destruct (IdBuilder.next c) as [i c1].
    + intros [= <-]. apply lookup_ge_None in E. split; [done|lia].
Qed.

Lemma ids_insert (ns : gmap string Z) x c : ns !! x = None → ids (<[x := c]> ns) ≡ₚ c :: ids ns.
Proof. intros Hx. unfold ids. by rewrite map_to_list_insert. Qed.

Lemma seqZ_succ c : 0 ≤ c → seqZ 0 (c + 1) ≡ₚ c :: seqZ 0 c.
Proof.
  intros Hc. rewrite seqZ_app by lia. rewrite Z.add_0_l. change (seqZ c 1) with [0 + c]. rewrite Z.add_0_l.
  by rewrite Permutation_app_comm.
Qed.

Lemma published_insert d k ns its : (∀ v, d !! k ≠ Some (Some v)) →
  published (<[k := Some (ns, its)]> d) ≡ₚ ids ns ++ published d.
Proof.
  intros Hk. unfold published. destruct (d !! k) as [[v|]|] eqn:E.
  - by destruct (Hk v).
  - rewrite <- (insert_delete_id d k None E) at 2. rewrite <- insert_delete_eq.
    rewrite !map_to_list_insert by apply lookup_delete_eq. done.
  - by rewrite map_to_list_insert.
Qed.

(** *** What the invariant says of one task *)
Lemma task_fresh made started s l1 t l2 : inv made started s → running s = l1 ++ t :: l2 →
  (∀ y id, names t !! y = Some id → id ≠ count s) ∧ injective (names t).
Proof.
  intros I E. pose proof (inv_drawn _ _ _ I) as Hd. unfold drawn in Hd. rewrite E, bind_app in Hd. simpl in Hd. split.
  - intros y id Hy ->. assert (count s ∈ seqZ 0 (count s)) as Hx%elem_of_seqZ; [|lia]. rewrite <- Hd.
    rewrite !elem_of_app. left. right. left. apply (list_elem_of_fmap_2 snd _ (y, count s)). by apply elem_of_map_to_list.
  - intros x y id Hx Hy. assert (NoDup (seqZ 0 (count s))) as Hn by apply NoDup_seqZ. rewrite <- Hd in Hn.
    apply NoDup_app in Hn as (Hn & _ & _). apply NoDup_app in Hn as (_ & _ & Hn). apply NoDup_app in Hn as (Hn & _ & _).
    destruct (decide (x = y)) as [|Hne]; [done|]. exfalso. unfold ids in Hn.
    rewrite <- (insert_delete_id _ x id Hx) in Hn. rewrite map_to_list_insert in Hn by apply lookup_delete_eq.
    rewrite fmap_cons in Hn. apply NoDup_cons in Hn as [Hn _]. apply Hn.
    apply (list_elem_of_fmap_2 snd _ (y, id)), elem_of_map_to_list. by rewrite lookup_delete_ne.
Qed.
(** *** Every interleaving *)
Definition started_by (evs : list event) : list (Z * input) :=
  evs ≫= λ ev, match ev with Start k i => [(k, i)] | _ => [] end.

Definition run (evs : list event) : Shared := foldl exec empty evs.

Definition made_by (evs : list event) : nat :=
  sum_list_with (λ ev, match ev with MakeId _ => 1%nat | _ => 0%nat end) evs.

(** The callers start an [add] with an identifier they were given, and list no item twice. *)
Fixpoint legal (made : nat) (evs : list event) : Prop :=
  match evs with
  | [] => True
  | MakeId _ :: evs => legal (S made) evs
  | Start k i :: evs => 0 ≤ k < Z.of_nat made ∧ input_ok i ∧ legal made evs
  | Run _ :: evs => legal made evs
  end.

Lemma makeId_data r name id r' : Registry.makeIdFromName r name = Ok (id, r') →
  Registry.idToData r !! id = None ∧ Registry.idToData r' = <[id := @None (gmap string Z * gmap Z P)]> (Registry.idToData r).
Proof.
  unfold Registry.makeIdFromName, AsyncValueMap.registerKey. destruct (Registry.nameToId r !! name); [done|].
  destruct (IdBuilder.next (Registry.counter r)) as [i c]. destruct (Registry.idToData r !! i) eqn:E; [done|].
  intros [= <- <-]. done.
Qed.

Lemma running_split (l : list Task) n t : l !! n = Some t →
  ∃ l1 l2, l = l1 ++ t :: l2 ∧ (∀ t', <[n := t']> l = l1 ++ t' :: l2) ∧ delete n l = l1 ++ l2.
Proof.
  intros Hn. exists (take n l), (drop (S n) l). split_and!.
  - by rewrite take_drop_middle.
  - intros t'. apply insert_take_drop. by eapply lookup_lt_Some.
  - apply delete_take_drop.
Qed.

Lemma drawn_split c l1 t l2 r es : drawn (mkShared c (l1 ++ t :: l2) r es) ≡ₚ
  ids (names t) ++ drawn (mkShared c (l1 ++ l2) r es).
Proof.
  unfold drawn. simpl. rewrite !bind_app. simpl. rewrite <- !app_assoc.
  rewrite (Permutation_app_comm (ids (names t)) (_ ++ _ ++ published _)).
  rewrite <- !app_assoc. f_equiv. rewrite (Permutation_app_comm (ids (names t))). by rewrite <- !app_assoc.
Qed.

Lemma makeId_inv made started s name : inv made started s → Z.of_nat made < 2 ^ 31 →
  errors (exec s (MakeId name)) = [] → inv (S made) started (exec s (MakeId name)).
Proof.
  intros [Hr Hm Ho Hd Ht Hp Hs Hb Hu] Hlt He. simpl in *.
  pose proof (Registry.makeIdFromName_inv (registry s) name Hr ltac:(lia)) as Hi.
  destruct (Registry.makeIdFromName (registry s) name) as [[id r]|] eqn:E; [|simpl in He; by apply app_nil in He as [_ ?]].
  destruct (makeId_data _ _ _ _ E) as [Hid Er]. destruct Hi as (Hi & _ & _ & _ & Hc). unfold data in *.
  assert (∀ k v, Registry.idToData r !! k = Some (Some v) ↔ Registry.idToData (registry s) !! k = Some (Some v)) as Hl.
  { intros k v. rewrite Er. destruct (decide (id = k)) as [<-|Hne]; [by rewrite lookup_insert_eq, Hid|by rewrite lookup_insert_ne]. }
  split; simpl; try done; [lia|intros k i Hk%Ho; lia| |unfold data; simpl..].
  - unfold drawn, data in *. simpl. rewrite Er. unfold published in *. by rewrite map_to_list_insert.
  - intros k ns its Hk%Hl. by apply Hp.
  - intros k i Hk. destruct (Hs k i Hk) as [|(ns & its & ? & ?)]; [by left|right]. exists ns, its. by rewrite Hl.
Qed.

Lemma local_start i : local i 0 ∅ ∅.
Proof.
  split.
  - intros x. rewrite lookup_empty. destruct i; simpl; rewrite elem_of_nil; split; try done; by intros [].
  - intros id. rewrite lookup_empty. split; [by intros []|]. by intros [x Hx%lookup_empty_Some].
  - by intros x id Hx%lookup_empty_Some.
Qed.

Lemma task_start_inv made started s k i : 0 ≤ k < Z.of_nat made → input_ok i → inv made started s →
  inv made (started ++ [(k, i)]) (exec s (Start k i)).
Proof.
  intros Hk0 Hi [Hg Hm Ho Hd Hr Hp Hs Hb Hu]. split; simpl; [done|done|..].
  - intros k' i' [Hk|[= -> ->]%list_elem_of_singleton]%elem_of_app; [by apply (Ho k' i')|done].
  - rewrite drawn_split, app_nil_r. simpl. unfold ids at 1. by rewrite map_to_list_empty.
  - intros t [Ht| ->%list_elem_of_singleton]%elem_of_app.
    + destruct (Hr t Ht) as [? ?]. split; [|done]. apply elem_of_app. by left.
    + simpl. split_and!; [apply elem_of_app; right; by left|done|lia|apply local_start].
  - intros k' ns its Hk. destruct (Hp k' ns its Hk) as (i' & ? & ?). exists i'. split; [|done]. apply elem_of_app. by left.
  - intros k' i' [Hk|[= -> ->]%list_elem_of_singleton]%elem_of_app.
    + destruct (Hs k' i' Hk) as [(t & ? & ?)|]; [left|by right]. exists t. split; [|done]. apply elem_of_app. by left.
    + left. exists (mkTask k i 0 ∅ ∅). split; [|done]. apply elem_of_app. right. by left.
  - done.
  - rewrite !sum_list_with_app. simpl. lia.
Qed.

Lemma advanced_inv made started s l1 t l2 c t' : inv made started s →
  Z.of_nat (sum_list_with (λ e, input_length e.2) started) ≤ 2 ^ 31 → running s = l1 ++ t :: l2 →
  task_step (count s) t = (c, Advanced t') → inv made started (mkShared c (l1 ++ t' :: l2) (registry s) (errors s)).
Proof.
  intros I Ht E Hstep. destruct (task_fresh _ _ _ _ _ _ I E) as [Hf Hi]. destruct I as [Hg Hm Ho Hd Hr Hp Hs Hb Hu].
  destruct s as [c0 run d es]. simpl in *. subst run.
  assert (∀ u, u ∈ l1 ++ l2 → u ∈ l1 ++ t :: l2) as Hsub by (intros u; rewrite !elem_of_app, elem_of_cons; tauto).
  assert (∀ u, u ∈ l1 ++ t' :: l2 ↔ u = t' ∨ u ∈ l1 ++ l2) as Hel by (intros u; rewrite !elem_of_app, elem_of_cons; tauto).
  destruct (Hr t) as (Hst & Hok & Hpos & Hl); [apply elem_of_app; right; by left|].
  rewrite sum_list_with_app in Hu. simpl in Hu.
  assert (0 ≤ c0 ≤ 2 ^ 31) as Hc0 by lia.
  destruct (decide (c0 < 2 ^ 31)) as [Hlt|Hge].
  2:{ exfalso. clear Hd Hf. unfold task_step in Hstep. destruct (source t) as [l|l]; simpl in *.
      - destruct (l !! position t) as [[]|] eqn:El; [apply lookup_lt_Some in El; lia|done].
      - destruct (l !! position t) as [[]|] eqn:El; [apply lookup_lt_Some in El; lia|done]. }
  destruct (task_step_spec c0 t c t') as (Eo & Es & Ep & Hlen & Hl' & Hn); [lia|done..|].
  split; simpl; [done|done|done|..].
  - rewrite drawn_split in Hd |- *. destruct Hn as [[-> ->]|(-> & x & Hx & ->)]; [done|].
    rewrite ids_insert by done. rewrite seqZ_succ by lia. simpl. f_equiv. done.
  - intros u [->|Hu']%Hel; [|by apply Hr, Hsub]. rewrite Eo. rewrite Es in Hl' |- *. split_and!; try done. lia.
  - done.
  - intros k i Hk. destruct (Hs k i Hk) as [(u & Hu' & ? & ?)|]; [left|by right].
    apply elem_of_app in Hu' as [Hu'|[->|Hu']%elem_of_cons].
    + exists u. rewrite Hel. split; [right; apply elem_of_app; by left|done].
    + exists t'. rewrite Hel. split; [by left|]. split; congruence.
    + exists u. rewrite Hel. split; [right; apply elem_of_app; by right|done].
  - destruct Hn as [[-> _]|[-> _]]; lia.
  - rewrite sum_list_with_app. simpl. rewrite Es, Ep. destruct Hn as [[-> _]|[-> _]]; lia.
Qed.

Lemma finished_inv made started s l1 t l2 c r : inv made started s → running s = l1 ++ t :: l2 →
  task_step (count s) t = (c, Finished) → Registry.add (registry s) (owner t) (names t, items t) = Ok r →
  inv made started (mkShared c (l1 ++ l2) r (errors s)).
Proof.
  intros [Hg Hm Ho Hd Hr Hp Hs Hb Hu] E Hstep Hset. destruct s as [c0 run r0 es]. simpl in *. subst run.
  destruct (Hr t) as (Hst & Hok & Hpos & Hl); [apply elem_of_app; right; by left|].
  destruct (task_finished _ _ _ Hpos Hstep) as [-> Epos]. rewrite Epos in Hl.
  pose proof (Registry.add_inv r0 (owner t) (names t, items t) Hg) as Hadd. rewrite Hset in Hadd.
  destruct Hadd as (Hg' & _ & Er); [rewrite Hm; by eapply Ho|].
  assert (∀ v, Registry.idToData r0 !! owner t ≠ Some (Some v)) as Hnew.
  { intros v Hv. unfold Registry.add, AsyncValueMap.set in Hset. by rewrite Hv in Hset. }
  assert (Registry.counter r = Registry.counter r0) as Ec.
  { unfold Registry.add in Hset. by apply bind_Ok in Hset as (? & _ & [= <-]). }
  assert (∀ u, u ∈ l1 ++ l2 → u ∈ l1 ++ t :: l2) as Hsub by (intros u; rewrite !elem_of_app, elem_of_cons; tauto).
  unfold data in *. simpl in *. split; unfold data; simpl; rewrite ?Er, ?Ec; [done|done|done|..].
  - rewrite drawn_split in Hd. unfold drawn, data in *. simpl in *. rewrite Er, published_insert by done.
    rewrite <- Hd, Permutation_app_swap_app. done.
  - intros u Hu'. by apply Hr, Hsub.
  - intros k ns its [[<- [= <- <-]]|[_ Hk]]%lookup_insert_Some; [by exists (source t)|by apply Hp].
  - intros k i Hk. destruct (Hs k i Hk) as [(u & Hu' & <- & <-)|(ns & its & Hk' & ?)].
    + apply elem_of_app in Hu' as [Hu'|[->|Hu']%elem_of_cons].
      * left. exists u. split; [apply elem_of_app; by left|done].
      * right. exists (names t), (items t). by rewrite lookup_insert_eq.
      * left. exists u. split; [apply elem_of_app; by right|done].
    + right. exists ns, its. rewrite lookup_insert_ne; [done|]. intros <-. by apply Hnew in Hk'.
  - done.
  - rewrite sum_list_with_app in Hu |- *. simpl in Hu. lia.
Qed.

Lemma errors_mono s ev : errors (exec s ev) = [] → errors s = [].
Proof.
  destruct ev as [name|k i|n]; simpl; [|done|].
  { destruct (Registry.makeIdFromName (registry s) name) as [[]|]; simpl; [done|by intros [_ ?]%app_nil]. }
  destruct (running s !! n) as [t|]; [|done].
  destruct (task_step (count s) t) as [c [t'| |e]]; simpl; [done| |by intros [_ ?]%app_nil].
  destruct (Registry.add (registry s) (owner t) (names t, items t)); simpl; [done|by intros [_ ?]%app_nil].
Qed.

Lemma exec_inv made started s ev : inv made started s → legal made [ev] → Z.of_nat (made + made_by [ev]) ≤ 2 ^ 31 →
  Z.of_nat (sum_list_with (λ e, input_length e.2) started) ≤ 2 ^ 31 → errors (exec s ev) = [] →
  inv (made + made_by [ev]) (started ++ started_by [ev]) (exec s ev).
Proof.
  intros I Hok Hm Ht He. destruct ev as [name|k i|n]; cbn in Hm |- *.
  - rewrite app_nil_r, Nat.add_1_r. apply makeId_inv; [done|lia|done].
  - rewrite Nat.add_0_r. destruct Hok as (? & ? & _). by apply task_start_inv.
  - rewrite app_nil_r, Nat.add_0_r. simpl in *. destruct (running s !! n) as [t|] eqn:En; [|done].
    destruct (running_split _ _ _ En) as (l1 & l2 & El & Ei & Ed).
    destruct (task_step (count s) t) as [c [t'| |e]] eqn:Estep.
    + rewrite Ei. by eapply advanced_inv.
    + destruct (Registry.add (registry s) (owner t) (names t, items t)) as [r|] eqn:Eset.
      * rewrite Ed. by eapply finished_inv.
      * simpl in He. by apply app_nil in He as [_ ?].
    + simpl in He. by apply app_nil in He as [_ ?].
Qed.

Lemma legal_snoc evs ev : ∀ n, legal n (evs ++ [ev]) ↔ legal n evs ∧ legal (n + made_by evs) [ev].
Proof.
  induction evs as [|e evs IH]; intros n; [simpl; rewrite Nat.add_0_r; tauto|].
  destruct e; cbn [legal app]; rewrite IH.
  - change (made_by (MakeId name :: evs)) with (S (made_by evs)). by rewrite <- Nat.add_succ_comm.
  - tauto.
  - done.
Qed.

Lemma run_inv evs : legal 0 evs → Z.of_nat (made_by evs) ≤ 2 ^ 31 →
  Z.of_nat (sum_list_with (λ e, input_length e.2) (started_by evs)) ≤ 2 ^ 31 → errors (run evs) = [] →
  inv (made_by evs) (started_by evs) (run evs).
Proof.
  induction evs as [|ev evs IH] using rev_ind; intros Hok Hm Ht He.
  - split; simpl; [apply Registry.registry_empty_inv|done|by intros k i ?%not_elem_of_nil|done|by intros t ?%not_elem_of_nil|done|
      by intros k i ?%not_elem_of_nil|done|done].
  - assert (started_by (evs ++ [ev]) = started_by evs ++ started_by [ev]) as Es by (apply bind_app).
    assert (made_by (evs ++ [ev]) = made_by evs + made_by [ev])%nat as Em by (unfold made_by; apply sum_list_with_app).
    apply legal_snoc in Hok as [Hok1 Hok2]. simpl in Hok2.
    unfold run in *. rewrite foldl_snoc in *. rewrite Es, Em in *. rewrite sum_list_with_app in Ht.
    apply exec_inv; [apply IH| |lia..|done]; [done|lia|lia|by eapply errors_mono|done].
Qed.

(** [build]: the names and the items of every key; [None] while one has no data. *)
Definition build `{HashOrder} (s : Shared) : option (gmap string Z * gmap Z (gmap string Z) * gmap Z (gmap Z P)) :=
  entries ← AsyncValueMap.waitAndReadFromEach (hash_iter (data s));
  Some (Registry.nameToId (registry s), emplaceAll ∅ ((λ '(k, v), (k, v.1)) <$> entries), emplaceAll ∅ ((λ '(k, v), (k, v.2)) <$> entries)).

Lemma build_lookup `{HashOrder} s ns0 nested its k : build s = Some (ns0, nested, its) →
  (∀ ns, nested !! k = Some ns ↔ ∃ m, data s !! k = Some (Some (ns, m))) ∧
  (∀ m, its !! k = Some m ↔ ∃ ns, data s !! k = Some (Some (ns, m))).
Proof.
  intros E. unfold build in E. apply bind_Some in E as (l & El & [= <- <- <-]).
  pose proof (AsyncValueMap.read_all (data s) _ l (hash_iter_perm _ _) El) as Hl.
  destruct (AsyncValueMap.read_keys (data s) _ l (hash_iter_perm _ _) El) as (_ & Hn & _).
  assert (∀ {B} (f : gmap string Z * gmap Z P → B), NoDup ((λ '(k, v), (k, f v)) <$> l).*1) as Hf.
  { intros B f. rewrite <- list_fmap_compose. erewrite list_fmap_ext; [exact Hn|]. by intros i []. }
  split; intros x; rewrite emplaceAll_empty, <- elem_of_list_to_map by apply Hf; rewrite list_elem_of_fmap; split.
  - intros ([k' [ns m]] & [= -> ->] & Hin%Hl). by exists m.
  - intros [m Hm%Hl]. by exists (k, (x, m)).
  - intros ([k' [ns m]] & [= -> ->] & Hin%Hl). by exists ns.
  - intros [ns Hm%Hl]. by exists (k, (ns, x)).
Qed.

Definition entry_names (e : Z * option (gmap string Z * gmap Z P)) : list (Z * gmap string Z) :=
  match e.2 with Some (ns, _) => [(e.1, ns)] | None => [] end.

Lemma build_published `{HashOrder, NameOrder} s ns0 nested its : build s = Some (ns0, nested, its) →
  (hash_iter nested ≫= λ e, name_iter e.2).*2 ≡ₚ published (data s).
Proof.
  intros E. assert (map_to_list nested ≡ₚ map_to_list (data s) ≫= entry_names) as Hp.
  { apply NoDup_Permutation; [apply NoDup_map_to_list| |].
    - apply (NoDup_fmap_1 fst). pose proof (NoDup_fst_map_to_list (data s)) as Hn.
      induction (map_to_list (data s)) as [|[k [[ns m]|]] l IH]; simpl in *; [constructor| |by apply NoDup_cons in Hn as [_ ?%IH]].
      apply NoDup_cons in Hn as [Hk Hn]. constructor; [|by apply IH].
      intros ([k' ns'] & -> & ([k2 [[ns2 m2]|]] & Hin & Hl)%list_elem_of_bind)%list_elem_of_fmap; simpl in Hin;
        [|by apply not_elem_of_nil in Hin]. apply list_elem_of_singleton in Hin as [= -> ->].
      apply Hk. by apply (list_elem_of_fmap_2 fst _ (k2, Some (ns2, m2))).
    - intros [k ns]. rewrite elem_of_map_to_list. destruct (build_lookup s ns0 nested its k E) as [Hl _]. rewrite Hl, list_elem_of_bind.
      split.
      + intros [m Hm]. exists (k, Some (ns, m)). split; [by left|]. by apply elem_of_map_to_list.
      + intros ([k' [[ns' m]|]] & Hin & Hm%elem_of_map_to_list); simpl in Hin; [|by apply not_elem_of_nil in Hin].
        apply list_elem_of_singleton in Hin as [= -> ->]. by exists m. }
  rewrite hash_iter_perm, Hp. unfold published. clear. induction (map_to_list (data s)) as [|[k [[ns m]|]] l IH]; [done| |exact IH].
  simpl. rewrite fmap_app, IH. unfold ids. by rewrite name_iter_perm.
Qed.

Lemma total_size `{HashOrder, NameOrder} (l : list (Z * gmap string Z)) : ∀ n,
  foldl (λ n '(_, inner), (n + size inner)%nat) n l = (n + length (l ≫= λ e, name_iter e.2))%nat.
Proof.
  induction l as [|[k inner] l IH]; intros n; [simpl; lia|]. cbn [foldl]. rewrite IH. simpl. rewrite length_app.
  rewrite (Permutation_length (name_iter_perm _ inner)), length_map_to_list.
  symmetry. apply Nat.add_assoc.
Qed.

(** Once every [add] has returned, the identifiers of the items of all the scopes (or of the
    groups of all the partitions) are 0 to n-1, each with one name, and every item holds the
    members its input lists. *)
Lemma interleaving_names `{HashOrder, NameOrder} evs : legal 0 evs → Z.of_nat (made_by evs) ≤ 2 ^ 31 →
  Z.of_nat (sum_list_with (λ e, input_length e.2) (started_by evs)) ≤ 2 ^ 31 →
  errors (run evs) = [] → running (run evs) = [] → (∀ k, data (run evs) !! k ≠ Some None) →
  ∃ outer nested its outerNames v, build (run evs) = Some (outer, nested, its) ∧
    buildNameVector outer = Ok outerNames ∧ buildNameVectorFromNested nested = Ok v ∧
    named_nested outerNames v outer nested ∧
    (∀ id, (id < length v)%nat → ∃ k ns name, nested !! k = Some ns ∧ ns !! name = Some (Z.of_nat id)) ∧
    ∀ k i, (k, i) ∈ started_by evs → ∃ ns m, nested !! k = Some ns ∧ its !! k = Some m ∧ local i (input_length i) ns m.
Proof.
  intros Hok Hm0 Ht He Hr Hall. pose proof (run_inv evs Hok Hm0 Ht He) as [Hg Hm _ Hd _ _ Hs Hb Hu].
  destruct (build (run evs)) as [[[outer nested] its]|] eqn:E.
  2:{ unfold build in E. apply bind_None in E as [E|(l & _ & ?)]; [|done].
      apply (AsyncValueMap.read_suspends (data (run evs))) in E as [k Hk]; [by apply Hall in Hk|apply hash_iter_perm]. }
  pose proof (build_published (run evs) outer nested its E) as Hp. unfold drawn in Hd. rewrite Hr in Hd. simpl in Hd. rewrite Hd in Hp.
  assert (outer = Registry.nameToId (registry (run evs))) as Eo by (unfold build in E; by apply bind_Some in E as (? & _ & [= <- _ _])).
  destruct (buildNameVector_dense outer (Registry.counter (registry (run evs)))) as (outerNames & Eon & Hon);
    [lia|subst outer; apply Hg|].
  rewrite Hr in Hu. simpl in Hu. set (l := hash_iter nested ≫= λ e, name_iter e.2) in *.
  assert (∀ name id, (name, id) ∈ l → 0 ≤ id < count (run evs)) as Hin.
  { intros name id Hn. assert (id ∈ seqZ 0 (count (run evs))) as Hid%elem_of_seqZ; [|lia]. rewrite <- Hp.
    by apply (list_elem_of_fmap_2 snd _ (name, id)). }
  assert (length l = Z.to_nat (count (run evs))) as Hlen.
  { apply Permutation_length in Hp. by rewrite length_fmap, length_seqZ in Hp. }
  destruct (writes_spec l (replicate (length l) ""%string)) as (v & Ev & Hv & Hw & _).
  { rewrite Hp. apply NoDup_seqZ. }
  { intros name id Hn%Hin. rewrite length_replicate. lia. }
  rewrite length_replicate in Hv. exists outer, nested, its, outerNames, v. split_and!; [done|done|..].
  - unfold buildNameVectorFromNested. rewrite total_size, Nat.add_0_l. fold l. rewrite <- Ev. unfold l.
    rewrite <- foldM_bind. apply foldM_ext. by intros s [].
  - split; [done| |].
    + intros k. rewrite Eo. destruct (build_lookup _ _ _ _ k E) as [Hl _]. split.
      * intros [ns [m Hk]%Hl]. apply (dense_onto _ _ _ (Registry.inv_dense _ Hg)), (Registry.inv_keys _ Hg). by eexists.
      * intros [name Hn]. pose proof (dense_range _ _ _ _ (Registry.inv_dense _ Hg) Hn) as [[[ns m]|] Hk]%(Registry.inv_keys _ Hg).
        -- exists ns. apply Hl. by exists m.
        -- by apply Hall in Hk.
    + intros k ns Hk name id Hn. assert ((name, id) ∈ l) as Hl.
      { apply list_elem_of_bind. exists (k, ns). split; [by apply name_iter_elem|by apply hash_iter_elem]. }
      split; [|by apply Hw]. apply Hin in Hl. lia.
  - intros id Hid. assert (Z.of_nat id ∈ l.*2) as Hl by (rewrite Hp; apply elem_of_seqZ; lia).
    apply list_elem_of_fmap in Hl as ([name id'] & -> & ([k ns] & Hn & Hk)%list_elem_of_bind).
    exists k, ns, name. split; [by apply hash_iter_elem|by apply name_iter_elem].
  - intros k i Hk. destruct (Hs k i Hk) as [(t & Hti & _)|(ns & m & Hd' & Hl)].
    { rewrite Hr in Hti. by apply not_elem_of_nil in Hti. }
    destruct (build_lookup _ _ _ _ k E) as [Hn Hi]. exists ns, m. split_and!; [apply Hn; by exists m|apply Hi; by exists ns|done].
Qed.
End nested.
End NestedBuilder.

(** ** The two builders

    The members of a scope item are a set of containers. *)
Module ScopesBuilder.
Abbreviation t := (NestedBuilder.Shared (P := gset Z)).

Definition addContainer (containers : gset Z) (containerId : Z) : gset Z := {[containerId]} ∪ containers.

Definition exec (containerNameToId : gmap string Z) : t → NestedBuilder.event → t :=
  NestedBuilder.exec ∅ addContainer containerNameToId.

Definition build `{HashOrder} (b : t) : option (gmap string Z * gmap Z (gmap string Z) * gmap Z (gmap Z (gset Z))) :=
  NestedBuilder.build b.
End ScopesBuilder.

(** The members of a group are a vector of objects, of which a partition is made. *)
Module PartitionsBuilder.
Abbreviation t := (NestedBuilder.Shared (P := list Z)).

Definition addObject (objectIds : list Z) (objectId : Z) : list Z := objectIds ++ [objectId].

Definition exec (objectNameToId : gmap string Z) : t → NestedBuilder.event → t :=
  NestedBuilder.exec [] addObject objectNameToId.

Definition build `{HashOrder} (b : t) : option (gmap string Z * gmap Z (gmap string Z) * gmap Z Partition.t) :=
  match NestedBuilder.build b with
  | Some (names, groupNames, groups) => Some (names, groupNames, Partition.make <$> groups)
  | None => None
  end.
End PartitionsBuilder.
