(* ===== verification/AsyncUniverseBuilder.v ===== *)
(** * The builder of a universe

    entities/builders/AsyncUniverseBuilder.h and .cpp: the builders of the entities side by
    side, the scope of the containers and the dimension that counts objects, which come with
    the first assignment, and the universe assembled from the results.  *)

From S2P Require Import Prelude Double Exact ChangeSet Precision Bits CompressedIdMap ObjectValues.
From S2P Require Import Entities Scopes Partitions Goals Routing IdStore Dimensions DynamicDimension ObjectDimensions.
From S2P Require Import Universe Builders AssignmentBuilder ConcurrentBuilders.
Import EntityId.

Module AsyncUniverseBuilder.
Section builder.
Context `{HashOrder, NameOrder} {GoalSpecs ConstraintSpecs ConstraintPolicy DestinationsToExploreOptions : Type}.
Abbreviation GoalT := (Goal GoalSpecs).
Abbreviation ConstraintT := (Constraint ConstraintSpecs ConstraintPolicy).
Abbreviation UniverseT := (Universe.t GoalSpecs ConstraintSpecs ConstraintPolicy DestinationsToExploreOptions).

Record t := mk {
  objectTypeName : string;
  containerTypeName : string;
  assignmentBuilder : AssignmentBuilder.t;
  scopesBuilder : ScopesBuilder.t;
  dimensionsBuilder : DimensionsBuilder.t ObjectDimension.t ScopeDimension.t;
  partitionsBuilder : PartitionsBuilder.t;
  goalsBuilder : Registry.t GoalT;
  constraintsBuilder : Registry.t ConstraintT;
  routingConfigBuilder : Registry.t RoutingConfig.t;
  similarContainerIds : option (list (list Z));
  moveObjectsOnce : bool;
  stableOptimization : bool;
  descendingHotnessContainers : list Z;
  objectOrderingDimensionId : option Z;
  idToDestinationsToExploreOptions : gmap string DestinationsToExploreOptions;
  precisionTolerances : PrecisionTolerances
}.

Definition empty (precision : PrecisionTolerances) : t :=
  mk "" "" AssignmentBuilder.empty NestedBuilder.empty DimensionsBuilder.empty NestedBuilder.empty Registry.empty
    Registry.empty Registry.empty None false false [] None ∅ precision.

Definition setTypeNames (b : t) (objectTypeName containerTypeName : string) : t :=
  mk objectTypeName containerTypeName (assignmentBuilder b) (scopesBuilder b) (dimensionsBuilder b) (partitionsBuilder b)
    (goalsBuilder b) (constraintsBuilder b) (routingConfigBuilder b) (similarContainerIds b) (moveObjectsOnce b)
    (stableOptimization b) (descendingHotnessContainers b) (objectOrderingDimensionId b)
    (idToDestinationsToExploreOptions b) (precisionTolerances b).

Definition with_assignment (b : t) (a : AssignmentBuilder.t) : t :=
  mk (objectTypeName b) (containerTypeName b) a (scopesBuilder b) (dimensionsBuilder b) (partitionsBuilder b)
    (goalsBuilder b) (constraintsBuilder b) (routingConfigBuilder b) (similarContainerIds b) (moveObjectsOnce b)
    (stableOptimization b) (descendingHotnessContainers b) (objectOrderingDimensionId b)
    (idToDestinationsToExploreOptions b) (precisionTolerances b).

Definition with_scopes (b : t) (s : ScopesBuilder.t) : t :=
  mk (objectTypeName b) (containerTypeName b) (assignmentBuilder b) s (dimensionsBuilder b) (partitionsBuilder b)
    (goalsBuilder b) (constraintsBuilder b) (routingConfigBuilder b) (similarContainerIds b) (moveObjectsOnce b)
    (stableOptimization b) (descendingHotnessContainers b) (objectOrderingDimensionId b)
    (idToDestinationsToExploreOptions b) (precisionTolerances b).

Definition with_dimensions (b : t) (d : DimensionsBuilder.t ObjectDimension.t ScopeDimension.t) : t :=
  mk (objectTypeName b) (containerTypeName b) (assignmentBuilder b) (scopesBuilder b) d (partitionsBuilder b)
    (goalsBuilder b) (constraintsBuilder b) (routingConfigBuilder b) (similarContainerIds b) (moveObjectsOnce b)
    (stableOptimization b) (descendingHotnessContainers b) (objectOrderingDimensionId b)
    (idToDestinationsToExploreOptions b) (precisionTolerances b).

(** ** The first assignment *)

(** The steps of a single [add] that nothing interrupts. *)
Definition runAdd (containerNameToId : gmap string Z) (s : ScopesBuilder.t) (id : Z) (i : NestedBuilder.input)
    : ScopesBuilder.t :=
  foldl (ScopesBuilder.exec containerNameToId) s
    (NestedBuilder.Start id i ::
     replicate (S (NestedBuilder.input_length i)) (NestedBuilder.Run (length (NestedBuilder.running s)))).

(** [trivialScopeItems]: every container is an item of its own. *)
Definition trivialItems (containerNameToId : gmap string Z) : gmap string (list string) :=
  emplaceAll ∅ ((λ '(name, _), (name, [name])) <$> name_iter containerNameToId).

(** The new state and the outcome. *)
Definition buildTrivialScope (b : t) : t * result () :=
  match AssignmentBuilder.getContainers (assignmentBuilder b) with
  | Throw e => (b, Throw e)
  | Ok containers =>
      let containerNameToId := AssignmentBuilder.containerNameToId containers in
      let trivialScopeItems := trivialItems containerNameToId in
      let s := scopesBuilder b in
      match Registry.makeIdFromName (NestedBuilder.registry s) (containerTypeName b) with
      | Throw e => (b, Throw e)
      | Ok (trivialScopeId, registry) =>
          let s' := runAdd containerNameToId
            (NestedBuilder.mkShared (NestedBuilder.count s) (NestedBuilder.running s) registry (NestedBuilder.errors s))
            trivialScopeId (NestedBuilder.ByItem (name_iter trivialScopeItems)) in
          (with_scopes b s',
           match drop (length (NestedBuilder.errors s)) (NestedBuilder.errors s') with [] => Ok tt | e :: _ => Throw e end)
      end
  end.

Definition buildObjectCountDimension (b : t) (totalObjects : Z) : t * result () :=
  match DimensionsBuilder.makeObjectDimensionId (dimensionsBuilder b) (objectTypeName b +:+ "_count") with
  | Throw e => (b, Throw e)
  | Ok (objectCountDimensionId, d) =>
      match (dimension ← ObjectDimension.makeStatic (CompressedIdMap.make totalObjects d1 0);
             DimensionsBuilder.addObjectDimension d objectCountDimensionId dimension) with
      | Throw e => (with_dimensions b d, Throw e)
      | Ok d => (with_dimensions b d, Ok tt)
      end
  end.

(** [shuffled] is the shuffled list of the pairs of the assignment.  [collectAll] runs both
    tasks also when the first one fails. *)
Definition setInitialAssignment (b : t) (l : list (string * list string)) (shuffled : list (string * option string))
    : t * result () :=
  let isFirstAssignment := negb (AssignmentBuilder.wasPreviouslySet (assignmentBuilder b)) in
  let '(a, outcome) := AssignmentBuilder.set (assignmentBuilder b) l shuffled in
  let b := with_assignment b a in
  match outcome with
  | Throw e => (b, Throw e)
  | Ok _ =>
      if isFirstAssignment
      then
        match AssignmentBuilder.getObjects a with
        | Throw e => (b, Throw e)
        | Ok objects =>
            let '(b, scopeOutcome) := buildTrivialScope b in
            let '(b, dimensionOutcome) := buildObjectCountDimension b (AssignmentBuilder.numObjects objects) in
            (b, _ ← scopeOutcome; dimensionOutcome)
        end
      else (b, Ok tt)
  end.

(** ** [build] *)
Definition buildScopes (scopeIdToScopeItems : gmap Z (gmap Z (gset Z)))
    (scopeIdToDimensions : gmap Z (gmap Z ScopeDimension.t)) : result Scopes.t :=
  scopes ← foldM (λ m '(scopeId, scopeItems),
      scope ← Scope.make scopeItems (default ∅ (scopeIdToDimensions !! scopeId));
      Ok (emplace m scopeId scope)) ∅ (hash_iter scopeIdToScopeItems);
  Ok (Scopes.mk scopes).

(** [None]: suspended until the data of every name has been added.  [order] is that of the
    keys of the dimensions of scopes. *)
Definition build (b : t) (order : list (Z * Z * option ScopeDimension.t)) : option (result UniverseT) :=
  '(scopeNameToId, scopeIdToScopeItemNameToId, scopeIdToScopeItems) ← ScopesBuilder.build (scopesBuilder b);
  '(dimensionNameToId, objectDimensions, scopeDimensions) ← DimensionsBuilder.build (dimensionsBuilder b) order;
  '(partitionNameToId, partitionIdToGroupNameToId, partitions) ← PartitionsBuilder.build (partitionsBuilder b);
  '(goalNameToId, goalIdToGoal) ← Registry.build (goalsBuilder b);
  '(constraintNameToId, constraintIdToConstraint) ← Registry.build (constraintsBuilder b);
  '(routingConfigNameToId, routingConfigIdToConfig) ← Registry.build (routingConfigBuilder b);
  Some (
    '(objectsData, containersData) ← AssignmentBuilder.build (assignmentBuilder b);
    objects ← Objects.make (AssignmentBuilder.numObjects objectsData) objectDimensions;
    let containers := Containers.mk (AssignmentBuilder.containerIdToObjectIds containersData) in
    scopes ← buildScopes scopeIdToScopeItems scopeDimensions;
    objectNames ← buildNameVector (AssignmentBuilder.objectNameToId objectsData);
    containerNames ← buildNameVector (AssignmentBuilder.containerNameToId containersData);
    scopeNames ← buildNameVector scopeNameToId;
    scopeItemNames ← buildNameVectorFromNested scopeIdToScopeItemNameToId;
    partitionNames ← buildNameVector partitionNameToId;
    groupNames ← buildNameVectorFromNested partitionIdToGroupNameToId;
    dimensionNames ← buildNameVector dimensionNameToId;
    goalNames ← buildNameVector goalNameToId;
    constraintNames ← buildNameVector constraintNameToId;
    routingConfigNames ← buildNameVector routingConfigNameToId;
    let idStore := IdStore.mk objectNames containerNames scopeNames scopeItemNames partitionNames groupNames
      dimensionNames goalNames constraintNames routingConfigNames (AssignmentBuilder.objectNameToId objectsData)
      (AssignmentBuilder.containerNameToId containersData) scopeNameToId scopeIdToScopeItemNameToId partitionNameToId
      partitionIdToGroupNameToId dimensionNameToId goalNameToId constraintNameToId routingConfigNameToId in
    goals ← Goals.make goalIdToGoal;
    Universe.make (Universe.mkConfig idStore (objectTypeName b) (containerTypeName b) (Some objects) (Some containers)
      scopes (Partitions.mk partitions) goals (Constraints.mk constraintIdToConstraint) routingConfigIdToConfig
      (similarContainerIds b) (moveObjectsOnce b) (stableOptimization b) (descendingHotnessContainers b)
      (objectOrderingDimensionId b) (idToDestinationsToExploreOptions b) (precisionTolerances b))).
(** ** What is assembled is well formed *)
Definition complete `{Countable K} {V} (m : gmap K (option V)) : Prop := ∀ k, m !! k ≠ Some None.

(** Every [add] of a builder of items has returned, for some interleaving. *)
Record completed {P} (emptyP : P) (insertP : P → Z → P) (memberIds : gmap string Z) (evs : list NestedBuilder.event)
    (s : NestedBuilder.Shared) : Prop := {
  cp_run : s = NestedBuilder.run emptyP insertP memberIds evs;
  cp_legal : NestedBuilder.legal 0 evs;
  cp_made : Z.of_nat (NestedBuilder.made_by evs) ≤ 2 ^ 31;
  cp_items : Z.of_nat (sum_list_with (λ e, NestedBuilder.input_length e.2) (NestedBuilder.started_by evs)) ≤ 2 ^ 31;
  cp_errors : NestedBuilder.errors s = [];
  cp_running : NestedBuilder.running s = [];
  cp_data : complete (NestedBuilder.data s)
}.

Record registered {V} (r : Registry.t V) : Prop := {
  rg_inv : Registry.inv r;
  rg_bound : Registry.counter r ≤ 2 ^ 31;
  rg_data : complete (Registry.idToData r)
}.

(** The builders have finished. *)
Record ready (b : t) (l : list (string * list string)) (o : AssignmentBuilder.ObjectsData)
    (c : AssignmentBuilder.ContainersData) (sevs pevs : list NestedBuilder.event) : Prop := {
  rd_assignment : AssignmentBuilder.build (assignmentBuilder b) = Ok (o, c);
  rd_assigned : AssignmentBuilder.assigned l o c;
  rd_containers : Z.of_nat (length l) ≤ 2 ^ 31;
  rd_objects : AssignmentBuilder.numObjects o < 2 ^ 31;
  rd_scopes : completed ∅ ScopesBuilder.addContainer (AssignmentBuilder.containerNameToId c) sevs (scopesBuilder b);
  rd_partitions : completed [] PartitionsBuilder.addObject (AssignmentBuilder.objectNameToId o) pevs (partitionsBuilder b);
  rd_dimensions : DimensionsBuilder.inv (dimensionsBuilder b);
  rd_dimension_bound : DimensionsBuilder.counter (dimensionsBuilder b) ≤ 2 ^ 31;
  rd_object_dimensions : complete (DimensionsBuilder.objectDimensionIdToData (dimensionsBuilder b));
  rd_scope_dimensions : complete (DimensionsBuilder.scopeDimensionIdToData (dimensionsBuilder b));
  rd_goals : registered (goalsBuilder b);
  rd_constraints : registered (constraintsBuilder b);
  rd_routing : registered (routingConfigBuilder b)
}.

(** The data the callers added is well formed. *)
Record added_ok (b : t) (n : Z) : Prop := {
  ao_objects k d : DimensionsBuilder.objectDimensionIdToData (dimensionsBuilder b) !! k = Some (Some d) →
    ∀ names groups ps, PartitionsBuilder.build (partitionsBuilder b) = Some (names, groups, ps) →
    ObjectDimension.wf n (Partitions.mk ps) d;
  ao_scopes k d : DimensionsBuilder.scopeDimensionIdToData (dimensionsBuilder b) !! k = Some (Some d) → ScopeDimension.wf d;
  ao_goals k g : Registry.idToData (goalsBuilder b) !! k = Some (Some g) → Goals.small g;
  ao_routing k r : Registry.idToData (routingConfigBuilder b) !! k = Some (Some r) → RoutingConfig.wf r;
  ao_similar l : similarContainerIds b = Some l → Forall (Forall valid) l;
  ao_hotness : Forall valid (descendingHotnessContainers b);
  ao_ordering d : objectOrderingDimensionId b = Some d → valid d
}.

Lemma registered_build {V} (r : Registry.t V) : registered r → ∃ names ids, Registry.build r = Some (Registry.nameToId r, ids) ∧
  buildNameVector (Registry.nameToId r) = Ok names ∧ named names (Registry.nameToId r) ∧
  ∀ k v, ids !! k = Some v → valid k ∧ Registry.idToData r !! k = Some (Some v).
Proof.
  intros [Hi Hb Hd]. destruct (buildNameVector_dense (Registry.nameToId r) (Registry.counter r)) as (names & En & Hn).
  { split; [apply Hi|done]. }
  { apply Hi. }
  destruct (Registry.build r) as [[m ids]|] eqn:E.
  - destruct (Registry.build_spec r m ids Hi E) as (-> & -> & Hk). exists names, (omap id (Registry.idToData r)).
    split_and!; [done..|]. intros k v Hv. apply lookup_omap_Some in Hv as (p & Hp & Hl). simpl in Hp. subst p. split; [|done].
    apply small_valid. assert (0 ≤ k < Registry.counter r); [|lia]. apply Hi. by eexists.
  - exfalso. unfold Registry.build in E. apply bind_None in E as [E|(? & _ & ?)]; [|done].
    apply (AsyncValueMap.read_suspends (Registry.idToData r)) in E as [k Hk]; [by apply Hd in Hk|apply hash_iter_perm].
Qed.
(** The items of a builder of items have identifiers, and so have their members. *)
Lemma completed_build {P} (emptyP : P) (insertP : P → Z → P) memberIds n evs s :
  completed emptyP insertP memberIds evs s → dense memberIds n → n ≤ 2 ^ 31 →
  ∃ outer nested its outerNames v, NestedBuilder.build s = Some (outer, nested, its) ∧
    buildNameVector outer = Ok outerNames ∧ buildNameVectorFromNested nested = Ok v ∧
    named_nested outerNames v outer nested ∧
    ∀ k m, its !! k = Some m → valid k ∧ ∀ id p, m !! id = Some p → valid id ∧
      ∃ mids, Forall valid mids ∧ p = foldl insertP emptyP mids.
Proof.
  intros [-> Hl Hm Hi He Hr Hd] Hden Hn.
  destruct (NestedBuilder.interleaving_names emptyP insertP memberIds evs Hl Hm Hi He Hr Hd)
    as (outer & nested & its & outerNames & v & Eb & Eo & Ev & Hnn & _ & _).
  exists outer, nested, its, outerNames, v. split_and!; [done..|]. intros k m Hk.
  pose proof (NestedBuilder.run_inv emptyP insertP memberIds evs Hl Hm Hi He) as I.
  destruct (NestedBuilder.build_lookup _ _ _ _ k Eb) as [Hns Hit]. apply Hit in Hk as [ns Hk].
  split.
  - apply small_valid. assert (0 ≤ k < Registry.counter (NestedBuilder.registry (NestedBuilder.run emptyP insertP memberIds evs))) as Hc.
    { apply (NestedBuilder.inv_registry _ _ _ _ _ _ I). by eexists. }
    rewrite (NestedBuilder.inv_made _ _ _ _ _ _ I) in Hc. lia.
  - intros id p Hp. destruct (NestedBuilder.inv_data _ _ _ _ _ _ I k ns m Hk) as (i & _ & [_ Li Lm]).
    destruct (proj1 (Li id)) as [x Hx]; [by eexists|]. split.
    + assert (nested !! k = Some ns) as Hnk by (apply Hns; by exists m).
      apply small_valid. apply (nn_inner _ _ _ _ Hnn k ns Hnk x id Hx).
    + destruct (Lm x id Hx) as (mids & Em & Ep). exists mids. split; [|congruence].
      apply mapM_Some in Em. apply Forall_forall. intros mid [j Hj]%list_elem_of_lookup.
      destruct (Forall2_lookup_r _ _ _ _ _ Em Hj) as (name & _ & Hname). apply small_valid.
      pose proof (dense_range _ _ _ _ Hden Hname). lia.
Qed.

(** The scopes are built, or two items of one of them overlap. *)
Lemma buildScopes_spec items dims : map_wf (map_wf (λ cs, ∀ c, c ∈ cs → valid c)) items →
  (∀ k ds, dims !! k = Some ds → map_wf ScopeDimension.wf ds) →
  match buildScopes items dims with
  | Ok s => Scopes.wf s ∧ (∀ k, is_Some (Scopes.scopes s !! k) ↔ is_Some (items !! k)) ∧
      map_Forall (λ _, Scope.disjoint_items) items ∧
      ∀ k scope, Scopes.scopes s !! k = Some scope → ∃ m ds, items !! k = Some m ∧ Scope.make m ds = Ok scope
  | Throw e => e = Scope.overlap ∧ ∃ k m, items !! k = Some m ∧ ¬ Scope.disjoint_items m
  end.
Proof.
  intros Hi Hd. unfold buildScopes.
  assert (∀ l m, (∀ k its, (k, its) ∈ l → items !! k = Some its) → map_wf Scope.wf m →
    match foldM (λ m '(scopeId, scopeItems), scope ← Scope.make scopeItems (default ∅ (dims !! scopeId));
      Ok (emplace m scopeId scope)) m l with
    | Ok m' => map_wf Scope.wf m' ∧ (∀ k, is_Some (m' !! k) ↔ is_Some (m !! k) ∨ k ∈ l.*1) ∧
        (∀ k its, (k, its) ∈ l → Scope.disjoint_items its) ∧
        ∀ k s, m' !! k = Some s → m !! k = Some s ∨ ∃ its ds, (k, its) ∈ l ∧ Scope.make its ds = Ok s
    | Throw e => e = Scope.overlap ∧ ∃ k its, items !! k = Some its ∧ ¬ Scope.disjoint_items its
    end) as Hloop.
  { induction l as [|[k its] l IH]; intros m Hl Hm; simpl.
    { split; [done|]. split; [|split; [by intros k its ?%not_elem_of_nil|by left]]. intros k. rewrite elem_of_nil. tauto. }
    pose proof (Hl k its ltac:(left)) as Hk. pose proof (Scope.make_accepts its (default ∅ (dims !! k))) as Ha.
    destruct (Scope.make its (default ∅ (dims !! k))) as [scope|e] eqn:E; cbn [mbind result_bind].
    2:{ destruct Ha as [-> Ha]. split; [done|]. by exists k, its. }
    assert (map_wf Scope.wf (emplace m k scope)) as Hm'.
    { intros k' s'. unfold emplace. destruct (m !! k) eqn:Em; [by apply Hm|]. intros [[<- <-]|[_ ?]]%lookup_insert_Some; [|by apply Hm].
      destruct (Hi k its Hk) as [Hv Hits]. split; [done|]. exists its, (default ∅ (dims !! k)). split; [done|]. split; [done|].
      destruct (dims !! k) as [ds|] eqn:Ed; [by eapply Hd|]. intros ? ? Hx. simpl in Hx. by rewrite lookup_empty in Hx. }
    specialize (IH (emplace m k scope) ltac:(intros k' its' Hin; apply Hl; by right) Hm').
    destruct (foldM _ (emplace m k scope) l) as [m'|e]; [|done]. destruct IH as (Hw & Hdom & Hdis & Hmade). split; [done|].
    split; [|split; [by intros k' its' [[= -> ->]|Hin]%elem_of_cons; [|by eapply Hdis]|]].
    2:{ intros k' s' [Hk'|(its' & ds & Hin & Es)]%Hmade; [|right; exists its', ds; split; [by right|done]].
        unfold emplace in Hk'. destruct (m !! k) eqn:Em; [by left|].
        apply lookup_insert_Some in Hk' as [[<- <-]|[_ ?]]; [right; eexists _, _; split; [by left|done]|by left]. } intros k'. rewrite Hdom, elem_of_cons. unfold emplace. destruct (m !! k) as [s0|] eqn:Em.
    - split; [tauto|]. intros [?|[->|?]]; [by left| |by right]. left. rewrite Em. by eexists.
    - destruct (decide (k = k')) as [<-|Hne]; [rewrite lookup_insert_eq; split; [right; by left|left; by eexists]|].
      rewrite lookup_insert_ne by done. split; [tauto|]. intros [?|[?|?]]; [by left|congruence|by right]. }
  specialize (Hloop (hash_iter items) ∅). destruct (foldM _ ∅ (hash_iter items)) as [m|e]; cbn [mbind result_bind].
  - destruct Hloop as (Hw & Hdom & Hdis & Hmade); [by intros k its Hk%hash_iter_elem|intros ? ? Hx; by rewrite lookup_empty in Hx|].
    split; [done|]. split; [|split; [by intros k its Hk%hash_iter_elem; eapply Hdis|]].
    2:{ intros k scope [Hx|(its & ds & Hin%hash_iter_elem & Es)]%Hmade; [by rewrite lookup_empty in Hx|by exists its, ds]. }
    intros k. simpl. rewrite Hdom, lookup_empty. split.
    + intros [[]|([k' its] & -> & Hk%hash_iter_elem)%list_elem_of_fmap]; [done|by eexists].
    + intros [its Hk%hash_iter_elem]. right. by apply (list_elem_of_fmap_2 fst _ (k, its)).
  - apply Hloop; [by intros k its Hk%hash_iter_elem|intros ? ? Hx; by rewrite lookup_empty in Hx].
Qed.

(** The dimensions are those that were added. *)
Lemma dimensions_build d order : DimensionsBuilder.inv d → DimensionsBuilder.counter d ≤ 2 ^ 31 →
  complete (DimensionsBuilder.objectDimensionIdToData d) → complete (DimensionsBuilder.scopeDimensionIdToData d) →
  order ≡ₚ map_to_list (DimensionsBuilder.scopeDimensionIdToData (OD := ObjectDimension.t) (SD := ScopeDimension.t) d) →
  ∃ objectDims scopeDims, DimensionsBuilder.build d order = Some (DimensionsBuilder.dimensionNameToId d, objectDims, scopeDims) ∧
    (∀ k v, objectDims !! k = Some v → valid k ∧ DimensionsBuilder.objectDimensionIdToData d !! k = Some (Some v)) ∧
    ∀ s ds k v, scopeDims !! s = Some ds → ds !! k = Some v →
      valid k ∧ DimensionsBuilder.scopeDimensionIdToData d !! (k, s) = Some (Some v).
Proof.
  intros [Ic Id Io Is] Hb Ho Hs Hord. unfold DimensionsBuilder.build.
  destruct (AsyncValueMap.waitAndReadFromEach (hash_iter (DimensionsBuilder.objectDimensionIdToData d))) as [l1|] eqn:E1.
  2:{ exfalso. apply (AsyncValueMap.read_suspends (DimensionsBuilder.objectDimensionIdToData d)) in E1 as [k Hk];
      [by apply Ho in Hk|apply hash_iter_perm]. }
  destruct (AsyncValueMap.waitAndReadFromEach order) as [l2|] eqn:E2.
  2:{ exfalso. apply (AsyncValueMap.read_suspends (DimensionsBuilder.scopeDimensionIdToData d)) in E2 as [k Hk]; [by apply Hs in Hk|done]. }
  eexists _, _. split; [done|]. split.
  - intros k v. rewrite emplaceAll_empty.
    destruct (AsyncValueMap.read_keys _ _ _ (hash_iter_perm _ _) E1) as (-> & _ & _). intros (p & Hp & Hk)%lookup_omap_Some.
    simpl in Hp. subst p. split; [|done]. apply small_valid. assert (0 ≤ k < DimensionsBuilder.counter d); [|lia]. apply Io. by eexists.
  - pose proof (AsyncValueMap.read_all _ _ _ Hord E2) as Hl2.
    assert (∀ l (m : gmap Z (gmap Z ScopeDimension.t)), (∀ e, e ∈ l → e ∈ l2) → (∀ s ds k v, m !! s = Some ds → ds !! k = Some v → ((k, s), v) ∈ l2) →
      ∀ s ds k v, foldl (λ m '((dimensionId, scopeId), d), <[scopeId := emplace (default ∅ (m !! scopeId)) dimensionId d]> m) m l !! s
        = Some ds → ds !! k = Some v → ((k, s), v) ∈ l2) as Hloop.
    { induction l as [|[[k0 s0] v0] l IH]; intros m Hl Hm; simpl; [done|]. apply IH; [intros e He; apply Hl; by right|].
      intros s ds k v [[<- <-]|[_ Hds]]%lookup_insert_Some Hv; [|by eapply Hm].
      unfold emplace in Hv. destruct (default ∅ (m !! s0) !! k0) eqn:E.
      - destruct (m !! s0) as [ds|] eqn:Em; simpl in Hv; [by eapply Hm|by rewrite lookup_empty in Hv].
      - apply lookup_insert_Some in Hv as [[<- <-]|[_ Hv]]; [apply Hl; by left|].
        destruct (m !! s0) as [ds|] eqn:Em; simpl in Hv; [by eapply Hm|by rewrite lookup_empty in Hv]. }
    intros s ds k v Hds Hv. assert (((k, s), v) ∈ l2) as Hin.
    { eapply (Hloop l2 ∅); [done| |done|done]. intros ? ? ? ? Hx. by rewrite lookup_empty in Hx. }
    apply Hl2 in Hin. split; [|done]. apply small_valid. assert (0 ≤ k < DimensionsBuilder.counter d); [|lia]. apply (Is k s). by eexists.
Qed.
Lemma foldl_addContainer mids : ∀ cs, foldl ScopesBuilder.addContainer cs mids = list_to_set mids ∪ cs.
Proof.
  induction mids as [|x mids IH]; intros cs; simpl; [by rewrite (left_id_L ∅ (∪))|]. rewrite IH. unfold ScopesBuilder.addContainer. set_solver.
Qed.

Lemma foldl_addObject mids : ∀ os, foldl PartitionsBuilder.addObject os mids = os ++ mids.
Proof.
  induction mids as [|x mids IH]; intros os; simpl; [by rewrite app_nil_r|]. rewrite IH. unfold PartitionsBuilder.addObject.
  by rewrite <- app_assoc.
Qed.

Lemma goals_make (m : gmap Z GoalT) : map_wf Goals.small m → ∃ g, Goals.make m = Ok g ∧ Goals.wf g.
Proof.
  intros Hm. destruct (Goals.goals_loop (sorted_iter m) (Goals.entries_small m _ Hm (sorted_iter_perm m))) as (index & E & _).
  assert (∃ g, Goals.make m = Ok g) as [g Eg] by (unfold Goals.make; rewrite E; by eexists).
  exists g. split; [done|]. by exists m.
Qed.

Lemma static_default n v : 0 ≤ n → ∃ d, ObjectDimension.makeStatic (CompressedIdMap.make n v 0) = Ok d ∧
  ∃ s, d = ObjectDimension.mk [ObjectScalarDimension.objectStatic s] false ∧
    ObjectStaticDimension.make (CompressedIdMap.make n v 0) = Ok s.
Proof.
  intros Hn. unfold ObjectDimension.makeStatic. destruct (ObjectStaticDimension.make (CompressedIdMap.make n v 0)) as [s|e] eqn:E.
  - eexists. split; [done|]. by exists s.
  - exfalso. unfold ObjectStaticDimension.make in E. cbn [ObjectValues.ofMap mbind result_bind] in E.
    destruct (CompressedIdMap.forEachNonDefault_models deq (CompressedIdMap.make n v 0) ∅) as (l & El & _).
    { by apply CompressedIdMap.make_models. }
    simpl in E. by rewrite El in E.
Qed.

Lemma assigned_containers l o c : AssignmentBuilder.assigned l o c → Z.of_nat (length l) ≤ 2 ^ 31 →
  AssignmentBuilder.numObjects o < 2 ^ 31 → Containers.wf (Containers.mk (AssignmentBuilder.containerIdToObjectIds c)).
Proof.
  intros [Ao Ac An Aon Acn Ak Am] Hl Ho k os Hk. simpl in Hk.
  assert (0 ≤ k < Z.of_nat (length l)) as Hr by (apply Ak; by eexists). split; [apply small_valid; lia|].
  destruct (dense_onto _ _ k Ac Hr) as [name Hn]. assert (name ∈ l.*1) as Hin by (apply Acn; by eexists).
  apply list_elem_of_fmap in Hin as ([name' ns] & -> & Hin). destruct (Am name' ns Hin) as (cid & os' & oids & E1 & E2 & _ & Hf).
  simpl in Hn. assert (oids = os) as -> by congruence. apply Forall_forall. intros id [j Hj]%list_elem_of_lookup.
  destruct (Forall2_lookup_r _ _ _ _ _ Hf Hj) as (x & _ & Hx). apply small_valid. pose proof (dense_range _ _ _ _ Ao Hx). lia.
Qed.

(** The entities that were added, [build] neither suspends nor accesses a vector out of
    bounds: it throws exactly when two items of a scope overlap, and otherwise gives a
    well-formed universe with the numbers of the builders. *)
Lemma build_wf b l o c sevs pevs order : ready b l o c sevs pevs → added_ok b (AssignmentBuilder.numObjects o) →
  order ≡ₚ map_to_list (DimensionsBuilder.scopeDimensionIdToData (dimensionsBuilder b)) →
  ∃ names itemNames items, ScopesBuilder.build (scopesBuilder b) = Some (names, itemNames, items) ∧
  match build b order with
  | Some (Ok u) => Universe.wf u ∧ map_Forall (λ _, Scope.disjoint_items) items ∧
      IdStore.objectIds (Universe.idStore u) = AssignmentBuilder.objectNameToId o ∧
      IdStore.containerIds (Universe.idStore u) = AssignmentBuilder.containerNameToId c ∧
      Containers.initialAssignment (Universe.containers u) = AssignmentBuilder.containerIdToObjectIds c ∧
      IdStore.scopeIds (Universe.idStore u) = names ∧ IdStore.scopeItemIds (Universe.idStore u) = itemNames ∧
      (∀ k, is_Some (Scopes.scopes (Universe.scopes u) !! k) ↔ is_Some (items !! k)) ∧
      ∀ k scope, Scopes.scopes (Universe.scopes u) !! k = Some scope →
        ∃ m ds, items !! k = Some m ∧ Scope.make m ds = Ok scope
  | Some (Throw e) => e = Scope.overlap ∧ ¬ map_Forall (λ _, Scope.disjoint_items) items
  | None => False
  end.
Proof.
  intros R A Hord. destruct R as [Ra Rs Rc Ro Rsc Rp Rd Rdb Rod Rsd Rg Rcs Rr].
  destruct (completed_build _ _ _ (Z.of_nat (length l)) _ _ Rsc (AssignmentBuilder.asg_containers _ _ _ Rs) Rc)
    as (sNames & sNested & sItems & sOuterNames & sItemNames & Esb & Eson & Esn & Hsn & Hsi).
  destruct (completed_build _ _ _ (AssignmentBuilder.numObjects o) _ _ Rp (AssignmentBuilder.asg_objects _ _ _ Rs) ltac:(lia))
    as (pNames & pNested & pGroups & pOuterNames & pGroupNames & Epb & Epon & Epn & Hpn & Hpi).
  destruct (dimensions_build _ order Rd Rdb Rod Rsd Hord) as (oDims & sDims & Edb & Hod & Hsd).
  destruct (registered_build _ Rg) as (gNames & goals & Eg & Egn & Hgn & Hg).
  destruct (registered_build _ Rcs) as (cNames & constraints & Ec & Ecn & Hcn & Hc).
  destruct (registered_build _ Rr) as (rNames & routing & Er & Ern & Hrn & Hr).
  exists sNames, sNested, sItems. unfold ScopesBuilder.build. split; [done|].
  assert (PartitionsBuilder.build (partitionsBuilder b) = Some (pNames, pNested, Partition.make <$> pGroups)) as Epb'.
  { unfold PartitionsBuilder.build. by rewrite Epb. }
  unfold build, ScopesBuilder.build. rewrite Esb. cbn [mbind option_bind]. rewrite Edb. cbn [mbind option_bind]. rewrite Epb'.
  cbn [mbind option_bind]. rewrite Eg. cbn [mbind option_bind]. rewrite Ec. cbn [mbind option_bind]. rewrite Er.
  cbn [mbind option_bind]. rewrite Ra. cbn [mbind result_bind].
  destruct (static_default (AssignmentBuilder.numObjects o) d0) as (dd & Edd & _).
  { rewrite (AssignmentBuilder.asg_count _ _ _ Rs). lia. }
  unfold Objects.make, Objects.makeDefaultDimension. rewrite Edd. cbn [mbind result_bind].
  assert (map_wf (map_wf (λ cs, ∀ x, x ∈ cs → valid x)) sItems) as Hsw.
  { intros k m Hk. destruct (Hsi k m Hk) as [Hv Hm]. split; [done|]. intros id p Hp. destruct (Hm id p Hp) as (Hi & mids & Hf & ->).
    split; [done|]. intros x. rewrite foldl_addContainer. rewrite Forall_forall in Hf. set_solver. }
  pose proof (buildScopes_spec sItems sDims Hsw) as Hbs.
  destruct (buildScopes sItems sDims) as [scopes|e]; cbn [mbind result_bind].
  2:{ destruct Hbs as [-> (k & m & Hk & Hnd)]; [|split; [done|]; intros Hall; by eapply Hnd, Hall].
      intros s ds Hds k v Hv. destruct (Hsd s ds k v Hds Hv) as [? ?]. split; [done|]. by eapply A. }
  destruct Hbs as (Hscw & Hsck & Hdis & Hmade).
  { intros s ds Hds k v Hv. destruct (Hsd s ds k v Hds Hv) as [? ?]. split; [done|]. by eapply A. }
  assert (0 ≤ AssignmentBuilder.numObjects o) as Hn0 by (rewrite (AssignmentBuilder.asg_count _ _ _ Rs); lia).
  destruct (buildNameVector_dense _ (AssignmentBuilder.numObjects o) ltac:(lia)
    (AssignmentBuilder.asg_objects _ _ _ Rs)) as (oNames & Eon & Hon). rewrite Eon. cbn [mbind result_bind].
  destruct (buildNameVector_dense _ (Z.of_nat (length l)) ltac:(lia) (AssignmentBuilder.asg_containers _ _ _ Rs)) as (kNames & Ekn & Hkn).
  rewrite Ekn. cbn [mbind result_bind]. rewrite Eson. cbn [mbind result_bind]. rewrite Esn. cbn [mbind result_bind].
  rewrite Epon. cbn [mbind result_bind]. rewrite Epn. cbn [mbind result_bind].
  destruct (buildNameVector_dense _ _ (conj (DimensionsBuilder.inv_count _ Rd) Rdb) (DimensionsBuilder.inv_dense _ Rd)) as (dNames & Edn & Hdn).
  rewrite Edn. cbn [mbind result_bind]. rewrite Egn. cbn [mbind result_bind]. rewrite Ecn. cbn [mbind result_bind].
  rewrite Ern. cbn [mbind result_bind]. destruct (goals_make goals) as (gs & Egs & Hgs).
  { intros k g Hk. destruct (Hg k g Hk) as [? ?]. split; [done|]. by eapply A. }
  rewrite Egs. cbn [mbind result_bind Universe.make Universe.config_objects Universe.config_containers].
  split; [|by split_and!]. split; simpl.
  - by split.
  - split; simpl; [|done|].
    + done.
    + intros k d Hk. destruct (Hod k d Hk) as [? ?]. split; [done|]. by eapply A.
  - by apply (assigned_containers l o c).
  - apply A.
  - done.
  - intros k p Hp. simpl in Hp. apply lookup_fmap_Some in Hp as (m & <- & Hk). destruct (Hpi k m Hk) as [? Hm]. split; [done|].
    exists m. split; [done|]. intros id os Hos. destruct (Hm id os Hos) as (? & mids & Hf & ->). split; [done|].
    by rewrite foldl_addObject.
  - done.
  - intros k x Hk. split; [|done]. by apply (Hc k x).
  - apply A.
  - apply A.
  - intros k r Hk. destruct (Hr k r Hk) as [? ?]. split; [done|]. by eapply A.
Qed.
(** ** What the first assignment adds *)
Lemma solo_steps {P} (emptyP : P) insertP memberIds k l rs reg es :
  (∀ x ms, (x, ms) ∈ l → ∃ ids, mapM (NestedBuilder.getId memberIds) ms = Ok ids) → ∀ n c t,
  NestedBuilder.owner t = k → NestedBuilder.source t = NestedBuilder.ByItem l → (NestedBuilder.position t + n = length l)%nat →
  ∃ c' t', foldl (NestedBuilder.exec emptyP insertP memberIds) (NestedBuilder.mkShared c (rs ++ [t]) reg es)
      (replicate n (NestedBuilder.Run (length rs))) = NestedBuilder.mkShared c' (rs ++ [t']) reg es ∧
    NestedBuilder.owner t' = k ∧ NestedBuilder.source t' = NestedBuilder.ByItem l ∧ NestedBuilder.position t' = length l.
Proof.
  intros Hl. induction n as [|n IH]; intros c t Ho Es Hp; [exists c, t; split_and!; [done..|lia]|].
  destruct (lookup_lt_is_Some_2 l (NestedBuilder.position t)) as [[x ms] Hx]; [lia|].
  destruct (Hl x ms) as [ids Hids]; [by eapply list_elem_of_lookup_2|]. rewrite replicate_S. cbn [foldl]. unfold NestedBuilder.exec at 2.
  cbn [NestedBuilder.running]. rewrite list_lookup_middle by done. unfold NestedBuilder.task_step. rewrite Es, Hx.
  unfold NestedBuilder.item_step. destruct (IdBuilder.next _) as [id c1]. rewrite Hids. cbn [NestedBuilder.registry NestedBuilder.errors].
  rewrite insert_app_r_alt, Nat.sub_diag by done. simpl. apply IH; simpl; [done|done|lia].
Qed.

Lemma solo_add {P} (emptyP : P) insertP memberIds s k l :
  (∀ x ms, (x, ms) ∈ l → ∃ ids, mapM (NestedBuilder.getId memberIds) ms = Ok ids) →
  NestedBuilder.data s !! k = Some None →
  let s' := foldl (NestedBuilder.exec emptyP insertP memberIds) s (NestedBuilder.Start k (NestedBuilder.ByItem l) ::
    replicate (S (length l)) (NestedBuilder.Run (length (NestedBuilder.running s)))) in
  NestedBuilder.errors s' = NestedBuilder.errors s ∧ NestedBuilder.running s' = NestedBuilder.running s ∧
  ∃ v, NestedBuilder.registry s' = Registry.mk (Registry.counter (NestedBuilder.registry s)) (Registry.nameToId (NestedBuilder.registry s))
    (<[k := Some v]> (NestedBuilder.data s)).
Proof.
  intros Hl Hk. destruct s as [c rs reg es]. unfold NestedBuilder.data in *. cbn [NestedBuilder.running NestedBuilder.registry] in *.
  replace (S (length l)) with (length l + 1)%nat by lia. rewrite replicate_add. cbn [foldl NestedBuilder.exec].
  rewrite foldl_app.
  destruct (solo_steps emptyP insertP memberIds k l rs reg es Hl (length l) c (NestedBuilder.mkTask k (NestedBuilder.ByItem l) 0 ∅ ∅))
    as (c' & t' & E & Ho & Es & Ep); [done..|]. cbn [NestedBuilder.running NestedBuilder.count NestedBuilder.registry NestedBuilder.errors] in *.
  rewrite E. cbn [replicate foldl]. unfold NestedBuilder.exec. cbn [NestedBuilder.running]. rewrite list_lookup_middle by done.
  unfold NestedBuilder.task_step. rewrite Es, Ep, lookup_ge_None_2 by done. cbn [NestedBuilder.registry].
  unfold Registry.add, AsyncValueMap.set. rewrite Ho, Hk. cbn [mbind result_bind NestedBuilder.errors NestedBuilder.running NestedBuilder.registry].
  split; [done|]. split; [|by eexists]. rewrite delete_take_drop, take_app_length, drop_ge by (rewrite length_app; simpl; lia).
  by rewrite app_nil_r.
Qed.
Lemma listed_unique l x ms : NoDup l.*1 → (x, ms) ∈ l → NestedBuilder.listed (NestedBuilder.ByItem l) (length l) x = ms.
Proof.
  intros Hn Hin. unfold NestedBuilder.listed. rewrite take_ge by done.
  assert (∀ l' : list (string * list string), x ∉ l'.*1 → (l' ≫= λ e, if decide (e.1 = x) then e.2 else []) = []) as Hnone.
  { induction l' as [|[y ys] l' IH]; intros Hy; [done|]. rewrite fmap_cons, not_elem_of_cons in Hy. destruct Hy as [Hy ?]. simpl in *.
    rewrite decide_False by done. simpl. by apply IH. }
  apply list_elem_of_split in Hin as (l1 & l2 & ->). rewrite fmap_app, fmap_cons in Hn. simpl in Hn.
  apply NoDup_app in Hn as (_ & Hn1 & [Hn2 _]%NoDup_cons). rewrite bind_app, Hnone by (intros Hx; apply (Hn1 x Hx); left). simpl.
  rewrite decide_True by done. change (ms ++ (l2 ≫= λ e, if decide (e.1 = x) then e.2 else []) = ms). by rewrite Hnone, app_nil_r.
Qed.

Lemma trivialItems_lookup m x ms : trivialItems m !! x = Some ms ↔ ms = [x] ∧ is_Some (m !! x).
Proof.
  unfold trivialItems. rewrite emplaceAll_empty, <- elem_of_list_to_map.
  - rewrite list_elem_of_fmap. split.
    + intros ([y i] & [= -> ->] & Hy%name_iter_elem). split; [done|by eexists].
    + intros [-> [i Hi%name_iter_elem]]. by exists (x, i).
  - rewrite <- list_fmap_compose, (list_fmap_ext _ fst) by (by intros ? []). rewrite name_iter_perm. apply NoDup_fst_map_to_list.
Qed.

Lemma trivialItems_size m : size (trivialItems m) = size m.
Proof.
  rewrite <- !size_dom. f_equal. apply set_eq. intros x. rewrite !elem_of_dom. split.
  - by intros [ms [_ ?]%trivialItems_lookup].
  - intros Hx. exists [x]. by apply trivialItems_lookup.
Qed.

Definition trivialEvents (name : string) (m : gmap string Z) : list NestedBuilder.event :=
  NestedBuilder.MakeId name :: NestedBuilder.Start 0 (NestedBuilder.ByItem (name_iter (trivialItems m))) ::
  replicate (S (length (name_iter (trivialItems m)))) (NestedBuilder.Run 0).

Lemma first_name {P} (emptyP : P) insertP memberIds name :
  NestedBuilder.exec emptyP insertP memberIds NestedBuilder.empty (NestedBuilder.MakeId name) =
  NestedBuilder.mkShared 0 [] (Registry.mk 1 {[name := 0]} {[0 := None]}) [].
Proof. reflexivity. Qed.

Lemma trivialEvents_completed name m n : dense m n → n ≤ 2 ^ 31 →
  completed ∅ ScopesBuilder.addContainer m (trivialEvents name m)
    (NestedBuilder.run ∅ ScopesBuilder.addContainer m (trivialEvents name m)) ∧
  Registry.nameToId (NestedBuilder.registry (NestedBuilder.run ∅ ScopesBuilder.addContainer m (trivialEvents name m))) = {[name := 0]}.
Proof.
  intros Hd Hn.
  assert (NoDup (name_iter (trivialItems m)).*1) as Hnd by (rewrite name_iter_perm; apply NoDup_fst_map_to_list).
  assert (∀ k ls, NestedBuilder.legal k (replicate ls (NestedBuilder.Run 0))) as Hlegal by (intros k ls; by induction ls).
  assert (∀ ls, NestedBuilder.started_by (replicate ls (NestedBuilder.Run 0)) = []) as Hst by (intros ls; by induction ls).
  assert (∀ ls, NestedBuilder.made_by (replicate ls (NestedBuilder.Run 0)) = 0%nat) as Hma by (intros ls; by induction ls).
  destruct (solo_add ∅ ScopesBuilder.addContainer m
    (NestedBuilder.mkShared 0 [] (Registry.mk 1 {[name := 0]} {[0 := None]}) []) 0 (name_iter (trivialItems m))) as (He & Hr & v & Hv).
  { intros x ms [-> [i Hi]]%name_iter_elem%trivialItems_lookup. exists [i]. simpl. unfold NestedBuilder.getId. by rewrite Hi. }
  { apply lookup_singleton_eq. }
  rewrite <- (first_name ∅ ScopesBuilder.addContainer m name) in He, Hr, Hv.
  split; [|by rewrite (Hv : NestedBuilder.registry (NestedBuilder.run ∅ ScopesBuilder.addContainer m (trivialEvents name m)) = _)].
  split; try done.
  - unfold trivialEvents, NestedBuilder.made_by in *. cbn [sum_list_with]. rewrite Hma. lia.
  - unfold trivialEvents. change (Z.of_nat (sum_list_with (λ e, NestedBuilder.input_length e.2)
      ((0, NestedBuilder.ByItem (name_iter (trivialItems m))) ::
       NestedBuilder.started_by (replicate (S (length (name_iter (trivialItems m)))) (NestedBuilder.Run 0)))) ≤ 2 ^ 31).
    rewrite Hst. cbn [sum_list_with NestedBuilder.input_length snd]. rewrite (Permutation_length (name_iter_perm _ _)), length_map_to_list.
    rewrite trivialItems_size. pose proof (Permutation_length Hd) as Hl. unfold ids in Hl.
    rewrite length_fmap, length_map_to_list, length_seqZ in Hl. lia.
  - assert (NestedBuilder.data (NestedBuilder.run ∅ ScopesBuilder.addContainer m (trivialEvents name m)) =
      <[0 := Some v]> {[0 := None]}) as -> by exact (f_equal Registry.idToData Hv). intros k.
    destruct (decide (k = 0)) as [->|Hne]; [by rewrite lookup_insert_eq|]. rewrite lookup_insert_ne by done.
    by rewrite lookup_singleton_ne.
Qed.
Lemma pairs_length l : (length l ≤ length (AssignmentBuilder.pairs l))%nat ∧
  (length (AssignmentBuilder.all_objects l) ≤ length (AssignmentBuilder.pairs l))%nat.
Proof.
  induction l as [|[x os] l [IH1 IH2]]; [done|]. rewrite AssignmentBuilder.pairs_cons, length_app. unfold AssignmentBuilder.all_objects in *.
  cbn [mbind list_bind snd length]. rewrite length_app. destruct os as [|o os]; simpl; [|rewrite length_fmap]; unfold mbind in *; simpl in *; lia.
Qed.

(** The scope of the containers: an item for every container, with its name. *)
Lemma trivial_scope name m n : dense m n → n ≤ 2 ^ 31 → ∃ nested its ns items,
  ScopesBuilder.build (NestedBuilder.run ∅ ScopesBuilder.addContainer m (trivialEvents name m)) = Some ({[name := 0]}, nested, its) ∧
  nested !! 0 = Some ns ∧ its = {[0 := items]} ∧
  (∀ x, match m !! x with
        | Some cid => ∃ id, ns !! x = Some id ∧ items !! id = Some {[cid]}
        | None => ns !! x = None
        end) ∧
  ∀ id cs, items !! id = Some cs → ∃ x cid, m !! x = Some cid ∧ ns !! x = Some id ∧ cs = {[cid]}.
Proof.
  intros Hd Hn. destruct (trivialEvents_completed name m n Hd Hn) as [[_ C1 C2 C3 C4 C5 C6] Hnames].
  destruct (NestedBuilder.interleaving_names ∅ ScopesBuilder.addContainer m (trivialEvents name m) C1 C2 C3 C4 C5 C6)
    as (outer & nested & its & outerNames & v & Eb & _ & _ & Hnn & _ & Hloc).
  destruct (Hloc 0 (NestedBuilder.ByItem (name_iter (trivialItems m)))) as (ns & items & Ens & Eits & [Ln Li Lm]).
  { unfold trivialEvents. left. }
  assert (outer = {[name := 0]}) as ->.
  { unfold NestedBuilder.build in Eb. apply bind_Some in Eb as (? & _ & [= <- _ _]). exact Hnames. }
  assert (its = {[0 := items]}) as ->.
  { apply map_eq. intros k. destruct (decide (k = 0)) as [->|Hne]; [by rewrite lookup_singleton_eq|].
    rewrite lookup_singleton_ne by done. apply eq_None_not_Some. intros [m' Hk].
    destruct (NestedBuilder.build_lookup _ _ _ _ k Eb) as [Hn1 Hn2]. apply Hn2 in Hk as [ns' Hk].
    destruct (proj1 (nn_dom _ _ _ _ Hnn k)) as [x [_ <-]%lookup_singleton_Some]; [|done]. exists ns'. apply Hn1. by exists m'. }
  assert (∀ x, match m !! x with
    | Some cid => ∃ id, ns !! x = Some id ∧ items !! id = Some {[cid]} | None => ns !! x = None end) as Hx.
  { intros x. specialize (Ln x). simpl in Ln. rewrite take_ge in Ln by done. destruct (m !! x) as [cid|] eqn:Ex.
    - assert ((x, [x]) ∈ name_iter (trivialItems m)) as Hin by (apply name_iter_elem, trivialItems_lookup; split; [done|by eexists]).
      destruct (proj2 Ln) as [id Hid]; [by apply (list_elem_of_fmap_2 fst _ (x, [x]))|]. exists id. split; [done|].
      destruct (Lm x id Hid) as (mids & Em & Ei). cbn [NestedBuilder.input_length] in Em.
      rewrite (listed_unique _ x [x]) in Em; [|rewrite name_iter_perm; apply NoDup_fst_map_to_list|done].
      simpl in Em. rewrite Ex in Em. injection Em as <-. rewrite Ei. simpl. unfold ScopesBuilder.addContainer. by rewrite (right_id_L ∅ (∪)).
    - apply eq_None_not_Some. intros Hx%Ln. apply list_elem_of_fmap in Hx as ([y ms] & -> & [_ Hy]%name_iter_elem%trivialItems_lookup).
      simpl in Ex. rewrite Ex in Hy. by destruct Hy. }
  exists nested, {[0 := items]}, ns, items. split_and!; [done..|]. intros id cs Hcs.
  destruct (proj1 (Li id)) as [x Hid]; [by eexists|]. specialize (Hx x). destruct (m !! x) as [cid|] eqn:Ex; [|congruence].
  destruct Hx as (id' & Hid' & Hi'). exists x, cid. split_and!; [done..|]. congruence.
Qed.

Lemma one_canon : canon d1.
Proof. by apply (bool_decide_unpack _). Qed.

(** Every object counts once. *)
Lemma count_values n : 0 ≤ n → ∃ s, ObjectDimension.makeStatic (CompressedIdMap.make n d1 0) =
    Ok (ObjectDimension.mk [ObjectScalarDimension.objectStatic s] false) ∧
  (∀ o, 0 ≤ o < n → ObjectScalarDimension.getValueOf (ObjectScalarDimension.objectStatic s) o = Ok d1) ∧
  ObjectStaticDimension.wf n s.
Proof.
  intros Hn. destruct (static_default n d1 Hn) as (d & Ed & s & -> & Es). exists s. split; [done|]. split.
  2:{ exists (CompressedIdMap.make n d1 0), ∅, d1. split; [done|]. split; [apply one_canon|].
      split; [by apply CompressedIdMap.make_models|]. split_and!; [done..|]. intros k v Hx. by rewrite lookup_empty in Hx. }
  intros o Ho. simpl.
  unfold ObjectStaticDimension.make in Es. cbn [ObjectValues.ofMap mbind result_bind] in Es.
  apply bind_Ok in Es as (l & _ & [= <-]). simpl.
  by rewrite (CompressedIdMap.getValue_models deq _ ∅) by (done || by apply CompressedIdMap.make_models).
Qed.
(** The state of the builders after the first assignment. *)
Record initialized (b b' : t) (l : list (string * list string)) (o : AssignmentBuilder.ObjectsData)
    (c : AssignmentBuilder.ContainersData) : Prop := {
  in_assignment : AssignmentBuilder.build (assignmentBuilder b') = Ok (o, c);
  in_assigned : AssignmentBuilder.assigned l o c;
  in_scopes : scopesBuilder b' = NestedBuilder.run ∅ ScopesBuilder.addContainer (AssignmentBuilder.containerNameToId c)
    (trivialEvents (containerTypeName b) (AssignmentBuilder.containerNameToId c));
  in_dimensions : DimensionsBuilder.inv (dimensionsBuilder b');
  in_counter : DimensionsBuilder.counter (dimensionsBuilder b') = 1;
  in_count : ∃ id s, DimensionsBuilder.dimensionNameToId (dimensionsBuilder b') = {[objectTypeName b +:+ "_count" := id]} ∧
    DimensionsBuilder.objectDimensionIdToData (dimensionsBuilder b') =
      {[id := Some (ObjectDimension.mk [ObjectScalarDimension.objectStatic s] false)]} ∧
    DimensionsBuilder.scopeDimensionIdToData (dimensionsBuilder b') = ∅ ∧
    (∀ x, 0 ≤ x < AssignmentBuilder.numObjects o →
      ObjectScalarDimension.getValueOf (ObjectScalarDimension.objectStatic s) x = Ok d1) ∧
    ObjectStaticDimension.wf (AssignmentBuilder.numObjects o) s;
  in_rest : b' = with_dimensions (with_scopes (with_assignment b (assignmentBuilder b')) (scopesBuilder b')) (dimensionsBuilder b')
}.

Lemma setInitialAssignment_spec b l shuffled : assignmentBuilder b = AssignmentBuilder.empty →
  scopesBuilder b = NestedBuilder.empty → dimensionsBuilder b = DimensionsBuilder.empty →
  shuffled ≡ₚ AssignmentBuilder.pairs l → Z.of_nat (length (AssignmentBuilder.pairs l)) ≤ 2 ^ 31 →
  match setInitialAssignment b l shuffled with
  | (b', Ok _) => AssignmentBuilder.proper l ∧ ∃ o c, initialized b b' l o c
  | (_, Throw _) => ¬ AssignmentBuilder.proper l
  end.
Proof.
  intros Ea Es Ed Hp Hl. unfold setInitialAssignment. rewrite Ea.
  pose proof (AssignmentBuilder.assignment_set_spec l shuffled Hp Hl) as Hset.
  destruct (AssignmentBuilder.set AssignmentBuilder.empty l shuffled) as [a [[]|e]]; [|done].
  destruct Hset as (Hpr & o & c & Eo & Ec & Has). cbn [AssignmentBuilder.wasPreviouslySet AssignmentBuilder.empty AssignmentBuilder.objects negb].
  unfold AssignmentBuilder.getObjects. rewrite Eo. destruct (pairs_length l) as [Hl1 Hl2].
  pose proof (AssignmentBuilder.asg_containers _ _ _ Has) as Dc. pose proof (AssignmentBuilder.asg_count _ _ _ Has) as Hn.
  destruct (trivialEvents_completed (containerTypeName b) _ _ Dc ltac:(lia)) as [[_ _ _ _ C4 _ _] _].
  assert (buildTrivialScope (with_assignment b a) = (with_scopes (with_assignment b a)
    (NestedBuilder.run ∅ ScopesBuilder.addContainer (AssignmentBuilder.containerNameToId c)
      (trivialEvents (containerTypeName b) (AssignmentBuilder.containerNameToId c))), Ok tt)) as ->.
  { unfold buildTrivialScope, AssignmentBuilder.getContainers. cbn [with_assignment assignmentBuilder scopesBuilder containerTypeName].
    rewrite Ec, Es. cbn [NestedBuilder.empty NestedBuilder.registry].
    change (Registry.makeIdFromName Registry.empty (containerTypeName b)) with
      (Ok (0, Registry.mk 1 {[containerTypeName b := 0]} {[0 := @None (gmap string Z * gmap Z (gset Z))]})).
    cbv beta iota zeta. match goal with |- context [runAdd ?m ?s ?k ?i] => change (runAdd m s k i) with
      (NestedBuilder.run ∅ ScopesBuilder.addContainer (AssignmentBuilder.containerNameToId c)
        (trivialEvents (containerTypeName b) (AssignmentBuilder.containerNameToId c))) end.
    by rewrite C4. }
  destruct (count_values (AssignmentBuilder.numObjects o) ltac:(lia)) as (s & Ecount & Hv & Hwf).
  unfold buildObjectCountDimension. cbn [with_scopes with_assignment dimensionsBuilder objectTypeName]. rewrite Ed.
  change (DimensionsBuilder.makeObjectDimensionId DimensionsBuilder.empty (objectTypeName b +:+ "_count")) with
    (Ok (0, DimensionsBuilder.mk 1 {[objectTypeName b +:+ "_count" := 0]} {[0 := @None ObjectDimension.t]}
      (∅ : gmap (Z * Z) (option ScopeDimension.t)))).
  cbv beta iota. rewrite Ecount. cbn [mbind result_bind]. unfold DimensionsBuilder.addObjectDimension, AsyncValueMap.set.
  cbn [DimensionsBuilder.objectDimensionIdToData]. rewrite lookup_singleton_eq. cbn [mbind result_bind].
  split; [done|]. exists o, c. rewrite insert_singleton_eq. split; simpl.
  - unfold AssignmentBuilder.build, AssignmentBuilder.getObjects, AssignmentBuilder.getContainers. rewrite Eo. cbn [mbind result_bind].
    by rewrite Ec.
  - done.
  - done.
  - pose proof (DimensionsBuilder.makeObjectDimensionId_inv (OD := ObjectDimension.t) (SD := ScopeDimension.t) DimensionsBuilder.empty
      (objectTypeName b +:+ "_count") DimensionsBuilder.dimensions_empty_inv ltac:(done)) as [[I1 I2 I3 I4] _].
    simpl in *. split; simpl; [done|exact I2| |done]. intros id [p [<- _]%lookup_singleton_Some]. lia.
  - done.
  - by exists 0, s.
  - done.
Qed.
(** *** From the names of objects and containers to a universe *)
Definition fresh (precision : PrecisionTolerances) (objectTypeName containerTypeName : string) : t :=
  setTypeNames (empty precision) objectTypeName containerTypeName.

Lemma complete_empty `{Countable K} {V} : complete (∅ : gmap K (option V)).
Proof. intros k. by rewrite lookup_empty. Qed.

Lemma registered_empty {V} : registered (Registry.empty (V := V)).
Proof. split; [apply Registry.registry_empty_inv|done|apply complete_empty]. Qed.

Lemma completed_empty {P} (emptyP : P) insertP memberIds : completed emptyP insertP memberIds [] NestedBuilder.empty.
Proof. by split. Qed.

Lemma initialized_ready precision on cn b' l o c : initialized (fresh precision on cn) b' l o c →
  Z.of_nat (length (AssignmentBuilder.pairs l)) < 2 ^ 31 →
  ready b' l o c (trivialEvents cn (AssignmentBuilder.containerNameToId c)) [] ∧ added_ok b' (AssignmentBuilder.numObjects o) ∧
  DimensionsBuilder.scopeDimensionIdToData (dimensionsBuilder b') = ∅.
Proof.
  intros [Ia Is Isc Id Ic (id & s & En & Eo & Es & Hv & Hwf) Er] Hl. destruct (pairs_length l) as [Hl1 Hl2].
  pose proof (AssignmentBuilder.asg_count _ _ _ Is) as Hn. split; [|split; [|done]].
  - split; try done; try lia.
    + rewrite Isc. destruct (trivialEvents_completed cn _ _ (AssignmentBuilder.asg_containers _ _ _ Is) ltac:(lia)) as [C _]. exact C.
    + rewrite Er. apply completed_empty.
    + rewrite Eo. intros k [_ ?]%lookup_singleton_Some. done.
    + rewrite Es. apply complete_empty.
    + rewrite Er. apply registered_empty.
    + rewrite Er. apply registered_empty.
    + rewrite Er. apply registered_empty.
  - split; try (by rewrite Er).
    + rewrite Eo. intros k d [_ [= <-]]%lookup_singleton_Some names groups ps _. apply Forall_singleton. exact Hwf.
    + rewrite Es. intros k d Hx. by rewrite lookup_empty in Hx.
Qed.

Lemma universe_from_assignment precision on cn l shuffled : shuffled ≡ₚ AssignmentBuilder.pairs l →
  Z.of_nat (length (AssignmentBuilder.pairs l)) < 2 ^ 31 →
  match setInitialAssignment (fresh precision on cn) l shuffled with
  | (b', Ok _) => AssignmentBuilder.proper l ∧ ∃ o c u, AssignmentBuilder.assigned l o c ∧ build b' [] = Some (Ok u) ∧
      Universe.wf u ∧ IdStore.objectIds (Universe.idStore u) = AssignmentBuilder.objectNameToId o ∧
      IdStore.containerIds (Universe.idStore u) = AssignmentBuilder.containerNameToId c ∧
      Containers.initialAssignment (Universe.containers u) = AssignmentBuilder.containerIdToObjectIds c ∧
      ∃ scope, IdStore.scopeIds (Universe.idStore u) = {[cn := 0]} ∧ Scopes.getScope (Universe.scopes u) 0 = Ok scope ∧
        ∀ name cid, AssignmentBuilder.containerNameToId c !! name = Some cid →
          ∃ id, IdStore.getScopeItemId (Universe.idStore u) 0 name = Ok id ∧ Scope.getScopeItemId scope cid = Some id
  | (_, Throw _) => ¬ AssignmentBuilder.proper l
  end.
Proof.
  intros Hp Hl. pose proof (setInitialAssignment_spec (fresh precision on cn) l shuffled) as Hset.
  destruct (setInitialAssignment (fresh precision on cn) l shuffled) as [b' [[]|e]]; [|apply Hset; try done; lia].
  destruct Hset as (Hpr & o & c & I); [done..|lia|]. split; [done|].
  destruct (initialized_ready _ _ _ _ _ _ _ I Hl) as (R & A & Es). destruct (pairs_length l) as [Hl1 Hl2].
  destruct (trivial_scope cn _ _ (AssignmentBuilder.asg_containers _ _ _ (in_assigned _ _ _ _ _ I)) ltac:(lia))
    as (nested & its & ns & items & Eb & Ens & -> & Hx & Hitems).
  destruct (build_wf b' l o c _ _ [] R A) as (names & itemNames & its' & Eb' & Hu); [by rewrite Es, map_to_list_empty|].
  rewrite (in_scopes _ _ _ _ _ I) in Eb'. cbn [fresh setTypeNames containerTypeName] in Eb'. rewrite Eb in Eb'. injection Eb' as <- <- <-.
  destruct (build b' []) as [[u|e]|]; [|exfalso; apply (proj2 Hu)|done].
  2:{ intros k m [_ <-]%lookup_singleton_Some i1 i2 cs1 cs2 x H1 H2 C1 C2.
      destruct (Hitems i1 cs1 H1) as (x1 & c1 & E1 & N1 & ->), (Hitems i2 cs2 H2) as (x2 & c2 & E2 & N2 & ->).
      apply elem_of_singleton in C1, C2. subst c1 c2.
      assert (x1 = x2) as -> by (eapply dense_inj; [exact (AssignmentBuilder.asg_containers _ _ _ (in_assigned _ _ _ _ _ I))|done|done]). congruence. }
  destruct Hu as (Hwf & _ & Ho & Hc & Hcont & Hsn & Hsi & Hk & Hmade). exists o, c, u. split_and!; [apply I|done..|].
  destruct (proj2 (Hk 0)) as [scope Hscope]; [by rewrite lookup_singleton_eq; eexists|]. exists scope.
  split_and!; [done|by unfold Scopes.getScope; rewrite Hscope|]. intros name cid Hname.
  destruct (Hmade 0 scope Hscope) as (m & ds & [_ <-]%lookup_singleton_Some & Em). destruct (Scope.scope_index _ _ _ Em) as (_ & _ & Hidx).
  specialize (Hx name). rewrite Hname in Hx. destruct Hx as (id & Hid & Hitem). exists id. split.
  - unfold IdStore.getScopeItemId. rewrite Hsi, Ens. cbn [at_ mbind result_bind]. by rewrite Hid.
  - apply Hidx. exists {[cid]}. split; [done|set_solver].
Qed.
End builder.
Arguments t : clear implicits.
End AsyncUniverseBuilder.
