(* ===== verification/SearchTheorems.v ===== *)
(** * The search: main theorems

    Termination and safety of the local search, the transaction that applies a
    candidate, the verdict of an evaluation, the best single move, and the
    assignment that all of them work on; each with a run on the concrete
    instance. *)

From S2P Require Import Prelude Double Precision ObjectiveValue ChangeSet ObjectStore IndexedAssignment.
From S2P Require Import Assignment EntityAttributes Objective Problem Moves LocalSearch.
From S2P Require Import EquivalenceSets Bits Parallel SingleMove Example.

Import Example.

(** C1. For every sound configuration, the local search never throws, however many steps it
    takes, and leaves the assignment, its indexes and the expression values consistent
    when it ends.  If applied moves are validated ([validateAppliedMoves], off by
    default), it does end: some number of steps finishes, hard constraints that held
    still hold, and the objective is the same or strictly smaller.  A configuration is
    sound ([LocalSearch.sane]) if its move types return legal moves without throwing, the
    traversal gives containers of the problem, the threshold for another cycle, if set,
    has a value, custom equivalence sets can be made, and the goal has finite values. *)
Theorem search_terminates `{G : ExpressionGraph} `{HO : HashOrder} {A} `{EA : EntityAttributes A}
    `{SE : !SearchEnv A} `{LG : !LawfulGraph G} hash p0 ps s :
  LocalSearch.sane hash p0 ps → LocalSearch.inv_at p0 ps LocalSearch.Start s →
  (∀ fuel, ∃ r, LocalSearch.run hash fuel ps LocalSearch.Start s = Ok r ∧
     ∀ solved s', r = Some (solved, s') → LocalSearch.good p0 ps (LocalSearch.problem s')) ∧
  (Problem.validateAppliedMoves (LocalSearch.problem s) = true →
   ∃ fuel solved s', LocalSearch.run hash fuel ps LocalSearch.Start s = Ok (Some (solved, s')) ∧
     LocalSearch.good p0 ps (LocalSearch.problem s') ∧
     LocalSearch.advanced ps (LocalSearch.problem s) (LocalSearch.problem s')).
Proof.
  intros Hs Hi. split; [intros fuel; by apply LocalSearch.run_safe|by apply LocalSearch.run_total].
Qed.

Lemma search_terminates_witness :
  ∃ fuel solved s', LocalSearch.run hash fuel ps LocalSearch.Start s0 = Ok (Some (solved, s')) ∧
    LocalSearch.good p0 ps (LocalSearch.problem s') ∧
    LocalSearch.advanced ps (LocalSearch.problem s0) (LocalSearch.problem s').
Proof. apply (search_terminates hash p0 ps s0); [apply sane|apply initial|reflexivity]. Defined.

(** The search with single moves on several threads terminates from a
    consistent problem, whatever the schedule of the threads and the times read:
    no assumption on the move type is left. *)
Theorem single_move_search_terminates `{G : ExpressionGraph} `{HO : HashOrder} {A}
    `{EA : EntityAttributes A} `{SE : !SearchEnv A} `{LG : !LawfulGraph G} `{EG : !EvaluableGraph G}
    hash p ps env es f st g :
  SingleMoveType.usable p ps env f →
  LocalSearch.allowedMoves ps = [SingleMoveType.single hash env es] →
  (∀ it (q : Problem.t A) c, traversal_get it q = Some c → c ∈ LocalSearch.containers ps) →
  LocalSearch.minCycleObjectiveImprovement ps = None →
  (∀ r, LocalSearch.customEquivalenceSets ps = Some r → ∃ sets, r = Ok sets) →
  (∀ o, Assignment.is_dynamic (Problem.assignment p) o →
     es_at (LocalSearch.equivalenceSets ps) o = Ok (f o)) →
  Problem.wf p → Problem.within (LocalSearch.containers ps) p →
  Precision.positive_tol (Problem.precision p) → Problem.validateAppliedMoves p = true →
  ∃ fuel solved s', LocalSearch.run hash fuel ps LocalSearch.Start (LocalSearch.mk p st g) =
      Ok (Some (solved, s')) ∧
    Problem.wf (LocalSearch.problem s') ∧
    LocalSearch.advanced ps p (LocalSearch.problem s').
Proof.
  intros Hu Ha Ht Hm Hcu He Hw Hc Hp Hv.
  destruct (LocalSearch.run_total hash p ps LocalSearch.Start (LocalSearch.mk p st g))
    as (fuel & b & s' & E & Hg & Hadv); [| |done|].
  - split; [|done|by rewrite Hm|done|apply Hu]. rewrite Ha. constructor; [|constructor].
    by eapply SingleMoveType.single_sound.
  - split; [split; [done|done|by split|done]|]. by exists f.
  - exists fuel, b, s'. split; [done|]. split; [apply Hg|done].
Qed.

Lemma single_move_search_terminates_witness :
  ∃ fuel solved s', LocalSearch.run hash fuel ps LocalSearch.Start s0 = Ok (Some (solved, s')) ∧
    Problem.wf (LocalSearch.problem s') ∧ LocalSearch.advanced ps p0 (LocalSearch.problem s').
Proof.
  apply (single_move_search_terminates hash p0 ps single_env es id);
    [apply usable|reflexivity| |reflexivity|done|done|apply p0_wf| |reflexivity|reflexivity].
  - apply (LocalSearch.sane_traversal hash p0 ps sane).
  - apply (LocalSearch.good_within p0 ps _ (proj1 initial)).
Defined.

(** C3. Applying a candidate is a transaction.  If it is accepted, the objects are
    where the moves put them, no hard constraint is violated, no higher-priority
    objective exceeds its allowance and the objective is strictly better; if it is
    rejected, every object is back and every expression has its old value.  It
    never throws, and the problem stays consistent either way. *)
Theorem tryApply_transaction `{G : ExpressionGraph} `{HO : HashOrder} {A} `{EA : EntityAttributes A}
    `{LG : !LawfulGraph G} hash C ev (p : Problem.t A) r :
  Problem.wf p → Problem.legal hash p (MoveResult.moveSet_ r) → Problem.within C p →
  (∀ m, m ∈ MoveResult.moveSet_ r → dstContainer m ∈ C) →
  Problem.validateAppliedMoves p = true →
  MoveResult.oldValue_ r =
    LocalSearchObjective.getValue (Problem.graph p) (MovesEvaluator.minimizingGoal ev) →
  ∃ p' status, MovesEvaluator.tryApply hash ev p r = Ok (p', status) ∧
    Problem.wf p' ∧ Problem.within C p' ∧ Problem.same_config p p' ∧
    match status with
    | APPLIED =>
        Assignment.objectToContainer (Problem.assignment p') =
          place (MoveResult.moveSet_ r) (Assignment.objectToContainer (Problem.assignment p)) ∧
        MovesEvaluator.accepted ev p p' (MoveResult.oldValue_ r)
    | _ =>
        Assignment.objectToContainer (Problem.assignment p') =
          Assignment.objectToContainer (Problem.assignment p) ∧
        ∀ e, expr_value (Problem.graph p') e = expr_value (Problem.graph p) e
    end.
Proof.
  intros Hw Hl Hc Hd Hv Ho.
  destruct (MovesEvaluator.tryApply_result_spec hash C ev p r Hw Hl Hc Hd Ho)
    as (p' & status & E & Hw' & Hc' & Hcfg & Hp).
  exists p', status. do 4 (split; [done|]). destruct status; simpl in Hp.
  - split; [done|]. by eapply MovesEvaluator.tryApply_accepted.
  - split; [done|]. by apply LocalSearch.placement_values.
  - split; [done|]. by apply LocalSearch.placement_values.
  - split; [done|]. by apply LocalSearch.placement_values.
Qed.

(** A result computed for the start of the instance: object 0 to container 1. *)
Definition good_result : MoveResult.t :=
  MoveResult.makeValid [makeMove hash 0 0 1]
    (LocalSearchObjective.getValue (Problem.graph p0) (LocalSearchObjective.mk [0] false))
    LocalSearchObjectiveValue.empty None None 0.

Lemma good_result_legal : Problem.legal hash p0 (MoveResult.moveSet_ good_result).
Proof.
  split; [apply NoDup_singleton|by constructor|]. intros m ->%list_elem_of_singleton. reflexivity.
Qed.

Lemma tryApply_transaction_witness :
  ∃ p' status, MovesEvaluator.tryApply hash evaluator p0 good_result = Ok (p', status) ∧
    Problem.wf p' ∧ Problem.within {[0; 1]} p' ∧ Problem.same_config p0 p' ∧
    match status with
    | APPLIED =>
        Assignment.objectToContainer (Problem.assignment p') =
          place [makeMove hash 0 0 1] (Assignment.objectToContainer (Problem.assignment p0)) ∧
        MovesEvaluator.accepted evaluator p0 p' (MoveResult.oldValue_ good_result)
    | _ =>
        Assignment.objectToContainer (Problem.assignment p') =
          Assignment.objectToContainer (Problem.assignment p0) ∧
        ∀ e, expr_value (Problem.graph p') e = expr_value (Problem.graph p0) e
    end.
Proof.
  apply (tryApply_transaction hash {[0; 1]} evaluator p0 good_result);
    [apply p0_wf|apply good_result_legal| | |reflexivity|reflexivity].
  - apply (LocalSearch.good_within p0 ps _ (proj1 initial)).
  - intros m ->%list_elem_of_singleton. simpl. set_solver.
Defined.

(** C4. The verdict of an evaluation is exact: a result is valid exactly when, with
    the moves made, every hard constraint would evaluate to a value that is not
    positive and every higher-priority objective would stay within its allowance;
    the values of a valid result are the current value of the objective and its
    value after the moves. *)
Theorem evaluate_verdict `{G : ExpressionGraph} `{HO : HashOrder} {A} `{EA : EntityAttributes A}
    ev (p : Problem.t A) ms r :
  MovesEvaluator.evaluate ev p ms = Ok r →
  (MoveResult.valid_ r = true ↔
     (∀ e, e ∈ Problem.labeledHardConstraints p →
        MovesEvaluator.would p (MoveSet_getChangeSet ms) e
          (λ v, Precision.isStrictlyGtZero (Problem.precision p) v = false)) ∧
     (∀ k e, MovesEvaluator.goal (MovesEvaluator.doNotWorsenGoalConfig ev) !! k = Some e →
        MovesEvaluator.would p (MoveSet_getChangeSet ms) e
          (λ v, MovesEvaluator.exceedsAllowedWorsening (Problem.precision p)
             (MovesEvaluator.doNotWorsenGoalConfig ev) k
             (expr_value (Problem.graph p) e) v = false))) ∧
  (MoveResult.valid_ r = true → MovesEvaluator.sound_result ev p ms r).
Proof.
  intros E. pose proof (MovesEvaluator.evaluate_spec (λ _ _ _ : Z, 0) ev p ms r E) as H.
  destruct (MoveResult.valid_ r).
  - split; [|done]. split; [|done]. intros _. split; apply H.
  - split; [|done]. split; [done|]. intros [H1 H2].
    destruct H as [(e & He & v & Ev & Hv)|(k & e & He & v & Ev & Hv)].
    + destruct (H1 e He) as (v' & Ev' & Hv'). congruence.
    + destruct (H2 k e He) as (v' & Ev' & Hv'). congruence.
Qed.

Lemma evaluate_verdict_witness :
  ∃ r, MovesEvaluator.evaluate evaluator p0 [makeMove hash 0 0 1] = Ok r ∧
    MovesEvaluator.sound_result evaluator p0 [makeMove hash 0 0 1] r.
Proof.
  eexists. split; [vm_compute; reflexivity|].
  apply (evaluate_verdict evaluator p0 [makeMove hash 0 0 1]); vm_compute; reflexivity.
Defined.



(** C9. The hot container the selector returns next: of the containers the traversal
    still lists, those it passes over are to be skipped, and it stops at the first
    one that is not.  Without exploration that one is returned, and nothing iff
    the traversal is exhausted.  With exploration of containers that are not in the
    objective, if the containers to skip are containers of the problem and the
    assignment knows these, nothing is returned iff all containers are to be
    skipped (the traversal need not be exhausted then); otherwise it is the first
    of the traversal, or any other container once the traversal is exhausted. *)
Theorem hot_container_selection `{G : ExpressionGraph} `{HO : HashOrder} {A}
    `{SE : !SearchEnv A} ps (s : LocalSearch.t (A := A)) it :
  LocalSearch.containersIterator (LocalSearch.state s) = Some it →
  let p := LocalSearch.problem s in
  let skip := LocalSearch.skipContainers (LocalSearch.state s) in
  let known := dom (Assignment.containerToObjects (Problem.assignment p)) in
  ∃ o it' pre, LocalSearch.selector_next ps s =
      Ok (o, LocalSearch.set_iterator (Some it') (LocalSearch.randomSeed (LocalSearch.state s)) s) ∧
    LocalSearch.rest it p = pre ++ LocalSearch.rest it' p ∧ (∀ c, c ∈ pre → c ∈ skip) ∧
    (∀ c, o = Some c → c ∉ skip) ∧
    (LocalSearch.exploreMovesFromContainersNotInObjective ps = false →
       o = head (LocalSearch.rest it' p)) ∧
    (LocalSearch.exploreMovesFromContainersNotInObjective ps = true →
     known = LocalSearch.containers ps → skip ⊆ known →
       (o = None ↔ known ⊆ skip) ∧
       ∀ c, o = Some c → head (LocalSearch.rest it' p) = Some c ∨ LocalSearch.rest it' p = [] ∧ c ∈ known).
Proof.
  intros Hit p skip known.
  destruct (LocalSearch.selector_next_exact ps s it Hit) as (o & it' & pre & E & H1 & H2 & H3 & H4).
  fold p skip known in E, H1, H2, H3, H4. exists o, it', pre. do 4 (split; [done|]).
  destruct (LocalSearch.exploreMovesFromContainersNotInObjective ps); split; try done.
  intros _ Hk Hsub. split; [|intros c ->; apply H4].
  destruct o as [c|]; [split; [done|]|split; [intros _|done]].
  - intros Hall. destruct H4 as [[] _]. rewrite <- Hk. f_equal. set_solver.
  - destruct H4 as [H4|H4]; [|exact H4].
    rewrite (set_subseteq_size_eq skip known); [done|done|]. rewrite Hk. lia.
Qed.

(** Container 0 is to be skipped; the traversal lists 0 and 1. *)
Definition selecting : LocalSearch.t (SE := env) :=
  LocalSearch.set_skip {[0]} ∅ (LocalSearch.set_iterator (Some [false; true]) 0 s0).

Lemma hot_container_selection_witness :
  ∃ o it' pre, LocalSearch.selector_next ps selecting =
      Ok (o, LocalSearch.set_iterator (Some it') 0 selecting) ∧
    [0; 1] = pre ++ LocalSearch.rest it' p0 ∧ (∀ c, c ∈ pre → c ∈ ({[0]} : gset Z)) ∧
    (∀ c, o = Some c → c ∉ ({[0]} : gset Z)) ∧ o = head (LocalSearch.rest it' p0) ∧ o = Some 1.
Proof.
  destruct (hot_container_selection ps selecting [false; true] eq_refl)
    as (o & it' & pre & E & H1 & H2 & H3 & H4 & _).
  exists o, it', pre. split; [exact E|]. split; [exact H1|]. split; [exact H2|]. split; [exact H3|].
  split; [by apply H4|].
  assert (match LocalSearch.selector_next ps selecting with Ok (c, _) => c | Throw _ => None end = Some 1)
    as E' by (vm_compute; reflexivity).
  by rewrite E in E'.
Defined.




