(* ===== verification/DataTheorems.v ===== *)
(** * The data structures: main theorems

    The containers and the number types the search is built on, each against an
    abstract model: the aggregating tree against a finite map, the equivalence
    sets against the mappings they were merged from, the bit sets and the move
    filter against sets, the object stores against sets, the objective values
    against the lexicographic order. *)

From S2P Require Import Prelude Double Precision ObjectiveValue AccessOrderedSet ObjectStore.
From S2P Require Import ChangeSet IndexedAssignment Assignment EntityAttributes Objective Problem.
From S2P Require Import AssociativeMap.
From S2P Require Import EquivalenceSets Bits Parallel Example.

(** ** AssociativeMap *)

Inductive map_op (V : Type) := MUpdate (key : Z) (value : V) | MRemove (key : Z) | MClear.
Arguments MUpdate {V}.
Arguments MRemove {V}.
Arguments MClear {V}.

Section map_ops.
Context {V : Type} (operation : V → V → V).

Definition tree_op (t : AssociativeMap.tree V) (op : map_op V) : AssociativeMap.tree V :=
  match op with
  | MUpdate k v => AssociativeMap.update operation t k v
  | MRemove k => AssociativeMap.remove operation t k
  | MClear => AssociativeMap.clear
  end.

Definition tree_of (ops : list (map_op V)) : AssociativeMap.tree V :=
  foldl tree_op AssociativeMap.Leaf ops.

Definition model_op (m : gmap Z V) (op : map_op V) : gmap Z V :=
  match op with
  | MUpdate k v => <[k := v]> m
  | MRemove k => delete k m
  | MClear => ∅
  end.

Definition model_of (ops : list (map_op V)) : gmap Z V := foldl model_op ∅ ops.

Lemma leaf_inv : AssociativeMap.inv operation AssociativeMap.Leaf.
Proof. split; [done|done|constructor]. Qed.

Lemma tree_of_model ops :
  AssociativeMap.inv operation (tree_of ops) ∧ AssociativeMap.to_map (tree_of ops) = model_of ops.
Proof.
  unfold tree_of, model_of. induction ops as [|op ops IH] using rev_ind; [split; [apply leaf_inv|done]|].
  rewrite !foldl_app. cbn [foldl]. destruct IH as [Hi <-]. destruct op as [k v|k|]; cbn.
  - split; [by apply AssociativeMap.update_inv|].
    by eapply AssociativeMap.update_to_map.
  - split; [by apply AssociativeMap.remove_inv|].
    by eapply AssociativeMap.remove_to_map.
  - split; [apply leaf_inv|done].
Qed.
End map_ops.

(** C18. After any sequence of updates, removals and clears the AVL tree satisfies
    its invariant (balanced, sorted, every cached aggregate right), holds exactly
    the entries of the finite map changed by the same operations, and has a height
    logarithmic in their number. *)
Theorem associative_map_refines {V} (operation : V → V → V) (ops : list (map_op V)) :
  let t := tree_of operation ops in
  AssociativeMap.inv operation t ∧
  (∀ k, AssociativeMap.getValueIfExists t k = model_of ops !! k) ∧
  (2 ^ (AssociativeMap.height t / 2) ≤ S (size (model_of ops)))%nat.
Proof.
  destruct (tree_of_model operation ops) as [Hi <-]. cbn zeta. split; [done|]. split.
  - intros k. apply AssociativeMap.getValueIfExists_spec, Hi.
  - unfold AssociativeMap.to_map.
    rewrite size_list_to_map by (apply AssociativeMap.sorted_keys_NoDup, Hi).
    apply AssociativeMap.avl_height, Hi.
Qed.

(** The aggregate of a finite map. *)
Definition fold_values {V} (operation : V → V → V) (neutral : V) (m : gmap Z V) : V :=
  map_fold (λ _ v acc, operation v acc) neutral m.

Section fold_values.
Context {V : Type} (operation : V → V → V) (neutral : V).
Context `{!Comm (=) operation, !Assoc (=) operation}.

Lemma fold_values_total l :
  NoDup l.*1 →
  fold_values operation neutral (list_to_map l) = AssociativeMap.total operation neutral l.
Proof.
  intros Hl. unfold fold_values, AssociativeMap.total. rewrite map_fold_foldr.
  rewrite foldr_fmap.
  rewrite (foldr_ext _ (λ e acc, operation e.2 acc) neutral neutral (map_to_list _)
    (map_to_list (list_to_map l))) by first [done|by intros [? ?] ?].
  apply (foldr_permutation (=) (λ e acc, operation e.2 acc) neutral).
  - intros j1 [k1 v1] j2 [k2 v2] y _ _ _. simpl. by rewrite !(assoc operation), (comm operation v1).
  - by apply map_to_list_to_map.
Qed.

Lemma fold_values_filter (P : Z * V → Prop) `{∀ p, Decision (P p)} l :
  NoDup l.*1 →
  fold_values operation neutral (filter P (list_to_map l)) =
  AssociativeMap.total operation neutral (filter P l).
Proof.
  intros Hl. rewrite <- fold_values_total by (by apply NoDup_fmap_fst_filter). f_equal.
  apply map_eq. intros k. apply option_eq. intros v.
  rewrite map_lookup_filter_Some, <- !elem_of_list_to_map, list_elem_of_filter
    by first [done|by apply NoDup_fmap_fst_filter]. tauto.
Qed.
End fold_values.

(** C19. For a commutative and associative operation with a neutral element the
    queries return the aggregate of all the values, and of the values below a key
    (strictly or not), whatever the history of the tree. *)
Theorem associative_map_query {V} (operation : V → V → V) (neutral : V)
    `{!Comm (=) operation, !Assoc (=) operation, !LeftId (=) neutral operation} ops key :
  let t := tree_of operation ops in
  let m := model_of ops in
  AssociativeMap.query neutral t = fold_values operation neutral m ∧
  AssociativeMap.query_lt operation neutral t key =
    fold_values operation neutral (filter (λ p, p.1 < key) m) ∧
  AssociativeMap.query_le operation neutral t key =
    fold_values operation neutral (filter (λ p, p.1 ≤ key) m).
Proof.
  destruct (tree_of_model operation ops) as [[Ha Hr Hs] <-]. cbn zeta.
  pose proof (AssociativeMap.sorted_keys_NoDup _ Hs) as Hn. unfold AssociativeMap.to_map.
  rewrite (fold_values_total operation neutral), !(fold_values_filter operation neutral) by done.
  split; [by apply AssociativeMap.query_total|].
  split; by apply (AssociativeMap.less_than_total operation neutral).
Qed.

Lemma associative_map_query_witness :
  let t := tree_of Z.add [MUpdate 1 10; MUpdate 2 20; MUpdate 3 30; MRemove 2; MUpdate 1 11] in
  AssociativeMap.query 0 t = 41 ∧ AssociativeMap.query_lt Z.add 0 t 3 = 11 ∧
  AssociativeMap.query_le Z.add 0 t 3 = 41.
Proof.
  exact (associative_map_query Z.add 0
    [MUpdate 1 10; MUpdate 2 20; MUpdate 3 30; MRemove 2; MUpdate 1 11] 3).
Defined.

(** Bit-for-bit stability of incremental updates: after any updates of keys
    that are present, the tree with all its cached aggregates depends only on the
    final values, even for floating-point addition, which is not associative. *)
Theorem associative_map_stable {V} (operation : V → V → V) t us1 us2 :
  AssociativeMap.inv operation t →
  (∀ k, k ∈ us1.*1 → is_Some (AssociativeMap.to_map t !! k)) →
  (∀ k, k ∈ us2.*1 → is_Some (AssociativeMap.to_map t !! k)) →
  AssociativeMap.to_map (AssociativeMap.updates operation t us1) =
    AssociativeMap.to_map (AssociativeMap.updates operation t us2) →
  AssociativeMap.updates operation t us1 = AssociativeMap.updates operation t us2.
Proof. apply AssociativeMap.updates_determined. Qed.

(** A tree of doubles with three terms. *)
Definition three_terms : AssociativeMap.tree double :=
  tree_of dadd [MUpdate 1 d1; MUpdate 2 d2; MUpdate 3 d1e_10].

Lemma associative_map_stable_witness :
  AssociativeMap.updates dadd three_terms [(1, d2); (3, d1); (1, d1e_10)] =
  AssociativeMap.updates dadd three_terms [(3, d1); (1, d1e_10)].
Proof.
  apply associative_map_stable;
    [apply (tree_of_model dadd)|by intros k Hk; apply (bool_decide_unpack _); revert k Hk;
      apply Forall_forall; repeat constructor..|reflexivity].
Defined.

(** The sum of a [SumMap] depends on the order in which the keys were inserted:
    the same four terms give two different doubles. *)
Theorem sum_map_depends_on_insertion_order :
  let big := dofZ (2 ^ 53) in
  let ops := [MUpdate 1 d1; MUpdate 2 d1; MUpdate 3 big; MUpdate 4 d1] in
  model_of ops = model_of (reverse ops) ∧
  AssociativeMap.query d0 (tree_of dadd ops) = dofZ (2 ^ 53 + 2) ∧
  AssociativeMap.query d0 (tree_of dadd (reverse ops)) = dofZ (2 ^ 53 + 4).
Proof. split; [vm_compute; reflexivity|]. split; vm_compute; reflexivity. Qed.

(** ** EquivalenceSets and ObjectDeduper *)

(** C17. The equivalence sets are exactly the classes of objects no mapping tells
    apart: built for [n] objects, merged with any list of mappings and finalized,
    nothing is thrown, every object is in one set, and two objects are in the same
    set if and only if every mapping gives both the same value (or neither one). *)
Theorem equivalence_sets_exact {V} `{EqDecision V} n key (mappings : list (list (Z * V))) objectIds :
  Forall (λ mapping, NoDup mapping.*1 ∧ Forall (λ o, 0 ≤ o < Z.of_nat n) mapping.*1) mappings →
  NoDup objectIds → (∀ o, o ∈ objectIds ↔ 0 ≤ o < Z.of_nat n) →
  ∃ e, (e0 ← foldM EquivalenceSets.mappingMerge (EquivalenceSets.make n key) mappings;
        EquivalenceSets.finalize e0 objectIds) = Ok e ∧
    EquivalenceSets.inv e ∧
    ∀ o1 o2, 0 ≤ o1 < Z.of_nat n → 0 ≤ o2 < Z.of_nat n →
      ∃ s1 s2, EquivalenceSets.at_object e o1 = Ok s1 ∧ EquivalenceSets.at_object e o2 = Ok s2 ∧
        (s1 = s2 ↔ ∀ mapping, mapping ∈ mappings →
           (list_to_map mapping : gmap Z V) !! o1 = (list_to_map mapping : gmap Z V) !! o2).
Proof.
  intros Hm Hnd Hids.
  assert (∀ e0, EquivalenceSets.inv e0 → EquivalenceSets.clean e0 →
    length (EquivalenceSets.objectIdToSetId e0) = n →
    ∃ e, foldM EquivalenceSets.mappingMerge e0 mappings = Ok e ∧ EquivalenceSets.inv e ∧
      length (EquivalenceSets.objectIdToSetId e) = n ∧
      ∀ o1 o2, 0 ≤ o1 < Z.of_nat n → 0 ≤ o2 < Z.of_nat n →
        EquivalenceSets.cls (EquivalenceSets.objectIdToSetId e) o1 =
          EquivalenceSets.cls (EquivalenceSets.objectIdToSetId e) o2 ↔
        EquivalenceSets.cls (EquivalenceSets.objectIdToSetId e0) o1 =
          EquivalenceSets.cls (EquivalenceSets.objectIdToSetId e0) o2 ∧
        ∀ mapping, mapping ∈ mappings →
          (list_to_map mapping : gmap Z V) !! o1 = (list_to_map mapping : gmap Z V) !! o2) as Hmerge.
  { induction Hm as [|mapping mappings [H1 H2] Hm IH]; intros e0 I0 C0 L0.
    - exists e0. do 3 (split; [done|]). intros o1 o2 _ _. split; [|by intros [? _]].
      intros ?. split; [done|]. by intros ? ?%elem_of_nil.
    - destruct (EquivalenceSets.mappingMerge_spec e0 mapping I0 C0 H1)
        as (e1 & E1 & I1 & C1 & _ & L1 & S1); [by unfold EquivalenceSets.is_object; rewrite L0|].
      destruct (IH e1 I1 C1) as (e & E & I & L & S); [congruence|].
      exists e. cbn [foldM]. rewrite E1. split; [done|]. split; [done|]. split; [done|].
      intros o1 o2 Ho1 Ho2. rewrite S, S1 by (unfold EquivalenceSets.is_object; lia).
      split.
      + intros [[? ?] Hrest]. split; [done|]. by intros m [-> |?]%elem_of_cons; [|apply Hrest].
      + intros [? Hall]. split; [split; [done|]|intros m ?]; apply Hall;
          [apply list_elem_of_here|by apply list_elem_of_further]. }
  destruct (EquivalenceSets.make_partition n key) as (I0 & C0 & S0).
  destruct (Hmerge (EquivalenceSets.make n key) I0 C0) as (e & E & I & L & S);
    [apply length_replicate|].
  destruct (EquivalenceSets.finalize_spec e objectIds I Hnd) as (e' & E' & I' & _ & L' & S' & A').
  { intros o. unfold EquivalenceSets.is_object. by rewrite Hids, L. }
  exists e'. rewrite E. split; [exact E'|]. split; [done|]. intros o1 o2 Ho1 Ho2.
  assert (∀ o, 0 ≤ o < Z.of_nat n →
    EquivalenceSets.is_object (EquivalenceSets.objectIdToSetId e) o) as Hob
    by (unfold EquivalenceSets.is_object; intros; lia).
  do 2 eexists. split; [by apply A', Hob|]. split; [by apply A', Hob|].
  rewrite S', S by auto. split; [by intros [_ ?]|]. intros ?. split; [apply S0|done].
Qed.

Lemma equivalence_sets_exact_witness :
  ∃ e, (e0 ← foldM EquivalenceSets.mappingMerge (EquivalenceSets.make 3 "default")
          [[(0, 7); (1, 7)]; [(2, 5); (0, 1); (1, 1)]];
        EquivalenceSets.finalize e0 [0; 1; 2]) = Ok e ∧ EquivalenceSets.inv e.
Proof.
  destruct (equivalence_sets_exact 3 "default" [[(0, 7); (1, 7)]; [(2, 5); (0, 1); (1, 1)]]
    [0; 1; 2]) as (e & E & I & _).
  - by apply (bool_decide_unpack _); vm_compute.
  - by apply (bool_decide_unpack _); vm_compute.
  - intros o. rewrite !elem_of_cons, elem_of_nil. lia.
  - exists e. split; [exact E|exact I].
Defined.

(** The deduplicating iterator yields one object of every equivalence class of
    the range, and no object twice: iteration ends, its objects are among those of
    the range, their classes are distinct, and every object of the range has its
    class represented. *)
Theorem deduper_one_per_class (es_at : Z → result Z) (f : Z → Z) l :
  (∀ o, o ∈ l → es_at o = Ok (f o)) →
  ∃ os, ObjectDeduper.objects es_at l = Ok os ∧ os ⊆+ l ∧ NoDup (f <$> os) ∧
    ∀ o, o ∈ l → ∃ o', o' ∈ os ∧ f o' = f o.
Proof. apply ObjectDeduper.objects_spec. Qed.

Lemma deduper_one_per_class_witness :
  ∃ os, ObjectDeduper.objects (λ o, Ok (o mod 2)) [5; 4; 3; 2] = Ok os ∧ os ⊆+ [5; 4; 3; 2] ∧
    NoDup ((λ o, o mod 2) <$> os) ∧
    ∀ o, o ∈ [5; 4; 3; 2] → ∃ o', o' ∈ os ∧ o' mod 2 = o mod 2.
Proof. by apply (deduper_one_per_class (λ o, Ok (o mod 2)) (λ o, o mod 2)). Defined.

(** ** DynamicBitSet and InvalidMoveFilter *)

(** A bit set refines a set of indexes: after setting any in-range indexes of a
    fresh set, [isSet] answers membership, [forEachSetBit] visits exactly the
    members in ascending order, [any] tells whether there is one, and every access
    out of range fails the safety check. *)
Theorem bitset_refines_set n idxs :
  0 ≤ n → Forall (λ i, 0 ≤ i < n) idxs →
  ∃ s, foldM DynamicBitSet.atomicSet (DynamicBitSet.make n) idxs = Ok s ∧
    (∀ i, 0 ≤ i < n → DynamicBitSet.isSet s i = Ok (bool_decide (i ∈ idxs))) ∧
    (∀ i, ¬ 0 ≤ i < n →
       DynamicBitSet.isSet s i = Throw (safe_check_failed "bit index out of range")) ∧
    DynamicBitSet.forEachSetBit s = filter (.∈ idxs) (seqZ 0 n) ∧
    (DynamicBitSet.any s = true ↔ idxs ≠ []).
Proof.
  intros Hn His. destruct (DynamicBitSet.make_bits n Hn) as (W0 & N0 & B0).
  destruct (InvalidMoveFilter.atomicSets_spec idxs (DynamicBitSet.make n) W0) as (s & E & W & N & B);
    [by rewrite N0|].
  rewrite N0 in N.
  assert (∀ i, 0 ≤ i → DynamicBitSet.bit s i = true ↔ i ∈ idxs) as Hb.
  { intros i Hi. rewrite B, B0 by done. split; [by intros [?|?]|by right]. }
  exists s. split; [done|]. split; [|split; [|split]].
  - intros i Hi. rewrite DynamicBitSet.isSet_spec by (by rewrite ?N). f_equal.
    apply eq_true_iff_eq. rewrite bool_decide_eq_true. apply Hb. lia.
  - intros i Hi. unfold DynamicBitSet.isSet.
    by rewrite DynamicBitSet.block_of_Throw by (by rewrite N).
  - rewrite DynamicBitSet.forEachSetBit_spec, N by done. apply filter_ext_in.
    intros i Hi%elem_of_seqZ. apply Hb. lia.
  - rewrite DynamicBitSet.any_spec, N by done. split.
    + intros (i & Hi & Hbit). apply Hb in Hbit; [|lia]. by intros ->; apply elem_of_nil in Hbit.
    + intros Hne. destruct idxs as [|i idxs]; [done|]. exists i.
      pose proof (Forall_inv His) as Hi. simpl in Hi. split; [done|]. apply Hb; [lia|apply list_elem_of_here].
Qed.

Lemma bitset_refines_set_witness :
  ∃ s, foldM DynamicBitSet.atomicSet (DynamicBitSet.make 130) [129; 3; 64; 3] = Ok s ∧
    DynamicBitSet.forEachSetBit s = [3; 64; 129].
Proof.
  destruct (bitset_refines_set 130 [129; 3; 64; 3]) as (s & E & _ & _ & F & _);
    [lia|by apply (bool_decide_unpack _); vm_compute|].
  exists s. split; [exact E|]. rewrite F. vm_compute. reflexivity.
Defined.

(** C21. Concurrent marking loses nothing: in every interleaving of the loads and the
    [fetch_or]s of any number of [atomicSet] calls, a call that is left can go on,
    and when all have returned the bits are the initial ones and the targets of the
    calls. *)
Theorem concurrent_marking s calls s' calls' :
  DynamicBitSet.callable (s, calls) →
  rtc DynamicBitSet.atomic_step (s, calls) (s', calls') →
  (calls' ≠ [] → ∃ st, DynamicBitSet.atomic_step (s', calls') st) ∧
  (calls' = [] → ∀ j, 0 ≤ j → DynamicBitSet.bit s' j = true ↔
     DynamicBitSet.bit s j = true ∨ j ∈ DynamicBitSet.target <$> calls).
Proof.
  intros Hc Hs. split.
  - intros Hne. destruct (DynamicBitSet.atomic_steps_inv _ _ Hs Hc) as ([Hw Hf] & _ & _).
    destruct calls' as [|[i|i] rest]; [done| |]; apply Forall_inv in Hf; simpl in Hw, Hf.
    + pose proof (DynamicBitSet.isSet_spec s' i Hw Hf) as E.
      destruct (DynamicBitSet.bit s' i); eexists;
        [by apply (DynamicBitSet.step_load_set _ [])|by apply (DynamicBitSet.step_load_unset _ [])].
    + destruct (DynamicBitSet.fetch_or_spec s' i Hw Hf) as (s2 & E & _).
      eexists. by apply (DynamicBitSet.step_fetch_or s' s2 [] rest i).
  - intros ->. by apply DynamicBitSet.atomic_marking.
Qed.

(** Two threads mark the bits 3 and 5; the second finds its load before the first
    writes. *)
Lemma concurrent_marking_witness :
  let s2 := DynamicBitSet.mk [8] 8 in
  let s3 := DynamicBitSet.mk [40] 8 in
  DynamicBitSet.bit s3 3 = true ∧ DynamicBitSet.bit s3 5 = true ∧ DynamicBitSet.bit s3 4 ≠ true.
Proof.
  intros s2 s3.
  assert (∀ j, 0 ≤ j → DynamicBitSet.bit s3 j = true ↔
    DynamicBitSet.bit (DynamicBitSet.make 8) j = true ∨
    j ∈ DynamicBitSet.target <$> [DynamicBitSet.Pending 3; DynamicBitSet.Pending 5]) as H.
  { apply (concurrent_marking (DynamicBitSet.make 8)
      [DynamicBitSet.Pending 3; DynamicBitSet.Pending 5] s3 []); [| |done].
    - split; [by apply DynamicBitSet.make_bits|by apply (bool_decide_unpack _); vm_compute].
    - eapply rtc_l; [by apply (DynamicBitSet.step_load_unset _ [])|].
      eapply rtc_l; [by apply (DynamicBitSet.step_load_unset _ [DynamicBitSet.Loaded 3] [])|].
      eapply rtc_l; [by apply (DynamicBitSet.step_fetch_or _ s2 [])|].
      eapply rtc_l; [by apply (DynamicBitSet.step_fetch_or _ s3 [])|]. apply rtc_refl. }
  split; [|split]; rewrite H by lia.
  - right. vm_compute. left.
  - right. vm_compute. right. left.
  - intros [Hb|Hb]; [by vm_compute in Hb|]. vm_compute in Hb.
    apply elem_of_cons in Hb as [Hb|Hb]; [done|]. by apply list_elem_of_singleton in Hb.
Defined.

(** A sequence of [markInvalid] calls. *)
Definition mark_all (f : InvalidMoveFilter.t) (marks : list (list Z * Z))
    : result InvalidMoveFilter.t :=
  foldM (λ f '(os, c), InvalidMoveFilter.markInvalid f os c) f marks.

(** The move filter answers exactly what was marked: on a fresh filter and after
    any sequence of in-range [markInvalid] calls nothing is thrown, and a move is
    reported invalid if and only if some call marked that object for that container. *)
Theorem move_filter_exact nO nC marks :
  0 ≤ nO → 0 ≤ nC →
  Forall (λ '(os, c), 0 ≤ c < nC ∧ Forall (λ o, 0 ≤ o < nO) os) marks →
  ∃ f, mark_all (InvalidMoveFilter.make nO nC) marks = Ok f ∧
    ∀ o c, 0 ≤ o < nO → 0 ≤ c < nC →
      ∃ b, InvalidMoveFilter.isMoveInvalid (Some f) o c = Ok b ∧
        (b = true ↔ ∃ os, (os, c) ∈ marks ∧ o ∈ os).
Proof.
  intros HO HC Hm.
  assert (∀ f, InvalidMoveFilter.inv f → InvalidMoveFilter.numObjects f = nO →
    Z.of_nat (length (InvalidMoveFilter.containerToInvalidObjects f)) = nC →
    ∃ f', mark_all f marks = Ok f' ∧ InvalidMoveFilter.inv f' ∧
      InvalidMoveFilter.numObjects f' = nO ∧
      Z.of_nat (length (InvalidMoveFilter.containerToInvalidObjects f')) = nC ∧
      ∀ o c, 0 ≤ o → 0 ≤ c → InvalidMoveFilter.marked f' o c ↔
        InvalidMoveFilter.marked f o c ∨ ∃ os, (os, c) ∈ marks ∧ o ∈ os) as Hall.
  { induction Hm as [|[os c] marks [Hc Hos] Hm IH]; intros f If Nf Lf.
    - exists f. do 4 (split; [done|]). intros o c _ _. split; [by left|].
      intros [?|(? & []%elem_of_nil & _)]; done.
    - destruct (InvalidMoveFilter.markInvalid_spec f os c If) as (f1 & E1 & I1 & N1 & L1 & M1).
      { eapply Forall_impl; [exact Hos|]. simpl. unfold InvalidMoveFilter.in_range. lia. }
      destruct (IH f1 I1) as (f2 & E2 & I2 & N2 & L2 & M2); [congruence|congruence|].
      exists f2. unfold mark_all in *. cbn [foldM]. rewrite E1. do 4 (split; [done|]).
      intros o c' Ho Hc'. rewrite M2, M1 by done. split.
      + intros [[?|[-> ?]]|(os' & ? & ?)]; [by left|right; exists os|right; exists os'];
          (split; [|done]); [apply list_elem_of_here|by apply list_elem_of_further].
      + intros [?|(os' & [[= -> ->]|?]%elem_of_cons & ?)]; [by left; left|by left; right|].
        right. by exists os'. }
  destruct (InvalidMoveFilter.filter_make_inv nO nC HO HC) as (I0 & N0 & L0 & M0).
  destruct (Hall _ I0 N0 L0) as (f & E & If & Nf & Lf & Mf).
  exists f. split; [done|]. intros o c Ho Hc.
  destruct (InvalidMoveFilter.isMarkedInvalid_spec f o c If) as (b & Eb & Hb).
  { unfold InvalidMoveFilter.in_range. lia. }
  exists b. split; [done|]. rewrite Hb, Mf by lia. split; [|by right].
  by intros [[]%M0|?].
Qed.

Lemma move_filter_exact_witness :
  ∃ f, mark_all (InvalidMoveFilter.make 3 2) [([0; 2], 1); ([2], 0)] = Ok f ∧
    InvalidMoveFilter.isMoveInvalid (Some f) 2 0 = Ok true.
Proof.
  destruct (move_filter_exact 3 2 [([0; 2], 1); ([2], 0)]) as (f & E & H); [lia|lia| |].
  { repeat constructor; lia. }
  exists f. split; [exact E|]. destruct (H 2 0) as (b & Eb & Hb); [lia|lia|].
  rewrite Eb. f_equal. apply Hb. exists [2]. split; [right; left|left].
Defined.

(** Merging the filter of another thread is the union of the two when the
    dimensions agree; a filter with nothing marked is merged without effect, and any
    other with different dimensions is refused. *)
Theorem move_filter_merge f other :
  InvalidMoveFilter.inv f → InvalidMoveFilter.inv other →
  let agree := InvalidMoveFilter.numObjects other = InvalidMoveFilter.numObjects f ∧
    length (InvalidMoveFilter.containerToInvalidObjects other) =
    length (InvalidMoveFilter.containerToInvalidObjects f) in
  (agree → ∃ f', InvalidMoveFilter.mergeFrom f other = Ok f' ∧ InvalidMoveFilter.inv f' ∧
     ∀ o c, InvalidMoveFilter.marked f' o c ↔
       InvalidMoveFilter.marked f o c ∨ InvalidMoveFilter.marked other o c) ∧
  (InvalidMoveFilter.isEmpty other = true →
     InvalidMoveFilter.mergeFrom f other = Ok f ∧ ∀ o c, ¬ InvalidMoveFilter.marked other o c) ∧
  (InvalidMoveFilter.isEmpty other = false → ¬ agree →
     InvalidMoveFilter.mergeFrom f other =
       Throw (invalid_argument "InvalidMoveFilter::mergeFrom dimension mismatch")).
Proof.
  intros Hf Ho agree. split; [|split].
  - intros [? ?]. by apply InvalidMoveFilter.filter_mergeFrom_spec.
  - intros He. unfold InvalidMoveFilter.mergeFrom. rewrite He. split; [done|].
    intros o c (r & Hr & _). by apply (InvalidMoveFilter.inv_empty other Ho He _ _ Hr).
  - intros He Hd. unfold InvalidMoveFilter.mergeFrom. rewrite He.
    destruct (_ =? _)%nat eqn:E1; [|done]. destruct (_ =? _) eqn:E2; [|done].
    destruct Hd. by apply Nat.eqb_eq in E1; apply Z.eqb_eq in E2.
Qed.

Lemma move_filter_merge_witness :
  ∃ f', InvalidMoveFilter.mergeFrom (InvalidMoveFilter.make 2 2) (InvalidMoveFilter.make 2 2) = Ok f' ∧
    InvalidMoveFilter.inv f'.
Proof.
  destruct (move_filter_merge _ _ Example.filter_ok Example.filter_ok) as [H _].
  destruct H as (f' & E & I & _); [by split|]. exists f'. split; [exact E|exact I].
Defined.

(** ** Batched parallel evaluation *)

(** The parallel map-reduce over all pairs computes the serial result: for a
    commutative and associative accumulation with the initial result as its neutral
    element, every number of threads and every order in which the batches finish
    give the fold over all the pairs. *)
Theorem parallel_equals_serial {A B R} workFunc accumulateFunc (initResult : R)
    (work : A → B → R) (op : R → R → R)
    `{!Comm (=) op, !Assoc (=) op, !LeftId (=) initResult op} numThreads order vec1 vec2 :
  (∀ a b, workFunc a b = Ok (work a b)) → (∀ x y, accumulateFunc x y = Ok (op x y)) →
  numThreads ≠ Some 0%nat → (∀ n, order n ≡ₚ seq 0 n) →
  CoroUtils.parallelMapReduceAllPairs workFunc accumulateFunc initResult numThreads order vec1 vec2 =
  Ok (foldr op initResult (a ← vec1; work a <$> vec2)).
Proof.
  intros Hw Ha Hn Ho. rewrite (CoroUtils.parallel_reduce _ _ _ work op) by done. f_equal.
  unfold CoroUtils.reduce, CoroUtils.all_pairs. clear.
  induction vec1 as [|a vec1 IH]; [done|]. rewrite !bind_cons, !foldr_app, IH.
  generalize (foldr op initResult (a ← vec1; work a <$> vec2)) as z. clear IH. intros z.
  induction vec2 as [|b vec2 IH2]; [done|]. cbn. f_equal. exact IH2.
Qed.

Lemma parallel_equals_serial_witness :
  CoroUtils.parallelMapReduceAllPairs (λ a b, Ok (a * b)) (λ x y, Ok (x + y)) 0 (Some 2%nat)
    (λ n, reverse (seq 0 n)) [1; 2; 3] [10; 20] = Ok 180.
Proof.
  apply (parallel_equals_serial (λ a b, Ok (a * b)) (λ x y, Ok (x + y)) 0 Z.mul Z.add (Some 2%nat)
    (λ n, reverse (seq 0 n)) [1; 2; 3] [10; 20]); [done|done|done|].
  intros n. apply reverse_Permutation.
Defined.

(** ** Objects of a container *)

Inductive store_op := SInsert (o : Z) | SErase (o : Z).

Definition store_step (s : ObjectStore.t) (op : store_op) : ObjectStore.t :=
  match op with SInsert o => ObjectStore.insert s o | SErase o => ObjectStore.erase s o end.

Definition set_step (s : gset Z) (op : store_op) : gset Z :=
  match op with SInsert o => {[o]} ∪ s | SErase o => s ∖ {[o]} end.

Definition op_object (op : store_op) : Z := match op with SInsert o | SErase o => o end.

(** C32. Every kind of object store the factory can build (a hash set in any order or sorted
    by score, resuming where the last iteration stopped or not) refines a set: after any
    insertions and erasures, of objects that have a score if the store sorts by it,
    iteration lists every member once, [contains] decides membership and [size] is the
    cardinality. *)
Theorem object_store_refines_set f ops :
  Forall (λ op, ObjectStore.factory_dom f (op_object op)) ops →
  let s := foldl store_step (ObjectStore.get f) ops in
  let m := foldl set_step ∅ ops in
  NoDup (ObjectStore.iter s) ∧ (∀ o, o ∈ ObjectStore.iter s ↔ o ∈ m) ∧
  (∀ o, ObjectStore.factory_dom f o → ObjectStore.contains s o = bool_decide (o ∈ m)) ∧
  ObjectStore.size s = size m.
Proof.
  intros Hops s m. destruct (ObjectStore.get_spec f) as (I0 & E0 & D0).
  assert (ObjectStore.inv s ∧ (∀ o, ObjectStore.factory_dom f o → ObjectStore.dom_of s o) ∧
    ObjectStore.to_set s = m) as (Is & Ds & Es).
  { unfold s, m. assert (ObjectStore.to_set (ObjectStore.get f) = ∅) as H0
      by (unfold ObjectStore.to_set; by rewrite E0).
    assert (∀ o, ObjectStore.factory_dom f o → ObjectStore.dom_of (ObjectStore.get f) o) as H1
      by (intros o; apply D0).
    revert I0 H0 H1. generalize (ObjectStore.get f) as s0, (∅ : gset Z) as m0.
    clear E0 D0 s m. induction Hops as [|op ops Hop Hops IH]; intros s0 m0 I0 H0 H1; [done|].
    cbn [foldl]. destruct op as [o|o]; simpl in Hop.
    - destruct (ObjectStore.insert_spec s0 o I0) as (? & Hd & Ht); [by apply H1|].
      apply IH; [done|cbn; by rewrite Ht, H0|]. intros x Hx. by apply Hd, H1.
    - destruct (ObjectStore.erase_spec s0 o I0) as (? & Hd & Ht); [by apply H1|].
      apply IH; [done|cbn; by rewrite Ht, H0|]. intros x Hx. by apply Hd, H1. }
  split; [by apply ObjectStore.iter_NoDup|]. split; [|split].
  - intros o. rewrite <- Es. unfold ObjectStore.to_set. by rewrite elem_of_list_to_set.
  - intros o Ho. rewrite ObjectStore.store_contains_spec by auto. by rewrite Es.
  - rewrite ObjectStore.size_spec by done. by rewrite Es.
Qed.

Definition by_id : ObjectScores := mkScores (λ o, if o =? 2 then d2 else d1).

Lemma object_store_refines_set_witness :
  let s := foldl store_step (ObjectStore.get (ObjectStore.mkFactory (Some by_id) true (hash_set_order (H := canonical_order))))
             [SInsert 1; SInsert 2; SInsert 3; SErase 1] in
  NoDup (ObjectStore.iter s) ∧ ∀ o, o ∈ ObjectStore.iter s ↔ o ∈ ({[2; 3]} : gset Z).
Proof.
  destruct (object_store_refines_set (ObjectStore.mkFactory (Some by_id) true (hash_set_order (H := canonical_order)))
    [SInsert 1; SInsert 2; SInsert 3; SErase 1]) as (N & H & _).
  - repeat constructor; done.
  - intros s. split; [exact N|]. intros o. unfold s. rewrite H. cbn [foldl set_step]. set_solver.
Defined.

(** Iterating an access-ordered set resumes where the last iteration stopped:
    two iterations of [n1] and [n2] steps together visit the first [n1 + n2]
    elements of one tour around the set, no element twice. *)
Theorem iteration_resumes {T} `{EqDecision T} (s : AccessOrderedSetBase.t T) n1 n2 :
  AccessOrderedSetBase.inv s → (n1 + n2 ≤ AccessOrderedSetBase.size s)%nat →
  let first := AccessOrderedSetBase.iterate s n1 in
  let second := AccessOrderedSetBase.iterate first.2 n2 in
  first.1 ++ second.1 = take (n1 + n2) (AccessOrderedSetBase.rotation s) ∧
  AccessOrderedSetBase.rotation s ≡ₚ AccessOrderedSetBase.elementContainer s ∧
  NoDup (first.1 ++ second.1) ∧ AccessOrderedSetBase.inv second.2.
Proof.
  intros Hi Hn. cbn zeta. pose proof (access_order_resumes s n1 n2 Hi Hn) as H.
  destruct (AccessOrderedSetBase.iterate s n1) as [v1 s1]. cbn [fst snd].
  destruct (AccessOrderedSetBase.iterate s1 n2) as [v2 s2]. destruct H as (E & P & I). cbn [fst snd].
  split; [done|]. split; [done|]. split; [|done]. rewrite E.
  apply rotation_NoDup in Hi. rewrite <- (take_drop (n1 + n2)) in Hi.
  by apply NoDup_app in Hi as [? _].
Qed.

Lemma iteration_resumes_witness :
  let s := AccessOrderedSetBase.mk [1; 2; 3; 4] (Some 3) in
  (AccessOrderedSetBase.iterate s 1).1 ++
    (AccessOrderedSetBase.iterate (AccessOrderedSetBase.iterate s 1).2 2).1 = [3; 4; 1].
Proof.
  destruct (iteration_resumes (AccessOrderedSetBase.mk [1; 2; 3; 4] (Some 3)) 1 2) as (E & _).
  - split; [by apply (bool_decide_unpack _); vm_compute|]. simpl. set_solver.
  - by apply (bool_decide_unpack _); vm_compute.
  - exact E.
Defined.

(** Assigning one access-ordered fast set to another keeps the lookup entries of
    the elements it held before: after [s = other] with [s] holding 1 and [other]
    holding 2, [contains] still reports 1, and inserting 1 has no effect. *)
Theorem fast_set_assignment_keeps_stale_entries :
  let s := AccessOrderedFastSet.insert AccessOrderedFastSet.make 1 in
  let other := AccessOrderedFastSet.insert AccessOrderedFastSet.make 2 in
  let assigned := AccessOrderedFastSet.assign s other in
  AccessOrderedFastSet.elements assigned = [2] ∧
  AccessOrderedFastSet.contains assigned 1 = true ∧
  AccessOrderedFastSet.elements (AccessOrderedFastSet.insert assigned 1) = [2].
Proof. split; [|split]; vm_compute; reflexivity. Qed.

(** The comparator of the sorted stores is a strict total order on scored 32-bit
    object ids, so no two objects are ever confused: it is irreflexive, transitive,
    puts higher scores first, and the Murmur hash, which is injective, breaks ties. *)
Theorem object_scores_total_order s x y z :
  scored s x → scored s y → scored s z →
  ObjectScores_lt s x x = false ∧
  (ObjectScores_lt s x y = true → ObjectScores_lt s y z = true → ObjectScores_lt s x z = true) ∧
  (x ≠ y → ObjectScores_lt s x y = negb (ObjectScores_lt s y x)) ∧
  (val (getObjectValue s y) < val (getObjectValue s x) → ObjectScores_lt s x y = true).
Proof.
  intros Hx Hy Hz. split; [by apply (StdSet.st_irrefl (D := scored s))|]. split; [|split].
  - by apply (StdSet.st_trans (D := scored s)).
  - intros Hne. destruct (ObjectScores_lt s x y) eqn:E1, (ObjectScores_lt s y x) eqn:E2; try done.
    + pose proof (StdSet.lt_asym (D := scored s) x y Hx Hy E1). congruence.
    + destruct Hne. by apply (StdSet.st_total (D := scored s)).
  - intros Hv. apply ObjectScores_lt_val; [done|done|by left].
Qed.

Lemma object_scores_total_order_witness :
  ObjectScores_lt by_id 2 1 = true ∧ ObjectScores_lt by_id 1 3 = negb (ObjectScores_lt by_id 3 1).
Proof.
  split.
  - apply (object_scores_total_order by_id 2 1 3); done.
  - apply (object_scores_total_order by_id 1 3 2); done.
Defined.

(** ** Changes and moves *)

(** The inverse of the change set of a set of moves undoes them: it is the change
    set of the reversed moves, and applying it after the moves gives back the
    placement they started from. *)
Theorem inverse_undoes_moves ms otc :
  NoDup (move_object <$> ms) →
  (∀ m, m ∈ ms → otc !! move_object m = Some (srcContainer m)) →
  ∃ back, ChangeSet.getInverse (MoveSet_getChangeSet ms) = Ok (MoveSet_getChangeSet back) ∧
    place back (place ms otc) = otc ∧
    ChangeSet.getInverse (MoveSet_getChangeSet back) = Ok (MoveSet_getChangeSet ms).
Proof.
  intros Hnd Hs. exists (undo (λ _ _ _, 0) ms). split; [apply getInverse_moves|].
  split; [by apply place_undo|].
  rewrite (ChangeSet.getInverse_spec (MoveSet_getChangeSet (undo (λ _ _ _, 0) ms)))
    by apply MoveSet_getChangeSet_wf.
  f_equal. rewrite (ChangeSet.wf_fromVector (MoveSet_getChangeSet ms)) by apply MoveSet_getChangeSet_wf.
  f_equal. rewrite !MoveSet_changes, <- invert_changes, <- fmap_reverse, reverse_involutive.
  rewrite <- list_fmap_compose. etrans; [|apply list_fmap_id].
  apply list_fmap_ext. intros i c _. apply ChangeSet.invert_involutive.
Qed.

(** Converting a set of moves of distinct objects to a change set and back gives
    the same moves, up to their order. *)
Theorem move_set_round_trip hash `{HashOrder} ms :
  NoDup (move_object <$> ms) →
  (∀ m, m ∈ ms → m = makeMove hash (move_object m) (srcContainer m) (dstContainer m)) →
  ∃ ms', MoveSet_fromChangeSet hash (MoveSet_getChangeSet ms) = Ok ms' ∧ ms' ≡ₚ ms.
Proof. apply fromChangeSet_getChangeSet. Qed.

Definition swap : list Move := [makeMove Example.hash 7 0 1; makeMove Example.hash 8 1 0].

Lemma inverse_undoes_moves_witness :
  ∃ back, ChangeSet.getInverse (MoveSet_getChangeSet swap) = Ok (MoveSet_getChangeSet back) ∧
    place back (place swap {[7 := 0; 8 := 1]}) = {[7 := 0; 8 := 1]}.
Proof.
  destruct (inverse_undoes_moves swap {[7 := 0; 8 := 1]}) as (back & E & P & _).
  - by apply (bool_decide_unpack _); vm_compute.
  - by intros m [-> |[-> |[]%elem_of_nil]%elem_of_cons]%elem_of_cons.
  - exists back. split; [exact E|exact P].
Defined.

Lemma move_set_round_trip_witness :
  ∃ ms', MoveSet_fromChangeSet Example.hash (H := canonical_order) (MoveSet_getChangeSet swap) = Ok ms' ∧
    ms' ≡ₚ swap.
Proof.
  apply (move_set_round_trip Example.hash (H := canonical_order) swap).
  - by apply (bool_decide_unpack _); vm_compute.
  - by intros m [-> |[-> |[]%elem_of_nil]%elem_of_cons]%elem_of_cons.
Defined.

(** ** One object per group *)

(** C20. The attributes that allow one object per group out of the source stay exact
    through any sequence of applied move sets: an object may be picked if and only if
    every object of its groups is still in the source container. *)
Theorem one_object_per_group_exact partition source otc (mss : list (list Move)) :
  (∀ o gs, partition !! o = Some gs → is_Some (otc !! o)) →
  (∀ pre ms post, mss = pre ++ (ms :: post) → NoDup (move_object <$> ms) ∧
     ∀ m, m ∈ ms → foldl (λ p ms, place ms p) otc pre !! move_object m = Some (srcContainer m)) →
  ∃ a0, OneObjectPerGroup.make partition source (λ o, at_ (otc !! o)) = Ok a0 ∧
    let a := foldl (λ a ms, OneObjectPerGroup.update a (MoveSet_getChangeSet ms)) a0 mss in
    let now := foldl (λ p ms, place ms p) otc mss in
    ∀ o, OneObjectPerGroup.canPick a o = true ↔
      ∀ gs g o' gs', partition !! o = Some gs → g ∈ gs → partition !! o' = Some gs' → g ∈ gs' →
        now !! o' = Some source.
Proof.
  intros Hp Hms.
  destruct (OneObjectPerGroup.make_tracks partition source otc Hp) as (a0 & E & T & P & S).
  exists a0. split; [done|]. cbn zeta.
  assert (OneObjectPerGroup.tracks
      (foldl (λ a ms, OneObjectPerGroup.update a (MoveSet_getChangeSet ms)) a0 mss)
      (foldl (λ p ms, place ms p) otc mss) ∧
    OneObjectPerGroup.objectIdToGroupIds
      (foldl (λ a ms, OneObjectPerGroup.update a (MoveSet_getChangeSet ms)) a0 mss) = partition ∧
    OneObjectPerGroup.sourceContainer
      (foldl (λ a ms, OneObjectPerGroup.update a (MoveSet_getChangeSet ms)) a0 mss) = source)
    as (Ht & Hpt & Hst).
  { revert Hms. induction mss as [|ms mss IH] using rev_ind; intros Hms; [done|].
    destruct IH as (Ht & Hpt & Hst).
    { intros pre m post ->. apply (Hms pre m (post ++ [ms])). by rewrite <- app_assoc. }
    destruct (Hms mss ms []) as [Hnd Hs]; [done|].
    rewrite !foldl_app. cbn [foldl].
    split; [by apply OneObjectPerGroup.update_tracks|].
    rewrite <- Hpt, <- Hst. apply OneObjectPerGroup.update_config. }
  intros o. rewrite OneObjectPerGroup.canPick_spec by exact Ht. by rewrite Hpt, Hst.
Qed.

Lemma one_object_per_group_exact_witness :
  ∃ a0, OneObjectPerGroup.make {[7 := [1]; 8 := [1]; 9 := [2]]} 0
      (λ o, at_ (({[7 := 0; 8 := 0; 9 := 0]} : gmap Z Z) !! o)) = Ok a0 ∧
    OneObjectPerGroup.canPick
      (OneObjectPerGroup.update a0 (MoveSet_getChangeSet [makeMove Example.hash 7 0 1])) 9 = true.
Proof.
  destruct (one_object_per_group_exact {[7 := [1]; 8 := [1]; 9 := [2]]} 0 {[7 := 0; 8 := 0; 9 := 0]}
    [[makeMove Example.hash 7 0 1]]) as (a0 & E & H).
  - intros o gs. rewrite !lookup_insert_Some, lookup_singleton_Some.
    intros [[<- _]|[_ [[<- _]|[_ [<- _]]]]]; exists 0; vm_compute; reflexivity.
  - intros [|x pre] ms post Hm; [|by destruct pre]. injection Hm as <- <-.
    split; [by apply (bool_decide_unpack _); vm_compute|].
    by intros m [-> |[]%elem_of_nil]%elem_of_cons.
  - exists a0. split; [exact E|]. apply (H 9). intros gs g o' gs' Hgs Hg Ho' Hg'.
    vm_compute in Hgs. injection Hgs as <-. apply list_elem_of_singleton in Hg as ->.
    rewrite !lookup_insert_Some, lookup_singleton_Some in Ho'.
    destruct Ho' as [[<- <-]|[_ [[<- <-]|[_ [<- <-]]]]];
      [apply list_elem_of_singleton in Hg'; lia..|reflexivity].
Defined.

(** ** Objective values *)

(** The tolerant comparison of finite doubles is sound and antisymmetric: it
    reports an order only between values that differ in that direction, equal values
    are equal, and exchanging the arguments negates the answer. *)
Theorem precision_compare_sound t v1 v2 :
  fin v1 → fin v2 → Precision.positive_tol t →
  (Precision.compare t v1 v2 = 1 → val v2 < val v1) ∧
  (Precision.compare t v1 v2 = -1 → val v1 < val v2) ∧
  (val v1 = val v2 → Precision.compare t v1 v2 = 0) ∧
  Precision.compare t v2 v1 = - Precision.compare t v1 v2.
Proof.
  intros H1 H2 Ht. destruct (Precision.compare_sign t v1 v2 H1 H2 Ht) as (A & B & C).
  do 3 (split; [done|]). by apply Precision.compare_antisym.
Qed.

Lemma precision_compare_sound_witness :
  Precision.compare defaultTolerances d2 d1 = - Precision.compare defaultTolerances d1 d2.
Proof.
  apply (precision_compare_sound defaultTolerances d1 d2); [done|done|].
  apply Precision.default_positive_tol.
Defined.

(** Outside the finite doubles the comparison is not reflexive: two equal
    infinities, and any NaN, compare as smaller. *)
Theorem precision_compare_special_values :
  Precision.compare defaultTolerances dinf dinf = -1 ∧
  Precision.compare defaultTolerances dneginf dneginf = -1 ∧
  Precision.compare defaultTolerances dnan dnan = -1 ∧
  Precision.isEqual defaultTolerances dinf dinf = false.
Proof. split; [|split; [|split]]; vm_compute; reflexivity. Qed.

(** C16. Strict improvement cannot go on forever: in an infinite sequence of finite
    objective values of the same size some value is not strictly better than its
    predecessor.  In particular a search that only accepts strict improvements
    cannot revisit a value. *)
Theorem no_endless_improvement p n (v : nat → GlobalObjectiveValue.t) :
  Precision.positive_tol p →
  (∀ i, GlobalObjectiveValue.finite_values (v i) ∧ GlobalObjectiveValue.size (v i) = n) →
  ∃ i, GlobalObjectiveValue.isStrictlyBetter (v (S i)) (v i) p ≠ Ok true.
Proof.
  intros Hp Hv. destruct (Hv 0%nat) as [H0 L0].
  pose proof (GlobalObjectiveValue.finite_lt_acc n _ H0 L0) as Ha.
  remember (GlobalObjectiveValue.values (v 0%nat)) as l eqn:El.
  revert v Hv H0 L0 El. induction Ha as [l _ IH]. intros v Hv H0 L0 ->.
  destruct (GlobalObjectiveValue.isStrictlyBetter (v 1%nat) (v 0%nat) p) as [[|]|e] eqn:E;
    [|exists 0%nat; by rewrite E..].
  destruct (Hv 1%nat) as [H1 L1].
  pose proof (GlobalObjectiveValue.isStrictlyBetter_value_lt p _ _ Hp H1 H0 E) as Hlt.
  destruct (IH (GlobalObjectiveValue.values (v 1%nat))) with (v := λ i, v (S i)) as [i Hi]; try done.
  - split; [|done]. destruct Hlt as [[Hn H0n]|?]; [|done]. exfalso. apply Hn.
    unfold GlobalObjectiveValue.size in L0, L1. rewrite H0n in L0. simpl in L0. subst n.
    by apply length_zero_iff_nil.
  - by exists (S i).
Qed.

Definition constant_value : GlobalObjectiveValue.t := GlobalObjectiveValue.mk [d1; d2] (Some 2%nat).

Lemma no_endless_improvement_witness :
  ∃ i : nat, GlobalObjectiveValue.isStrictlyBetter constant_value constant_value defaultTolerances ≠ Ok true.
Proof.
  apply (no_endless_improvement defaultTolerances 2 (λ _, constant_value)).
  - apply Precision.default_positive_tol.
  - intros _. split; [repeat constructor|done].
Defined.

(** The plain tolerant comparison does allow cycles: three objective values each of
    which compares smaller than the one before, in a circle, within the default
    tolerances; [isStrictlyBetter] refuses the steps that make the circle possible. *)
Theorem precision_compare_cycles :
  let tiny k := dmul (dofZ k) (ddiv d1e_10 (dofZ 10)) in
  let value x y := GlobalObjectiveValue.mk [x; y] (Some 2%nat) in
  let a := value d0 (dofZ 3) in
  let b := value (tiny 8) d2 in
  let c := value (tiny 16) d1 in
  GlobalObjectiveValue.precisionCompare b a defaultTolerances = Ok (-1) ∧
  GlobalObjectiveValue.precisionCompare c b defaultTolerances = Ok (-1) ∧
  GlobalObjectiveValue.precisionCompare a c defaultTolerances = Ok (-1) ∧
  GlobalObjectiveValue.isStrictlyBetter b a defaultTolerances = Ok false ∧
  GlobalObjectiveValue.isStrictlyBetter c b defaultTolerances = Ok false.
Proof. do 4 (split; [vm_compute; reflexivity|]). vm_compute. reflexivity. Qed.

(** C15. The early exit of the evaluation changes no decision: stopping as soon as an
    objective is worse gives the same comparisons with the current value as
    evaluating every objective, and a value found strictly better is complete. *)
Theorem early_exit_is_exact `{G : ExpressionGraph} g changes (nv : Z → double) obj p :
  (∀ e, e ∈ obj → expr_evaluate g changes e = Ok (nv e)) →
  (∀ e, e ∈ obj → fin (nv e)) → (∀ e, e ∈ obj → fin (expr_value g e)) →
  Precision.positive_tol p →
  ∃ v_all v_some, GlobalObjective.evaluate g changes obj true = Ok v_all ∧
    GlobalObjective.evaluate g changes obj false = Ok v_some ∧
    GlobalObjectiveValue.unsafeCompare v_some (GlobalObjective.getValue g obj) =
      GlobalObjectiveValue.unsafeCompare v_all (GlobalObjective.getValue g obj) ∧
    GlobalObjectiveValue.isStrictlyBetter v_some (GlobalObjective.getValue g obj) p =
      GlobalObjectiveValue.isStrictlyBetter v_all (GlobalObjective.getValue g obj) p ∧
    (GlobalObjectiveValue.isStrictlyBetter v_some (GlobalObjective.getValue g obj) p = Ok true →
     v_some = v_all).
Proof. intros H1 H2 H3. by apply (GlobalObjective.early_exit_agrees g changes nv). Qed.

Lemma early_exit_is_exact_witness :
  let g : @Graph Example.counting := Assignment.objectToContainer Example.start in
  let move := MoveSet_getChangeSet [makeMove Example.hash 0 0 1] in
  ∃ v_all v_some, GlobalObjective.evaluate g move [1; 0] true = Ok v_all ∧
    GlobalObjective.evaluate g move [1; 0] false = Ok v_some ∧
    GlobalObjectiveValue.unsafeCompare v_some (GlobalObjective.getValue g [1; 0]) =
      GlobalObjectiveValue.unsafeCompare v_all (GlobalObjective.getValue g [1; 0]).
Proof.
  intros g move.
  destruct (early_exit_is_exact (G := Example.counting) g move
    (λ e, Example.level (Example.predicted g move) e) [1; 0] defaultTolerances)
    as (v1 & v2 & E1 & E2 & C & _).
  - by intros e _.
  - intros e _. apply Example.level_fin.
  - intros e _. apply Example.level_fin.
  - apply Precision.default_positive_tol.
  - exists v1, v2. split; [exact E1|]. split; [exact E2|exact C].
Defined.

(** The objective of the local search interleaves the goals with their penalties,
    each goal followed by its own penalty. *)
Theorem combined_objective_interleaves zero obj pen :
  obj ≠ [] → length obj = length pen →
  ∃ combined, LocalSearchObjective.buildCombinedObjective zero obj pen 0 (Z.of_nat (length obj)) =
      Ok combined ∧ length combined = (2 * length obj)%nat ∧
    ∀ i g e, obj !! i = Some g → pen !! i = Some e →
      combined !! (2 * i)%nat = Some g ∧ combined !! (2 * i + 1)%nat = Some e.
Proof.
  intros Hne Hl. exists (LocalSearchObjective.interleave obj pen).
  split; [by apply LocalSearchObjective.buildCombinedObjective_spec|].
  split; [by apply LocalSearchObjective.length_interleave|]. clear Hne Hl.
  revert pen. induction obj as [|x obj IH]; intros [|y pen] i g e; try done.
  destruct i as [|i]; [by intros [= <-] [= <-]|]. cbn [lookup list_lookup]. intros Hg He.
  replace (2 * S i)%nat with (S (S (2 * i))) by lia.
  exact (IH pen i g e Hg He).
Qed.

Lemma combined_objective_interleaves_witness :
  ∃ combined, LocalSearchObjective.buildCombinedObjective 9 [1; 2] [3; 4] 0 2 = Ok combined ∧
    length combined = 4%nat.
Proof.
  destruct (combined_objective_interleaves 9 [1; 2] [3; 4]) as (c & E & L & _); [done|done|].
  exists c. split; [exact E|exact L].
Defined.

(** The equivalence index gives one representative per equivalence set: for any
    consistent assignment the index is built, and the objects returned for a
    container are dynamic objects of it, one for every equivalence set that has one
    there and no two of the same set. *)
Theorem distinct_objects_one_per_set `{HashOrder} a es f c :
  Assignment.inv a → (∀ o, Assignment.is_dynamic a o → es_at es o = Ok (f o)) →
  ∃ a' ix os, Assignment.maybeBuildAndGetObjectsIndexedByEquivSets a es = Ok (a', ix) ∧
    Assignment.inv a' ∧ Assignment.objectToContainer a' = Assignment.objectToContainer a ∧
    Assignment.getDistinctObjectsFromEquivSetIdx a' c es = Ok os ∧
    (∀ o, o ∈ os → o ∈ Assignment.getDynamicObjects a' c) ∧
    (∀ o, o ∈ Assignment.getDynamicObjects a' c → ∃ o', o' ∈ os ∧
       IndexedAssignment.objectToIndex ix !! o' = IndexedAssignment.objectToIndex ix !! o) ∧
    NoDup ((λ o, IndexedAssignment.objectToIndex ix !! o) <$> os).
Proof.
  intros Hi Hf.
  destruct (Assignment.maybeBuild_spec a es f Hi Hf) as (a' & ix & E & I' & O & _ & X & K).
  destruct (Assignment.getDistinctObjects_spec a' c es ix I' X) as (os & E2 & H1 & H2 & H3).
  { unfold Assignment.isIndexedByEquivalentSets in K. rewrite X in K. by bool_to_prop. }
  exists a', ix, os. by do 6 (split; [done|]).
Qed.

Lemma distinct_objects_one_per_set_witness :
  ∃ a' ix os, Assignment.maybeBuildAndGetObjectsIndexedByEquivSets (H := canonical_order)
      Example.start Example.es = Ok (a', ix) ∧
    Assignment.getDistinctObjectsFromEquivSetIdx (H := canonical_order) a' 0 Example.es = Ok os ∧
    ∀ o, o ∈ os → o ∈ Assignment.getDynamicObjects a' 0.
Proof.
  destruct (distinct_objects_one_per_set (H := canonical_order) Example.start Example.es id 0
    Example.start_inv) as (a' & ix & os & E & _ & _ & E2 & H & _); [done|].
  exists a', ix, os. split; [exact E|]. split; [exact E2|exact H].
Defined.
