(* ===== verification/GraphTheorems.v ===== *)
(** * The expression graph: main theorems

    The graph built by the constructors of the expressions, ordered by the orchestrator
    and changed by moves, against an evaluation from scratch; the evaluation of
    candidates; the data structures the graph rests on; and the search on such a graph. *)

From S2P Require Import Prelude Double Precision Exact ChangeSet Assignment AccessOrderedSet Queues AssociativeFixedMap ObjectValues Affected Lookup Orchestrator OrchestratorInit OrchestratorIndex OrchestratorLeaves OrchestratorApply OrchestratorEvaluate Expressions ExpressionValues ExpressionGraphs.
From S2P Require Import ObjectiveValue Objective EntityAttributes Problem Moves LocalSearch SingleMove Example GraphExample.
Import Example GraphExample.

Open Scope Z_scope.

(** ** Steps *)

(** A sequence of move sets, each of distinct objects from where they are, and the
    assignments after them. *)
Inductive path : gmap Z Z → list (list Move * Assignment.t) → gmap Z Z → Prop :=
  | path_nil m : path m [] m
  | path_cons m ms a l m' :
      NoDup (move_object <$> ms) →
      (∀ mv, mv ∈ ms → m !! move_object mv = Some (srcContainer mv)) →
      Assignment.inv a → Assignment.objectToContainer a = place ms m →
      path (place ms m) l m' → path m ((ms, a) :: l) m'.

Definition apply_steps `{HashOrder} `{ExpressionOps} (o : Orchestrator.t) (g : gmap Z Expression)
    (steps : list (list Move * Assignment.t)) : result (gmap Z Expression) :=
  foldM (λ g '(ms, a),
    '(g, _) ← Orchestrator.apply o (newContext (Some (MoveSet_getChangeSet ms))) a g; Ok g) g steps.

Lemma apply_steps_in_step `{HashOrder} `{ExpressionLaws} o g0 data objects g m steps m' :
  OrchestratedGraph.ready o g0 data objects → path m steps m' →
  OrchestratedGraph.in_step_with o g0 objects g m →
  ∃ g', apply_steps o g steps = Ok g' ∧ OrchestratedGraph.in_step_with o g0 objects g' m'.
Proof.
  intros Hr Hp. revert g. induction Hp as [m|m ms a l m' Hn Hs Ha Hm Hp IH]; intros g Hg; [by exists g|].
  destruct (OrchestratedGraph.apply_moves o g0 data objects Hr g m ms a Hg Hn Hs Ha Hm) as (g1 & E1 & Hg1).
  destruct (IH g1 Hg1) as (g2 & E2 & Hg2). exists g2. split; [|done].
  unfold apply_steps. cbn [foldM]. simpl in E1. by rewrite E1.
Qed.

(** C34. A graph built by nine constructors (variables, vectors, lookups, linear sums, maxima,
    any-positive, transforms, products and n-th largest; no quotients, which may throw)
    follows the placement, provided that the object values a lookup reads are added
    without rounding (they lie on a common binary grid and add up to less than [2 ^ 53]
    steps of it, [ExpressionGraphs.vector_fits]) and that every expression has a finite
    value other than -0 for every placement.  The orchestrator initializes it, with the depth of the recursion bounded by the
    number of expressions; then after any sequence of legal move sets, applied one by
    one and propagated bottom to top through the expressions they affect, every root
    stores exactly the value that evaluating the whole graph from scratch on the new
    placement gives. *)
Theorem graph_follows_placement `{HashOrder} tol pow log a l g0 data fixedContainers rs :
  Assignment.inv a → ExpressionGraphs.built tol pow log a l g0 → (∀ root, root ∈ rs → root ∈ l) →
  (∀ m, dom m = dom (Assignment.objectToContainer a) → ExpressionGraphs.canonical tol pow log l g0 m) →
  ∃ o g, Orchestrator.init (H0 := Expressions.ops tol pow log) (length l) rs data fixedContainers g0 = Ok (o, g) ∧
    ∀ steps m', path (Assignment.objectToContainer a) steps m' →
      ∃ g', apply_steps (H0 := Expressions.ops tol pow log) o g steps = Ok g' ∧
        ∀ root, root ∈ rs → Orchestrator.read_value (H0 := Expressions.ops tol pow log) g' root =
          Ok (ExpressionGraphs.scratch_value tol pow log l g0 m' root).
Proof.
  intros Ha Hb Hrs Hcan.
  destruct (ExpressionGraphs.built_ready tol pow log a Ha l g0 data fixedContainers rs Hb Hrs Hcan)
    as (o & g & E & _ & Hr & Hs & Hpost & Hden).
  exists o, g. split; [done|]. intros steps m' Hp.
  destruct (apply_steps_in_step (H1 := ExpressionValues.expression_laws tol pow log) o g0 data _ g _ steps m' Hr Hp Hs) as (g' & Eg & _ & Hg').
  exists g'. split; [done|]. intros root Hroot.
  destruct (Hden root (Hpost root Hroot)) as [_ <-].
  by apply (in_step_value (H1 := ExpressionValues.expression_laws tol pow log) o g0 data (OrchestratedGraph.ready_layout _ _ _ _ Hr)); [|apply Hpost].
Qed.

(** Object 0 moves to container 1. *)
Definition first_move : Move := makeMove hash 0 0 1.
Definition moved : Assignment.t :=
  match Assignment.moveTo start 0 1 with Ok a => a | Throw _ => start end.

Lemma moved_ok : Assignment.inv moved ∧
  Assignment.objectToContainer moved = place [first_move] (Assignment.objectToContainer start).
Proof.
  assert (is_Some (Assignment.objectToContainer start !! 0)) as Hs by (by eexists; vm_compute).
  destruct (Assignment.moveTo_spec start 0 1 start_inv Hs) as (a & E & Hi & _ & Ho).
  assert (moved = a) as -> by (unfold moved; by rewrite E). done.
Qed.

Lemma first_move_starts mv :
  mv ∈ [first_move] → Assignment.objectToContainer start !! move_object mv = Some (srcContainer mv).
Proof. intros ->%list_elem_of_singleton. by vm_compute. Qed.

Lemma moved_path : path (Assignment.objectToContainer start) [([first_move], moved)]
  (place [first_move] (Assignment.objectToContainer start)).
Proof.
  apply path_cons; [apply NoDup_singleton|apply first_move_starts|apply moved_ok|apply moved_ok|constructor].
Qed.

Lemma graph_follows_placement_witness : ∃ o g g',
  Orchestrator.init (length nodes) rs data ∅ g0 = Ok (o, g) ∧
  apply_steps o g [([first_move], moved)] = Ok g' ∧ Orchestrator.read_value g' 5 =
    Ok (ExpressionGraphs.scratch_value tol pow log nodes g0
          (place [first_move] (Assignment.objectToContainer start)) 5).
Proof.
  destruct (graph_follows_placement tol pow log start nodes g0 data ∅ rs start_inv graph_built) as (o & g & E & Hall).
  - apply roots_known.
  - apply graph_canonical.
  - destruct (Hall _ _ moved_path) as (g' & E' & Hv). exists o, g, g'. split; [exact E|]. split; [exact E'|].
    apply Hv. apply (bool_decide_unpack _). vm_compute. exact I.
Defined.

(** C35. The value an evaluation returns for a candidate does not depend on what was
    evaluated before with the same context: the caches, the queue left over and the roots
    whose leaves were already pushed change nothing.  No evaluation throws. *)
Theorem evaluation_is_independent `{HashOrder} `{ExpressionLaws} o g0 data objects g m ms before node :
  OrchestratedGraph.ready o g0 data objects → OrchestratedGraph.in_step_with o g0 objects g m →
  NoDup (move_object <$> ms) → (∀ mv, mv ∈ ms → m !! move_object mv = Some (srcContainer mv)) →
  (∀ n, n ∈ node :: before → n ∈ Orchestrator.postOrder (Orchestrator.order o)) →
  let fresh := newContext (Some (MoveSet_getChangeSet ms)) in
  ∃ ctx v ctx1 ctx2 v0,
    foldM (λ ctx n, '(ctx, _) ← Orchestrator.evaluate o g n ctx; Ok ctx) fresh before = Ok ctx ∧
    Orchestrator.evaluate o g node ctx = Ok (ctx1, v) ∧
    Orchestrator.evaluate o g node fresh = Ok (ctx2, v0) ∧ (v = v0 ∨ (v =? v0)%D = true).
Proof.
  intros Hr [Hd Hg] Hn Hs Hpost fresh. pose proof (moves_transition ms m Hn Hs) as Ht.
  assert (∀ n, n ∈ Orchestrator.postOrder (Orchestrator.order o) → canon (denotation o g0 m n)) as Hcan
    by (intros; by apply (OrchestratedGraph.ready_canon _ _ _ _ Hr)).
  destruct Hr as [Hlay _ Hinf _]. pose proof (transition_wf _ _ _ Ht) as Hwf. pose proof (transition_objects _ _ _ Ht) as Hob.
  pose proof (newContext_ok o g0 data Hlay Hinf g m Hg Hcan _ Hwf Hob) as H0'.
  pose proof (graph_evaluate_spec o g0 data Hlay Hinf g m Hg Hcan _ Hwf Hob) as Hev.
  destruct (foldM_total (context_ok o g0 data g m (MoveSet_getChangeSet ms))
    (λ ctx n, '(ctx, _) ← Orchestrator.evaluate o g n ctx; Ok ctx) fresh before H0') as (ctx & Ef & Hctx).
  { intros c n Hin Hc. destruct (Hev n c (Hpost n ltac:(set_solver)) Hc) as (c' & v & -> & Hc' & _). by exists c'. }
  destruct (Hev node ctx (Hpost node ltac:(set_solver)) Hctx) as (ctx1 & v & E1 & _ & Hv).
  destruct (Hev node fresh (Hpost node ltac:(set_solver)) H0') as (ctx2 & v0 & E2 & _ & Hv0).
  exists ctx, v, ctx1, ctx2, v0. split; [done|]. split; [done|]. split; [done|].
  eapply seen_close; done.
Qed.

Lemma evaluation_is_independent_witness :
  let fresh := newContext (Some (MoveSet_getChangeSet [first_move])) in
  ∃ ctx v ctx1 ctx2 v0,
    foldM (λ ctx n, '(ctx, _) ← Orchestrator.evaluate orch graph n ctx; Ok ctx) fresh [6; 0] = Ok ctx ∧
    Orchestrator.evaluate orch graph 5 ctx = Ok (ctx1, v) ∧
    Orchestrator.evaluate orch graph 5 fresh = Ok (ctx2, v0) ∧ (v = v0 ∨ (v =? v0)%D = true).
Proof.
  destruct orchestrated as [Hr Hs].
  apply (evaluation_is_independent (H1 := laws) orch g0 data objects graph _ [first_move] [6; 0] 5 Hr Hs).
  - apply NoDup_singleton.
  - apply first_move_starts.
  - apply Forall_forall. apply (bool_decide_unpack _). vm_compute. exact I.
Defined.

(** C36. Initializing the orchestrator on an acyclic graph succeeds and gives what
    propagation relies on: every reachable expression is listed once, a child is listed
    with the higher priority and the lower height, the parents of an expression are
    exactly the listed expressions it is a child of, and for every change set the leaves
    found through the index are exactly the listed expressions it affects. *)
Theorem initialization_is_exact `{HashOrder} `{ExpressionLaws} g0 rank data fixedContainers rs fuel :
  acyclic g0 rank → informed g0 data →
  (∀ root, root ∈ rs → is_Some (g0 !! root) ∧ (rank root < fuel)%nat) →
  ∃ o g, Orchestrator.init fuel rs data fixedContainers g0 = Ok (o, g) ∧
    NoDup (Orchestrator.postOrder (Orchestrator.order o)) ∧
    (∀ root, root ∈ rs → root ∈ Orchestrator.postOrder (Orchestrator.order o)) ∧
    (∀ n c, n ∈ Orchestrator.postOrder (Orchestrator.order o) → c ∈ children_of g0 n →
       ∃ p q, Orchestrator.priority o n = Ok p ∧ Orchestrator.priority o c = Ok q ∧
         Priority.gt q p = true ∧ height q < height p) ∧
    (∀ n c, n ∈ default [] (Orchestrator.nodeToParents o !! c) ↔
       n ∈ Orchestrator.postOrder (Orchestrator.order o) ∧ c ∈ children_of g0 n) ∧
    ∀ cs, ChangeSet.wf cs →
      (∀ n a, info_of g0 data n = Some a → AffectedByChange.filter_total a (ChangeSet.changes cs)) →
      ∃ ctx, Orchestrator.computeAllChangedLeaves o (newContext (Some cs)) = Ok ctx ∧
        ∀ n, in_queue (readyNodes ctx) n ↔
          n ∈ Orchestrator.postOrder (Orchestrator.order o) ∧ affected (info_of g0 data) cs n.
Proof.
  intros Hac Hinf Hrs.
  destruct (init_spec g0 rank data fixedContainers rs fuel Hac Hinf Hrs) as (o & g & E & _ & Er & Hlay & _).
  exists o, g. split; [done|]. split; [apply Hlay|]. split; [|split; [|split]].
  - intros root Hin. apply (lay_dom _ _ _ Hlay). subst rs. apply list_elem_of_lookup_1 in Hin as [i Hi].
    destruct (lay_root _ _ _ Hlay i root Hi) as (p & Hp & _). by eexists.
  - intros n c [p Hp]%(lay_dom _ _ _ Hlay) Hc. destruct (lay_closed _ _ _ Hlay n p c Hp Hc) as (q & Hq & ?).
    exists p, q. unfold Orchestrator.priority. by rewrite Hp, Hq.
  - intros n c. apply (lay_parents _ _ _ Hlay).
  - intros cs Hwf Hft. destruct (lay_index _ _ _ Hlay) as (LS & Hix & HLS).
    destruct (computeAllChangedLeaves_spec o _ _ Hlay LS Hix HLS cs Hwf) with (ctx := newContext (Some cs))
      as (q & Eq & _ & Hin); [intros n a _; apply Hft|apply clear_queue|done|].
    eexists. split; [exact Eq|]. intros n. simpl. rewrite Hin, (lay_dom _ _ _ Hlay). split; [|tauto].
    intros [[p Hp]|?]; [set_solver|tauto].
Qed.

Lemma initialization_is_exact_witness : ∃ o g,
  Orchestrator.init (length nodes) rs data ∅ g0 = Ok (o, g) ∧
  NoDup (Orchestrator.postOrder (Orchestrator.order o)).
Proof.
  pose proof (ExpressionGraphs.built_sound tol pow log start start_inv nodes g0 graph_built (graph_canonical _ eq_refl)) as Hs.
  destruct (initialization_is_exact (H1 := laws) g0 (ExpressionGraphs.rank nodes) data ∅ rs (length nodes))
    as (o & g & E & Hn & _).
  - apply (ExpressionGraphs.s_acyclic tol pow log start _ _ Hs).
  - apply (proj1 orchestrated).
  - intros root Hin. split; [by apply (ExpressionGraphs.s_nodes tol pow log start _ _ Hs), roots_known|].
    apply ExpressionGraphs.rank_lt, roots_known, Hin.
  - exists o, g. split; [exact E|exact Hn].
Defined.

(** C37. Applying moves to a lookup incrementally is the same as computing it again, if the
    values of its objects are added without rounding (they lie on a common binary grid
    and add up to less than [2 ^ 53] steps of it, [ExpressionGraphs.vector_fits]): the
    value and the sorted set of object potentials are those of a full apply on the
    assignment after the moves, whichever way the changes are traversed and the values
    are stored.  With values that round, the two trees may add in another order. *)
Theorem lookup_partial_is_full `{HashOrder} l a a' ms :
  ExpressionGraphs.vector_fits (ObjectLookup.object_vector l) (dom (Assignment.objectToContainer a)) →
  Assignment.inv a → Assignment.inv a' → NoDup (move_object <$> ms) →
  (∀ mv, mv ∈ ms → Assignment.objectToContainer a !! move_object mv = Some (srcContainer mv)) →
  Assignment.objectToContainer a' = place ms (Assignment.objectToContainer a) →
  ∃ l1 v1 l2 l3 v, ObjectLookup.applyAssignment l a = Ok (l1, v1) ∧
    ObjectLookup.innerPartialApply l1 (MoveSet_getChangeSet ms) = Ok (l2, v) ∧
    ObjectLookup.applyAssignment l a' = Ok (l3, v) ∧
    ObjectLookup.objectPotentials l2 = ObjectLookup.objectPotentials l3.
Proof.
  intros Hv Ha Ha' Hn Hs Hm. pose proof (moves_transition ms _ Hn Hs) as Ht. rewrite <- Hm in Ht.
  destruct (ExpressionGraphs.vector_fits_apply _ _ Hv) as (f & Hfit & Happ).
  destruct (Happ l a eq_refl eq_refl Ha) as (l1 & E1 & Hh1 & Ec1 & Ev1).
  destruct (Happ l a' eq_refl (transition_dom _ _ _ Ht) Ha') as (l3 & E3 & Hh3 & _).
  destruct (ObjectLookup.innerPartialApply_spec l1 f _ _ _ (Assignment.objectToContainer a) (Hfit l1 Ev1) Ht
    (or_introl eq_refl)) as (l2 & E2 & Hh2 & _); [by rewrite Ec1|]. rewrite Ec1 in *.
  exists l1. eexists. exists l2, l3. eexists. split; [exact E1|]. split; [exact E2|]. split; [exact E3|].
  destruct Hh2 as [_ I2 C2 S2], Hh3 as [_ I3 C3 S3].
  apply (ValueSortedMap.sorted_unique ObjectPotential.lt (D := λ p, canon p.2)); try done.
  intros [o w]. by rewrite I2, I3.
Qed.

Definition load : ObjectLookup.t := ObjectLookup.mk {[0]} vector AssociativeHybridMap.make [].

Lemma lookup_partial_is_full_witness : ∃ l1 v1 l2 l3 v,
  ObjectLookup.applyAssignment load start = Ok (l1, v1) ∧
  ObjectLookup.innerPartialApply l1 (MoveSet_getChangeSet [first_move]) = Ok (l2, v) ∧
  ObjectLookup.applyAssignment load moved = Ok (l3, v) ∧
  ObjectLookup.objectPotentials l2 = ObjectLookup.objectPotentials l3.
Proof.
  apply (lookup_partial_is_full load start moved [first_move]);
    [apply vector_fits|apply start_inv|apply moved_ok|apply NoDup_singleton|apply first_move_starts|apply moved_ok].
Defined.

(** C38. The value of a lookup is the exact sum of the values of the objects in its
    containers, without any rounding, as long as the values of all the objects are
    multiples of a power of two and their magnitudes add up to less than 2^53 times it;
    in particular for integers that add up to less than 2^53. *)
Theorem lookup_sum_is_exact `{HashOrder} l a :
  ExpressionGraphs.vector_fits (ObjectLookup.object_vector l) (dom (Assignment.objectToContainer a)) →
  Assignment.inv a →
  ∃ l' v, ObjectLookup.applyAssignment l a = Ok (l', v) ∧ canon v ∧
    val v = total (ExpressionValues.value_in l <$>
      filter (λ o, on (Assignment.objectToContainer a) o (ObjectLookup.containers l) = true)
        (elements (dom (Assignment.objectToContainer a)))).
Proof.
  intros Hv Ha. destruct (ExpressionGraphs.vector_fits_apply _ _ Hv) as (f & Hfit & Happ).
  destruct (Happ l a eq_refl eq_refl Ha) as (l1 & E1 & _). exists l1. eexists. split; [exact E1|].
  rewrite (ExpressionValues.fits_value_in l f _ (Hfit l eq_refl)).
  by apply (ExpressionValues.lookup_exact l f _ (Hfit l eq_refl)).
Qed.

Lemma lookup_sum_is_exact_witness : ∃ l' v,
  ObjectLookup.applyAssignment load start = Ok (l', v) ∧ canon v ∧
  val v = total (ExpressionValues.value_in load <$>
    filter (λ o, on (Assignment.objectToContainer start) o {[0]} = true)
      (elements (dom (Assignment.objectToContainer start)))).
Proof. apply (lookup_sum_is_exact load start); [apply vector_fits|apply start_inv]. Defined.

(** ** The queue *)

Inductive queue_op := Push (p : PriorityInfo) (x : Z) | Pop.

Definition queue_step (s : ReadyNodes * list Z) (op : queue_op) : result (ReadyNodes * list Z) :=
  let '(q, out) := s in
  match op with
  | Push p x => Ok (BucketedPriorityQueue.emplace Priority.gt q p x, out)
  | Pop => x ← BucketedPriorityQueue.top q; q ← BucketedPriorityQueue.pop q; Ok (q, out ++ [x])
  end.

(** The same on one list, sorted by priority, in which equal priorities keep their
    order. *)
Definition list_step (s : list (PriorityInfo * Z) * list Z) (op : queue_op)
    : result (list (PriorityInfo * Z) * list Z) :=
  let '(l, out) := s in
  match op with
  | Push p x => Ok (BucketedPriorityQueue.enqueue Priority.gt l p x, out)
  | Pop =>
      match l with
      | [] => Throw (runtime_error "cannot call top()/pop() when queue is empty")
      | (_, x) :: l => Ok (l, out ++ [x])
      end
  end.

Definition flat (r : result (ReadyNodes * list Z)) : result (list (PriorityInfo * Z) * list Z) :=
  '(q, out) ← r; Ok (BucketedPriorityQueue.flatten q, out).

(** The queue of buckets refines a list sorted by priority, first in first out among
    equals: any sequence of insertions and removals from the empty queue returns the same
    elements in the same order, leaves the same contents and throws exactly when an
    element is removed from an empty queue. *)
Theorem bucketed_queue_refines ops :
  flat (foldM queue_step (BucketedPriorityQueue.clear, []) ops) = foldM list_step ([], []) ops.
Proof.
  assert (∀ q out, BucketedPriorityQueue.inv Priority.gt q →
    flat (foldM queue_step (q, out) ops) = foldM list_step (BucketedPriorityQueue.flatten q, out) ops) as Hall.
  { induction ops as [|[p x|] ops IH]; intros q out Hi; [done|..]; cbn [foldM queue_step list_step mbind result_bind].
    - rewrite <- (BucketedPriorityQueue.flatten_emplace Priority.gt q p x Hi).
      apply IH. exact (BucketedPriorityQueue.emplace_inv Priority.gt q p x Hi).
    - destruct (BucketedPriorityQueue.empty q) eqn:Ee; [by destruct q|].
      destruct (BucketedPriorityQueue.pop_inv Priority.gt q Hi Ee) as (p & x & q' & -> & -> & Hi' & ->).
      cbn [mbind result_bind]. by apply IH. }
  apply Hall. by repeat constructor.
Qed.

(** ** The state of an expression *)

(** C39. The modelled classes of expressions that keep a state (variables, lookups, linear
    sums, maxima, any-positive, transforms, products, n-th largest) keep it well formed.
    If the state of an expression is that of a placement and of the finite values of
    its children (for a lookup: and its object values are added without rounding), then
    applying changes through [partialApply] does not throw, returns the value the
    expression has for the new placement and the new values, leaves the parts that are
    fixed at construction alone, and the new state is that of the new placement and
    values; this holds too when the changes had been applied already.  A quotient, which
    has no state, throws exactly if an operand is not a number or both are infinite, and
    returns the quotient of the new values otherwise. *)
Theorem partial_apply_keeps_state `{HashOrder} tol pow log x data ev a cs m m' D D' :
  needed (H := Expressions.ops tol pow log) x data ev cs → transition cs m m' →
  Assignment.objectToContainer a = m' →
  (∀ c, c ∈ Expressions.children x → updated ev c = Ok (D' c)) →
  (∀ c, c ∈ changed ev ↔ c ∈ Expressions.children x ∧ D c ≠ D' c) →
  ((∀ c, c ∈ Expressions.children x → canon (D c) ∧ canon (D' c)) →
   ExpressionValues.in_state tol pow log x m D ∨ ExpressionValues.in_state tol pow log x m' D' →
   ∃ x', Expressions.partialApply tol pow log x ev a cs = Ok (x', ExpressionValues.meaning tol pow log x m' D') ∧
     ExpressionValues.alike x x' ∧ ExpressionValues.in_state tol pow log x' m' D') ∧
  ∀ q, Expressions.body x = Expressions.Quotient q → Expressions.properlyInitialized x = true →
    Expressions.children x = {[BinaryOperation.child1st q; BinaryOperation.child2nd q]} →
    let n := D' (BinaryOperation.child1st q) in
    let d := D' (BinaryOperation.child2nd q) in
    if BinaryOperation.is_nan n || BinaryOperation.is_nan d || (BinaryOperation.is_inf n && BinaryOperation.is_inf d)
    then ∃ e, Expressions.partialApply tol pow log x ev a cs = Throw e
    else ∃ x', Expressions.partialApply tol pow log x ev a cs =
        Ok (x', if (d =? d0)%D then (n * dinf)%D else (n / d)%D) ∧ ExpressionValues.alike x x'.
Proof.
  intros Hn Ht Ha Hup Hch. split.
  - intros Hc Hin. by apply (ExpressionValues.partialApply_in_state tol pow log x data ev a cs m m' D D').
  - intros q Eb Hp Ec. apply ExpressionValues.quotient_partialApply; [done|done|].
    intros c Hc. apply Hup. rewrite Ec. set_solver.
Qed.

(** The variable of object 0 drops to 0. *)
Definition after (c : Z) : double := if decide (c = 0) then d0 else ExpressionGraphs.values_of g0 c.

Definition any0 : Expressions.t := get (Expressions.makeAnyPositive tol (ExpressionGraphs.initial g2) [0; 1]).

Lemma any0_children c : c ∈ Expressions.children any0 ↔ c = 0 ∨ c = 1.
Proof.
  assert (Expressions.children any0 = {[0; 1]}) as -> by (by apply (bool_decide_unpack _); vm_compute).
  by rewrite elem_of_union, !elem_of_singleton.
Qed.

Lemma partial_apply_keeps_state_witness : ∃ x',
  Expressions.partialApply tol pow log any0 (mkEvaluator (λ c, Ok (after c)) (λ c, Ok (after c)) {[0]}) moved
    (MoveSet_getChangeSet [first_move]) =
    Ok (x', ExpressionValues.meaning tol pow log any0 (Assignment.objectToContainer moved) after) ∧
  ExpressionValues.alike any0 x' ∧
  ExpressionValues.in_state tol pow log x' (Assignment.objectToContainer moved) after.
Proof.
  destruct (partial_apply_keeps_state tol pow log any0 data
    (mkEvaluator (λ c, Ok (after c)) (λ c, Ok (after c)) {[0]}) moved (MoveSet_getChangeSet [first_move])
    (Assignment.objectToContainer start) (Assignment.objectToContainer moved)
    (ExpressionGraphs.values_of g0) after) as [Hs _]; [| | | | |apply Hs].
  - right. vm_compute. discriminate.
  - rewrite (proj2 moved_ok). apply moves_transition; [apply NoDup_singleton|apply first_move_starts].
  - reflexivity.
  - reflexivity.
  - intros c. rewrite any0_children. cbn [changed]. rewrite elem_of_singleton. split.
    + intros ->. split; [by left|]. vm_compute. discriminate.
    + intros [[->| ->] Hne]; [reflexivity|]. destruct Hne. reflexivity.
  - intros c [-> | ->]%any0_children; split; apply (bool_decide_unpack _); vm_compute; exact I.
  - left. apply (ExpressionGraphs.s_state tol pow log start nodes g0) with (n := 2); [|reflexivity].
    apply (ExpressionGraphs.built_sound tol pow log start start_inv nodes g0 graph_built (graph_canonical _ eq_refl)).
Defined.

(** ** The search on a graph of expressions *)

Abbreviation laws_of tol pow log := (ExpressionValues.expression_laws tol pow log).
Abbreviation graph_of tol pow log o := (OrchestratedGraph.orchestrated (H0 := Expressions.ops tol pow log) o).
Abbreviation lawful_of tol pow log o g0 data objects Hr :=
  (OrchestratedGraph.lawful (H1 := laws_of tol pow log) o g0 data objects Hr).

(** C40. The search ends on a graph of expressions, and with the right values.  From a
    problem whose graph was built on its assignment and initialized by the orchestrator,
    the local search with single moves never throws; if applied moves are validated
    ([validateAppliedMoves], off by default) it reaches its end, whatever the schedule of
    the threads and the times read; then every root stores the value of the final
    placement, evaluated from scratch, and the objective is the same or strictly better.
    The graph is as in the theorem on graphs that follow the placement: nine classes
    without quotients, object values of lookups that are added without rounding, finite
    values for every placement.  A threshold for another cycle, if set, has a percentage or
    an absolute value. *)
Theorem expression_search_ends `{HO : HashOrder} {A} `{EA : EntityAttributes A} tol pow log a l g0 data
    fixedContainers rs :
  Assignment.inv a → ExpressionGraphs.built tol pow log a l g0 → (∀ root, root ∈ rs → root ∈ l) →
  (∀ m, dom m = dom (Assignment.objectToContainer a) → ExpressionGraphs.canonical tol pow log l g0 m) →
  ∃ o g (Hr : OrchestratedGraph.ready (H1 := laws_of tol pow log) o g0 data
                (dom (Assignment.objectToContainer a))),
    Orchestrator.init (H0 := Expressions.ops tol pow log) (length l) rs data fixedContainers g0 = Ok (o, g) ∧
    ∀ (SE : SearchEnv (G := graph_of tol pow log o) A)
      hash (p : Problem.t (G := graph_of tol pow log o) A)
      ps env es f st pg,
    Problem.graph p = g → Problem.assignment p = a →
    SingleMoveType.usable (G := graph_of tol pow log o) (LG := lawful_of tol pow log o g0 data _ Hr) (SE := SE) p ps env f →
    LocalSearch.allowedMoves ps = [SingleMoveType.single (G := graph_of tol pow log o) (SE := SE) hash env es] →
    (∀ it (q : Problem.t (G := graph_of tol pow log o) A) c, traversal_get (SearchEnv := SE) it q = Some c → c ∈ LocalSearch.containers ps) →
    (∀ th, LocalSearch.minCycleObjectiveImprovement ps = Some th →
       is_Some (th_percent th) ∨ is_Some (th_absolute th)) →
    (∀ r, LocalSearch.customEquivalenceSets ps = Some r → ∃ sets, r = Ok sets) →
    (∀ ob, Assignment.is_dynamic a ob → es_at (LocalSearch.equivalenceSets ps) ob = Ok (f ob)) →
    Problem.within (LocalSearch.containers ps) p →
    Precision.positive_tol (Problem.precision p) →
    (∀ fuel, is_Ok (LocalSearch.run (G := graph_of tol pow log o) (SE := SE) hash fuel ps LocalSearch.Start
                      (LocalSearch.mk p st pg)) = true) ∧
    (Problem.validateAppliedMoves p = true →
     ∃ fuel solved s', LocalSearch.run (G := graph_of tol pow log o) (SE := SE) hash fuel ps LocalSearch.Start
         (LocalSearch.mk p st pg) = Ok (Some (solved, s')) ∧
       LocalSearch.advanced (G := graph_of tol pow log o) (SE := SE) ps p (LocalSearch.problem s') ∧
       ∀ root, root ∈ rs →
         Orchestrator.read_value (H0 := Expressions.ops tol pow log) (Problem.graph (LocalSearch.problem s')) root =
         Ok (ExpressionGraphs.scratch_value tol pow log l g0
               (Assignment.objectToContainer (Problem.assignment (LocalSearch.problem s'))) root)).
Proof.
  intros Ha Hb Hrs Hcan.
  destruct (ExpressionGraphs.built_ready tol pow log a Ha l g0 data fixedContainers rs Hb Hrs Hcan)
    as (o & g & E & _ & Hr & Hs & Hpost & Hden).
  exists o, g, Hr. split; [done|]. intros SE hash p ps env es f st pg Hg Hp Hu Hal Ht Hm Hcu He Hc Htol.
  assert (Problem.wf (LG := lawful_of tol pow log o g0 data _ Hr) p) as Hw by (split; by subst).
  assert (LocalSearch.sane (LG := lawful_of tol pow log o g0 data _ Hr) hash p ps) as Hsane.
  { split; [|done|done|done|apply Hu]. rewrite Hal. constructor; [|constructor].
    exact (SingleMoveType.single_sound hash
      (EG := OrchestratedGraph.evaluable (H1 := laws_of tol pow log) o g0 data _ Hr) p ps env f es Hu). }
  assert (LocalSearch.inv_at (LG := lawful_of tol pow log o g0 data _ Hr) p ps LocalSearch.Start
    (LocalSearch.mk p st pg)) as Hinv.
  { split; [split; [done|done|by split|done]|]. exists f. by subst. }
  split.
  - intros fuel. by destruct (LocalSearch.run_safe (LG := lawful_of tol pow log o g0 data _ Hr) hash p ps fuel
      LocalSearch.Start (LocalSearch.mk p st pg) Hsane Hinv) as (r & -> & _).
  - intros Hv. destruct (LocalSearch.run_total (LG := lawful_of tol pow log o g0 data _ Hr) hash p ps
      LocalSearch.Start (LocalSearch.mk p st pg) Hsane Hinv Hv) as (fuel & b & s' & Er & Hgood & Hadv).
    exists fuel, b, s'. split; [done|]. split; [done|]. intros root Hroot.
    destruct (LocalSearch.good_wf _ _ _ Hgood) as [_ [_ Hin]].
    destruct (Hden root (Hpost root Hroot)) as [_ <-].
    by apply (in_step_value (H1 := ExpressionValues.expression_laws tol pow log) o g0 data
      (OrchestratedGraph.ready_layout _ _ _ _ Hr)); [|apply Hpost].
Qed.

Lemma expression_search_ends_witness : ∃ fuel solved s',
  LocalSearch.run hash fuel ps LocalSearch.Start s0 = Ok (Some (solved, s')) ∧
  LocalSearch.advanced ps p0 (LocalSearch.problem s').
Proof.
  destruct (expression_search_ends (A := OneObjectPerGroup.t) tol pow log start nodes g0 data ∅ rs start_inv
    graph_built roots_known graph_canonical) as (o & g & Hr & E & Hall).
  assert (initialized = Ok (o, g)) as Ei by exact E.
  assert (orch = o) as Eo by (unfold orch; rewrite Ei; reflexivity).
  assert (graph = g) as Eg by (unfold graph; rewrite Ei; reflexivity).
  destruct Eo.
  destruct (Hall search_env hash p0 ps single_env es id (LocalSearch.state s0) (LocalSearch.progress s0)) as [_ Hend].
  - exact Eg.
  - reflexivity.
  - apply graph_usable.
  - reflexivity.
  - apply traversal_known.
  - intros th [=].
  - intros r [=].
  - intros ob _. reflexivity.
  - apply within.
  - reflexivity.
  - destruct (Hend eq_refl) as (fuel & b & s' & Er & Hadv & _).
    exists fuel, b, s'. split; [exact Er|exact Hadv].
Defined.
