(* ===== verification/MoveTheorems.v ===== *)
(** * Move types: main theorems

    The search with any mix of the modelled move types, the parallel execution
    they share, the sampling and the bundles they draw their candidates from, and
    where the move types do not keep to what is said of them; each with a run on
    a concrete instance. *)

From S2P Require Import Prelude Double Precision ObjectiveValue ChangeSet ObjectStore.
From S2P Require Import Assignment EntityAttributes Objective Problem Moves LocalSearch.
From S2P Require Import EquivalenceSets Bits Parallel SingleMove Iterators.
From S2P Require Import ParallelExecution ExecutionSelector MoveHelper MoveTypes MoveChains.
From S2P Require Import Sampling Bundles SwapMoves FixedMoves GroupMoves MoveFactory Example MoveExample.

Import Example MoveExample.

(** C2. The factory accepts every list of specifications that [MoveTypeFactory.fits], and the
    search with the move types it creates never throws and, with applied moves
    validated, terminates from a consistent problem: chains, cycles, swaps, exchanges
    of containers, growing move sets, greedy and sampled single moves, moves from or to
    fixed containers, moves of whole groups, routed or colocated, typed or asked for by
    name, whatever the schedule of the threads, the strategy of the executors, the
    outcome of the sampling and the times read.

    What fits: the specifications resolve to containers, objects and partitions of the
    problem; swaps have no ratio dimension and moves with a fixed end no bundle
    hints; the five classes that are not modelled (several sources or destinations,
    hint strategies, swaps of N objects) are any move types that keep the contract of
    the search; an empty specification does not fit.  The pools take every task. *)
Theorem mixed_search_terminates `{G : ExpressionGraph} `{HO : HashOrder} {A}
    `{EA : EntityAttributes A} `{SE : !SearchEnv A} `{LG : !LawfulGraph G} `{EG : !EvaluableGraph G}
    hash (p : Problem.t A) ps environment config auto named specs f st g :
  let env : SwapEnv := environment (MoveTypeFactory.executionConfig config auto) in
  MoveHelper.usable p ps env f → env_ok env →
  Forall (MoveTypeFactory.fits hash p ps env f named) specs →
  (∀ moves, MoveTypeFactory.createMoveTypes hash environment config auto named specs = Ok moves →
     LocalSearch.allowedMoves ps = moves) →
  (∀ it (q : Problem.t A) c, traversal_get it q = Some c → c ∈ LocalSearch.containers ps) →
  (∀ th, LocalSearch.minCycleObjectiveImprovement ps = Some th →
     is_Some (th_percent th) ∨ is_Some (th_absolute th)) →
  (∀ r, LocalSearch.customEquivalenceSets ps = Some r → ∃ sets, r = Ok sets) →
  (∀ o, Assignment.is_dynamic (Problem.assignment p) o →
     es_at (LocalSearch.equivalenceSets ps) o = Ok (f o)) →
  Problem.wf p → Problem.within (LocalSearch.containers ps) p →
  Precision.positive_tol (Problem.precision p) →
  let s := LocalSearch.mk p st g in
  is_Ok (MoveTypeFactory.createMoveTypes hash environment config auto named specs) = true ∧
  (∀ fuel, is_Ok (LocalSearch.run hash fuel ps LocalSearch.Start s) = true) ∧
  (Problem.validateAppliedMoves p = true →
   ∃ fuel solved s', LocalSearch.run hash fuel ps LocalSearch.Start s = Ok (Some (solved, s')) ∧
     Problem.wf (LocalSearch.problem s') ∧ LocalSearch.advanced ps p (LocalSearch.problem s')).
Proof.
  intros env Hu Henv Hf Ha Ht Hm Hcu He Hw Hc Hp s.
  destruct (MoveTypeFactory.created_sound hash p ps env f Hu Henv environment config auto named specs
    eq_refl Hf) as (moves & Em & Hmoves).
  assert (LocalSearch.sane hash p ps) as Hs.
  { split; [|done|done|done|apply Hu]. by rewrite (Ha moves Em). }
  assert (LocalSearch.inv_at p ps LocalSearch.Start s) as Hi.
  { split; [split; [done|done|by split|done]|]. by exists f. }
  split; [by rewrite Em|]. split.
  - intros fuel. by destruct (LocalSearch.run_safe hash p ps fuel LocalSearch.Start s Hs Hi) as (r & -> & _).
  - intros Hv. destruct (LocalSearch.run_total hash p ps LocalSearch.Start s Hs Hi Hv)
      as (fuel & b & s' & E & Hg & Hadv).
    exists fuel, b, s'. split; [done|]. split; [apply Hg|done].
Qed.

Lemma mixed_search_terminates_witness :
  is_Ok (MoveTypeFactory.createMoveTypes hash (λ _, move_env) None true named specs) = true ∧
  ∃ fuel solved s', LocalSearch.run hash fuel ps_moves LocalSearch.Start s0 = Ok (Some (solved, s')) ∧
    Problem.wf (LocalSearch.problem s') ∧ LocalSearch.advanced ps_moves p0 (LocalSearch.problem s').
Proof.
  destruct (mixed_search_terminates hash p0 ps_moves (λ _, move_env) None true named specs id
    (LocalSearch.state s0) (LocalSearch.progress s0)) as (H1 & _ & H2);
    [apply move_usable|apply move_env_ok|apply specs_fit| | |done|done|done|apply p0_wf| |
     reflexivity|].
  - intros moves E. unfold ps_moves, allowed. cbn [LocalSearch.allowedMoves]. by rewrite E.
  - apply (LocalSearch.sane_traversal hash p0 ps sane).
  - apply (LocalSearch.good_within p0 ps _ (proj1 initial)).
  - split; [exact H1|]. by apply H2.
Defined.

(** C6. The best of many candidates, evaluated on several threads under a time limit
    with either strategy: the result is that of a candidate no other evaluated
    candidate is better than, or nothing if there was none; the evaluated ones are
    a prefix of all, and all of them if the time suffices.  The only exception that
    reaches the caller is one of the pool that refused a task. *)
Theorem parallel_best_is_best `{G : ExpressionGraph} `{HO : HashOrder} {A} `{EA : EntityAttributes A}
    `{SE : !SearchEnv A} `{LG : !LawfulGraph G} `{EG : !EvaluableGraph G} {X}
    hash (p0 : Problem.t A) ps (env : MoveTypeEnv) f p x (inputs : list X) (moves : X → list Move) timeout :
  MoveHelper.usable p0 ps env f → Problem.wf p → LocalSearch.same_run p0 p → executor_ok x →
  (∀ i, i ∈ inputs → MoveHelper.candidate hash ps p (moves i)) →
  let evaluate i := MovesEvaluator.evaluate (LocalSearch.evaluator ps) p (moves i) in
  let values r := GlobalObjectiveValue.values
    (LocalSearchObjectiveValue.combinedValue (MoveResult.newValue_ r)) in
  (∃ e n, MoveHelper.findBest x inputs evaluate timeout = Throw e ∧ x_add x n = Some e) ∨
  ∃ r started, MoveHelper.findBest x inputs evaluate timeout = Ok r ∧ started `prefix_of` inputs ∧
    (∀ i, i ∈ started → ∃ ri, evaluate i = Ok ri ∧ ¬ MoveResult.lt (values ri) (values r)) ∧
    (MoveResult.empty_ r = true ∨ ∃ i ri, i ∈ started ∧ evaluate i = Ok ri ∧
       MoveResult.moveSet_ r = moves i ∧ MoveResult.newValue_ r = MoveResult.newValue_ ri) ∧
    ((∀ n, (x_seconds x n <? timeout)%D = true ∧ (timeout <=? x_seconds x n)%D = false) →
       started = inputs).
Proof.
  intros Hu Hw Hr Hx Hc evaluate values.
  set (w := λ i, match evaluate i with Ok r => r | Throw _ => MoveResult.makeEmpty end).
  assert (∀ i, i ∈ inputs → evaluate i = Ok (w i) ∧ MoveHelper.sound_result hash ps p (w i)) as Hev.
  { intros i Hi. destruct (MoveTypeUtils.evaluate_ok hash p0 ps env f Hu p Hw Hr (moves i) (Hc i Hi))
      as (ri & E & Hs). unfold w, evaluate. by rewrite E. }
  destruct (MoveHelper.findBest_best hash p0 ps env f Hu p Hw Hr x inputs evaluate w timeout Hx Hev)
    as [Hadd|(r & st & E & [_ Hch Hbest _] & Hp & Ht)]; [by left|right].
  assert (∀ i, i ∈ st → i ∈ inputs) as Hin by (destruct Hp as [k ->]; set_solver).
  exists r, st. split; [done|]. split; [done|]. split; [|split; [|done]].
  - intros i Hi. exists (w i). split; [by apply Hev, Hin|]. apply Hbest. by apply list_elem_of_fmap_2.
  - destruct Hch as (y & [->|(i & -> & Hi)%list_elem_of_fmap] & ->); [by left|right].
    destruct (Hev i (Hin i Hi)) as [Ei _]. exists i, (w i). split; [done|]. split; [done|]. simpl.
    by destruct (Chains.evaluate_moveSet ps p _ _ Ei) as [_ ->].
Qed.

Lemma parallel_best_is_best_witness :
  ∃ r started,
    MoveHelper.findBest (executor_at 0 0 0) [0; 1]
      (λ o, MovesEvaluator.evaluate evaluator p0 [makeMove hash o 0 1]) d1 = Ok r ∧
    started `prefix_of` [0; 1] ∧ started = [0; 1].
Proof.
  destruct (parallel_best_is_best hash p0 ps_moves move_env id p0 (executor_at 0 0 0) [0; 1]
    (λ o, [makeMove hash o 0 1]) d1) as [(e & n & _ & E)|(r & st & E & Hp & _ & _ & Ht)];
    [apply move_usable|apply p0_wf|by split|apply (move_env_ok 0%nat 0%nat 0%nat)| |discriminate E|].
  - intros o Ho. apply MoveTypeUtils.candidate_one; [|set_solver].
    apply elem_of_cons in Ho as [->|Ho]; [by vm_compute|].
    apply list_elem_of_singleton in Ho as ->. by vm_compute.
  - exists r, st. split; [exact E|]. split; [exact Hp|]. apply Ht. intros n. split; reflexivity.
Defined.

(** C7. Both ways of executing work in parallel, a window of pending tasks and a pool of
    consumers fed with batches through a bounded queue, end for every scheduler
    and every iterator that may stop early: the results of a prefix of the inputs
    are merged, each exactly once, of all inputs if the iterator does not stop
    early; an exception reaches the caller only if handling an input or merging
    results throws it, or the pool throws it instead of taking a task. *)
Theorem parallel_execution_outcome {X O Acc} (process : X → result O) (initialize : Acc) aggregate merge
    (advance : nat → list X → list X) (add : nat → option exn) batchSize capacity choice ticks begin inputs windowSize
    numThreads maxConcurrency :
  (∀ n x l, advance n (x :: l) = l ∨ advance n (x :: l) = []) →
  0 < windowSize → (0 < batchSize)%nat → (0 < capacity)%nat → maxConcurrency ≠ Some 0%nat →
  (∀ n, begin n = inputs ∨ begin n = []) →
  ParallelExecution.outcome process initialize aggregate merge add (∀ n x l, advance n (x :: l) = l) inputs
    (ParallelExecution.executeParallelWindow process initialize aggregate advance add choice ticks inputs
       windowSize) ∧
  ParallelExecution.outcome process initialize aggregate merge add
    ((∀ n x l, advance n (x :: l) = l) ∧ ∀ n, begin n = inputs) inputs
    (ParallelExecution.executeParallelBatch process initialize aggregate merge advance add batchSize capacity
       choice begin numThreads maxConcurrency).
Proof.
  intros Hcut Hw Hb Hc Hm Hbeg. split.
  - by apply ParallelExecution.executeParallelWindow_outcome.
  - apply ParallelExecution.executeParallelBatch_outcome;
      [done|by intros [? _]|done|done|done|auto|auto|intros [_ H]; auto].
Qed.

Lemma parallel_execution_outcome_witness :
  let process (x : Z) : result Z := if x =? 3 then Throw (runtime_error "three") else Ok x in
  let plus (a b : Z) : result Z := Ok (a + b) in
  let advance (_ : nat) (l : list Z) := tail l in
  let add (n : nat) := if (n =? 7)%nat then Some (runtime_error "queue full") else None in
  ParallelExecution.outcome process 0 plus plus add (∀ n x l, advance n (x :: l) = l) [1; 2; 4; 5]
    (ParallelExecution.executeParallelWindow process 0 plus advance add (λ n, n) 0 [1; 2; 4; 5] 3) ∧
  ParallelExecution.outcome process 0 plus plus add
    ((∀ n x l, advance n (x :: l) = l) ∧ ∀ _ : nat, [1; 2; 4; 5] = [1; 2; 4; 5]) [1; 2; 4; 5]
    (ParallelExecution.executeParallelBatch process 0 plus plus advance add 2 4 (λ n, n)
       (λ _, [1; 2; 4; 5]) 2 None).
Proof. apply parallel_execution_outcome; [auto|lia|lia|lia|done|auto]. Defined.

(** A run of each: all inputs are added up; an exception of a worker or of the pool,
    which takes one task here, reaches the caller. *)
Example parallel_runs :
  let process (x : Z) : result Z := if x =? 3 then Throw (runtime_error "three") else Ok x in
  let plus (a b : Z) : result Z := Ok (a + b) in
  let advance (_ : nat) (l : list Z) := tail l in
  let window add := ParallelExecution.executeParallelWindow process 0 plus advance add (λ n, n) 0 in
  let batches add := ParallelExecution.executeParallelBatch process 0 plus plus advance add 2 4 (λ n, n) in
  let full (n : nat) := if (0 <? n)%nat then Some (runtime_error "queue full") else None in
  window (λ _, None) [1; 2; 4; 5] 3 = Ok 12 ∧
  batches (λ _, None) (λ _, [1; 2; 4; 5]) 2%nat None = Ok 12 ∧
  batches (λ _, None) (λ _, [1; 2; 3; 5]) 2%nat None = Throw (runtime_error "three") ∧
  window full [1; 2; 4; 5] 3 = Throw (runtime_error "queue full") ∧
  batches full (λ _, [1; 2; 4; 5]) 2%nat None = Throw (runtime_error "queue full").
Proof. by vm_compute. Qed.

(** C29. The automatic choice of a strategy: whatever calls are recorded, the selector
    alternates the two strategies in the order A B B A over 24 counted calls and
    then stays with the one that evaluated more candidates per second over the
    calls made with it; it never throws. *)
Theorem selector_settles config self s0 observations :
  ParallelExecutionSelector.make (Some (ParallelExecutionSelector.autoExecution config)) self = Ok s0 →
  Forall ParallelExecutionSelector.plausible observations →
  let counted := filter (λ o, ParallelExecutionSelector.counted o = true) observations in
  ∃ s, foldM (ParallelExecutionSelector.record self) s0 observations = Ok s ∧
    ParallelExecutionSelector.batchingOptions_ s = ParallelExecutionSelector.makeBatchingOptions config ∧
    ((length counted < 24)%nat →
       ParallelExecutionSelector.isExploring s = true ∧
       ParallelExecutionSelector.strategy_ s = ParallelExecutionSelector.abba (length counted)) ∧
    ((24 ≤ length counted)%nat →
       ParallelExecutionSelector.isExploring s = false ∧
       ∃ w b,
         ParallelExecutionSelector.evaluationsPerSecond
           (ParallelExecutionSelector.total ParallelExecutionSelector.SlidingWindow (take 24 counted)) = Ok w ∧
         ParallelExecutionSelector.evaluationsPerSecond
           (ParallelExecutionSelector.total ParallelExecutionSelector.Batching (take 24 counted)) = Ok b ∧
         (ParallelExecutionSelector.strategy_ s = ParallelExecutionSelector.Batching ↔ (w <? b)%D = true)).
Proof.
  intros E Hp counted. exists (ParallelExecutionSelector.after s0 counted).
  split; [by eapply ParallelExecutionSelector.record_all|].
  assert (ParallelExecutionSelector.batchingOptions_ s0 =
    ParallelExecutionSelector.makeBatchingOptions config) as Eo by (by injection E as <-).
  assert (Forall (λ o, ParallelExecutionSelector.plausible o ∧ ParallelExecutionSelector.counted o = true) counted)
    as Hall.
  { apply Forall_forall. intros o [Hc Hin]%list_elem_of_filter. split; [|done].
    rewrite Forall_forall in Hp. by apply Hp. }
  clearbody counted. unfold ParallelExecutionSelector.after.
  destruct (Nat.ltb_spec (length counted) 24) as [Hl|Hl]; simpl.
  { split; [done|]. split; [|lia]. intros _. split; [|done]. by apply bool_decide_eq_true. }
  split; [done|]. split; [lia|]. intros _. split; [by apply bool_decide_eq_false; intros []|].
  assert (∀ s i, (i < 24)%nat → ParallelExecutionSelector.abba i = s →
    ParallelExecutionSelector.evaluationsPerSecond (ParallelExecutionSelector.total s (take 24 counted)) =
    Ok (dofZ (ParallelExecutionSelector.m_evaluations (ParallelExecutionSelector.total s (take 24 counted))) /
        ParallelExecutionSelector.m_durationSecs (ParallelExecutionSelector.total s (take 24 counted)))%D) as Hps.
  { intros s i Hi Es.
    destruct (ParallelExecutionSelector.total_spec s (take 24 counted)) as (_ & Hm & Hpos);
      [by apply Forall_take|].
    specialize (Hpos i ltac:(rewrite length_take; lia) Es).
    destruct Hm as [Hm|(_ & _ & Hd)]; [rewrite Hm in Hpos; done|].
    unfold ParallelExecutionSelector.evaluationsPerSecond. rewrite (proj2 (Z.leb_gt _ _)) by done.
    unfold positive in Hd. by rewrite Hd. }
  do 2 eexists. split; [by apply (Hps _ 0%nat); [lia|]|]. split; [by apply (Hps _ 1%nat); [lia|]|].
  by destruct (_ <? _)%D.
Qed.

Lemma selector_settles_witness :
  ∃ s, foldM (ParallelExecutionSelector.record 7)
      (ParallelExecutionSelector.mk ParallelExecutionSelector.SlidingWindow
         {| ParallelExecutionSelector.batchSize := 32; ParallelExecutionSelector.maxConcurrency := None |}
         (Some (ParallelExecutionSelector.mkExperiment 0 ParallelExecutionSelector.no_measurements
                  ParallelExecutionSelector.no_measurements)) 7)
      (replicate 24 {| ParallelExecutionSelector.evaluations := 10;
                       ParallelExecutionSelector.durationSecs := d1 |}) = Ok s ∧
    ParallelExecutionSelector.isExploring s = false.
Proof.
  destruct (selector_settles
    {| ParallelExecutionSelector.cfg_batchSize := 0; ParallelExecutionSelector.cfg_maxConcurrency := 0 |} 7
    (ParallelExecutionSelector.mk ParallelExecutionSelector.SlidingWindow
       {| ParallelExecutionSelector.batchSize := 32; ParallelExecutionSelector.maxConcurrency := None |}
       (Some (ParallelExecutionSelector.mkExperiment 0 ParallelExecutionSelector.no_measurements
                ParallelExecutionSelector.no_measurements)) 7)
    (replicate 24 {| ParallelExecutionSelector.evaluations := 10;
                     ParallelExecutionSelector.durationSecs := d1 |})) as (s & E & _ & _ & H).
  - reflexivity.
  - apply Forall_replicate. split; simpl; [reflexivity|vm_compute; discriminate].
  - exists s. split; [exact E|]. apply H. vm_compute. lia.
Defined.

(** C30. Sampling from several disjoint sets, whatever numbers are drawn: it does not
    throw, the sample has the required size or is everything that may be sampled, and
    the excluded element is never in it.  Only if no element is excluded, the sets
    contribute the same number of elements up to one unless a set is used up; with an
    excluded element the sets may contribute unevenly. *)
Theorem sampling_is_even `{RG : Rng R} (r : R) (sets : list (list Z)) total exclude :
  NoDup (mjoin sets) →
  ∃ s r', Sampling.getEqualSizeRandomSamplesFromEachSetIn r sets total exclude = Ok (s, r') ∧
    (∀ x, x ∈ s → x ∈ mjoin sets ∧ exclude ≠ Some x) ∧
    size s = Nat.min total (length (Sampling.kept exclude (mjoin sets))) ∧
    (exclude = None → ∀ a b, a ∈ sets → b ∈ sets →
       (size (s ∩ list_to_set a) ≤ size (s ∩ list_to_set b) + 1)%nat ∨ list_to_set b ⊆ s).
Proof.
  intros Hnd. destruct (Sampling.getEqualSize_spec r sets total exclude Hnd) as (s & r' & E & Hs & H).
  exists s, r'. split; [done|]. split; [|done]. intros x Hx%Hs.
  by rewrite elem_of_list_to_set, Sampling.kept_elem in Hx.
Qed.

Lemma sampling_is_even_witness :
  ∃ s r', Sampling.getEqualSizeRandomSamplesFromEachSetIn 5%nat
      [[1; 2]; [3]; [4; 5; 6]; []; [7; 8; 9; 10; 11]] 8 None = Ok (s, r') ∧ size s = 8%nat.
Proof.
  destruct (sampling_is_even 5%nat [[1; 2]; [3]; [4; 5; 6]; []; [7; 8; 9; 10; 11]] 8 None)
    as (s & r' & E & _ & Hs & _); [apply (bool_decide_unpack _); vm_compute; exact I|].
  exists s, r'. split; [exact E|]. rewrite Hs. reflexivity.
Defined.

(** The sizes for the sets of the source's example. *)
Example sample_sizes :
  (Sampling.getSamplesSizeForEachSet 5%nat [[1; 2]; [3]; [4; 5; 6]; []; [7; 8; 9; 10; 11]] 8).1 =
  Ok [2; 1; 2; 0; 3]%nat.
Proof. by vm_compute. Qed.

(** The bundles a container offers for moves of several objects: without size
    overrides every bundle, of one equivalence set or mixed, has exactly the
    bundle size and consists of distinct dynamic objects of the container that are
    in one group; the assignment is unchanged but for the index that is built. *)
Theorem bundles_have_the_bundle_size `{HO : HashOrder} `{RG : Rng R} (rng0 : R) a partition p src k es f g
    hetero :
  1 ≤ k < u64_mod → Assignment.inv a →
  Assignment.partitionToPerContainerObjectIndexByGroups a !! p = None →
  (∀ o, Assignment.is_dynamic a o → getObjectIdToGroupIds partition !! o = Some [g o]) →
  (∀ o, Assignment.is_dynamic a o → es_at es o = Ok (f o)) →
  Assignment.getDynamicObjects a src ≠ [] →
  ∃ bundles a',
    Bundles.moveType_getObjectBundlesToExplore rng0 partition p src k ∅ a es hetero = Ok (bundles, a') ∧
    Assignment.inv a' ∧ Assignment.objectToContainer a' = Assignment.objectToContainer a ∧
    ∀ bundle, bundle ∈ bundles → NoDup bundle ∧ Z.of_nat (length bundle) = k ∧
      ∃ group, ∀ o, o ∈ bundle → o ∈ Assignment.getDynamicObjects a src ∧ g o = group.
Proof.
  intros Hk Ha Hp Hg Hf Hne. unfold Bundles.moveType_getObjectBundlesToExplore.
  rewrite (proj2 (Z.ltb_ge k 1)) by lia.
  destruct (Bundles.getObjectBundles_exact k Hk rng0 a partition p src es f g hetero Ha Hp Hg Hf Hne)
    as (bs & a' & E & Ha' & Ho & Hb).
  exists bs, a'. split; [done|]. split; [done|]. split; [done|]. intros b Hin.
  rewrite Forall_forall in Hb. by apply Hb.
Qed.

Definition one_group : PartitionView := {| getObjectIdToGroupIds := {[0 := [5]; 1 := [5]]} |}.

Lemma start_dynamic o : Assignment.is_dynamic start o → o = 0 ∨ o = 1.
Proof.
  intros [Ho%elem_of_dom _].
  assert (dom (Assignment.objectToContainer start) = {[0; 1]}) as E
    by (by apply (bool_decide_unpack _); vm_compute).
  rewrite E in Ho. set_solver.
Qed.

Lemma bundles_have_the_bundle_size_witness :
  ∃ bundles a', Bundles.moveType_getObjectBundlesToExplore 0%nat one_group 9 0 2 ∅ start es true =
      Ok (bundles, a') ∧ Assignment.inv a' ∧
    ∀ bundle, bundle ∈ bundles → NoDup bundle ∧ Z.of_nat (length bundle) = 2 ∧
      ∃ group, ∀ o, o ∈ bundle → o ∈ Assignment.getDynamicObjects start 0 ∧ 5 = group.
Proof.
  destruct (bundles_have_the_bundle_size 0%nat start one_group 9 0 2 es id (λ _, 5) true)
    as (bs & a' & E & Ha & _ & Hb).
  - done.
  - apply start_inv.
  - reflexivity.
  - intros o [-> | ->]%start_dynamic; reflexivity.
  - done.
  - vm_compute. discriminate.
  - exists bs, a'. split; [exact E|]. split; [exact Ha|exact Hb].
Defined.

(** With a size override for a group the mixed bundles of the group keep the general
    size: a group whose bundles must have two objects offers a bundle of one. *)
Theorem mixed_bundles_ignore_the_override :
  ∃ a', Bundles.moveType_getObjectBundlesToExplore 0%nat one_group 9 0 1 {[5 := 2]} start es true =
    Ok ([[0]], a').
Proof. eexists. vm_compute. reflexivity. Qed.

(** C31. The candidates of a swap by a dimension: for every hot object of its equivalence
    set the generator does not throw; every candidate pairs a bundle around the hot
    object with bundles of equivalent cold objects of the sizes the dimension asks
    for, one side being a single object; and every equivalence class of cold objects
    for which there are enough objects on both sides is represented by one of its cold
    objects.  A class for which a bundle cannot be formed is left out; the comment of
    the declaration says that the function throws then, which it does not. *)
Theorem swap_candidates_are_exact `{HO : HashOrder} hotObjects hotObject coldObjects f at_set getValue flag :
  hotObject ∈ hotObjects → NoDup hotObjects → NoDup coldObjects →
  (∀ o, o ∈ coldObjects → at_set o = Ok (f o)) → (∀ o v, getValue o = Ok v → fin v) →
  (∀ o, o ∈ coldObjects → ∃ h c, Bundles.getBundleSizes getValue flag hotObject o = Ok (h, c)) →
  ∃ candidates, Bundles.generateDimensionBasedSwapCandidates flag at_set (Some hotObjects) hotObject
      coldObjects (Some getValue) = Ok candidates ∧
    (∀ hotBundle coldBundles, (hotBundle, coldBundles) ∈ candidates → ∃ h,
       Bundles.anchored hotObjects hotObject h hotBundle ∧
       ∀ coldBundle, coldBundle ∈ coldBundles → ∃ coldObject c,
         Bundles.anchored (filter (λ x, f x = f coldObject) coldObjects) coldObject c coldBundle ∧
         Bundles.getBundleSizes getValue flag hotObject coldObject = Ok (h, c) ∧ (h = 1 ∨ c = 1)) ∧
    ∀ o, o ∈ coldObjects → ∃ o', o' ∈ coldObjects ∧ f o' = f o ∧
      ((∀ h c, Bundles.getBundleSizes getValue flag hotObject o' = Ok (h, c) →
          h ≤ Z.of_nat (length hotObjects) ∧
          c ≤ Z.of_nat (length (filter (λ x, f x = f o') coldObjects))) →
       Bundles.covers candidates o').
Proof.
  intros Hin Nh Nc Hat Hv Hs.
  destruct (Bundles.generate_dimension hotObjects hotObject coldObjects f at_set Hin Nh Nc Hat getValue flag
    Hv Hs) as (cands & E & Hall & Hcov).
  exists cands. split; [done|]. split; [|exact Hcov].
  intros hb cbs Hc. rewrite Forall_forall in Hall. destruct (Hall _ Hc) as (h & Ha & Hf).
  exists h. split; [done|]. intros cb Hcb. destruct (Hf cb Hcb) as (co & c & H1 & H2 & H3). eauto.
Qed.

(** Objects 0 and 1 weigh one, objects 2 to 4 weigh two. *)
Definition weight (o : Z) : result double := Ok (if o <? 2 then d1 else d2).
Definition weight_class (o : Z) : Z := if o <? 2 then 0 else 1.

Lemma swap_candidates_are_exact_witness :
  ∃ candidates, Bundles.generateDimensionBasedSwapCandidates true (λ o, Ok (weight_class o))
      (Some [0; 1]) 0 [2; 3; 4] (Some weight) = Ok candidates ∧
    ∃ o', o' ∈ [2; 3; 4] ∧ weight_class o' = weight_class 3 ∧
      ((∀ h c, Bundles.getBundleSizes weight true 0 o' = Ok (h, c) →
          h ≤ Z.of_nat (length [0; 1]) ∧
          c ≤ Z.of_nat (length (filter (λ x, weight_class x = weight_class o') [2; 3; 4]))) →
       Bundles.covers candidates o').
Proof.
  destruct (swap_candidates_are_exact [0; 1] 0 [2; 3; 4] weight_class (λ o, Ok (weight_class o)) weight true)
    as (cands & E & _ & Hcov).
  - apply (bool_decide_unpack _). vm_compute. exact I.
  - apply (bool_decide_unpack _). vm_compute. exact I.
  - apply (bool_decide_unpack _). vm_compute. exact I.
  - done.
  - intros o v [= <-]. by destruct (o <? 2).
  - intros o Ho. exists 2, 1.
    apply elem_of_cons in Ho as [->|[->|Ho]%elem_of_cons]; [by vm_compute..|].
    apply list_elem_of_singleton in Ho as ->. by vm_compute.
  - exists cands. split; [exact E|]. apply (Hcov 3). apply (bool_decide_unpack _). vm_compute. exact I.
Defined.

(** Two light objects are exchanged for one heavy one. *)
Example uneven_swap :
  Bundles.generateDimensionBasedSwapCandidates true (λ o, Ok (weight_class o))
    (Some [0; 1]) 0 [2; 3; 4] (Some weight) = Ok [([0; 1], [[2]])].
Proof. by vm_compute. Qed.

(** Moving an object only once is not kept by chains: an object that was moved before, and
    so is fixed, is moved again by the second move of a chain, in an evaluated
    improvement. *)
Example chain_moves_a_fixed_object :
  Problem.moveObjectsOnce once_problem = true ∧ 1 ∈ Problem.fixed_objects once_problem ∧
  ∃ r, Chains.singleEndChain_findBestMove hash chain_env evaluator once_problem 0 0 d1 = Ok r ∧
    MoveResult.isBetter r (Problem.precision once_problem) = Ok true ∧
    1 ∈ move_object <$> MoveResult.moveSet_ r.
Proof.
  split; [done|]. split; [apply (bool_decide_unpack _); vm_compute; exact I|].
  eexists. split; [vm_compute; reflexivity|]. split; [vm_compute; reflexivity|].
  apply (bool_decide_unpack _). vm_compute. exact I.
Qed.

#[local] Existing Instance CartesianProduct.forward_iterator_iterator.
#[local] Existing Instance CartesianProduct.random_iterator.

(** The two iterators over a Cartesian product, the one for forward collections and
    the one with random access, yield the pairs of the nested loops in their
    order, and an offset leads to the pair at that position; the iterator over any
    number of collections yields the tuples of the nested loops. *)
Theorem cartesian_iterators_agree {X Y} (l1 : list X) (l2 : list Y) (cs : list (list X)) fuel :
  elements (CartesianProduct.forward_begin l1 l2) = elements (CartesianProduct.random_begin l1 l2) ∧
  elements (CartesianProduct.random_begin l1 l2) = (x ← l1; (λ y, (x, y)) <$> l2) ∧
  (∀ i xy, (x ← l1; (λ y, (x, y)) <$> l2) !! i = Some xy →
     CartesianProduct.at_offset (CartesianProduct.random_begin l1 l2) (Z.of_nat i) = Ok xy) ∧
  (cs ≠ [] → (length (MultiCollectionCartesianProduct.product cs) < fuel)%nat →
   MultiCollectionCartesianProduct.collect fuel (MultiCollectionCartesianProduct.begin cs) =
   MultiCollectionCartesianProduct.product cs).
Proof.
  split; [by rewrite CartesianProduct.forward_elements, CartesianProduct.random_elements|].
  split; [apply CartesianProduct.random_elements|]. split.
  - intros i xy Hi. change (CoroUtils.all_pairs l1 l2 !! i = Some xy) in Hi.
    pose proof (lookup_lt_Some _ _ _ Hi) as Hl. rewrite CoroUtils.length_all_pairs in Hl.
    destruct (CartesianProduct.deref_spec l1 l2 i Hl) as (xy' & E1 & E2). rewrite Hi in E1.
    injection E1 as <-. exact E2.
  - intros Hne Hf. rewrite MultiCollectionCartesianProduct.collect_product by done. by destruct cs.
Qed.

(** C33. The move set the group routing builds is legal, and serves the sources of the
    group: for every origin of a routing ring, the nearest destination where the group
    is already or where its first object may move to keeps an object of the group or
    gets one, if the group has an object to spare for every destination it is new to.
    The answers the code caches between origins change nothing. *)
Theorem routing_serves_sources `{G : ExpressionGraph} `{HO : HashOrder} {A}
    `{EA : EntityAttributes A} `{SE : !SearchEnv A} `{LG : !LawfulGraph G} `{EG : !EvaluableGraph G}
    hash (p0 : Problem.t A) ps (env : MoveTypeEnv) f (p : Problem.t A) config g o rest rings :
  MoveHelper.usable p0 ps env f → env_ok env → Problem.wf p → LocalSearch.same_run p0 p →
  GroupMoves.routing_fits p0 ps config → Chains.objectsOf (routing_groups config) g = o :: rest →
  routingRings config !! g = Some rings →
  let place := Assignment.objectToContainer (Problem.assignment p) in
  ∃ (presence : gset Z) src moves,
    (∀ c, c ∈ presence ↔ ∃ x, x ∈ o :: rest ∧ place !! x = Some c) ∧ place !! o = Some src ∧
    GroupMoves.generateMoveSetFor hash config env p g = Ok moves ∧
    MoveHelper.candidate hash ps p moves ∧
    let nearest := GroupMoves.nearest hash env p config presence o src in
    let best := omap nearest rings in
    GroupMoves.bestDestinationsForEachSource hash config env p presence o src rings = Ok best ∧
    ((size (list_to_set (C := gset Z) (filter (λ c, c ∉ presence) best)) ≤
      length (filter (λ x, default 0%Z (place !! x) ∉ best) (o :: rest)))%nat →
     ∀ origin d, origin ∈ rings → nearest origin = Some d →
       ∃ x, x ∈ o :: rest ∧
         ((place !! x = Some d ∧ x ∉ (move_object <$> moves)) ∨
          (∃ c, place !! x = Some c ∧ makeMove hash x c d ∈ moves))).
Proof.
  intros Hu He Hw Hr Hf Eg Er place.
  destruct (GroupMoves.generateMoveSet_spec hash p0 ps env f Hu He p Hw Hr config g o rest rings Hf Eg Er)
    as (presence & src & keep & ms & Hp & Hs & Hk & Em & Hc & Hserve).
  exists presence, src, ms. split_and!; [done..|].
  assert (∀ x, x ∈ o :: rest → is_Some (place !! x)) as Hpl.
  { intros x Hx. rewrite <- Eg in Hx.
    destruct (GroupMoves.group_placed p0 p Hr _ _ _ (GroupMoves.rf_partition _ _ _ Hf) Hx) as (c & _ & E). by exists c. }
  split; [by eapply GroupMoves.destinations_spec|].
  intros Hlen origin d Ho Hn. destruct Hserve with d as (x & Hx & H).
  - etrans; [exact Hlen|]. fold place. clear -Hk. induction (o :: rest) as [|x l IH]; [done|].
    rewrite !filter_cons. repeat case_decide; simpl; first [lia|naive_solver].
  - apply list_elem_of_omap. eauto.
  - exists x. split; [done|]. destruct (Hpl x Hx) as [c Ec]. fold place in H. rewrite Ec in H. simpl in H.
    destruct H as [[-> ?]|H]; [by left|right; eauto].
Qed.

Lemma routing_serves_sources_witness :
  ∃ moves, GroupMoves.generateMoveSetFor hash routing_config (swap_base move_env) p0 0 = Ok moves ∧
    MoveHelper.candidate hash ps_moves p0 moves.
Proof.
  destruct (routing_serves_sources hash p0 ps_moves (swap_base move_env) id p0 routing_config 0 0 [] [7])
    as (presence & src & ms & Hp & Hs & E & Hc & _);
    [apply move_usable|apply move_env_ok|apply p0_wf|done|apply routing_fit|done|done|].
  exists ms. by split.
Defined.
