(* ===== verification/TraversalTheorems.v ===== *)
(** * Theorems on the traversal of the hot containers

    The two incremental queues, the order in which the containers are visited with
    either of them, the cached potentials of the children, the containers of a subgraph
    and the merged potentials of the objects. *)

From Stdlib Require Import Sorting.Sorted.
From S2P Require Import Prelude Double Exact Precision ChangeSet AccessOrderedSet Queues Assignment Lookup Iterators IncrementalQueue GroupQueue Traversal TraversalFacts Potentials PotentialsMerge.

Open Scope Z_scope.

(** ** Programs over a queue *)
Section programs.
Context {T Q : Type} `{PQ : PriorityQueue T Q}.

Inductive queue_op := Update (items : list T) | Remove (x : T).

(** What a client sees after an operation. *)
Record observation := mkObservation { o_size : Z; o_empty : bool; o_top : option (T * bool) }.

Definition observe (q : Q) : result (observation * Q) :=
  if q_isEmpty q then Ok (mkObservation (q_size q) true None, q)
  else
    '(x, q') ← q_top q;
    b ← q_is_top_strict q';
    Ok (mkObservation (q_size q') false (Some (x, b)), q').

Definition queue_step (q : Q) (op : queue_op) : result Q :=
  match op with Update items => q_update q items | Remove x => q_remove q x end.

Fixpoint run (ops : list queue_op) (q : Q) : result (list observation) :=
  match ops with
  | [] => Ok []
  | op :: ops =>
      q ← queue_step q op;
      '(o, q) ← observe q;
      os ← run ops q;
      Ok (o :: os)
  end.

Fixpoint num_updates (ops : list queue_op) : Z :=
  match ops with [] => 0 | Update _ :: ops => num_updates ops + 1 | Remove _ :: ops => num_updates ops end.
End programs.
Arguments queue_op : clear implicits.
Arguments observation : clear implicits.

Section agree.
Context `{Countable T} {lt : T → T → bool} `{ST : !StdSet.StrictTotal (λ _, True) lt}.
Context {Q1 Q2 : Type} `{P1 : PriorityQueue T Q1} `{P2 : PriorityQueue T Q2}.
Context `{L1 : !QueueLaws T Q1 lt} `{L2 : !QueueLaws T Q2 lt}.

Lemma num_updates_nonneg (ops : list (queue_op T)) : 0 ≤ num_updates ops.
Proof. induction ops as [|[]]; simpl; lia. Qed.

Lemma observe_agree (r : ranking T) (q1 : Q1) (q2 : Q2) : q_rel r q1 → q_rel r q2 →
  ∃ o q1' q2', observe q1 = Ok (o, q1') ∧ observe q2 = Ok (o, q2') ∧ q_rel r q1' ∧ q_rel r q2'.
Proof.
  intros R1 R2. unfold observe. rewrite (q_isEmpty_rel r q1 R1), (q_isEmpty_rel r q2 R2).
  case_bool_decide as Hs.
  - rewrite (q_size_rel r q1 R1), (q_size_rel r q2 R2). eauto 10.
  - destruct (first_exists (lt := lt) r Hs) as [x Hx].
    destruct (q_top_rel r q1 x R1 Hx) as (q1' & -> & R1'), (q_top_rel r q2 x R2 Hx) as (q2' & -> & R2').
    destruct (q_strict_rel r q1' x R1' Hx) as (b1 & E1 & S1), (q_strict_rel r q2' x R2' Hx) as (b2 & E2 & S2).
    cbn [mbind result_bind]. rewrite E1, E2. cbn [mbind result_bind].
    rewrite (q_size_rel r q1' R1'), (q_size_rel r q2' R2').
    assert (b1 = b2) as -> by (apply eq_true_iff_eq; by rewrite S1, S2). eauto 10.
Qed.

Lemma run_agree ops : ∀ (r : ranking T) (q1 : Q1) (q2 : Q2), q_rel r q1 → q_rel r q2 →
  count r + num_updates ops ≤ int_max →
  ∃ os, run ops q1 = Ok os ∧ run ops q2 = Ok os.
Proof.
  induction ops as [|op ops IH]; intros r q1 q2 R1 R2 Hc; [by exists []|].
  assert (∃ r' q1' q2', queue_step q1 op = Ok q1' ∧ queue_step q2 op = Ok q2' ∧ q_rel r' q1' ∧ q_rel r' q2' ∧
    count r' + num_updates ops ≤ int_max) as (r' & q1' & q2' & E1 & E2 & R1' & R2' & Hc').
  { pose proof (num_updates_nonneg ops). destruct op as [items|x]; cbn [num_updates] in Hc.
    - destruct (q_update_rel r q1 items R1 ltac:(lia)) as (q1' & ? & ?), (q_update_rel r q2 items R2 ltac:(lia)) as (q2' & ? & ?).
      exists (rank_update r items), q1', q2'. split_and!; [done..|]. simpl. rewrite (proj1 (touches_count items r)). lia.
    - destruct (q_remove_rel r q1 x R1) as (q1' & ? & ?), (q_remove_rel r q2 x R2) as (q2' & ? & ?).
      exists (rank_remove r x), q1', q2'. split_and!; done. }
  cbn [run]. rewrite E1, E2. cbn [mbind result_bind].
  destruct (observe_agree r' q1' q2' R1' R2') as (o & q1'' & q2'' & -> & -> & R1'' & R2'').
  cbn [mbind result_bind]. destruct (IH r' q1'' q2'' R1'' R2'' Hc') as (os & -> & ->). eauto.
Qed.
End agree.

#[local] Existing Instance IncrementalPriorityQueue.v1_queue.
#[local] Existing Instance IncrementalPriorityQueue.v1_laws.
#[local] Existing Instance GroupQueue.v2_queue.
#[local] Existing Instance GroupQueue.v2_laws.

(** C11. [IncrementalPriorityQueueV2], the list of priority groups that are split by an
    update, and [IncrementalPriorityQueue], the map sorted by sequences, cannot be told
    apart: over any program of fewer than 2^31 updates with removals in between, neither
    throws and both show the same size, the same top and the same answer to whether the
    top is strict after every operation. *)
Theorem queues_agree `{Countable T} (lt : T → T → bool) `{ST : !StdSet.StrictTotal (λ _, True) lt}
    (ops : list (queue_op T)) :
  num_updates ops ≤ int_max →
  ∃ os, run (PQ := IncrementalPriorityQueue.v1_queue (lt := lt)) ops IncrementalPriorityQueue.empty = Ok os ∧
    run (PQ := GroupQueue.v2_queue (lt := lt)) ops IncrementalPriorityQueueV2.empty = Ok os.
Proof.
  intros Hn. apply (run_agree ops rank_empty); [| |done].
  - exact (q_empty_rel (QueueLaws := IncrementalPriorityQueue.v1_laws (lt := lt))).
  - exact (q_empty_rel (QueueLaws := GroupQueue.v2_laws (lt := lt))).
Qed.

#[local] Instance Zlt_total : StdSet.StrictTotal (λ _ : Z, True) Z.ltb.
Proof. split; intros *; rewrite ?Z.ltb_lt, ?Z.ltb_ge; lia. Qed.

(** Six containers, an update that splits a group, one that moves a single item up and
    removals of the top. *)
Definition sample_ops : list (queue_op Z) :=
  [Update [5; 3; 4]; Update [1; 3]; Update [1; 2; 4]; Remove 3; Update [6]; Remove 4; Remove 5; Remove 1].

Lemma queues_agree_witness :
  num_updates sample_ops ≤ int_max ∧
  (∃ os, run (PQ := IncrementalPriorityQueue.v1_queue (lt := Z.ltb)) sample_ops IncrementalPriorityQueue.empty = Ok os ∧
    run (PQ := GroupQueue.v2_queue (lt := Z.ltb)) sample_ops IncrementalPriorityQueueV2.empty = Ok os) ∧
  run (PQ := GroupQueue.v2_queue (lt := Z.ltb)) sample_ops IncrementalPriorityQueueV2.empty = Ok [
    mkObservation 3 false (Some (3, false)); mkObservation 4 false (Some (3, true));
    mkObservation 5 false (Some (3, true)); mkObservation 4 false (Some (4, true));
    mkObservation 5 false (Some (4, true)); mkObservation 4 false (Some (5, true));
    mkObservation 3 false (Some (1, true)); mkObservation 2 false (Some (2, true))].
Proof.
  split; [by vm_compute|]. split; [|vm_compute; reflexivity].
  apply (queues_agree Z.ltb sample_ops). by vm_compute.
Defined.

(** ** The order of the hot containers *)
Section hot_containers.
Context `{HO : HashOrder} (twang : Z → Z) (v : ExpressionView) (nodes : gset Z).
Context (objectives : list Z) (skipOptimal prune : bool) (seed : Z).

Abbreviation cfg := (DescendingExpressionContainersTraversal.config skipOptimal prune).

(** The traversal from [begin()] to [end()]. *)
Definition traverse (Q : Type) `{PriorityQueue ContainerWithPriority Q} (fuel : nat) : result (list Z) :=
  it ← DescendingExpressionContainersTraversal.begin (Q := Q) twang nodes v objectives skipOptimal prune seed;
  DescendingExpressionContainersTraversal.visit twang fuel cfg nodes v it.

Definition all_updates : list (list ContainerWithPriority) :=
  ContainersFacts.updates twang cfg v nodes skipOptimal seed (PreOrderExpressionIterator.begin cfg v <$> objectives).

Definition final_ranking : ranking ContainerWithPriority := foldl rank_update rank_empty all_updates.

(** The container is affected by an expression the traversal meets and does not ignore. *)
Definition hot (c : Z) : Prop := ∃ root p s, root ∈ objectives ∧
  p ∈ walk cfg ExpressionContainersIterator.shouldExpand v nodes (PreOrderExpressionIterator.begin cfg v root) ∧
  ExpressionContainersIterator.ignored v skipOptimal p = false ∧
  ExpressionContainersIterator.affected v p.1 = Some s ∧ c ∈ s.

Lemma traverse_spec Q `{PQ : PriorityQueue ContainerWithPriority Q} `{!QueueLaws ContainerWithPriority Q ContainerWithPriority_lt} fuel :
  closed v nodes → (∀ e, e ∈ objectives → e ∈ nodes) → Z.of_nat (length all_updates) ≤ int_max →
  (size (seen final_ranking) ≤ fuel)%nat →
  ∃ l, traverse Q fuel = Ok (containerId <$> l) ∧ in_order (lt := ContainerWithPriority_lt) final_ranking l.
Proof.
  intros Hc Ho Hn Hf.
  destruct (ContainersFacts.traversal_spec twang (Q := Q) cfg v nodes Hc objectives skipOptimal seed fuel Ho Hn Hf)
    as (it & l & E & Ev & Hl).
  exists l. split; [|done]. unfold traverse, DescendingExpressionContainersTraversal.begin. by rewrite E.
Qed.

Lemma updates_elem x : (∃ u, u ∈ all_updates ∧ x ∈ u) ↔
  hot (containerId x) ∧ x = ExpressionContainersIterator.randomizeContainer twang seed (containerId x).
Proof.
  unfold all_updates, ContainersFacts.updates, ContainersFacts.contribution, hot. split.
  - intros (u & Hu & Hx). apply list_elem_of_bind in Hu as (it & Hu & Hit).
    apply list_elem_of_fmap in Hit as (root & -> & Hroot). apply list_elem_of_bind in Hu as (p & Hu & Hp).
    destruct (ExpressionContainersIterator.ignored v skipOptimal p) eqn:Ei; [by apply elem_of_nil in Hu|].
    destruct (ExpressionContainersIterator.affected v p.1) as [s|] eqn:Ea; [|by apply elem_of_nil in Hu].
    apply list_elem_of_singleton in Hu as ->. unfold ExpressionContainersIterator.randomizeContainers in Hx.
    apply list_elem_of_fmap in Hx as (c & -> & Hc%set_iter_elem). split; [|done]. simpl. by exists root, p, s.
  - intros [(root & p & s & Hroot & Hp & Ei & Ea & Hc) Hx].
    exists (ExpressionContainersIterator.randomizeContainers twang seed s). split.
    + apply list_elem_of_bind. exists (PreOrderExpressionIterator.begin cfg v root). split.
      * apply list_elem_of_bind. exists p. split; [|done]. rewrite Ei, Ea. by apply list_elem_of_singleton.
      * by apply list_elem_of_fmap_2.
    + rewrite Hx. apply list_elem_of_fmap_2. by apply set_iter_elem.
Qed.

Lemma ranked_elem x : is_Some (seen final_ranking !! x) ↔
  hot (containerId x) ∧ x = ExpressionContainersIterator.randomizeContainer twang seed (containerId x).
Proof.
  unfold final_ranking. rewrite ContainersFacts.updates_seen by done. rewrite updates_elem. cbn [seen rank_empty].
  rewrite lookup_empty. split; [intros [[? [=]]|?]; done|by right].
Qed.

Lemma ordered_ids l : in_order (lt := ContainerWithPriority_lt) final_ranking l →
  NoDup (containerId <$> l) ∧ ∀ c, c ∈ containerId <$> l ↔ hot c.
Proof.
  intros Hl. pose proof (in_order_NoDup _ _ Hl) as Hn.
  assert (∀ x, x ∈ l → x = ExpressionContainersIterator.randomizeContainer twang seed (containerId x)) as Hx.
  { intros x Hx%(io_elem _ _ Hl). by apply ranked_elem. }
  split.
  - apply NoDup_fmap_2_strong; [|done]. intros x y Hxl Hyl E. by rewrite (Hx x Hxl), (Hx y Hyl), E.
  - intros c. rewrite list_elem_of_fmap. split.
    + intros (x & -> & Hxl%(io_elem _ _ Hl)). by apply ranked_elem in Hxl as [? _].
    + intros Hc. exists (ExpressionContainersIterator.randomizeContainer twang seed c). split; [done|].
      apply (io_elem _ _ Hl), ranked_elem. done.
Qed.
End hot_containers.

(** C10. The traversal of the hot containers gives every container exactly once that is
    affected by an expression it reaches and does not ignore, and no other; their order
    is the ranking of all updates the walk over the expressions makes, although the queue
    is only fed until its top is strict, and it is the same with either queue. *)
Theorem hot_containers_in_order `{HO : HashOrder} twang v nodes objectives skipOptimal prune seed fuel :
  closed v nodes → (∀ e, e ∈ objectives → e ∈ nodes) →
  Z.of_nat (length (all_updates twang v nodes objectives skipOptimal prune seed)) ≤ int_max →
  (size (seen (final_ranking twang v nodes objectives skipOptimal prune seed)) ≤ fuel)%nat →
  ∃ l, traverse twang v nodes objectives skipOptimal prune seed
         (IncrementalPriorityQueue.t ContainerWithPriority)
         (H := IncrementalPriorityQueue.v1_queue (lt := ContainerWithPriority_lt)) fuel = Ok (containerId <$> l) ∧
    traverse twang v nodes objectives skipOptimal prune seed
         (IncrementalPriorityQueueV2.t ContainerWithPriority)
         (H := GroupQueue.v2_queue (lt := ContainerWithPriority_lt)) fuel = Ok (containerId <$> l) ∧
    in_order (lt := ContainerWithPriority_lt) (final_ranking twang v nodes objectives skipOptimal prune seed) l ∧
    NoDup (containerId <$> l) ∧
    ∀ c, c ∈ containerId <$> l ↔ hot v nodes objectives skipOptimal prune c.
Proof.
  intros Hc Ho Hn Hf.
  destruct (traverse_spec twang v nodes objectives skipOptimal prune seed (IncrementalPriorityQueue.t ContainerWithPriority)
    (PQ := IncrementalPriorityQueue.v1_queue (lt := ContainerWithPriority_lt)) fuel Hc Ho Hn Hf)
    as (l & E1 & Hl1).
  destruct (traverse_spec twang v nodes objectives skipOptimal prune seed (IncrementalPriorityQueueV2.t ContainerWithPriority)
    (PQ := GroupQueue.v2_queue (lt := ContainerWithPriority_lt)) fuel Hc Ho Hn Hf)
    as (l2 & E2 & Hl2).
  rewrite <-(in_order_unique _ l l2 Hl1 Hl2) in E2. destruct (ordered_ids _ _ _ _ _ _ _ _ Hl1) as [Hd He].
  by exists l.
Qed.

(** Two objectives over four expressions: 1 has the children 3 and 4, 2 has 4 and 5;
    3 affects the containers 10 and 11, 4 the containers 11 and 12 and 5 the container 13;
    5 has reached its bound. *)
Definition sample_view : ExpressionView := {|
  isFixed := λ _, false;
  potentials := λ e, if decide (e = 1) then [(3, dofZ 4); (4, dofZ 2)]
                     else if decide (e = 2) then [(4, dofZ 3); (5, d0)] else [];
  rootPotential := λ e, if decide (e = 1) then dofZ 6 else dofZ 3;
  directlyAffected := λ e, if decide (e = 3) then Some {[10; 11]} else if decide (e = 4) then Some {[11; 12]}
                           else if decide (e = 5) then Some {[13]} else None;
  uniqueAffected := λ _, None;
  viewPrecision := defaultTolerances
|}.

Definition sample_nodes : gset Z := {[1; 2; 3; 4; 5]}.

Definition sample_twang (x : Z) : Z := x `mod` 7.

#[local] Existing Instance canonical_order.

Lemma sample_closed : closed sample_view sample_nodes.
Proof.
  intros e c w _ Hc. simpl in Hc. unfold sample_nodes. repeat case_decide; set_solver.
Qed.

Lemma hot_containers_in_order_witness :
  (∃ l, traverse sample_twang sample_view sample_nodes [1; 2] true true 0
         (IncrementalPriorityQueue.t ContainerWithPriority)
         (H := IncrementalPriorityQueue.v1_queue (lt := ContainerWithPriority_lt)) 4 = Ok (containerId <$> l) ∧
    traverse sample_twang sample_view sample_nodes [1; 2] true true 0
         (IncrementalPriorityQueueV2.t ContainerWithPriority)
         (H := GroupQueue.v2_queue (lt := ContainerWithPriority_lt)) 4 = Ok (containerId <$> l) ∧
    in_order (lt := ContainerWithPriority_lt) (final_ranking sample_twang sample_view sample_nodes [1; 2] true true 0) l ∧
    NoDup (containerId <$> l) ∧
    ∀ c, c ∈ containerId <$> l ↔ hot sample_view sample_nodes [1; 2] true true c) ∧
  traverse sample_twang sample_view sample_nodes [1; 2] true true 0
    (IncrementalPriorityQueueV2.t ContainerWithPriority)
    (H := GroupQueue.v2_queue (lt := ContainerWithPriority_lt)) 4 = Ok [11; 10; 12].
Proof.
  split; [|vm_compute; reflexivity].
  apply (hot_containers_in_order sample_twang sample_view sample_nodes [1; 2] true true 0 4).
  - apply sample_closed.
  - unfold sample_nodes. set_solver.
  - by vm_compute.
  - vm_compute. lia.
Defined.

(** ** The potentials of the children *)
Section refreshes.
Context (coefficient : Z → double) (bounds : Z → double * double) (affectedSize : Z → option Z) (children : list Z).

(** Each apply marks the cache, each traversal reads it. *)
Definition read_after_apply (s : ChildPotentials.t) (value : Z → double) : ChildPotentials.t :=
  ChildPotentials.getDescendingChildPotentials coefficient bounds affectedSize children value
    (ChildPotentials.markDirty s).

Lemma read_cached value s : ChildPotentials.regular coefficient bounds children value →
  ChildPotentials.potentials_ s = [] ∨ ChildPotentials.cached coefficient bounds affectedSize children s →
  ChildPotentials.potentials_ (read_after_apply s value) =
    ChildPotentials.from_scratch coefficient bounds affectedSize children value ∧
  (ChildPotentials.potentials_ (read_after_apply s value) = [] ∨
   ChildPotentials.cached coefficient bounds affectedSize children (read_after_apply s value)).
Proof.
  intros Hr Hs. unfold read_after_apply, ChildPotentials.getDescendingChildPotentials.
  destruct children as [|e l] eqn:El.
  - assert (ChildPotentials.potentials_ s = []) as E.
    { destruct Hs as [?|[Hp _ _]]; [done|]. apply Permutation_nil_r in Hp. by apply fmap_nil_inv in Hp. }
    split; [|left]; exact E.
  - rewrite <-El in *. cbn [ChildPotentials.markDirty ChildPotentials.shouldRefresh].
    destruct (ChildPotentials.refresh_from_scratch coefficient bounds affectedSize children value
      (ChildPotentials.markDirty s) Hr) as [E1 E2].
    { destruct Hs as [?|[? ? ?]]; [by left|right]. by split. }
    split; [done|]. right. destruct (ChildPotentials.refreshDescendingChildPotentials _ _ _ _ _ _) as [ps b].
    simpl in *. subst ps. by apply ChildPotentials.scratch_cached.
Qed.
End refreshes.

(** C12. After any history of applies and reads the incremental refresh of the potentials
    of the children, which keeps the entries of the children whose values did not change
    and merges the others into them, gives the list that sorting all children from
    scratch gives. *)
Theorem incremental_potentials_from_scratch coefficient bounds affectedSize children history value :
  Forall (ChildPotentials.regular coefficient bounds children) (history ++ [value]) →
  ChildPotentials.potentials_ (foldl (read_after_apply coefficient bounds affectedSize children)
    ChildPotentials.empty (history ++ [value])) =
  ChildPotentials.from_scratch coefficient bounds affectedSize children value.
Proof.
  intros [Hh [Hv _]%Forall_cons]%Forall_app. rewrite foldl_snoc.
  apply (read_cached coefficient bounds affectedSize children value _ Hv).
  set (s0 := ChildPotentials.empty).
  assert (ChildPotentials.potentials_ s0 = [] ∨ ChildPotentials.cached coefficient bounds affectedSize children s0) as Hs
    by (by left).
  clearbody s0. revert s0 Hs. induction Hh as [|value' history Hv' _ IH]; intros s0 Hs; [done|].
  simpl. apply IH. by apply read_cached.
Qed.

(** Three children with coefficients 1, 2 and -1. *)
Definition sample_coefficient (e : Z) : double := if decide (e = 2) then d2 else if decide (e = 3) then dofZ (-1) else d1.

Definition sample_bounds (e : Z) : double * double := (d0, dofZ 10).

Definition values_of (a b c : Z) (e : Z) : double :=
  if decide (e = 1) then dofZ a else if decide (e = 2) then dofZ b else dofZ c.

Lemma incremental_potentials_from_scratch_witness :
  Forall (ChildPotentials.regular sample_coefficient sample_bounds [1; 2; 3])
    ([values_of 4 3 4; values_of 4 1 4; values_of 4 1 4] ++ [values_of 4 1 9]) ∧
  ChildPotentials.potentials_ (foldl (read_after_apply sample_coefficient sample_bounds (λ _, None) [1; 2; 3])
    ChildPotentials.empty ([values_of 4 3 4; values_of 4 1 4; values_of 4 1 4] ++ [values_of 4 1 9])) =
  ChildPotentials.from_scratch sample_coefficient sample_bounds (λ _, None) [1; 2; 3] (values_of 4 1 9) ∧
  ChildPotentials.expr <$> ChildPotentials.from_scratch sample_coefficient sample_bounds (λ _, None) [1; 2; 3]
    (values_of 4 1 9) = [1; 2; 3].
Proof.
  assert (Forall (ChildPotentials.regular sample_coefficient sample_bounds [1; 2; 3])
    ([values_of 4 3 4; values_of 4 1 4; values_of 4 1 4] ++ [values_of 4 1 9])) as Hr.
  { repeat constructor; repeat match goal with
      | H : _ ∈ _ :: _ |- _ => apply elem_of_cons in H as [->|H]
      | H : _ ∈ [] |- _ => by apply elem_of_nil in H
      end; vm_compute; done. }
  split; [exact Hr|]. split; [|vm_compute; reflexivity].
  apply (incremental_potentials_from_scratch sample_coefficient sample_bounds (λ _, None) [1; 2; 3]
    [values_of 4 3 4; values_of 4 1 4; values_of 4 1 4] (values_of 4 1 9) Hr).
Defined.

(** ** The containers of a subgraph *)
Section queries.
Context (hash : gset Z → Z) (direct : Z → ContainerSetWithHash.t) (children : Z → list Z).

(** The sets of several nodes, asked for one after the other. *)
Fixpoint uniqueSets (fuel : nat) (memo : gmap Z ContainerSetWithHash.t) (nodes : list Z)
    : result (list ContainerSetWithHash.t) :=
  match nodes with
  | [] => Ok []
  | e :: nodes =>
      '(u, memo) ← AffectedContainers.getUniqueAffectedContainersInSubgraphIfExists hash direct children fuel memo e;
      us ← uniqueSets fuel memo nodes;
      Ok (u :: us)
  end.
End queries.

(** C13. The set of containers a subgraph affects is computed and memoized exactly: on an
    acyclic graph, whatever nodes are asked for in whatever order, each answer is a
    non-empty set of containers found at a node where the descent stops, all non-empty
    sets found there having the same hash, or the empty set if there is none, and the
    null set exactly if two of them have different hashes.  The code compares the sets
    by their hashes only: if no two different sets of the graph have the same hash, the
    answer is the one non-empty set found, and null exactly if there are two. *)
Theorem unique_affected_containers_exact hash direct children height fuel nodes :
  (∀ e c, c ∈ children e → (height c < height e)%nat) →
  (∀ e d, ContainerSetWithHash.containersPtr_ (direct e) = Some d →
     ContainerSetWithHash.hashValueOpt_ (direct e) = Some (hash d)) →
  (∀ e, e ∈ nodes → (height e < fuel)%nat) →
  ∃ us, uniqueSets hash direct children fuel ∅ nodes = Ok us ∧
    Forall2 (AffectedContainers.exact hash direct children) nodes us ∧
    (AffectedContainers.no_collision hash direct →
     Forall2 (AffectedContainers.exact_sets direct children) nodes us).
Proof.
  intros Hh Hd Hf. assert (∃ us, uniqueSets hash direct children fuel ∅ nodes = Ok us ∧
    Forall2 (AffectedContainers.exact hash direct children) nodes us) as (us & E & Hus).
  2: { exists us. split; [done|]. split; [done|]. intros Hn. eapply Forall2_impl; [exact Hus|].
       intros e u. by apply AffectedContainers.exact_no_collision. }
  assert (AffectedContainers.good hash direct children ∅ ∅) as Hg by (by intros ? ?).
  revert Hg. generalize (∅ : gmap Z ContainerSetWithHash.t).
  induction nodes as [|e nodes IH]; intros memo Hg; simpl; [eauto|].
  destruct (AffectedContainers.getUnique_spec hash direct children height Hh Hd fuel memo e)
    as (u & memo' & -> & Hu & Hg'); [set_solver|done|]. cbn [mbind result_bind].
  destruct (IH ltac:(set_solver) memo' Hg') as (us & -> & Hus). cbn [mbind result_bind]. eauto.
Qed.

(** Node 1 has the children 2 and 3, node 2 the children 4 and 5, node 3 the child 6;
    4 and 5 affect the containers 7 and 8, 6 the container 9. *)
Definition sample_children (e : Z) : list Z :=
  if decide (e = 1) then [2; 3] else if decide (e = 2) then [4; 5] else if decide (e = 3) then [6] else [].

Definition sample_hash (s : gset Z) : Z := set_fold Z.add 0 s.

Definition sample_direct (e : Z) : ContainerSetWithHash.t :=
  if decide (e = 4 ∨ e = 5) then ContainerSetWithHash.mk (Some {[7; 8]}) (Some 15)
  else if decide (e = 6) then ContainerSetWithHash.mk (Some {[9]}) (Some 9)
  else ContainerSetWithHash.empty.

Definition sample_height (e : Z) : nat := if decide (e = 1) then 2 else if decide (e = 2 ∨ e = 3) then 1 else 0.

Lemma unique_affected_containers_exact_witness :
  (∃ us, uniqueSets sample_hash sample_direct sample_children 3 ∅ [1; 2; 3; 6] = Ok us ∧
    Forall2 (AffectedContainers.exact sample_hash sample_direct sample_children) [1; 2; 3; 6] us ∧
    Forall2 (AffectedContainers.exact_sets sample_direct sample_children) [1; 2; 3; 6] us) ∧
  uniqueSets sample_hash sample_direct sample_children 3 ∅ [1; 2; 3; 6] = Ok [ContainerSetWithHash.empty;
    ContainerSetWithHash.mk (Some {[7; 8]}) (Some 15); ContainerSetWithHash.mk (Some {[9]}) (Some 9);
    ContainerSetWithHash.mk (Some {[9]}) (Some 9)].
Proof.
  split; [|vm_compute; reflexivity].
  destruct (unique_affected_containers_exact sample_hash sample_direct sample_children sample_height 3
    [1; 2; 3; 6]) as (us & E & H1 & H2); [| | |exists us; split; [done|]; split; [done|]; apply H2].
  - intros e c. unfold sample_children, sample_height. repeat case_decide; subst; try set_solver; lia.
  - intros e d. unfold sample_direct. repeat case_decide; simpl; [intros [= <-]; by vm_compute..|done].
  - intros e He. unfold sample_height. repeat case_decide; lia.
  - intros e1 e2 d1 d2. unfold sample_direct. repeat case_decide; simpl; intros [= <-] [= <-]; try done;
      intros _ _ Eh; vm_compute in Eh; done.
Defined.

(** ** The potentials of the objects *)

(** C14. The merged potentials, from any number of sequences each sorted by potential, end
    and give every object of the inputs exactly once, with the best potential it has in any
    of them and the best objects first; the hot containers that are read off them are the
    containers of these objects, each once, and a container has an object that is at
    least as good as every object of the containers after it. *)
Theorem containers_by_merged_potentials {I} `{!Iterator I (Z * double)} descending a f (inputs : list I) :
  ObjectPotentialsMergeIterator.regular descending inputs →
  (∀ p, p ∈ ObjectPotentialsMergeIterator.remaining inputs → Assignment.getContainer a p.1 = Ok (f p.1)) →
  ∃ ps cs, ObjectPotentialsMergeIterator.makeObjectPotentialsMergeContainer descending inputs = Ok ps ∧
    ObjectPotentialsMergeIterator.best_of descending inputs ps ∧
    containersByPotential a ps = Ok cs ∧ NoDup cs ∧ (∀ c, c ∈ cs ↔ ∃ p, p ∈ ps ∧ f p.1 = c) ∧
    StronglySorted (as_hot descending f ps) cs.
Proof.
  intros Hr Hf. destruct (ObjectPotentialsMergeIterator.merge_spec descending inputs Hr) as (ps & E & Hb).
  destruct (containersByPotential_spec descending f a ps) as (cs & Ec & Hcs).
  - intros p Hp. by apply Hf, Hb.
  - by apply Hb.
  - by exists ps, cs.
Qed.

Definition sample_inputs : list (list (Z * double)) :=
  [[(1, dofZ 5); (3, dofZ 2)]; []; [(2, dofZ 4); (1, dofZ 3)]].

Definition sample_assignment : Assignment.t := Assignment.make [(7, [1; 3]); (8, [2])] None ∅ false.

Definition sample_container (o : Z) : Z := if decide (o = 2) then 8 else 7.

Lemma containers_by_merged_potentials_witness :
  (∃ ps cs, ObjectPotentialsMergeIterator.makeObjectPotentialsMergeContainer true sample_inputs = Ok ps ∧
    ObjectPotentialsMergeIterator.best_of true sample_inputs ps ∧
    containersByPotential sample_assignment ps = Ok cs ∧ NoDup cs ∧
    (∀ c, c ∈ cs ↔ ∃ p, p ∈ ps ∧ sample_container p.1 = c) ∧
    StronglySorted (as_hot true sample_container ps) cs) ∧
  ObjectPotentialsMergeIterator.makeObjectPotentialsMergeContainer true sample_inputs =
    Ok [(1, dofZ 5); (2, dofZ 4); (3, dofZ 2)].
Proof.
  split; [|vm_compute; reflexivity].
  apply (containers_by_merged_potentials true sample_assignment sample_container sample_inputs).
  - repeat constructor; vm_compute; done.
  - intros p Hp. vm_compute in Hp. repeat apply elem_of_cons in Hp as [->|Hp]; [vm_compute; reflexivity..|].
    by apply elem_of_nil in Hp.
Defined.

(** [clone], which every copy of the iterator calls, forgets the objects that were
    already given: after the first step over these inputs the iterator has one object
    left, its copy gives object 1 a second time. *)
Theorem merge_clone_repeats_objects :
  let it := ObjectPotentialsMergeIterator.construct [[(1, dofZ 5)]; [(2, dofZ 4); (1, dofZ 3)]] in
  ∃ it', ObjectPotentialsMergeIterator.increment true it = Ok it' ∧
    ObjectPotentialsMergeIterator.collect true 5 it' = Ok [(2, dofZ 4)] ∧
    ObjectPotentialsMergeIterator.collect true 5 (ObjectPotentialsMergeIterator.clone it') =
      Ok [(2, dofZ 4); (1, dofZ 3)].
Proof. eexists. split; [vm_compute; reflexivity|]. split; vm_compute; reflexivity. Qed.
