(* ===== verification/EntityTheorems.v ===== *)
(** * Theorems on the entities of a problem

    The serialization of a universe loses nothing its queries show, its graph has an edge
    for every membership, a scope accepts exactly disjoint items, and a dimension given
    by the values of groups answers as the one given by the values of their objects. *)

From S2P Require Import Prelude Double Exact ChangeSet Precision Bits CompressedIdMap ObjectValues.
From S2P Require Import Entities Scopes Partitions Goals Routing IdStore Dimensions DynamicDimension.
From S2P Require Import ObjectDimensions Universe EntityGraph.

Open Scope Z_scope.

(** ** A universe

    Two containers and three objects, a scope with an item for each container, a partition
    into two groups, a static dimension and one whose values depend on the item of the
    scope and are given by groups. *)
Module SmallUniverse.
#[local] Existing Instance canonical_order.
#[local] Existing Instance canonical_names.

Definition names (l : list (string * Z)) : gmap string Z := list_to_map l.

Definition idStore : IdStore.t := {|
  IdStore.objectNames := ["a"; "b"; "c"];
  IdStore.containerNames := ["h0"; "h1"];
  IdStore.scopeNames := ["rack"];
  IdStore.scopeItemNames := ["r0"; "r1"];
  IdStore.partitionNames := ["job"];
  IdStore.groupNames := ["j0"; "j1"];
  IdStore.dimensionNames := ["cpu"; "ram"];
  IdStore.goalNames := ["balance"];
  IdStore.constraintNames := ["capacity"];
  IdStore.routingConfigNames := [];
  IdStore.objectIds := names [("a", 0); ("b", 1); ("c", 2)];
  IdStore.containerIds := names [("h0", 0); ("h1", 1)];
  IdStore.scopeIds := names [("rack", 0)];
  IdStore.scopeItemIds := {[0 := names [("r0", 0); ("r1", 1)]]};
  IdStore.partitionNameToId := names [("job", 0)];
  IdStore.groupIds := {[0 := names [("j0", 0); ("j1", 1)]]};
  IdStore.dimensionIds := names [("cpu", 0); ("ram", 1)];
  IdStore.goalIds := names [("balance", 0)];
  IdStore.constraintIds := names [("capacity", 0)];
  IdStore.routingConfigIds := ∅
|}.

Definition groups : gmap Z (list Z) := {[0 := [0; 1]; 1 := [2]]}.
Definition partitions : Partitions.t := Partitions.mk {[0 := Partition.make groups]}.

Definition get {A} (r : result A) (d : A) : A := match r with Ok a => a | Throw _ => d end.

(** 2 for object 0, 1 for the others. *)
Definition cpuValues : CompressedIdMap.t (V := double) :=
  get (ValuesThrift.makeObjectValues (transformMap EntityId.asInt id {[0 := d2]}) d1 3)
      (CompressedIdMap.make 3 d1 0).

Definition cpu : ObjectDimension.t :=
  get (ObjectDimension.makeStatic cpuValues) (ObjectDimension.mk [] false).

(** On item 1 the objects of the group 0 have the value 2, on item 0 the objects of the
    group 1; elsewhere 1. *)
Definition ramValues : gmap Z (gmap Z double) := {[0 := {[1 := d2]}; 1 := {[0 := d2; 1 := d1]}]}.

Definition ram : ObjectDimension.t :=
  get (ObjectDimension.makeDynamicGroups 0 (Partition.make groups) ramValues d1 3 0) (ObjectDimension.mk [] false).

Definition objects : Objects.t :=
  get (Objects.make 3 {[0 := cpu; 1 := ram]}) (Objects.mk 0 ∅ (ObjectDimension.mk [] false)).

Definition scope : Scope.t :=
  get (Scope.make {[0 := {[0]}; 1 := {[1]}]} {[0 := ScopeDimension.mk {[0 := d2]} d1]}) (Scope.mk ∅ ∅ [] ∅).

Definition goals : Goals.t unit := get (Goals.make {[0 := mkGoal tt d1 0]}) (Goals.mk ∅ ∅ 0).

Definition universe : Universe.t unit unit unit unit := {|
  Universe.idStore := idStore;
  Universe.objectTypeName := "task";
  Universe.containerTypeName := "host";
  Universe.objects := objects;
  Universe.containers := Containers.mk {[0 := [0; 1]; 1 := [2]]};
  Universe.similarContainerIds := Some [[0; 1]];
  Universe.scopes := Scopes.mk {[0 := scope]};
  Universe.partitions := partitions;
  Universe.goals := goals;
  Universe.constraints := Constraints.mk ∅;
  Universe.stableOptimization := true;
  Universe.moveObjectsOnce := false;
  Universe.descendingHotnessContainers := [1];
  Universe.objectOrderingDimensionId := Some 0;
  Universe.routingConfigIdToRoutingConfig := ∅;
  Universe.idToDestinationsToExploreOptions := ∅;
  Universe.precision := defaultTolerances
|}.

Ltac by_evaluation := apply (bool_decide_unpack _); vm_compute; exact I.

Lemma named_check l m : bool_decide (map_Forall (λ name id, 0 ≤ id < 2 ^ 31 ∧ l !! Z.to_nat id = Some name) m) →
  named l m.
Proof. intros Hc%bool_decide_unpack name id Hm. apply (Hc name id Hm). Qed.

Lemma nested_check n1 n2 name inner : named n1 (names [(name, 0)]) → named n2 inner →
  named_nested n1 n2 (names [(name, 0)]) {[0 := inner]}.
Proof.
  intros H1 H2. split; [done| |by intros id x [_ <-]%lookup_singleton_Some].
  assert (names [(name, 0)] = {[name := 0]}) as -> by done. intros id. split.
  - intros [x [<- _]%lookup_singleton_Some]. exists name. apply lookup_singleton_eq.
  - intros [nm [_ <-]%lookup_singleton_Some]. rewrite lookup_singleton_eq. by eexists.
Qed.

Lemma idStore_wf : IdStore.wf idStore.
Proof.
  split; simpl; try apply nested_check; apply named_check; vm_compute; exact I.
Qed.

Lemma range_valid i : 0 ≤ i < 10 → EntityId.valid i.
Proof. unfold EntityId.valid, EntityId.modulus. lia. Qed.

Lemma d1_canon : canon d1.
Proof. by_evaluation. Qed.
Lemma d2_canon : canon d2.
Proof. by_evaluation. Qed.

Lemma cpu_wf : ObjectDimension.wf 3 partitions cpu.
Proof.
  destruct (ValuesThrift.makeObjectValues_models ({[0 := d2]} : gmap Z double) d1 3) as (c & E & Hc & Ht & Hd); [lia| |].
  { intros k v [<- <-]%lookup_singleton_Some. split; [lia|by vm_compute]. }
  assert (objects_ok 3 d1 c {[0 := d2]}) as Hok.
  { split_and!; [done..|]. intros k v [_ <-]%lookup_singleton_Some. apply d2_canon. }
  unfold cpu, cpuValues. rewrite E. simpl get.
  destruct (objects_roundTrip 3 d1 c _ ltac:(lia) Hok) as (? & ? & l & ? & _ & _ & _ & _ & El & _).
  unfold ObjectDimension.makeStatic. destruct (ObjectStaticDimension.make c) as [d|e] eqn:Em.
  - simpl. apply Forall_singleton. simpl. exists c, {[0 := d2]}, d1. split_and!; [done|apply d1_canon|done..].
  - exfalso. unfold ObjectStaticDimension.make in Em. cbn [ObjectValues.ofMap mbind result_bind] in Em.
    rewrite El in Em. done.
Qed.

Lemma groups_check gv : map_Forall (λ g v, 0 ≤ g < 2 ∧ canon v) gv → groups_ok 3 d1 gv groups.
Proof.
  intros Hg. split.
  - by vm_compute.
  - intros g [v [Hgv _]%Hg]. assert (g = 0 ∨ g = 1) as [->| ->] by lia; by eexists.
  - intros g v [_ ?]%Hg. done.
  - intros g [v [? _]%Hg]%elem_of_dom. apply range_valid. lia.
Qed.

Lemma ramValues_ok i gv : ramValues !! i = Some gv → EntityId.valid i ∧ groups_ok 3 d1 gv groups.
Proof.
  intros Hi. assert (map_Forall (λ i gv, 0 ≤ i < 2 ∧ map_Forall (λ g v, 0 ≤ g < 2 ∧ canon v) gv) ramValues) as Hr by by_evaluation.
  destruct (Hr i gv Hi). split; [apply range_valid; lia|by apply groups_check].
Qed.

(** The values of the objects that [ramValues] stands for. *)
Definition read (m : gmap Z double) : CompressedIdMap.t (V := double) :=
  get (ValuesThrift.makeObjectValues (transformMap EntityId.asInt id m) d1 3) (CompressedIdMap.make 3 d1 0).

Definition expanded : gmap Z (CompressedIdMap.t (V := double)) :=
  {[0 := read {[2 := d2]}; 1 := read {[0 := d2; 1 := d2]}]}.

Lemma read_ok m : map_Forall (λ k v, 0 ≤ k < 3 ∧ (v =? d1)%D = false ∧ canon v) m → objects_ok 3 d1 (read m) m.
Proof.
  intros Hm. destruct (ValuesThrift.makeObjectValues_models m d1 3) as (c & E & Hc & Ht & Hd); [lia| |].
  { intros k v (? & ? & _)%Hm. done. }
  unfold read. rewrite E. split_and!; [done..|]. by intros k v (_ & _ & ?)%Hm.
Qed.

Lemma expanded_ok i : option_Forall2 (ObjectDynamicDimension.expands 3 d1 groups) (expanded !! i) (ramValues !! i).
Proof.
  assert (d2 ≠ d1) as Hne by by_evaluation. unfold expanded, ramValues.
  destruct (decide (i = 0)) as [->|H0]; [|destruct (decide (i = 1)) as [->|H1]].
  - constructor. exists {[2 := d2]}. split; [apply read_ok; by_evaluation|]. intros o v. split.
    + intros [<- <-]%lookup_singleton_Some. split; [done|]. exists 1, [2]. split_and!; [done..|left].
    + intros (_ & g & os & [<- <-]%lookup_singleton_Some & [= <-] & ->%list_elem_of_singleton). done.
  - constructor. exists {[0 := d2; 1 := d2]}. split; [apply read_ok; by_evaluation|]. intros o v. split.
    + intros [[<- <-]|[_ [<- <-]%lookup_singleton_Some]]%lookup_insert_Some; (split; [done|]);
        exists 0, [0; 1]; (split_and!; [done..|set_solver]).
    + intros (Hv & g & os & [[<- <-]|[_ [<- <-]%lookup_singleton_Some]]%lookup_insert_Some & [= <-] & Ho); [|done].
      assert (o = 0 ∨ o = 1) as [->| ->] by set_solver; done.
  - rewrite !lookup_insert_ne, !lookup_singleton_ne by done. constructor.
Qed.

Lemma groups_range g os o : groups !! g = Some os → o ∈ os → 0 ≤ o < 3.
Proof.
  intros Hg Ho. assert (map_Forall (λ _ os, Forall (λ o, 0 ≤ o < 3) os) groups) as Hr by by_evaluation.
  specialize (Hr g os Hg). rewrite Forall_forall in Hr. by apply Hr.
Qed.

Lemma ram_wf : ObjectDimension.wf 3 partitions ram.
Proof.
  destruct (ObjectDynamicDimension.makeGroups_wf 3 partitions 0 d1 0 groups ramValues) as (d & E & W & _);
    [lia|by apply range_valid|apply d1_canon|by apply range_valid|done|by vm_compute|apply ramValues_ok|].
  unfold ram, ObjectDimension.makeDynamicGroups. rewrite E. by apply Forall_singleton.
Qed.

Lemma objects_wf : Objects.wf partitions objects.
Proof.
  assert (∃ d, Objects.makeDefaultDimension 3 = Ok d) as [d Ed] by (eexists; vm_compute; reflexivity).
  unfold objects, Objects.make. rewrite Ed. split; simpl; [lia|done|].
  intros k a [[<- <-]|[_ [<- <-]%lookup_singleton_Some]]%lookup_insert_Some;
    (split; [apply range_valid; lia|]); [apply cpu_wf|apply ram_wf].
Qed.

Lemma universe_wf : Universe.wf universe.
Proof.
  split; simpl.
  - apply idStore_wf.
  - apply objects_wf.
  - unfold Containers.wf. by_evaluation.
  - intros l [= <-]. by_evaluation.
  - intros k s Hk. simpl in Hk. apply lookup_singleton_Some in Hk as [<- <-]. split; [by apply range_valid|].
    exists {[0 := {[0]}; 1 := {[1]}]}, {[0 := ScopeDimension.mk {[0 := d2]} d1]}.
    split; [vm_compute; reflexivity|]. split.
    + intros k cs Hk. assert (map_Forall (λ k cs, EntityId.valid k ∧ set_Forall EntityId.valid cs)
        ({[0 := {[0]}; 1 := {[1]}]} : gmap Z (gset Z))) as Hc by by_evaluation. apply (Hc k cs Hk).
    + unfold ScopeDimension.wf. by_evaluation.
  - intros k p Hk. simpl in Hk. apply lookup_singleton_Some in Hk as [<- <-]. split; [by apply range_valid|]. exists groups. split; [done|by_evaluation].
  - exists {[0 := mkGoal tt d1 0]}. split; [vm_compute; reflexivity|]. intros k g [<- <-]%lookup_singleton_Some.
    split; [by apply range_valid|done].
  - unfold Constraints.wf. by_evaluation.
  - by_evaluation.
  - intros d [= <-]. by apply range_valid.
  - intros k c []%lookup_empty_Some.
Qed.

Lemma containers_range c os o :
  Containers.initialAssignment (Universe.containers universe) !! c = Some os → o ∈ os → 0 ≤ o < 3.
Proof.
  intros Hc Ho. assert (map_Forall (λ _ os, Forall (λ o, 0 ≤ o < 3) os)
    (Containers.initialAssignment (Universe.containers universe))) as Hr by by_evaluation.
  specialize (Hr c os Hc). rewrite Forall_forall in Hr. by apply Hr.
Qed.

Lemma universe_graph_ok : EntityGraph.graph_ok universe.
Proof.
  split.
  - apply containers_range.
  - intros k sc i cs c Hk. simpl in Hk. apply lookup_singleton_Some in Hk as [_ <-].
    change (Scope.scopeItems scope) with (({[0 := {[0]}; 1 := {[1]}]} : gmap Z (gset Z))).
    intros [[_ <-]|[_ [_ <-]%lookup_singleton_Some]]%lookup_insert_Some ->%elem_of_singleton; by eexists.
  - intros k p g os o Hk. simpl in Hk. apply lookup_singleton_Some in Hk as [_ <-]. apply groups_range.
  - assert (∃ d, Objects.makeDefaultDimension 3 = Ok d) as [d Ed] by (eexists; vm_compute; reflexivity).
    intros k dim. unfold universe, objects, Objects.make. cbn [Universe.objects]. rewrite Ed. simpl.
    by intros [[<- <-]|[_ [<- <-]%lookup_singleton_Some]]%lookup_insert_Some.
Qed.

Lemma universe_scalar : EntityGraph.scalar universe.
Proof.
  assert (∃ d, Objects.makeDefaultDimension 3 = Ok d) as [d Ed] by (eexists; vm_compute; reflexivity).
  intros k dim. unfold universe, objects, Objects.make. cbn [Universe.objects]. rewrite Ed. simpl.
  intros [[<- <-]|[_ [<- <-]%lookup_singleton_Some]]%lookup_insert_Some; eexists; vm_compute; reflexivity.
Qed.
End SmallUniverse.

(** C22. A universe survives its serialization: whatever the order of the hash maps and the
    order in which the concurrent tasks finish that rebuild the partitions, [toThrift]
    succeeds and the constructor from its result rebuilds a universe that differs at most
    in the order of the groups of an object, of the goals of a tuple position and of the
    items of a scope, and in how the values of dimensions are stored; every query of a
    dimension, its statistics included, answers the same. *)
Theorem universe_survives_serialization `{HashOrder, NameOrder} {G C P D : Type} (u : Universe.t G C P D) :
  Universe.wf u → ∃ t, Universe.toThrift u = Ok t ∧
  ∀ finished, finished ≡ₚ map_to_list (Partitions.thrift_partitions (Universe.thrift_partitions t)) →
  ∃ u', Universe.fromThrift finished t = Ok u' ∧ Universe.same u' u.
Proof. apply Universe.universe_roundTrip. Qed.

Lemma universe_survives_serialization_witness : ∃ t u',
  Universe.toThrift (H := canonical_order) (H0 := canonical_names) SmallUniverse.universe = Ok t ∧
  Universe.fromThrift (H := canonical_order) (H0 := canonical_names)
    (map_to_list (Partitions.thrift_partitions (Universe.thrift_partitions t))) t = Ok u' ∧
  Universe.same u' SmallUniverse.universe.
Proof.
  destruct (universe_survives_serialization (H := canonical_order) (H0 := canonical_names) SmallUniverse.universe
    SmallUniverse.universe_wf) as (t & Et & Hf).
  destruct (Hf _ (reflexivity _)) as (u' & Eu & Hs). exists t, u'. exact (conj Et (conj Eu Hs)).
Defined.

(** A scope is accepted exactly when no container is in two of its items, and then a
    container is looked up to the item it is in; overlapping items are refused with the
    exception that names them. *)
Theorem scope_accepts_disjoint_items `{HashOrder} (m : gmap Z (gset Z)) (dims : gmap Z ScopeDimension.t) :
  match Scope.make m dims with
  | Ok s => Scope.disjoint_items m ∧ Scope.scopeItems s = m ∧
      Scope.scopeItemIds s ≡ₚ (map_to_list m).*1 ∧
      ∀ c i, Scope.getScopeItemId s c = Some i ↔ ∃ cs, m !! i = Some cs ∧ c ∈ cs
  | Throw e => e = Scope.overlap ∧ ¬ Scope.disjoint_items m
  end.
Proof.
  pose proof (Scope.make_accepts m dims) as Ha. pose proof (Scope.scope_index m dims) as Hi.
  destruct (Scope.make m dims) as [s|e]; [|done]. specialize (Hi s eq_refl). by split.
Qed.

(** C23. A dynamic dimension given by the values of the groups of a disjoint partition, never
    expanded to objects, answers every query as the dimension given by the values of the
    objects: the value of an object on an item, the defaults, and the statistics
    collected from one observation for each group. *)
Theorem group_values_stand_for_objects `{HashOrder} n sid dv pid gs values cs :
  0 ≤ n < 2 ^ 32 → EntityId.valid sid → canon dv → EntityId.valid pid →
  Partition.isDisjoint (Partition.make gs) = true →
  (∀ g os o, gs !! g = Some os → o ∈ os → 0 ≤ o < n) →
  (∀ i gv, values !! i = Some gv → EntityId.valid i ∧ groups_ok n dv gv gs) →
  (∀ i, option_Forall2 (ObjectDynamicDimension.expands n dv gs) (cs !! i) (values !! i)) →
  ∃ d d', ObjectDynamicDimension.makeGroups sid (Partition.make gs) values dv n pid = Ok d ∧
    ObjectDynamicDimension.makeObjects sid cs dv n = Ok d' ∧ ObjectDynamicDimension.same n d' d.
Proof. apply ObjectDynamicDimension.groups_as_objects. Qed.

Lemma group_values_stand_for_objects_witness : ∃ d d',
  ObjectDynamicDimension.makeGroups (H := canonical_order) 0 (Partition.make (H := canonical_order) SmallUniverse.groups)
    SmallUniverse.ramValues d1 3 0 = Ok d ∧
  ObjectDynamicDimension.makeObjects (H := canonical_order) 0 SmallUniverse.expanded d1 3 = Ok d' ∧
  ObjectDynamicDimension.same 3 d' d.
Proof.
  apply (group_values_stand_for_objects (H := canonical_order) 3 0 d1 0 SmallUniverse.groups SmallUniverse.ramValues
    SmallUniverse.expanded).
  - lia.
  - by apply SmallUniverse.range_valid.
  - apply SmallUniverse.d1_canon.
  - by apply SmallUniverse.range_valid.
  - by vm_compute.
  - apply SmallUniverse.groups_range.
  - apply SmallUniverse.ramValues_ok.
  - apply SmallUniverse.expanded_ok.
Defined.

(** C24. The graph of a well-formed universe, whose containers, scopes and partitions list
    objects and containers of the universe and whose dimensions have names.  If every
    dimension has one value per object, the graph is built, its vertices all have the
    declared number of components, every edge joins the vertices of an object and its
    container, of a container and an item of a scope it is in, or of an object and a group
    it is in, and every such membership has an edge.  If some dimension is not scalar,
    building the graph throws. *)
Theorem universe_graph_is_exact `{HashOrder, NameOrder} {G C P D : Type} (u : Universe.t G C P D) :
  Universe.wf u → EntityGraph.graph_ok u →
  (EntityGraph.scalar u → ∃ g, EntityGraph.buildGraph u = Ok g ∧
   (∀ v, v ∈ EntityGraph.vertices g → Z.of_nat (length (Objects.embedding v)) = EntityGraph.embeddingDimension g) ∧
   (∀ e, e ∈ EntityGraph.edges g → ∃ ts s tt t, EntityGraph.member u ts s tt t ∧
      EntityGraph.joins (EntityGraph.vertices g) e ts s tt t) ∧
   ∀ ts s tt t, EntityGraph.member u ts s tt t → ∃ e, e ∈ EntityGraph.edges g ∧
      EntityGraph.joins (EntityGraph.vertices g) e ts s tt t) ∧
  ∀ d dim, Objects.dimensions (Universe.objects u) !! d = Some dim → ¬ EntityGraph.single dim →
    EntityGraph.buildGraph u = Throw (runtime_error "expected single scalar dimension").
Proof.
  intros Hw Hg. split; [by apply EntityGraph.graph_spec|]. intros d dim. by apply EntityGraph.graph_refused.
Qed.

Lemma universe_graph_is_exact_witness : ∃ g,
  EntityGraph.buildGraph (H := canonical_order) SmallUniverse.universe = Ok g ∧
  ∀ v, v ∈ EntityGraph.vertices g → Z.of_nat (length (Objects.embedding v)) = EntityGraph.embeddingDimension g.
Proof.
  destruct (universe_graph_is_exact (H := canonical_order) (H0 := canonical_names) SmallUniverse.universe
    SmallUniverse.universe_wf SmallUniverse.universe_graph_ok) as [Hg _].
  destruct (Hg SmallUniverse.universe_scalar) as (g & Eg & Hv & _).
  exists g. exact (conj Eg Hv).
Defined.
