(* ===== verification/BuilderTheorems.v ===== *)
(** * Theorems about the builders

    The numbering of the assignment and of the items that are added concurrently, the
    universe that is assembled, and what happens to the numbering after an [add] or a [set]
    that failed. *)

From S2P Require Import Prelude ChangeSet Precision Entities Scopes IdStore Universe.
From S2P Require Import Builders AssignmentBuilder ConcurrentBuilders AsyncUniverseBuilder.
Import EntityId.

(** C28. The first assignment is accepted exactly when no container and no object is listed
    twice, whatever the shuffle; then objects and containers are numbered from 0 without
    gaps and every container holds the objects listed for it.  A second one is accepted
    exactly when it lists the same containers and objects, each once; the numbers are kept
    and the containers hold the new objects, and a refused one changes nothing. *)
Theorem assignment_is_numbered `{NameOrder} (l l2 : list (string * list string)) shuffled shuffled2 :
  shuffled ≡ₚ AssignmentBuilder.pairs l → Z.of_nat (length (AssignmentBuilder.pairs l)) ≤ 2 ^ 31 →
  match AssignmentBuilder.set AssignmentBuilder.empty l shuffled with
  | (b, Ok _) => AssignmentBuilder.proper l ∧ ∃ o c, AssignmentBuilder.build b = Ok (o, c) ∧ AssignmentBuilder.assigned l o c ∧
      match AssignmentBuilder.set b l2 shuffled2 with
      | (b', Ok _) => AssignmentBuilder.same_sets o c l2 ∧ ∃ c', AssignmentBuilder.build b' = Ok (o, c') ∧
          AssignmentBuilder.containerNameToId c' = AssignmentBuilder.containerNameToId c ∧ AssignmentBuilder.assigned l2 o c'
      | (b', Throw _) => ¬ AssignmentBuilder.same_sets o c l2 ∧ b' = b
      end
  | (b, Throw _) => ¬ AssignmentBuilder.proper l
  end.
Proof.
  intros Hp Hl. pose proof (AssignmentBuilder.assignment_set_spec l shuffled Hp Hl) as Hs.
  destruct (AssignmentBuilder.set AssignmentBuilder.empty l shuffled) as [b [[]|e]]; [|done].
  destruct Hs as (Hpr & o & c & Eo & Ec & Ha). split; [done|]. exists o, c.
  unfold AssignmentBuilder.build, AssignmentBuilder.getObjects, AssignmentBuilder.getContainers.
  split; [by rewrite Eo; cbn [mbind result_bind]; rewrite Ec|]. split; [done|].
  pose proof (AssignmentBuilder.reassign_spec o c _ (AssignmentBuilder.asg_objects _ _ _ Ha)
    (AssignmentBuilder.asg_containers _ _ _ Ha) ltac:(rewrite (AssignmentBuilder.asg_count _ _ _ Ha); lia) ltac:(lia) l2) as Hr.
  unfold AssignmentBuilder.set. rewrite Eo, Ec.
  destruct (AssignmentBuilder.reassign o c l2) as [c'|e]; [|done]. destruct Hr as (? & ? & ?). split; [done|]. by exists c'.
Qed.

Module SmallAssignment.
Definition input : list (string * list string) := [("host1"%string, ["a"%string; "b"%string]); ("host2"%string, [])].
Definition again : list (string * list string) := [("host2"%string, ["b"%string]); ("host1"%string, ["a"%string])].
Definition duplicated : list (string * list string) := [("host1"%string, ["a"%string; "a"%string])].
End SmallAssignment.

Lemma assignment_is_numbered_witness : AssignmentBuilder.proper SmallAssignment.input.
Proof.
  exact (proj1 (assignment_is_numbered (H := canonical_names) SmallAssignment.input SmallAssignment.again
    (AssignmentBuilder.pairs SmallAssignment.input) [] (reflexivity _) ltac:(by vm_compute))).
Defined.

(** C27. Scopes (or partitions) are added by any number of calls that run concurrently and draw
    the identifiers of their items from one counter.  No input lists an item twice (one that
    does is accepted and may lead to an access out of bounds, [repeated_item_out_of_range]
    below), and there are at most [2 ^ 31] identifiers.  For every interleaving of their
    steps that ends with all calls returned, none with an exception, and with data for every
    name: the names by identifier are built without an access out of bounds, every identifier of
    an item has the name it was drawn for, no identifier is without a name, and every item
    holds the members its input lists. *)
Theorem concurrent_items_are_numbered `{HashOrder, NameOrder} {P : Type} (emptyP : P) (insertP : P → Z → P)
    (memberIds : gmap string Z) (evs : list NestedBuilder.event) :
  let s := NestedBuilder.run emptyP insertP memberIds evs in
  NestedBuilder.legal 0 evs → Z.of_nat (NestedBuilder.made_by evs) ≤ 2 ^ 31 →
  Z.of_nat (sum_list_with (λ e, NestedBuilder.input_length e.2) (NestedBuilder.started_by evs)) ≤ 2 ^ 31 →
  NestedBuilder.errors s = [] → NestedBuilder.running s = [] → (∀ k, NestedBuilder.data s !! k ≠ Some None) →
  ∃ outer nested its outerNames v, NestedBuilder.build s = Some (outer, nested, its) ∧
    buildNameVector outer = Ok outerNames ∧ buildNameVectorFromNested nested = Ok v ∧
    named_nested outerNames v outer nested ∧
    (∀ id, (id < length v)%nat → ∃ k ns name, nested !! k = Some ns ∧ ns !! name = Some (Z.of_nat id)) ∧
    ∀ k i, (k, i) ∈ NestedBuilder.started_by evs → ∃ ns m, nested !! k = Some ns ∧ its !! k = Some m ∧
      NestedBuilder.local emptyP insertP memberIds i (NestedBuilder.input_length i) ns m.
Proof. apply NestedBuilder.interleaving_names. Qed.

(** Two scopes over three hosts; the calls take turns. *)
Module SmallScopes.
Import NestedBuilder.
Definition hosts : gmap string Z := {["h0"%string := 0; "h1"%string := 1; "h2"%string := 2]}.
Definition racks : input := ByItem [("r0"%string, ["h0"%string; "h1"%string]); ("r1"%string, ["h2"%string])].
Definition rows : input := ByMember [("h0"%string, "row"%string); ("h2"%string, "end"%string); ("h1"%string, "row"%string)].
Definition interleaving : list event :=
  [MakeId "rack"; MakeId "row"; Start 0 racks; Start 1 rows; Run 1; Run 0; Run 1; Run 0; Run 1; Run 1; Run 0].

(** An item listed twice takes an identifier that no name has. *)
Definition twice : input := ByItem [("r0"%string, ["h0"%string]); ("r0"%string, ["h1"%string]); ("r1"%string, ["h2"%string])].
Definition repeated : list event := [MakeId "rack"; Start 0 twice; Run 0; Run 0; Run 0; Run 0].

(** A call that failed (the host is not known) is repeated without the mistake. *)
Definition unknown : input := ByItem [("r0"%string, ["h9"%string])].
Definition retried : list event := [MakeId "rack"; Start 0 unknown; Run 0; Start 0 racks; Run 0; Run 0; Run 0].
End SmallScopes.

Lemma concurrent_items_are_numbered_witness :
  let s := NestedBuilder.run [] (λ l x, l ++ [x]) SmallScopes.hosts SmallScopes.interleaving in
  ∃ outer nested its, NestedBuilder.build (H := canonical_order) s = Some (outer, nested, its) ∧
    ∃ v, buildNameVectorFromNested (H := canonical_order) (H0 := canonical_names) nested = Ok v.
Proof.
  destruct (concurrent_items_are_numbered (H := canonical_order) (H0 := canonical_names) [] (λ l x, l ++ [x])
    SmallScopes.hosts SmallScopes.interleaving) as (outer & nested & its & names & v & Eb & _ & Ev & _).
  - cbn. repeat split; try lia. apply (bool_decide_eq_true_1 (NoDup ["r0"%string; "r1"%string])). reflexivity.
  - by vm_compute.
  - by vm_compute.
  - reflexivity.
  - reflexivity.
  - intros k Hk. assert (Hall : Forall (λ e, is_Some e.2) (map_to_list (NestedBuilder.data
      (NestedBuilder.run [] (λ l x, l ++ [x]) SmallScopes.hosts SmallScopes.interleaving)))).
    { apply (bool_decide_unpack _). vm_compute. exact I. }
    rewrite Forall_forall in Hall. destruct (Hall (k, None)) as [? ?]; [by apply elem_of_map_to_list|done].
  - by exists outer, nested, its; split; [|exists v].
Defined.

(** C25. Once the builders are ready, [build] neither suspends nor accesses a vector out of
    bounds, whatever the interleavings were and the order of the hash maps is: it throws
    exactly when two items of a scope share a container, and otherwise gives a universe that
    is well formed (every identifier has its name, every index is that of its data) and has
    the numbers, names and scopes of the builders.  Ready means: the assignment was accepted
    at the first attempt; every call that added a scope or a partition has returned, none
    with an exception, and none was given an input that lists an item twice (such an
    input is accepted, but the names may then be accessed out of bounds,
    [repeated_item_out_of_range]); every registered name has got its data; there are at
    most [2 ^ 31] of everything; and the dimensions, goals and routing data added are
    well formed. *)
Theorem builder_assembles_universe `{HashOrder, NameOrder} {G C P D : Type} (b : AsyncUniverseBuilder.t G C P D)
    l o c sevs pevs order :
  AsyncUniverseBuilder.ready b l o c sevs pevs → AsyncUniverseBuilder.added_ok b (AssignmentBuilder.numObjects o) →
  order ≡ₚ map_to_list (DimensionsBuilder.scopeDimensionIdToData (AsyncUniverseBuilder.dimensionsBuilder b)) →
  ∃ names itemNames items, ScopesBuilder.build (AsyncUniverseBuilder.scopesBuilder b) = Some (names, itemNames, items) ∧
  match AsyncUniverseBuilder.build b order with
  | Some (Ok u) => Universe.wf u ∧ map_Forall (λ _, Scope.disjoint_items) items ∧
      IdStore.objectIds (Universe.idStore u) = AssignmentBuilder.objectNameToId o ∧
      IdStore.containerIds (Universe.idStore u) = AssignmentBuilder.containerNameToId c ∧
      Containers.initialAssignment (Universe.containers u) = AssignmentBuilder.containerIdToObjectIds c ∧
      IdStore.scopeIds (Universe.idStore u) = names ∧ IdStore.scopeItemIds (Universe.idStore u) = itemNames ∧
      (∀ k, is_Some (Scopes.scopes (Universe.scopes u) !! k) ↔ is_Some (items !! k)) ∧
      ∀ k scope, Scopes.scopes (Universe.scopes u) !! k = Some scope →
        ∃ m ds, items !! k = Some m ∧ Scope.make m ds = Ok scope
  | Some (Throw e) => e = Scope.overlap ∧ ¬ map_Forall (λ _, Scope.disjoint_items) items
  | None => False
  end.
Proof. apply AsyncUniverseBuilder.build_wf. Qed.

(** A builder that was given two hosts and two objects. *)
Module SmallBuilder.
Definition precision : PrecisionTolerances := defaultTolerances.
Definition fresh : AsyncUniverseBuilder.t () () () () := AsyncUniverseBuilder.fresh precision "task" "host".
Definition built : AsyncUniverseBuilder.t () () () () * result () :=
  AsyncUniverseBuilder.setInitialAssignment (H := canonical_order) (H0 := canonical_names) fresh SmallAssignment.input
    (AssignmentBuilder.pairs SmallAssignment.input).

Lemma small_built_initialized : ∃ o c, AsyncUniverseBuilder.initialized (H := canonical_order) (H0 := canonical_names) fresh built.1
  SmallAssignment.input o c.
Proof.
  pose proof (AsyncUniverseBuilder.setInitialAssignment_spec (H := canonical_order) (H0 := canonical_names) fresh
    SmallAssignment.input (AssignmentBuilder.pairs SmallAssignment.input)) as Hs.
  unfold built. destruct (AsyncUniverseBuilder.setInitialAssignment _ _ _) as [b [[]|e]]; [apply Hs; done|].
  exfalso. apply Hs; try done. split; apply (bool_decide_unpack _); vm_compute; exact I.
Qed.
End SmallBuilder.

Lemma builder_assembles_universe_witness : ∃ names itemNames items,
  ScopesBuilder.build (H := canonical_order) (AsyncUniverseBuilder.scopesBuilder SmallBuilder.built.1) = Some (names, itemNames, items).
Proof.
  destruct SmallBuilder.small_built_initialized as (o & c & Hi).
  destruct (AsyncUniverseBuilder.initialized_ready (H := canonical_order) (H0 := canonical_names) SmallBuilder.precision "task" "host" _ _ _ _ Hi)
    as (R & A & Es); [by vm_compute|].
  destruct (builder_assembles_universe (H := canonical_order) (H0 := canonical_names) SmallBuilder.built.1 SmallAssignment.input o c _ _ []
    R A) as (names & itemNames & items & E & _).
  - rewrite Es. reflexivity.
  - exists names, itemNames, items. exact E.
Defined.

(** C26. From the names alone to a universe: given an assignment, in any shuffle, the builder
    accepts it exactly when no container and no object is listed twice; the universe that is
    then built is well formed, has the numbers of the assignment, and a scope with the name
    of the containers in which every container is an item of its own with its name. *)
Theorem universe_of_an_assignment `{HashOrder, NameOrder} {G C P D : Type} precision objectTypeName containerTypeName l shuffled :
  shuffled ≡ₚ AssignmentBuilder.pairs l → Z.of_nat (length (AssignmentBuilder.pairs l)) < 2 ^ 31 →
  match AsyncUniverseBuilder.setInitialAssignment (GoalSpecs := G) (ConstraintSpecs := C) (ConstraintPolicy := P)
    (DestinationsToExploreOptions := D) (AsyncUniverseBuilder.fresh precision objectTypeName containerTypeName) l shuffled with
  | (b, Ok _) => AssignmentBuilder.proper l ∧ ∃ o c u, AssignmentBuilder.assigned l o c ∧
      AsyncUniverseBuilder.build b [] = Some (Ok u) ∧ Universe.wf u ∧
      IdStore.objectIds (Universe.idStore u) = AssignmentBuilder.objectNameToId o ∧
      IdStore.containerIds (Universe.idStore u) = AssignmentBuilder.containerNameToId c ∧
      Containers.initialAssignment (Universe.containers u) = AssignmentBuilder.containerIdToObjectIds c ∧
      ∃ scope, IdStore.scopeIds (Universe.idStore u) = {[containerTypeName := 0]} ∧
        Scopes.getScope (Universe.scopes u) 0 = Ok scope ∧
        ∀ name cid, AssignmentBuilder.containerNameToId c !! name = Some cid →
          ∃ id, IdStore.getScopeItemId (Universe.idStore u) 0 name = Ok id ∧ Scope.getScopeItemId scope cid = Some id
  | (_, Throw _) => ¬ AssignmentBuilder.proper l
  end.
Proof. apply AsyncUniverseBuilder.universe_from_assignment. Qed.

Lemma universe_of_an_assignment_witness :
  match SmallBuilder.built with
  | (b, Ok _) => ∃ u, AsyncUniverseBuilder.build (H := canonical_order) (H0 := canonical_names) b [] = Some (Ok u)
  | _ => False
  end.
Proof.
  pose proof (universe_of_an_assignment (H := canonical_order) (H0 := canonical_names) (G := ()) (C := ()) (P := ()) (D := ())
    SmallBuilder.precision "task" "host" SmallAssignment.input (AssignmentBuilder.pairs SmallAssignment.input)
    (reflexivity _) ltac:(by vm_compute)) as Hu.
  unfold SmallBuilder.built, SmallBuilder.fresh. destruct (AsyncUniverseBuilder.setInitialAssignment _ _ _) as [b [r|e]].
  - destruct Hu as (_ & o & c & u & _ & E & _). exists u. exact E.
  - apply Hu. split; apply (bool_decide_unpack _); vm_compute; exact I.
Defined.

(** The names can not be built after either: an identifier lies beyond the names. *)
Example repeated_item_out_of_range :
  let s := NestedBuilder.run [] (λ l x, l ++ [x]) SmallScopes.hosts SmallScopes.repeated in
  NestedBuilder.errors s = [] ∧ ∃ outer nested its, NestedBuilder.build (H := canonical_order) s = Some (outer, nested, its) ∧
    buildNameVectorFromNested (H := canonical_order) (H0 := canonical_names) nested =
      Throw (undefined_behaviour "vector access out of bounds").
Proof. split; [reflexivity|]. do 3 eexists. by split; vm_compute. Qed.

Example retried_add_out_of_range :
  let s := NestedBuilder.run [] (λ l x, l ++ [x]) SmallScopes.hosts SmallScopes.retried in
  ∃ outer nested its, NestedBuilder.build (H := canonical_order) s = Some (outer, nested, its) ∧
    buildNameVectorFromNested (H := canonical_order) (H0 := canonical_names) nested =
      Throw (undefined_behaviour "vector access out of bounds").
Proof. do 3 eexists. by split; vm_compute. Qed.

(** The same for the names of the objects, after an assignment that was refused. *)
Example retried_set_out_of_range :
  let b := (AssignmentBuilder.set (H := canonical_names) AssignmentBuilder.empty SmallAssignment.duplicated
    (AssignmentBuilder.pairs SmallAssignment.duplicated)).1 in
  let '(b', r) := AssignmentBuilder.set (H := canonical_names) b SmallAssignment.input
    (AssignmentBuilder.pairs SmallAssignment.input) in
  r = Ok tt ∧ ∃ o c, AssignmentBuilder.build b' = Ok (o, c) ∧
  buildNameVector (H := canonical_names) (AssignmentBuilder.objectNameToId o) =
    Throw (undefined_behaviour "vector access out of bounds").
Proof. split; [reflexivity|]. do 2 eexists. by split; vm_compute. Qed.
